(* ===== verification/_CoqProject ===== *)
-Q . S2P
Prelude.v
Ms.v
Proto.v
Stats.v
Parse.v
Codec.v
Reply.v
Model.v
Format.v
Engine.v
Frames.v
Inv.v
InvFrame.v
InvRefresh.v
Queues.v
Moves.v
Tubes.v
Waiting.v
Rest.v
Dispatch.v
ConnOps.v
Commands.v
Sessions.v
Connect.v
Tick.v
Validate.v
Snapshot.v
Replay.v
Scan.v
Wal.v
WalDisk.v
WalFiles.v
WalIndex.v
WalInv.v
WalCompact.v
WalSpace.v
Valid.v
ValidInv.v
Reach.v
Recover.v
WalOpen.v
Log.v
Start.v
Serve.v
Effects.v
Keep.v
Sized.v
Journal.v
Actor.v
Durable.v
Restart.v
StoreSpec.v
Replica.v
Once.v
Seats.v
Auth.v
Conn.v
ConnRun.v
Server.v
ServerInv.v
ServerRun.v
ServerTurn.v
ServerReach.v
ServerPend.v
ServerStart.v
ServerSpec.v
Scenario.v
EngineSpec.v
StateSpec.v
WireSpec.v
Facts.v
Cluster.v
ClusterRun.v
ClusterBatch.v
ClusterSnap.v
ConnIds.v
Forward.v
ForwardRun.v
ClusterSpec.v
Status.v
