(* ===== verification/Prelude.v ===== *)
(** * beanstalkd-rs: a verification library

    The repository is a work queue server that speaks the beanstalkd
    protocol, alone or as a cluster.  This library models and proves correct
    the wire protocol, the queue engine with its snapshots and its recovery,
    the binary log, the actor that ties engine and log together, the
    connection tasks and accept loops around it, and of the cluster the
    replicated state machine, the forwarding of inputs to it and the decisions
    a node takes when it starts.

    ** The program

    A connection's bytes go through the codec of [crates/proto] (framing in
    [codec.rs], commands in [parse.rs], replies in [response.rs], statistics
    in [stats.rs]) and become inputs of the engine, [crates/engine]
    ([engine.rs], [model.rs], [ms.rs], [lib.rs]): a state machine without
    input or output of its own that holds jobs, tubes and connections, answers
    through an outbox and notes what the binary log must keep in a journal.
    In a cluster every node applies the same inputs ([apply_input]) and
    answers only its own connections; snapshots bring a node up to date
    ([export_state], [import_state]) and [recover] rebuilds an engine from a
    replayed log.  The log is [crates/store]: records ([format.rs]) in
    preallocated segment files ([wal.rs]), with space promised to puts,
    compaction and garbage collection, replayed at start ([replay.rs]).  The
    actor of [crates/server] ([engine_actor.rs]) owns both: it applies one
    message at a time, ticks, appends the journal and only then sends the
    replies.  Around it, [main.rs] accepts connections and [conn.rs] runs a
    task per connection, with a login on TLS listeners ([auth.rs],
    [pending.rs]).

    In a cluster the inputs of connections are entries of a Raft log
    ([crates/raft]; consensus is the openraft library).  A node numbers and
    queues the inputs of its connections and sends them to the leader until
    they are applied ([server/cluster/actor.rs]); the leader groups them into
    entries ([proposer.rs]); every node applies the entries
    ([raft/storage/state_machine.rs]) and answers its own connections.

    ** The files

    - [Prelude]: machine integers, record update, orders, [BTreeSet] and
      [BTreeMap] over finite maps, counting, degrees of relations, slabs.
    - [Ms]: the ordered multiset [Ms] of [ms.rs].
    - [Proto], [Stats]: the types of [proto/lib.rs], the payloads of
      [stats.rs].
    - [Parse], [Codec], [Reply]: [parse.rs], [codec.rs] and [response.rs] on
      lists of bytes, with their printers and readers for the round trips.
    - [Model], [Engine]: [model.rs], [lib.rs] and every method of
      [impl Engine]; a method is a function of the same name, [&mut self] is
      state passing, an [Outbox] a list of replies.
    - [Validate], [Snapshot], [Recover]: [validate]; [export_state],
      [state_view] and [import_state]; [recover].
    - [Inv] states the engine invariant, 32 parts over the components of the
      state ([Core], with a ghost for what runs ahead inside a command;
      [Inv] between commands).  [InvFrame], [InvRefresh], [Queues], [Moves],
      [Tubes], [Waiting], [Rest], [Dispatch], [ConnOps], [Commands],
      [Sessions], [Connect] and [Tick] carry it through every routine,
      [Reach] through runs of inputs.
    - [Valid], [ValidInv]: the loops of [validate] against the parts of the
      invariant; [Start]: the starts of an engine and the reachable states.
    - [Frames], [Serve], [Effects], [Keep], [Replica]: what routines leave
      alone, the abstract dispatcher, the effect of every command, what jobs
      keep for life, the projection of a replica.
    - [Format], [Replay], [Wal]: [format.rs] on bytes, [replay.rs] on the
      files of a directory, [Inner] of [wal.rs] in a monad over its fields and
      a directory ([World]) that records the files after every file operation
      and the failures allocation will meet.
    - [Scan]: what any directory looks like to the scan.  [WalDisk] has the
      weakest preconditions of the monad, with a condition on every directory
      passed through; [WalFiles], [WalIndex] and [WalInv] the invariant of the
      open log over a ghost of its segments; [WalCompact], [WalSpace],
      [WalOpen] compaction, promised space and opening; [Log] the log as its
      owner sees it: [log_ok L], it holds the live jobs [L].
    - [Sized], [Journal]: the entries the engine journals fit the record
      format and describe its jobs.
    - [Actor]: [engine_actor.rs] over a class [Log] for its trait;
      [Durable]: the laws of that class ([LogLaws]) and the actor against
      them; [Restart]: the log keeps the laws, and a recovered engine starts in
      agreement with its log.
    - [Once]: every request is answered once; [Seats]: which connections the
      engine knows, and views that no input changes ([Still]).
    - [Auth], [Conn]: [auth.rs], [pending.rs] and [conn.rs]; a task is a
      machine that runs from one await to the next, and what sockets, timers
      and the TLS library do are its events.  [ConnRun]: what a task does with
      a whole stream.
    - [Server]: [main.rs]: the accept loops, the tasks, the channel and the
      actor as one transition system ([server_step]), its start ([serve],
      [start_engine]).  [ServerInv], [ServerRun], [ServerTurn], [ServerReach],
      [ServerPend] and [ServerStart] carry its invariants through every step;
      [ServerSpec] has the theorems.
    - [Scenario]: a session of three clients, where the theorems are applied.
    - [EngineSpec], [StateSpec], [StoreSpec], [WireSpec]: the main theorems.
    - [Facts]: no routine of the engine reads the process facts.
    - [Cluster]: [raft/lib.rs], [raft/forward.rs], [state_machine.rs], the
      batches of [proposer.rs] and the connection numbers of [durable.rs].
      [ClusterRun]: two nodes on one log, and what a log amounts to ([plan]);
      [ClusterBatch], [ClusterSnap], [ConnIds]: batches, snapshots, numbers.
    - [Forward]: [cluster/actor.rs], [handler.rs] and the clients of
      [cluster/mod.rs]; [ForwardRun]: what a run of the actor sends.
    - [Status]: the decisions of [raft/status.rs] and their theorems.
    - [ClusterSpec]: the theorems about the cluster.

    ** What the theorems show

    - The invariant holds in every state reached by legal inputs from a new,
      recovered or imported engine ([engine_invariant]); every job is in one
      place ([job_in_one_place]).
    - Dispatch refines a specification over the job table and the sessions
      ([process_queue_refines]); no ready job waits beside a waiting
      connection ([no_missed_dispatch]); nothing due is left after an input
      ([input_settles]), and [next_deadline] says when to come back
      ([next_deadline_least], [tick_fast_path]).
    - No input loses or alters a job ([jobs_kept]); each command has the
      effect and the reply its documentation gives on every branch (the
      theorems named after commands; [put_effect] with and without an id
      reserved by the header, [reserve_best] with pauses that have passed),
      and a closed connection's jobs come back ([disconnect_releases]).
    - A node that filters replies runs in step with one that does not
      ([replica_projection]).
    - [validate] accepts exactly the invariant within its limits
      ([validate_exact]); snapshots of states within them round trip both
      ways and others are refused ([snapshot_round_trip],
      [import_canonical]); recovery restores the log
      ([recover_correct]).
    - Records are parsed exactly as they are encoded ([record_exact]) and a
      directory is replayed exactly ([scan_exact]).  Each operation of the log
      implements its effect on the live jobs through directories that each
      replay to a prefix of it ([log_operation]), opening included
      ([open_correct]); promised puts and deletes succeed on a full disk
      ([reserved_space]).
    - The actor sends replies only when the log has what they rest on
      ([log_before_reply]).  A server that runs from its start, its accept
      loops, tasks, timers and actor taking steps in any order, keeps the
      directory and the engine in agreement ([server_durable]) and sends the
      engine only what it accepts ([next_message_legal]).
    - Between tasks and engine no reply is lost or doubled
      ([replies_accounted], [answered_once]), the bytes written are the
      answers in order ([replies_in_order]), sessions and connections agree
      ([sessions_agree]); a token listener lets nothing through before a login
      ([auth_required]) and holds its cap ([pending_capped]).
    - Replicas agree ([replicas_agree]); the inputs accepted of a connection
      are numbered without gap or repetition ([inputs_once]) and are the first
      ones the connection gave its node ([forwarded_once]), which keeps every
      input until it is applied ([no_input_lost]); the grouping into entries
      is not seen ([batch_transparent], [batches_maximal]); snapshots carry
      the state to other nodes, within the same limits ([snapshot_moves]);
      connection ids are new
      ([conn_ids_unique]) and no node acts for another's ([forward_owned]).
    - A node that lost its data rejoins with a safe vote ([rejoin_safe]), and
      an initial node creates a cluster only where no other node can have led
      one ([bootstrap_safe]).
    - Decoding does not depend on how the bytes arrive
      ([chunk_independence]), reads back what a client writes
      ([wire_round_trip], [parse_print]), ends, and yields well-typed frames;
      replies are unambiguous ([replies_unambiguous]); numbers are read
      exactly ([read_u64_exact]).

    ** Bounds and fuel

    Integers of the source are [N] with the wrap-around of the release
    profile written out.  The invariant carries a budget for what only grows
    (job ids, list keys, connections, tube slots) that stays below 2^63; a
    start uses at most 2^62 of it, so runs of up to 2^61 inputs
    ([Reach.run_limit]) never wrap a counter the engine relies on.  Loops
    carry fuel computed from the state (the sizes of the index they drain);
    the theorems about them show that it is enough, so none is stated only for
    runs that end.  [Reach.legal] is the contract of the callers: times fit a
    u64, a new connection has a fresh id and there are fewer than 2^32, a
    waiting connection sends no command.

    The loops of the log carry fuel too (the bytes of a file for the scan, the
    bytes needed for [ensure_room], the number of segments for [gc] and the
    search of [move_one]); running out is the error [Panic], which
    [log_operation] and [open_correct] exclude.  Sizes and offsets of files
    are [nat]; the format bounds a record to 32 bits and ids to 62.  A crash
    is the directory after any number of whole file operations: a write that
    the system breaks off in the middle, and what an unsynced file loses with
    the power, are not covered by the crash theorems ([scan_exact] says what
    becomes of any bytes).

    A server's run may have 2^54 steps ([ServerReach.server_limit]): each brings
    the engine a bounded number of inputs, which then stay below [run_limit].  A
    log may have fewer than 2^64 - 2 accepted inputs before the number of a connection's next input wraps.  The loops of
    [Forward.pump] have the length of the queue as fuel, which they never
    exceed ([ForwardRun.send_all_spec]).  A turn of the forwarding actor reads
    the clock once.  The first thing the task of a plain connection
    does, registering its socket, is part of the step that accepts it.

    ** Not modelled

    - Hash map iteration order and the texts of snapshot errors that depend
      on it; capacities of buffers; [Display] implementations.
    - The serialised bytes of snapshots: serde and postcard.  The checksum of
      records is the crc32c crate: an argument of the definitions, of which
      the theorems need that it is a 32-bit number.
    - File system errors other than those of allocation, which end the
      process; the directory lock is a flag.
    - Of [crates/server]: command line and configuration, metrics text and its
      HTTP listener, TLS files and the TLS library, whose handshake is an
      event of a task; [crates/net]: system calls on sockets; the scheduling
      of the tokio runtime is the order of steps, which the theorems leave
      open.
    - Of [crates/raft] and [server/cluster]: consensus itself, which is the
      openraft library (log ids, votes and memberships are arguments of the
      definitions); the files of its log and snapshots; the connections
      between nodes and their encodings (serde, postcard); the loops around
      library calls: the leader's duties, membership changes, the waiting for
      control requests, and of a node's start all but its numbers and its
      decisions.
    - [crates/engine-oracle]: an older engine used by tests only. *)

From Stdlib Require Export Ascii.
From Stdlib Require Strings.String.
From stdpp Require Export base gmap sets fin_sets list strings numbers sorting pretty.
From stdpp Require Import options.
#[export] Set Warnings "-clear-no-such-hyp".

(** ** Machine integers

    A [u64] or [u32] of the source is an [N].  [x += 1] is the wrapping
    addition of the release profile ([overflow-checks] is off there),
    [saturating_add] and [saturating_sub] are written out. *)
Definition wrap64 (x : N) : N := x `mod` 2 ^ 64.
Definition wrap32 (x : N) : N := x `mod` 2 ^ 32.
Definition incr64 (x : N) : N := wrap64 (x + 1).
Definition incr32 (x : N) : N := wrap32 (x + 1).
Definition u64_max : N := 2 ^ 64 - 1.
Definition u32_max : N := 2 ^ 32 - 1.
Definition sat_add64 (a b : N) : N := N.min (a + b) u64_max.
Definition sat_sub (a b : N) : N := a - b.

(** ** Record update

    [Eta R] rebuilds a record of type [R] from its fields; the setter of one
    field is derived from it by abstracting that projection. *)
Class Eta (R : Type) := eta_expand : R → R.
Class Setter {R T : Type} (p : R → T) := set_field : (T → T) → R → R.
Arguments set_field {R T} p {_} f r.

Ltac derive_setter :=
  lazymatch goal with
  | |- @Setter ?R ?T ?p =>
      let body := eval hnf in (@eta_expand R _) in
      lazymatch eval pattern p in body with
      | ?F _ =>
          let t := eval cbv beta in (fun f : T → T => F (fun r => f (p r))) in
          exact t
      end
  end.

Declare Scope bstk_scope.
Delimit Scope bstk_scope with bstk.
Open Scope bstk_scope.

Notation "r <| p ::= f |>" := (set_field p f r)
  (at level 1, left associativity, p at level 0, f at level 200,
   format "r  <| p  ::=  f |>") : bstk_scope.
Notation "r <| p := v |>" := (set_field p (λ _, v) r)
  (at level 1, left associativity, p at level 0, v at level 200,
   format "r  <| p  :=  v |>") : bstk_scope.

(** ** Total orders ([Ord] of the source) *)
Class Ord (A : Type) := {
  ole : relation A;
  #[global] ole_dec :: RelDecision ole;
  #[global] ole_po :: PartialOrder ole;
  #[global] ole_total :: Total ole;
}.
#[export] Hint Mode Ord ! : typeclass_instances.

Infix "≼" := ole (at level 70) : bstk_scope.
Definition olt `{Ord A} (x y : A) : Prop := x ≼ y ∧ ¬ y ≼ x.
Infix "≺" := olt (at level 70) : bstk_scope.
#[export] Instance olt_dec `{Ord A} : RelDecision (olt (A := A)).
Proof. unfold olt; intros x y; apply _. Defined.

#[export] Instance N_ord : Ord N := {| ole := N.le |}.
#[export] Instance nat_ord : Ord nat := {| ole := le |}.
#[export] Instance string_ord : Ord string := {| ole := String.le |}.

(** Tuples compare lexicographically. *)
Definition pair_ole `{Ord A, Ord B} (p q : A * B) : Prop :=
  p.1 ≼ q.1 ∧ (q.1 ≼ p.1 → p.2 ≼ q.2).
#[export] Program Instance pair_ord `{Ord A, Ord B} : Ord (A * B) :=
  {| ole := pair_ole |}.
Next Obligation. intros A ? B ? [a b] [c d]. unfold pair_ole; simpl. apply _. Defined.
Next Obligation.
  intros A ? B ?. unfold pair_ole. split; [split|].
  - intros [a b]; split; intros; reflexivity.
  - intros [a b] [c d] [x y] [H1 H2] [H3 H4]; simpl in *. split; [by etrans|].
    intros H5. etrans; [apply H2 | apply H4]; by etrans.
  - intros [a b] [c d] [H1 H2] [H3 H4]; simpl in *.
    f_equal; apply (anti_symm ole); auto.
Qed.
Next Obligation.
  intros A ? B ? [a b] [c d]. unfold pair_ole; simpl.
  destruct (total ole a c), (total ole b d); destruct (decide (a ≼ c)), (decide (c ≼ a)); tauto.
Qed.

Lemma N_ole (x y : N) : x ≼ y ↔ (x ≤ y)%N.
Proof. done. Qed.
Lemma N_olt (x y : N) : x ≺ y ↔ (x < y)%N.
Proof. unfold olt; simpl; lia. Qed.
Lemma NN_ole (a b c d : N) : (a, b) ≼ (c, d) ↔ (a < c ∨ a = c ∧ b ≤ d)%N.
Proof. unfold ole; simpl; unfold pair_ole; simpl; lia. Qed.
(** A pair below another is below it in the first component. *)
Lemma NN_ole_fst `{Ord B} (a c : N) (x y : B) : (a, x) ≼ (c, y) → (a ≤ c)%N.
Proof. by intros [? _]. Qed.

Section order_facts.
Context `{Ord A}.
Implicit Types x y z : A.

Lemma ole_refl x : x ≼ x.
Proof. reflexivity. Qed.
Lemma ole_trans x y z : x ≼ y → y ≼ z → x ≼ z.
Proof. by intros; etrans. Qed.
Lemma ole_antisym x y : x ≼ y → y ≼ x → x = y.
Proof. apply (anti_symm ole). Qed.
Lemma not_ole x y : ¬ x ≼ y → y ≼ x.
Proof. destruct (total ole x y); tauto. Qed.
Lemma olt_ole x y : x ≺ y → x ≼ y.
Proof. by intros []. Qed.
Lemma not_olt x y : ¬ x ≺ y ↔ y ≼ x.
Proof.
  unfold olt. split; [|tauto]. intros Hn.
  destruct (decide (y ≼ x)); [done|]. exfalso; apply Hn. auto using not_ole.
Qed.
End order_facts.

(** ** [BTreeSet] and [BTreeMap]

    A [BTreeSet<A>] is a [gset A] whose iteration order is the order of [A];
    a [BTreeMap<u64, V>] is a [gmap N V] iterated by ascending key. *)
Section btree_set.
Context `{Ord A} `{Countable A}.
Implicit Types (s : gset A) (x y : A).

Definition bt_iter s : list A := merge_sort ole (elements s).
Definition bt_first s : option A := head (bt_iter s).

Lemma elem_of_bt_iter s x : x ∈ bt_iter s ↔ x ∈ s.
Proof. unfold bt_iter. by rewrite merge_sort_Permutation, elem_of_elements. Qed.
Lemma bt_iter_NoDup s : NoDup (bt_iter s).
Proof. unfold bt_iter. rewrite merge_sort_Permutation. apply NoDup_elements. Qed.
Lemma bt_iter_sorted s : StronglySorted ole (bt_iter s).
Proof. apply StronglySorted_merge_sort; apply _. Qed.

Lemma bt_first_Some s x : bt_first s = Some x ↔ x ∈ s ∧ ∀ y, y ∈ s → x ≼ y.
Proof.
  unfold bt_first. pose proof (bt_iter_sorted s) as Hs.
  pose proof (elem_of_bt_iter s) as He.
  destruct (bt_iter s) as [|z l]; simpl.
  - split; [done|]. intros [Hx _]. apply He in Hx. by apply elem_of_nil in Hx.
  - apply StronglySorted_cons in Hs as [Hz _]. rewrite Forall_forall in Hz.
    assert (∀ y, y ∈ s → z ≼ y) as Hmin.
    { intros y Hy. apply He, elem_of_cons in Hy as [->|Hy]; [reflexivity|auto]. }
    split.
    + intros [= <-]. split; [apply He; left|done].
    + intros [Hx Hm]. f_equal. apply ole_antisym; [by apply Hmin|].
      apply Hm, He. left.
Qed.

Lemma bt_first_None s : bt_first s = None ↔ s = ∅.
Proof.
  unfold bt_first. split.
  - intros Hn. apply set_eq. intros x. split; [|set_solver].
    rewrite <-elem_of_bt_iter. by destruct (bt_iter s); [intros []%elem_of_nil|].
  - intros ->. unfold bt_iter. rewrite elements_empty. done.
Qed.

Lemma bt_first_elem s x : bt_first s = Some x → x ∈ s.
Proof. rewrite bt_first_Some. by intros []. Qed.
Lemma bt_first_min s x y : bt_first s = Some x → y ∈ s → x ≼ y.
Proof. rewrite bt_first_Some. intros []; auto. Qed.
Lemma bt_first_is_Some s x : x ∈ s → is_Some (bt_first s).
Proof.
  intros Hx. destruct (bt_first s) eqn:E; [eauto|].
  apply bt_first_None in E. set_solver.
Qed.
End btree_set.

Section btree_map.
Context {V : Type}.
Implicit Types m : gmap N V.

Definition bm_values m : list V := omap (m !!.) (bt_iter (dom m)).
Definition bm_first m : option (N * V) :=
  k ← bt_first (dom m); v ← m !! k; Some (k, v).

Lemma elem_of_bm_values m v : v ∈ bm_values m ↔ ∃ k, m !! k = Some v.
Proof.
  unfold bm_values. rewrite list_elem_of_omap. split.
  - intros (k & _ & ?); eauto.
  - intros [k Hk]. exists k. rewrite elem_of_bt_iter, elem_of_dom. eauto.
Qed.

Lemma bm_first_Some m k v :
  bm_first m = Some (k, v) ↔ m !! k = Some v ∧ ∀ k' v', m !! k' = Some v' → (k ≤ k')%N.
Proof.
  unfold bm_first. split.
  - intros (k1 & Hk & (v1 & Hv & [= <- <-])%bind_Some)%bind_Some.
    split; [done|]. intros k' v' Hk'. apply (bt_first_min (A:=N) _ _ _ Hk).
    by eapply elem_of_dom_2.
  - intros [Hk Hm]. assert (bt_first (dom m) = Some k) as ->; [|by simpl; rewrite Hk].
    apply bt_first_Some. split; [by eapply elem_of_dom_2|].
    intros y [v' Hy]%elem_of_dom. by eapply Hm.
Qed.

Lemma bm_first_None m : bm_first m = None ↔ m = ∅.
Proof.
  unfold bm_first. split.
  - intros Hn. apply dom_empty_iff_L, bt_first_None.
    destruct (bt_first (dom m)) as [k|] eqn:E; [|done].
    apply bt_first_elem, elem_of_dom in E as [v Hv]. simpl in Hn. by rewrite Hv in Hn.
  - intros ->. by rewrite dom_empty_L, (proj2 (bt_first_None ∅)).
Qed.
End btree_map.

(** ** Counting the values of a map *)
Section count.
Context `{Countable K} {V : Type}.
Implicit Types (P Q : V → bool) (m : gmap K V).

Definition count P m : N := N.of_nat (size (filter (λ kv : K * V, P kv.2) m)).
Definition ind P (o : option V) : N :=
  match o with Some v => if P v then 1 else 0 | None => 0 end.

Lemma ind_le P o : (ind P o ≤ 1)%N.
Proof. destruct o as [v|]; simpl; [destruct (P v)|]; lia. Qed.

Lemma count_empty P : count P ∅ = 0%N.
Proof. unfold count. by rewrite map_filter_empty, map_size_empty. Qed.

Lemma count_insert_new P m k v :
  m !! k = None → count P (<[k := v]> m) = (count P m + ind P (Some v))%N.
Proof.
  intros Hk. unfold count; simpl. destruct (P v) eqn:E.
  - rewrite map_filter_insert_True by (simpl; by rewrite E).
    rewrite map_size_insert_None; [lia|]. apply map_lookup_filter_None. by left.
  - rewrite map_filter_insert_False by (simpl; rewrite E; by intros []).
    rewrite delete_id by done. lia.
Qed.

Lemma count_delete P m k : count P m = (count P (delete k m) + ind P (m !! k))%N.
Proof.
  destruct (m !! k) as [v|] eqn:E.
  - rewrite <-(insert_delete_id m k v) at 1 by done.
    by rewrite count_insert_new by apply lookup_delete_eq.
  - rewrite delete_id by done. simpl. lia.
Qed.

(** Two maps that differ at one key. *)
Lemma count_change P m m' k :
  (∀ i, i ≠ k → m' !! i = m !! i) →
  (count P m' + ind P (m !! k) = count P m + ind P (m' !! k))%N.
Proof.
  intros Heq. rewrite (count_delete P m' k), (count_delete P m k).
  assert (delete k m' = delete k m) as ->; [|lia].
  apply map_eq. intros i. destruct (decide (i = k)) as [->|].
  - by rewrite !lookup_delete_eq.
  - rewrite !lookup_delete_ne by done. auto.
Qed.

Lemma count_insert P m k v :
  (count P (<[k := v]> m) + ind P (m !! k) = count P m + ind P (Some v))%N.
Proof.
  rewrite <-(lookup_insert_eq m k v). apply count_change. intros i Hi.
  by rewrite lookup_insert_ne.
Qed.

Lemma count_ext P Q m : (∀ k v, m !! k = Some v → P v = Q v) → count P m = count Q m.
Proof.
  intros Heq. unfold count. do 2 f_equal. apply map_filter_ext.
  intros k v Hk. simpl. by rewrite (Heq k v).
Qed.

Lemma count_alter P f m k :
  (∀ v, m !! k = Some v → P (f v) = P v) → count P (alter f k m) = count P m.
Proof.
  intros Hf. pose proof (count_change P m (alter f k m) k) as Hc.
  rewrite lookup_alter_eq in Hc. destruct (m !! k) as [v|] eqn:E; simpl in Hc.
  - rewrite (Hf v eq_refl) in Hc. specialize (Hc ltac:(intros; by rewrite lookup_alter_ne)). lia.
  - specialize (Hc ltac:(intros; by rewrite lookup_alter_ne)). lia.
Qed.

Lemma count_le_size P m : (count P m ≤ N.of_nat (size m))%N.
Proof.
  induction m as [|k v m Hk IH] using map_ind.
  - rewrite count_empty. lia.
  - rewrite count_insert_new, map_size_insert_None by done.
    pose proof (ind_le P (Some v)). lia.
Qed.

Lemma count_zero P m : count P m = 0%N ↔ ∀ k v, m !! k = Some v → P v = false.
Proof.
  split.
  - intros H0 k v Hk. rewrite (count_delete P m k), Hk in H0. simpl in H0.
    destruct (P v); [lia|done].
  - intros Hall. rewrite (count_ext P (λ _, false)) by (intros; eauto).
    clear. induction m as [|k v m Hk IH] using map_ind; [apply count_empty|].
    rewrite count_insert_new by done. simpl. lia.
Qed.

Lemma count_pos P m k v : m !! k = Some v → P v = true → (0 < count P m)%N.
Proof. intros Hk Hv. rewrite (count_delete P m k), Hk. simpl. rewrite Hv. lia. Qed.

Lemma count_pos_inv P m : (0 < count P m)%N → ∃ k v, m !! k = Some v ∧ P v = true.
Proof.
  unfold count. intros Hlt. destruct (map_choose (filter (λ kv : K * V, P kv.2) m)) as (k & v & Hk).
  - intros Hm. rewrite Hm, map_size_empty in Hlt. lia.
  - apply map_lookup_filter_Some in Hk as [Hk Hp]. exists k, v. split; [done|]. cbn in Hp. by destruct (P v).
Qed.

Lemma count_true m : count (λ _, true) m = N.of_nat (size m).
Proof.
  unfold count. f_equal. f_equal. apply map_filter_id. done.
Qed.
End count.

(** Ids below [n]: at most [n] of them. *)
Lemma size_below {V} (m : gmap N V) (n : N) :
  (∀ k v, m !! k = Some v → (k < n)%N) → (N.of_nat (size m) ≤ n)%N.
Proof.
  intros Hlt. rewrite <-size_dom.
  assert (dom m ⊆ (list_to_set (N.of_nat <$> seq 0 (N.to_nat n)) : gset N)) as Hsub%subseteq_size.
  { intros k [v Hk]%elem_of_dom. apply elem_of_list_to_set, list_elem_of_fmap.
    exists (N.to_nat k). rewrite elem_of_seq. apply Hlt in Hk. lia. }
  rewrite size_list_to_set in Hsub by (apply NoDup_fmap; [apply _|apply NoDup_seq]).
  rewrite length_fmap, length_seq in Hsub. lia.
Qed.

(** ** The degree of a tube in a relation of connections and tubes *)
Section degree.
Context `{Countable A, Countable B}.
Implicit Types (R : gset (A * B)) (a : A) (b : B).

Definition deg R b : N := N.of_nat (size (filter (λ p : A * B, p.2 = b) R)).

Lemma deg_add R a b b' :
  (a, b) ∉ R → deg ({[ (a, b) ]} ∪ R) b' = (deg R b' + if decide (b' = b) then 1 else 0)%N.
Proof.
  intros Hn. unfold deg. case_decide as Hb; [subst|].
  - replace (filter (λ p : A * B, p.2 = b) ({[(a, b)]} ∪ R))
      with ({[(a, b)]} ∪ filter (λ p : A * B, p.2 = b) R).
    + rewrite size_union, size_singleton by set_solver. lia.
    + apply set_eq. intros [x y]. set_unfold. naive_solver.
  - replace (filter (λ p : A * B, p.2 = b') ({[(a, b)]} ∪ R))
      with (filter (λ p : A * B, p.2 = b') R); [lia|].
    apply set_eq. intros [x y]. set_unfold. naive_solver.
Qed.

Lemma deg_del R a b b' :
  (a, b) ∈ R → deg R b' = (deg (R ∖ {[ (a, b) ]}) b' + if decide (b' = b) then 1 else 0)%N.
Proof.
  intros Hin. rewrite <-(deg_add _ a) by set_solver. f_equal.
  apply set_eq. intros [x y]. set_unfold. destruct (decide ((x, y) = (a, b))); naive_solver.
Qed.

Lemma deg_zero R b : deg R b = 0%N ↔ ∀ a, (a, b) ∉ R.
Proof.
  unfold deg. split.
  - intros Hz a Ha. assert (size (filter (λ p : A * B, p.2 = b) R) = 0) as Hs by lia.
    apply size_empty_iff in Hs. apply (not_elem_of_empty (C:=gset (A * B)) (a, b)).
    rewrite <-Hs. by apply elem_of_filter.
  - intros Hn. replace (filter _ R) with (∅ : gset (A * B)); [done|].
    symmetry. apply set_eq. intros [x y]. rewrite elem_of_filter; simpl.
    split; [intros [-> ?]; naive_solver|set_solver].
Qed.
End degree.

(** The relation given by a list per value of a map. *)
Section rel.
Context `{Countable K, Countable B} {V : Type}.
Implicit Types (f : V → list B) (m : gmap K V).

Definition rel f m : gset (K * B) :=
  list_to_set (map_to_list m ≫= λ kv, pair kv.1 <$> f kv.2).

Lemma elem_of_rel f m k b : (k, b) ∈ rel f m ↔ ∃ v, m !! k = Some v ∧ b ∈ f v.
Proof.
  unfold rel. rewrite elem_of_list_to_set, list_elem_of_bind. split.
  - intros ([k' v] & Hb & Hkv%elem_of_map_to_list).
    apply list_elem_of_fmap in Hb as (b' & [= -> ->] & Hb). simpl in *. eauto.
  - intros (v & Hk & Hb). exists (k, v). rewrite elem_of_map_to_list.
    split; [|done]. apply list_elem_of_fmap. eauto.
Qed.

Lemma rel_empty f : rel f (∅ : gmap K V) = ∅.
Proof. apply set_eq. intros [k b]. rewrite elem_of_rel. set_solver. Qed.
Lemma rel_ext f m m' :
  (∀ k, f <$> m !! k = f <$> m' !! k) → rel f m = rel f m'.
Proof.
  intros Heq. apply set_eq. intros [k b]. rewrite !elem_of_rel.
  specialize (Heq k).
  split; intros (v & Hv & Hb); rewrite Hv in Heq; simpl in Heq.
  - symmetry in Heq. apply fmap_Some in Heq as (v' & Hv' & Hf). exists v'. by rewrite <-Hf.
  - apply fmap_Some in Heq as (v' & Hv' & Hf). exists v'. by rewrite <-Hf.
Qed.

Lemma deg_rel_le f m b : (deg (rel f m) b ≤ N.of_nat (size m))%N.
Proof.
  unfold deg. rewrite <-size_dom.
  assert (set_map fst (filter (λ p : K * B, p.2 = b) (rel f m)) ⊆ dom m) as Hs.
  { intros k. rewrite elem_of_map. intros ([k' b'] & -> & Hf).
    apply elem_of_filter in Hf as [_ (v & Hk & _)%elem_of_rel]. by eapply elem_of_dom_2. }
  apply subseteq_size in Hs.
  assert (size (filter (λ p : K * B, p.2 = b) (rel f m))
          = size (set_map (D:=gset K) fst (filter (λ p : K * B, p.2 = b) (rel f m)))) as ->.
  { unfold set_map. rewrite size_list_to_set; [by rewrite length_fmap|].
    apply NoDup_fmap_2_strong; [|apply NoDup_elements].
    intros [x1 y1] [x2 y2] Hx1%elem_of_elements Hx2%elem_of_elements.
    apply elem_of_filter in Hx1 as [? _], Hx2 as [? _]. naive_solver. }
  lia.
Qed.
End rel.

(** ** Slabs: vectors of optional entries *)
Section slab.
Context {A : Type}.
Implicit Types (T : list (option A)) (i j : nat).

Definition slot T i : option A := mjoin (T !! i).

Lemma slot_Some T i x : slot T i = Some x ↔ T !! i = Some (Some x).
Proof. unfold slot. destruct (T !! i) as [[]|]; naive_solver. Qed.
Lemma slot_lt T i x : slot T i = Some x → i < length T.
Proof. rewrite slot_Some. apply lookup_lt_Some. Qed.

Lemma slot_alter f i T j :
  slot (alter (fmap f) i T) j = if decide (j = i) then f <$> slot T j else slot T j.
Proof.
  unfold slot. case_decide as Hd; [subst|].
  - rewrite list_lookup_alter_eq. by destruct (T !! i) as [[]|].
  - by rewrite list_lookup_alter_ne by congruence.
Qed.
Lemma slot_insert i o T j :
  i < length T → slot (<[i := o]> T) j = if decide (j = i) then o else slot T j.
Proof.
  intros Hi. unfold slot. case_decide as Hd; [subst|].
  - by rewrite list_lookup_insert_eq.
  - by rewrite list_lookup_insert_ne by congruence.
Qed.
Lemma slot_app o T j : slot (T ++ [o]) j = if decide (j = length T) then o else slot T j.
Proof.
  unfold slot. case_decide as Hd; [subst|].
  - by rewrite list_lookup_middle.
  - destruct (decide (j < length T)); [by rewrite lookup_app_l|].
    rewrite !(proj2 (lookup_ge_None _ _)); [done|lia|rewrite length_app; simpl; lia].
Qed.
End slab.
