(* ===== verification/Ms.v ===== *)
(** * [Ms]: the array-backed multiset of [crates/engine/src/ms.rs]

    An array with append at the end, swap-with-last removal and a round-robin
    [take].  Its order decides the output of list-tubes and
    list-tubes-watched and which waiting connection gets the next job. *)

From S2P Require Import Prelude.
From stdpp Require Import options.

Record Ms (A : Type) := mkMs { ms_items : list A; ms_last : nat }.
Arguments mkMs {A}.
Arguments ms_items {A}.
Arguments ms_last {A}.
#[export] Instance ms_eta {A} : Eta (Ms A) := λ m, mkMs (ms_items m) (ms_last m).
#[export] Instance ms_items_set {A} : Setter (@ms_items A) := ltac:(derive_setter).
#[export] Instance ms_last_set {A} : Setter (@ms_last A) := ltac:(derive_setter).
#[export] Instance ms_eq_dec {A} `{EqDecision A} : EqDecision (Ms A).
Proof. solve_decision. Defined.

(** [Vec::swap_remove]: the removed element and the shortened vector, in which
    the last element takes the freed place; [None] is the panic. *)
Definition swap_remove {A} (i : nat) (l : list A) : option (A * list A) :=
  x ← l !! i; y ← last l; Some (x, take (length l - 1) (<[i := y]> l)).

Definition ms_new {A} : Ms A := mkMs [] 0.
Definition ms_len {A} (m : Ms A) : nat := length (ms_items m).
Definition ms_is_empty {A} (m : Ms A) : bool :=
  match ms_items m with [] => true | _ => false end.
Definition ms_append {A} (x : A) (m : Ms A) : Ms A := m <| ms_items ::= (.++ [x]) |>.
Definition ms_contains {A} `{EqDecision A} (x : A) (m : Ms A) : bool :=
  bool_decide (x ∈ ms_items m).

(** [remove]: linear search, then swap removal of the first match. *)
Definition ms_remove {A} `{EqDecision A} (x : A) (m : Ms A) : bool * Ms A :=
  match list_find (x =.) (ms_items m) with
  | Some (i, _) =>
      match swap_remove i (ms_items m) with
      | Some (_, l) => (true, m <| ms_items := l |>)
      | None => (false, m)
      end
  | None => (false, m)
  end.

(** [remove_at]: [None] is the panic of an index out of range. *)
Definition ms_remove_at {A} (i : nat) (m : Ms A) : option (A * Ms A) :=
  '(x, l) ← swap_remove i (ms_items m); Some (x, m <| ms_items := l |>).

(** [take]: round-robin removal at the cursor. *)
Definition ms_take {A} (m : Ms A) : option A * Ms A :=
  if ms_is_empty m then (None, m)
  else
    let last := ms_last m `mod` length (ms_items m) in
    match swap_remove last (ms_items m) with
    | Some (x, l) => (Some x, mkMs l (last + 1))
    | None => (None, m <| ms_last := last |>)
    end.

(** The loop of [clear_in_delete_order], with the number of items as fuel. *)
Fixpoint clear_loop {A} (fuel : nat) (l : list A) : list A :=
  match fuel with
  | O => []
  | S fuel =>
      match swap_remove 0 l with
      | Some (x, l') => x :: clear_loop fuel l'
      | None => []
      end
  end.
Definition ms_clear_in_delete_order {A} (m : Ms A) : list A * Ms A :=
  (clear_loop (length (ms_items m)) (ms_items m), mkMs [] 0).

(** ** Swap removal *)
Section swap_remove.
Context {A : Type}.
Implicit Types (l : list A) (x y : A).

Lemma swap_remove_Some i l x :
  l !! i = Some x → ∃ l', swap_remove i l = Some (x, l').
Proof.
  intros Hi. unfold swap_remove. rewrite Hi; simpl.
  destruct (last l) as [y|] eqn:E; simpl; [eauto|].
  apply last_None in E. by subst.
Qed.

Lemma swap_remove_None i l : swap_remove i l = None ↔ length l ≤ i.
Proof.
  rewrite <-lookup_ge_None. split.
  - destruct (l !! i) eqn:E; [|done].
    destruct (swap_remove_Some _ _ _ E) as [? ->]. done.
  - unfold swap_remove. by intros ->.
Qed.

(** The vector without its last element, the last one moved to [i]. *)
Lemma swap_remove_spec i l x l' :
  swap_remove i l = Some (x, l') →
  l !! i = Some x ∧ ∃ l0 y, l = l0 ++ [y] ∧
    (i = length l0 ∧ x = y ∧ l' = l0 ∨ i < length l0 ∧ l' = <[i:=y]> l0).
Proof.
  unfold swap_remove.
  intros (x0 & Hi & (y & Hl & [= <- <-])%bind_Some)%bind_Some.
  split; [done|]. apply last_Some in Hl as [l0 ->]. exists l0, y. split; [done|].
  pose proof (lookup_lt_Some _ _ _ Hi) as Hlt. rewrite length_app in *; simpl in *.
  replace (length l0 + 1 - 1) with (length l0) by lia.
  destruct (decide (i = length l0)) as [->|].
  - left. rewrite lookup_app_r, Nat.sub_diag in Hi by lia. simplify_eq/=.
    split_and!; [done..|]. rewrite list_insert_id; [by rewrite take_app_length|].
    by rewrite lookup_app_r, Nat.sub_diag by lia.
  - right. split; [lia|]. rewrite insert_app_l by lia.
    rewrite take_app_length'; [done|]. by rewrite length_insert.
Qed.

Lemma swap_remove_perm i l x l' : swap_remove i l = Some (x, l') → l ≡ₚ x :: l'.
Proof.
  intros (Hi & l0 & y & -> & [(-> & <- & ->)|(Hlt & ->)])%swap_remove_spec.
  - symmetry. apply Permutation_cons_append.
  - rewrite lookup_app_l in Hi by lia.
    rewrite <-(take_drop_middle l0 i x) at 1 by done.
    rewrite insert_take_drop by lia.
    rewrite <-app_assoc, <-app_comm_cons, <-(Permutation_middle _ _ x). constructor.
    f_equiv. symmetry. apply Permutation_cons_append.
Qed.

(** Where the survivors are: [i] now holds the former last element. *)
Lemma swap_remove_lookup i l x l' j :
  swap_remove i l = Some (x, l') →
  l' !! j = if decide (S j < length l)
            then (if decide (j = i) then last l else l !! j) else None.
Proof.
  intros (Hi & l0 & y & -> & Hcase)%swap_remove_spec.
  rewrite length_app, last_snoc; simpl.
  destruct Hcase as [(-> & <- & ->)|(Hlt & ->)]; repeat case_decide; subst.
  - lia.
  - by rewrite lookup_app_l by lia.
  - apply lookup_ge_None; lia.
  - by rewrite list_lookup_insert_eq by lia.
  - by rewrite list_lookup_insert_ne, lookup_app_l by lia.
  - apply lookup_ge_None. rewrite length_insert. lia.
Qed.

Lemma swap_remove_length i l x l' :
  swap_remove i l = Some (x, l') → length l = S (length l').
Proof. intros H%swap_remove_perm. by rewrite H. Qed.
End swap_remove.

(** ** The operations as multiset operations *)
Section ms_facts.
Context {A : Type} `{EqDecision A}.
Implicit Types (m : Ms A) (x : A).

Lemma ms_is_empty_true m : ms_is_empty m = true ↔ ms_items m = [].
Proof. unfold ms_is_empty. by destruct (ms_items m). Qed.
Lemma ms_is_empty_false m : ms_is_empty m = false ↔ ms_items m ≠ [].
Proof. unfold ms_is_empty. by destruct (ms_items m). Qed.
Lemma ms_contains_true x m : ms_contains x m = true ↔ x ∈ (ms_items m).
Proof. apply bool_decide_eq_true. Qed.

Lemma ms_take_empty m : ms_items m = [] → ms_take m = (None, m).
Proof. intros H. unfold ms_take, ms_is_empty. by rewrite H. Qed.

Lemma ms_take_Some m :
  ms_items m ≠ [] →
  ∃ x m', ms_take m = (Some x, m') ∧
    swap_remove (ms_last m `mod` ms_len m) (ms_items m) = Some (x, ms_items m').
Proof.
  intros Hne. unfold ms_take, ms_len.
  rewrite (proj2 (ms_is_empty_false m)) by done.
  assert (ms_last m `mod` length (ms_items m) < length (ms_items m)) as Hlt.
  { apply Nat.mod_upper_bound. by destruct (ms_items m). }
  apply lookup_lt_is_Some in Hlt as [x Hx].
  destruct (swap_remove_Some _ _ _ Hx) as [l' ->]. eauto.
Qed.

Lemma ms_take_perm m :
  ms_items m ≠ [] → ∃ x m', ms_take m = (Some x, m') ∧ ms_items m ≡ₚ x :: ms_items m'.
Proof. intros (x & m' & -> & ?%swap_remove_perm)%ms_take_Some; eauto. Qed.

Lemma ms_remove_spec x m :
  (x ∈ ms_items m ∧ (ms_remove x m).1 = true ∧ ms_items m ≡ₚ x :: ms_items (ms_remove x m).2)
  ∨ ((x ∉ ms_items m) ∧ ms_remove x m = (false, m)).
Proof.
  unfold ms_remove. destruct (list_find (x =.) (ms_items m)) as [[i y]|] eqn:E.
  - left. apply list_find_Some in E as (Hi & <- & _).
    destruct (swap_remove_Some _ _ _ Hi) as [l' Hs]. rewrite Hs; simpl.
    split_and!; [by eapply list_elem_of_lookup_2|done|by eapply swap_remove_perm].
  - right. apply list_find_None in E. split; [|done].
    intros Hx. rewrite Forall_forall in E. by eapply E.
Qed.

Lemma ms_remove_not_in x m : x ∉ ms_items m → ms_remove x m = (false, m).
Proof. by destruct (ms_remove_spec x m) as [[]|[]]. Qed.

Lemma elem_of_ms_remove x y m :
  NoDup (ms_items m) → y ∈ ms_items (ms_remove x m).2 ↔ y ∈ ms_items m ∧ y ≠ x.
Proof.
  intros Hnd. destruct (ms_remove_spec x m) as [(Hx & _ & Hp)|[Hx ->]]; simpl.
  - rewrite Hp in Hnd. apply NoDup_cons in Hnd as [Hn _].
    rewrite Hp, elem_of_cons. set_solver.
  - set_solver.
Qed.

Lemma NoDup_ms_remove x m : NoDup (ms_items m) → NoDup (ms_items (ms_remove x m).2).
Proof.
  intros Hnd. destruct (ms_remove_spec x m) as [(Hx & _ & Hp)|[Hx ->]]; [|done].
  rewrite Hp in Hnd. by apply NoDup_cons in Hnd as [_ ?].
Qed.

Lemma clear_loop_tail (l : list A) : clear_loop (length l) l = take 1 l ++ reverse (drop 1 l).
Proof.
  remember (length l) as n eqn:Hn. revert l Hn.
  induction n as [|n IH]; intros l Hn; [by destruct l|].
  destruct l as [|x l]; [done|]. simpl in *.
  destruct (swap_remove_Some 0 (x :: l) x) as [l' Hl']; [done|]. rewrite Hl'.
  rewrite IH by (apply swap_remove_length in Hl'; simpl in *; lia). f_equal.
  rewrite drop_0.
  apply swap_remove_spec in Hl' as (_ & l0 & y & Heq & [(H0 & <- & ->)|(H0 & ->)]).
  - destruct l0; [|done]. by simplify_eq/=.
  - destruct l0 as [|z l0]; simpl in *; [lia|]. simplify_eq/=.
    rewrite drop_0, reverse_app. done.
Qed.

(** [ms_clear] deletes index 0 until empty: the first item, then the others
    from last to first. *)
Lemma ms_clear_order m x l :
  ms_items m = x :: l → (ms_clear_in_delete_order m).1 = x :: reverse l.
Proof.
  intros Hm. unfold ms_clear_in_delete_order. cbn [fst].
  rewrite Hm, clear_loop_tail. simpl. by rewrite drop_0.
Qed.

Lemma ms_clear_perm m : (ms_clear_in_delete_order m).1 ≡ₚ ms_items m.
Proof.
  destruct (ms_items m) as [|x l] eqn:E.
  - unfold ms_clear_in_delete_order. by rewrite E.
  - rewrite (ms_clear_order _ _ _ E). by rewrite reverse_Permutation.
Qed.
End ms_facts.

(** The unit tests of the source, evaluated. *)
Fixpoint take_all {A} (fuel : nat) (m : Ms A) : list A :=
  match fuel with
  | O => []
  | S fuel => match ms_take m with (Some x, m') => x :: take_all fuel m' | (None, _) => [] end
  end.
Example take_even_count_deviates_from_fifo :
  take_all 5 (mkMs [1; 2; 3; 4] 0) = [1; 2; 4; 3].
Proof. reflexivity. Qed.
Example clear_in_delete_order_matches_ms_clear :
  (ms_clear_in_delete_order (mkMs [1; 2; 3; 4; 5] 0)).1 = [1; 5; 4; 3; 2].
Proof. reflexivity. Qed.
