(* ===== verification/Proto.v ===== *)
(** * The wire protocol types of [crates/proto/src/lib.rs]

    Commands, replies, codec frames and put rejections.  Bytes are lists of
    8-bit [ascii]; a [TubeName] is the string it wraps. *)

From S2P Require Import Prelude.
From stdpp Require Import options.

Abbreviation Bytes := (list ascii).
Abbreviation JobId := N (only parsing).
Abbreviation TubeName := string (only parsing).

(** A byte-string literal. *)
Definition bs (s : string) : Bytes := Strings.String.list_ascii_of_string s.
Definition byte_N (b : ascii) : N := N_of_ascii b.

Definition MAX_TUBE_NAME_LEN : N := 200.
Definition LINE_BUF_SIZE : N := 224.
Definition DEFAULT_MAX_JOB_SIZE : N := 2 ^ 16 - 1.
Definition MAX_JOB_SIZE_LIMIT : N := 1073741824.
Definition URGENT_THRESHOLD : N := 1024.

Definition default_tube : TubeName := "default".

Module Command.
Inductive Command :=
  | Put (pri delay ttr : N) (body : Bytes)
  | Use (tube : TubeName)
  | Reserve
  | ReserveWithTimeout (timeout : N)
  | ReserveJob (id : JobId)
  | Delete (id : JobId)
  | Release (id : JobId) (pri delay : N)
  | Bury (id : JobId) (pri : N)
  | Touch (id : JobId)
  | Watch (tube : TubeName)
  | Ignore (tube : TubeName)
  | Peek (id : JobId)
  | PeekReady
  | PeekDelayed
  | PeekBuried
  | Kick (n : N)
  | KickJob (id : JobId)
  | StatsJob (id : JobId)
  | StatsTube (tube : TubeName)
  | Stats
  | ListTubes
  | ListTubeUsed
  | ListTubesWatched
  | Quit
  | PauseTube (tube : TubeName) (delay : N)
  | PauseTubeBadName.
End Command.
Abbreviation Command := Command.Command (only parsing).

Module Response.
Inductive Response :=
  | Inserted (id : JobId)
  | BuriedId (id : JobId)
  | Buried
  | Using (tube : TubeName)
  | Reserved (id : JobId) (body : Bytes)
  | Found (id : JobId) (body : Bytes)
  | Watching (n : N)
  | Kicked (n : N)
  | KickedJob
  | Ok (body : Bytes)
  | DeadlineSoon
  | TimedOut
  | Deleted
  | Released
  | Touched
  | NotFound
  | NotIgnored
  | Paused
  | ExpectedCrlf
  | JobTooBig
  | Draining
  | OutOfMemory
  | InternalError
  | BadFormat
  | UnknownCommand
  | Authenticated
  | Unauthorized.
End Response.
Abbreviation Response := Response.Response (only parsing).

Module PutRejection.
Inductive PutRejection := JobTooBig | TrailingGarbage | ExpectedCrlf | OutOfMemory.
End PutRejection.
Abbreviation PutRejection := PutRejection.PutRejection (only parsing).

Definition rejection_response (why : PutRejection) : Response :=
  match why with
  | PutRejection.JobTooBig => Response.JobTooBig
  | PutRejection.TrailingGarbage => Response.BadFormat
  | PutRejection.ExpectedCrlf => Response.ExpectedCrlf
  | PutRejection.OutOfMemory => Response.OutOfMemory
  end.

Module Frame.
Inductive Frame :=
  | Command (cmd : Command)
  | PutRejected (why : PutRejection)
  | PutStarted (too_big : bool)
  | Auth (token : Bytes)
  | Error (r : Response).
End Frame.
Abbreviation Frame := Frame.Frame (only parsing).

#[export] Instance Command_eq_dec : EqDecision Command.
Proof. solve_decision. Defined.
#[export] Instance Response_eq_dec : EqDecision Response.
Proof. solve_decision. Defined.
#[export] Instance PutRejection_eq_dec : EqDecision PutRejection.
Proof. solve_decision. Defined.
#[export] Instance Frame_eq_dec : EqDecision Frame.
Proof. solve_decision. Defined.

(** The u32 fields of a command fit their type. *)
Definition u32 (n : N) : bool := (n <=? u32_max)%N.
Definition typed (cmd : Command) : bool :=
  match cmd with
  | Command.Put pri delay ttr _ => u32 pri && u32 delay && u32 ttr
  | Command.Release _ pri delay => u32 pri && u32 delay
  | Command.Bury _ pri => u32 pri
  | Command.ReserveWithTimeout t => u32 t
  | Command.PauseTube _ delay => u32 delay
  | Command.Kick n => u32 n
  | _ => true
  end.
