(* ===== verification/Stats.v ===== *)
(** * Stats payloads: [crates/proto/src/stats.rs]

    The records behind stats, stats-job and stats-tube, and their YAML text
    ([to_yaml], [yaml_list]).  Numbers print in decimal, as [Display] does. *)

From S2P Require Import Prelude Proto.
From stdpp Require Import options.

Record StatsJob := mkStatsJob {
  sj_id : JobId; sj_tube : TubeName; sj_state : string;
  sj_pri : N; sj_age : N; sj_delay : N; sj_ttr : N; sj_time_left : N; sj_file : N;
  sj_reserves : N; sj_timeouts : N; sj_releases : N; sj_buries : N; sj_kicks : N;
}.

Record StatsTube := mkStatsTube {
  st_name : TubeName;
  st_current_jobs_urgent : N; st_current_jobs_ready : N; st_current_jobs_reserved : N;
  st_current_jobs_delayed : N; st_current_jobs_buried : N; st_total_jobs : N;
  st_current_using : N; st_current_watching : N; st_current_waiting : N;
  st_cmd_delete : N; st_cmd_pause_tube : N; st_pause : N; st_pause_time_left : N;
}.

Record StatsServer := mkStatsServer {
  ss_current_jobs_urgent : N; ss_current_jobs_ready : N; ss_current_jobs_reserved : N;
  ss_current_jobs_delayed : N; ss_current_jobs_buried : N; ss_cmd_put : N;
  ss_cmd_peek : N; ss_cmd_peek_ready : N; ss_cmd_peek_delayed : N;
  ss_cmd_peek_buried : N; ss_cmd_reserve : N; ss_cmd_reserve_with_timeout : N;
  ss_cmd_delete : N; ss_cmd_release : N; ss_cmd_use : N;
  ss_cmd_watch : N; ss_cmd_ignore : N; ss_cmd_bury : N;
  ss_cmd_kick : N; ss_cmd_touch : N; ss_cmd_stats : N;
  ss_cmd_stats_job : N; ss_cmd_stats_tube : N; ss_cmd_list_tubes : N;
  ss_cmd_list_tube_used : N; ss_cmd_list_tubes_watched : N; ss_cmd_pause_tube : N;
  ss_job_timeouts : N; ss_total_jobs : N; ss_max_job_size : N;
  ss_current_tubes : N; ss_current_connections : N; ss_current_producers : N;
  ss_current_workers : N; ss_current_waiting : N; ss_total_connections : N;
  ss_pid : N;
  ss_version : string;
  ss_rusage_utime : N * N; ss_rusage_stime : N * N;
  ss_uptime : N; ss_binlog_oldest_index : N; ss_binlog_current_index : N;
  ss_binlog_records_migrated : N; ss_binlog_records_written : N; ss_binlog_max_size : N;
  ss_draining : bool;
  ss_id : string; ss_hostname : string; ss_os : string; ss_platform : string;
}.

(** The formatting macros: decimal numbers, and [{:06}]. *)
Definition dec (n : N) : string := pretty n.
Fixpoint zeros (n : nat) : string := match n with O => "" | S n => String "0" (zeros n) end.
Definition dec06 (n : N) : string := zeros (6 - Strings.String.length (dec n)) +:+ dec n.
Definition LF : string := String (ascii_of_N 10) "".
Definition QUOTE : string := String (ascii_of_N 34) "".
Definition quoted (s : string) : string := QUOTE +:+ s +:+ QUOTE.
(** One ["key: value"] line each, after the document marker. *)
Fixpoint yaml_lines (kvs : list (string * string)) : string :=
  match kvs with
  | [] => ""
  | (k, v) :: kvs => k +:+ ": " +:+ v +:+ LF +:+ yaml_lines kvs
  end.
Definition yaml_doc (kvs : list (string * string)) : Bytes :=
  bs ("---" +:+ LF +:+ yaml_lines kvs).

Definition stats_job_to_yaml (s : StatsJob) : Bytes :=
  yaml_doc
    [("id", dec (sj_id s)); ("tube", quoted (sj_tube s)); ("state", sj_state s);
     ("pri", dec (sj_pri s)); ("age", dec (sj_age s)); ("delay", dec (sj_delay s));
     ("ttr", dec (sj_ttr s)); ("time-left", dec (sj_time_left s)); ("file", dec (sj_file s));
     ("reserves", dec (sj_reserves s)); ("timeouts", dec (sj_timeouts s));
     ("releases", dec (sj_releases s)); ("buries", dec (sj_buries s));
     ("kicks", dec (sj_kicks s))].

Definition stats_tube_to_yaml (s : StatsTube) : Bytes :=
  yaml_doc
    [("name", quoted (st_name s));
     ("current-jobs-urgent", dec (st_current_jobs_urgent s));
     ("current-jobs-ready", dec (st_current_jobs_ready s));
     ("current-jobs-reserved", dec (st_current_jobs_reserved s));
     ("current-jobs-delayed", dec (st_current_jobs_delayed s));
     ("current-jobs-buried", dec (st_current_jobs_buried s));
     ("total-jobs", dec (st_total_jobs s));
     ("current-using", dec (st_current_using s));
     ("current-watching", dec (st_current_watching s));
     ("current-waiting", dec (st_current_waiting s));
     ("cmd-delete", dec (st_cmd_delete s));
     ("cmd-pause-tube", dec (st_cmd_pause_tube s));
     ("pause", dec (st_pause s));
     ("pause-time-left", dec (st_pause_time_left s))].

Definition stats_server_to_yaml (s : StatsServer) : Bytes :=
  yaml_doc
    [
     ("current-jobs-urgent", dec (ss_current_jobs_urgent s));
     ("current-jobs-ready", dec (ss_current_jobs_ready s));
     ("current-jobs-reserved", dec (ss_current_jobs_reserved s));
     ("current-jobs-delayed", dec (ss_current_jobs_delayed s));
     ("current-jobs-buried", dec (ss_current_jobs_buried s));
     ("cmd-put", dec (ss_cmd_put s));
     ("cmd-peek", dec (ss_cmd_peek s));
     ("cmd-peek-ready", dec (ss_cmd_peek_ready s));
     ("cmd-peek-delayed", dec (ss_cmd_peek_delayed s));
     ("cmd-peek-buried", dec (ss_cmd_peek_buried s));
     ("cmd-reserve", dec (ss_cmd_reserve s));
     ("cmd-reserve-with-timeout", dec (ss_cmd_reserve_with_timeout s));
     ("cmd-delete", dec (ss_cmd_delete s));
     ("cmd-release", dec (ss_cmd_release s));
     ("cmd-use", dec (ss_cmd_use s));
     ("cmd-watch", dec (ss_cmd_watch s));
     ("cmd-ignore", dec (ss_cmd_ignore s));
     ("cmd-bury", dec (ss_cmd_bury s));
     ("cmd-kick", dec (ss_cmd_kick s));
     ("cmd-touch", dec (ss_cmd_touch s));
     ("cmd-stats", dec (ss_cmd_stats s));
     ("cmd-stats-job", dec (ss_cmd_stats_job s));
     ("cmd-stats-tube", dec (ss_cmd_stats_tube s));
     ("cmd-list-tubes", dec (ss_cmd_list_tubes s));
     ("cmd-list-tube-used", dec (ss_cmd_list_tube_used s));
     ("cmd-list-tubes-watched", dec (ss_cmd_list_tubes_watched s));
     ("cmd-pause-tube", dec (ss_cmd_pause_tube s));
     ("job-timeouts", dec (ss_job_timeouts s));
     ("total-jobs", dec (ss_total_jobs s));
     ("max-job-size", dec (ss_max_job_size s));
     ("current-tubes", dec (ss_current_tubes s));
     ("current-connections", dec (ss_current_connections s));
     ("current-producers", dec (ss_current_producers s));
     ("current-workers", dec (ss_current_workers s));
     ("current-waiting", dec (ss_current_waiting s));
     ("total-connections", dec (ss_total_connections s));
     ("pid", dec (ss_pid s));
     ("version", quoted (ss_version s));
     ("rusage-utime", dec (ss_rusage_utime s).1 +:+ "." +:+ dec06 (ss_rusage_utime s).2);
     ("rusage-stime", dec (ss_rusage_stime s).1 +:+ "." +:+ dec06 (ss_rusage_stime s).2);
     ("uptime", dec (ss_uptime s));
     ("binlog-oldest-index", dec (ss_binlog_oldest_index s));
     ("binlog-current-index", dec (ss_binlog_current_index s));
     ("binlog-records-migrated", dec (ss_binlog_records_migrated s));
     ("binlog-records-written", dec (ss_binlog_records_written s));
     ("binlog-max-size", dec (ss_binlog_max_size s));
     ("draining", if ss_draining s then "true" else "false");
     ("id", ss_id s);
     ("hostname", quoted (ss_hostname s));
     ("os", quoted (ss_os s));
     ("platform", quoted (ss_platform s))].

(** [yaml_list]: list-tubes and list-tubes-watched. *)
Fixpoint yaml_items (names : list TubeName) : string :=
  match names with
  | [] => ""
  | name :: names => "- " +:+ name +:+ LF +:+ yaml_items names
  end.
Definition yaml_list (names : list TubeName) : Bytes :=
  bs ("---" +:+ LF +:+ yaml_items names).

Example yaml_list_example :
  yaml_list ["default"; "a"] = bs "---" ++ bs LF ++ bs "- default" ++ bs LF ++ bs "- a" ++ bs LF.
Proof. reflexivity. Qed.
Example dec06_example : dec06 42 = "000042".
Proof. reflexivity. Qed.
