(* ===== verification/Parse.v ===== *)
(** * Command lines: [crates/proto/src/parse.rs]

    One definition per function of the parser; a slice is the list of its
    bytes.  [print_command] is the canonical line of a command, for the round
    trip; [parsed_ok] is what the parser promises the engine. *)

From S2P Require Import Prelude Proto Stats.
From stdpp Require Import options.

(** ** Bytes *)
Definition is_digit (b : ascii) : bool := ((48 <=? byte_N b) && (byte_N b <=? 57))%N.
Definition is_alphanumeric (b : ascii) : bool :=
  is_digit b || ((65 <=? byte_N b) && (byte_N b <=? 90))%N || ((97 <=? byte_N b) && (byte_N b <=? 122))%N.
(** [u8::is_ascii_whitespace]: space, tab, line feed, form feed, carriage return. *)
Definition is_ascii_whitespace (b : ascii) : bool :=
  bool_decide (byte_N b ∈ [32; 9; 10; 12; 13]%N).
Definition is_name_char (b : ascii) : bool :=
  is_alphanumeric b || bool_decide (b ∈ bs "-+/;.$_()").

(** [str::from_utf8]: the well-formed sequences of Unicode. *)
Definition is_cont (b : ascii) : bool := ((128 <=? byte_N b) && (byte_N b <=? 191))%N.
Definition between (lo hi : N) (b : ascii) : bool := ((lo <=? byte_N b) && (byte_N b <=? hi))%N.
Fixpoint utf8_valid (l : Bytes) : bool :=
  match l with
  | [] => true
  | a :: l1 =>
      if (byte_N a <? 128)%N then utf8_valid l1
      else
        match l1 with
        | [] => false
        | b :: l2 =>
            if between 194 223 a then is_cont b && utf8_valid l2
            else
              match l2 with
              | [] => false
              | c :: l3 =>
                  if between 224 224 a then between 160 191 b && is_cont c && utf8_valid l3
                  else if between 225 236 a || between 238 239 a then is_cont b && is_cont c && utf8_valid l3
                  else if between 237 237 a then between 128 159 b && is_cont c && utf8_valid l3
                  else
                    match l3 with
                    | [] => false
                    | d :: l4 =>
                        if between 240 240 a then between 144 191 b && is_cont c && is_cont d && utf8_valid l4
                        else if between 241 243 a then is_cont b && is_cont c && is_cont d && utf8_valid l4
                        else if between 244 244 a then between 128 143 b && is_cont c && is_cont d && utf8_valid l4
                        else false
                    end
              end
        end
  end.
Definition from_utf8 (l : Bytes) : option string :=
  if utf8_valid l then Some (Strings.String.string_of_list_ascii l) else None.

(** ** Tube names *)
Definition validate_tube_name (name : string) : bool :=
  let bytes := bs name in
  if bool_decide (bytes = []) || (MAX_TUBE_NAME_LEN <? N.of_nat (length bytes))%N then false
  else if bool_decide (head bytes = Some "-"%char) then false
  else forallb is_name_char bytes.
Definition TubeName_new (name : string) : option TubeName :=
  if validate_tube_name name then Some name else None.

(** ** Numbers *)
Fixpoint drop_while (f : ascii → bool) (l : Bytes) : Bytes :=
  match l with [] => [] | b :: l' => if f b then drop_while f l' else l end.
Fixpoint span_while (f : ascii → bool) (l : Bytes) : Bytes :=
  match l with [] => [] | b :: l' => if f b then b :: span_while f l' else [] end.
Definition skip_leading_spaces (buf : Bytes) : Bytes := drop_while (λ b, bool_decide (b = " "%char)) buf.

Definition u128_max : N := 2 ^ 128 - 1.
Definition sat_mul128 (x y : N) : N := N.min (x * y) u128_max.
Definition sat_add128 (x y : N) : N := N.min (x + y) u128_max.
Definition digits_value (l : Bytes) : N :=
  foldl (λ val d, sat_add128 (sat_mul128 val 10) (byte_N d - 48)) 0%N l.
Definition parse_digits (buf : Bytes) : option (N * Bytes) :=
  match head buf with
  | Some b => if is_digit b then Some (digits_value (span_while is_digit buf), drop_while is_digit buf) else None
  | None => None
  end.
Definition read_u64_partial (buf : Bytes) : option (N * Bytes) :=
  let buf := skip_leading_spaces buf in
  '(val, rest) ← parse_digits buf;
  if (u64_max <? val)%N then None else Some (val, rest).
Definition read_u32_partial (buf : Bytes) : option (N * Bytes) :=
  '(val, rest) ← read_u64_partial buf;
  if (u32_max <? val)%N then None else Some (val, rest).
Definition read_u64_full (buf : Bytes) : option N :=
  '(val, rest) ← read_u64_partial buf; if bool_decide (rest = []) then Some val else None.
Definition read_u32_full (buf : Bytes) : option N :=
  '(val, rest) ← read_u32_partial buf; if bool_decide (rest = []) then Some val else None.

Definition read_tube_name_span (buf : Bytes) : option (Bytes * Bytes) :=
  let buf := skip_leading_spaces buf in
  let name := span_while is_name_char buf in
  if bool_decide (name = []) then None else Some (name, drop_while is_name_char buf).
Definition tube_name_from_bytes (bytes : Bytes) : option TubeName :=
  s ← from_utf8 bytes; TubeName_new s.

(** [Result<T, Response>]. *)
Abbreviation ParseResult A := (A + Response)%type.
Definition ok_or {A} (o : option A) (r : Response) : ParseResult A :=
  match o with Some x => inl x | None => inr r end.
Definition pbind {A B} (x : ParseResult A) (f : A → ParseResult B) : ParseResult B :=
  match x with inl a => f a | inr r => inr r end.
Notation "x ←! e ; k" := (pbind e (λ x, k)) (at level 20, e at level 100, k at level 200, right associativity) : bstk_scope.
Notation "' p ←! e ; k" := (pbind e (λ x, match x with p => k end))
  (at level 20, p pattern, e at level 100, k at level 200, right associativity) : bstk_scope.
Definition bad_format {A} (o : option A) : ParseResult A := ok_or o Response.BadFormat.

Definition tube_name_from_full_rest (rest : Bytes) : ParseResult TubeName :=
  s ←! bad_format (from_utf8 rest); bad_format (TubeName_new s).

(** ** Commands *)
Record PutHeader := mkPutHeader {
  ph_pri : N; ph_delay : N; ph_ttr : N; ph_body_size : N; ph_trailing_garbage : bool;
}.
Module ParsedLine.
Inductive ParsedLine := Command (cmd : Command) | Put (h : PutHeader).
End ParsedLine.
Abbreviation ParsedLine := ParsedLine.ParsedLine (only parsing).

Module Op.
Inductive Op :=
  | Put | PeekJob | PeekReady | PeekDelayed | PeekBuried | ReserveTimeout | ReserveJob | Reserve
  | Delete | Release | Bury | Kick | KickJob | Touch | StatsJob | StatsTube | Stats | Use | Watch
  | Ignore | ListTubesWatched | ListTubeUsed | ListTubes | Quit | PauseTube.
End Op.
Abbreviation Op := Op.Op (only parsing).

Definition CMD_TESTS : list (Bytes * Op) :=
  [(bs "put ", Op.Put); (bs "peek ", Op.PeekJob); (bs "peek-ready", Op.PeekReady);
   (bs "peek-delayed", Op.PeekDelayed); (bs "peek-buried", Op.PeekBuried);
   (bs "reserve-with-timeout ", Op.ReserveTimeout); (bs "reserve-job ", Op.ReserveJob);
   (bs "reserve", Op.Reserve); (bs "delete ", Op.Delete); (bs "release ", Op.Release);
   (bs "bury ", Op.Bury); (bs "kick ", Op.Kick); (bs "kick-job ", Op.KickJob);
   (bs "touch ", Op.Touch); (bs "stats-job ", Op.StatsJob); (bs "stats-tube ", Op.StatsTube);
   (bs "stats", Op.Stats); (bs "use ", Op.Use); (bs "watch ", Op.Watch); (bs "ignore ", Op.Ignore);
   (bs "list-tubes-watched", Op.ListTubesWatched); (bs "list-tube-used", Op.ListTubeUsed);
   (bs "list-tubes", Op.ListTubes); (bs "quit", Op.Quit); (bs "pause-tube", Op.PauseTube)].

(** [line.strip_prefix(p)]. *)
Fixpoint strip_prefix (p line : Bytes) : option Bytes :=
  match p, line with
  | [], _ => Some line
  | a :: p, b :: line => if bool_decide (a = b) then strip_prefix p line else None
  | _ :: _, [] => None
  end.
(** The operation of the first prefix that matches, and the prefix's length. *)
Fixpoint which_cmd_in (tests : list (Bytes * Op)) (line : Bytes) : option (Op * nat) :=
  match tests with
  | [] => None
  | (prefix, op) :: tests =>
      if bool_decide (length prefix ≤ length line) && bool_decide (take (length prefix) line = prefix)
      then Some (op, length prefix)
      else which_cmd_in tests line
  end.
Definition which_cmd (line : Bytes) : option (Op * nat) := which_cmd_in CMD_TESTS line.

Definition wrapping_neg64 (x : N) : N := (2 ^ 64 - x) `mod` 2 ^ 64.
Definition parse_kick_count (buf : Bytes) : option N :=
  let buf := drop_while is_ascii_whitespace buf in
  let '(negative, buf) :=
    match buf with
    | b :: rest => if bool_decide (b = "-"%char) then (true, rest)
                   else if bool_decide (b = "+"%char) then (false, rest) else (false, buf)
    | [] => (false, buf)
    end in
  let digits := span_while is_digit buf in
  if bool_decide (digits = []) then None
  else
    let val := digits_value digits in
    if (u64_max <? val)%N then None
    else Some (wrap32 (if negative then wrapping_neg64 val else val)).

(** A command with no argument: the rest of the line must be empty. *)
Definition no_rest (rest : Bytes) (cmd : Command) : ParseResult ParsedLine :=
  if bool_decide (rest = []) then inl (ParsedLine.Command cmd) else inr Response.BadFormat.
Definition i32_max : N := 2 ^ 31 - 1.

Definition parse_line_raw (line : Bytes) : ParseResult ParsedLine :=
  if bool_decide (ascii_of_N 0 ∈ line) then inr Response.BadFormat
  else
    match which_cmd line with
    | None => inr Response.UnknownCommand
    | Some (op, prefix_len) =>
        let rest := drop prefix_len line in
        match op with
        | Op.Put =>
            '(pri, rest) ←! bad_format (read_u32_partial rest);
            '(delay, rest) ←! bad_format (read_u32_partial rest);
            '(ttr, rest) ←! bad_format (read_u32_partial rest);
            '(body_size, rest) ←! bad_format (read_u32_partial rest);
            inl (ParsedLine.Put (mkPutHeader pri delay ttr body_size (negb (bool_decide (rest = [])))))
        | Op.PeekJob => id ←! bad_format (read_u64_full rest); inl (ParsedLine.Command (Command.Peek id))
        | Op.PeekReady => no_rest rest Command.PeekReady
        | Op.PeekDelayed => no_rest rest Command.PeekDelayed
        | Op.PeekBuried => no_rest rest Command.PeekBuried
        | Op.ReserveTimeout =>
            '(timeout, _) ←! bad_format (read_u32_partial rest);
            if (i32_max <? timeout)%N then inr Response.BadFormat
            else inl (ParsedLine.Command (Command.ReserveWithTimeout timeout))
        | Op.ReserveJob => id ←! bad_format (read_u64_full rest); inl (ParsedLine.Command (Command.ReserveJob id))
        | Op.Reserve => no_rest rest Command.Reserve
        | Op.Delete => id ←! bad_format (read_u64_full rest); inl (ParsedLine.Command (Command.Delete id))
        | Op.Release =>
            '(id, rest) ←! bad_format (read_u64_partial rest);
            '(pri, rest) ←! bad_format (read_u32_partial rest);
            delay ←! bad_format (read_u32_full rest);
            inl (ParsedLine.Command (Command.Release id pri delay))
        | Op.Bury =>
            '(id, rest) ←! bad_format (read_u64_partial rest);
            pri ←! bad_format (read_u32_full rest);
            inl (ParsedLine.Command (Command.Bury id pri))
        | Op.Kick => count ←! bad_format (parse_kick_count rest); inl (ParsedLine.Command (Command.Kick count))
        | Op.KickJob => id ←! bad_format (read_u64_full rest); inl (ParsedLine.Command (Command.KickJob id))
        | Op.Touch => id ←! bad_format (read_u64_full rest); inl (ParsedLine.Command (Command.Touch id))
        | Op.StatsJob => id ←! bad_format (read_u64_full rest); inl (ParsedLine.Command (Command.StatsJob id))
        | Op.StatsTube => tube ←! tube_name_from_full_rest rest; inl (ParsedLine.Command (Command.StatsTube tube))
        | Op.Stats => no_rest rest Command.Stats
        | Op.Use => tube ←! tube_name_from_full_rest rest; inl (ParsedLine.Command (Command.Use tube))
        | Op.Watch => tube ←! tube_name_from_full_rest rest; inl (ParsedLine.Command (Command.Watch tube))
        | Op.Ignore => tube ←! tube_name_from_full_rest rest; inl (ParsedLine.Command (Command.Ignore tube))
        | Op.ListTubesWatched => no_rest rest Command.ListTubesWatched
        | Op.ListTubeUsed => no_rest rest Command.ListTubeUsed
        | Op.ListTubes => no_rest rest Command.ListTubes
        | Op.Quit => inl (ParsedLine.Command Command.Quit)
        | Op.PauseTube =>
            '(name, rest) ←! bad_format (read_tube_name_span rest);
            delay ←! bad_format (read_u32_full rest);
            inl (ParsedLine.Command
                   (match tube_name_from_bytes name with
                    | Some tube => Command.PauseTube tube delay
                    | None => Command.PauseTubeBadName
                    end))
        end
    end.

Definition parse_line (line : Bytes) : ParseResult Command :=
  p ←! parse_line_raw line;
  match p with
  | ParsedLine.Command cmd => inl cmd
  | ParsedLine.Put h => inl (Command.Put (ph_pri h) (ph_delay h) (ph_ttr h) [])
  end.

Example parse_examples :
  parse_line (bs "reserve-with-timeout 5x") = inl (Command.ReserveWithTimeout 5) ∧
  parse_line (bs "kick -1") = inl (Command.Kick 4294967295) ∧
  parse_line (bs "use -a") = inr Response.BadFormat ∧
  parse_line (bs "peek-readyx") = inr Response.BadFormat ∧
  parse_line (bs "nope") = inr Response.UnknownCommand.
Proof. vm_compute. done. Qed.

(** ** Decimal numbers *)
Definition dec_value (l : Bytes) : N := foldl (λ v d, v * 10 + (byte_N d - 48))%N 0%N l.
Lemma digits_value_spec l : digits_value l = N.min (dec_value l) u128_max.
Proof.
  unfold digits_value, dec_value.
  assert (∀ v w, v = N.min w u128_max →
    foldl (λ val d, sat_add128 (sat_mul128 val 10) (byte_N d - 48)) v l =
    N.min (foldl (λ v d, v * 10 + (byte_N d - 48))%N w l) u128_max) as H; [|by apply H].
  induction l as [|d l IH]; intros v w ->; [done|]. cbn [foldl]. apply IH.
  unfold sat_add128, sat_mul128. assert (1 ≤ u128_max)%N by done. nia.
Qed.
Lemma digits_exact l : (digits_value l ≤ u64_max)%N → digits_value l = dec_value l.
Proof. rewrite digits_value_spec. assert (u64_max < u128_max)%N by done. lia. Qed.

Definition digits (l : Bytes) : Prop := Forall (λ b, is_digit b = true) l.
Lemma pretty_char_digit x : (x < 10)%N → is_digit (pretty_N_char x) = true ∧ (byte_N (pretty_N_char x) - 48 = x)%N.
Proof.
  intros Hx. assert (x = 0 ∨ x = 1 ∨ x = 2 ∨ x = 3 ∨ x = 4 ∨ x = 5 ∨ x = 6 ∨ x = 7 ∨ x = 8 ∨ x = 9)%N as Hc by lia.
  repeat (destruct Hc as [->|Hc]; [done|]). by subst.
Qed.
Lemma dec_value_snoc l d : dec_value (l ++ [d]) = (dec_value l * 10 + (byte_N d - 48))%N.
Proof. unfold dec_value. by rewrite foldl_app. Qed.
Lemma pretty_go_digits x s :
  ∃ l, bs (pretty_N_go x s) = l ++ bs s ∧ digits l ∧ dec_value l = x ∧ ((0 < x)%N → l ≠ []).
Proof.
  revert s. induction (N.lt_wf_0 x) as [x _ IH]; intros s.
  destruct (decide (0 < x)%N) as [Hx|Hx].
  2: { assert (x = 0)%N as -> by lia. exists []. rewrite pretty_N_go_0. split_and!; [done|constructor|done|lia]. }
  rewrite pretty_N_go_step by done. destruct (IH (x `div` 10)%N) with (s := String (pretty_N_char (x `mod` 10)) s)
    as (l & Hl & Hd & Hv & _); [apply N.div_lt; lia|].
  assert (x `mod` 10 < 10)%N as Hm by (apply N.mod_lt; lia). destruct (pretty_char_digit _ Hm) as [Hc Hcv].
  exists (l ++ [pretty_N_char (x `mod` 10)]). rewrite Hl, dec_value_snoc, Hv, Hcv. split_and!.
  - rewrite <-app_assoc. done.
  - apply Forall_app. split; [done|]. by apply Forall_singleton.
  - pose proof (N.div_mod x 10). lia.
  - intros _. by destruct l.
Qed.
Lemma dec_digits n : digits (bs (dec n)) ∧ dec_value (bs (dec n)) = n ∧ bs (dec n) ≠ [].
Proof.
  unfold dec, pretty, pretty_N. case_decide as Hn; [by subst; split_and!; [repeat constructor|..]|].
  destruct (pretty_go_digits n "") as (l & Hl & Hd & Hv & Hne). rewrite Hl, app_nil_r. split_and!; auto. apply Hne. lia.
Qed.

(** ** Spans *)
Definition stops (f : ascii → bool) (rest : Bytes) : Prop := ∀ b, head rest = Some b → f b = false.
Lemma span_app f l rest : Forall (λ b, f b = true) l → stops f rest → span_while f (l ++ rest) = l ∧ drop_while f (l ++ rest) = rest.
Proof.
  intros Hl Hr. induction Hl as [|b l Hb Hl IH]; simpl.
  - destruct rest as [|b rest]; [done|]. specialize (Hr b eq_refl). simpl. by rewrite Hr.
  - rewrite Hb. destruct IH as [-> ->]. done.
Qed.
Lemma span_drop f l : l = span_while f l ++ drop_while f l.
Proof. induction l as [|b l IH]; simpl; [done|]. destruct (f b); simpl; congruence. Qed.
Lemma span_all f l : Forall (λ b, f b = true) (span_while f l).
Proof. induction l as [|b l IH]; simpl; [constructor|]. destruct (f b) eqn:E; by constructor. Qed.

Lemma digit_not_space b : is_digit b = true → b ≠ " "%char.
Proof. by intros H ->. Qed.
Lemma skip_to_digit l rest :
  digits l → l ≠ [] → skip_leading_spaces (l ++ rest) = l ++ rest ∧ skip_leading_spaces (" "%char :: l ++ rest) = l ++ rest.
Proof.
  intros Hd Hl. unfold skip_leading_spaces. destruct l as [|b l]; [done|]. apply Forall_cons in Hd as [Hb%digit_not_space _].
  simpl. by rewrite bool_decide_eq_false_2.
Qed.
Lemma read_u64_dec n rest :
  (n ≤ u64_max)%N → stops is_digit rest →
  read_u64_partial (bs (dec n) ++ rest) = Some (n, rest) ∧ read_u64_partial (" "%char :: bs (dec n) ++ rest) = Some (n, rest).
Proof.
  intros Hn Hr. destruct (dec_digits n) as (Hd & Hv & Hne). unfold read_u64_partial.
  destruct (skip_to_digit _ rest Hd Hne) as [-> ->].
  assert (parse_digits (bs (dec n) ++ rest) = Some (n, rest)) as ->.
  { unfold parse_digits. destruct (span_app _ _ _ Hd Hr) as [-> ->].
    assert (digits_value (bs (dec n)) = n) as ->.
    { rewrite digits_value_spec, Hv. assert (u64_max < u128_max)%N by done. lia. }
    destruct (bs (dec n)) as [|b l]; [done|]. cbn [head app]. apply Forall_cons in Hd as [-> _]. done. }
  cbn [mbind option_bind]. rewrite (proj2 (N.ltb_ge _ _) Hn). done.
Qed.
Lemma read_u32_dec n rest :
  (n ≤ u32_max)%N → stops is_digit rest →
  read_u32_partial (bs (dec n) ++ rest) = Some (n, rest) ∧ read_u32_partial (" "%char :: bs (dec n) ++ rest) = Some (n, rest).
Proof.
  intros Hn Hr. assert (u32_max ≤ u64_max)%N by done. destruct (read_u64_dec n rest) as [H1 H2]; [lia|done|].
  unfold read_u32_partial. rewrite H1, H2. cbn [mbind option_bind]. by rewrite (proj2 (N.ltb_ge _ _) Hn).
Qed.
Lemma stops_nil f : stops f [].
Proof. done. Qed.
Lemma stops_space rest : stops is_digit (" "%char :: rest).
Proof. by intros b [= <-]. Qed.
#[export] Hint Resolve stops_nil stops_space : core.
Lemma read_u64_full_dec n : (n ≤ u64_max)%N → read_u64_full (bs (dec n)) = Some n.
Proof.
  intros Hn. destruct (read_u64_dec n [] Hn) as [H1 _]; [done|]. rewrite app_nil_r in H1. unfold read_u64_full. by rewrite H1.
Qed.
Lemma read_u32_full_dec n : (n ≤ u32_max)%N → read_u32_full (" "%char :: bs (dec n)) = Some n.
Proof.
  intros Hn. destruct (read_u32_dec n [] Hn) as [_ H1]; [done|]. rewrite app_nil_r in H1. unfold read_u32_full. by rewrite H1.
Qed.

(** ** What the parser promises *)
Definition command_ok (cmd : Command) : bool :=
  let u64 n := (n <=? u64_max)%N in
  match cmd with
  | Command.Put pri delay ttr _ => u32 pri && u32 delay && u32 ttr
  | Command.Use t | Command.Watch t | Command.Ignore t | Command.StatsTube t => validate_tube_name t
  | Command.ReserveWithTimeout n => (n <=? i32_max)%N
  | Command.ReserveJob id | Command.Delete id | Command.Touch id | Command.Peek id
  | Command.KickJob id | Command.StatsJob id => u64 id
  | Command.Release id pri delay => u64 id && u32 pri && u32 delay
  | Command.Bury id pri => u64 id && u32 pri
  | Command.Kick n => u32 n
  | Command.PauseTube t delay => validate_tube_name t && u32 delay
  | _ => true
  end.
Lemma command_ok_typed cmd : command_ok cmd = true → typed cmd = true.
Proof.
  destruct cmd; simpl; try done; rewrite ?andb_true_iff; try tauto.
  unfold u32. rewrite !N.leb_le. unfold i32_max, u32_max. lia.
Qed.

Lemma read_u64_bound buf n rest : read_u64_partial buf = Some (n, rest) → (n <=? u64_max)%N = true.
Proof.
  unfold read_u64_partial. destruct (parse_digits _) as [[v r]|]; [|done]. cbn [mbind option_bind].
  destruct (N.ltb_spec u64_max v); [done|]. intros [= <- _]. by apply N.leb_le.
Qed.
Lemma read_u32_bound buf n rest : read_u32_partial buf = Some (n, rest) → u32 n = true.
Proof.
  unfold read_u32_partial. destruct (read_u64_partial _) as [[v r]|]; [|done]. cbn [mbind option_bind].
  destruct (N.ltb_spec u32_max v); [done|]. intros [= <- _]. by apply N.leb_le.
Qed.
Lemma read_u64_full_bound buf n : read_u64_full buf = Some n → (n <=? u64_max)%N = true.
Proof.
  unfold read_u64_full. destruct (read_u64_partial buf) as [[v r]|] eqn:E; [|done]. cbn [mbind option_bind].
  case_bool_decide; [|done]. intros [= <-]. by eapply read_u64_bound.
Qed.
Lemma read_u32_full_bound buf n : read_u32_full buf = Some n → u32 n = true.
Proof.
  unfold read_u32_full. destruct (read_u32_partial buf) as [[v r]|] eqn:E; [|done]. cbn [mbind option_bind].
  case_bool_decide; [|done]. intros [= <-]. by eapply read_u32_bound.
Qed.
Lemma kick_count_bound buf n : parse_kick_count buf = Some n → u32 n = true.
Proof.
  unfold parse_kick_count. destruct (match drop_while _ buf with [] => _ | _ :: _ => _ end) as [neg b].
  case_bool_decide; [done|]. case_match; [done|]. intros [= <-]. apply N.leb_le. unfold wrap32, u32_max.
  match goal with |- (?x `mod` _ ≤ _)%N => pose proof (N.mod_lt x (2 ^ 32)) end. lia.
Qed.
Lemma tube_name_rest_ok rest t : tube_name_from_full_rest rest = inl t → validate_tube_name t = true.
Proof.
  unfold tube_name_from_full_rest, TubeName_new. destruct (from_utf8 rest); [|done]. cbn [bad_format ok_or pbind].
  case_match; [|done]. by intros [= <-].
Qed.

(** A parse succeeds or fails; a success carries the facts of its reads. *)
Ltac parse_step :=
  match goal with
  | H : pbind (bad_format ?o) _ = inl _ |- _ =>
      let E := fresh "E" in destruct o as [?|] eqn:E; cbn [bad_format ok_or pbind] in H; [|discriminate H]
  | H : pbind ?o _ = inl _ |- _ =>
      let E := fresh "E" in destruct o as [?|?] eqn:E; cbn [pbind] in H; [|discriminate H]
  | H : (let '(_, _) := ?p in _) = inl _ |- _ => destruct p as [? ?]
  | H : (if ?c then inr _ else _) = inl _ |- _ => let E := fresh "E" in destruct c eqn:E; [discriminate H|]
  | H : no_rest _ _ = inl _ |- _ => unfold no_rest in H
  | H : (if ?c then _ else inr _) = inl _ |- _ => let E := fresh "E" in destruct c eqn:E; [|discriminate H]
  end.
Create HintDb parse.
#[export] Hint Resolve read_u64_bound read_u32_bound read_u64_full_bound read_u32_full_bound kick_count_bound
  tube_name_rest_ok : parse.
Definition header_ok (h : PutHeader) : bool :=
  u32 (ph_pri h) && u32 (ph_delay h) && u32 (ph_ttr h) && u32 (ph_body_size h).

Lemma parse_line_raw_ok line p :
  parse_line_raw line = inl p →
  match p with ParsedLine.Command cmd => command_ok cmd = true | ParsedLine.Put h => header_ok h = true end.
Proof.
  unfold parse_line_raw. case_bool_decide; [done|]. destruct (which_cmd line) as [[op n]|]; [|done].
  cbv zeta. generalize (drop n line) as rest. intros rest Hp.
  destruct op; repeat parse_step; injection Hp as <-; unfold header_ok; cbn [command_ok ph_pri ph_delay ph_ttr ph_body_size];
    repeat (apply andb_true_iff; split); eauto 2 with parse nocore; try done.
  - apply N.leb_le. by apply N.ltb_ge.
  - destruct (tube_name_from_bytes _) as [t|] eqn:Et; [|done]. cbn [command_ok]. apply andb_true_iff. split; [|eauto with parse].
    unfold tube_name_from_bytes, TubeName_new in Et. destruct (from_utf8 _); [|done]. cbn [mbind option_bind] in Et.
    case_match; [|done]. congruence.
Qed.

(** ** The round trip *)
Definition sp : ascii := " "%char.
(** The line a client sends; for a put, the header line. *)
Definition command_line (cmd : Command) : Bytes :=
  match cmd with
  | Command.Put pri delay ttr body =>
      bs "put " ++ bs (dec pri) ++ sp :: bs (dec delay) ++ sp :: bs (dec ttr) ++ sp :: bs (dec (N.of_nat (length body)))
  | Command.Use t => bs "use " ++ bs t
  | Command.Reserve => bs "reserve"
  | Command.ReserveWithTimeout n => bs "reserve-with-timeout " ++ bs (dec n)
  | Command.ReserveJob id => bs "reserve-job " ++ bs (dec id)
  | Command.Delete id => bs "delete " ++ bs (dec id)
  | Command.Release id pri delay =>
      bs "release " ++ bs (dec id) ++ sp :: bs (dec pri) ++ sp :: bs (dec delay)
  | Command.Bury id pri => bs "bury " ++ bs (dec id) ++ sp :: bs (dec pri)
  | Command.Touch id => bs "touch " ++ bs (dec id)
  | Command.Watch t => bs "watch " ++ bs t
  | Command.Ignore t => bs "ignore " ++ bs t
  | Command.Peek id => bs "peek " ++ bs (dec id)
  | Command.PeekReady => bs "peek-ready"
  | Command.PeekDelayed => bs "peek-delayed"
  | Command.PeekBuried => bs "peek-buried"
  | Command.Kick n => bs "kick " ++ bs (dec n)
  | Command.KickJob id => bs "kick-job " ++ bs (dec id)
  | Command.StatsJob id => bs "stats-job " ++ bs (dec id)
  | Command.StatsTube t => bs "stats-tube " ++ bs t
  | Command.Stats => bs "stats"
  | Command.ListTubes => bs "list-tubes"
  | Command.ListTubeUsed => bs "list-tube-used"
  | Command.ListTubesWatched => bs "list-tubes-watched"
  | Command.Quit => bs "quit"
  | Command.PauseTube t delay => bs "pause-tube " ++ bs t ++ sp :: bs (dec delay)
  | Command.PauseTubeBadName => bs "pause-tube -x 0"
  end.

(** The test of [which_cmd] is [strip_prefix]. *)
Lemma strip_prefix_test p line :
  bool_decide (length p ≤ length line) && bool_decide (take (length p) line = p) =
    match strip_prefix p line with Some _ => true | None => false end.
Proof.
  revert line. induction p as [|a p IH]; intros line; [by destruct line|].
  destruct line as [|b line]; [done|]. cbn [length take strip_prefix]. destruct (decide (a = b)) as [<-|Hab].
  - rewrite (bool_decide_eq_true_2 (a = a)), <-IH by done. f_equal; apply bool_decide_ext; split; simpl; (lia || congruence).
  - rewrite (bool_decide_eq_false_2 (a = b)), (bool_decide_eq_false_2 (_ :: _ = _)) by naive_solver.
    by rewrite andb_false_r.
Qed.
Fixpoint which_cmd_strip (tests : list (Bytes * Op)) (line : Bytes) : option (Op * nat) :=
  match tests with
  | [] => None
  | (p, op) :: tests =>
      match strip_prefix p line with Some _ => Some (op, length p) | None => which_cmd_strip tests line end
  end.
Lemma which_cmd_eq line : which_cmd line = which_cmd_strip CMD_TESTS line.
Proof.
  unfold which_cmd. induction CMD_TESTS as [|[p op] tests IH]; [done|]. cbn [which_cmd_in which_cmd_strip].
  rewrite strip_prefix_test, IH. by destruct (strip_prefix p line).
Qed.
(** The first prefix of the table that the line has. *)
Lemma which_cmd_at p op :
  (∀ rest, which_cmd_strip CMD_TESTS (p ++ rest) = Some (op, length p)) →
  ∀ rest, which_cmd (p ++ rest) = Some (op, length p) ∧ drop (length p) (p ++ rest) = rest.
Proof. intros Hp rest. rewrite which_cmd_eq, Hp, drop_app_length. done. Qed.

(** No byte of a canonical line is a control character. *)
Definition printable (b : ascii) : bool := (31 <? byte_N b)%N.
Definition clean (l : Bytes) : Prop := Forall (λ b, printable b = true) l.
Lemma clean_no_nul l : clean l → bool_decide (ascii_of_N 0 ∈ l) = false.
Proof.
  intros Hl. apply bool_decide_eq_false. intros Hin. unfold clean in Hl. rewrite Forall_forall in Hl.
  by specialize (Hl _ Hin).
Qed.
Lemma clean_digits l : digits l → clean l.
Proof.
  intros H. eapply Forall_impl; [exact H|]. intros b. unfold is_digit, printable. rewrite andb_true_iff, !N.leb_le, N.ltb_lt. lia.
Qed.
Lemma clean_dec n : clean (bs (dec n)).
Proof. apply clean_digits, dec_digits. Qed.
Lemma name_char_range b : is_name_char b = true → (31 < byte_N b < 128)%N.
Proof.
  unfold is_name_char, is_alphanumeric, is_digit. rewrite !orb_true_iff, !andb_true_iff, !N.leb_le, bool_decide_eq_true.
  intros [[[?|?]|?]|Hin]; [lia..|]. cbn in Hin. rewrite !elem_of_cons, elem_of_nil in Hin. naive_solver lia.
Qed.
Lemma name_chars t : validate_tube_name t = true → Forall (λ b, is_name_char b = true) (bs t).
Proof.
  unfold validate_tube_name. case_match; [done|]. case_match; [done|]. rewrite forallb_forall, Forall_forall.
  intros Hall b Hb. by apply Hall, list_elem_of_In.
Qed.
Lemma clean_name t : validate_tube_name t = true → clean (bs t).
Proof.
  intros H%name_chars. eapply Forall_impl; [exact H|]. intros b Hb%name_char_range. apply N.ltb_lt. lia.
Qed.
Lemma clean_app l l' : clean l → clean l' → clean (l ++ l').
Proof. intros. by apply Forall_app. Qed.
Lemma clean_sp l : clean l → clean (sp :: l).
Proof. intros. by constructor. Qed.
Lemma clean_lit l : forallb printable l = true → clean l.
Proof. rewrite forallb_forall. intros H. apply Forall_forall. intros b Hb. by apply H, list_elem_of_In. Qed.
#[export] Hint Resolve clean_app clean_sp clean_dec clean_name : parse.
#[export] Hint Extern 1 (clean (bs _)) => (by apply clean_lit) : parse.

Lemma name_utf8 l : Forall (λ b, is_name_char b = true) l → utf8_valid l = true.
Proof.
  induction 1 as [|b l Hb _ IH]; [done|]. cbn [utf8_valid]. apply name_char_range in Hb as [_ Hb].
  by rewrite (proj2 (N.ltb_lt _ _) Hb).
Qed.
Lemma from_utf8_name t : validate_tube_name t = true → from_utf8 (bs t) = Some t.
Proof.
  intros H%name_chars%name_utf8. unfold from_utf8. rewrite H. f_equal. apply Strings.String.string_of_list_ascii_of_string.
Qed.
Lemma tube_name_rest t : validate_tube_name t = true → tube_name_from_full_rest (bs t) = inl t.
Proof.
  intros H. unfold tube_name_from_full_rest. rewrite from_utf8_name by done. cbn. unfold TubeName_new. by rewrite H.
Qed.
Lemma kick_count_dec n : u32 n = true → parse_kick_count (bs (dec n)) = Some n.
Proof.
  intros Hn%N.leb_le. destruct (dec_digits n) as (Hd & Hv & Hne). unfold parse_kick_count.
  assert (u32_max < u64_max ∧ u32_max < u128_max)%N as [? ?] by done.
  assert (∀ b, is_digit b = true → is_ascii_whitespace b = false ∧ b ≠ "-"%char ∧ b ≠ "+"%char) as Hb.
  { intros b Hb. split_and!; try (by intros ->). apply bool_decide_eq_false. rewrite !elem_of_cons, elem_of_nil.
    unfold is_digit in Hb. rewrite andb_true_iff, !N.leb_le in Hb. lia. }
  assert (drop_while is_ascii_whitespace (bs (dec n)) = bs (dec n)) as ->.
  { destruct (bs (dec n)) as [|b l]; [done|]. apply Forall_cons in Hd as [Hb1 _]. simpl. by rewrite (proj1 (Hb b Hb1)). }
  destruct (bs (dec n)) as [|b l] eqn:E; [done|]. pose proof Hd as [Hb1 _]%Forall_cons. destruct (Hb b Hb1) as (_ & H1 & H2).
  rewrite !bool_decide_eq_false_2 by done.
  destruct (span_app is_digit (b :: l) [] Hd (stops_nil _)) as [Hs _]. rewrite app_nil_r in Hs. rewrite Hs.
  rewrite bool_decide_eq_false_2, digits_value_spec, Hv by done.
  assert ((u64_max <? N.min n u128_max)%N = false) as -> by (apply N.ltb_ge; lia).
  unfold wrap32. f_equal. unfold u32_max in *. rewrite N.mod_small; lia.
Qed.

(** What the parser makes of the line: a put becomes its header. *)
Definition parsed_command (cmd : Command) : ParsedLine :=
  match cmd with
  | Command.Put pri delay ttr body =>
      ParsedLine.Put (mkPutHeader pri delay ttr (N.of_nat (length body)) false)
  | _ => ParsedLine.Command cmd
  end.
Definition body_ok (cmd : Command) : bool :=
  match cmd with Command.Put _ _ _ body => u32 (N.of_nat (length body)) | _ => true end.

(** Choose the operation of a line that starts with the prefix. *)
Ltac choose_op p op rest :=
  destruct (which_cmd_at p op ltac:(intros; vm_compute; reflexivity) rest) as [-> ->].
Ltac start_line :=
  unfold parse_line_raw; rewrite clean_no_nul by (unfold command_line; eauto 8 with parse).

Lemma read_u32_sp n rest :
  u32 n = true → stops is_digit rest → read_u32_partial (sp :: bs (dec n) ++ rest) = Some (n, rest).
Proof. intros Hn%N.leb_le Hr. by destruct (read_u32_dec n rest Hn Hr). Qed.
Lemma read_u32_here n rest :
  u32 n = true → stops is_digit rest → read_u32_partial (bs (dec n) ++ rest) = Some (n, rest).
Proof. intros Hn%N.leb_le Hr. by destruct (read_u32_dec n rest Hn Hr). Qed.
Lemma read_u64_here n rest :
  (n <=? u64_max)%N = true → stops is_digit rest → read_u64_partial (bs (dec n) ++ rest) = Some (n, rest).
Proof. intros Hn%N.leb_le Hr. by destruct (read_u64_dec n rest Hn Hr). Qed.
Lemma read_u32_last n : u32 n = true → read_u32_full (sp :: bs (dec n)) = Some n.
Proof. intros Hn%N.leb_le. by apply read_u32_full_dec. Qed.
Lemma read_u64_all n : (n <=? u64_max)%N = true → read_u64_full (bs (dec n)) = Some n.
Proof. intros Hn%N.leb_le. by apply read_u64_full_dec. Qed.

Section round_trip.
Context (id pri delay ttr n : N) (t : TubeName) (body : Bytes).

Lemma parse_put :
  u32 pri && u32 delay && u32 ttr = true → u32 (N.of_nat (length body)) = true →
  parse_line_raw (command_line (Command.Put pri delay ttr body)) =
    inl (parsed_command (Command.Put pri delay ttr body)).
Proof using.
  intros [[H1 H2]%andb_true_iff H3]%andb_true_iff Hb. start_line. unfold command_line.
  choose_op (bs "put ") Op.Put (bs (dec pri) ++ sp :: bs (dec delay) ++ sp :: bs (dec ttr) ++ sp :: bs (dec (N.of_nat (length body)))).
  rewrite read_u32_here by (done || apply stops_space). cbn [bad_format ok_or pbind].
  rewrite read_u32_sp by (done || apply stops_space). cbn [bad_format ok_or pbind].
  rewrite read_u32_sp by (done || apply stops_space). cbn [bad_format ok_or pbind].
  rewrite <-(app_nil_r (bs (dec (N.of_nat (length body))))), read_u32_sp by done. done.
Qed.
Lemma parse_release :
  (id <=? u64_max)%N && u32 pri && u32 delay = true →
  parse_line_raw (command_line (Command.Release id pri delay)) = inl (ParsedLine.Command (Command.Release id pri delay)).
Proof using.
  intros [[H1 H2]%andb_true_iff H3]%andb_true_iff. start_line. unfold command_line.
  choose_op (bs "release ") Op.Release (bs (dec id) ++ sp :: bs (dec pri) ++ sp :: bs (dec delay)).
  rewrite read_u64_here by (done || apply stops_space). cbn [bad_format ok_or pbind].
  rewrite read_u32_sp by (done || apply stops_space). cbn [bad_format ok_or pbind].
  by rewrite read_u32_last.
Qed.
Lemma parse_bury :
  (id <=? u64_max)%N && u32 pri = true →
  parse_line_raw (command_line (Command.Bury id pri)) = inl (ParsedLine.Command (Command.Bury id pri)).
Proof using.
  intros [H1 H2]%andb_true_iff. start_line. unfold command_line.
  choose_op (bs "bury ") Op.Bury (bs (dec id) ++ sp :: bs (dec pri)).
  rewrite read_u64_here by (done || apply stops_space). cbn [bad_format ok_or pbind]. by rewrite read_u32_last.
Qed.
Lemma parse_reserve_timeout :
  (n <=? i32_max)%N = true →
  parse_line_raw (command_line (Command.ReserveWithTimeout n)) = inl (ParsedLine.Command (Command.ReserveWithTimeout n)).
Proof using.
  intros Hn. start_line. unfold command_line. choose_op (bs "reserve-with-timeout ") Op.ReserveTimeout (bs (dec n)).
  rewrite <-(app_nil_r (bs (dec n))), read_u32_here; [|apply N.leb_le in Hn; apply N.leb_le; unfold i32_max, u32_max in *; lia|done].
  cbn [bad_format ok_or pbind]. apply N.leb_le, N.ltb_ge in Hn. by rewrite Hn.
Qed.
Lemma parse_pause_tube :
  validate_tube_name t && u32 delay = true →
  parse_line_raw (command_line (Command.PauseTube t delay)) = inl (ParsedLine.Command (Command.PauseTube t delay)).
Proof using.
  intros [H1 H2]%andb_true_iff. start_line. unfold command_line.
  change (bs "pause-tube ") with (bs "pause-tube" ++ [sp]). rewrite <-app_assoc.
  choose_op (bs "pause-tube") Op.PauseTube ([sp] ++ bs t ++ sp :: bs (dec delay)).
  pose proof (name_chars t H1) as Hc. unfold read_tube_name_span.
  assert (bs t ≠ []) as Hne.
  { intros E. unfold validate_tube_name in H1. by rewrite E in H1. }
  assert (skip_leading_spaces ([sp] ++ bs t ++ sp :: bs (dec delay)) = bs t ++ sp :: bs (dec delay)) as ->.
  { unfold skip_leading_spaces. cbn [app drop_while]. rewrite bool_decide_eq_true_2 by done.
    destruct (bs t) as [|b l]; [done|]. apply Forall_cons in Hc as [Hb _]. cbn [app drop_while].
    rewrite bool_decide_eq_false_2; [done|]. by intros ->. }
  destruct (span_app is_name_char (bs t) (sp :: bs (dec delay)) Hc) as [-> ->]; [by intros b [= <-]|].
  rewrite bool_decide_eq_false_2 by done. cbn [bad_format ok_or pbind]. rewrite read_u32_last by done.
  cbn [bad_format ok_or pbind]. unfold tube_name_from_bytes. rewrite from_utf8_name by done. cbn [mbind option_bind].
  unfold TubeName_new. by rewrite H1.
Qed.
End round_trip.

(** The parser inverts the printer. *)
Lemma parse_command_line cmd :
  command_ok cmd = true → body_ok cmd = true → parse_line_raw (command_line cmd) = inl (parsed_command cmd).
Proof.
  destruct cmd; cbn [command_ok body_ok]; intros Hc Hb;
    try (match goal with |- context [command_line ?c] => is_constructor c end; vm_compute; reflexivity).
  - by apply parse_put.
  - start_line. unfold command_line. choose_op (bs "use ") Op.Use (bs tube). by rewrite tube_name_rest.
  - by apply parse_reserve_timeout.
  - start_line. unfold command_line. choose_op (bs "reserve-job ") Op.ReserveJob (bs (dec id)). by rewrite read_u64_all.
  - start_line. unfold command_line. choose_op (bs "delete ") Op.Delete (bs (dec id)). by rewrite read_u64_all.
  - by apply parse_release.
  - by apply parse_bury.
  - start_line. unfold command_line. choose_op (bs "touch ") Op.Touch (bs (dec id)). by rewrite read_u64_all.
  - start_line. unfold command_line. choose_op (bs "watch ") Op.Watch (bs tube). by rewrite tube_name_rest.
  - start_line. unfold command_line. choose_op (bs "ignore ") Op.Ignore (bs tube). by rewrite tube_name_rest.
  - start_line. unfold command_line. choose_op (bs "peek ") Op.PeekJob (bs (dec id)). by rewrite read_u64_all.
  - start_line. unfold command_line. choose_op (bs "kick ") Op.Kick (bs (dec n)). by rewrite kick_count_dec.
  - start_line. unfold command_line. choose_op (bs "kick-job ") Op.KickJob (bs (dec id)). by rewrite read_u64_all.
  - start_line. unfold command_line. choose_op (bs "stats-job ") Op.StatsJob (bs (dec id)). by rewrite read_u64_all.
  - start_line. unfold command_line. choose_op (bs "stats-tube ") Op.StatsTube (bs tube). by rewrite tube_name_rest.
  - by apply parse_pause_tube.
Qed.

(** The errors of the parser. *)
Lemma parse_error line r :
  parse_line_raw line = inr r → r = Response.BadFormat ∨ r = Response.UnknownCommand.
Proof.
  unfold parse_line_raw. case_bool_decide; [intros [= <-]; auto|].
  destruct (which_cmd line) as [[op n]|]; [|intros [= <-]; auto]. cbv zeta. generalize (drop n line) as rest. intros rest.
  destruct op; unfold no_rest, tube_name_from_full_rest, bad_format, ok_or, pbind;
    repeat case_match; intros; simplify_eq; auto.
Qed.
