(* ===== verification/Codec.v ===== *)
(** * Framing: [crates/proto/src/codec.rs]

    [step] is one turn of the [loop] of [decode], [decode] the loop with fuel
    for every byte, [frames] the decoder called until it asks for more
    bytes.  [CR], [LF] bytes are 13 and 10. *)

From S2P Require Import Prelude Proto Stats Parse.
From stdpp Require Import options.

Definition cr : ascii := ascii_of_N 13.
Definition lf : ascii := ascii_of_N 10.
Definition crlf : Bytes := [cr; lf].

Module State.
Inductive State :=
  | Line (overflowed : bool)
  | PutBody (pri delay ttr body_size : N)
  | Discard (remaining : N).
End State.
Abbreviation State := State.State (only parsing).
Record ServerCodec := mkServerCodec {
  sc_max_job_size : N; sc_state : State; sc_emit_put_started : bool; sc_recognize_auth : bool;
}.
Definition with_state (c : ServerCodec) (st : State) : ServerCodec :=
  mkServerCodec (sc_max_job_size c) st (sc_emit_put_started c) (sc_recognize_auth c).
Definition ServerCodec_new (max_job_size : N) : ServerCodec :=
  mkServerCodec max_job_size (State.Line false) false false.
Definition recognize_auth (c : ServerCodec) : ServerCodec :=
  mkServerCodec (sc_max_job_size c) (sc_state c) (sc_emit_put_started c) true.
Definition emit_put_started (c : ServerCodec) : ServerCodec :=
  mkServerCodec (sc_max_job_size c) (sc_state c) true (sc_recognize_auth c).

(** ** Lines *)
Module LineScan.
Inductive LineScan := Found (pos : nat) | Incomplete | Overflow.
End LineScan.
Abbreviation LineScan := LineScan.LineScan (only parsing).
Definition line_buf_size : nat := N.to_nat LINE_BUF_SIZE.
Definition scan_line_end (buf : Bytes) : LineScan :=
  let window_len := length buf `min` line_buf_size in
  let window := take window_len buf in
  let found :=
    if (2 <=? window_len)%nat then
      match list_find (cr =.) (take (window_len - 1) window) with
      | Some (pos, _) => if bool_decide (window !! (pos + 1) = Some lf) then Some pos else None
      | None => None
      end
    else None in
  match found with
  | Some pos => LineScan.Found pos
  | None => if (window_len =? line_buf_size)%nat then LineScan.Overflow else LineScan.Incomplete
  end.

(** ** The decoder *)
Inductive Step := Continue (c : ServerCodec) (src : Bytes) | Return (o : option Frame) (c : ServerCodec) (src : Bytes).

(** A complete line, without its CRLF. *)
Definition take_line (c : ServerCodec) (overflowed : bool) (line src : Bytes) : Step :=
  let next := with_state c (State.Line false) in
  let plain :=
    match parse_line_raw line with
    | inr resp => Return (Some (Frame.Error resp)) next src
    | inl (ParsedLine.Command cmd) => Return (Some (Frame.Command cmd)) next src
    | inl (ParsedLine.Put h) =>
        if (sc_max_job_size c <? ph_body_size h)%N then
          let c := with_state c (State.Discard (ph_body_size h + 2)) in
          if sc_emit_put_started c then Return (Some (Frame.PutStarted true)) c src else Continue c src
        else if ph_trailing_garbage h then Return (Some (Frame.PutRejected PutRejection.TrailingGarbage)) next src
        else
          let c := with_state c (State.PutBody (ph_pri h) (ph_delay h) (ph_ttr h) (ph_body_size h)) in
          if sc_emit_put_started c then Return (Some (Frame.PutStarted false)) c src else Continue c src
    end in
  if overflowed then Return (Some (Frame.Error Response.BadFormat)) next src
  else if sc_recognize_auth c then
    match strip_prefix (bs "auth ") line with
    | Some token => Return (Some (Frame.Auth token)) next src
    | None => plain
    end
  else plain.

Definition step (c : ServerCodec) (src : Bytes) : Step :=
  match sc_state c with
  | State.Line overflowed =>
      match scan_line_end src with
      | LineScan.Incomplete => Return None c src
      | LineScan.Overflow => Continue (with_state c (State.Line true)) (drop line_buf_size src)
      | LineScan.Found content_len =>
          take_line c overflowed (take content_len src) (drop (content_len + 2) src)
      end
  | State.PutBody pri delay ttr body_size =>
      let need := N.to_nat body_size + 2 in
      if (length src <? need)%nat then Return None c src
      else
        let body_with_crlf := take need src in
        let src := drop need src in
        let c := with_state c (State.Line false) in
        if bool_decide (body_with_crlf !! (need - 2) = Some cr) && bool_decide (body_with_crlf !! (need - 1) = Some lf)
        then Return (Some (Frame.Command (Command.Put pri delay ttr (take (need - 2) body_with_crlf)))) c src
        else Return (Some (Frame.PutRejected PutRejection.ExpectedCrlf)) c src
  | State.Discard remaining =>
      if bool_decide (src = []) then Return None c src
      else
        let taken := N.to_nat (N.min remaining (N.of_nat (length src))) in
        let src := drop taken src in
        let remaining := (remaining - N.of_nat taken)%N in
        if (0 <? remaining)%N then Return None (with_state c (State.Discard remaining)) src
        else Return (Some (Frame.PutRejected PutRejection.JobTooBig)) (with_state c (State.Line false)) src
  end.

Fixpoint decode_loop (fuel : nat) (c : ServerCodec) (src : Bytes) : option Frame * ServerCodec * Bytes :=
  match fuel with
  | O => (None, c, src)
  | S fuel =>
      match step c src with
      | Continue c src => decode_loop fuel c src
      | Return o c src => (o, c, src)
      end
  end.
Definition decode (c : ServerCodec) (src : Bytes) : option Frame * ServerCodec * Bytes :=
  decode_loop (S (length src)) c src.

(** The frames of the bytes at hand: the decoder is called until it returns
    [None]. *)
Fixpoint frames_loop (fuel : nat) (c : ServerCodec) (src : Bytes) : list Frame * (ServerCodec * Bytes) :=
  match fuel with
  | O => ([], (c, src))
  | S fuel =>
      match decode c src with
      | (Some f, c, src) => let '(l, r) := frames_loop fuel c src in (f :: l, r)
      | (None, c, src) => ([], (c, src))
      end
  end.
Definition frames (c : ServerCodec) (src : Bytes) : list Frame * (ServerCodec * Bytes) :=
  frames_loop (S (S (length src))) c src.

Example frames_example :
  frames (emit_put_started (ServerCodec_new 5)) (bs "put 1 0 9 2" ++ crlf ++ bs "hi" ++ crlf ++ bs "quit" ++ crlf ++ bs "re") =
    ([Frame.PutStarted false; Frame.Command (Command.Put 1 0 9 (bs "hi")); Frame.Command Command.Quit],
     (emit_put_started (ServerCodec_new 5), bs "re")).
Proof. vm_compute. reflexivity. Qed.

(** ** Scanning *)
(** The line ends at the first CR, if an LF follows inside the window. *)
Definition line_end (buf : Bytes) (pos : nat) : Prop :=
  pos + 2 ≤ length buf `min` line_buf_size ∧ buf !! pos = Some cr ∧ buf !! (pos + 1) = Some lf ∧
  ∀ i, i < pos → buf !! i ≠ Some cr.
Lemma line_end_unique buf p q : line_end buf p → line_end buf q → p = q.
Proof.
  intros (_ & Hp & _ & Hp') (_ & Hq & _ & Hq'). destruct (lt_eq_lt_dec p q) as [[Hlt| ->]|Hlt]; [|done|].
  - by destruct (Hq' p Hlt).
  - by destruct (Hp' q Hlt).
Qed.
Lemma scan_line_end_spec buf :
  match scan_line_end buf with
  | LineScan.Found pos => line_end buf pos
  | LineScan.Overflow => line_buf_size ≤ length buf ∧ ∀ pos, ¬ line_end buf pos
  | LineScan.Incomplete => length buf < line_buf_size ∧ ∀ pos, ¬ line_end buf pos
  end.
Proof.
  unfold scan_line_end. set (w := length buf `min` line_buf_size).
  set (found := if (2 <=? w)%nat then _ else _).
  assert (match found with Some pos => line_end buf pos | None => ∀ pos, ¬ line_end buf pos end) as Hf.
  2: { destruct found; [done|]. destruct (Nat.eqb_spec w line_buf_size); split; try done; unfold w in *; lia. }
  unfold found. clear found. destruct (Nat.leb_spec 2 w) as [Hw|Hw].
  2: { intros pos (Hle & _). unfold w in *. lia. }
  rewrite take_take, Nat.min_l by lia. destruct (list_find _ _) as [[pos x]|] eqn:E.
  - apply list_find_Some in E as (Hx & <- & Hmin). apply lookup_take_Some in Hx as [Hx Hlt].
    assert (∀ i, i < pos → buf !! i ≠ Some cr) as Hno.
    { intros i Hi Hcr. apply (Hmin i cr); [|done|done]. rewrite lookup_take_lt; [done|lia]. }
    rewrite lookup_take_lt by lia. case_bool_decide as Hlf.
    + split_and!; try done. unfold w in *. lia.
    + intros pos' (Hle & Hcr & Hlf' & Hno'). destruct (lt_eq_lt_dec pos pos') as [[Hl|Hl]|Hl]; [|congruence|].
      * by destruct (Hno' pos Hl).
      * by destruct (Hno pos' Hl).
  - apply list_find_None in E. intros pos (Hle & Hcr & _). rewrite Forall_forall in E. apply (E cr); [|done].
    apply list_elem_of_lookup. exists pos. rewrite lookup_take_lt; [done|]. unfold w in *. lia.
Qed.
Lemma scan_Found buf pos : scan_line_end buf = LineScan.Found pos ↔ line_end buf pos.
Proof.
  pose proof (scan_line_end_spec buf) as H. split; [intros E; by rewrite E in H|].
  intros Hp. destruct (scan_line_end buf).
  - f_equal. by eapply line_end_unique.
  - by destruct (proj2 H pos).
  - by destruct (proj2 H pos).
Qed.
Lemma scan_Overflow buf :
  scan_line_end buf = LineScan.Overflow ↔ line_buf_size ≤ length buf ∧ ∀ pos, ¬ line_end buf pos.
Proof.
  pose proof (scan_line_end_spec buf) as H. split; [intros E; by rewrite E in H|].
  intros [Hl Hn]. destruct (scan_line_end buf); [by destruct (Hn pos)|lia|done].
Qed.
Lemma line_end_app buf x pos : line_end buf pos → line_end (buf ++ x) pos.
Proof.
  intros (Hle & Hcr & Hlf & Hno).  split_and!.
  - rewrite length_app. lia.
  - by apply lookup_app_l_Some.
  - by apply lookup_app_l_Some.
  - intros i Hi. rewrite lookup_app_l; [by apply Hno|]. lia.
Qed.
Lemma scan_Found_app buf x pos :
  scan_line_end buf = LineScan.Found pos → scan_line_end (buf ++ x) = LineScan.Found pos.
Proof. rewrite !scan_Found. apply line_end_app. Qed.
Lemma scan_Overflow_app buf x :
  scan_line_end buf = LineScan.Overflow → scan_line_end (buf ++ x) = LineScan.Overflow.
Proof.
  rewrite !scan_Overflow, length_app. intros [Hl Hn]. split; [lia|]. intros pos (Hle & Hcr & Hlf & Hno).
  apply (Hn pos). rewrite lookup_app_l in Hcr, Hlf by lia. split_and!; [lia|done|done|].
  intros i Hi. specialize (Hno i Hi). by rewrite lookup_app_l in Hno by lia.
Qed.

(** ** The loops end *)
(** Every turn but the last uses up bytes, or the end of a discarded body. *)
Definition weight (c : ServerCodec) (src : Bytes) : nat :=
  length src + match sc_state c with State.Discard _ => 1 | _ => 0 end.
Ltac line_cases :=
  unfold take_line; cbv zeta;
  repeat match goal with
    | |- context [match parse_line_raw ?l with inl _ => _ | inr _ => _ end] =>
        destruct (parse_line_raw l) as [[?|?]|?] eqn:?
    | |- context [match strip_prefix ?p ?l with Some _ => _ | None => _ end] => destruct (strip_prefix p l) eqn:?
    | |- context [if ?b then _ else _] => destruct b eqn:?
    end.
Lemma take_line_state c o line src :
  match take_line c o line src with
  | Continue _ src' | Return (Some _) _ src' => src' = src
  | Return None _ _ => False
  end.
Proof. by line_cases. Qed.
Lemma line_end_len buf pos : line_end buf pos → pos + 2 ≤ length buf.
Proof. intros (Hle & _). lia. Qed.
Lemma step_less c src :
  match step c src with
  | Continue c' src' => length src' < length src ∧ weight c' src' < weight c src
  | Return (Some _) c' src' => weight c' src' < weight c src
  | Return None c' src' => length src' ≤ length src
  end.
Proof.
  unfold step. destruct (sc_state c) as [overflowed|pri delay ttr size|remaining] eqn:Hst.
  - destruct (scan_line_end src) as [pos| |] eqn:Hs.
    + apply scan_Found, line_end_len in Hs.
      pose proof (take_line_state c overflowed (take pos src) (drop (pos + 2) src)) as Ht.
      unfold weight. rewrite Hst. destruct (take_line _ _ _ _) as [c' src'|[f|] c' src']; try done; subst src'; rewrite length_drop;
        destruct (sc_state c'); lia.
    + done.
    + apply scan_Overflow in Hs as [Hs _]. assert (0 < line_buf_size) by (vm_compute; lia).
      unfold weight. rewrite Hst, length_drop. simpl. lia.
  - destruct (Nat.ltb_spec (length src) (N.to_nat size + 2)); [done|]. unfold weight. rewrite Hst. cbn zeta.
    destruct (_ && _); rewrite length_drop; simpl; lia.
  - case_bool_decide as Hne; [done|]. cbn zeta. destruct (0 <? _)%N.
    + rewrite length_drop. lia.
    + unfold weight. rewrite Hst, length_drop. simpl. lia.
Qed.

Lemma decode_loop_fuel fuel c src :
  length src < fuel → decode_loop fuel c src = decode c src.
Proof.
  revert c src. assert (∀ n m c src, length src < n → length src < m → decode_loop n c src = decode_loop m c src) as H.
  { induction n as [|n IH]; intros m c src Hn Hm; [lia|]. destruct m as [|m]; [lia|]. cbn [decode_loop].
    pose proof (step_less c src) as Hl. destruct (step c src) as [c' src'|o c' src']; [|done]. apply IH; lia. }
  intros c src Hf. apply H; [done|lia].
Qed.
Lemma decode_eq c src :
  decode c src = match step c src with Continue c' src' => decode c' src' | Return o c' src' => (o, c', src') end.
Proof.
  unfold decode at 1. cbn [decode_loop]. pose proof (step_less c src) as Hl.
  destruct (step c src) as [c' src'|o c' src']; [|done]. apply decode_loop_fuel. lia.
Qed.
Lemma decode_less c src f c' src' : decode c src = (Some f, c', src') → weight c' src' < weight c src.
Proof.
  remember (length src) as n eqn:En. revert c src En. induction (lt_wf n) as [n _ IH]; intros c src ->.
  rewrite decode_eq. pose proof (step_less c src) as Hl. destruct (step c src) as [c1 src1|o c1 src1].
  - intros H%(IH (length src1)); [lia|lia|done].
  - intros [= -> -> ->]. exact Hl.
Qed.
Lemma frames_loop_fuel n m c src :
  weight c src < n → weight c src < m → frames_loop n c src = frames_loop m c src.
Proof.
  revert m c src. induction n as [|n IH]; intros m c src Hn Hm; [lia|]. destruct m as [|m]; [lia|]. cbn [frames_loop].
  destruct (decode c src) as [[[f|] c'] src'] eqn:E; [|done]. apply decode_less in E. by rewrite (IH m) by lia.
Qed.
Lemma weight_le c src : weight c src < S (S (length src)).
Proof. unfold weight. destruct (sc_state c); lia. Qed.
Lemma frames_decode c src :
  frames c src = match decode c src with
                 | (Some f, c', src') => let '(l, r) := frames c' src' in (f :: l, r)
                 | (None, c', src') => ([], (c', src'))
                 end.
Proof.
  unfold frames at 1. remember (S (length src)) as n eqn:En. cbn [frames_loop].
  destruct (decode c src) as [[[f|] c'] src'] eqn:E; [|done]. apply decode_less in E. pose proof (weight_le c src). rewrite (frames_loop_fuel _ (S (S (length src')))) by (lia || apply weight_le).
  done.
Qed.
(** The frames, turn by turn. *)
Lemma frames_eq c src :
  frames c src = match step c src with
                 | Continue c' src' => frames c' src'
                 | Return (Some f) c' src' => let '(l, r) := frames c' src' in (f :: l, r)
                 | Return None c' src' => ([], (c', src'))
                 end.
Proof.
  rewrite frames_decode, decode_eq. destruct (step c src) as [c' src'|[f|] c' src']; [|done|done].
  by rewrite (frames_decode c' src').
Qed.

(** ** More bytes *)
(** A turn that does not wait for bytes does the same with more of them, and
    one that waits can be resumed. *)
Lemma take_line_app c o line src x :
  take_line c o line (src ++ x) =
    match take_line c o line src with
    | Continue c' src' => Continue c' (src' ++ x)
    | Return r c' src' => Return r c' (src' ++ x)
    end.
Proof. by line_cases. Qed.
Lemma split_app_le {A} n (l k : list A) : n ≤ length l → take n (l ++ k) = take n l ∧ drop n (l ++ k) = drop n l ++ k.
Proof. intros H. rewrite take_app_le, drop_app_le by done. done. Qed.
Lemma step_discard_app c r src x :
  sc_state c = State.Discard r → src ≠ [] → (N.of_nat (length src) < r)%N →
  frames c (src ++ x) = frames (with_state c (State.Discard (r - N.of_nat (length src)))) x.
Proof.
  intros Hst Hsrc Hr. set (c' := with_state c _). destruct (decide (x = [])) as [->|Hx].
  - rewrite app_nil_r, (frames_eq c), (frames_eq c'). unfold step, c'. rewrite Hst. cbn [sc_state with_state].
    rewrite bool_decide_eq_false_2, bool_decide_eq_true_2 by done.
    rewrite N.min_r, Nat2N.id, drop_all, (proj2 (N.ltb_lt _ _)) by lia. done.
  - rewrite (frames_eq c), (frames_eq c'). unfold step, c'. rewrite Hst. cbn [sc_state with_state].
    rewrite !bool_decide_eq_false_2; [|done|by intros [? ?]%app_eq_nil]. rewrite length_app. cbv zeta.
    set (n := N.to_nat (N.min r _)). set (m := N.to_nat (N.min (r - _) _)).
    assert (n = length src + m) as -> by (unfold n, m; lia). rewrite drop_app_add'; [|done].
    replace (r - N.of_nat (length src + m))%N with (r - N.of_nat (length src) - N.of_nat m)%N by lia. done.
Qed.
Lemma step_app c src x :
  match step c src with
  | Continue c' src' => step c (src ++ x) = Continue c' (src' ++ x)
  | Return (Some f) c' src' => step c (src ++ x) = Return (Some f) c' (src' ++ x)
  | Return None c' src' => frames c (src ++ x) = frames c' (src' ++ x)
  end.
Proof.
  destruct (sc_state c) as [overflowed|pri delay ttr size|remaining] eqn:Hst; unfold step; rewrite Hst.
  - destruct (scan_line_end src) as [pos| |] eqn:Hs.
    + rewrite (scan_Found_app _ x _ Hs). apply scan_Found, line_end_len in Hs.
      destruct (split_app_le pos src x ltac:(lia)) as [-> _]. destruct (split_app_le (pos + 2) src x ltac:(lia)) as [_ ->].
      rewrite take_line_app. pose proof (take_line_state c overflowed (take pos src) (drop (pos + 2) src)) as Ht.
      by destruct (take_line _ _ _ _) as [|[|]].
    + done.
    + rewrite (scan_Overflow_app _ x Hs). apply scan_Overflow in Hs as [Hs _].
      by destruct (split_app_le line_buf_size src x Hs) as [_ ->].
  - destruct (Nat.ltb_spec (length src) (N.to_nat size + 2)) as [Hlt|Hge]; [done|]. cbv zeta.
    assert ((length (src ++ x) <? N.to_nat size + 2)%nat = false) as -> by (apply Nat.ltb_ge; rewrite length_app; lia).
    destruct (split_app_le _ src x Hge) as [-> ->]. by destruct (_ && _).
  - case_bool_decide as Hne; [done|]. cbv zeta. destruct (N.ltb_spec 0 (remaining -
      N.of_nat (N.to_nat (N.min remaining (N.of_nat (length src)))))) as [Hlt|Hge].
    + rewrite (step_discard_app c remaining) by (done || lia).
      rewrite N.min_r, Nat2N.id, drop_all by lia. done.
    + assert (remaining ≤ N.of_nat (length src))%N as Hle by lia. rewrite bool_decide_eq_false_2; [|by intros [? ?]%app_eq_nil].
      rewrite length_app, !N.min_l by lia. destruct (split_app_le (N.to_nat remaining) src x ltac:(lia)) as [_ ->].
      by rewrite (proj2 (N.ltb_ge _ _)) by lia.
Qed.
(** Bytes may arrive in any pieces. *)
Lemma frames_app c a b :
  frames c (a ++ b) =
    let '(l1, (c1, rest)) := frames c a in let '(l2, r) := frames c1 (rest ++ b) in (l1 ++ l2, r).
Proof.
  remember (weight c a) as n eqn:En. revert c a En. induction (lt_wf n) as [n _ IH]; intros c a ->.
  pose proof (step_less c a) as Hl. pose proof (step_app c a b) as Ha. rewrite (frames_eq c a).
  destruct (step c a) as [c' a'|[f|] c' a'].
  - rewrite frames_eq, Ha. by rewrite (IH (weight c' a')) by (lia || done).
  - rewrite frames_eq, Ha, (IH (weight c' a')) by (lia || done).
    destruct (frames c' a') as [l1 [c1 rest]]. by destruct (frames c1 (rest ++ b)) as [l2 r].
  - rewrite Ha. by destruct (frames c' (a' ++ b)).
Qed.

(** ** Commands on the wire *)
(** What a client sends for a command, and the frames it makes. *)
Definition wire (cmd : Command) : Bytes :=
  command_line cmd ++ crlf ++ match cmd with Command.Put _ _ _ body => body ++ crlf | _ => [] end.
Definition frames_of (c : ServerCodec) (cmd : Command) : list Frame :=
  match cmd with
  | Command.Put _ _ _ _ => if sc_emit_put_started c then [Frame.PutStarted false; Frame.Command cmd] else [Frame.Command cmd]
  | _ => [Frame.Command cmd]
  end.
Definition fits (c : ServerCodec) (cmd : Command) : bool :=
  command_ok cmd &&
  match cmd with Command.Put _ _ _ body => (N.of_nat (length body) <=? sc_max_job_size c)%N | _ => true end.

(** A line of a command fits the line buffer. *)
Lemma pretty_go_length x s k :
  (x < 10 ^ N.of_nat k)%N → length (bs (pretty_N_go x s)) ≤ k + length (bs s).
Proof.
  revert x s. induction k as [|k IH]; intros x s Hx.
  - assert (x = 0)%N as -> by (simpl in Hx; lia). by rewrite pretty_N_go_0.
  - destruct (decide (0 < x)%N) as [H0|H0]; [|assert (x = 0)%N as -> by lia; rewrite pretty_N_go_0; lia].
    rewrite pretty_N_go_step by done. etrans; [apply IH|simpl; lia].
    apply N.Div0.div_lt_upper_bound. rewrite Nat2N.inj_succ, N.pow_succ_r' in Hx. lia.
Qed.
Lemma dec_length n k : 1 ≤ k → (n < 10 ^ N.of_nat k)%N → length (bs (dec n)) ≤ k.
Proof.
  intros Hk Hn. unfold dec, pretty, pretty_N. case_decide; [simpl; lia|].
  etrans; [by apply pretty_go_length|]. simpl. lia.
Qed.
Lemma dec_u32_length n : u32 n = true → length (bs (dec n)) ≤ 10.
Proof. intros H%N.leb_le. apply dec_length; [lia|]. unfold u32_max in H. simpl. lia. Qed.
Lemma dec_u64_length n : (n <=? u64_max)%N = true → length (bs (dec n)) ≤ 20.
Proof. intros H%N.leb_le. apply dec_length; [lia|]. unfold u64_max in H. simpl. lia. Qed.
Lemma name_length t : validate_tube_name t = true → length (bs t) ≤ 200.
Proof.
  unfold validate_tube_name. destruct (_ || _) eqn:E; [done|]. apply orb_false_iff in E as [_ E%N.ltb_ge].
  unfold MAX_TUBE_NAME_LEN in E. lia.
Qed.
Lemma command_line_length cmd :
  command_ok cmd = true → body_ok cmd = true → length (command_line cmd) + 2 ≤ line_buf_size.
Proof.
  change line_buf_size with 224. destruct cmd; cbn [command_ok body_ok command_line]; rewrite ?andb_true_iff; intros Hc Hb;
    rewrite ?length_app; cbn [length]; rewrite ?length_app; cbn [length]; rewrite ?length_app; cbn [length];
    try (cbn [bs Strings.String.list_ascii_of_string length]; lia);
    repeat match goal with
    | H : _ ∧ _ |- _ => destruct H
    | H : u32 ?n = true |- _ => apply dec_u32_length in H
    | H : (?n <=? u64_max)%N = true |- _ => apply dec_u64_length in H
    | H : validate_tube_name _ = true |- _ => apply name_length in H
    end; try (cbn [bs Strings.String.list_ascii_of_string length] in *; lia).
  assert (u32 timeout = true) as H%dec_u32_length by (apply N.leb_le; apply N.leb_le in Hc; unfold i32_max, u32_max in *; lia).
  cbn [bs Strings.String.list_ascii_of_string length] in *. lia.
Qed.
Lemma command_line_clean cmd : command_ok cmd = true → clean (command_line cmd).
Proof.
  destruct cmd; cbn [command_ok command_line]; rewrite ?andb_true_iff; intros Hc;
    repeat match goal with H : _ ∧ _ |- _ => destruct H end; eauto 8 with parse.
Qed.
Lemma command_line_no_auth cmd : strip_prefix (bs "auth ") (command_line cmd) = None.
Proof. by destruct cmd. Qed.

Lemma line_end_here line rest :
  clean line → length line + 2 ≤ line_buf_size → line_end (line ++ crlf ++ rest) (length line).
Proof.
  intros Hc Hl. unfold crlf. split_and!.
  - rewrite !length_app. simpl. lia.
  - cbn [app]. by rewrite list_lookup_middle.
  - rewrite lookup_app_r by lia. by replace (length line + 1 - length line) with 1 by lia.
  - intros i Hi. rewrite lookup_app_l by done. intros E%list_elem_of_lookup_2. unfold clean in Hc.
    rewrite Forall_forall in Hc. by apply Hc in E.
Qed.
Lemma step_line c line rest :
  sc_state c = State.Line false → clean line → length line + 2 ≤ line_buf_size →
  step c (line ++ crlf ++ rest) = take_line c false line rest.
Proof.
  intros Hst Hc Hl. unfold step. rewrite Hst, (proj2 (scan_Found _ _) (line_end_here line rest Hc Hl)).
  by rewrite take_app_length, (app_assoc line), drop_app_length' by (by rewrite length_app).
Qed.
Lemma with_same c : sc_state c = State.Line false → with_state c (State.Line false) = c.
Proof. destruct c. simpl. by intros ->. Qed.

(** One command, whatever follows. *)
Lemma frames_wire c cmd rest :
  sc_state c = State.Line false → fits c cmd = true → (sc_max_job_size c ≤ u32_max)%N →
  frames c (wire cmd ++ rest) = let '(l, r) := frames c rest in (frames_of c cmd ++ l, r).
Proof.
  intros Hst [Hc Hf]%andb_true_iff Hmax. unfold wire.
  assert (body_ok cmd = true) as Hb.
  { destruct cmd; try done. apply N.leb_le in Hf. apply N.leb_le. lia. }
  rewrite <-!app_assoc, frames_eq, step_line by (done || by apply command_line_clean || by apply command_line_length).
  unfold take_line. rewrite command_line_no_auth, (parse_command_line cmd Hc Hb), (with_same _ Hst). cbv zeta.
  assert (∀ A (x : A), (if sc_recognize_auth c then x else x) = x) as Hif by (intros; by destruct (sc_recognize_auth c)).
  rewrite Hif. destruct cmd; try done. cbn [parsed_command ph_body_size ph_trailing_garbage ph_pri ph_delay ph_ttr].
  apply N.leb_le in Hf. rewrite (proj2 (N.ltb_ge _ _) Hf).
  set (c1 := with_state c (State.PutBody pri delay ttr _)).
  assert (frames c1 (body ++ crlf ++ rest) = let '(l, r) := frames c rest in (Frame.Command (Command.Put pri delay ttr body) :: l, r)) as Hput.
  { rewrite frames_eq. unfold step, c1. cbn [sc_state with_state]. rewrite Nat2N.id.
    assert ((length (body ++ crlf ++ rest) <? length body + 2)%nat = false) as -> by (apply Nat.ltb_ge; rewrite !length_app; simpl; lia).
    cbv zeta. rewrite (app_assoc body), take_app_length', drop_app_length' by (by rewrite length_app).
    replace (length body + 2 - 2) with (length body) by lia. replace (length body + 2 - 1) with (length body + 1) by lia.
    change crlf with [cr; lf]. rewrite list_lookup_middle, lookup_app_r by (done || lia). replace (length body + 1 - length body) with 1 by lia.
    cbn [lookup list_lookup]. rewrite !bool_decide_eq_true_2 by done. rewrite take_app_length. cbn [andb].
    replace (with_state _ (State.Line false)) with c by (by destruct c; simpl in *; subst). done. }
  change (sc_emit_put_started c1) with (sc_emit_put_started c). cbn [frames_of]. rewrite <-app_assoc.
  destruct (sc_emit_put_started c); rewrite Hput; by destruct (frames c rest).
Qed.
Lemma frames_wires c cmds rest :
  sc_state c = State.Line false → Forall (λ cmd, fits c cmd = true) cmds → (sc_max_job_size c ≤ u32_max)%N →
  frames c (concat (wire <$> cmds) ++ rest) = let '(l, r) := frames c rest in (concat (frames_of c <$> cmds) ++ l, r).
Proof.
  intros Hst Hcmds Hmax. induction Hcmds as [|cmd cmds Hcmd _ IH]; [simpl; by destruct (frames c rest)|].
  rewrite !fmap_cons. cbn [concat]. rewrite <-app_assoc, frames_wire, IH by done. destruct (frames c rest). by rewrite app_assoc.
Qed.

(** ** What the decoder promises *)
Definition frame_ok (max_job_size : N) (f : Frame) : bool :=
  match f with
  | Frame.Command cmd =>
      command_ok cmd &&
      match cmd with Command.Put _ _ _ body => (N.of_nat (length body) <=? max_job_size)%N | _ => true end
  | _ => true
  end.
Definition codec_ok (c : ServerCodec) : bool :=
  match sc_state c with
  | State.PutBody pri delay ttr size => u32 pri && u32 delay && u32 ttr && (size <=? sc_max_job_size c)%N
  | _ => true
  end.
Lemma parse_not_put line pri delay ttr body :
  parse_line_raw line ≠ inl (ParsedLine.Command (Command.Put pri delay ttr body)).
Proof.
  unfold parse_line_raw. case_bool_decide; [done|]. destruct (which_cmd line) as [[op n]|]; [|done].
  cbv zeta. generalize (drop n line) as rest. intros rest Hp.
  destruct op; repeat parse_step; try discriminate Hp. by destruct (tube_name_from_bytes _).
Qed.
Lemma step_frame_ok c src :
  codec_ok c = true →
  match step c src with
  | Continue c' _ | Return None c' _ => codec_ok c' = true ∧ sc_max_job_size c' = sc_max_job_size c
  | Return (Some f) c' _ =>
      (codec_ok c' = true ∧ sc_max_job_size c' = sc_max_job_size c) ∧ frame_ok (sc_max_job_size c) f = true
  end.
Proof.
  intros Hok. unfold step. destruct (sc_state c) as [overflowed|pri delay ttr size|remaining] eqn:Hst.
  - destruct (scan_line_end src) as [pos| |]; [|done|done]. line_cases; try done.
    all: match goal with H : parse_line_raw ?l = inl ?p |- _ => pose proof (parse_line_raw_ok _ _ H) as Hp end.
    all: try (split; [done|]; cbn [frame_ok]; rewrite Hp; destruct cmd; try done; exfalso; by eapply parse_not_put).
    all: unfold header_ok in Hp; rewrite !andb_true_iff in Hp; destruct Hp as [[[? ?] ?] ?]; split; [|done].
    all: unfold codec_ok; cbn [sc_state with_state sc_max_job_size]; rewrite ?andb_true_iff; split_and!; try done.
    all: apply N.leb_le; by apply N.ltb_ge.
  - destruct (Nat.ltb_spec (length src) (N.to_nat size + 2)) as [Hlt|Hge]; [done|]. cbv zeta. destruct (_ && _); [|done].
    split; [done|]. cbn [frame_ok command_ok]. unfold codec_ok in Hok. rewrite Hst in Hok.
    apply andb_true_iff in Hok as [-> Hle%N.leb_le]. apply N.leb_le. rewrite !length_take. lia.
  - case_bool_decide; [done|]. cbv zeta. by destruct (0 <? _)%N.
Qed.
Lemma frames_typed c src :
  codec_ok c = true → Forall (λ f, frame_ok (sc_max_job_size c) f = true) (frames c src).1.
Proof.
  remember (weight c src) as n eqn:En. revert c src En. induction (lt_wf n) as [n _ IH]; intros c src -> Hok.
  pose proof (step_less c src) as Hl. pose proof (step_frame_ok c src Hok) as Hs. rewrite frames_eq.
  destruct (step c src) as [c' src'|[f|] c' src'].
  - destruct Hs as [Hok' <-]. apply (IH (weight c' src')); [lia|done|done].
  - destruct Hs as [[Hok' Hm] Hf]. specialize (IH (weight c' src') ltac:(lia) c' src' eq_refl Hok').
    destruct (frames c' src') as [l r]. constructor; [done|]. by rewrite <-Hm.
  - constructor.
Qed.

(** Between a put's line and its completion frame. *)
Definition pending_of (c : ServerCodec) : option bool :=
  match sc_state c with State.Line _ => None | State.PutBody _ _ _ _ => Some false | State.Discard _ => Some true end.
(** The completion a [PutStarted] asks for. *)
Definition completes (too_big : bool) (f : Frame) : bool :=
  match f with
  | Frame.Command (Command.Put _ _ _ _) | Frame.PutRejected PutRejection.ExpectedCrlf => negb too_big
  | Frame.PutRejected PutRejection.JobTooBig => too_big
  | _ => false
  end.
Fixpoint paired (pending : option bool) (l : list Frame) : bool :=
  match l with
  | [] => true
  | f :: l =>
      match pending, f with
      | Some too_big, _ => completes too_big f && paired None l
      | None, Frame.PutStarted too_big => paired (Some too_big) l
      | None, _ => negb (completes true f) && negb (completes false f) && paired None l
      end
  end.
Lemma step_paired c src :
  sc_emit_put_started c = true →
  match step c src with
  | Continue c' _ | Return None c' _ => sc_emit_put_started c' = true ∧ pending_of c' = pending_of c
  | Return (Some f) c' _ => sc_emit_put_started c' = true ∧
      ∀ l, paired (pending_of c') l = true → paired (pending_of c) (f :: l) = true
  end.
Proof.
  intros He. unfold step, pending_of. destruct (sc_state c) as [overflowed|pri delay ttr size|remaining] eqn:Hst.
  - destruct (scan_line_end src) as [pos| |]; [|by rewrite Hst|done].
    line_cases; cbn [with_state sc_emit_put_started sc_state] in *; try congruence; try done.
    all: split; [done|]; intros l' Hl; cbn [paired]; destruct cmd; try done; exfalso; by eapply parse_not_put.
  - destruct (Nat.ltb_spec (length src) (N.to_nat size + 2)); [by rewrite Hst|]. cbv zeta. by destruct (_ && _).
  - case_bool_decide; [by rewrite Hst|]. cbv zeta. by destruct (0 <? _)%N.
Qed.
Lemma frames_paired c src :
  sc_emit_put_started c = true → paired (pending_of c) (frames c src).1 = true.
Proof.
  remember (weight c src) as n eqn:En. revert c src En. induction (lt_wf n) as [n _ IH]; intros c src -> He.
  pose proof (step_less c src) as Hl. pose proof (step_paired c src He) as Hs. rewrite frames_eq.
  destruct (step c src) as [c' src'|[f|] c' src'].
  - destruct Hs as [He' <-]. apply (IH (weight c' src')); [lia|done|done].
  - destruct Hs as [He' Hf]. specialize (IH (weight c' src') ltac:(lia) c' src' eq_refl He').
    destruct (frames c' src') as [l r]. by apply Hf.
  - done.
Qed.
