(* ===== verification/Reply.v ===== *)
(** * Replies: [crates/proto/src/response.rs]

    [encode] is the byte-exact text of a reply.  [read_reply] is a client's
    reader of the documented formats; reading inverts encoding, so a stream
    of replies has one meaning. *)

From S2P Require Import Prelude Proto Stats Parse Codec.
From stdpp Require Import options.

Definition push (s : string) : Bytes := bs s ++ crlf.
Definition push_with_body (header : string) (body : Bytes) : Bytes := bs header ++ crlf ++ body ++ crlf.
Definition body_len (body : Bytes) : string := dec (N.of_nat (length body)).

Definition encode (r : Response) : Bytes :=
  match r with
  | Response.Inserted id => push ("INSERTED " +:+ dec id)
  | Response.BuriedId id => push ("BURIED " +:+ dec id)
  | Response.Buried => push "BURIED"
  | Response.Using tube => push ("USING " +:+ tube)
  | Response.Reserved id body => push_with_body ("RESERVED " +:+ dec id +:+ " " +:+ body_len body) body
  | Response.Found id body => push_with_body ("FOUND " +:+ dec id +:+ " " +:+ body_len body) body
  | Response.Watching n => push ("WATCHING " +:+ dec n)
  | Response.Kicked n => push ("KICKED " +:+ dec n)
  | Response.KickedJob => push "KICKED"
  | Response.Ok body => push_with_body ("OK " +:+ body_len body) body
  | Response.DeadlineSoon => push "DEADLINE_SOON"
  | Response.TimedOut => push "TIMED_OUT"
  | Response.Deleted => push "DELETED"
  | Response.Released => push "RELEASED"
  | Response.Touched => push "TOUCHED"
  | Response.NotFound => push "NOT_FOUND"
  | Response.NotIgnored => push "NOT_IGNORED"
  | Response.Paused => push "PAUSED"
  | Response.ExpectedCrlf => push "EXPECTED_CRLF"
  | Response.JobTooBig => push "JOB_TOO_BIG"
  | Response.Draining => push "DRAINING"
  | Response.OutOfMemory => push "OUT_OF_MEMORY"
  | Response.InternalError => push "INTERNAL_ERROR"
  | Response.BadFormat => push "BAD_FORMAT"
  | Response.UnknownCommand => push "UNKNOWN_COMMAND"
  | Response.Authenticated => push "AUTHENTICATED"
  | Response.Unauthorized => push "UNAUTHORIZED"
  end.
(** A tube name in a reply is a [TubeName]. *)
Definition reply_ok (r : Response) : bool :=
  match r with Response.Using t => validate_tube_name t | _ => true end.

(** ** A reader *)
(** The header line decides: a whole reply, or one with so many bytes of body. *)
Inductive Header := Whole (r : Response) | WithBody (f : Bytes → Response) (len : nat).
Definition read_num (l : Bytes) : option N :=
  if bool_decide (l ≠ []) && forallb is_digit l then Some (dec_value l) else None.
Definition one_num (f : N → Response) (l : Bytes) : option Header := n ← read_num l; Some (Whole (f n)).
Definition num_and_len (f : N → Bytes → Response) (l : Bytes) : option Header :=
  id ← read_num (span_while is_digit l);
  rest ← strip_prefix [sp] (drop_while is_digit l);
  len ← read_num rest; Some (WithBody (f id) (N.to_nat len)).
Definition header_table : list (Bytes * (Bytes → option Header)) :=
  [(bs "INSERTED ", one_num Response.Inserted); (bs "BURIED ", one_num Response.BuriedId);
   (bs "USING ", λ l, Some (Whole (Response.Using (Strings.String.string_of_list_ascii l))));
   (bs "RESERVED ", num_and_len Response.Reserved); (bs "FOUND ", num_and_len Response.Found);
   (bs "WATCHING ", one_num Response.Watching); (bs "KICKED ", one_num Response.Kicked);
   (bs "OK ", λ l, len ← read_num l; Some (WithBody Response.Ok (N.to_nat len)))].
Definition plain_replies : list Response :=
  [Response.Buried; Response.KickedJob; Response.DeadlineSoon; Response.TimedOut; Response.Deleted; Response.Released;
   Response.Touched; Response.NotFound; Response.NotIgnored; Response.Paused; Response.ExpectedCrlf; Response.JobTooBig;
   Response.Draining; Response.OutOfMemory; Response.InternalError; Response.BadFormat; Response.UnknownCommand;
   Response.Authenticated; Response.Unauthorized].
Fixpoint read_header (table : list (Bytes * (Bytes → option Header))) (line : Bytes) : option Header :=
  match table with
  | [] => Whole <$> find (λ r, bool_decide (encode r = line ++ crlf)) plain_replies
  | (p, k) :: table => match strip_prefix p line with Some rest => k rest | None => read_header table line end
  end.
Definition not_cr (b : ascii) : bool := negb (bool_decide (b = cr)).
Definition read_reply (l : Bytes) : option (Response * Bytes) :=
  rest ← strip_prefix crlf (drop_while not_cr l);
  h ← read_header header_table (span_while not_cr l);
  match h with
  | Whole r => Some (r, rest)
  | WithBody f len =>
      rest' ← strip_prefix crlf (drop len rest);
      if (length rest <? len)%nat then None else Some (f (take len rest), rest')
  end.
Fixpoint read_replies (fuel : nat) (l : Bytes) : option (list Response) :=
  match fuel, l with
  | _, [] => Some []
  | O, _ => None
  | S fuel, _ => '(r, rest) ← read_reply l; rs ← read_replies fuel rest; Some (r :: rs)
  end.

(** ** Reading inverts encoding *)
Lemma bs_app s t : bs (s +:+ t) = bs s ++ bs t.
Proof.
  induction s as [|a s IH]; [done|]. change (bs (String a s +:+ t)) with (a :: bs (s +:+ t)). by rewrite IH.
Qed.
Lemma strip_prefix_app p l : strip_prefix p (p ++ l) = Some l.
Proof. induction p as [|a p IH]; [by destruct l|]. cbn. by rewrite bool_decide_eq_true_2. Qed.
Lemma read_num_dec n : read_num (bs (dec n)) = Some n.
Proof.
  destruct (dec_digits n) as (Hd & Hv & Hne). unfold read_num. rewrite bool_decide_eq_true_2 by done.
  assert (forallb is_digit (bs (dec n)) = true) as ->; [|by rewrite Hv].
  apply forallb_forall. intros b Hb%list_elem_of_In. unfold digits in Hd. rewrite Forall_forall in Hd. by apply Hd.
Qed.
Lemma one_num_dec f n : one_num f (bs (dec n)) = Some (Whole (f n)).
Proof. unfold one_num. by rewrite read_num_dec. Qed.
Lemma num_and_len_dec f n body :
  num_and_len f (bs (dec n) ++ sp :: bs (body_len body)) = Some (WithBody (f n) (length body)).
Proof.
  unfold num_and_len. destruct (span_app is_digit (bs (dec n)) (sp :: bs (body_len body))) as [-> ->];
    [apply dec_digits|by intros b [= <-]|].
  rewrite read_num_dec. cbn [mbind option_bind]. change (sp :: bs (body_len body)) with ([sp] ++ bs (body_len body)). rewrite strip_prefix_app. cbn [mbind option_bind].
  unfold body_len. rewrite read_num_dec. cbn [mbind option_bind]. by rewrite Nat2N.id.
Qed.

(** The header line of a reply, and what it reads as. *)
Lemma read_line line h rest :
  clean line → read_header header_table line = Some h →
  read_reply (line ++ crlf ++ rest) =
    match h with
    | Whole r => Some (r, rest)
    | WithBody f len =>
        rest' ← strip_prefix crlf (drop len rest);
        if (length rest <? len)%nat then None else Some (f (take len rest), rest')
    end.
Proof.
  intros Hc Hh. unfold read_reply. destruct (span_app not_cr line (crlf ++ rest)) as [-> ->].
  - eapply Forall_impl; [exact Hc|]. intros b Hb. unfold not_cr. apply negb_true_iff, bool_decide_eq_false. by intros ->.
  - by intros b [= <-].
  - rewrite strip_prefix_app. cbn [mbind option_bind]. by rewrite Hh.
Qed.
Lemma read_whole line r rest :
  clean line → read_header header_table line = Some (Whole r) → read_reply ((line ++ crlf) ++ rest) = Some (r, rest).
Proof. intros Hc Hh. rewrite <-app_assoc. by rewrite (read_line _ _ _ Hc Hh). Qed.
Lemma read_with_body line f body rest :
  clean line → read_header header_table line = Some (WithBody f (length body)) →
  read_reply ((line ++ crlf ++ body ++ crlf) ++ rest) = Some (f body, rest).
Proof.
  intros Hc Hh. rewrite <-!app_assoc, (read_line _ _ _ Hc Hh), drop_app_length, strip_prefix_app. cbn [mbind option_bind].
  rewrite take_app_length. by rewrite (proj2 (Nat.ltb_ge _ _)) by (rewrite length_app; lia).
Qed.
(** Find the row of the table that the header starts with. *)
Ltac find_row :=
  cbn [read_header header_table];
  repeat match goal with |- context [strip_prefix ?q (?p ++ ?l)] =>
    first [rewrite (strip_prefix_app p l) | change (strip_prefix q (p ++ l)) with (@None Bytes)] end.
Lemma read_encode r rest : reply_ok r = true → read_reply (encode r ++ rest) = Some (r, rest).
Proof.
  intros Hok. destruct r; cbn [encode]; unfold push, push_with_body; rewrite ?bs_app.
  all: try (match goal with |- _ = Some (?r, _) => is_constructor r end; apply read_whole; [by apply clean_lit|vm_compute; reflexivity]).
  all: first [apply read_whole | apply read_with_body]; eauto 8 with parse; find_row.
  all: first [apply one_num_dec | apply num_and_len_dec | idtac].
  - do 3 f_equal. apply Strings.String.string_of_list_ascii_of_string.
  - unfold body_len. rewrite read_num_dec. cbn [mbind option_bind]. by rewrite Nat2N.id.
Qed.
Lemma encode_not_nil r : encode r ≠ [].
Proof. by destruct r. Qed.
Lemma read_stream rs fuel :
  Forall (λ r, reply_ok r = true) rs → length rs ≤ fuel → read_replies fuel (concat (encode <$> rs)) = Some rs.
Proof.
  intros Hrs. revert fuel. induction Hrs as [|r rs Hr _ IH]; intros fuel Hf; [by destruct fuel|].
  destruct fuel as [|fuel]; [simpl in Hf; lia|]. rewrite fmap_cons. cbn [concat length] in *.
  pose proof (encode_not_nil r) as Hne. pose proof (read_encode r (concat (encode <$> rs)) Hr) as He.
  destruct (encode r) as [|b l]; [done|]. cbn [app read_replies] in *. rewrite He. cbn [mbind option_bind].
  by rewrite IH by lia.
Qed.
