(* ===== verification/Model.v ===== *)
(** * Engine data: [crates/engine/src/model.rs], the types of
    [crates/engine/src/lib.rs] and the [Engine] struct of [engine.rs]

    Jobs, tubes, connections, the engine record with its indexes and
    counters, journal records and the replicated inputs.  A field [x] of the
    Rust struct is the projection with a one-letter prefix ([j_], [t_], [c_],
    [e_]); the counters of [Engine] are grouped in three records. *)

From S2P Require Import Prelude Ms Proto.
From stdpp Require Import options.

Abbreviation Nanos := N (only parsing).
Abbreviation ConnId := N (only parsing).
Abbreviation TubeId := nat (only parsing).

Definition NANOS_PER_SEC : Nanos := 1000000000.
Definition DEFAULT_BINLOG_MAX_SIZE : N := 10 * 2 ^ 20.

(** ** Jobs *)
Module JobState.
Inductive JobState := Ready | Reserved | Delayed | Buried.
End JobState.
Abbreviation JobState := JobState.JobState (only parsing).
#[export] Instance JobState_eq_dec : EqDecision JobState.
Proof. solve_decision. Defined.

Record JobRec := mkJobRec {
  j_id : JobId;
  j_tube : TubeId;
  j_pri : N;
  j_delay : N;
  j_ttr : N;
  j_body : Bytes;
  j_created_at : Nanos;
  j_deadline_at : Nanos;
  j_state : JobState;
  j_reserver : option ConnId;
  j_list_seq : N;
  j_reserve_ct : N;
  j_timeout_ct : N;
  j_release_ct : N;
  j_bury_ct : N;
  j_kick_ct : N;
  j_file : N;
}.
#[export] Instance JobRec_eta : Eta JobRec := λ r,
  mkJobRec (j_id r) (j_tube r) (j_pri r) (j_delay r) (j_ttr r) (j_body r) (j_created_at
    r) (j_deadline_at r) (j_state r) (j_reserver r) (j_list_seq r) (j_reserve_ct r)
    (j_timeout_ct r) (j_release_ct r) (j_bury_ct r) (j_kick_ct r) (j_file r).
#[export] Instance j_id_set : Setter j_id := ltac:(derive_setter).
#[export] Instance j_tube_set : Setter j_tube := ltac:(derive_setter).
#[export] Instance j_pri_set : Setter j_pri := ltac:(derive_setter).
#[export] Instance j_delay_set : Setter j_delay := ltac:(derive_setter).
#[export] Instance j_ttr_set : Setter j_ttr := ltac:(derive_setter).
#[export] Instance j_body_set : Setter j_body := ltac:(derive_setter).
#[export] Instance j_created_at_set : Setter j_created_at := ltac:(derive_setter).
#[export] Instance j_deadline_at_set : Setter j_deadline_at := ltac:(derive_setter).
#[export] Instance j_state_set : Setter j_state := ltac:(derive_setter).
#[export] Instance j_reserver_set : Setter j_reserver := ltac:(derive_setter).
#[export] Instance j_list_seq_set : Setter j_list_seq := ltac:(derive_setter).
#[export] Instance j_reserve_ct_set : Setter j_reserve_ct := ltac:(derive_setter).
#[export] Instance j_timeout_ct_set : Setter j_timeout_ct := ltac:(derive_setter).
#[export] Instance j_release_ct_set : Setter j_release_ct := ltac:(derive_setter).
#[export] Instance j_bury_ct_set : Setter j_bury_ct := ltac:(derive_setter).
#[export] Instance j_kick_ct_set : Setter j_kick_ct := ltac:(derive_setter).
#[export] Instance j_file_set : Setter j_file := ltac:(derive_setter).
#[export] Instance JobRec_eq_dec : EqDecision JobRec.
Proof. solve_decision. Defined.

Definition state_name (s : JobState) : string :=
  match s with
  | JobState.Ready => "ready"
  | JobState.Reserved => "reserved"
  | JobState.Delayed => "delayed"
  | JobState.Buried => "buried"
  end.

(** ** Tubes *)
Record TubeStat := mkTubeStat {
  ts_urgent_ct : N;
  ts_buried_ct : N;
  ts_reserved_ct : N;
  ts_waiting_ct : N;
  ts_pause_ct : N;
  ts_total_delete_ct : N;
  ts_total_jobs_ct : N;
}.
#[export] Instance TubeStat_eta : Eta TubeStat := λ r,
  mkTubeStat (ts_urgent_ct r) (ts_buried_ct r) (ts_reserved_ct r) (ts_waiting_ct r)
    (ts_pause_ct r) (ts_total_delete_ct r) (ts_total_jobs_ct r).
#[export] Instance ts_urgent_ct_set : Setter ts_urgent_ct := ltac:(derive_setter).
#[export] Instance ts_buried_ct_set : Setter ts_buried_ct := ltac:(derive_setter).
#[export] Instance ts_reserved_ct_set : Setter ts_reserved_ct := ltac:(derive_setter).
#[export] Instance ts_waiting_ct_set : Setter ts_waiting_ct := ltac:(derive_setter).
#[export] Instance ts_pause_ct_set : Setter ts_pause_ct := ltac:(derive_setter).
#[export] Instance ts_total_delete_ct_set : Setter ts_total_delete_ct := ltac:(derive_setter).
#[export] Instance ts_total_jobs_ct_set : Setter ts_total_jobs_ct := ltac:(derive_setter).

Record TubeState := mkTubeState {
  t_name : TubeName;
  t_ready : gset (N * JobId);
  t_delayed : gset (Nanos * JobId);
  t_buried : gmap N JobId;
  t_waiting_conns : Ms ConnId;
  t_using_ct : N;
  t_watching_ct : N;
  t_job_ref_ct : N;
  t_stat : TubeStat;
  t_pause : Nanos;
  t_unpause_at : Nanos;
  t_pos : nat;
  t_delay_head : option Nanos;
  t_dispatchable : bool;
}.
#[export] Instance TubeState_eta : Eta TubeState := λ r,
  mkTubeState (t_name r) (t_ready r) (t_delayed r) (t_buried r) (t_waiting_conns r)
    (t_using_ct r) (t_watching_ct r) (t_job_ref_ct r) (t_stat r) (t_pause r)
    (t_unpause_at r) (t_pos r) (t_delay_head r) (t_dispatchable r).
#[export] Instance t_name_set : Setter t_name := ltac:(derive_setter).
#[export] Instance t_ready_set : Setter t_ready := ltac:(derive_setter).
#[export] Instance t_delayed_set : Setter t_delayed := ltac:(derive_setter).
#[export] Instance t_buried_set : Setter t_buried := ltac:(derive_setter).
#[export] Instance t_waiting_conns_set : Setter t_waiting_conns := ltac:(derive_setter).
#[export] Instance t_using_ct_set : Setter t_using_ct := ltac:(derive_setter).
#[export] Instance t_watching_ct_set : Setter t_watching_ct := ltac:(derive_setter).
#[export] Instance t_job_ref_ct_set : Setter t_job_ref_ct := ltac:(derive_setter).
#[export] Instance t_stat_set : Setter t_stat := ltac:(derive_setter).
#[export] Instance t_pause_set : Setter t_pause := ltac:(derive_setter).
#[export] Instance t_unpause_at_set : Setter t_unpause_at := ltac:(derive_setter).
#[export] Instance t_pos_set : Setter t_pos := ltac:(derive_setter).
#[export] Instance t_delay_head_set : Setter t_delay_head := ltac:(derive_setter).
#[export] Instance t_dispatchable_set : Setter t_dispatchable := ltac:(derive_setter).
#[export] Instance TubeStat_eq_dec : EqDecision TubeStat.
Proof. solve_decision. Defined.
#[export] Instance TubeState_eq_dec : EqDecision TubeState.
Proof. solve_decision. Defined.

Definition TubeStat_default : TubeStat := mkTubeStat 0 0 0 0 0 0 0.
Definition TubeState_new (name : TubeName) (pos : nat) : TubeState :=
  mkTubeState name ∅ ∅ ∅ ms_new 0 0 0 TubeStat_default 0 0 pos None false.
(** [refs]: what keeps a tube alive. *)
Definition refs (t : TubeState) : N :=
  wrap64 (t_using_ct t + t_watching_ct t + t_job_ref_ct t).

(** ** Connections *)
Record PendingPut := mkPendingPut {
  pp_id : option JobId;
  pp_created_at : Nanos;
}.

Record ConnState := mkConnState {
  c_use_tube : TubeId;
  c_watch : Ms TubeId;
  c_is_producer : bool;
  c_is_worker : bool;
  c_waiting : bool;
  c_wait_deadline : option Nanos;
  c_reserved : gmap N JobId;
  c_reserved_by_deadline : gset (Nanos * JobId);
  c_pending_put : option PendingPut;
  c_tick_key : option Nanos;
}.
#[export] Instance ConnState_eta : Eta ConnState := λ r,
  mkConnState (c_use_tube r) (c_watch r) (c_is_producer r) (c_is_worker r) (c_waiting r)
    (c_wait_deadline r) (c_reserved r) (c_reserved_by_deadline r) (c_pending_put r)
    (c_tick_key r).
#[export] Instance c_use_tube_set : Setter c_use_tube := ltac:(derive_setter).
#[export] Instance c_watch_set : Setter c_watch := ltac:(derive_setter).
#[export] Instance c_is_producer_set : Setter c_is_producer := ltac:(derive_setter).
#[export] Instance c_is_worker_set : Setter c_is_worker := ltac:(derive_setter).
#[export] Instance c_waiting_set : Setter c_waiting := ltac:(derive_setter).
#[export] Instance c_wait_deadline_set : Setter c_wait_deadline := ltac:(derive_setter).
#[export] Instance c_reserved_set : Setter c_reserved := ltac:(derive_setter).
#[export] Instance c_reserved_by_deadline_set : Setter c_reserved_by_deadline := ltac:(derive_setter).
#[export] Instance c_pending_put_set : Setter c_pending_put := ltac:(derive_setter).
#[export] Instance c_tick_key_set : Setter c_tick_key := ltac:(derive_setter).
#[export] Instance PendingPut_eq_dec : EqDecision PendingPut.
Proof. solve_decision. Defined.
#[export] Instance ConnState_eq_dec : EqDecision ConnState.
Proof. solve_decision. Defined.

Definition ConnState_new (default_tube : TubeId) : ConnState :=
  mkConnState default_tube (ms_append default_tube ms_new)
    false false false None ∅ ∅ None None.
Definition soonest_reserved (c : ConnState) : option (Nanos * JobId) :=
  bt_first (c_reserved_by_deadline c).

(** ** Configuration, journal and process facts *)
Record SysSnapshot := mkSysSnapshot {
  sys_pid : N;
  sys_version : string;
  sys_rusage_utime : N * N;
  sys_rusage_stime : N * N;
  sys_id : string;
  sys_hostname : string;
  sys_os : string;
  sys_platform : string;
}.

Record EngineConfig := mkEngineConfig {
  cfg_max_job_size : N;
  cfg_binlog_max_size : N;
  cfg_journal : bool;
}.

Module RecordState.
Inductive RecordState := Ready | Delayed | Buried.
End RecordState.
Abbreviation RecordState := RecordState.RecordState (only parsing).

Record JobRecord := mkJobRecord {
  r_id : JobId;
  r_pri : N;
  r_delay : N;
  r_ttr : N;
  r_created_at : Nanos;
  r_deadline_at : Nanos;
  r_state : RecordState;
  r_reserve_ct : N;
  r_timeout_ct : N;
  r_release_ct : N;
  r_bury_ct : N;
  r_kick_ct : N;
}.

Module JournalEntry.
Inductive JournalEntry :=
  | Put (record : JobRecord) (tube : TubeName) (body : Bytes)
  | Update (record : JobRecord)
  | Delete (id : JobId).
End JournalEntry.
Abbreviation JournalEntry := JournalEntry.JournalEntry (only parsing).

Record RecoveredJob := mkRecoveredJob {
  rj_record : JobRecord;
  rj_tube : TubeName;
  rj_body : Bytes;
}.

Record Recovery := mkRecovery {
  rec_jobs : list RecoveredJob;
  rec_next_id : JobId;
  rec_tube_order : list TubeName;
}.

Record BinlogStats := mkBinlogStats {
  bl_oldest_index : N;
  bl_current_index : N;
  bl_records_written : N;
  bl_records_migrated : N;
}.
Definition BinlogStats_default : BinlogStats := mkBinlogStats 0 0 0 0.

(** [LocalConns]: the connections whose replies this process delivers. *)
Record LocalConns := mkLocalConns {
  lc_node_shift : N;
  lc_node : N;
}.
Definition owns (l : LocalConns) (conn : ConnId) : bool :=
  (N.shiftr conn (lc_node_shift l) =? lc_node l)%N.

(** ** The engine *)
Record Counts := mkCounts {
  ready_ct : N;
  urgent_ct : N;
  reserved_ct : N;
  buried_ct : N;
  delayed_ct : N;
  waiting_ct : N;
  total_jobs_ct : N;
  timeout_ct : N;
}.
#[export] Instance Counts_eta : Eta Counts := λ r,
  mkCounts (ready_ct r) (urgent_ct r) (reserved_ct r) (buried_ct r) (delayed_ct r)
    (waiting_ct r) (total_jobs_ct r) (timeout_ct r).
#[export] Instance ready_ct_set : Setter ready_ct := ltac:(derive_setter).
#[export] Instance urgent_ct_set : Setter urgent_ct := ltac:(derive_setter).
#[export] Instance reserved_ct_set : Setter reserved_ct := ltac:(derive_setter).
#[export] Instance buried_ct_set : Setter buried_ct := ltac:(derive_setter).
#[export] Instance delayed_ct_set : Setter delayed_ct := ltac:(derive_setter).
#[export] Instance waiting_ct_set : Setter waiting_ct := ltac:(derive_setter).
#[export] Instance total_jobs_ct_set : Setter total_jobs_ct := ltac:(derive_setter).
#[export] Instance timeout_ct_set : Setter timeout_ct := ltac:(derive_setter).

Record ConnCounts := mkConnCounts {
  cur_conns : N;
  tot_conns : N;
  cur_producers : N;
  cur_workers : N;
}.
#[export] Instance ConnCounts_eta : Eta ConnCounts := λ r,
  mkConnCounts (cur_conns r) (tot_conns r) (cur_producers r) (cur_workers r).
#[export] Instance cur_conns_set : Setter cur_conns := ltac:(derive_setter).
#[export] Instance tot_conns_set : Setter tot_conns := ltac:(derive_setter).
#[export] Instance cur_producers_set : Setter cur_producers := ltac:(derive_setter).
#[export] Instance cur_workers_set : Setter cur_workers := ltac:(derive_setter).

Record CmdCounts := mkCmdCounts {
  n_cmd_put : N;
  n_cmd_peek : N;
  n_cmd_peek_ready : N;
  n_cmd_peek_delayed : N;
  n_cmd_peek_buried : N;
  n_cmd_reserve : N;
  n_cmd_reserve_with_timeout : N;
  n_cmd_delete : N;
  n_cmd_release : N;
  n_cmd_use : N;
  n_cmd_watch : N;
  n_cmd_ignore : N;
  n_cmd_bury : N;
  n_cmd_kick : N;
  n_cmd_touch : N;
  n_cmd_stats : N;
  n_cmd_stats_job : N;
  n_cmd_stats_tube : N;
  n_cmd_list_tubes : N;
  n_cmd_list_tube_used : N;
  n_cmd_list_tubes_watched : N;
  n_cmd_pause_tube : N;
}.
#[export] Instance CmdCounts_eta : Eta CmdCounts := λ r,
  mkCmdCounts (n_cmd_put r) (n_cmd_peek r) (n_cmd_peek_ready r) (n_cmd_peek_delayed r)
    (n_cmd_peek_buried r) (n_cmd_reserve r) (n_cmd_reserve_with_timeout r) (n_cmd_delete
    r) (n_cmd_release r) (n_cmd_use r) (n_cmd_watch r) (n_cmd_ignore r) (n_cmd_bury r)
    (n_cmd_kick r) (n_cmd_touch r) (n_cmd_stats r) (n_cmd_stats_job r) (n_cmd_stats_tube
    r) (n_cmd_list_tubes r) (n_cmd_list_tube_used r) (n_cmd_list_tubes_watched r)
    (n_cmd_pause_tube r).
#[export] Instance n_cmd_put_set : Setter n_cmd_put := ltac:(derive_setter).
#[export] Instance n_cmd_peek_set : Setter n_cmd_peek := ltac:(derive_setter).
#[export] Instance n_cmd_peek_ready_set : Setter n_cmd_peek_ready := ltac:(derive_setter).
#[export] Instance n_cmd_peek_delayed_set : Setter n_cmd_peek_delayed := ltac:(derive_setter).
#[export] Instance n_cmd_peek_buried_set : Setter n_cmd_peek_buried := ltac:(derive_setter).
#[export] Instance n_cmd_reserve_set : Setter n_cmd_reserve := ltac:(derive_setter).
#[export] Instance n_cmd_reserve_with_timeout_set : Setter n_cmd_reserve_with_timeout := ltac:(derive_setter).
#[export] Instance n_cmd_delete_set : Setter n_cmd_delete := ltac:(derive_setter).
#[export] Instance n_cmd_release_set : Setter n_cmd_release := ltac:(derive_setter).
#[export] Instance n_cmd_use_set : Setter n_cmd_use := ltac:(derive_setter).
#[export] Instance n_cmd_watch_set : Setter n_cmd_watch := ltac:(derive_setter).
#[export] Instance n_cmd_ignore_set : Setter n_cmd_ignore := ltac:(derive_setter).
#[export] Instance n_cmd_bury_set : Setter n_cmd_bury := ltac:(derive_setter).
#[export] Instance n_cmd_kick_set : Setter n_cmd_kick := ltac:(derive_setter).
#[export] Instance n_cmd_touch_set : Setter n_cmd_touch := ltac:(derive_setter).
#[export] Instance n_cmd_stats_set : Setter n_cmd_stats := ltac:(derive_setter).
#[export] Instance n_cmd_stats_job_set : Setter n_cmd_stats_job := ltac:(derive_setter).
#[export] Instance n_cmd_stats_tube_set : Setter n_cmd_stats_tube := ltac:(derive_setter).
#[export] Instance n_cmd_list_tubes_set : Setter n_cmd_list_tubes := ltac:(derive_setter).
#[export] Instance n_cmd_list_tube_used_set : Setter n_cmd_list_tube_used := ltac:(derive_setter).
#[export] Instance n_cmd_list_tubes_watched_set : Setter n_cmd_list_tubes_watched := ltac:(derive_setter).
#[export] Instance n_cmd_pause_tube_set : Setter n_cmd_pause_tube := ltac:(derive_setter).

Record Engine := mkEngine {
  e_cfg : EngineConfig;
  e_sys : SysSnapshot;
  e_start : Nanos;
  e_draining : bool;
  e_next_job_id : JobId;
  e_jobs : gmap JobId JobRec;
  e_next_list_seq : N;
  e_tubes : list (option TubeState);
  e_free_tube_ids : list TubeId;
  e_tube_ids : gmap TubeName TubeId;
  e_tube_order : Ms TubeId;
  e_conns : gmap ConnId ConnState;
  e_conn_ticks : gset (Nanos * ConnId);
  e_delay_heads : gset (Nanos * TubeId);
  e_pauses : gset (Nanos * TubeId);
  e_dispatchable : gset TubeId;
  e_ct : Counts;
  e_cc : ConnCounts;
  e_cmd : CmdCounts;
  e_journal : list JournalEntry;
  e_binlog : BinlogStats;
  e_local_conns : option LocalConns;
}.
#[export] Instance Engine_eta : Eta Engine := λ r,
  mkEngine (e_cfg r) (e_sys r) (e_start r) (e_draining r) (e_next_job_id r) (e_jobs r)
    (e_next_list_seq r) (e_tubes r) (e_free_tube_ids r) (e_tube_ids r) (e_tube_order r)
    (e_conns r) (e_conn_ticks r) (e_delay_heads r) (e_pauses r) (e_dispatchable r) (e_ct
    r) (e_cc r) (e_cmd r) (e_journal r) (e_binlog r) (e_local_conns r).
#[export] Instance e_cfg_set : Setter e_cfg := ltac:(derive_setter).
#[export] Instance e_sys_set : Setter e_sys := ltac:(derive_setter).
#[export] Instance e_start_set : Setter e_start := ltac:(derive_setter).
#[export] Instance e_draining_set : Setter e_draining := ltac:(derive_setter).
#[export] Instance e_next_job_id_set : Setter e_next_job_id := ltac:(derive_setter).
#[export] Instance e_jobs_set : Setter e_jobs := ltac:(derive_setter).
#[export] Instance e_next_list_seq_set : Setter e_next_list_seq := ltac:(derive_setter).
#[export] Instance e_tubes_set : Setter e_tubes := ltac:(derive_setter).
#[export] Instance e_free_tube_ids_set : Setter e_free_tube_ids := ltac:(derive_setter).
#[export] Instance e_tube_ids_set : Setter e_tube_ids := ltac:(derive_setter).
#[export] Instance e_tube_order_set : Setter e_tube_order := ltac:(derive_setter).
#[export] Instance e_conns_set : Setter e_conns := ltac:(derive_setter).
#[export] Instance e_conn_ticks_set : Setter e_conn_ticks := ltac:(derive_setter).
#[export] Instance e_delay_heads_set : Setter e_delay_heads := ltac:(derive_setter).
#[export] Instance e_pauses_set : Setter e_pauses := ltac:(derive_setter).
#[export] Instance e_dispatchable_set : Setter e_dispatchable := ltac:(derive_setter).
#[export] Instance e_ct_set : Setter e_ct := ltac:(derive_setter).
#[export] Instance e_cc_set : Setter e_cc := ltac:(derive_setter).
#[export] Instance e_cmd_set : Setter e_cmd := ltac:(derive_setter).
#[export] Instance e_journal_set : Setter e_journal := ltac:(derive_setter).
#[export] Instance e_binlog_set : Setter e_binlog := ltac:(derive_setter).
#[export] Instance e_local_conns_set : Setter e_local_conns := ltac:(derive_setter).

(** Replies in delivery order. *)
Abbreviation Outbox := (list (ConnId * Response)).

Module EngineInput.
Inductive EngineInput :=
  | Connect (conn : ConnId)
  | Disconnect (conn : ConnId)
  | HalfClose (conn : ConnId)
  | PutStarted (conn : ConnId) (too_big : bool)
  | PutRejected (conn : ConnId) (why : PutRejection)
  | Command (conn : ConnId) (cmd : Command)
  | Tick
  | SetDraining (on : bool).
End EngineInput.
Abbreviation EngineInput := EngineInput.EngineInput (only parsing).

Definition input_conn (i : EngineInput) : option ConnId :=
  match i with
  | EngineInput.Connect c | EngineInput.Disconnect c | EngineInput.HalfClose c
  | EngineInput.PutStarted c _ | EngineInput.PutRejected c _
  | EngineInput.Command c _ => Some c
  | EngineInput.Tick | EngineInput.SetDraining _ => None
  end.
