(* ===== verification/Format.v ===== *)
(** * The binary log format: [crates/store/src/format.rs]

    Records as bytes, little-endian, each framed by its length and a
    checksum.  The checksum is the [crc32c] crate's and a parameter:
    [record_crc] takes the length field and the payload to a u32.  Errors
    carry the reason the code gives. *)

From S2P Require Import Prelude Proto Stats Parse Model.
From stdpp Require Import options.

(** ** Little-endian integers *)
Fixpoint le_bytes (k : nat) (x : N) : Bytes :=
  match k with O => [] | S k => ascii_of_N (x `mod` 256) :: le_bytes k (x `div` 256) end.
Fixpoint from_le_bytes (l : Bytes) : N :=
  match l with [] => 0 | b :: l => byte_N b + 256 * from_le_bytes l end.

Definition MAGIC : Bytes := bs "BSTKWAL" ++ [zero].
Definition VERSION : N := 1.
Definition SEG_HEADER_LEN : nat := 16.
Definition REC_HEADER_LEN : nat := 8.
Definition JOBREC_LEN : nat := 57.
Definition MAX_RECORD_ID : JobId := 2 ^ 62 - 1.
Definition KIND_PUT : ascii := ascii_of_N 1.
Definition KIND_UPDATE : ascii := ascii_of_N 2.
Definition KIND_DELETE : ascii := ascii_of_N 3.
Definition DELETE_REC_LEN : nat := REC_HEADER_LEN + 1 + 8.
Definition UPDATE_REC_LEN : nat := REC_HEADER_LEN + 1 + JOBREC_LEN.
Definition JOBREC_OFFSET : nat := REC_HEADER_LEN + 1.
Definition put_rec_len (tube_len body_len : nat) : nat :=
  REC_HEADER_LEN + 1 + JOBREC_LEN + 1 + tube_len + body_len.
(** Magic, version, and flags that stay zero. *)
Definition segment_header : Bytes := MAGIC ++ le_bytes 4 VERSION ++ le_bytes 4 0.

Definition state_byte (s : RecordState) : ascii :=
  ascii_of_N (match s with RecordState.Ready => 0 | RecordState.Delayed => 1 | RecordState.Buried => 2 end).
Definition encode_jobrec (r : JobRecord) : Bytes :=
  le_bytes 8 (r_id r) ++ le_bytes 4 (r_pri r) ++ le_bytes 4 (r_delay r) ++ le_bytes 4 (r_ttr r) ++
  le_bytes 8 (r_created_at r) ++ le_bytes 8 (r_deadline_at r) ++ [state_byte (r_state r)] ++
  le_bytes 4 (r_reserve_ct r) ++ le_bytes 4 (r_timeout_ct r) ++ le_bytes 4 (r_release_ct r) ++
  le_bytes 4 (r_bury_ct r) ++ le_bytes 4 (r_kick_ct r).

(** ** The cursor [Cur] *)
Definition cur_take (n : nat) (c : Bytes) : option (Bytes * Bytes) :=
  if (length c <? n)%nat then None else Some (take n c, drop n c).
Definition cur_u8 (c : Bytes) : option (ascii * Bytes) :=
  '(a, c) ← cur_take 1 c; b ← a !! 0; Some (b, c).
Definition cur_u32 (c : Bytes) : option (N * Bytes) :=
  '(a, c) ← cur_take 4 c; Some (from_le_bytes a, c).
Definition cur_u64 (c : Bytes) : option (N * Bytes) :=
  '(a, c) ← cur_take 8 c; Some (from_le_bytes a, c).

Definition decode_state (b : ascii) : option RecordState :=
  match byte_N b with
  | 0 => Some RecordState.Ready
  | 1 => Some RecordState.Delayed
  | 2 => Some RecordState.Buried
  | _ => None
  end%N.
Definition bad_id (id : JobId) : bool := (id =? 0)%N || (MAX_RECORD_ID <? id)%N.
Definition decode_jobrec (c : Bytes) : option (JobRecord * Bytes) :=
  '(id, c) ← cur_u64 c;
  '(pri, c) ← cur_u32 c;
  '(delay, c) ← cur_u32 c;
  '(ttr, c) ← cur_u32 c;
  '(created_at, c) ← cur_u64 c;
  '(deadline_at, c) ← cur_u64 c;
  '(b, c) ← cur_u8 c;
  state ← decode_state b;
  '(reserve_ct, c) ← cur_u32 c;
  '(timeout_ct, c) ← cur_u32 c;
  '(release_ct, c) ← cur_u32 c;
  '(bury_ct, c) ← cur_u32 c;
  '(kick_ct, c) ← cur_u32 c;
  if bad_id id then None
  else Some (mkJobRecord id pri delay ttr created_at deadline_at state reserve_ct timeout_ct release_ct bury_ct kick_ct, c).

(** ** Records *)
Module Rec.
Inductive Rec :=
  | Put (record : JobRecord) (tube : TubeName) (body : Bytes)
  | Update (record : JobRecord)
  | Delete (id : JobId).
End Rec.
Abbreviation Rec := Rec.Rec (only parsing).
Definition rec_id (r : Rec) : JobId :=
  match r with Rec.Put record _ _ | Rec.Update record => r_id record | Rec.Delete id => id end.

Module Parsed.
Inductive Parsed :=
  | End_
  | Record (rec : Rec) (len : nat)
  | Bad (why : string)
  | Malformed (why : string).
End Parsed.
Abbreviation Parsed := Parsed.Parsed (only parsing).

Definition or_err {A} (o : option A) (why : string) : A + string :=
  match o with Some a => inl a | None => inr why end.
Definition ebind {A B} (x : A + string) (f : A → B + string) : B + string :=
  match x with inl a => f a | inr why => inr why end.
Notation "' p ←? e ; k" := (ebind e (λ x, match x with p => k end))
  (at level 20, p pattern, e at level 100, k at level 200, right associativity) : bstk_scope.

Definition decode_payload (payload : Bytes) : Rec + string :=
  '(kind, c) ←? or_err (cur_u8 payload) "empty payload";
  if bool_decide (kind = KIND_PUT) then
    '(record, c) ←? or_err (decode_jobrec c) "bad job record";
    '(tl, c) ←? or_err (cur_u8 c) "missing tube length";
    '(tube, c) ←? or_err (cur_take (N.to_nat (byte_N tl)) c) "truncated tube name";
    'tube ←? or_err (tube_name_from_bytes tube) "invalid tube name";
    inl (Rec.Put record tube c)
  else if bool_decide (kind = KIND_UPDATE) then
    '(record, c) ←? or_err (decode_jobrec c) "bad job record";
    if bool_decide (c ≠ []) then inr "trailing bytes in update record" else inl (Rec.Update record)
  else if bool_decide (kind = KIND_DELETE) then
    '(id, c) ←? or_err (cur_u64 c) "truncated delete record";
    if bad_id id || bool_decide (c ≠ []) then inr "bad delete record" else inl (Rec.Delete id)
  else inr "unknown record kind".

Section crc.
Context (record_crc : Bytes → Bytes → N).

(** [frame]: length, checksum and payload; a length that does not fit a u32
    is an error. *)
Definition frame (payload : Bytes) : option Bytes :=
  if (u32_max <? N.of_nat (length payload))%N then None
  else
    let len := le_bytes 4 (N.of_nat (length payload)) in
    Some (len ++ le_bytes 4 (record_crc len payload) ++ payload).
Definition put_payload (record : JobRecord) (tube : TubeName) (body : Bytes) : Bytes :=
  KIND_PUT :: encode_jobrec record ++ [ascii_of_N (N.of_nat (length (bs tube)))] ++ bs tube ++ body.
Definition encode_put (record : JobRecord) (tube : TubeName) (body : Bytes) : option Bytes :=
  if (255 <? N.of_nat (length (bs tube)))%N then None else frame (put_payload record tube body).
Definition encode_update (record : JobRecord) : option Bytes := frame (KIND_UPDATE :: encode_jobrec record).
Definition encode_delete (id : JobId) : option Bytes := frame (KIND_DELETE :: le_bytes 8 id).

Definition restamp_put (rec : Bytes) (record : JobRecord) : Bytes :=
  let rec := take JOBREC_OFFSET rec ++ encode_jobrec record ++ drop (JOBREC_OFFSET + JOBREC_LEN) rec in
  let payload := drop REC_HEADER_LEN rec in
  take 4 rec ++ le_bytes 4 (record_crc (take 4 rec) payload) ++ payload.

Definition parse_at (buf : Bytes) (pos : nat) : Parsed :=
  let rest := drop pos buf in
  if (length rest <? REC_HEADER_LEN)%nat then
    if forallb (λ b, bool_decide (b = zero)) rest then Parsed.End_ else Parsed.Bad "truncated record header"
  else
    let len_bytes := take 4 rest in
    let len := from_le_bytes len_bytes in
    if (len =? 0)%N then Parsed.End_
    else
      let crc := from_le_bytes (take 4 (drop 4 rest)) in
      let total := REC_HEADER_LEN + N.to_nat len in
      if (length rest <? total)%nat then Parsed.Bad "record extends past end of file"
      else
        let payload := take (N.to_nat len) (drop REC_HEADER_LEN rest) in
        if negb (record_crc len_bytes payload =? crc)%N then Parsed.Bad "CRC mismatch"
        else
          match decode_payload payload with
          | inl rec => Parsed.Record rec total
          | inr why => Parsed.Malformed why
          end.
End crc.

(** ** What the decoder accepts *)
Section le.
Lemma length_le_bytes k x : length (le_bytes k x) = k.
Proof. revert x. induction k as [|k IH]; intros x; cbn; [done|]. by rewrite IH. Qed.
Lemma byte_N_of x : byte_N (ascii_of_N (x `mod` 256)) = (x `mod` 256)%N.
Proof. apply N_ascii_embedding, N.mod_lt. done. Qed.
Lemma byte_N_lt b : (byte_N b < 256)%N.
Proof. apply N_ascii_bounded. Qed.
Lemma from_le_bytes_lt l : (from_le_bytes l < 256 ^ N.of_nat (length l))%N.
Proof.
  induction l as [|b l IH]; cbn [from_le_bytes length]; [done|]. rewrite Nat2N.inj_succ, N.pow_succ_r'.
  pose proof (byte_N_lt b). nia.
Qed.
Lemma from_le_bytes_le k x : (x < 256 ^ N.of_nat k)%N → from_le_bytes (le_bytes k x) = x.
Proof.
  revert x. induction k as [|k IH]; intros x Hx; cbn [le_bytes from_le_bytes].
  - cbn in Hx. lia.
  - rewrite Nat2N.inj_succ, N.pow_succ_r' in Hx. rewrite byte_N_of, IH by (apply N.Div0.div_lt_upper_bound; lia).
    pose proof (N.div_mod x 256 ltac:(done)). lia.
Qed.
Lemma le_bytes_from l : le_bytes (length l) (from_le_bytes l) = l.
Proof.
  induction l as [|b l IH]; cbn [le_bytes from_le_bytes length]; [done|]. pose proof (byte_N_lt b).
  assert ((byte_N b + 256 * from_le_bytes l) `mod` 256 = byte_N b)%N as ->.
  { rewrite (N.mul_comm 256), N.Div0.mod_add. by apply N.mod_small. }
  assert ((byte_N b + 256 * from_le_bytes l) `div` 256 = from_le_bytes l)%N as ->.
  { rewrite (N.mul_comm 256), N.div_add by done. rewrite N.div_small by done. lia. }
  rewrite IH. f_equal. apply ascii_N_embedding.
Qed.
End le.

Section cursor.
Implicit Types (c : Bytes).
Lemma cur_take_Some n c a c' : cur_take n c = Some (a, c') ↔ length a = n ∧ c = a ++ c'.
Proof.
  unfold cur_take. destruct (Nat.ltb_spec (length c) n).
  - split; [done|]. intros [<- ->]. rewrite length_app in *. lia.
  - split.
    + intros [= <- <-]. rewrite length_take, take_drop. split; [lia|done].
    + intros [<- ->]. by rewrite take_app_length, drop_app_length.
Qed.
Lemma cur_u8_Some c b c' : cur_u8 c = Some (b, c') ↔ c = b :: c'.
Proof.
  unfold cur_u8. split.
  - intros ([a c1] & [Ha ->]%cur_take_Some & (b1 & Hb & [= <- <-])%bind_Some)%bind_Some.
    destruct a as [|x [|]]; try done. by injection Hb as ->.
  - intros ->. by destruct c'.
Qed.
Lemma cur_le_Some k c a c' :
  cur_take k c = Some (a, c') ↔ (from_le_bytes a < 256 ^ N.of_nat k)%N ∧ a = le_bytes k (from_le_bytes a) ∧ c = a ++ c'.
Proof.
  rewrite cur_take_Some. split.
  - intros [<- ->]. split; [apply from_le_bytes_lt|]. by rewrite le_bytes_from.
  - intros (_ & Ha & ->). split; [|done]. rewrite Ha. apply length_le_bytes.
Qed.
Lemma cur_u32_Some c x c' : cur_u32 c = Some (x, c') ↔ (x < 2 ^ 32)%N ∧ c = le_bytes 4 x ++ c'.
Proof.
  unfold cur_u32. split.
  - intros ([a c1] & (Hlt & Ha & ->)%cur_le_Some & [= <- <-])%bind_Some. split; [exact Hlt|]. by rewrite <-Ha.
  - intros [Hlt ->]. rewrite (proj2 (cur_le_Some 4 _ (le_bytes 4 x) c')); cbn [mbind option_bind].
    + by rewrite from_le_bytes_le.
    + by rewrite from_le_bytes_le.
Qed.
Lemma cur_u64_Some c x c' : cur_u64 c = Some (x, c') ↔ (x < 2 ^ 64)%N ∧ c = le_bytes 8 x ++ c'.
Proof.
  unfold cur_u64. split.
  - intros ([a c1] & (Hlt & Ha & ->)%cur_le_Some & [= <- <-])%bind_Some. split; [exact Hlt|]. by rewrite <-Ha.
  - intros [Hlt ->]. rewrite (proj2 (cur_le_Some 8 _ (le_bytes 8 x) c')); cbn [mbind option_bind].
    + by rewrite from_le_bytes_le.
    + by rewrite from_le_bytes_le.
Qed.
Lemma cur_u32_le x c' : (x < 2 ^ 32)%N → cur_u32 (le_bytes 4 x ++ c') = Some (x, c').
Proof. intros Hx. by apply cur_u32_Some. Qed.
Lemma cur_u64_le x c' : (x < 2 ^ 64)%N → cur_u64 (le_bytes 8 x ++ c') = Some (x, c').
Proof. intros Hx. by apply cur_u64_Some. Qed.
Lemma decode_state_Some b s : decode_state b = Some s ↔ b = state_byte s.
Proof.
  assert (∀ s, decode_state (state_byte s) = Some s) as Hs by by intros [].
  split; [|by intros ->]. destruct b as [[] [] [] [] [] [] [] []]; cbn; try done; by intros [= <-].
Qed.
End cursor.

(** Records within their types, with an id the log may carry. *)
Definition id_ok (id : JobId) : Prop := (1 ≤ id ≤ MAX_RECORD_ID)%N.
Record jobrec_ok (r : JobRecord) : Prop := {
  ro_id : id_ok (r_id r);
  ro_params : (r_pri r < 2 ^ 32 ∧ r_delay r < 2 ^ 32 ∧ r_ttr r < 2 ^ 32)%N;
  ro_times : (r_created_at r < 2 ^ 64 ∧ r_deadline_at r < 2 ^ 64)%N;
  ro_counts : (r_reserve_ct r < 2 ^ 32 ∧ r_timeout_ct r < 2 ^ 32 ∧ r_release_ct r < 2 ^ 32)%N;
  ro_counts' : (r_bury_ct r < 2 ^ 32 ∧ r_kick_ct r < 2 ^ 32)%N;
}.
Lemma bad_id_false id : bad_id id = false ↔ id_ok id.
Proof. unfold bad_id, id_ok. rewrite orb_false_iff, N.eqb_neq, N.ltb_ge. lia. Qed.
Lemma id_ok_lt id : id_ok id → (id < 2 ^ 64)%N.
Proof. unfold id_ok, MAX_RECORD_ID. lia. Qed.

Lemma decode_jobrec_Some c r c' : decode_jobrec c = Some (r, c') ↔ jobrec_ok r ∧ c = encode_jobrec r ++ c'.
Proof.
  unfold decode_jobrec, encode_jobrec. split.
  - intros H. repeat (apply bind_Some in H as ([? ?] & Hx & H); first [apply cur_u64_Some in Hx as [? ->]|apply cur_u32_Some in Hx as [? ->]|apply cur_u8_Some in Hx as ->]).
    apply bind_Some in H as (s & ->%decode_state_Some & H).
    repeat (apply bind_Some in H as ([? ?] & Hx & H); apply cur_u32_Some in Hx as [? ->]).
    destruct (bad_id _) eqn:Hid; [done|]. injection H as <- <-. apply bad_id_false in Hid. split; [by constructor|].
    cbn. by rewrite <-?(assoc_L (++)).
  - intros [[Hid (? & ? & ?) (? & ?) (? & ? & ?) (? & ?)] ->]. rewrite <-!(assoc_L (++)).
    pose proof (id_ok_lt _ Hid).
    repeat (first [rewrite cur_u64_le by done|rewrite cur_u32_le by done]; cbn [mbind option_bind]). cbn [app cur_u8].
    rewrite (proj2 (cur_u8_Some _ _ _) eq_refl). cbn [mbind option_bind].
    rewrite (proj2 (decode_state_Some _ _) eq_refl). cbn [mbind option_bind].
    repeat (rewrite cur_u32_le by done; cbn [mbind option_bind]). rewrite (proj2 (bad_id_false _) Hid). by destruct r.
Qed.
Lemma length_encode_jobrec r : length (encode_jobrec r) = JOBREC_LEN.
Proof. unfold encode_jobrec. by rewrite !length_app, !length_le_bytes. Qed.

Definition payload_of (r : Rec) : Bytes :=
  match r with
  | Rec.Put record tube body => put_payload record tube body
  | Rec.Update record => KIND_UPDATE :: encode_jobrec record
  | Rec.Delete id => KIND_DELETE :: le_bytes 8 id
  end.
Definition rec_ok (r : Rec) : Prop :=
  match r with
  | Rec.Put record tube _ => jobrec_ok record ∧ validate_tube_name tube = true
  | Rec.Update record => jobrec_ok record
  | Rec.Delete id => id_ok id
  end.
Lemma or_err_inl {A} (o : option A) why x : or_err o why = inl x ↔ o = Some x.
Proof. destruct o; cbn; naive_solver. Qed.
Lemma ebind_inl {A B} (x : A + string) (f : A → B + string) b : ebind x f = inl b ↔ ∃ a, x = inl a ∧ f a = inl b.
Proof. destruct x; cbn; naive_solver. Qed.
Lemma tube_name_bytes tube bytes :
  tube_name_from_bytes bytes = Some tube ↔ validate_tube_name tube = true ∧ bytes = bs tube.
Proof.
  unfold tube_name_from_bytes. split.
  - intros (s & Hs & Ht)%bind_Some. unfold TubeName_new in Ht. destruct (validate_tube_name s) eqn:Hv; [|done].
    injection Ht as <-. split; [done|]. unfold from_utf8 in Hs. destruct (utf8_valid bytes); [|done]. injection Hs as <-.
    unfold bs. by rewrite Strings.String.list_ascii_of_string_of_list_ascii.
  - intros [Hv ->]. rewrite from_utf8_name by done. cbn [mbind option_bind]. unfold TubeName_new. by rewrite Hv.
Qed.
Lemma tube_len_small tube : validate_tube_name tube = true → (N.of_nat (length (bs tube)) ≤ 200)%N.
Proof.
  unfold validate_tube_name, MAX_TUBE_NAME_LEN. destruct (N.ltb_spec 200 (N.of_nat (length (bs tube)))); [|done].
  by rewrite orb_true_r.
Qed.
Lemma tube_len_byte tube :
  validate_tube_name tube = true → N.to_nat (byte_N (ascii_of_N (N.of_nat (length (bs tube))))) = length (bs tube).
Proof. intros Hv%tube_len_small. unfold byte_N. rewrite N_ascii_embedding by lia. apply Nat2N.id. Qed.

Lemma decode_put record tube body :
  jobrec_ok record → validate_tube_name tube = true →
  decode_payload (put_payload record tube body) = inl (Rec.Put record tube body).
Proof.
  intros Hr Ht. unfold decode_payload, put_payload. rewrite (proj2 (cur_u8_Some _ _ _) eq_refl). cbn [or_err ebind].
  rewrite bool_decide_eq_true_2 by done. rewrite (proj2 (decode_jobrec_Some _ _ _) (conj Hr eq_refl)). cbn [or_err ebind].
  cbn [app]. rewrite (proj2 (cur_u8_Some _ _ _) eq_refl). cbn [or_err ebind]. rewrite tube_len_byte by done.
  rewrite (proj2 (cur_take_Some _ _ (bs tube) body) (conj eq_refl eq_refl)). cbn [or_err ebind].
  by rewrite (proj2 (tube_name_bytes _ _) (conj Ht eq_refl)).
Qed.
Lemma decode_payload_inl payload rec : decode_payload payload = inl rec ↔ rec_ok rec ∧ payload = payload_of rec.
Proof.
  split.
  - unfold decode_payload. intros ([kind c] & ->%or_err_inl%cur_u8_Some & H)%ebind_inl.
    case_bool_decide as Hp; [|case_bool_decide as Hu; [|case_bool_decide as Hd; [|done]]].
    + subst kind. apply ebind_inl in H as ([r c1] & [Hr ->]%or_err_inl%decode_jobrec_Some & H).
      apply ebind_inl in H as ([tl c2] & ->%or_err_inl%cur_u8_Some & H).
      apply ebind_inl in H as ([nm c3] & [Hlen ->]%or_err_inl%cur_take_Some & H).
      apply ebind_inl in H as (tube & [Hv ->]%or_err_inl%tube_name_bytes & [= <-]).
      split; [done|]. cbn [payload_of]. unfold put_payload, byte_N in *. by rewrite Hlen, N2Nat.id, ascii_N_embedding.
    + subst kind. apply ebind_inl in H as ([r c1] & [Hr ->]%or_err_inl%decode_jobrec_Some & H).
      case_bool_decide as Hc; [done|]. injection H as <-. subst c1. by rewrite app_nil_r.
    + subst kind. apply ebind_inl in H as ([id c1] & [Hr ->]%or_err_inl%cur_u64_Some & H).
      destruct (bad_id id) eqn:Hid; [done|]. cbn [orb] in H. case_bool_decide as Hc; [done|]. injection H as <-.
      subst c1. split; [by apply bad_id_false|by rewrite app_nil_r].
  - intros [Hok ->]. destruct rec as [record tube body|record|id]; cbn [payload_of rec_ok] in *.
    + destruct Hok. by apply decode_put.
    + unfold decode_payload. rewrite (proj2 (cur_u8_Some _ _ _) eq_refl). cbn [or_err ebind].
      rewrite bool_decide_eq_false_2, bool_decide_eq_true_2 by done.
      rewrite (proj2 (decode_jobrec_Some _ record []) (conj Hok (eq_sym (app_nil_r _)))). done.
    + unfold decode_payload. rewrite (proj2 (cur_u8_Some _ _ _) eq_refl). cbn [or_err ebind].
      rewrite !bool_decide_eq_false_2, bool_decide_eq_true_2 by done. pose proof (id_ok_lt _ Hok).
      rewrite (proj2 (cur_u64_Some _ id []) (conj H (eq_sym (app_nil_r _)))). cbn [or_err ebind].
      by rewrite (proj2 (bad_id_false _) Hok).
Qed.

(** ** Framing *)
Section framing.
Context (record_crc : Bytes → Bytes → N) (Hcrc : ∀ l p, (record_crc l p < 2 ^ 32)%N).

Definition encode_rec (r : Rec) : option Bytes :=
  match r with
  | Rec.Put record tube body => encode_put record_crc record tube body
  | Rec.Update record => encode_update record_crc record
  | Rec.Delete id => encode_delete record_crc id
  end.
(** A record as the log holds it. *)
Definition framed (payload : Bytes) : Bytes :=
  let len := le_bytes 4 (N.of_nat (length payload)) in len ++ le_bytes 4 (record_crc len payload) ++ payload.
Lemma encode_rec_frame r : rec_ok r → encode_rec r = frame record_crc (payload_of r).
Proof.
  destruct r as [record tube body| |]; try done. cbn. intros [_ Hv%tube_len_small]. unfold encode_put.
  by rewrite (proj2 (N.ltb_ge 255 _)) by lia.
Qed.
Lemma frame_Some payload bytes :
  frame record_crc payload = Some bytes ↔ (N.of_nat (length payload) < 2 ^ 32)%N ∧ bytes = framed payload.
Proof.
  unfold frame, framed, u32_max. destruct (N.ltb_spec (2 ^ 32 - 1) (N.of_nat (length payload))).
  - split; [done|]. intros [? _]. lia.
  - split; [intros [= <-]; split; [lia|done]|]. by intros [_ ->].
Qed.
Lemma length_framed payload : length (framed payload) = REC_HEADER_LEN + length payload.
Proof. unfold framed. by rewrite !length_app, !length_le_bytes. Qed.
Lemma payload_nonempty r : length (payload_of r) ≠ 0.
Proof. by destruct r. Qed.
Lemma le4 l : length l = 4 → le_bytes 4 (from_le_bytes l) = l.
Proof. intros Hl. rewrite <-(le_bytes_from l) at 2. by rewrite Hl. Qed.

Lemma parse_framed buf pos payload suf :
  drop pos buf = framed payload ++ suf → (N.of_nat (length payload) < 2 ^ 32)%N → length payload ≠ 0 →
  parse_at record_crc buf pos =
    match decode_payload payload with
    | inl rec => Parsed.Record rec (length (framed payload))
    | inr why => Parsed.Malformed why
    end.
Proof using Hcrc.
  intros Hd Hlt Hne. unfold parse_at. rewrite Hd. unfold framed. rewrite <-!(assoc_L (++)).
  set (len := le_bytes 4 (N.of_nat (length payload))). set (crc := le_bytes 4 (record_crc len payload)).
  assert (length len = 4) as Hl by apply length_le_bytes. assert (length crc = 4) as Hc by apply length_le_bytes.
  assert (take 4 (len ++ crc ++ payload ++ suf) = len) as -> by (by apply take_app_length').
  assert (drop 4 (len ++ crc ++ payload ++ suf) = crc ++ payload ++ suf) as -> by (by apply drop_app_length').
  assert (take 4 (crc ++ payload ++ suf) = crc) as -> by (by apply take_app_length').
  assert (drop REC_HEADER_LEN (len ++ crc ++ payload ++ suf) = payload ++ suf) as ->.
  { change REC_HEADER_LEN with (4 + 4). rewrite <-drop_drop. by rewrite !drop_app_length'. }
  rewrite (proj2 (Nat.ltb_ge _ _)) by (rewrite !length_app; unfold REC_HEADER_LEN; lia).
  assert (from_le_bytes len = N.of_nat (length payload)) as -> by by apply from_le_bytes_le.
  assert (from_le_bytes crc = record_crc len payload) as -> by apply from_le_bytes_le, Hcrc.
  rewrite (proj2 (N.eqb_neq _ _)), Nat2N.id by lia.
  rewrite (proj2 (Nat.ltb_ge _ _)) by (rewrite !length_app; unfold REC_HEADER_LEN; lia).
  rewrite take_app_length, N.eqb_refl. cbn [negb]. rewrite !length_app, Hl, Hc. reflexivity.
Qed.
Lemma parse_Record buf pos rec n :
  parse_at record_crc buf pos = Parsed.Record rec n ↔
    ∃ bytes suf, rec_ok rec ∧ encode_rec rec = Some bytes ∧ n = length bytes ∧ drop pos buf = bytes ++ suf.
Proof using Hcrc.
  split.
  - intros H. assert (∃ payload suf, drop pos buf = framed payload ++ suf ∧ (N.of_nat (length payload) < 2 ^ 32)%N ∧
      length payload ≠ 0) as (payload & suf & Hd & Hlt & Hne).
    { revert H. unfold parse_at. set (rest := drop pos buf). destruct (Nat.ltb_spec (length rest) REC_HEADER_LEN) as [|Hge]; [by case_match|].
      unfold REC_HEADER_LEN in Hge. assert (length (take 4 rest) = 4) as Hl by (rewrite length_take; lia).
      assert (length (take 4 (drop 4 rest)) = 4) as Hc by (rewrite length_take, length_drop; lia).
      pose proof (from_le_bytes_lt (take 4 rest)) as Hlen. rewrite Hl in Hlen.
      destruct (N.eqb_spec (from_le_bytes (take 4 rest)) 0) as [|Hne]; [done|].
      destruct (Nat.ltb_spec (length rest) (REC_HEADER_LEN + N.to_nat (from_le_bytes (take 4 rest)))) as [|Htot]; [done|].
      destruct (N.eqb_spec (record_crc (take 4 rest) (take (N.to_nat (from_le_bytes (take 4 rest))) (drop REC_HEADER_LEN rest)))
        (from_le_bytes (take 4 (drop 4 rest)))) as [Hq|]; [|done]. intros _.
      set (payload := take (N.to_nat (from_le_bytes (take 4 rest))) (drop REC_HEADER_LEN rest)) in *.
      assert (N.of_nat (length payload) = from_le_bytes (take 4 rest)) as Hp.
      { unfold payload. rewrite length_take, length_drop. unfold REC_HEADER_LEN in *. lia. }
      exists payload, (drop (N.to_nat (from_le_bytes (take 4 rest))) (drop REC_HEADER_LEN rest)). split; [|split; [lia|lia]].
      unfold framed. rewrite Hp, (le4 _ Hl), Hq, (le4 _ Hc), <-!(assoc_L (++)). unfold payload. rewrite take_drop.
      change REC_HEADER_LEN with (4 + 4). by rewrite <-drop_drop, !take_drop. }
    rewrite (parse_framed _ _ _ _ Hd Hlt Hne) in H. destruct (decode_payload payload) as [rec'|] eqn:Hp; [|done].
    injection H as -> <-. apply decode_payload_inl in Hp as [Hok ->]. exists (framed (payload_of rec)), suf. split_and!; try done.
    rewrite encode_rec_frame by done. by apply frame_Some.
  - intros (bytes & suf & Hok & He & -> & Hd). rewrite encode_rec_frame in He by done. apply frame_Some in He as [Hlt ->].
    rewrite (parse_framed _ _ _ _ Hd Hlt (payload_nonempty rec)).
    by rewrite (proj2 (decode_payload_inl _ _) (conj Hok eq_refl)).
Qed.
End framing.
