(* ===== verification/Engine.v ===== *)
(** * The engine: [crates/engine/src/engine.rs]

    One definition per method of [impl Engine].  [&mut self] is state passing
    ([Engine → Engine]); a method that also takes [&mut Outbox] works on the
    pair of the engine and the replies queued so far ([St]).  [while] and
    [loop] carry fuel; the files Dispatch and Tick show the fuel is enough. *)

From S2P Require Import Prelude Ms Proto Stats Model.
From stdpp Require Import options.

Definition SAFETY_MARGIN : Nanos := NANOS_PER_SEC.
Definition DEFAULT_TUBE : TubeId := 0.

Abbreviation St := (Engine * Outbox)%type.

(** [x as u64] for a signed [x]; [delay as Nanos * NANOS_PER_SEC]. *)
Definition as_u64 (z : Z) : N := Z.to_N (z `mod` 2 ^ 64).
Definition secs (n : N) : Nanos := wrap64 (n * NANOS_PER_SEC).

(** ** Field access and update *)
Definition tube (e : Engine) (id : TubeId) : option TubeState := slot (e_tubes e) id.
(** [if let Some(t) = self.tube_mut(id) { f(t) }] and the same for jobs and
    connections. *)
Definition upd_tube (id : TubeId) (f : TubeState → TubeState) (e : Engine) : Engine :=
  e <| e_tubes ::= alter (fmap f) id |>.
Definition upd_job (id : JobId) (f : JobRec → JobRec) (e : Engine) : Engine :=
  e <| e_jobs ::= alter f id |>.
Definition upd_conn (id : ConnId) (f : ConnState → ConnState) (e : Engine) : Engine :=
  e <| e_conns ::= alter f id |>.
Definition upd_ct (p : Counts → N) `{!Setter p} (f : N → N) (e : Engine) : Engine :=
  e <| e_ct ::= set_field p f |>.
Definition upd_cc (p : ConnCounts → N) `{!Setter p} (f : N → N) (e : Engine) : Engine :=
  e <| e_cc ::= set_field p f |>.
Definition bump_cmd (p : CmdCounts → N) `{!Setter p} (e : Engine) : Engine :=
  e <| e_cmd ::= set_field p incr64 |>.
Definition decr (n : N) : N := sat_sub n 1.

Definition tube_name (e : Engine) (id : TubeId) : TubeName :=
  match tube e id with Some t => t_name t | None => default_tube end.
Definition use_tube_of (e : Engine) (cid : ConnId) : TubeId :=
  match e_conns e !! cid with Some c => c_use_tube c | None => DEFAULT_TUBE end.

(** ** Replies *)
Definition wants_reply (e : Engine) (cid : ConnId) : bool :=
  match e_local_conns e with None => true | Some l => owns l cid end.
Definition reply (cid : ConnId) (r : Response) (s : St) : St :=
  let '(e, out) := s in
  if wants_reply e cid then (e, out ++ [(cid, r)]) else (e, out).
(** [reply_with]: the reply is built from the current engine. *)
Definition reply_with (cid : ConnId) (build : Engine → Response) (s : St) : St :=
  let '(e, out) := s in
  if wants_reply e cid then (e, out ++ [(cid, build e)]) else (e, out).

(** ** Tubes: slab, names and list order *)
Definition pop {A} (l : list A) : option (A * list A) :=
  x ← last l; Some (x, take (length l - 1) l).

Definition find_or_make_tube (name : TubeName) (e : Engine) : TubeId * Engine :=
  match e_tube_ids e !! name with
  | Some id => (id, e)
  | None =>
      let state := TubeState_new name (ms_len (e_tube_order e)) in
      let '(id, e) :=
        match pop (e_free_tube_ids e) with
        | Some (id, free) =>
            (id, e <| e_free_tube_ids := free |> <| e_tubes ::= <[id := Some state]> |>)
        | None =>
            let e := e <| e_tubes ::= (.++ [Some state]) |> in
            (length (e_tubes e) - 1, e)
        end in
      (id, e <| e_tube_ids ::= <[name := id]> |> <| e_tube_order ::= ms_append id |>)
  end.

Definition gc_tube_if_orphan (id : TubeId) (e : Engine) : Engine :=
  if (id =? DEFAULT_TUBE)%nat then e
  else
    match tube e id with
    | None => e
    | Some t =>
        if (refs t =? 0)%N then
          let e := e <| e_tubes ::= <[id := None]> |> in
          let e := e <| e_tube_ids ::= delete (t_name t) |> in
          let e := if (0 <? t_pause t)%N
                   then e <| e_pauses ::= (.∖ {[ (t_unpause_at t, id) ]}) |> else e in
          let e := match t_delay_head t with
                   | Some d => e <| e_delay_heads ::= (.∖ {[ (d, id) ]}) |>
                   | None => e
                   end in
          let e := if t_dispatchable t
                   then e <| e_dispatchable ::= (.∖ {[ id ]}) |> else e in
          let e := match ms_remove_at (t_pos t) (e_tube_order e) with
                   | Some (_, order) => e <| e_tube_order := order |>
                   | None => e
                   end in
          let e := match ms_items (e_tube_order e) !! t_pos t with
                   | Some moved => upd_tube moved (λ m, m <| t_pos := t_pos t |>) e
                   | None => e
                   end in
          e <| e_free_tube_ids ::= (.++ [id]) |>
        else e
    end.

(** ** Index maintenance *)
Definition refresh_dispatchable (id : TubeId) (e : Engine) : Engine :=
  match tube e id with
  | None => e
  | Some t =>
      let want := negb (ms_is_empty (t_waiting_conns t)) && negb (bool_decide (t_ready t = ∅)) in
      if eqb want (t_dispatchable t) then e
      else
        let e := upd_tube id (λ t, t <| t_dispatchable := want |>) e in
        if want then e <| e_dispatchable ::= ({[ id ]} ∪.) |>
        else e <| e_dispatchable ::= (.∖ {[ id ]}) |>
  end.

Definition delay_head_of (t : TubeState) : option Nanos := fst <$> bt_first (t_delayed t).
Definition refresh_delay_head (id : TubeId) (e : Engine) : Engine :=
  match tube e id with
  | None => e
  | Some t =>
      let head := delay_head_of t in
      if bool_decide (head = t_delay_head t) then e
      else
        let e := match t_delay_head t with
                 | Some old => e <| e_delay_heads ::= (.∖ {[ (old, id) ]}) |>
                 | None => e
                 end in
        let e := match head with
                 | Some new => e <| e_delay_heads ::= ({[ (new, id) ]} ∪.) |>
                 | None => e
                 end in
        upd_tube id (λ t, t <| t_delay_head := head |>) e
  end.

(** [conntickat]: when the connection next needs attention. *)
Definition conn_tickat (c : ConnState) : option Nanos :=
  let margin : Z := if c_waiting c then Z.of_N SAFETY_MARGIN else 0%Z in
  let t : option Z :=
    match soonest_reserved c with
    | Some (deadline, _) => Some (Z.of_N deadline - margin)%Z
    | None => None
    end in
  let t : option Z :=
    if c_waiting c then
      match c_wait_deadline c with
      | Some wd =>
          Some (match t with Some v => Z.min v (Z.of_N wd) | None => Z.of_N wd end)
      | None => t
      end
    else t in
  (λ v, as_u64 (Z.max v 0)) <$> t.

Definition refresh_conn_tick (cid : ConnId) (e : Engine) : Engine :=
  match e_conns e !! cid with
  | None => e
  | Some c =>
      let new := conn_tickat c in
      if bool_decide (new = c_tick_key c) then e
      else
        let e := match c_tick_key c with
                 | Some old => e <| e_conn_ticks ::= (.∖ {[ (old, cid) ]}) |>
                 | None => e
                 end in
        let e := match new with
                 | Some n => e <| e_conn_ticks ::= ({[ (n, cid) ]} ∪.) |>
                 | None => e
                 end in
        upd_conn cid (λ c, c <| c_tick_key := new |>) e
  end.

Fixpoint clear_pauses_loop (fuel : nat) (now : Nanos) (e : Engine) : Engine :=
  match fuel with
  | O => e
  | S fuel =>
      match bt_first (e_pauses e) with
      | None => e
      | Some (at_, id) =>
          if (now <? at_)%N then e
          else
            let e := e <| e_pauses ::= (.∖ {[ (at_, id) ]}) |> in
            let e := upd_tube id (λ t, t <| t_pause := 0%N |>) e in
            clear_pauses_loop fuel now e
      end
  end.
Definition clear_expired_pauses (now : Nanos) (e : Engine) : Engine :=
  clear_pauses_loop (size (e_pauses e)) now e.

(** ** Job transitions *)
Definition is_urgent (pri : N) : bool := (pri <? URGENT_THRESHOLD)%N.

Definition insert_ready (id_tube : TubeId) (id : JobId) (e : Engine) : Engine :=
  match e_jobs e !! id with
  | None => e
  | Some j =>
      let pri := j_pri j in
      let e := upd_job id (λ j, j <| j_state := JobState.Ready |> <| j_reserver := None |>) e in
      let e := upd_tube id_tube (λ t,
                 let t := t <| t_ready ::= ({[ (pri, id) ]} ∪.) |> in
                 if is_urgent pri then t <| t_stat ::= set_field ts_urgent_ct incr64 |> else t) e in
      let e := upd_ct ready_ct incr64 e in
      let e := if is_urgent pri then upd_ct urgent_ct incr64 e else e in
      refresh_dispatchable id_tube e
  end.

Definition remove_ready (id_tube : TubeId) (id : JobId) (e : Engine) : Engine :=
  let pri := match e_jobs e !! id with Some j => j_pri j | None => 0%N end in
  let e := upd_tube id_tube (λ t,
             let t := t <| t_ready ::= (.∖ {[ (pri, id) ]}) |> in
             if is_urgent pri then t <| t_stat ::= set_field ts_urgent_ct decr |> else t) e in
  let e := upd_ct ready_ct decr e in
  let e := if is_urgent pri then upd_ct urgent_ct decr e else e in
  refresh_dispatchable id_tube e.

Definition insert_delayed (id_tube : TubeId) (id : JobId) (deadline : Nanos) (e : Engine) : Engine :=
  let e := upd_job id (λ j, j <| j_state := JobState.Delayed |> <| j_reserver := None |>
                              <| j_deadline_at := deadline |>) e in
  let e := match tube e id_tube with
           | Some t =>
               let inserted := bool_decide ((deadline, id) ∉ t_delayed t) in
               let e := upd_tube id_tube (λ t, t <| t_delayed ::= ({[ (deadline, id) ]} ∪.) |>) e in
               if inserted then upd_ct delayed_ct incr64 e else e
           | None => e
           end in
  refresh_delay_head id_tube e.

Definition remove_delayed (id_tube : TubeId) (id : JobId) (e : Engine) : Engine :=
  let deadline := match e_jobs e !! id with Some j => j_deadline_at j | None => 0%N end in
  let e := match tube e id_tube with
           | Some t =>
               let removed := bool_decide ((deadline, id) ∈ t_delayed t) in
               let e := upd_tube id_tube (λ t, t <| t_delayed ::= (.∖ {[ (deadline, id) ]}) |>) e in
               if removed then upd_ct delayed_ct decr e else e
           | None => e
           end in
  refresh_delay_head id_tube e.

Definition insert_buried (id_tube : TubeId) (id : JobId) (e : Engine) : Engine :=
  let seq := e_next_list_seq e in
  let e := e <| e_next_list_seq ::= incr64 |> in
  let e := upd_job id (λ j, j <| j_state := JobState.Buried |> <| j_reserver := None |>
                              <| j_bury_ct ::= incr32 |> <| j_list_seq := seq |>) e in
  let e := upd_tube id_tube (λ t, t <| t_buried ::= <[seq := id]> |>
                                    <| t_stat ::= set_field ts_buried_ct incr64 |>) e in
  upd_ct buried_ct incr64 e.

(** [remove_buried]: any buried job, looked up by its key and checked by id. *)
Definition remove_buried (id_tube : TubeId) (id : JobId) (e : Engine) : bool * Engine :=
  match e_jobs e !! id, tube e id_tube with
  | Some j, Some t =>
      let seq := j_list_seq j in
      if bool_decide (t_buried t !! seq = Some id) then
        let e := upd_tube id_tube (λ t, t <| t_buried ::= delete seq |>
                                          <| t_stat ::= set_field ts_buried_ct decr |>) e in
        (true, upd_ct buried_ct decr e)
      else (false, e)
  | _, _ => (false, e)
  end.

Definition pop_buried_front (id_tube : TubeId) (e : Engine) : option JobId * Engine :=
  match tube e id_tube with
  | None => (None, e)
  | Some t =>
      match bm_first (t_buried t) with
      | None => (None, e)
      | Some (seq, id) =>
          let e := upd_tube id_tube (λ t, t <| t_buried ::= delete seq |>
                                            <| t_stat ::= set_field ts_buried_ct decr |>) e in
          (Some id, upd_ct buried_ct decr e)
      end
  end.

Definition do_reserve (cid : ConnId) (job_id : JobId) (now : Nanos) (e : Engine) : Engine :=
  match e_jobs e !! job_id with
  | None => e
  | Some j =>
      let id_tube := j_tube j in
      let deadline := sat_add64 now (secs (j_ttr j)) in
      let seq := e_next_list_seq e in
      let e := e <| e_next_list_seq ::= incr64 |> in
      let e := upd_job job_id (λ j, j <| j_state := JobState.Reserved |> <| j_reserver := Some cid |>
                 <| j_deadline_at := deadline |> <| j_reserve_ct ::= incr32 |>
                 <| j_list_seq := seq |>) e in
      let e := upd_conn cid (λ c, c <| c_reserved ::= <[seq := job_id]> |>
                 <| c_reserved_by_deadline ::= ({[ (deadline, job_id) ]} ∪.) |>) e in
      let e := upd_ct reserved_ct incr64 e in
      let e := upd_tube id_tube (λ t, t <| t_stat ::= set_field ts_reserved_ct incr64 |>) e in
      refresh_conn_tick cid e
  end.

Definition do_unreserve (cid : ConnId) (job_id : JobId) (e : Engine) : Engine :=
  let '(deadline, seq, id_tube) :=
    match e_jobs e !! job_id with
    | Some j => (j_deadline_at j, Some (j_list_seq j), Some (j_tube j))
    | None => (0%N, None, None)
    end in
  let e := upd_job job_id (λ j, j <| j_reserver := None |>) e in
  let e := upd_conn cid (λ c,
             let c := match seq with
                      | Some seq => if bool_decide (c_reserved c !! seq = Some job_id)
                                    then c <| c_reserved ::= delete seq |> else c
                      | None => c
                      end in
             c <| c_reserved_by_deadline ::= (.∖ {[ (deadline, job_id) ]}) |>) e in
  let e := upd_ct reserved_ct decr e in
  let e := match id_tube with
           | Some id_tube => upd_tube id_tube (λ t, t <| t_stat ::= set_field ts_reserved_ct decr |>) e
           | None => e
           end in
  refresh_conn_tick cid e.

(** ** Waiting connections *)
Definition wait_step (cid : ConnId) (e : Engine) (t : TubeId) : Engine :=
  refresh_dispatchable t
    (upd_tube t (λ ts, ts <| t_stat ::= set_field ts_waiting_ct incr64 |>
                          <| t_waiting_conns ::= ms_append cid |>) e).
(** [std::mem::take] of the watch list and its restoration cancel out: the
    loop does not read the connection. *)
Definition enqueue_waiting_conn (cid : ConnId) (wait_deadline : option Nanos) (e : Engine) : Engine :=
  match e_conns e !! cid with
  | None => e
  | Some c =>
      let e := upd_conn cid (λ c, c <| c_waiting := true |> <| c_wait_deadline := wait_deadline |>) e in
      let e := upd_ct waiting_ct incr64 e in
      let e := foldl (wait_step cid) e (ms_items (c_watch c)) in
      refresh_conn_tick cid e
  end.

Definition unwait_step (cid : ConnId) (e : Engine) (t : TubeId) : Engine :=
  refresh_dispatchable t
    (upd_tube t (λ ts, ts <| t_stat ::= set_field ts_waiting_ct decr |>
                          <| t_waiting_conns ::= (λ m, (ms_remove cid m).2) |>) e).
Definition do_remove_waiting_conn (cid : ConnId) (e : Engine) : Engine :=
  match e_conns e !! cid with
  | None => e
  | Some c =>
      if c_waiting c then
        let e := upd_conn cid (λ c, c <| c_waiting := false |> <| c_wait_deadline := None |>) e in
        let e := upd_ct waiting_ct decr e in
        let e := foldl (unwait_step cid) e (ms_items (c_watch c)) in
        refresh_conn_tick cid e
      else e
  end.

(** ** Dispatch *)
Definition reserved_reply (id : JobId) (e : Engine) : Response :=
  Response.Reserved id (match e_jobs e !! id with Some j => j_body j | None => [] end).

(** One step of the scan for the best ready job over the dispatchable tubes. *)
Definition better (e : Engine) (best : option (N * JobId * TubeId)) (tid : TubeId)
    : option (N * JobId * TubeId) :=
  match tube e tid with
  | None => best
  | Some t =>
      if (0 <? t_pause t)%N then best
      else
        match bt_first (t_ready t) with
        | None => best
        | Some (pri, id) =>
            match best with
            | None => Some (pri, id, tid)
            | Some (bp, bid, _) =>
                if decide ((pri, id) ≺ (bp, bid)) then Some (pri, id, tid) else best
            end
        end
  end.
Definition best_ready (e : Engine) : option (N * JobId * TubeId) :=
  foldl (better e) None (bt_iter (e_dispatchable e)).

(** One iteration of the loop of [process_queue] for the best job. *)
Definition dispatch (now : Nanos) (id : JobId) (id_tube : TubeId) (s : St) : St :=
  let '(e, out) := s in
  let e := remove_ready id_tube id e in
  let '(taken, e) :=
    match tube e id_tube with
    | Some t => ((ms_take (t_waiting_conns t)).1,
                 upd_tube id_tube (λ t, t <| t_waiting_conns := (ms_take (t_waiting_conns t)).2 |>) e)
    | None => (None, e)
    end in
  let e := refresh_dispatchable id_tube e in
  match taken with
  | None => (e, out)
  | Some cid =>
      let e := do_remove_waiting_conn cid e in
      let e := do_reserve cid id now e in
      reply_with cid (reserved_reply id) (e, out)
  end.

Fixpoint process_queue_loop (fuel : nat) (now : Nanos) (s : St) : St :=
  match fuel with
  | O => s
  | S fuel =>
      match best_ready s.1 with
      | None => s
      | Some (_, id, id_tube) => process_queue_loop fuel now (dispatch now id id_tube s)
      end
  end.
(** Entries of all ready sets, and of all delayed sets: the fuel. *)
Definition total_ready (T : list (option TubeState)) : nat :=
  sum_list_with (λ o, match o with Some t => size (t_ready t) | None => 0 end) T.
Definition total_delayed (T : list (option TubeState)) : nat :=
  sum_list_with (λ o, match o with Some t => size (t_delayed t) | None => 0 end) T.
Definition process_queue (now : Nanos) (s : St) : St :=
  let '(e, out) := s in
  let e := clear_expired_pauses now e in
  process_queue_loop (S (total_ready (e_tubes e))) now (e, out).

(** ** Deadlines *)
(** [soonest_delayed_job]: smallest deadline, ties by position in the tube
    list. *)
Definition earlier_tube (e : Engine) (best : option (nat * TubeId)) (p : Nanos * TubeId)
    : option (nat * TubeId) :=
  match tube e p.2 with
  | None => best
  | Some t =>
      match best with
      | None => Some (t_pos t, p.2)
      | Some (pos, _) => if (t_pos t <? pos)%nat then Some (t_pos t, p.2) else best
      end
  end.
Definition soonest_delayed_job (e : Engine) : option (Nanos * TubeId * JobId) :=
  '(deadline, _) ← bt_first (e_delay_heads e);
  '(_, id_tube) ← foldl (earlier_tube e) None
                    (filter (λ p, p.1 = deadline) (bt_iter (e_delay_heads e)));
  t ← tube e id_tube;
  '(d, id) ← bt_first (t_delayed t);
  Some (d, id_tube, id).

Definition conn_deadline_soon (e : Engine) (cid : ConnId) (now : Nanos) : bool :=
  match e_conns e !! cid with
  | None => false
  | Some c =>
      match soonest_reserved c with
      | Some (deadline, _) => (sat_sub deadline SAFETY_MARGIN <=? now)%N
      | None => false
      end
  end.

Definition conn_ready (e : Engine) (cid : ConnId) : bool :=
  match e_conns e !! cid with
  | None => false
  | Some c =>
      existsb (λ t, match tube e t with
                    | Some ts => negb (bool_decide (t_ready ts = ∅))
                    | None => false
                    end) (ms_items (c_watch c))
  end.

(** The [while] loop of [conn_timeout]: reserved jobs whose TTR has passed. *)
Fixpoint expire_loop (fuel : nat) (cid : ConnId) (now : Nanos) (s : St) : St :=
  match fuel with
  | O => s
  | S fuel =>
      let '(e, out) := s in
      match e_conns e !! cid ≫= soonest_reserved with
      | None => s
      | Some (deadline, job_id) =>
          if (now <=? deadline)%N then s
          else
            let id_tube := j_tube <$> e_jobs e !! job_id in
            let e := do_unreserve cid job_id e in
            let e := upd_ct timeout_ct incr64 e in
            let e := upd_job job_id (λ j, j <| j_timeout_ct ::= incr32 |>) e in
            let e := match id_tube with Some t => insert_ready t job_id e | None => e end in
            expire_loop fuel cid now (process_queue now (e, out))
      end
  end.

Definition reserved_size (e : Engine) (cid : ConnId) : nat :=
  match e_conns e !! cid with Some c => size (c_reserved_by_deadline c) | None => 0 end.
Definition conn_waiting (e : Engine) (cid : ConnId) : bool :=
  match e_conns e !! cid with Some c => c_waiting c | None => false end.

Definition conn_timeout (cid : ConnId) (now : Nanos) (s : St) : St :=
  let '(e, out) := expire_loop (S (reserved_size s.1 cid)) cid now s in
  let waiting := conn_waiting e cid in
  if waiting && conn_deadline_soon e cid now then
    reply cid Response.DeadlineSoon (do_remove_waiting_conn cid e, out)
  else if waiting then
    let expired :=
      match e_conns e !! cid ≫= c_wait_deadline with
      | Some wd => (wd <=? now)%N
      | None => false
      end in
    if expired then reply cid Response.TimedOut (do_remove_waiting_conn cid e, out)
    else (e, out)
  else (e, out).

Definition next_deadline (e : Engine) : option Nanos :=
  let firsts := omap id [fst <$> bt_first (e_delay_heads e); fst <$> bt_first (e_pauses e);
                         fst <$> bt_first (e_conn_ticks e)] in
  match firsts with [] => None | d :: ds => Some (foldl N.min d ds) end.

(** ** Journal *)
Definition job_record (j : JobRec) : JobRecord :=
  let '(state, deadline_at) :=
    match j_state j with
    | JobState.Delayed => (RecordState.Delayed, j_deadline_at j)
    | JobState.Buried => (RecordState.Buried, 0%N)
    | JobState.Ready | JobState.Reserved => (RecordState.Ready, 0%N)
    end in
  mkJobRecord (j_id j) (j_pri j) (j_delay j) (j_ttr j) (j_created_at j) deadline_at state
    (j_reserve_ct j) (j_timeout_ct j) (j_release_ct j) (j_bury_ct j) (j_kick_ct j).

Definition journal_put (id : JobId) (e : Engine) : Engine :=
  if cfg_journal (e_cfg e) then
    match e_jobs e !! id with
    | Some j =>
        e <| e_journal ::= (.++ [JournalEntry.Put (job_record j) (tube_name e (j_tube j)) (j_body j)]) |>
    | None => e
    end
  else e.
Definition journal_update (id : JobId) (e : Engine) : Engine :=
  if cfg_journal (e_cfg e) then
    match e_jobs e !! id with
    | Some j => e <| e_journal ::= (.++ [JournalEntry.Update (job_record j)]) |>
    | None => e
    end
  else e.
Definition journal_delete (id : JobId) (e : Engine) : Engine :=
  if cfg_journal (e_cfg e) then e <| e_journal ::= (.++ [JournalEntry.Delete id]) |> else e.

(** ** Small helpers of the commands *)
Definition connsetproducer (cid : ConnId) (e : Engine) : Engine :=
  match e_conns e !! cid with
  | Some c =>
      if c_is_producer c then e
      else upd_cc cur_producers incr32 (upd_conn cid (λ c, c <| c_is_producer := true |>) e)
  | None => e
  end.
Definition connsetworker (cid : ConnId) (e : Engine) : Engine :=
  match e_conns e !! cid with
  | Some c =>
      if c_is_worker c then e
      else upd_cc cur_workers incr32 (upd_conn cid (λ c, c <| c_is_worker := true |>) e)
  | None => e
  end.

Definition kick_to_ready (id_tube : TubeId) (id : JobId) (now : Nanos) (s : St) : St :=
  let '(e, out) := s in
  let e := upd_job id (λ j, j <| j_kick_ct ::= incr32 |>) e in
  let e := insert_ready id_tube id e in
  let e := journal_update id e in
  process_queue now (e, out).

(** [reserved_by]: the tube of [id] if [cid] holds its reservation. *)
Definition reserved_by (e : Engine) (cid : ConnId) (id : JobId) : option TubeId :=
  match e_jobs e !! id with
  | Some j =>
      if bool_decide (j_reserver j = Some cid) && bool_decide (j_state j = JobState.Reserved)
      then Some (j_tube j) else None
  | None => None
  end.

Definition body_of (e : Engine) (id : JobId) : Bytes :=
  match e_jobs e !! id with Some j => j_body j | None => [] end.
Definition peek_used_tube (cid : ConnId) (pick : TubeState → option JobId) (e : Engine) : Response :=
  match tube e (use_tube_of e cid) ≫= pick with
  | Some id => Response.Found id (body_of e id)
  | None => Response.NotFound
  end.

(** ** Stats *)
Definition tube_names (e : Engine) : list TubeName := tube_name e <$> ms_items (e_tube_order e).
Definition watched_tube_names (e : Engine) (cid : ConnId) : list TubeName :=
  match e_conns e !! cid with
  | Some c => tube_name e <$> ms_items (c_watch c)
  | None => []
  end.

Definition whole_secs (z : Z) : N := as_u64 (Z.max (z `quot` Z.of_N NANOS_PER_SEC) 0).
Definition build_stats_job (e : Engine) (id : JobId) (now : Nanos) : option StatsJob :=
  j ← e_jobs e !! id;
  let time_left :=
    match j_state j with
    | JobState.Reserved | JobState.Delayed =>
        whole_secs (Z.of_N (j_deadline_at j) - Z.of_N now)
    | _ => 0%N
    end in
  let age := whole_secs (Z.of_N now - Z.of_N (j_created_at j)) in
  Some (mkStatsJob (j_id j) (tube_name e (j_tube j)) (state_name (j_state j)) (j_pri j) age
          (j_delay j) (j_ttr j) time_left (j_file j) (j_reserve_ct j) (j_timeout_ct j)
          (j_release_ct j) (j_bury_ct j) (j_kick_ct j)).

Definition stats_tube_of (t : TubeState) (now : Nanos) : StatsTube :=
  let pause_time_left :=
    if (0 <? t_pause t)%N then (sat_sub (t_unpause_at t) now `div` NANOS_PER_SEC)%N else 0%N in
  mkStatsTube (t_name t) (ts_urgent_ct (t_stat t)) (N.of_nat (size (t_ready t)))
    (ts_reserved_ct (t_stat t)) (N.of_nat (size (t_delayed t))) (ts_buried_ct (t_stat t))
    (ts_total_jobs_ct (t_stat t)) (t_using_ct t) (t_watching_ct t) (ts_waiting_ct (t_stat t))
    (ts_total_delete_ct (t_stat t)) (ts_pause_ct (t_stat t))
    (t_pause t `div` NANOS_PER_SEC)%N pause_time_left.
Definition build_stats_tube (e : Engine) (name : TubeName) (now : Nanos) : option StatsTube :=
  id ← e_tube_ids e !! name; t ← tube e id; Some (stats_tube_of t now).

Definition build_stats_server (e : Engine) (now : Nanos) : StatsServer :=
  let ct := e_ct e in let cc := e_cc e in let n := e_cmd e in
  let snap := e_sys e in let bl := e_binlog e in
  mkStatsServer (urgent_ct ct) (ready_ct ct) (reserved_ct ct) (delayed_ct ct) (buried_ct ct)
    (n_cmd_put n) (n_cmd_peek n) (n_cmd_peek_ready n) (n_cmd_peek_delayed n) (n_cmd_peek_buried n)
    (n_cmd_reserve n) (n_cmd_reserve_with_timeout n) (n_cmd_delete n) (n_cmd_release n)
    (n_cmd_use n) (n_cmd_watch n) (n_cmd_ignore n) (n_cmd_bury n) (n_cmd_kick n) (n_cmd_touch n)
    (n_cmd_stats n) (n_cmd_stats_job n) (n_cmd_stats_tube n) (n_cmd_list_tubes n)
    (n_cmd_list_tube_used n) (n_cmd_list_tubes_watched n) (n_cmd_pause_tube n)
    (timeout_ct ct) (total_jobs_ct ct) (cfg_max_job_size (e_cfg e))
    (N.of_nat (ms_len (e_tube_order e))) (cur_conns cc) (cur_producers cc) (cur_workers cc)
    (waiting_ct ct) (tot_conns cc) (sys_pid snap) (sys_version snap)
    (sys_rusage_utime snap) (sys_rusage_stime snap)
    (sat_sub now (e_start e) `div` NANOS_PER_SEC)%N
    (bl_oldest_index bl) (bl_current_index bl) (bl_records_migrated bl) (bl_records_written bl)
    (cfg_binlog_max_size (e_cfg e)) (e_draining e) (sys_id snap) (sys_hostname snap)
    (sys_os snap) (sys_platform snap).

(** ** Commands *)
(** The put's id and creation time: those of [put_started] when it ran. *)
Definition put_id (now : Nanos) (cid : ConnId) (e : Engine) : JobId * Nanos * Engine :=
  let pending := e_conns e !! cid ≫= c_pending_put in
  let e := upd_conn cid (λ c, c <| c_pending_put := None |>) e in
  match pending with
  | Some (mkPendingPut (Some id) created_at) => (id, created_at, e)
  | _ =>
      let e := bump_cmd n_cmd_put e in
      let e := connsetproducer cid e in
      (e_next_job_id e, now, e <| e_next_job_id ::= incr64 |>)
  end.

Definition cmd_put (now : Nanos) (cid : ConnId) (pri delay ttr : N) (body : Bytes) (s : St) : St :=
  let '(e, out) := s in
  let ttr := N.max ttr 1 in
  let '(id, created_at, e) := put_id now cid e in
  if e_draining e then reply cid Response.Draining (e, out)
  else
    let id_tube := use_tube_of e cid in
    let job := mkJobRec id id_tube pri delay ttr body created_at 0 JobState.Ready None 0 0 0 0 0 0
                 (if cfg_journal (e_cfg e) then bl_current_index (e_binlog e) else 0%N) in
    let e := e <| e_jobs ::= <[id := job]> |> in
    let e := upd_tube id_tube (λ t, t <| t_job_ref_ct ::= incr64 |>) e in
    let e := if (0 <? delay)%N then insert_delayed id_tube id (sat_add64 now (secs delay)) e
             else insert_ready id_tube id e in
    let e := journal_put id e in
    let '(e, out) := process_queue now (e, out) in
    let e := upd_ct total_jobs_ct incr64 e in
    let e := upd_tube id_tube (λ t, t <| t_stat ::= set_field ts_total_jobs_ct incr64 |>) e in
    reply cid (Response.Inserted id) (e, out).

Definition cmd_use (cid : ConnId) (name : TubeName) (s : St) : St :=
  let '(e, out) := s in
  let e := bump_cmd n_cmd_use e in
  let '(new, e) := find_or_make_tube name e in
  let old := use_tube_of e cid in
  let e :=
    if (old =? new)%nat then e
    else
      let e := upd_tube old (λ t, t <| t_using_ct ::= decr |>) e in
      let e := gc_tube_if_orphan old e in
      let e := upd_tube new (λ t, t <| t_using_ct ::= incr32 |>) e in
      upd_conn cid (λ c, c <| c_use_tube := new |>) e in
  reply cid (Response.Using name) (e, out).

Definition watch_count (e : Engine) (cid : ConnId) : N :=
  match e_conns e !! cid with Some c => N.of_nat (ms_len (c_watch c)) | None => 0%N end.

Definition cmd_watch (cid : ConnId) (name : TubeName) (s : St) : St :=
  let '(e, out) := s in
  let e := bump_cmd n_cmd_watch e in
  let '(tid, e) := find_or_make_tube name e in
  let already := match e_conns e !! cid with Some c => ms_contains tid (c_watch c) | None => true end in
  let e :=
    if already then e
    else upd_tube tid (λ t, t <| t_watching_ct ::= incr32 |>)
           (upd_conn cid (λ c, c <| c_watch ::= ms_append tid |>) e) in
  reply cid (Response.Watching (watch_count e cid)) (e, out).

Definition cmd_ignore (cid : ConnId) (name : TubeName) (s : St) : St :=
  let '(e, out) := s in
  let e := bump_cmd n_cmd_ignore e in
  let tid := e_tube_ids e !! name in
  let watching_it :=
    match tid, e_conns e !! cid with
    | Some tid, Some c => ms_contains tid (c_watch c)
    | _, _ => false
    end in
  if watching_it && (watch_count e cid <? 2)%N then reply cid Response.NotIgnored (e, out)
  else
    let e :=
      match watching_it, tid with
      | true, Some tid =>
          let e := upd_conn cid (λ c, c <| c_watch ::= (λ m, (ms_remove tid m).2) |>) e in
          let e := upd_tube tid (λ t, t <| t_watching_ct ::= decr |>) e in
          gc_tube_if_orphan tid e
      | _, _ => e
      end in
    reply cid (Response.Watching (watch_count e cid)) (e, out).

Definition cmd_reserve (now : Nanos) (cid : ConnId) (timeout : option N) (s : St) : St :=
  let '(e, out) := s in
  let e := match timeout with
           | None => bump_cmd n_cmd_reserve e
           | Some _ => bump_cmd n_cmd_reserve_with_timeout e
           end in
  let e := connsetworker cid e in
  if conn_deadline_soon e cid now && negb (conn_ready e cid)
  then reply cid Response.DeadlineSoon (e, out)
  else
    let wait_deadline := (λ t, sat_add64 now (secs t)) <$> timeout in
    let e := enqueue_waiting_conn cid wait_deadline e in
    let '(e, out) := process_queue now (e, out) in
    if bool_decide (timeout = Some 0%N) && conn_waiting e cid then
      let soon := conn_deadline_soon e cid now in
      let e := do_remove_waiting_conn cid e in
      reply cid (if soon then Response.DeadlineSoon else Response.TimedOut) (e, out)
    else (e, out).

Definition cmd_reserve_job (now : Nanos) (cid : ConnId) (id : JobId) (s : St) : St :=
  let '(e, out) := s in
  match e_jobs e !! id with
  | None => reply cid Response.NotFound (e, out)
  | Some j =>
      let take e := reply_with cid (reserved_reply id)
                      (do_reserve cid id now (connsetworker cid e), out) in
      match j_state j with
      | JobState.Reserved => reply cid Response.NotFound (e, out)
      | JobState.Ready => take (remove_ready (j_tube j) id e)
      | JobState.Buried => take (remove_buried (j_tube j) id e).2
      | JobState.Delayed => take (remove_delayed (j_tube j) id e)
      end
  end.

Definition cmd_delete (cid : ConnId) (id : JobId) (s : St) : St :=
  let '(e, out) := s in
  let e := bump_cmd n_cmd_delete e in
  match e_jobs e !! id with
  | None => reply cid Response.NotFound (e, out)
  | Some j =>
      let id_tube := j_tube j in
      let '(ok, e) :=
        match j_state j with
        | JobState.Reserved =>
            if bool_decide (j_reserver j = Some cid) then (true, do_unreserve cid id e)
            else (false, e)
        | JobState.Ready => (true, remove_ready id_tube id e)
        | JobState.Buried => (true, (remove_buried id_tube id e).2)
        | JobState.Delayed => (true, remove_delayed id_tube id e)
        end in
      if ok then
        let e := upd_tube id_tube (λ t, t <| t_stat ::= set_field ts_total_delete_ct incr64 |>
                                          <| t_job_ref_ct ::= decr |>) e in
        let e := e <| e_jobs ::= delete id |> in
        let e := journal_delete id e in
        let e := gc_tube_if_orphan id_tube e in
        reply cid Response.Deleted (e, out)
      else reply cid Response.NotFound (e, out)
  end.

Definition cmd_release (now : Nanos) (cid : ConnId) (id : JobId) (pri delay : N) (s : St) : St :=
  let '(e, out) := s in
  let e := bump_cmd n_cmd_release e in
  match reserved_by e cid id with
  | None => reply cid Response.NotFound (e, out)
  | Some id_tube =>
      let e := do_unreserve cid id e in
      let e := upd_job id (λ j, j <| j_pri := pri |> <| j_delay := delay |>
                                  <| j_release_ct ::= incr32 |>) e in
      let e := if (0 <? delay)%N
               then journal_update id (insert_delayed id_tube id (sat_add64 now (secs delay)) e)
               else insert_ready id_tube id e in
      reply cid Response.Released (process_queue now (e, out))
  end.

Definition cmd_bury (cid : ConnId) (id : JobId) (pri : N) (s : St) : St :=
  let '(e, out) := s in
  let e := bump_cmd n_cmd_bury e in
  match reserved_by e cid id with
  | None => reply cid Response.NotFound (e, out)
  | Some id_tube =>
      let e := do_unreserve cid id e in
      let e := upd_job id (λ j, j <| j_pri := pri |>) e in
      let e := insert_buried id_tube id e in
      let e := journal_update id e in
      reply cid Response.Buried (e, out)
  end.

Definition cmd_touch (now : Nanos) (cid : ConnId) (id : JobId) (s : St) : St :=
  let '(e, out) := s in
  let e := bump_cmd n_cmd_touch e in
  match reserved_by e cid id with
  | None => reply cid Response.NotFound (e, out)
  | Some _ =>
      let ttr := match e_jobs e !! id with Some j => j_ttr j | None => 1%N end in
      let old_deadline := match e_jobs e !! id with Some j => j_deadline_at j | None => 0%N end in
      let new_deadline := sat_add64 now (secs ttr) in
      let e := upd_job id (λ j, j <| j_deadline_at := new_deadline |>) e in
      let e := upd_conn cid (λ c, c
                 <| c_reserved_by_deadline ::= (.∖ {[ (old_deadline, id) ]}) |>
                 <| c_reserved_by_deadline ::= ({[ (new_deadline, id) ]} ∪.) |>) e in
      let e := refresh_conn_tick cid e in
      reply cid Response.Touched (e, out)
  end.

Definition cmd_peek (cid : ConnId) (id : JobId) (s : St) : St :=
  let '(e, out) := s in
  reply_with cid (λ e, match e_jobs e !! id with
                       | Some j => Response.Found id (j_body j)
                       | None => Response.NotFound
                       end) (bump_cmd n_cmd_peek e, out).
Definition cmd_peek_ready (cid : ConnId) (s : St) : St :=
  let '(e, out) := s in
  reply_with cid (peek_used_tube cid (λ t, snd <$> bt_first (t_ready t)))
    (bump_cmd n_cmd_peek_ready e, out).
Definition cmd_peek_delayed (cid : ConnId) (s : St) : St :=
  let '(e, out) := s in
  reply_with cid (peek_used_tube cid (λ t, snd <$> bt_first (t_delayed t)))
    (bump_cmd n_cmd_peek_delayed e, out).
Definition cmd_peek_buried (cid : ConnId) (s : St) : St :=
  let '(e, out) := s in
  reply_with cid (peek_used_tube cid (λ t, snd <$> bm_first (t_buried t)))
    (bump_cmd n_cmd_peek_buried e, out).

(** The two [for _ in 0..n] loops of [cmd_kick]; they return the count too. *)
Fixpoint kick_buried_loop (n : nat) (id_tube : TubeId) (now : Nanos) (count : N) (s : St) : N * St :=
  match n with
  | O => (count, s)
  | S n =>
      let '(e, out) := s in
      match pop_buried_front id_tube e with
      | (None, e) => (count, (e, out))
      | (Some id, e) =>
          kick_buried_loop n id_tube now (count + 1) (kick_to_ready id_tube id now (e, out))
      end
  end.
Fixpoint kick_delayed_loop (n : nat) (id_tube : TubeId) (now : Nanos) (count : N) (s : St) : N * St :=
  match n with
  | O => (count, s)
  | S n =>
      let '(e, out) := s in
      match tube e id_tube ≫= λ t, bt_first (t_delayed t) with
      | None => (count, s)
      | Some (_, id) =>
          kick_delayed_loop n id_tube now (count + 1)
            (kick_to_ready id_tube id now (remove_delayed id_tube id e, out))
      end
  end.
Definition cmd_kick (now : Nanos) (cid : ConnId) (n : N) (s : St) : St :=
  let '(e, out) := s in
  let e := bump_cmd n_cmd_kick e in
  let id_tube := use_tube_of e cid in
  let has_buried := match tube e id_tube with
                    | Some t => negb (bool_decide (t_buried t = ∅)) | None => false end in
  let '(count, s) :=
    if has_buried then kick_buried_loop (N.to_nat n) id_tube now 0 (e, out)
    else kick_delayed_loop (N.to_nat n) id_tube now 0 (e, out) in
  reply cid (Response.Kicked count) s.

Definition cmd_kick_job (now : Nanos) (cid : ConnId) (id : JobId) (s : St) : St :=
  let '(e, out) := s in
  match e_jobs e !! id with
  | None => reply cid Response.NotFound (e, out)
  | Some j =>
      let id_tube := j_tube j in
      match j_state j with
      | JobState.Buried =>
          reply cid Response.KickedJob
            (kick_to_ready id_tube id now ((remove_buried id_tube id e).2, out))
      | JobState.Delayed =>
          reply cid Response.KickedJob
            (kick_to_ready id_tube id now (remove_delayed id_tube id e, out))
      | _ => reply cid Response.NotFound (e, out)
      end
  end.

Definition cmd_stats_job (now : Nanos) (cid : ConnId) (id : JobId) (s : St) : St :=
  let '(e, out) := s in
  reply_with cid (λ e, match build_stats_job e id now with
                       | Some s => Response.Ok (stats_job_to_yaml s)
                       | None => Response.NotFound
                       end) (bump_cmd n_cmd_stats_job e, out).
Definition cmd_stats_tube (now : Nanos) (cid : ConnId) (name : TubeName) (s : St) : St :=
  let '(e, out) := s in
  reply_with cid (λ e, match build_stats_tube e name now with
                       | Some s => Response.Ok (stats_tube_to_yaml s)
                       | None => Response.NotFound
                       end) (bump_cmd n_cmd_stats_tube e, out).
Definition cmd_stats (now : Nanos) (cid : ConnId) (s : St) : St :=
  let '(e, out) := s in
  reply_with cid (λ e, Response.Ok (stats_server_to_yaml (build_stats_server e now)))
    (bump_cmd n_cmd_stats e, out).
Definition cmd_list_tubes (cid : ConnId) (s : St) : St :=
  let '(e, out) := s in
  reply_with cid (λ e, Response.Ok (yaml_list (tube_names e))) (bump_cmd n_cmd_list_tubes e, out).
Definition cmd_list_tube_used (cid : ConnId) (s : St) : St :=
  let '(e, out) := s in
  reply_with cid (λ e, Response.Using (tube_name e (use_tube_of e cid)))
    (bump_cmd n_cmd_list_tube_used e, out).
Definition cmd_list_tubes_watched (cid : ConnId) (s : St) : St :=
  let '(e, out) := s in
  reply_with cid (λ e, Response.Ok (yaml_list (watched_tube_names e cid)))
    (bump_cmd n_cmd_list_tubes_watched e, out).

Definition cmd_pause_tube (now : Nanos) (cid : ConnId) (name : TubeName) (delay : N) (s : St) : St :=
  let '(e, out) := s in
  let e := bump_cmd n_cmd_pause_tube e in
  match e_tube_ids e !! name with
  | None => reply cid Response.NotFound (e, out)
  | Some tid =>
      let delay_nanos := if (delay =? 0)%N then 1%N else secs delay in
      match tube e tid with
      | None => (e, out)
      | Some t =>
          let unpause_at := sat_add64 now delay_nanos in
          let e := if (0 <? t_pause t)%N
                   then e <| e_pauses ::= (.∖ {[ (t_unpause_at t, tid) ]}) |> else e in
          let e := upd_tube tid (λ t, t <| t_pause := delay_nanos |> <| t_unpause_at := unpause_at |>
                                        <| t_stat ::= set_field ts_pause_ct incr64 |>) e in
          let e := e <| e_pauses ::= ({[ (unpause_at, tid) ]} ∪.) |> in
          reply cid Response.Paused (e, out)
      end
  end.

(** ** The public interface *)
Definition Engine_empty (now : Nanos) (cfg : EngineConfig) (sys : SysSnapshot) : Engine :=
  mkEngine cfg sys now false 1 ∅ 0 [] [] ∅ ms_new ∅ ∅ ∅ ∅ ∅
    (mkCounts 0 0 0 0 0 0 0 0) (mkConnCounts 0 0 0 0)
    (mkCmdCounts 0 0 0 0 0 0 0 0 0 0 0 0 0 0 0 0 0 0 0 0 0 0) [] BinlogStats_default None.
Definition Engine_new (now : Nanos) (cfg : EngineConfig) (sys : SysSnapshot) : Engine :=
  (find_or_make_tube default_tube (Engine_empty now cfg sys)).2.

Definition connect (conn : ConnId) (e : Engine) : Engine :=
  let e := upd_tube DEFAULT_TUBE (λ t, t <| t_using_ct ::= incr32 |>
                                         <| t_watching_ct ::= incr32 |>) e in
  let old := e_conns e !! conn in
  let e := e <| e_conns ::= <[conn := ConnState_new DEFAULT_TUBE]> |> in
  let e := match old ≫= c_tick_key with
           | Some k => e <| e_conn_ticks ::= (.∖ {[ (k, conn) ]}) |>
           | None => e
           end in
  upd_cc tot_conns incr32 (upd_cc cur_conns incr32 e).

(** The loops of [disconnect]: reserved jobs back to ready, oldest first; then
    the watched tubes dereferenced in [ms_clear] order. *)
Definition release_step (conn : ConnId) (now : Nanos) (s : St) (job_id : JobId) : St :=
  let '(e, out) := s in
  let e := do_unreserve conn job_id e in
  let e := match e_jobs e !! job_id with Some j => insert_ready (j_tube j) job_id e | None => e end in
  process_queue now (e, out).
Definition unwatch_step (e : Engine) (t : TubeId) : Engine :=
  gc_tube_if_orphan t (upd_tube t (λ ts, ts <| t_watching_ct ::= decr |>) e).

Definition disconnect (now : Nanos) (conn : ConnId) (s : St) : St :=
  let '(e, out) := s in
  match e_conns e !! conn with
  | None => (e, out)
  | Some _ =>
      let e := do_remove_waiting_conn conn e in
      let reserved := match e_conns e !! conn with Some c => bm_values (c_reserved c) | None => [] end in
      let '(e, out) := foldl (release_step conn now) (e, out) reserved in
      let watched := match e_conns e !! conn with
                     | Some c => (ms_clear_in_delete_order (c_watch c)).1 | None => [] end in
      let e := upd_conn conn (λ c, c <| c_watch ::= (λ m, (ms_clear_in_delete_order m).2) |>) e in
      let e := foldl unwatch_step e watched in
      let e := match e_conns e !! conn with
               | Some c => gc_tube_if_orphan (c_use_tube c)
                             (upd_tube (c_use_tube c) (λ t, t <| t_using_ct ::= decr |>) e)
               | None => e
               end in
      let e :=
        match e_conns e !! conn with
        | Some c =>
            let e := e <| e_conns ::= delete conn |> in
            let e := match c_tick_key c with
                     | Some k => e <| e_conn_ticks ::= (.∖ {[ (k, conn) ]}) |>
                     | None => e
                     end in
            let e := if c_is_producer c then upd_cc cur_producers decr e else e in
            if c_is_worker c then upd_cc cur_workers decr e else e
        | None => e
        end in
      (upd_cc cur_conns decr e, out)
  end.

Definition half_close (conn : ConnId) (s : St) : St :=
  let '(e, out) := s in
  if conn_waiting e conn then reply conn Response.TimedOut (do_remove_waiting_conn conn e, out)
  else (e, out).

Definition put_started (now : Nanos) (conn : ConnId) (too_big : bool) (e : Engine) : Engine :=
  match e_conns e !! conn with
  | None => e
  | Some _ =>
      let e := bump_cmd n_cmd_put e in
      let '(id, e) :=
        if too_big then (None, e)
        else
          let e := connsetproducer conn e in
          (Some (e_next_job_id e), e <| e_next_job_id ::= incr64 |>) in
      upd_conn conn (λ c, c <| c_pending_put := Some (mkPendingPut id now) |>) e
  end.

Definition put_rejected (conn : ConnId) (why : PutRejection) (s : St) : St :=
  let '(e, out) := s in
  match e_conns e !! conn with
  | None => (e, out)
  | Some c =>
      let started := match c_pending_put c with Some _ => true | None => false end in
      let e := upd_conn conn (λ c, c <| c_pending_put := None |>) e in
      let e :=
        if started then e
        else
          let e := bump_cmd n_cmd_put e in
          match why with
          | PutRejection.ExpectedCrlf | PutRejection.OutOfMemory =>
              (connsetproducer conn e) <| e_next_job_id ::= incr64 |>
          | _ => e
          end in
      reply conn (rejection_response why) (e, out)
  end.

Definition handle (now : Nanos) (conn : ConnId) (cmd : Command) (s : St) : St :=
  match e_conns s.1 !! conn with
  | None => s
  | Some _ =>
      match cmd with
      | Command.Put pri delay ttr body => cmd_put now conn pri delay ttr body s
      | Command.Use name => cmd_use conn name s
      | Command.Reserve => cmd_reserve now conn None s
      | Command.ReserveWithTimeout t => cmd_reserve now conn (Some t) s
      | Command.ReserveJob id => cmd_reserve_job now conn id s
      | Command.Delete id => cmd_delete conn id s
      | Command.Release id pri delay => cmd_release now conn id pri delay s
      | Command.Bury id pri => cmd_bury conn id pri s
      | Command.Touch id => cmd_touch now conn id s
      | Command.Watch name => cmd_watch conn name s
      | Command.Ignore name => cmd_ignore conn name s
      | Command.Peek id => cmd_peek conn id s
      | Command.PeekReady => cmd_peek_ready conn s
      | Command.PeekDelayed => cmd_peek_delayed conn s
      | Command.PeekBuried => cmd_peek_buried conn s
      | Command.Kick n => cmd_kick now conn n s
      | Command.KickJob id => cmd_kick_job now conn id s
      | Command.StatsJob id => cmd_stats_job now conn id s
      | Command.StatsTube name => cmd_stats_tube now conn name s
      | Command.Stats => cmd_stats now conn s
      | Command.ListTubes => cmd_list_tubes conn s
      | Command.ListTubeUsed => cmd_list_tube_used conn s
      | Command.ListTubesWatched => cmd_list_tubes_watched conn s
      | Command.Quit => s
      | Command.PauseTube name delay => cmd_pause_tube now conn name delay s
      | Command.PauseTubeBadName =>
          reply conn Response.BadFormat (bump_cmd n_cmd_pause_tube s.1, s.2)
      end
  end.

(** The two loops of [tick]. *)
Fixpoint delayed_loop (fuel : nat) (now : Nanos) (s : St) : St :=
  match fuel with
  | O => s
  | S fuel =>
      let '(e, out) := s in
      match soonest_delayed_job e with
      | None => s
      | Some (deadline, id_tube, id) =>
          if (now <? deadline)%N then s
          else
            let e := remove_delayed id_tube id e in
            let e := insert_ready id_tube id e in
            delayed_loop fuel now (process_queue now (e, out))
      end
  end.

Fixpoint take_while {A} (f : A → bool) (l : list A) : list A :=
  match l with
  | [] => []
  | x :: l => if f x then x :: take_while f l else []
  end.
Definition next_due_conn (now : Nanos) (processed : gset ConnId) (e : Engine) : option ConnId :=
  snd <$> head (filter (λ p, p.2 ∉ processed)
                  (take_while (λ p, (p.1 <=? now)%N) (bt_iter (e_conn_ticks e)))).
Fixpoint timeout_loop (fuel : nat) (now : Nanos) (processed : gset ConnId) (s : St) : St :=
  match fuel with
  | O => s
  | S fuel =>
      match next_due_conn now processed s.1 with
      | None => s
      | Some cid => timeout_loop fuel now ({[ cid ]} ∪ processed) (conn_timeout cid now s)
      end
  end.

(** [tick] after its early return. *)
Definition tick_body (now : Nanos) (s : St) : St :=
  let s := delayed_loop (S (total_delayed (e_tubes s.1))) now s in
  let s := match bt_first (e_pauses s.1) with
           | Some (at_, _) => if (at_ <=? now)%N then process_queue now s else s
           | None => s
           end in
  timeout_loop (S (size (e_conns s.1))) now ∅ s.
Definition tick (now : Nanos) (s : St) : St :=
  match next_deadline s.1 with
  | Some d => if (d <=? now)%N then tick_body now s else s
  | None => s
  end.

Definition set_draining (on : bool) (e : Engine) : Engine := e <| e_draining := on |>.

Definition run_input (now : Nanos) (input : EngineInput) (s : St) : St :=
  match input with
  | EngineInput.Connect c => (connect c s.1, s.2)
  | EngineInput.Disconnect c => disconnect now c s
  | EngineInput.HalfClose c => half_close c s
  | EngineInput.PutStarted c too_big => (put_started now c too_big s.1, s.2)
  | EngineInput.PutRejected c why => put_rejected c why s
  | EngineInput.Command c cmd => handle now c cmd s
  | EngineInput.Tick => s
  | EngineInput.SetDraining on => (set_draining on s.1, s.2)
  end.
Definition apply_input (now : Nanos) (input : EngineInput) (s : St) : St :=
  tick now (run_input now input s).

(** ** Remaining accessors *)
Definition conn_ids (e : Engine) : list ConnId := bt_iter (dom (e_conns e)).
Definition take_journal (buf : list JournalEntry) (e : Engine) : list JournalEntry * Engine :=
  (buf ++ e_journal e, e <| e_journal := [] |>).
Definition set_binlog_stats (b : BinlogStats) (e : Engine) : Engine := e <| e_binlog := b |>.
Definition set_local_conns (l : option LocalConns) (e : Engine) : Engine := e <| e_local_conns := l |>.

Record Snapshot := mkSnapshot { snap_server : StatsServer; snap_tubes : list StatsTube }.
Definition snapshot_limited (e : Engine) (now : Nanos) (max_tubes : nat) : Snapshot :=
  mkSnapshot (build_stats_server e now)
    ((λ t, stats_tube_of t now) <$> omap (tube e) (take max_tubes (ms_items (e_tube_order e)))).

(** A run of inputs with their times, as replayed from the log. *)
Definition run (inputs : list (Nanos * EngineInput)) (s : St) : St :=
  foldl (λ s i, apply_input i.1 i.2 s) s inputs.

(** ** A worked example *)
Definition ex_sys : SysSnapshot := mkSysSnapshot 1 "v" (0, 0)%N (0, 0)%N "id" "host" "os" "p".
Definition ex_new : Engine := Engine_new 0 (mkEngineConfig 65535 1024 true) ex_sys.
Definition ex_sec (n : N) : N := (n * NANOS_PER_SEC)%N.
Example put_wakes_waiting_reserver :
  (run [(0%N, EngineInput.Connect 1); (0%N, EngineInput.Connect 2);
        (1%N, EngineInput.Command 2 Command.Reserve);
        (2%N, EngineInput.Command 1 (Command.Put 10 0 60 (bs "hi")))] (ex_new, [])).2
  = [(2%N, Response.Reserved 1 (bs "hi")); (1%N, Response.Inserted 1)].
Proof. vm_compute. reflexivity. Qed.
Example ttr_expiry_returns_job :
  (run [(0%N, EngineInput.Connect 1);
        (1%N, EngineInput.Command 1 (Command.Put 10 0 1 (bs "hi")));
        (1%N, EngineInput.Command 1 Command.Reserve);
        (ex_sec 3, EngineInput.Tick);
        (ex_sec 3, EngineInput.Command 1 Command.PeekReady)] (ex_new, [])).2
  = [(1%N, Response.Inserted 1); (1%N, Response.Reserved 1 (bs "hi"));
     (1%N, Response.Found 1 (bs "hi"))].
Proof. vm_compute. reflexivity. Qed.
