(* ===== verification/Frames.v ===== *)
(** * Fields that routines leave alone

    [Untouched π]: the view [π] of the engine does not see tubes, changes of
    a connection's state, counts, the dispatch, delay and tick indexes or the list
    keys, and of the jobs at most what a job keeps for life ([stamp]).
    Dispatch and the time loops then leave [π] alone. *)

From S2P Require Import Prelude Ms Proto Stats Model Engine.
From stdpp Require Import options.

(** What a job keeps from its put to its delete. *)
Abbreviation Stamp := (JobId * TubeId * N * Bytes * Nanos)%type.
Definition stamp (j : JobRec) : Stamp := (j_id j, j_tube j, j_ttr j, j_body j, j_created_at j).
Definition stamps (e : Engine) : gmap JobId Stamp := stamp <$> e_jobs e.

Class Untouched {A} (π : Engine → A) : Prop := {
  un_tubes f e : π (e <| e_tubes ::= f |>) = π e;
  un_conn c f e : π (e <| e_conns ::= alter f c |>) = π e;
  un_job id f e : (∀ j, stamp (f j) = stamp j) → π (e <| e_jobs ::= alter f id |>) = π e;
  un_ct f e : π (e <| e_ct ::= f |>) = π e;
  un_disp f e : π (e <| e_dispatchable ::= f |>) = π e;
  un_delay f e : π (e <| e_delay_heads ::= f |>) = π e;
  un_ticks f e : π (e <| e_conn_ticks ::= f |>) = π e;
  un_seq f e : π (e <| e_next_list_seq ::= f |>) = π e;
}.
#[export] Hint Mode Untouched - ! : typeclass_instances.
#[export] Instance untouched_pauses : Untouched e_pauses.
Proof. by split. Qed.
#[export] Instance untouched_local : Untouched e_local_conns.
Proof. by split. Qed.
#[export] Instance untouched_draining : Untouched e_draining.
Proof. by split. Qed.
#[export] Instance untouched_next : Untouched e_next_job_id.
Proof. by split. Qed.
#[export] Instance untouched_cfg : Untouched e_cfg.
Proof. by split. Qed.
#[export] Instance untouched_journal : Untouched e_journal.
Proof. by split. Qed.
#[export] Instance untouched_ids : Untouched e_tube_ids.
Proof. by split. Qed.
#[export] Instance untouched_stamps : Untouched stamps.
Proof.
  split; try done. intros id f e Hf. unfold stamps. cbn. apply map_eq. intros i.
  rewrite !lookup_fmap, lookup_alter. case_decide; [subst|done]. destruct (e_jobs e !! i); simpl; by rewrite ?Hf.
Qed.

(** ** Routines *)
Section routines.
Context {A} (π : Engine → A) `{!Untouched π}.
Implicit Types (e : Engine) (out : Outbox).

Lemma un_upd_tube tid f e : π (upd_tube tid f e) = π e.
Proof using All. apply un_tubes. Qed.
Lemma un_upd_conn cid f e : π (upd_conn cid f e) = π e.
Proof using All. apply un_conn. Qed.
Lemma un_upd_job id f e : (∀ j, stamp (f j) = stamp j) → π (upd_job id f e) = π e.
Proof using All. apply un_job. Qed.
Lemma un_upd_ct p `{!Setter p} f e : π (upd_ct p f e) = π e.
Proof using All. apply un_ct. Qed.
End routines.
Ltac untouched := repeat case_match; repeat progress
  (rewrite ?un_upd_tube, ?un_upd_conn, ?un_upd_job, ?un_upd_ct, ?un_disp, ?un_delay, ?un_ticks, ?un_seq by (apply _ || done));
  try done.

Section more_routines.
Context {A} (π : Engine → A) `{!Untouched π}.
Implicit Types (e : Engine) (out : Outbox).

Lemma un_refresh_disp tid e : π (refresh_dispatchable tid e) = π e.
Proof using All. unfold refresh_dispatchable. untouched. Qed.
Lemma un_refresh_delay tid e : π (refresh_delay_head tid e) = π e.
Proof using All. unfold refresh_delay_head. untouched. Qed.
Lemma un_refresh_tick cid e : π (refresh_conn_tick cid e) = π e.
Proof using All. unfold refresh_conn_tick. untouched. Qed.
Lemma un_insert_ready tid id e : π (insert_ready tid id e) = π e.
Proof using All. unfold insert_ready. case_match; [rewrite un_refresh_disp|]; untouched. Qed.
Lemma un_remove_ready tid id e : π (remove_ready tid id e) = π e.
Proof using All. unfold remove_ready. rewrite un_refresh_disp. untouched. Qed.
Lemma un_insert_delayed tid id d e : π (insert_delayed tid id d e) = π e.
Proof using All. unfold insert_delayed. rewrite un_refresh_delay. untouched. Qed.
Lemma un_remove_delayed tid id e : π (remove_delayed tid id e) = π e.
Proof using All. unfold remove_delayed. rewrite un_refresh_delay. untouched. Qed.
Lemma un_insert_buried tid id e : π (insert_buried tid id e) = π e.
Proof using All. unfold insert_buried. untouched. Qed.
Lemma un_remove_buried tid id e : π (remove_buried tid id e).2 = π e.
Proof using All. unfold remove_buried. repeat case_match; cbn [snd]; untouched. Qed.
Lemma un_pop_buried tid e : π (pop_buried_front tid e).2 = π e.
Proof using All. unfold pop_buried_front. repeat case_match; cbn [snd]; untouched. Qed.
Lemma un_do_reserve cid id now e : π (do_reserve cid id now e) = π e.
Proof using All. unfold do_reserve. case_match; [rewrite un_refresh_tick|]; untouched. Qed.
Lemma un_do_unreserve cid id e : π (do_unreserve cid id e) = π e.
Proof using All. unfold do_unreserve. repeat case_match; rewrite un_refresh_tick; untouched. Qed.
Lemma un_fold (step : Engine → TubeId → Engine) l e : (∀ e t, π (step e t) = π e) → π (foldl step e l) = π e.
Proof using All. intros Hs. revert e. induction l as [|t l IH]; intros e; [done|]. cbn [foldl]. by rewrite IH. Qed.
Lemma un_remove_waiting cid e : π (do_remove_waiting_conn cid e) = π e.
Proof using All.
  unfold do_remove_waiting_conn. repeat case_match; try done. rewrite un_refresh_tick, un_fold; [untouched|].
  intros e' t. unfold unwait_step. rewrite un_refresh_disp. untouched.
Qed.
Lemma un_enqueue_waiting cid wd e : π (enqueue_waiting_conn cid wd e) = π e.
Proof using All.
  unfold enqueue_waiting_conn. repeat case_match; try done. rewrite un_refresh_tick, un_fold; [untouched|].
  intros e' t. unfold wait_step. rewrite un_refresh_disp. untouched.
Qed.
Lemma un_reply cid r (s : St) : π (reply cid r s).1 = π s.1.
Proof using All. unfold reply. destruct s. by case_match. Qed.
Lemma un_reply_with cid f (s : St) : π (reply_with cid f s).1 = π s.1.
Proof using All. unfold reply_with. destruct s. by case_match. Qed.
Lemma un_dispatch now id tid s : π (dispatch now id tid s).1 = π s.1.
Proof using All.
  destruct s as [e out]. unfold dispatch. destruct (tube _ tid) as [t|]; [destruct (ms_take _).1|];
    rewrite ?un_reply_with; cbn [fst];
    by rewrite ?un_do_reserve, ?un_remove_waiting, un_refresh_disp, ?un_upd_tube, un_remove_ready by apply _.
Qed.
Lemma un_process_loop fuel now s : π (process_queue_loop fuel now s).1 = π s.1.
Proof using All.
  revert s. induction fuel as [|fuel IH]; intros s; [done|]. cbn [process_queue_loop].
  destruct (best_ready s.1) as [[[p id] tid]|]; [|done]. by rewrite IH, un_dispatch.
Qed.
End more_routines.

(** ** Views that do not see the pauses either *)
Section process.
Context {A} (π : Engine → A) `{!Untouched π} (Hp : ∀ f e, π (e <| e_pauses ::= f |>) = π e).

Lemma un_clear_loop fuel now e : π (clear_pauses_loop fuel now e) = π e.
Proof using All.
  revert e. induction fuel as [|fuel IH]; intros e; simpl; [done|]. repeat case_match; try done.
  by rewrite IH, un_upd_tube, Hp by apply _.
Qed.
Lemma un_process_queue now s : π (process_queue now s).1 = π s.1.
Proof using All.
  destruct s as [e out]. unfold process_queue, clear_expired_pauses.
  rewrite un_process_loop by apply _. apply un_clear_loop.
Qed.
End process.
