(* ===== verification/Inv.v ===== *)
(** * The engine invariant

    What [Engine::validate] checks, stated component by component: the tube
    registry, the agreement of the job table with the queues of tubes and
    connections, the reference and waiting counts, the time indexes and the
    global counters.  The parts take the engine's components, not the engine,
    so an operation that leaves a component alone preserves its parts by
    conversion.  [Ghost] holds what the parts compare against; at rest it is
    [ghost_of e], between the steps of a command it may run ahead. *)

From S2P Require Import Prelude Ms Proto Model Engine.
From stdpp Require Import options.

(** ** Generic forms *)
Abbreviation Slab := (list (option TubeState)).
Abbreviation Jobs := (gmap JobId JobRec).

Definition each_tube (P : TubeId → TubeState → Prop) (T : Slab) : Prop :=
  ∀ tid t, slot T tid = Some t → P tid t.
Definition live (T : Slab) (tid : TubeId) : Prop := is_Some (slot T tid).
(** An index of the keys [g] gives to tubes, and to connections. *)
Definition tube_index {A} `{Countable A} (g : TubeState → option A) (T : Slab)
    (S : gset (A * TubeId)) : Prop :=
  ∀ k tid, (k, tid) ∈ S ↔ slot T tid ≫= g = Some k.
Definition conn_index (C : gmap ConnId ConnState) (S : gset (Nanos * ConnId)) : Prop :=
  ∀ k cid, (k, cid) ∈ S ↔ C !! cid ≫= c_tick_key = Some k.
Definition flag_set (g : TubeState → bool) (T : Slab) (S : gset TubeId) : Prop :=
  ∀ tid, tid ∈ S ↔ g <$> slot T tid = Some true.

Section slab_parts.
Implicit Types (T : Slab) (P : TubeId → TubeState → Prop) (f : TubeState → TubeState).

(** The workhorse: update tube [id] by [f] while the property goes from
    [P] to [P']. *)
Lemma each_tube_upd P P' f id T :
  each_tube P T →
  (∀ tid t, slot T tid = Some t → tid ≠ id → P tid t → P' tid t) →
  (∀ t, slot T id = Some t → P id t → P' id (f t)) →
  each_tube P' (alter (fmap f) id T).
Proof.
  intros HT Ho Hi tid t. rewrite slot_alter. case_decide as Hd; [subst|by eauto].
  destruct (slot T id) as [t0|] eqn:E; [|done]. intros [= <-]. eauto.
Qed.

Lemma each_tube_alter P f id T :
  each_tube P T → (∀ t, P id t → P id (f t)) → each_tube P (alter (fmap f) id T).
Proof. intros HT Hf. eapply each_tube_upd; eauto. Qed.

Lemma each_tube_impl P P' T :
  each_tube P T → (∀ tid t, slot T tid = Some t → P tid t → P' tid t) → each_tube P' T.
Proof. intros HT Hi tid t Ht. eauto. Qed.

Lemma slot_alter_bind {A} (g : TubeState → option A) f id T tid :
  (∀ t, g (f t) = g t) → slot (alter (fmap f) id T) tid ≫= g = slot T tid ≫= g.
Proof.
  intros Hg. rewrite slot_alter. case_decide; [|done]. subst.
  destruct (slot T id); simpl; auto.
Qed.
Lemma slot_alter_fmap {A} (g : TubeState → A) f id T tid :
  (∀ t, g (f t) = g t) → g <$> slot (alter (fmap f) id T) tid = g <$> slot T tid.
Proof.
  intros Hg. rewrite slot_alter. case_decide; [|done]. subst.
  destruct (slot T id); simpl; by rewrite ?Hg.
Qed.
Lemma live_alter f id T tid : live (alter (fmap f) id T) tid ↔ live T tid.
Proof.
  unfold live. rewrite slot_alter. case_decide; [|done]. by rewrite fmap_is_Some.
Qed.
Lemma tube_index_alter {A} `{Countable A} (g : TubeState → option A) f id T S :
  tube_index g T S → (∀ t, g (f t) = g t) → tube_index g (alter (fmap f) id T) S.
Proof. intros HT Hg k tid. by rewrite slot_alter_bind. Qed.
Lemma flag_set_alter g f id T S :
  flag_set g T S → (∀ t, g (f t) = g t) → flag_set g (alter (fmap f) id T) S.
Proof. intros HT Hg tid. by rewrite slot_alter_fmap. Qed.
End slab_parts.

Section conn_parts.
Context {V : Type}.
Implicit Types (C : gmap N V).

Lemma map_Forall_upd (P P' : N → V → Prop) f k C :
  map_Forall P C →
  (∀ i x, C !! i = Some x → i ≠ k → P i x → P' i x) →
  (∀ x, C !! k = Some x → P k x → P' k (f x)) →
  map_Forall P' (alter f k C).
Proof.
  intros HC Ho Hi i x. rewrite lookup_alter. case_decide as Hd; [subst|by eauto].
  destruct (C !! i) as [y|] eqn:E; [|done]. intros [= <-]. eauto.
Qed.
Lemma map_Forall_alter (P : N → V → Prop) f k C :
  map_Forall P C → (∀ x, P k x → P k (f x)) → map_Forall P (alter f k C).
Proof. intros HC Hf. eapply map_Forall_upd; eauto. Qed.
Lemma lookup_alter_fmap {B} (g : V → B) f k C i :
  (∀ x, g (f x) = g x) → g <$> alter f k C !! i = g <$> C !! i.
Proof.
  intros Hg. rewrite lookup_alter. case_decide; [|done]. subst.
  destruct (C !! i); simpl; by rewrite ?Hg.
Qed.
Lemma lookup_alter_bind {B} (g : V → option B) f k C i :
  (∀ x, g (f x) = g x) → alter f k C !! i ≫= g = C !! i ≫= g.
Proof.
  intros Hg. rewrite lookup_alter. case_decide; [|done]. subst.
  destruct (C !! i); simpl; auto.
Qed.
Lemma alter_is_Some f k C i : is_Some (alter f k C !! i) ↔ is_Some (C !! i).
Proof. rewrite lookup_alter. case_decide; [subst|done]. by rewrite fmap_is_Some. Qed.
End conn_parts.

Lemma conn_index_alter C S f cid :
  conn_index C S → (∀ c, c_tick_key (f c) = c_tick_key c) → conn_index (alter f cid C) S.
Proof. intros HC Hf k i. by rewrite lookup_alter_bind. Qed.

(** ** The parts *)

(** The registry: names, list order and free slots mirror the slab. *)
Definition reg_ok (T : Slab) (ids : gmap TubeName TubeId) (order free : list TubeId) : Prop :=
  (t_name <$> slot T DEFAULT_TUBE = Some default_tube ∧ t_pos <$> slot T DEFAULT_TUBE = Some 0) ∧
  (∀ n i, ids !! n = Some i ↔ t_name <$> slot T i = Some n) ∧
  (∀ p i, order !! p = Some i ↔ t_pos <$> slot T i = Some p) ∧
  (∀ i, i ∈ free ↔ T !! i = Some None) ∧ NoDup free.

(** Every job: stored under its id, below the next id, in a live tube. *)
Definition job_ok (T : Slab) (next : JobId) (i : JobId) (j : JobRec) : Prop :=
  j_id j = i ∧ (i < next)%N ∧ (1 ≤ j_ttr j)%N ∧ live T (j_tube j).
Definition in_tube (tid : TubeId) (j : JobRec) : bool := bool_decide (j_tube j = tid).
Definition in_state (s : JobState) (j : JobRec) : bool := bool_decide (j_state j = s).
Definition job_refs_ok (A : Jobs) (tid : TubeId) (t : TubeState) : Prop :=
  t_job_ref_ct t = count (in_tube tid) A.

(** The queues of a tube hold exactly the jobs of [J] in that state. *)
Definition queued (J : Jobs) (s : JobState) (i : JobId) (P : JobRec → Prop) : Prop :=
  ∃ j, J !! i = Some j ∧ j_state j = s ∧ P j.
Definition ready_of (J : Jobs) tid (t : TubeState) : Prop :=
  ∀ p i, (p, i) ∈ t_ready t ↔ queued J JobState.Ready i (λ j, j_tube j = tid ∧ j_pri j = p).
Definition delayed_of (J : Jobs) tid (t : TubeState) : Prop :=
  ∀ d i, (d, i) ∈ t_delayed t ↔ queued J JobState.Delayed i (λ j, j_tube j = tid ∧ j_deadline_at j = d).
Definition buried_of (J : Jobs) tid (t : TubeState) : Prop :=
  ∀ s i, t_buried t !! s = Some i ↔ queued J JobState.Buried i (λ j, j_tube j = tid ∧ j_list_seq j = s).
Definition urgent_in (tid : TubeId) (j : JobRec) : bool :=
  in_state JobState.Ready j && in_tube tid j && is_urgent (j_pri j).
Definition state_in (s : JobState) (tid : TubeId) (j : JobRec) : bool := in_state s j && in_tube tid j.
Definition stats_of (J : Jobs) tid (t : TubeState) : Prop :=
  ts_urgent_ct (t_stat t) = count (urgent_in tid) J ∧
  ts_buried_ct (t_stat t) = count (state_in JobState.Buried tid) J ∧
  ts_reserved_ct (t_stat t) = count (state_in JobState.Reserved tid) J.

(** The reservations of a connection. *)
Definition reserved_of (J : Jobs) cid (c : ConnState) : Prop :=
  (∀ s i, c_reserved c !! s = Some i ↔
     queued J JobState.Reserved i (λ j, j_reserver j = Some cid ∧ j_list_seq j = s)) ∧
  (∀ d i, (d, i) ∈ c_reserved_by_deadline c ↔
     queued J JobState.Reserved i (λ j, j_reserver j = Some cid ∧ j_deadline_at j = d)).

(** A queued job: reserved iff it has a reserver, its list key already used. *)
Definition queued_ok (C : gmap ConnId ConnState) (seq : N) (i : JobId) (j : JobRec) : Prop :=
  (if in_state JobState.Reserved j then ∃ cid, j_reserver j = Some cid ∧ is_Some (C !! cid)
   else j_reserver j = None) ∧
  (j_state j = JobState.Reserved ∨ j_state j = JobState.Buried → (j_list_seq j < seq)%N).

Definition urgent (j : JobRec) : bool := in_state JobState.Ready j && is_urgent (j_pri j).
Definition counts_ok (J : Jobs) (ct : Counts) : Prop :=
  ready_ct ct = count (in_state JobState.Ready) J ∧ urgent_ct ct = count urgent J ∧
  delayed_ct ct = count (in_state JobState.Delayed) J ∧
  buried_ct ct = count (in_state JobState.Buried) J ∧
  reserved_ct ct = count (in_state JobState.Reserved) J.

(** A connection by itself. *)
Definition conn_ok (_ : ConnId) (c : ConnState) : Prop :=
  NoDup (ms_items (c_watch c)) ∧ (c_waiting c = false → c_wait_deadline c = None).
Definition pending_id (c : ConnState) : option JobId := c_pending_put c ≫= pp_id.
Definition pending_ok (C : gmap ConnId ConnState) (A : Jobs) (next : JobId) : Prop :=
  (∀ cid pid, C !! cid ≫= pending_id = Some pid → (pid < next)%N ∧ A !! pid = None) ∧
  (∀ cid1 cid2 pid, C !! cid1 ≫= pending_id = Some pid → C !! cid2 ≫= pending_id = Some pid →
     cid1 = cid2).
Definition conn_counts_ok (C : gmap ConnId ConnState) (cc : ConnCounts) (waiting : N) : Prop :=
  cur_conns cc = N.of_nat (size C) ∧ cur_producers cc = count c_is_producer C ∧
  cur_workers cc = count c_is_worker C ∧ waiting = count c_waiting C.

(** The three relations between connections and tubes. *)
Abbreviation CTRel := (gset (ConnId * TubeId)).
Definition uses (c : ConnState) : list TubeId := [c_use_tube c].
Definition watches (c : ConnState) : list TubeId := ms_items (c_watch c).
Definition waits (c : ConnState) : list TubeId := if c_waiting c then ms_items (c_watch c) else [].

Definition using_ok (U : CTRel) tid (t : TubeState) : Prop :=
  t_using_ct t = deg U tid ∧ (deg U tid < 2 ^ 32)%N.
Definition watching_ok (W : CTRel) tid (t : TubeState) : Prop :=
  t_watching_ct t = deg W tid ∧ (deg W tid < 2 ^ 32)%N.
Definition waiting_ct_ok (Q : CTRel) tid (t : TubeState) : Prop :=
  ts_waiting_ct (t_stat t) = deg Q tid ∧ (deg Q tid < 2 ^ 32)%N.
Definition waiting_ok (Q : CTRel) tid (t : TubeState) : Prop :=
  NoDup (ms_items (t_waiting_conns t)) ∧
  ∀ cid, cid ∈ ms_items (t_waiting_conns t) ↔ (cid, tid) ∈ Q.
Definition rel_live (T : Slab) (R : CTRel) : Prop := ∀ cid tid, (cid, tid) ∈ R → live T tid.

(** The index keys, and when they are up to date: everywhere but at the
    tubes or connections of [stale]. *)
Definition pause_key (t : TubeState) : option Nanos :=
  if (0 <? t_pause t)%N then Some (t_unpause_at t) else None.
Definition wants_dispatch (t : TubeState) : bool :=
  negb (ms_is_empty (t_waiting_conns t)) && negb (bool_decide (t_ready t = ∅)).
Definition tick_key_ok (stale : gset ConnId) (cid : ConnId) (c : ConnState) : Prop :=
  cid ∉ stale → c_tick_key c = conn_tickat c.
Definition delay_key_ok (stale : gset TubeId) (tid : TubeId) (t : TubeState) : Prop :=
  tid ∉ stale → t_delay_head t = delay_head_of t.
Definition disp_key_ok (stale : gset TubeId) (tid : TubeId) (t : TubeState) : Prop :=
  tid ∉ stale → t_dispatchable t = wants_dispatch t.

(** No ready job waits beside a waiting connection of an unpaused tube. *)
Definition drained_tube (hot : bool) (_ : TubeId) (t : TubeState) : Prop :=
  hot = false → wants_dispatch t = true → (0 < t_pause t)%N.
(** A tube other than the default one is used, watched or holds a job. *)
Definition referenced (orphans : gset TubeId) (tid : TubeId) (t : TubeState) : Prop :=
  tid ∉ orphans → tid = DEFAULT_TUBE ∨ (0 < refs t)%N.
(** Every connection watches a tube, but for one that is being closed. *)
Definition watching_some (closing : option ConnId) (cid : ConnId) (c : ConnState) : Prop :=
  closing ≠ Some cid → ms_items (c_watch c) ≠ [].

(** Budgets for what only grows: job ids, list keys (one per waiting
    connection is spoken for), connections and tube slots. *)
Record Budget := mkBudget { b_ids : N; b_seq : N; b_conns : N; b_tubes : N }.
(** Far from the wrap of a u64, beyond what [validate] lets in. *)
Definition counter_limit : N := 2 ^ 63 - 1.
Definition budget_ok (b : Budget) : Prop :=
  (b_ids b ≤ counter_limit)%N ∧ (b_seq b ≤ counter_limit)%N ∧ (b_conns b < 2 ^ 32)%N.
Definition seq_used (seq : N) (C : gmap ConnId ConnState) : N := (seq + count c_waiting C)%N.
Definition bounds_ok (b : Budget) (next : JobId) (seq : N) (C : gmap ConnId ConnState)
    (T : Slab) : Prop :=
  budget_ok b ∧ (1 ≤ next ≤ b_ids b)%N ∧ (seq_used seq C ≤ b_seq b)%N ∧
  (N.of_nat (size C) ≤ b_conns b)%N ∧ (N.of_nat (length T) ≤ b_tubes b)%N.

(** ** The invariant *)
Record Ghost := mkGhost {
  g_jobs : Jobs;                    (** the jobs the queues know *)
  g_uses : CTRel;
  g_watches : CTRel;
  g_waits : CTRel;                  (** membership in the wait lists *)
  g_waitn : CTRel;                  (** what the wait counts count *)
  g_sdisp : gset TubeId;            (** stale dispatch flags *)
  g_sdelay : gset TubeId;           (** stale delay heads *)
  g_stick : gset ConnId;            (** stale connection ticks *)
  g_orphans : gset TubeId;          (** tubes that may be unreferenced *)
  g_hot : bool;                     (** dispatch may be due *)
  g_closing : option ConnId;
  g_budget : Budget;
}.
#[export] Instance Ghost_eta : Eta Ghost := λ r,
  mkGhost (g_jobs r) (g_uses r) (g_watches r) (g_waits r) (g_waitn r) (g_sdisp r) (g_sdelay r)
    (g_stick r) (g_orphans r) (g_hot r) (g_closing r) (g_budget r).
#[export] Instance g_jobs_set : Setter g_jobs := ltac:(derive_setter).
#[export] Instance g_uses_set : Setter g_uses := ltac:(derive_setter).
#[export] Instance g_watches_set : Setter g_watches := ltac:(derive_setter).
#[export] Instance g_waits_set : Setter g_waits := ltac:(derive_setter).
#[export] Instance g_waitn_set : Setter g_waitn := ltac:(derive_setter).
#[export] Instance g_sdisp_set : Setter g_sdisp := ltac:(derive_setter).
#[export] Instance g_sdelay_set : Setter g_sdelay := ltac:(derive_setter).
#[export] Instance g_stick_set : Setter g_stick := ltac:(derive_setter).
#[export] Instance g_orphans_set : Setter g_orphans := ltac:(derive_setter).
#[export] Instance g_hot_set : Setter g_hot := ltac:(derive_setter).
#[export] Instance g_closing_set : Setter g_closing := ltac:(derive_setter).
#[export] Instance g_budget_set : Setter g_budget := ltac:(derive_setter).

Record Core (g : Ghost) (e : Engine) : Prop := mkCore {
  co_reg : reg_ok (e_tubes e) (e_tube_ids e) (ms_items (e_tube_order e)) (e_free_tube_ids e);
  co_jobs : map_Forall (job_ok (e_tubes e) (e_next_job_id e)) (e_jobs e);
  co_refs : each_tube (job_refs_ok (e_jobs e)) (e_tubes e);
  co_sub : g_jobs g ⊆ e_jobs e;
  co_ready : each_tube (ready_of (g_jobs g)) (e_tubes e);
  co_delayed : each_tube (delayed_of (g_jobs g)) (e_tubes e);
  co_buried : each_tube (buried_of (g_jobs g)) (e_tubes e);
  co_stats : each_tube (stats_of (g_jobs g)) (e_tubes e);
  co_reserved : map_Forall (reserved_of (g_jobs g)) (e_conns e);
  co_queued : map_Forall (queued_ok (e_conns e) (e_next_list_seq e)) (g_jobs g);
  co_counts : counts_ok (g_jobs g) (e_ct e);
  co_conns : map_Forall conn_ok (e_conns e);
  co_pending : pending_ok (e_conns e) (e_jobs e) (e_next_job_id e);
  co_using : each_tube (using_ok (g_uses g)) (e_tubes e);
  co_watching : each_tube (watching_ok (g_watches g)) (e_tubes e);
  co_waiting : each_tube (waiting_ok (g_waits g)) (e_tubes e);
  co_waiting_ct : each_tube (waiting_ct_ok (g_waitn g)) (e_tubes e);
  co_uses_live : rel_live (e_tubes e) (g_uses g);
  co_watches_live : rel_live (e_tubes e) (g_watches g);
  co_waits_sub : g_waits g ⊆ g_watches g ∧ g_waitn g ⊆ g_watches g;
  co_ticks : conn_index (e_conns e) (e_conn_ticks e);
  co_delays : tube_index t_delay_head (e_tubes e) (e_delay_heads e);
  co_pauses : tube_index pause_key (e_tubes e) (e_pauses e);
  co_disp : flag_set t_dispatchable (e_tubes e) (e_dispatchable e);
  co_tick_key : map_Forall (tick_key_ok (g_stick g)) (e_conns e);
  co_delay_key : each_tube (delay_key_ok (g_sdelay g)) (e_tubes e);
  co_disp_key : each_tube (disp_key_ok (g_sdisp g)) (e_tubes e);
  co_drained : each_tube (drained_tube (g_hot g)) (e_tubes e);
  co_referenced : each_tube (referenced (g_orphans g)) (e_tubes e);
  co_watching_some : map_Forall (watching_some (g_closing g)) (e_conns e);
  co_cc : conn_counts_ok (e_conns e) (e_cc e) (waiting_ct (e_ct e));
  co_bounds : bounds_ok (g_budget g) (e_next_job_id e) (e_next_list_seq e) (e_conns e) (e_tubes e);
}.

(** What the ghost is between commands. *)
Definition ghost_of (b : Budget) (e : Engine) : Ghost :=
  mkGhost (e_jobs e) (rel uses (e_conns e)) (rel watches (e_conns e))
    (rel waits (e_conns e)) (rel waits (e_conns e)) ∅ ∅ ∅ ∅ false None b.

(** The engine invariant, within a budget. *)
Definition Inv (b : Budget) (e : Engine) : Prop := Core (ghost_of b e) e.
