(* ===== verification/InvFrame.v ===== *)
(** * Frame lemmas of the invariant

    How each part of [Core] behaves under a local update of a tube, a
    connection or a job, the tactics that discharge the untouched parts, and
    the updates that touch none. *)

From S2P Require Import Prelude Ms Proto Model Engine Inv.
From stdpp Require Import options.

(** Reduce the projections of an updated engine or ghost, and nothing else. *)
Ltac eng :=
  cbn [e_cfg e_cfg_set e_sys e_sys_set e_start e_start_set e_draining e_draining_set
    e_next_job_id e_next_job_id_set e_jobs e_jobs_set e_next_list_seq e_next_list_seq_set
    e_tubes e_tubes_set e_free_tube_ids e_free_tube_ids_set e_tube_ids e_tube_ids_set
    e_tube_order e_tube_order_set e_conns e_conns_set e_conn_ticks e_conn_ticks_set
    e_delay_heads e_delay_heads_set e_pauses e_pauses_set e_dispatchable e_dispatchable_set
    e_ct e_ct_set e_cc e_cc_set e_cmd e_cmd_set e_journal e_journal_set e_binlog
    e_binlog_set e_local_conns e_local_conns_set g_jobs g_jobs_set g_uses g_uses_set
    g_watches g_watches_set g_waits g_waits_set g_waitn g_waitn_set g_sdisp g_sdisp_set
    g_sdelay g_sdelay_set g_stick g_stick_set g_orphans g_orphans_set g_hot g_hot_set
    g_closing g_closing_set g_budget g_budget_set set_field upd_tube upd_job upd_conn upd_ct
    upd_cc bump_cmd].

(** Open the engine and compute with its fields, for equations between
    engines. *)
Ltac open_engine e :=
  destruct e as [cfg sys start dr nid jobs seq tubes free ids order conns ticks heads pauses disp
                 ct cc cmd jr bl lc].
Ltac eng_all :=
  cbv [set_field upd_tube upd_job upd_conn upd_ct upd_cc bump_cmd e_cfg e_cfg_set e_sys
    e_sys_set e_start e_start_set e_draining e_draining_set e_next_job_id e_next_job_id_set
    e_jobs e_jobs_set e_next_list_seq e_next_list_seq_set e_tubes e_tubes_set
    e_free_tube_ids e_free_tube_ids_set e_tube_ids e_tube_ids_set e_tube_order
    e_tube_order_set e_conns e_conns_set e_conn_ticks e_conn_ticks_set e_delay_heads
    e_delay_heads_set e_pauses e_pauses_set e_dispatchable e_dispatchable_set e_ct e_ct_set
    e_cc e_cc_set e_cmd e_cmd_set e_journal e_journal_set e_binlog e_binlog_set
    e_local_conns e_local_conns_set] in *.

(** ** Parts under a tube update *)
Section tube_update.
Implicit Types (T : Slab) (A J : Jobs) (f : TubeState → TubeState).

Lemma alter_free f id T i : alter (fmap f) id T !! i = Some None ↔ T !! i = Some None.
Proof.
  destruct (decide (i = id)) as [->|]; [|by rewrite list_lookup_alter_ne].
  rewrite list_lookup_alter_eq. by destruct (T !! id) as [[]|].
Qed.
Lemma reg_ok_alter T ids order free f id :
  reg_ok T ids order free →
  (∀ t, t_name (f t) = t_name t) → (∀ t, t_pos (f t) = t_pos t) →
  reg_ok (alter (fmap f) id T) ids order free.
Proof.
  intros (Hd & Hn & Hp & Hf & Hnd) Hfn Hfp. unfold reg_ok. rewrite !slot_alter_fmap by done.
  split; [done|]. split; [intros; rewrite slot_alter_fmap by done; apply Hn|].
  split; [intros; rewrite slot_alter_fmap by done; apply Hp|].
  split; [intros; rewrite alter_free; apply Hf|done].
Qed.
Lemma job_ok_alter T next A f id :
  map_Forall (job_ok T next) A → map_Forall (job_ok (alter (fmap f) id T) next) A.
Proof. intros HA i j Hj. unfold job_ok. rewrite live_alter. by apply HA. Qed.
Lemma rel_live_alter T R f id : rel_live T R → rel_live (alter (fmap f) id T) R.
Proof. intros HR cid tid Hin. apply live_alter. by eapply HR. Qed.
Lemma bounds_ok_alter_tubes b next seq C T f id :
  bounds_ok b next seq C T → bounds_ok b next seq C (alter (fmap f) id T).
Proof. unfold bounds_ok. by rewrite length_alter. Qed.
End tube_update.

(** ** Parts under a connection update *)
Lemma size_alter {V} (f : V → V) (k : N) (m : gmap N V) : size (alter f k m) = size m.
Proof. by rewrite <-!size_dom, dom_alter_L. Qed.

Section conn_update.
Implicit Types (C : gmap ConnId ConnState) (A J : Jobs) (f : ConnState → ConnState).

Lemma queued_ok_conns C C' seq i j :
  queued_ok C seq i j → (∀ c, is_Some (C !! c) → is_Some (C' !! c)) → queued_ok C' seq i j.
Proof.
  intros [Hr Hs] Hc. split; [|done]. destruct (in_state _ j); [|done].
  destruct Hr as (c & ? & ?). eauto.
Qed.
Lemma queued_ok_alter C seq J f cid :
  map_Forall (queued_ok C seq) J → map_Forall (queued_ok (alter f cid C) seq) J.
Proof.
  intros HJ i j Hj. eapply queued_ok_conns; [by apply HJ|]. intros c. by rewrite alter_is_Some.
Qed.
Lemma pending_ok_alter C A next f cid :
  pending_ok C A next → (∀ c, pending_id (f c) = pending_id c) →
  pending_ok (alter f cid C) A next.
Proof.
  intros [H1 H2] Hf. split; intros *; rewrite !lookup_alter_bind by done; [apply H1|apply H2].
Qed.
Lemma conn_counts_ok_alter C cc n f cid :
  conn_counts_ok C cc n →
  (∀ c, c_is_producer (f c) = c_is_producer c) → (∀ c, c_is_worker (f c) = c_is_worker c) →
  (∀ c, c_waiting (f c) = c_waiting c) → conn_counts_ok (alter f cid C) cc n.
Proof.
  intros HC H1 H2 H3. unfold conn_counts_ok. rewrite !count_alter by auto.
  by rewrite size_alter.
Qed.
Lemma bounds_ok_alter_conns b next seq C T f cid :
  bounds_ok b next seq C T → (∀ c, c_waiting (f c) = c_waiting c) →
  bounds_ok b next seq (alter f cid C) T.
Proof.
  intros HC H3. unfold bounds_ok, seq_used. rewrite count_alter by auto. by rewrite size_alter.
Qed.
Lemma rel_alter (r : ConnState → list TubeId) C f cid :
  (∀ c, r (f c) = r c) → rel r (alter f cid C) = rel r C.
Proof. intros Hf. apply rel_ext. intros k. by apply lookup_alter_fmap. Qed.
End conn_update.

(** ** Parts under an update of a job that is off the queues *)
Section job_update.
Implicit Types (A J : Jobs) (f : JobRec → JobRec).

Lemma job_ok_upd T next A f id :
  map_Forall (job_ok T next) A →
  (∀ j, j_id (f j) = j_id j) → (∀ j, j_ttr (f j) = j_ttr j) → (∀ j, j_tube (f j) = j_tube j) →
  map_Forall (job_ok T next) (alter f id A).
Proof.
  intros HA H1 H2 H3. apply map_Forall_alter; [done|]. intros j. unfold job_ok.
  by rewrite H1, H2, H3.
Qed.
Lemma job_refs_upd T A f id :
  each_tube (job_refs_ok A) T → (∀ j, j_tube (f j) = j_tube j) →
  each_tube (job_refs_ok (alter f id A)) T.
Proof.
  intros HT Hf tid t Ht. unfold job_refs_ok. rewrite count_alter; [by apply HT|].
  intros j _. unfold in_tube. by rewrite Hf.
Qed.
Lemma sub_upd A J f id : J ⊆ A → J !! id = None → J ⊆ alter f id A.
Proof.
  intros HJ Hn. apply map_subseteq_spec. intros i j Hj.
  rewrite lookup_alter_ne by congruence. by eapply lookup_weaken.
Qed.
Lemma pending_upd C A next f id : pending_ok C A next → pending_ok C (alter f id A) next.
Proof.
  intros [H1 H2]. split; [|done]. intros cid pid Hp. destruct (H1 cid pid Hp) as [? Hn].
  split; [done|]. apply eq_None_not_Some. rewrite alter_is_Some. by apply eq_None_not_Some.
Qed.
End job_update.

(** ** Tactics *)
Ltac same := first [assumption | intros; first [reflexivity | assumption]].
(** Find the hypothesis for a part without unfolding parts. *)
Ltac part :=
  with_strategy opaque
    [each_tube map_Forall tube_index conn_index flag_set reg_ok job_ok job_refs_ok
     ready_of delayed_of buried_of stats_of reserved_of queued_ok counts_ok conn_ok pending_ok
     conn_counts_ok using_ok watching_ok waiting_ct_ok waiting_ok rel_live tick_key_ok
     delay_key_ok disp_key_ok drained_tube referenced watching_some bounds_ok alter insert delete
     union difference subseteq]
    eassumption.
Ltac frame :=
  lazymatch goal with
  | |- each_tube _ (alter _ _ _) => eapply each_tube_alter; [frame | same]
  | |- each_tube (job_refs_ok (alter _ _ _)) _ => eapply job_refs_upd; [frame | same]
  | |- tube_index _ (alter _ _ _) _ => eapply tube_index_alter; [frame | same]
  | |- flag_set _ (alter _ _ _) _ => eapply flag_set_alter; [frame | same]
  | |- reg_ok (alter _ _ _) _ _ _ => eapply reg_ok_alter; [frame | same..]
  | |- map_Forall (job_ok (alter _ _ _) _) _ => eapply job_ok_alter; frame
  | |- map_Forall (job_ok _ _) (alter _ _ _) => eapply job_ok_upd; [frame | same..]
  | |- rel_live (alter _ _ _) _ => eapply rel_live_alter; frame
  | |- bounds_ok _ _ _ _ (alter _ _ _) => eapply bounds_ok_alter_tubes; frame
  | |- bounds_ok _ _ _ (alter _ _ _) _ => eapply bounds_ok_alter_conns; [frame | same]
  | |- map_Forall (queued_ok (alter _ _ _) _) _ => eapply queued_ok_alter; frame
  | |- pending_ok (alter _ _ _) _ _ => eapply pending_ok_alter; [frame | same]
  | |- pending_ok _ (alter _ _ _) _ => eapply pending_upd; frame
  | |- conn_index (alter _ _ _) _ => eapply conn_index_alter; [frame | same]
  | |- conn_counts_ok (alter _ _ _) _ _ => eapply conn_counts_ok_alter; [frame | same..]
  | |- _ ⊆ alter _ _ _ => eapply sub_upd; [frame | same]
  | |- map_Forall _ (alter _ _ _) => eapply map_Forall_alter; [frame | same]
  | |- _ => part
  end.
(** Split [Core] and frame what the update leaves alone. *)
Ltac core H := destruct H; constructor; eng; try solve [frame].

(** ** Updates that touch no part *)
Section untouched.
Context (g : Ghost) (e : Engine) (HC : Core g e).

Lemma Core_bump_cmd (p : CmdCounts → N) `{!Setter p} : Core g (bump_cmd p e).
Proof using HC. by core HC. Qed.
Lemma Core_journal f : Core g (e <| e_journal ::= f |>).
Proof using HC. by core HC. Qed.
Lemma Core_draining on : Core g (set_draining on e).
Proof using HC. by core HC. Qed.
Lemma Core_local_conns l : Core g (set_local_conns l e).
Proof using HC. by core HC. Qed.
Lemma Core_total_jobs f : Core g (upd_ct total_jobs_ct f e).
Proof using HC. by core HC. Qed.
Lemma Core_timeouts f : Core g (upd_ct timeout_ct f e).
Proof using HC. by core HC. Qed.
Lemma Core_tot_conns f : Core g (upd_cc tot_conns f e).
Proof using HC. by core HC. Qed.
Lemma Core_tube_total_jobs tid f :
  Core g (upd_tube tid (λ t, t <| t_stat ::= set_field ts_total_jobs_ct f |>) e).
Proof using HC. by core HC. Qed.
End untouched.

Create HintDb core.
#[export] Hint Resolve Core_bump_cmd Core_journal Core_draining Core_local_conns Core_total_jobs
  Core_timeouts Core_tot_conns Core_tube_total_jobs : core.

Lemma Core_journal_put g e id : Core g e → Core g (journal_put id e).
Proof. intros H. unfold journal_put. repeat case_match; auto with core. Qed.
Lemma Core_journal_update g e id : Core g e → Core g (journal_update id e).
Proof. intros H. unfold journal_update. repeat case_match; auto with core. Qed.
Lemma Core_journal_delete g e id : Core g e → Core g (journal_delete id e).
Proof. intros H. unfold journal_delete. repeat case_match; auto with core. Qed.
#[export] Hint Resolve Core_journal_put Core_journal_update Core_journal_delete : core.
