(* ===== verification/InvRefresh.v ===== *)
(** * The index maintenance routines

    [refresh_dispatchable], [refresh_delay_head] and [refresh_conn_tick] make
    one stale key current; [clear_expired_pauses] keeps the pause index. *)

From S2P Require Import Prelude Ms Proto Model Engine Inv InvFrame.
From stdpp Require Import options.

(** ** Index updates *)
Section index_update.
Context {A : Type} `{Countable A} (g : TubeState → option A).
Implicit Types (T : Slab) (S : gset (A * TubeId)).

(** Replace the key of tube [tid] by that of [f t]. *)
Lemma tube_index_upd T S tid t f :
  tube_index g T S → slot T tid = Some t →
  tube_index g (alter (fmap f) tid T)
    (match g (f t) with Some k => {[ (k, tid) ]} | None => ∅ end ∪
     (S ∖ match g t with Some k => {[ (k, tid) ]} | None => ∅ end)).
Proof.
  intros HT Ht k i. rewrite slot_alter. specialize (HT k i).
  case_decide as Hd; [subst i|]; rewrite elem_of_union, elem_of_difference, HT.
  - rewrite Ht. simpl. destruct (g (f t)), (g t); set_solver.
  - destruct (g (f t)), (g t); set_solver.
Qed.
End index_update.

Lemma flag_set_upd g T S tid t f :
  flag_set g T S → slot T tid = Some t →
  flag_set g (alter (fmap f) tid T)
    (if g (f t) then {[ tid ]} ∪ S else S ∖ {[ tid ]}).
Proof.
  intros HT Ht i. specialize (HT i). rewrite slot_alter. case_decide as Hd; [subst i|].
  - rewrite Ht. simpl. destruct (g (f t)); set_solver.
  - rewrite <-HT. destruct (g (f t)); set_solver.
Qed.

Lemma conn_index_upd C S cid c f :
  conn_index C S → C !! cid = Some c →
  conn_index (alter f cid C)
    (match c_tick_key (f c) with Some k => {[ (k, cid) ]} | None => ∅ end ∪
     (S ∖ match c_tick_key c with Some k => {[ (k, cid) ]} | None => ∅ end)).
Proof.
  intros HT Ht k i. rewrite lookup_alter. specialize (HT k i).
  case_decide as Hd; [subst i|]; rewrite elem_of_union, elem_of_difference, HT.
  - rewrite Ht. simpl. destruct (c_tick_key (f c)), (c_tick_key c); set_solver.
  - destruct (c_tick_key (f c)), (c_tick_key c); set_solver.
Qed.

(** ** Marking keys stale *)
Section stale.
Context (g : Ghost) (e : Engine) (HC : Core g e).

Lemma Core_stale_disp tid : Core (g <| g_sdisp ::= ({[ tid ]} ∪.) |>) e.
Proof using HC. core HC. intros i t Ht Hn. refine (co_disp_key _ _ Ht _); set_solver. Qed.
Lemma Core_stale_delay tid : Core (g <| g_sdelay ::= ({[ tid ]} ∪.) |>) e.
Proof using HC. core HC. intros i t Ht Hn. refine (co_delay_key _ _ Ht _); set_solver. Qed.
Lemma Core_stale_tick cid : Core (g <| g_stick ::= ({[ cid ]} ∪.) |>) e.
Proof using HC. core HC. intros i t Ht Hn. refine (co_tick_key _ _ Ht _); set_solver. Qed.
Lemma Core_orphan tid : Core (g <| g_orphans ::= ({[ tid ]} ∪.) |>) e.
Proof using HC. core HC. intros i t Ht Hn. refine (co_referenced _ _ Ht _); set_solver. Qed.
Lemma Core_hot : Core (g <| g_hot := true |>) e.
Proof using HC. core HC. intros i t Ht Hn. done. Qed.
End stale.

(** ** [refresh_dispatchable] *)
Lemma Core_refresh_dispatchable g e tid :
  Core (g <| g_sdisp ::= ({[ tid ]} ∪.) |>) e → Core g (refresh_dispatchable tid e).
Proof.
  intros HC. unfold refresh_dispatchable. unfold tube.
  destruct (slot (e_tubes e) tid) as [t|] eqn:Et.
  - fold (wants_dispatch t). destruct (eqb _ _) eqn:Eq.
    + apply eqb_prop in Eq. core HC. intros i t' Ht Hn. destruct (decide (i = tid)) as [->|].
      * congruence.
      * refine (co_disp_key _ _ Ht _). eng. set_solver.
    + assert (Core g ((upd_tube tid (λ t0, t0 <|t_dispatchable := wants_dispatch t|>) e)
                <| e_dispatchable := if wants_dispatch t then {[ tid ]} ∪ e_dispatchable e
                                     else e_dispatchable e ∖ {[ tid ]} |>)) as Hc.
      { core HC.
        - exact (flag_set_upd _ _ _ _ _ (λ t0, t0 <|t_dispatchable := wants_dispatch t|>) co_disp Et).
        - eapply each_tube_upd; [exact co_disp_key|..].
          + intros i t' _ Hi Hk Hn. refine (Hk _). eng. set_solver.
          + intros t' Ht' _ _. replace t' with t by congruence. done. }
      by destruct (wants_dispatch t).
  - core HC. intros i t' Ht Hn. refine (co_disp_key _ _ Ht _). eng. set_solver.
Qed.

(** ** [refresh_delay_head] *)
Lemma Core_refresh_delay_head g e tid :
  Core (g <| g_sdelay ::= ({[ tid ]} ∪.) |>) e → Core g (refresh_delay_head tid e).
Proof.
  intros HC. unfold refresh_delay_head. unfold tube.
  destruct (slot (e_tubes e) tid) as [t|] eqn:Et.
  - case_bool_decide as Eq.
    + core HC. intros i t' Ht Hn. destruct (decide (i = tid)) as [->|].
      * congruence.
      * refine (co_delay_key _ _ Ht _). eng. set_solver.
    + assert (Core g ((upd_tube tid (λ t0, t0 <|t_delay_head := delay_head_of t|>) e)
                <| e_delay_heads :=
                    match delay_head_of t with Some k => {[ (k, tid) ]} | None => ∅ end ∪
                    (e_delay_heads e ∖ match t_delay_head t with
                                       | Some k => {[ (k, tid) ]} | None => ∅ end) |>)) as Hc.
      { core HC.
        - exact (tube_index_upd _ _ _ _ _ (λ t0, t0 <|t_delay_head := delay_head_of t|>) co_delays Et).
        - eapply each_tube_upd; [exact co_delay_key|..].
          + intros i t' _ Hi Hk Hn. refine (Hk _). eng. set_solver.
          + intros t' Ht' _ _. replace t' with t by congruence. done. }
      destruct (delay_head_of t), (t_delay_head t); rewrite ?difference_empty_L, ?(left_id_L ∅ (∪)) in Hc;
        exact Hc.
  - core HC. intros i t' Ht Hn. refine (co_delay_key _ _ Ht _). eng. set_solver.
Qed.

(** ** [refresh_conn_tick] *)
Lemma Core_refresh_conn_tick g e cid :
  Core (g <| g_stick ::= ({[ cid ]} ∪.) |>) e → Core g (refresh_conn_tick cid e).
Proof.
  intros HC. unfold refresh_conn_tick.
  destruct (e_conns e !! cid) as [c|] eqn:Ec.
  - case_bool_decide as Eq.
    + core HC. intros i t' Ht Hn. destruct (decide (i = cid)) as [->|].
      * congruence.
      * refine (co_tick_key _ _ Ht _). eng. set_solver.
    + assert (Core g ((upd_conn cid (λ c0, c0 <|c_tick_key := conn_tickat c|>) e)
                <| e_conn_ticks :=
                    match conn_tickat c with Some k => {[ (k, cid) ]} | None => ∅ end ∪
                    (e_conn_ticks e ∖ match c_tick_key c with
                                      | Some k => {[ (k, cid) ]} | None => ∅ end) |>)) as Hc.
      { core HC.
        - exact (conn_index_upd _ _ _ _ (λ c0, c0 <|c_tick_key := conn_tickat c|>) co_ticks Ec).
        - eapply map_Forall_upd; [exact co_tick_key|..].
          + intros i t' _ Hi Hk Hn. refine (Hk _). eng. set_solver.
          + intros t' Ht' _ _. replace t' with c by congruence. done. }
      destruct (conn_tickat c), (c_tick_key c); rewrite ?difference_empty_L, ?(left_id_L ∅ (∪)) in Hc;
        exact Hc.
  - core HC. intros i t' Ht Hn. refine (co_tick_key _ _ Ht _). eng. set_solver.
Qed.
