(* ===== verification/Queues.v ===== *)
(** * Linking and unlinking a job

    Every job transition of the engine takes a job off the queue of its state
    and puts it on the queue of another.  [enqueue] and [dequeue] are these
    two moves for all four states at once; the routines of the engine
    ([insert_ready], [do_reserve], [remove_buried], ...) are shown to be
    instances of them, so that one preservation proof serves each family. *)

From S2P Require Import Prelude Ms Proto Model Engine Inv InvFrame InvRefresh.
From stdpp Require Import options.

(** ** The two moves *)
Definition on_urgent (j : JobRec) {A} (x y : A) : A :=
  match j_state j with JobState.Ready => if is_urgent (j_pri j) then x else y | _ => y end.
Definition on_state (s : JobState) (j : JobRec) {A} (x y : A) : A :=
  match s, j_state j with
  | JobState.Ready, JobState.Ready | JobState.Delayed, JobState.Delayed
  | JobState.Buried, JobState.Buried | JobState.Reserved, JobState.Reserved => x
  | _, _ => y
  end.

Arguments on_urgent : simpl never.
Arguments on_state : simpl never.

(** The counters, with [f] the increment or the decrement. *)
Definition link_stat (f : N → N) (j : JobRec) (st : TubeStat) : TubeStat :=
  st <| ts_urgent_ct ::= λ n, on_urgent j (f n) n |>
     <| ts_buried_ct ::= λ n, on_state JobState.Buried j (f n) n |>
     <| ts_reserved_ct ::= λ n, on_state JobState.Reserved j (f n) n |>.
Definition link_ct (f : N → N) (j : JobRec) (ct : Counts) : Counts :=
  ct <| ready_ct ::= λ n, on_state JobState.Ready j (f n) n |>
     <| urgent_ct ::= λ n, on_urgent j (f n) n |>
     <| delayed_ct ::= λ n, on_state JobState.Delayed j (f n) n |>
     <| buried_ct ::= λ n, on_state JobState.Buried j (f n) n |>
     <| reserved_ct ::= λ n, on_state JobState.Reserved j (f n) n |>.

Definition enq_tube (id : JobId) (j : JobRec) (t : TubeState) : TubeState :=
  t <| t_ready ::= λ s, on_state JobState.Ready j ({[ (j_pri j, id) ]} ∪ s) s |>
    <| t_delayed ::= λ s, on_state JobState.Delayed j ({[ (j_deadline_at j, id) ]} ∪ s) s |>
    <| t_buried ::= λ m, on_state JobState.Buried j (<[j_list_seq j := id]> m) m |>
    <| t_stat ::= link_stat incr64 j |>.
Definition enq_conn (id : JobId) (j : JobRec) (c : ConnState) : ConnState :=
  c <| c_reserved ::= <[j_list_seq j := id]> |>
    <| c_reserved_by_deadline ::= ({[ (j_deadline_at j, id) ]} ∪.) |>.
Definition deq_tube (id : JobId) (j : JobRec) (t : TubeState) : TubeState :=
  t <| t_ready ::= λ s, on_state JobState.Ready j (s ∖ {[ (j_pri j, id) ]}) s |>
    <| t_delayed ::= λ s, on_state JobState.Delayed j (s ∖ {[ (j_deadline_at j, id) ]}) s |>
    <| t_buried ::= λ m, on_state JobState.Buried j (delete (j_list_seq j) m) m |>
    <| t_stat ::= link_stat decr j |>.
Definition deq_conn (id : JobId) (j : JobRec) (c : ConnState) : ConnState :=
  c <| c_reserved ::= delete (j_list_seq j) |>
    <| c_reserved_by_deadline ::= (.∖ {[ (j_deadline_at j, id) ]}) |>.

Definition at_reserver (j : JobRec) (f : ConnState → ConnState)
    (C : gmap ConnId ConnState) : gmap ConnId ConnState :=
  match j_reserver j with Some cid => alter f cid C | None => C end.

Definition enqueue (id : JobId) (j : JobRec) (e : Engine) : Engine :=
  e <| e_jobs ::= <[id := j]> |>
    <| e_tubes ::= alter (fmap (enq_tube id j)) (j_tube j) |>
    <| e_conns ::= at_reserver j (enq_conn id j) |>
    <| e_ct ::= link_ct incr64 j |>.
Definition dequeue (id : JobId) (j : JobRec) (e : Engine) : Engine :=
  e <| e_tubes ::= alter (fmap (deq_tube id j)) (j_tube j) |>
    <| e_conns ::= at_reserver j (deq_conn id j) |>
    <| e_ct ::= link_ct decr j |>.

(** The keys a move leaves stale. *)
Definition stale_ghost (j : JobRec) (g : Ghost) : Ghost :=
  g <| g_sdisp ::= λ s, on_state JobState.Ready j ({[ j_tube j ]} ∪ s) s |>
    <| g_sdelay ::= λ s, on_state JobState.Delayed j ({[ j_tube j ]} ∪ s) s |>
    <| g_stick ::= λ s, match j_reserver j with Some cid => {[ cid ]} ∪ s | None => s end |>.
Definition enq_ghost (id : JobId) (j : JobRec) (g : Ghost) : Ghost :=
  stale_ghost j (g <| g_jobs ::= <[id := j]> |> <| g_hot ::= on_state JobState.Ready j true |>).
Definition deq_ghost (id : JobId) (j : JobRec) (g : Ghost) : Ghost :=
  stale_ghost j (g <| g_jobs ::= delete id |>).

(** ** Facts about [queued] *)
Section queued_facts.
Context (J : Jobs) (id : JobId) (s : JobState) (i : JobId) (P : JobRec → Prop).

Lemma queued_insert j :
  queued (<[id := j]> J) s i P ↔ (i = id ∧ j_state j = s ∧ P j) ∨ (i ≠ id ∧ queued J s i P).
Proof.
  unfold queued. destruct (decide (i = id)) as [->|Hi].
  - rewrite lookup_insert_eq. naive_solver.
  - rewrite lookup_insert_ne by done. naive_solver.
Qed.
Lemma queued_delete : queued (delete id J) s i P ↔ i ≠ id ∧ queued J s i P.
Proof.
  unfold queued. destruct (decide (i = id)) as [->|Hi].
  - rewrite lookup_delete_eq. naive_solver.
  - rewrite lookup_delete_ne by done. naive_solver.
Qed.
Lemma queued_at j : J !! id = Some j → queued J s id P ↔ j_state j = s ∧ P j.
Proof. intros Hj. unfold queued. rewrite Hj. naive_solver. Qed.
Lemma queued_none : J !! id = None → ¬ queued J s id P.
Proof. intros Hj. unfold queued. rewrite Hj. naive_solver. Qed.
End queued_facts.

(** ** The parts under a move *)
Definition at_tube (j : JobRec) (f : TubeState → TubeState) (tid : TubeId) (t : TubeState) : TubeState :=
  if decide (tid = j_tube j) then f t else t.

Lemma incr64_small n : (n < 2 ^ 63)%N → incr64 n = (n + 1)%N.
Proof. intros Hn. unfold incr64, wrap64. apply N.mod_small. lia. Qed.
Lemma incr32_small n : (n + 1 < 2 ^ 32)%N → incr32 n = (n + 1)%N.
Proof. intros Hn. unfold incr32, wrap32. by apply N.mod_small. Qed.
Lemma decr_plus n : decr (n + 1) = n.
Proof. unfold decr, sat_sub. lia. Qed.

Lemma each_tube_move (P P' : TubeId → TubeState → Prop) j f T :
  each_tube P T → (∀ tid t, P tid t → P' tid (at_tube j f tid t)) →
  each_tube P' (alter (fmap f) (j_tube j) T).
Proof.
  intros HT Hf. eapply each_tube_upd; [exact HT|..]; unfold at_tube in Hf.
  - intros tid t _ Hne Ht. specialize (Hf tid t Ht). by rewrite decide_False in Hf.
  - intros t _ Ht. specialize (Hf _ t Ht). by rewrite decide_True in Hf.
Qed.
(** An update that keeps a part at every tube. *)
Lemma each_tube_keep (P : TubeId → TubeState → Prop) f id T :
  each_tube P T → (∀ tid t, P tid t → P tid (f t)) → each_tube P (alter (fmap f) id T).
Proof. intros HT Hf. eapply each_tube_alter; eauto. Qed.

(** The keyed queues need a key that is not in use. *)
Lemma keyed_enq id (m : gmap N JobId) (Q : N → JobId → Prop) k s i :
  (∀ s i, m !! s = Some i ↔ Q s i) → m !! k = None → (∀ s, ¬ Q s id) →
  <[k := id]> m !! s = Some i ↔ (s = k ∧ i = id) ∨ (i ≠ id ∧ Q s i).
Proof.
  intros Hm Hk Hn. rewrite lookup_insert_Some, <-Hm. split.
  - intros [[-> ->]|[Hne Hs]]; [by left|right; split; [|done]].
    intros ->. by apply (Hn s), Hm.
  - intros [[-> ->]|[Hi Hs]]; [by left|right; split; [|done]]. congruence.
Qed.

Section enqueue_parts.
Context (J : Jobs) (id : JobId) (j : JobRec) (Hid : J !! id = None).
Implicit Types (t : TubeState) (tid : TubeId).

Lemma ready_enq tid t : ready_of J tid t → ready_of (<[id := j]> J) tid (at_tube j (enq_tube id j) tid t).
Proof using Hid.
  intros Ht p i. specialize (Ht p i). rewrite queued_insert.
  assert (i = id → ¬ (p, i) ∈ t_ready t) as Hni.
  { intros ->. rewrite Ht. by apply queued_none. }
  unfold at_tube; case_decide; cbn; unfold on_state; destruct (j_state j) eqn:?; set_solver.
Qed.
Lemma delayed_enq tid t : delayed_of J tid t → delayed_of (<[id := j]> J) tid (at_tube j (enq_tube id j) tid t).
Proof using Hid.
  intros Ht p i. specialize (Ht p i). rewrite queued_insert.
  assert (i = id → ¬ (p, i) ∈ t_delayed t) as Hni.
  { intros ->. rewrite Ht. by apply queued_none. }
  unfold at_tube; case_decide; cbn; unfold on_state; destruct (j_state j) eqn:?; set_solver.
Qed.
Lemma buried_enq tid t :
  (j_state j = JobState.Buried → tid = j_tube j → t_buried t !! j_list_seq j = None) →
  buried_of J tid t → buried_of (<[id := j]> J) tid (at_tube j (enq_tube id j) tid t).
Proof using Hid.
  intros Hk Ht s i. rewrite queued_insert.
  assert (∀ s, t_buried t !! s ≠ Some id) as Hni.
  { intros s'. unfold buried_of in Ht. rewrite Ht. by apply queued_none. }
  unfold at_tube; case_decide as Hd; cbn; unfold on_state; destruct (j_state j) eqn:Es;
    try (rewrite (Ht s i); unfold queued; naive_solver).
  rewrite (keyed_enq _ _ _ _ _ _ Ht) by
    (auto; intros s'; rewrite <-(Ht s'); auto). naive_solver.
Qed.

Lemma reserved_enq cid c :
  (if in_state JobState.Reserved j then is_Some (j_reserver j) else j_reserver j = None) →
  (j_reserver j = Some cid → c_reserved c !! j_list_seq j = None) →
  reserved_of J cid c →
  reserved_of (<[id := j]> J) cid (if decide (j_reserver j = Some cid) then enq_conn id j c else c).
Proof using Hid.
  intros Hr Hk [H1 H2].
  assert (∀ s, c_reserved c !! s ≠ Some id) as Hn1.
  { intros s'. rewrite H1. by apply queued_none. }
  assert (∀ d, (d, id) ∉ c_reserved_by_deadline c) as Hn2.
  { intros d. rewrite H2. by apply queued_none. }
  assert (j_reserver j = Some cid → j_state j = JobState.Reserved) as Hs.
  { unfold in_state in Hr. case_bool_decide; congruence. }
  split; intros k i; rewrite queued_insert; case_decide as Hd; cbn.
  - rewrite (keyed_enq _ _ _ _ _ _ H1) by (auto; intros s'; rewrite <-H1; auto). naive_solver.
  - rewrite <-H1. specialize (Hn1 k). destruct (decide (i = id)) as [->|]; naive_solver.
  - rewrite elem_of_union, elem_of_singleton, <-H2. specialize (Hn2 k).
    destruct (decide (i = id)) as [->|]; naive_solver.
  - rewrite <-H2. specialize (Hn2 k). destruct (decide (i = id)) as [->|]; naive_solver.
Qed.

Lemma count_enq P : count P (<[id := j]> J) = (count P J + if P j then 1 else 0)%N.
Proof using Hid. by rewrite count_insert_new. Qed.

Context (Hsize : (N.of_nat (size J) < 2 ^ 63)%N).
Lemma count_enq_incr P n : n = count P J → (if P j then incr64 n else n) = count P (<[id := j]> J).
Proof using Hid Hsize.
  intros ->. rewrite count_enq. pose proof (count_le_size P J).
  destruct (P j); [apply incr64_small|]; lia.
Qed.
Lemma stats_enq tid t : stats_of J tid t → stats_of (<[id := j]> J) tid (at_tube j (enq_tube id j) tid t).
Proof using Hid Hsize.
  intros (H1 & H2 & H3).
  apply count_enq_incr in H1, H2, H3. unfold stats_of. rewrite <-H1, <-H2, <-H3.
  unfold at_tube, urgent_in, state_in, in_state, in_tube, on_state, on_urgent.
  case_decide as Hd; cbn; unfold on_urgent, on_state; destruct (j_state j);
    cbn; rewrite ?(bool_decide_eq_true_2 (j_tube j = tid)),
      ?(bool_decide_eq_false_2 (j_tube j = tid)) by congruence; auto.
Qed.
Lemma counts_enq ct : counts_ok J ct → counts_ok (<[id := j]> J) (link_ct incr64 j ct).
Proof using Hid Hsize.
  intros (H1 & H2 & H3 & H4 & H5). apply count_enq_incr in H1, H2, H3, H4, H5.
  unfold counts_ok. rewrite <-H1, <-H2, <-H3, <-H4, <-H5.
  unfold urgent, in_state, link_ct, on_state, on_urgent. cbn. by destruct (j_state j).
Qed.
End enqueue_parts.

Section dequeue_parts.
Context (J : Jobs) (id : JobId) (j : JobRec) (Hid : J !! id = Some j).
Implicit Types (t : TubeState) (tid : TubeId).

Lemma ready_deq tid t : ready_of J tid t → ready_of (delete id J) tid (at_tube j (deq_tube id j) tid t).
Proof using Hid.
  intros Ht p i. specialize (Ht p i). rewrite queued_delete.
  assert (i = id → (p, i) ∈ t_ready t ↔ j_state j = JobState.Ready ∧ j_tube j = tid ∧ j_pri j = p) as Hni.
  { intros ->. rewrite Ht. by apply queued_at. }
  unfold at_tube; case_decide; cbn; unfold on_state; destruct (j_state j) eqn:?; set_solver.
Qed.
Lemma delayed_deq tid t : delayed_of J tid t → delayed_of (delete id J) tid (at_tube j (deq_tube id j) tid t).
Proof using Hid.
  intros Ht p i. specialize (Ht p i). rewrite queued_delete.
  assert (i = id → (p, i) ∈ t_delayed t ↔
    j_state j = JobState.Delayed ∧ j_tube j = tid ∧ j_deadline_at j = p) as Hni.
  { intros ->. rewrite Ht. by apply queued_at. }
  unfold at_tube; case_decide; cbn; unfold on_state; destruct (j_state j) eqn:?; set_solver.
Qed.
Lemma buried_deq tid t : buried_of J tid t → buried_of (delete id J) tid (at_tube j (deq_tube id j) tid t).
Proof using Hid.
  intros Ht s i. rewrite queued_delete.
  assert (∀ s, t_buried t !! s = Some id ↔
    j_state j = JobState.Buried ∧ j_tube j = tid ∧ j_list_seq j = s) as Hni.
  { intros s'. unfold buried_of in Ht. rewrite Ht. by apply queued_at. }
  unfold at_tube; case_decide as Hd; cbn; unfold on_state; destruct (j_state j) eqn:Es;
    try (specialize (Hni s); rewrite <-(Ht s i); naive_solver).
  rewrite lookup_delete_Some, <-(Ht s i). pose proof (Hni s). pose proof (Hni (j_list_seq j)). naive_solver.
Qed.
Lemma reserved_deq cid c :
  (if in_state JobState.Reserved j then is_Some (j_reserver j) else j_reserver j = None) →
  reserved_of J cid c →
  reserved_of (delete id J) cid (if decide (j_reserver j = Some cid) then deq_conn id j c else c).
Proof using Hid.
  intros Hr [H1 H2].
  assert (∀ s, c_reserved c !! s = Some id ↔
    j_state j = JobState.Reserved ∧ j_reserver j = Some cid ∧ j_list_seq j = s) as Hn1.
  { intros s'. rewrite H1. by apply queued_at. }
  assert (∀ d, (d, id) ∈ c_reserved_by_deadline c ↔
    j_state j = JobState.Reserved ∧ j_reserver j = Some cid ∧ j_deadline_at j = d) as Hn2.
  { intros d. rewrite H2. by apply queued_at. }
  assert (j_reserver j = Some cid → j_state j = JobState.Reserved) as Hs.
  { unfold in_state in Hr. case_bool_decide; congruence. }
  split; intros k i; rewrite queued_delete, <-?H1, <-?H2; case_decide as Hd; cbn;
    rewrite ?lookup_delete_Some, ?elem_of_difference, ?elem_of_singleton.
  - pose proof (Hn1 (j_list_seq j)). specialize (Hn1 k). clear Hn2 H1 H2 Hr.
    destruct (decide (i = id)) as [->|]; naive_solver.
  - specialize (Hn1 k). clear Hn2 H1 H2 Hr. destruct (decide (i = id)) as [->|]; naive_solver.
  - specialize (Hn2 k). clear Hn1 H1 H2 Hr. destruct (decide (i = id)) as [->|]; naive_solver.
  - specialize (Hn2 k). clear Hn1 H1 H2 Hr. destruct (decide (i = id)) as [->|]; naive_solver.
Qed.

Lemma count_deq_decr P n : n = count P J → (if P j then decr n else n) = count P (delete id J).
Proof using Hid.
  intros ->. rewrite (count_delete P J id), Hid. simpl. destruct (P j); [apply decr_plus|lia].
Qed.
Lemma stats_deq tid t : stats_of J tid t → stats_of (delete id J) tid (at_tube j (deq_tube id j) tid t).
Proof using Hid.
  intros (H1 & H2 & H3).
  apply count_deq_decr in H1, H2, H3. unfold stats_of. rewrite <-H1, <-H2, <-H3.
  unfold at_tube, urgent_in, state_in, in_state, in_tube, on_state, on_urgent.
  case_decide as Hd; cbn; unfold on_urgent, on_state; destruct (j_state j);
    cbn; rewrite ?(bool_decide_eq_true_2 (j_tube j = tid)),
      ?(bool_decide_eq_false_2 (j_tube j = tid)) by congruence; auto.
Qed.
Lemma counts_deq ct : counts_ok J ct → counts_ok (delete id J) (link_ct decr j ct).
Proof using Hid.
  intros (H1 & H2 & H3 & H4 & H5). apply count_deq_decr in H1, H2, H3, H4, H5.
  unfold counts_ok. rewrite <-H1, <-H2, <-H3, <-H4, <-H5.
  unfold urgent, in_state, link_ct, on_state, on_urgent. cbn. by destruct (j_state j).
Qed.
End dequeue_parts.

(** ** The moves preserve the invariant *)
Lemma on_state_ne s j {A} (x y : A) : j_state j ≠ s → on_state s j x y = y.
Proof. unfold on_state. by destruct s, (j_state j). Qed.
Lemma stale_not_in s j tid (S : gset TubeId) :
  (tid ∉ on_state s j ({[ j_tube j ]} ∪ S) S) → (tid ∉ S) ∧ (tid = j_tube j → j_state j ≠ s).
Proof. unfold on_state. destruct s, (j_state j); set_solver. Qed.

Lemma Core_size g e : Core g e → (N.of_nat (size (e_jobs e)) < 2 ^ 63)%N.
Proof.
  intros HC. pose proof (co_bounds _ _ HC) as ((Hb & _) & [_ Hn] & _).
  assert (N.of_nat (size (e_jobs e)) ≤ e_next_job_id e)%N as Hs.
  { apply size_below. intros k j Hk. by apply (co_jobs _ _ HC) in Hk as (_ & ? & _). }
  unfold counter_limit in Hb. lia.
Qed.
Lemma Core_size_queued g e : Core g e → (N.of_nat (size (g_jobs g)) < 2 ^ 63)%N.
Proof.
  intros HC. pose proof (Core_size _ _ HC). pose proof (co_sub _ _ HC) as Hs%subseteq_dom.
  apply subseteq_size in Hs. rewrite !size_dom in Hs. lia.
Qed.

Ltac core_at j H :=
  destruct H; constructor; eng;
  try solve [frame | unfold at_reserver; destruct (j_reserver j); frame].

Lemma queued_reserver C seq id j :
  queued_ok C seq id j →
  if in_state JobState.Reserved j then is_Some (j_reserver j) else j_reserver j = None.
Proof. intros [Hr _]. destruct (in_state _ j); [|done]. destruct Hr as (? & -> & _). eauto. Qed.

Lemma at_reserver_is_Some j f C c : is_Some (at_reserver j f C !! c) ↔ is_Some (C !! c).
Proof. unfold at_reserver. destruct (j_reserver j); [apply alter_is_Some|done]. Qed.
Lemma map_Forall_at_reserver (P P' : ConnId → ConnState → Prop) j f C :
  map_Forall P C → (∀ cid c, C !! cid = Some c → P cid c →
                    P' cid (if decide (j_reserver j = Some cid) then f c else c)) →
  map_Forall P' (at_reserver j f C).
Proof.
  intros HC Hf. unfold at_reserver. destruct (j_reserver j) as [r|].
  - eapply map_Forall_upd; [exact HC|..].
    + intros i x Hx Hi Hp. specialize (Hf i x Hx Hp). by rewrite decide_False in Hf by congruence.
    + intros x Hx Hp. specialize (Hf r x Hx Hp). by rewrite decide_True in Hf.
  - intros i x Hx. specialize (Hf i x Hx (HC i x Hx)). by rewrite decide_False in Hf.
Qed.

(** The key a keyed queue is about to get is free. *)
Definition key_free (e : Engine) (j : JobRec) : Prop :=
  (j_state j = JobState.Buried → ∀ t, slot (e_tubes e) (j_tube j) = Some t →
     t_buried t !! j_list_seq j = None) ∧
  (∀ cid c, j_reserver j = Some cid → e_conns e !! cid = Some c →
     c_reserved c !! j_list_seq j = None).

Lemma Core_enqueue g e id j j0 :
  Core g e → g_jobs g !! id = None → e_jobs e !! id = Some j0 → j_tube j0 = j_tube j →
  job_ok (e_tubes e) (e_next_job_id e) id j →
  queued_ok (e_conns e) (e_next_list_seq e) id j → key_free e j →
  Core (enq_ghost id j g) (enqueue id j e).
Proof.
  intros HC Hid Hj0 Htube Hj Hq [Hkb Hkr].
  pose proof (Core_size_queued _ _ HC) as Hsize.
  unfold enqueue, enq_ghost, stale_ghost. core_at j HC.
  - eapply job_ok_alter, map_Forall_insert_2; done.
  - eapply each_tube_keep; [|done]. eapply each_tube_impl; [exact co_refs|]. intros tid t _ Ht.
    unfold job_refs_ok in *. rewrite Ht. pose proof (count_insert (in_tube tid) (e_jobs e) id j) as Hc.
    rewrite Hj0 in Hc. simpl in Hc. unfold in_tube in Hc |- *. rewrite Htube in Hc. lia.
  - by apply insert_mono.
  - eapply each_tube_move; [exact co_ready|]. by apply ready_enq.
  - eapply each_tube_move; [exact co_delayed|]. by apply delayed_enq.
  - assert (each_tube (λ tid t, slot (e_tubes e) tid = Some t ∧ buried_of (g_jobs g) tid t) (e_tubes e)) as Hb.
    { intros tid t Ht. split; [done|]. exact (co_buried _ _ Ht). }
    eapply each_tube_move; [exact Hb|]. intros tid t [Ht Hbt]. apply buried_enq; [done| |done].
    intros Hs ->. eauto.
  - eapply each_tube_move; [exact co_stats|]. by apply stats_enq.
  - eapply map_Forall_at_reserver; [exact co_reserved|]. intros cid c Hc Hr.
    apply reserved_enq; [done|exact (queued_reserver _ _ _ _ Hq)|eauto|done].
  - apply map_Forall_insert_2.
    + eapply queued_ok_conns; [exact Hq|]. intros c. by rewrite at_reserver_is_Some.
    + unfold at_reserver; destruct (j_reserver j); frame.
  - by apply counts_enq.
  - destruct co_pending as [Hp1 Hp2].
    assert (pending_ok (e_conns e) (<[id := j]> (e_jobs e)) (e_next_job_id e)) as Hp.
    { split; [|done]. intros cid pid Hp. destruct (Hp1 cid pid Hp). split; [done|].
      rewrite lookup_insert_ne by congruence. done. }
    unfold at_reserver. destruct (j_reserver j); frame.
  - eapply map_Forall_at_reserver; [exact co_tick_key|]. intros cid c Hc Ht.
    case_decide as Hd; [rewrite Hd; intros Hn; set_solver|].
    intros Hn. apply Ht. destruct (j_reserver j); set_solver.
  - eapply each_tube_move; [exact co_delay_key|]. intros tid t Ht [Hn Hs]%stale_not_in.
    unfold at_tube. case_decide; [|by apply Ht]. unfold delay_head_of. cbn.
    rewrite on_state_ne by auto. by apply Ht.
  - eapply each_tube_move; [exact co_disp_key|]. intros tid t Ht [Hn Hs]%stale_not_in.
    unfold at_tube. case_decide; [|by apply Ht]. unfold wants_dispatch. cbn.
    rewrite on_state_ne by auto. by apply Ht.
  - eapply each_tube_move; [exact co_drained|]. intros tid t Ht Hn.
    destruct (decide (j_state j = JobState.Ready)) as [Hs|Hs].
    + unfold on_state in Hn. by rewrite Hs in Hn.
    + rewrite on_state_ne in Hn by done. unfold at_tube. case_decide; [|by apply Ht].
      unfold wants_dispatch. cbn. rewrite on_state_ne by done. by apply Ht.
Qed.

Lemma Core_dequeue g e id j :
  Core g e → g_jobs g !! id = Some j → Core (deq_ghost id j g) (dequeue id j e).
Proof.
  intros HC Hid. pose proof (co_queued _ _ HC _ _ Hid) as Hq.
  unfold dequeue, deq_ghost, stale_ghost. core_at j HC.
  - etrans; [apply delete_subseteq|done].
  - eapply each_tube_move; [exact co_ready|]. by apply ready_deq.
  - eapply each_tube_move; [exact co_delayed|]. by apply delayed_deq.
  - eapply each_tube_move; [exact co_buried|]. by apply buried_deq.
  - eapply each_tube_move; [exact co_stats|]. by apply stats_deq.
  - eapply map_Forall_at_reserver; [exact co_reserved|]. intros cid c Hc Hr.
    apply reserved_deq; [done|exact (queued_reserver _ _ _ _ Hq)|done].
  - apply map_Forall_delete. unfold at_reserver; destruct (j_reserver j); frame.
  - by apply counts_deq.
  - eapply map_Forall_at_reserver; [exact co_tick_key|]. intros cid c Hc Ht.
    case_decide as Hd; [rewrite Hd; intros Hn; set_solver|].
    intros Hn. apply Ht. destruct (j_reserver j); set_solver.
  - eapply each_tube_move; [exact co_delay_key|]. intros tid t Ht [Hn Hs]%stale_not_in.
    unfold at_tube. case_decide; [|by apply Ht]. unfold delay_head_of. cbn.
    rewrite on_state_ne by auto. by apply Ht.
  - eapply each_tube_move; [exact co_disp_key|]. intros tid t Ht [Hn Hs]%stale_not_in.
    unfold at_tube. case_decide; [|by apply Ht]. unfold wants_dispatch. cbn.
    rewrite on_state_ne by auto. by apply Ht.
  - eapply each_tube_keep; [exact co_drained|]. intros tid t Ht Hn. unfold wants_dispatch. cbn.
    unfold on_state. destruct (j_state j); [|by apply Ht..].
    intros [Hw He%negb_true_iff%bool_decide_eq_false]%andb_true_iff. apply Ht; [done|]. unfold wants_dispatch.
    rewrite Hw. simpl. apply negb_true_iff, bool_decide_eq_false. set_solver.
Qed.
