(* ===== verification/Moves.v ===== *)
(** * The job transitions of the engine as moves

    The [insert_*], [remove_*], [do_reserve] and [do_unreserve] routines are
    [enqueue] or [dequeue] followed by the refresh of one key.  [Rest] is the
    invariant at rest, [Float id] the invariant while job [id] is off every
    queue; the routines go from one to the other. *)

From S2P Require Import Prelude Ms Proto Model Engine Inv InvFrame InvRefresh Queues.
From stdpp Require Import options.

(** ** The equations *)
Lemma alter_is_insert {V} (f : V → V) (k : N) (m : gmap N V) x :
  m !! k = Some x → alter f k m = <[k := f x]> m.
Proof.
  intros Hk. apply map_eq. intros i. destruct (decide (i = k)) as [->|].
  - by rewrite lookup_alter_eq, lookup_insert_eq, Hk.
  - by rewrite lookup_alter_ne, lookup_insert_ne.
Qed.
Lemma slab_alter_ext (f h : TubeState → TubeState) tid (T : Slab) :
  (∀ t, slot T tid = Some t → f t = h t) → alter (fmap f) tid T = alter (fmap h) tid T.
Proof.
  intros Hf. apply list_alter_ext; [|done]. intros [t|] Ht; [|done]. simpl. f_equal. apply Hf.
  by apply slot_Some.
Qed.

Lemma slab_alter_compose (f h : TubeState → TubeState) tid (T : Slab) :
  alter (fmap f) tid (alter (fmap h) tid T) = alter (fmap (λ t, f (h t))) tid T.
Proof.
  apply list_eq. intros i. destruct (decide (i = tid)) as [->|].
  - rewrite !list_lookup_alter_eq. by destruct (T !! tid) as [[]|].
  - by rewrite !list_lookup_alter_ne.
Qed.

(** Compare two engines component by component. *)
Ltac engine_eq :=
  lazymatch goal with e : Engine |- _ => open_engine e end;
  unfold enqueue, dequeue; eng_all; f_equal.
Ltac tube_eq :=
  apply slab_alter_ext; intros [? ? ? ? ? ? ? ? [] ? ? ? ? ?] ?;
  unfold enq_tube, deq_tube, link_stat, on_state, on_urgent; cbn.
Ltac ct_eq :=
  match goal with c : Counts |- _ => destruct c end;
  unfold link_ct, on_state, on_urgent; cbn.

Section equations.
Context (e : Engine) (id : JobId) (j : JobRec) (Hj : e_jobs e !! id = Some j).

Definition readied (j : JobRec) : JobRec :=
  j <| j_state := JobState.Ready |> <| j_reserver := None |>.
Lemma insert_ready_eq tid :
  tid = j_tube j →
  insert_ready tid id e = refresh_dispatchable tid (enqueue id (readied j) e).
Proof using Hj.
  intros ->. unfold insert_ready. rewrite Hj. f_equal. unfold enqueue.
  destruct (is_urgent (j_pri j)) eqn:Eu; engine_eq;
    [by rewrite (alter_is_insert _ _ _ _ Hj)| | |by rewrite (alter_is_insert _ _ _ _ Hj)| |].
  - tube_eq. by rewrite Eu.
  - ct_eq. by rewrite Eu.
  - tube_eq. by rewrite Eu.
  - ct_eq. by rewrite Eu.
Qed.

Lemma remove_ready_eq tid :
  tid = j_tube j → j_state j = JobState.Ready → j_reserver j = None →
  remove_ready tid id e = refresh_dispatchable tid (dequeue id j e).
Proof using Hj.
  intros -> Hs Hr. unfold remove_ready. rewrite Hj. f_equal. unfold dequeue, at_reserver. rewrite Hr.
  destruct (is_urgent (j_pri j)) eqn:Eu; engine_eq.
  - tube_eq. by rewrite Hs, Eu.
  - ct_eq. by rewrite Hs, Eu.
  - tube_eq. by rewrite Hs, Eu.
  - ct_eq. by rewrite Hs, Eu.
Qed.

Definition delayed_until (d : Nanos) (j : JobRec) : JobRec :=
  j <| j_state := JobState.Delayed |> <| j_reserver := None |> <| j_deadline_at := d |>.
Lemma insert_delayed_eq tid d t :
  tid = j_tube j → slot (e_tubes e) tid = Some t → (d, id) ∉ t_delayed t →
  insert_delayed tid id d e = refresh_delay_head tid (enqueue id (delayed_until d j) e).
Proof using Hj.
  intros -> Ht Hn. unfold insert_delayed. f_equal. unfold tube. eng. rewrite Ht.
  rewrite bool_decide_eq_true_2 by done. engine_eq; first [by rewrite (alter_is_insert _ _ _ _ Hj) | by tube_eq].
Qed.

Lemma remove_delayed_eq tid t :
  tid = j_tube j → slot (e_tubes e) tid = Some t → (j_deadline_at j, id) ∈ t_delayed t →
  j_state j = JobState.Delayed → j_reserver j = None →
  remove_delayed tid id e = refresh_delay_head tid (dequeue id j e).
Proof using Hj.
  intros -> Ht Hin Hs Hr. unfold remove_delayed. f_equal. unfold tube. rewrite Hj, Ht.
  rewrite bool_decide_eq_true_2 by done. unfold dequeue, at_reserver. rewrite Hr. engine_eq.
  - tube_eq. by rewrite Hs.
  - ct_eq. by rewrite Hs.
Qed.

Definition buried_as (seq : N) (j : JobRec) : JobRec :=
  j <| j_state := JobState.Buried |> <| j_reserver := None |>
    <| j_bury_ct ::= incr32 |> <| j_list_seq := seq |>.
Lemma insert_buried_eq tid :
  tid = j_tube j →
  insert_buried tid id e =
    enqueue id (buried_as (e_next_list_seq e) j) (e <| e_next_list_seq ::= incr64 |>).
Proof using Hj.
  intros ->. unfold insert_buried. engine_eq; first [by rewrite (alter_is_insert _ _ _ _ Hj) | by tube_eq].
Qed.

Lemma remove_buried_eq tid t :
  tid = j_tube j → slot (e_tubes e) tid = Some t → t_buried t !! j_list_seq j = Some id →
  j_state j = JobState.Buried → j_reserver j = None →
  remove_buried tid id e = (true, dequeue id j e).
Proof using Hj.
  intros -> Ht Hin Hs Hr. unfold remove_buried, tube. rewrite Hj, Ht.
  rewrite bool_decide_eq_true_2 by done. f_equal. unfold dequeue, at_reserver. rewrite Hr. engine_eq.
  - tube_eq. by rewrite Hs.
  - ct_eq. by rewrite Hs.
Qed.
Lemma pop_buried_front_eq tid t :
  tid = j_tube j → slot (e_tubes e) tid = Some t → bm_first (t_buried t) = Some (j_list_seq j, id) →
  j_state j = JobState.Buried → j_reserver j = None →
  pop_buried_front tid e = (Some id, dequeue id j e).
Proof using Hj.
  intros -> Ht Hin Hs Hr. unfold pop_buried_front, tube. rewrite Ht, Hin.
  f_equal. unfold dequeue, at_reserver. rewrite Hr. engine_eq.
  - tube_eq. by rewrite Hs.
  - ct_eq. by rewrite Hs.
Qed.

Definition reserved_as (cid : ConnId) (d : Nanos) (seq : N) (j : JobRec) : JobRec :=
  j <| j_state := JobState.Reserved |> <| j_reserver := Some cid |>
    <| j_deadline_at := d |> <| j_reserve_ct ::= incr32 |> <| j_list_seq := seq |>.
Lemma do_reserve_eq cid now :
  do_reserve cid id now e =
    refresh_conn_tick cid
      (enqueue id (reserved_as cid (sat_add64 now (secs (j_ttr j))) (e_next_list_seq e) j)
         (e <| e_next_list_seq ::= incr64 |>)).
Proof using Hj.
  unfold do_reserve. rewrite Hj. f_equal. engine_eq; first [by rewrite (alter_is_insert _ _ _ _ Hj) | by tube_eq].
Qed.

Lemma do_unreserve_eq cid c :
  e_conns e !! cid = Some c → c_reserved c !! j_list_seq j = Some id →
  j_state j = JobState.Reserved → j_reserver j = Some cid →
  do_unreserve cid id e =
    refresh_conn_tick cid (upd_job id (λ j, j <| j_reserver := None |>) (dequeue id j e)).
Proof using Hj.
  intros Hc Hin Hs Hr. unfold do_unreserve. rewrite Hj. f_equal. unfold dequeue, at_reserver.
  rewrite Hr. engine_eq.
  - tube_eq. by rewrite Hs.
  - apply alter_ext. intros c' Hc'. rewrite Hc in Hc'. injection Hc' as <-.
    by rewrite bool_decide_eq_true_2.
  - ct_eq. by rewrite Hs.
Qed.
End equations.

(** ** What the refresh routines leave alone *)
Definition rels (e : Engine) : gmap ConnId (TubeId * Ms TubeId * option Nanos * bool) :=
  (λ c, (c_use_tube c, c_watch c, c_wait_deadline c, c_waiting c)) <$> e_conns e.

Lemma fmap_alter_id {V B} (g : V → B) (f : V → V) (k : N) (m : gmap N V) :
  (∀ x, g (f x) = g x) → g <$> alter f k m = g <$> m.
Proof.
  intros Hf. apply map_eq. intros i. rewrite !lookup_fmap. by apply lookup_alter_fmap.
Qed.
Lemma rels_upd_conn cid f e :
  (∀ c, c_use_tube (f c) = c_use_tube c) → (∀ c, c_watch (f c) = c_watch c) →
  (∀ c, c_wait_deadline (f c) = c_wait_deadline c) → (∀ c, c_waiting (f c) = c_waiting c) →
  rels (upd_conn cid f e) = rels e.
Proof. intros H1 H2 H3 H4. apply fmap_alter_id. intros c. by rewrite H1, H2, H3, H4. Qed.

Section refresh_facts.
Context (tid : TubeId) (cid : ConnId) (e : Engine).
Lemma jobs_refresh_disp : e_jobs (refresh_dispatchable tid e) = e_jobs e.
Proof. unfold refresh_dispatchable. by repeat case_match. Qed.
Lemma conns_refresh_disp : e_conns (refresh_dispatchable tid e) = e_conns e.
Proof. unfold refresh_dispatchable. by repeat case_match. Qed.
Lemma jobs_refresh_delay : e_jobs (refresh_delay_head tid e) = e_jobs e.
Proof. unfold refresh_delay_head. by repeat case_match. Qed.
Lemma conns_refresh_delay : e_conns (refresh_delay_head tid e) = e_conns e.
Proof. unfold refresh_delay_head. by repeat case_match. Qed.
Lemma jobs_refresh_tick : e_jobs (refresh_conn_tick cid e) = e_jobs e.
Proof. unfold refresh_conn_tick. by repeat case_match. Qed.
Lemma rels_refresh_disp : rels (refresh_dispatchable tid e) = rels e.
Proof. unfold rels. by rewrite conns_refresh_disp. Qed.
Lemma rels_refresh_delay : rels (refresh_delay_head tid e) = rels e.
Proof. unfold rels. by rewrite conns_refresh_delay. Qed.
Lemma rels_refresh_tick : rels (refresh_conn_tick cid e) = rels e.
Proof. unfold refresh_conn_tick. repeat case_match; try done; (etrans; [by apply rels_upd_conn|done]). Qed.
End refresh_facts.
Lemma rels_enqueue id j e : rels (enqueue id j e) = rels e.
Proof. unfold rels, enqueue, at_reserver. eng. destruct (j_reserver j); [|done]. by apply fmap_alter_id. Qed.
Lemma rels_dequeue id j e : rels (dequeue id j e) = rels e.
Proof. unfold rels, dequeue, at_reserver. eng. destruct (j_reserver j); [|done]. by apply fmap_alter_id. Qed.
Create Rewrite HintDb eng.
#[export] Hint Rewrite jobs_refresh_disp jobs_refresh_delay jobs_refresh_tick rels_refresh_disp
  rels_refresh_delay rels_refresh_tick rels_enqueue rels_dequeue : eng.

(** ** Each routine preserves the invariant *)
Section core_moves.
Context (g : Ghost) (e : Engine) (HC : Core g e) (id : JobId) (j : JobRec).

Lemma queued_job : g_jobs g !! id = Some j → e_jobs e !! id = Some j.
Proof using HC. intros Hj. eapply lookup_weaken; [done|]. by apply HC. Qed.
Lemma queued_no_reserver :
  g_jobs g !! id = Some j → j_state j ≠ JobState.Reserved → j_reserver j = None.
Proof using HC.
  intros Hj Hs. apply (co_queued _ _ HC) in Hj as [Hr _]. unfold in_state in Hr.
  by rewrite bool_decide_eq_false_2 in Hr.
Qed.
Lemma queued_tube : g_jobs g !! id = Some j → ∃ t, slot (e_tubes e) (j_tube j) = Some t.
Proof using HC. intros Hj%queued_job. by apply (co_jobs _ _ HC) in Hj as (_ & _ & _ & ?). Qed.

Lemma Core_remove_ready :
  g_jobs g !! id = Some j → j_state j = JobState.Ready →
  Core (g <| g_jobs ::= delete id |>) (remove_ready (j_tube j) id e).
Proof using HC.
  intros Hj Hs. assert (j_reserver j = None) as Hr by (apply queued_no_reserver; congruence).
  rewrite (remove_ready_eq _ _ _ (queued_job Hj)) by done.
  apply Core_refresh_dispatchable. pose proof (Core_dequeue _ _ _ _ HC Hj) as Hd.
  unfold deq_ghost, stale_ghost, on_state in Hd. rewrite Hs, Hr in Hd. exact Hd.
Qed.
Lemma Core_remove_delayed :
  g_jobs g !! id = Some j → j_state j = JobState.Delayed →
  Core (g <| g_jobs ::= delete id |>) (remove_delayed (j_tube j) id e).
Proof using HC.
  intros Hj Hs. assert (j_reserver j = None) as Hr by (apply queued_no_reserver; congruence).
  destruct (queued_tube Hj) as [t Ht].
  rewrite (remove_delayed_eq _ _ _ (queued_job Hj) _ t) by
    (try done; apply (co_delayed _ _ HC _ _ Ht); by exists j).
  apply Core_refresh_delay_head. pose proof (Core_dequeue _ _ _ _ HC Hj) as Hd.
  unfold deq_ghost, stale_ghost, on_state in Hd. rewrite Hs, Hr in Hd. exact Hd.
Qed.
Lemma Core_dequeue_buried :
  g_jobs g !! id = Some j → j_state j = JobState.Buried →
  Core (g <| g_jobs ::= delete id |>) (dequeue id j e).
Proof using HC.
  intros Hj Hs. assert (j_reserver j = None) as Hr by (apply queued_no_reserver; congruence).
  pose proof (Core_dequeue _ _ _ _ HC Hj) as Hd.
  unfold deq_ghost, stale_ghost, on_state in Hd. rewrite Hs, Hr in Hd. exact Hd.
Qed.
Lemma remove_buried_moves :
  g_jobs g !! id = Some j → j_state j = JobState.Buried →
  remove_buried (j_tube j) id e = (true, dequeue id j e).
Proof using HC.
  intros Hj Hs. destruct (queued_tube Hj) as [t Ht].
  apply (remove_buried_eq _ _ _ (queued_job Hj) _ t); try done.
  - apply (co_buried _ _ HC _ _ Ht). by exists j.
  - apply queued_no_reserver; congruence.
Qed.
Lemma Core_upd_job f :
  g_jobs g !! id = None → (∀ j, j_id (f j) = j_id j) → (∀ j, j_ttr (f j) = j_ttr j) →
  (∀ j, j_tube (f j) = j_tube j) → Core g (upd_job id f e).
Proof using HC. intros Hj H1 H2 H3. by core HC. Qed.
End core_moves.

Section core_moves_2.
Context (g : Ghost) (e : Engine) (HC : Core g e) (id : JobId) (j : JobRec).

Lemma Core_do_unreserve cid :
  g_jobs g !! id = Some j → j_state j = JobState.Reserved → j_reserver j = Some cid →
  Core (g <| g_jobs ::= delete id |>) (do_unreserve cid id e).
Proof using HC.
  intros Hj Hs Hr. pose proof (co_queued _ _ HC _ _ Hj) as [Hq _].
  unfold in_state in Hq. rewrite bool_decide_eq_true_2 in Hq by done.
  destruct Hq as (c' & Hc' & c & Hc). replace c' with cid in * by congruence.
  rewrite (do_unreserve_eq _ _ _ (queued_job _ _ HC _ _ Hj) _ c); try done.
  2: { apply (co_reserved _ _ HC _ _ Hc). by exists j. }
  apply Core_refresh_conn_tick, Core_upd_job; [|apply lookup_delete_eq|done..].
  pose proof (Core_dequeue _ _ _ _ HC Hj) as Hd.
  unfold deq_ghost, stale_ghost, on_state in Hd. rewrite Hs, Hr in Hd. exact Hd.
Qed.

Context (Hid : g_jobs g !! id = None) (Hj : e_jobs e !! id = Some j).

(** A job record derived from [j] by a transition. *)
Lemma job_ok_like j' :
  j_id j' = j_id j → j_ttr j' = j_ttr j → j_tube j' = j_tube j →
  job_ok (e_tubes e) (e_next_job_id e) id j'.
Proof using HC Hj.
  intros H1 H2 H3. unfold job_ok. rewrite H1, H2, H3. by apply (co_jobs _ _ HC).
Qed.

Lemma Core_insert_ready :
  Core (g <| g_jobs ::= <[id := readied j]> |> <| g_hot := true |>) (insert_ready (j_tube j) id e).
Proof using HC Hid Hj.
  rewrite (insert_ready_eq _ _ _ Hj) by done. apply Core_refresh_dispatchable.
  apply (Core_enqueue g e id (readied j) j); try done.
  - by apply job_ok_like.
  - split; [done|]. by intros [|].
Qed.
Lemma Core_insert_delayed d :
  Core (g <| g_jobs ::= <[id := delayed_until d j]> |>) (insert_delayed (j_tube j) id d e).
Proof using HC Hid Hj.
  pose proof (co_jobs _ _ HC _ _ Hj) as (_ & _ & _ & t & Ht).
  rewrite (insert_delayed_eq _ _ _ Hj _ _ t); [|done..|].
  - apply Core_refresh_delay_head. apply (Core_enqueue g e id (delayed_until d j) j); try done.
    + by apply job_ok_like.
    + split; [done|]. by intros [|].
  - intros Hin. apply (co_delayed _ _ HC _ _ Ht) in Hin. by apply queued_none in Hin.
Qed.

(** Taking a list key needs room. *)
Definition seq_room : Prop := (seq_used (e_next_list_seq e) (e_conns e) < b_seq (g_budget g))%N.
Lemma seq_room_incr : seq_room → incr64 (e_next_list_seq e) = (e_next_list_seq e + 1)%N.
Proof using HC.
  intros Hr. apply incr64_small. unfold seq_room, seq_used in Hr.
  pose proof (co_bounds _ _ HC) as ((_ & Hb & _) & _). unfold counter_limit in Hb. lia.
Qed.
Lemma Core_bump_seq : seq_room → Core g (e <| e_next_list_seq ::= incr64 |>).
Proof using HC.
  intros Hr. pose proof (seq_room_incr Hr) as Hi. core HC; rewrite Hi.
  - intros i j' Hj'. destruct (co_queued _ _ Hj') as [H1 H2]. split; [done|]. intros Hs. specialize (H2 Hs). lia.
  - destruct co_bounds as (? & ? & ? & ? & ?). unfold seq_room, seq_used in *.
    split_and!; unfold seq_used; (done || lia).
Qed.
Lemma seq_fresh_buried t :
  slot (e_tubes e) (j_tube j) = Some t → t_buried t !! e_next_list_seq e = None.
Proof using HC.
  intros Ht. destruct (t_buried t !! _) as [i|] eqn:E; [|done].
  apply (co_buried _ _ HC _ _ Ht) in E as (j' & Hj' & Hs & _ & Hq).
  apply (co_queued _ _ HC) in Hj' as [_ Hlt]. specialize (Hlt ltac:(auto)). lia.
Qed.
Lemma seq_fresh_reserved cid c :
  e_conns e !! cid = Some c → c_reserved c !! e_next_list_seq e = None.
Proof using HC.
  intros Ht. destruct (c_reserved c !! _) as [i|] eqn:E; [|done].
  apply (co_reserved _ _ HC _ _ Ht) in E as (j' & Hj' & Hs & _ & Hq).
  apply (co_queued _ _ HC) in Hj' as [_ Hlt]. specialize (Hlt ltac:(auto)). lia.
Qed.

Lemma Core_insert_buried :
  seq_room →
  Core (g <| g_jobs ::= <[id := buried_as (e_next_list_seq e) j]> |>) (insert_buried (j_tube j) id e).
Proof using HC Hid Hj.
  intros Hr. rewrite (insert_buried_eq _ _ _ Hj) by done.
  apply (Core_enqueue g _ id (buried_as (e_next_list_seq e) j) j); try done.
  - by apply Core_bump_seq.
  - by apply job_ok_like.
  - split; [done|]. intros _. eng. rewrite seq_room_incr by done. cbn. lia.
  - split; [|done]. intros _ t Ht. by apply seq_fresh_buried.
Qed.
Lemma Core_do_reserve cid now :
  is_Some (e_conns e !! cid) → seq_room →
  Core (g <| g_jobs ::= <[id := reserved_as cid (sat_add64 now (secs (j_ttr j))) (e_next_list_seq e) j]> |>)
    (do_reserve cid id now e).
Proof using HC Hid Hj.
  intros Hc Hr. rewrite (do_reserve_eq _ _ _ Hj). apply Core_refresh_conn_tick.
  eapply (Core_enqueue g _ id (reserved_as cid _ (e_next_list_seq e) j) j); try done.
  - by apply Core_bump_seq.
  - by apply job_ok_like.
  - split; [exists cid; eauto|]. intros _. eng. rewrite seq_room_incr by done. cbn. lia.
  - split; [done|]. intros cid' c' _ Hc'. cbn in *. by eapply seq_fresh_reserved.
Qed.
End core_moves_2.
