(* ===== verification/Tubes.v ===== *)
(** * The tube registry

    [find_or_make_tube] and [gc_tube_if_orphan]: the slab, the name table, the
    list order and the free list stay in step, and a tube is destroyed exactly
    when nothing refers to it. *)

From S2P Require Import Prelude Ms Proto Model Engine Inv InvFrame InvRefresh Queues Moves.
From stdpp Require Import options.

(** ** Slabs with one slot changed *)
Definition slab_with (T T' : Slab) (id : TubeId) (o : option TubeState) : Prop :=
  ∀ i, slot T' i = if decide (i = id) then o else slot T i.

Lemma slab_clear (T : Slab) id : slab_with T (<[id := None]> T) id None.
Proof.
  intros i. destruct (decide (id < length T)); [by apply slot_insert|].
  rewrite list_insert_ge by lia. case_decide as Hd; [|done]. subst i.
  unfold slot. by rewrite lookup_ge_None_2 by lia.
Qed.

Section slab_with.
Context (T T' : Slab) (id : TubeId) (o : option TubeState) (HT : slab_with T T' id o).

Lemma slab_slot i : i ≠ id → slot T' i = slot T i.
Proof using HT. intros. rewrite HT. by case_decide. Qed.
Lemma slab_slot_eq : slot T' id = o.
Proof using HT. rewrite HT. by case_decide. Qed.

Lemma each_tube_with P :
  each_tube P T → (∀ t, o = Some t → P id t) → each_tube P T'.
Proof using HT.
  intros HP Ho i t. rewrite HT. case_decide as Hd; [subst|]; [by apply Ho|by apply HP].
Qed.
Lemma live_with i : i ≠ id → live T' i ↔ live T i.
Proof using HT. intros. unfold live. by rewrite slab_slot. Qed.
Lemma rel_live_with R : rel_live T R → (∀ cid, (cid, id) ∉ R) → rel_live T' R.
Proof using HT.
  intros HR Hn cid i Hin. apply live_with; [|by eapply HR]. intros ->. by eapply Hn.
Qed.
Lemma tube_index_with {A} `{Countable A} (g : TubeState → option A) S k :
  tube_index g T S → slot T id ≫= g = k → o ≫= g = None →
  tube_index g T' (match k with Some d => S ∖ {[ (d, id) ]} | None => S end).
Proof using HT.
  intros HS Hk Ho d i. specialize (HS d i). rewrite HT. case_decide as Hd; [subst i|].
  - rewrite Ho. rewrite Hk in HS. destruct k; set_solver.
  - rewrite <-HS. destruct k; set_solver.
Qed.
Lemma flag_set_with g S b :
  flag_set g T S → g <$> slot T id = Some b ∨ slot T id = None ∧ b = false →
  g <$> o ≠ Some true →
  flag_set g T' (if b then S ∖ {[ id ]} else S).
Proof using HT.
  intros HS Hb Ho i. specialize (HS i). rewrite HT. case_decide as Hd; [subst i|].
  - destruct Hb as [Hb|[Hb Hf]]; rewrite Hb in HS; [destruct b|subst b]; set_solver.
  - rewrite <-HS. destruct b; set_solver.
Qed.
End slab_with.

(** ** The list order as positions *)
Lemma order_append (order : list TubeId) (pos pos' : TubeId → option nat) id :
  (∀ p i, order !! p = Some i ↔ pos i = Some p) → pos id = None →
  (∀ i, pos' i = if decide (i = id) then Some (length order) else pos i) →
  ∀ p i, (order ++ [id]) !! p = Some i ↔ pos' i = Some p.
Proof.
  intros Ho Hn Hp p i. rewrite Hp, lookup_app_Some, list_lookup_singleton_Some. case_decide as Hd.
  - subst i. rewrite Ho, Hn. split; [intros [|]; [done|f_equal; lia]|]. intros [= <-]. right. split_and!; (done || lia).
  - rewrite Ho. naive_solver.
Qed.

Lemma order_remove (order order' : list TubeId) (pos pos' : TubeId → option nat) id p :
  (∀ p i, order !! p = Some i ↔ pos i = Some p) → pos id = Some p →
  swap_remove p order = Some (id, order') →
  (∀ i, pos' i = if decide (i = id) then None
                 else if decide (order' !! p = Some i) then Some p else pos i) →
  ∀ q i, order' !! q = Some i ↔ pos' i = Some q.
Proof.
  intros Ho Hid Hs Hp q i. pose proof (swap_remove_lookup _ _ _ _ q Hs) as Hq.
  pose proof (swap_remove_lookup _ _ _ _ p Hs) as Hpp. rewrite (decide_True (P := p = p)) in Hpp by done.
  assert (∀ x, last order = Some x ↔ pos x = Some (length order - 1)) as Hlast.
  { intros x. rewrite last_lookup, <-Ho. by replace (pred (length order)) with (length order - 1) by lia. }
  rewrite Hp, Hq. apply swap_remove_spec in Hs as [Hs _]. pose proof (lookup_lt_Some _ _ _ Hs).
  assert (∀ r x, pos x = Some r → r < length order) as Hlt.
  { intros r x Hx. apply Ho in Hx. by eapply lookup_lt_Some. }
  assert (∀ x y r, pos x = Some r → pos y = Some r → x = y) as Hinj.
  { intros x y r Hx%Ho Hy%Ho. congruence. }
  rewrite Hpp. clear Hpp Hq Hp Hs.
  destruct (decide (i = id)) as [->|Hi].
  - repeat case_decide; rewrite ?Hlast, ?Ho, ?Hid; split; (congruence || (intros; simplify_eq; lia)).
  - destruct (decide (pos i = Some (length order - 1))) as [Hl|Hl].
    + assert (p ≠ length order - 1) by (intros ->; eauto).
      rewrite (proj2 (Hlast i) Hl).
      repeat case_decide; rewrite ?Ho; split; intros; simplify_eq; (lia || done).
    + assert (last order ≠ Some i) by (by rewrite Hlast).
      assert (pos i ≠ Some p) by eauto.
      repeat case_decide; rewrite ?Ho; split; intros Hq; simplify_eq; try done.
      * pose proof (Hlt _ _ Hq). replace q with (length order - 1) in Hq by lia. done.
      * pose proof (Hlt _ _ Hq). replace q with (length order - 1) in Hq by lia. done.
Qed.

(** ** A slot no part refers to *)
Section free_slot.
Context (g : Ghost) (e : Engine) (HC : Core g e) (id : TubeId) (Hid : slot (e_tubes e) id = None).

Lemma free_not_live : ¬ live (e_tubes e) id.
Proof using Hid. unfold live. rewrite Hid. by intros []. Qed.
Lemma free_no_job i j : e_jobs e !! i = Some j → j_tube j ≠ id.
Proof using HC Hid. intros Hj Ht. apply free_not_live. rewrite <-Ht. by apply (co_jobs _ _ HC) in Hj as (_ & _ & _ & ?). Qed.
Lemma free_no_queued s i P : ¬ queued (g_jobs g) s i (λ j, j_tube j = id ∧ P j).
Proof using HC Hid.
  intros (j & Hj & _ & Ht & _). apply (queued_job _ _ HC) in Hj. by eapply free_no_job.
Qed.
Lemma free_count P A : A ⊆ e_jobs e → count (λ j, P j && in_tube id j) A = 0%N.
Proof using HC Hid.
  intros HA. apply count_zero. intros i j Hj. unfold in_tube.
  rewrite (bool_decide_eq_false_2 (j_tube j = id)); [apply andb_false_r|].
  eapply free_no_job. by eapply lookup_weaken.
Qed.
Lemma free_not_used cid : (cid, id) ∉ g_uses g.
Proof using HC Hid. intros Hin. by apply free_not_live, (co_uses_live _ _ HC cid). Qed.
Lemma free_not_watched cid : (cid, id) ∉ g_watches g.
Proof using HC Hid. intros Hin. by apply free_not_live, (co_watches_live _ _ HC cid). Qed.
Lemma free_not_awaited cid : ((cid, id) ∉ g_waits g) ∧ ((cid, id) ∉ g_waitn g).
Proof using HC Hid.
  pose proof (co_waits_sub _ _ HC) as [H1 H2]. pose proof (free_not_watched cid). set_solver.
Qed.
End free_slot.

(** ** Making a tube *)
Definition more_tubes (b : Budget) : Budget := mkBudget (b_ids b) (b_seq b) (b_conns b) (b_tubes b + 1).

Ltac bounds H :=
  destruct H as ((? & ? & ?) & [? ?] & ? & ? & ?); unfold bounds_ok, budget_ok, seq_used in *;
  cbn [b_ids b_seq b_conns b_tubes more_tubes] in *; split_and!; lia.

Section new_tube.
Context (g : Ghost) (e : Engine) (HC : Core g e) (id : TubeId) (name : TubeName).
Context (T' : Slab) (free' : list TubeId) (Hid : slot (e_tubes e) id = None).
Let st := TubeState_new name (ms_len (e_tube_order e)).
Context (HT : slab_with (e_tubes e) T' id (Some st)).
Context (Hname : e_tube_ids e !! name = None).
Context (Hfree : ∀ i, i ∈ free' ↔ T' !! i = Some None) (Hnd : NoDup free').
Context (Hlen : length T' ≤ length (e_tubes e) + 1).

Lemma each_tube_new P : each_tube P (e_tubes e) → P id st → each_tube P T'.
Proof using HT. intros HP Hs. eapply each_tube_with; [exact HT|done|]. by intros t [= <-]. Qed.

Lemma reg_ok_new :
  reg_ok T' (<[name := id]> (e_tube_ids e)) (ms_items (e_tube_order e) ++ [id]) free'.
Proof using HC HT Hfree Hid Hname Hnd.
  pose proof (co_reg _ _ HC) as ([Hd Hd'] & Hn & Hp & _). pose proof (slab_slot_eq _ _ _ _ HT) as Heq.
  assert (id ≠ DEFAULT_TUBE) as Hne. { intros ->. by rewrite Hid in Hd. }
  split_and!; [..|done|done].
  - by rewrite (slab_slot _ _ _ _ HT).
  - by rewrite (slab_slot _ _ _ _ HT).
  - intros n i. rewrite (HT i), lookup_insert_Some, Hn. case_decide as Hi; [subst i|].
    + rewrite Hid. unfold st. cbn. naive_solver.
    + split; [naive_solver|]. intros Hni. right. split; [|done]. intros <-.
      apply Hn in Hni. congruence.
  - apply (order_append _ (λ i, t_pos <$> slot (e_tubes e) i) (λ i, t_pos <$> slot T' i)); [done|by rewrite Hid|].
    intros i. rewrite (HT i). by case_decide.
Qed.

Lemma Core_new_tube :
  Core (g <| g_orphans ::= ({[ id ]} ∪.) |> <| g_budget ::= more_tubes |>)
    (e <| e_tubes := T' |> <| e_free_tube_ids := free' |>
       <| e_tube_ids ::= <[name := id]> |> <| e_tube_order ::= ms_append id |>).
Proof using HC HT Hfree Hid Hlen Hname Hnd.
  pose proof (free_no_queued _ _ HC _ Hid) as Hnq.
  pose proof (free_not_used _ _ HC _ Hid) as Hnu. pose proof (free_not_watched _ _ HC _ Hid) as Hnw.
  pose proof (free_not_awaited _ _ HC _ Hid) as Hna.
  pose proof (λ P A, free_count _ _ HC _ Hid P A) as Hcount.
  pose proof reg_ok_new as Hreg. core HC.
  - intros i j Hj. destruct (co_jobs _ _ Hj) as (? & ? & ? & ?). split_and!; try done.
    eapply live_with; [exact HT| |done]. by eapply free_no_job.
  - apply each_tube_new; [done|]. unfold job_refs_ok. symmetry. exact (Hcount (λ _, true) _ (reflexivity _)).
  - apply each_tube_new; [done|]. intros p i. split; [set_solver|]. intros Hq. by apply Hnq in Hq.
  - apply each_tube_new; [done|]. intros p i. split; [set_solver|]. intros Hq. by apply Hnq in Hq.
  - apply each_tube_new; [done|]. intros s i. split; [done|]. intros Hq. by apply Hnq in Hq.
  - apply each_tube_new; [done|]. unfold stats_of, st. cbn. split_and!; symmetry; [|by apply Hcount..].
    apply count_zero. intros i j Hj. unfold urgent_in.
    rewrite (proj1 (count_zero _ _) (Hcount (in_state JobState.Ready) _ co_sub) i j Hj). done.
  - apply each_tube_new; [done|]. unfold using_ok. rewrite (proj2 (deg_zero _ _) Hnu). done.
  - apply each_tube_new; [done|]. unfold watching_ok. rewrite (proj2 (deg_zero _ _) Hnw). done.
  - apply each_tube_new; [done|]. split; [constructor|]. intros cid. split; [set_solver|].
    intros Hin. by apply Hna in Hin.
  - apply each_tube_new; [done|]. unfold waiting_ct_ok. rewrite (proj2 (deg_zero _ _)); [done|]. apply Hna.
  - by eapply rel_live_with.
  - by eapply rel_live_with.
  - apply (tube_index_with _ _ _ _ HT _ _ None); [done|by rewrite Hid|done].
  - apply (tube_index_with _ _ _ _ HT _ _ None); [done|by rewrite Hid|done].
  - apply (flag_set_with _ _ _ _ HT _ _ false); [done|by right|done].
  - by apply each_tube_new.
  - by apply each_tube_new.
  - by apply each_tube_new.
  - apply each_tube_new; [|intros Hn; set_solver]. eapply each_tube_impl; [exact co_referenced|].
    intros i t _ Ht Hn. apply Ht. set_solver.
  - by bounds co_bounds.
Qed.
End new_tube.

Lemma pop_Some {A} (l l' : list A) x : pop l = Some (x, l') ↔ l = l' ++ [x].
Proof.
  unfold pop. rewrite bind_Some. setoid_rewrite last_Some. split.
  - intros (y & [l0 ->] & [= <- <-]). rewrite length_app. simpl.
    by rewrite Nat.add_sub, take_app_length.
  - intros ->. exists x. split; [eauto|]. rewrite length_app. simpl.
    by rewrite Nat.add_sub, take_app_length.
Qed.
Lemma pop_None {A} (l : list A) : pop l = None ↔ l = [].
Proof. unfold pop. rewrite bind_None, last_None. naive_solver. Qed.

Lemma Core_more_tubes g e : Core g e → Core (g <| g_budget ::= more_tubes |>) e.
Proof. intros HC. core HC. by bounds co_bounds. Qed.

Lemma Core_find_or_make g e name tid e' :
  Core g e → find_or_make_tube name e = (tid, e') →
  Core (g <| g_orphans ::= ({[ tid ]} ∪.) |> <| g_budget ::= more_tubes |>) e' ∧
  t_name <$> slot (e_tubes e') tid = Some name ∧ e_jobs e' = e_jobs e ∧ e_conns e' = e_conns e ∧
  (∀ i t, slot (e_tubes e) i = Some t → slot (e_tubes e') i = Some t).
Proof.
  intros HC. unfold find_or_make_tube. pose proof (co_reg _ _ HC) as (_ & Hn & _ & Hf & Hnd).
  destruct (e_tube_ids e !! name) as [id|] eqn:En.
  { intros [= <- <-]. split_and!; try done; [|by apply Hn]. by apply Core_more_tubes, Core_orphan. }
  set (st := TubeState_new name (ms_len (e_tube_order e))).
  destruct (pop (e_free_tube_ids e)) as [[id free]|] eqn:Ep; intros [= <- <-].
  - apply pop_Some in Ep. rewrite Ep in Hf, Hnd. apply NoDup_app in Hnd as (Hnd & Hni & _).
    assert (e_tubes e !! id = Some None) as Hid by (apply Hf; set_solver).
    pose proof (lookup_lt_Some _ _ _ Hid) as Hlt.
    assert (slab_with (e_tubes e) (<[id := Some st]> (e_tubes e)) id (Some st)) as Hw.
    { intros i. by apply slot_insert. }
    assert (slot (e_tubes e) id = None) as Hs by (unfold slot; by rewrite Hid).
    assert (∀ i, i ∈ free ↔ <[id := Some st]> (e_tubes e) !! i = Some None) as Hf'.
    { intros i. destruct (decide (i = id)) as [->|].
      - rewrite list_lookup_insert_eq by done. set_solver.
      - rewrite list_lookup_insert_ne by done. rewrite <-Hf. set_solver. }
    assert (length (<[id := Some st]> (e_tubes e)) ≤ length (e_tubes e) + 1) as Hl.
    { rewrite length_insert. lia. }
    split_and!; try done.
    + exact (Core_new_tube g e HC id name _ free Hs Hw En Hf' Hnd Hl).
    + eng. by rewrite (slab_slot_eq _ _ _ _ Hw).
    + intros i t Ht. eng. rewrite (slab_slot _ _ _ _ Hw); [done|]. intros ->. congruence.
  - apply pop_None in Ep. rewrite Ep in Hf.
    assert (length (e_tubes e ++ [Some st]) - 1 = length (e_tubes e)) as Hl1.
    { rewrite length_app. simpl. lia. }
    cbn [e_tubes e_tubes_set set_field]. rewrite Hl1.
    assert (slab_with (e_tubes e) (e_tubes e ++ [Some st]) (length (e_tubes e)) (Some st)) as Hw.
    { intros i. apply slot_app. }
    assert (slot (e_tubes e) (length (e_tubes e)) = None) as Hs.
    { unfold slot. by rewrite lookup_ge_None_2. }
    assert (∀ i, i ∈ e_free_tube_ids e ↔ (e_tubes e ++ [Some st]) !! i = Some None) as Hf'.
    { intros i. rewrite Ep, Hf, lookup_app_Some, list_lookup_singleton_Some. naive_solver. }
    assert (length (e_tubes e ++ [Some st]) ≤ length (e_tubes e) + 1) as Hl by (by rewrite length_app).
    split_and!; try done.
    + exact (Core_new_tube g e HC _ name _ _ Hs Hw En Hf' Hnd Hl).
    + eng. by rewrite (slab_slot_eq _ _ _ _ Hw).
    + intros i t Ht. eng. rewrite (slab_slot _ _ _ _ Hw); [done|]. intros ->. congruence.
Qed.

(** ** Destroying a tube *)
Lemma refs_zero g e id t :
  Core g e → slot (e_tubes e) id = Some t → refs t = 0%N →
  (∀ cid, (cid, id) ∉ g_uses g) ∧ (∀ cid, (cid, id) ∉ g_watches g) ∧
  (∀ i j, e_jobs e !! i = Some j → j_tube j ≠ id).
Proof.
  intros HC Ht Hz. destruct (co_using _ _ HC _ _ Ht) as [Hu Hu'].
  destruct (co_watching _ _ HC _ _ Ht) as [Hw Hw']. pose proof (co_refs _ _ HC _ _ Ht) as Hj.
  pose proof (Core_size _ _ HC). pose proof (count_le_size (in_tube id) (e_jobs e)).
  unfold refs, wrap64 in Hz. rewrite N.mod_small in Hz by (rewrite Hu, Hw, Hj; lia).
  split_and!; [by apply deg_zero; lia..|]. intros i j Hi Hij.
  assert (count (in_tube id) (e_jobs e) = 0%N) as Hc by (rewrite <-Hj; lia).
  eapply (proj1 (count_zero _ _)) in Hc; [|exact Hi]. unfold in_tube in Hc.
  by rewrite bool_decide_eq_true_2 in Hc.
Qed.

Section gc.
Context (T : Slab) (id : TubeId) (t : TubeState) (Ht : slot T id = Some t) (order : list TubeId).
Let p := t_pos t.
Definition gc_slab : Slab :=
  match order !! p with
  | Some moved => alter (fmap (λ m, m <| t_pos := p |>)) moved (<[id := None]> T)
  | None => <[id := None]> T
  end.

Lemma gc_slot_fmap {A} (h : TubeState → A) i :
  (∀ m, h (m <| t_pos := p |>) = h m) → h <$> slot gc_slab i = if decide (i = id) then None else h <$> slot T i.
Proof using Type.
  intros Hh. unfold gc_slab. destruct (order !! p); rewrite ?slot_alter_fmap by done;
    rewrite slab_clear; by case_decide.
Qed.
Lemma each_tube_gc P :
  each_tube P T → (∀ i m, P i m → P i (m <| t_pos := p |>)) → each_tube P gc_slab.
Proof using Type.
  intros HP Hp. assert (each_tube P (<[id := None]> T)) as Hc.
  { eapply each_tube_with; [apply slab_clear|done|done]. }
  unfold gc_slab. destruct (order !! p); [|done]. eapply each_tube_keep; eauto.
Qed.
Lemma live_gc i : i ≠ id → live gc_slab i ↔ live T i.
Proof using Type.
  intros Hi. unfold gc_slab. destruct (order !! p); rewrite ?live_alter;
    (eapply live_with; [apply slab_clear|done]).
Qed.
Lemma tube_index_gc {A} `{Countable A} (h : TubeState → option A) S :
  tube_index h T S → (∀ m, h (m <| t_pos := p |>) = h m) →
  tube_index h gc_slab (match h t with Some d => S ∖ {[ (d, id) ]} | None => S end).
Proof using Ht.
  intros HS Hh. assert (tube_index h (<[id := None]> T)
    (match h t with Some d => S ∖ {[ (d, id) ]} | None => S end)) as Hc.
  { eapply tube_index_with; [apply slab_clear|done|by rewrite Ht|done]. }
  unfold gc_slab. destruct (order !! p); [|done]. by apply tube_index_alter.
Qed.
Lemma flag_set_gc S :
  flag_set t_dispatchable T S →
  flag_set t_dispatchable gc_slab (if t_dispatchable t then S ∖ {[ id ]} else S).
Proof using Ht.
  intros HS. assert (flag_set t_dispatchable (<[id := None]> T)
    (if t_dispatchable t then S ∖ {[ id ]} else S)) as Hc.
  { eapply flag_set_with; [apply slab_clear|done|left; by rewrite Ht|done]. }
  unfold gc_slab. destruct (order !! p); [|done]. by apply flag_set_alter.
Qed.
Lemma length_gc : length gc_slab = length T.
Proof using Type.
  unfold gc_slab. destruct (order !! p); by rewrite ?length_alter, length_insert.
Qed.
Lemma free_gc i : gc_slab !! i = Some None ↔ i = id ∨ T !! i = Some None.
Proof using Ht.
  assert (<[id := None]> T !! i = Some None ↔ i = id ∨ T !! i = Some None) as Hc.
  { destruct (decide (i = id)) as [->|]; [|rewrite list_lookup_insert_ne by done; naive_solver].
    rewrite list_lookup_insert_eq by (by eapply slot_lt). naive_solver. }
  unfold gc_slab. destruct (order !! p); by rewrite ?alter_free.
Qed.
End gc.

Lemma reg_ok_gc T ids order order' free id t :
  reg_ok T ids order free → slot T id = Some t → id ≠ DEFAULT_TUBE →
  swap_remove (t_pos t) order = Some (id, order') →
  reg_ok (gc_slab T id t order') (delete (t_name t) ids) order' (free ++ [id]).
Proof.
  intros ([Hd Hd'] & Hn & Hp & Hf & Hnd) Ht Hne Hs.
  assert (∀ q i, order' !! q = Some i ↔ t_pos <$> slot (gc_slab T id t order') i = Some q) as Hpos.
  { apply (order_remove order order' (λ i, t_pos <$> slot T i)
             (λ i, t_pos <$> slot (gc_slab T id t order') i) id (t_pos t)); [done|by rewrite Ht|done|].
    intros i. unfold gc_slab. destruct (order' !! t_pos t) as [moved|] eqn:Em.
    - rewrite slot_alter, slab_clear. destruct (decide (i = id)); [by case_decide|].
      destruct (decide (i = moved)) as [->|]; [|by rewrite decide_False by congruence].
      rewrite decide_True by done.
      apply swap_remove_perm in Hs. assert (moved ∈ order) as [q Hq]%list_elem_of_lookup.
      { rewrite Hs. right. by eapply list_elem_of_lookup_2. }
      apply Hp in Hq. by destruct (slot T moved).
    - rewrite slab_clear. repeat case_decide; done. }
  split_and!.
  - rewrite gc_slot_fmap by done. by rewrite decide_False.
  - apply Hpos. rewrite (swap_remove_lookup _ _ _ _ 0 Hs).
    assert (order !! 0 = Some DEFAULT_TUBE) as H0 by (by apply Hp).
    assert (order !! t_pos t = Some id) as Hid by (apply Hp; by rewrite Ht).
    pose proof (lookup_lt_Some _ _ _ Hid).
    assert (t_pos t ≠ 0) by (intros E; rewrite E in Hid; congruence).
    rewrite decide_True by lia. by rewrite decide_False.
  - intros n i. rewrite gc_slot_fmap, lookup_delete_Some, Hn by done. case_decide as Hi; [subst i|].
    + rewrite Ht. naive_solver.
    + split; [naive_solver|]. intros Hni. split; [|done]. intros <-.
      assert (ids !! t_name t = Some id) by (apply Hn; by rewrite Ht). apply Hn in Hni. congruence.
  - done.
  - intros i. rewrite free_gc, elem_of_app, Hf, list_elem_of_singleton by done. naive_solver.
  - apply NoDup_app. split_and!; [done| |apply NoDup_singleton].
    intros i Hi%Hf ->%list_elem_of_singleton. unfold slot in Ht. by rewrite Hi in Ht.
Qed.

(** [gc_tube_if_orphan] on an unreferenced tube, component by component. *)
Lemma gc_eq id t order' e :
  id ≠ DEFAULT_TUBE → slot (e_tubes e) id = Some t → refs t = 0%N →
  swap_remove (t_pos t) (ms_items (e_tube_order e)) = Some (id, order') →
  gc_tube_if_orphan id e =
    e <| e_tubes := gc_slab (e_tubes e) id t order' |>
      <| e_tube_ids ::= delete (t_name t) |>
      <| e_pauses := match pause_key t with
                     | Some d => e_pauses e ∖ {[ (d, id) ]} | None => e_pauses e end |>
      <| e_delay_heads := match t_delay_head t with
                          | Some d => e_delay_heads e ∖ {[ (d, id) ]} | None => e_delay_heads e end |>
      <| e_dispatchable := if t_dispatchable t then e_dispatchable e ∖ {[ id ]} else e_dispatchable e |>
      <| e_tube_order ::= set_field ms_items (λ _, order') |>
      <| e_free_tube_ids ::= (.++ [id]) |>.
Proof.
  intros Hne Ht Hr Hs. unfold gc_tube_if_orphan, tube.
  rewrite (proj2 (Nat.eqb_neq _ _) Hne), Ht, Hr, N.eqb_refl.
  assert (ms_remove_at (t_pos t) (e_tube_order e) =
          Some (id, (e_tube_order e) <| ms_items := order' |>)) as Hrem.
  { unfold ms_remove_at. by rewrite Hs. }
  unfold gc_slab, pause_key. open_engine e.
  destruct (0 <? t_pause t)%N, (t_delay_head t), (t_dispatchable t); eng_all; rewrite Hrem;
    cbn [ms_items ms_items_set]; by destruct (order' !! t_pos t).
Qed.

Lemma Core_gc g e id :
  Core (g <| g_orphans ::= ({[ id ]} ∪.) |>) e → Core g (gc_tube_if_orphan id e).
Proof.
  intros HC.
  assert ((∀ t, slot (e_tubes e) id = Some t → id = DEFAULT_TUBE ∨ (0 < refs t)%N) → Core g e) as Hkeep.
  { intros Ht. core HC. intros i t' Hi Hn. destruct (decide (i = id)) as [->|]; [by apply Ht|].
    refine (co_referenced _ _ Hi _). eng. set_solver. }
  destruct (decide (id = DEFAULT_TUBE)) as [->|Hne]; [apply Hkeep; auto|].
  destruct (slot (e_tubes e) id) as [t|] eqn:Ht.
  2: { unfold gc_tube_if_orphan, tube. rewrite Ht. case_match; by apply Hkeep. }
  destruct (decide (refs t = 0%N)) as [Hr|Hr].
  2: { unfold gc_tube_if_orphan, tube. rewrite Ht. rewrite (proj2 (N.eqb_neq _ _) Hr).
       case_match; apply Hkeep; intros ? [= <-]; right; lia. }
  destruct (refs_zero _ _ _ _ HC Ht Hr) as (Hnu & Hnw & Hnj).
  pose proof (co_reg _ _ HC) as (_ & _ & Hp & _).
  assert (ms_items (e_tube_order e) !! t_pos t = Some id) as Hpos by (apply Hp; by rewrite Ht).
  destruct (swap_remove_Some _ _ _ Hpos) as [order' Hs].
  rewrite (gc_eq _ _ _ _ Hne Ht Hr Hs).
  core HC; try (apply each_tube_gc; [assumption|by intros; assumption]).
  - exact (reg_ok_gc _ _ _ _ _ _ _ co_reg Ht Hne Hs).
  - intros i j Hj. destruct (co_jobs _ _ Hj) as (? & ? & ? & ?). split_and!; try done.
    refine (proj2 (live_gc _ _ _ _ _ _) _); [by eapply Hnj|done].
  - intros cid i Hin. refine (proj2 (live_gc _ _ _ _ _ _) _); [intros ->; by eapply Hnu|]. by eapply co_uses_live.
  - intros cid i Hin. refine (proj2 (live_gc _ _ _ _ _ _) _); [intros ->; by eapply Hnw|]. by eapply co_watches_live.
  - by apply (tube_index_gc _ _ _ Ht order' t_delay_head).
  - by apply (tube_index_gc _ _ _ Ht order' pause_key).
  - by apply flag_set_gc.
  - assert (each_tube (λ i t, i ≠ id → referenced (g_orphans g) i t) (e_tubes e)) as Hr'.
    { intros i t' Hi Hni Hn. refine (co_referenced _ _ Hi _). eng. set_solver. }
    intros i t' Hi. assert (i ≠ id) as Hni.
    { intros ->. assert (slot (gc_slab (e_tubes e) id t order') id = None) as Hnone; [|congruence].
      apply (fmap_None (λ _ : TubeState, tt)). rewrite gc_slot_fmap by done. by rewrite decide_True. }
    eapply (each_tube_gc _ _ _ _ _ Hr'); [|exact Hi|exact Hni]. intros ? ? Hm; exact Hm.
  - unfold bounds_ok. by rewrite length_gc.
Qed.
