(* ===== verification/Waiting.v ===== *)
(** * Waiting connections

    [enqueue_waiting_conn] puts a connection on the wait list of every tube it
    watches, [do_remove_waiting_conn] takes it off all of them; [ms_take]
    removes the next one of a tube's list in round-robin order. *)

From S2P Require Import Prelude Ms Proto Model Engine Inv InvFrame InvRefresh Queues Moves Tubes.
From stdpp Require Import options.

(** The pairs of one connection. *)
Definition pairs (cid : ConnId) (l : list TubeId) : CTRel := list_to_set (pair cid <$> l).
Lemma elem_of_pairs cid l c t : (c, t) ∈ pairs cid l ↔ c = cid ∧ t ∈ l.
Proof. unfold pairs. rewrite elem_of_list_to_set, list_elem_of_fmap. naive_solver. Qed.

Lemma deg_mono (R R' : CTRel) tid : R ⊆ R' → (deg R tid ≤ deg R' tid)%N.
Proof.
  intros HR. unfold deg. assert (filter (λ p : ConnId * TubeId, p.2 = tid) R ⊆
    filter (λ p : ConnId * TubeId, p.2 = tid) R') as Hs%subseteq_size; [|lia].
  intros [c t]. rewrite !elem_of_filter. set_solver.
Qed.

(** ** One tube *)
Lemma wants_dispatch_shrink (m : Ms ConnId) (t : TubeState) :
  (ms_items (t_waiting_conns t) = [] → ms_items m = []) →
  wants_dispatch (t <| t_waiting_conns := m |>) = true → wants_dispatch t = true.
Proof.
  unfold wants_dispatch. cbn. intros Hm [Hw%negb_true_iff%ms_is_empty_false ->]%andb_true_iff.
  rewrite andb_true_r. apply negb_true_iff, ms_is_empty_false. naive_solver.
Qed.

Lemma ms_remove_nil cid (m : Ms ConnId) : ms_items m = [] → ms_items (ms_remove cid m).2 = [].
Proof. intros Hm. rewrite ms_remove_not_in; [done|]. rewrite Hm. set_solver. Qed.

Section one_tube.
Context (g : Ghost) (e : Engine) (HC : Core g e) (cid : ConnId) (tid : TubeId).

Lemma Core_wait_step :
  (cid, tid) ∈ g_watches g → (cid, tid) ∉ g_waits g → (cid, tid) ∉ g_waitn g →
  Core (g <| g_waits ::= ({[ (cid, tid) ]} ∪.) |> <| g_waitn ::= ({[ (cid, tid) ]} ∪.) |>
          <| g_hot := true |>) (wait_step cid e tid).
Proof using HC.
  intros HW Hn1 Hn2. apply Core_refresh_dispatchable. core HC.
  - eapply each_tube_upd; [exact co_waiting|..].
    + intros i t _ Hi [Hnd Ht]. split; [done|]. set_solver.
    + intros t _ [Hnd Ht]. split; cbn.
      * apply NoDup_app. split_and!; [done| |apply NoDup_singleton]. set_solver.
      * intros c. rewrite elem_of_app, Ht. set_solver.
  - eapply each_tube_upd; [exact co_waiting_ct|..].
    + intros i t _ Hi [Ht Hb]. unfold waiting_ct_ok. rewrite deg_add, decide_False by done.
      rewrite N.add_0_r. done.
    + intros t Hs [Ht Hb]. destruct (co_watching _ _ Hs) as [_ HWb].
      assert (deg ({[(cid, tid)]} ∪ g_waitn g) tid ≤ deg (g_watches g) tid)%N as Hm.
      { apply deg_mono. set_solver. }
      unfold waiting_ct_ok. cbn. rewrite Ht, deg_add, decide_True in * by done.
      rewrite incr64_small by lia. lia.
  - set_solver.
  - eapply each_tube_upd; [exact co_disp_key|..].
    + intros i t _ Hi Hk Hn. apply Hk. set_solver.
    + intros t _ _ Hn. set_solver.
  - by intros i t _ Hn.
Qed.

Lemma Core_unwait_step :
  (cid, tid) ∈ g_waitn g →
  Core (g <| g_waits ::= (.∖ {[ (cid, tid) ]}) |> <| g_waitn ::= (.∖ {[ (cid, tid) ]}) |>)
    (unwait_step cid e tid).
Proof using HC.
  intros Hin. apply Core_refresh_dispatchable. core HC.
  - eapply each_tube_upd; [exact co_waiting|..].
    + intros i t _ Hi [Hnd Ht]. split; [done|]. set_solver.
    + intros t _ [Hnd Ht]. split; cbn; [by apply NoDup_ms_remove|].
      intros c. rewrite elem_of_ms_remove, Ht by done. set_solver.
  - eapply each_tube_upd; [exact co_waiting_ct|..].
    + intros i t _ Hi [Ht Hb]. unfold waiting_ct_ok. rewrite (deg_del _ _ _ i Hin), decide_False in * by done.
      rewrite N.add_0_r in *. done.
    + intros t Hs [Ht Hb]. unfold waiting_ct_ok. cbn. rewrite Ht, (deg_del _ _ _ tid Hin), decide_True in * by done.
      rewrite decr_plus. lia.
  - set_solver.
  - eapply each_tube_upd; [exact co_disp_key|..].
    + intros i t _ Hi Hk Hn. apply Hk. set_solver.
    + intros t _ _ Hn. set_solver.
  - eapply each_tube_keep; [exact co_drained|]. intros i t Ht Hh Hw. apply Ht; [done|].
    eapply wants_dispatch_shrink; [|exact Hw]. apply ms_remove_nil.
Qed.

Lemma Core_take t :
  slot (e_tubes e) tid = Some t → (ms_take (t_waiting_conns t)).1 = Some cid →
  Core (g <| g_waits ::= (.∖ {[ (cid, tid) ]}) |>)
    (refresh_dispatchable tid
       (upd_tube tid (λ t, t <| t_waiting_conns := (ms_take (t_waiting_conns t)).2 |>) e)).
Proof using HC.
  intros Ht Hc.
  assert (ms_items (t_waiting_conns t) ≡ₚ cid :: ms_items (ms_take (t_waiting_conns t)).2) as Hp.
  { assert (ms_items (t_waiting_conns t) ≠ []) as Hne by (intros E; by rewrite ms_take_empty in Hc).
    destruct (ms_take_perm _ Hne) as (x & m & E & Hp). rewrite E in *. by simplify_eq/=. }
  apply Core_refresh_dispatchable. core HC.
  - eapply each_tube_upd; [exact co_waiting|..].
    + intros i t' _ Hi [Hnd Hw]. split; [done|]. set_solver.
    + intros t' Ht' [Hnd Hw]. replace t' with t in * by congruence. rewrite Hp in Hnd.
      apply NoDup_cons in Hnd as [Hni Hnd]. split; cbn; [done|].
      intros c. specialize (Hw c). rewrite Hp in Hw. set_solver.
  - set_solver.
  - eapply each_tube_upd; [exact co_disp_key|..].
    + intros i t' _ Hi Hk Hn. apply Hk. set_solver.
    + intros t' _ _ Hn. set_solver.
  - eapply each_tube_keep; [exact co_drained|]. intros i t' Hd Hh Hw. apply Hd; [done|].
    eapply wants_dispatch_shrink; [|exact Hw]. intros E. by rewrite ms_take_empty.
Qed.
End one_tube.

(** ** The connection *)
Lemma count_alter_at {V} (P : V → bool) (f : V → V) (m : gmap N V) k v :
  m !! k = Some v →
  (count P (alter f k m) + (if P v then 1 else 0) = count P m + (if P (f v) then 1 else 0))%N.
Proof.
  intros Hk. pose proof (count_change P m (alter f k m) k) as Hc.
  rewrite lookup_alter_eq, Hk in Hc. apply Hc. intros i Hi. by rewrite lookup_alter_ne.
Qed.

Definition set_wait (wd : option Nanos) (c : ConnState) : ConnState :=
  c <| c_waiting := true |> <| c_wait_deadline := wd |>.
Definition unset_wait (c : ConnState) : ConnState :=
  c <| c_waiting := false |> <| c_wait_deadline := None |>.

Section one_conn.
Context (g : Ghost) (e : Engine) (HC : Core g e) (cid : ConnId) (c : ConnState).
Context (Hc : e_conns e !! cid = Some c).

Lemma waiting_count_bound : (count c_waiting (e_conns e) < 2 ^ 32)%N.
Proof using HC.
  pose proof (count_le_size c_waiting (e_conns e)).
  pose proof (co_bounds _ _ HC) as ((_ & _ & ?) & _ & _ & ? & _). lia.
Qed.

Lemma Core_set_wait wd :
  c_waiting c = false → seq_room g e →
  Core (g <| g_stick ::= ({[ cid ]} ∪.) |>)
    (upd_ct waiting_ct incr64 (upd_conn cid (set_wait wd) e)).
Proof using HC Hc.
  intros Hw Hroom. pose proof waiting_count_bound as Hb.
  pose proof (count_alter_at c_waiting (set_wait wd) _ _ _ Hc) as Hcnt.
  rewrite Hw in Hcnt. cbn in Hcnt. unfold seq_room, seq_used in Hroom. core HC.
  - eapply map_Forall_alter; [exact co_conns|]. intros x [Hnd _]. by split.
  - eapply map_Forall_upd; [exact co_tick_key|..].
    + intros i x _ Hi Hk Hn. apply Hk. set_solver.
    + intros x _ _ Hn. set_solver.
  - destruct co_cc as (H1 & H2 & H3 & H4). unfold conn_counts_ok.
    rewrite size_alter, !(count_alter c_is_producer), !(count_alter c_is_worker) by done.
    split_and!; try done. cbn. rewrite H4, incr64_small by lia. lia.
  - destruct co_bounds as (? & ? & ? & ? & ?). unfold bounds_ok, seq_used. rewrite size_alter.
    split_and!; try apply H; try lia.
Qed.

Lemma Core_unset_wait :
  c_waiting c = true →
  Core (g <| g_stick ::= ({[ cid ]} ∪.) |>)
    (upd_ct waiting_ct decr (upd_conn cid unset_wait e)) ∧
  seq_room g (upd_ct waiting_ct decr (upd_conn cid unset_wait e)).
Proof using HC Hc.
  intros Hw.
  pose proof (count_alter_at c_waiting unset_wait _ _ _ Hc) as Hcnt.
  rewrite Hw in Hcnt. cbn in Hcnt.
  pose proof (co_bounds _ _ HC) as Hb. split.
  2: { destruct Hb as (_ & _ & ? & _). unfold seq_room, seq_used in *. eng. lia. }
  core HC.
  - eapply map_Forall_alter; [exact co_conns|]. intros x [Hnd _]. by split.
  - eapply map_Forall_upd; [exact co_tick_key|..].
    + intros i x _ Hi Hk Hn. apply Hk. set_solver.
    + intros x _ _ Hn. set_solver.
  - destruct co_cc as (H1 & H2 & H3 & H4). unfold conn_counts_ok.
    rewrite size_alter, !(count_alter c_is_producer), !(count_alter c_is_worker) by done.
    split_and!; try done. cbn. rewrite H4, <-(decr_plus (count c_waiting (alter unset_wait cid (e_conns e)))).
    f_equal. lia.
  - destruct co_bounds as (? & ? & ? & ? & ?). unfold bounds_ok, seq_used in *. rewrite size_alter.
    split_and!; try apply H; try lia.
Qed.
End one_conn.

(** ** All watched tubes *)
Lemma Core_eq g g' e : Core g e → g = g' → Core g' e.
Proof. by intros ? <-. Qed.
(** Equality of ghosts, field by field. *)
Ltac ghost_eq :=
  try lazymatch goal with g : Ghost |- _ =>
    destruct g as [gj gu gw gq gn gsd gsl gst go gh gc gb] end;
  cbv [ghost_of set_field g_jobs g_uses g_watches g_waits g_waitn g_sdisp g_sdelay g_stick g_orphans g_hot g_closing g_budget
    g_jobs_set g_uses_set g_watches_set g_waits_set g_waitn_set g_sdisp_set g_sdelay_set
    g_stick_set g_orphans_set g_hot_set g_closing_set g_budget_set] in *; f_equal.

Lemma pairs_nil cid : pairs cid [] = ∅.
Proof. done. Qed.
Lemma pairs_cons cid t l : pairs cid (t :: l) = {[ (cid, t) ]} ∪ pairs cid l.
Proof. done. Qed.

Lemma Core_wait_fold cid l g e :
  Core g e → NoDup l → pairs cid l ⊆ g_watches g → pairs cid l ## g_waits g → pairs cid l ## g_waitn g →
  Core (g <| g_waits ::= (pairs cid l ∪.) |> <| g_waitn ::= (pairs cid l ∪.) |> <| g_hot := true |>)
    (foldl (wait_step cid) e l).
Proof.
  revert g e. induction l as [|t l IH]; intros g e HC Hnd HW Hd1 Hd2; simpl.
  - eapply Core_eq; [by apply Core_hot|]. ghost_eq; set_solver.
  - apply NoDup_cons in Hnd as [Hn Hnd]. rewrite pairs_cons in *.
    eapply Core_eq; [apply (IH (g <| g_waits ::= ({[ (cid, t) ]} ∪.) |>
      <| g_waitn ::= ({[ (cid, t) ]} ∪.) |> <| g_hot := true |>)); [|done|..]; eng|].
    + apply Core_wait_step; set_solver.
    + set_solver.
    + intros [c t'] [-> Hin]%elem_of_pairs Hx. set_solver.
    + intros [c t'] [-> Hin]%elem_of_pairs Hx. set_solver.
    + ghost_eq; set_solver.
Qed.

Lemma Core_unwait_fold cid l g e :
  Core g e → NoDup l → pairs cid l ⊆ g_waitn g →
  Core (g <| g_waits ::= (.∖ pairs cid l) |> <| g_waitn ::= (.∖ pairs cid l) |>)
    (foldl (unwait_step cid) e l).
Proof.
  revert g e. induction l as [|t l IH]; intros g e HC Hnd HW; simpl.
  - eapply Core_eq; [done|]. ghost_eq; set_solver.
  - apply NoDup_cons in Hnd as [Hn Hnd]. rewrite pairs_cons in *.
    eapply Core_eq; [apply (IH (g <| g_waits ::= (.∖ {[ (cid, t) ]}) |>
      <| g_waitn ::= (.∖ {[ (cid, t) ]}) |>)); [|done|..]; eng|].
    + apply Core_unwait_step; set_solver.
    + intros [c t'] [-> Hin]%elem_of_pairs. apply elem_of_difference. split; [|set_solver].
      apply HW. apply elem_of_union. right. by apply elem_of_pairs.
    + ghost_eq; set_solver.
Qed.

Lemma fold_steps_same (step : Engine → TubeId → Engine) l e :
  (∀ e t, rels (step e t) = rels e ∧ e_jobs (step e t) = e_jobs e ∧
          e_next_list_seq (step e t) = e_next_list_seq e ∧ e_conns (step e t) = e_conns e) →
  rels (foldl step e l) = rels e ∧ e_jobs (foldl step e l) = e_jobs e ∧
  e_next_list_seq (foldl step e l) = e_next_list_seq e ∧ e_conns (foldl step e l) = e_conns e.
Proof.
  intros Hs. revert e. induction l as [|t l IH]; intros e; simpl; [done|].
  destruct (IH (step e t)) as (-> & -> & -> & ->). apply Hs.
Qed.
Lemma seq_refresh_disp tid e : e_next_list_seq (refresh_dispatchable tid e) = e_next_list_seq e.
Proof. unfold refresh_dispatchable. by repeat case_match. Qed.
Lemma seq_refresh_tick cid e : e_next_list_seq (refresh_conn_tick cid e) = e_next_list_seq e.
Proof. unfold refresh_conn_tick. by repeat case_match. Qed.
Lemma seq_refresh_delay tid e : e_next_list_seq (refresh_delay_head tid e) = e_next_list_seq e.
Proof. unfold refresh_delay_head. by repeat case_match. Qed.
#[export] Hint Rewrite seq_refresh_disp seq_refresh_tick seq_refresh_delay conns_refresh_disp
  conns_refresh_delay : eng.
Lemma wait_step_same cid e t :
  rels (wait_step cid e t) = rels e ∧ e_jobs (wait_step cid e t) = e_jobs e ∧
  e_next_list_seq (wait_step cid e t) = e_next_list_seq e ∧ e_conns (wait_step cid e t) = e_conns e.
Proof. unfold wait_step. by autorewrite with eng. Qed.
Lemma unwait_step_same cid e t :
  rels (unwait_step cid e t) = rels e ∧ e_jobs (unwait_step cid e t) = e_jobs e ∧
  e_next_list_seq (unwait_step cid e t) = e_next_list_seq e ∧ e_conns (unwait_step cid e t) = e_conns e.
Proof. unfold unwait_step. by autorewrite with eng. Qed.

Lemma count_fmap {V B} (f : V → B) (P : B → bool) (m : gmap N V) :
  count P (f <$> m) = count (λ v, P (f v)) m.
Proof.
  induction m as [|k v m Hk IH] using map_ind; [by rewrite fmap_empty|].
  rewrite fmap_insert, !count_insert_new by (rewrite ?lookup_fmap, ?Hk; done). by rewrite IH.
Qed.
Lemma seq_used_rels e :
  seq_used (e_next_list_seq e) (e_conns e) = (e_next_list_seq e + count snd (rels e))%N.
Proof. unfold seq_used, rels. by rewrite count_fmap. Qed.

Section whole_conn.
Context (g : Ghost) (e : Engine) (HC : Core g e) (cid : ConnId) (c : ConnState).
Context (Hc : e_conns e !! cid = Some c).
Let ps := pairs cid (ms_items (c_watch c)).

Lemma watch_NoDup : NoDup (ms_items (c_watch c)).
Proof using HC Hc. apply (co_conns _ _ HC _ _ Hc). Qed.

Lemma Core_enqueue_waiting wd :
  c_waiting c = false → seq_room g e → ps ⊆ g_watches g → ps ## g_waits g → ps ## g_waitn g →
  Core (g <| g_waits ::= (ps ∪.) |> <| g_waitn ::= (ps ∪.) |> <| g_hot := true |>)
    (enqueue_waiting_conn cid wd e).
Proof using HC Hc.
  intros Hw Hr HW H1 H2. unfold enqueue_waiting_conn. rewrite Hc. apply Core_refresh_conn_tick.
  exact (Core_wait_fold cid _ (g <| g_stick ::= ({[ cid ]} ∪.) |>) _
           (Core_set_wait g e HC cid c Hc wd Hw Hr) watch_NoDup HW H1 H2).
Qed.

Lemma Core_remove_waiting :
  c_waiting c = true → ps ⊆ g_waitn g →
  Core (g <| g_waits ::= (.∖ ps) |> <| g_waitn ::= (.∖ ps) |>) (do_remove_waiting_conn cid e) ∧
  seq_room g (do_remove_waiting_conn cid e).
Proof using HC Hc.
  intros Hw HW. unfold do_remove_waiting_conn. rewrite Hc, Hw.
  destruct (Core_unset_wait g e HC cid c Hc Hw) as [Hu Hr]. split.
  - apply Core_refresh_conn_tick.
    exact (Core_unwait_fold cid _ (g <| g_stick ::= ({[ cid ]} ∪.) |>) _ Hu watch_NoDup HW).
  - unfold seq_room in *. rewrite seq_used_rels in *. rewrite seq_refresh_tick, rels_refresh_tick.
    destruct (fold_steps_same (unwait_step cid) (ms_items (c_watch c))
      (upd_ct waiting_ct decr (upd_conn cid unset_wait e)) (unwait_step_same cid)) as (E1 & _ & E2 & _).
    unfold unset_wait in *. by rewrite E1, E2.
Qed.
End whole_conn.
