(* ===== verification/Rest.v ===== *)
(** * The invariant at rest

    [Rest] is the invariant with every ghost equal to what the engine holds,
    [Float id] the same with job [id] off the queues; [hot] says that dispatch
    may be due.  The transitions of the engine as steps between the two. *)

From S2P Require Import Prelude Ms Proto Model Engine Inv InvFrame InvRefresh Queues Moves Tubes Waiting.
From stdpp Require Import options.

Definition at_rest (b : Budget) (hot : bool) (e : Engine) : Ghost := (ghost_of b e) <| g_hot := hot |>.
Definition Rest (b : Budget) (hot : bool) (e : Engine) : Prop := Core (at_rest b hot e) e.
Definition Float (b : Budget) (hot : bool) (id : JobId) (e : Engine) : Prop :=
  Core ((at_rest b hot e) <| g_jobs ::= delete id |>) e.

Lemma Inv_Rest b e : Inv b e ↔ Rest b false e.
Proof. done. Qed.
Lemma Rest_hot b h e : Rest b h e → Rest b true e.
Proof. intros HC%Core_hot. exact HC. Qed.
Lemma Float_hot b h id e : Float b h id e → Float b true id e.
Proof. intros HC%Core_hot. exact HC. Qed.

(** ** Relations through [rels] *)
Lemma rel_fmap {V B} (f : V → B) (r : B → list TubeId) (m : gmap N V) :
  rel r (f <$> m) = rel (λ v, r (f v)) m.
Proof.
  apply set_eq. intros [k t]. rewrite !elem_of_rel. setoid_rewrite lookup_fmap_Some. naive_solver.
Qed.
Abbreviation RelInfo := (TubeId * Ms TubeId * option Nanos * bool)%type.
Definition uses' (r : RelInfo) : list TubeId := [r.1.1.1].
Definition watches' (r : RelInfo) : list TubeId := ms_items r.1.1.2.
Definition waits' (r : RelInfo) : list TubeId := if r.2 then ms_items r.1.1.2 else [].
Lemma at_rest_eq b h e :
  at_rest b h e = mkGhost (e_jobs e) (rel uses' (rels e)) (rel watches' (rels e))
    (rel waits' (rels e)) (rel waits' (rels e)) ∅ ∅ ∅ ∅ h None b.
Proof. unfold rels. by rewrite !rel_fmap. Qed.
Lemma at_rest_same b h e e' :
  rels e' = rels e → at_rest b h e' = (at_rest b h e) <| g_jobs := e_jobs e' |>.
Proof. intros Hr. by rewrite !at_rest_eq, Hr. Qed.

Lemma Rest_of b h e J U W Q :
  Core (mkGhost J U W Q Q ∅ ∅ ∅ ∅ h None b) e → e_jobs e = J →
  rel uses (e_conns e) = U → rel watches (e_conns e) = W → rel waits (e_conns e) = Q → Rest b h e.
Proof. by intros ? <- <- <- <-. Qed.

(** Conclude [Rest] or [Float] of a new engine from [Core]. *)
Lemma Rest_intro b h e e' :
  Core ((at_rest b h e) <| g_jobs := e_jobs e' |>) e' → rels e' = rels e → Rest b h e'.
Proof. intros HC Hr. unfold Rest. by rewrite (at_rest_same b h e). Qed.
Lemma Float_intro b h id e e' :
  Core ((at_rest b h e) <| g_jobs := delete id (e_jobs e') |>) e' → rels e' = rels e → Float b h id e'.
Proof. intros HC Hr. unfold Float. by rewrite (at_rest_same b h e). Qed.

(** ** What the routines do to jobs and relations *)
Section routine_facts.
Context (tid : TubeId) (id : JobId) (e : Engine).
Lemma rels_upd_job f : rels (upd_job id f e) = rels e.
Proof. done. Qed.
Lemma rels_insert_ready : rels (insert_ready tid id e) = rels e.
Proof. unfold insert_ready. case_match; [|done]. rewrite rels_refresh_disp. by case_match. Qed.
Lemma rels_remove_ready : rels (remove_ready tid id e) = rels e.
Proof. unfold remove_ready. rewrite rels_refresh_disp. by case_match. Qed.
Lemma jobs_remove_ready : e_jobs (remove_ready tid id e) = e_jobs e.
Proof. unfold remove_ready. rewrite jobs_refresh_disp. by case_match. Qed.
Lemma rels_insert_delayed d : rels (insert_delayed tid id d e) = rels e.
Proof. unfold insert_delayed. rewrite rels_refresh_delay. by repeat case_match. Qed.
Lemma rels_remove_delayed : rels (remove_delayed tid id e) = rels e.
Proof. unfold remove_delayed. rewrite rels_refresh_delay. by repeat case_match. Qed.
Lemma jobs_remove_delayed : e_jobs (remove_delayed tid id e) = e_jobs e.
Proof. unfold remove_delayed. rewrite jobs_refresh_delay. by repeat case_match. Qed.
Lemma rels_insert_buried : rels (insert_buried tid id e) = rels e.
Proof. done. Qed.
Lemma rels_do_reserve cid now : rels (do_reserve cid id now e) = rels e.
Proof.
  unfold do_reserve. case_match; [|done]. rewrite rels_refresh_tick.
  etrans; [by apply (rels_upd_conn cid)|done].
Qed.
Lemma rels_do_unreserve cid : rels (do_unreserve cid id e) = rels e.
Proof.
  unfold do_unreserve. destruct (e_jobs e !! id); rewrite rels_refresh_tick.
  - etrans; [apply (rels_upd_conn cid); intros c; by case_match|done].
  - etrans; [by apply (rels_upd_conn cid)|done].
Qed.
Lemma jobs_do_unreserve cid :
  e_jobs (do_unreserve cid id e) = alter (λ j, j <| j_reserver := None |>) id (e_jobs e).
Proof. unfold do_unreserve. destruct (e_jobs e !! id); by rewrite jobs_refresh_tick. Qed.
End routine_facts.

(** ** Taking a job off its queue *)
Section to_float.
Context (b : Budget) (h : bool) (e : Engine) (HR : Rest b h e) (id : JobId) (j : JobRec).
Context (Hj : e_jobs e !! id = Some j).

Lemma Float_remove_ready :
  j_state j = JobState.Ready → Float b h id (remove_ready (j_tube j) id e).
Proof using HR Hj.
  intros Hs. apply (Float_intro _ _ _ e); [|apply rels_remove_ready].
  rewrite jobs_remove_ready. exact (Core_remove_ready _ _ HR _ _ Hj Hs).
Qed.
Lemma Float_remove_delayed :
  j_state j = JobState.Delayed → Float b h id (remove_delayed (j_tube j) id e).
Proof using HR Hj.
  intros Hs. apply (Float_intro _ _ _ e); [|apply rels_remove_delayed].
  rewrite jobs_remove_delayed. exact (Core_remove_delayed _ _ HR _ _ Hj Hs).
Qed.
Lemma Float_dequeue_buried :
  j_state j = JobState.Buried → Float b h id (dequeue id j e).
Proof using HR Hj.
  intros Hs. apply (Float_intro _ _ _ e); [|apply rels_dequeue].
  exact (Core_dequeue_buried _ _ HR _ _ Hj Hs).
Qed.
Lemma Rest_remove_buried_eq :
  j_state j = JobState.Buried → remove_buried (j_tube j) id e = (true, dequeue id j e).
Proof using HR Hj. exact (remove_buried_moves _ _ HR _ _ Hj). Qed.
Lemma Float_unreserve cid :
  j_state j = JobState.Reserved → j_reserver j = Some cid → Float b h id (do_unreserve cid id e).
Proof using HR Hj.
  intros Hs Hr. apply (Float_intro _ _ _ e); [|apply rels_do_unreserve].
  rewrite jobs_do_unreserve. replace (delete id (alter _ id (e_jobs e))) with (delete id (e_jobs e)).
  - exact (Core_do_unreserve _ _ HR _ _ _ Hj Hs Hr).
  - apply map_eq. intros i. destruct (decide (i = id)) as [->|].
    + by rewrite !lookup_delete_eq.
    + by rewrite !lookup_delete_ne, lookup_alter_ne.
Qed.
End to_float.

(** ** Putting it back *)
Section to_rest.
Context (b : Budget) (h : bool) (e : Engine) (id : JobId) (HF : Float b h id e) (j : JobRec).
Context (Hj : e_jobs e !! id = Some j).

Definition room (b : Budget) (e : Engine) : Prop :=
  (seq_used (e_next_list_seq e) (e_conns e) < b_seq b)%N.

Lemma float_off : g_jobs ((at_rest b h e) <| g_jobs ::= delete id |>) !! id = None.
Proof. apply lookup_delete_eq. Qed.
(** Put [j'] back: the engine [e'] has it in its table again. *)
Lemma Rest_put_back h' e' j' :
  Core ((at_rest b h' e) <| g_jobs := <[id := j']> (delete id (e_jobs e)) |>) e' →
  e_jobs e' = <[id := j']> (e_jobs e) → rels e' = rels e → Rest b h' e'.
Proof.
  intros HC Hjobs Hrels. apply (Rest_intro _ _ e); [|done].
  rewrite Hjobs. by rewrite insert_delete_eq in HC.
Qed.

Lemma Rest_insert_ready : Rest b true (insert_ready (j_tube j) id e).
Proof using HF Hj.
  apply (Rest_put_back _ _ (readied j)); [|rewrite (insert_ready_eq _ _ _ Hj), jobs_refresh_disp by done; done|apply rels_insert_ready].
  exact (Core_insert_ready _ _ HF _ _ float_off Hj).
Qed.
Lemma Rest_insert_delayed d : Rest b h (insert_delayed (j_tube j) id d e).
Proof using HF Hj.
  pose proof (co_jobs _ _ HF _ _ Hj) as (_ & _ & _ & t & Ht).
  apply (Rest_put_back _ _ (delayed_until d j)); [..|apply rels_insert_delayed].
  - exact (Core_insert_delayed _ _ HF _ _ float_off Hj d).
  - rewrite (insert_delayed_eq _ _ _ Hj _ _ t), jobs_refresh_delay; try done.
    intros Hin. apply (co_delayed _ _ HF _ _ Ht) in Hin. by apply (queued_none _ _ _ _ float_off) in Hin.
Qed.
Lemma Rest_insert_buried : room b e → Rest b h (insert_buried (j_tube j) id e).
Proof using HF Hj.
  intros Hr. apply (Rest_put_back _ _ (buried_as (e_next_list_seq e) j)); [..|apply rels_insert_buried].
  - exact (Core_insert_buried _ _ HF _ _ float_off Hj Hr).
  - by rewrite (insert_buried_eq _ _ _ Hj).
Qed.
Lemma Rest_do_reserve cid now :
  is_Some (e_conns e !! cid) → room b e → Rest b h (do_reserve cid id now e).
Proof using HF Hj.
  intros Hc Hr. eapply Rest_put_back; [..|apply rels_do_reserve].
  - exact (Core_do_reserve _ _ HF _ _ float_off Hj cid now Hc Hr).
  - rewrite (do_reserve_eq _ _ _ Hj), jobs_refresh_tick. done.
Qed.
Lemma Float_upd_job f :
  (∀ j, j_id (f j) = j_id j) → (∀ j, j_ttr (f j) = j_ttr j) → (∀ j, j_tube (f j) = j_tube j) →
  Float b h id (upd_job id f e).
Proof using HF.
  intros H1 H2 H3. apply (Float_intro _ _ _ e); [|done]. eng.
  replace (delete id (alter f id (e_jobs e))) with (delete id (e_jobs e)).
  - exact (Core_upd_job _ _ HF _ _ float_off H1 H2 H3).
  - apply map_eq. intros i. destruct (decide (i = id)) as [->|].
    + by rewrite !lookup_delete_eq.
    + by rewrite !lookup_delete_ne, lookup_alter_ne.
Qed.
End to_rest.

(** ** Waiting at rest *)
Lemma jobs_enqueue_waiting e cid wd : e_jobs (enqueue_waiting_conn cid wd e) = e_jobs e.
Proof.
  unfold enqueue_waiting_conn. destruct (e_conns e !! cid) as [c0|]; [|done]. rewrite jobs_refresh_tick.
  destruct (fold_steps_same (wait_step cid) (ms_items (c_watch c0))
    (upd_ct waiting_ct incr64 (upd_conn cid (set_wait wd) e)) (wait_step_same cid)) as (_ & E & _). exact E.
Qed.
Lemma jobs_remove_waiting e cid : e_jobs (do_remove_waiting_conn cid e) = e_jobs e.
Proof.
  unfold do_remove_waiting_conn. destruct (e_conns e !! cid) as [c0|]; [|done]. destruct (c_waiting c0); [|done]. rewrite jobs_refresh_tick.
  destruct (fold_steps_same (unwait_step cid) (ms_items (c_watch c0))
    (upd_ct waiting_ct decr (upd_conn cid unset_wait e)) (unwait_step_same cid)) as (_ & E & _). exact E.
Qed.
Section rest_waiting.
Context (e : Engine) (cid : ConnId) (c : ConnState) (Hc : e_conns e !! cid = Some c).
Let ps := pairs cid (ms_items (c_watch c)).

Lemma pairs_watches : ps ⊆ rel watches (e_conns e).
Proof using Hc. intros [k t] [-> Ht]%elem_of_pairs. apply elem_of_rel. eauto. Qed.
Lemma pairs_waits : c_waiting c = true → ps ⊆ rel waits (e_conns e).
Proof using Hc.
  intros Hw [k t] [-> Ht]%elem_of_pairs. apply elem_of_rel. exists c. split; [done|].
  unfold waits. by rewrite Hw.
Qed.
Lemma pairs_not_waits : c_waiting c = false → ps ## rel waits (e_conns e).
Proof using Hc.
  intros Hw [k t] [-> Ht]%elem_of_pairs (c' & Hc' & Hin)%elem_of_rel.
  replace c' with c in * by congruence. unfold waits in Hin. rewrite Hw in Hin. set_solver.
Qed.
Lemma waits_set wd : rel waits (alter (set_wait wd) cid (e_conns e)) = ps ∪ rel waits (e_conns e).
Proof using Hc.
  apply set_eq. intros [k t]. rewrite elem_of_union, !elem_of_rel.
  unfold ps. rewrite elem_of_pairs. setoid_rewrite lookup_alter.
  destruct (decide (cid = k)) as [<-|Hk].
  - rewrite Hc. simpl. unfold waits at 1. split; [naive_solver|]. intros [[_ Ht]|(v & [= <-] & Hv)].
    + eexists. split; [done|]. done.
    + eexists. split; [done|]. cbn. unfold waits in Hv. by destruct (c_waiting c); [|set_solver].
  - naive_solver.
Qed.
Lemma waits_unset : rel waits (alter unset_wait cid (e_conns e)) = rel waits (e_conns e) ∖ ps.
Proof using Hc.
  apply set_eq. intros [k t]. rewrite elem_of_difference, !elem_of_rel.
  unfold ps. rewrite elem_of_pairs. setoid_rewrite lookup_alter.
  destruct (decide (cid = k)) as [<-|Hk].
  - rewrite Hc. simpl. split.
    + intros (v & [= <-] & Hv). unfold waits in Hv. cbn in Hv. set_solver.
    + intros [(v & [= <-] & Hv) Hn]. unfold waits in Hv. destruct (c_waiting c); naive_solver.
  - naive_solver.
Qed.

Lemma rels_enqueue_waiting wd :
  rels (enqueue_waiting_conn cid wd e) = rels (upd_conn cid (set_wait wd) e).
Proof using Hc.
  unfold enqueue_waiting_conn. rewrite Hc, rels_refresh_tick.
  destruct (fold_steps_same (wait_step cid) (ms_items (c_watch c))
    (upd_ct waiting_ct incr64 (upd_conn cid (set_wait wd) e)) (wait_step_same cid)) as (E & _). exact E.
Qed.
Lemma rels_remove_waiting :
  c_waiting c = true → rels (do_remove_waiting_conn cid e) = rels (upd_conn cid unset_wait e).
Proof using Hc.
  intros Hw. unfold do_remove_waiting_conn. rewrite Hc, Hw, rels_refresh_tick.
  destruct (fold_steps_same (unwait_step cid) (ms_items (c_watch c))
    (upd_ct waiting_ct decr (upd_conn cid unset_wait e)) (unwait_step_same cid)) as (E & _). exact E.
Qed.

Lemma at_rest_set_wait b h wd :
  at_rest b h (upd_conn cid (set_wait wd) e) =
    (at_rest b h e) <| g_waits ::= (ps ∪.) |> <| g_waitn ::= (ps ∪.) |>.
Proof using Hc.
  unfold at_rest, ghost_of. eng. rewrite waits_set, !(rel_alter uses), !(rel_alter watches) by done. done.
Qed.
Lemma at_rest_unset_wait b h :
  at_rest b h (upd_conn cid unset_wait e) =
    (at_rest b h e) <| g_waits ::= (.∖ ps) |> <| g_waitn ::= (.∖ ps) |>.
Proof using Hc.
  unfold at_rest, ghost_of. eng. rewrite waits_unset, !(rel_alter uses), !(rel_alter watches) by done. done.
Qed.
End rest_waiting.

Lemma Rest_enqueue_waiting b h e cid c wd :
  Rest b h e → e_conns e !! cid = Some c → c_waiting c = false → room b e →
  Rest b true (enqueue_waiting_conn cid wd e).
Proof.
  intros HR Hc Hw Hr. apply (Rest_intro _ _ (upd_conn cid (set_wait wd) e)).
  2: { by eapply rels_enqueue_waiting. }
  rewrite jobs_enqueue_waiting, (at_rest_set_wait _ _ _ Hc).
  exact (Core_enqueue_waiting _ _ HR _ _ Hc wd Hw Hr (pairs_watches _ _ _ Hc)
           (pairs_not_waits _ _ _ Hc Hw) (pairs_not_waits _ _ _ Hc Hw)).
Qed.

(** The connection leaves every wait list; [Q] may lack some of its entries
    already. *)
Lemma Core_remove_waiting_from b h e cid c J Q :
  Core ((at_rest b h e) <| g_jobs := J |> <| g_waits := Q |>) e →
  e_conns e !! cid = Some c → c_waiting c = true →
  Q ∖ pairs cid (ms_items (c_watch c)) = rel waits (e_conns e) ∖ pairs cid (ms_items (c_watch c)) →
  Core ((at_rest b h (do_remove_waiting_conn cid e)) <| g_jobs := J |>) (do_remove_waiting_conn cid e) ∧
  room b (do_remove_waiting_conn cid e).
Proof.
  intros HC Hc Hw HQ.
  destruct (Core_remove_waiting _ _ HC _ _ Hc Hw (pairs_waits _ _ _ Hc Hw)) as [HC' Hr].
  split; [|exact Hr]. eapply Core_eq; [exact HC'|].
  rewrite (at_rest_same b h (upd_conn cid unset_wait e) (do_remove_waiting_conn cid e))
    by (by eapply rels_remove_waiting).
  rewrite (at_rest_unset_wait _ _ _ Hc). unfold at_rest. ghost_eq. exact HQ.
Qed.
Lemma Rest_remove_waiting b h e cid :
  Rest b h e → Rest b h (do_remove_waiting_conn cid e).
Proof.
  intros HR. destruct (e_conns e !! cid) as [c|] eqn:Hc.
  2: { unfold do_remove_waiting_conn. by rewrite Hc. }
  destruct (c_waiting c) eqn:Hw.
  2: { unfold do_remove_waiting_conn. by rewrite Hc, Hw. }
  destruct (Core_remove_waiting_from b h e cid c (e_jobs e) (rel waits (e_conns e)) HR Hc Hw eq_refl) as [HC _].
  unfold Rest. rewrite <-(jobs_remove_waiting e cid) in HC. exact HC.
Qed.
