(* ===== verification/Dispatch.v ===== *)
(** * Dispatch: [clear_expired_pauses] and [process_queue]

    The best ready job of the dispatchable, unpaused tubes goes to the
    connection whose turn it is, until no tube has both.  The loops are shown
    to need no more fuel than they are given. *)

From S2P Require Import Prelude Ms Proto Model Engine Inv InvFrame InvRefresh Queues Moves Tubes Waiting Rest.
From stdpp Require Import options.

(** ** Pauses *)
Lemma Core_clear_pause g e at_ id :
  Core g e → (at_, id) ∈ e_pauses e →
  Core (g <| g_hot := true |>)
    (upd_tube id (λ t, t <| t_pause := 0%N |>) (e <| e_pauses ::= (.∖ {[ (at_, id) ]}) |>)).
Proof.
  intros HC Hin. pose proof (co_pauses _ _ HC) as Hp. apply Hp in Hin.
  destruct (slot (e_tubes e) id) as [t|] eqn:Ht; [|done]. simpl in Hin. core HC.
  - pose proof (tube_index_upd _ _ _ _ _ (λ t, t <| t_pause := 0%N |>) co_pauses Ht) as Hx.
    rewrite Hin in Hx. unfold pause_key at 2 in Hx. cbn in Hx.
    by rewrite (left_id_L ∅ (∪)) in Hx.
  - by intros i t' _ Hn.
Qed.

Lemma Rest_clear_loop fuel now b h e : Rest b h e → ∃ h', Rest b h' (clear_pauses_loop fuel now e).
Proof.
  revert h e. induction fuel as [|fuel IH]; intros h e HR; simpl; [eauto|].
  destruct (bt_first (e_pauses e)) as [[at_ id]|] eqn:E; [|eauto].
  destruct (now <? at_)%N; [eauto|]. apply bt_first_elem in E.
  apply (IH true). exact (Core_clear_pause _ _ _ _ HR E).
Qed.
Lemma clear_loop_done fuel now e :
  size (e_pauses e) ≤ fuel →
  ∀ at_ id, (at_, id) ∈ e_pauses (clear_pauses_loop fuel now e) → (now < at_)%N.
Proof.
  revert e. induction fuel as [|fuel IH]; intros e Hf at_ id; simpl.
  - assert (e_pauses e = ∅) as -> by (apply leibniz_equiv, size_empty_inv; lia). set_solver.
  - destruct (bt_first (e_pauses e)) as [[a i]|] eqn:E.
    + destruct (N.ltb_spec now a) as [Hlt|Hle].
      * intros Hin. pose proof (bt_first_min _ _ _ E Hin) as Hm. apply NN_ole_fst in Hm. lia.
      * apply IH. apply bt_first_elem in E. eng. rewrite size_difference by set_solver.
        rewrite size_singleton. lia.
    + apply bt_first_None in E. rewrite E. set_solver.
Qed.
Lemma clear_loop_same fuel now e :
  e_jobs (clear_pauses_loop fuel now e) = e_jobs e ∧ e_conns (clear_pauses_loop fuel now e) = e_conns e ∧
  e_next_list_seq (clear_pauses_loop fuel now e) = e_next_list_seq e.
Proof.
  revert e. induction fuel as [|fuel IH]; intros e; simpl; [done|].
  destruct (bt_first (e_pauses e)) as [[a i]|]; [|done]. destruct (now <? a)%N; [done|].
  destruct (IH (upd_tube i (λ t, t <| t_pause := 0%N |>) (e <| e_pauses ::= (.∖ {[ (a, i) ]}) |>)))
    as (-> & -> & ->). done.
Qed.

(** ** Sizes of the queues *)
Lemma size_keyed (J : Jobs) (P : JobRec → bool) (key : JobRec → N) (S : gset (N * JobId)) :
  (∀ k i, (k, i) ∈ S ↔ ∃ j, J !! i = Some j ∧ P j = true ∧ key j = k) →
  N.of_nat (size S) = count P J.
Proof.
  intros HS. unfold count. f_equal.
  assert (set_map (D := gset JobId) snd S = dom (filter (λ kv : JobId * JobRec, P kv.2) J)) as Hd.
  { apply set_eq. intros i. rewrite elem_of_map, elem_of_dom. split.
    - intros ([k i'] & -> & Hin). apply HS in Hin as (j & Hj & HP & _). exists j.
      apply map_lookup_filter_Some. simpl. by rewrite HP.
    - intros [j [Hj HP]%map_lookup_filter_Some]. exists (key j, i). split; [done|]. apply HS.
      exists j. simpl in HP. by destruct (P j). }
  rewrite <-size_dom, <-Hd. unfold set_map. rewrite size_list_to_set; [by rewrite length_fmap|].
  apply NoDup_fmap_2_strong; [|apply NoDup_elements].
  intros [k1 i1] [k2 i2] H1%elem_of_elements H2%elem_of_elements E. simpl in E. subst i2.
  apply HS in H1 as (j1 & Hj1 & _ & <-), H2 as (j2 & Hj2 & _ & <-). congruence.
Qed.
Lemma size_ready J tid t :
  ready_of J tid t → N.of_nat (size (t_ready t)) = count (state_in JobState.Ready tid) J.
Proof.
  intros Ht. apply (size_keyed _ _ j_pri). intros k i. rewrite (Ht k i). unfold queued, state_in, in_state, in_tube.
  setoid_rewrite andb_true_iff. setoid_rewrite bool_decide_eq_true. naive_solver.
Qed.
Lemma size_delayed J tid t :
  delayed_of J tid t → N.of_nat (size (t_delayed t)) = count (state_in JobState.Delayed tid) J.
Proof.
  intros Ht. apply (size_keyed _ _ j_deadline_at). intros k i. rewrite (Ht k i).
  unfold queued, state_in, in_state, in_tube.
  setoid_rewrite andb_true_iff. setoid_rewrite bool_decide_eq_true. naive_solver.
Qed.

(** Jobs of the first [n] slots. *)
Lemma count_split (J : Jobs) (P Q R : JobRec → bool) :
  (∀ j, P j = Q j || R j) → (∀ j, Q j && R j = false) → count P J = (count Q J + count R J)%N.
Proof.
  intros Hor Hand. induction J as [|i j J Hi IH] using map_ind; [by rewrite !count_empty|].
  rewrite !count_insert_new by done. simpl. specialize (Hor j). specialize (Hand j).
  destruct (P j), (Q j), (R j); try done; lia.
Qed.
Lemma sum_slab (J : Jobs) (s : JobState) (f : TubeState → nat) (T : Slab) :
  each_tube (λ tid t, N.of_nat (f t) = count (state_in s tid) J) T →
  (∀ i j, J !! i = Some j → live T (j_tube j)) →
  N.of_nat (sum_list_with (λ o, match o with Some t => f t | None => 0 end) T) = count (in_state s) J.
Proof.
  intros HT HL. set (w := λ o, match o with Some t => f t | None => 0 end).
  assert (∀ n, n ≤ length T → N.of_nat (sum_list_with w (take n T)) =
            count (λ j, in_state s j && (j_tube j <? n)) J) as Hn.
  { induction n as [|n IH]; intros Hle.
    - simpl. symmetry. apply count_zero. intros i j _. by rewrite andb_false_r.
    - destruct (lookup_lt_is_Some_2 T n) as [o Ho]; [lia|].
      rewrite (take_S_r _ _ _ Ho), sum_list_with_app, Nat2N.inj_add, IH by lia.
      rewrite (count_split _ (λ j, in_state s j && (j_tube j <? S n))
                 (λ j, in_state s j && (j_tube j <? n)) (state_in s n)).
      + f_equal. simpl. rewrite Nat.add_0_r. destruct o as [t|]; simpl.
        * apply HT. by apply slot_Some.
        * symmetry. apply count_zero. intros i j Hj. unfold state_in, in_tube.
          apply HL in Hj as [t Ht]. rewrite bool_decide_eq_false_2; [apply andb_false_r|].
          intros E. rewrite E, slot_Some in Ht. congruence.
      + intros j. unfold state_in, in_tube. destruct (in_state s j); [simpl|done].
        apply eq_true_iff_eq. rewrite orb_true_iff, bool_decide_eq_true, !Nat.ltb_lt. lia.
      + intros j. unfold state_in, in_tube. destruct (in_state s j); [simpl|done].
        apply not_true_iff_false. rewrite andb_true_iff, bool_decide_eq_true, Nat.ltb_lt. lia. }
  specialize (Hn (length T) (le_n _)). rewrite firstn_all in Hn. rewrite Hn. apply count_ext.
  intros i j Hj. apply HL in Hj as [t Ht%slot_lt]. rewrite (proj2 (Nat.ltb_lt _ _) Ht). apply andb_true_r.
Qed.

Lemma total_ready_count g e :
  Core g e → N.of_nat (total_ready (e_tubes e)) = count (in_state JobState.Ready) (g_jobs g).
Proof.
  intros HC. apply sum_slab.
  - eapply each_tube_impl; [exact (co_ready _ _ HC)|]. intros tid t _. apply size_ready.
  - intros i j Hj%(queued_job _ _ HC). apply (co_jobs _ _ HC _ _ Hj).
Qed.
Lemma total_delayed_count g e :
  Core g e → N.of_nat (total_delayed (e_tubes e)) = count (in_state JobState.Delayed) (g_jobs g).
Proof.
  intros HC. apply sum_slab.
  - eapply each_tube_impl; [exact (co_delayed _ _ HC)|]. intros tid t _. apply size_delayed.
  - intros i j Hj%(queued_job _ _ HC). apply (co_jobs _ _ HC _ _ Hj).
Qed.

(** ** The best ready job *)
(** A ready job that may be dispatched from tube [tid]. *)
Definition candidate (e : Engine) (L : list TubeId) (x : N * JobId) (tid : TubeId) : Prop :=
  tid ∈ L ∧ ∃ t, slot (e_tubes e) tid = Some t ∧ t_pause t = 0%N ∧ x ∈ t_ready t.

Lemma better_fold e L best L0 :
  (match best with
   | Some (p, i, tid) => candidate e L0 (p, i) tid ∧ ∀ x tid', candidate e L0 x tid' → (p, i) ≼ x
   | None => ∀ x tid', ¬ candidate e L0 x tid'
   end) →
  match foldl (better e) best L with
  | Some (p, i, tid) =>
      candidate e (L0 ++ L) (p, i) tid ∧ ∀ x tid', candidate e (L0 ++ L) x tid' → (p, i) ≼ x
  | None => ∀ x tid', ¬ candidate e (L0 ++ L) x tid'
  end.
Proof.
  revert best L0. induction L as [|tid L IH]; intros best L0 Hb; simpl; [by rewrite app_nil_r|].
  replace (L0 ++ tid :: L) with ((L0 ++ [tid]) ++ L) by (by rewrite <-app_assoc). apply IH. clear IH L.
  assert (∀ x i, candidate e (L0 ++ [tid]) x i ↔ candidate e L0 x i ∨ (i = tid ∧ candidate e [tid] x i)) as Hsplit.
  { intros x i. unfold candidate. set_solver. }
  assert (∀ x i, candidate e [tid] x i ↔ i = tid ∧ ∃ t, slot (e_tubes e) tid = Some t ∧ t_pause t = 0%N ∧ x ∈ t_ready t) as Hone.
  { intros x i. unfold candidate. rewrite list_elem_of_singleton. naive_solver. }
  assert ((∀ x, ¬ candidate e [tid] x tid) → match best with
     | Some (p, i, tid0) => candidate e (L0 ++ [tid]) (p, i) tid0 ∧
         ∀ x tid', candidate e (L0 ++ [tid]) x tid' → (p, i) ≼ x
     | None => ∀ x tid', ¬ candidate e (L0 ++ [tid]) x tid' end) as Hsame.
  { intros Hno. destruct best as [[[p i] tid0]|].
    - destruct Hb as [Hbc Hbm]. split; [apply Hsplit; auto|].
      intros x i' [Hx|[-> Hx]]%Hsplit; [eauto|by apply Hno in Hx].
    - intros x i' [Hx|[-> Hx]]%Hsplit; [by eapply Hb|by eapply Hno]. }
  unfold better, tube. destruct (slot (e_tubes e) tid) as [t|] eqn:Ht; [|apply Hsame; intros x Hx%Hone; naive_solver].
  destruct (N.ltb_spec 0 (t_pause t)) as [Hp|Hp].
  { apply Hsame. intros x (_ & t' & [= <-] & Hz & _)%Hone. lia. }
  destruct (bt_first (t_ready t)) as [[p i]|] eqn:Ef.
  2: { apply Hsame. intros x (_ & t' & [= <-] & _ & Hx)%Hone. apply bt_first_None in Ef. set_solver. }
  assert (candidate e [tid] (p, i) tid ∧ ∀ x tid', candidate e [tid] x tid' → (p, i) ≼ x) as [Hc Hm].
  { apply bt_first_Some in Ef as [Hin Hmin]. split.
    - apply Hone. split; [done|]. exists t. split_and!; [done|lia|done].
    - intros x i' (_ & t' & [= <-] & _ & Hx)%Hone. auto. }
  destruct best as [[[bp bid] bt]|].
  - destruct Hb as [Hbc Hbm]. case_decide as Hd.
    + split; [apply Hsplit; auto|]. intros x i' [Hx|[-> Hx]]%Hsplit; [|eauto].
      eapply ole_trans; [by apply olt_ole|eauto].
    + apply not_olt in Hd. split; [apply Hsplit; auto|]. intros x i' [Hx|[-> Hx]]%Hsplit; [eauto|].
      eapply ole_trans; [exact Hd|eauto].
  - split; [apply Hsplit; auto|]. intros x i' [Hx|[-> Hx]]%Hsplit; [naive_solver|eauto].
Qed.

Lemma best_ready_spec e :
  match best_ready e with
  | Some (p, i, tid) =>
      candidate e (bt_iter (e_dispatchable e)) (p, i) tid ∧
      ∀ x tid', candidate e (bt_iter (e_dispatchable e)) x tid' → (p, i) ≼ x
  | None => ∀ x tid', ¬ candidate e (bt_iter (e_dispatchable e)) x tid'
  end.
Proof. apply (better_fold e _ None []). intros x tid [Hin _]. by apply elem_of_nil in Hin. Qed.

(** ** One dispatch *)
Lemma refresh_disp_field {A} (f : TubeState → A) tid e i :
  (∀ t d, f (t <| t_dispatchable := d |>) = f t) →
  f <$> slot (e_tubes (refresh_dispatchable tid e)) i = f <$> slot (e_tubes e) i.
Proof.
  intros Hf. unfold refresh_dispatchable. destruct (tube e tid); [|done]. case_match; [done|].
  case_match; by apply slot_alter_fmap.
Qed.
Lemma remove_ready_waiting tid id e i :
  t_waiting_conns <$> slot (e_tubes (remove_ready tid id e)) i = t_waiting_conns <$> slot (e_tubes e) i.
Proof.
  unfold remove_ready. rewrite refresh_disp_field by done.
  case_match; eng; apply slot_alter_fmap; intros t; by case_match.
Qed.

Section candidates.
Context (b : Budget) (h : bool) (e : Engine) (HR : Rest b h e).

Lemma candidate_iff x tid :
  candidate e (bt_iter (e_dispatchable e)) x tid ↔
  ∃ t, slot (e_tubes e) tid = Some t ∧ ms_items (t_waiting_conns t) ≠ [] ∧ t_pause t = 0%N ∧ x ∈ t_ready t.
Proof using HR.
  unfold candidate. rewrite elem_of_bt_iter, (co_disp _ _ HR tid). split.
  - intros (Hd & t & Ht & Hp & Hx). exists t. split_and!; try done.
    rewrite Ht in Hd. injection Hd as Hd.
    rewrite (co_disp_key _ _ HR _ _ Ht) in Hd by set_solver.
    by apply andb_true_iff in Hd as [?%negb_true_iff%ms_is_empty_false _].
  - intros (t & Ht & Hw & Hp & Hx). split; [|eauto]. rewrite Ht. simpl. f_equal.
    rewrite (co_disp_key _ _ HR _ _ Ht) by set_solver. unfold wants_dispatch.
    rewrite (proj2 (ms_is_empty_false _) Hw), bool_decide_eq_false_2 by set_solver. done.
Qed.

(** The chosen job, its tube and the connection whose turn it is. *)
Record chosen (p : N) (id : JobId) (tid : TubeId) (j : JobRec) (t : TubeState)
    (cid : ConnId) (c : ConnState) : Prop := mkChosen {
  ch_job : e_jobs e !! id = Some j;
  ch_state : j_state j = JobState.Ready;
  ch_tube : j_tube j = tid;
  ch_pri : j_pri j = p;
  ch_slot : slot (e_tubes e) tid = Some t;
  ch_pause : t_pause t = 0%N;
  ch_take : (ms_take (t_waiting_conns t)).1 = Some cid;
  ch_conn : e_conns e !! cid = Some c;
  ch_waiting : c_waiting c = true;
  ch_watch : tid ∈ ms_items (c_watch c);
}.

Lemma best_ready_chosen p id tid :
  best_ready e = Some (p, id, tid) → ∃ j t cid c, chosen p id tid j t cid c.
Proof using HR.
  intros Hb. pose proof (best_ready_spec e) as Hs. rewrite Hb in Hs. destruct Hs as [Hc _].
  apply candidate_iff in Hc as (t & Ht & Hw & Hp & Hin).
  apply (co_ready _ _ HR _ _ Ht) in Hin as (j & Hj & Hjs & Hjt & Hjp).
  destruct (ms_take_perm _ Hw) as (cid & m & Htake & Hperm).
  assert ((cid, tid) ∈ rel waits (e_conns e)) as (c & Hcc & Hcw)%elem_of_rel.
  { apply (co_waiting _ _ HR _ _ Ht). rewrite Hperm. left. }
  unfold waits in Hcw. destruct (c_waiting c) eqn:Ew; [|set_solver].
  exists j, t, cid, c. split; try done. by rewrite Htake.
Qed.

Lemma dispatch_chosen now out p id tid j t cid c :
  chosen p id tid j t cid c →
  let e3 := do_remove_waiting_conn cid
              (refresh_dispatchable tid
                 (upd_tube tid (λ t, t <| t_waiting_conns := (ms_take (t_waiting_conns t)).2 |>)
                    (remove_ready tid id e))) in
  dispatch now id tid (e, out) = reply_with cid (reserved_reply id) (do_reserve cid id now e3, out) ∧
  Float b h id e3 ∧ room b e3 ∧ e_jobs e3 = e_jobs e ∧ rels e3 = rels (upd_conn cid unset_wait e).
Proof using HR.
  intros [Hj Hs Htube _ Ht _ Htake Hc Hw Hwatch]. subst tid.
  pose proof (Float_remove_ready _ _ _ HR _ _ Hj Hs) as HF.
  set (e1 := remove_ready (j_tube j) id e) in *.
  assert (e_conns e1 = e_conns e) as Hc1.
  { unfold e1, remove_ready. rewrite conns_refresh_disp. by case_match. }
  assert (e_jobs e1 = e_jobs e) as Hj1 by apply jobs_remove_ready.
  assert (∃ t1, slot (e_tubes e1) (j_tube j) = Some t1 ∧ t_waiting_conns t1 = t_waiting_conns t) as (t1 & Ht1 & Hw1).
  { pose proof (remove_ready_waiting (j_tube j) id e (j_tube j)) as E. rewrite Ht in E.
    fold e1 in E. destruct (slot (e_tubes e1) (j_tube j)) as [t1|]; [|done]. injection E as E. eauto. }
  intros e3. rewrite <-Hw1 in Htake.
  pose proof (Core_take _ _ HF _ _ _ Ht1 Htake) as HT.
  set (e2 := refresh_dispatchable (j_tube j)
    (upd_tube (j_tube j) (λ t, t <| t_waiting_conns := (ms_take (t_waiting_conns t)).2 |>) e1)) in *.
  assert (e_conns e2 = e_conns e1) as Hc2 by (unfold e2; by rewrite conns_refresh_disp).
  assert (e_jobs e2 = e_jobs e1) as Hj2 by (unfold e2; by rewrite jobs_refresh_disp).
  assert (e_conns e2 !! cid = Some c) as Hce2 by (by rewrite Hc2, Hc1).
  destruct (Core_remove_waiting_from b h e2 cid c (delete id (e_jobs e2))
    (rel waits (e_conns e2) ∖ {[ (cid, j_tube j) ]})) as [HC3 Hroom]; [|done|done| |].
  { rewrite (at_rest_same b h e1) by (unfold rels; by rewrite Hc2). rewrite Hj2, Hc2. exact HT. }
  { apply set_eq. intros [k i]. rewrite !elem_of_difference, elem_of_singleton, elem_of_pairs. naive_solver. }
  split; [|split_and!].
  - unfold dispatch, tube. fold e1. rewrite Ht1, Htake. done.
  - unfold Float. fold e2 in e3. unfold e3. eapply Core_eq; [exact HC3|].
    unfold at_rest. ghost_eq. by rewrite jobs_remove_waiting.
  - exact Hroom.
  - unfold e3. fold e2. by rewrite jobs_remove_waiting, Hj2, Hj1.
  - unfold e3. fold e2. rewrite (rels_remove_waiting _ _ _ Hce2 Hw).
    unfold rels. eng. by rewrite Hc2, Hc1.
Qed.
End candidates.

(** ** The loop *)
(** What dispatch at time [now] does to the job table, the connections being
    in the states [R]: some ready jobs are reserved by waiting connections, and
    nothing else changes. *)
Definition waits_in (R : gmap ConnId RelInfo) (cid : ConnId) : Prop :=
  ∃ r, R !! cid = Some r ∧ r.2 = true.
Definition handed (now : Nanos) (R : gmap ConnId RelInfo) (j j' : JobRec) : Prop :=
  j' = j ∨ (j_state j = JobState.Ready ∧
            ∃ cid seq, waits_in R cid ∧ j' = reserved_as cid (sat_add64 now (secs (j_ttr j))) seq j).
Definition dispatched (now : Nanos) (R : gmap ConnId RelInfo) (A A' : Jobs) : Prop :=
  map_relation (λ _, handed now R) (λ _ _, False) (λ _ _, False) A A'.
(** Connections keep what they use and watch; some stop waiting, the others
    keep their deadline. *)
Definition calmer (R R' : gmap ConnId RelInfo) : Prop :=
  map_relation (λ _ r r', r'.1.1 = r.1.1 ∧ (r'.2 = true → r.2 = true ∧ r'.1.2 = r.1.2))
    (λ _ _, False) (λ _ _, False) R R'.
Lemma calmer_refl R : calmer R R.
Proof. intros i. destruct (R !! i); simpl; done. Qed.
Lemma calmer_trans R1 R2 R3 : calmer R1 R2 → calmer R2 R3 → calmer R1 R3.
Proof.
  intros H1 H2 i. specialize (H1 i). specialize (H2 i).
  destruct (R1 !! i), (R2 !! i), (R3 !! i); simpl in *; naive_solver congruence.
Qed.
Lemma calmer_waits R R' cid : calmer R R' → waits_in R' cid → waits_in R cid.
Proof.
  intros Hc (r' & Hr' & Hw). specialize (Hc cid). rewrite Hr' in Hc. unfold waits_in.
  destruct (R !! cid) as [r|]; [|done]. destruct Hc as [_ Hc]. destruct (Hc Hw). eauto.
Qed.
Lemma calmer_unset cid e : calmer (rels e) (rels (upd_conn cid unset_wait e)).
Proof.
  intros i. unfold rels. rewrite !lookup_fmap. eng. rewrite lookup_alter.
  case_decide; [subst|]; destruct (e_conns e !! i); simpl; naive_solver.
Qed.

Lemma dispatched_refl now R A : dispatched now R A A.
Proof. intros i. destruct (A !! i); simpl; [by left|done]. Qed.
Lemma dispatched_trans now R R' A1 A2 A3 :
  dispatched now R A1 A2 → calmer R R' → dispatched now R' A2 A3 → dispatched now R A1 A3.
Proof.
  intros H1 Hc H2 i. specialize (H1 i). specialize (H2 i).
  destruct (A1 !! i) as [j1|], (A2 !! i) as [j2|], (A3 !! i) as [j3|]; simpl in *; try done.
  destruct H1 as [->|(Hs & cid & seq & Hw & ->)].
  - destruct H2 as [->|(Hs & cid & seq & Hw & ->)]; [by left|]. right. eauto 6 using calmer_waits.
  - destruct H2 as [->|(Hs' & _)]; [|done]. right. eauto 6.
Qed.
Lemma dispatched_step now R A id j cid seq :
  A !! id = Some j → j_state j = JobState.Ready → waits_in R cid →
  dispatched now R A (<[id := reserved_as cid (sat_add64 now (secs (j_ttr j))) seq j]> A).
Proof.
  intros Hj Hs Hw i. destruct (decide (i = id)) as [->|Hi].
  - rewrite lookup_insert_eq, Hj. simpl. right. eauto 6.
  - rewrite lookup_insert_ne by done. destruct (A !! i); simpl; [by left|done].
Qed.
(** A state no job enters or leaves by dispatch keeps its count. *)
Lemma dispatched_count now R P A A' :
  dispatched now R A A' →
  (∀ j cid seq, j_state j = JobState.Ready →
     P j = P (reserved_as cid (sat_add64 now (secs (j_ttr j))) seq j)) →
  count P A' = count P A.
Proof.
  intros HA HP. revert A' HA. induction A as [|i j A Hi IH] using map_ind; intros A' HA.
  - assert (A' = ∅) as ->; [|done]. apply map_eq. intros k. specialize (HA k).
    rewrite lookup_empty in HA. rewrite lookup_empty. by destruct (A' !! k).
  - rewrite count_insert_new by done. rewrite (count_delete P A' i), (IH (delete i A')).
    + pose proof (HA i) as Hh. rewrite lookup_insert_eq in Hh.
      destruct (A' !! i) as [j'|]; simpl in *; [|done].
      destruct Hh as [->|(Hs & cid & seq & _ & ->)]; [done|]. by rewrite <-(HP j cid seq).
    + intros k. specialize (HA k). destruct (decide (k = i)) as [->|].
      * by rewrite Hi, lookup_delete_eq.
      * by rewrite lookup_insert_ne, lookup_delete_ne in * by done.
Qed.

Lemma reply_with_fst cid f s : (reply_with cid f s).1 = s.1.
Proof. unfold reply_with. destruct s. by case_match. Qed.
Lemma reply_fst cid r s : (reply cid r s).1 = s.1.
Proof. unfold reply. destruct s. by case_match. Qed.

Lemma Rest_dispatch b h now e out p id tid :
  Rest b h e → best_ready e = Some (p, id, tid) →
  let e' := (dispatch now id tid (e, out)).1 in
  Rest b h e' ∧ dispatched now (rels e) (e_jobs e) (e_jobs e') ∧ calmer (rels e) (rels e') ∧
  (count (in_state JobState.Ready) (e_jobs e') + 1 = count (in_state JobState.Ready) (e_jobs e))%N.
Proof.
  intros HR Hb. destruct (best_ready_chosen _ _ _ HR _ _ _ Hb) as (j & t & cid & c & Hch).
  destruct (dispatch_chosen _ _ _ HR now out _ _ _ _ _ _ _ Hch) as (-> & HF & Hroom & Hjobs & Hrels).
  rewrite reply_with_fst. destruct Hch as [Hj Hs _ _ _ _ _ Hc Hcw _]. simpl.
  set (e3 := do_remove_waiting_conn _ _) in *.
  assert (e_jobs e3 !! id = Some j) as Hj3 by (by rewrite Hjobs).
  assert (is_Some (e_conns e3 !! cid)) as Hc3.
  { apply (fmap_is_Some (λ c, (c_use_tube c, c_watch c, c_wait_deadline c, c_waiting c))). rewrite <-lookup_fmap.
    fold (rels e3). rewrite Hrels. unfold rels. rewrite lookup_fmap. eng. rewrite lookup_alter_eq, Hc. eauto. }
  assert (e_jobs (do_reserve cid id now e3) =
          <[id := reserved_as cid (sat_add64 now (secs (j_ttr j))) (e_next_list_seq e3) j]> (e_jobs e)) as Hj'.
  { rewrite (do_reserve_eq _ _ _ Hj3), jobs_refresh_tick. eng. unfold enqueue. eng. by rewrite Hjobs. }
  split_and!.
  - by eapply Rest_do_reserve.
  - rewrite Hj'. apply dispatched_step; [done|done|]. unfold waits_in, rels. rewrite lookup_fmap, Hc.
    by eexists.
  - rewrite rels_do_reserve, Hrels. apply calmer_unset.
  - rewrite Hj'. pose proof (count_insert (in_state JobState.Ready) (e_jobs e) id
      (reserved_as cid (sat_add64 now (secs (j_ttr j))) (e_next_list_seq e3) j)) as Hcount.
    assert (in_state JobState.Ready j = true) as Hin by (by apply bool_decide_eq_true).
    assert (∀ d s, in_state JobState.Ready (reserved_as cid d s j) = false) as Hout by done.
    rewrite Hj in Hcount. unfold ind in Hcount. rewrite Hin, Hout in Hcount. lia.
Qed.

Lemma Rest_process_loop fuel b h now e out :
  Rest b h e → (count (in_state JobState.Ready) (e_jobs e) < N.of_nat fuel)%N →
  let e' := (process_queue_loop fuel now (e, out)).1 in
  Rest b h e' ∧ best_ready e' = None ∧ dispatched now (rels e) (e_jobs e) (e_jobs e') ∧ calmer (rels e) (rels e').
Proof.
  revert e out. induction fuel as [|fuel IH]; intros e out HR Hf; [lia|].
  cbn [process_queue_loop fst].
  destruct (best_ready e) as [[[p id] tid]|] eqn:Hb.
  - destruct (Rest_dispatch b h now e out p id tid HR Hb) as (HR' & Hd & Hc & Hn).
    destruct (dispatch now id tid (e, out)) as [e1 out1]. cbn [fst] in *.
    destruct (IH e1 out1 HR') as (HR2 & Hb2 & Hd2 & Hc2); [lia|].
    split_and!; [done|done|by eapply dispatched_trans|by eapply calmer_trans].
  - split_and!; [done|done|apply dispatched_refl|apply calmer_refl].
Qed.

Lemma Rest_drain b h e : Rest b h e → best_ready e = None → Rest b false e.
Proof.
  intros HR Hb. pose proof (best_ready_spec e) as Hn. rewrite Hb in Hn.
  assert (∀ x tid, ¬ candidate e (bt_iter (e_dispatchable e)) x tid) as Hno by exact Hn.
  setoid_rewrite (candidate_iff _ _ _ HR) in Hno. unfold Rest. pose proof HR as HC. core HC.
  intros tid t Ht _ [Hw%negb_true_iff%ms_is_empty_false He%negb_true_iff%bool_decide_eq_false]%andb_true_iff.
  destruct (decide (t_pause t = 0%N)) as [Hp|]; [|lia]. exfalso.
  apply set_choose_L in He as [x Hx]. apply (Hno x tid). eauto.
Qed.

(** [process_queue] restores the invariant at rest: nothing is left to
    dispatch. *)
Lemma Rest_process_queue b h now e out :
  Rest b h e →
  let e' := (process_queue now (e, out)).1 in
  Rest b false e' ∧ dispatched now (rels e) (e_jobs e) (e_jobs e') ∧ calmer (rels e) (rels e').
Proof.
  intros HR. unfold process_queue, clear_expired_pauses.
  destruct (Rest_clear_loop (size (e_pauses e)) now b h e HR) as [h' HR'].
  destruct (clear_loop_same (size (e_pauses e)) now e) as (Hj & Hc & _).
  set (e1 := clear_pauses_loop _ _ _) in *.
  destruct (Rest_process_loop (S (total_ready (e_tubes e1))) b h' now e1 out HR') as (HR2 & Hb & Hd & Hcalm).
  { pose proof (total_ready_count _ _ HR') as Ht. cbn in Ht. lia. }
  unfold rels in *. rewrite Hc in Hd, Hcalm. rewrite Hj in Hd. split_and!; [by eapply Rest_drain|done|done].
Qed.
