(* ===== verification/ConnOps.v ===== *)
(** * Steps on connections and new jobs

    Producer and worker marks, pending puts, fresh job ids and the insertion
    of a new job; and how budgets grow. *)

From S2P Require Import Prelude Ms Proto Model Engine Inv InvFrame InvRefresh Queues Moves Tubes Waiting Rest.
From S2P Require Import Dispatch.
From stdpp Require Import options.

(** ** Budgets *)
(** What one input may use up, besides connections. *)
Definition grow (b : Budget) : Budget :=
  mkBudget (b_ids b + 1) (b_seq b + 1) (b_conns b) (b_tubes b + 1).
Definition budget_le (b b' : Budget) : Prop :=
  (b_ids b ≤ b_ids b')%N ∧ (b_seq b ≤ b_seq b')%N ∧ (b_conns b ≤ b_conns b')%N ∧
  (b_tubes b ≤ b_tubes b')%N.
Lemma budget_le_grow b : budget_le b (grow b).
Proof. unfold budget_le, grow. simpl. lia. Qed.

Lemma Core_budget g e b' :
  Core g e → budget_le (g_budget g) b' → budget_ok b' → Core (g <| g_budget := b' |>) e.
Proof.
  intros HC (? & ? & ? & ?) Hb. core HC. destruct co_bounds as (_ & [? ?] & ? & ? & ?).
  split; [done|]. split_and!; lia.
Qed.
Lemma Rest_budget b b' h e : Rest b h e → budget_le b b' → budget_ok b' → Rest b' h e.
Proof. intros HR Hle Hb. exact (Core_budget _ _ _ HR Hle Hb). Qed.
Lemma Float_budget b b' h id e : Float b h id e → budget_le b b' → budget_ok b' → Float b' h id e.
Proof. intros HR Hle Hb. exact (Core_budget _ _ _ HR Hle Hb). Qed.
Lemma Rest_room b h e : Rest b h e → room (grow b) e.
Proof.
  intros HR. pose proof (co_bounds _ _ HR) as (_ & _ & Hs & _). cbn in Hs. unfold room, grow. simpl. lia.
Qed.
Lemma Float_room b h id e : Float b h id e → room (grow b) e.
Proof.
  intros HR. pose proof (co_bounds _ _ HR) as (_ & _ & Hs & _). cbn in Hs. unfold room, grow. simpl. lia.
Qed.

(** ** Producers and workers *)
Lemma conn_count_bound g e P : Core g e → (count P (e_conns e) < 2 ^ 32)%N.
Proof.
  intros HC. pose proof (count_le_size P (e_conns e)).
  pose proof (co_bounds _ _ HC) as ((_ & _ & ?) & _ & _ & ? & _). lia.
Qed.

Lemma Core_connsetproducer g e cid : Core g e → Core g (connsetproducer cid e).
Proof.
  intros HC. unfold connsetproducer. destruct (e_conns e !! cid) as [c|] eqn:Hc; [|done].
  destruct (c_is_producer c) eqn:Hp; [done|].
  pose proof (count_alter_at c_is_producer (λ c, c <| c_is_producer := true |>) _ _ _ Hc) as Hn.
  pose proof (count_le_size c_is_producer (alter (λ c, c <| c_is_producer := true |>) cid (e_conns e))) as Hs.
  rewrite Hp in Hn. cbn in Hn. rewrite size_alter in Hs. core HC.
  destruct co_cc as (H1 & H2 & H3 & H4). destruct co_bounds as ((_ & _ & ?) & _ & _ & ? & _).
  unfold conn_counts_ok. rewrite size_alter, !(count_alter c_waiting), !(count_alter c_is_worker) by done.
  split_and!; try done. cbn. rewrite H2, incr32_small by lia. lia.
Qed.
Lemma Core_connsetworker g e cid : Core g e → Core g (connsetworker cid e).
Proof.
  intros HC. unfold connsetworker. destruct (e_conns e !! cid) as [c|] eqn:Hc; [|done].
  destruct (c_is_worker c) eqn:Hp; [done|].
  pose proof (count_alter_at c_is_worker (λ c, c <| c_is_worker := true |>) _ _ _ Hc) as Hn.
  pose proof (count_le_size c_is_worker (alter (λ c, c <| c_is_worker := true |>) cid (e_conns e))) as Hs.
  rewrite Hp in Hn. cbn in Hn. rewrite size_alter in Hs. core HC.
  destruct co_cc as (H1 & H2 & H3 & H4). destruct co_bounds as ((_ & _ & ?) & _ & _ & ? & _).
  unfold conn_counts_ok. rewrite size_alter, !(count_alter c_waiting), !(count_alter c_is_producer) by done.
  split_and!; try done. cbn. rewrite H3, incr32_small by lia. lia.
Qed.
Lemma rels_connsetproducer cid e : rels (connsetproducer cid e) = rels e.
Proof.
  unfold connsetproducer. repeat case_match; try done. etrans; [by apply (rels_upd_conn cid)|done].
Qed.
Lemma rels_connsetworker cid e : rels (connsetworker cid e) = rels e.
Proof.
  unfold connsetworker. repeat case_match; try done. etrans; [by apply (rels_upd_conn cid)|done].
Qed.
Lemma jobs_connsetproducer cid e : e_jobs (connsetproducer cid e) = e_jobs e.
Proof. unfold connsetproducer. by repeat case_match. Qed.
Lemma jobs_connsetworker cid e : e_jobs (connsetworker cid e) = e_jobs e.
Proof. unfold connsetworker. by repeat case_match. Qed.

(** ** Pending puts *)
Definition set_pending (p : option PendingPut) (c : ConnState) : ConnState := c <| c_pending_put := p |>.
Lemma Core_set_pending g e cid p :
  Core g e →
  (∀ pid, p ≫= pp_id = Some pid →
     (pid < e_next_job_id e)%N ∧ e_jobs e !! pid = None ∧
     ∀ cid', e_conns e !! cid' ≫= pending_id ≠ Some pid) →
  Core g (upd_conn cid (set_pending p) e).
Proof.
  intros HC Hp. core HC. destruct co_pending as [H1 H2].
  assert (∀ k pid, alter (set_pending p) cid (e_conns e) !! k ≫= pending_id = Some pid →
    e_conns e !! k ≫= pending_id = Some pid ∨ k = cid ∧ p ≫= pp_id = Some pid) as Hl.
  { intros k pid. rewrite lookup_alter. case_decide; [subst k|by left].
    destruct (e_conns e !! cid); [|done]. right. done. }
  split.
  - intros k pid [Hk|[-> Hk]]%Hl; [eauto|]. by apply Hp in Hk as (? & ? & _).
  - intros k1 k2 pid [Hk1|[-> Hk1]]%Hl [Hk2|[-> Hk2]]%Hl; [eauto|..|done].
    + apply Hp in Hk2 as (_ & _ & Hno). by apply Hno in Hk1.
    + apply Hp in Hk1 as (_ & _ & Hno). by apply Hno in Hk2.
Qed.
Lemma rels_set_pending cid p e : rels (upd_conn cid (set_pending p) e) = rels e.
Proof. by apply rels_upd_conn. Qed.

(** ** Fresh ids *)
Definition more_ids (b : Budget) : Budget := mkBudget (b_ids b + 1) (b_seq b) (b_conns b) (b_tubes b).
Lemma next_id_incr g e : Core g e → incr64 (e_next_job_id e) = (e_next_job_id e + 1)%N.
Proof.
  intros HC. pose proof (co_bounds _ _ HC) as ((Hb & _) & [_ Hn] & _). unfold counter_limit in Hb.
  apply incr64_small. lia.
Qed.
Lemma Core_next_id g e :
  Core g e → budget_ok (more_ids (g_budget g)) →
  Core (g <| g_budget ::= more_ids |>) (e <| e_next_job_id ::= incr64 |>).
Proof.
  intros HC Hb. pose proof (next_id_incr _ _ HC) as Hi. core HC; rewrite Hi.
  - intros i j Hj. destruct (co_jobs _ _ Hj) as (? & ? & ? & ?). split_and!; try done. lia.
  - destruct co_pending as [H1 H2]. split; [|done]. intros cid pid Hp. destruct (H1 _ _ Hp). split; [lia|done].
  - destruct co_bounds as (_ & [? ?] & ? & ? & ?). split; [done|]. cbn. split_and!; lia.
Qed.

(** ** A new job, not yet on a queue *)
Lemma Core_add_job g e id j :
  Core g e → e_jobs e !! id = None → (∀ cid, e_conns e !! cid ≫= pending_id ≠ Some id) →
  j_id j = id → (id < e_next_job_id e)%N → (1 ≤ j_ttr j)%N → live (e_tubes e) (j_tube j) →
  Core g (upd_tube (j_tube j) (λ t, t <| t_job_ref_ct ::= incr64 |>) (e <| e_jobs ::= <[id := j]> |>)).
Proof.
  intros HC Hn Hpend Hid Hlt Httr Hlive. pose proof (Core_size _ _ HC) as Hsize.
  pose proof (co_refs _ _ HC) as Hrefs. core HC.
  - apply job_ok_alter, map_Forall_insert_2; [done|]. done.
  - eapply each_tube_upd; [exact co_refs|..].
    + intros tid t _ Ht Hr. unfold job_refs_ok. rewrite count_insert_new by done. simpl.
      unfold in_tube at 2. rewrite bool_decide_eq_false_2 by congruence. rewrite N.add_0_r. exact Hr.
    + intros t _ Hr. unfold job_refs_ok in *. cbn. rewrite count_insert_new by done. simpl.
      unfold in_tube at 2. rewrite bool_decide_eq_true_2 by done.
      pose proof (count_le_size (in_tube (j_tube j)) (e_jobs e)). rewrite Hr, incr64_small by lia. done.
  - apply map_subseteq_spec. intros i j' Hj'. rewrite lookup_insert_ne; [by eapply lookup_weaken|].
    intros <-. eapply lookup_weaken in Hj'; [|exact co_sub]. congruence.
  - destruct co_pending as [H1 H2]. split; [|done]. intros cid pid Hp. destruct (H1 _ _ Hp). split; [done|].
    rewrite lookup_insert_ne; [done|]. intros <-. by eapply Hpend.
  - eapply each_tube_upd; [exact co_referenced|done|]. intros t Hs _ _. right.
    unfold refs. cbn. pose proof (Hrefs _ _ Hs) as Hr. unfold job_refs_ok in Hr.
    pose proof (count_le_size (in_tube (j_tube j)) (e_jobs e)).
    destruct (co_using _ _ Hs) as [-> ?], (co_watching _ _ Hs) as [-> ?].
    rewrite Hr, incr64_small by lia. unfold wrap64. rewrite N.mod_small; lia.
Qed.
