(* ===== verification/Commands.v ===== *)
(** * The commands preserve the invariant *)

From S2P Require Import Prelude Ms Proto Stats Model Engine Inv InvFrame InvRefresh Queues Moves Tubes Waiting.
From S2P Require Import Rest Dispatch ConnOps.
From stdpp Require Import options.

(** ** Steps that leave jobs and relations alone *)
Lemma Rest_frame b h e e' :
  Rest b h e → (∀ g, Core g e → Core g e') → e_jobs e' = e_jobs e → rels e' = rels e → Rest b h e'.
Proof.
  intros HR HC Hj Hr. apply (Rest_intro _ _ e); [|done]. rewrite Hj. exact (HC _ HR).
Qed.
Lemma Float_frame b h id e e' :
  Float b h id e → (∀ g, Core g e → Core g e') → e_jobs e' = e_jobs e → rels e' = rels e →
  Float b h id e'.
Proof.
  intros HR HC Hj Hr. apply (Float_intro _ _ _ e); [|done]. rewrite Hj. exact (HC _ HR).
Qed.
Lemma Rest_bump b h e (p : CmdCounts → N) `{!Setter p} : Rest b h e → Rest b h (bump_cmd p e).
Proof. intros HR. apply (Rest_frame _ _ e); auto with core. Qed.
Lemma Rest_worker b h e cid : Rest b h e → Rest b h (connsetworker cid e).
Proof.
  intros HR. apply (Rest_frame _ _ e);
    auto using Core_connsetworker, jobs_connsetworker, rels_connsetworker.
Qed.
Lemma Rest_producer b h e cid : Rest b h e → Rest b h (connsetproducer cid e).
Proof.
  intros HR. apply (Rest_frame _ _ e);
    auto using Core_connsetproducer, jobs_connsetproducer, rels_connsetproducer.
Qed.
Lemma Rest_journal_update b h e id : Rest b h e → Rest b h (journal_update id e).
Proof.
  intros HR. apply (Rest_frame _ _ e); auto with core; unfold journal_update; by repeat case_match.
Qed.
Lemma Rest_journal_put b h e id : Rest b h e → Rest b h (journal_put id e).
Proof.
  intros HR. apply (Rest_frame _ _ e); auto with core; unfold journal_put; by repeat case_match.
Qed.
#[export] Hint Resolve Rest_bump Rest_worker Rest_producer Rest_journal_update Rest_journal_put
  Rest_remove_waiting : core.

(** A connection's tubes exist. *)
Lemma use_tube_live b h e cid : Rest b h e → live (e_tubes e) (use_tube_of e cid).
Proof.
  intros HR. unfold use_tube_of. destruct (e_conns e !! cid) as [c|] eqn:Hc.
  - apply (co_uses_live _ _ HR cid). apply elem_of_rel. exists c. split; [done|]. left.
  - pose proof (co_reg _ _ HR) as ([Hd _] & _). unfold live. by destruct (slot _ DEFAULT_TUBE).
Qed.

(** ** put *)
Lemma Rest_fresh_id b h e :
  Rest b h e → budget_ok (more_ids b) →
  Rest (more_ids b) h (e <| e_next_job_id ::= incr64 |>) ∧ e_jobs e !! e_next_job_id e = None ∧
  (e_next_job_id e < e_next_job_id (e <| e_next_job_id ::= incr64 |>))%N ∧
  ∀ cid, e_conns e !! cid ≫= pending_id ≠ Some (e_next_job_id e).
Proof.
  intros HR Hb. split_and!.
  - exact (Core_next_id _ _ HR Hb).
  - apply eq_None_not_Some. intros [j Hj]. apply (co_jobs _ _ HR) in Hj as (_ & ? & _). lia.
  - eng. rewrite (next_id_incr _ _ HR). lia.
  - intros k Hk. apply (co_pending _ _ HR) in Hk as [? _]. lia.
Qed.

Lemma Rest_put_id b h now cid e id created e' :
  Rest b h e → budget_ok (more_ids b) → put_id now cid e = (id, created, e') →
  Rest (more_ids b) h e' ∧ e_jobs e' = e_jobs e ∧ e_jobs e !! id = None ∧
  (id < e_next_job_id e')%N ∧ (∀ cid', e_conns e' !! cid' ≫= pending_id ≠ Some id).
Proof.
  intros HR Hb. unfold put_id.
  assert (budget_le b (more_ids b)) as Hle by (unfold budget_le, more_ids; simpl; lia).
  assert (Rest b h (upd_conn cid (set_pending None) e)) as HR1.
  { apply (Rest_frame _ _ e); [done| |done|apply rels_set_pending]. intros g HC. by apply Core_set_pending. }
  assert (Rest b h (connsetproducer cid (bump_cmd n_cmd_put (upd_conn cid (set_pending None) e))))
    as HR2 by auto with core.
  pose proof (Rest_fresh_id _ _ _ HR2 Hb) as (HR3 & Hno & Hlt & Hpend).
  rewrite jobs_connsetproducer in Hno. pose proof (co_pending _ _ HR) as [Hp1 Hp2].
  destruct (e_conns e !! cid ≫= c_pending_put) as [[[pid|] cr]|] eqn:Hp; intros [= <- <- <-].
  - assert (e_conns e !! cid ≫= pending_id = Some pid) as Hpid.
    { destruct (e_conns e !! cid) as [c|]; [|done]. simpl in *. unfold pending_id. by rewrite Hp. }
    destruct (Hp1 _ _ Hpid). split_and!; try done.
    + exact (Rest_budget _ _ _ _ HR1 Hle Hb).
    + intros k. eng. rewrite lookup_alter. case_decide as Hk; [subst k; by destruct (e_conns e !! cid)|].
      intros Hkp. by apply Hk, (Hp2 cid k pid).
  - split_and!; try done. eng. by rewrite jobs_connsetproducer.
  - split_and!; try done. eng. by rewrite jobs_connsetproducer.
Qed.

(** The engine with the new job in its table and on no queue. *)
Lemma Float_new_job b h e j :
  Rest b h e → e_jobs e !! j_id j = None → (∀ cid, e_conns e !! cid ≫= pending_id ≠ Some (j_id j)) →
  (j_id j < e_next_job_id e)%N → (1 ≤ j_ttr j)%N → live (e_tubes e) (j_tube j) →
  Float b h (j_id j)
    (upd_tube (j_tube j) (λ t, t <| t_job_ref_ct ::= incr64 |>) (e <| e_jobs ::= <[j_id j := j]> |>)).
Proof.
  intros HR Hno Hp Hlt Httr Hl. apply (Float_intro _ _ _ e); [|done]. eng.
  rewrite delete_insert_id by done.
  exact (Core_add_job _ _ _ _ HR Hno Hp eq_refl Hlt Httr Hl).
Qed.

(** The engine with the new job on its queue. *)
Definition put_queued (now : Nanos) (delay : N) (j : JobRec) (e : Engine) : Engine :=
  let e := upd_tube (j_tube j) (λ t, t <| t_job_ref_ct ::= incr64 |>) (e <| e_jobs ::= <[j_id j := j]> |>) in
  if (0 <? delay)%N then insert_delayed (j_tube j) (j_id j) (sat_add64 now (secs delay)) e else insert_ready (j_tube j) (j_id j) e.
Lemma Rest_put_queued b now cid delay e created e1 j :
  Inv b e → budget_ok (more_ids b) → put_id now cid e = (j_id j, created, e1) → (1 ≤ j_ttr j)%N → j_tube j = use_tube_of e1 cid →
  Rest (more_ids b) true (put_queued now delay j e1).
Proof.
  intros HR Hb Hp Httr Ht. destruct (Rest_put_id _ _ _ _ _ _ _ _ HR Hb Hp) as (HR1 & Hj1 & Hno & Hlt & Hpend). rewrite <-Hj1 in Hno.
  assert (live (e_tubes e1) (j_tube j)) as Hl by (rewrite Ht; by eapply use_tube_live).
  pose proof (Float_new_job _ _ _ j HR1 Hno Hpend Hlt Httr Hl) as HF. unfold put_queued. set (e2 := upd_tube (j_tube j) _ _) in *.
  assert (e_jobs e2 !! j_id j = Some j) as Hj2 by apply lookup_insert_eq.
  case_match; [by eapply Rest_hot, Rest_insert_delayed|by eapply Rest_insert_ready].
Qed.
Lemma Inv_cmd_put b now cid pri delay ttr body e out :
  Inv b e → budget_ok (more_ids b) →
  Inv (more_ids b) (cmd_put now cid pri delay ttr body (e, out)).1.
Proof.
  intros HR Hb. unfold cmd_put. destruct (put_id now cid e) as [[id created] e1] eqn:Hp.
  destruct (Rest_put_id _ _ _ _ _ _ _ _ HR Hb Hp) as (HR1 & _).
  destruct (e_draining e1); [by rewrite reply_fst|].
  set (j := mkJobRec id _ _ _ _ _ _ _ _ _ _ _ _ _ _ _ _).
  pose proof (Rest_journal_put _ _ _ id (Rest_put_queued b now cid delay e created e1 j HR Hb Hp (N.le_max_r _ _) eq_refl)) as HR3.
  change (journal_put id (if (0 <? delay)%N then _ else _)) with (journal_put id (put_queued now delay j e1)).
  set (e3 := journal_put id _) in *.
  destruct (Rest_process_queue _ _ now e3 out HR3) as [HR4 _].
  destruct (process_queue now (e3, out)) as [e4 out4]. rewrite reply_fst. cbn [fst] in *.
  apply Inv_Rest, (Rest_frame _ _ e4); [done|intros g HC; auto with core|done|done].
Qed.

(** ** reserve *)
Lemma conn_waiting_rels e cid :
  conn_waiting e cid = match rels e !! cid with Some r => r.2 | None => false end.
Proof. unfold conn_waiting, rels. rewrite lookup_fmap. by destruct (e_conns e !! cid). Qed.
Lemma conns_is_Some_rels e cid : is_Some (e_conns e !! cid) ↔ is_Some (rels e !! cid).
Proof. unfold rels. by rewrite lookup_fmap, fmap_is_Some. Qed.

Lemma Inv_cmd_reserve b now cid timeout e out :
  Inv b e → budget_ok (grow b) → is_Some (e_conns e !! cid) → conn_waiting e cid = false →
  Inv (grow b) (cmd_reserve now cid timeout (e, out)).1.
Proof.
  intros HR Hb Hc Hw. unfold cmd_reserve.
  set (e0 := match timeout with None => _ | Some _ => _ end).
  assert (Rest b false e0) as HR0 by (unfold e0; destruct timeout; by apply Rest_bump).
  assert (rels e0 = rels e) as Hr0 by (unfold e0; by destruct timeout).
  pose proof (Rest_worker _ _ _ cid HR0) as HR1. set (e1 := connsetworker cid e0) in *.
  assert (rels e1 = rels e) as Hr1 by (unfold e1; by rewrite rels_connsetworker).
  case_match.
  { rewrite reply_fst. exact (Rest_budget _ _ _ _ HR1 (budget_le_grow b) Hb). }
  rewrite conns_is_Some_rels, <-Hr1, <-conns_is_Some_rels in Hc. destruct Hc as [c Hc].
  rewrite conn_waiting_rels, <-Hr1, <-conn_waiting_rels in Hw. unfold conn_waiting in Hw. rewrite Hc in Hw.
  set (wd := (λ t, sat_add64 now (secs t)) <$> timeout).
  pose proof (Rest_enqueue_waiting _ _ _ _ _ wd
    (Rest_budget _ _ _ _ HR1 (budget_le_grow b) Hb) Hc Hw (Rest_room _ _ _ HR1)) as HR2.
  destruct (Rest_process_queue _ _ now _ out HR2) as [HR3 _].
  destruct (process_queue _ _) as [e3 out3]. cbn [fst] in *.
  case_match; [rewrite reply_fst|done]. by apply Inv_Rest, Rest_remove_waiting.
Qed.

Lemma Float_worker b h id e cid : Float b h id e → Float b h id (connsetworker cid e).
Proof.
  intros HR. apply (Float_frame _ _ _ e);
    auto using Core_connsetworker, jobs_connsetworker, rels_connsetworker.
Qed.
Lemma Inv_cmd_reserve_job b now cid id e out :
  Inv b e → budget_ok (grow b) → is_Some (e_conns e !! cid) →
  Inv (grow b) (cmd_reserve_job now cid id (e, out)).1.
Proof.
  intros HR Hb Hc. pose proof (Rest_budget _ _ _ _ HR (budget_le_grow b) Hb) as HRg.
  unfold cmd_reserve_job. destruct (e_jobs e !! id) as [j|] eqn:Hj; [|by rewrite reply_fst].
  assert (∀ e1, Float b false id e1 → e_jobs e1 = e_jobs e → rels e1 = rels e →
    Inv (grow b) (reply_with cid (reserved_reply id)
                    (do_reserve cid id now (connsetworker cid e1), out)).1) as Htake.
  { intros e1 HF Hj1 Hr1. rewrite reply_with_fst. apply (Float_worker _ _ _ _ cid) in HF.
    apply Inv_Rest. eapply (Rest_do_reserve _ _ _ _ (Float_budget _ _ _ _ _ HF (budget_le_grow b) Hb)).
    - by rewrite jobs_connsetworker, Hj1.
    - rewrite conns_is_Some_rels, rels_connsetworker, Hr1. by apply conns_is_Some_rels.
    - by eapply Float_room. }
  destruct (j_state j) eqn:Hs; [|by rewrite reply_fst|..]; apply Htake.
  - by apply (Float_remove_ready _ _ _ HR).
  - apply jobs_remove_ready.
  - apply rels_remove_ready.
  - by apply (Float_remove_delayed _ _ _ HR).
  - apply jobs_remove_delayed.
  - apply rels_remove_delayed.
  - rewrite (Rest_remove_buried_eq _ _ _ HR _ _ Hj Hs). by apply (Float_dequeue_buried _ _ _ HR).
  - by rewrite (Rest_remove_buried_eq _ _ _ HR _ _ Hj Hs).
  - rewrite (Rest_remove_buried_eq _ _ _ HR _ _ Hj Hs). apply rels_dequeue.
Qed.

(** ** delete *)
Lemma jobs_gc id e : e_jobs (gc_tube_if_orphan id e) = e_jobs e.
Proof.
  unfold gc_tube_if_orphan. case_match; [done|]. case_match; [|done]. case_match; [|done].
  repeat case_match; done.
Qed.
Lemma conns_gc id e : e_conns (gc_tube_if_orphan id e) = e_conns e.
Proof.
  unfold gc_tube_if_orphan. case_match; [done|]. case_match; [|done]. case_match; [|done].
  repeat case_match; done.
Qed.

Definition drop_ref (t : TubeState) : TubeState :=
  t <| t_stat ::= set_field ts_total_delete_ct incr64 |> <| t_job_ref_ct ::= decr |>.
Lemma Core_drop_job g e id j :
  Core g e → g_jobs g !! id = None → e_jobs e !! id = Some j →
  Core (g <| g_orphans ::= ({[ j_tube j ]} ∪.) |>)
    ((upd_tube (j_tube j) drop_ref e) <| e_jobs ::= delete id |>).
Proof.
  intros HC Hid Hj. core HC.
  - apply job_ok_alter, map_Forall_delete, co_jobs.
  - eapply each_tube_upd; [exact co_refs|..].
    + intros tid t _ Ht Hr. unfold job_refs_ok in *. rewrite Hr, (count_delete _ (e_jobs e) id), Hj. simpl.
      unfold in_tube at 2. rewrite bool_decide_eq_false_2 by congruence. apply N.add_0_r.
    + intros t _ Hr. unfold job_refs_ok in *. cbn. rewrite Hr, (count_delete _ (e_jobs e) id), Hj. simpl.
      unfold in_tube at 2. rewrite bool_decide_eq_true_2 by done. apply decr_plus.
  - apply map_subseteq_spec. intros i j' Hj'. rewrite lookup_delete_ne; [by eapply lookup_weaken|congruence].
  - destruct co_pending as [H1 H2]. split; [|done]. intros cid pid Hp. destruct (H1 _ _ Hp). split; [done|].
    apply lookup_delete_None. auto.
  - eapply each_tube_upd; [exact co_referenced|..].
    + intros tid t _ Ht Hr Hn. apply Hr. set_solver.
    + intros t _ _ Hn. set_solver.
Qed.

Lemma Rest_drop_job b h e id j :
  Float b h id e → e_jobs e !! id = Some j →
  Rest b h (gc_tube_if_orphan (j_tube j) (journal_delete id
              ((upd_tube (j_tube j) drop_ref e) <| e_jobs ::= delete id |>))).
Proof.
  intros HF Hj. pose proof (Core_drop_job _ _ _ _ HF (lookup_delete_eq _ _) Hj) as HC.
  apply (Core_journal_delete _ _ id), Core_gc in HC.
  assert (∀ e, e_jobs (journal_delete id e) = e_jobs e) as Hjd by (intros; unfold journal_delete; by case_match).
  assert (∀ e, e_conns (journal_delete id e) = e_conns e) as Hcd by (intros; unfold journal_delete; by case_match).
  apply (Rest_intro _ _ e); [|unfold rels; by rewrite conns_gc, Hcd].
  rewrite jobs_gc, Hjd. exact HC.
Qed.

Lemma Inv_cmd_delete b cid id e out : Inv b e → Inv b (cmd_delete cid id (e, out)).1.
Proof.
  intros HR. unfold cmd_delete. assert (Rest b false (bump_cmd n_cmd_delete e)) as HR1 by auto with core.
  set (e1 := bump_cmd n_cmd_delete e) in *.
  destruct (e_jobs e1 !! id) as [j|] eqn:Hj; [|by rewrite reply_fst].
  assert (∀ e2 f, Float b false id e2 → e_jobs e2 = alter f id (e_jobs e1) → j_tube (f j) = j_tube j →
    Inv b (reply cid Response.Deleted (gc_tube_if_orphan (j_tube j) (journal_delete id
              ((upd_tube (j_tube j) drop_ref e2) <| e_jobs ::= delete id |>)), out)).1) as Hdrop.
  { intros e2 f HF Hj2 Ht. rewrite reply_fst, <-Ht. eapply (Rest_drop_job _ _ _ _ (f j) HF).
    by rewrite Hj2, lookup_alter_eq, Hj. }
  destruct (j_state j) eqn:Hs.
  - eapply (Hdrop _ (λ j, j)); [by apply (Float_remove_ready _ _ _ HR1)| |done].
    rewrite jobs_remove_ready, alter_id; done.
  - case_bool_decide as Hr; [|by rewrite reply_fst].
    eapply (Hdrop _ (λ j, j <| j_reserver := None |>)); [by apply (Float_unreserve _ _ _ HR1 _ _ Hj)| |done].
    by rewrite jobs_do_unreserve.
  - eapply (Hdrop _ (λ j, j)); [by apply (Float_remove_delayed _ _ _ HR1)| |done].
    rewrite jobs_remove_delayed, alter_id; done.
  - rewrite (Rest_remove_buried_eq _ _ _ HR1 _ _ Hj Hs).
    eapply (Hdrop _ (λ j, j)); [by apply (Float_dequeue_buried _ _ _ HR1)| |done].
    rewrite alter_id; done.
Qed.

(** ** release, bury *)
Lemma reserved_by_spec e cid id tid :
  reserved_by e cid id = Some tid →
  ∃ j, e_jobs e !! id = Some j ∧ j_state j = JobState.Reserved ∧ j_reserver j = Some cid ∧ j_tube j = tid.
Proof.
  unfold reserved_by. destruct (e_jobs e !! id) as [j|]; [|done].
  repeat case_bool_decide; simpl; try done. intros [= <-]. eauto.
Qed.
Lemma upd_job_lookup id f e j : e_jobs e !! id = Some j → e_jobs (upd_job id f e) !! id = Some (f j).
Proof. intros Hj. eng. by rewrite lookup_alter_eq, Hj. Qed.
Lemma do_unreserve_lookup cid id e j :
  e_jobs e !! id = Some j → e_jobs (do_unreserve cid id e) !! id = Some (j <| j_reserver := None |>).
Proof. intros Hj. by rewrite jobs_do_unreserve, lookup_alter_eq, Hj. Qed.

Lemma Inv_cmd_release b now cid id pri delay e out :
  Inv b e → Inv b (cmd_release now cid id pri delay (e, out)).1.
Proof.
  intros HR. unfold cmd_release. assert (Rest b false (bump_cmd n_cmd_release e)) as HR1 by auto with core.
  set (e1 := bump_cmd n_cmd_release e) in *.
  destruct (reserved_by e1 cid id) as [tid|] eqn:Hby; [|by rewrite reply_fst].
  apply reserved_by_spec in Hby as (j & Hj & Hs & Hr & <-).
  pose proof (Float_unreserve _ _ _ HR1 _ _ Hj _ Hs Hr) as HF.
  apply (do_unreserve_lookup cid) in Hj. set (e2 := do_unreserve cid id e1) in *.
  set (f := λ j, j <| j_pri := pri |> <| j_delay := delay |> <| j_release_ct ::= incr32 |>).
  assert (Float b false id (upd_job id f e2)) as HF' by (by apply Float_upd_job).
  apply (upd_job_lookup _ f) in Hj.
  rewrite reply_fst. apply Rest_process_queue with true.
  case_match; [|exact (Rest_insert_ready _ _ _ _ HF' _ Hj)].
  apply Rest_journal_update, Rest_hot with false. exact (Rest_insert_delayed _ _ _ _ HF' _ Hj _).
Qed.

Lemma Inv_cmd_bury b cid id pri e out :
  Inv b e → budget_ok (grow b) → Inv (grow b) (cmd_bury cid id pri (e, out)).1.
Proof.
  intros HR Hb. unfold cmd_bury. assert (Rest b false (bump_cmd n_cmd_bury e)) as HR1 by auto with core.
  set (e1 := bump_cmd n_cmd_bury e) in *.
  destruct (reserved_by e1 cid id) as [tid|] eqn:Hby.
  2: { rewrite reply_fst. exact (Rest_budget _ _ _ _ HR1 (budget_le_grow b) Hb). }
  apply reserved_by_spec in Hby as (j & Hj & Hs & Hr & <-).
  pose proof (Float_unreserve _ _ _ HR1 _ _ Hj _ Hs Hr) as HF.
  apply (do_unreserve_lookup cid) in Hj. set (e2 := do_unreserve cid id e1) in *.
  set (f := λ j, j <| j_pri := pri |>).
  assert (Float b false id (upd_job id f e2)) as HF' by (by apply Float_upd_job).
  apply (upd_job_lookup _ f) in Hj.
  rewrite reply_fst. apply Inv_Rest, Rest_journal_update.
  exact (Rest_insert_buried _ _ _ _ (Float_budget _ _ _ _ _ HF' (budget_le_grow b) Hb) _ Hj (Float_room _ _ _ _ HF')).
Qed.

(** ** touch *)
Section touch.
Context (J : Jobs) (id : JobId) (j j' : JobRec) (Hj : J !! id = Some j).
Lemma queued_replace s i P :
  j_state j' = j_state j → (j_state j = s → P j' ↔ P j) →
  queued (<[id := j']> J) s i P ↔ queued J s i P.
Proof using Hj.
  intros Hs HP. rewrite queued_insert. destruct (decide (i = id)) as [->|].
  - rewrite (queued_at _ _ _ _ _ Hj), Hs. naive_solver.
  - naive_solver.
Qed.
Lemma count_replace P : P j' = P j → count P (<[id := j']> J) = count P J.
Proof using Hj.
  intros HP. pose proof (count_insert P J id j') as Hc. rewrite Hj in Hc. simpl in Hc.
  rewrite HP in Hc. lia.
Qed.
End touch.

Definition touched (d : Nanos) (j : JobRec) : JobRec := j <| j_deadline_at := d |>.
Lemma Core_touch g e id j cid d :
  Core g e → g_jobs g !! id = Some j → j_state j = JobState.Reserved → j_reserver j = Some cid →
  Core (g <| g_jobs ::= <[id := touched d j]> |> <| g_stick ::= ({[ cid ]} ∪.) |>)
    (upd_conn cid (λ c, c <| c_reserved_by_deadline ::= (.∖ {[ (j_deadline_at j, id) ]}) |>
                          <| c_reserved_by_deadline ::= ({[ (d, id) ]} ∪.) |>)
       (upd_job id (touched d) e)).
Proof.
  intros HC Hid Hs Hr. pose proof (queued_job _ _ HC _ _ Hid) as Hj.
  pose proof (λ P, count_replace _ _ _ (touched d j) Hid P) as Hcount.
  assert (∀ s i P, (j_state j = s → P (touched d j) ↔ P j) →
    queued (<[id := touched d j]> (g_jobs g)) s i P ↔ queued (g_jobs g) s i P) as Hq.
  { intros s i P. by apply queued_replace. }
  core HC.
  - rewrite (alter_is_insert _ _ _ _ Hj). by apply insert_mono.
  - intros tid t Ht p i. rewrite Hq by congruence. by apply co_ready.
  - intros tid t Ht p i. rewrite Hq by congruence. by apply co_delayed.
  - intros tid t Ht p i. rewrite Hq by congruence. by apply co_buried.
  - intros tid t Ht. unfold stats_of. rewrite !Hcount by done. by apply co_stats.
  - intros k x. rewrite lookup_alter. case_decide as Hk; [subst k|].
    + destruct (e_conns e !! cid) as [c|] eqn:Hc; [|done]. intros [= <-].
      destruct (co_reserved _ _ Hc) as [H1 H2]. split; cbn; [intros s i; by rewrite Hq|].
      intros d' i. rewrite queued_insert, elem_of_union, elem_of_difference, !elem_of_singleton, H2.
      destruct (decide (i = id)) as [->|]; [|naive_solver].
      rewrite (queued_at _ _ _ _ _ Hid). naive_solver.
    + intros Hc. destruct (co_reserved _ _ Hc) as [H1 H2]. split; intros s i; rewrite ?H1, ?H2; symmetry; apply Hq.
      * done.
      * intros _. cbn. naive_solver.
  - apply map_Forall_insert_2; [|frame]. eapply queued_ok_conns; [|intros; by apply alter_is_Some].
    exact (co_queued _ _ Hid).
  - unfold counts_ok. rewrite !Hcount by done. exact co_counts.
  - eapply map_Forall_upd; [exact co_tick_key|..].
    + intros i x _ Hi Hk Hn. apply Hk. set_solver.
    + intros x _ _ Hn. set_solver.
Qed.

Lemma Inv_cmd_touch b now cid id e out : Inv b e → Inv b (cmd_touch now cid id (e, out)).1.
Proof.
  intros HR. unfold cmd_touch. assert (Rest b false (bump_cmd n_cmd_touch e)) as HR1 by auto with core.
  set (e1 := bump_cmd n_cmd_touch e) in *.
  destruct (reserved_by e1 cid id) as [tid|] eqn:Hby; [|by rewrite reply_fst].
  apply reserved_by_spec in Hby as (j & Hj & Hs & Hr & <-). rewrite Hj, reply_fst.
  set (d := sat_add64 now (secs (j_ttr j))).
  cbn [fst]. apply Inv_Rest, (Rest_intro _ _ e1).
  - rewrite jobs_refresh_tick. eng. rewrite (alter_is_insert _ _ _ _ Hj).
    apply Core_refresh_conn_tick. exact (Core_touch _ _ _ _ _ d HR1 Hj Hs Hr).
  - rewrite rels_refresh_tick. etrans; [by apply (rels_upd_conn cid)|done].
Qed.

(** ** kick *)
Lemma Rest_kick_to_ready b h now e out id j :
  Float b h id e → e_jobs e !! id = Some j →
  Rest b false (kick_to_ready (j_tube j) id now (e, out)).1.
Proof.
  intros HF Hj. unfold kick_to_ready. set (f := λ j, j <| j_kick_ct ::= incr32 |>).
  assert (Float b h id (upd_job id f e)) as HF' by (by apply Float_upd_job).
  apply (upd_job_lookup _ f) in Hj. apply Rest_process_queue with true, Rest_journal_update.
  exact (Rest_insert_ready _ _ _ _ HF' _ Hj).
Qed.

Lemma pop_buried_spec b h tid e :
  Rest b h e →
  pop_buried_front tid e = (None, e) ∧
    (∀ i j, e_jobs e !! i = Some j → j_state j = JobState.Buried → j_tube j ≠ tid) ∨
  ∃ id j, e_jobs e !! id = Some j ∧ j_state j = JobState.Buried ∧ j_tube j = tid ∧
    pop_buried_front tid e = (Some id, dequeue id j e) ∧
    ∀ i' j', e_jobs e !! i' = Some j' → j_state j' = JobState.Buried → j_tube j' = tid →
      (j_list_seq j, id) ≼ (j_list_seq j', i').
Proof.
  intros HR. unfold pop_buried_front at 1, tube. destruct (slot (e_tubes e) tid) as [t|] eqn:Ht.
  2: { left. split; [done|]. intros i j Hj _ <-. apply (co_jobs _ _ HR) in Hj as (_ & _ & _ & [t Ht']). congruence. }
  assert (∀ i j, e_jobs e !! i = Some j → j_state j = JobState.Buried → j_tube j = tid →
    t_buried t !! j_list_seq j = Some i) as Hall.
  { intros i j Hj Hs Hjt. apply (co_buried _ _ HR _ _ Ht). by exists j. }
  destruct (bm_first (t_buried t)) as [[seq id]|] eqn:Hf.
  2: { left. split; [done|]. intros i j Hj Hs Hjt. apply bm_first_None in Hf. apply Hall in Hj; [|done|done].
       by rewrite Hf in Hj. }
  right. pose proof (proj1 (bm_first_Some _ _ _) Hf) as [Hin Hmin].
  pose proof Hin as (j & Hj & Hs & Htube & <-)%(co_buried _ _ HR _ _ Ht).
  exists id, j. split_and!; try done.
  - apply (pop_buried_front_eq _ _ _ Hj _ t); try done.
    apply (queued_no_reserver _ _ HR _ _ Hj). congruence.
  - intros i' j' Hj' Hs' Ht'. apply NN_ole. pose proof (Hall _ _ Hj' Hs' Ht') as Hi'. specialize (Hmin _ _ Hi').
    destruct (decide (j_list_seq j = j_list_seq j')) as [E|]; [|left; lia].
    right. split; [done|]. rewrite E in Hin. rewrite Hin in Hi'. by injection Hi' as ->.
Qed.
Lemma Rest_kick_buried n b tid now k e out :
  Rest b false e → Rest b false (kick_buried_loop n tid now k (e, out)).2.1.
Proof.
  revert k e out. induction n as [|n IH]; intros k e out HR; [done|]. cbn [kick_buried_loop].
  destruct (pop_buried_spec _ _ tid _ HR) as [[-> _]|(id & j & Hj & Hs & <- & -> & _)]; [done|].
  pose proof (Rest_kick_to_ready _ _ now _ out _ _ (Float_dequeue_buried _ _ _ HR _ _ Hj Hs) Hj) as HR'.
  destruct (kick_to_ready _ _ _ _). by apply IH.
Qed.
Lemma first_delayed_spec b h tid e d id :
  Rest b h e → (tube e tid ≫= λ t, bt_first (t_delayed t)) = Some (d, id) →
  ∃ j, e_jobs e !! id = Some j ∧ j_state j = JobState.Delayed ∧ j_tube j = tid ∧ j_deadline_at j = d.
Proof.
  intros HR. unfold tube. destruct (slot (e_tubes e) tid) as [t|] eqn:Ht; [|done]. simpl. intros Hf%bt_first_elem.
  by apply (co_delayed _ _ HR _ _ Ht) in Hf as (j & Hj & Hs & <- & <-); eauto.
Qed.
Lemma Rest_kick_delayed n b tid now k e out :
  Rest b false e → Rest b false (kick_delayed_loop n tid now k (e, out)).2.1.
Proof.
  revert k e out. induction n as [|n IH]; intros k e out HR; [done|]. cbn [kick_delayed_loop].
  destruct (tube e tid ≫= _) as [[d id]|] eqn:Hf; [|done].
  destruct (first_delayed_spec _ _ _ _ _ _ HR Hf) as (j & Hj & Hs & <- & _).
  assert (Rest b false (kick_to_ready (j_tube j) id now (remove_delayed (j_tube j) id e, out)).1) as HR'.
  { eapply Rest_kick_to_ready; [exact (Float_remove_delayed _ _ _ HR _ _ Hj Hs)|].
    by rewrite jobs_remove_delayed. }
  destruct (kick_to_ready _ _ _ _). by apply IH.
Qed.
Lemma Inv_cmd_kick b now cid n e out : Inv b e → Inv b (cmd_kick now cid n (e, out)).1.
Proof.
  intros HR. unfold cmd_kick. assert (Rest b false (bump_cmd n_cmd_kick e)) as HR1 by auto with core.
  set (e1 := bump_cmd n_cmd_kick e) in *. set (tid := use_tube_of e1 cid).
  set (b1 := match tube e1 tid with Some _ => _ | None => _ end). destruct b1.
  - pose proof (Rest_kick_buried (N.to_nat n) b tid now 0 e1 out HR1) as Hk.
    destruct (kick_buried_loop _ _ _ _ _) as [m [e2 out2]]. by rewrite reply_fst.
  - pose proof (Rest_kick_delayed (N.to_nat n) b tid now 0 e1 out HR1) as Hk.
    destruct (kick_delayed_loop _ _ _ _ _) as [m [e2 out2]]. by rewrite reply_fst.
Qed.
Lemma Inv_cmd_kick_job b now cid id e out : Inv b e → Inv b (cmd_kick_job now cid id (e, out)).1.
Proof.
  intros HR. unfold cmd_kick_job. destruct (e_jobs e !! id) as [j|] eqn:Hj; [|by rewrite reply_fst].
  destruct (j_state j) eqn:Hs; rewrite reply_fst; try done; apply Inv_Rest.
  - eapply Rest_kick_to_ready; [exact (Float_remove_delayed _ _ _ HR _ _ Hj Hs)|].
    by rewrite jobs_remove_delayed.
  - rewrite (Rest_remove_buried_eq _ _ _ HR _ _ Hj Hs).
    by eapply Rest_kick_to_ready; [exact (Float_dequeue_buried _ _ _ HR _ _ Hj Hs)|].
Qed.

(** ** pause *)
Lemma Core_pause g e tid t d at_ :
  Core g e → slot (e_tubes e) tid = Some t → (0 < d)%N →
  Core g (upd_tube tid (λ t, t <| t_pause := d |> <| t_unpause_at := at_ |>
                               <| t_stat ::= set_field ts_pause_ct incr64 |>) e
    <| e_pauses := {[ (at_, tid) ]} ∪ (e_pauses e ∖ match pause_key t with
                                                    | Some k => {[ (k, tid) ]} | None => ∅ end) |>).
Proof.
  intros HC Ht Hd. core HC.
  - pose proof (tube_index_upd _ _ _ _ _ (λ t, t <| t_pause := d |> <| t_unpause_at := at_ |>
      <| t_stat ::= set_field ts_pause_ct incr64 |>) co_pauses Ht) as Hx.
    unfold pause_key in Hx at 2. cbn in Hx. rewrite (proj2 (N.ltb_lt _ _) Hd) in Hx. exact Hx.
  - eapply each_tube_alter; [exact co_drained|]. intros t' _ _ _. exact Hd.
Qed.
Lemma Inv_cmd_pause_tube b now cid name delay e out :
  (delay ≤ u32_max)%N →
  Inv b e → Inv b (cmd_pause_tube now cid name delay (e, out)).1.
Proof.
  intros Hdelay HR. unfold cmd_pause_tube.
  assert (Rest b false (bump_cmd n_cmd_pause_tube e)) as HR1 by auto with core.
  set (e1 := bump_cmd n_cmd_pause_tube e) in *.
  destruct (e_tube_ids e1 !! name) as [tid|]; [|by rewrite reply_fst].
  unfold tube. destruct (slot (e_tubes e1) tid) as [t|] eqn:Ht; [|done]. rewrite reply_fst.
  set (d := if (delay =? 0)%N then 1%N else secs delay).
  assert (0 < d)%N as Hd.
  { unfold d, secs, wrap64, NANOS_PER_SEC, u32_max in *. destruct (N.eqb_spec delay 0); [lia|].
    rewrite N.mod_small; lia. }
  pose proof (Core_pause _ _ _ _ _ (sat_add64 now d) HR1 Ht Hd) as HC.
  apply Inv_Rest, (Rest_intro _ _ e1); unfold pause_key in HC; destruct (0 <? t_pause t)%N; try done.
  by rewrite difference_empty_L in HC.
Qed.
