(* ===== verification/Sessions.v ===== *)
(** * Using and watching tubes; opening and closing connections *)

From S2P Require Import Prelude Ms Proto Stats Model Engine Inv InvFrame InvRefresh Queues Moves Tubes Waiting.
From S2P Require Import Rest Dispatch ConnOps Commands.
From stdpp Require Import options.

(** ** Reference counts of one tube *)
Section tube_refs.
Context (g : Ghost) (e : Engine) (cid : ConnId) (tid : TubeId).

(** The reference count is the sum of its three parts. *)
Lemma refs_sum t :
  Core g e → slot (e_tubes e) tid = Some t →
  refs t = (deg (g_uses g) tid + deg (g_watches g) tid + count (in_tube tid) (e_jobs e))%N.
Proof.
  intros HC Ht. destruct (co_using _ _ HC _ _ Ht) as [Hu ?], (co_watching _ _ HC _ _ Ht) as [Hw ?].
  pose proof (co_refs _ _ HC _ _ Ht) as Hj. pose proof (Core_size _ _ HC).
  pose proof (count_le_size (in_tube tid) (e_jobs e)).
  unfold refs, wrap64. rewrite Hu, Hw, Hj. apply N.mod_small. lia.
Qed.
Lemma deg_pos (R : CTRel) : (cid, tid) ∈ R → (0 < deg R tid)%N.
Proof.
  intros Hin. destruct (decide (deg R tid = 0%N)) as [Hz|]; [|lia].
  by apply (proj1 (deg_zero _ _) Hz) in Hin.
Qed.
(** A used or watched tube is not an orphan. *)
Lemma Core_unorphan :
  Core (g <| g_orphans ::= ({[ tid ]} ∪.) |>) e →
  (cid, tid) ∈ g_uses g ∨ (cid, tid) ∈ g_watches g → Core g e.
Proof.
  intros HC Hin. assert (∀ t, slot (e_tubes e) tid = Some t → (0 < refs t)%N) as Hr.
  { intros t Ht. destruct (co_using _ _ HC _ _ Ht) as [Hu ?], (co_watching _ _ HC _ _ Ht) as [Hw ?].
    pose proof (co_refs _ _ HC _ _ Ht) as Hj. pose proof (Core_size _ _ HC).
    pose proof (count_le_size (in_tube tid) (e_jobs e)).
    unfold refs, wrap64. rewrite Hu, Hw, Hj. rewrite N.mod_small by lia.
    destruct Hin as [Hin|Hin]; apply deg_pos in Hin; eng; lia. }
  core HC. intros i t Ht Hn. destruct (decide (i = tid)) as [->|]; [right; auto|].
  refine (co_referenced _ _ Ht _). eng. set_solver.
Qed.

Context (HC : Core g e).

Lemma Core_use :
  (cid, tid) ∉ g_uses g → live (e_tubes e) tid → (deg (g_uses g) tid + 1 < 2 ^ 32)%N →
  Core (g <| g_uses ::= ({[ (cid, tid) ]} ∪.) |> <| g_orphans ::= ({[ tid ]} ∪.) |>)
    (upd_tube tid (λ t, t <| t_using_ct ::= incr32 |>) e).
Proof using HC.
  intros Hn Hl Hb. core HC.
  - eapply each_tube_upd; [exact co_using|..].
    + intros i t _ Hi [Ht ?]. unfold using_ok. rewrite deg_add, decide_False, N.add_0_r by done. done.
    + intros t _ [Ht ?]. unfold using_ok. cbn. rewrite deg_add, decide_True, Ht, incr32_small by done. done.
  - intros c i [[= -> ->]%elem_of_singleton|Hin]%elem_of_union; apply live_alter; [done|by eapply co_uses_live].
  - eapply each_tube_upd; [exact co_referenced|..].
    + intros i t _ Hi Ht Hni. apply Ht. set_solver.
    + intros t _ _ Hni. set_solver.
Qed.
Lemma Core_unuse :
  (cid, tid) ∈ g_uses g →
  Core (g <| g_uses ::= (.∖ {[ (cid, tid) ]}) |> <| g_orphans ::= ({[ tid ]} ∪.) |>)
    (upd_tube tid (λ t, t <| t_using_ct ::= decr |>) e).
Proof using HC.
  intros Hin. core HC.
  - eapply each_tube_upd; [exact co_using|..].
    + intros i t _ Hi [Ht Hb]. unfold using_ok. rewrite (deg_del _ _ _ i Hin), decide_False, N.add_0_r in * by done. done.
    + intros t _ [Ht Hb]. unfold using_ok. cbn. rewrite Ht. rewrite (deg_del _ _ _ tid Hin), decide_True in * by done.
      rewrite decr_plus. split; [done|]. lia.
  - intros c i Hi. apply live_alter. apply (co_uses_live c). set_solver.
  - eapply each_tube_upd; [exact co_referenced|..].
    + intros i t _ Hi Ht Hni. apply Ht. set_solver.
    + intros t _ _ Hni. set_solver.
Qed.
Lemma Core_watch :
  (cid, tid) ∉ g_watches g → live (e_tubes e) tid → (deg (g_watches g) tid + 1 < 2 ^ 32)%N →
  Core (g <| g_watches ::= ({[ (cid, tid) ]} ∪.) |> <| g_orphans ::= ({[ tid ]} ∪.) |>)
    (upd_tube tid (λ t, t <| t_watching_ct ::= incr32 |>) e).
Proof using HC.
  intros Hn Hl Hb. core HC.
  - eapply each_tube_upd; [exact co_watching|..].
    + intros i t _ Hi [Ht ?]. unfold watching_ok. rewrite deg_add, decide_False, N.add_0_r by done. done.
    + intros t _ [Ht ?]. unfold watching_ok. cbn. rewrite deg_add, decide_True, Ht, incr32_small by done. done.
  - intros c i [[= -> ->]%elem_of_singleton|Hin]%elem_of_union; apply live_alter; [done|by eapply co_watches_live].
  - set_solver.
  - eapply each_tube_upd; [exact co_referenced|..].
    + intros i t _ Hi Ht Hni. apply Ht. set_solver.
    + intros t _ _ Hni. set_solver.
Qed.
Lemma Core_unwatch :
  (cid, tid) ∈ g_watches g → (cid, tid) ∉ g_waits g → (cid, tid) ∉ g_waitn g →
  Core (g <| g_watches ::= (.∖ {[ (cid, tid) ]}) |> <| g_orphans ::= ({[ tid ]} ∪.) |>)
    (upd_tube tid (λ t, t <| t_watching_ct ::= decr |>) e).
Proof using HC.
  intros Hin Hn1 Hn2. core HC.
  - eapply each_tube_upd; [exact co_watching|..].
    + intros i t _ Hi [Ht Hb]. unfold watching_ok. rewrite (deg_del _ _ _ i Hin), decide_False, N.add_0_r in * by done. done.
    + intros t _ [Ht Hb]. unfold watching_ok. cbn. rewrite Ht. rewrite (deg_del _ _ _ tid Hin), decide_True in * by done.
      rewrite decr_plus. split; [done|]. lia.
  - intros c i Hi. apply live_alter. apply (co_watches_live c). set_solver.
  - set_solver.
  - eapply each_tube_upd; [exact co_referenced|..].
    + intros i t _ Hi Ht Hni. apply Ht. set_solver.
    + intros t _ _ Hni. set_solver.
Qed.
End tube_refs.

Lemma live_gc_other i id e : live (e_tubes e) i → i ≠ id → live (e_tubes (gc_tube_if_orphan id e)) i.
Proof.
  intros Hl Hi. unfold gc_tube_if_orphan. case_match; [done|]. case_match; [|done]. case_match; [|done].
  repeat case_match; eng; rewrite ?live_alter; (eapply live_with; [apply slab_clear|done|done]).
Qed.

(** ** The relations under an update of one connection *)
Implicit Types (C : gmap ConnId ConnState) (cid : ConnId) (c : ConnState).
Implicit Types (r : ConnState → list TubeId) (f : ConnState → ConnState).
Lemma elem_of_rel_alter r f C cid c k (t : TubeId) :
  C !! cid = Some c →
  (k, t) ∈ rel r (alter f cid C) ↔ if decide (k = cid) then t ∈ r (f c) else (k, t) ∈ rel r C.
Proof.
  intros Hc. rewrite !elem_of_rel. setoid_rewrite lookup_alter. case_decide as Hk.
  - subst k. rewrite decide_True, Hc by done. simpl. naive_solver.
  - rewrite decide_False by congruence. by rewrite ?elem_of_rel.
Qed.
Lemma rel_at r C cid c (t : TubeId) :
  C !! cid = Some c → (cid, t) ∈ rel r C ↔ t ∈ r c.
Proof. intros Hc. rewrite elem_of_rel, Hc. naive_solver. Qed.

Lemma rel_alter_at r f C cid c :
  C !! cid = Some c →
  rel r (alter f cid C) = pairs cid (r (f c)) ∪ (rel r C ∖ pairs cid (r c)).
Proof.
  intros Hc. apply set_eq. intros [k t].
  rewrite elem_of_union, elem_of_difference, !elem_of_pairs, (elem_of_rel_alter _ _ _ _ _ _ _ Hc).
  case_decide as Hk; [subst k; rewrite (rel_at _ _ _ _ _ Hc)|]; naive_solver.
Qed.
Lemma rel_alter_same r f C cid c :
  C !! cid = Some c → r (f c) = r c → rel r (alter f cid C) = rel r C.
Proof.
  intros Hc Hr. apply set_eq. intros [k t]. rewrite (elem_of_rel_alter _ _ _ _ _ _ _ Hc), Hr.
  case_decide; [subst k|done]. by rewrite (rel_at _ _ _ _ _ Hc).
Qed.
Lemma pairs_one cid t : pairs cid [t] = {[ (cid, t) ]}.
Proof. unfold pairs. simpl. by rewrite (right_id_L ∅ (∪)). Qed.

(** Degrees are bounded by the number of connections. *)
Lemma deg_bound g e r tid : Core g e → (deg (rel r (e_conns e)) tid < 2 ^ 32)%N.
Proof.
  intros HC. pose proof (deg_rel_le r (e_conns e) tid).
  pose proof (co_bounds _ _ HC) as ((_ & _ & ?) & _ & _ & ? & _). lia.
Qed.
Lemma Core_set_use g e cid tid : Core g e → Core g (upd_conn cid (λ c, c <| c_use_tube := tid |>) e).
Proof. intros HC. by core HC. Qed.

(** ** use *)
Lemma Inv_cmd_use b cid name e out :
  Inv b e → is_Some (e_conns e !! cid) →
  Inv (more_tubes b) (cmd_use cid name (e, out)).1.
Proof.
  intros HR [c Hc]. unfold cmd_use.
  assert (Rest b false (bump_cmd n_cmd_use e)) as HR1 by auto with core.
  set (e1 := bump_cmd n_cmd_use e) in *. assert (e_conns e1 !! cid = Some c) as Hc1 by done.
  destruct (find_or_make_tube name e1) as [new e2] eqn:Hf.
  destruct (Core_find_or_make _ _ _ _ _ HR1 Hf) as (HC2 & Hname & Hj2 & Hc2 & Hlive).
  rewrite reply_fst. cbn [fst]. unfold use_tube_of. rewrite Hc2, Hc1.
  assert ((cid, c_use_tube c) ∈ rel uses (e_conns e1)) as Hin by (rewrite (rel_at _ _ _ _ _ Hc1); left).
  destruct (Nat.eqb_spec (c_use_tube c) new) as [<-|Hne].
  { apply Inv_Rest, (Rest_intro _ _ e1); [|unfold rels; by rewrite Hc2]. rewrite Hj2.
    exact (Core_unorphan (at_rest (more_tubes b) false e1) _ cid _ HC2 (or_introl Hin)). }
  apply (Core_unuse _ _ _ _ HC2) in Hin as HC3.
  set (e3 := upd_tube (c_use_tube c) _ e2) in *.
  assert (Core ((at_rest (more_tubes b) false e1) <| g_uses ::= (.∖ {[ (cid, c_use_tube c) ]}) |>
     <| g_orphans := {[ new ]} |>) (gc_tube_if_orphan (c_use_tube c) e3)) as HC4.
  { apply Core_gc. eapply Core_eq; [exact HC3|]. unfold at_rest. ghost_eq. set_solver. }
  set (e4 := gc_tube_if_orphan (c_use_tube c) e3) in *.
  assert (e_conns e4 = e_conns e1) as Hc4 by (unfold e4; rewrite conns_gc; exact Hc2).
  assert (e_jobs e4 = e_jobs e1) as Hj4 by (unfold e4; rewrite jobs_gc; exact Hj2).
  assert (live (e_tubes e4) new) as Hl4.
  { unfold e4. apply live_gc_other; [|done]. apply live_alter. unfold live.
    by destruct (slot (e_tubes e2) new). }
  set (setuse := λ c : ConnState, c <| c_use_tube := new |>).
  assert (rel uses (alter setuse cid (e_conns e4)) =
    {[ (cid, new) ]} ∪ (rel uses (e_conns e1) ∖ {[ (cid, c_use_tube c) ]})) as Hrel.
  { rewrite Hc4, (rel_alter_at _ _ _ _ _ Hc1). change (uses (setuse c)) with [new].
    change (uses c) with [c_use_tube c]. by rewrite !pairs_one. }
  assert ((cid, new) ∉ rel uses (e_conns e1) ∖ {[ (cid, c_use_tube c) ]}) as Hni.
  { rewrite elem_of_difference, (rel_at _ _ _ _ _ Hc1). unfold uses. set_solver. }
  apply (Core_use _ _ cid new) in HC4; [|done|done|].
  2: { pose proof (deg_bound _ _ uses new (Core_set_use _ _ cid new HC4)) as Hb. eng.
       unfold upd_conn in Hb. cbn [e_conns e_conns_set set_field] in Hb.
       fold setuse in Hb. rewrite Hrel, deg_add, decide_True in Hb by done. exact Hb. }
  apply (Core_set_use _ _ cid new) in HC4.
  assert (Core ((at_rest (more_tubes b) false e1)
     <| g_uses := {[ (cid, new) ]} ∪ (rel uses (e_conns e1) ∖ {[ (cid, c_use_tube c) ]}) |>)
     (upd_conn cid setuse (upd_tube new (λ t, t <| t_using_ct ::= incr32 |>) e4))) as HC5.
  { apply (Core_unorphan _ _ cid new); [|left; set_solver].
    eapply Core_eq; [exact HC4|]. unfold at_rest. ghost_eq. set_solver. }
  apply Inv_Rest. unfold Rest. eapply Core_eq; [exact HC5|]. unfold at_rest, ghost_of. eng.
  rewrite Hrel, Hj4, Hc4, (rel_alter watches), (rel_alter waits) by done. done.
Qed.

(** ** watch *)
Definition add_watch (tid : TubeId) (c : ConnState) : ConnState := c <| c_watch ::= ms_append tid |>.
Lemma Core_add_watch g e cid c tid :
  Core g e → e_conns e !! cid = Some c → tid ∉ ms_items (c_watch c) →
  Core g (upd_conn cid (add_watch tid) e).
Proof.
  intros HC Hc Hn. core HC.
  - eapply map_Forall_upd; [exact co_conns|done|]. intros x Hx [Hnd Hw]. split; [|done].
    replace x with c by congruence. cbn. apply NoDup_app.
    split_and!; [by apply (co_conns _ _ Hc)| |apply NoDup_singleton]. set_solver.
  - eapply map_Forall_alter; [exact co_watching_some|]. intros x _ _. cbn. by destruct (ms_items (c_watch x)).
Qed.

Lemma rel_add_watch C cid c tid :
  C !! cid = Some c → rel watches (alter (add_watch tid) cid C) = {[ (cid, tid) ]} ∪ rel watches C.
Proof.
  intros Hc. apply set_eq. intros [k t].
  rewrite (elem_of_rel_alter _ _ _ _ _ _ _ Hc), elem_of_union, elem_of_singleton.
  case_decide as Hk; [subst k; rewrite (rel_at _ _ _ _ _ Hc)|naive_solver].
  unfold watches. cbn. rewrite elem_of_app, list_elem_of_singleton. naive_solver.
Qed.

Lemma Inv_cmd_watch b cid name e out :
  Inv b e → is_Some (e_conns e !! cid) → conn_waiting e cid = false →
  Inv (more_tubes b) (cmd_watch cid name (e, out)).1.
Proof.
  intros HR [c Hc] Hw. unfold cmd_watch.
  assert (Rest b false (bump_cmd n_cmd_watch e)) as HR1 by auto with core.
  unfold conn_waiting in Hw. rewrite Hc in Hw.
  set (e1 := bump_cmd n_cmd_watch e) in *. assert (e_conns e1 !! cid = Some c) as Hc1 by done.
  destruct (find_or_make_tube name e1) as [tid e2] eqn:Hf.
  destruct (Core_find_or_make _ _ _ _ _ HR1 Hf) as (HC2 & Hname & Hj2 & Hc2 & _).
  rewrite reply_fst. cbn [fst]. rewrite Hc2, Hc1.
  destruct (ms_contains tid (c_watch c)) eqn:Hin.
  { apply ms_contains_true in Hin. apply Inv_Rest, (Rest_intro _ _ e1); [|unfold rels; by rewrite Hc2].
    rewrite Hj2. apply (Core_unorphan (at_rest (more_tubes b) false e1) _ cid tid HC2). right.
    by apply (rel_at watches _ _ _ _ Hc1). }
  assert (tid ∉ ms_items (c_watch c)) as Hn by (rewrite <-ms_contains_true; congruence).
  assert (live (e_tubes e2) tid) as Hl by (unfold live; by destruct (slot (e_tubes e2) tid)).
  rewrite <-Hc2 in Hc1. pose proof (Core_add_watch _ _ _ _ tid HC2 Hc1 Hn) as HC3.
  set (e3 := upd_conn cid (add_watch tid) e2) in *.
  assert (rel watches (e_conns e3) = {[ (cid, tid) ]} ∪ rel watches (e_conns e1)) as Hrel.
  { rewrite <-Hc2. by apply (rel_add_watch _ _ c). }
  assert ((cid, tid) ∉ rel watches (e_conns e1)) as Hni.
  { rewrite <-Hc2. by rewrite (rel_at watches _ _ _ _ Hc1). }
  pose proof (deg_bound _ _ watches tid HC3) as Hb. rewrite Hrel, deg_add, decide_True in Hb by done.
  pose proof (Core_watch _ _ cid tid HC3 Hni Hl Hb) as HC4.
  assert (Core ((at_rest (more_tubes b) false e1) <| g_watches ::= ({[ (cid, tid) ]} ∪.) |>)
    (upd_tube tid (λ t, t <| t_watching_ct ::= incr32 |>) e3)) as HC5.
  { apply (Core_unorphan _ _ cid tid); [|right; set_solver].
    eapply Core_eq; [exact HC4|]. unfold at_rest. ghost_eq. set_solver. }
  apply Inv_Rest, (Rest_of _ _ _ _ (rel uses (e_conns e1)) _ (rel waits (e_conns e1)) HC5);
    [done| |done|]; rewrite <-Hc2.
  - exact (rel_alter_same uses (add_watch tid) _ _ _ Hc1 eq_refl).
  - apply (rel_alter_same waits (add_watch tid) _ _ _ Hc1). unfold waits. cbn. by rewrite Hw.
Qed.

(** ** ignore *)
Definition del_watch (tid : TubeId) (c : ConnState) : ConnState :=
  c <| c_watch ::= (λ m, (ms_remove tid m).2) |>.
Lemma rel_del_watch C cid c tid :
  C !! cid = Some c → NoDup (ms_items (c_watch c)) →
  rel watches (alter (del_watch tid) cid C) = rel watches C ∖ {[ (cid, tid) ]}.
Proof.
  intros Hc Hnd. apply set_eq. intros [k t].
  rewrite (elem_of_rel_alter _ _ _ _ _ _ _ Hc), elem_of_difference, elem_of_singleton.
  case_decide as Hk; [subst k; rewrite (rel_at _ _ _ _ _ Hc)|naive_solver].
  unfold watches. cbn. rewrite elem_of_ms_remove by done. naive_solver.
Qed.
Lemma ms_remove_len (x : TubeId) m : x ∈ ms_items m → 2 ≤ ms_len m → ms_items (ms_remove x m).2 ≠ [].
Proof.
  intros Hx Hl. destruct (ms_remove_spec x m) as [(_ & _ & Hp)|[Hn _]]; [|done].
  intros E. rewrite E in Hp. unfold ms_len in Hl. rewrite Hp in Hl. simpl in Hl. lia.
Qed.
Lemma Core_del_watch g e cid c tid :
  Core g e → e_conns e !! cid = Some c → tid ∈ ms_items (c_watch c) → 2 ≤ ms_len (c_watch c) →
  Core g (upd_conn cid (del_watch tid) e).
Proof.
  intros HC Hc Hn Hlen. core HC.
  - eapply map_Forall_alter; [exact co_conns|]. intros x [Hnd Hw]. split; [|done]. cbn. by apply NoDup_ms_remove.
  - eapply map_Forall_upd; [exact co_watching_some|done|]. intros x Hx _ _. replace x with c by congruence.
    by apply ms_remove_len.
Qed.

Lemma Inv_cmd_ignore b cid name e out :
  Inv b e → conn_waiting e cid = false → Inv b (cmd_ignore cid name (e, out)).1.
Proof.
  intros HR Hw. unfold cmd_ignore.
  assert (Rest b false (bump_cmd n_cmd_ignore e)) as HR1 by auto with core.
  assert (conn_waiting (bump_cmd n_cmd_ignore e) cid = false) as Hw1 by done.
  set (e1 := bump_cmd n_cmd_ignore e) in *. clearbody e1. clear e HR Hw.
  destruct (e_tube_ids e1 !! name) as [tid|]; [|cbn [andb]; by rewrite reply_fst].
  unfold watch_count, conn_waiting in *.
  destruct (e_conns e1 !! cid) as [c|] eqn:Hc; [|cbn [andb]; by rewrite reply_fst].
  destruct (ms_contains tid (c_watch c)) eqn:Hin; [|cbn [andb]; by rewrite reply_fst].
  apply ms_contains_true in Hin. cbn [andb]. destruct (N.ltb_spec (N.of_nat (ms_len (c_watch c))) 2) as [|Hlen]; [by rewrite reply_fst|].
  rewrite reply_fst. cbn [fst]. assert (2 ≤ ms_len (c_watch c)) as Hlen' by lia.
  pose proof (Core_del_watch _ _ _ _ tid HR1 Hc Hin Hlen') as HC2.
  set (e2 := upd_conn cid (del_watch tid) e1) in *.
  assert (∀ t, (cid, t) ∉ rel waits (e_conns e1)) as Hnw.
  { intros t. rewrite (rel_at waits _ _ _ _ Hc). unfold waits. rewrite Hw1. set_solver. }
  assert ((cid, tid) ∈ rel watches (e_conns e1)) as Hrin by (by rewrite (rel_at watches _ _ _ _ Hc)).
  pose proof (Core_unwatch _ _ cid tid HC2 Hrin (Hnw tid) (Hnw tid)) as HC3. apply Core_gc in HC3.
  apply Inv_Rest, (Rest_of _ _ _ _ (rel uses (e_conns e1)) _ (rel waits (e_conns e1)) HC3);
    [by rewrite jobs_gc|..]; rewrite conns_gc.
  - exact (rel_alter_same uses (del_watch tid) _ _ _ Hc eq_refl).
  - apply (rel_del_watch _ _ _ _ Hc). apply (co_conns _ _ HR1 _ _ Hc).
  - apply (rel_alter_same waits (del_watch tid) _ _ _ Hc). unfold waits. cbn. by rewrite Hw1.
Qed.
