(* ===== verification/Connect.v ===== *)
(** * Opening and closing connections, pending puts *)

From S2P Require Import Prelude Ms Proto Stats Model Engine Inv InvFrame InvRefresh Queues Moves Tubes Waiting.
From S2P Require Import Rest Dispatch ConnOps Commands Sessions.
From stdpp Require Import options.

Implicit Types (C : gmap ConnId ConnState) (cid : ConnId) (r : ConnState → list TubeId).

(** ** connect *)
Definition more_conns (b : Budget) : Budget := mkBudget (b_ids b) (b_seq b) (b_conns b + 1) (b_tubes b).

Lemma Core_add_conn g e cid :
  Core g e → e_conns e !! cid = None → budget_ok (more_conns (g_budget g)) →
  Core (g <| g_budget ::= more_conns |>)
    (upd_cc cur_conns incr32 (e <| e_conns ::= <[cid := ConnState_new DEFAULT_TUBE]> |>)).
Proof.
  intros HC Hno Hb. pose proof (co_bounds _ _ HC) as (_ & [? ?] & ? & Hsz & ?).
  destruct Hb as (Hb1 & Hb2 & Hb3). cbn in Hb1, Hb2, Hb3.
  assert (∀ i j, g_jobs g !! i = Some j → j_reserver j ≠ Some cid) as Hnr.
  { intros i j Hj Hr. apply (co_queued _ _ HC) in Hj as [Hq _]. destruct (in_state _ j); [|congruence].
    destruct Hq as (k & Hk & Hs). replace k with cid in * by congruence. rewrite Hno in Hs. by destruct Hs. }
  assert (∀ P, P (ConnState_new DEFAULT_TUBE) = false →
    count P (<[cid := ConnState_new DEFAULT_TUBE]> (e_conns e)) = count P (e_conns e)) as Hcnt.
  { intros P HP. rewrite count_insert_new by done. simpl. rewrite HP. lia. }
  core HC.
  - apply map_Forall_insert_2; [|done]. split; intros k i; cbn.
    + split; [done|]. intros (j & Hj & _ & Hr & _). by apply Hnr in Hj.
    + split; [set_solver|]. intros (j & Hj & _ & Hr & _). by apply Hnr in Hj.
  - intros i j Hj. eapply queued_ok_conns; [by apply co_queued|]. intros c [x Hx].
    rewrite lookup_insert_ne by congruence. eauto.
  - apply map_Forall_insert_2; [|done]. split; [cbn; apply NoDup_singleton|done].
  - destruct co_pending as [H1' H2']. split; intros *.
    + destruct (decide (cid0 = cid)) as [->|]; [by rewrite lookup_insert_eq|].
      rewrite lookup_insert_ne by done. apply H1'.
    + destruct (decide (cid1 = cid)) as [->|]; [by rewrite lookup_insert_eq|].
      destruct (decide (cid2 = cid)) as [->|]; [by rewrite lookup_insert_eq|].
      rewrite !lookup_insert_ne by done. apply H2'.
  - intros k i. rewrite (co_ticks k i). destruct (decide (i = cid)) as [->|].
    + by rewrite lookup_insert_eq, Hno.
    + by rewrite lookup_insert_ne.
  - apply map_Forall_insert_2; [|done]. by intros _.
  - apply map_Forall_insert_2; [|done]. by intros _.
  - destruct co_cc as (H1' & H2' & H3' & H4'). unfold conn_counts_ok. rewrite !Hcnt by done.
    rewrite map_size_insert_None by done. split_and!; try done. cbn. rewrite H1', incr32_small by lia. lia.
  - unfold bounds_ok, budget_ok, seq_used in *. cbn. rewrite Hcnt, map_size_insert_None by done. split_and!; lia.
Qed.

Lemma rel_add_conn r C cid x : C !! cid = None → rel r (<[cid := x]> C) = pairs cid (r x) ∪ rel r C.
Proof.
  intros Hno. apply set_eq. intros [k t]. rewrite elem_of_union, !elem_of_rel, elem_of_pairs.
  destruct (decide (k = cid)) as [->|].
  - rewrite lookup_insert_eq, Hno. naive_solver.
  - rewrite lookup_insert_ne by done. naive_solver.
Qed.
Lemma rel_fresh r C cid (t : TubeId) : C !! cid = None → (cid, t) ∉ rel r C.
Proof. intros Hno (c & Hc & _)%elem_of_rel. congruence. Qed.

Lemma connect_eq cid e :
  e_conns e !! cid = None →
  connect cid e =
    upd_cc tot_conns incr32
      (upd_tube DEFAULT_TUBE (λ t, t <| t_watching_ct ::= incr32 |>)
         (upd_tube DEFAULT_TUBE (λ t, t <| t_using_ct ::= incr32 |>)
            (upd_cc cur_conns incr32 (e <| e_conns ::= <[cid := ConnState_new DEFAULT_TUBE]> |>)))).
Proof.
  intros Hno. unfold connect. open_engine e. eng_all. rewrite Hno. cbn [mbind option_bind].
  by rewrite slab_alter_compose.
Qed.
Lemma Inv_connect b e cid :
  Inv b e → e_conns e !! cid = None → budget_ok (more_conns b) → Inv (more_conns b) (connect cid e).
Proof.
  intros HR Hno Hb. pose proof (Core_add_conn _ _ _ HR Hno Hb) as HC1.
  set (e1 := upd_cc cur_conns incr32 _) in HC1.
  assert (live (e_tubes e1) DEFAULT_TUBE) as Hl.
  { pose proof (co_reg _ _ HR) as ([Hd _] & _). unfold live, e1. eng. by destruct (slot _ DEFAULT_TUBE). }
  assert (∀ r, r (ConnState_new DEFAULT_TUBE) = [DEFAULT_TUBE] →
    rel r (e_conns e1) = {[ (cid, DEFAULT_TUBE) ]} ∪ rel r (e_conns e)) as Hrel.
  { intros r Hr. unfold e1. eng. rewrite rel_add_conn by done. by rewrite Hr, pairs_one. }
  assert (∀ r, r (ConnState_new DEFAULT_TUBE) = [DEFAULT_TUBE] →
    (deg (rel r (e_conns e)) DEFAULT_TUBE + 1 < 2 ^ 32)%N) as Hdeg.
  { intros r Hr. pose proof (deg_bound _ _ r DEFAULT_TUBE HC1) as Hd.
    rewrite Hrel, deg_add, decide_True in Hd by eauto using rel_fresh. done. }
  pose proof (Core_use _ _ cid DEFAULT_TUBE HC1 (rel_fresh uses _ _ _ Hno) Hl (Hdeg uses eq_refl)) as HC2.
  assert (Core ((at_rest (more_conns b) false e) <| g_uses ::= ({[ (cid, DEFAULT_TUBE) ]} ∪.) |>)
    (upd_tube DEFAULT_TUBE (λ t, t <| t_using_ct ::= incr32 |>) e1)) as HC3.
  { apply (Core_unorphan _ _ cid DEFAULT_TUBE); [exact HC2|left; set_solver]. }
  pose proof (Core_watch _ _ cid DEFAULT_TUBE HC3 (rel_fresh watches _ _ _ Hno)
    (proj2 (live_alter _ _ _ _) Hl) (Hdeg watches eq_refl)) as HC4.
  assert (Core ((at_rest (more_conns b) false e) <| g_uses ::= ({[ (cid, DEFAULT_TUBE) ]} ∪.) |>
     <| g_watches ::= ({[ (cid, DEFAULT_TUBE) ]} ∪.) |>) (connect cid e)) as HC5.
  { apply (Core_unorphan _ _ cid DEFAULT_TUBE); [|left; set_solver].
    rewrite connect_eq by done. by apply Core_tot_conns. }
  apply Inv_Rest, (Rest_of _ _ _ _ _ _ (rel waits (e_conns e)) HC5); rewrite connect_eq by done; [done|..].
  - by apply (Hrel uses).
  - by apply (Hrel watches).
  - etrans; [exact (rel_add_conn waits _ _ _ Hno)|]. unfold waits at 1. cbn. set_solver.
Qed.

(** ** half_close, put_started, put_rejected *)
Lemma Inv_half_close b e out cid : Inv b e → Inv b (half_close cid (e, out)).1.
Proof.
  intros HR. unfold half_close. case_match; [|done]. rewrite reply_fst.
  by apply Inv_Rest, Rest_remove_waiting.
Qed.
Lemma Rest_set_pending b h e cid p :
  Rest b h e →
  (∀ pid, p ≫= pp_id = Some pid →
     (pid < e_next_job_id e)%N ∧ e_jobs e !! pid = None ∧
     ∀ cid', e_conns e !! cid' ≫= pending_id ≠ Some pid) →
  Rest b h (upd_conn cid (set_pending p) e).
Proof.
  intros HR Hp. apply (Rest_frame _ _ e); [done| |done|apply rels_set_pending].
  intros g HC. by apply Core_set_pending.
Qed.
Lemma Inv_put_started b now e cid too_big :
  Inv b e → budget_ok (more_ids b) → Inv (more_ids b) (put_started now cid too_big e).
Proof.
  intros HR Hb. assert (budget_le b (more_ids b)) as Hle by (unfold budget_le, more_ids; simpl; lia).
  pose proof (Rest_budget _ _ _ _ HR Hle Hb) as HRb. unfold put_started.
  case_match; [|done]. destruct too_big; cbn [fst snd].
  - apply Inv_Rest, Rest_set_pending; [auto with core|done].
  - set (e1 := connsetproducer cid (bump_cmd n_cmd_put e)).
    assert (Rest b false e1) as HR1 by (unfold e1; auto with core).
    destruct (Rest_fresh_id _ _ _ HR1 Hb) as (HR2 & Hno & Hlt & Hpend).
    apply Inv_Rest, Rest_set_pending; [done|]. intros pid [= <-]. done.
Qed.
Lemma Inv_put_rejected b e out cid why :
  Inv b e → budget_ok (more_ids b) → Inv (more_ids b) (put_rejected cid why (e, out)).1.
Proof.
  intros HR Hb. assert (budget_le b (more_ids b)) as Hle by (unfold budget_le, more_ids; simpl; lia).
  unfold put_rejected. destruct (e_conns e !! cid) as [c|]; [|exact (Rest_budget _ _ _ _ HR Hle Hb)].
  rewrite reply_fst. cbn [fst].
  assert (Rest b false (upd_conn cid (set_pending None) e)) as HR1 by (by apply Rest_set_pending).
  set (e1 := upd_conn cid (set_pending None) e) in *.
  assert (Rest b false (bump_cmd n_cmd_put e1)) as HR2 by auto with core.
  pose proof (Rest_fresh_id _ _ _ (Rest_producer _ _ _ cid HR2) Hb) as (HR3 & _).
  apply (λ H, Rest_budget _ _ _ _ H Hle Hb) in HR1, HR2.
  destruct (c_pending_put c), why; first [exact HR1 | exact HR2 | exact HR3].
Qed.

(** ** disconnect *)
(** The jobs a connection holds. *)
Definition held_by (A : Jobs) cid (id : JobId) : Prop :=
  ∃ j, A !! id = Some j ∧ j_state j = JobState.Reserved ∧ j_reserver j = Some cid.

Lemma held_dispatched now R A A' cid id :
  dispatched now R A A' → ¬ waits_in R cid → held_by A' cid id ↔ held_by A cid id.
Proof.
  intros Hd Hw. specialize (Hd id). unfold held_by.
  destruct (A !! id) as [j|], (A' !! id) as [j'|]; simpl in Hd; try done.
  destruct Hd as [->|(Hs & cid' & seq & Hw' & ->)]; [done|]. split.
  - intros (j2 & [= <-] & _ & Hr). cbn in Hr. by simplify_eq.
  - intros (j2 & [= <-] & Hs2 & _). congruence.
Qed.
Lemma held_by_readied A id j cid i :
  A !! id = Some j → held_by (<[id := readied (j <| j_reserver := None |>)]> A) cid i ↔ i ≠ id ∧ held_by A cid i.
Proof.
  intros Hj. unfold held_by. destruct (decide (i = id)) as [->|].
  - rewrite lookup_insert_eq. naive_solver.
  - rewrite lookup_insert_ne by done. naive_solver.
Qed.
Lemma held_conn b h e cid c :
  Rest b h e → e_conns e !! cid = Some c → ∀ id, id ∈ bm_values (c_reserved c) ↔ held_by (e_jobs e) cid id.
Proof.
  intros HR Hc id. rewrite elem_of_bm_values. destruct (co_reserved _ _ HR _ _ Hc) as [H1 _].
  setoid_rewrite H1. unfold queued, held_by. naive_solver.
Qed.

Lemma Rest_release b e out now cid id :
  Rest b false e → held_by (e_jobs e) cid id → ¬ waits_in (rels e) cid →
  let e' := (release_step cid now (e, out) id).1 in
  Rest b false e' ∧ calmer (rels e) (rels e') ∧
  ∀ i, held_by (e_jobs e') cid i ↔ i ≠ id ∧ held_by (e_jobs e) cid i.
Proof.
  intros HR (j & Hj & Hs & Hr) Hw. unfold release_step.
  pose proof (Float_unreserve _ _ _ HR _ _ Hj _ Hs Hr) as HF.
  pose proof (do_unreserve_lookup cid _ _ _ Hj) as Hj1. rewrite Hj1.
  pose proof (Rest_insert_ready _ _ _ _ HF _ Hj1) as HR1.
  set (e1 := insert_ready _ _ _) in *.
  assert (e_jobs e1 = <[id := readied (j <| j_reserver := None |>)]> (e_jobs e)) as Hjobs.
  { unfold e1. rewrite (insert_ready_eq _ _ _ Hj1), jobs_refresh_disp by done. unfold enqueue. eng.
    rewrite jobs_do_unreserve. apply map_eq. intros i. destruct (decide (i = id)) as [->|].
    - by rewrite !lookup_insert_eq.
    - by rewrite !lookup_insert_ne, lookup_alter_ne. }
  assert (rels e1 = rels e) as Hrels by (unfold e1; by rewrite rels_insert_ready, rels_do_unreserve).
  destruct (Rest_process_queue _ _ now e1 out HR1) as (HR2 & Hd & Hc). rewrite Hrels, Hjobs in *.
  split_and!; [done|done|]. intros i. rewrite (held_dispatched _ _ _ _ _ _ Hd Hw). by apply held_by_readied.
Qed.

Lemma Rest_release_all l b e out now cid :
  Rest b false e → NoDup l → (∀ i, i ∈ l ↔ held_by (e_jobs e) cid i) → ¬ waits_in (rels e) cid →
  let e' := (foldl (release_step cid now) (e, out) l).1 in
  Rest b false e' ∧ calmer (rels e) (rels e') ∧ ∀ i, ¬ held_by (e_jobs e') cid i.
Proof.
  revert e out. induction l as [|id l IH]; intros e out HR Hnd Hl Hw.
  - split_and!; [done|apply calmer_refl|]. intros i Hi%Hl. by apply elem_of_nil in Hi.
  - apply NoDup_cons in Hnd as [Hni Hnd]. cbn [foldl].
    destruct (Rest_release b e out now cid id HR) as (HR1 & Hc & Hh); [apply Hl; left|done|].
    destruct (release_step cid now (e, out) id) as [e1 out1]. cbn [fst] in *.
    destruct (IH e1 out1 HR1 Hnd) as (HR2 & Hc2 & Hh2).
    + intros i. rewrite Hh, <-Hl. set_solver.
    + intros Hw1. by eapply Hw, calmer_waits.
    + split_and!; [done|by eapply calmer_trans|done].
Qed.

Lemma NoDup_omap {A B} (f : A → option B) (l : list A) :
  NoDup l → (∀ x y v, f x = Some v → f y = Some v → x = y) → NoDup (omap f l).
Proof.
  intros Hnd Hinj. induction Hnd as [|x l Hx Hnd IH]; simpl; [constructor|].
  destruct (f x) as [v|] eqn:E; [|done]. constructor; [|done].
  intros (y & Hy & Hv)%list_elem_of_omap. by rewrite (Hinj x y v) in Hx.
Qed.
Lemma reserved_NoDup b h e cid c :
  Rest b h e → e_conns e !! cid = Some c → NoDup (bm_values (c_reserved c)).
Proof.
  intros HR Hc. apply NoDup_omap; [apply bt_iter_NoDup|]. destruct (co_reserved _ _ HR _ _ Hc) as [H1 _].
  intros k1 k2 id (j1 & Hj1 & _ & _ & <-)%H1 (j2 & Hj2 & _ & _ & <-)%H1. congruence.
Qed.

Definition clear_watch (c : ConnState) : ConnState :=
  c <| c_watch ::= (λ m, (ms_clear_in_delete_order m).2) |>.
Lemma Core_clear_watch g e cid :
  Core g e → g_closing g = None → Core (g <| g_closing := Some cid |>) (upd_conn cid clear_watch e).
Proof.
  intros HC Hn. core HC.
  - eapply map_Forall_alter; [exact co_conns|]. intros x [_ Hw]. split; [constructor|done].
  - eapply map_Forall_upd; [exact co_watching_some|..].
    + intros i x Hx Hi Hk _. apply Hk. congruence.
    + intros x _ _ Hne. by destruct Hne.
Qed.

Lemma Core_unwatch_all l g e cid :
  Core g e → NoDup l → pairs cid l ⊆ g_watches g → (∀ t, (cid, t) ∉ g_waits g) →
  (∀ t, (cid, t) ∉ g_waitn g) →
  Core (g <| g_watches ::= (.∖ pairs cid l) |>) (foldl unwatch_step e l).
Proof.
  revert g e. induction l as [|t l IH]; intros g e HC Hnd HW H1 H2; cbn [foldl].
  - eapply Core_eq; [exact HC|]. ghost_eq. set_solver.
  - apply NoDup_cons in Hnd as [Hni Hnd]. rewrite pairs_cons in *.
    assert (Core (g <| g_watches ::= (.∖ {[ (cid, t) ]}) |>) (unwatch_step e t)) as HC1.
    { apply Core_gc. apply (Core_unwatch _ _ cid t HC); [set_solver|apply H1|apply H2]. }
    eapply Core_eq; [apply (IH _ _ HC1 Hnd)|]; eng; [|done|done|].
    + intros [k i] [-> Hi]%elem_of_pairs. apply elem_of_difference. split; [|set_solver].
      apply HW. apply elem_of_union. right. by apply elem_of_pairs.
    + ghost_eq. set_solver.
Qed.
Lemma unwatch_same l e : e_jobs (foldl unwatch_step e l) = e_jobs e ∧ e_conns (foldl unwatch_step e l) = e_conns e.
Proof.
  revert e. induction l as [|t l IH]; intros e; cbn [foldl]; [done|].
  destruct (IH (unwatch_step e t)) as [-> ->]. unfold unwatch_step. by rewrite jobs_gc, conns_gc.
Qed.

(** Removing the connection itself. *)
Definition remove_conn (cid : ConnId) (c : ConnState) (e : Engine) : Engine :=
  let e := e <| e_conns ::= delete cid |> in
  let e := match c_tick_key c with
           | Some k => e <| e_conn_ticks ::= (.∖ {[ (k, cid) ]}) |>
           | None => e
           end in
  let e := if c_is_producer c then upd_cc cur_producers decr e else e in
  upd_cc cur_conns decr (if c_is_worker c then upd_cc cur_workers decr e else e).
Lemma remove_conn_eq cid c e :
  remove_conn cid c e =
    e <| e_conns ::= delete cid |>
      <| e_conn_ticks := e_conn_ticks e ∖ match c_tick_key c with Some k => {[ (k, cid) ]} | None => ∅ end |>
      <| e_cc := mkConnCounts (decr (cur_conns (e_cc e))) (tot_conns (e_cc e))
                   (if c_is_producer c then decr (cur_producers (e_cc e)) else cur_producers (e_cc e))
                   (if c_is_worker c then decr (cur_workers (e_cc e)) else cur_workers (e_cc e)) |>.
Proof.
  unfold remove_conn. open_engine e. destruct cc.
  destruct (c_tick_key c), (c_is_producer c), (c_is_worker c); eng_all; cbn; by rewrite ?difference_empty_L.
Qed.
Lemma Core_remove_conn g e cid c :
  Core g e → e_conns e !! cid = Some c → c_waiting c = false → (∀ i, ¬ held_by (g_jobs g) cid i) →
  Core (g <| g_closing ::= λ o, if decide (o = Some cid) then None else o |>) (remove_conn cid c e).
Proof.
  intros HC Hc Hw Hh. rewrite remove_conn_eq.
  assert (∀ P (n : N), n = count P (e_conns e) →
    (if P c then decr n else n) = count P (delete cid (e_conns e))) as Hcnt.
  { intros P n ->. rewrite (count_delete P (e_conns e) cid), Hc. simpl.
    destruct (P c); [apply decr_plus|lia]. }
  assert (N.of_nat (size (e_conns e)) = N.of_nat (size (delete cid (e_conns e))) + 1)%N as Hsize.
  { rewrite map_size_delete_Some by eauto.
    assert (size (e_conns e) ≠ 0) by (intros E%map_size_empty_inv; by rewrite E in Hc). lia. }
  core HC.
  - by apply map_Forall_delete.
  - intros i j Hj. destruct (co_queued _ _ Hj) as [Hq ?]. split; [|done].
    unfold in_state in *. case_bool_decide as Hs; [|done]. destruct Hq as (k & Hk & Hks). exists k.
    split; [done|]. rewrite lookup_delete_ne; [done|]. intros <-. eapply Hh. by exists j.
  - by apply map_Forall_delete.
  - destruct co_pending as [H1 H2]. split; intros *.
    + intros Hp. apply (H1 cid0). destruct (decide (cid0 = cid)) as [->|]; [by rewrite lookup_delete_eq in Hp|].
      by rewrite lookup_delete_ne in Hp.
    + destruct (decide (cid1 = cid)) as [->|]; [by rewrite lookup_delete_eq|].
      destruct (decide (cid2 = cid)) as [->|]; [by rewrite lookup_delete_eq|].
      rewrite !lookup_delete_ne by done. apply H2.
  - intros k i. rewrite elem_of_difference, (co_ticks k i). destruct (decide (i = cid)) as [->|].
    + rewrite lookup_delete_eq, Hc. simpl. destruct (c_tick_key c); set_solver.
    + rewrite lookup_delete_ne by done. destruct (c_tick_key c); set_solver.
  - by apply map_Forall_delete.
  - intros i x Hx Hn. apply lookup_delete_Some in Hx as [Hi Hx]. apply (co_watching_some _ _ Hx).
    intros E. apply Hn. rewrite E. rewrite decide_False; congruence.
  - destruct co_cc as (H1 & H2 & H3 & H4). unfold conn_counts_ok. cbn. split_and!.
    + rewrite H1, Hsize. apply decr_plus.
    + by apply (Hcnt c_is_producer).
    + by apply (Hcnt c_is_worker).
    + pose proof (Hcnt c_waiting _ H4) as E. by rewrite Hw in E.
  - destruct co_bounds as (? & ? & ? & ? & ?). unfold bounds_ok, seq_used in *.
    pose proof (Hcnt c_waiting _ eq_refl) as E. rewrite Hw in E. rewrite <-E. split_and!; try done; try lia.
    all: apply H.
Qed.

Lemma rel_remove_conn r f C cid c :
  C !! cid = Some c → rel r (delete cid (alter f cid C)) = rel r C ∖ pairs cid (r c).
Proof.
  intros Hc. apply set_eq. intros [k t]. rewrite elem_of_difference, !elem_of_rel, elem_of_pairs.
  destruct (decide (k = cid)) as [->|].
  - rewrite lookup_delete_eq, Hc. naive_solver.
  - rewrite lookup_delete_ne, lookup_alter_ne by done. naive_solver.
Qed.

(** The part of [disconnect] after the reserved jobs are released. *)
Definition close_conn (cid : ConnId) (c : ConnState) (e : Engine) : Engine :=
  let e := foldl unwatch_step (upd_conn cid clear_watch e) (ms_clear_in_delete_order (c_watch c)).1 in
  let e := gc_tube_if_orphan (c_use_tube c) (upd_tube (c_use_tube c) (λ t, t <| t_using_ct ::= decr |>) e) in
  remove_conn cid (clear_watch c) e.

Lemma Inv_close_conn b e cid c :
  Rest b false e → e_conns e !! cid = Some c → c_waiting c = false → (∀ i, ¬ held_by (e_jobs e) cid i) →
  Inv b (close_conn cid c e).
Proof.
  intros HR Hc Hw Hh. unfold close_conn. set (l := (ms_clear_in_delete_order (c_watch c)).1).
  assert (l ≡ₚ ms_items (c_watch c)) as Hperm by apply ms_clear_perm.
  assert (∀ t, (cid, t) ∉ rel waits (e_conns e)) as Hnw.
  { intros t. rewrite (rel_at waits _ _ _ _ Hc). unfold waits. rewrite Hw. set_solver. }
  assert (pairs cid l = pairs cid (ms_items (c_watch c))) as Hps.
  { apply set_eq. intros [k t]. by rewrite !elem_of_pairs, Hperm. }
  assert (NoDup l) as Hnd by (rewrite Hperm; apply (co_conns _ _ HR _ _ Hc)).
  assert (pairs cid l ⊆ rel watches (e_conns e)) as HW by (rewrite Hps; by apply pairs_watches).
  pose proof (Core_unwatch_all l _ _ cid (Core_clear_watch _ _ cid HR eq_refl) Hnd HW Hnw Hnw) as HC1.
  destruct (unwatch_same l (upd_conn cid clear_watch e)) as [Hj1 Hc1].
  set (e1 := foldl unwatch_step _ l) in *.
  assert ((cid, c_use_tube c) ∈ rel uses (e_conns e)) as Hu by (rewrite (rel_at uses _ _ _ _ Hc); left).
  pose proof (Core_unuse _ _ cid _ HC1 Hu) as HC2. apply Core_gc in HC2.
  set (e2 := gc_tube_if_orphan _ _) in *.
  assert (e_conns e2 = alter clear_watch cid (e_conns e)) as Hc2 by (unfold e2; rewrite conns_gc; exact Hc1).
  assert (e_jobs e2 = e_jobs e) as Hj2 by (unfold e2; rewrite jobs_gc; exact Hj1).
  assert (e_conns e2 !! cid = Some (clear_watch c)) as Hcc by (by rewrite Hc2, lookup_alter_eq, Hc).
  pose proof (Core_remove_conn _ _ _ _ HC2 Hcc Hw Hh) as HC3.
  apply Inv_Rest. eapply (Rest_of b false _ (e_jobs e) (rel uses (e_conns e) ∖ {[ (cid, c_use_tube c) ]})
    (rel watches (e_conns e) ∖ pairs cid l) (rel waits (e_conns e))).
  - eapply Core_eq; [exact HC3|]. unfold at_rest. ghost_eq. by rewrite decide_True.
  - rewrite remove_conn_eq. exact Hj2.
  - rewrite remove_conn_eq. eng. rewrite Hc2, (rel_remove_conn _ _ _ _ _ Hc). by rewrite <-pairs_one.
  - rewrite remove_conn_eq. eng. by rewrite Hc2, (rel_remove_conn _ _ _ _ _ Hc), Hps.
  - rewrite remove_conn_eq. eng. rewrite Hc2, (rel_remove_conn _ _ _ _ _ Hc). unfold waits at 2. rewrite Hw.
    set_solver.
Qed.

(** The connection after [do_remove_waiting_conn], or any step that only calms. *)
Lemma calmer_conn e e' cid c :
  calmer (rels e) (rels e') → e_conns e !! cid = Some c →
  ∃ c', e_conns e' !! cid = Some c' ∧ (c_waiting c' = true → c_waiting c = true ∧ c_wait_deadline c' = c_wait_deadline c).
Proof.
  intros Hcalm Hc. specialize (Hcalm cid). unfold rels in Hcalm. rewrite !lookup_fmap, Hc in Hcalm.
  destruct (e_conns e' !! cid) as [c'|]; simpl in Hcalm; [|done]. destruct Hcalm as [_ Hw]. eauto.
Qed.
Lemma not_waits_in e cid c : e_conns e !! cid = Some c → c_waiting c = false → ¬ waits_in (rels e) cid.
Proof.
  intros Hc Hw (r & Hr & Ht). unfold rels in Hr. rewrite lookup_fmap, Hc in Hr. injection Hr as <-.
  simpl in Ht. congruence.
Qed.
Lemma conn_remove_waiting e cid c :
  e_conns e !! cid = Some c →
  ∃ c', e_conns (do_remove_waiting_conn cid e) !! cid = Some c' ∧ c_waiting c' = false.
Proof.
  intros Hc. destruct (c_waiting c) eqn:Hw.
  - pose proof (rels_remove_waiting _ _ _ Hc Hw) as Hr.
    assert (rels (do_remove_waiting_conn cid e) !! cid = Some (c_use_tube c, c_watch c, None, false)) as Hl.
    { rewrite Hr. unfold rels. rewrite lookup_fmap. eng. by rewrite lookup_alter_eq, Hc. }
    unfold rels in Hl. apply lookup_fmap_Some in Hl as (c' & [= _ _ _ E] & Hc'). eauto.
  - unfold do_remove_waiting_conn. rewrite Hc, Hw. eauto.
Qed.

Lemma Inv_disconnect b e out now cid : Inv b e → Inv b (disconnect now cid (e, out)).1.
Proof.
  intros HR. unfold disconnect. destruct (e_conns e !! cid) as [c0|] eqn:Hc0; [|done].
  destruct (conn_remove_waiting _ _ _ Hc0) as (c1 & Hc1 & Hw1).
  pose proof (Rest_remove_waiting _ _ _ cid HR) as HR1. set (e1 := do_remove_waiting_conn cid e) in *.
  rewrite Hc1.
  destruct (Rest_release_all (bm_values (c_reserved c1)) b e1 out now cid HR1) as (HR2 & Hcalm & Hh).
  { by eapply reserved_NoDup. }
  { by eapply held_conn. }
  { by eapply not_waits_in. }
  destruct (foldl (release_step cid now) (e1, out) _) as [e2 out2]. cbn [fst] in *.
  destruct (calmer_conn _ _ _ _ Hcalm Hc1) as (c2 & Hc2 & Hw2). rewrite Hc2.
  assert (c_waiting c2 = false) as Hw2' by (destruct (c_waiting c2); [by destruct Hw2; [|congruence]|done]).
  pose proof (Inv_close_conn _ _ _ _ HR2 Hc2 Hw2' Hh) as HI. unfold close_conn in HI.
  set (l := (ms_clear_in_delete_order (c_watch c2)).1) in *.
  change (λ c, c <| c_watch ::= λ m, (ms_clear_in_delete_order m).2 |>) with clear_watch.
  destruct (unwatch_same l (upd_conn cid clear_watch e2)) as [_ Hc3].
  set (e3 := foldl unwatch_step _ l) in *.
  assert (e_conns e3 !! cid = Some (clear_watch c2)) as Hc3'.
  { rewrite Hc3. eng. by rewrite lookup_alter_eq, Hc2. }
  rewrite Hc3', conns_gc. cbn [e_conns e_tubes_set upd_tube set_field]. rewrite Hc3'. exact HI.
Qed.
