(* ===== verification/Tick.v ===== *)
(** * Time: expiry of reservations, delays, pauses and waits *)

From S2P Require Import Prelude Ms Proto Stats Model Engine Frames Inv InvFrame InvRefresh Queues Moves Tubes.
From S2P Require Import Waiting Rest Dispatch ConnOps Commands Sessions Connect.
From stdpp Require Import options.

(** ** Expired reservations *)
Definition expired (cid : ConnId) (now : Nanos) (j : JobRec) : bool :=
  in_state JobState.Reserved j && bool_decide (j_reserver j = Some cid) && (j_deadline_at j <? now)%N.
Definition held (cid : ConnId) (j : JobRec) : bool :=
  in_state JobState.Reserved j && bool_decide (j_reserver j = Some cid).

Lemma sat_add64_ge now x : (now ≤ u64_max)%N → (now ≤ sat_add64 now x)%N.
Proof. unfold sat_add64. lia. Qed.

Lemma expired_dispatched cid now R A A' :
  (now ≤ u64_max)%N → dispatched now R A A' → count (expired cid now) A' = count (expired cid now) A.
Proof.
  intros Hnow Hd. apply (dispatched_count _ _ _ _ _ Hd). intros j k seq Hs.
  unfold expired, in_state. rewrite Hs. cbn -[sat_add64].
  assert ((sat_add64 now (secs (j_ttr j)) <? now) = false)%N as ->.
  { apply N.ltb_ge. by apply sat_add64_ge. }
  by rewrite andb_false_r.
Qed.

(** The soonest reservation of a connection. *)
Lemma soonest_reserved_spec b h e cid c d id :
  Rest b h e → e_conns e !! cid = Some c → soonest_reserved c = Some (d, id) →
  (∃ j, e_jobs e !! id = Some j ∧ j_state j = JobState.Reserved ∧ j_reserver j = Some cid ∧ j_deadline_at j = d) ∧
  ∀ i j, e_jobs e !! i = Some j → held cid j = true → (d ≤ j_deadline_at j)%N.
Proof.
  intros HR Hc [Hin Hmin]%bt_first_Some. destruct (co_reserved _ _ HR _ _ Hc) as [_ H2]. split.
  - apply H2 in Hin as (j & ? & ? & ? & ?). eauto.
  - intros i j Hj [Hs%bool_decide_eq_true Hr%bool_decide_eq_true]%andb_true_iff.
    assert ((j_deadline_at j, i) ∈ c_reserved_by_deadline c) as Hi by (apply H2; by exists j).
    by apply Hmin, NN_ole_fst in Hi.
Qed.
Lemma soonest_reserved_none b h e cid c :
  Rest b h e → e_conns e !! cid = Some c → soonest_reserved c = None →
  ∀ i j, e_jobs e !! i = Some j → held cid j = false.
Proof.
  intros HR Hc Hn%bt_first_None i j Hj. destruct (co_reserved _ _ HR _ _ Hc) as [_ H2].
  apply not_true_iff_false. intros [Hs%bool_decide_eq_true Hr%bool_decide_eq_true]%andb_true_iff.
  assert ((j_deadline_at j, i) ∈ c_reserved_by_deadline c) as Hi by (apply H2; by exists j). set_solver.
Qed.
Lemma reserved_size_count b h e cid c :
  Rest b h e → e_conns e !! cid = Some c → N.of_nat (size (c_reserved_by_deadline c)) = count (held cid) (e_jobs e).
Proof.
  intros HR Hc. destruct (co_reserved _ _ HR _ _ Hc) as [_ H2]. apply (size_keyed _ _ j_deadline_at).
  intros k i. rewrite H2. unfold queued, held, in_state.
  setoid_rewrite andb_true_iff. setoid_rewrite bool_decide_eq_true. naive_solver.
Qed.

(** One step of the expiry loop. *)
Definition expire_one (cid : ConnId) (id : JobId) (tid : TubeId) (e : Engine) : Engine :=
  insert_ready tid id (upd_job id (λ j, j <| j_timeout_ct ::= incr32 |>)
    (upd_ct timeout_ct incr64 (do_unreserve cid id e))).
Definition timed_out (j : JobRec) : JobRec :=
  readied (j <| j_reserver := None |> <| j_timeout_ct ::= incr32 |>).
Lemma Rest_expire_one b e cid id j :
  Rest b false e → e_jobs e !! id = Some j → j_state j = JobState.Reserved → j_reserver j = Some cid →
  let e' := expire_one cid id (j_tube j) e in
  Rest b true e' ∧ e_jobs e' = <[id := timed_out j]> (e_jobs e) ∧ rels e' = rels e.
Proof.
  intros HR Hj Hs Hr. pose proof (Float_unreserve _ _ _ HR _ _ Hj _ Hs Hr) as HF.
  pose proof (do_unreserve_lookup cid _ _ _ Hj) as Hj1. unfold expire_one.
  assert (Float b false id (upd_ct timeout_ct incr64 (do_unreserve cid id e))) as HF1.
  { apply (Float_frame _ _ _ (do_unreserve cid id e)); auto with core. }
  set (f := λ j, j <| j_timeout_ct ::= incr32 |>).
  assert (Float b false id (upd_job id f (upd_ct timeout_ct incr64 (do_unreserve cid id e)))) as HF2
    by (by apply Float_upd_job).
  set (e1 := upd_job id f _) in *.
  assert (e_jobs e1 !! id = Some (f (j <| j_reserver := None |>))) as Hj2 by (by apply upd_job_lookup).
  split_and!.
  - exact (Rest_insert_ready _ _ _ _ HF2 _ Hj2).
  - rewrite (insert_ready_eq _ _ _ Hj2), jobs_refresh_disp by done. unfold enqueue, e1. eng.
    rewrite jobs_do_unreserve. apply map_eq. intros i. destruct (decide (i = id)) as [->|].
    + by rewrite !lookup_insert_eq.
    + by rewrite !lookup_insert_ne, !lookup_alter_ne.
  - rewrite rels_insert_ready. unfold e1. apply rels_do_unreserve.
Qed.

(** ** What a tick may change *)
Lemma pauses_clear_loop fuel now e : e_pauses (clear_pauses_loop fuel now e) ⊆ e_pauses e.
Proof.
  revert e. induction fuel as [|fuel IH]; intros e; simpl; [done|].
  repeat case_match; try done. etrans; [apply IH|]. eng. set_solver.
Qed.
Lemma pauses_process_queue now e out :
  let S := e_pauses (process_queue now (e, out)).1 in
  S ⊆ e_pauses e ∧ ∀ at_ id, (at_, id) ∈ S → (now < at_)%N.
Proof.
  unfold process_queue. cbn zeta. rewrite (un_process_loop e_pauses). split; [apply pauses_clear_loop|].
  by apply clear_loop_done.
Qed.

(** Time passing: waits only end, pauses only expire, reservations of the
    past and delayed jobs only become fewer. *)
Record aged (now : Nanos) (e e' : Engine) : Prop := mkAged {
  ag_calmer : calmer (rels e) (rels e');
  ag_expired : ∀ k, (count (expired k now) (e_jobs e') ≤ count (expired k now) (e_jobs e))%N;
  ag_delayed : ∀ i j, e_jobs e' !! i = Some j → j_state j = JobState.Delayed → e_jobs e !! i = Some j;
  ag_pauses : e_pauses e' ⊆ e_pauses e;
}.
Lemma aged_refl now e : aged now e e.
Proof. split; [apply calmer_refl|done|done|done]. Qed.
Lemma aged_trans now e1 e2 e3 : aged now e1 e2 → aged now e2 e3 → aged now e1 e3.
Proof.
  intros [C1 E1 D1 P1] [C2 E2 D2 P2]. split; [by eapply calmer_trans| |auto|by etrans].
  intros k. etrans; [apply E2|apply E1].
Qed.
(** Making a job ready and dispatching. *)
Lemma aged_ready b now e e1 out id j j1 :
  (now ≤ u64_max)%N → Rest b true e1 → e_jobs e !! id = Some j → e_jobs e1 = <[id := j1]> (e_jobs e) →
  j_state j1 = JobState.Ready → rels e1 = rels e → e_pauses e1 = e_pauses e →
  let e' := (process_queue now (e1, out)).1 in
  Rest b false e' ∧ aged now e e' ∧
  (∀ k, count (expired k now) (e_jobs e') + ind (expired k now) (Some j) = count (expired k now) (e_jobs e))%N ∧
  (count (in_state JobState.Delayed) (e_jobs e') + ind (in_state JobState.Delayed) (Some j) =
   count (in_state JobState.Delayed) (e_jobs e))%N.
Proof.
  intros Hnow HR1 Hj Hj1 Hs Hr Hp e'. unfold e'. clear e'.
  destruct (Rest_process_queue _ _ now e1 out HR1) as (HR2 & Hd & Hc).
  destruct (pauses_process_queue now e1 out) as [Hps _].
  destruct (process_queue now (e1, out)) as [e2 out2]. cbn [fst] in *.
  assert (∀ P, count P (e_jobs e2) = count P (e_jobs e1) → P j1 = false →
    count P (e_jobs e2) + ind P (Some j) = count P (e_jobs e))%N as Hcount.
  { intros P HP Hz. rewrite HP, Hj1, <-Hj, (count_insert P (e_jobs e) id j1). unfold ind at 1. rewrite Hz.
    apply N.add_0_r. }
  assert (∀ k, count (expired k now) (e_jobs e2) + ind (expired k now) (Some j) =
               count (expired k now) (e_jobs e))%N as He.
  { intros k. apply Hcount; [by apply (expired_dispatched _ _ _ _ _ Hnow Hd)|].
    unfold expired, in_state. by rewrite Hs. }
  split_and!; [done| |done|].
  - split; [by rewrite <-Hr|intros k; rewrite <-He; lia| |by rewrite <-Hp].
    intros i j' Hj' Hs'. specialize (Hd i). rewrite Hj', Hj1 in Hd. unfold handed in Hd.
    destruct (decide (i = id)) as [->|].
    + rewrite lookup_insert_eq in Hd. simpl in Hd. destruct Hd as [->|(_ & ? & ? & _ & ->)]; [congruence|done].
    + rewrite lookup_insert_ne in Hd by done. destruct (e_jobs e !! i) as [j0|]; simpl in Hd; [|done].
      destruct Hd as [->|(_ & ? & ? & _ & ->)]; done.
  - apply Hcount; [|unfold in_state; by rewrite Hs]. apply (dispatched_count _ _ _ _ _ Hd).
    intros j' k seq Hs'. unfold in_state. by rewrite Hs'.
Qed.

(** The loop leaves no expired reservation, and the invariant holds. *)
Lemma Rest_expire_loop fuel b e out cid now :
  (now ≤ u64_max)%N → Rest b false e → (count (expired cid now) (e_jobs e) < N.of_nat fuel)%N →
  let e' := (expire_loop fuel cid now (e, out)).1 in
  Rest b false e' ∧ aged now e e' ∧ count (expired cid now) (e_jobs e') = 0%N.
Proof.
  intros Hnow. revert e out. induction fuel as [|fuel IH]; intros e out HR Hf; [lia|]. cbn [expire_loop].
  destruct (e_conns e !! cid) as [c|] eqn:Hc.
  2: { split_and!; [done|apply aged_refl|]. apply count_zero. intros i j Hj.
       apply not_true_iff_false. intros [[Hs Hr%bool_decide_eq_true]%andb_true_iff _]%andb_true_iff.
       pose proof (co_queued _ _ HR _ _ Hj) as [Hq _]. rewrite Hs in Hq.
       destruct Hq as (k & Hk & [x Hx]). congruence. }
  cbn [mbind option_bind].
  destruct (soonest_reserved c) as [[d id]|] eqn:Hsr.
  - destruct (soonest_reserved_spec _ _ _ _ _ _ _ HR Hc Hsr) as [(j & Hj & Hs & Hr & Hd) Hmin].
    destruct (N.leb_spec now d) as [Hle|Hlt].
    + split_and!; [done|apply aged_refl|]. apply count_zero. intros i j' Hj'. unfold expired.
      fold (held cid j'). destruct (held cid j') eqn:Hh; [|done]. apply N.ltb_ge. etrans; [exact Hle|eauto].
    + rewrite Hj. cbn [fmap option_fmap option_map].
      destruct (Rest_expire_one _ _ _ _ _ HR Hj Hs Hr) as (HR1 & Hj1 & Hr1).
      fold (expire_one cid id (j_tube j) e). set (e1 := expire_one _ _ _ _) in *.
      destruct (aged_ready b now e e1 out id j (timed_out j)) as (HR2 & Ha & He & _); try done.
      { unfold e1, expire_one. rewrite (un_insert_ready e_pauses). apply (un_do_unreserve e_pauses). }
      destruct (process_queue now (e1, out)) as [e2 out2]. cbn [fst] in *.
      assert (expired cid now j = true) as Hx.
      { unfold expired, in_state. rewrite !bool_decide_eq_true_2 by done. simpl. apply N.ltb_lt. lia. }
      destruct (IH e2 out2 HR2) as (HR3 & Ha3 & Hz).
      { pose proof (He cid) as Hc1. unfold ind in Hc1. rewrite Hx in Hc1. lia. }
      split_and!; [done|by eapply aged_trans|done].
  - split_and!; [done|apply aged_refl|]. apply count_zero. intros i j Hj. unfold expired.
    fold (held cid j). by rewrite (soonest_reserved_none _ _ _ _ _ HR Hc Hsr _ _ Hj).
Qed.

Lemma calmer_remove_waiting e cid : calmer (rels e) (rels (do_remove_waiting_conn cid e)).
Proof.
  destruct (e_conns e !! cid) as [c|] eqn:Hc.
  - destruct (c_waiting c) eqn:Hw.
    + rewrite (rels_remove_waiting _ _ _ Hc Hw). apply calmer_unset.
    + unfold do_remove_waiting_conn. rewrite Hc, Hw. apply calmer_refl.
  - unfold do_remove_waiting_conn. rewrite Hc. apply calmer_refl.
Qed.

Lemma expire_fuel b h e cid now :
  Rest b h e → (count (expired cid now) (e_jobs e) < N.of_nat (S (reserved_size e cid)))%N.
Proof.
  intros HR. assert (count (expired cid now) (e_jobs e) ≤ count (held cid) (e_jobs e))%N as Hle.
  { rewrite (count_split (e_jobs e) (held cid) (expired cid now)
      (λ j, held cid j && negb (j_deadline_at j <? now)%N)); [lia|..].
    - intros j. unfold expired. fold (held cid j). by destruct (held cid j), (_ <? _)%N.
    - intros j. unfold expired. fold (held cid j). by destruct (held cid j), (_ <? _)%N. }
  unfold reserved_size. destruct (e_conns e !! cid) as [c|] eqn:Hc.
  - rewrite Nat2N.inj_succ, (reserved_size_count _ _ _ _ _ HR Hc). lia.
  - replace (count (held cid) (e_jobs e)) with 0%N in Hle; [lia|]. symmetry. apply count_zero.
    intros i j Hj. apply not_true_iff_false. intros [Hs Hr%bool_decide_eq_true]%andb_true_iff.
    pose proof (co_queued _ _ HR _ _ Hj) as [Hq _]. rewrite Hs in Hq. destruct Hq as (k & Hk & [x Hx]). congruence.
Qed.

(** A connection that waits past its deadline. *)
Definition overdue (now : Nanos) (c : ConnState) : bool :=
  c_waiting c && match c_wait_deadline c with Some wd => (wd <=? now)%N | None => false end.
(** Connections with nothing left to expire. *)
Definition settled (now : Nanos) (cid : ConnId) (e : Engine) : Prop :=
  count (expired cid now) (e_jobs e) = 0%N ∧ ∀ c, e_conns e !! cid = Some c → overdue now c = false.

Lemma overdue_calmer now e e' cid c' :
  calmer (rels e) (rels e') → e_conns e' !! cid = Some c' → overdue now c' = true →
  ∃ c, e_conns e !! cid = Some c ∧ overdue now c = true.
Proof.
  intros Hc Hc' Ho. specialize (Hc cid). unfold rels in Hc. rewrite !lookup_fmap, Hc' in Hc.
  destruct (e_conns e !! cid) as [c|]; simpl in Hc; [|done]. exists c. split; [done|].
  unfold overdue in *. apply andb_true_iff in Ho as [Hw Ho]. destruct Hc as [_ Hc].
  destruct (Hc Hw) as [-> <-]. done.
Qed.
Lemma settled_aged now cid e e' : aged now e e' → settled now cid e → settled now cid e'.
Proof.
  intros Ha [Hz Ho]. split.
  - pose proof (ag_expired _ _ _ Ha cid). lia.
  - intros c' Hc'. apply not_true_iff_false. intros Hd.
    destruct (overdue_calmer _ _ _ _ _ (ag_calmer _ _ _ Ha) Hc' Hd) as (c & Hc & Hd'). by rewrite Ho in Hd'.
Qed.
Lemma aged_remove_waiting now e cid : aged now e (do_remove_waiting_conn cid e).
Proof.
  split; [apply calmer_remove_waiting| | |by rewrite (un_remove_waiting e_pauses)]; by rewrite jobs_remove_waiting.
Qed.
Lemma settled_remove_waiting now e cid :
  count (expired cid now) (e_jobs e) = 0%N → settled now cid (do_remove_waiting_conn cid e).
Proof.
  intros Hz. split; [by rewrite jobs_remove_waiting|]. intros c' Hc'.
  destruct (e_conns e !! cid) as [c|] eqn:Hc.
  - destruct (conn_remove_waiting _ _ _ Hc) as (c1 & Hc1 & Hw). unfold overdue. simplify_eq. by rewrite Hw.
  - pose proof (calmer_remove_waiting e cid cid) as Hr. unfold rels in Hr.
    rewrite !lookup_fmap, Hc', Hc in Hr. done.
Qed.

Lemma Rest_conn_timeout b e out cid now :
  (now ≤ u64_max)%N → Rest b false e →
  let e' := (conn_timeout cid now (e, out)).1 in
  Rest b false e' ∧ aged now e e' ∧ settled now cid e'.
Proof.
  intros Hnow HR. unfold conn_timeout. cbn [fst].
  destruct (Rest_expire_loop _ _ _ out cid now Hnow HR (expire_fuel _ _ _ cid now HR)) as (HR1 & Ha1 & Hz).
  destruct (expire_loop _ cid now (e, out)) as [e1 out1]. cbn [fst] in *.
  assert (Rest b false (do_remove_waiting_conn cid e1) ∧ aged now e (do_remove_waiting_conn cid e1) ∧
          settled now cid (do_remove_waiting_conn cid e1)) as HD.
  { split_and!; [auto with core|eapply aged_trans; [done|apply aged_remove_waiting]|by apply settled_remove_waiting]. }
  assert ((∀ c, e_conns e1 !! cid = Some c → overdue now c = false) →
          Rest b false e1 ∧ aged now e e1 ∧ settled now cid e1) as HN by done.
  unfold conn_waiting. destruct (e_conns e1 !! cid) as [c|]; [|by apply HN].
  cbn [mbind option_bind]. unfold overdue in HN.
  destruct (c_waiting c) eqn:Hw; cbn [andb];
    [|apply HN; intros c' [= <-]; by rewrite Hw].
  destruct (conn_deadline_soon e1 cid now); [by rewrite reply_fst|].
  destruct (c_wait_deadline c) as [wd|] eqn:Hd; [destruct (wd <=? now)%N eqn:Hle|].
  - by rewrite reply_fst.
  - apply HN. intros c' [= <-]. by rewrite Hw, Hd.
  - apply HN. intros c' [= <-]. by rewrite Hw, Hd.
Qed.

(** ** Delayed jobs *)
(** A tube with its earliest delayed job. *)
Definition delay_first (e : Engine) (tid : TubeId) (d : Nanos) (id : JobId) : Prop :=
  ∃ t, slot (e_tubes e) tid = Some t ∧ bt_first (t_delayed t) = Some (d, id).
Definition pos_of (e : Engine) (tid : TubeId) : option nat := t_pos <$> slot (e_tubes e) tid.

Lemma earlier_fold e L best :
  match foldl (earlier_tube e) best L with
  | Some (p, tid) =>
      (best = Some (p, tid) ∨ (∃ d, (d, tid) ∈ L) ∧ pos_of e tid = Some p) ∧
      (∀ p' tid', best = Some (p', tid') → p ≤ p') ∧
      ∀ d tid' p', (d, tid') ∈ L → pos_of e tid' = Some p' → p ≤ p'
  | None => best = None ∧ ∀ d tid, (d, tid) ∈ L → pos_of e tid = None
  end.
Proof.
  revert best. induction L as [|[d tid] L IH]; intros best; cbn [foldl].
  - destruct best as [[p tid]|]; split_and!; try done; [by left|naive_solver|set_solver|set_solver].
  - specialize (IH (earlier_tube e best (d, tid))).
    assert (pos_of e tid = None ∧ earlier_tube e best (d, tid) = best ∨
      ∃ q, pos_of e tid = Some q ∧
        (earlier_tube e best (d, tid) = Some (q, tid) ∧ (∀ p' tid', best = Some (p', tid') → q ≤ p') ∨
         ∃ p' tid', best = Some (p', tid') ∧ earlier_tube e best (d, tid) = best ∧ p' ≤ q)) as Hstep.
    { unfold earlier_tube, pos_of, tube. simpl. destruct (slot (e_tubes e) tid) as [t|]; [|by left].
      right. exists (t_pos t). split; [done|]. destruct best as [[p' tid']|]; [|left; split; done].
      destruct (Nat.ltb_spec (t_pos t) p'); [left|right].
      - split; [done|]. intros ? ? [= <- <-]. lia.
      - eauto. }
    destruct (foldl (earlier_tube e) _ L) as [[p tid0]|].
    + destruct IH as (H1 & H2 & H3).
      destruct Hstep as [[Hp E]|(q & Hq & [[E Hle]|(p' & tid' & Hb & E & Hle)])]; rewrite E in *.
      * split_and!; [set_solver|done|]. intros d' i' p' [[= -> ->]|Hin]%elem_of_cons; [congruence|eauto].
      * split_and!.
        -- right. destruct H1 as [[= <- <-]|[[d' Hin] Hpos]]; [split; [exists d; left|done]|].
           split; [exists d'; by right|done].
        -- intros p' i' Hb. specialize (Hle _ _ Hb). specialize (H2 _ _ eq_refl). lia.
        -- intros d' i' p' [[= -> ->]|Hin]%elem_of_cons; [|eauto]. intros Hp'.
           replace p' with q by congruence. eauto.
      * split_and!; [set_solver|done|]. intros d' i' q' [[= -> ->]|Hin]%elem_of_cons; [|eauto]. intros Hp'.
        replace q' with q by congruence. specialize (H2 _ _ Hb). lia.
    + destruct IH as (H1 & H2).
      destruct Hstep as [[Hp E]|(q & Hq & [[E Hle]|(p' & tid' & Hb & E & Hle)])]; rewrite E in *; try congruence.
      split; [done|]. intros d' i' [[= -> ->]|Hin]%elem_of_cons; [done|eauto].
Qed.

Section soonest.
Context (b : Budget) (h : bool) (e : Engine) (HR : Rest b h e).

Lemma delay_heads_iff d tid : (d, tid) ∈ e_delay_heads e ↔ ∃ id, delay_first e tid d id.
Proof using HR.
  rewrite (co_delays _ _ HR d tid). unfold delay_first. destruct (slot (e_tubes e) tid) as [t|] eqn:Ht; simpl.
  - rewrite (co_delay_key _ _ HR _ _ Ht) by set_solver. unfold delay_head_of.
    destruct (bt_first (t_delayed t)) as [[d' id']|] eqn:Ef; simpl; naive_solver.
  - naive_solver.
Qed.

(** [soonest_delayed_job] is the first delayed job of all tubes, by
    deadline, then by the tube's place in the tube list. *)
Lemma soonest_delayed_spec :
  match soonest_delayed_job e with
  | Some (d, tid, id) =>
      delay_first e tid d id ∧
      ∀ tid' d' id', delay_first e tid' d' id' →
        (d < d')%N ∨ d = d' ∧ ∃ p p', pos_of e tid = Some p ∧ pos_of e tid' = Some p' ∧ p ≤ p'
  | None => ∀ tid d id, ¬ delay_first e tid d id
  end.
Proof using HR.
  unfold soonest_delayed_job. destruct (bt_first (e_delay_heads e)) as [[d tid0]|] eqn:Ef; simpl.
  2: { apply bt_first_None in Ef. intros tid d id Hd.
       assert ((d, tid) ∈ e_delay_heads e) as Hin by (apply delay_heads_iff; eauto). set_solver. }
  set (L := filter (λ p : Nanos * TubeId, p.1 = d) (bt_iter (e_delay_heads e))).
  assert (∀ d' tid, (d', tid) ∈ L ↔ d' = d ∧ (d, tid) ∈ e_delay_heads e) as HL.
  { intros d' tid. unfold L. rewrite list_elem_of_filter, elem_of_bt_iter. naive_solver. }
  assert (∀ tid, (d, tid) ∈ e_delay_heads e → ∃ p, pos_of e tid = Some p) as Hpos.
  { intros tid (id & t & Ht & _)%delay_heads_iff. exists (t_pos t). unfold pos_of. by rewrite Ht. }
  apply bt_first_Some in Ef as [Hin Hmin].
  pose proof (earlier_fold e L None) as Hfold. destruct (foldl (earlier_tube e) None L) as [[p tid]|].
  - destruct Hfold as ([[=]|[[d' Hd'] Hp]] & _ & Hle). apply HL in Hd' as [-> Hd'].
    pose proof Hd' as (id & t & Ht & Hf)%delay_heads_iff. simpl. unfold tube. rewrite Ht. simpl. rewrite Hf. simpl.
    split; [by exists t|]. intros tid' d' id' Hd2.
    assert ((d', tid') ∈ e_delay_heads e) as Hin' by (apply delay_heads_iff; eauto).
    pose proof (Hmin _ Hin') as Hm%NN_ole_fst. destruct (decide (d = d')) as [<-|]; [|left; lia].
    right. split; [done|]. destruct (Hpos _ Hin') as [p' Hp']. exists p, p'. split_and!; [done|done|].
    eapply Hle; [apply HL|]; eauto.
  - exfalso. destruct Hfold as [_ Hno]. destruct (Hpos _ Hin) as [p Hp]. rewrite (Hno d) in Hp; [done|by apply HL].
Qed.

Lemma soonest_delayed_job_spec d tid id :
  soonest_delayed_job e = Some (d, tid, id) →
  ∃ j, e_jobs e !! id = Some j ∧ j_state j = JobState.Delayed ∧ j_tube j = tid ∧ j_deadline_at j = d.
Proof using HR.
  intros Hs. pose proof soonest_delayed_spec as Hsp. rewrite Hs in Hsp. destruct Hsp as [(t & Ht & Hf) _].
  apply (first_delayed_spec _ _ _ _ _ _ HR). unfold tube. by rewrite Ht.
Qed.
Lemma soonest_delayed_min i j :
  e_jobs e !! i = Some j → j_state j = JobState.Delayed →
  ∃ d tid id, soonest_delayed_job e = Some (d, tid, id) ∧ (d ≤ j_deadline_at j)%N.
Proof using HR.
  intros Hj Hs. pose proof (co_jobs _ _ HR _ _ Hj) as (_ & _ & _ & t & Ht).
  assert ((j_deadline_at j, i) ∈ t_delayed t) as Hin by (apply (co_delayed _ _ HR _ _ Ht); by exists j).
  destruct (bt_first_is_Some _ _ Hin) as [[d1 i1] Hf]. pose proof (bt_first_min _ _ _ Hf Hin) as Hm%NN_ole_fst.
  pose proof soonest_delayed_spec as Hsp. destruct (soonest_delayed_job e) as [[[d tid] id]|].
  - destruct Hsp as [_ Hall]. exists d, tid, id. split; [done|].
    destruct (Hall (j_tube j) d1 i1) as [|[<- _]]; [by exists t| |]; lia.
  - exfalso. eapply Hsp. by exists t.
Qed.
End soonest.

(** One step of the delay loop: the job becomes ready. *)
Lemma Rest_undelay b e id j :
  Rest b false e → e_jobs e !! id = Some j → j_state j = JobState.Delayed →
  let e' := insert_ready (j_tube j) id (remove_delayed (j_tube j) id e) in
  Rest b true e' ∧ e_jobs e' = <[id := readied j]> (e_jobs e) ∧ rels e' = rels e.
Proof.
  intros HR Hj Hs. pose proof (Float_remove_delayed _ _ _ HR _ _ Hj Hs) as HF.
  assert (e_jobs (remove_delayed (j_tube j) id e) !! id = Some j) as Hj1 by (by rewrite jobs_remove_delayed).
  split_and!.
  - exact (Rest_insert_ready _ _ _ _ HF _ Hj1).
  - rewrite (insert_ready_eq _ _ _ Hj1), jobs_refresh_disp by done. unfold enqueue. eng. by rewrite jobs_remove_delayed.
  - by rewrite rels_insert_ready, rels_remove_delayed.
Qed.

Lemma Rest_delayed_loop fuel b e out now :
  (now ≤ u64_max)%N → Rest b false e → (count (in_state JobState.Delayed) (e_jobs e) < N.of_nat fuel)%N →
  let e' := (delayed_loop fuel now (e, out)).1 in
  Rest b false e' ∧ aged now e e' ∧
  ∀ i j, e_jobs e' !! i = Some j → j_state j = JobState.Delayed → (now < j_deadline_at j)%N.
Proof.
  intros Hnow. revert e out. induction fuel as [|fuel IH]; intros e out HR Hf; [lia|]. cbn [delayed_loop].
  destruct (soonest_delayed_job e) as [[[d tid] id]|] eqn:Hsd.
  - destruct (N.ltb_spec now d) as [Hlt|Hle].
    + split_and!; [done|apply aged_refl|]. intros i j Hj Hs.
      destruct (soonest_delayed_min _ _ _ HR _ _ Hj Hs) as (d' & tid' & id' & E & Hd). simplify_eq. lia.
    + destruct (soonest_delayed_job_spec _ _ _ HR _ _ _ Hsd) as (j & Hj & Hs & <- & _).
      destruct (Rest_undelay _ _ _ _ HR Hj Hs) as (HR1 & Hj1 & Hr1). set (e1 := insert_ready _ _ _) in *.
      destruct (aged_ready b now e e1 out id j (readied j)) as (HR2 & Ha & _ & Hcnt); try done.
      { unfold e1. by rewrite (un_insert_ready e_pauses), (un_remove_delayed e_pauses). }
      destruct (process_queue now (e1, out)) as [e2 out2]. cbn [fst] in *.
      destruct (IH e2 out2 HR2) as (HR3 & Ha3 & Hall).
      { assert (in_state JobState.Delayed j = true) as Hin by (by apply bool_decide_eq_true).
        unfold ind in Hcnt. rewrite Hin in Hcnt. lia. }
      split_and!; [done|by eapply aged_trans|done].
  - split_and!; [done|apply aged_refl|]. intros i j Hj Hs.
    destruct (soonest_delayed_min _ _ _ HR _ _ Hj Hs) as (d' & tid' & id' & E & Hd). congruence.
Qed.

(** ** Connections that are due *)
Lemma elem_of_take_while {A} `{Ord A} (f : A → bool) l x :
  StronglySorted ole l → (∀ y z, y ≼ z → f z = true → f y = true) →
  x ∈ take_while f l ↔ x ∈ l ∧ f x = true.
Proof.
  intros Hs Hf. induction Hs as [|y l Hs IH Hy]; cbn [take_while]; [set_solver|].
  rewrite Forall_forall in Hy. destruct (f y) eqn:E; rewrite !elem_of_cons, ?elem_of_nil, ?IH; [naive_solver|].
  split; [done|]. intros [[->|Hx] Hfx]; [congruence|]. apply Hy in Hx. rewrite (Hf _ _ Hx Hfx) in E. done.
Qed.

Lemma next_due_conn_spec now P e :
  match next_due_conn now P e with
  | Some cid => (cid ∉ P) ∧ ∃ t, (t, cid) ∈ e_conn_ticks e ∧ (t ≤ now)%N
  | None => ∀ t cid, (t, cid) ∈ e_conn_ticks e → (t ≤ now)%N → cid ∈ P
  end.
Proof.
  unfold next_due_conn. set (L := filter _ _).
  assert (∀ t cid, (t, cid) ∈ L ↔ (cid ∉ P) ∧ (t, cid) ∈ e_conn_ticks e ∧ (t ≤ now)%N) as HL.
  { intros t cid. unfold L. rewrite list_elem_of_filter, elem_of_take_while; [|apply bt_iter_sorted|].
    - rewrite elem_of_bt_iter, N.leb_le. done.
    - intros [t1 c1] [t2 c2] Hle%NN_ole_fst. simpl. rewrite !N.leb_le. lia. }
  destruct L as [|[t cid] L]; simpl.
  - intros t cid Ht Hle. destruct (decide (cid ∈ P)); [done|].
    assert ((t, cid) ∈ ([] : list (Nanos * ConnId))) as []%elem_of_nil by (by apply HL).
  - destruct (HL t cid) as [HL1 _]. destruct HL1 as (? & ? & ?); [left|]. eauto.
Qed.

(** A connection with an expired reservation is due. *)
Lemma as_u64_le v : (0 ≤ v)%Z → (Z.of_N (as_u64 v) ≤ v)%Z.
Proof. intros Hv. unfold as_u64. rewrite Z2N.id by (apply Z.mod_pos_bound; lia). apply Z.mod_le; lia. Qed.
Lemma tickat_soonest c d id :
  soonest_reserved c = Some (d, id) → ∃ t, conn_tickat c = Some t ∧ (t ≤ d)%N.
Proof.
  intros Hs. unfold conn_tickat. rewrite Hs.
  set (m := if c_waiting c then Z.of_N SAFETY_MARGIN else 0%Z).
  assert (0 ≤ m)%Z as Hm by (unfold m; destruct (c_waiting c); lia).
  assert (∀ v, (v ≤ Z.of_N d - m)%Z → (as_u64 (Z.max v 0) ≤ d)%N) as Hv.
  { intros v Hv. pose proof (as_u64_le (Z.max v 0)). lia. }
  destruct (c_waiting c), (c_wait_deadline c); cbn [fmap option_fmap option_map];
    eexists; (split; [reflexivity|]); apply Hv; lia.
Qed.
Lemma expired_due b h e cid now i j :
  Rest b h e → e_jobs e !! i = Some j → expired cid now j = true →
  ∃ t, (t, cid) ∈ e_conn_ticks e ∧ (t ≤ now)%N.
Proof.
  intros HR Hj [Hh Hlt%N.ltb_lt]%andb_true_iff. fold (held cid j) in Hh.
  pose proof Hh as [Hs Hr%bool_decide_eq_true]%andb_true_iff.
  pose proof (co_queued _ _ HR _ _ Hj) as [Hq _]. rewrite Hs in Hq. destruct Hq as (k & Hk & [c Hc]).
  rewrite Hr in Hk. injection Hk as <-.
  destruct (soonest_reserved c) as [[d id]|] eqn:Hsr.
  - destruct (soonest_reserved_spec _ _ _ _ _ _ _ HR Hc Hsr) as [_ Hmin].
    destruct (tickat_soonest _ _ _ Hsr) as (t & Ht & Hle). exists t. split.
    + apply (co_ticks _ _ HR). rewrite Hc. simpl. rewrite (co_tick_key _ _ HR _ _ Hc) by set_solver. done.
    + specialize (Hmin _ _ Hj Hh). lia.
  - rewrite (soonest_reserved_none _ _ _ _ _ HR Hc Hsr _ _ Hj) in Hh. done.
Qed.

Lemma calmer_dom e e' : calmer (rels e) (rels e') → dom (e_conns e') = dom (e_conns e).
Proof.
  intros Hc. apply set_eq. intros cid. specialize (Hc cid). unfold rels in Hc. rewrite !lookup_fmap in Hc.
  rewrite !elem_of_dom. destruct (e_conns e !! cid), (e_conns e' !! cid); simpl in Hc; naive_solver.
Qed.

Lemma overdue_due b h e cid now c :
  Rest b h e → e_conns e !! cid = Some c → overdue now c = true →
  ∃ t, (t, cid) ∈ e_conn_ticks e ∧ (t ≤ now)%N.
Proof.
  intros HR Hc [Hw Hd]%andb_true_iff. destruct (c_wait_deadline c) as [wd|] eqn:Hwd; [|done].
  apply N.leb_le in Hd. assert (∃ t, conn_tickat c = Some t ∧ (t ≤ wd)%N) as (t & Ht & Hle).
  { unfold conn_tickat. rewrite Hw, Hwd. cbn [fmap option_fmap option_map]. eexists; split; [reflexivity|].
    set (v := match soonest_reserved c with Some (d, _) => Some _ | None => None end).
    set (w := match v with Some v => Z.min v (Z.of_N wd) | None => Z.of_N wd end).
    assert (w ≤ Z.of_N wd)%Z by (unfold w; destruct v; lia). pose proof (as_u64_le (Z.max w 0)). lia. }
  exists t. split; [|lia]. apply (co_ticks _ _ HR). rewrite Hc. simpl.
  by rewrite (co_tick_key _ _ HR _ _ Hc) by set_solver.
Qed.

Lemma Rest_timeout_loop fuel b now P e out :
  (now ≤ u64_max)%N → Rest b false e → (∀ cid, cid ∈ P → settled now cid e) →
  size (dom (e_conns e) ∖ P) < fuel →
  let e' := (timeout_loop fuel now P (e, out)).1 in
  Rest b false e' ∧ aged now e e' ∧ ∀ cid, settled now cid e'.
Proof.
  intros Hnow. revert P e out. induction fuel as [|fuel IH]; intros P e out HR Hset Hf; [lia|].
  cbn [timeout_loop fst]. pose proof (next_due_conn_spec now P e) as Hd.
  destruct (next_due_conn now P e) as [cid|].
  - destruct Hd as [Hn (t & Ht & Hle)].
    destruct (Rest_conn_timeout _ _ out cid now Hnow HR) as (HR1 & Ha1 & Hs).
    destruct (conn_timeout cid now (e, out)) as [e1 out1]. cbn [fst] in *.
    assert (cid ∈ dom (e_conns e)) as Hin.
    { apply (co_ticks _ _ HR) in Ht. apply elem_of_dom. destruct (e_conns e !! cid); [eauto|done]. }
    destruct (IH ({[cid]} ∪ P) e1 out1 HR1) as (HR2 & Ha2 & Hall).
    + intros k [->%elem_of_singleton|Hk]%elem_of_union; [done|]. eauto using settled_aged.
    + rewrite (calmer_dom _ _ (ag_calmer _ _ _ Ha1)).
      apply Nat.lt_le_trans with (size (dom (e_conns e) ∖ P)); [|lia]. apply subset_size. set_solver.
    + split_and!; [done|by eapply aged_trans|done].
  - split_and!; [done|apply aged_refl|]. intros cid. split.
    + apply count_zero. intros i j Hj. apply not_true_iff_false. intros He.
      destruct (expired_due _ _ _ _ _ _ _ HR Hj He) as (t & Ht & Hle).
      destruct (Hset _ (Hd _ _ Ht Hle)) as [Hz _]. rewrite count_zero in Hz. by rewrite (Hz _ _ Hj) in He.
    + intros c Hc. apply not_true_iff_false. intros Ho.
      destruct (overdue_due _ _ _ _ _ _ HR Hc Ho) as (t & Ht & Hle).
      destruct (Hset _ (Hd _ _ Ht Hle)) as [_ Hz]. by rewrite (Hz _ Hc) in Ho.
Qed.

(** ** The tick *)
(** Nothing is due: delayed jobs, pauses, reservations, waits. *)
Definition quiet (now : Nanos) (e : Engine) : Prop :=
  (∀ i j, e_jobs e !! i = Some j → j_state j = JobState.Delayed → (now < j_deadline_at j)%N) ∧
  (∀ at_ tid, (at_, tid) ∈ e_pauses e → (now < at_)%N) ∧
  ∀ cid, settled now cid e.

Lemma Rest_tick_body b now e out :
  (now ≤ u64_max)%N → Rest b false e →
  let e' := (tick_body now (e, out)).1 in Rest b false e' ∧ aged now e e' ∧ quiet now e'.
Proof.
  intros Hnow HR. unfold tick_body. cbn [fst].
  destruct (Rest_delayed_loop (S (total_delayed (e_tubes e))) b e out now Hnow HR) as (HR1 & Ha1 & Hd1).
  { pose proof (total_delayed_count _ _ HR) as Ht. cbn in Ht. lia. }
  destruct (delayed_loop _ now (e, out)) as [e1 out1]. cbn [fst] in *.
  set (s2 := match bt_first (e_pauses e1) with Some (at_, _) => _ | None => _ end).
  assert (Rest b false s2.1 ∧ aged now e1 s2.1 ∧ ∀ at_ tid, (at_, tid) ∈ e_pauses s2.1 → (now < at_)%N)
    as (HR2 & Ha2 & Hp2).
  { unfold s2. destruct (bt_first (e_pauses e1)) as [[at_ id]|] eqn:Ef.
    2: { apply bt_first_None in Ef. cbn [fst]. rewrite Ef. split_and!; [done|apply aged_refl|set_solver]. }
    destruct (N.leb_spec at_ now) as [Hle|Hlt].
    - destruct (Rest_process_queue _ _ now e1 out1 HR1) as (HR2 & Hd & Hc).
      destruct (pauses_process_queue now e1 out1) as [Hps Hpl]. split_and!; [done| |done]. split; [done| | |done].
      + intros k. by rewrite (expired_dispatched _ _ _ _ _ Hnow Hd).
      + intros i j Hj Hs. specialize (Hd i). rewrite Hj in Hd. destruct (e_jobs e1 !! i) as [j0|]; [|done].
        destruct Hd as [->|(_ & ? & ? & _ & ->)]; done.
    - split_and!; [done|apply aged_refl|]. intros a i Hin. pose proof (bt_first_min _ _ _ Ef Hin) as Hm%NN_ole_fst.
      cbn in *. lia. }
  destruct s2 as [e2 out2]. cbn [fst] in *.
  destruct (Rest_timeout_loop (S (size (e_conns e2))) b now ∅ e2 out2 Hnow HR2) as (HR3 & Ha3 & Hs3).
  { set_solver. }
  { rewrite <-size_dom. apply Nat.lt_succ_r, subseteq_size. set_solver. }
  split_and!; [done|exact (aged_trans _ _ _ _ Ha1 (aged_trans _ _ _ _ Ha2 Ha3))|]. split_and!; [| |done].
  - intros i j Hj Hs. apply (Hd1 i); [|done]. eauto using ag_delayed.
  - intros at_ tid Hin. apply (Hp2 at_ tid). by apply (ag_pauses _ _ _ Ha3).
Qed.

(** [next_deadline] is below every indexed time, and is one of them. *)
Lemma foldl_min_spec (l : list N) d :
  (foldl N.min d l = d ∨ foldl N.min d l ∈ l) ∧ (foldl N.min d l ≤ d)%N ∧ ∀ x, x ∈ l → (foldl N.min d l ≤ x)%N.
Proof.
  revert d. induction l as [|y l IH]; intros d; cbn [foldl]; [set_solver by lia|].
  destruct (IH (N.min d y)) as (H1 & H2 & H3). split_and!.
  - destruct H1 as [->|H1]; [|right; by right]. destruct (N.min_spec d y) as [[_ ->]|[_ ->]]; [by left|right; left].
  - lia.
  - intros x [->|Hx]%elem_of_cons; [lia|auto].
Qed.
Definition due_times (e : Engine) : gset Nanos :=
  set_map fst (e_delay_heads e) ∪ set_map fst (e_pauses e) ∪ set_map fst (e_conn_ticks e).
Lemma first_min {B} `{Ord B, Countable B} (S : gset (N * B)) x :
  x ∈ (set_map fst S : gset N) → ∃ y, fst <$> bt_first S = Some y ∧ (y ≤ x)%N.
Proof.
  intros ([k v] & -> & Hin)%elem_of_map. destruct (bt_first_is_Some _ _ Hin) as [[y w] Hy]. exists y.
  rewrite Hy. split; [done|]. by apply (bt_first_min _ _ _ Hy), NN_ole_fst in Hin.
Qed.
Lemma first_in {B} `{Ord B, Countable B} (S : gset (N * B)) y :
  fst <$> bt_first S = Some y → y ∈ (set_map fst S : gset N).
Proof.
  intros ([k v] & Hf & ->)%fmap_Some. apply bt_first_elem in Hf. apply elem_of_map. by exists (k, v).
Qed.
Lemma next_deadline_spec e :
  match next_deadline e with
  | Some d => d ∈ due_times e ∧ ∀ x, x ∈ due_times e → (d ≤ x)%N
  | None => due_times e = ∅
  end.
Proof.
  unfold next_deadline. set (L := omap id _).
  assert (∀ x, x ∈ L → x ∈ due_times e) as Hin.
  { intros x (o & Ho & Hx)%list_elem_of_omap. unfold id in Hx. subst o. unfold due_times.
    rewrite !elem_of_cons, elem_of_nil in Ho.
    destruct Ho as [Ho|[Ho|[Ho|[]]]]; symmetry in Ho; apply first_in in Ho; set_solver. }
  assert (∀ x, x ∈ due_times e → ∃ y, y ∈ L ∧ (y ≤ x)%N) as Hmin.
  { intros x [[Hx|Hx]%elem_of_union|Hx]%elem_of_union; apply first_min in Hx as (y & Hy & Hle); exists y;
      (split; [|done]); apply list_elem_of_omap; exists (Some y); rewrite <-Hy; (split; [|done]); set_solver. }
  destruct L as [|d L].
  - apply set_eq. intros x. split; [|set_solver]. intros (y & []%elem_of_nil & _)%Hmin.
  - destruct (foldl_min_spec L d) as (H1 & H2 & H3). split.
    + apply Hin. destruct H1 as [->|H1]; [left|by right].
    + intros x (y & [->|Hy]%elem_of_cons & Hle)%Hmin; [lia|]. specialize (H3 _ Hy). lia.
Qed.

(** The early return of [tick] skips nothing. *)
Lemma delayed_loop_skip b h fuel now e out :
  Rest b h e → (∀ d tid, (d, tid) ∈ e_delay_heads e → (now < d)%N) → delayed_loop fuel now (e, out) = (e, out).
Proof.
  intros HR Hn. destruct fuel; [done|]. cbn [delayed_loop]. pose proof (soonest_delayed_spec _ _ _ HR) as Hs.
  destruct (soonest_delayed_job e) as [[[d tid] id]|]; [|done]. destruct Hs as [Hf _].
  assert (now < d)%N as Hlt by (apply (Hn d tid), (delay_heads_iff _ _ _ HR); eauto).
  by rewrite (proj2 (N.ltb_lt _ _) Hlt).
Qed.
Lemma timeout_loop_skip fuel now P e out :
  (∀ d cid, (d, cid) ∈ e_conn_ticks e → (now < d)%N) → timeout_loop fuel now P (e, out) = (e, out).
Proof.
  intros Hn. destruct fuel; [done|]. cbn [timeout_loop fst].
  pose proof (next_due_conn_spec now P e) as Hd. destruct (next_due_conn now P e) as [cid|]; [|done].
  destruct Hd as (_ & t & Ht & Hle). apply Hn in Ht. lia.
Qed.
Lemma tick_body_skip b h now e out :
  Rest b h e → (∀ x, x ∈ due_times e → (now < x)%N) → tick_body now (e, out) = (e, out).
Proof.
  intros HR Hn. assert (∀ (B : Type) d (v : B) `{Countable B} (S : gset (N * B)),
    (d, v) ∈ S → d ∈ (set_map fst S : gset N)) as Hfst.
  { intros B d v ? ? S Hin. apply elem_of_map. by exists (d, v). }
  unfold tick_body. cbn [fst]. rewrite (delayed_loop_skip _ _ _ _ _ _ HR).
  2: { intros d tid Hin%Hfst. apply Hn. unfold due_times. set_solver. }
  cbn [fst]. destruct (bt_first (e_pauses e)) as [[at_ tid]|] eqn:E.
  1: assert ((at_ <=? now) = false)%N as ->.
  { apply bt_first_elem, Hfst in E. apply N.leb_gt, Hn. unfold due_times. set_solver. }
  all: apply timeout_loop_skip; intros d cid Hin%Hfst; apply Hn; unfold due_times; set_solver.
Qed.
Lemma tick_is_body b h now e out : Rest b h e → tick now (e, out) = tick_body now (e, out).
Proof.
  intros HR. unfold tick. cbn [fst]. pose proof (next_deadline_spec e) as Hd.
  destruct (next_deadline e) as [d|]; [destruct (N.leb_spec d now) as [|Hlt]; [done|]|];
    symmetry; apply (tick_body_skip _ _ _ _ _ HR); intros x Hx.
  - destruct Hd as [_ Hd]. specialize (Hd _ Hx). lia.
  - set_solver.
Qed.

Lemma Rest_tick b now e out :
  (now ≤ u64_max)%N → Rest b false e →
  let e' := (tick now (e, out)).1 in Rest b false e' ∧ aged now e e' ∧ quiet now e'.
Proof. intros Hnow HR. rewrite (tick_is_body _ _ _ _ _ HR). by apply Rest_tick_body. Qed.
