(* ===== verification/Validate.v ===== *)
(** * Engine::validate, of [crates/engine/src/engine.rs]

    The check of a snapshot before it becomes an engine: every index and
    counter is recomputed and compared.  [None] is an error; its text is not
    kept (which violation is met first depends on the order of hash maps).
    A [vec![0; n]] of counts is a list of numbers, a [HashSet] a finite set;
    the loops are folds that stop counting at the first violation. *)

From S2P Require Import Prelude Ms Proto Model Engine.
From stdpp Require Import options.

Definition MAX_TUBE_SLOTS : N := 2 ^ 24.
Definition MAX_LIST_SEQ : N := 2 ^ 62.
Definition MAX_NEXT_JOB_ID : N := 2 ^ 62.

Notation "'ensure!' c ; k" := (if c then k else None) (at level 10, c at level 100, k at level 200,
  format "'ensure!'  c ; '//' k") : bstk_scope.
Definition foldM {A B} (f : B → A → option B) (b : B) (l : list A) : option B :=
  foldl (λ r a, r ≫= λ b, f b a) (Some b) l.
Definition map_foldM {V B} (f : B → N → V → option B) (b : B) (m : gmap N V) : option B :=
  map_fold (λ k v r, r ≫= λ b, f b k v) (Some b) m.
Definition enumerate {A} (l : list A) : list (nat * A) := imap pair l.

(** [if let Some(x) = v.get_mut(i) { *x += 1 }] and [v.get(i).unwrap_or(0)]. *)
Definition count_at (i : nat) (v : list N) : list N := alter N.succ i v.
Definition get_at (v : list N) (i : nat) : N := default 0%N (v !! i).

(** ** Tube slab, names, list order, free list *)
Definition check_slot (e : Engine) (live : nat) (p : TubeId * option TubeState) : option nat :=
  let '(tid, t) := p in
  match t with
  | None => Some live
  | Some t =>
      ensure! bool_decide (e_tube_ids e !! t_name t = Some tid);
      ensure! bool_decide (ms_items (e_tube_order e) !! t_pos t = Some tid);
      Some (S live)
  end.
Definition check_free (e : Engine) (seen : gset TubeId) (id : TubeId) : option (gset TubeId) :=
  ensure! bool_decide (e_tubes e !! id = Some None);
  ensure! bool_decide (id ∉ seen);
  Some ({[ id ]} ∪ seen).
Definition check_slab (e : Engine) : option unit :=
  let n_tubes := length (e_tubes e) in
  ensure! (N.of_nat n_tubes <=? MAX_TUBE_SLOTS)%N;
  ensure! (e_next_list_seq e <=? MAX_LIST_SEQ)%N;
  dflt ← tube e DEFAULT_TUBE;
  ensure! bool_decide (t_name dflt = default_tube);
  ensure! (t_pos dflt =? 0)%nat;
  live ← foldM (check_slot e) 0 (enumerate (e_tubes e));
  ensure! (size (e_tube_ids e) =? live)%nat;
  ensure! (ms_len (e_tube_order e) =? live)%nat;
  ensure! (length (e_free_tube_ids e) =? n_tubes - live)%nat;
  _ ← foldM (check_free e) ∅ (e_free_tube_ids e);
  ensure! (1 <=? e_next_job_id e)%N;
  ensure! (e_next_job_id e <=? MAX_NEXT_JOB_ID)%N;
  Some ().

(** ** Connections *)
Record ConnSums := mkConnSums {
  cs_using : list N; cs_watching : list N; cs_waiters : list N;
  cs_wait_pairs : gset (ConnId * TubeId);
  cs_producers : N; cs_workers : N; cs_waiting : N; cs_reserved_entries : N;
  cs_pending_ids : gset JobId;
  cs_ticks : gset (Nanos * ConnId);
}.
#[export] Instance ConnSums_eta : Eta ConnSums := λ r,
  mkConnSums (cs_using r) (cs_watching r) (cs_waiters r) (cs_wait_pairs r) (cs_producers r) (cs_workers r)
    (cs_waiting r) (cs_reserved_entries r) (cs_pending_ids r) (cs_ticks r).
#[export] Instance cs_using_set : Setter cs_using := ltac:(derive_setter).
#[export] Instance cs_watching_set : Setter cs_watching := ltac:(derive_setter).
#[export] Instance cs_waiters_set : Setter cs_waiters := ltac:(derive_setter).
#[export] Instance cs_wait_pairs_set : Setter cs_wait_pairs := ltac:(derive_setter).
#[export] Instance cs_producers_set : Setter cs_producers := ltac:(derive_setter).
#[export] Instance cs_workers_set : Setter cs_workers := ltac:(derive_setter).
#[export] Instance cs_waiting_set : Setter cs_waiting := ltac:(derive_setter).
#[export] Instance cs_reserved_entries_set : Setter cs_reserved_entries := ltac:(derive_setter).
#[export] Instance cs_pending_ids_set : Setter cs_pending_ids := ltac:(derive_setter).
#[export] Instance cs_ticks_set : Setter cs_ticks := ltac:(derive_setter).
Definition ConnSums_zero (n_tubes : nat) : ConnSums :=
  let v := replicate n_tubes 0%N in mkConnSums v v v ∅ 0 0 0 0 ∅ ∅.

Definition check_watch (e : Engine) (cid : ConnId) (c : ConnState) (p : gset TubeId * ConnSums) (t : TubeId)
    : option (gset TubeId * ConnSums) :=
  let '(seen, s) := p in
  ensure! bool_decide (is_Some (tube e t));
  ensure! bool_decide (t ∉ seen);
  let s := s <| cs_watching ::= count_at t |> in
  let s := if c_waiting c
           then s <| cs_waiters ::= count_at t |> <| cs_wait_pairs ::= ({[ (cid, t) ]} ∪.) |> else s in
  Some ({[ t ]} ∪ seen, s).
Definition check_reserved (e : Engine) (cid : ConnId) (seen : gset JobId) (seq : N) (id : JobId)
    : option (gset JobId) :=
  ensure! bool_decide (id ∉ seen);
  j ← e_jobs e !! id;
  ensure! bool_decide (j_state j = JobState.Reserved) && bool_decide (j_reserver j = Some cid);
  ensure! (j_list_seq j =? seq)%N;
  ensure! (seq <? e_next_list_seq e)%N;
  Some ({[ id ]} ∪ seen).
Definition check_pending (e : Engine) (c : ConnState) (s : ConnSums) : option ConnSums :=
  match c_pending_put c with
  | Some (mkPendingPut (Some id) _) =>
      ensure! (id <? e_next_job_id e)%N;
      ensure! bool_decide (e_jobs e !! id = None);
      ensure! bool_decide (id ∉ cs_pending_ids s);
      Some (s <| cs_pending_ids ::= ({[ id ]} ∪.) |>)
  | _ => Some s
  end.
Definition of_bool (b : bool) : N := if b then 1 else 0.
Definition check_conn (e : Engine) (s : ConnSums) (cid : ConnId) (c : ConnState) : option ConnSums :=
  ensure! bool_decide (is_Some (tube e (c_use_tube c)));
  let s := s <| cs_using ::= count_at (c_use_tube c) |> in
  ensure! negb (ms_is_empty (c_watch c));
  '(_, s) ← foldM (check_watch e cid c) (∅, s) (ms_items (c_watch c));
  s ← (if c_waiting c then Some (s <| cs_waiting ::= N.succ |>)
       else ensure! bool_decide (c_wait_deadline c = None); Some s);
  let s := s <| cs_producers ::= N.add (of_bool (c_is_producer c)) |>
             <| cs_workers ::= N.add (of_bool (c_is_worker c)) |> in
  s ← check_pending e c s;
  ensure! (size (c_reserved c) =? size (c_reserved_by_deadline c))%nat;
  seen ← map_foldM (check_reserved e cid) ∅ (c_reserved c);
  ensure! bool_decide (set_Forall (λ p, p.2 ∈ seen ∧ j_deadline_at <$> e_jobs e !! p.2 = Some p.1)
                         (c_reserved_by_deadline c));
  let s := s <| cs_reserved_entries ::= N.add (N.of_nat (size (c_reserved c))) |> in
  let tick := conn_tickat c in
  ensure! bool_decide (c_tick_key c = tick);
  Some (match tick with Some t => s <| cs_ticks ::= ({[ (t, cid) ]} ∪.) |> | None => s end).
Definition check_conns (e : Engine) : option ConnSums :=
  s ← map_foldM (check_conn e) (ConnSums_zero (length (e_tubes e))) (e_conns e);
  ensure! bool_decide (e_conn_ticks e = cs_ticks s);
  ensure! (cur_conns (e_cc e) =? N.of_nat (size (e_conns e)))%N;
  ensure! (cur_conns (e_cc e) <=? tot_conns (e_cc e))%N;
  ensure! (cur_producers (e_cc e) =? cs_producers s)%N;
  ensure! (cur_workers (e_cc e) =? cs_workers s)%N;
  ensure! (waiting_ct (e_ct e) =? cs_waiting s)%N;
  Some s.

(** ** Jobs *)
Record JobSums := mkJobSums {
  js_refs : list N; js_reserved_in : list N; js_ready : N; js_delayed : N; js_buried : N; js_reserved : N;
}.
#[export] Instance JobSums_eta : Eta JobSums := λ r,
  mkJobSums (js_refs r) (js_reserved_in r) (js_ready r) (js_delayed r) (js_buried r) (js_reserved r).
#[export] Instance js_refs_set : Setter js_refs := ltac:(derive_setter).
#[export] Instance js_reserved_in_set : Setter js_reserved_in := ltac:(derive_setter).
#[export] Instance js_ready_set : Setter js_ready := ltac:(derive_setter).
#[export] Instance js_delayed_set : Setter js_delayed := ltac:(derive_setter).
#[export] Instance js_buried_set : Setter js_buried := ltac:(derive_setter).
#[export] Instance js_reserved_set : Setter js_reserved := ltac:(derive_setter).
Definition JobSums_zero (n_tubes : nat) : JobSums :=
  let v := replicate n_tubes 0%N in mkJobSums v v 0 0 0 0.

Definition check_job (e : Engine) (s : JobSums) (id : JobId) (j : JobRec) : option JobSums :=
  ensure! (j_id j =? id)%N;
  ensure! (id <? e_next_job_id e)%N;
  ensure! (1 <=? j_ttr j)%N;
  t ← tube e (j_tube j);
  let s := s <| js_refs ::= count_at (j_tube j) |> in
  ensure! (if bool_decide (j_state j = JobState.Reserved)
           then match j_reserver j with Some cid => bool_decide (is_Some (e_conns e !! cid)) | None => false end
           else bool_decide (j_reserver j = None));
  match j_state j with
  | JobState.Ready => ensure! bool_decide ((j_pri j, id) ∈ t_ready t); Some (s <| js_ready ::= N.succ |>)
  | JobState.Delayed => ensure! bool_decide ((j_deadline_at j, id) ∈ t_delayed t); Some (s <| js_delayed ::= N.succ |>)
  | JobState.Buried => Some (s <| js_buried ::= N.succ |>)
  | JobState.Reserved => Some (s <| js_reserved ::= N.succ |> <| js_reserved_in ::= count_at (j_tube j) |>)
  end.
Definition check_jobs (e : Engine) (cs : ConnSums) : option JobSums :=
  s ← map_foldM (check_job e) (JobSums_zero (length (e_tubes e))) (e_jobs e);
  ensure! (cs_reserved_entries cs =? js_reserved s)%N;
  ensure! (reserved_ct (e_ct e) =? js_reserved s)%N;
  Some s.

(** ** Per-tube sets, counters and indexes *)
Record TubeSums := mkTubeSums {
  us_ready : N; us_urgent : N; us_delayed : N; us_buried : N;
  us_seen_buried : gset JobId;
  us_delay_heads : gset (Nanos * TubeId); us_pauses : gset (Nanos * TubeId); us_dispatchable : gset TubeId;
}.
#[export] Instance TubeSums_eta : Eta TubeSums := λ r,
  mkTubeSums (us_ready r) (us_urgent r) (us_delayed r) (us_buried r) (us_seen_buried r) (us_delay_heads r)
    (us_pauses r) (us_dispatchable r).
#[export] Instance us_ready_set : Setter us_ready := ltac:(derive_setter).
#[export] Instance us_urgent_set : Setter us_urgent := ltac:(derive_setter).
#[export] Instance us_delayed_set : Setter us_delayed := ltac:(derive_setter).
#[export] Instance us_buried_set : Setter us_buried := ltac:(derive_setter).
#[export] Instance us_seen_buried_set : Setter us_seen_buried := ltac:(derive_setter).
#[export] Instance us_delay_heads_set : Setter us_delay_heads := ltac:(derive_setter).
#[export] Instance us_pauses_set : Setter us_pauses := ltac:(derive_setter).
#[export] Instance us_dispatchable_set : Setter us_dispatchable := ltac:(derive_setter).
Definition TubeSums_zero : TubeSums := mkTubeSums 0 0 0 0 ∅ ∅ ∅ ∅.

Definition ready_entry (e : Engine) (tid : TubeId) (p : N * JobId) : bool :=
  match e_jobs e !! p.2 with
  | Some j => bool_decide (j_state j = JobState.Ready) && (j_tube j =? tid)%nat && (j_pri j =? p.1)%N
  | None => false
  end.
Definition delayed_entry (e : Engine) (tid : TubeId) (p : Nanos * JobId) : bool :=
  match e_jobs e !! p.2 with
  | Some j => bool_decide (j_state j = JobState.Delayed) && (j_tube j =? tid)%nat && (j_deadline_at j =? p.1)%N
  | None => false
  end.
Definition check_buried (e : Engine) (tid : TubeId) (seen : gset JobId) (seq : N) (id : JobId) : option (gset JobId) :=
  j ← e_jobs e !! id;
  ensure! bool_decide (j_state j = JobState.Buried) && (j_tube j =? tid)%nat;
  ensure! bool_decide (id ∉ seen);
  ensure! (j_list_seq j =? seq)%N;
  ensure! (seq <? e_next_list_seq e)%N;
  Some ({[ id ]} ∪ seen).
Definition check_waiter (cs : ConnSums) (tid : TubeId) (seen : gset ConnId) (cid : ConnId) : option (gset ConnId) :=
  ensure! bool_decide ((cid, tid) ∈ cs_wait_pairs cs);
  ensure! bool_decide (cid ∉ seen);
  Some ({[ cid ]} ∪ seen).
Definition check_tube (e : Engine) (cs : ConnSums) (js : JobSums) (s : TubeSums) (p : TubeId * option TubeState)
    : option TubeSums :=
  let '(tid, t) := p in
  match t with
  | None => Some s
  | Some t =>
      ensure! bool_decide (set_Forall (λ p, ready_entry e tid p = true) (t_ready t));
      let tube_urgent := N.of_nat (size (filter (λ p, is_urgent p.1 = true) (t_ready t))) in
      ensure! bool_decide (set_Forall (λ p, delayed_entry e tid p = true) (t_delayed t));
      seen_buried ← map_foldM (check_buried e tid) (us_seen_buried s) (t_buried t);
      _ ← foldM (check_waiter cs tid) ∅ (ms_items (t_waiting_conns t));
      ensure! (N.of_nat (ms_len (t_waiting_conns t)) =? get_at (cs_waiters cs) tid)%N;
      ensure! (ts_urgent_ct (t_stat t) =? tube_urgent)%N;
      ensure! (ts_buried_ct (t_stat t) =? N.of_nat (size (t_buried t)))%N;
      ensure! (ts_reserved_ct (t_stat t) =? get_at (js_reserved_in js) tid)%N;
      ensure! (ts_waiting_ct (t_stat t) =? get_at (cs_waiters cs) tid)%N;
      ensure! (t_using_ct t =? get_at (cs_using cs) tid)%N;
      ensure! (t_watching_ct t =? get_at (cs_watching cs) tid)%N;
      ensure! (t_job_ref_ct t =? get_at (js_refs js) tid)%N;
      ensure! (tid =? DEFAULT_TUBE)%nat ||
              (0 <? get_at (cs_using cs) tid + get_at (cs_watching cs) tid + get_at (js_refs js) tid)%N;
      let head := fst <$> bt_first (t_delayed t) in
      ensure! bool_decide (t_delay_head t = head);
      let s := match head with Some d => s <| us_delay_heads ::= ({[ (d, tid) ]} ∪.) |> | None => s end in
      let s := if (0 <? t_pause t)%N then s <| us_pauses ::= ({[ (t_unpause_at t, tid) ]} ∪.) |> else s in
      let disp := negb (ms_is_empty (t_waiting_conns t)) && negb (bool_decide (t_ready t = ∅)) in
      ensure! eqb (t_dispatchable t) disp;
      s ← (if disp
           then ensure! (0 <? t_pause t)%N; Some (s <| us_dispatchable ::= ({[ tid ]} ∪.) |>)
           else Some s);
      Some (s <| us_seen_buried := seen_buried |>
              <| us_ready ::= N.add (N.of_nat (size (t_ready t))) |>
              <| us_urgent ::= N.add tube_urgent |>
              <| us_delayed ::= N.add (N.of_nat (size (t_delayed t))) |>
              <| us_buried ::= N.add (N.of_nat (size (t_buried t))) |>)
  end.
Definition check_tubes (e : Engine) (cs : ConnSums) (js : JobSums) : option unit :=
  s ← foldM (check_tube e cs js) TubeSums_zero (enumerate (e_tubes e));
  ensure! (us_ready s =? js_ready js)%N;
  ensure! (us_delayed s =? js_delayed js)%N;
  ensure! (us_buried s =? js_buried js)%N;
  ensure! (ready_ct (e_ct e) =? js_ready js)%N;
  ensure! (urgent_ct (e_ct e) =? us_urgent s)%N;
  ensure! (delayed_ct (e_ct e) =? js_delayed js)%N;
  ensure! (buried_ct (e_ct e) =? js_buried js)%N;
  ensure! bool_decide (e_delay_heads e = us_delay_heads s);
  ensure! bool_decide (e_pauses e = us_pauses s);
  ensure! bool_decide (e_dispatchable e = us_dispatchable s);
  Some ().

Definition validate (e : Engine) : option unit :=
  _ ← check_slab e;
  cs ← check_conns e;
  js ← check_jobs e cs;
  check_tubes e cs js.
