(* ===== verification/Snapshot.v ===== *)
(** * Snapshots: [export_state], [state_view] and [import_state] of
    [crates/engine/src/engine.rs], [EngineState] of [lib.rs]

    The state of an engine as plain data: the hash maps become vectors sorted
    by key.  Importing rejects a vector that is not strictly ascending and
    every state [validate] rejects.  [EngineStateView] borrows what
    [EngineState] owns, so both are one record here; the counters are grouped
    as in [Engine].  The error texts are not kept. *)

From S2P Require Import Prelude Ms Proto Model Engine Validate.
From stdpp Require Import options.

(** ** Sorted vectors *)
Section sorted_vectors.
Context `{Ord K, Countable K} {V X : Type} (key : X → K) (val : X → V).
Implicit Types (l : list X) (m : gmap K V) (prev : option K).

(** [sort_unstable_by_key]; the keys of one map are distinct. *)
Definition key_le (x y : X) : Prop := key x ≼ key y.
#[local] Instance key_le_dec : RelDecision key_le := λ x y, decide (key x ≼ key y).
Definition sort_by_key l : list X := merge_sort key_le l.

(** The loop that rebuilds a map: [prev] is the key before. *)
Definition not_above prev (k : K) : bool :=
  match prev with Some p => bool_decide (k ≼ p) | None => false end.
Fixpoint collect prev m l : option (gmap K V) :=
  match l with
  | [] => Some m
  | x :: l => if not_above prev (key x) then None else collect (Some (key x)) (<[key x := val x]> m) l
  end.
End sorted_vectors.

(** ** [EngineState] *)
Record EngineState := mkEngineState {
  s_cfg : EngineConfig;
  s_start : Nanos;
  s_draining : bool;
  s_next_job_id : JobId;
  s_jobs : list JobRec;
  s_next_list_seq : N;
  s_tubes : list (option TubeState);
  s_free_tube_ids : list TubeId;
  s_tube_ids : list (TubeName * TubeId);
  s_tube_order : Ms TubeId;
  s_conns : list (ConnId * ConnState);
  s_conn_ticks : gset (Nanos * ConnId);
  s_delay_heads : gset (Nanos * TubeId);
  s_pauses : gset (Nanos * TubeId);
  s_dispatchable : gset TubeId;
  s_ct : Counts;
  s_cc : ConnCounts;
  s_cmd : CmdCounts;
  s_binlog : BinlogStats;
}.
Abbreviation EngineStateView := EngineState.

Definition export_state (e : Engine) : EngineState :=
  let jobs := sort_by_key j_id (map_to_list (e_jobs e)).*2 in
  let tube_ids := sort_by_key fst (map_to_list (e_tube_ids e)) in
  let conns := sort_by_key fst (map_to_list (e_conns e)) in
  mkEngineState (e_cfg e) (e_start e) (e_draining e) (e_next_job_id e) jobs (e_next_list_seq e) (e_tubes e)
    (e_free_tube_ids e) tube_ids (e_tube_order e) conns (e_conn_ticks e) (e_delay_heads e) (e_pauses e)
    (e_dispatchable e) (e_ct e) (e_cc e) (e_cmd e) (e_binlog e).
Definition state_view (e : Engine) : EngineStateView :=
  let jobs := sort_by_key j_id (map_to_list (e_jobs e)).*2 in
  let tube_ids := sort_by_key fst (map_to_list (e_tube_ids e)) in
  let conns := sort_by_key fst (map_to_list (e_conns e)) in
  mkEngineState (e_cfg e) (e_start e) (e_draining e) (e_next_job_id e) jobs (e_next_list_seq e) (e_tubes e)
    (e_free_tube_ids e) tube_ids (e_tube_order e) conns (e_conn_ticks e) (e_delay_heads e) (e_pauses e)
    (e_dispatchable e) (e_ct e) (e_cc e) (e_cmd e) (e_binlog e).
Definition import_state (s : EngineState) (sys : SysSnapshot) : option Engine :=
  jobs ← collect j_id id None ∅ (s_jobs s);
  tube_ids ← collect fst snd None ∅ (s_tube_ids s);
  conns ← collect fst snd None ∅ (s_conns s);
  let e := mkEngine (s_cfg s) sys (s_start s) (s_draining s) (s_next_job_id s) jobs (s_next_list_seq s) (s_tubes s)
    (s_free_tube_ids s) tube_ids (s_tube_order s) conns (s_conn_ticks s) (s_delay_heads s) (s_pauses s)
    (s_dispatchable s) (s_ct s) (s_cc s) (s_cmd s) [] (s_binlog s) None in
  _ ← validate e;
  Some e.

(** ** Strictly ascending vectors are the sorted vectors of maps *)
Section ascending.
Context `{Ord K} {X : Type} (key : X → K).
Implicit Types (l : list X) (prev : option K).

Definition ascending l : Prop := StronglySorted (λ x y, key x ≺ key y) l.
Definition above prev l : Prop := ∀ p, prev = Some p → ∀ x, x ∈ l → p ≺ key x.

Lemma not_above_false prev k : not_above prev k = false ↔ ∀ p, prev = Some p → p ≺ k.
Proof.
  unfold not_above. destruct prev as [p|]; [|naive_solver]. rewrite bool_decide_eq_false. split.
  - intros Hn q [= <-]. split; [by apply not_ole|done].
  - intros Hp Hle. by destruct (Hp p eq_refl).
Qed.
Lemma olt_trans (x y z : K) : x ≺ y → y ≺ z → x ≺ z.
Proof. intros [H1 H2] [H3 H4]. split; [by etrans|]. intros H5. apply H2. by etrans. Qed.
Lemma olt_irrefl (x : K) : ¬ x ≺ x.
Proof. by intros []. Qed.
Lemma ascending_cons x l : ascending (x :: l) ↔ above (Some (key x)) l ∧ ascending l.
Proof.
  unfold ascending, above. rewrite StronglySorted_cons, Forall_forall. naive_solver.
Qed.
Lemma above_cons prev x l :
  above prev (x :: l) ↔ (∀ p, prev = Some p → p ≺ key x) ∧ above prev l.
Proof. unfold above. setoid_rewrite elem_of_cons. naive_solver. Qed.
Lemma ascending_keys l : ascending l → NoDup (key <$> l).
Proof.
  induction l as [|x l IH]; [intros _; apply NoDup_nil_2|]. rewrite ascending_cons. intros [Ha Hl].
  apply NoDup_cons. split; [|auto]. intros (y & Hk & Hy)%list_elem_of_fmap. apply (olt_irrefl (key x)).
  rewrite Hk at 2. by apply Ha.
Qed.
#[local] Instance key_le_trans : Transitive (key_le key).
Proof. intros x y z. apply ole_trans. Qed.
#[local] Instance key_le_total : Total (key_le key).
Proof. intros x y. apply (total ole). Qed.
Lemma sort_by_key_perm l : sort_by_key key l ≡ₚ l.
Proof. apply merge_sort_Permutation. Qed.
Lemma sorted_ascending l : NoDup (key <$> l) → StronglySorted (key_le key) l → ascending l.
Proof.
  induction l as [|x l IH]; [constructor|]. cbn. rewrite NoDup_cons, StronglySorted_cons, ascending_cons, Forall_forall.
  intros [Hx Hnd] [Hle Hl]. split; [|auto]. intros p [= <-] y Hy. split; [by apply Hle|]. intros Hyx.
  apply Hx, list_elem_of_fmap. exists y. split; [|done]. apply (anti_symm ole); [by apply Hle|done].
Qed.
Lemma sort_ascending l : NoDup (key <$> l) → ascending (sort_by_key key l).
Proof.
  intros Hnd. apply sorted_ascending; [by rewrite sort_by_key_perm|]. apply StronglySorted_merge_sort; apply _.
Qed.
(** A strictly ascending vector is its own sorted form. *)
Lemma sort_unique l l' : ascending l → l' ≡ₚ l → sort_by_key key l' = l.
Proof.
  intros Hl Hp. apply (StronglySorted_unique_strong (key_le key)).
  - intros x y Hx Hy Hxy Hyx. rewrite sort_by_key_perm, Hp in Hx. assert (key x = key y) as Hk.
    { apply (anti_symm ole); done. }
    pose proof (ascending_keys _ Hl) as Hnd. apply list_elem_of_lookup in Hx as [i Hi], Hy as [i' Hi'].
    assert (i = i') as ->; [|congruence]. eapply (NoDup_lookup (key <$> l)); [done|by rewrite list_lookup_fmap, Hi|].
    rewrite list_lookup_fmap, Hi'. cbn. by rewrite Hk.
  - apply StronglySorted_merge_sort; apply _.
  - clear Hp. induction l as [|x l IH]; [constructor|]. apply ascending_cons in Hl as [Ha Hl].
    apply StronglySorted_cons. split; [|auto]. apply Forall_forall. intros y Hy. apply olt_ole. by apply Ha.
  - by rewrite sort_by_key_perm.
Qed.
End ascending.

Section collecting.
Context `{Ord K, Countable K} {V X : Type} (key : X → K) (val : X → V).
Implicit Types (l : list X) (m : gmap K V) (prev : option K).

Definition entries l : gmap K V := list_to_map ((λ x, (key x, val x)) <$> l).
Lemma collect_spec prev m l m' :
  (∀ k, is_Some (m !! k) → ∃ p, prev = Some p ∧ k ≼ p) →
  collect key val prev m l = Some m' ↔ (ascending key l ∧ above key prev l) ∧ m' = entries l ∪ m.
Proof.
  revert prev m. induction l as [|x l IH]; intros prev m Hm; cbn [collect].
  { unfold entries. cbn. rewrite map_empty_union. split; [|naive_solver]. intros [= <-]. split; [|done].
    split; [constructor|]. by intros p _ x ?%elem_of_nil. }
  destruct (not_above prev (key x)) eqn:Hn.
  - split; [done|]. intros [[_ [Hp _]%above_cons] _]. apply not_above_false in Hp. congruence.
  - rewrite not_above_false in Hn. rewrite IH, ascending_cons, above_cons.
    + assert (entries l ∪ <[key x := val x]> m = entries (x :: l) ∪ m ∨ ¬ above key (Some (key x)) l) as Hor.
      { destruct (decide (key x ∈ key <$> l)) as [Hin|Hno]; [right|left].
        - intros Ha. apply list_elem_of_fmap in Hin as (y & Hk & Hy). apply (olt_irrefl (key x)). rewrite Hk at 2. by apply Ha.
        - unfold entries. cbn. rewrite <-insert_union_r, insert_union_l; [done|]. apply not_elem_of_list_to_map_1.
          rewrite <-list_fmap_compose. done. }
      split.
      * intros [[Hl Ha] ->]. split; [|by destruct Hor]. split_and!; [done|done|done|].
        intros p Hp y Hy. eapply olt_trans; [by apply Hn|by apply Ha].
      * intros [((Ha & Hl) & _ & _) ->]. split; [done|]. by destruct Hor.
    + intros k [y [[<- <-]|[_ Hk]]%lookup_insert_Some]; [by exists (key x)|].
      exists (key x). split; [done|]. destruct (Hm k) as (p & Hp & Hle); [by exists y|].
      etrans; [exact Hle|]. apply olt_ole. by apply Hn.
Qed.
Lemma collect_None l m : collect key val None ∅ l = Some m ↔ ascending key l ∧ m = entries l.
Proof.
  rewrite collect_spec; [|by intros k []]. rewrite map_union_empty. split; [naive_solver|].
  intros [Hl ->]. split; [|done]. by split.
Qed.
End collecting.
