(* ===== verification/Replay.v ===== *)
(** * Replay of the binary log: [crates/store/src/replay.rs]

    A directory is the list of its files with their bytes.  [scan] reads the
    segments in index order and applies every record; a torn tail is accepted
    when no record follows it.  A panic of the Rust code (a [swap_remove]
    out of range) is [None] of [remove_job] and of [apply]; the errors
    carry no text. *)

From S2P Require Import Prelude Ms Proto Stats Parse Model Format Snapshot.
From stdpp Require Import options.

Definition is_zero (b : ascii) : bool := bool_decide (b = zero).

(** [segment_index]: [binlog.N], digits only, no leading zero. *)
Definition strip_prefix (p l : Bytes) : option Bytes :=
  if bool_decide (take (length p) l = p) then Some (drop (length p) l) else None.
Definition segment_index (name : string) : option N :=
  digits ← strip_prefix (bs "binlog.") (bs name);
  if bool_decide (digits = []) || negb (forallb is_digit digits) || bool_decide (head digits = Some "0"%char) then None
  else let n := dec_value digits in if (u64_max <? n)%N then None else if (1 <=? n)%N then Some n else None.
Definition segment_path (index : N) : string := ("binlog." +:+ dec index)%string.

(** ** The tube list *)
Record TubeList := mkTubeList { tl_order : list TubeName; tl_info : gmap TubeName (N * nat) }.
Definition TubeList_default : TubeList := mkTubeList [] ∅.
Definition add_job (t : TubeName) (l : TubeList) : TubeList :=
  if bool_decide (t = default_tube) then l
  else
    match tl_info l !! t with
    | Some (refs, pos) => mkTubeList (tl_order l) (<[t := (refs + 1, pos)%N]> (tl_info l))
    | None => mkTubeList (tl_order l ++ [t]) (<[t := (1%N, length (tl_order l))]> (tl_info l))
    end.
Definition remove_job (t : TubeName) (l : TubeList) : option TubeList :=
  match tl_info l !! t with
  | None => Some l
  | Some (refs, pos) =>
      if (0 <? refs - 1)%N then Some (mkTubeList (tl_order l) (<[t := (refs - 1, pos)%N]> (tl_info l)))
      else
        let info := delete t (tl_info l) in
        '(_, order) ← swap_remove pos (tl_order l);
        Some (mkTubeList order
          (match order !! pos with
           | Some moved => alter (λ rp, (rp.1, pos)) moved info
           | None => info
           end))
  end.

(** ** Applying records *)
Record ReplayJob := mkReplayJob {
  p_record : JobRecord; p_tube : TubeName; p_body : Bytes;
  p_order : N; p_seg : N; p_off : nat; p_put_len : nat; p_used : nat;
}.
Record ReplayState := mkReplayState {
  rs_jobs : gmap JobId ReplayJob; rs_max_id : JobId; rs_seq : N; rs_tubes : TubeList;
}.
Definition ReplayState_default : ReplayState := mkReplayState ∅ 0 0 TubeList_default.
Definition apply (rec : Rec) (seg : N) (off len : nat) (s : ReplayState) : option ReplayState :=
  let max_id := N.max (rs_max_id s) (rec_id rec) in
  let seq := (rs_seq s + 1)%N in
  match rec with
  | Rec.Put record tube body =>
      match rs_jobs s !! r_id record with
      | Some j =>
          Some (mkReplayState (<[r_id record := mkReplayJob record tube body (p_order j) seg off len len]> (rs_jobs s))
                  max_id seq (rs_tubes s))
      | None =>
          Some (mkReplayState (<[r_id record := mkReplayJob record tube body seq seg off len len]> (rs_jobs s))
                  max_id seq (add_job tube (rs_tubes s)))
      end
  | Rec.Update record =>
      Some (mkReplayState
        (alter (λ j, mkReplayJob record (p_tube j) (p_body j) (p_order j) (p_seg j) (p_off j) (p_put_len j) (p_used j + len))
           (r_id record) (rs_jobs s)) max_id seq (rs_tubes s))
  | Rec.Delete id =>
      match rs_jobs s !! id with
      | Some j => tubes ← remove_job (p_tube j) (rs_tubes s);
                  Some (mkReplayState (delete id (rs_jobs s)) max_id seq tubes)
      | None => Some (mkReplayState (rs_jobs s) max_id seq (rs_tubes s))
      end
  end.

(** ** Scanning *)
Record ScannedSeg := mkScannedSeg {
  sg_index : N; sg_file_len : nat; sg_valid_end : nat; sg_has_records : bool;
}.
Abbreviation Torn := (option (N * nat)).
Record Scan := mkScan {
  sc_segs : list ScannedSeg; sc_max_index : N; sc_jobs : gmap JobId ReplayJob; sc_next_id : JobId;
  sc_tube_order : list TubeName; sc_torn : Torn;
}.
(** [WalError::Corrupt], or a panic of the replay. *)
Inductive ScanError := Corrupt | Panic.

Section scan.
Context (record_crc : Bytes → Bytes → N).

Definition note_torn (torn : Torn) (index : N) (pos : nat) : Torn :=
  match torn with None => Some (index, pos) | Some _ => torn end.
(** The loop over the records of a segment; every turn but the last consumes
    a record, so the length of the file is fuel enough. *)
Fixpoint scan_records (fuel : nat) (buf : Bytes) (index : N) (pos : nat) (has : bool) (torn : Torn) (s : ReplayState)
    : (nat * bool * Torn * ReplayState) + ScanError :=
  match fuel with
  | O => inl (pos, has, torn, s)
  | S fuel =>
      match parse_at record_crc buf pos with
      | Parsed.End_ =>
          let torn := if existsb (λ b, negb (is_zero b)) (drop pos buf) then note_torn torn index pos else torn in
          inl (pos, has, torn, s)
      | Parsed.Record rec len =>
          match torn with
          | Some _ => inr Corrupt
          | None =>
              match apply rec index pos len s with
              | Some s => scan_records fuel buf index (pos + len) true torn s
              | None => inr Panic
              end
          end
      | Parsed.Malformed _ => inr Corrupt
      | Parsed.Bad _ => inl (pos, has, note_torn torn index pos, s)
      end
  end.
Definition scan_segment (acc : list ScannedSeg * Torn * ReplayState) (file : N * Bytes)
    : (list ScannedSeg * Torn * ReplayState) + ScanError :=
  let '(segs, torn, s) := acc in
  let '(index, buf) := file in
  if (length buf <? SEG_HEADER_LEN)%nat || forallb is_zero (take SEG_HEADER_LEN buf) then
    let torn := if existsb (λ b, negb (is_zero b)) buf then note_torn torn index SEG_HEADER_LEN else torn in
    inl (segs ++ [mkScannedSeg index (length buf) 0 false], torn, s)
  else if bool_decide (take 8 buf ≠ MAGIC) then inr Corrupt
  else if negb (from_le_bytes (take 4 (drop 8 buf)) =? VERSION)%N then inr Corrupt
  else
    match scan_records (length buf) buf index SEG_HEADER_LEN false torn s with
    | inl (pos, has, torn, s) => inl (segs ++ [mkScannedSeg index (length buf) pos has], torn, s)
    | inr e => inr e
    end.
Fixpoint scan_segments (acc : list ScannedSeg * Torn * ReplayState) (files : list (N * Bytes))
    : (list ScannedSeg * Torn * ReplayState) + ScanError :=
  match files with
  | [] => inl acc
  | file :: files => match scan_segment acc file with inl acc => scan_segments acc files | inr e => inr e end
  end.
(** The segment files of a directory in index order. *)
Definition found (dir : list (string * Bytes)) : list (N * Bytes) :=
  sort_by_key fst (omap (λ f, (λ i, (i, f.2)) <$> segment_index f.1) dir).
Definition scan_files (files : list (N * Bytes)) : Scan + ScanError :=
  match scan_segments ([], None, ReplayState_default) files with
  | inl (segs, torn, s) =>
      inl (mkScan segs (default 0%N (last files.*1)) (rs_jobs s) (N.max (sat_add64 (rs_max_id s) 1) 1)
             (tl_order (rs_tubes s)) torn)
  | inr e => inr e
  end.
Definition scan (dir : list (string * Bytes)) : Scan + ScanError := scan_files (found dir).
End scan.

(** ** The tube list never panics *)
Record tl_ok (l : TubeList) : Prop := {
  to_pos : ∀ pos t, tl_order l !! pos = Some t ↔ ∃ refs, tl_info l !! t = Some (refs, pos);
  to_refs : ∀ t refs pos, tl_info l !! t = Some (refs, pos) → (1 ≤ refs)%N;
}.
(** The live jobs counted for a tube. *)
Definition refs_of (t : TubeName) (l : TubeList) : N := default 0%N (fst <$> tl_info l !! t).
Lemma tl_ok_default : tl_ok TubeList_default.
Proof. constructor; cbn; [|done]. intros pos t. rewrite lookup_nil. split; [done|]. by intros [? ?]. Qed.
Lemma tl_order_NoDup l : tl_ok l → NoDup (tl_order l).
Proof.
  intros [Hpos _]. apply NoDup_alt. intros i j t [ri Hi]%Hpos [rj Hj]%Hpos. congruence.
Qed.
Lemma tl_order_elem l t : tl_ok l → t ∈ tl_order l ↔ is_Some (tl_info l !! t).
Proof.
  intros [Hpos _]. rewrite list_elem_of_lookup. split.
  - intros (i & [r Hr]%Hpos). by eexists.
  - intros [[r i] Hr]. exists i. apply Hpos. by exists r.
Qed.
Lemma refs_of_pos l t : tl_ok l → (0 < refs_of t l)%N ↔ is_Some (tl_info l !! t).
Proof.
  intros [_ Hr]. unfold refs_of. destruct (tl_info l !! t) as [[r i]|] eqn:Ht; cbn.
  - specialize (Hr _ _ _ Ht). split; [by eexists|lia].
  - split; [lia|]. by intros [].
Qed.
Lemma add_job_ok t l : tl_ok l → tl_ok (add_job t l).
Proof.
  intros [Hpos Hrefs]. unfold add_job. case_bool_decide as Hd; [by constructor|].
  destruct (tl_info l !! t) as [[refs pos]|] eqn:Ht; constructor; cbn.
  - intros i x. rewrite Hpos. destruct (decide (x = t)) as [->|]; [|by rewrite lookup_insert_ne].
    rewrite lookup_insert_eq, Ht. split; intros [r [= <- <-]]; by eexists.
  - intros x r i. rewrite lookup_insert_Some. intros [(_ & [= <- <-])|[_ Hx]]; [lia|by eapply Hrefs].
  - intros i x. destruct (decide (i = length (tl_order l))) as [->|Hi].
    + rewrite lookup_app_r, Nat.sub_diag by done. cbn. split.
      * intros [= <-]. exists 1%N. by rewrite lookup_insert_eq.
      * intros [r [(<- & _)|(_ & Hx)]%lookup_insert_Some]; [done|].
        assert (tl_order l !! length (tl_order l) = Some x) as H by (apply Hpos; by exists r).
        apply lookup_lt_Some in H. lia.
    + assert ((tl_order l ++ [t]) !! i = tl_order l !! i) as ->.
      { destruct (decide (i < length (tl_order l))); [by apply lookup_app_l|].
        rewrite !lookup_ge_None_2; [done|lia|rewrite length_app; cbn; lia]. }
      rewrite Hpos. destruct (decide (x = t)) as [->|]; [|by rewrite lookup_insert_ne].
      rewrite lookup_insert_eq, Ht. split; [by intros []|]. intros [r [= <- <-]]. done.
  - intros x r i [(_ & [= <- <-])|[_ Hx]]%lookup_insert_Some; [done|by eapply Hrefs].
Qed.
Lemma refs_of_add t l x :
  refs_of x (add_job t l) = (if bool_decide (x = t ∧ t ≠ default_tube) then refs_of x l + 1 else refs_of x l)%N.
Proof.
  unfold add_job. case_bool_decide as Hd.
  { rewrite bool_decide_eq_false_2; [done|naive_solver]. }
  unfold refs_of. destruct (decide (x = t)) as [->|Hx].
  - rewrite bool_decide_eq_true_2 by done. by destruct (tl_info l !! t) as [[]|]; cbn; rewrite lookup_insert_eq.
  - rewrite bool_decide_eq_false_2 by naive_solver. by destruct (tl_info l !! t) as [[]|]; cbn; rewrite lookup_insert_ne.
Qed.
(** Removing a tube's last job: its position goes to the last tube. *)
Lemma tl_swap l t refs pos :
  tl_ok l → tl_info l !! t = Some (refs, pos) →
  ∃ order, swap_remove pos (tl_order l) = Some (t, order) ∧
    tl_ok (mkTubeList order (match order !! pos with
      | Some moved => alter (λ rp : N * nat, (rp.1, pos)) moved (delete t (tl_info l))
      | None => delete t (tl_info l)
      end)).
Proof.
  intros [Hpos Hrefs] Ht. assert (tl_order l !! pos = Some t) as Hat by (apply Hpos; eauto).
  destruct (swap_remove_Some _ _ _ Hat) as [order Hs]. exists order. split; [done|].
  pose proof (swap_remove_spec _ _ _ _ Hs) as (_ & l0 & y & Hl & Hcase). rewrite Hl in Hpos, Hat.
  destruct Hcase as [(-> & <- & ->)|(Hlt & ->)].
  - rewrite lookup_ge_None_2 by done. constructor; cbn.
    + intros i x. destruct (decide (x = t)) as [->|Hx].
      * rewrite lookup_delete_eq. split; [|by intros []]. intros Hi. pose proof (lookup_lt_Some _ _ _ Hi).
        rewrite <-(lookup_app_l _ [t]) in Hi by done. apply Hpos in Hi as [r Hr]. rewrite Ht in Hr. injection Hr. lia.
      * rewrite lookup_delete_ne, <-Hpos by done. destruct (decide (i < length l0)) as [|Hi]; [by rewrite lookup_app_l|].
        rewrite (lookup_ge_None_2 l0), lookup_app_r by lia. split; [done|]. destruct (i - length l0); cbn; [by intros [= ->]|done].
    + intros x r i [_ Hx]%lookup_delete_Some. by eapply Hrefs.
  - rewrite list_lookup_insert_eq by done. rewrite lookup_app_l in Hat by done.
    assert ((l0 ++ [y]) !! length l0 = Some y) as Hy by (by rewrite lookup_app_r, Nat.sub_diag).
    apply Hpos in Hy as [ry Hy]. assert (y ≠ t) as Hne by (intros ->; rewrite Ht in Hy; injection Hy; lia). constructor; cbn.
    + intros i x. destruct (decide (x = y)) as [->|Hxy].
      * rewrite lookup_alter_eq, lookup_delete_ne, Hy by done. cbn. split.
        { intros Hi. exists ry. do 2 f_equal. destruct (decide (i = pos)) as [|Hip]; [done|].
          rewrite list_lookup_insert_ne in Hi by done. pose proof (lookup_lt_Some _ _ _ Hi).
          rewrite <-(lookup_app_l _ [y]) in Hi by done. apply Hpos in Hi as [r Hr]. rewrite Hy in Hr. injection Hr. lia. }
        { intros [r [= <- <-]]. by apply list_lookup_insert_eq. }
      * rewrite lookup_alter_ne by done. destruct (decide (x = t)) as [->|Hx].
        { rewrite lookup_delete_eq. split; [|by intros []]. destruct (decide (i = pos)) as [->|Hip].
          - rewrite list_lookup_insert_eq by done. by intros [= ->].
          - rewrite list_lookup_insert_ne by done. intros Hi. pose proof (lookup_lt_Some _ _ _ Hi).
            rewrite <-(lookup_app_l _ [y]) in Hi by done. apply Hpos in Hi as [r Hr]. congruence. }
        rewrite lookup_delete_ne, <-Hpos by done. destruct (decide (i = pos)) as [->|Hip].
        { rewrite list_lookup_insert_eq, lookup_app_l, Hat by done. split; intros [= ?]; congruence. }
        rewrite list_lookup_insert_ne by done. destruct (decide (i < length l0)) as [|Hi]; [by rewrite lookup_app_l|].
        rewrite (lookup_ge_None_2 l0), lookup_app_r by lia. split; [done|]. destruct (i - length l0); cbn; [by intros [= ->]|done].
    + intros x r i. rewrite lookup_alter_Some. intros [(-> & [r' i'] & [_ Hx]%lookup_delete_Some & [= <- <-])|(_ & [_ Hx]%lookup_delete_Some)];
        by eapply Hrefs.
Qed.
Lemma remove_job_ok t l : tl_ok l →
  ∃ l', remove_job t l = Some l' ∧ tl_ok l' ∧
    ∀ x, refs_of x l' = (if bool_decide (x = t) then refs_of x l - 1 else refs_of x l)%N.
Proof.
  intros Hl. unfold remove_job. destruct (tl_info l !! t) as [[refs pos]|] eqn:Ht.
  2: { exists l. split_and!; [done..|]. intros x. case_bool_decide as Hx; [|done]. subst x. unfold refs_of. by rewrite Ht. }
  pose proof (to_refs _ Hl _ _ _ Ht) as Hr. destruct (N.ltb_spec 0 (refs - 1)) as [Hlt|Hge].
  - eexists. split; [done|]. destruct Hl as [Hpos Hrefs]. split.
    + constructor; cbn.
      * intros i x. rewrite Hpos. destruct (decide (x = t)) as [->|]; [|by rewrite lookup_insert_ne].
        rewrite lookup_insert_eq, Ht. split; intros [r [= <- <-]]; by eexists.
      * intros x r i [(_ & [= <- <-])|[_ Hx]]%lookup_insert_Some; [lia|by eapply Hrefs].
    + intros x. unfold refs_of. cbn. case_bool_decide as Hx; [subst x; by rewrite lookup_insert_eq, Ht|by rewrite lookup_insert_ne].
  - destruct (tl_swap _ _ _ _ Hl Ht) as (order & -> & Hok). cbn [mbind option_bind]. eexists. split; [done|]. split; [exact Hok|].
    intros x. unfold refs_of. cbn. case_bool_decide as Hx.
    + subst x. rewrite Ht. destruct (order !! pos) as [m|]; [|rewrite lookup_delete_eq; cbn; lia].
      destruct (decide (m = t)) as [->|]; [rewrite lookup_alter_eq|rewrite lookup_alter_ne by done]; rewrite lookup_delete_eq; cbn; lia.
    + destruct (order !! pos) as [m|]; [|by rewrite lookup_delete_ne].
      destruct (decide (m = x)) as [->|]; [rewrite lookup_alter_eq|rewrite lookup_alter_ne by done]; rewrite lookup_delete_ne by done;
        by destruct (tl_info l !! x) as [[]|].
Qed.

(** ** What a record does to the live jobs *)
Abbreviation Live := (gmap JobId RecoveredJob).
(** The contract of the log: a Put creates or replaces, an Update changes the
    record of a live job, a Delete removes. *)
Definition live_step (L : Live) (r : Rec) : Live :=
  match r with
  | Rec.Put record tube body => <[r_id record := mkRecoveredJob record tube body]> L
  | Rec.Update record => alter (λ j, mkRecoveredJob record (rj_tube j) (rj_body j)) (r_id record) L
  | Rec.Delete id => delete id L
  end.
Definition live_run : Live → list Rec → Live := foldl live_step.
(** The record of a journal entry. *)
Definition entry_rec (e : JournalEntry) : Rec :=
  match e with
  | JournalEntry.Put record tube body => Rec.Put record tube body
  | JournalEntry.Update record => Rec.Update record
  | JournalEntry.Delete id => Rec.Delete id
  end.

Definition rec_len (r : Rec) : nat := REC_HEADER_LEN + length (payload_of r).
(** A record and where it is in the log. *)
Abbreviation Located := (N * nat * Rec)%type.
Definition loc_rec (l : Located) : Rec := l.2.
Definition applied (s : ReplayState) (l : Located) : ReplayState :=
  let '(seg, off, rec) := l in default s (apply rec seg off (rec_len rec) s).
Definition replayed : ReplayState → list Located → ReplayState := foldl applied.
Definition job_of (j : ReplayJob) : RecoveredJob := mkRecoveredJob (p_record j) (p_tube j) (p_body j).
Definition live_of (s : ReplayState) : Live := job_of <$> rs_jobs s.

Section apply.
Implicit Types (s : ReplayState) (l : Located).
Lemma apply_total s seg off rec n :
  tl_ok (rs_tubes s) → ∃ s', apply rec seg off n s = Some s' ∧ tl_ok (rs_tubes s').
Proof.
  intros Hs. unfold apply. destruct rec as [record tube body|record|id].
  - destruct (rs_jobs s !! r_id record); eexists; (split; [done|]); [done|by apply add_job_ok].
  - by eexists.
  - destruct (rs_jobs s !! id) as [j|]; [|by eexists]. destruct (remove_job_ok (p_tube j) _ Hs) as (l' & -> & Hl' & _).
    by eexists.
Qed.
Lemma applied_apply s seg off rec :
  tl_ok (rs_tubes s) → apply rec seg off (rec_len rec) s = Some (applied s (seg, off, rec)).
Proof. intros Hs. unfold applied. by destruct (apply_total s seg off rec (rec_len rec) Hs) as (s' & -> & _). Qed.
Lemma applied_ok s l : tl_ok (rs_tubes s) → tl_ok (rs_tubes (applied s l)).
Proof.
  destruct l as [[seg off] rec]. intros Hs. pose proof (applied_apply s seg off rec Hs) as Ha.
  destruct (apply_total s seg off rec (rec_len rec) Hs) as (s' & Hs' & Hok). congruence.
Qed.
Lemma replayed_ok s ls : tl_ok (rs_tubes s) → tl_ok (rs_tubes (replayed s ls)).
Proof. revert s. induction ls as [|l ls IH]; intros s Hs; [done|]. cbn. by apply IH, applied_ok. Qed.

Lemma applied_jobs s seg off rec :
  tl_ok (rs_tubes s) →
  rs_jobs (applied s (seg, off, rec)) =
    match rec with
    | Rec.Put record tube body =>
        <[r_id record := mkReplayJob record tube body
            (match rs_jobs s !! r_id record with Some j => p_order j | None => rs_seq s + 1 end)%N
            seg off (rec_len rec) (rec_len rec)]> (rs_jobs s)
    | Rec.Update record =>
        alter (λ j, mkReplayJob record (p_tube j) (p_body j) (p_order j) (p_seg j) (p_off j) (p_put_len j) (p_used j + rec_len rec))
          (r_id record) (rs_jobs s)
    | Rec.Delete id => delete id (rs_jobs s)
    end.
Proof.
  intros Hs. unfold applied, apply. destruct rec as [record tube body|record|id].
  - by destruct (rs_jobs s !! r_id record).
  - done.
  - destruct (rs_jobs s !! id) as [j|] eqn:Hj; [|by rewrite delete_id].
    by destruct (remove_job_ok (p_tube j) _ Hs) as (l' & -> & _).
Qed.
Lemma applied_live s l : tl_ok (rs_tubes s) → live_of (applied s l) = live_step (live_of s) (loc_rec l).
Proof.
  destruct l as [[seg off] rec]. intros Hs. unfold live_of. rewrite applied_jobs by done.
  destruct rec as [record tube body|record|id]; cbn.
  - by rewrite fmap_insert.
  - apply map_eq. intros i. rewrite lookup_fmap. destruct (decide (i = r_id record)) as [->|].
    + rewrite !lookup_alter_eq, lookup_fmap. by destruct (rs_jobs s !! r_id record).
    + by rewrite !lookup_alter_ne, ?lookup_fmap by done.
  - by rewrite fmap_delete.
Qed.
Lemma applied_max s l : tl_ok (rs_tubes s) → rs_max_id (applied s l) = N.max (rs_max_id s) (rec_id (loc_rec l)).
Proof.
  destruct l as [[seg off] rec]. intros Hs. unfold applied, apply. destruct rec as [record tube body|record|id].
  - by destruct (rs_jobs s !! r_id record).
  - done.
  - destruct (rs_jobs s !! id) as [j|] eqn:Hj; [|done]. by destruct (remove_job_ok (p_tube j) _ Hs) as (l' & -> & _).
Qed.
Lemma applied_seq s l : tl_ok (rs_tubes s) → rs_seq (applied s l) = (rs_seq s + 1)%N.
Proof.
  destruct l as [[seg off] rec]. intros Hs. unfold applied, apply. destruct rec as [record tube body|record|id].
  - by destruct (rs_jobs s !! r_id record).
  - done.
  - destruct (rs_jobs s !! id) as [j|] eqn:Hj; [|done]. by destruct (remove_job_ok (p_tube j) _ Hs) as (l' & -> & _).
Qed.
Lemma replayed_live s ls :
  tl_ok (rs_tubes s) → live_of (replayed s ls) = live_run (live_of s) (loc_rec <$> ls).
Proof.
  revert s. induction ls as [|l ls IH]; intros s Hs; [done|]. cbn. rewrite IH by by apply applied_ok.
  by rewrite applied_live.
Qed.
Lemma replayed_max s ls :
  tl_ok (rs_tubes s) → rs_max_id (replayed s ls) = foldl N.max (rs_max_id s) (rec_id ∘ loc_rec <$> ls).
Proof.
  revert s. induction ls as [|l ls IH]; intros s Hs; [done|]. cbn. rewrite IH by by apply applied_ok.
  by rewrite applied_max.
Qed.
End apply.

(** ** The tube list is the tubes of the live jobs *)
(** A Put of a live job keeps its tube, as a compaction move does. *)
Definition steady (L : Live) (r : Rec) : Prop :=
  match r with
  | Rec.Put record tube _ => ∀ j, L !! r_id record = Some j → rj_tube j = tube
  | _ => True
  end.
Fixpoint steady_run (L : Live) (recs : list Rec) : Prop :=
  match recs with [] => True | r :: recs => steady L r ∧ steady_run (live_step L r) recs end.
Definition tubes_counted (s : ReplayState) : Prop :=
  ∀ t, refs_of t (rs_tubes s) =
    if bool_decide (t = default_tube) then 0%N else count (λ j, bool_decide (rj_tube j = t)) (live_of s).

Section tubes.
Implicit Types (s : ReplayState) (l : Located).
Lemma applied_tubes s seg off rec :
  tl_ok (rs_tubes s) →
  ∀ t, refs_of t (rs_tubes (applied s (seg, off, rec))) =
    match rec with
    | Rec.Put record tube _ =>
        if bool_decide (live_of s !! r_id record = None ∧ t = tube ∧ tube ≠ default_tube) then refs_of t (rs_tubes s) + 1 else refs_of t (rs_tubes s)
    | Rec.Update _ => refs_of t (rs_tubes s)
    | Rec.Delete id =>
        if bool_decide (rj_tube <$> live_of s !! id = Some t) then refs_of t (rs_tubes s) - 1 else refs_of t (rs_tubes s)
    end%N.
Proof.
  intros Hs t. unfold applied, apply, live_of. destruct rec as [record tube body|record|id]; [|done|]; rewrite lookup_fmap.
  - destruct (rs_jobs s !! r_id record) as [j|]; cbn [fmap option_fmap option_map from_option id rs_tubes].
    + by rewrite bool_decide_eq_false_2 by naive_solver.
    + rewrite refs_of_add. repeat case_bool_decide; naive_solver.
  - destruct (rs_jobs s !! id) as [j|]; cbn [fmap option_fmap option_map]; [|done].
    destruct (remove_job_ok (p_tube j) _ Hs) as (l' & -> & _ & Hrefs). cbn. rewrite Hrefs.
    repeat case_bool_decide; naive_solver.
Qed.
Lemma applied_counted s l :
  tl_ok (rs_tubes s) → tubes_counted s → steady (live_of s) (loc_rec l) → tubes_counted (applied s l).
Proof.
  destruct l as [[seg off] rec]. intros Hs Hc Hst t. rewrite applied_tubes, applied_live, Hc by done. cbn [loc_rec snd] in *.
  set (L := live_of s) in *. set (P := λ j, bool_decide (rj_tube j = t)). destruct rec as [record tube body|record|id]; cbn [live_step steady] in *.
  - pose proof (count_insert P L (r_id record) (mkRecoveredJob record tube body)) as Hq. cbn [ind P rj_tube] in Hq.
    destruct (L !! r_id record) as [j|] eqn:Hj; cbn [ind] in Hq.
    + rewrite bool_decide_eq_false_2 by naive_solver. subst P. cbn in Hq. rewrite (Hst j) in Hq by done. repeat case_bool_decide; lia.
    + subst P. cbn in Hq. repeat case_bool_decide; naive_solver lia.
  - case_bool_decide; [done|]. symmetry. by apply count_alter.
  - pose proof (count_delete P L id) as Hq. destruct (L !! id) as [j|] eqn:Hj; cbn in Hq |- *; subst P; cbn in Hq.
    + repeat case_bool_decide; naive_solver lia.
    + repeat case_bool_decide; naive_solver lia.
Qed.
Lemma replayed_counted s ls :
  tl_ok (rs_tubes s) → tubes_counted s → steady_run (live_of s) (loc_rec <$> ls) → tubes_counted (replayed s ls).
Proof.
  revert s. induction ls as [|l ls IH]; intros s Hs Hc Hst; [done|]. cbn in Hst |- *. destruct Hst as [Hl Hst].
  apply IH; [by apply applied_ok|by apply applied_counted|]. by rewrite applied_live.
Qed.
Lemma counted_order s t :
  tl_ok (rs_tubes s) → tubes_counted s →
  t ∈ tl_order (rs_tubes s) ↔ t ≠ default_tube ∧ ∃ id j, live_of s !! id = Some j ∧ rj_tube j = t.
Proof.
  intros Hs Hc. rewrite tl_order_elem, <-refs_of_pos, Hc by done. case_bool_decide as Hd; [split; [lia|naive_solver]|]. split.
  - intros (id & j & Hj & Hp%bool_decide_eq_true)%count_pos_inv. split; [done|]. by exists id, j.
  - intros (_ & id & j & Hj & Ht). eapply count_pos; [done|]. by apply bool_decide_eq_true.
Qed.
End tubes.
