(* ===== verification/Scan.v ===== *)
(** * What a scan of the log directory finds

    Every file is a view: blank (its creation was interrupted), foreign (not
    a segment of this version), or a header, a run of records and a tail at
    which no record starts.  [scan] applies the records of all segments in
    order, and refuses exactly a foreign file, a malformed record, and a
    record after a torn tail. *)

From S2P Require Import Prelude Ms Proto Stats Parse Reply Model Format Snapshot Replay.
From stdpp Require Import options.

(** ** Segment names *)
Lemma strip_prefix_Some p l rest : strip_prefix p l = Some rest ↔ l = p ++ rest.
Proof.
  unfold strip_prefix. case_bool_decide as Hp; split.
  - intros [= <-]. by rewrite <-Hp at 1; rewrite take_drop.
  - intros ->. by rewrite drop_app_length.
  - done.
  - intros ->. by rewrite take_app_length in Hp.
Qed.
Lemma digit_char b : is_digit b = true → pretty_N_char (byte_N b - 48) = b ∧ (48 ≤ byte_N b < 58)%N.
Proof. destruct b as [[] [] [] [] [] [] [] []]; cbn; try done; intros _; (split; [done|]); cbn; lia. Qed.
(** Digits without a leading zero are the decimal form of their value. *)
Lemma dec_go_digits l s :
  digits l → l ≠ [] → head l ≠ Some "0"%char → bs (pretty_N_go (dec_value l) s) = l ++ bs s ∧ (0 < dec_value l)%N.
Proof.
  revert s. induction l as [|d l IH] using rev_ind; [done|]. intros s Hd _ Hh. unfold digits in Hd.
  rewrite Forall_app, Forall_singleton in Hd. destruct Hd as [Hl Hd].
  destruct (digit_char _ Hd) as [Hc Hb]. rewrite dec_value_snoc. set (k := (byte_N d - 48)%N) in *. assert (k < 10)%N as Hk by lia.
  assert (0 < dec_value l * 10 + k ∧ bs (pretty_N_go (dec_value l) (String d s)) = l ++ bs (String d s))%N as [Hpos Hgo].
  { destruct l as [|x l].
    - split; [|by rewrite pretty_N_go_0]. assert (d ≠ "0"%char) as Hne by (intros ->; by apply Hh).
      assert (k ≠ 0)%N as Hk0; [|cbn; lia]. intros Hk0. apply Hne. by rewrite <-Hc, Hk0.
    - destruct (IH (String d s) Hl ltac:(done) Hh) as [Hgo Hv]. split; [lia|done]. }
  rewrite pretty_N_go_step by done. split; [|done].
  assert ((dec_value l * 10 + k) `div` 10 = dec_value l)%N as -> by (symmetry; apply (N.div_unique _ 10 _ k); lia).
  assert ((dec_value l * 10 + k) `mod` 10 = k)%N as -> by (symmetry; apply (N.mod_unique _ 10 (dec_value l)); lia).
  by rewrite Hc, Hgo, <-(assoc_L (++)).
Qed.
Lemma dec_no_zero n : (0 < n)%N → head (bs (dec n)) ≠ Some "0"%char.
Proof.
  intros Hn. unfold dec, pretty, pretty_N. rewrite decide_False by lia.
  assert (∀ m s, (0 < m)%N → ∃ d t, bs (pretty_N_go m s) = d :: t ∧ d ≠ "0"%char) as H.
  { intros m. induction (N.lt_wf_0 m) as [m _ IH]; intros s Hm. rewrite pretty_N_go_step by done.
    destruct (decide (m < 10)%N) as [Hlt|Hge].
    - rewrite N.div_small, N.mod_small, pretty_N_go_0 by done. exists (pretty_N_char m), (bs s). split; [done|].
      assert (m = 1 ∨ m = 2 ∨ m = 3 ∨ m = 4 ∨ m = 5 ∨ m = 6 ∨ m = 7 ∨ m = 8 ∨ m = 9)%N as Hc by lia.
      by repeat destruct Hc as [->|Hc]; subst.
    - apply IH; [apply N.div_lt; lia|]. apply N.div_str_pos. lia. }
  destruct (H n EmptyString Hn) as (d & t & -> & Hd). by intros [= ->].
Qed.
Lemma bs_inj s t : bs s = bs t → s = t.
Proof.
  intros H. rewrite <-(Strings.String.string_of_list_ascii_of_string s), <-(Strings.String.string_of_list_ascii_of_string t).
  by f_equal.
Qed.
Lemma forallb_Forall {A} (f : A → bool) l : forallb f l = true ↔ Forall (λ x, f x = true) l.
Proof. rewrite forallb_forall, Forall_forall. by setoid_rewrite list_elem_of_In. Qed.
(** The names [scan] takes for segments are the names the log gives them. *)
Lemma segment_index_Some name n :
  segment_index name = Some n ↔ (1 ≤ n ≤ u64_max)%N ∧ name = segment_path n.
Proof.
  unfold segment_index, segment_path. split.
  - intros (l & Hl%strip_prefix_Some & H)%bind_Some. destruct (_ || _) eqn:Hb; [done|].
    apply orb_false_iff in Hb as [[Hne%bool_decide_eq_false Hd%negb_false_iff]%orb_false_iff Hz%bool_decide_eq_false].
    apply forallb_Forall in Hd. destruct (dec_go_digits l EmptyString Hd Hne Hz) as [Hgo Hpos].
    destruct (N.ltb_spec u64_max (dec_value l)); [done|]. destruct (N.leb_spec 1 (dec_value l)); [|done]. injection H as <-.
    split; [done|]. apply bs_inj. rewrite bs_app, Hl. f_equal. unfold dec, pretty, pretty_N. rewrite decide_False by lia.
    by rewrite Hgo, app_nil_r.
  - intros [Hn ->]. rewrite bs_app, (proj2 (strip_prefix_Some _ _ _) eq_refl). cbn [mbind option_bind].
    destruct (dec_digits n) as (Hd & Hv & Hne). rewrite (bool_decide_eq_false_2 (_ = [])) by done.
    rewrite (proj2 (forallb_Forall _ _) Hd), bool_decide_eq_false_2, Hv by (apply dec_no_zero; lia). cbn [negb orb].
    by rewrite (proj2 (N.ltb_ge _ _)), (proj2 (N.leb_le _ _)) by lia.
Qed.

(** ** Views of files *)
Section views.
Context (record_crc : Bytes → Bytes → N) (Hcrc : ∀ l p, (record_crc l p < 2 ^ 32)%N).

Definition header_ok (h : Bytes) : Prop :=
  length h = SEG_HEADER_LEN ∧ take 8 h = MAGIC ∧ from_le_bytes (take 4 (drop 8 h)) = VERSION.
Definition blank (b : Bytes) : bool := (length b <? SEG_HEADER_LEN)%nat || forallb is_zero (take SEG_HEADER_LEN b).
(** A record the log can hold. *)
Definition fits (r : Rec) : Prop := rec_ok r ∧ (N.of_nat (length (payload_of r)) < 2 ^ 32)%N.
Definition image (recs : list Rec) : Bytes := recs ≫= λ r, framed record_crc (payload_of r).
Inductive view :=
  | Blank (index : N) (bytes : Bytes)
  | Foreign (index : N) (bytes : Bytes)
  | Segment (index : N) (header : Bytes) (recs : list Rec) (tail : Bytes).
Definition v_file (v : view) : N * Bytes :=
  match v with
  | Blank i b | Foreign i b => (i, b)
  | Segment i h recs tail => (i, h ++ image recs ++ tail)
  end.
Definition v_ok (v : view) : Prop :=
  match v with
  | Blank _ b => blank b = true
  | Foreign _ b => blank b = false ∧ ¬ header_ok (take SEG_HEADER_LEN b)
  | Segment _ h recs tail =>
      header_ok h ∧ Forall fits recs ∧ ∀ r n, parse_at record_crc tail 0 ≠ Parsed.Record r n
  end.
Definition v_recs (v : view) : list Rec := match v with Segment _ _ recs _ => recs | _ => [] end.
(** How the tail of a file ends: cleanly, torn at an offset, or beyond
    repair. *)
Definition v_end (v : view) : Torn + ScanError :=
  match v with
  | Blank i b => inl (if existsb (λ b, negb (is_zero b)) b then Some (i, SEG_HEADER_LEN) else None)
  | Foreign _ _ => inr Corrupt
  | Segment i _ recs tail =>
      let pos := SEG_HEADER_LEN + length (image recs) in
      match parse_at record_crc tail 0 with
      | Parsed.End_ => inl (if existsb (λ b, negb (is_zero b)) tail then Some (i, pos) else None)
      | Parsed.Bad _ => inl (Some (i, pos))
      | _ => inr Corrupt
      end
  end.
Fixpoint locate (index : N) (pos : nat) (recs : list Rec) : list Located :=
  match recs with [] => [] | r :: recs => (index, pos, r) :: locate index (pos + rec_len r) recs end.
Definition v_located (v : view) : list Located := locate (v_file v).1 SEG_HEADER_LEN (v_recs v).
Definition v_scanned (v : view) : ScannedSeg :=
  let '(i, b) := v_file v in
  match v with
  | Segment _ _ recs _ => mkScannedSeg i (length b) (SEG_HEADER_LEN + length (image recs)) (negb (bool_decide (recs = [])))
  | _ => mkScannedSeg i (length b) 0 false
  end.
(** No record after a torn tail, and nothing beyond repair. *)
Fixpoint accepts (torn : Torn) (vs : list view) : option Torn :=
  match vs with
  | [] => Some torn
  | v :: vs =>
      if bool_decide (torn ≠ None ∧ v_recs v ≠ []) then None
      else
        match v_end v with
        | inl t => accepts (match torn with None => t | Some _ => torn end) vs
        | inr _ => None
        end
  end.

Lemma parse_at_drop buf pos : parse_at record_crc buf pos = parse_at record_crc (drop pos buf) 0.
Proof. done. Qed.
Lemma parse_fits buf pos r suf :
  fits r → drop pos buf = framed record_crc (payload_of r) ++ suf → parse_at record_crc buf pos = Parsed.Record r (rec_len r).
Proof using Hcrc.
  intros [Hok Hlt] Hd. rewrite (parse_framed record_crc Hcrc _ _ _ _ Hd Hlt (payload_nonempty r)).
  by rewrite (proj2 (decode_payload_inl _ _) (conj Hok eq_refl)), length_framed.
Qed.
Lemma rec_len_framed r : length (framed record_crc (payload_of r)) = rec_len r.
Proof. apply length_framed. Qed.
Lemma image_cons r recs : image (r :: recs) = framed record_crc (payload_of r) ++ image recs.
Proof. done. Qed.
Lemma image_app l l' : image (l ++ l') = image l ++ image l'.
Proof. apply bind_app. Qed.
Lemma length_image_ge recs : length recs ≤ length (image recs).
Proof.
  induction recs as [|r recs IH]; [done|]. rewrite image_cons, length_app, rec_len_framed. unfold rec_len, REC_HEADER_LEN. cbn. lia.
Qed.
Lemma locate_app i pos l l' : locate i pos (l ++ l') = locate i pos l ++ locate i (pos + length (image l)) l'.
Proof.
  revert pos. induction l as [|r l IH]; intros pos; cbn [app locate]; [by rewrite Nat.add_0_r|].
  rewrite IH, image_cons, length_app, rec_len_framed. do 3 f_equal. lia.
Qed.
Lemma locate_recs i pos l : loc_rec <$> locate i pos l = l.
Proof. revert pos. induction l as [|r l IH]; intros pos; [done|]. cbn. by rewrite IH. Qed.

Lemma scan_records_image fuel buf index pos has torn s recs tail :
  drop pos buf = image recs ++ tail → Forall fits recs → (torn ≠ None → recs = []) → tl_ok (rs_tubes s) →
  scan_records record_crc (length recs + fuel) buf index pos has torn s =
    scan_records record_crc fuel buf index (pos + length (image recs)) (has || negb (bool_decide (recs = []))) torn
      (replayed s (locate index pos recs)).
Proof using Hcrc.
  revert pos has s. induction recs as [|r recs IH]; intros pos has s Hd Hf Ht Hs.
  { cbn. by rewrite Nat.add_0_r, orb_false_r. }
  apply Forall_cons in Hf as [Hr Hf]. destruct torn as [t|]; [by specialize (Ht ltac:(done))|].
  cbn [length Nat.add scan_records]. rewrite image_cons, <-(assoc_L (++)) in Hd. rewrite (parse_fits _ _ _ _ Hr Hd), applied_apply by done.
  rewrite IH; [|by rewrite <-drop_drop, Hd, <-(rec_len_framed r), drop_app_length|done|done|by apply applied_ok].
  cbn [locate replayed foldl]. rewrite image_cons, length_app, rec_len_framed, Nat.add_assoc. by rewrite orb_true_r.
Qed.
Lemma header_check h b : length h = SEG_HEADER_LEN → header_ok h ↔ take 8 (h ++ b) = MAGIC ∧ from_le_bytes (take 4 (drop 8 (h ++ b))) = VERSION.
Proof.
  intros Hl. unfold header_ok, SEG_HEADER_LEN in *. rewrite take_app_le, drop_app_le, take_app_le by (rewrite ?length_drop; lia). naive_solver.
Qed.
Lemma header_take b :
  SEG_HEADER_LEN ≤ length b → header_ok (take SEG_HEADER_LEN b) ↔ take 8 b = MAGIC ∧ from_le_bytes (take 4 (drop 8 b)) = VERSION.
Proof.
  intros Hl. rewrite (header_check _ (drop SEG_HEADER_LEN b)); [by rewrite take_drop|]. rewrite length_take. lia.
Qed.
Lemma header_not_blank h b : header_ok h → blank (h ++ b) = false.
Proof.
  intros (Hl & Hm & _). unfold blank. apply orb_false_iff. split.
  - apply Nat.ltb_ge. rewrite length_app. lia.
  - apply not_true_iff_false. rewrite forallb_Forall. rewrite take_app_length' by done. intros Hz. apply (Forall_take _ 8) in Hz.
    rewrite Hm in Hz. by inversion Hz.
Qed.

(** ** The scan of a list of views *)
Lemma scan_segment_view segs torn s v :
  v_ok v → tl_ok (rs_tubes s) →
  scan_segment record_crc (segs, torn, s) (v_file v) =
    if bool_decide (torn ≠ None ∧ v_recs v ≠ []) then inr Corrupt
    else
      match v_end v with
      | inl t => inl (segs ++ [v_scanned v], (match torn with None => t | Some _ => torn end), replayed s (v_located v))
      | inr _ => inr Corrupt
      end.
Proof using Hcrc.
  intros Hv Hs. destruct v as [i b|i b|i h recs tail]; cbn [v_file v_recs v_end] in *.
  - rewrite bool_decide_eq_false_2 by naive_solver. unfold scan_segment. fold (blank b). rewrite Hv. unfold v_scanned, note_torn. cbn.
    by destruct (existsb _ b), torn.
  - rewrite bool_decide_eq_false_2 by naive_solver. destruct Hv as [Hb Hh]. unfold scan_segment. fold (blank b). rewrite Hb.
    unfold blank in Hb. apply orb_false_iff in Hb as [Hb%Nat.ltb_ge _]. rewrite header_take in Hh by done.
    case_bool_decide as Hm; [done|]. destruct (N.eqb_spec (from_le_bytes (take 4 (drop 8 b))) VERSION) as [He|]; [|done].
    by destruct Hh.
  - destruct Hv as (Hh & Hf & Htail). unfold scan_segment. fold (blank (h ++ image recs ++ tail)). rewrite header_not_blank by done.
    pose proof (proj1 (header_check h (image recs ++ tail) ltac:(apply Hh)) Hh) as [Hm Hver].
    rewrite bool_decide_eq_false_2, Hver, N.eqb_refl by (by intros ?). cbn [negb].
    assert (drop SEG_HEADER_LEN (h ++ image recs ++ tail) = image recs ++ tail) as Hd by (apply drop_app_length'; symmetry; apply Hh).
    case_bool_decide as Ht.
    + destruct Ht as [Ht Hr]. destruct torn as [t|]; [|done]. destruct recs as [|r recs]; [done|].
      rewrite length_app, (proj1 Hh). cbn [Nat.add SEG_HEADER_LEN scan_records].
      apply Forall_cons in Hf as [Hr' Hf]. rewrite image_cons, <-(assoc_L (++)) in Hd |- *.
      by rewrite (parse_fits _ _ _ _ Hr' Hd).
    + assert (∃ fuel, length (h ++ image recs ++ tail) = length recs + S fuel) as [fuel Hfuel].
      { exists (15 + (length (image recs) - length recs) + length tail). rewrite !length_app, (proj1 Hh). pose proof (length_image_ge recs).
        unfold SEG_HEADER_LEN. lia. }
      rewrite Hfuel at 1. rewrite (scan_records_image _ _ _ _ _ _ _ _ _ Hd Hf) by (done || (intros ?; apply dec_stable; naive_solver)).
      cbn [scan_records]. set (p := SEG_HEADER_LEN + length (image recs)).
      assert (drop p (h ++ image recs ++ tail) = tail) as Hdt by (unfold p; by rewrite <-drop_drop, Hd, drop_app_length).
      rewrite parse_at_drop, Hdt. unfold v_scanned, v_located, note_torn. cbn [v_file v_recs fst orb]. fold p.
      destruct (parse_at record_crc tail 0) as [|r n|why|why] eqn:Hp; [|by destruct (Htail r n)| |done].
      * by destruct (existsb _ tail), torn.
      * by destruct torn.
Qed.
Lemma scan_segments_views segs torn s vs :
  Forall v_ok vs → tl_ok (rs_tubes s) →
  scan_segments record_crc (segs, torn, s) (v_file <$> vs) =
    match accepts torn vs with
    | Some torn' => inl (segs ++ (v_scanned <$> vs), torn', replayed s (vs ≫= v_located))
    | None => inr Corrupt
    end.
Proof using Hcrc.
  revert segs torn s. induction vs as [|v vs IH]; intros segs torn s Hok Hs; [cbn; by rewrite app_nil_r|].
  apply Forall_cons in Hok as [Hv Hok]. cbn [fmap list_fmap scan_segments accepts]. rewrite scan_segment_view by done.
  case_bool_decide; [done|]. destruct (v_end v) as [t|]; [|done]. rewrite IH by (done || by apply replayed_ok).
  destruct (accepts _ vs); [|done]. cbn [mbind list_bind]. rewrite <-(assoc_L (++)). unfold replayed. by rewrite foldl_app.
Qed.

(** ** Every file has a view *)
Lemma split_records b :
  ∃ recs tail, b = image recs ++ tail ∧ Forall fits recs ∧ ∀ r n, parse_at record_crc tail 0 ≠ Parsed.Record r n.
Proof using Hcrc.
  remember (length b) as k eqn:Hk. revert b Hk. induction (Nat.lt_wf_0 k) as [k _ IH]. intros b ->.
  destruct (parse_at record_crc b 0) as [|r n|why|why] eqn:Hp;
    try (exists [], b; split_and!; [done|constructor|by rewrite Hp]).
  apply (parse_Record record_crc Hcrc) in Hp as (bytes & suf & Hok & He & -> & Hd). rewrite drop_0 in Hd. subst b.
  rewrite (encode_rec_frame record_crc) in He by done. apply frame_Some in He as [Hlt ->].
  destruct (IH (length suf)) with (b := suf) as (recs & tail & -> & Hf & Ht); [|done|].
  - rewrite length_app, length_framed. unfold REC_HEADER_LEN. lia.
  - exists (r :: recs), tail. rewrite image_cons, (assoc_L (++)). split_and!; [done| |done]. by constructor.
Qed.
Lemma view_exists i b : ∃ v, v_ok v ∧ v_file v = (i, b).
Proof using Hcrc.
  destruct (blank b) eqn:Hb; [by exists (Blank i b)|]. assert (SEG_HEADER_LEN ≤ length b) as Hl.
  { unfold blank in Hb. by apply orb_false_iff in Hb as [Hb%Nat.ltb_ge _]. }
  destruct (decide (take 8 b = MAGIC ∧ from_le_bytes (take 4 (drop 8 b)) = VERSION)) as [Hh|Hh]; rewrite <-header_take in Hh by done.
  - destruct (split_records (drop SEG_HEADER_LEN b)) as (recs & tail & Hd & Hf & Ht).
    exists (Segment i (take SEG_HEADER_LEN b) recs tail). split; [done|]. cbn. by rewrite <-Hd, take_drop.
  - by exists (Foreign i b).
Qed.
Lemma views_exist files : ∃ vs, Forall v_ok vs ∧ v_file <$> vs = files.
Proof using Hcrc.
  induction files as [|[i b] files (vs & Hok & <-)]; [by exists []|]. destruct (view_exists i b) as (v & Hv & Hf).
  exists (v :: vs). split; [by constructor|]. cbn. by rewrite Hf.
Qed.

(** The result of a scan. *)
Definition scan_of (torn : Torn) (vs : list view) : Scan :=
  let s := replayed ReplayState_default (vs ≫= v_located) in
  mkScan (v_scanned <$> vs) (default 0%N (last (fst ∘ v_file <$> vs))) (rs_jobs s) (N.max (sat_add64 (rs_max_id s) 1) 1)
    (tl_order (rs_tubes s)) torn.
Lemma scan_views vs :
  Forall v_ok vs →
  scan_files record_crc (v_file <$> vs) =
    match accepts None vs with Some torn => inl (scan_of torn vs) | None => inr Corrupt end.
Proof using Hcrc.
  intros Hok. unfold scan_files. rewrite scan_segments_views by (done || apply tl_ok_default).
  destruct (accepts None vs); [|done]. unfold scan_of. by rewrite <-list_fmap_compose.
Qed.
Definition all_recs (vs : list view) : list Rec := vs ≫= v_recs.
Lemma all_located vs : loc_rec <$> (vs ≫= v_located) = all_recs vs.
Proof.
  unfold all_recs. induction vs as [|v vs IH]; [done|].
  change (loc_rec <$> (v_located v ++ (vs ≫= v_located)) = v_recs v ++ (vs ≫= v_recs)). by rewrite fmap_app, IH, <-(locate_recs (v_file v).1 SEG_HEADER_LEN (v_recs v)) at 1.
Qed.
Lemma views_fit vs : Forall v_ok vs → Forall fits (loc_rec <$> (vs ≫= v_located)).
Proof.
  rewrite all_located. induction 1 as [|v vs Hv _ IH]; [constructor|]. cbn. apply Forall_app. split; [|done]. destruct v; [constructor..|apply Hv].
Qed.
Lemma scan_live torn vs : job_of <$> sc_jobs (scan_of torn vs) = live_run ∅ (all_recs vs).
Proof.
  pose proof (replayed_live ReplayState_default (vs ≫= v_located) tl_ok_default) as H. unfold live_of in H. cbn in H |- *.
  rewrite H, all_located. by rewrite fmap_empty.
Qed.
End views.
