(* ===== verification/Wal.v ===== *)
(** * The open log: [crates/store/src/wal.rs]

    The directory is a finite map from segment numbers to bytes; the names
    are those of [segment_path].  An operation runs in a small monad over the
    state of [Inner] and the world: the files, the log of what was done to
    them, each entry with the files after it, and the faults that allocation
    is going to meet.  Allocation is the one step whose failure the code
    survives; any other failure of the file system ends the process, and the
    log has the files at that moment.  A panic, and a subtraction below zero,
    are the error [Panic].  Sizes and offsets are [nat]. *)

From S2P Require Import Prelude Ms Proto Stats Parse Reply Model Format Snapshot Replay.
From stdpp Require Import options.

Definition BLOCK : N := 4096.
Definition MAX_FILE_SIZE : N := 2 ^ 32.
Definition MAX_SEGMENT_INDEX : N := 2 ^ 62.

Module SyncPolicy.
Inductive SyncPolicy := Always | Interval (every : Nanos) | Never.
End SyncPolicy.
Abbreviation SyncPolicy := SyncPolicy.SyncPolicy (only parsing).
#[export] Instance SyncPolicy_eq : EqDecision SyncPolicy.
Proof. solve_decision. Defined.
Module WalError.
Inductive WalError := Locked | Io | Corrupt | Panic.
End WalError.
Abbreviation WalError := WalError.WalError (only parsing).

(** ** The state *)
Record Seg := mkSeg {
  s_index : N; s_size : nat; s_written : nat; s_anchors : nat; s_puts : list (JobId * nat); s_file : bool;
}.
#[export] Instance Seg_eta : Eta Seg := λ s,
  mkSeg (s_index s) (s_size s) (s_written s) (s_anchors s) (s_puts s) (s_file s).
#[export] Instance s_size_set : Setter s_size := ltac:(derive_setter).
#[export] Instance s_written_set : Setter s_written := ltac:(derive_setter).
#[export] Instance s_anchors_set : Setter s_anchors := ltac:(derive_setter).
#[export] Instance s_puts_set : Setter s_puts := ltac:(derive_setter).
#[export] Instance s_file_set : Setter s_file := ltac:(derive_setter).

Record JobEntry := mkJobEntry {
  je_record : JobRecord; je_seg : N; je_off : nat; je_put_len : nat; je_used : nat;
}.

Record Inner := mkInner {
  w_policy : SyncPolicy; w_seg_size : nat; w_limit : option nat;
  w_segs : list Seg; w_cur : nat; w_next_index : N;
  w_jobs : gmap JobId JobEntry; w_live_bytes : nat; w_disk_total : nat;
  w_pending_puts : nat; w_pending_bytes : nat;
  w_buf : Bytes; w_buf_start : nat; w_unsynced : bool; w_last_sync : option Nanos; w_reader : option N;
  w_records_written : N; w_records_migrated : N;
}.
#[export] Instance Inner_eta : Eta Inner := λ w,
  mkInner (w_policy w) (w_seg_size w) (w_limit w) (w_segs w) (w_cur w) (w_next_index w) (w_jobs w) (w_live_bytes w)
    (w_disk_total w) (w_pending_puts w) (w_pending_bytes w) (w_buf w) (w_buf_start w) (w_unsynced w) (w_last_sync w)
    (w_reader w) (w_records_written w) (w_records_migrated w).
#[export] Instance w_segs_set : Setter w_segs := ltac:(derive_setter).
#[export] Instance w_cur_set : Setter w_cur := ltac:(derive_setter).
#[export] Instance w_next_index_set : Setter w_next_index := ltac:(derive_setter).
#[export] Instance w_jobs_set : Setter w_jobs := ltac:(derive_setter).
#[export] Instance w_live_bytes_set : Setter w_live_bytes := ltac:(derive_setter).
#[export] Instance w_disk_total_set : Setter w_disk_total := ltac:(derive_setter).
#[export] Instance w_pending_puts_set : Setter w_pending_puts := ltac:(derive_setter).
#[export] Instance w_pending_bytes_set : Setter w_pending_bytes := ltac:(derive_setter).
#[export] Instance w_buf_set : Setter w_buf := ltac:(derive_setter).
#[export] Instance w_buf_start_set : Setter w_buf_start := ltac:(derive_setter).
#[export] Instance w_unsynced_set : Setter w_unsynced := ltac:(derive_setter).
#[export] Instance w_last_sync_set : Setter w_last_sync := ltac:(derive_setter).
#[export] Instance w_reader_set : Setter w_reader := ltac:(derive_setter).
#[export] Instance w_records_written_set : Setter w_records_written := ltac:(derive_setter).
#[export] Instance w_records_migrated_set : Setter w_records_migrated := ltac:(derive_setter).

(** ** The directory *)
Abbreviation Disk := (gmap N Bytes).
Inductive FileOp :=
  | Create (seg : N)
  | Write_ (seg : N) (off : nat) (bytes : Bytes)
  | SetLen (seg : N) (len : nat)
  | Remove (seg : N)
  | Sync (seg : N)
  | DirSync.
Definition zeros (n : nat) : Bytes := replicate n zero.
(** [write_all_at]: past the end the gap is zero. *)
Definition splice (off : nat) (bytes f : Bytes) : Bytes :=
  take off f ++ zeros (off - length f) ++ bytes ++ drop (off + length bytes) f.
Definition do_op (op : FileOp) (d : Disk) : Disk :=
  match op with
  | Create i => <[i := []]> d
  | Write_ i off bytes => alter (splice off bytes) i d
  | SetLen i len => alter (λ f, take len f ++ zeros (len - length f)) i d
  | Remove i => delete i d
  | Sync _ | DirSync => d
  end.
Definition disk_files (d : Disk) : list (N * Bytes) := sort_by_key fst (map_to_list d).

(** What the next allocations meet; none is left when the list is empty. *)
Inductive Fault :=
  | NoFault
  | OpenFails                (** the file cannot be created *)
  | WriteFails (k : nat)     (** the file system is full after k writes *)
  | DirSyncFails.
Record World := mkWorld { d_files : Disk; d_log : list (FileOp * Disk); d_faults : list Fault }.

(** ** The monad *)
Abbreviation St := (Inner * World)%type.
Definition M (A : Type) : Type := St → (A + WalError) * St.
Definition ret {A} (a : A) : M A := λ st, (inl a, st).
Definition throw {A} (e : WalError) : M A := λ st, (inr e, st).
Definition bind {A B} (m : M A) (k : A → M B) : M B :=
  λ st, match m st with (inl a, st) => k a st | (inr e, st) => (inr e, st) end.
Definition get : M Inner := λ st, (inl st.1, st).
Definition modify (f : Inner → Inner) : M () := λ st, (inl (), (f st.1, st.2)).
Definition io (op : FileOp) : M () := λ st,
  let d := do_op op (d_files st.2) in
  (inl (), (st.1, mkWorld d ((op, d) :: d_log st.2) (d_faults st.2))).
Definition file_of (i : N) : M (option Bytes) := λ st, (inl (d_files st.2 !! i), st).
Definition next_fault : M Fault := λ st,
  match d_faults st.2 with
  | [] => (inl NoFault, st)
  | f :: fs => (inl f, (st.1, mkWorld (d_files st.2) (d_log st.2) fs))
  end.
(** [.is_err()]: the error of a call as a value. *)
Definition try_ {A} (m : M A) : M (option A) :=
  λ st, match m st with (inl a, st) => (inl (Some a), st) | (inr _, st) => (inl None, st) end.
Definition when_ (b : bool) (m : M ()) : M () := if b then m else ret ().
Definition unwrap {A} (e : WalError) (o : option A) : M A := match o with Some a => ret a | None => throw e end.
Definition sub_ (a b : nat) : M nat := if (a <? b)%nat then throw WalError.Panic else ret (a - b).
Notation "'let!' p := m 'in' k" := (bind m (λ x, match x with p => k end))
  (at level 10, p pattern, m at level 100, k at level 200) : bstk_scope.
Notation "m ;; k" := (bind m (λ _, k)) (at level 100, k at level 200, right associativity) : bstk_scope.

(** Reduces projections of updated records. *)
Ltac inn :=
  cbn [
    set_field s_size_set s_written_set s_anchors_set s_puts_set s_file_set w_segs_set w_cur_set
    w_next_index_set w_jobs_set w_live_bytes_set w_disk_total_set w_pending_puts_set w_pending_bytes_set
    w_buf_set w_buf_start_set w_unsynced_set w_last_sync_set w_reader_set w_records_written_set
    w_records_migrated_set s_index s_size s_written s_anchors s_puts s_file w_policy w_seg_size w_limit w_segs
    w_cur w_next_index w_jobs w_live_bytes w_disk_total w_pending_puts w_pending_bytes w_buf w_buf_start
    w_unsynced w_last_sync w_reader w_records_written w_records_migrated fst snd d_files d_log d_faults].
Ltac inn_in H :=
  cbn [
    set_field s_size_set s_written_set s_anchors_set s_puts_set s_file_set w_segs_set w_cur_set
    w_next_index_set w_jobs_set w_live_bytes_set w_disk_total_set w_pending_puts_set w_pending_bytes_set
    w_buf_set w_buf_start_set w_unsynced_set w_last_sync_set w_reader_set w_records_written_set
    w_records_migrated_set s_index s_size s_written s_anchors s_puts s_file w_policy w_seg_size w_limit w_segs
    w_cur w_next_index w_jobs w_live_bytes w_disk_total w_pending_puts w_pending_bytes w_buf w_buf_start
    w_unsynced w_last_sync w_reader w_records_written w_records_migrated fst snd d_files d_log d_faults] in H.
(** The states and segments of a goal, field by field. *)
Ltac inner_all :=
  repeat match goal with w : Inner |- _ => destruct w | c : Seg |- _ => destruct c end;
  cbv [
    set_field s_size_set s_written_set s_anchors_set s_puts_set s_file_set w_segs_set w_cur_set
    w_next_index_set w_jobs_set w_live_bytes_set w_disk_total_set w_pending_puts_set w_pending_bytes_set
    w_buf_set w_buf_start_set w_unsynced_set w_last_sync_set w_reader_set w_records_written_set
    w_records_migrated_set s_index s_size s_written s_anchors s_puts s_file w_policy w_seg_size w_limit w_segs
    w_cur w_next_index w_jobs w_live_bytes w_disk_total w_pending_puts w_pending_bytes w_buf w_buf_start
    w_unsynced w_last_sync w_reader w_records_written w_records_migrated] in *.

(** ** Accounting *)
Definition capacity (w : Inner) : nat := w_seg_size w - SEG_HEADER_LEN.
Definition future_count (w : Inner) : nat := length (w_segs w) - 1 - w_cur w.
Definition reserved (w : Inner) : nat := DELETE_REC_LEN * (size (w_jobs w) + w_pending_puts w) + w_pending_bytes w.
Definition avail (w : Inner) : nat :=
  match w_segs w !! w_cur w with
  | Some c => s_size c - s_written c + future_count w * capacity w
  | None => 0
  end.
Definition slack (w : Inner) : nat := DELETE_REC_LEN * (future_count w + 1) + w_pending_bytes w.
Definition disk_bytes (w : Inner) : nat := w_disk_total w.

(** ** Allocation *)
(** The chunks of [preallocate] after the header. *)
Definition ZEROS : nat := N.to_nat 65536.
Fixpoint chunks (fuel left : nat) : list Bytes :=
  match fuel with
  | O => []
  | S fuel => if (left =? 0)%nat then [] else let n := Nat.min left ZEROS in zeros n :: chunks fuel (left - n)
  end.
Fixpoint write_chunks (i : N) (off : nat) (budget : option nat) (cs : list Bytes) : M bool :=
  match cs with
  | [] => ret true
  | c :: cs =>
      match budget with
      | Some O => ret false
      | Some (S k) => io (Write_ i off c);; write_chunks i (off + length c) (Some k) cs
      | None => io (Write_ i off c);; write_chunks i (off + length c) None cs
      end
  end.
Definition preallocate (i : N) (size : nat) (budget : option nat) : M bool :=
  let left := size - SEG_HEADER_LEN in
  write_chunks i 0 budget (segment_header :: chunks left left).
Definition allocate : M () :=
  let! w := get in
  if match w_limit w with Some limit => (limit <? disk_bytes w + w_seg_size w)%nat | None => false end then throw WalError.Io
  else
    let index := w_next_index w in
    if (u64_max <? index + 1)%N then throw WalError.Io
    else
      let! fault := next_fault in
      let! old := file_of index in
      if match fault with OpenFails => true | _ => false end || bool_decide (is_Some old) then throw WalError.Io
      else
        io (Create index);;
        modify (λ w, w <| w_next_index := (index + 1)%N |>);;
        let! ok := preallocate index (w_seg_size w) (match fault with WriteFails k => Some k | _ => None end) in
        if negb ok then io (Remove index);; throw WalError.Io
        else
          (if bool_decide (w_policy w ≠ SyncPolicy.Never) then
             if match fault with DirSyncFails => true | _ => false end then throw WalError.Io else io DirSync
           else ret ());;
          modify (λ w, w <| w_disk_total ::= λ t, t + w_seg_size w |>
            <| w_segs ::= (.++ [mkSeg index (w_seg_size w) SEG_HEADER_LEN 0 [] true]) |>).

(** The loop of [ensure_room]: [avail] grows faster than [slack]. *)
Definition need (n : nat) (spare : bool) (w : Inner) : nat :=
  reserved w + n + slack w + (if spare then capacity w else 0).
Fixpoint ensure_room_loop (fuel : nat) (n : nat) (spare : bool) : M bool :=
  let! w := get in
  if (need n spare w <=? avail w)%nat then ret true
  else
    match fuel with
    | O => throw WalError.Panic
    | S fuel =>
        let! r := try_ allocate in
        match r with None => ret false | Some _ => ensure_room_loop fuel n spare end
    end.
Definition ensure_room (n : nat) (spare : bool) : M bool :=
  let! w := get in
  ensure_room_loop (need n spare w) n spare.

Definition reserve_put (tube_len body_len : nat) : M bool :=
  let put := put_rec_len tube_len body_len in
  let! w := get in
  if (capacity w <? put)%nat then ret false
  else
    modify (λ w, w <| w_pending_bytes ::= λ b, b + put |>);;
    let! ok := ensure_room DELETE_REC_LEN true in
    let! w := get in
    let! pb := sub_ (w_pending_bytes w) put in
    modify (λ w, w <| w_pending_bytes := pb |>);;
    when_ ok (modify (λ w, w <| w_pending_puts ::= S |> <| w_pending_bytes ::= λ b, b + put |>));;
    ret ok.

(** ** Writing *)
Definition seg_at (p : nat) : M Seg := let! w := get in unwrap WalError.Panic (w_segs w !! p).
Definition upd_seg (p : nat) (f : Seg → Seg) : M () := modify (λ w, w <| w_segs ::= alter f p |>).

Definition flush : M () :=
  let! w := get in
  if bool_decide (w_buf w = []) then ret ()
  else
    let! c := seg_at (w_cur w) in
    if negb (s_file c) then throw WalError.Io
    else
      io (Write_ (s_index c) (w_buf_start w) (w_buf w));;
      modify (λ w, w <| w_buf_start ::= λ b, b + length (w_buf w) |> <| w_buf := [] |> <| w_unsynced := true |>).
Definition sync_cur : M () :=
  let! w := get in
  let! c := seg_at (w_cur w) in
  when_ (s_file c) (io (Sync (s_index c)));;
  modify (λ w, w <| w_unsynced := false |>).
Definition sync_unless_never : M () :=
  let! w := get in
  when_ (w_unsynced w && bool_decide (w_policy w ≠ SyncPolicy.Never)) sync_cur.
(** The end of [roll]: the current segment is cut to its records. *)
Definition next_segment : M () :=
  let! w := get in
  let! c := seg_at (w_cur w) in
  upd_seg (w_cur w) (λ c, c <| s_file := false |>);;
  when_ (s_file c && (s_written c <? s_size c)%nat)
    (io (SetLen (s_index c) (s_written c));;
     let! t := sub_ (w_disk_total w) (s_size c - s_written c) in
     modify (λ w, w <| w_disk_total := t |>);;
     upd_seg (w_cur w) (λ c, c <| s_size := s_written c |>));;
  modify (λ w, w <| w_cur ::= S |>);;
  let! n := seg_at (S (w_cur w)) in
  modify (λ w, w <| w_buf_start := s_written n |> <| w_unsynced := false |>).
Definition roll : M () :=
  flush;;
  sync_unless_never;;
  let! w := get in
  when_ (length (w_segs w) <=? w_cur w + 1)%nat allocate;;
  next_segment.
(** The end of [place]: the current segment grows, past its size if it must. *)
Definition extend (len : nat) : M nat :=
  let! w := get in
  let! c := seg_at (w_cur w) in
  let written := s_written c + len in
  upd_seg (w_cur w) (λ c, c <| s_written := written |>);;
  when_ (s_size c <? written)%nat
    (modify (λ w, w <| w_disk_total ::= λ t, t + (written - s_size c) |>);;
     upd_seg (w_cur w) (λ c, c <| s_size := written |>));;
  ret (s_written c).
Definition place (len : nat) : M nat :=
  let! w := get in
  let! c := seg_at (w_cur w) in
  when_ ((SEG_HEADER_LEN <? s_written c)%nat && (s_size c <? s_written c + len)%nat) roll;;
  extend len.

Definition seg_pos (index : N) (w : Inner) : option nat :=
  fst <$> list_find (λ s, s_index s = index) (w_segs w).
Definition unanchor (seg : N) : M () :=
  let! w := get in
  match seg_pos seg w with
  | Some p =>
      let! s := seg_at p in
      let! a := sub_ (s_anchors s) 1 in
      upd_seg p (λ s, s <| s_anchors := a |>)
  | None => ret ()
  end.
Definition anchor (id : JobId) (off : nat) : M N :=
  let! w := get in
  let! c := seg_at (w_cur w) in
  upd_seg (w_cur w) (λ c, c <| s_anchors ::= S |> <| s_puts ::= (.++ [(id, off)]) |>);;
  ret (s_index c).

Section crc.
Context (record_crc : Bytes → Bytes → N).

(** A record that cannot be encoded is an I/O error. *)
Definition buffer (bytes : option Bytes) : M () :=
  let! b := unwrap WalError.Io bytes in
  modify (λ w, w <| w_buf ::= (.++ b) |>).
Definition append_entry (e : JournalEntry) : M () :=
  match e with
  | JournalEntry.Put record tube body =>
      let len := put_rec_len (length (bs tube)) (length body) in
      let! w := get in
      when_ (0 <? w_pending_puts w)%nat
        (modify (λ w, w <| w_pending_puts ::= Nat.pred |> <| w_pending_bytes ::= λ b, b - len |>));;
      let! off := place len in
      buffer (encode_put record_crc record tube body);;
      let! seg := anchor (r_id record) off in
      let! w := get in
      let old := w_jobs w !! r_id record in
      modify (λ w, w <| w_jobs ::= <[r_id record := mkJobEntry record seg off len len]> |>
        <| w_live_bytes ::= λ b, b + len |>);;
      match old with
      | Some old =>
          let! w := get in
          let! b := sub_ (w_live_bytes w) (je_used old) in
          modify (λ w, w <| w_live_bytes := b |>);;
          unanchor (je_seg old)
      | None => ret ()
      end
  | JournalEntry.Update record =>
      place UPDATE_REC_LEN;;
      buffer (encode_update record_crc record);;
      let! w := get in
      match w_jobs w !! r_id record with
      | Some j =>
          modify (λ w, w <| w_jobs ::=
              <[r_id record := mkJobEntry record (je_seg j) (je_off j) (je_put_len j) (je_used j + UPDATE_REC_LEN)]> |>
            <| w_live_bytes ::= λ b, b + UPDATE_REC_LEN |>)
      | None => ret ()
      end
  | JournalEntry.Delete id =>
      place DELETE_REC_LEN;;
      buffer (encode_delete record_crc id);;
      let! w := get in
      match w_jobs w !! id with
      | Some j =>
          modify (λ w, w <| w_jobs ::= delete id |>);;
          let! b := sub_ (w_live_bytes w) (je_used j) in
          modify (λ w, w <| w_live_bytes := b |>);;
          unanchor (je_seg j)
      | None => ret ()
      end
  end.
Fixpoint append_entries (es : list JournalEntry) : M () :=
  match es with
  | [] => ret ()
  | e :: es =>
      append_entry e;;
      modify (λ w, w <| w_records_written ::= incr64 |>);;
      append_entries es
  end.
Definition append (es : list JournalEntry) : M () :=
  append_entries es;;
  modify (λ w, w <| w_pending_puts := 0 |> <| w_pending_bytes := 0 |>);;
  flush;;
  let! w := get in
  when_ (bool_decide (w_policy w = SyncPolicy.Always) && w_unsynced w) sync_cur.
Definition sync_if_due (now : Nanos) : M () :=
  let! w := get in
  match w_policy w with
  | SyncPolicy.Interval every =>
      if negb (w_unsynced w) then ret ()
      else if match w_last_sync w with Some last => (now - last <? every)%N | None => false end then ret ()
      else modify (λ w, w <| w_last_sync := Some now |>);; sync_cur
  | _ => ret ()
  end.

(** ** Compaction *)
Definition ratio (w : Inner) : nat :=
  let live := w_live_bytes w + reserved w in
  if (live =? 0)%nat then 0 else (disk_bytes w - live) / live.
(** The search for the oldest segment that anchors a job. *)
Fixpoint find_anchor (fuel from : nat) : M (option nat) :=
  match fuel with
  | O => throw WalError.Panic
  | S fuel =>
      let! w := get in
      if (w_cur w <? from + 2)%nat then ret None
      else
        let! s := seg_at from in
        if (0 <? s_anchors s)%nat then ret (Some from) else find_anchor fuel (S from)
  end.
(** Entries of moved or deleted jobs are dropped from the front. *)
Fixpoint front_put (jobs : gmap JobId JobEntry) (seg : N) (puts : list (JobId * nat)) : option (JobId * list (JobId * nat)) :=
  match puts with
  | [] => None
  | (id, off) :: rest =>
      match jobs !! id with
      | Some j => if bool_decide (je_seg j = seg ∧ je_off j = off) then Some (id, puts) else front_put jobs seg rest
      | None => front_put jobs seg rest
      end
  end.
Definition read_at (seg : N) (off len : nat) : M Bytes :=
  let! w := get in
  (if bool_decide (w_reader w = Some seg) then ret ()
   else
     unwrap WalError.Io (seg_pos seg w);;
     let! f := file_of seg in
     unwrap WalError.Io f;;
     modify (λ w, w <| w_reader := Some seg |>));;
  let! f := file_of seg in
  let! f := unwrap WalError.Io f in
  if (length f <? off + len)%nat then throw WalError.Io else ret (take len (drop off f)).
(** The end of [move_one]: the job's Put goes to the current segment. *)
Definition rewrite_put (p : nat) (id : JobId) (j : JobEntry) (rec : Bytes) : M () :=
  let len := je_put_len j in
  let! new_off := place len in
  modify (λ w, w <| w_buf ::= (.++ rec) |>);;
  let! new_seg := anchor id new_off in
  let! s := seg_at p in
  let! a := sub_ (s_anchors s) 1 in
  upd_seg p (λ s, s <| s_anchors := a |> <| s_puts ::= drop 1 |>);;
  let! w := get in
  let! b := sub_ (w_live_bytes w) (je_used j) in
  modify (λ w, w <| w_live_bytes := b + len |>
    <| w_jobs ::= alter (λ j, mkJobEntry (je_record j) new_seg new_off (je_put_len j) len) id |>
    <| w_records_written ::= incr64 |> <| w_records_migrated ::= incr64 |>).
Definition move_one (from : nat) : M (bool * nat) :=
  let! w := get in
  let! found := find_anchor (S (length (w_segs w))) from in
  match found with
  | None => ret (false, from)
  | Some p =>
      let! s := seg_at p in
      let seg_index := s_index s in
      match front_put (w_jobs w) seg_index (s_puts s) with
      | None => upd_seg p (λ s, s <| s_puts := [] |>);; throw WalError.Corrupt
      | Some (id, puts) =>
          upd_seg p (λ s, s <| s_puts := puts |>);;
          match w_jobs w !! id with
          | None => ret (false, p)
          | Some j =>
              let len := je_put_len j in
              let! room := ensure_room len true in
              if negb room then ret (false, p)
              else
                let! rec := read_at seg_index (je_off j) len in
                if match parse_at record_crc rec 0 with
                   | Parsed.Record (Rec.Put _ _ _) l => (l =? len)%nat
                   | _ => false
                   end
                then rewrite_put p id j (restamp_put record_crc rec (je_record j));; ret (true, p)
                else throw WalError.Corrupt
          end
      end
  end.
Fixpoint gc_loop (fuel : nat) (removed : bool) : M bool :=
  match fuel with
  | O => throw WalError.Panic
  | S fuel =>
      let! w := get in
      if (w_cur w =? 0)%nat then ret removed
      else
        let! s := seg_at 0 in
        if (0 <? s_anchors s)%nat then ret removed
        else
          when_ (negb removed) (flush;; sync_unless_never);;
          let! w := get in
          let! t := sub_ (w_disk_total w) (s_size s) in
          modify (λ w, w <| w_segs ::= drop 1 |> <| w_cur ::= Nat.pred |> <| w_disk_total := t |>
            <| w_reader ::= λ r, if bool_decide (r = Some (s_index s)) then None else r |>);;
          io (Remove (s_index s));;
          gc_loop fuel true
  end.
Definition gc : M () :=
  let! w := get in
  let! removed := gc_loop (S (length (w_segs w))) false in
  let! w := get in
  when_ (removed && bool_decide (w_policy w = SyncPolicy.Always)) (io DirSync).
(** At most [moves] jobs are moved. *)
Fixpoint move_loop (moves from : nat) : M () :=
  match moves with
  | O => ret ()
  | S moves =>
      let! r := move_one from in
      match r with (true, from) => move_loop moves from | _ => ret () end
  end.
Definition maintain : M () :=
  let! w := get in
  let r := ratio w in
  when_ (2 <=? r)%nat (move_loop (r - 1) 0;; flush);;
  gc.
Definition stats (w : Inner) : option BinlogStats :=
  c ← w_segs w !! w_cur w;
  Some (mkBinlogStats (from_option s_index 0%N (head (w_segs w))) (s_index c) (w_records_written w) (w_records_migrated w)).

(** ** Opening *)
Definition segment_size (file_size : N) : option nat :=
  let size := ((N.max file_size 1 + (BLOCK - 1)) / BLOCK * BLOCK)%N in
  if (u64_max <? size)%N then None else if (size <=? MAX_FILE_SIZE)%N then Some (N.to_nat size) else None.
(** The files after a replay: a segment without records is removed, one with
    records ends where they end. *)
Fixpoint fix_files (segs : list ScannedSeg) (changed : bool) : M (list Seg * bool) :=
  match segs with
  | [] => ret ([], changed)
  | s :: segs =>
      if negb (sg_has_records s) then io (Remove (sg_index s));; fix_files segs true
      else
        when_ (sg_valid_end s <? sg_file_len s)%nat (io (SetLen (sg_index s) (sg_valid_end s));; io (Sync (sg_index s)));;
        let! (rest, changed) := fix_files segs changed in
        ret (mkSeg (sg_index s) (sg_valid_end s) (sg_valid_end s) 0 [] false :: rest, changed)
  end.
Definition entry_of (j : ReplayJob) : JobEntry := mkJobEntry (p_record j) (p_seg j) (p_off j) (p_put_len j) (p_used j).
Definition anchored (jobs : gmap JobId ReplayJob) : list (N * nat * JobId) :=
  sort_by_key id ((λ kj, (p_seg kj.2, p_off kj.2, kj.1)) <$> map_to_list jobs).
Definition add_anchor (segs : list Seg) (a : N * nat * JobId) : list Seg :=
  let '(seg, off, id) := a in
  match list_find (λ s, s_index s = seg) segs with
  | Some (p, _) => alter (λ s, s <| s_anchors ::= S |> <| s_puts ::= (.++ [(id, off)]) |>) p segs
  | None => segs
  end.
Definition sum_of {A} (f : A → nat) (m : gmap JobId A) : nat := sum_list (f ∘ snd <$> map_to_list m).
Definition recovered (jobs : gmap JobId ReplayJob) : list RecoveredJob :=
  job_of <$> sort_by_key p_order (snd <$> map_to_list jobs).

Definition open_body (policy : SyncPolicy) (seg_size : nat) (limit : option nat) (sc : Scan) : M Recovery :=
  let! (segs, changed) := fix_files (sc_segs sc) false in
  when_ changed (io DirSync);;
  let segs := foldl add_anchor segs (anchored (sc_jobs sc)) in
  modify (λ _, mkInner policy seg_size limit segs 0 (sc_max_index sc + 1) (entry_of <$> sc_jobs sc)
    (sum_of p_used (sc_jobs sc)) (sum_list (s_size <$> segs)) 0 0 [] SEG_HEADER_LEN false None None 0 0);;
  allocate;;
  modify (λ w, w <| w_cur := length (w_segs w) - 1 |>);;
  let! room := ensure_room 0 false in
  if negb room then throw WalError.Io
  else gc;; ret (mkRecovery (recovered (sc_jobs sc)) (sc_next_id sc) (sc_tube_order sc)).
(** The state before the segments are known. *)
Definition Inner_blank (policy : SyncPolicy) (seg_size : nat) (limit : option nat) : Inner :=
  mkInner policy seg_size limit [] 0 0 ∅ 0 0 0 0 [] SEG_HEADER_LEN false None None 0 0.
(** [Inner::open] on a directory; [locked] when another process holds it. *)
Definition open (locked : bool) (file_size : N) (policy : SyncPolicy) (limit : option nat) (wd : World)
    : (Recovery + WalError) * St :=
  match segment_size file_size with
  | None => (inr WalError.Io, (Inner_blank policy 0 limit, wd))
  | Some seg_size =>
      let st := (Inner_blank policy seg_size limit, wd) in
      if locked then (inr WalError.Locked, st)
      else
        match scan_files record_crc (disk_files (d_files wd)) with
        | inr Corrupt => (inr WalError.Corrupt, st)
        | inr Panic => (inr WalError.Panic, st)
        | inl sc =>
            if (MAX_SEGMENT_INDEX <? sc_max_index sc)%N then (inr WalError.Corrupt, st)
            else open_body policy seg_size limit sc st
        end
  end.
End crc.
