(* ===== verification/WalDisk.v ===== *)
(** * What the files of an open log hold

    A program logic for the monad of [Wal], in which a triple also bounds
    the files at every step on the way ([wp]), and the contents of a
    directory: which records its segments hold, and that a scan finds
    exactly those. *)

From S2P Require Import Prelude Ms Proto Stats Parse Reply Model Format Snapshot Replay Scan Wal.
From stdpp Require Import options.

(** ** Triples *)
Section wp.
Context {A B : Type}.
Implicit Types (C : Disk → Prop) (E : WalError → St → Prop) (st : St).

(** [m] from [st] does only steps whose files satisfy [C], and ends in [Q]
    or, with an error, in [E]. *)
Definition wp (m : M A) C (Q : A → St → Prop) E st : Prop :=
  (∃ new, d_log (m st).2.2 = new ++ d_log st.2 ∧ Forall (λ x, C x.2) new) ∧
  match (m st).1 with inl a => Q a (m st).2 | inr e => E e (m st).2 end.
Lemma wp_ret a C Q E st : Q a st → wp (ret a) C Q E st.
Proof. intros HQ. split; [by exists []|done]. Qed.
Lemma wp_throw e C (Q : A → St → Prop) E st : E e st → wp (throw e) C Q E st.
Proof. intros HQ. split; [by exists []|done]. Qed.
Lemma wp_conseq (m : M A) C C' (Q Q' : A → St → Prop) E E' st :
  wp m C Q E st → (∀ d, C d → C' d) → (∀ a st', Q a st' → Q' a st') → (∀ e st', E e st' → E' e st') → wp m C' Q' E' st.
Proof.
  intros [(new & Hl & Hc) Hr] HC HQ HE. split.
  - exists new. split; [done|]. eapply Forall_impl; [done|]. naive_solver.
  - destruct (m st).1; auto.
Qed.
Lemma wp_mono (m : M A) C (Q Q' : A → St → Prop) E st :
  wp m C Q E st → (∀ a st', Q a st' → Q' a st') → wp m C Q' E st.
Proof. intros H HQ. eapply wp_conseq; [exact H|auto..]. Qed.
End wp.
Section wp_rules.
Implicit Types (C : Disk → Prop) (E : WalError → St → Prop) (st : St).
Lemma wp_bind {A B} (m : M A) (k : A → M B) C Q E st :
  wp m C (λ a, wp (k a) C Q E) E st → wp (bind m k) C Q E st.
Proof.
  intros [(new & Hl & Hc) Hr]. unfold wp, bind. destruct (m st) as [[a|e] st1]; cbn in *; [|eauto].
  destruct Hr as [(new' & Hl' & Hc') Hr]. split; [|done]. exists (new' ++ new). rewrite Hl', Hl, (assoc_L (++)).
  split; [done|]. by apply Forall_app.
Qed.
Lemma wp_get (C : Disk → Prop) Q E st : Q st.1 st → wp get C Q E st.
Proof. intros HQ. split; [by exists []|done]. Qed.
Lemma wp_modify f C (Q : () → St → Prop) E st : Q () (f st.1, st.2) → wp (modify f) C Q E st.
Proof. intros HQ. split; [by exists []|done]. Qed.
Lemma wp_io op C (Q : () → St → Prop) E st :
  let d := do_op op (d_files st.2) in
  C d → Q () (st.1, mkWorld d ((op, d) :: d_log st.2) (d_faults st.2)) → wp (io op) C Q E st.
Proof. intros d HC HQ. split; [|done]. exists [(op, d)]. split; [done|]. by repeat constructor. Qed.
Lemma wp_file_of i C Q E st : Q (d_files st.2 !! i) st → wp (file_of i) C Q E st.
Proof. intros HQ. split; [by exists []|done]. Qed.
Lemma wp_next_fault C Q E st :
  (∀ f fs, Q f (st.1, mkWorld (d_files st.2) (d_log st.2) fs)) → wp next_fault C Q E st.
Proof.
  intros HQ. unfold wp, next_fault. destruct st as [w [d l [|f fs]]]; cbn in *; split; try (by exists []); apply HQ.
Qed.
Lemma wp_try {A} (m : M A) C Q E st :
  wp m C (λ a, Q (Some a)) (λ _, Q None) st → wp (try_ m) C Q E st.
Proof. intros [Hl Hr]. unfold wp, try_. by destruct (m st) as [[a|e] st1]. Qed.
Lemma wp_when b m C Q E st : (b = true → wp m C Q E st) → (b = false → Q () st) → wp (when_ b m) C Q E st.
Proof. destruct b; [auto|]. intros _ HQ. apply wp_ret; auto. Qed.
Lemma wp_unwrap {A} e (o : option A) a C Q E st : o = Some a → Q a st → wp (unwrap e o) C Q E st.
Proof. intros -> HQ. by apply wp_ret. Qed.
Lemma wp_sub a b C Q E st : b ≤ a → Q (a - b) st → wp (sub_ a b) C Q E st.
Proof. intros Hle HQ. unfold sub_. rewrite (proj2 (Nat.ltb_ge _ _)) by done. by apply wp_ret. Qed.
Lemma wp_seg_at p s C Q E st : w_segs st.1 !! p = Some s → Q s st → wp (seg_at p) C Q E st.
Proof. intros Hp HQ. unfold seg_at. apply wp_bind, wp_get. cbn. by eapply wp_unwrap. Qed.
Lemma wp_upd_seg p f C Q E st : Q () (st.1 <| w_segs ::= alter f p |>, st.2) → wp (upd_seg p f) C Q E st.
Proof. apply wp_modify. Qed.
End wp_rules.

(** ** Zeros *)
Lemma length_zeros n : length (zeros n) = n.
Proof. apply length_replicate. Qed.
Lemma zeros_add n m : zeros (n + m) = zeros n ++ zeros m.
Proof. apply replicate_add. Qed.
Lemma zeros_none n : existsb (λ b, negb (is_zero b)) (zeros n) = false.
Proof. induction n as [|n IH]; [done|exact IH]. Qed.
Lemma zeros_all n : forallb is_zero (zeros n) = true.
Proof. induction n as [|n IH]; [done|exact IH]. Qed.
Lemma from_le_zeros n : from_le_bytes (zeros n) = 0%N.
Proof. induction n as [|n IH]; cbn [zeros replicate from_le_bytes]; [done|]. fold (zeros n). rewrite IH. done. Qed.
Lemma parse_zeros record_crc n : parse_at record_crc (zeros n) 0 = Parsed.End_.
Proof.
  unfold parse_at. rewrite drop_0. destruct (_ <? _)%nat eqn:Hl.
  - by rewrite (zeros_all n : forallb (λ b, bool_decide (b = zero)) (zeros n) = true).
  - apply Nat.ltb_ge in Hl. rewrite length_zeros in Hl. unfold REC_HEADER_LEN in Hl.
    assert (zeros n = zeros 4 ++ zeros (n - 4)) as -> by (rewrite <-zeros_add; f_equal; lia).
    by rewrite take_app_length', from_le_zeros by done.
Qed.

(** ** Increasing lists of keys *)
Lemma bind_filter_nil {A B} (P : A → Prop) `{∀ x, Decision (P x)} (g : A → list B) l :
  (∀ x, x ∈ l → ¬ P x → g x = []) → l ≫= g = filter P l ≫= g.
Proof.
  induction l as [|x l IH]; intros Hg; [done|]. rewrite filter_cons. case_decide as Hp; cbn.
  - f_equal. apply IH. intros y Hy. apply Hg. by right.
  - rewrite (Hg x) by (done || by left). apply IH. intros y Hy. apply Hg. by right.
Qed.
Lemma filter_sub_sorted (K K' : list N) :
  StronglySorted N.lt K → StronglySorted N.lt K' → (∀ k, k ∈ K' → k ∈ K) → filter (.∈ K') K = K'.
Proof.
  intros HK HK' Hsub. apply (StronglySorted_unique_strong N.lt).
  - intros x y _ _ ? ?. lia.
  - clear Hsub. induction HK as [|k K HK IH Hk]; [constructor|]. rewrite filter_cons. case_decide; [|done]. constructor; [done|].
    apply Forall_forall. intros y [_ Hy]%list_elem_of_filter. by eapply Forall_forall in Hk.
  - done.
  - assert (∀ L, StronglySorted N.lt L → NoDup L) as Hnd.
    { induction 1 as [|k L HL IH Hk]; constructor; [|done]. intros Hin. eapply Forall_forall in Hk; [|done]. lia. }
    apply NoDup_Permutation; [by apply NoDup_filter, Hnd|by apply Hnd|]. intros x. rewrite list_elem_of_filter. naive_solver.
Qed.
Lemma bind_sorted {B} (K K' : list N) (g : N → list B) :
  StronglySorted N.lt K → StronglySorted N.lt K' → (∀ k, k ∈ K' → k ∈ K) → (∀ k, k ∈ K → k ∉ K' → g k = []) →
  K ≫= g = K' ≫= g.
Proof.
  intros HK HK' Hsub Hg. rewrite (bind_filter_nil (.∈ K')) by done. by rewrite filter_sub_sorted.
Qed.

(** ** The contents of a directory *)
Abbreviation Content := (list (N * list Rec)).
Definition located (C : Content) : list Located := C ≫= λ ir, locate ir.1 SEG_HEADER_LEN ir.2.
Definition all_of (C : Content) : list Rec := C ≫= snd.
Lemma located_recs C : loc_rec <$> located C = all_of C.
Proof.
  unfold located, all_of. induction C as [|[i recs] C IH]; [done|].
  change (loc_rec <$> (locate i SEG_HEADER_LEN recs ++ (C ≫= λ ir, locate ir.1 SEG_HEADER_LEN ir.2)) = recs ++ (C ≫= snd)).
  rewrite fmap_app, IH. f_equal. apply locate_recs.
Qed.

Section content.
Context (record_crc : Bytes → Bytes → N) (Hcrc : ∀ l p, (record_crc l p < 2 ^ 32)%N).
#[local] Abbreviation image := (image record_crc).
Implicit Types (d : Disk) (C : Content).

(** A segment with its records, and a file without records. *)
Definition seg_file (recs : list Rec) (f : Bytes) : Prop := ∃ h k, header_ok h ∧ f = h ++ image recs ++ zeros k.
Definition idle (f : Bytes) : Prop := f = [] ∨ seg_file [] f.
Record holds d C : Prop := {
  ho_sorted : StronglySorted N.lt C.*1;
  ho_segs : ∀ i recs, (i, recs) ∈ C → ∃ f, d !! i = Some f ∧ seg_file recs f;
  ho_idle : ∀ i f, d !! i = Some f → i ∉ C.*1 → idle f;
  ho_fits : Forall fits (all_of C);
}.

Lemma header_ok_segment : header_ok segment_header.
Proof. done. Qed.
Lemma seg_file_view i recs f :
  Forall fits recs → seg_file recs f →
  ∃ v, v_file record_crc v = (i, f) ∧ v_ok record_crc v ∧ v_end record_crc v = inl None ∧ v_recs v = recs.
Proof.
  intros Hf (h & k & Hh & ->). exists (Segment i h recs (zeros k)). cbn. rewrite parse_zeros, zeros_none. done.
Qed.
Lemma idle_view i f :
  idle f → ∃ v, v_file record_crc v = (i, f) ∧ v_ok record_crc v ∧ v_end record_crc v = inl None ∧ v_recs v = [].
Proof.
  intros [->|Hf]; [by exists (Blank i [])|]. apply seg_file_view; [constructor|done].
Qed.
Lemma idle_header k : idle (segment_header ++ zeros k).
Proof. right. by exists segment_header, k. Qed.
Lemma accepts_clean vs : Forall (λ v, v_end record_crc v = inl None) vs → accepts record_crc None vs = Some None.
Proof.
  induction 1 as [|v vs Hv _ IH]; [done|].
  cbn [accepts]. rewrite bool_decide_eq_false_2 by naive_solver. by rewrite Hv.
Qed.
Lemma disk_files_sorted d : StronglySorted N.lt (disk_files d).*1.
Proof.
  unfold disk_files. assert (ascending fst (sort_by_key fst (map_to_list d))) as H by apply sort_ascending, NoDup_fst_map_to_list.
  unfold ascending in H. induction H as [|x l Hl IH Hx]; cbn; constructor; [done|].
  apply Forall_fmap. eapply Forall_impl; [done|]. intros y Hy. by apply N_olt.
Qed.
Lemma elem_of_disk_files d i f : (i, f) ∈ disk_files d ↔ d !! i = Some f.
Proof. unfold disk_files. by rewrite sort_by_key_perm, elem_of_map_to_list. Qed.
Lemma content_lookup C i recs : StronglySorted N.lt C.*1 → (i, recs) ∈ C → (list_to_map C : gmap N (list Rec)) !! i = Some recs.
Proof.
  intros Hs Hin. apply elem_of_list_to_map; [|done]. clear Hin. induction Hs as [|k K HK IH Hk]; constructor; [|done].
  intros Hin. eapply Forall_forall in Hk; [|done]. lia.
Qed.
(** The views of a directory: clean segments with the content's records. *)
Lemma holds_views d C :
  holds d C → ∃ vs, v_file record_crc <$> vs = disk_files d ∧ Forall (v_ok record_crc) vs ∧
    accepts record_crc None vs = Some None ∧ vs ≫= v_located record_crc = located C ∧
    Forall (λ v, v_end record_crc v = inl None) vs.
Proof using Hcrc.
  intros [Hs Hsegs Hidle Hfits]. set (m := list_to_map C : gmap N (list Rec)).
  set (recs := λ i, default [] (m !! i)).
  assert (∀ i f, d !! i = Some f → ∃ v, v_file record_crc v = (i, f) ∧ v_ok record_crc v ∧ v_end record_crc v = inl None ∧ v_recs v = recs i) as Hv.
  { intros i f Hd. unfold recs. destruct (decide (i ∈ C.*1)) as [Hin|Hno].
    - apply list_elem_of_fmap in Hin as ([i' rs] & -> & Hin). cbn in *. unfold m. rewrite (content_lookup _ _ _ Hs Hin).
      destruct (Hsegs _ _ Hin) as (f' & Hf' & Hseg). assert (f' = f) as -> by congruence. apply seg_file_view; [|done].
      apply Forall_forall. intros r Hr. rewrite Forall_forall in Hfits. apply Hfits, list_elem_of_bind. by exists (i', rs).
    - unfold m. rewrite not_elem_of_list_to_map_1 by done. by eapply idle_view, Hidle. }
  assert (∃ vs, v_file record_crc <$> vs = disk_files d ∧ Forall (v_ok record_crc) vs ∧ Forall (λ v, v_end record_crc v = inl None) vs ∧
    vs ≫= v_located record_crc = (disk_files d).*1 ≫= λ i, locate i SEG_HEADER_LEN (recs i)) as (vs & Hf & Hok & He & Hl).
  { assert (∀ i f, (i, f) ∈ disk_files d → d !! i = Some f) as Hd by (intros; by apply elem_of_disk_files).
    induction (disk_files d) as [|[i f] l IH]; [exists []; repeat split; constructor|].
    destruct IH as (vs & Hf & Hok & He & Hl); [intros; apply Hd; by right|]. destruct (Hv i f) as (v & Hvf & Hvo & Hve & Hvr); [apply Hd; by left|].
    exists (v :: vs). split_and!; [by cbn; rewrite Hvf, Hf|by constructor|by constructor|]. cbn. rewrite Hl. f_equal.
    unfold v_located. by rewrite Hvf, Hvr. }
  exists vs. split_and!; [done|done|by apply accepts_clean| |done]. rewrite Hl.
  rewrite (bind_sorted _ C.*1); [|apply disk_files_sorted|done| |].
  - unfold located, recs, m. clear -Hs. assert (∀ ir, ir ∈ C → (list_to_map C : gmap N (list Rec)) !! ir.1 = Some ir.2) as Hm
      by (intros [i rs] Hin; by apply content_lookup).
    generalize dependent (list_to_map C : gmap N (list Rec)). intros m Hm. clear Hs. induction C as [|ir C IH]; [done|]. cbn.
    rewrite Hm by by left. cbn. f_equal. apply IH. intros ir' Hin. apply Hm. by right.
  - intros k (ir & -> & Hin)%list_elem_of_fmap. destruct ir as [i rs]. destruct (Hsegs _ _ Hin) as (f & Hd & _).
    apply list_elem_of_fmap. exists (i, f). split; [done|]. by apply elem_of_disk_files.
  - intros k _ Hno. unfold recs, m. by rewrite not_elem_of_list_to_map_1.
Qed.
End content.
