(* ===== verification/WalFiles.v ===== *)
(** * The segments of an open log and their files

    The ghost [G] says which records each segment's file holds; [B] are the
    records in the write buffer.  Closed segments end with their records, the
    current one continues with zeros, spares have no record.  [flush],
    [allocate], [roll] and [place] keep this, and every directory on the way
    holds the records of [G] or those of [G] and [B]. *)

From S2P Require Import Prelude Ms Proto Stats Parse Reply Model Format Snapshot Replay Scan Wal WalDisk.
From stdpp Require Import options.

#[global] Arguments segment_header : simpl never.
#[global] Arguments zeros : simpl never.
#[global] Arguments splice : simpl never.
#[global] Arguments SEG_HEADER_LEN : simpl never.
#[global] Arguments all_of : simpl never.
#[global] Arguments located : simpl never.

Record Ghost := mkGhost { g_closed : Content; g_index : N; g_recs : list Rec; g_spares : list N }.
Definition content (G : Ghost) : Content :=
  g_closed G ++ (g_index G, g_recs G) :: ((λ i, (i, [])) <$> g_spares G).
(** The buffered records written. *)
Definition pushed (G : Ghost) (B : list Rec) : Ghost := mkGhost (g_closed G) (g_index G) (g_recs G ++ B) (g_spares G).
Definition keys (G : Ghost) : list N := (content G).*1.
#[global] Arguments content : simpl never.
#[global] Arguments keys : simpl never.
Ltac gho := cbn [pushed g_closed g_index g_recs g_spares].
Ltac gho_in H := cbn [pushed g_closed g_index g_recs g_spares] in H.
Lemma keys_eq G : keys G = (g_closed G).*1 ++ g_index G :: g_spares G.
Proof. unfold keys, content. rewrite fmap_app. cbn [fmap list_fmap fst]. by rewrite <-list_fmap_compose, list_fmap_id. Qed.
Lemma keys_push G B : keys (pushed G B) = keys G.
Proof. by rewrite !keys_eq. Qed.
Lemma push_nil G : pushed G [] = G.
Proof. destruct G. unfold pushed. cbn. by rewrite app_nil_r. Qed.
Lemma push_push G B B' : pushed (pushed G B) B' = pushed G (B ++ B').
Proof. unfold pushed. cbn. by rewrite (assoc_L (++)). Qed.
Lemma all_of_app C C' : all_of (C ++ C') = all_of C ++ all_of C'.
Proof. apply bind_app. Qed.
Lemma all_of_spares l : all_of ((λ i, (i, [])) <$> l) = [].
Proof. unfold all_of. induction l as [|i l IH]; [done|exact IH]. Qed.
Lemma all_of_content G : all_of (content G) = all_of (g_closed G) ++ g_recs G.
Proof.
  unfold content. rewrite all_of_app. f_equal. change (g_recs G ++ all_of ((λ i, (i, [])) <$> g_spares G) = g_recs G).
  by rewrite all_of_spares, app_nil_r.
Qed.
Lemma all_of_push G B : all_of (content (pushed G B)) = all_of (content G) ++ B.
Proof. rewrite !all_of_content. cbn. by rewrite (assoc_L (++)). Qed.
Lemma located_app C C' : located (C ++ C') = located C ++ located C'.
Proof. apply bind_app. Qed.
Lemma located_spares l : located ((λ i, (i, [])) <$> l) = [].
Proof. unfold located. induction l as [|i l IH]; [done|exact IH]. Qed.
Lemma located_content G :
  located (content G) = located (g_closed G) ++ locate (g_index G) SEG_HEADER_LEN (g_recs G).
Proof.
  unfold content. rewrite located_app. f_equal.
  change (locate (g_index G) SEG_HEADER_LEN (g_recs G) ++ located ((λ i, (i, [])) <$> g_spares G) = locate (g_index G) SEG_HEADER_LEN (g_recs G)).
  by rewrite located_spares, app_nil_r.
Qed.

Section files.
Context (record_crc : Bytes → Bytes → N).
#[local] Abbreviation image := (image record_crc).
#[local] Abbreviation holds := (holds record_crc).
#[local] Abbreviation idle := (idle record_crc).
Implicit Types (d : Disk) (G : Ghost) (B : list Rec) (st : St) (w : Inner).

Definition closed_seg d (s : Seg) (ir : N * list Rec) : Prop :=
  s_index s = ir.1 ∧ s_written s = SEG_HEADER_LEN + length (image ir.2) ∧ s_size s = s_written s ∧
  ∃ h, header_ok h ∧ d !! ir.1 = Some (h ++ image ir.2).
Definition cur_seg d G B (buf : Bytes) (buf_start : nat) (s : Seg) : Prop :=
  s_index s = g_index G ∧ s_file s = true ∧ s_written s = SEG_HEADER_LEN + length (image (g_recs G ++ B)) ∧
  buf = image B ∧ buf_start = SEG_HEADER_LEN + length (image (g_recs G)) ∧
  ∃ k, d !! g_index G = Some (segment_header ++ image (g_recs G) ++ zeros k) ∧
    s_size s = Nat.max (buf_start + k) (s_written s).
Definition spare_seg d (seg_size : nat) (s : Seg) (i : N) : Prop :=
  s_index s = i ∧ s_file s = true ∧ s_written s = SEG_HEADER_LEN ∧ s_size s = seg_size ∧
  d !! i = Some (segment_header ++ zeros (seg_size - SEG_HEADER_LEN)).
Definition Segs d G B w : Prop :=
  ∃ cl c sp, w_segs w = cl ++ c :: sp ∧ w_cur w = length cl ∧ Forall2 (closed_seg d) cl (g_closed G) ∧
    cur_seg d G B (w_buf w) (w_buf_start w) c ∧ Forall2 (spare_seg d (w_seg_size w)) sp (g_spares G).
Record Files G B st : Prop := {
  fi_segs : Segs (d_files st.2) G B st.1;
  fi_sorted : StronglySorted N.lt (keys G);
  fi_next : ∀ i, is_Some (d_files st.2 !! i) → (i < w_next_index st.1)%N;
  fi_idle : ∀ i f, d_files st.2 !! i = Some f → i ∉ keys G → idle f;
  fi_fits : Forall fits (all_of (content G) ++ B);
  fi_total : w_disk_total st.1 = sum_list (s_size <$> w_segs st.1);
  fi_size : 4096 ≤ w_seg_size st.1;
}.

(** ** Frames *)
Lemma closed_frame d d' cl C :
  (∀ i, i ∈ C.*1 → d' !! i = d !! i) → Forall2 (closed_seg d) cl C → Forall2 (closed_seg d') cl C.
Proof.
  intros Hd H. induction H as [|s ir cl C (? & ? & ? & h & Hh & Hf) _ IH]; [constructor|]. constructor.
  - split_and!; [done..|]. exists h. split; [done|]. rewrite Hd; [done|]. by left.
  - apply IH. intros i Hi. apply Hd. by right.
Qed.
Lemma spare_frame d d' n sp l :
  (∀ i, i ∈ l → d' !! i = d !! i) → Forall2 (spare_seg d n) sp l → Forall2 (spare_seg d' n) sp l.
Proof.
  intros Hd H. induction H as [|s i sp l (? & ? & ? & ? & Hf) _ IH]; [constructor|]. constructor.
  - split_and!; try done. rewrite Hd; [done|]. by left.
  - apply IH. intros j Hj. apply Hd. by right.
Qed.
Lemma sorted_mid (l r : list N) x : StronglySorted N.lt (l ++ x :: r) → x ∉ l ∧ x ∉ r.
Proof.
  induction l as [|y l IH]; cbn; intros H; inversion H as [|? ? Hs Hy]; subst.
  - split; [apply not_elem_of_nil|]. intros Hin. eapply Forall_forall in Hy; [|done]. lia.
  - destruct (IH Hs) as [Hl Hr]. split; [|done]. intros [->|Hin]%elem_of_cons; [|done].
    rewrite Forall_app, Forall_cons in Hy. lia.
Qed.
Lemma index_not_closed G : StronglySorted N.lt (keys G) → g_index G ∉ (g_closed G).*1 ∧ g_index G ∉ g_spares G.
Proof. rewrite keys_eq. apply sorted_mid. Qed.

(** ** The contents of the directory *)
Lemma Files_holds G B st : Files G B st → holds (d_files st.2) (content G).
Proof.
  intros [(cl & c & sp & _ & _ & Hcl & Hc & Hsp) Hs _ Hidle Hf _ _]. constructor.
  - done.
  - intros i recs. unfold content. rewrite elem_of_app, elem_of_cons, list_elem_of_fmap. intros [Hin|[[= -> ->]|(j & [= -> ->] & Hin)]].
    + apply list_elem_of_lookup in Hin as [p Hp]. destruct (Forall2_lookup_r _ _ _ _ _ Hcl Hp) as (s & _ & (_ & _ & _ & h & Hh & Hd)).
      eexists. split; [exact Hd|]. exists h, 0. split; [done|]. cbn. by rewrite app_nil_r.
    + destruct Hc as (_ & _ & _ & _ & _ & k & Hd & _). eexists. split; [exact Hd|]. by exists segment_header, k.
    + apply list_elem_of_lookup in Hin as [p Hp]. destruct (Forall2_lookup_r _ _ _ _ _ Hsp Hp) as (s & _ & (_ & _ & _ & _ & Hd)).
      eexists. split; [exact Hd|]. by eexists segment_header, _.
  - done.
  - by apply Forall_app in Hf as [Hf _].
Qed.
Lemma holds_spare d C i : holds d (C ++ [(i, [])]) → holds d C.
Proof.
  intros [Hs Hsegs Hidle Hf]. rewrite fmap_app in Hs. rewrite all_of_app, app_nil_r in Hf. constructor; [|..|done].
  - by apply StronglySorted_app_1_l in Hs.
  - intros j recs Hin. apply Hsegs, elem_of_app. by left.
  - intros j f Hd Hno. destruct (decide (j = i)) as [->|Hne].
    + right. destruct (Hsegs i []) as (f' & Hf' & Hseg); [apply elem_of_app; right; by left|]. congruence.
    + apply (Hidle j); [done|]. rewrite fmap_app, not_elem_of_app. split; [done|]. by intros ?%list_elem_of_singleton.
Qed.
(** Another file without records changes nothing. *)
Lemma holds_idle d C i f : holds d C → i ∉ C.*1 → idle f → holds (<[i := f]> d) C.
Proof.
  intros [Hs Hsegs Hidle Hf] Hi Hidl. constructor; [done| |intros j g|done].
  - intros j recs Hin. rewrite lookup_insert_ne; [by apply Hsegs|]. intros ->. apply Hi, list_elem_of_fmap. by exists (j, recs).
  - intros [(<- & <-)|[_ Hj]]%lookup_insert_Some; [done|by apply Hidle].
Qed.

(** ** What the primitives leave alone *)
Definition anchors_of w : list (N * nat * list (JobId * nat)) := (λ s, (s_index s, s_anchors s, s_puts s)) <$> w_segs w.
(** The job index, the reservations and the options stay; segments may be
    added at the end. *)
Record Same w w' : Prop := {
  sa_opts : w_policy w' = w_policy w ∧ w_seg_size w' = w_seg_size w ∧ w_limit w' = w_limit w;
  sa_jobs : w_jobs w' = w_jobs w ∧ w_live_bytes w' = w_live_bytes w;
  sa_pending : w_pending_puts w' = w_pending_puts w ∧ w_pending_bytes w' = w_pending_bytes w;
  sa_next : (w_next_index w ≤ w_next_index w')%N;
  sa_anchors : ∃ l, anchors_of w' = anchors_of w ++ ((λ i, (i, 0, [])) <$> l) ∧ Forall (λ i, w_next_index w ≤ i)%N l;
}.
#[export] Instance Same_refl : Reflexive Same.
Proof. intros w. constructor; try done. exists []. by rewrite app_nil_r. Qed.
#[export] Instance Same_trans : Transitive Same.
Proof.
  intros w1 w2 w3 [(? & ? & ?) (? & ?) (? & ?) ? (l & Ha & Hl)] [(? & ? & ?) (? & ?) (? & ?) ? (l' & Ha' & Hl')].
  constructor; [split_and!; congruence|split; congruence|split; congruence|lia|].
  exists (l ++ l'). rewrite Ha', Ha, fmap_app, (assoc_L (++)). split; [done|]. apply Forall_app. split; [done|].
  eapply Forall_impl; [exact Hl'|]. cbn. lia.
Qed.

Lemma splice_app (a b bytes : Bytes) : splice (length a) bytes (a ++ b) = a ++ bytes ++ drop (length bytes) b.
Proof.
  unfold splice. rewrite take_app_length, length_app.
  replace (length a - (length a + length b)) with 0 by lia. cbn [zeros replicate app].
  by rewrite <-drop_drop, drop_app_length.
Qed.
Lemma drop_zeros n k : drop n (zeros k) = zeros (k - n).
Proof. apply drop_replicate. Qed.
Lemma write_file h (a bytes : Bytes) k :
  length h = SEG_HEADER_LEN →
  splice (SEG_HEADER_LEN + length a) bytes (h ++ a ++ zeros k) = h ++ a ++ bytes ++ zeros (k - length bytes).
Proof.
  intros <-. rewrite (assoc_L (++)), <-length_app, splice_app, drop_zeros. by rewrite <-(assoc_L (++)).
Qed.

Lemma flush_spec G B st C E :
  Files G B st → (∀ d, holds d (content (pushed G B)) → C d) →
  wp flush C (λ _ st', Files (pushed G B) [] st' ∧ Same st.1 st'.1 ∧ w_segs st'.1 = w_segs st.1 ∧ w_cur st'.1 = w_cur st.1) E st.
Proof.
  intros HF HC. unfold flush. apply wp_bind, wp_get. destruct HF as [(cl & c & sp & Hsegs & Hcur & Hcl & Hc & Hsp) Hs Hn Hi Hf Ht Hz].
  destruct Hc as (Hci & Hcf & Hcw & Hbuf & Hbs & k & Hd & Hcs). cbn. case_bool_decide as Hb.
  - apply wp_ret. split_and!; [|done..]. assert (B = []) as ->.
    { rewrite Hb in Hbuf. destruct B as [|r B]; [done|]. apply (f_equal length) in Hbuf. rewrite image_cons, length_app, rec_len_framed in Hbuf.
      unfold rec_len, REC_HEADER_LEN in Hbuf. cbn in Hbuf. lia. }
    rewrite push_nil. constructor; try done. exists cl, c, sp. do 3 (split; [done|]). split; [|done].
    split_and!; try done. by exists k.
  - assert (w_segs st.1 !! w_cur st.1 = Some c) as Hlc by (rewrite Hsegs, Hcur; by apply list_lookup_middle).
    apply wp_bind. eapply wp_seg_at; [exact Hlc|]. rewrite Hcf. cbn [negb]. rewrite Hci.
    set (f' := segment_header ++ image (g_recs G ++ B) ++ zeros (k - length (image B))).
    assert (do_op (Write_ (g_index G) (w_buf_start st.1) (w_buf st.1)) (d_files st.2) = <[g_index G := f']> (d_files st.2)) as Hop.
    { cbn [do_op]. apply map_eq. intros i. destruct (decide (i = g_index G)) as [->|Hne].
      - rewrite lookup_alter_eq, lookup_insert_eq, Hd. cbn [fmap option_fmap option_map]. f_equal.
        rewrite Hbs, Hbuf, write_file by done. unfold f'. by rewrite (image_app record_crc), <-(assoc_L (++)).
      - by rewrite lookup_alter_ne, lookup_insert_ne. }
    assert (Files (pushed G B) [] (st.1 <| w_buf_start ::= λ b, b + length (w_buf st.1) |> <| w_buf := [] |> <| w_unsynced := true |>,
      mkWorld (<[g_index G := f']> (d_files st.2)) ((Write_ (g_index G) (w_buf_start st.1) (w_buf st.1), <[g_index G := f']> (d_files st.2)) :: d_log st.2) (d_faults st.2))) as HF'.
    { destruct (index_not_closed _ Hs) as [Hnc Hns]. constructor; inn; try done.
      - exists cl, c, sp. inn. split_and!; try done; gho.
        + eapply closed_frame; [|exact Hcl]. intros i Hi'. rewrite lookup_insert_ne; [done|]. by intros <-.
        + split_and!; try done; gho.
          * by rewrite app_nil_r.
          * by rewrite Hbs, Hbuf, (image_app record_crc), length_app, Nat.add_assoc.
          * exists (k - length (image B)). rewrite lookup_insert_eq. split; [done|]. rewrite Hcs, Hbs, Hcw, Hbuf, (image_app record_crc), length_app. lia.
        + eapply spare_frame; [|exact Hsp]. intros i Hi'. rewrite lookup_insert_ne; [done|]. by intros <-.
      - by rewrite keys_push.
      - intros i [f [(<- & _)|[_ Hf']]%lookup_insert_Some]; apply Hn; by eexists.
      - intros i f. rewrite keys_push, keys_eq. intros [(<- & _)|[_ Hf']]%lookup_insert_Some Hno.
        + exfalso. apply Hno. apply elem_of_app. right. by left.
        + apply (Hi i f); [done|]. by rewrite keys_eq.
      - by rewrite all_of_push, app_nil_r. }
    apply wp_bind, wp_io; rewrite Hop.
    + apply HC. by apply Files_holds in HF'.
    + apply wp_modify. split_and!; [exact HF'| |done|done]. constructor; try done. exists []. cbn. by rewrite app_nil_r.
Qed.

(** ** Allocation *)
Lemma Files_ext G B w wd w' wd' :
  Files G B (w, wd) → d_files wd' = d_files wd → w_segs w' = w_segs w → w_cur w' = w_cur w → w_buf w' = w_buf w →
  w_buf_start w' = w_buf_start w → w_seg_size w' = w_seg_size w → w_disk_total w' = w_disk_total w →
  (w_next_index w ≤ w_next_index w')%N → Files G B (w', wd').
Proof.
  intros [(cl & c & sp & ? & ? & ? & ? & ?) ? Hn ? ? ? ?]. inn. intros Hd Hs Hc Hb Hbs Hz Ht Hni. constructor; inn; rewrite ?Hd, ?Hs, ?Hz, ?Ht; try done.
  - exists cl, c, sp. by rewrite Hs, Hc, Hb, Hbs, Hz.
  - intros i Hi. specialize (Hn i Hi). inn_in Hn. lia.
Qed.
Lemma splice_end (f c : Bytes) : splice (length f) c f = f ++ c.
Proof. rewrite <-(app_nil_r f) at 2. by rewrite splice_app, drop_nil, app_nil_r. Qed.
Lemma write_end i (f c : Bytes) d : do_op (Write_ i (length f) c) (<[i := f]> d) = <[i := f ++ c]> d.
Proof. cbn. by rewrite alter_insert_eq, splice_end. Qed.
Lemma chunks_zeros fuel left : left ≤ fuel → Forall (λ c, c = zeros (length c)) (chunks fuel left) ∧ length (concat (chunks fuel left)) = left.
Proof.
  revert left. induction fuel as [|fuel IH]; intros left Hle; cbn [chunks]; [split; [constructor|cbn; lia]|].
  destruct (Nat.eqb_spec left 0) as [->|Hne]; [split; [constructor|done]|]. set (n := Nat.min left ZEROS).
  assert (1 ≤ n ≤ left) as Hn by (unfold n, ZEROS; lia). destruct (IH (left - n)) as [Hz Hl]; [lia|]. split.
  - constructor; [|done]. by rewrite length_zeros.
  - cbn. rewrite length_app, Hl, length_zeros. lia.
Qed.
Lemma write_chunks_spec i budget cs k d st (C : Disk → Prop) E :
  Forall (λ c, c = zeros (length c)) cs → d_files st.2 = <[i := segment_header ++ zeros k]> d →
  (∀ k, C (<[i := segment_header ++ zeros k]> d)) →
  wp (write_chunks i (length (segment_header ++ zeros k)) budget cs) C
    (λ ok st', st'.1 = st.1 ∧ ∃ k', d_files st'.2 = <[i := segment_header ++ zeros k']> d ∧
       (ok = true → k' = k + length (concat cs))) E st.
Proof.
  intros Hcs Hd HC. revert k budget st Hd. induction Hcs as [|c cs Hc Hcs IH]; intros k budget st Hd; cbn [write_chunks].
  { apply wp_ret. split; [done|]. exists k. split; [done|]. cbn. lia. }
  assert (∀ b, wp (io (Write_ i (length (segment_header ++ zeros k)) c);; write_chunks i (length (segment_header ++ zeros k) + length c) b cs) C
    (λ ok st', st'.1 = st.1 ∧ ∃ k', d_files st'.2 = <[i := segment_header ++ zeros k']> d ∧
       (ok = true → k' = k + length (concat (c :: cs)))) E st) as Hstep.
  { intros b. assert ((segment_header ++ zeros k) ++ c = segment_header ++ zeros (k + length c)) as Hf
      by (rewrite zeros_add, <-Hc; by rewrite (assoc_L (++))).
    apply wp_bind, wp_io; rewrite Hd, write_end, Hf; [apply HC|]. rewrite <-length_app, Hf.
    eapply wp_mono; [by apply IH|]. intros ok st' (Hst & k' & Hd' & Hk). split; [by rewrite Hst|].
    exists k'. split; [done|]. intros Hok. rewrite (Hk Hok). cbn. rewrite length_app. lia. }
  destruct budget as [[|b]|]; [|apply Hstep|apply Hstep]. apply wp_ret. split; [done|]. by exists k.
Qed.
Lemma preallocate_spec i size budget d st (C : Disk → Prop) E :
  d_files st.2 = <[i := []]> d → C (<[i := []]> d) → (∀ k, C (<[i := segment_header ++ zeros k]> d)) →
  wp (preallocate i size budget) C
    (λ ok st', st'.1 = st.1 ∧ ∃ f, idle f ∧ d_files st'.2 = <[i := f]> d ∧
       (ok = true → f = segment_header ++ zeros (size - SEG_HEADER_LEN))) E st.
Proof.
  intros Hd HC0 HC. unfold preallocate. destruct (chunks_zeros (size - SEG_HEADER_LEN) (size - SEG_HEADER_LEN) ltac:(done)) as [Hz Hl].
  set (cs := chunks _ _) in *. cbn [write_chunks].
  assert (∀ b, wp (io (Write_ i 0 segment_header);; write_chunks i (0 + length segment_header) b cs) C
    (λ ok st', st'.1 = st.1 ∧ ∃ f, idle f ∧ d_files st'.2 = <[i := f]> d ∧
       (ok = true → f = segment_header ++ zeros (size - SEG_HEADER_LEN))) E st) as Hstep.
  { intros b. assert (do_op (Write_ i 0 segment_header) (d_files st.2) = <[i := segment_header ++ zeros 0]> d) as Hop.
    { rewrite Hd, (app_nil_r segment_header : segment_header ++ zeros 0 = segment_header). exact (write_end i [] segment_header d). }
    apply wp_bind, wp_io; rewrite Hop; [apply HC|].
    change (0 + length segment_header) with (length (segment_header ++ zeros 0)).
    eapply wp_mono; [by apply write_chunks_spec|]. intros ok st' (Hst & k' & Hd' & Hk). split; [by rewrite Hst|].
    eexists. split; [apply idle_header|]. split; [done|]. intros Hok. by rewrite (Hk Hok), Hl. }
  destruct budget as [[|b]|]; [|apply Hstep|apply Hstep]. apply wp_ret. split; [done|]. exists []. split; [by left|]. done.
Qed.

Definition add_spare G (i : N) : Ghost := mkGhost (g_closed G) (g_index G) (g_recs G) (g_spares G ++ [i]).
Lemma content_add_spare G i : content (add_spare G i) = content G ++ [(i, [])].
Proof. unfold content. cbn. by rewrite fmap_app, <-(assoc_L (++)). Qed.
Lemma keys_add_spare G i : keys (add_spare G i) = keys G ++ [i].
Proof. unfold keys. by rewrite content_add_spare, fmap_app. Qed.
Lemma keys_next G B st i : Files G B st → i ∈ keys G → (i < w_next_index st.1)%N.
Proof.
  intros HF Hi. pose proof (Files_holds _ _ _ HF) as Hh. apply (fi_next _ _ _ HF). unfold keys in Hi.
  apply list_elem_of_fmap in Hi as ([j recs] & -> & Hin). destruct (ho_segs _ _ _ Hh _ _ Hin) as (f & Hf & _). by eexists.
Qed.
Lemma sorted_snoc (l : list N) x : StronglySorted N.lt l → (∀ y, y ∈ l → (y < x)%N) → StronglySorted N.lt (l ++ [x]).
Proof.
  intros Hl Hx. apply StronglySorted_app_2; [|done|by repeat constructor]. intros y z Hy ->%list_elem_of_singleton. by apply Hx.
Qed.
Definition new_seg (i : N) (size : nat) : Seg := mkSeg i size SEG_HEADER_LEN 0 [] true.
(** A directory with a new file that has no record yet. *)
Lemma Files_insert G B w wd i f l fs n :
  Files G B (w, wd) → (w_next_index w ≤ i < n)%N → idle f →
  Files G B (w <| w_next_index := n |>, mkWorld (<[i := f]> (d_files wd)) l fs).
Proof.
  intros HF Hi Hf. assert (i ∉ keys G) as Hno by (intros Hin; pose proof (keys_next _ _ _ _ HF Hin); inn_in H; lia).
  destruct HF as [(cl & c & sp & Hsegs & Hcur & Hcl & Hc & Hsp) Hs Hn Hi' Hfi Ht Hz]. inn_in Hn. rewrite keys_eq in Hno.
  apply not_elem_of_app in Hno as [Hno1 [Hno2 Hno3]%not_elem_of_cons]. constructor; inn; try done.
  - exists cl, c, sp. inn. do 2 (split; [done|]). split_and!.
    + eapply closed_frame; [|exact Hcl]. intros j Hj. rewrite lookup_insert_ne; [done|]. by intros <-.
    + destruct Hc as (? & ? & ? & ? & ? & k & Hd & ?). split_and!; try done. exists k. by rewrite lookup_insert_ne.
    + eapply spare_frame; [|exact Hsp]. intros j Hj. rewrite lookup_insert_ne; [done|]. by intros <-.
  - intros j [g [(<- & _)|[_ Hg]]%lookup_insert_Some]; [lia|]. specialize (Hn j (mk_is_Some _ _ Hg)). lia.
  - intros j g [(<- & <-)|[_ Hg]]%lookup_insert_Some; [done|]. by apply Hi'.
Qed.
(** The new file becomes a spare. *)
Lemma Files_add_spare G B w wd i :
  Files G B (w, wd) → i ∉ keys G → (∀ j, j ∈ keys G → (j < i)%N) →
  d_files wd !! i = Some (segment_header ++ zeros (w_seg_size w - SEG_HEADER_LEN)) →
  Files (add_spare G i) B (w <| w_disk_total ::= λ t, t + w_seg_size w |> <| w_segs ::= (.++ [new_seg i (w_seg_size w)]) |>, wd).
Proof.
  intros [(cl & c & sp & Hsegs & Hcur & Hcl & Hc & Hsp) Hs Hn Hi' Hfi Ht Hz] Hno Hlt Hd. inn_in Hsegs. inn_in Ht. constructor; inn; try done.
  - exists cl, c, (sp ++ [new_seg i (w_seg_size w)]). inn. rewrite Hsegs, <-(assoc_L (++)). do 2 (split; [done|]).
    split_and!; [done|done|]. apply Forall2_app; [done|]. repeat constructor. done.
  - rewrite keys_add_spare. by apply sorted_snoc.
  - intros j f Hj. rewrite keys_add_spare, not_elem_of_app. intros [? _]. by eapply Hi'.
  - by rewrite content_add_spare, all_of_app, app_nil_r.
  - rewrite Ht, fmap_app, sum_list_with_app. cbn. lia.
Qed.
(** The new file before it is a segment. *)
Definition numbered w : Inner := w <| w_next_index := (w_next_index w + 1)%N |>.
Definition allocated w : Inner :=
  (numbered w) <| w_disk_total ::= λ t, t + w_seg_size w |> <| w_segs ::= (.++ [new_seg (w_next_index w) (w_seg_size w)]) |>.
(** Allocation on any directory: the new file, or nothing new but perhaps a
    file without records. *)
Lemma allocate_raw w wd (C : Disk → Prop) :
  C (d_files wd) → (∀ f, d_files wd !! w_next_index w = None → idle f → C (<[w_next_index w := f]> (d_files wd))) →
  wp allocate C
    (λ _ st', st'.1 = allocated w ∧ d_files wd !! w_next_index w = None ∧
       d_files st'.2 = <[w_next_index w := segment_header ++ zeros (w_seg_size w - SEG_HEADER_LEN)]> (d_files wd))
    (λ e st', e = WalError.Io ∧
       (st'.1 = w ∧ d_files st'.2 = d_files wd ∨
        st'.1 = numbered w ∧ d_files st'.2 = d_files wd ∨
        st'.1 = numbered w ∧ ∃ f, idle f ∧ d_files st'.2 = <[w_next_index w := f]> (d_files wd))) (w, wd).
Proof.
  intros HC HCi. unfold allocate. apply wp_bind, wp_get. inn. destruct (match w_limit w with Some _ => _ | None => _ end); [apply wp_throw; auto|].
  destruct (u64_max <? w_next_index w + 1)%N; [apply wp_throw; auto|]. apply wp_bind, wp_next_fault. inn. intros fault fs.
  apply wp_bind, wp_file_of. inn. destruct (_ || _) eqn:Hb; [apply wp_throw; auto|].
  apply orb_false_iff in Hb as [_ Hnone%bool_decide_eq_false]. apply eq_None_not_Some in Hnone.
  set (i := w_next_index w) in *. set (d := d_files wd) in *. specialize (λ f, HCi f Hnone) as HCi'. clear HCi.
  apply wp_bind, wp_io; inn; [by apply HCi'; left|]. apply wp_bind, wp_modify. inn. fold (numbered w). apply wp_bind.
  eapply wp_mono; [apply (preallocate_spec i (w_seg_size w) _ d); inn; [done|by apply HCi'; left|intros k; apply HCi', idle_header]|].
  intros ok [w' wd'] (Hw & f & Hidle & Hd & Hok). cbn [fst snd] in Hw, Hd. subst w'. destruct ok; cbn [negb].
  - rewrite (Hok eq_refl) in Hd. assert (∀ wd2, d_files wd2 = d_files wd' → wp (modify (λ w0, w0 <| w_disk_total ::= λ t, t + w_seg_size w0 |>
        <| w_segs ::= (.++ [mkSeg i (w_seg_size w0) SEG_HEADER_LEN 0 [] true]) |>)) C
      (λ _ st', st'.1 = allocated w ∧ d !! i = None ∧ d_files st'.2 = <[i := segment_header ++ zeros (w_seg_size w - SEG_HEADER_LEN)]> d)
      (λ e st', e = WalError.Io ∧ (st'.1 = w ∧ d_files st'.2 = d ∨ st'.1 = numbered w ∧ d_files st'.2 = d ∨
        st'.1 = numbered w ∧ ∃ f, idle f ∧ d_files st'.2 = <[i := f]> d)) (numbered w, wd2)) as Hend.
    { intros wd2 Hd2. apply wp_modify. inn. split_and!; [done|done|congruence]. }
    apply wp_bind. case_bool_decide; [|by apply wp_ret, Hend]. destruct (match fault with DirSyncFails => true | _ => false end).
    + apply wp_throw. split; [done|]. right. right. split; [done|]. eexists. split; [apply idle_header|done].
    + apply wp_io; inn; [cbn [do_op]; rewrite Hd; apply HCi', idle_header|]. by apply Hend.
  - assert (delete i (d_files wd') = d) as Hdel by (rewrite Hd; by apply delete_insert_id).
    apply wp_bind, wp_io; cbn [do_op]; inn; rewrite Hdel; [done|]. apply wp_throw. auto.
Qed.
Lemma Same_numbered w : Same w (numbered w).
Proof. unfold numbered. constructor; inn; [done..|lia|]. exists []. by rewrite app_nil_r. Qed.
Lemma allocate_spec G B st (C : Disk → Prop) :
  Files G B st → (∀ d, holds d (content G) → C d) →
  wp allocate C
    (λ _ st', ∃ i, Files (add_spare G i) B st' ∧ Same st.1 st'.1 ∧ w_segs st'.1 = w_segs st.1 ++ [new_seg i (w_seg_size st.1)] ∧
       w_cur st'.1 = w_cur st.1)
    (λ e st', e = WalError.Io ∧ Files G B st' ∧ Same st.1 st'.1 ∧ w_segs st'.1 = w_segs st.1 ∧ w_cur st'.1 = w_cur st.1) st.
Proof.
  intros HF HC. destruct st as [w wd].
  assert (∀ f l fs, idle f → Files G B (numbered w, mkWorld (<[w_next_index w := f]> (d_files wd)) l fs)) as Hins.
  { intros f l fs Hf. apply (Files_insert G B w wd _ f l fs _ HF); [lia|done]. }
  eapply wp_conseq; [apply allocate_raw|done| |].
  - apply HC. by apply (Files_holds _ _ _ HF).
  - intros f _ Hf. apply HC. by apply (Files_holds _ _ _ (Hins f [] [] Hf)).
  - intros _ [w' wd'] (Hw & _ & Hd). inn_in Hw. inn_in Hd. subst w'. exists (w_next_index w).
    assert (∀ j, j ∈ keys G → (j < w_next_index w)%N) as Hlt by (intros j Hj; apply (keys_next _ _ _ _ HF Hj)). split_and!; [|unfold allocated|done|done].
    + apply (Files_add_spare G B (numbered w) wd' (w_next_index w)); [|intros Hin; specialize (Hlt _ Hin); lia|done|].
      * eapply Files_ext; [exact (Hins (segment_header ++ zeros (w_seg_size w - SEG_HEADER_LEN)) [] [] ltac:(apply idle_header))|done..].
      * rewrite Hd. by rewrite lookup_insert_eq.
    + constructor; unfold numbered; inn; [done..|lia|]. exists [w_next_index w].
      split; [unfold anchors_of; inn; by rewrite fmap_app|by repeat constructor].
  - intros e [w' wd'] (-> & [(Hw & Hd)|[(Hw & Hd)|(Hw & f & Hf & Hd)]]); inn_in Hw; inn_in Hd; subst w'; (split; [done|]).
    + split_and!; try done. by eapply Files_ext.
    + split_and!; try done; [|apply Same_numbered]. eapply Files_ext; [exact HF|done..|unfold numbered; inn; lia].
    + split_and!; try done; [|apply Same_numbered]. eapply Files_ext; [exact (Hins f [] [] Hf)|done..].
Qed.

(** ** Rolling to the next segment *)
Lemma Files_cur G B st : Files G B st → ∃ c, w_segs st.1 !! w_cur st.1 = Some c ∧ s_file c = true ∧ s_index c = g_index G.
Proof.
  intros [(cl & c & sp & Hsegs & Hcur & _ & (Hi & Hf & _) & _) _ _ _ _ _ _]. exists c. split_and!; [|done|done].
  rewrite Hsegs, Hcur. by apply list_lookup_middle.
Qed.
Lemma sync_cur_spec G B st (C : Disk → Prop) E :
  Files G B st → (∀ d, holds d (content G) → C d) →
  wp sync_cur C (λ _ st', Files G B st' ∧ d_files st'.2 = d_files st.2 ∧ st'.1 = st.1 <| w_unsynced := false |>) E st.
Proof.
  intros HF HC. destruct (Files_cur _ _ _ HF) as (c & Hc & Hfile & _). destruct st as [w wd]. unfold sync_cur. apply wp_bind, wp_get.
  apply wp_bind. eapply wp_seg_at; [exact Hc|]. rewrite Hfile. cbn [when_]. apply wp_bind, wp_io; inn.
  - apply HC. by apply (Files_holds _ _ _ HF).
  - apply wp_modify. inn. split_and!; [|done|done]. by eapply Files_ext.
Qed.
Lemma Same_unsynced w b : Same w (w <| w_unsynced := b |>).
Proof. constructor; inn; try done. exists []. by rewrite app_nil_r. Qed.
Lemma sync_unless_never_spec G B st (C : Disk → Prop) E :
  Files G B st → (∀ d, holds d (content G) → C d) →
  wp sync_unless_never C (λ _ st', Files G B st' ∧ Same st.1 st'.1 ∧ w_segs st'.1 = w_segs st.1 ∧ w_cur st'.1 = w_cur st.1) E st.
Proof.
  intros HF HC. unfold sync_unless_never. apply wp_bind, wp_get. apply wp_when; intros _.
  - eapply wp_mono; [by eapply sync_cur_spec|]. intros _ [w' wd'] (HF' & _ & Hw). inn_in Hw. subst w'. inn.
    split_and!; [done|apply Same_unsynced|done|done].
  - by split_and!.
Qed.

(** The current segment becomes a closed one. *)
Definition close G (n : N) (rest : list N) : Ghost := mkGhost (g_closed G ++ [(g_index G, g_recs G)]) n [] rest.
Lemma content_close G n rest : g_spares G = n :: rest → content (close G n rest) = content G.
Proof. intros Hsp. unfold content, close. cbn. by rewrite Hsp, <-(assoc_L (++)). Qed.
Definition shut (c : Seg) : Seg := c <| s_file := false |> <| s_size := s_written c |>.
Lemma alter_mid {A} (f : A → A) l x r : alter f (length l) (l ++ x :: r) = l ++ f x :: r.
Proof. induction l as [|y l IH]; cbn; [done|]. by rewrite IH. Qed.
Lemma lookup_mid {A} (l : list A) x r : (l ++ x :: r) !! length l = Some x.
Proof. by apply list_lookup_middle. Qed.
Lemma sum_mid {A} (f : A → nat) l x r : sum_list (f <$> l ++ x :: r) = sum_list (f <$> l) + f x + sum_list (f <$> r).
Proof. rewrite fmap_app, sum_list_with_app. cbn. lia. Qed.

(** The state and the files after [next_segment]; [k] zeros are cut off. *)
Definition closed_state w (cl : list Seg) (c : Seg) (sp : list Seg) (k : nat) : Inner :=
  w <| w_segs := cl ++ shut c :: sp |> <| w_disk_total := w_disk_total w - k |> <| w_cur := S (w_cur w) |>
    <| w_buf_start := SEG_HEADER_LEN |> <| w_unsynced := false |>.
Definition closed_disk G (k : nat) d : Disk :=
  if (0 <? k)%nat then <[g_index G := segment_header ++ image (g_recs G)]> d else d.
Lemma cut_state w cl c sp k :
  w_segs w = cl ++ c :: sp →
  w <| w_segs ::= alter (λ c, c <| s_file := false |>) (length cl) |> <| w_disk_total := w_disk_total w - (s_written c + k - s_written c) |>
    <| w_segs ::= alter (λ c, c <| s_size := s_written c |>) (length cl) |> <| w_cur ::= S |> <| w_buf_start := SEG_HEADER_LEN |>
    <| w_unsynced := false |> = closed_state w cl c sp k.
Proof.
  unfold closed_state, shut. inner_all. intros ->. by rewrite !alter_mid, Nat.add_comm, Nat.add_sub.
Qed.
Lemma uncut_state w cl c sp :
  w_segs w = cl ++ c :: sp → s_size c = s_written c + 0 →
  w <| w_segs ::= alter (λ c, c <| s_file := false |>) (length cl) |> <| w_cur ::= S |> <| w_buf_start := SEG_HEADER_LEN |>
    <| w_unsynced := false |> = closed_state w cl c sp 0.
Proof.
  unfold closed_state, shut. inner_all. intros -> ->. by rewrite !alter_mid, Nat.sub_0_r, Nat.add_0_r.
Qed.
Lemma uncut_seg c : s_size c = s_written c + 0 → c <| s_file := false |> = shut c.
Proof. unfold shut. inner_all. intros ->. by rewrite Nat.add_0_r. Qed.
Lemma closed_disk_ne G k d i : i ≠ g_index G → closed_disk G k d !! i = d !! i.
Proof. intros Hne. unfold closed_disk. destruct (0 <? k)%nat; [|done]. by rewrite lookup_insert_ne. Qed.
Lemma Files_close G n rest w wd cl c sp wd' k :
  Files G [] (w, wd) → g_spares G = n :: rest → w_segs w = cl ++ c :: sp → w_cur w = length cl → s_size c = s_written c + k →
  d_files wd' = closed_disk G k (d_files wd) → Files (close G n rest) [] (closed_state w cl c sp k, wd').
Proof.
  intros [(cl' & c' & sp' & Hsegs & Hcur & Hcl & Hc & Hsp) Hs Hn Hi Hf Ht Hz] Hg Hw Hlen Hk Hd'. inn_in Hsegs. inn_in Hcur. inn_in Hn. inn_in Ht.
  rewrite Hw in Hsegs. rewrite Hlen in Hcur. apply app_inj_1 in Hsegs as [<- [= <- <-]]; [|done].
  destruct Hc as (Hci & Hcf & Hcw & Hbuf & Hbs & k' & Hd & Hcs). rewrite app_nil_r in Hcw. rewrite Hg in Hsp.
  assert (k' = k) as -> by (rewrite Hk, Hcw, Hbs in Hcs; lia). inn_in Hd. destruct (index_not_closed _ Hs) as [Hnc Hns]. rewrite Hg in Hns.
  apply Forall2_cons_inv_r in Hsp as (m & sp' & (Hmi & Hmf & Hmw & Hms & Hmd) & Hsp & ->). inn_in Hmd.
  unfold closed_state. constructor; inn; rewrite ?Hd'; try done.
  - exists (cl ++ [shut c]), m, sp'. inn. rewrite <-(assoc_L (++)). split_and!; [done|rewrite length_app, Hlen; cbn; lia|..].
    + apply Forall2_app; [eapply closed_frame; [|exact Hcl]; intros i Hi'; apply closed_disk_ne; by intros ->|]. repeat constructor; inn; try done.
      exists segment_header. split; [done|]. unfold closed_disk. destruct (Nat.ltb_spec 0 k); [by rewrite lookup_insert_eq|].
      inn. rewrite Hd. assert (k = 0) as -> by lia. cbn. by rewrite app_nil_r.
    + split_and!; try done. exists (w_seg_size w - SEG_HEADER_LEN). cbn [close g_index g_recs].
      split; [|rewrite Hms, Hmw; inn_in Hz; unfold SEG_HEADER_LEN; inn; lia]. rewrite closed_disk_ne; [done|]. intros ->. apply Hns. by left.
    + eapply spare_frame; [|exact Hsp]. intros i Hi'. apply closed_disk_ne. intros ->. apply Hns. by right.
  - unfold keys. by rewrite content_close.
  - intros i [f Hf']. apply Hn. destruct (decide (i = g_index G)) as [->|]; [by eexists|]. rewrite closed_disk_ne in Hf' by done. by eexists.
  - intros i f. unfold keys. rewrite content_close by done. intros Hf' Hno. apply (Hi i f); [|done]. inn. rewrite <-(closed_disk_ne G k); [done|].
    intros ->. apply Hno. fold (keys G). rewrite keys_eq. apply elem_of_app. right. by left.
  - by rewrite content_close.
  - rewrite Ht, Hw, !sum_mid. unfold shut. inn. lia.
Qed.
Lemma set_len_cut i (a : Bytes) k d :
  d !! i = Some (segment_header ++ a ++ zeros k) →
  do_op (SetLen i (SEG_HEADER_LEN + length a)) d = <[i := segment_header ++ a]> d.
Proof.
  intros Hd. cbn [do_op]. apply map_eq. intros j. destruct (decide (j = i)) as [->|Hne].
  - rewrite lookup_alter_eq, lookup_insert_eq, Hd. cbn [fmap option_fmap option_map]. f_equal. rewrite (assoc_L (++)).
    rewrite take_app_length' by (by rewrite length_app). rewrite !length_app.
    replace (_ - _) with 0; [by rewrite app_nil_r|]. change (length segment_header) with SEG_HEADER_LEN. lia.
  - by rewrite lookup_alter_ne, lookup_insert_ne.
Qed.
Lemma next_segment_spec G n rest st (C : Disk → Prop) E :
  Files G [] st → g_spares G = n :: rest → (∀ d, holds d (content G) → C d) →
  wp next_segment C (λ _ st', Files (close G n rest) [] st' ∧ Same st.1 st'.1 ∧ w_cur st'.1 = S (w_cur st.1) ∧
    w_segs st'.1 = alter shut (w_cur st.1) (w_segs st.1)) E st.
Proof.
  intros HF Hg HC. pose proof HF as [(cl & c & sp & Hsegs & Hcur & _ & (Hci & Hcf & Hcw & _ & Hbs & k & Hd & Hcs) & Hsp) _ _ _ _ Ht _].
  destruct st as [w wd]. inn_in Hsegs. inn_in Hcur. inn_in Ht. inn_in Hd. rewrite app_nil_r in Hcw. rewrite Hg in Hsp.
  apply Forall2_cons_inv_r in Hsp as (m & sp' & (_ & _ & Hmw & _) & _ & ->).
  assert (s_size c = s_written c + k) as Hsize by (rewrite Hcs, Hcw, Hbs; lia).
  pose proof (λ wd', Files_close G n rest w wd cl c (m :: sp') wd' k HF Hg Hsegs Hcur Hsize) as HF'.
  assert (Same w (closed_state w cl c (m :: sp') k)) as Hsame.
  { unfold closed_state. constructor; inn; try done. exists []. rewrite app_nil_r. unfold anchors_of. inn. by rewrite Hsegs, !fmap_app. }
  unfold next_segment. apply wp_bind, wp_get. inn. apply wp_bind. eapply wp_seg_at; [inn; rewrite Hsegs, Hcur; apply lookup_mid|].
  apply wp_bind, wp_upd_seg. inn. rewrite Hcf. cbn [andb]. rewrite Hsize, Hcur.
  assert (∀ wd' w', d_files wd' = closed_disk G k (d_files wd) → w_segs w' = cl ++ shut c :: m :: sp' →
    w' <| w_cur ::= S |> <| w_buf_start := SEG_HEADER_LEN |> <| w_unsynced := false |> = closed_state w cl c (m :: sp') k →
    wp (modify (λ w, w <| w_cur ::= S |>);; let! n := seg_at (S (length cl)) in
        modify (λ w, w <| w_buf_start := s_written n |> <| w_unsynced := false |>)) C
      (λ _ st', Files (close G n rest) [] st' ∧ Same w st'.1 ∧ w_cur st'.1 = S (length cl) ∧
         w_segs st'.1 = alter shut (length cl) (w_segs w)) E (w', wd')) as Hend.
  { intros wd' w' Hd' Hs' Hw'. apply wp_bind, wp_modify. apply wp_bind. eapply wp_seg_at.
    - inn. rewrite Hs'. change (shut c :: m :: sp') with ([shut c] ++ m :: sp'). rewrite (assoc_L (++)).
      replace (S (length cl)) with (length (cl ++ [shut c])) by (rewrite length_app; cbn; lia). apply lookup_mid.
    - apply wp_modify. cbn [fst snd]. rewrite Hmw, Hw'. split_and!; [by apply HF'|done|unfold closed_state; inn; by rewrite Hcur|].
      unfold closed_state. inn. by rewrite Hsegs, alter_mid. }
  apply wp_bind. apply wp_when; intros Hk.
  - apply Nat.ltb_lt in Hk. assert (closed_disk G k (d_files wd) = <[g_index G := segment_header ++ image (g_recs G)]> (d_files wd)) as Hcd.
    { unfold closed_disk. by rewrite (proj2 (Nat.ltb_lt 0 k)) by lia. }
    assert (do_op (SetLen (s_index c) (s_written c)) (d_files wd) = closed_disk G k (d_files wd)) as Hop
      by by rewrite Hcd, Hci, Hcw, (set_len_cut _ _ _ _ Hd).
    apply wp_bind, wp_io; inn; rewrite Hop.
    { apply HC. specialize (HF' (mkWorld (closed_disk G k (d_files wd)) [] []) eq_refl). apply Files_holds in HF'. by rewrite content_close in HF'. }
    apply wp_bind, wp_sub; [rewrite Ht, Hsegs, sum_mid; lia|]. apply wp_bind, wp_modify. apply wp_upd_seg. cbn [fst snd].
    apply Hend; [done|inn; by rewrite Hsegs, !alter_mid|by apply cut_state].
  - apply Nat.ltb_ge in Hk. assert (k = 0) as -> by lia.
    apply Hend; [done|inn; by rewrite Hsegs, alter_mid, uncut_seg|by apply uncut_state].
Qed.

Lemma segs_length G B st : Files G B st → length (w_segs st.1) = S (w_cur st.1 + length (g_spares G)).
Proof.
  intros [(cl & c & sp & -> & -> & _ & _ & Hsp) _ _ _ _ _ _]. rewrite length_app. cbn. rewrite (Forall2_length _ _ _ Hsp). lia.
Qed.
(** Segments allocated on the way. *)
Definition spare_needed w (new : list Seg) : Prop :=
  if (length (w_segs w) <=? w_cur w + 1)%nat then ∃ i, new = [new_seg i (w_seg_size w)] else new = [].
Lemma roll_spec G B st (C : Disk → Prop) :
  Files G B st → (∀ d, holds d (content G) → C d) → (∀ d, holds d (content (pushed G B)) → C d) →
  wp roll C
    (λ _ st', ∃ G' new, Files G' [] st' ∧ g_recs G' = [] ∧ located (content G') = located (content (pushed G B)) ∧ Same st.1 st'.1 ∧
       w_cur st'.1 = S (w_cur st.1) ∧ spare_needed st.1 new ∧ w_segs st'.1 = alter shut (w_cur st.1) (w_segs st.1 ++ new))
    (λ e _, e = WalError.Io ∧ (length (w_segs st.1) ≤ w_cur st.1 + 1)) st.
Proof.
  intros HF HC HC'. unfold roll. apply wp_bind. eapply wp_mono; [by eapply flush_spec|]. intros _ st1 (HF1 & Hsame1 & Hs1 & Hc1).
  apply wp_bind. eapply wp_mono; [by eapply sync_unless_never_spec|]. intros _ st2 (HF2 & Hsame2 & Hs2 & Hc2).
  apply wp_bind, wp_get. rewrite Hc2, Hs2, Hc1, Hs1. set (G1 := pushed G B) in *.
  assert (Same st.1 st2.1) as Hsame by by etrans. assert (w_seg_size st2.1 = w_seg_size st.1) as Hz by apply (sa_opts _ _ Hsame).
  assert (∀ G2 n rest st3 new, Files G2 [] st3 → g_spares G2 = n :: rest → located (content G2) = located (content G1) →
    (∀ d, holds d (content G2) → C d) → Same st.1 st3.1 → w_cur st3.1 = w_cur st.1 → w_segs st3.1 = w_segs st.1 ++ new → spare_needed st.1 new →
    wp next_segment C
      (λ _ st', ∃ G' new, Files G' [] st' ∧ g_recs G' = [] ∧ located (content G') = located (content G1) ∧ Same st.1 st'.1 ∧
         w_cur st'.1 = S (w_cur st.1) ∧ spare_needed st.1 new ∧ w_segs st'.1 = alter shut (w_cur st.1) (w_segs st.1 ++ new))
      (λ e _, e = WalError.Io ∧ (length (w_segs st.1) ≤ w_cur st.1 + 1)) st3) as Hend.
  { intros G2 n rest st3 new HF3 Hg Hl HC3 Hsame3 Hc3 Hs3 Hnew. eapply wp_mono; [by eapply next_segment_spec|].
    intros _ st4 (HF4 & Hsame4 & Hc4 & Hs4). exists (close G2 n rest), new. rewrite content_close by done.
    split_and!; [done|done|done|by etrans|by rewrite Hc4, Hc3|done|by rewrite Hs4, Hc3, Hs3]. }
  apply wp_bind, wp_when; intros Hle.
  - eapply wp_conseq; [by eapply allocate_spec|done| |].
    + intros _ st3 (i & HF3 & Hsame3 & Hs3 & Hc3). apply Nat.leb_le in Hle. pose proof (segs_length _ _ _ HF) as Hlen.
      assert (g_spares G1 = []) as Hg by (unfold G1; gho; destruct (g_spares G); [done|cbn in Hlen; lia]).
      assert (located (content (add_spare G1 i)) = located (content G1)) as Hl by by rewrite content_add_spare, located_app, app_nil_r.
      eapply (Hend _ i [] _ [new_seg i (w_seg_size st.1)]); [done|change (g_spares G1 ++ [i] = [i]); by rewrite Hg|done| |by etrans|congruence|congruence|].
      * intros d Hd. rewrite content_add_spare in Hd. apply HC'. by eapply holds_spare.
      * unfold spare_needed. rewrite (proj2 (Nat.leb_le _ _) Hle). by exists i.
    + intros e st3 (-> & _). split; [done|]. by apply Nat.leb_le.
  - apply Nat.leb_gt in Hle. pose proof (segs_length _ _ _ HF) as Hlen. destruct (g_spares G1) as [|n rest] eqn:Hg.
    { unfold G1 in Hg. gho_in Hg. rewrite Hg in Hlen. cbn in Hlen. lia. }
    eapply (Hend _ n rest _ []); [done..|congruence|by rewrite app_nil_r; congruence|]. unfold spare_needed. by rewrite (proj2 (Nat.leb_gt _ _) Hle).
Qed.

(** ** Placing a record *)
Definition grow (len : nat) (c : Seg) : Seg :=
  c <| s_written := s_written c + len |> <| s_size := Nat.max (s_size c) (s_written c + len) |>.
Definition must_roll w (len : nat) : bool :=
  match w_segs w !! w_cur w with
  | Some c => (SEG_HEADER_LEN <? s_written c)%nat && (s_size c <? s_written c + len)%nat
  | None => false
  end.
(** The segments after [place]. *)
Definition placed_segs w (len : nat) w' : Prop :=
  if must_roll w len then
    ∃ new, spare_needed w new ∧ w_cur w' = S (w_cur w) ∧
      w_segs w' = alter (grow len) (S (w_cur w)) (alter shut (w_cur w) (w_segs w ++ new))
  else w_cur w' = w_cur w ∧ w_segs w' = alter (grow len) (w_cur w) (w_segs w).
(** Room for a record at the end of the current segment. *)
Definition grown w (c : Seg) (len : nat) : Inner :=
  w <| w_segs ::= alter (grow len) (w_cur w) |> <| w_disk_total ::= λ t, t + (s_written c + len - s_size c) |>.
Definition framed_rec (r : Rec) : Bytes := framed record_crc (payload_of r).
Lemma Files_grow G B w wd c r :
  Files G B (w, wd) → fits r → w_segs w !! w_cur w = Some c →
  Files G (B ++ [r]) ((grown w c (rec_len r)) <| w_buf ::= (.++ framed_rec r) |>, wd).
Proof.
  intros [(cl & c' & sp & Hsegs & Hcur & Hcl & Hc & Hsp) Hs Hn Hi Hf Ht Hz] Hr Hlc. inn_in Hsegs. inn_in Hcur. inn_in Ht.
  rewrite Hsegs, Hcur, lookup_mid in Hlc. injection Hlc as ->. unfold grown, framed_rec. constructor; inn; try done.
  - exists cl, (grow (rec_len r) c), sp. inn. rewrite Hsegs, Hcur, alter_mid. do 2 (split; [done|]). split_and!; [done| |done].
    destruct Hc as (Hci & Hcf & Hcw & Hbuf & Hbs & k & Hd & Hcs). inn_in Hbuf. unfold grow. split_and!; inn; try done.
    + rewrite Hcw, !(image_app record_crc), image_cons, !length_app, rec_len_framed. cbn. lia.
    + by rewrite Hbuf, (image_app record_crc), image_cons, app_nil_r.
    + exists k. split; [done|]. inn_in Hcs. rewrite Hcs. lia.
  - rewrite (assoc_L (++)), Forall_app. split; [done|]. by constructor.
  - rewrite Ht, Hsegs, Hcur, alter_mid, !sum_mid. unfold grow. inn. lia.
Qed.
Lemma extend_eq w wd c len :
  w_segs w !! w_cur w = Some c → extend len (w, wd) = (inl (s_written c), (grown w c len, wd)).
Proof.
  intros Hc. unfold extend, seg_at, bind, get, unwrap, upd_seg, modify, when_. cbn [fst snd]. rewrite Hc. cbn [ret].
  assert (∃ cl sp, w_segs w = cl ++ c :: sp ∧ w_cur w = length cl) as (cl & sp & Hs & Hcur).
  { exists (take (w_cur w) (w_segs w)), (drop (S (w_cur w)) (w_segs w)). split; [by rewrite take_drop_middle|].
    apply lookup_lt_Some in Hc. rewrite length_take. lia. }
  unfold grown, grow. destruct (Nat.ltb_spec (s_size c) (s_written c + len)) as [Hlt|Hge]; cbn [ret fst snd]; do 3 f_equal; inner_all; subst; rewrite !alter_mid.
  - by rewrite Nat.max_r by lia.
  - by rewrite (proj2 (Nat.sub_0_le _ _)), Nat.add_0_r, Nat.max_l by done.
Qed.
Lemma anchors_alter w w' f p :
  w_segs w' = alter f p (w_segs w) → (∀ c, s_index (f c) = s_index c ∧ s_anchors (f c) = s_anchors c ∧ s_puts (f c) = s_puts c) →
  anchors_of w' = anchors_of w.
Proof.
  intros Hw Hf. unfold anchors_of. rewrite Hw. apply list_eq. intros i. rewrite !list_lookup_fmap. destruct (decide (i = p)) as [->|Hne].
  - rewrite list_lookup_alter_eq. destruct (w_segs w !! p) as [c|]; [|done]. cbn. by destruct (Hf c) as (-> & -> & ->).
  - by rewrite list_lookup_alter_ne.
Qed.
Lemma Same_grown w c len : Same w (grown w c len).
Proof.
  constructor; inn; try done. exists []. rewrite app_nil_r. split; [|done]. by eapply anchors_alter.
Qed.
Lemma place_spec G B st r (C : Disk → Prop) :
  Files G B st → fits r → (∀ d, holds d (content G) → C d) → (∀ d, holds d (content (pushed G B)) → C d) →
  wp (place (rec_len r)) C
    (λ off st', ∃ G' B', Files G' (B' ++ [r]) (st'.1 <| w_buf ::= (.++ framed_rec r) |>, st'.2) ∧
       located (content (pushed G' B')) = located (content (pushed G B)) ∧ (G' = G ∧ B' = B ∨ B' = []) ∧
       off = SEG_HEADER_LEN + length (image (g_recs G' ++ B')) ∧ Same st.1 st'.1 ∧ placed_segs st.1 (rec_len r) st'.1)
    (λ e _, e = WalError.Io ∧ must_roll st.1 (rec_len r) = true ∧ (length (w_segs st.1) ≤ w_cur st.1 + 1)) st.
Proof.
  intros HF Hr HC HC'. destruct (Files_cur _ _ _ HF) as (c & Hc & _ & _). unfold place. apply wp_bind, wp_get. apply wp_bind.
  eapply wp_seg_at; [exact Hc|]. set (b := _ && _). assert (must_roll st.1 (rec_len r) = b) as Hb by (unfold must_roll; by rewrite Hc).
  assert (∀ G1 B1 st1 (Q : nat → St → Prop) E, Files G1 B1 st1 →
    (∀ c1, w_segs st1.1 !! w_cur st1.1 = Some c1 → s_written c1 = SEG_HEADER_LEN + length (image (g_recs G1 ++ B1)) →
       Q (s_written c1) (grown st1.1 c1 (rec_len r), st1.2)) → wp (extend (rec_len r)) C Q E st1) as Hext.
  { intros G1 B1 [w1 wd1] Q E HF1 HQ. pose proof HF1 as [(cl & c1 & sp & Hsegs & Hcur & _ & (_ & _ & Hw & _) & _) _ _ _ _ _ _].
    inn_in Hsegs. inn_in Hcur. assert (w_segs w1 !! w_cur w1 = Some c1) as Hc1 by (rewrite Hsegs, Hcur; apply lookup_mid).
    unfold wp. rewrite (extend_eq _ _ _ _ Hc1). split; [by exists []|]. by apply HQ. }
  apply wp_bind. rewrite <-Hb. apply wp_when; intros Hroll.
  - eapply wp_conseq; [by eapply roll_spec|done| |by intros e _ [-> ?]]. intros _ [w1 wd1] (G' & new & HF1 & Hrecs & Hl & Hsame & Hcur & Hnew & Hsegs).
    apply (Hext G' []); [done|]. inn. intros c1 Hc1 Hw1. exists G', []. rewrite push_nil. split_and!; try done.
    + by apply Files_grow.
    + by right.
    + etrans; [exact Hsame|]. apply Same_grown.
    + unfold placed_segs. rewrite Hroll. exists new. split; [done|]. unfold grown. inn. inn_in Hcur. inn_in Hsegs. by rewrite Hcur, Hsegs.
  - destruct st as [w wd]. apply (Hext G B); [done|]. inn. intros c1 Hc1 Hw1. exists G, B. split_and!; try done.
    + by apply Files_grow.
    + by left.
    + apply Same_grown.
    + unfold placed_segs. inn_in Hroll. by rewrite Hroll.
Qed.
End files.
