(* ===== verification/WalIndex.v ===== *)
(** * The job index of an open log

    The index is what a replay of the records, those in the buffer included,
    would find, and the counts of the segments agree with it.  [append] and
    compaction keep both, and the live jobs are those of the journal. *)

From S2P Require Import Prelude Ms Proto Stats Parse Reply Model Format Snapshot Replay Scan Wal WalDisk WalFiles.
From stdpp Require Import options.

(** ** Sums over a table *)
Section sum_of.
Context {A : Type} (f : A → nat).
Implicit Types (m : gmap JobId A).
Lemma sum_list_perm (l l' : list nat) : l ≡ₚ l' → sum_list l = sum_list l'.
Proof. induction 1; cbn in *; lia. Qed.
Lemma sum_of_insert_new m k v : m !! k = None → sum_of f (<[k := v]> m) = f v + sum_of f m.
Proof.
  intros Hk. unfold sum_of. rewrite (sum_list_perm _ _ (fmap_Permutation _ _ _ (map_to_list_insert m k v Hk))). done.
Qed.
Lemma sum_of_delete m k v : m !! k = Some v → sum_of f m = f v + sum_of f (delete k m).
Proof. intros Hk. rewrite <-(insert_delete_id m k v) at 1 by done. by rewrite sum_of_insert_new by apply lookup_delete_eq. Qed.
Lemma sum_of_insert m k v : sum_of f (<[k := v]> m) + from_option f 0 (m !! k) = sum_of f m + f v.
Proof.
  destruct (m !! k) as [u|] eqn:Hk; cbn.
  - rewrite <-insert_delete_eq, sum_of_insert_new by apply lookup_delete_eq. rewrite (sum_of_delete _ _ _ Hk). lia.
  - rewrite sum_of_insert_new by done. lia.
Qed.
Lemma sum_of_empty : sum_of f ∅ = 0.
Proof. unfold sum_of. by rewrite map_to_list_empty. Qed.
End sum_of.

(** ** What a replay knows of a job *)
Lemma replayed_put ls id j :
  rs_jobs (replayed ReplayState_default ls) !! id = Some j →
  r_id (p_record j) = id ∧
  ∃ record, r_id record = id ∧ (p_seg j, p_off j, Rec.Put record (p_tube j) (p_body j)) ∈ ls ∧
    p_put_len j = rec_len (Rec.Put record (p_tube j) (p_body j)).
Proof.
  revert id j. induction ls as [|l ls IH] using rev_ind; intros id j; [done|].
  unfold replayed. rewrite foldl_app. cbn [foldl]. fold (replayed ReplayState_default ls). destruct l as [[seg off] rec].
  rewrite applied_jobs by apply replayed_ok, tl_ok_default.
  assert (∀ j0, rs_jobs (replayed ReplayState_default ls) !! id = Some j0 → r_id (p_record j0) = id ∧ ∃ record,
    r_id record = id ∧ (p_seg j0, p_off j0, Rec.Put record (p_tube j0) (p_body j0)) ∈ ls ++ [(seg, off, rec)] ∧
    p_put_len j0 = rec_len (Rec.Put record (p_tube j0) (p_body j0))) as Hold.
  { intros j0 (Hid & record & Hr & Hin & Hl)%IH. split; [done|]. exists record. split_and!; [done| |done]. apply elem_of_app. by left. }
  destruct rec as [record tube body|record|id'].
  - intros [(<- & <-)|[_ Hj]]%lookup_insert_Some; [|by apply Hold]. cbn. split; [done|]. exists record. split_and!; [done| |done].
    apply elem_of_app. right. by left.
  - intros [(<- & j0 & Hj & ->)|[_ Hj]]%lookup_alter_Some; [|by apply Hold]. cbn. split; [done|]. by apply Hold in Hj as [_ Hj].
  - intros [_ Hj]%lookup_delete_Some. by apply Hold.
Qed.
(** The records of a segment without the latest Put of any live job. *)
Section forget.
Context (seg : N).
(** Equal but for the order of the first record. *)
Definition same_job (j j' : ReplayJob) : Prop := entry_of j = entry_of j' ∧ job_of j = job_of j'.
Definition forgets (s s' : ReplayState) : Prop :=
  ∀ id, match rs_jobs s' !! id with
        | Some j' => ∃ j, rs_jobs s !! id = Some j ∧ same_job j j'
        | None => ∀ j, rs_jobs s !! id = Some j → p_seg j = seg
        end.
Lemma applied_forgets s s' l :
  tl_ok (rs_tubes s) → tl_ok (rs_tubes s') → forgets s s' → forgets (applied s l) (applied s' l).
Proof.
  intros Hs Hs' Hf id. destruct l as [[i off] rec]. rewrite !applied_jobs by done. specialize (Hf id).
  destruct rec as [record tube body|record|id'].
  - destruct (decide (id = r_id record)) as [->|Hne]; [|by rewrite !lookup_insert_ne]. rewrite !lookup_insert_eq. by eexists.
  - destruct (decide (id = r_id record)) as [->|Hne]; [|by rewrite !lookup_alter_ne]. rewrite !lookup_alter_eq.
    destruct (rs_jobs s' !! r_id record) as [j'|]; cbn.
    + destruct Hf as (j & -> & He & Hj). cbn. eexists. split; [done|]. unfold same_job, entry_of, job_of in *. cbn.
      injection He as _ ? ? ? ?. injection Hj as _ ? ?. split; f_equal; congruence.
    + intros j (j0 & Hj0 & ->)%fmap_Some. cbn. by apply Hf.
  - destruct (decide (id = id')) as [->|Hne]; [by rewrite !lookup_delete_eq|by rewrite !lookup_delete_ne].
Qed.
Lemma replayed_forgets s s' ls :
  tl_ok (rs_tubes s) → tl_ok (rs_tubes s') → forgets s s' → forgets (replayed s ls) (replayed s' ls).
Proof.
  revert s s'. induction ls as [|l ls IH]; intros s s' Hs Hs' Hf; [done|]. cbn.
  apply IH; [by apply applied_ok..|by apply applied_forgets].
Qed.
Lemma forget_segment ls ls' :
  (∀ l, l ∈ ls → l.1.1 = seg) →
  (∀ id j, rs_jobs (replayed ReplayState_default (ls ++ ls')) !! id = Some j → p_seg j ≠ seg) →
  entry_of <$> rs_jobs (replayed ReplayState_default ls') = entry_of <$> rs_jobs (replayed ReplayState_default (ls ++ ls')) ∧
  live_of (replayed ReplayState_default ls') = live_of (replayed ReplayState_default (ls ++ ls')).
Proof.
  intros Hseg Hno. assert (forgets (replayed ReplayState_default (ls ++ ls')) (replayed ReplayState_default ls')) as Hf.
  { unfold replayed. rewrite foldl_app. fold (replayed ReplayState_default ls). apply replayed_forgets; [apply replayed_ok|..]; try apply tl_ok_default.
    intros id. cbn. rewrite lookup_empty. intros j (_ & record & _ & Hin & _)%replayed_put. by apply Hseg in Hin. }
  unfold live_of. set (J := rs_jobs (replayed _ (ls ++ ls'))) in *. set (J' := rs_jobs (replayed _ ls')) in *.
  assert (∀ id, (∃ j j', J !! id = Some j ∧ J' !! id = Some j' ∧ same_job j j') ∨ J !! id = None ∧ J' !! id = None) as Hcase.
  { intros id. specialize (Hf id). unfold J, J' in *. destruct (rs_jobs (replayed ReplayState_default ls') !! id) as [j'|].
    - destruct Hf as (j & Hj & Hs). left. by exists j, j'.
    - right. split; [|done]. destruct (rs_jobs _ !! id) as [j|] eqn:Hj; [|done]. by destruct (Hno id j Hj), (Hf j). }
  split; apply map_eq; intros id; rewrite !lookup_fmap; destruct (Hcase id) as [(j & j' & -> & -> & He & Hj)|[-> ->]]; cbn; by rewrite ?He, ?Hj.
Qed.
End forget.

(** ** The index *)
Abbreviation Jobs := (gmap JobId JobEntry).
Definition in_seg (i : N) (j : JobEntry) : bool := bool_decide (je_seg j = i).
(** The anchors of a segment count its jobs, and its queue lists them. *)
Definition seg_good (J : Jobs) (s : Seg) : Prop :=
  N.of_nat (s_anchors s) = count (in_seg (s_index s)) J ∧
  ∀ id j, J !! id = Some j → je_seg j = s_index s → (id, je_off j) ∈ s_puts s.
Record Index (w : Inner) : Prop := {
  ix_live : w_live_bytes w = sum_of je_used (w_jobs w);
  ix_segs : ∀ p s, w_segs w !! p = Some s → seg_good (w_jobs w) s;
  ix_jobs : ∀ id j, w_jobs w !! id = Some j → ∃ p s, w_segs w !! p = Some s ∧ s_index s = je_seg j;
  ix_unique : NoDup (s_index <$> w_segs w);
}.
Lemma anchors_lookup w p i a ps :
  anchors_of w !! p = Some (i, a, ps) ↔ ∃ s, w_segs w !! p = Some s ∧ s_index s = i ∧ s_anchors s = a ∧ s_puts s = ps.
Proof.
  unfold anchors_of. rewrite list_lookup_fmap, fmap_Some. split.
  - intros (s & Hs & [= -> -> ->]). by exists s.
  - intros (s & Hs & <- & <- & <-). by exists s.
Qed.
Lemma indexes_of w : (λ x, x.1.1) <$> anchors_of w = s_index <$> w_segs w.
Proof. unfold anchors_of. by rewrite <-list_fmap_compose. Qed.
(** The index depends on the anchors, the jobs and their bytes. *)
Lemma Index_same w w' : Index w → Same w w' → NoDup (s_index <$> w_segs w') → (∀ s, s ∈ w_segs w → (s_index s < w_next_index w)%N) → Index w'.
Proof.
  intros [Hl Hs Hj Hu] [_ (Hj' & Hl') _ _ (l & Ha & Hfresh)] Hu' Hlt. constructor; rewrite ?Hj', ?Hl'; [done| | |done].
  - intros p s Hp. assert (anchors_of w' !! p = Some (s_index s, s_anchors s, s_puts s)) as Hlk by (apply anchors_lookup; by exists s).
    rewrite Ha in Hlk. apply lookup_app_Some in Hlk as [Hlk|[_ Hlk]].
    + apply anchors_lookup in Hlk as (s0 & Hs0 & Hi & Han & Hp0). apply Hs in Hs0. unfold seg_good in *. by rewrite Hi, Han, Hp0 in Hs0.
    + rewrite list_lookup_fmap, fmap_Some in Hlk. destruct Hlk as (i & Hi & [= Hi' Ha' Hp']). rewrite Forall_forall in Hfresh.
      assert (w_next_index w ≤ i)%N as Hge by (apply Hfresh, list_elem_of_lookup; eauto).
      assert (∀ id j, w_jobs w !! id = Some j → je_seg j ≠ s_index s) as Hno.
      { intros id j Hid He. destruct (Hj _ _ Hid) as (q & s0 & Hq & Hs0). specialize (Hlt s0 ltac:(apply list_elem_of_lookup; eauto)). lia. }
      split; [|by intros id j Hid He; destruct (Hno id j)]. rewrite Ha'. symmetry. apply count_zero. intros k j Hk. apply bool_decide_eq_false. by eapply Hno.
  - intros id j Hid. destruct (Hj _ _ Hid) as (p & s & Hp & Hi). assert (anchors_of w !! p = Some (s_index s, s_anchors s, s_puts s)) as Hlk by (apply anchors_lookup; by exists s).
    assert (anchors_of w' !! p = Some (s_index s, s_anchors s, s_puts s)) as Hlk' by (rewrite Ha; by apply lookup_app_l_Some).
    apply anchors_lookup in Hlk' as (s' & Hs' & Hi' & _). exists p, s'. by rewrite Hi'.
Qed.
Lemma seg_pos_Some w i p s : NoDup (s_index <$> w_segs w) → w_segs w !! p = Some s → s_index s = i → seg_pos i w = Some p.
Proof.
  intros Hu Hp Hi. unfold seg_pos. destruct (list_find _ (w_segs w)) as [[q s']|] eqn:Hf.
  - apply list_find_Some in Hf as (Hq & Hi' & _). cbn. f_equal. apply (NoDup_lookup _ _ _ i Hu); rewrite list_lookup_fmap.
    + rewrite Hq. cbn. by rewrite Hi'.
    + rewrite Hp. cbn. by rewrite Hi.
  - apply list_find_None in Hf. rewrite Forall_forall in Hf. exfalso. apply (Hf s); [|done]. apply list_elem_of_lookup. eauto.
Qed.
(** One more job in the current segment. *)
Definition anchored_seg (id : JobId) (off : nat) (c : Seg) : Seg := c <| s_anchors ::= S |> <| s_puts ::= (.++ [(id, off)]) |>.
Definition unanchored (c : Seg) : Seg := c <| s_anchors ::= Nat.pred |>.
(** The segments after [anchor], and after [unanchor] of the old entry. *)
Definition old_pos (w : Inner) (old : option JobEntry) : option nat := (λ j, default 0 (seg_pos (je_seg j) w)) <$> old.
Definition unanchor_at (p : option nat) (l : list Seg) : list Seg := match p with Some p => alter unanchored p l | None => l end.
Definition moved_segs (w : Inner) (id : JobId) (off : nat) (old : option JobEntry) : list Seg :=
  unanchor_at (old_pos w old) (alter (anchored_seg id off) (w_cur w) (w_segs w)).
Definition one (P : Prop) `{Decision P} : nat := if bool_decide P then 1 else 0.
Lemma unanchor_lookup q l p s' :
  unanchor_at q l !! p = Some s' →
  ∃ s, l !! p = Some s ∧ s_index s' = s_index s ∧ s_anchors s' = s_anchors s - one (q = Some p) ∧ s_puts s' = s_puts s.
Proof.
  unfold unanchor_at, one. destruct q as [q|].
  - destruct (decide (p = q)) as [->|Hne].
    + rewrite list_lookup_alter_eq, fmap_Some. intros (s & Hs & ->). exists s. rewrite bool_decide_eq_true_2 by done.
      unfold unanchored. inn. split_and!; [done|done|lia|done].
    + rewrite list_lookup_alter_ne by done. intros Hs. exists s'. rewrite bool_decide_eq_false_2 by naive_solver. split_and!; [done|done|lia|done].
  - intros Hs. exists s'. rewrite bool_decide_eq_false_2 by done. split_and!; [done|done|lia|done].
Qed.
Lemma anchored_lookup id off q (l : list Seg) p s' :
  alter (anchored_seg id off) q l !! p = Some s' →
  ∃ s, l !! p = Some s ∧ s_index s' = s_index s ∧ s_anchors s' = s_anchors s + one (p = q) ∧
    s_puts s' = s_puts s ++ (if bool_decide (p = q) then [(id, off)] else []).
Proof.
  unfold one. destruct (decide (p = q)) as [->|Hne].
  - rewrite list_lookup_alter_eq, fmap_Some. intros (s & Hs & ->). exists s. rewrite !bool_decide_eq_true_2 by done.
    unfold anchored_seg. inn. split_and!; [done|done|lia|done].
  - rewrite list_lookup_alter_ne by done. intros Hs. exists s'. rewrite !bool_decide_eq_false_2 by done. rewrite app_nil_r. split_and!; [done|done|lia|done].
Qed.
Lemma indexes_alter f p (l : list Seg) : (∀ s, s_index (f s) = s_index s) → s_index <$> alter f p l = s_index <$> l.
Proof.
  intros Hf. apply list_eq. intros i. rewrite !list_lookup_fmap. destruct (decide (i = p)) as [->|Hne].
  - rewrite list_lookup_alter_eq. destruct (l !! p); cbn; [by rewrite Hf|done].
  - by rewrite list_lookup_alter_ne.
Qed.
Lemma indexes_unanchor q l : s_index <$> unanchor_at q l = s_index <$> l.
Proof. destruct q; [by apply indexes_alter|done]. Qed.
Lemma same_index w p q s s' : NoDup (s_index <$> w_segs w) → w_segs w !! p = Some s → w_segs w !! q = Some s' → s_index s = s_index s' → p = q.
Proof.
  intros Hu Hp Hq He. apply (NoDup_lookup _ _ _ (s_index s) Hu); rewrite list_lookup_fmap; [by rewrite Hp|]. rewrite Hq. cbn. by rewrite He.
Qed.
(** The segment of a live job is where the old entry says. *)
Lemma old_pos_spec w id p s :
  Index w → w_segs w !! p = Some s → one (old_pos w (w_jobs w !! id) = Some p) = N.to_nat (ind (in_seg (s_index s)) (w_jobs w !! id)).
Proof.
  intros [_ _ Hj Hu] Hp. unfold old_pos, one, ind, in_seg. destruct (w_jobs w !! id) as [j|] eqn:Hid; cbn; [|done].
  destruct (Hj _ _ Hid) as (q & s' & Hq & Hi). rewrite (seg_pos_Some w _ q s') by done. cbn. repeat case_bool_decide; try done.
  - exfalso. naive_solver.
  - exfalso. assert (p = q) as ->; [|done]. eapply same_index; [done..|congruence].
Qed.
(** A job's entry becomes one in the current segment. *)
Lemma Index_move w c id new live :
  Index w → w_segs w !! w_cur w = Some c → je_seg new = s_index c →
  live = w_live_bytes w + je_used new - from_option je_used 0 (w_jobs w !! id) →
  Index (w <| w_segs := moved_segs w id (je_off new) (w_jobs w !! id) |> <| w_jobs ::= <[id := new]> |> <| w_live_bytes := live |>).
Proof.
  intros HI Hc Hnew ->. pose proof HI as [Hl Hs Hj Hu]. assert (s_index <$> moved_segs w id (je_off new) (w_jobs w !! id) = s_index <$> w_segs w) as Hix.
  { unfold moved_segs. rewrite indexes_unanchor. by apply indexes_alter. }
  constructor; inn.
  - pose proof (sum_of_insert je_used (w_jobs w) id new). lia.
  - intros p s' (s1 & (s & Hp & Hi1 & Ha1 & Hp1)%anchored_lookup & Hi & Ha & Hpu)%unanchor_lookup. destruct (Hs _ _ Hp) as [Hcnt Hlist].
    assert (one (p = w_cur w) = N.to_nat (ind (in_seg (s_index s)) (Some new))) as Hone.
    { unfold one, ind, in_seg. repeat case_bool_decide; try done; exfalso; [naive_solver|].
      assert (p = w_cur w); [|done]. eapply same_index; [done..|congruence]. }
    split; rewrite ?Hi, ?Hi1.
    + rewrite Ha, Ha1, (old_pos_spec w id p s HI Hp), Hone. pose proof (count_insert (in_seg (s_index s)) (w_jobs w) id new). lia.
    + intros id' j. rewrite Hpu, Hp1, elem_of_app. intros [(<- & <-)|[Hne Hid]]%lookup_insert_Some He; [right|left; by eapply Hlist].
      assert (p = w_cur w) as ->; [eapply same_index; [done..|congruence]|]. rewrite bool_decide_eq_true_2 by done. by left.
  - intros id' j Hid'. assert (∃ p s, w_segs w !! p = Some s ∧ s_index s = je_seg j) as (p & s & Hp & Hi).
    { apply lookup_insert_Some in Hid' as [(<- & <-)|[_ Hid]]; [by exists (w_cur w), c|by eapply Hj]. }
    assert ((s_index <$> moved_segs w id (je_off new) (w_jobs w !! id)) !! p = Some (je_seg j)) as Hlk by by rewrite Hix, list_lookup_fmap, Hp, <-Hi.
    rewrite list_lookup_fmap, fmap_Some in Hlk. destruct Hlk as (s' & Hs' & He). by exists p, s'.
  - by rewrite Hix.
Qed.
Lemma Index_ext w w' :
  Index w → w_segs w' = w_segs w → w_jobs w' = w_jobs w → w_live_bytes w' = w_live_bytes w → Index w'.
Proof. intros [] Hs Hj Hl. constructor; by rewrite ?Hs, ?Hj, ?Hl. Qed.
(** A job's entry changes in place. *)
Lemma Index_update w id j new live :
  Index w → w_jobs w !! id = Some j → je_seg new = je_seg j → je_off new = je_off j →
  live = w_live_bytes w + je_used new - je_used j →
  Index (w <| w_jobs ::= <[id := new]> |> <| w_live_bytes := live |>).
Proof.
  intros [Hl Hs Hj Hu] Hid Hseg Hoff ->. constructor; inn; [| | |done].
  - pose proof (sum_of_insert je_used (w_jobs w) id new) as H. rewrite Hid in H. cbn in H. lia.
  - intros p s Hp. destruct (Hs _ _ Hp) as [Hc Hlist]. split.
    + pose proof (count_insert (in_seg (s_index s)) (w_jobs w) id new) as H. rewrite Hid in H. unfold ind, in_seg in *. rewrite Hseg in H. lia.
    + intros id' j' [(<- & <-)|[_ Hid']]%lookup_insert_Some He; [rewrite Hoff; apply Hlist; [done|congruence]|by apply Hlist].
  - intros id' j' [(<- & <-)|[_ Hid']]%lookup_insert_Some; [rewrite Hseg|]; by eapply Hj.
Qed.
(** A job's entry goes. *)
Lemma Index_remove w id j live :
  Index w → w_jobs w !! id = Some j → live = w_live_bytes w - je_used j →
  Index (w <| w_jobs ::= delete id |> <| w_live_bytes := live |> <| w_segs := unanchor_at (old_pos w (Some j)) (w_segs w) |>).
Proof.
  intros HI Hid ->. pose proof HI as [Hl Hs Hj Hu]. constructor; inn.
  - pose proof (sum_of_delete je_used (w_jobs w) id j Hid). lia.
  - intros p s' (s & Hp & Hi & Ha & Hpu)%unanchor_lookup. destruct (Hs _ _ Hp) as [Hcnt Hlist]. split; rewrite ?Hi.
    + pose proof (old_pos_spec w id p s HI Hp) as Ho. rewrite Hid in Ho. rewrite Ha, Ho.
      pose proof (count_delete (in_seg (s_index s)) (w_jobs w) id) as Hc. rewrite Hid in Hc. lia.
    + intros id' j' [_ Hid']%lookup_delete_Some He. rewrite Hpu. by eapply Hlist.
  - intros id' j' [_ Hid']%lookup_delete_Some. destruct (Hj _ _ Hid') as (p & s & Hp & Hi).
    assert ((s_index <$> unanchor_at (old_pos w (Some j)) (w_segs w)) !! p = Some (je_seg j')) as Hlk.
    { by rewrite indexes_unanchor, list_lookup_fmap, Hp, <-Hi. }
    rewrite list_lookup_fmap, fmap_Some in Hlk. destruct Hlk as (s' & Hs' & He). by exists p, s'.
  - by rewrite indexes_unanchor.
Qed.

(** ** The files do not depend on the anchors *)
Definition shape (s : Seg) : N * nat * nat * bool := (s_index s, s_size s, s_written s, s_file s).
Lemma Forall2_shape {X} (R : Seg → X → Prop) l l' C :
  (∀ s s' x, shape s = shape s' → R s x → R s' x) → shape <$> l' = shape <$> l → Forall2 R l C → Forall2 R l' C.
Proof.
  intros HR He H. revert l' He. induction H as [|s x l C Hs _ IH]; intros [|s' l'] He; try done. cbn in He. injection He as He1 He2.
  constructor; [|by apply IH]. eapply HR; [|done]. unfold shape. congruence.
Qed.
Section shape.
Context (record_crc : Bytes → Bytes → N).
Lemma Files_shape G B w wd w' :
  Files record_crc G B (w, wd) → shape <$> w_segs w' = shape <$> w_segs w → w_cur w' = w_cur w → w_buf w' = w_buf w →
  w_buf_start w' = w_buf_start w → w_seg_size w' = w_seg_size w → w_disk_total w' = w_disk_total w → w_next_index w' = w_next_index w →
  Files record_crc G B (w', wd).
Proof.
  intros [(cl & c & sp & Hsegs & Hcur & Hcl & Hc & Hsp) Hs Hn Hi Hf Ht Hz] Hsh Hcu Hb Hbs Hz' Ht' Hn'. inn_in Hsegs. inn_in Hcur. inn_in Ht.
  pose proof Hsh as Hsh'. rewrite Hsegs, fmap_app in Hsh'. apply fmap_app_inv in Hsh' as (cl' & r & Hcl' & Hr & Hsegs').
  symmetry in Hr, Hcl'. destruct r as [|c' sp']; [done|]. cbn in Hr. injection Hr as Hci Hcs Hcw Hcf Hsp'.
  constructor; inn; rewrite ?Hz', ?Ht', ?Hn'; try done.
  - exists cl', c', sp'. rewrite Hcu, Hb, Hbs, Hz'. split; [done|]. split; [|split_and!].
    + rewrite Hcur, <-(length_fmap shape cl), <-(length_fmap shape cl'). by rewrite Hcl'.
    + eapply Forall2_shape; [|done|done]. unfold shape, closed_seg. intros s s' x [= -> -> -> _]. done.
    + unfold cur_seg in *. by rewrite Hci, Hcs, Hcw, Hcf.
    + eapply Forall2_shape; [|done|done]. unfold shape, spare_seg. intros s s' x [= -> -> -> ->]. done.
  - rewrite Ht. f_equal. assert (∀ l : list Seg, s_size <$> l = (λ x : N * nat * nat * bool, x.1.1.2) <$> (shape <$> l)) as Hsz.
    { intros l. by rewrite <-list_fmap_compose. }
    by rewrite !Hsz, Hsh.
Qed.
End shape.
