(* ===== verification/WalInv.v ===== *)
(** * The operations of an open log keep its invariant

    [Inv G B]: the files hold the records of [G], the buffer those of [B],
    and the index is their replay.  Every operation keeps it; the live jobs
    follow the journal, and a directory found at any moment holds live jobs
    that the caller allows ([safe]). *)

From S2P Require Import Prelude Ms Proto Stats Parse Reply Model Format Snapshot Replay Scan Wal WalDisk WalFiles.
From S2P Require Import WalIndex.
From stdpp Require Import options.

Lemma rec_len_put record tube body : rec_len (Rec.Put record tube body) = put_rec_len (length (bs tube)) (length body).
Proof.
  unfold rec_len, put_rec_len. cbn [payload_of]. unfold put_payload. cbn [length]. rewrite !length_app, length_encode_jobrec.
  cbn [length]. lia.
Qed.
Lemma rec_len_update record : rec_len (Rec.Update record) = UPDATE_REC_LEN.
Proof. unfold rec_len. cbn [payload_of length]. by rewrite length_encode_jobrec. Qed.
Lemma rec_len_delete id : rec_len (Rec.Delete id) = DELETE_REC_LEN.
Proof. unfold rec_len. cbn [payload_of length]. by rewrite length_le_bytes. Qed.

Lemma w_segs_ext f g w : f (w_segs w) = g (w_segs w) → w <| w_segs ::= f |> = w <| w_segs ::= g |>.
Proof. intros H. cbv [set_field w_segs_set]. by rewrite H. Qed.

Section inv.
Context (record_crc : Bytes → Bytes → N) (Hcrc : ∀ l p, (record_crc l p < 2 ^ 32)%N).
#[local] Abbreviation image := (image record_crc).
#[local] Abbreviation holds := (holds record_crc).
#[local] Abbreviation Files := (Files record_crc).
#[local] Abbreviation framed_rec := (framed_rec record_crc).
Implicit Types (d : Disk) (G : Ghost) (B : list Rec) (st : St) (w : Inner) (ok : Live → Prop).

Lemma encode_fits r : fits r → encode_rec record_crc r = Some (framed_rec r).
Proof. intros [Hok Hlt]. rewrite encode_rec_frame by done. by apply frame_Some. Qed.

(** ** The invariant *)
Definition state_of G : ReplayState := replayed ReplayState_default (located (content G)).
(** The live jobs of the records. *)
Definition lives G : Live := live_run ∅ (all_of (content G)).
Lemma lives_state G : live_of (state_of G) = lives G.
Proof.
  unfold state_of, lives. rewrite replayed_live by apply tl_ok_default. rewrite located_recs. done.
Qed.
Lemma lives_push G B : lives (pushed G B) = live_run (lives G) B.
Proof. unfold lives, live_run. by rewrite all_of_push, foldl_app. Qed.
Lemma located_lives G G' : located (content G') = located (content G) → lives G' = lives G.
Proof. intros H. unfold lives. by rewrite <-!located_recs, H. Qed.
Record Inv G B st : Prop := {
  in_files : Files G B st;
  in_index : Index st.1;
  in_jobs : w_jobs st.1 = entry_of <$> rs_jobs (state_of (pushed G B));
}.
(** A directory whose live jobs are allowed. *)
Definition safe ok d : Prop := ∃ C, holds d C ∧ ok (live_run ∅ (all_of C)).
Lemma safe_content ok G d : ok (lives G) → holds d (content G) → safe ok d.
Proof. intros Hok Hh. by exists (content G). Qed.

Lemma Files_keys G B st : Files G B st → s_index <$> w_segs st.1 = keys G.
Proof.
  intros [(cl & c & sp & -> & _ & Hcl & (Hc & _) & Hsp) _ _ _ _ _ _]. rewrite keys_eq, fmap_app. cbn. rewrite Hc. f_equal; [|f_equal].
  - induction Hcl as [|s ir cl C (Hi & _) _ IH]; [done|]. cbn. by rewrite Hi, IH.
  - induction Hsp as [|s i sp l (Hi & _) _ IH]; [done|]. cbn. by rewrite Hi, IH.
Qed.
Lemma sorted_NoDup (l : list N) : StronglySorted N.lt l → NoDup l.
Proof. induction 1 as [|k L HL IH Hk]; constructor; [|done]. intros Hin. eapply Forall_forall in Hk; [|done]. lia. Qed.
Lemma Files_unique G B st : Files G B st → NoDup (s_index <$> w_segs st.1).
Proof. intros HF. rewrite (Files_keys _ _ _ HF). apply sorted_NoDup, (fi_sorted _ _ _ _ HF). Qed.
(** The index through the primitives. *)
Lemma Index_files G B G' B' st st' :
  Index st.1 → Files G B st → Files G' B' st' → Same st.1 st'.1 → Index st'.1.
Proof.
  intros HI HF HF' Hs. eapply Index_same; [done|done|by eapply Files_unique|]. intros s Hin. apply (keys_next _ _ _ _ _ HF).
  rewrite <-(Files_keys _ _ _ HF). apply list_elem_of_fmap. by exists s.
Qed.
Lemma state_push G B r :
  state_of (pushed G (B ++ [r])) = applied (state_of (pushed G B)) (g_index G, SEG_HEADER_LEN + length (image (g_recs G ++ B)), r).
Proof.
  unfold state_of. rewrite !located_content. gho. rewrite (assoc_L (++)), (locate_app record_crc), (assoc_L (++)). cbn [locate].
  unfold replayed. by rewrite foldl_app.
Qed.

(** ** Placing a record and its bytes *)
Record Placed G B st r (off : nat) ok G' B' w2 wd2 : Prop := {
  pl_files : Files G' (B' ++ [r]) (w2, wd2);
  pl_index : Index w2;
  pl_jobs : w_jobs w2 = w_jobs st.1;
  pl_state : state_of (pushed G' (B' ++ [r])) = applied (state_of (pushed G B)) (g_index G', off, r);
  pl_lives : lives (pushed G' (B' ++ [r])) = live_step (lives (pushed G B)) r;
  pl_disk : ok (lives G');
  pl_cur : ∃ c, w_segs w2 !! w_cur w2 = Some c ∧ s_index c = g_index G';
  pl_same : Same st.1 w2;
  pl_segs : placed_segs st.1 (rec_len r) w2;
}.
Lemma place_placed G B st r ok :
  Inv G B st → fits r → ok (lives G) → ok (lives (pushed G B)) →
  wp (place (rec_len r)) (safe ok)
    (λ off st1, ∃ G' B', Placed G B st r off ok G' B' (st1.1 <| w_buf ::= (.++ framed_rec r) |>) st1.2)
    (λ e _, e = WalError.Io ∧ must_roll st.1 (rec_len r) = true ∧ (length (w_segs st.1) ≤ w_cur st.1 + 1)) st.
Proof using Hcrc.
  intros [HF HI HJ] Hr Hok Hok'. eapply wp_mono; [eapply place_spec; [done|done|..]|].
  - intros d. by apply safe_content.
  - intros d. by apply safe_content.
  - intros off [w1 wd1] (G' & B' & HF' & Hl & Hcase & -> & Hsame & Hsegs). inn_in Hsame. inn_in Hsegs. inn_in HF'. inn. exists G', B'.
    set (w2 := w1 <| w_buf ::= (.++ framed_rec r) |>) in *.
    assert (Same st.1 w2) as Hsame2 by (etrans; [exact Hsame|]; constructor; try done; exists []; by rewrite app_nil_r).
    constructor; try done.
    + by apply (Index_files G B G' (B' ++ [r]) st (w2, wd1)).
    + by destruct (sa_jobs _ _ Hsame).
    + rewrite state_push. f_equal. unfold state_of. by rewrite Hl.
    + rewrite lives_push. unfold live_run. rewrite foldl_app. cbn. f_equal. fold (live_run (lives G') B'). rewrite <-lives_push. by apply located_lives.
    + destruct Hcase as [[-> ->]|HB]; [done|]. subst B'. rewrite push_nil in Hl. by rewrite (located_lives _ _ Hl).
    + destruct (Files_cur _ _ _ _ HF') as (c & Hc & _ & Hi). by exists c.
Qed.
Lemma anchor_wp w wd c id off (C : Disk → Prop) Q E :
  w_segs w !! w_cur w = Some c → Q (s_index c) (w <| w_segs ::= alter (anchored_seg id off) (w_cur w) |>, wd) →
  wp (anchor id off) C Q E (w, wd).
Proof.
  intros Hc HQ. unfold anchor. apply wp_bind, wp_get. apply wp_bind. eapply wp_seg_at; [exact Hc|]. apply wp_bind, wp_upd_seg. by apply wp_ret.
Qed.
Lemma unanchor_wp w wd i p s (C : Disk → Prop) Q E :
  seg_pos i w = Some p → w_segs w !! p = Some s → 1 ≤ s_anchors s →
  Q () (w <| w_segs ::= alter unanchored p |>, wd) → wp (unanchor i) C Q E (w, wd).
Proof.
  intros Hp Hs Ha HQ. unfold unanchor. apply wp_bind, wp_get. cbn [fst]. rewrite Hp. apply wp_bind. eapply wp_seg_at; [exact Hs|].
  apply wp_bind, wp_sub; [done|]. apply wp_upd_seg. cbn [fst snd]. 
  assert (alter (λ s0, s0 <| s_anchors := s_anchors s - 1 |>) p (w_segs w) = alter unanchored p (w_segs w)) as He.
  { apply list_alter_ext; [|done]. intros s0 Hs0. rewrite Hs in Hs0. injection Hs0 as <-. unfold unanchored. inner_all. f_equal. lia. }
  by rewrite (w_segs_ext _ _ _ He).
Qed.

Lemma Inv_ext G B w wd w' wd' :
  Inv G B (w, wd) → d_files wd' = d_files wd → w_segs w' = w_segs w → w_cur w' = w_cur w → w_buf w' = w_buf w →
  w_buf_start w' = w_buf_start w → w_seg_size w' = w_seg_size w → w_disk_total w' = w_disk_total w →
  w_next_index w' = w_next_index w → w_jobs w' = w_jobs w → w_live_bytes w' = w_live_bytes w → Inv G B (w', wd').
Proof.
  intros [HF HI HJ] Hd Hs Hc Hb Hbs Hz Ht Hn Hj Hl. constructor.
  - eapply Files_ext; try done. by rewrite Hn.
  - by eapply Index_ext.
  - inn. by rewrite Hj.
Qed.
Lemma shape_alter f p (l : list Seg) : (∀ s, shape (f s) = shape s) → shape <$> alter f p l = shape <$> l.
Proof.
  intros Hf. apply list_eq. intros i. rewrite !list_lookup_fmap. destruct (decide (i = p)) as [->|Hne].
  - rewrite list_lookup_alter_eq. destruct (l !! p); cbn; [by rewrite Hf|done].
  - by rewrite list_lookup_alter_ne.
Qed.
Lemma shape_unanchor q l : shape <$> unanchor_at q l = shape <$> l.
Proof. destruct q; [by apply shape_alter|done]. Qed.
Lemma used_le w id j : Index w → w_jobs w !! id = Some j → je_used j ≤ w_live_bytes w.
Proof. intros HI Hid. rewrite (ix_live _ HI), (sum_of_delete _ _ _ _ Hid). lia. Qed.
(** What an operation that logs [r] ends in. *)
Definition Logged G B ok r st' : Prop :=
  ∃ G' B', Inv G' B' st' ∧ lives (pushed G' B') = live_step (lives (pushed G B)) r ∧ ok (lives G').

Section put.
Context (G : Ghost) (B : list Rec) (st : St) (record : JobRecord) (tube : TubeName) (body : Bytes) (off : nat) (ok : Live → Prop).
Context (G' : Ghost) (B' : list Rec) (w : Inner) (wd : World) (c : Seg).
#[local] Abbreviation r := (Rec.Put record tube body).
Context (HP : Placed G B st r off ok G' B' w wd) (Hc : w_segs w !! w_cur w = Some c) (Hi : s_index c = g_index G').
Context (HJ : w_jobs w = entry_of <$> rs_jobs (state_of (pushed G B))).
#[local] Abbreviation new := (mkJobEntry record (s_index c) off (rec_len r) (rec_len r)).
(** The index after the Put. *)
Lemma put_inv w' :
  w_segs w' = moved_segs w (r_id record) off (w_jobs w !! r_id record) → w_jobs w' = <[r_id record := new]> (w_jobs w) →
  w_live_bytes w' = w_live_bytes w + rec_len r - from_option je_used 0 (w_jobs w !! r_id record) →
  w_cur w' = w_cur w → w_buf w' = w_buf w → w_buf_start w' = w_buf_start w → w_seg_size w' = w_seg_size w →
  w_disk_total w' = w_disk_total w → w_next_index w' = w_next_index w → Inv G' (B' ++ [r]) (w', wd).
Proof using HP Hc Hi HJ.
  intros Hs Hj Hl. intros. constructor.
  - eapply Files_shape; [exact (pl_files _ _ _ _ _ _ _ _ _ _ HP)|..]; try done. rewrite Hs. unfold moved_segs. rewrite shape_unanchor. by apply shape_alter.
  - eapply Index_ext; [exact (Index_move w c (r_id record) new _ (pl_index _ _ _ _ _ _ _ _ _ _ HP) Hc eq_refl eq_refl)|done..].
  - inn. rewrite Hj, (pl_state _ _ _ _ _ _ _ _ _ _ HP), applied_jobs by apply replayed_ok, tl_ok_default.
    rewrite fmap_insert, HJ. f_equal. by rewrite Hi.
Qed.
End put.

Lemma seg_pos_indexes w w' i : s_index <$> w_segs w' = s_index <$> w_segs w → seg_pos i w' = seg_pos i w.
Proof.
  unfold seg_pos. generalize (w_segs w) (w_segs w'). intros l l'. revert l. induction l' as [|s' l' IH]; intros [|s l] He; try done.
  cbn in He. injection He as He1 He2. cbn. rewrite He1. case_decide; [done|]. specialize (IH _ He2).
  destruct (list_find _ l') as [[]|], (list_find _ l) as [[]|]; cbn in *; congruence.
Qed.
(** The segment of a live job, and its anchors. *)
Lemma job_seg w id j :
  Index w → w_jobs w !! id = Some j →
  ∃ p s, w_segs w !! p = Some s ∧ s_index s = je_seg j ∧ seg_pos (je_seg j) w = Some p ∧ 1 ≤ s_anchors s.
Proof.
  intros HI Hid. pose proof HI as [_ Hs Hj Hu]. destruct (Hj _ _ Hid) as (p & s & Hp & Hi). exists p, s. split_and!; [done|done|by eapply seg_pos_Some|].
  destruct (Hs _ _ Hp) as [Hc _]. pose proof (count_pos (in_seg (s_index s)) _ _ _ Hid ltac:(unfold in_seg; by apply bool_decide_eq_true)). lia.
Qed.
Lemma append_put_spec G B st record tube body ok :
  Inv G B st → fits (Rec.Put record tube body) → ok (lives G) → ok (lives (pushed G B)) →
  wp (append_entry record_crc (JournalEntry.Put record tube body)) (safe ok)
    (λ _ st', Logged G B ok (Rec.Put record tube body) st') (λ e _, e = WalError.Io) st.
Proof using Hcrc.
  intros HI Hr Hok Hok'. set (r := Rec.Put record tube body). unfold append_entry. rewrite <-rec_len_put with (record := record). fold r.
  apply wp_bind, wp_get. apply wp_bind. eapply (wp_mono _ _ (λ _ st0, Inv G B st0)).
  { apply wp_when; intros _; [|done]. apply wp_modify. destruct st as [w wd]. by eapply Inv_ext. }
  intros _ st0 HI0. apply wp_bind. eapply wp_conseq; [eapply (place_placed G B st0 r ok); done|done| |by intros e _ [-> _]].
  intros off [w1 wd] (G' & B' & HP). inn_in HP. set (w := w1 <| w_buf ::= (.++ framed_rec r) |>) in *.
  destruct (pl_cur _ _ _ _ _ _ _ _ _ _ HP) as (c & Hc & Hi). pose proof (pl_index _ _ _ _ _ _ _ _ _ _ HP) as HX.
  assert (w_jobs w = entry_of <$> rs_jobs (state_of (pushed G B))) as HJ by (rewrite (pl_jobs _ _ _ _ _ _ _ _ _ _ HP); apply HI0).
  pose proof (put_inv G B st0 record tube body off ok G' B' w wd c HP Hc Hi HJ) as Hinv.
  assert (∀ st', Inv G' (B' ++ [r]) st' → Logged G B ok r st') as Hlog.
  { intros st' HI'. exists G', (B' ++ [r]). split_and!; [done|apply (pl_lives _ _ _ _ _ _ _ _ _ _ HP)|apply (pl_disk _ _ _ _ _ _ _ _ _ _ HP)]. }
  apply wp_bind. unfold buffer. apply wp_bind. eapply wp_unwrap; [exact (encode_fits r Hr)|]. apply wp_modify. inn. fold w.
  apply wp_bind. eapply anchor_wp; [exact Hc|]. apply wp_bind, wp_get. inn. apply wp_bind, wp_modify. inn.
  change (w_jobs w1) with (w_jobs w). unfold moved_segs in Hinv. destruct (w_jobs w !! r_id record) as [j|] eqn:Hj; cbn [old_pos fmap option_fmap option_map unanchor_at] in Hinv.
  - pose proof (used_le _ _ _ HX Hj). destruct (job_seg _ _ _ HX Hj) as (p & s & Hp & Hsi & Hpos & Ha). rewrite Hpos in Hinv.
    apply wp_bind, wp_get. apply wp_bind, wp_sub; [inn; change (w_live_bytes w1) with (w_live_bytes w); lia|]. apply wp_bind, wp_modify. inn.
    assert (∃ s', alter (anchored_seg (r_id record) off) (w_cur w) (w_segs w) !! p = Some s' ∧ 1 ≤ s_anchors s') as (s' & Hs' & Ha').
    { destruct (decide (p = w_cur w)) as [->|Hne]; [rewrite list_lookup_alter_eq|rewrite list_lookup_alter_ne by done]; rewrite Hp; eexists; (split; [done|]).
      - unfold anchored_seg. inn. lia.
      - done. }
    eapply unanchor_wp; [|exact Hs'|done|].
    + rewrite <-Hpos. apply seg_pos_indexes. inn. by apply indexes_alter.
    + apply Hlog, Hinv; done.
  - apply wp_ret. apply Hlog, Hinv; try done. inn. cbn. by rewrite Nat.sub_0_r.
Qed.

Lemma update_jobs G seg off record :
  rs_jobs (applied (state_of G) (seg, off, Rec.Update record)) =
    alter (λ j, mkReplayJob record (p_tube j) (p_body j) (p_order j) (p_seg j) (p_off j) (p_put_len j) (p_used j + rec_len (Rec.Update record)))
      (r_id record) (rs_jobs (state_of G)).
Proof. apply applied_jobs, replayed_ok, tl_ok_default. Qed.
Lemma delete_jobs G seg off id :
  rs_jobs (applied (state_of G) (seg, off, Rec.Delete id)) = delete id (rs_jobs (state_of G)).
Proof. apply applied_jobs, replayed_ok, tl_ok_default. Qed.
(** Records that do not move a job: the index is changed in place. *)
Lemma in_place_inv G B st r off ok G' B' w wd w' :
  Placed G B st r off ok G' B' w wd → Index w' → shape <$> w_segs w' = shape <$> w_segs w →
  w_jobs w' = entry_of <$> rs_jobs (applied (state_of (pushed G B)) (g_index G', off, r)) →
  w_cur w' = w_cur w → w_buf w' = w_buf w → w_buf_start w' = w_buf_start w → w_seg_size w' = w_seg_size w →
  w_disk_total w' = w_disk_total w → w_next_index w' = w_next_index w → Logged G B ok r (w', wd).
Proof.
  intros HP HX Hs Hj. intros. exists G', (B' ++ [r]). split_and!; [|apply (pl_lives _ _ _ _ _ _ _ _ _ _ HP)|apply (pl_disk _ _ _ _ _ _ _ _ _ _ HP)].
  constructor; [|done|inn; by rewrite Hj, <-(pl_state _ _ _ _ _ _ _ _ _ _ HP)]. eapply Files_shape; [exact (pl_files _ _ _ _ _ _ _ _ _ _ HP)|done..].
Qed.
Lemma append_update_spec G B st record ok :
  Inv G B st → fits (Rec.Update record) → ok (lives G) → ok (lives (pushed G B)) →
  wp (append_entry record_crc (JournalEntry.Update record)) (safe ok)
    (λ _ st', Logged G B ok (Rec.Update record) st') (λ e _, e = WalError.Io) st.
Proof using Hcrc.
  intros HI Hr Hok Hok'. set (r := Rec.Update record). unfold append_entry. rewrite <-(rec_len_update record). fold r.
  apply wp_bind. eapply wp_conseq; [eapply (place_placed G B st r ok); done|done| |by intros e _ [-> _]].
  intros off [w1 wd] (G' & B' & HP). inn_in HP. set (w := w1 <| w_buf ::= (.++ framed_rec r) |>) in *.
  pose proof (pl_index _ _ _ _ _ _ _ _ _ _ HP) as HX.
  assert (w_jobs w = entry_of <$> rs_jobs (state_of (pushed G B))) as HJ by (rewrite (pl_jobs _ _ _ _ _ _ _ _ _ _ HP); apply HI).
  pose proof (update_jobs (pushed G B) (g_index G') off record : rs_jobs (applied _ (_, _, r)) = _) as Ha.
  apply wp_bind. unfold buffer. apply wp_bind. eapply wp_unwrap; [exact (encode_fits r Hr)|]. apply wp_modify. inn. fold w.
  apply wp_bind, wp_get. cbn [fst]. pose proof HJ as HJ'. apply (f_equal (lookup (r_id record))) in HJ'. rewrite lookup_fmap in HJ'.
  destruct (w_jobs w !! r_id record) as [j|] eqn:Hj; destruct (rs_jobs (state_of (pushed G B)) !! r_id record) as [j0|] eqn:Hj0; try done.
  - injection HJ' as ->. apply wp_modify. eapply in_place_inv; [exact HP|..]; try done.
    + eapply Index_ext; [eapply (Index_update w (r_id record) (entry_of j0)
        (mkJobEntry record (p_seg j0) (p_off j0) (p_put_len j0) (p_used j0 + rec_len r))); done|done|done|]. inn. cbn [je_used entry_of].
      change (w_live_bytes w1) with (w_live_bytes w). lia.
    + inn. rewrite Ha, HJ. apply map_eq. intros i. rewrite lookup_fmap. destruct (decide (i = r_id record)) as [->|].
      * by rewrite lookup_insert_eq, lookup_alter_eq, Hj0.
      * by rewrite lookup_insert_ne, lookup_alter_ne, lookup_fmap by done.
  - apply wp_ret. eapply in_place_inv; [exact HP|done|done| |done..]. rewrite HJ, Ha. f_equal. apply map_eq. intros i.
    destruct (decide (i = r_id record)) as [->|]; [by rewrite lookup_alter_eq, Hj0|by rewrite lookup_alter_ne].
Qed.
Lemma append_delete_spec G B st id ok :
  Inv G B st → fits (Rec.Delete id) → ok (lives G) → ok (lives (pushed G B)) →
  wp (append_entry record_crc (JournalEntry.Delete id)) (safe ok)
    (λ _ st', Logged G B ok (Rec.Delete id) st') (λ e _, e = WalError.Io) st.
Proof using Hcrc.
  intros HI Hr Hok Hok'. set (r := Rec.Delete id). unfold append_entry. rewrite <-(rec_len_delete id). fold r.
  apply wp_bind. eapply wp_conseq; [eapply (place_placed G B st r ok); done|done| |by intros e _ [-> _]].
  intros off [w1 wd] (G' & B' & HP). inn_in HP. set (w := w1 <| w_buf ::= (.++ framed_rec r) |>) in *.
  pose proof (pl_index _ _ _ _ _ _ _ _ _ _ HP) as HX.
  assert (w_jobs w = entry_of <$> rs_jobs (state_of (pushed G B))) as HJ by (rewrite (pl_jobs _ _ _ _ _ _ _ _ _ _ HP); apply HI).
  pose proof (delete_jobs (pushed G B) (g_index G') off id : rs_jobs (applied _ (_, _, r)) = _) as Ha.
  apply wp_bind. unfold buffer. apply wp_bind. eapply wp_unwrap; [exact (encode_fits r Hr)|]. apply wp_modify. inn. fold w.
  apply wp_bind, wp_get. cbn [fst]. destruct (w_jobs w !! id) as [j|] eqn:Hj.
  - pose proof (used_le _ _ _ HX Hj). destruct (job_seg _ _ _ HX Hj) as (p & s & Hp & Hsi & Hpos & Han).
    apply wp_bind, wp_modify. inn. apply wp_bind, wp_sub; [done|]. apply wp_bind, wp_modify. inn.
    eapply unanchor_wp; [|exact Hp|done|].
    + rewrite <-Hpos. by apply seg_pos_indexes.
    + eapply in_place_inv; [exact HP|..]; try done.
      * eapply Index_ext; [eapply (Index_remove w id j); [done|done|reflexivity]|..]; try done. inn.
        unfold old_pos. cbn [fmap option_fmap option_map]. by rewrite Hpos.
      * inn. by apply shape_alter.
      * inn. by rewrite HJ, Ha, fmap_delete.
  - apply wp_ret. eapply in_place_inv; [exact HP|done|done| |done..]. rewrite Ha, fmap_delete, <-HJ. by rewrite delete_id.
Qed.

(** ** Append *)
Lemma append_entry_spec G B st e ok :
  Inv G B st → fits (entry_rec e) → ok (lives G) → ok (lives (pushed G B)) →
  wp (append_entry record_crc e) (safe ok) (λ _ st', Logged G B ok (entry_rec e) st') (λ e _, e = WalError.Io) st.
Proof using Hcrc.
  destruct e; [apply append_put_spec|apply append_update_spec|apply append_delete_spec].
Qed.
Lemma append_entries_spec G B st es ok :
  Inv G B st → Forall fits (entry_rec <$> es) → ok (lives G) →
  (∀ k, ok (live_run (lives (pushed G B)) (take k (entry_rec <$> es)))) →
  wp (append_entries record_crc es) (safe ok)
    (λ _ st', ∃ G' B', Inv G' B' st' ∧ lives (pushed G' B') = live_run (lives (pushed G B)) (entry_rec <$> es) ∧ ok (lives G'))
    (λ e _, e = WalError.Io) st.
Proof using Hcrc.
  revert G B st. induction es as [|e es IH]; intros G B st HI Hf Hok Hall; cbn [append_entries].
  { apply wp_ret. by exists G, B. }
  cbn in Hf. apply Forall_cons in Hf as [He Hf]. apply wp_bind. eapply wp_mono; [apply append_entry_spec; [done|done|done|exact (Hall 0)]|].
  intros _ [w wd] (G' & B' & HI' & HL & Hok'). apply wp_bind, wp_modify. inn. eapply wp_mono.
  - apply (IH G' B'); [by eapply Inv_ext|done|done|]. intros k. rewrite HL. exact (Hall (S k)).
  - intros _ st' (G2 & B2 & HI2 & HL2 & Hok2). exists G2, B2. split_and!; [done| |done]. rewrite HL2, HL. done.
Qed.
Lemma flush_inv G B st ok E :
  Inv G B st → ok (lives (pushed G B)) →
  wp flush (safe ok) (λ _ st', Inv (pushed G B) [] st' ∧ Same st.1 st'.1 ∧ w_segs st'.1 = w_segs st.1 ∧ w_cur st'.1 = w_cur st.1) E st.
Proof.
  intros [HF HI HJ] Hok. eapply wp_mono; [eapply flush_spec; [done|]|].
  - intros d. by apply safe_content.
  - intros _ st' (HF' & Hsame & Hs & Hc). split_and!; try done. constructor; [done| |].
    + by eapply Index_files.
    + rewrite push_nil. destruct (sa_jobs _ _ Hsame) as [-> _]. done.
Qed.
Lemma sync_cur_inv G B st ok E :
  Inv G B st → ok (lives G) → wp sync_cur (safe ok) (λ _ st', Inv G B st' ∧ st'.1 = st.1 <| w_unsynced := false |>) E st.
Proof.
  intros [HF HI HJ] Hok. eapply wp_mono; [eapply sync_cur_spec; [done|]|].
  - intros d. by apply safe_content.
  - intros _ [w' wd'] (HF' & _ & Hw). inn_in Hw. subst w'. split; [|done]. by constructor; [|eapply Index_ext|].
Qed.
Lemma sync_unless_never_inv G B st ok E :
  Inv G B st → ok (lives G) →
  wp sync_unless_never (safe ok) (λ _ st', Inv G B st' ∧ Same st.1 st'.1 ∧ w_segs st'.1 = w_segs st.1 ∧ w_cur st'.1 = w_cur st.1) E st.
Proof.
  intros [HF HI HJ] Hok. eapply wp_mono; [eapply sync_unless_never_spec; [done|]|].
  - intros d. by apply safe_content.
  - intros _ st' (HF' & Hsame & Hs & Hc). split_and!; try done. constructor; [done|by eapply Index_files|].
    by destruct (sa_jobs _ _ Hsame) as [-> _].
Qed.
Lemma append_spec G st es ok :
  Inv G [] st → Forall fits (entry_rec <$> es) → (∀ k, ok (live_run (lives G) (take k (entry_rec <$> es)))) →
  wp (append record_crc es) (safe ok)
    (λ _ st', ∃ G', Inv G' [] st' ∧ lives G' = live_run (lives G) (entry_rec <$> es))
    (λ e _, e = WalError.Io) st.
Proof using Hcrc.
  intros HI Hf Hall. unfold append. apply wp_bind. eapply wp_mono; [apply (append_entries_spec G [] _ _ ok); [done|done|exact (Hall 0)|by rewrite push_nil]|].
  rewrite push_nil. intros _ [w wd] (G' & B' & HI' & HL & Hok). apply wp_bind, wp_modify. inn. apply wp_bind.
  assert (ok (lives (pushed G' B'))) as Hok'.
  { rewrite HL. specialize (Hall (length (entry_rec <$> es))). by rewrite firstn_all in Hall. }
  eapply wp_mono; [apply (flush_inv G' B' _ ok); [by eapply Inv_ext|done]|]. intros _ st1 (HI1 & _). apply wp_bind, wp_get.
  apply wp_when; intros _.
  - eapply wp_mono; [by apply (sync_cur_inv (pushed G' B') [] _ ok)|]. intros _ st2 [HI2 _]. by exists (pushed G' B').
  - by exists (pushed G' B').
Qed.
Lemma sync_if_due_spec G st now ok E :
  Inv G [] st → ok (lives G) → wp (sync_if_due now) (safe ok) (λ _ st', Inv G [] st') E st.
Proof.
  intros HI Hok. unfold sync_if_due. apply wp_bind, wp_get. destruct (w_policy st.1); try by apply wp_ret.
  destruct (negb _); [by apply wp_ret|]. destruct (match w_last_sync st.1 with Some _ => _ | None => _ end); [by apply wp_ret|].
  apply wp_bind, wp_modify. destruct st as [w wd]. inn. eapply wp_mono; [apply (sync_cur_inv G [] _ ok); [by eapply Inv_ext|done]|].
  by intros _ st' [? _].
Qed.

(** ** Making room *)
(** More spares, and nothing else. *)
Definition spares_added G G' : Prop := ∃ l, G' = mkGhost (g_closed G) (g_index G) (g_recs G) (g_spares G ++ l).
Lemma spares_added_refl G : spares_added G G.
Proof. exists []. destruct G. cbn. by rewrite app_nil_r. Qed.
Lemma spares_added_trans G1 G2 G3 : spares_added G1 G2 → spares_added G2 G3 → spares_added G1 G3.
Proof. intros [l ->] [l' ->]. exists (l ++ l'). cbn. by rewrite (assoc_L (++)). Qed.
Lemma spares_located G G' : spares_added G G' → located (content G') = located (content G).
Proof. intros [l ->]. by rewrite !located_content. Qed.
Lemma spares_push G G' B : spares_added G G' → spares_added (pushed G B) (pushed G' B).
Proof. intros [l ->]. by exists l. Qed.
Lemma spares_lives G G' : spares_added G G' → lives G' = lives G.
Proof. intros H. by apply located_lives, spares_located. Qed.
Lemma alloc_avail w w' i c :
  w_segs w !! w_cur w = Some c → w_segs w' = w_segs w ++ [new_seg i (w_seg_size w)] → w_cur w' = w_cur w → w_seg_size w' = w_seg_size w →
  avail w' = avail w + capacity w ∧ future_count w' = S (future_count w).
Proof.
  intros Hc Hs Hcur Hz. pose proof (lookup_lt_Some _ _ _ Hc) as Hlt. unfold avail, future_count, capacity. rewrite Hcur, Hz, Hs, Hc.
  rewrite lookup_app_l by done. rewrite Hc, length_app. cbn [length].
  replace (length (w_segs w) + 1 - 1 - w_cur w) with (S (length (w_segs w) - 1 - w_cur w)) by lia. split; [|done]. cbn. lia.
Qed.
Lemma ensure_room_loop_spec fuel n spare G B st ok :
  Inv G B st → ok (lives G) → need n spare st.1 - avail st.1 ≤ fuel →
  wp (ensure_room_loop fuel n spare) (safe ok)
    (λ b st', ∃ G', Inv G' B st' ∧ spares_added G G' ∧ Same st.1 st'.1 ∧ w_cur st'.1 = w_cur st.1 ∧
       (b = true → need n spare st'.1 ≤ avail st'.1)) (λ _ _, False) st.
Proof.
  revert G st. induction fuel as [|fuel IH]; intros G st HI Hok Hfuel; cbn [ensure_room_loop]; apply wp_bind, wp_get; destruct (Nat.leb_spec (need n spare st.1) (avail st.1)) as [Hle|Hgt].
  1,3: (apply wp_ret; exists G; split_and!; [done|apply spares_added_refl|done|done|done]).
  - lia.
  - pose proof HI as [HF HX HJ]. apply wp_bind, wp_try. eapply wp_conseq; [eapply allocate_spec; [done|]|done| |].
    + intros d. by apply safe_content.
    + intros _ st1 (i & HF1 & Hsame & Hs & Hc). assert (spares_added G (add_spare G i)) as Hadd by by exists [i].
      destruct (Files_cur _ _ _ _ HF) as (c & Hcur & _). destruct (alloc_avail st.1 st1.1 i c Hcur Hs Hc) as [Hav Hfu]; [apply Hsame|].
      eapply wp_mono; [apply (IH (add_spare G i))|].
      * constructor; [done|by eapply Index_files|]. destruct (sa_jobs _ _ Hsame) as [-> _]. rewrite HJ. unfold state_of. by rewrite (spares_located _ _ (spares_push _ _ B Hadd)).
      * by rewrite (spares_lives _ _ Hadd).
      * destruct (sa_jobs _ _ Hsame) as [Hj _], (sa_pending _ _ Hsame) as [Hp1 Hp2], (sa_opts _ _ Hsame) as (_ & Hz & _).
        pose proof (fi_size _ _ _ _ HF). unfold need, reserved, slack, capacity in *. rewrite Hj, Hp1, Hp2, Hz, Hfu, Hav.
        change DELETE_REC_LEN with 17 in *. unfold SEG_HEADER_LEN in *. destruct spare; lia.
      * intros b st2 (G2 & HI2 & Hadd2 & Hsame2 & Hc2 & Hb). exists G2. split_and!; [done|by eapply spares_added_trans|by etrans|congruence|done].
    + intros e st1 (_ & HF1 & Hsame & Hs & Hc). apply wp_ret. exists G. split_and!; [|apply spares_added_refl|done|done|done].
      constructor; [done|by eapply Index_files|]. by destruct (sa_jobs _ _ Hsame) as [-> _].
Qed.
Lemma ensure_room_spec n spare G B st ok :
  Inv G B st → ok (lives G) →
  wp (ensure_room n spare) (safe ok)
    (λ b st', ∃ G', Inv G' B st' ∧ spares_added G G' ∧ Same st.1 st'.1 ∧ w_cur st'.1 = w_cur st.1 ∧
       (b = true → need n spare st'.1 ≤ avail st'.1)) (λ _ _, False) st.
Proof. intros HI Hok. unfold ensure_room. apply wp_bind, wp_get. apply ensure_room_loop_spec; [done|done|lia]. Qed.
Lemma reserve_put_spec G st tl bl ok :
  Inv G [] st → ok (lives G) →
  wp (reserve_put tl bl) (safe ok)
    (λ b st', ∃ G', Inv G' [] st' ∧ spares_added G G' ∧ (b = true → need 0 true st'.1 ≤ avail st'.1 ∧ put_rec_len tl bl ≤ capacity st'.1) ∧
       w_jobs st'.1 = w_jobs st.1 ∧
       w_pending_puts st'.1 = w_pending_puts st.1 + (if b then 1 else 0) ∧
       w_pending_bytes st'.1 = w_pending_bytes st.1 + (if b then put_rec_len tl bl else 0)) (λ _ _, False) st.
Proof.
  intros HI Hok. unfold reserve_put. set (put := put_rec_len tl bl). apply wp_bind, wp_get. destruct (Nat.ltb_spec (capacity st.1) put).
  { apply wp_ret. exists G. split_and!; [done|apply spares_added_refl|done|done|lia|lia]. }
  apply wp_bind, wp_modify. destruct st as [w wd]. inn. apply wp_bind.
  eapply wp_mono; [apply (ensure_room_spec _ _ G []); [by eapply Inv_ext|done]|].
  intros b [w1 wd1] (G' & HI' & Hadd & Hsame & Hc & Hb). inn_in Hb. inn_in Hsame. destruct (sa_pending _ _ Hsame) as [Hp1 Hp2], (sa_jobs _ _ Hsame) as [Hj _], (sa_opts _ _ Hsame) as (_ & Hz & _).
  inn_in Hp1. inn_in Hp2. inn_in Hj. inn_in Hz. apply wp_bind, wp_get. inn. apply wp_bind, wp_sub; [lia|]. apply wp_bind, wp_modify. inn. apply wp_bind. apply wp_when; intros ->.
  - apply wp_modify. inn. apply wp_ret. exists G'. inn. split_and!; [by eapply Inv_ext|done| |done|lia|lia].
    intros _. specialize (Hb eq_refl). unfold need, reserved, slack, avail, capacity, future_count in *. inn. inn_in H. rewrite Hz in Hb |- *. change DELETE_REC_LEN with 17 in *. split; lia.
  - apply wp_ret. exists G'. inn. split_and!; [by eapply Inv_ext|done|done|done|lia|lia].
Qed.
End inv.
