(* ===== verification/WalCompact.v ===== *)
(** * Compaction and garbage collection

    [gc] removes segments without the latest Put of a live job from the
    front, [move_one] writes such a Put again at the end.  Neither changes the
    live jobs, on disk or in memory. *)

From S2P Require Import Prelude Ms Proto Stats Parse Reply Model Format Snapshot Replay Scan Wal WalDisk WalFiles.
From S2P Require Import WalIndex WalInv.
From stdpp Require Import options.

Section compact.
Context (record_crc : Bytes → Bytes → N) (Hcrc : ∀ l p, (record_crc l p < 2 ^ 32)%N).
#[local] Abbreviation image := (image record_crc).
#[local] Abbreviation holds := (holds record_crc).
#[local] Abbreviation Files := (Files record_crc).
#[local] Abbreviation Inv := (Inv record_crc).
#[local] Abbreviation safe := (safe record_crc).
#[local] Abbreviation framed_rec := (framed_rec record_crc).
Implicit Types (d : Disk) (G : Ghost) (B : list Rec) (st : St) (w : Inner) (ok : Live → Prop).

(** ** Removing the first segment *)
Definition pop G (rest : Content) : Ghost := mkGhost rest (g_index G) (g_recs G) (g_spares G).
Definition popped w (s : Seg) : Inner :=
  w <| w_segs ::= drop 1 |> <| w_cur ::= Nat.pred |> <| w_disk_total := w_disk_total w - s_size s |>
    <| w_reader ::= λ r, if bool_decide (r = Some (s_index s)) then None else r |>.
Lemma pop_content G i recs rest : g_closed G = (i, recs) :: rest → content G = (i, recs) :: content (pop G rest).
Proof. intros H. unfold content. by rewrite H. Qed.
Lemma Files_pop G B w wd i recs rest s l fs :
  Files G B (w, wd) → g_closed G = (i, recs) :: rest → w_segs w !! 0 = Some s →
  Files (pop G rest) B (popped w s, mkWorld (delete i (d_files wd)) l fs).
Proof.
  intros [(cl & c & sp & Hsegs & Hcur & Hcl & Hc & Hsp) Hs Hn Hi Hf Ht Hz] Hg H0. inn_in Hsegs. inn_in Hcur. inn_in Ht.
  rewrite Hg in Hcl. apply Forall2_cons_inv_r in Hcl as (s' & cl' & Hs' & Hcl & ->). rewrite Hsegs in H0. injection H0 as ->.
  assert (keys G = i :: keys (pop G rest)) as Hk by (unfold keys; by rewrite (pop_content _ _ _ _ Hg)).
  rewrite Hk in Hs. apply StronglySorted_inv in Hs as [Hs Hlt]. assert (i ∉ keys (pop G rest)) as Hno.
  { intros Hin. eapply Forall_forall in Hlt; [|done]. lia. }
  rewrite keys_eq in Hno. cbn [pop g_closed g_index g_spares] in Hno. apply not_elem_of_app in Hno as [Hno1 [Hno2 Hno3]%not_elem_of_cons].
  unfold popped. constructor; inn; try done.
  - exists cl', c, sp. inn. rewrite Hsegs, Hcur. split; [done|]. split; [done|]. cbn [pop g_closed g_spares]. split_and!.
    + eapply closed_frame; [|exact Hcl]. intros j Hj. rewrite lookup_delete_ne; [done|]. by intros <-.
    + destruct Hc as (? & ? & ? & ? & ? & k & Hd & ?). split_and!; try done. exists k. by rewrite lookup_delete_ne.
    + eapply spare_frame; [|exact Hsp]. intros j Hj. rewrite lookup_delete_ne; [done|]. by intros <-.
  - intros j [f [_ Hf']%lookup_delete_Some]. apply Hn. by eexists.
  - intros j f [Hne Hf']%lookup_delete_Some Hj. apply (Hi j f Hf'). rewrite Hk. apply not_elem_of_cons. by split.
  - rewrite (pop_content _ _ _ _ Hg) in Hf. change (all_of ((i, recs) :: content (pop G rest))) with (recs ++ all_of (content (pop G rest))) in Hf.
    rewrite <-(assoc_L (++)), Forall_app in Hf. by destruct Hf.
  - rewrite Ht, Hsegs. cbn. rewrite drop_0. lia.
Qed.
Lemma locate_seg i pos recs l : l ∈ locate i pos recs → l.1.1 = i.
Proof. revert pos. induction recs as [|r recs IH]; intros pos; cbn; [by intros ?%elem_of_nil|]. intros [->|H]%elem_of_cons; [done|eauto]. Qed.
(** A segment without anchors can be forgotten. *)
Lemma Index_pop w s :
  Index w → w_segs w !! 0 = Some s → (∀ id j, w_jobs w !! id = Some j → je_seg j ≠ s_index s) → Index (popped w s).
Proof.
  intros [Hl Hs Hj Hu] H0 Hno. unfold popped. constructor; inn; [done|..].
  - intros p s'. rewrite lookup_drop. apply Hs.
  - intros id j Hid. destruct (Hj _ _ Hid) as (p & s' & Hp & Hi). destruct p as [|p].
    + exfalso. apply (Hno _ _ Hid). congruence.
    + exists p, s'. by rewrite lookup_drop.
  - rewrite fmap_drop. destruct (s_index <$> w_segs w); [done|]. cbn. rewrite drop_0. by inversion Hu.
Qed.
Lemma Inv_pop G w wd s l fs :
  Inv G [] (w, wd) → w_cur w ≠ 0 → w_segs w !! 0 = Some s → s_anchors s = 0 →
  ∃ rest, Inv (pop G rest) [] (popped w s, mkWorld (delete (s_index s) (d_files wd)) l fs) ∧ lives (pop G rest) = lives G.
Proof.
  intros [HF HI HJ] Hcur H0 Ha. rewrite push_nil in HJ. inn_in HJ. pose proof HF as [(cl & c & sp & Hsegs & Hcl & Hcls & _) _ _ _ _ _ _].
  inn_in Hsegs. inn_in Hcl. destruct (g_closed G) as [|[i recs] rest] eqn:Hg; [apply Forall2_nil_inv_r in Hcls; by subst|].
  apply Forall2_cons_inv_r in Hcls as (s' & cl' & (Hi & _) & _ & ->). pose proof H0 as H0'. rewrite Hsegs in H0'. injection H0' as ->. cbn in Hi.
  assert (∀ id j, w_jobs w !! id = Some j → je_seg j ≠ s_index s) as Hno.
  { destruct (ix_segs _ HI 0 s H0) as [Hc _]. rewrite Ha in Hc. symmetry in Hc. rewrite count_zero in Hc. intros id j Hid. inn_in Hc.
    specialize (Hc _ _ Hid). by apply bool_decide_eq_false in Hc. }
  assert (located (content G) = locate i SEG_HEADER_LEN recs ++ located (content (pop G rest))) as Hloc by by rewrite (pop_content _ _ _ _ Hg).
  destruct (forget_segment i (locate i SEG_HEADER_LEN recs) (located (content (pop G rest)))) as [He HL].
  { intros x. apply locate_seg. }
  { rewrite <-Hloc. fold (state_of G). intros id j Hj. apply (f_equal (lookup id)) in HJ. rewrite lookup_fmap, Hj in HJ. apply Hno in HJ. cbn in HJ. congruence. }
  rewrite <-Hloc in He, HL. fold (state_of G) in He, HL. fold (state_of (pop G rest)) in He, HL. exists rest. split.
  - constructor.
    + rewrite Hi. by eapply Files_pop.
    + by apply Index_pop.
    + rewrite push_nil. unfold popped. inn. by rewrite HJ, <-He.
  - by rewrite <-!lives_state.
Qed.
Lemma gc_loop_spec fuel removed G B st ok :
  Inv G B st → (removed = true → B = []) → ok (lives G) → ok (lives (pushed G B)) → w_cur st.1 < fuel →
  wp (gc_loop fuel removed) (safe ok)
    (λ _ st', ∃ G' B', Inv G' B' st' ∧ lives (pushed G' B') = lives (pushed G B) ∧ ok (lives G') ∧ (B = [] → B' = [])) (λ _ _, False) st.
Proof.
  revert removed G B st. induction fuel as [|fuel IH]; intros removed G B st HI Hr Hok Hok' Hfuel; [lia|]. cbn [gc_loop].
  apply wp_bind, wp_get. destruct (Nat.eqb_spec (w_cur st.1) 0) as [|Hcur]; [apply wp_ret; by exists G, B|].
  assert (∃ s, w_segs st.1 !! 0 = Some s) as [s Hs].
  { pose proof (segs_length _ _ _ _ (in_files _ _ _ _ HI)) as Hlen. destruct (w_segs st.1); [done|by eexists]. }
  apply wp_bind. eapply wp_seg_at; [exact Hs|]. destruct (Nat.ltb_spec 0 (s_anchors s)) as [|Ha]; [apply wp_ret; by exists G, B|].
  apply wp_bind. eapply (wp_mono _ _ (λ _ st1, Inv (pushed G B) [] st1 ∧ w_segs st1.1 = w_segs st.1 ∧ w_cur st1.1 = w_cur st.1)).
  { apply wp_when; intros Hrem.
    - apply wp_bind. eapply wp_mono; [by apply (flush_inv _ G B)|]. intros _ st1 (HI1 & Hsame & Hs1 & Hc1).
      eapply wp_mono; [by apply (sync_unless_never_inv _ (pushed G B) [])|]. intros _ st2 (HI2 & _ & Hs2 & Hc2). split_and!; [done|congruence|congruence].
    - destruct removed; [|done]. rewrite (Hr eq_refl), push_nil in *. done. }
  intros _ [w1 wd1] (HI1 & Hs1 & Hc1). inn_in Hs1. inn_in Hc1. rewrite <-Hs1 in Hs. rewrite <-Hc1 in Hcur, Hfuel.
  apply wp_bind, wp_get. apply wp_bind, wp_sub.
  { rewrite (fi_total _ _ _ _ (in_files _ _ _ _ HI1)). inn. destruct (w_segs w1); [done|]. injection Hs as ->. cbn. lia. }
  inn. apply wp_bind, wp_modify. apply wp_bind, wp_io; inn; cbn [do_op].
  all: destruct (Inv_pop (pushed G B) w1 wd1 s [] [] HI1 Hcur Hs ltac:(lia)) as (rest & HI2 & HL).
  - eapply safe_content; [|exact (Files_holds _ _ _ _ (in_files _ _ _ _ HI2))]. by rewrite HL.
  - eapply wp_mono; [apply (IH true (pop (pushed G B) rest) [])|].
    + by eapply Inv_ext.
    + done.
    + by rewrite HL.
    + by rewrite push_nil, HL.
    + unfold popped. inn. lia.
    + intros r st' (G' & B' & HI' & HL' & Hok2 & HB). exists G', B'. rewrite push_nil, HL in HL'. split_and!; try done. intros _. by apply HB.
Qed.

Lemma gc_spec G B st ok :
  Inv G B st → ok (lives G) → ok (lives (pushed G B)) →
  wp gc (safe ok)
    (λ _ st', ∃ G' B', Inv G' B' st' ∧ lives (pushed G' B') = lives (pushed G B) ∧ ok (lives G') ∧ (B = [] → B' = [])) (λ _ _, False) st.
Proof.
  intros HI Hok Hok'. unfold gc. apply wp_bind, wp_get. apply wp_bind. eapply wp_mono; [apply (gc_loop_spec _ false G B _ ok); try done|].
  { rewrite (segs_length _ _ _ _ (in_files _ _ _ _ HI)). lia. }
  intros removed st1 (G' & B' & HI' & HL & Hok1 & HB). apply wp_bind, wp_get. apply wp_when; intros _.
  - destruct st1 as [w1 wd1]. apply wp_io; inn; cbn [do_op].
    + eapply safe_content; [exact Hok1|]. exact (Files_holds _ _ _ _ (in_files _ _ _ _ HI')).
    + exists G', B'. split_and!; try done. by eapply Inv_ext.
  - by exists G', B'.
Qed.

(** ** Finding a job to move *)
Lemma find_anchor_spec fuel from st (C : Disk → Prop) :
  w_cur st.1 < length (w_segs st.1) → w_cur st.1 - from < fuel →
  wp (find_anchor fuel from) C
    (λ o st', st' = st ∧ ∀ p, o = Some p → p + 2 ≤ w_cur st.1 ∧ ∃ s, w_segs st.1 !! p = Some s ∧ 0 < s_anchors s) (λ _ _, False) st.
Proof.
  intros Hlt. revert from. induction fuel as [|fuel IH]; intros from Hfuel; cbn [find_anchor]; [lia|].
  apply wp_bind, wp_get. destruct (Nat.ltb_spec (w_cur st.1) (from + 2)) as [|Hle]; [by apply wp_ret|].
  destruct (lookup_lt_is_Some_2 (w_segs st.1) from ltac:(lia)) as [s Hs]. apply wp_bind. eapply wp_seg_at; [exact Hs|].
  destruct (Nat.ltb_spec 0 (s_anchors s)) as [Ha|_].
  - apply wp_ret. split; [done|]. intros p [= <-]. split; [lia|by exists s].
  - apply IH. lia.
Qed.
Lemma front_put_spec (J : Jobs) i ps :
  (∃ id j, J !! id = Some j ∧ je_seg j = i ∧ (id, je_off j) ∈ ps) →
  ∃ id j tl, front_put J i ps = Some (id, (id, je_off j) :: tl) ∧ J !! id = Some j ∧ je_seg j = i ∧
    ∀ id' j', J !! id' = Some j' → je_seg j' = i → (id', je_off j') ∈ ps → (id', je_off j') ∈ (id, je_off j) :: tl.
Proof.
  intros (id0 & j0 & Hj0 & Hi0 & Hin0). induction ps as [|[id off] ps IH]; [by apply elem_of_nil in Hin0|]. cbn [front_put].
  assert (∀ j, J !! id = Some j → je_seg j = i → je_off j = off → ∃ id1 j1 tl, Some (id, (id, off) :: ps) = Some (id1, (id1, je_off j1) :: tl) ∧
    J !! id1 = Some j1 ∧ je_seg j1 = i ∧ ∀ id' j', J !! id' = Some j' → je_seg j' = i → (id', je_off j') ∈ (id, off) :: ps → (id', je_off j') ∈ (id1, je_off j1) :: tl) as Hhit.
  { intros j Hj Hi Ho. exists id, j, ps. by rewrite Ho. }
  assert ((∀ j, J !! id = Some j → je_seg j = i → je_off j ≠ off) → ∃ id1 j1 tl, front_put J i ps = Some (id1, (id1, je_off j1) :: tl) ∧
    J !! id1 = Some j1 ∧ je_seg j1 = i ∧ ∀ id' j', J !! id' = Some j' → je_seg j' = i → (id', je_off j') ∈ (id, off) :: ps → (id', je_off j') ∈ (id1, je_off j1) :: tl) as Hmiss.
  { intros Hne. destruct IH as (id1 & j1 & tl & Hf & Hj1 & Hi1 & Hall).
    { apply elem_of_cons in Hin0 as [[= -> Ho]|Hin0]; [|done]. by destruct (Hne j0 Hj0 Hi0). }
    exists id1, j1, tl. split_and!; try done. intros id' j' Hj' Hi' [[= -> Ho]|Hin]%elem_of_cons; [by destruct (Hne j')|by apply Hall]. }
  destruct (J !! id) as [j|] eqn:Hj; [|by apply Hmiss]. case_bool_decide as Hc; [destruct Hc; by apply (Hhit j)|].
  apply Hmiss. intros j' [= <-]. naive_solver.
Qed.
Lemma Index_puts w p s ps :
  Index w → w_segs w !! p = Some s → (∀ id j, w_jobs w !! id = Some j → je_seg j = s_index s → (id, je_off j) ∈ ps) →
  Index (w <| w_segs ::= alter (λ s, s <| s_puts := ps |>) p |>).
Proof.
  intros [Hl Hs Hj Hu] Hp Hps. assert (s_index <$> alter (λ s, s <| s_puts := ps |>) p (w_segs w) = s_index <$> w_segs w) as Hix by by apply indexes_alter.
  constructor; inn; [done| | |by rewrite Hix].
  - intros q s'. destruct (decide (q = p)) as [->|Hne].
    + rewrite list_lookup_alter_eq, Hp. intros [= <-]. destruct (Hs _ _ Hp) as [Hc _]. split; [exact Hc|]. inn. apply Hps.
    + rewrite list_lookup_alter_ne by done. apply Hs.
  - intros id j Hid. destruct (Hj _ _ Hid) as (q & s' & Hq & Hi).
    assert ((s_index <$> alter (λ s, s <| s_puts := ps |>) p (w_segs w)) !! q = Some (je_seg j)) as Hlk by by rewrite Hix, list_lookup_fmap, Hq, <-Hi.
    rewrite list_lookup_fmap, fmap_Some in Hlk. destruct Hlk as (s2 & Hs2 & He). by exists q, s2.
Qed.

(** ** The bytes of a Put *)
Lemma locate_bytes i pos recs off r :
  (i, off, r) ∈ locate i pos recs → r ∈ recs ∧ ∃ a b, image recs = a ++ framed_rec r ++ b ∧ off = pos + length a.
Proof.
  revert pos. induction recs as [|x recs IH]; intros pos; cbn [locate]; [by intros ?%elem_of_nil|].
  intros [[= -> <-]|Hin]%elem_of_cons.
  - split; [by left|]. exists [], (image recs). split; [done|cbn; lia].
  - destruct (IH _ Hin) as (Hr & a & b & Ha & ->). split; [by right|]. exists (framed_rec x ++ a), b. rewrite image_cons, Ha, <-(assoc_L (++)).
    split; [done|]. rewrite length_app, <-(rec_len_framed record_crc). unfold framed_rec. lia.
Qed.
Lemma restamp_bytes (len crc jr rest : Bytes) record' :
  length len = 4 → length crc = 4 → length jr = JOBREC_LEN →
  restamp_put record_crc (len ++ crc ++ KIND_PUT :: jr ++ rest) record' =
    len ++ le_bytes 4 (record_crc len (KIND_PUT :: encode_jobrec record' ++ rest)) ++ KIND_PUT :: encode_jobrec record' ++ rest.
Proof.
  intros Hl Hc Hj. unfold restamp_put. set (rec := len ++ crc ++ KIND_PUT :: jr ++ rest).
  assert (take JOBREC_OFFSET rec = len ++ crc ++ [KIND_PUT]) as ->.
  { replace rec with ((len ++ crc ++ [KIND_PUT]) ++ jr ++ rest) by (unfold rec; by rewrite <-!(assoc_L (++))).
    apply take_app_length'. by rewrite !length_app, Hl, Hc. }
  assert (drop (JOBREC_OFFSET + JOBREC_LEN) rec = rest) as ->.
  { replace rec with ((len ++ crc ++ [KIND_PUT] ++ jr) ++ rest) by (unfold rec; by rewrite <-!(assoc_L (++))).
    apply drop_app_length'. by rewrite !length_app, Hl, Hc, Hj. }
  rewrite <-!(assoc_L (++)). cbn [app]. rewrite take_app_length' by done.
  assert (drop REC_HEADER_LEN (len ++ crc ++ KIND_PUT :: encode_jobrec record' ++ rest) = KIND_PUT :: encode_jobrec record' ++ rest) as ->; [|done].
  rewrite (assoc_L (++)). apply drop_app_length'. by rewrite length_app, Hl, Hc.
Qed.
Lemma restamp record record' tube body :
  restamp_put record_crc (framed_rec (Rec.Put record tube body)) record' = framed_rec (Rec.Put record' tube body).
Proof.
  unfold framed_rec, framed. cbn [payload_of]. unfold put_payload. rewrite restamp_bytes by (apply length_le_bytes || apply length_encode_jobrec).
  cbn [length]. by rewrite !length_app, !length_encode_jobrec.
Qed.

Lemma replayed_record ls id j :
  Forall (rec_ok ∘ loc_rec) ls → rs_jobs (replayed ReplayState_default ls) !! id = Some j → jobrec_ok (p_record j).
Proof.
  revert id j. induction ls as [|[[seg off] rec] ls IH] using rev_ind; intros id j Hok; [done|].
  apply Forall_app in Hok as [Hok Hr]. rewrite Forall_singleton in Hr. cbn in Hr.
  unfold replayed. rewrite foldl_app. cbn [foldl]. fold (replayed ReplayState_default ls).
  rewrite applied_jobs by apply replayed_ok, tl_ok_default. destruct rec as [record tube body|record|id'].
  - intros [(<- & <-)|[_ Hj]]%lookup_insert_Some; [apply Hr|by eapply IH].
  - intros [(<- & j0 & Hj & ->)|[_ Hj]]%lookup_alter_Some; [done|by eapply IH].
  - intros [_ Hj]%lookup_delete_Some. by eapply IH.
Qed.
(** The file of a closed segment has the latest Put of each of its jobs. *)
Lemma put_bytes G B w wd p s id j :
  Inv G B (w, wd) → p < w_cur w → w_segs w !! p = Some s → w_jobs w !! id = Some j → je_seg j = s_index s →
  ∃ f b record tube body, let r := Rec.Put record tube body in let r' := Rec.Put (je_record j) tube body in
    d_files wd !! s_index s = Some f ∧ drop (je_off j) f = framed_rec r ++ b ∧ je_put_len j = rec_len r ∧ rec_len r' = rec_len r ∧
    fits r ∧ fits r' ∧ r_id (je_record j) = id ∧ lives (pushed G B) !! id = Some (mkRecoveredJob (je_record j) tube body).
Proof.
  intros [HF HI HJ] Hp Hs Hj Hseg. inn_in HJ. pose proof HJ as HJ'. apply (f_equal (lookup id)) in HJ'. rewrite lookup_fmap, Hj in HJ'.
  symmetry in HJ'. apply fmap_Some in HJ' as (j0 & Hj0 & ->). cbn [entry_of je_seg je_record je_off je_put_len] in *.
  destruct (replayed_put _ _ _ Hj0) as (Hid & record & Hrid & Hin & Hlen).
  pose proof HF as [(cl & c & sp & Hsegs & Hcur & Hcl & _) Hsort _ _ Hfits _ _]. inn_in Hsegs. inn_in Hcur.
  rewrite Hsegs, lookup_app_l in Hs by lia. destruct (Forall2_lookup_l _ _ _ _ _ Hcl Hs) as ([i recs] & Hg & Hi & _ & _ & h & Hh & Hd). cbn in Hi, Hd.
  rewrite Hseg, Hi in Hin. assert ((i, p_off j0, Rec.Put record (p_tube j0) (p_body j0)) ∈ locate i SEG_HEADER_LEN recs) as Hin'.
  { rewrite located_content in Hin. gho_in Hin. destruct (index_not_closed _ Hsort) as [Hnc _]. rewrite keys_eq in Hsort.
    apply StronglySorted_app_1_l in Hsort. assert ((i, recs) ∈ g_closed G) as Hir by (apply list_elem_of_lookup; by exists p).
    apply elem_of_app in Hin as [Hin|Hin].
    - apply list_elem_of_bind in Hin as ([i' recs'] & Hin & Hin'). pose proof (locate_seg _ _ _ _ Hin) as He. cbn in He. subst i'.
      pose proof (content_lookup _ _ _ Hsort Hin') as H1. pose proof (content_lookup _ _ _ Hsort Hir) as H2. rewrite H1 in H2. by injection H2 as ->.
    - apply locate_seg in Hin. cbn in Hin. subst i. destruct Hnc. apply list_elem_of_fmap. by exists (g_index G, recs). }
  apply locate_bytes in Hin' as (Hrec & a & b & Himg & Hoff).
  assert (fits (Rec.Put record (p_tube j0) (p_body j0))) as Hfit.
  { rewrite Forall_forall in Hfits. apply Hfits. apply elem_of_app. left. rewrite all_of_content. apply elem_of_app. left.
    apply list_elem_of_bind. exists (i, recs). split; [done|]. apply list_elem_of_lookup. by exists p. }
  assert (jobrec_ok (p_record j0)) as Hjr.
  { eapply replayed_record; [|exact Hj0]. rewrite <-(Forall_fmap loc_rec), located_recs, all_of_push. eapply Forall_impl; [exact Hfits|]. by intros r []. }
  assert (rec_len (Rec.Put (p_record j0) (p_tube j0) (p_body j0)) = rec_len (Rec.Put record (p_tube j0) (p_body j0))) as Hl by by rewrite !rec_len_put.
  exists (h ++ image recs), b, record, (p_tube j0), (p_body j0). cbn zeta. split_and!; try done.
  - by rewrite Hi.
  - rewrite Hoff, Himg, <-drop_drop. rewrite drop_app_length' by (symmetry; apply Hh). by rewrite drop_app_length.
  - split; [|unfold rec_len in Hl; destruct Hfit; lia]. split; [done|]. by destruct Hfit as [[]].
  - rewrite <-lives_state. unfold live_of. rewrite lookup_fmap, Hj0. done.
Qed.

(** ** Moving a job *)
Lemma anchors_prefix w w' p s :
  Same w w' → w_segs w !! p = Some s →
  ∃ s', w_segs w' !! p = Some s' ∧ s_index s' = s_index s ∧ s_anchors s' = s_anchors s ∧ s_puts s' = s_puts s.
Proof.
  intros [_ _ _ _ (l & Ha & _)] Hp. assert (anchors_of w' !! p = Some (s_index s, s_anchors s, s_puts s)) as H.
  { rewrite Ha. apply lookup_app_l_Some. apply anchors_lookup. by exists s. }
  by apply anchors_lookup in H.
Qed.
Lemma placed_cur w len w' : placed_segs w len w' → w_cur w ≤ w_cur w'.
Proof. unfold placed_segs. destruct (must_roll w len); [intros (new & _ & -> & _); lia|intros [-> _]; lia]. Qed.
(** The index after a move: the entry leaves the front of its old queue. *)
Lemma Index_moved w c p s id j tl new live w' :
  Index w → w_segs w !! w_cur w = Some c → w_jobs w !! id = Some j → w_segs w !! p = Some s → je_seg j = s_index s → p ≠ w_cur w →
  s_puts s = (id, je_off j) :: tl → je_seg new = s_index c → live = w_live_bytes w + je_used new - je_used j →
  w_segs w' = alter (λ x, x <| s_anchors := s_anchors s - 1 |> <| s_puts ::= drop 1 |>) p (alter (anchored_seg id (je_off new)) (w_cur w) (w_segs w)) →
  w_jobs w' = <[id := new]> (w_jobs w) → w_live_bytes w' = live → Index w'.
Proof.
  intros HX Hc Hj Hs Hseg Hpc Hpu Hnew Hlive Hs' Hj' Hl'. pose proof (Index_move w c id new live HX Hc Hnew) as HM. rewrite Hj in HM. specialize (HM Hlive).
  assert (seg_pos (je_seg j) w = Some p) as Hpos by (eapply seg_pos_Some; [apply HX|done|done]).
  assert (alter (anchored_seg id (je_off new)) (w_cur w) (w_segs w) !! p = Some s) as Hlk by by rewrite list_lookup_alter_ne.
  unfold moved_segs, old_pos in HM. cbn [fmap option_fmap option_map unanchor_at] in HM. rewrite Hpos in HM.
  eapply (Index_puts _ p (unanchored s) tl) in HM.
  - eapply Index_ext; [exact HM|..]; inn; [|done|done]. rewrite Hs'. change (default 0 (Some p)) with p.
    apply list_eq. intros k. destruct (decide (k = p)) as [->|]; [|by rewrite !(λ f l, list_lookup_alter_ne f l p k) by done].
    rewrite !list_lookup_alter_eq, Hlk. cbn. f_equal. clear -Hpu. unfold unanchored. inner_all. subst. f_equal. lia.
  - inn. change (default 0 (Some p)) with p. by rewrite list_lookup_alter_eq, Hlk.
  - inn. intros id' j' [(<- & <-)|[Hne Hid']]%lookup_insert_Some He.
    + exfalso. apply Hpc. eapply same_index; [apply HX|done|done|]. unfold unanchored in He. inn_in He. congruence.
    + destruct (ix_segs _ HX _ _ Hs) as [_ Hlist]. specialize (Hlist _ _ Hid' He). rewrite Hpu in Hlist. apply elem_of_cons in Hlist as [[= -> _]|]; done.
Qed.
Definition Kept G B ok st' : Prop :=
  ∃ G' B', Inv G' B' st' ∧ lives (pushed G' B') = lives (pushed G B) ∧ ok (lives G').
Lemma rewrite_put_spec G B st p s id j tl tube body ok :
  Inv G B st → p + 2 ≤ w_cur st.1 → w_segs st.1 !! p = Some s → s_puts s = (id, je_off j) :: tl → w_jobs st.1 !! id = Some j →
  je_seg j = s_index s → r_id (je_record j) = id → fits (Rec.Put (je_record j) tube body) → je_put_len j = rec_len (Rec.Put (je_record j) tube body) →
  lives (pushed G B) !! id = Some (mkRecoveredJob (je_record j) tube body) → ok (lives G) → ok (lives (pushed G B)) →
  wp (rewrite_put p id j (framed_rec (Rec.Put (je_record j) tube body))) (safe ok) (λ _ st', Kept G B ok st') (λ e _, e = WalError.Io) st.
Proof using Hcrc.
  intros HI Hp Hs Hpu Hj Hseg Hid Hr Hlen HL Hok Hok'. set (r := Rec.Put (je_record j) tube body) in *. unfold rewrite_put. rewrite Hlen.
  apply wp_bind. eapply wp_conseq; [eapply (place_placed _ Hcrc G B st r ok); done|done| |by intros e _ [-> _]].
  intros off [w1 wd] (G' & B' & HP). inn_in HP. set (w := w1 <| w_buf ::= (.++ framed_rec r) |>) in *.
  destruct (pl_cur _ _ _ _ _ _ _ _ _ _ _ HP) as (c & Hc & Hi). pose proof (pl_index _ _ _ _ _ _ _ _ _ _ _ HP) as HX.
  assert (w_jobs w = entry_of <$> rs_jobs (state_of (pushed G B))) as HJ by (rewrite (pl_jobs _ _ _ _ _ _ _ _ _ _ _ HP); apply HI).
  assert (w_jobs w !! id = Some j) as Hjw by by rewrite (pl_jobs _ _ _ _ _ _ _ _ _ _ _ HP).
  destruct (anchors_prefix _ _ _ _ (pl_same _ _ _ _ _ _ _ _ _ _ _ HP) Hs) as (s' & Hs' & Hsi & Hsa & Hsp).
  pose proof (placed_cur _ _ _ (pl_segs _ _ _ _ _ _ _ _ _ _ _ HP)) as Hcur.
  apply wp_bind, wp_modify. inn. fold w. apply wp_bind. eapply anchor_wp; [exact Hc|].
  assert (alter (anchored_seg id off) (w_cur w) (w_segs w) !! p = Some s') as Hlk by (rewrite list_lookup_alter_ne by lia; done).
  apply wp_bind. eapply wp_seg_at; [exact Hlk|]. destruct (job_seg _ _ _ HX Hjw) as (q & s2 & Hq & Hqi & Hpos & Ha2).
  assert (q = p) as ->. { eapply same_index; [apply HX|exact Hq|exact Hs'|]. congruence. }
  assert (s2 = s') as -> by congruence. apply wp_bind, wp_sub; [done|]. apply wp_bind, wp_upd_seg. inn. apply wp_bind, wp_get. inn.
  apply wp_bind, wp_sub; [apply (used_le _ _ _ HX Hjw)|]. apply wp_modify. inn. exists G', (B' ++ [r]).
  pose proof (used_le _ _ _ HX Hjw) as Hused. set (new := mkJobEntry (je_record j) (s_index c) off (rec_len r) (rec_len r)).
  assert (alter (λ j0, mkJobEntry (je_record j0) (s_index c) off (je_put_len j0) (rec_len r)) id (w_jobs w) = <[id := new]> (w_jobs w)) as Halt.
  { apply map_eq. intros k. destruct (decide (k = id)) as [->|]; [|by rewrite lookup_alter_ne, lookup_insert_ne].
    rewrite lookup_alter_eq, lookup_insert_eq, Hjw. cbn. by rewrite Hlen. }
  split_and!; [constructor| |apply (pl_disk _ _ _ _ _ _ _ _ _ _ _ HP)].
  - eapply Files_shape; [exact (pl_files _ _ _ _ _ _ _ _ _ _ _ HP)|..]; inn; try done. rewrite !shape_alter; done.
  - eapply (Index_moved w c p s' id j tl new); try done; inn; [lia|congruence|].
    cbn [new je_used]. lia.
  - inn. change (w_jobs w1) with (w_jobs w). rewrite Halt, (pl_state _ _ _ _ _ _ _ _ _ _ _ HP), applied_jobs by apply replayed_ok, tl_ok_default.
    unfold r at 1. cbn iota beta. rewrite fmap_insert, HJ, Hid. f_equal. unfold entry_of, new. cbn. by rewrite Hi.
  - rewrite (pl_lives _ _ _ _ _ _ _ _ _ _ _ HP). unfold r. cbn [live_step]. rewrite Hid. by apply insert_id.
Qed.

Lemma read_at_spec w wd seg off f bytes b (C : Disk → Prop) Q E :
  is_Some (seg_pos seg w) → d_files wd !! seg = Some f → drop off f = bytes ++ b → off ≤ length f →
  (∀ r, Q bytes (w <| w_reader := r |>, wd)) → wp (read_at seg off (length bytes)) C Q E (w, wd).
Proof.
  intros [p Hp] Hf Hd Hoff HQ. unfold read_at. apply wp_bind, wp_get. apply wp_bind. inn.
  assert (∀ r, wp (let! f0 := file_of seg in let! f1 := unwrap WalError.Io f0 in
    if (length f1 <? off + length bytes)%nat then throw WalError.Io else ret (take (length bytes) (drop off f1))) C Q E (w <| w_reader := r |>, wd)) as Hend.
  { intros r. apply wp_bind, wp_file_of. inn. apply wp_bind. eapply wp_unwrap; [exact Hf|]. apply (f_equal length) in Hd as Hl.
    rewrite length_drop, length_app in Hl. rewrite (proj2 (Nat.ltb_ge _ _)) by lia. apply wp_ret. rewrite Hd, take_app_length. apply HQ. }
  case_bool_decide as Hr.
  - apply wp_ret. specialize (Hend (w_reader w)). destruct w. exact Hend.
  - apply wp_bind. eapply wp_unwrap; [exact Hp|]. apply wp_bind, wp_file_of. inn. apply wp_bind. eapply wp_unwrap; [exact Hf|]. apply wp_modify. apply Hend.
Qed.
Lemma Kept_refl G B ok st : Inv G B st → ok (lives G) → Kept G B ok st.
Proof. intros HI Hok. by exists G, B. Qed.
Lemma move_one_spec from G B st ok :
  Inv G B st → ok (lives G) → ok (lives (pushed G B)) →
  wp (move_one record_crc from) (safe ok) (λ _ st', Kept G B ok st') (λ e _, e = WalError.Io) st.
Proof using Hcrc.
  intros HI Hok Hok'. pose proof (segs_length _ _ _ _ (in_files _ _ _ _ HI)) as Hlen. unfold move_one. apply wp_bind, wp_get. apply wp_bind.
  eapply wp_conseq; [apply find_anchor_spec; lia|done| |done]. intros o ? [-> Ho]. destruct o as [p|]; [|by apply wp_ret, Kept_refl].
  destruct (Ho p eq_refl) as (Hp & s & Hs & Ha). clear Ho. apply wp_bind. eapply wp_seg_at; [exact Hs|].
  destruct (ix_segs _ (in_index _ _ _ _ HI) _ _ Hs) as [Hcnt Hlist].
  destruct (front_put_spec (w_jobs st.1) (s_index s) (s_puts s)) as (id & j & tl & -> & Hj & Hseg & Hall).
  { destruct (count_pos_inv (in_seg (s_index s)) (w_jobs st.1)) as (id & j & Hj & Hi%bool_decide_eq_true); [lia|]. exists id, j. split_and!; try done. by apply Hlist. }
  destruct st as [w wd]. inn_in Hs. inn_in Hp. inn_in Hj. apply wp_bind, wp_upd_seg. inn. rewrite Hj.
  set (w1 := w <| w_segs ::= alter (λ s, s <| s_puts := (id, je_off j) :: tl |>) p |>).
  assert (Inv G B (w1, wd)) as HI1.
  { destruct HI as [HF HX HJ]. constructor; [|eapply Index_puts; [done|done|intros; apply Hall; [done..|by apply Hlist]]|done].
    eapply Files_shape; [exact HF|..]; try done. by apply shape_alter. }
  apply wp_bind. eapply wp_conseq; [apply (ensure_room_spec record_crc (je_put_len j) true G B _ ok); done|done| |done].
  intros room st2 (G2 & HI2 & Hadd & Hsame & Hcur & _). inn_in Hsame. inn_in Hcur. assert (lives G2 = lives G) as HL2 by by apply spares_lives.
  assert (lives (pushed G2 B) = lives (pushed G B)) as HL2' by by apply spares_lives, spares_push.
  destruct room; cbn [negb]; [|apply wp_ret; exists G2, B; by rewrite HL2].
  destruct (anchors_prefix _ _ p (s <| s_puts := (id, je_off j) :: tl |>) Hsame) as (s2 & Hs2 & Hsi & _ & Hspu).
  { unfold w1. inn. by rewrite list_lookup_alter_eq, Hs. }
  inn_in Hsi. inn_in Hspu. assert (w_jobs st2.1 !! id = Some j) as Hj2 by (destruct (sa_jobs _ _ Hsame) as [-> _]; done).
  assert (p + 2 ≤ w_cur st2.1) as Hp2 by (rewrite Hcur; exact Hp). destruct st2 as [w2 wd2]. inn_in Hs2. inn_in Hj2. inn_in Hp2.
  destruct (put_bytes G2 B w2 wd2 p s2 id j HI2 ltac:(lia) Hs2 Hj2 ltac:(congruence)) as (f & b & record & tube & body & Hf & Hd & Hl & Hl' & Hr & Hr' & Hid & HLid).
  rewrite Hsi in Hf. rewrite Hl. apply wp_bind. rewrite <-(rec_len_framed record_crc). fold (framed_rec (Rec.Put record tube body)).
  eapply (read_at_spec w2 wd2 _ _ f _ b); [|done|done| |].
  { exists p. eapply seg_pos_Some; [apply (in_index _ _ _ _ HI2)|exact Hs2|done]. }
  { destruct (decide (je_off j ≤ length f)); [done|]. rewrite drop_ge in Hd by lia. symmetry in Hd. apply app_eq_nil in Hd as [Hd _].
    apply (f_equal length) in Hd. unfold WalFiles.framed_rec in Hd. rewrite rec_len_framed in Hd. unfold rec_len, REC_HEADER_LEN in Hd. cbn in Hd. lia. }
  intros rd. rewrite (parse_fits record_crc Hcrc _ 0 (Rec.Put record tube body) []) by (done || by rewrite drop_0, app_nil_r).
  unfold WalFiles.framed_rec at 1. rewrite rec_len_framed, Nat.eqb_refl. rewrite restamp. apply wp_bind. eapply wp_mono.
  - eapply (rewrite_put_spec G2 B _ p s2 id j tl tube body ok); inn;
      first [done|by eapply Inv_ext|congruence|by rewrite HL2|by rewrite HL2'].
  - intros _ st3 (G3 & B3 & HI3 & HL3 & Hok3). apply wp_ret. exists G3, B3. split_and!; [done|congruence|done].
Qed.
Lemma move_loop_spec moves from G B st ok :
  Inv G B st → ok (lives G) → ok (lives (pushed G B)) →
  wp (move_loop record_crc moves from) (safe ok) (λ _ st', Kept G B ok st') (λ e _, e = WalError.Io) st.
Proof using Hcrc.
  revert from G B st. induction moves as [|moves IH]; intros from G B st HI Hok Hok'; cbn [move_loop]; [by apply wp_ret, Kept_refl|].
  apply wp_bind. eapply wp_mono; [by apply (move_one_spec from G B)|]. intros [more from'] st1 (G1 & B1 & HI1 & HL1 & Hok1).
  destruct more; [|apply wp_ret; by exists G1, B1]. eapply wp_mono; [apply (IH from' G1 B1); [done|done|by rewrite HL1]|].
  intros _ st2 (G2 & B2 & HI2 & HL2 & Hok2). exists G2, B2. split_and!; [done|congruence|done].
Qed.
Lemma maintain_spec G st ok :
  Inv G [] st → ok (lives G) →
  wp (maintain record_crc) (safe ok) (λ _ st', ∃ G', Inv G' [] st' ∧ lives G' = lives G) (λ e _, e = WalError.Io) st.
Proof using Hcrc.
  intros HI Hok. unfold maintain. apply wp_bind, wp_get. apply wp_bind. eapply (wp_mono _ _ (λ _ st1, ∃ G1, Inv G1 [] st1 ∧ lives G1 = lives G)).
  - apply wp_when; intros _; [|by exists G]. apply wp_bind. eapply wp_mono; [apply (move_loop_spec _ _ G [] _ ok); rewrite ?push_nil; done|].
    intros _ st1 (G1 & B1 & HI1 & HL1 & Hok1). rewrite push_nil in HL1. eapply wp_mono; [apply (flush_inv _ G1 B1 _ ok); [done|by rewrite HL1]|].
    intros _ st2 (HI2 & _). by exists (pushed G1 B1).
  - intros _ st1 (G1 & HI1 & HL1). eapply wp_conseq; [apply (gc_spec G1 [] _ ok); rewrite ?push_nil, ?HL1; done|done| |done].
    intros _ st2 (G2 & B2 & HI2 & HL2 & _ & HB). rewrite (HB eq_refl), push_nil in *. exists G2. split; [done|]. rewrite push_nil in HL2. congruence.
Qed.
End compact.
