(* ===== verification/WalSpace.v ===== *)
(** * The space a reservation promises

    [reserved] counts a Delete for every live job and the Puts that were
    promised, [slack] what is lost at the ends of segments.  As long as the
    preallocated space covers both ([roomy]), promised Puts and Deletes of
    live jobs are written without allocating anything, so they succeed on a
    full disk, and the space stays covered. *)

From S2P Require Import Prelude Ms Proto Stats Parse Reply Model Format Snapshot Replay Scan Wal WalDisk WalFiles.
From S2P Require Import WalIndex WalInv.
From stdpp Require Import options.

Definition roomy (w : Inner) : Prop := reserved w + slack w ≤ avail w.
(** The promised Puts and the Deletes of live jobs: [p] and [b] are the puts
    and bytes still promised, [D] the live jobs. *)
Fixpoint covered (p b : nat) (D : gset JobId) (es : list JournalEntry) : Prop :=
  match es with
  | [] => True
  | JournalEntry.Put record tube body :: es =>
      let len := put_rec_len (length (bs tube)) (length body) in
      0 < p ∧ len ≤ b ∧ covered (p - 1) (b - len) ({[r_id record]} ∪ D) es
  | JournalEntry.Delete id :: es => id ∈ D ∧ covered p b (D ∖ {[id]}) es
  | JournalEntry.Update _ :: _ => False
  end.

Section space.
Implicit Types (w : Inner) (st : St).
#[local] Abbreviation any := (λ _ : Disk, True).
(** Errors other than a full disk. *)
#[local] Abbreviation other := (λ (e : WalError) (_ : St), e ≠ WalError.Io).

(** The current segment and the spares are open, the spares are empty. *)
Definition Spaced w : Prop :=
  (∃ c, w_segs w !! w_cur w = Some c ∧ s_file c = true) ∧
  ∀ p s, w_cur w < p → w_segs w !! p = Some s → s_file s = true ∧ s_size s = w_seg_size w ∧ s_written s = SEG_HEADER_LEN.
(** [w'] as [w], but for the space of the current segment and the spares. *)
Record spent (len : nat) w w' : Prop := {
  sp_spaced : Spaced w';
  sp_jobs : w_jobs w' = w_jobs w;
  sp_pending : w_pending_puts w' = w_pending_puts w ∧ w_pending_bytes w' = w_pending_bytes w;
  sp_avail : future_count w' = future_count w ∧ avail w ≤ avail w' + len ∨
             S (future_count w') = future_count w ∧ avail w + 1 ≤ avail w' + len + len;
}.
(** [w'] as [w] in all that matters here. *)
Record still w w' : Prop := {
  sl_segs : shape <$> w_segs w' = shape <$> w_segs w ∧ w_cur w' = w_cur w ∧ w_seg_size w' = w_seg_size w;
  sl_jobs : w_jobs w' = w_jobs w;
  sl_pending : w_pending_puts w' = w_pending_puts w ∧ w_pending_bytes w' = w_pending_bytes w;
}.
Lemma still_trans w1 w2 w3 : still w1 w2 → still w2 w3 → still w1 w3.
Proof. intros [(? & ? & ?) ? (? & ?)] [(? & ? & ?) ? (? & ?)]. constructor; [split_and!|..|split]; congruence. Qed.
Lemma shape_lookup (l l' : list Seg) p s' :
  shape <$> l' = shape <$> l → l' !! p = Some s' → ∃ s, l !! p = Some s ∧ shape s' = shape s.
Proof.
  intros H Hp. apply (f_equal (.!! p)) in H. rewrite !list_lookup_fmap, Hp in H. destruct (l !! p) as [s|]; [|done]. apply (inj Some) in H. by exists s.
Qed.
Lemma still_Spaced w w' : still w w' → Spaced w → Spaced w'.
Proof.
  intros [(Hs & Hc & Hz) _ _] [(c & Hc' & Hf) Hsp]. unfold Spaced. rewrite Hc, Hz. split.
  - destruct (shape_lookup _ _ _ _ (eq_sym Hs) Hc') as (c' & Hl & H). exists c'. split; [done|]. injection H as _ _ _ H. congruence.
  - intros p s' Hp Hl. destruct (shape_lookup _ _ _ _ Hs Hl) as (s & Hl' & H). injection H as _ -> -> ->. by apply (Hsp p).
Qed.
Lemma still_avail w w' : still w w' → avail w' = avail w ∧ future_count w' = future_count w.
Proof.
  intros [(Hs & Hc & Hz) _ _]. assert (length (w_segs w') = length (w_segs w)) as Hlen by (by apply (f_equal length) in Hs; rewrite !length_fmap in Hs).
  unfold avail, future_count, capacity. rewrite Hc, Hz, Hlen. split; [|done]. destruct (w_segs w' !! w_cur w) as [c'|] eqn:Hl.
  - destruct (shape_lookup _ _ _ _ Hs Hl) as (c & -> & H). unfold shape in H. by injection H as _ -> -> _.
  - destruct (w_segs w !! w_cur w) as [c|] eqn:Hl'; [|done]. destruct (shape_lookup _ _ _ _ (eq_sym Hs) Hl') as (c' & H & _). congruence.
Qed.

Lemma sub_other a b (Q : nat → St → Prop) st : (b ≤ a → Q (a - b) st) → wp (sub_ a b) any Q other st.
Proof. intros HQ. unfold sub_. destruct (Nat.ltb_spec a b); [by apply wp_throw|]. by apply wp_ret, HQ. Qed.
Lemma seg_at_other p (Q : Seg → St → Prop) st : (∀ s, w_segs st.1 !! p = Some s → Q s st) → wp (seg_at p) any Q other st.
Proof.
  intros HQ. destruct (w_segs st.1 !! p) as [s|] eqn:Hs; [by eapply wp_seg_at, HQ|]. unfold seg_at. apply wp_bind, wp_get. rewrite Hs. by apply wp_throw.
Qed.
Lemma flush_space st : Spaced st.1 → wp flush any (λ _ st', still st.1 st'.1) other st.
Proof.
  intros HS. destruct st as [w wd]. inn_in HS. pose proof HS as [(c & Hc & Hf) Hsp]. unfold flush. apply wp_bind, wp_get. case_bool_decide; [by apply wp_ret|].
  apply wp_bind. eapply wp_seg_at; [exact Hc|]. rewrite Hf. cbn [negb]. apply wp_bind, wp_io; [done|]. by apply wp_modify.
Qed.
Lemma sync_cur_space st : wp sync_cur any (λ _ st', still st.1 st'.1) other st.
Proof.
  unfold sync_cur. destruct st as [w wd]. apply wp_bind, wp_get. apply wp_bind, seg_at_other. intros s _. apply wp_bind.
  apply wp_when; intros _; [apply wp_io; [done|]|]; by apply wp_modify.
Qed.
Lemma sync_unless_never_space st : wp sync_unless_never any (λ _ st', still st.1 st'.1) other st.
Proof. unfold sync_unless_never. apply wp_bind, wp_get. apply wp_when; intros _; [apply sync_cur_space|done]. Qed.
(** The roll onto a spare. *)
Definition on_spare w w' : Prop :=
  w_cur w' = S (w_cur w) ∧ length (w_segs w') = length (w_segs w) ∧
  (∀ p, w_cur w < p → w_segs w' !! p = w_segs w !! p) ∧ w_seg_size w' = w_seg_size w ∧ w_jobs w' = w_jobs w ∧
  w_pending_puts w' = w_pending_puts w ∧ w_pending_bytes w' = w_pending_bytes w.
Lemma next_segment_space st : wp next_segment any (λ _ st', on_spare st.1 st'.1) other st.
Proof.
  destruct st as [w wd]. unfold next_segment. apply wp_bind, wp_get. apply wp_bind, seg_at_other. intros c _. apply wp_bind, wp_upd_seg. inn. apply wp_bind.
  apply (wp_mono _ _ (λ _ st, ∃ w1, st.1 = w1 ∧ w_cur w1 = w_cur w ∧ length (w_segs w1) = length (w_segs w) ∧
    (∀ p, w_cur w < p → w_segs w1 !! p = w_segs w !! p) ∧ w_seg_size w1 = w_seg_size w ∧ w_jobs w1 = w_jobs w ∧
    w_pending_puts w1 = w_pending_puts w ∧ w_pending_bytes w1 = w_pending_bytes w)).
  - apply wp_when; intros _.
    + apply wp_bind, wp_io; [done|]. apply wp_bind, sub_other. intros _. apply wp_bind, wp_modify. apply wp_upd_seg. inn. eexists. split; [done|]. inn.
      split_and!; try done; [by rewrite !length_alter|]. intros p Hp. rewrite !list_lookup_alter_ne; [done|lia..].
    + inn. eexists. split; [done|]. inn. split_and!; try done; [by rewrite length_alter|]. intros p Hp. rewrite list_lookup_alter_ne; [done|lia].
  - intros _ [w0 wd1] (w1 & Hw1 & H1 & H2 & H3 & H4 & H5 & H6 & H7). inn_in Hw1. subst w0. apply wp_bind, wp_modify. inn. apply wp_bind, seg_at_other. intros n _.
    apply wp_modify. inn. unfold on_spare. inn. by rewrite H1.
Qed.
Lemma Spaced_spare w w' : Spaced w → 0 < future_count w → on_spare w w' →
  Spaced w' ∧ S (future_count w') = future_count w ∧ avail w' = future_count w * capacity w.
Proof.
  intros [(c & Hc & Hf) Hsp] Hfut (Hcur & Hlen & Hs & Hz & _). unfold future_count in *. apply lookup_lt_Some in Hc.
  destruct (lookup_lt_is_Some_2 (w_segs w) (S (w_cur w))) as [n Hn]; [lia|]. destruct (Hsp _ _ (Nat.lt_succ_diag_r _) Hn) as (Hnf & Hns & Hnw).
  unfold Spaced, avail, future_count, capacity. rewrite Hcur, Hlen, Hz, Hs, Hn by lia. split_and!; [by eexists| |lia|].
  - intros p s Hp. rewrite Hs by lia. apply Hsp. lia.
  - rewrite Hns, Hnw. replace (length (w_segs w) - 1 - w_cur w) with (S (length (w_segs w) - 1 - S (w_cur w))) by lia. lia.
Qed.
Lemma grown_space w c len :
  Spaced w → w_segs w !! w_cur w = Some c → let w' := grown w c len in
  Spaced w' ∧ future_count w' = future_count w ∧ avail w ≤ avail w' + len.
Proof.
  intros [(c' & Hc' & Hf) Hsp] Hc. rewrite Hc in Hc'. injection Hc' as <-. cbv zeta. unfold grown, Spaced, avail, future_count, capacity. inn.
  rewrite list_lookup_alter_eq, Hc, length_alter. cbn [fmap option_fmap option_map]. unfold grow. inn. split_and!; [by eexists| |done|].
  - intros p s Hp. rewrite list_lookup_alter_ne by lia. by apply Hsp.
  - lia.
Qed.
Lemma place_space len st : Spaced st.1 → 0 < len ≤ avail st.1 → wp (place len) any (λ _ st', spent len st.1 st'.1) other st.
Proof.
  intros HS Hlen. destruct st as [w wd]. inn_in HS. inn_in Hlen. pose proof HS as [(c & Hc & _) _]. unfold place. apply wp_bind, wp_get. apply wp_bind. eapply wp_seg_at; [exact Hc|].
  apply wp_bind. apply wp_when.
  - intros [_ Hlt%Nat.ltb_lt]%andb_true_iff. assert (0 < future_count w) as Hfut.
    { unfold avail in Hlen. rewrite Hc in Hlen. destruct (future_count w); lia. }
    unfold roll. apply wp_bind. eapply wp_mono; [by apply flush_space|]. intros a1 st1 H1. apply wp_bind. eapply wp_mono; [apply sync_unless_never_space|].
    intros a2 st2 H2. pose proof (still_trans _ _ _ H1 H2) as H12. inn_in H12. apply wp_bind, wp_get. apply wp_bind. apply wp_when.
    { intros Hle%Nat.leb_le. rewrite <-(proj2 (still_avail _ _ H12)) in Hfut. unfold future_count in Hfut. lia. }
    intros _. eapply wp_mono; [apply next_segment_space|]. intros a3 [w3 wd3] Hsp. inn_in Hsp.
    destruct (Spaced_spare st2.1 w3 (still_Spaced _ _ H12 HS)) as (HS3 & Hf3 & Ha3); [by rewrite (proj2 (still_avail _ _ H12))|done|].
    destruct Hsp as (_ & _ & _ & _ & Hj & Hp1 & Hp2). pose proof HS3 as [(c3 & Hc3 & _) _]. unfold wp. rewrite (extend_eq _ _ _ _ Hc3). split; [by exists []|]. inn.
    destruct (grown_space w3 c3 len HS3 Hc3) as (HS4 & Hf4 & Ha4). destruct (still_avail _ _ H12) as [Ha12 Hf12]. destruct H12 as [(_ & _ & Hz) Hj12 (Hp12 & Hb12)].
    constructor; [done|unfold grown; inn; congruence|unfold grown; inn; split; congruence|]. right. rewrite Hf4. split; [congruence|].
    unfold avail in Hlen, Ha12 |- * at 1. rewrite Hc in *. unfold capacity in *. rewrite Hz, Hf12 in Ha3. lia.
  - intros _. unfold wp. rewrite (extend_eq _ _ _ _ Hc). split; [by exists []|]. inn. destruct (grown_space w c len HS Hc) as (HS' & Hf' & Ha').
    constructor; [done|done|done|]. left. done.
Qed.

(** ** Promised records *)
Record Covered (p b : nat) (D : gset JobId) w : Prop := {
  cv_spaced : Spaced w;
  cv_roomy : roomy w;
  cv_pending : w_pending_puts w = p ∧ w_pending_bytes w = b;
  cv_jobs : dom (w_jobs w) = D;
}.
Context (record_crc : Bytes → Bytes → N).
Lemma unanchor_space i st : wp (unanchor i) any (λ _ st', still st.1 st'.1) other st.
Proof.
  destruct st as [w wd]. unfold unanchor. apply wp_bind, wp_get. destruct (seg_pos i _); [|by apply wp_ret]. apply wp_bind, seg_at_other. intros s _.
  apply wp_bind, sub_other. intros _. apply wp_upd_seg. inn. constructor; inn; try done. split_and!; [|done..]. by apply shape_alter.
Qed.
Lemma anchor_space id off st : wp (anchor id off) any (λ _ st', still st.1 st'.1) other st.
Proof.
  destruct st as [w wd]. unfold anchor. apply wp_bind, wp_get. apply wp_bind, seg_at_other. intros s _. apply wp_bind, wp_upd_seg. apply wp_ret. inn.
  constructor; inn; try done. split_and!; [|done..]. by apply shape_alter.
Qed.
Lemma buffer_space r st : fits r → wp (buffer (encode_rec record_crc r)) any (λ _ st', still st.1 st'.1) other st.
Proof.
  intros Hr. destruct st as [w wd]. unfold buffer. apply wp_bind. eapply wp_unwrap; [exact (encode_fits record_crc r Hr)|]. by apply wp_modify.
Qed.
(** The record is written and the job table changed. *)
Lemma Covered_spent len p b D w w0 w1 w' p' b' :
  Covered p b D w → spent len w0 w1 → still (w1 <| w_jobs := w_jobs w' |>) w' →
  avail w0 = avail w → future_count w0 = future_count w → w_pending_puts w0 = p' → w_pending_bytes w0 = b' →
  DELETE_REC_LEN * (size (w_jobs w') + p') + b' + b' + len + (len - DELETE_REC_LEN) ≤ DELETE_REC_LEN * (size D + p) + b + b →
  DELETE_REC_LEN ≤ len → Covered p' b' (dom (w_jobs w')) w'.
Proof.
  intros [_ Hroom [Hp Hb] HD] [HS _ [Hp1 Hb1] Ha] Hst Ha0 Hf0 Hp0 Hb0 Hle Hlen. destruct (still_avail _ _ Hst) as [Ha' Hf'].
  change (avail (w1 <| w_jobs := w_jobs w' |>)) with (avail w1) in Ha'. change (future_count (w1 <| w_jobs := w_jobs w' |>)) with (future_count w1) in Hf'.
  pose proof Hst as [_ _ [Hp2 Hb2]]. inn_in Hp2. inn_in Hb2. constructor; [by apply (still_Spaced _ _ Hst)| |split; congruence|done].
  unfold roomy, reserved, slack in *. rewrite Ha', Hf', Hp2, Hb2, Hp1, Hb1. rewrite Hp, Hb, <-size_dom, HD in Hroom. change DELETE_REC_LEN with 17 in *. lia.
Qed.
Lemma append_put_space p b D record tube body st :
  let len := put_rec_len (length (bs tube)) (length body) in
  Covered p b D st.1 → fits (Rec.Put record tube body) → 0 < p → len ≤ b →
  wp (append_entry record_crc (JournalEntry.Put record tube body)) any
    (λ _ st', Covered (p - 1) (b - len) ({[r_id record]} ∪ D) st'.1) other st.
Proof.
  intros len HC Hr Hp Hb. destruct st as [w wd]. inn_in HC. unfold append_entry. fold len. apply wp_bind, wp_get. pose proof HC as [HS Hroom [Hpp Hpb] HD].
  cbn [fst]. rewrite Hpp, (proj2 (Nat.ltb_lt _ _) Hp). cbn [when_]. apply wp_bind, wp_modify. inn.
  set (w0 := w <| w_pending_puts ::= Nat.pred |> <| w_pending_bytes ::= λ b, b - len |>). assert (Spaced w0) as HS0 by done.
  assert (17 ≤ len) as Hlen by (unfold len, put_rec_len, REC_HEADER_LEN, JOBREC_LEN; lia).
  assert (len ≤ avail w) as Hav by (unfold roomy, reserved, slack in Hroom; lia).
  apply wp_bind. eapply wp_mono; [apply place_space; [done|]|]. { change (0 < len ≤ avail w). lia. }
  intros off [w1 wd1] Hspent. inn_in Hspent. apply wp_bind. eapply wp_mono; [by apply (buffer_space (Rec.Put record tube body))|]. intros a2 [w2 wd2] H2.
  apply wp_bind. eapply wp_mono; [apply anchor_space|]. intros seg [w3 wd3] H3. pose proof (still_trans _ _ _ H2 H3) as H23. clear H2 H3. inn_in H23.
  apply wp_bind, wp_get. inn. apply wp_bind, wp_modify. inn.
  set (new := mkJobEntry record seg off len len). set (w4 := w3 <| w_jobs ::= _ |> <| w_live_bytes ::= _ |>).
  assert (w_jobs w3 = w_jobs w) as Hj by (destruct H23 as [_ -> _]; apply (sp_jobs _ _ _ Hspent)).
  assert (∀ w', still w4 w' → Covered (p - 1) (b - len) ({[r_id record]} ∪ D) w') as Hend.
  { intros w' H'. assert (w_jobs w' = <[r_id record := new]> (w_jobs w)) as Hj' by (destruct H' as [_ -> _]; unfold w4; inn; by rewrite Hj).
    rewrite <-HD. replace ({[r_id record]} ∪ dom (w_jobs w)) with (dom (w_jobs w')) by (rewrite Hj'; set_solver).
    apply (Covered_spent len p b D w w0 w1 w' _ _ HC Hspent); [|done|done|unfold w0; inn; lia|unfold w0; inn; congruence| |done].
    - eapply still_trans; [|exact H']. destruct H23 as [? ? ?]. constructor; [done|by destruct H' as [_ -> _]|done].
    - rewrite Hj', <-HD, size_dom, map_size_insert. change DELETE_REC_LEN with 17. case_match; cbn [id]; lia. }
  destruct (w_jobs w3 !! r_id record) as [old|].
  - apply wp_bind, wp_get. apply wp_bind, sub_other. intros _. apply wp_bind, wp_modify. eapply wp_mono; [apply unanchor_space|]. intros a [w5 wd5] H5. inn_in H5.
    apply Hend. eapply still_trans; [|exact H5]. done.
  - apply wp_ret. by apply Hend.
Qed.
Lemma append_delete_space p b D id st :
  Covered p b D st.1 → fits (Rec.Delete id) → id ∈ D →
  wp (append_entry record_crc (JournalEntry.Delete id)) any (λ _ st', Covered p b (D ∖ {[id]}) st'.1) other st.
Proof.
  intros HC Hr Hid. destruct st as [w wd]. inn_in HC. unfold append_entry. pose proof HC as [HS Hroom [Hpp Hpb] HD].
  assert (is_Some (w_jobs w !! id)) as [j Hj] by by rewrite <-elem_of_dom, HD.
  assert (0 < size D) as Hsize by (rewrite <-HD, size_dom; apply Nat.neq_0_lt_0; intros H0%map_size_empty_inv; by rewrite H0 in Hj).
  apply wp_bind. eapply wp_mono; [apply place_space; [done|]|].
  { unfold roomy, reserved, slack in Hroom. rewrite <-size_dom, HD in Hroom. inn. change DELETE_REC_LEN with 17 in *. lia. }
  intros off [w1 wd1] Hspent. inn_in Hspent. apply wp_bind. eapply wp_mono; [by apply (buffer_space (Rec.Delete id))|]. intros a2 [w2 wd2] H2. inn_in H2.
  assert (w_jobs w2 = w_jobs w) as Hj2 by (destruct H2 as [_ -> _]; apply (sp_jobs _ _ _ Hspent)).
  apply wp_bind, wp_get. inn. rewrite Hj2, Hj. apply wp_bind, wp_modify. inn. apply wp_bind, sub_other. intros _. apply wp_bind, wp_modify.
  eapply wp_mono; [apply unanchor_space|]. intros a [w5 wd5] H5. inn_in H5. inn. assert (w_jobs w5 = delete id (w_jobs w)) as Hj5.
  { destruct H5 as [_ -> _]. inn. by rewrite Hj2. }
  replace (D ∖ {[id]}) with (dom (w_jobs w5)) by (rewrite Hj5, <-HD; set_solver).
  apply (Covered_spent DELETE_REC_LEN p b D w w w1 w5 _ _ HC Hspent); [|done|done|done|done| |done].
  - eapply still_trans; [|exact H5]. destruct H2 as [? ? ?]. constructor; [done|by destruct H5 as [_ -> _]|done].
  - rewrite Hj5, <-HD, size_dom, map_size_delete, Hj. rewrite <-HD, size_dom in Hsize. change DELETE_REC_LEN with 17. lia.
Qed.
Lemma append_entries_space p b D es st :
  Covered p b D st.1 → Forall fits (entry_rec <$> es) → covered p b D es →
  wp (append_entries record_crc es) any (λ _ st', ∃ p b D, Covered p b D st'.1) other st.
Proof.
  revert p b D st. induction es as [|e es IH]; intros p b D st HC Hf Hcov; cbn [append_entries]; [apply wp_ret; eauto|].
  cbn in Hf. apply Forall_cons in Hf as [He Hf]. apply wp_bind.
  apply (wp_mono _ _ (λ _ st', ∃ p b D, Covered p b D st'.1 ∧ covered p b D es)).
  - destruct e as [record tube body|record|id]; cbn [covered] in Hcov; [|done|].
    + destruct Hcov as (Hp & Hb & Hcov). eapply wp_mono; [by apply append_put_space|]. intros a st' H. do 3 eexists. split; [exact H|exact Hcov].
    + destruct Hcov as [Hid Hcov]. eapply wp_mono; [by apply append_delete_space|]. intros a st' H. do 3 eexists. split; [exact H|exact Hcov].
  - intros _ [w wd] (p' & b' & D' & HC' & Hcov'). apply wp_bind, wp_modify. apply (IH p' b' D'); [|done|done]. inn. destruct HC' as [? ? ? ?]. by constructor.
Qed.
Lemma append_space p b D es st :
  Covered p b D st.1 → Forall fits (entry_rec <$> es) → covered p b D es →
  wp (append record_crc es) any (λ _ st', ∃ D, Covered 0 0 D st'.1) other st.
Proof.
  intros HC Hf Hcov. unfold append. apply wp_bind. eapply wp_mono; [by eapply append_entries_space|]. intros _ [w wd] (p' & b' & D' & HC'). inn_in HC'.
  apply wp_bind, wp_modify. inn. set (w1 := w <| w_pending_puts := 0 |> <| w_pending_bytes := 0 |>). assert (Covered 0 0 D' w1) as HC1.
  { destruct HC' as [? Hroom ? ?]. constructor; try done. unfold roomy, reserved, slack in *. unfold w1, avail, future_count, capacity in *. inn. lia. }
  assert (∀ w', still w1 w' → ∃ D, Covered 0 0 D w') as Hend.
  { intros w' H'. exists D'. destruct (still_avail _ _ H') as [Ha Hfu]. pose proof (still_Spaced _ _ H' (cv_spaced _ _ _ _ HC1)). destruct HC1 as [_ Hroom [Hp1 Hb1] HD1], H' as [_ Hj [Hp Hb]].
    constructor; [done| |split; congruence|congruence]. unfold roomy, reserved, slack in *. by rewrite Ha, Hfu, Hp, Hb, Hj. }
  apply wp_bind. eapply wp_mono; [apply flush_space, (cv_spaced _ _ _ _ HC1)|]. intros a [w2 wd2] H2. inn_in H2. apply wp_bind, wp_get.
  apply wp_when; intros _; [|by apply Hend]. eapply wp_mono; [apply sync_cur_space|]. intros a' [w3 wd3] H3. inn_in H3. apply Hend. by eapply still_trans.
Qed.
Lemma Files_Spaced G B st : Files record_crc G B st → Spaced st.1.
Proof.
  intros [(cl & c & sp & Hsegs & Hcur & _ & (_ & Hf & _) & Hsp) _ _ _ _ _ _]. unfold Spaced. rewrite Hsegs, Hcur. split.
  - exists c. split; [by apply list_lookup_middle|done].
  - intros p s Hp. rewrite lookup_app_r by lia. destruct (p - length cl) as [|q] eqn:Hq; [lia|]. cbn. intros Hs.
    by destruct (Forall2_lookup_l _ _ _ _ _ Hsp Hs) as (i & _ & _ & ? & ? & ? & _).
Qed.
End space.
