(* ===== verification/Valid.v ===== *)
(** * [validate] accepts exactly the invariant

    Each loop of [validate] is related to the parts of [Inv] it decides.  The
    counting arguments of its comments (equal sizes make an index an exact
    image) are the lemmas [image_onto] and [image_size]. *)

From S2P Require Import Prelude Ms Proto Model Engine Inv Waiting Validate.
From stdpp Require Import options.

(** ** Folds that can fail *)
Section foldM.
Context {A B : Type}.
Lemma foldM_ind (f : B → A → option B) (P : list A → option B → Prop) b l :
  P [] (Some b) → (∀ l a r, P l r → P (l ++ [a]) (r ≫= λ b, f b a)) → P l (foldM f b l).
Proof.
  intros H0 Hs. unfold foldM. induction l as [|a l IH] using rev_ind; [done|].
  rewrite foldl_snoc. by apply Hs.
Qed.
Lemma foldM_enumerate_ind (f : B → nat * A → option B) (P : list A → option B → Prop) b l :
  P [] (Some b) → (∀ l a r, P l r → P (l ++ [a]) (r ≫= λ b, f b (length l, a))) →
  P l (foldM f b (enumerate l)).
Proof.
  intros H0 Hs. unfold foldM, enumerate. induction l as [|a l IH] using rev_ind; [done|].
  rewrite imap_app, foldl_app. cbn. rewrite Nat.add_0_r. by apply Hs.
Qed.
Lemma map_foldM_ind (f : B → N → A → option B) (P : gmap N A → option B → Prop) b m :
  P ∅ (Some b) → (∀ k v m r, m !! k = None → P m r → P (<[k := v]> m) (r ≫= λ b, f b k v)) →
  P m (map_foldM f b m).
Proof. intros H0 Hs. unfold map_foldM. apply (map_fold_weak_ind (λ r m, P m r)); auto. Qed.
End foldM.

(** A check passes exactly when [P] holds, and then its result satisfies [Q]. *)
Definition decides {B} (P : Prop) (Q : B → Prop) (r : option B) : Prop :=
  match r with Some b => P ∧ Q b | None => ¬ P end.
Lemma decides_Some {B} P (Q : B → Prop) r : decides P Q r → P → ∃ b, r = Some b ∧ Q b.
Proof. destruct r as [b|]; simpl; [|done]. intros [_ HQ] _. eauto. Qed.
Lemma decides_inv {B} P (Q : B → Prop) r b : decides P Q r → r = Some b → P ∧ Q b.
Proof. by intros H ->. Qed.
Lemma decides_iff {B} P P' (Q : B → Prop) r : (P ↔ P') → decides P Q r → decides P' Q r.
Proof. unfold decides. destruct r; naive_solver. Qed.
Lemma decides_ensure {B} (c : bool) (C P : Prop) (Q : B → Prop) r :
  (c = true ↔ C) → (C → decides P Q r) → decides (C ∧ P) Q (if c then r else None).
Proof.
  intros Hc Hr. destruct c; [|simpl; naive_solver]. specialize (Hr (proj1 Hc eq_refl)).
  unfold decides in *. destruct r; naive_solver.
Qed.
Lemma decides_bind {A B} P1 P2 (Q1 : A → Prop) (Q2 : B → Prop) r f :
  decides P1 Q1 r → (∀ a, P1 → Q1 a → decides P2 Q2 (f a)) → decides (P1 ∧ P2) Q2 (r ≫= f).
Proof.
  unfold decides at 1. destruct r as [a|]; cbn; [|naive_solver]. intros [HP HQ] Hf.
  specialize (Hf a HP HQ). destruct (f a); simpl in *; naive_solver.
Qed.
Lemma decides_ret {B} (Q : B → Prop) b : Q b → decides True Q (Some b).
Proof. by split. Qed.
Lemma decides_weaken {B} P (Q Q' : B → Prop) r : decides P Q r → (∀ b, P → Q b → Q' b) → decides P Q' r.
Proof. unfold decides. destruct r; naive_solver. Qed.

Lemma map_Forall_insert_new {V} (P : N → V → Prop) (m : gmap N V) k v :
  m !! k = None → map_Forall P m ∧ P k v ↔ map_Forall P (<[k := v]> m).
Proof. intros Hno. rewrite map_Forall_insert by done. apply and_comm. Qed.

(** Loops that collect distinct elements. *)
Section distinct.
Context `{Countable A}.
Implicit Types (P : A → Prop) (l : list A).
Lemma NoDup_all_snoc P l a :
  (NoDup l ∧ ∀ x, x ∈ l → P x) ∧ P a ∧ (a ∉ (list_to_set l : gset A)) ∧ True ↔
    NoDup (l ++ [a]) ∧ ∀ x, x ∈ l ++ [a] → P x.
Proof.
  rewrite elem_of_list_to_set, NoDup_app. setoid_rewrite elem_of_app. setoid_rewrite list_elem_of_singleton.
  split; [|naive_solver]. intros ((? & ?) & ? & ? & _). split_and!; [done| |by apply NoDup_singleton|]; naive_solver.
Qed.
Lemma list_to_set_snoc l a : list_to_set (l ++ [a]) = {[ a ]} ∪ (list_to_set l : gset A).
Proof. rewrite list_to_set_app_L. set_solver. Qed.
Lemma foldM_distinct (f : gset A → A → option (gset A)) (p : A → bool) P l :
  (∀ s a, f s a = ensure! p a; ensure! bool_decide (a ∉ s); Some ({[ a ]} ∪ s)) → (∀ a, p a = true ↔ P a) →
  decides (NoDup l ∧ ∀ x, x ∈ l → P x) (λ s, s = list_to_set l) (foldM f ∅ l).
Proof.
  intros Hf Hp. apply foldM_ind; [split; [split; [apply NoDup_nil_2|by intros i ?%elem_of_nil]|done]|].
  intros l' a r Hr. eapply decides_iff; [apply NoDup_all_snoc|]. eapply decides_bind; [exact Hr|].
  intros s _ ->. rewrite Hf, list_to_set_snoc. apply decides_ensure; [apply Hp|]. intros _.
  apply decides_ensure; [apply bool_decide_eq_true|]. intros _. by apply decides_ret.
Qed.
End distinct.

(** ** Counting arguments *)
Section images.
Context `{Countable A, Countable B}.
Implicit Types (X : gset A) (Y : gset B) (f : A → B).

Lemma size_map_inj f X :
  (∀ x x', x ∈ X → x' ∈ X → f x = f x' → x = x') → size (set_map (D := gset B) f X) = size X.
Proof.
  intros Hinj. unfold set_map. rewrite size_list_to_set; [by rewrite length_fmap|].
  apply NoDup_fmap_2_strong; [|apply NoDup_elements]. intros x y. rewrite !elem_of_elements. auto.
Qed.
(** An injective image of the same size is everything. *)
Lemma image_onto f X Y :
  (∀ x, x ∈ X → f x ∈ Y) → (∀ x x', x ∈ X → x' ∈ X → f x = f x' → x = x') → size Y ≤ size X →
  ∀ y, y ∈ Y → ∃ x, x ∈ X ∧ f x = y.
Proof.
  intros Hin Hinj Hs y Hy. assert (set_map (D := gset B) f X = Y) as Heq.
  { apply set_subseteq_size_eq; [intros z; rewrite elem_of_map; naive_solver|by rewrite size_map_inj]. }
  rewrite <-Heq in Hy. apply elem_of_map in Hy as (x & -> & Hx). eauto.
Qed.
Lemma image_size f X Y :
  (∀ x, x ∈ X → f x ∈ Y) → (∀ x x', x ∈ X → x' ∈ X → f x = f x' → x = x') →
  (∀ y, y ∈ Y → ∃ x, x ∈ X ∧ f x = y) → size X = size Y.
Proof.
  intros Hin Hinj Hsur. rewrite <-(size_map_inj f X) by done. f_equal. apply set_eq. intros y.
  rewrite elem_of_map. naive_solver.
Qed.
End images.

(** ** The tube slab *)
Definition lives (T : Slab) : gset TubeId := filter (λ i, is_Some (slot T i)) (set_seq 0 (length T)).
Lemma elem_of_lives T i : i ∈ lives T ↔ live T i.
Proof.
  unfold lives. rewrite elem_of_filter, elem_of_set_seq. split; [by intros []|].
  intros Hl. split; [done|]. destruct Hl as [t Ht%slot_lt]. lia.
Qed.
Lemma lives_snoc T o : lives (T ++ [o]) = (if o is Some _ then {[ length T ]} else ∅) ∪ lives T.
Proof.
  apply set_eq. intros i. rewrite elem_of_union, !elem_of_lives. unfold live. rewrite slot_app.
  case_decide as Hi; [subst i|].
  - assert (slot T (length T) = None) as ->.
    { destruct (slot T (length T)) eqn:E; [|done]. apply slot_lt in E. lia. }
    destruct o; rewrite is_Some_alt; set_solver.
  - destruct o; set_solver.
Qed.
Lemma size_lives_snoc T o : size (lives (T ++ [o])) = (if o is Some _ then 1 else 0) + size (lives T).
Proof.
  rewrite lives_snoc. destruct o as [t0|]; [|by rewrite union_empty_l_L].
  rewrite size_union, size_singleton; [done|]. apply disjoint_singleton_l. rewrite elem_of_lives.
  intros [t Ht%slot_lt]. lia.
Qed.
Lemma size_lives_le T : size (lives T) ≤ length T.
Proof.
  rewrite <-(size_set_seq (C := gset nat) 0 (length T)). apply subseteq_size. intros i.
  rewrite elem_of_lives, elem_of_set_seq. intros [t Ht%slot_lt]. lia.
Qed.

Definition slot_good (e : Engine) (i : TubeId) (t : TubeState) : Prop :=
  e_tube_ids e !! t_name t = Some i ∧ ms_items (e_tube_order e) !! t_pos t = Some i.
Lemma each_tube_snoc P T o :
  each_tube P (T ++ [o]) ↔ each_tube P T ∧ ∀ t, o = Some t → P (length T) t.
Proof.
  unfold each_tube. setoid_rewrite slot_app. split.
  - intros HP. split.
    + intros i t Ht. apply HP. rewrite decide_False; [done|]. apply slot_lt in Ht. lia.
    + intros t ->. apply HP. by rewrite decide_True.
  - intros [HT Ho] i t. case_decide; [subst|]; auto.
Qed.
Lemma each_tube_nil P : each_tube P [].
Proof. intros i t. by rewrite slot_Some. Qed.

Lemma check_slots_ok e T :
  decides (each_tube (slot_good e) T) (λ n, n = size (lives T)) (foldM (check_slot e) 0 (enumerate T)).
Proof.
  apply foldM_enumerate_ind; [split; [apply each_tube_nil|done]|]. intros T' o r Hr.
  eapply decides_iff; [symmetry; apply each_tube_snoc|]. rewrite size_lives_snoc.
  eapply decides_bind; [exact Hr|]. intros n _ ->. unfold check_slot. destruct o as [t|].
  - eapply decides_iff; [|apply decides_ensure; [apply bool_decide_eq_true|]; intros _;
      apply decides_ensure; [apply bool_decide_eq_true|]; intros _; by apply decides_ret].
    unfold slot_good. naive_solver.
  - split; naive_solver.
Qed.
Lemma check_frees_ok e l :
  decides (NoDup l ∧ ∀ i, i ∈ l → e_tubes e !! i = Some None) (λ s, s = list_to_set l) (foldM (check_free e) ∅ l).
Proof.
  apply foldM_distinct with (p := λ i, bool_decide (e_tubes e !! i = Some None)); [done|].
  intros i. apply bool_decide_eq_true.
Qed.

(** Names, order and free slots are exact images of the live slots. *)
Lemma reg_ok_sizes T ids order free :
  reg_ok T ids order free →
  size ids = size (lives T) ∧ length order = size (lives T) ∧ length free = length T - size (lives T).
Proof.
  intros (_ & Hn & Hp & Hf & Hnd). split_and!.
  - rewrite <-size_dom. symmetry. apply (image_size (λ i, default default_tube (t_name <$> slot T i))).
    + intros i [t Ht]%elem_of_lives. rewrite Ht. cbn. apply elem_of_dom. exists i. apply Hn. by rewrite Ht.
    + intros i i' [t Ht]%elem_of_lives [t' Ht']%elem_of_lives. rewrite Ht, Ht'. cbn. intros Heq.
      assert (ids !! t_name t = Some i) as H1 by (apply Hn; by rewrite Ht).
      assert (ids !! t_name t' = Some i') as H2 by (apply Hn; by rewrite Ht'). congruence.
    + intros n [i Hi]%elem_of_dom. exists i. apply Hn in Hi as Ht. rewrite Ht, elem_of_lives. split; [|done].
      apply fmap_Some in Ht as (t & Ht & _). by exists t.
  - rewrite <-(size_set_seq (C := gset nat) 0 (length order)). symmetry.
    apply (image_size (λ i, default 0 (t_pos <$> slot T i))).
    + intros i [t Ht]%elem_of_lives. rewrite Ht. cbn. apply elem_of_set_seq.
      assert (order !! t_pos t = Some i) as Ho%lookup_lt_Some by (apply Hp; by rewrite Ht). lia.
    + intros i i' [t Ht]%elem_of_lives [t' Ht']%elem_of_lives. rewrite Ht, Ht'. cbn. intros Heq.
      assert (order !! t_pos t = Some i) as H1 by (apply Hp; by rewrite Ht).
      assert (order !! t_pos t' = Some i') as H2 by (apply Hp; by rewrite Ht'). congruence.
    + intros p [_ Hlt]%elem_of_set_seq. destruct (lookup_lt_is_Some_2 order p ltac:(lia)) as [i Hi].
      exists i. apply Hp in Hi as Ht. rewrite Ht, elem_of_lives. split; [|done].
      apply fmap_Some in Ht as (t & Ht & _). by exists t.
  - assert (list_to_set free = set_seq (C := gset nat) 0 (length T) ∖ lives T) as Heq.
    { apply set_eq. intros i. rewrite elem_of_list_to_set, Hf, elem_of_difference, elem_of_set_seq, elem_of_lives.
      unfold live, slot. split.
      - intros Hi. rewrite Hi. apply lookup_lt_Some in Hi. split; [lia|by intros []].
      - intros [Hlt Hno]. destruct (lookup_lt_is_Some_2 T i ltac:(lia)) as [[t|] Hi]; [|done].
        rewrite Hi in Hno. destruct Hno. by eexists. }
    rewrite <-(size_list_to_set (C := gset nat) free) by done. rewrite Heq, size_difference, size_set_seq; [done|].
    intros i [t Ht%slot_lt]%elem_of_lives. apply elem_of_set_seq. lia.
Qed.
Lemma reg_ok_sized e :
  let T := e_tubes e in
  let free := e_free_tube_ids e in
  each_tube (slot_good e) T → size (e_tube_ids e) = size (lives T) → ms_len (e_tube_order e) = size (lives T) →
  length free = length T - size (lives T) → NoDup free → (∀ i, i ∈ free → T !! i = Some None) →
  (∀ n i, e_tube_ids e !! n = Some i ↔ t_name <$> slot T i = Some n) ∧
  (∀ p i, ms_items (e_tube_order e) !! p = Some i ↔ t_pos <$> slot T i = Some p) ∧
  (∀ i, i ∈ free ↔ T !! i = Some None).
Proof.
  intros T free Hgood Hids Hord Hfree Hnd Hsub. split_and!.
  - intros n i. rewrite fmap_Some. split; [|by intros (t & Ht & ->); apply Hgood].
    intros Hi. destruct (image_onto (λ i, default default_tube (t_name <$> slot T i)) (lives T) (dom (e_tube_ids e)))
      with (y := n) as (i' & [t Ht]%elem_of_lives & Hn).
    + intros k [t Ht]%elem_of_lives. rewrite Ht. cbn. apply elem_of_dom. exists k. by apply Hgood.
    + intros k k' [t Ht]%elem_of_lives [t' Ht']%elem_of_lives. rewrite Ht, Ht'. cbn. intros Heq.
      apply Hgood in Ht as [Ht _], Ht' as [Ht' _]. congruence.
    + rewrite size_dom. lia.
    + by eapply elem_of_dom_2.
    + rewrite Ht in Hn. cbn in Hn. subst n. destruct (Hgood _ _ Ht) as [Ht' _]. assert (i' = i) as -> by congruence. eauto.
  - intros p i. rewrite fmap_Some. split; [|by intros (t & Ht & ->); apply Hgood].
    intros Hi. destruct (image_onto (λ i, default 0 (t_pos <$> slot T i)) (lives T)
      (set_seq (C := gset nat) 0 (ms_len (e_tube_order e)))) with (y := p) as (i' & [t Ht]%elem_of_lives & Hn).
    + intros k [t Ht]%elem_of_lives. rewrite Ht. cbn. apply elem_of_set_seq. apply Hgood in Ht as [_ Ht%lookup_lt_Some].
      unfold ms_len. lia.
    + intros k k' [t Ht]%elem_of_lives [t' Ht']%elem_of_lives. rewrite Ht, Ht'. cbn. intros Heq.
      apply Hgood in Ht as [_ Ht], Ht' as [_ Ht']. congruence.
    + rewrite size_set_seq. lia.
    + apply elem_of_set_seq. apply lookup_lt_Some in Hi. unfold ms_len. lia.
    + rewrite Ht in Hn. cbn in Hn. subst p. destruct (Hgood _ _ Ht) as [_ Ht']. assert (i' = i) as -> by congruence. eauto.
  - assert (list_to_set free = set_seq (C := gset nat) 0 (length T) ∖ lives T) as Heq.
    { apply set_subseteq_size_eq.
      - intros i Hi%elem_of_list_to_set%Hsub. rewrite elem_of_difference, elem_of_set_seq, elem_of_lives.
        unfold live, slot. rewrite Hi. apply lookup_lt_Some in Hi. split; [lia|by intros []].
      - rewrite size_list_to_set by done. rewrite size_difference, size_set_seq; [lia|].
        intros i [t Ht%slot_lt]%elem_of_lives. apply elem_of_set_seq. lia. }
    intros i. split; [apply Hsub|]. intros Hi. apply (elem_of_list_to_set (C := gset nat)). rewrite Heq.
    rewrite elem_of_difference, elem_of_set_seq, elem_of_lives. unfold live, slot. rewrite Hi.
    apply lookup_lt_Some in Hi. split; [lia|by intros []].
Qed.

Definition slab_limits (e : Engine) : Prop :=
  (N.of_nat (length (e_tubes e)) ≤ MAX_TUBE_SLOTS)%N ∧ (e_next_list_seq e ≤ MAX_LIST_SEQ)%N ∧
  (1 ≤ e_next_job_id e ≤ MAX_NEXT_JOB_ID)%N.
Definition registry_ok (e : Engine) : Prop :=
  reg_ok (e_tubes e) (e_tube_ids e) (ms_items (e_tube_order e)) (e_free_tube_ids e).
Lemma check_slab_ok e : check_slab e = Some () ↔ slab_limits e ∧ registry_ok e.
Proof.
  pose proof (check_slots_ok e (e_tubes e)) as Hslots. pose proof (check_frees_ok e (e_free_tube_ids e)) as Hfrees.
  unfold check_slab, slab_limits, registry_ok. split.
  - destruct (N.leb_spec (N.of_nat (length (e_tubes e))) MAX_TUBE_SLOTS); [|done].
    destruct (N.leb_spec (e_next_list_seq e) MAX_LIST_SEQ); [|done].
    intros (t0 & Ht0 & Hr)%bind_Some. case_bool_decide as Hname; [|done].
    destruct (Nat.eqb_spec (t_pos t0) 0) as [Hpos|]; [|done]. apply bind_Some in Hr as (n & Hn & Hr).
    destruct (decides_inv _ _ _ _ Hslots Hn) as [Hgood ->].
    destruct (Nat.eqb_spec (size (e_tube_ids e)) (size (lives (e_tubes e)))) as [Hids|]; [|done].
    destruct (Nat.eqb_spec (ms_len (e_tube_order e)) (size (lives (e_tubes e)))) as [Hord|]; [|done].
    destruct (Nat.eqb_spec (length (e_free_tube_ids e)) (length (e_tubes e) - size (lives (e_tubes e)))) as [Hfree|]; [|done].
    apply bind_Some in Hr as (s & Hs & Hr). destruct (decides_inv _ _ _ _ Hfrees Hs) as [[Hnd Hsub] _].
    destruct (N.leb_spec 1 (e_next_job_id e)); [|done]. destruct (N.leb_spec (e_next_job_id e) MAX_NEXT_JOB_ID); [|done].
    destruct (reg_ok_sized e) as (? & ? & ?); [done..|]. unfold tube in Ht0.
    unfold reg_ok. rewrite Ht0. cbn. rewrite Hname, Hpos. split_and!; assumption || reflexivity.
  - intros [(H1 & H2 & H3 & H4) Hreg]. destruct (reg_ok_sizes _ _ _ _ Hreg) as (Hids & Hord & Hfree).
    destruct Hreg as ((Hname & Hpos) & Hn & Hp & Hf & Hnd).
    rewrite (proj2 (N.leb_le _ _) H1), (proj2 (N.leb_le _ _) H2), (proj2 (N.leb_le _ _) H3), (proj2 (N.leb_le _ _) H4).
    apply fmap_Some in Hname as (t0 & Ht0 & Hname). rewrite Ht0 in Hpos. injection Hpos as Hpos. unfold tube. rewrite Ht0. cbn.
    rewrite bool_decide_eq_true_2, Hpos by done. cbn.
    destruct (decides_Some _ _ _ Hslots) as (n & -> & ->).
    { intros i t Ht. split; [apply Hn|apply Hp]; by rewrite Ht. }
    cbn. unfold ms_len. rewrite Hids, Hord, Hfree, !Nat.eqb_refl.
    destruct (decides_Some _ _ _ Hfrees) as (s & -> & _); [|done]. split; [done|]. intros i. by rewrite Hf.
Qed.

(** ** Connections *)
(** A vector of counts that holds the degrees of a relation. *)
Definition vec_deg (n : nat) (v : list N) (R : CTRel) : Prop :=
  length v = n ∧ ∀ t, t < n → get_at v t = deg R t.
Lemma get_at_count_at i v t : t < length v → get_at (count_at i v) t = (get_at v t + if decide (t = i) then 1 else 0)%N.
Proof.
  intros Hlt. unfold get_at, count_at. destruct (lookup_lt_is_Some_2 v t Hlt) as [x Hx].
  case_decide as Hd; [subst i; rewrite list_lookup_alter_eq|rewrite list_lookup_alter_ne by done];
    rewrite Hx; cbn; lia.
Qed.
Lemma vec_deg_add n v R cid t :
  vec_deg n v R → (cid, t) ∉ R → vec_deg n (count_at t v) ({[ (cid, t) ]} ∪ R).
Proof.
  intros [<- Hv] Hno. split; [apply length_alter|]. intros i Hi. by rewrite get_at_count_at, deg_add, Hv.
Qed.
Lemma vec_deg_zero n : vec_deg n (replicate n 0%N) ∅.
Proof.
  split; [apply length_replicate|]. intros t Ht. unfold get_at. rewrite (lookup_replicate_2 _ _ _ Ht). cbn.
  symmetry. apply deg_zero. set_solver.
Qed.
Lemma pairs_snoc cid l t : pairs cid (l ++ [t]) = {[ (cid, t) ]} ∪ pairs cid l.
Proof. unfold pairs. rewrite fmap_app, list_to_set_app_L. set_solver. Qed.
Lemma rel_insert_new (f : ConnState → list TubeId) C cid c :
  C !! cid = None → rel f (<[cid := c]> C) = pairs cid (f c) ∪ rel f C.
Proof.
  intros Hno. apply set_eq. intros [k t]. rewrite elem_of_union, elem_of_pairs, !elem_of_rel.
  destruct (decide (k = cid)) as [->|].
  - rewrite lookup_insert_eq, Hno. naive_solver.
  - rewrite lookup_insert_ne by done. naive_solver.
Qed.

Definition rel_if (b : bool) (R : CTRel) : CTRel := if b then R else ∅.
Lemma check_watches_ok e cid c n W Q s l :
  vec_deg n (cs_watching s) W → vec_deg n (cs_waiters s) Q → cs_wait_pairs s = Q →
  (∀ t, (cid, t) ∉ W) → (∀ t, (cid, t) ∉ Q) →
  decides (NoDup l ∧ ∀ t, t ∈ l → live (e_tubes e) t)
    (λ p, p.1 = list_to_set l ∧
       ∃ w q, vec_deg n w (pairs cid l ∪ W) ∧ vec_deg n q (rel_if (c_waiting c) (pairs cid l) ∪ Q) ∧
         p.2 = s <| cs_watching := w |> <| cs_waiters := q |>
                 <| cs_wait_pairs := rel_if (c_waiting c) (pairs cid l) ∪ Q |>)
    (foldM (check_watch e cid c) (∅, s) l).
Proof.
  intros HW HQ Hp HnW HnQ. apply foldM_ind.
  - split; [split; [apply NoDup_nil_2|by intros t ?%elem_of_nil]|]. split; [done|].
    exists (cs_watching s), (cs_waiters s). assert (pairs cid [] = ∅) as -> by set_solver.
    assert (rel_if (c_waiting c) ∅ = ∅) as -> by (by destruct (c_waiting c)). rewrite !union_empty_l_L, <-Hp.
    split_and!; [done|by rewrite Hp|]. by destruct s.
  - intros l' t r Hr. eapply decides_iff; [apply NoDup_all_snoc|]. eapply decides_bind; [exact Hr|].
    intros [seen s'] _ [Hseen (w & q & Hw & Hq & Hs)]. cbn [fst snd] in *. subst seen s'. unfold check_watch.
    apply decides_ensure; [apply bool_decide_eq_true|]. intros Hl.
    apply decides_ensure; [apply bool_decide_eq_true|]. intros Hnew. apply decides_ret. cbn [fst snd].
    rewrite list_to_set_snoc, pairs_snoc. split; [done|]. rewrite elem_of_list_to_set in Hnew.
    exists (count_at t w), (if c_waiting c then count_at t q else q).
    assert ((cid, t) ∉ pairs cid l' ∪ W) as HnW' by (rewrite elem_of_union, elem_of_pairs; naive_solver).
    destruct (c_waiting c); cbn [rel_if] in *; rewrite <-?(union_assoc_L {[ (cid, t) ]}).
    + assert ((cid, t) ∉ pairs cid l' ∪ Q) by (rewrite elem_of_union, elem_of_pairs; naive_solver).
      split_and!; [by apply vec_deg_add|by apply vec_deg_add|done].
    + split_and!; [by apply vec_deg_add|done|done].
Qed.

(** The reservations of a connection, as its loop sees them. *)
Definition holds_job (e : Engine) (cid : ConnId) (s : N) (i : JobId) : Prop :=
  ∃ j, e_jobs e !! i = Some j ∧ j_state j = JobState.Reserved ∧ j_reserver j = Some cid ∧
    j_list_seq j = s ∧ (s < e_next_list_seq e)%N.
Lemma check_reserved_step e cid seen s i :
  decides ((i ∉ seen) ∧ holds_job e cid s i) (λ seen', seen' = {[ i ]} ∪ seen) (check_reserved e cid seen s i).
Proof.
  unfold check_reserved, holds_job. case_bool_decide as Hseen; [|cbn; naive_solver].
  destruct (e_jobs e !! i) as [j|]; [|cbn; naive_solver]. cbn.
  destruct (bool_decide_reflect (j_state j = JobState.Reserved)); [|cbn; naive_solver].
  destruct (bool_decide_reflect (j_reserver j = Some cid)); [|cbn; naive_solver]. cbn.
  destruct (N.eqb_spec (j_list_seq j) s); [|cbn; naive_solver].
  destruct (N.ltb_spec s (e_next_list_seq e)); cbn; [naive_solver|]. intros (_ & ? & [= <-] & _ & _ & _ & ?). lia.
Qed.
Lemma check_reserveds_ok e cid m :
  decides (map_Forall (holds_job e cid) m)
    (λ seen, (∀ i, i ∈ seen ↔ ∃ s, m !! s = Some i) ∧ size seen = size m)
    (map_foldM (check_reserved e cid) ∅ m).
Proof.
  apply map_foldM_ind.
  - split; [apply map_Forall_empty|]. split; [|by rewrite map_size_empty]. intros i. split; [set_solver|]. by intros [s Hs].
  - intros s i m' r Hno Hr. eapply decides_weaken; [eapply decides_iff; [|eapply (decides_bind _ (holds_job e cid s i)); [exact Hr|]]|].
    + rewrite map_Forall_insert by done. tauto.
    + intros seen HP [Hseen Hsz]. assert (holds_job e cid s i → i ∉ seen) as Hnew.
      { intros (j & Hj & _ & _ & Hs & _) [s' Hs']%Hseen. assert (s' = s) as ->; [|congruence].
        destruct (HP _ _ Hs') as (j' & Hj' & _ & _ & Hq & _). congruence. }
      eapply (decides_iff ((i ∉ seen) ∧ holds_job e cid s i)); [tauto|].
      eapply decides_weaken; [apply check_reserved_step|]. intros seen' [Hn _] ->.
      instantiate (1 := λ seen', (∀ i', i' ∈ seen' ↔ ∃ s', <[s := i]> m' !! s' = Some i') ∧ size seen' = size (<[s := i]> m')).
      split.
      * intros i'. rewrite elem_of_union, elem_of_singleton, Hseen. split.
        { intros [->|[s' Hs']]; [exists s; apply lookup_insert_eq|]. exists s'. rewrite lookup_insert_ne; congruence. }
        intros [s' [[<- <-]|[_ Hs']]%lookup_insert_Some]; eauto.
      * rewrite size_union, size_singleton, map_size_insert_None by set_solver. lia.
    + done.
Qed.

Definition deadline_entry (e : Engine) (seen : gset JobId) (p : Nanos * JobId) : Prop :=
  p.2 ∈ seen ∧ j_deadline_at <$> e_jobs e !! p.2 = Some p.1.
Definition deadlines_ok (e : Engine) (c : ConnState) : Prop :=
  ∀ d i, (d, i) ∈ c_reserved_by_deadline c ↔
    (∃ s, c_reserved c !! s = Some i) ∧ j_deadline_at <$> e_jobs e !! i = Some d.
Lemma deadlines_exact e cid c seen :
  map_Forall (holds_job e cid) (c_reserved c) →
  (∀ i, i ∈ seen ↔ ∃ s, c_reserved c !! s = Some i) → size seen = size (c_reserved c) →
  size (c_reserved c) = size (c_reserved_by_deadline c) ∧
    set_Forall (deadline_entry e seen) (c_reserved_by_deadline c) ↔ deadlines_ok e c.
Proof.
  intros Hheld Hseen Hsz. unfold deadlines_ok. split.
  - intros [Heq Hall] d i. split; [by intros [Hi%Hseen Hd]%Hall|]. intros [Hi%Hseen Hd].
    destruct (image_onto snd (c_reserved_by_deadline c) seen) with (y := i) as ([d' i'] & Hin & <-); try done.
    + intros p Hp. by destruct (Hall _ Hp).
    + intros [d1 i1] [d2 i2] [_ H1]%Hall [_ H2]%Hall. cbn in *. congruence.
    + lia.
    + destruct (Hall _ Hin) as [_ Hd']. cbn in *. by replace d with d' by congruence.
  - intros Hdl. split; [|intros [d i] [Hi Hd]%Hdl; split; [by apply Hseen|done]].
    rewrite <-Hsz. symmetry. apply (image_size snd).
    + intros [d i] [Hi _]%Hdl. by apply Hseen.
    + intros [d1 i1] [d2 i2] [_ H1]%Hdl [_ H2]%Hdl. cbn in *. congruence.
    + intros i Hi%Hseen. destruct Hi as [s Hs]. destruct (Hheld _ _ Hs) as (j & Hj & _).
      exists (j_deadline_at j, i). split; [|done]. apply Hdl. rewrite Hj. split; [by exists s|done].
Qed.

(** A connection that passes its checks. *)
Record conn_good (e : Engine) (cid : ConnId) (c : ConnState) : Prop := {
  kg_use : live (e_tubes e) (c_use_tube c);
  kg_some : ms_items (c_watch c) ≠ [];
  kg_watch : NoDup (ms_items (c_watch c)) ∧ ∀ t, t ∈ ms_items (c_watch c) → live (e_tubes e) t;
  kg_wait : c_waiting c = false → c_wait_deadline c = None;
  kg_pending : ∀ pid, pending_id c = Some pid → (pid < e_next_job_id e)%N ∧ e_jobs e !! pid = None;
  kg_held : map_Forall (holds_job e cid) (c_reserved c);
  kg_deadlines : deadlines_ok e c;
  kg_tick : c_tick_key c = conn_tickat c;
}.
(** The sums over the connections [C]. *)
Definition held_ids (C : gmap ConnId ConnState) (R : gset JobId) : Prop :=
  ∀ i, i ∈ R ↔ ∃ cid c s, C !! cid = Some c ∧ c_reserved c !! s = Some i.
Record conn_sums (n : nat) (C : gmap ConnId ConnState) (s : ConnSums) : Prop := {
  ks_using : vec_deg n (cs_using s) (rel uses C);
  ks_watching : vec_deg n (cs_watching s) (rel watches C);
  ks_waiters : vec_deg n (cs_waiters s) (rel waits C);
  ks_pairs : cs_wait_pairs s = rel waits C;
  ks_producers : cs_producers s = count c_is_producer C;
  ks_workers : cs_workers s = count c_is_worker C;
  ks_waiting : cs_waiting s = count c_waiting C;
  ks_reserved : ∃ R, held_ids C R ∧ cs_reserved_entries s = N.of_nat (size R);
  ks_pending : ∀ i, i ∈ cs_pending_ids s ↔ ∃ cid, C !! cid ≫= pending_id = Some i;
  ks_ticks : conn_index C (cs_ticks s);
}.

Definition pend_set (c : ConnState) : gset JobId := if pending_id c is Some i then {[ i ]} else ∅.
Lemma check_pending_ok e c s :
  decides (∀ pid, pending_id c = Some pid →
             ((pid < e_next_job_id e)%N ∧ e_jobs e !! pid = None) ∧ pid ∉ cs_pending_ids s)
    (λ s', s' = s <| cs_pending_ids ::= (pend_set c ∪.) |>) (check_pending e c s).
Proof.
  unfold check_pending, pend_set, pending_id. destruct (c_pending_put c) as [[[i|] x]|]; cbn.
  - destruct (N.ltb_spec i (e_next_job_id e)) as [Hlt|Hge]; cbn.
    2: { intros Hall. destruct (Hall i eq_refl). lia. }
    case_bool_decide; cbn; [|naive_solver]. case_bool_decide; cbn; [|naive_solver]. split; [|done]. naive_solver.
  - split; [naive_solver|]. destruct s; cbv [set_field cs_pending_ids_set]; cbn. by rewrite union_empty_l_L.
  - split; [naive_solver|]. destruct s; cbv [set_field cs_pending_ids_set]; cbn. by rewrite union_empty_l_L.
Qed.
Definition bump_waiting (c : ConnState) (s : ConnSums) : ConnSums :=
  if c_waiting c then s <| cs_waiting ::= N.succ |> else s.
Lemma check_wait_ok c s :
  decides (c_waiting c = false → c_wait_deadline c = None) (λ s', s' = bump_waiting c s)
    (if c_waiting c then Some (s <| cs_waiting ::= N.succ |>)
     else ensure! bool_decide (c_wait_deadline c = None); Some s).
Proof. unfold bump_waiting. destruct (c_waiting c); [by split|]. case_bool_decide; cbn; naive_solver. Qed.
(** What [check_conn] adds to the sums. *)
Definition tick_set (cid : ConnId) (c : ConnState) : gset (Nanos * ConnId) :=
  if conn_tickat c is Some t then {[ (t, cid) ]} else ∅.
Record conn_added (n : nat) (cid : ConnId) (c : ConnState) (s s' : ConnSums) (U W Q : CTRel) : Prop := {
  ka_using : vec_deg n (cs_using s') (pairs cid (uses c) ∪ U);
  ka_watching : vec_deg n (cs_watching s') (pairs cid (watches c) ∪ W);
  ka_waiters : vec_deg n (cs_waiters s') (pairs cid (waits c) ∪ Q);
  ka_pairs : cs_wait_pairs s' = pairs cid (waits c) ∪ Q;
  ka_producers : cs_producers s' = (cs_producers s + of_bool (c_is_producer c))%N;
  ka_workers : cs_workers s' = (cs_workers s + of_bool (c_is_worker c))%N;
  ka_waiting : cs_waiting s' = (cs_waiting s + of_bool (c_waiting c))%N;
  ka_reserved : cs_reserved_entries s' = (cs_reserved_entries s + N.of_nat (size (c_reserved c)))%N;
  ka_pending : cs_pending_ids s' = pend_set c ∪ cs_pending_ids s;
  ka_ticks : cs_ticks s' = tick_set cid c ∪ cs_ticks s;
}.
Lemma pairs_of_waits cid c : rel_if (c_waiting c) (pairs cid (ms_items (c_watch c))) = pairs cid (waits c).
Proof. unfold waits. destruct (c_waiting c); [done|]. cbn. set_solver. Qed.
(** The conditions in the order of the checks. *)
Definition conn_checks (e : Engine) (s : ConnSums) (cid : ConnId) (c : ConnState) : Prop :=
  live (e_tubes e) (c_use_tube c) ∧ ms_items (c_watch c) ≠ [] ∧
  (NoDup (ms_items (c_watch c)) ∧ ∀ t, t ∈ ms_items (c_watch c) → live (e_tubes e) t) ∧
  (c_waiting c = false → c_wait_deadline c = None) ∧
  (∀ pid, pending_id c = Some pid →
     ((pid < e_next_job_id e)%N ∧ e_jobs e !! pid = None) ∧ pid ∉ cs_pending_ids s) ∧
  size (c_reserved c) = size (c_reserved_by_deadline c) ∧ map_Forall (holds_job e cid) (c_reserved c) ∧
  deadlines_ok e c ∧ c_tick_key c = conn_tickat c ∧ True.
Lemma deadlines_size e cid c :
  map_Forall (holds_job e cid) (c_reserved c) → deadlines_ok e c →
  size (c_reserved c) = size (c_reserved_by_deadline c).
Proof.
  intros Hheld Hdl. destruct (decides_Some _ _ _ (check_reserveds_ok e cid (c_reserved c)) Hheld) as (seen & _ & Hseen & Hsz).
  by apply (deadlines_exact _ _ _ _ Hheld Hseen Hsz).
Qed.
Lemma conn_checks_good e s cid c :
  conn_checks e s cid c ↔ conn_good e cid c ∧ ∀ pid, pending_id c = Some pid → pid ∉ cs_pending_ids s.
Proof.
  unfold conn_checks. split.
  - intros (? & ? & ? & ? & Hp & _ & ? & ? & ? & _). split; [|by intros pid [_ ?]%Hp].
    constructor; try done. by intros pid [? _]%Hp.
  - intros [[Hu Hs Hw Hwt Hp Hh Hd Ht] Hnew].
    split_and!; [exact Hu|exact Hs|apply Hw|apply Hw|exact Hwt|auto|by eapply deadlines_size|exact Hh|exact Hd|exact Ht|done].
Qed.
Lemma check_conn_adds n e cid c s U W Q :
  vec_deg n (cs_using s) U → vec_deg n (cs_watching s) W → vec_deg n (cs_waiters s) Q → cs_wait_pairs s = Q →
  (∀ t, (cid, t) ∉ U) → (∀ t, (cid, t) ∉ W) → (∀ t, (cid, t) ∉ Q) →
  decides (conn_checks e s cid c) (λ s', conn_added n cid c s s' U W Q) (check_conn e s cid c).
Proof.
  intros HU HW HQ Hp HnU HnW HnQ. unfold check_conn, conn_checks.
  apply decides_ensure; [apply bool_decide_eq_true|intros Huse].
  apply decides_ensure; [rewrite negb_true_iff; apply ms_is_empty_false|intros Hsome].
  eapply decides_bind; [apply check_watches_ok; [exact HW|exact HQ|exact Hp|exact HnW|exact HnQ]|].
  intros [seen1 s1] Hwatch [_ (w & q & Hw & Hq & Hs1)]. cbn [snd] in Hs1. subst s1.
  eapply decides_bind; [apply check_wait_ok|]. intros s2 Hwait ->.
  assert (cs_pending_ids s = cs_pending_ids (bump_waiting c s)) as Hpe by (unfold bump_waiting; by destruct (c_waiting c)).
  eapply decides_bind; [eapply decides_iff; [|apply check_pending_ok]|].
  { unfold bump_waiting. by destruct (c_waiting c). }
  intros s3 Hpend ->. apply decides_ensure; [apply Nat.eqb_eq|intros Hsize].
  eapply decides_bind; [apply check_reserveds_ok|]. intros seen Hheld [Hseen Hsz]. apply decides_ensure.
  { rewrite bool_decide_eq_true, <-(deadlines_exact _ _ _ _ Hheld Hseen Hsz). unfold deadline_entry. tauto. }
  intros Hdl. apply decides_ensure; [apply bool_decide_eq_true|intros Htick]. apply decides_ret.
  rewrite pairs_of_waits in *. unfold bump_waiting. rewrite <-Htick.
  assert (vec_deg n (count_at (c_use_tube c) (cs_using s)) (pairs cid (uses c) ∪ U)) as HU'.
  { replace (pairs cid (uses c)) with ({[ (cid, c_use_tube c) ]} : CTRel); [by apply vec_deg_add|]. unfold uses. set_solver. }
  destruct (c_waiting c) eqn:Ew, (c_tick_key c) as [tk|] eqn:Et; constructor; cbn; unfold tick_set;
    rewrite <-?Htick, ?Ew, ?Et, ?union_empty_l_L; cbn; first [done|lia].
Qed.
Lemma count_insert_bool {V} (P : V → bool) (C : gmap N V) k v :
  C !! k = None → count P (<[k := v]> C) = (count P C + of_bool (P v))%N.
Proof. intros Hk. rewrite count_insert_new by done. cbn. by destruct (P v). Qed.
Lemma lookup_insert_bind {V W} (f : V → option W) (C : gmap N V) k v i :
  <[k := v]> C !! i ≫= f = if decide (i = k) then f v else C !! i ≫= f.
Proof. case_decide; [subst; by rewrite lookup_insert_eq|by rewrite lookup_insert_ne]. Qed.
Lemma held_ids_insert e C R cid c :
  C !! cid = None → map_Forall (conn_good e) C → conn_good e cid c → held_ids C R →
  ∃ R', held_ids (<[cid := c]> C) R' ∧ size R' = size R + size (c_reserved c).
Proof.
  intros Hno HC Hc HR. pose proof (kg_held _ _ _ Hc) as Hheld.
  destruct (decides_Some _ _ _ (check_reserveds_ok e cid (c_reserved c)) Hheld) as (X & _ & HX & Hsz).
  exists (X ∪ R). split.
  - intros i. rewrite elem_of_union, HX, (HR i). split.
    + intros [[s Hs]|(cid' & c' & s & Hc' & Hs)].
      * exists cid, c, s. by rewrite lookup_insert_eq.
      * exists cid', c', s. rewrite lookup_insert_ne by congruence. done.
    + intros (cid' & c' & s & [[<- <-]|[_ Hc']]%lookup_insert_Some & Hs); [left; by exists s|right; by exists cid', c', s].
  - rewrite size_union; [lia|]. intros i [s (j & Hj & _ & Hr & _)%Hheld]%HX (cid' & c' & s' & Hc' & Hs')%HR.
    destruct (kg_held _ _ _ (HC _ _ Hc') _ _ Hs') as (j' & Hj' & _ & Hr' & _). congruence.
Qed.
Lemma conn_sums_insert n e C cid c s s' :
  C !! cid = None → map_Forall (conn_good e) C → conn_good e cid c → conn_sums n C s →
  conn_added n cid c s s' (rel uses C) (rel watches C) (rel waits C) → conn_sums n (<[cid := c]> C) s'.
Proof.
  intros Hno HC Hc [] []. destruct ks_reserved0 as (R & HR & HRn).
  destruct (held_ids_insert e C R cid c) as (R' & HR' & HRn'); [done..|].
  constructor; rewrite ?rel_insert_new, ?count_insert_bool by done; try done; try congruence.
  - exists R'. split; [done|]. lia.
  - intros i. rewrite ka_pending0, elem_of_union, ks_pending0. setoid_rewrite lookup_insert_bind. unfold pend_set.
    split.
    + intros [Hi|[cid' Hi]].
      * exists cid. rewrite decide_True by done. destruct (pending_id c); set_solver.
      * exists cid'. rewrite decide_False; [done|]. intros ->. by rewrite Hno in Hi.
    + intros [cid' Hi]. case_decide; [left; rewrite Hi; set_solver|right; by exists cid'].
  - intros k i. rewrite ka_ticks0, elem_of_union, (ks_ticks0 k i), lookup_insert_bind. unfold tick_set.
    rewrite <-(kg_tick _ _ _ Hc). case_decide as Hi.
    + subst i. rewrite Hno. cbn. destruct (c_tick_key c); set_solver.
    + destruct (c_tick_key c); set_solver.
Qed.

Definition pending_unique (C : gmap ConnId ConnState) : Prop :=
  ∀ cid1 cid2 pid, C !! cid1 ≫= pending_id = Some pid → C !! cid2 ≫= pending_id = Some pid → cid1 = cid2.
Lemma pending_unique_insert C cid c :
  C !! cid = None →
  pending_unique (<[cid := c]> C) ↔
    pending_unique C ∧ ∀ pid, pending_id c = Some pid → ¬ ∃ cid', C !! cid' ≫= pending_id = Some pid.
Proof.
  intros Hno. unfold pending_unique. setoid_rewrite lookup_insert_bind. split.
  - intros HC. split.
    + intros c1 c2 pid H1 H2. apply (HC c1 c2 pid); case_decide; congruence || by subst; rewrite Hno in *.
    + intros pid Hp [c1 H1]. assert (c1 = cid) as ->; [|by rewrite Hno in H1].
      apply (HC c1 cid pid); [|by rewrite decide_True]. case_decide; [done|done].
  - intros [HC Hnew] c1 c2 pid. repeat case_decide; subst; try done; intros H1 H2; [| |by eapply HC].
    + destruct (Hnew _ H1). by exists c2.
    + destruct (Hnew _ H2). by exists c1.
Qed.
Lemma conn_sums_zero n : conn_sums n ∅ (ConnSums_zero n).
Proof.
  constructor; cbn; rewrite ?rel_empty; try apply vec_deg_zero; try done.
  - exists ∅. split; [|done]. intros i. split; [set_solver|]. by intros (? & ? & ? & ? & _).
  - intros i. split; [set_solver|]. by intros [cid Hi].
Qed.
Lemma and_swap (A B C D : Prop) : (A ∧ B) ∧ C ∧ D ↔ (B ∧ C) ∧ A ∧ D.
Proof. tauto. Qed.
Lemma check_conns_loop e n C :
  decides (map_Forall (conn_good e) C ∧ pending_unique C) (conn_sums n C) (map_foldM (check_conn e) (ConnSums_zero n) C).
Proof.
  apply map_foldM_ind.
  - split; [|apply conn_sums_zero]. split; [apply map_Forall_empty|]. by intros ? ? ?.
  - intros cid c C' r Hno Hr. eapply decides_iff.
    { rewrite map_Forall_insert, pending_unique_insert by done. symmetry. apply and_swap. }
    eapply decides_bind; [exact Hr|]. intros s [HC _] Hs.
    eapply decides_weaken; [eapply decides_iff; [|apply (check_conn_adds n e cid c s (rel uses C') (rel watches C') (rel waits C'));
      [apply Hs..| | |]; intros t; rewrite elem_of_rel, Hno; by intros (? & ? & _)]|].
    + rewrite conn_checks_good. by setoid_rewrite (ks_pending _ _ _ Hs).
    + intros s' [Hc _] Ha. by eapply conn_sums_insert.
Qed.
Definition conns_good (e : Engine) : Prop :=
  (map_Forall (conn_good e) (e_conns e) ∧ pending_unique (e_conns e)) ∧ conn_index (e_conns e) (e_conn_ticks e) ∧
  conn_counts_ok (e_conns e) (e_cc e) (waiting_ct (e_ct e)) ∧ (cur_conns (e_cc e) ≤ tot_conns (e_cc e))%N.
Lemma conn_index_eq C S S' : conn_index C S' → S = S' ↔ conn_index C S.
Proof.
  intros H'. split; [by intros ->|]. intros HS. apply set_eq. intros [k cid]. by rewrite (HS k cid), (H' k cid).
Qed.
(** Numeric checks in a row. *)
Ltac ensure_step := eapply decides_ensure; [first [apply N.eqb_eq|apply N.leb_le]|intros _].
Lemma check_conns_ok e : decides (conns_good e) (conn_sums (length (e_tubes e)) (e_conns e)) (check_conns e).
Proof.
  unfold check_conns, conns_good, conn_counts_ok.
  eapply decides_bind; [apply check_conns_loop|]. intros s _ Hs.
  rewrite (ks_producers _ _ _ Hs), (ks_workers _ _ _ Hs), (ks_waiting _ _ _ Hs).
  apply decides_ensure; [by rewrite bool_decide_eq_true; apply conn_index_eq; apply Hs|]. intros _.
  eapply decides_iff; [|do 5 ensure_step; by apply decides_ret]. tauto.
Qed.

(** ** Jobs *)
Definition vec_count (n : nat) (v : list N) (P : TubeId → JobRec → bool) (J : Jobs) : Prop :=
  length v = n ∧ ∀ t, t < n → get_at v t = count (P t) J.
Lemma vec_count_zero n P : vec_count n (replicate n 0%N) P ∅.
Proof.
  split; [apply length_replicate|]. intros t Ht. unfold get_at. rewrite (lookup_replicate_2 _ _ _ Ht). cbn.
  by rewrite count_empty.
Qed.
Lemma vec_count_insert n v v' (P : TubeId → JobRec → bool) J i j :
  J !! i = None → vec_count n v P J → length v' = length v →
  (∀ t, t < n → get_at v' t = (get_at v t + of_bool (P t j))%N) → vec_count n v' P (<[i := j]> J).
Proof. intros Hno [<- Hv] Hlen Hv'. split; [done|]. intros t Ht. by rewrite Hv', count_insert_bool, Hv. Qed.
Lemma vec_count_add n v (P : TubeId → JobRec → bool) J i j tid :
  J !! i = None → vec_count n v P J → (∀ t, P t j = bool_decide (tid = t)) →
  vec_count n (count_at tid v) P (<[i := j]> J).
Proof.
  intros Hno Hv HP. eapply vec_count_insert; [done|exact Hv|apply length_alter|]. intros t Ht. destruct Hv as [Hn _].
  rewrite get_at_count_at by lia. rewrite HP. case_decide; destruct (bool_decide_reflect (tid = t)); cbn; congruence || lia.
Qed.
Lemma vec_count_same n v (P : TubeId → JobRec → bool) J i j :
  J !! i = None → vec_count n v P J → (∀ t, P t j = false) → vec_count n v P (<[i := j]> J).
Proof. intros Hno Hv HP. eapply vec_count_insert; [done|exact Hv|done|]. intros t Ht. rewrite HP. cbn. lia. Qed.

Definition reserver_ok (e : Engine) (j : JobRec) : Prop :=
  if in_state JobState.Reserved j then ∃ cid, j_reserver j = Some cid ∧ is_Some (e_conns e !! cid)
  else j_reserver j = None.
Definition in_queue (i : JobId) (j : JobRec) (t : TubeState) : Prop :=
  match j_state j with
  | JobState.Ready => (j_pri j, i) ∈ t_ready t
  | JobState.Delayed => (j_deadline_at j, i) ∈ t_delayed t
  | _ => True
  end.
Definition job_good (e : Engine) (i : JobId) (j : JobRec) : Prop :=
  job_ok (e_tubes e) (e_next_job_id e) i j ∧ reserver_ok e j ∧
  ∀ t, slot (e_tubes e) (j_tube j) = Some t → in_queue i j t.
Record job_sums (n : nat) (J : Jobs) (s : JobSums) : Prop := {
  jg_refs : vec_count n (js_refs s) in_tube J;
  jg_reserved_in : vec_count n (js_reserved_in s) (state_in JobState.Reserved) J;
  jg_ready : js_ready s = count (in_state JobState.Ready) J;
  jg_delayed : js_delayed s = count (in_state JobState.Delayed) J;
  jg_buried : js_buried s = count (in_state JobState.Buried) J;
  jg_reserved : js_reserved s = count (in_state JobState.Reserved) J;
}.
Lemma in_state_eq s j : in_state s j = bool_decide (j_state j = s).
Proof. done. Qed.
Lemma check_job_ok n e J s i j :
  J !! i = None → job_sums n J s → decides (job_good e i j) (job_sums n (<[i := j]> J)) (check_job e s i j).
Proof.
  intros Hno [H1 H2 H3 H4 H5 H6]. unfold check_job, job_good, job_ok, reserver_ok, live, tube.
  destruct (N.eqb_spec (j_id j) i); [|cbn; tauto].
  destruct (N.ltb_spec i (e_next_job_id e)); [|cbn; lia]. destruct (N.leb_spec 1 (j_ttr j)); [|cbn; lia].
  destruct (slot (e_tubes e) (j_tube j)) as [t|]; cbn [mbind option_bind].
  2: { cbn. intros ((_ & _ & _ & [t Ht]) & _). done. }
  eapply (decides_iff (reserver_ok e j ∧ in_queue i j t)).
  { split; [|intros (_ & ? & ?); auto]. intros [? ?]. split; [split_and!; [done..|by exists t]|]. split; [done|]. by intros t' [= <-]. }
  apply decides_ensure.
  { unfold reserver_ok, in_state. case_bool_decide; [|apply bool_decide_eq_true].
    destruct (j_reserver j) as [cid|]; [rewrite bool_decide_eq_true|]; naive_solver. }
  intros _. unfold in_queue. destruct (j_state j) eqn:Hs.
  all: try (eapply (decides_iff (_ ∧ True)); [apply right_id, _|]; eapply decides_ensure; [apply bool_decide_eq_true|]; intros _).
  all: apply decides_ret; constructor; cbn; rewrite ?count_insert_bool by done.
  all: try (rewrite in_state_eq, Hs; case_bool_decide; cbn; congruence || lia).
  all: try (by apply vec_count_add).
  all: try (apply vec_count_same; [done|done|]; intros t'; unfold state_in; by rewrite in_state_eq, Hs).
  apply vec_count_add; [done|done|]. intros t'. unfold state_in. by rewrite in_state_eq, Hs.
Qed.
Definition jobs_good (e : Engine) (held : N) : Prop :=
  map_Forall (job_good e) (e_jobs e) ∧ held = count (in_state JobState.Reserved) (e_jobs e) ∧
  reserved_ct (e_ct e) = count (in_state JobState.Reserved) (e_jobs e) ∧ True.
Lemma job_sums_zero n : job_sums n ∅ (JobSums_zero n).
Proof. constructor; try apply vec_count_zero; by rewrite count_empty. Qed.
Lemma check_jobs_ok e cs :
  decides (jobs_good e (cs_reserved_entries cs)) (job_sums (length (e_tubes e)) (e_jobs e)) (check_jobs e cs).
Proof.
  eapply decides_bind with (Q1 := job_sums (length (e_tubes e)) (e_jobs e)).
  - apply map_foldM_ind; [split; [apply map_Forall_empty|apply job_sums_zero]|]. intros i j J r Hno Hr.
    eapply decides_iff; [by apply map_Forall_insert_new|].
    eapply decides_bind; [exact Hr|]. intros s _ Hs. by apply check_job_ok.
  - intros s _ Hs. rewrite (jg_reserved _ _ _ Hs). do 2 ensure_step. by apply decides_ret.
Qed.

(** ** Tubes *)
Definition urgent_ready (t : TubeState) : N := N.of_nat (size (filter (λ p, is_urgent p.1 = true) (t_ready t))).
Definition buried_entry (e : Engine) (tid : TubeId) (s : N) (i : JobId) : Prop :=
  queued (e_jobs e) JobState.Buried i (λ j, j_tube j = tid ∧ j_list_seq j = s) ∧ (s < e_next_list_seq e)%N.
Lemma ready_entry_true e tid p i :
  ready_entry e tid (p, i) = true ↔ queued (e_jobs e) JobState.Ready i (λ j, j_tube j = tid ∧ j_pri j = p).
Proof.
  unfold ready_entry, queued. cbn. destruct (e_jobs e !! i) as [j|]; [|naive_solver].
  rewrite !andb_true_iff, bool_decide_eq_true, Nat.eqb_eq, N.eqb_eq. naive_solver.
Qed.
Lemma delayed_entry_true e tid d i :
  delayed_entry e tid (d, i) = true ↔ queued (e_jobs e) JobState.Delayed i (λ j, j_tube j = tid ∧ j_deadline_at j = d).
Proof.
  unfold delayed_entry, queued. cbn. destruct (e_jobs e !! i) as [j|]; [|naive_solver].
  rewrite !andb_true_iff, bool_decide_eq_true, Nat.eqb_eq, N.eqb_eq. naive_solver.
Qed.
Lemma check_buried_step e tid seen s i :
  decides (buried_entry e tid s i ∧ i ∉ seen) (λ seen', seen' = {[ i ]} ∪ seen) (check_buried e tid seen s i).
Proof.
  unfold check_buried, buried_entry, queued. destruct (e_jobs e !! i) as [j|]; [|cbn; naive_solver]. cbn.
  destruct (bool_decide_reflect (j_state j = JobState.Buried)); [|cbn; naive_solver].
  destruct (Nat.eqb_spec (j_tube j) tid); [|cbn; naive_solver]. cbn. case_bool_decide; [|cbn; naive_solver].
  destruct (N.eqb_spec (j_list_seq j) s); [|cbn; naive_solver].
  destruct (N.ltb_spec s (e_next_list_seq e)); cbn; [naive_solver|]. intros ((_ & ?) & _). lia.
Qed.
Lemma check_burieds_ok e tid seen m :
  (∀ i j, i ∈ seen → e_jobs e !! i = Some j → j_tube j ≠ tid) →
  decides (map_Forall (buried_entry e tid) m)
    (λ seen', (∀ i, i ∈ seen' ↔ (∃ s, m !! s = Some i) ∨ i ∈ seen) ∧ size seen' = size m + size seen)
    (map_foldM (check_buried e tid) seen m).
Proof.
  intros Hother. apply map_foldM_ind.
  - split; [apply map_Forall_empty|]. split; [|by rewrite map_size_empty]. intros i. split; [by right|].
    by intros [[s Hs]|].
  - intros s i m' r Hno Hr.
    eapply decides_iff; [by apply map_Forall_insert_new|].
    eapply decides_bind; [exact Hr|]. intros seen' HP [Hseen Hsz].
    assert (buried_entry e tid s i → i ∉ seen') as Hnew.
    { intros ((j & Hj & _ & Ht & Hs) & _) [[s' Hs']|Hin]%Hseen; [|by eapply Hother].
      destruct (HP _ _ Hs') as ((j' & Hj' & _ & _ & Hq) & _). assert (s' = s) as -> by congruence. congruence. }
    eapply (decides_iff (buried_entry e tid s i ∧ i ∉ seen')); [tauto|].
    eapply decides_weaken; [apply check_buried_step|]. intros seen'' [_ Hn] ->. split.
    + intros i'. rewrite elem_of_union, elem_of_singleton, Hseen. split.
      * intros [->|[[s' Hs']|]]; [left; exists s; apply lookup_insert_eq| |by right].
        left. exists s'. rewrite lookup_insert_ne; congruence.
      * intros [[s' [[<- <-]|[_ Hs']]%lookup_insert_Some]|]; eauto.
    + rewrite size_union, size_singleton, map_size_insert_None by set_solver. lia.
Qed.
Lemma check_waiters_ok cs tid l :
  decides (NoDup l ∧ ∀ cid, cid ∈ l → (cid, tid) ∈ cs_wait_pairs cs) (λ s, s = list_to_set l)
    (foldM (check_waiter cs tid) ∅ l).
Proof.
  apply foldM_distinct with (p := λ cid, bool_decide ((cid, tid) ∈ cs_wait_pairs cs)); [done|].
  intros cid. apply bool_decide_eq_true.
Qed.

(** A tube that passes its checks, in their order. *)
Definition waiters_ok (e : Engine) (tid : TubeId) (t : TubeState) : Prop :=
  NoDup (ms_items (t_waiting_conns t)) ∧
  ∀ cid, cid ∈ ms_items (t_waiting_conns t) → (cid, tid) ∈ rel waits (e_conns e).
Definition tube_good (e : Engine) (tid : TubeId) (t : TubeState) : Prop :=
  set_Forall (λ p, ready_entry e tid p = true) (t_ready t) ∧
  set_Forall (λ p, delayed_entry e tid p = true) (t_delayed t) ∧
  map_Forall (buried_entry e tid) (t_buried t) ∧
  waiters_ok e tid t ∧
  N.of_nat (ms_len (t_waiting_conns t)) = deg (rel waits (e_conns e)) tid ∧
  ts_urgent_ct (t_stat t) = urgent_ready t ∧
  ts_buried_ct (t_stat t) = N.of_nat (size (t_buried t)) ∧
  ts_reserved_ct (t_stat t) = count (state_in JobState.Reserved tid) (e_jobs e) ∧
  ts_waiting_ct (t_stat t) = deg (rel waits (e_conns e)) tid ∧
  t_using_ct t = deg (rel uses (e_conns e)) tid ∧
  t_watching_ct t = deg (rel watches (e_conns e)) tid ∧
  t_job_ref_ct t = count (in_tube tid) (e_jobs e) ∧
  (tid = DEFAULT_TUBE ∨ (0 < deg (rel uses (e_conns e)) tid + deg (rel watches (e_conns e)) tid +
     count (in_tube tid) (e_jobs e))%N) ∧
  t_delay_head t = delay_head_of t ∧ t_dispatchable t = wants_dispatch t ∧
  (wants_dispatch t = true → (0 < t_pause t)%N) ∧ True.

Definition key_set (k : option Nanos) (tid : TubeId) : gset (Nanos * TubeId) :=
  if k is Some d then {[ (d, tid) ]} else ∅.
Definition flag_if (b : bool) (tid : TubeId) : gset TubeId := if b then {[ tid ]} else ∅.
Record tube_added (tid : TubeId) (t : TubeState) (s s' : TubeSums) : Prop := {
  ta_ready : us_ready s' = (us_ready s + N.of_nat (size (t_ready t)))%N;
  ta_urgent : us_urgent s' = (us_urgent s + urgent_ready t)%N;
  ta_delayed : us_delayed s' = (us_delayed s + N.of_nat (size (t_delayed t)))%N;
  ta_buried : us_buried s' = (us_buried s + N.of_nat (size (t_buried t)))%N;
  ta_seen : ∀ i, i ∈ us_seen_buried s' ↔ (∃ k, t_buried t !! k = Some i) ∨ i ∈ us_seen_buried s;
  ta_size : size (us_seen_buried s') = size (t_buried t) + size (us_seen_buried s);
  ta_heads : us_delay_heads s' = key_set (delay_head_of t) tid ∪ us_delay_heads s;
  ta_pauses : us_pauses s' = key_set (pause_key t) tid ∪ us_pauses s;
  ta_disp : us_dispatchable s' = flag_if (wants_dispatch t) tid ∪ us_dispatchable s;
}.
Section check_tube.
Context (e : Engine) (cs : ConnSums) (js : JobSums).
Hypothesis Hcs : conn_sums (length (e_tubes e)) (e_conns e) cs.
Hypothesis Hjs : job_sums (length (e_tubes e)) (e_jobs e) js.

Lemma check_tube_ok tid t s :
  tid < length (e_tubes e) → (∀ i j, i ∈ us_seen_buried s → e_jobs e !! i = Some j → j_tube j ≠ tid) →
  decides (tube_good e tid t) (tube_added tid t s) (check_tube e cs js s (tid, Some t)).
Proof using Hcs Hjs.
  intros Hlt Hother. cbn [check_tube]. unfold tube_good.
  apply decides_ensure; [apply bool_decide_eq_true|intros _].
  apply decides_ensure; [apply bool_decide_eq_true|intros _].
  eapply decides_bind; [by apply check_burieds_ok|]. intros seen _ [Hseen Hsz].
  eapply decides_bind; [unfold waiters_ok; rewrite <-(ks_pairs _ _ _ Hcs); apply check_waiters_ok|]. intros _ _ _.
  rewrite (proj2 (ks_waiters _ _ _ Hcs) _ Hlt), (proj2 (ks_using _ _ _ Hcs) _ Hlt), (proj2 (ks_watching _ _ _ Hcs) _ Hlt),
    (proj2 (jg_refs _ _ _ Hjs) _ Hlt), (proj2 (jg_reserved_in _ _ _ Hjs) _ Hlt).
  do 8 ensure_step.
  apply decides_ensure; [rewrite orb_true_iff, Nat.eqb_eq, N.ltb_lt; done|intros _].
  apply decides_ensure; [apply bool_decide_eq_true|intros _].
  apply decides_ensure; [apply eqb_true_iff|intros _].
  fold (wants_dispatch t). fold (delay_head_of t).
  assert (∀ k : option Nanos, match k with Some d => s <| us_delay_heads ::= ({[(d, tid)]} ∪.) |> | None => s end =
    s <| us_delay_heads ::= (key_set k tid ∪.) |>) as ->.
  { intros [d|]; [done|]. destruct s; cbv [set_field us_delay_heads_set]; cbn. by rewrite union_empty_l_L. }
  set (s1 := s <| us_delay_heads ::= (key_set (delay_head_of t) tid ∪.) |>).
  assert ((if (0 <? t_pause t)%N then s1 <| us_pauses ::= ({[(t_unpause_at t, tid)]} ∪.) |> else s1) =
    s1 <| us_pauses ::= (key_set (pause_key t) tid ∪.) |>) as ->.
  { unfold pause_key. destruct (0 <? t_pause t)%N; [done|]. destruct s; subst s1; cbv [set_field us_pauses_set us_delay_heads_set].
    cbn. by rewrite union_empty_l_L. }
  destruct (wants_dispatch t) eqn:Hd; [destruct (N.ltb_spec 0 (t_pause t)); [|cbn; lia]|];
    (split; [done|]; constructor; cbn; rewrite ?Hd; cbn; rewrite ?union_empty_l_L; first [done|unfold urgent_ready; lia]).
Qed.
End check_tube.

(** Sums over the slots of a slab. *)
Definition slot_sum (f : TubeState → N) (T : Slab) : N :=
  foldl (λ n o, n + match o with Some t => f t | None => 0 end)%N 0%N T.
Lemma slot_sum_snoc f T o : slot_sum f (T ++ [o]) = (slot_sum f T + match o with Some t => f t | None => 0 end)%N.
Proof. unfold slot_sum. by rewrite foldl_snoc. Qed.
Definition buried_ids (T : Slab) (S : gset JobId) : Prop :=
  ∀ i, i ∈ S ↔ ∃ tid t k, slot T tid = Some t ∧ t_buried t !! k = Some i.
Record tube_sums (T : Slab) (s : TubeSums) : Prop := {
  tg_ready : us_ready s = slot_sum (λ t, N.of_nat (size (t_ready t))) T;
  tg_urgent : us_urgent s = slot_sum urgent_ready T;
  tg_delayed : us_delayed s = slot_sum (λ t, N.of_nat (size (t_delayed t))) T;
  tg_buried : us_buried s = N.of_nat (size (us_seen_buried s));
  tg_seen : buried_ids T (us_seen_buried s);
  tg_heads : tube_index delay_head_of T (us_delay_heads s);
  tg_pauses : tube_index pause_key T (us_pauses s);
  tg_disp : flag_set wants_dispatch T (us_dispatchable s);
}.
Lemma slot_length {A} (T : list (option A)) : slot T (length T) = None.
Proof. destruct (slot T (length T)) eqn:E; [|done]. apply slot_lt in E. lia. Qed.
Lemma tube_index_snoc (g : TubeState → option Nanos) T S t :
  tube_index g T S → tube_index g (T ++ [Some t]) (key_set (g t) (length T) ∪ S).
Proof.
  intros HS k i. rewrite elem_of_union, (HS k i), slot_app. unfold key_set. case_decide as Hi.
  - subst i. rewrite slot_length. cbn. destruct (g t); set_solver.
  - destruct (g t); set_solver.
Qed.
Lemma tube_index_snoc_None (g : TubeState → option Nanos) T S :
  tube_index g T S → tube_index g (T ++ [None]) S.
Proof. intros HS k i. rewrite (HS k i), slot_app. case_decide; [subst i; by rewrite slot_length|done]. Qed.
Lemma flag_set_snoc g T S t : flag_set g T S → flag_set g (T ++ [Some t]) (flag_if (g t) (length T) ∪ S).
Proof.
  intros HS i. rewrite elem_of_union, (HS i), slot_app. unfold flag_if. case_decide as Hi.
  - subst i. rewrite slot_length. cbn. destruct (g t); set_solver.
  - destruct (g t); set_solver.
Qed.
Lemma flag_set_snoc_None g T S : flag_set g T S → flag_set g (T ++ [None]) S.
Proof. intros HS i. rewrite (HS i), slot_app. case_decide; [subst i; by rewrite slot_length|done]. Qed.
Lemma buried_ids_snoc T S S' t :
  buried_ids T S → (∀ i, i ∈ S' ↔ (∃ k, t_buried t !! k = Some i) ∨ i ∈ S) → buried_ids (T ++ [Some t]) S'.
Proof.
  intros HS HS' i. rewrite HS', (HS i). setoid_rewrite slot_app. split.
  - intros [[k Hk]|(tid & t' & k & Ht & Hk)]; [exists (length T), t, k; by rewrite decide_True|].
    exists tid, t', k. rewrite decide_False; [done|]. apply slot_lt in Ht. lia.
  - intros (tid & t' & k & Ht & Hk). case_decide; [injection Ht as <-; eauto|]. right. eauto.
Qed.
Lemma buried_ids_snoc_None T S : buried_ids T S → buried_ids (T ++ [None]) S.
Proof.
  intros HS i. rewrite (HS i). setoid_rewrite slot_app. split.
  - intros (tid & t' & k & Ht & Hk). exists tid, t', k. rewrite decide_False; [done|]. apply slot_lt in Ht. lia.
  - intros (tid & t' & k & Ht & Hk). case_decide; [done|eauto].
Qed.

Lemma tube_sums_snoc T t s s' :
  tube_sums T s → tube_added (length T) t s s' → tube_sums (T ++ [Some t]) s'.
Proof.
  intros [] []. constructor; rewrite ?slot_sum_snoc; try congruence.
  - rewrite ta_buried0, ta_size0, tg_buried0. lia.
  - by eapply buried_ids_snoc.
  - rewrite ta_heads0. by apply tube_index_snoc.
  - rewrite ta_pauses0. by apply tube_index_snoc.
  - rewrite ta_disp0. by apply flag_set_snoc.
Qed.
Lemma tube_sums_snoc_None T s : tube_sums T s → tube_sums (T ++ [None]) s.
Proof.
  intros []. constructor; rewrite ?slot_sum_snoc, ?N.add_0_r; try done.
  - by apply buried_ids_snoc_None.
  - by apply tube_index_snoc_None.
  - by apply tube_index_snoc_None.
  - by apply flag_set_snoc_None.
Qed.
Lemma tube_sums_nil : tube_sums [] TubeSums_zero.
Proof.
  constructor; try done.
  - intros i. split; [set_solver|]. by intros (tid & t & k & ?%slot_Some & _).
Qed.
Lemma buried_elsewhere e T s i j :
  each_tube (tube_good e) T → tube_sums T s → i ∈ us_seen_buried s → e_jobs e !! i = Some j → j_tube j ≠ length T.
Proof.
  intros HT Hs (tid & t & k & Ht & Hk)%(tg_seen _ _ Hs) Hj. destruct (HT _ _ Ht) as (_ & _ & Hb & _).
  destruct (Hb _ _ Hk) as ((j' & Hj' & _ & <- & _) & _). apply slot_lt in Ht.
  assert (j' = j) as -> by congruence. lia.
Qed.
Section check_tubes_loop.
Context (e : Engine) (cs : ConnSums) (js : JobSums).
Hypothesis Hcs : conn_sums (length (e_tubes e)) (e_conns e) cs.
Hypothesis Hjs : job_sums (length (e_tubes e)) (e_jobs e) js.

Lemma check_tubes_loop T :
  length T ≤ length (e_tubes e) →
  decides (each_tube (tube_good e) T) (tube_sums T) (foldM (check_tube e cs js) TubeSums_zero (enumerate T)).
Proof using Hcs Hjs.
  apply (foldM_enumerate_ind _ (λ T r, length T ≤ length (e_tubes e) → decides (each_tube (tube_good e) T) (tube_sums T) r)).
  - intros _. split; [apply each_tube_nil|apply tube_sums_nil].
  - intros T' o r Hr Hlen. rewrite length_app in Hlen. cbn in Hlen. specialize (Hr ltac:(lia)).
    eapply decides_iff; [symmetry; apply each_tube_snoc|]. eapply decides_bind; [exact Hr|]. intros s HT Hs.
    destruct o as [t|]; [|split; [naive_solver|by apply tube_sums_snoc_None]].
    eapply decides_weaken; [eapply decides_iff; [|apply check_tube_ok; [done..|lia|]]|].
    + naive_solver.
    + intros i j. by apply buried_elsewhere.
    + intros s' _. by apply tube_sums_snoc.
Qed.
End check_tubes_loop.

(** ** All loops together *)
Definition tubes_good (e : Engine) : Prop :=
  let J := e_jobs e in let T := e_tubes e in
  each_tube (tube_good e) T ∧
  slot_sum (λ t, N.of_nat (size (t_ready t))) T = count (in_state JobState.Ready) J ∧
  slot_sum (λ t, N.of_nat (size (t_delayed t))) T = count (in_state JobState.Delayed) J ∧
  (∃ S, buried_ids T S ∧ N.of_nat (size S) = count (in_state JobState.Buried) J) ∧
  ready_ct (e_ct e) = count (in_state JobState.Ready) J ∧ urgent_ct (e_ct e) = slot_sum urgent_ready T ∧
  delayed_ct (e_ct e) = count (in_state JobState.Delayed) J ∧
  buried_ct (e_ct e) = count (in_state JobState.Buried) J ∧
  tube_index delay_head_of T (e_delay_heads e) ∧ tube_index pause_key T (e_pauses e) ∧
  flag_set wants_dispatch T (e_dispatchable e) ∧ True.
Lemma tube_index_eq (g : TubeState → option Nanos) T S S' : tube_index g T S' → S = S' ↔ tube_index g T S.
Proof.
  intros H'. split; [by intros ->|]. intros HS. apply set_eq. intros [k tid]. by rewrite (HS k tid), (H' k tid).
Qed.
Lemma flag_set_eq g T S S' : flag_set g T S' → S = S' ↔ flag_set g T S.
Proof. intros H'. split; [by intros ->|]. intros HS. apply set_eq. intros tid. by rewrite (HS tid), (H' tid). Qed.
Lemma buried_ids_eq T S S' : buried_ids T S → buried_ids T S' → S = S'.
Proof. intros HS H'. apply set_eq. intros i. by rewrite (HS i), (H' i). Qed.
Lemma held_ids_eq C R R' : held_ids C R → held_ids C R' → R = R'.
Proof. intros HS H'. apply set_eq. intros i. by rewrite (HS i), (H' i). Qed.
Lemma check_tubes_ok e cs js :
  conn_sums (length (e_tubes e)) (e_conns e) cs → job_sums (length (e_tubes e)) (e_jobs e) js →
  decides (tubes_good e) (λ _, True) (check_tubes e cs js).
Proof.
  intros Hcs Hjs. unfold check_tubes, tubes_good. eapply decides_bind; [by apply check_tubes_loop|]. intros s _ Hs.
  rewrite (jg_ready _ _ _ Hjs), (jg_delayed _ _ _ Hjs), (jg_buried _ _ _ Hjs).
  rewrite (tg_ready _ _ Hs), (tg_urgent _ _ Hs), (tg_delayed _ _ Hs), (tg_buried _ _ Hs). do 2 ensure_step.
  apply decides_ensure.
  { rewrite N.eqb_eq. split; [intros <-; eexists; split; [apply Hs|done]|].
    intros (S & HS & <-). by rewrite (buried_ids_eq _ _ _ HS (tg_seen _ _ Hs)). }
  intros _. do 4 ensure_step.
  apply decides_ensure; [rewrite bool_decide_eq_true; by apply tube_index_eq, Hs|intros _].
  apply decides_ensure; [rewrite bool_decide_eq_true; by apply tube_index_eq, Hs|intros _].
  apply decides_ensure; [rewrite bool_decide_eq_true; by apply flag_set_eq, Hs|intros _]. by apply decides_ret.
Qed.

Definition all_good (e : Engine) : Prop :=
  (slab_limits e ∧ registry_ok e) ∧ conns_good e ∧
  (∃ R, held_ids (e_conns e) R ∧ jobs_good e (N.of_nat (size R))) ∧ tubes_good e.
Lemma validate_good e : validate e = Some () ↔ all_good e.
Proof.
  unfold validate, all_good. rewrite <-check_slab_ok. pose proof (check_conns_ok e) as Hc. split.
  - intros ([] & Hslab & (cs & Hcs & (js & Hjs & Ht)%bind_Some)%bind_Some)%bind_Some.
    destruct (decides_inv _ _ _ _ Hc Hcs) as [Hcg Hcsum].
    destruct (decides_inv _ _ _ _ (check_jobs_ok e cs) Hjs) as [Hjg Hjsum].
    destruct (decides_inv _ _ _ _ (check_tubes_ok _ _ _ Hcsum Hjsum) Ht) as [Htg _].
    destruct (ks_reserved _ _ _ Hcsum) as (R & HR & HRn). rewrite HRn in Hjg. split_and!; eauto.
  - intros (-> & Hcg & (R & HR & Hjg) & Htg). cbn.
    destruct (decides_Some _ _ _ Hc Hcg) as (cs & -> & Hcsum). cbn.
    destruct (ks_reserved _ _ _ Hcsum) as (R' & HR' & HRn). rewrite (held_ids_eq _ _ _ HR HR'), <-HRn in Hjg.
    destruct (decides_Some _ _ _ (check_jobs_ok e cs) Hjg) as (js & -> & Hjsum). cbn.
    by destruct (decides_Some _ _ _ (check_tubes_ok _ _ _ Hcsum Hjsum) Htg) as ([] & -> & _).
Qed.
