(* ===== verification/ValidInv.v ===== *)
(** * What [validate] accepts is the invariant

    The conditions of the loops of [validate] ([Valid.all_good]) are the
    parts of [Inv] and the limits of the counters, and conversely.  The
    reverse inclusions of the queues come from counting: entries that name
    distinct jobs in the right state, as many as there are such jobs. *)

From S2P Require Import Prelude Ms Proto Model Engine Inv Validate Valid.
From stdpp Require Import options.

(** ** Queue sizes *)
Section queue_sizes.
Implicit Types (J : Jobs) (P : JobRec → bool).

Definition ids_with P J : gset JobId := dom (filter (λ kv : JobId * JobRec, P kv.2) J).
Lemma elem_of_ids_with P J i : i ∈ ids_with P J ↔ ∃ j, J !! i = Some j ∧ P j = true.
Proof.
  unfold ids_with. rewrite elem_of_dom. unfold is_Some. setoid_rewrite map_lookup_filter_Some. cbn.
  setoid_rewrite Is_true_true. done.
Qed.
Lemma size_ids_with P J : N.of_nat (size (ids_with P J)) = count P J.
Proof. unfold ids_with, count. by rewrite size_dom. Qed.

(** A set of pairs, and a map, that hold the jobs [P] selects by a key. *)
Lemma queue_size P J (key : JobRec → N) (X : gset (N * JobId)) :
  (∀ p i, (p, i) ∈ X ↔ ∃ j, J !! i = Some j ∧ P j = true ∧ key j = p) → N.of_nat (size X) = count P J.
Proof.
  intros HX. rewrite <-size_ids_with. f_equal. apply (image_size snd).
  - intros [p i] (j & Hj & HP & _)%HX. apply elem_of_ids_with. eauto.
  - intros [p i] [p' i'] (j & Hj & _ & <-)%HX (j' & Hj' & _ & <-)%HX. cbn. intros ->. congruence.
  - intros i (j & Hj & HP)%elem_of_ids_with. exists (key j, i). split; [|done]. apply HX. eauto.
Qed.
Lemma queue_map_size P J (key : JobRec → N) (m : gmap N JobId) :
  (∀ s i, m !! s = Some i ↔ ∃ j, J !! i = Some j ∧ P j = true ∧ key j = s) → N.of_nat (size m) = count P J.
Proof.
  intros Hm. rewrite <-size_ids_with, <-size_dom. f_equal. apply (image_size (λ s, default 0%N (m !! s))).
  - intros s [i Hi]%elem_of_dom. rewrite Hi. cbn. apply Hm in Hi as (j & Hj & HP & _). apply elem_of_ids_with. eauto.
  - intros s s' [i Hi]%elem_of_dom [i' Hi']%elem_of_dom. rewrite Hi, Hi'. cbn. intros ->.
    apply Hm in Hi as (j & Hj & _ & <-), Hi' as (j' & Hj' & _ & <-). congruence.
  - intros i (j & Hj & HP)%elem_of_ids_with. assert (m !! key j = Some i) as Hi by (apply Hm; eauto).
    exists (key j). rewrite Hi. split; [by eapply elem_of_dom_2|done].
Qed.
Lemma state_in_true s tid j : state_in s tid j = true ↔ j_state j = s ∧ j_tube j = tid.
Proof. unfold state_in, in_state, in_tube. by rewrite andb_true_iff, !bool_decide_eq_true. Qed.
Lemma urgent_in_true tid j :
  urgent_in tid j = true ↔ j_state j = JobState.Ready ∧ j_tube j = tid ∧ is_urgent (j_pri j) = true.
Proof. unfold urgent_in, in_state, in_tube. rewrite !andb_true_iff, !bool_decide_eq_true. tauto. Qed.
Lemma ready_size J tid t : ready_of J tid t → N.of_nat (size (t_ready t)) = count (state_in JobState.Ready tid) J.
Proof.
  intros HR. apply (queue_size _ _ j_pri). intros p i. rewrite (HR p i). unfold queued.
  setoid_rewrite state_in_true. naive_solver.
Qed.
Lemma delayed_size J tid t :
  delayed_of J tid t → N.of_nat (size (t_delayed t)) = count (state_in JobState.Delayed tid) J.
Proof.
  intros HR. apply (queue_size _ _ j_deadline_at). intros p i. rewrite (HR p i). unfold queued.
  setoid_rewrite state_in_true. naive_solver.
Qed.
Lemma buried_size J tid t : buried_of J tid t → N.of_nat (size (t_buried t)) = count (state_in JobState.Buried tid) J.
Proof.
  intros HR. apply (queue_map_size _ _ j_list_seq). intros s i. rewrite (HR s i). unfold queued.
  setoid_rewrite state_in_true. naive_solver.
Qed.
Lemma urgent_size J tid t : ready_of J tid t → urgent_ready t = count (urgent_in tid) J.
Proof.
  intros HR. apply (queue_size _ _ j_pri). intros p i. rewrite elem_of_filter, (HR p i). unfold queued. cbn.
  setoid_rewrite urgent_in_true. naive_solver.
Qed.

(** A sum over the tubes counts the jobs of all tubes. *)
Lemma count_or P Q J :
  (∀ j, P j = true → Q j = false) → count (λ j, P j || Q j) J = (count P J + count Q J)%N.
Proof.
  intros Hd. induction J as [|i j J Hi IH] using map_ind; [by rewrite !count_empty|].
  rewrite !count_insert_bool, IH by done. specialize (Hd j). destruct (P j), (Q j); cbn; try lia; by discriminate Hd.
Qed.
Lemma slot_sum_below P J T f :
  (∀ tid t, slot T tid = Some t → f t = count (λ j, P j && in_tube tid j) J) →
  (∀ i j, J !! i = Some j → j_tube j < length T → live T (j_tube j)) →
  slot_sum f T = count (λ j, P j && bool_decide (j_tube j < length T)) J.
Proof.
  induction T as [|o T IH] using rev_ind; intros Hf Hlive.
  { symmetry. apply count_zero. intros i j _. rewrite bool_decide_eq_false_2 by (cbn; lia). apply andb_false_r. }
  rewrite slot_sum_snoc, IH.
  - assert (match o with Some t => f t | None => 0 end = count (λ j, P j && in_tube (length T) j) J)%N as ->.
    { destruct o as [t|]; [apply Hf; rewrite slot_app; by rewrite decide_True|]. symmetry. apply count_zero.
      intros i j Hj. apply andb_false_iff. right. apply bool_decide_eq_false. intros Ht.
      destruct (Hlive i j Hj) as [t Hs]; [rewrite length_app; cbn; lia|]. rewrite slot_app, decide_True in Hs by done. done. }
    rewrite <-count_or.
    + apply count_ext. intros i j _. unfold in_tube. rewrite length_app. cbn. destruct (P j); [|done]. cbn.
      do 3 case_bool_decide; cbn; try done; lia.
    + intros j [_ Hlt%bool_decide_eq_true]%andb_true_iff. apply andb_false_iff. right. apply bool_decide_eq_false. lia.
  - intros tid t Ht. apply Hf. rewrite slot_app, decide_False; [done|]. apply slot_lt in Ht. lia.
  - intros i j Hj Hlt. destruct (Hlive i j Hj) as [t Ht]; [rewrite length_app; lia|].
    rewrite slot_app, decide_False in Ht by lia. by exists t.
Qed.
Lemma slot_sum_count P J T f :
  (∀ tid t, slot T tid = Some t → f t = count (λ j, P j && in_tube tid j) J) →
  (∀ i j, J !! i = Some j → live T (j_tube j)) → slot_sum f T = count P J.
Proof.
  intros Hf Hlive. rewrite (slot_sum_below P J) by eauto. apply count_ext. intros i j Hj.
  destruct (Hlive i j Hj) as [t Ht%slot_lt]. rewrite bool_decide_eq_true_2 by done. apply andb_true_r.
Qed.
End queue_sizes.

(** ** Accepted states satisfy the invariant *)
Definition valid_budget (e : Engine) : Budget :=
  mkBudget MAX_NEXT_JOB_ID (MAX_LIST_SEQ + 2 ^ 32) (N.of_nat (size (e_conns e))) (N.of_nat (length (e_tubes e))).
Section sound.
Context (e : Engine).
Hypothesis Hreg : registry_ok e.
Hypothesis Hlim : slab_limits e.
Hypothesis Hconns : conns_good e.
Context (R S : gset JobId).
Hypothesis HR : held_ids (e_conns e) R.
Hypothesis Hjobs : jobs_good e (N.of_nat (size R)).
Hypothesis HS : buried_ids (e_tubes e) S.
Hypothesis HSn : N.of_nat (size S) = count (in_state JobState.Buried) (e_jobs e).
Hypothesis Htubes : tubes_good e.

Lemma sound_conn cid c : e_conns e !! cid = Some c → conn_good e cid c.
Proof using Hconns. apply Hconns. Qed.
Lemma sound_tube tid t : slot (e_tubes e) tid = Some t → tube_good e tid t.
Proof using Htubes. apply Htubes. Qed.
Lemma sound_job i j : e_jobs e !! i = Some j → job_good e i j.
Proof using Hjobs. apply Hjobs. Qed.

(** The counts leave no reserved job out of [R] and no buried job out of [S]. *)
Lemma sound_reserved i j : e_jobs e !! i = Some j → j_state j = JobState.Reserved →
  ∃ cid c, e_conns e !! cid = Some c ∧ c_reserved c !! j_list_seq j = Some i ∧ j_reserver j = Some cid ∧
    (j_list_seq j < e_next_list_seq e)%N.
Proof using HR Hconns Hjobs.
  intros Hj Hs. destruct Hjobs as (_ & Hn & _). assert (R = ids_with (in_state JobState.Reserved) (e_jobs e)) as Heq.
  { apply set_subseteq_size_eq.
    - intros k (cid & c & s & Hc & Hk)%HR. destruct (kg_held _ _ _ (sound_conn _ _ Hc) _ _ Hk) as (j' & Hj' & Hs' & _).
      apply elem_of_ids_with. exists j'. split; [done|]. by apply bool_decide_eq_true.
    - clear HSn. pose proof (size_ids_with (in_state JobState.Reserved) (e_jobs e)). lia. }
  assert (i ∈ R) as (cid & c & s & Hc & Hi)%HR.
  { rewrite Heq. apply elem_of_ids_with. exists j. split; [done|]. by apply bool_decide_eq_true. }
  destruct (kg_held _ _ _ (sound_conn _ _ Hc) _ _ Hi) as (j' & Hj' & _ & Hr & <- & Hlt).
  assert (j' = j) as -> by congruence. by exists cid, c.
Qed.
Lemma sound_buried i j : e_jobs e !! i = Some j → j_state j = JobState.Buried →
  ∃ t, slot (e_tubes e) (j_tube j) = Some t ∧ t_buried t !! j_list_seq j = Some i ∧
    (j_list_seq j < e_next_list_seq e)%N.
Proof using HS HSn Htubes.
  intros Hj Hs. assert (S = ids_with (in_state JobState.Buried) (e_jobs e)) as Heq.
  { apply set_subseteq_size_eq.
    - intros k (tid & t & s & Ht & Hk)%HS. destruct (sound_tube _ _ Ht) as (_ & _ & Hb & _).
      destruct (Hb _ _ Hk) as ((j' & Hj' & Hs' & _) & _).
      apply elem_of_ids_with. exists j'. split; [done|]. by apply bool_decide_eq_true.
    - pose proof (size_ids_with (in_state JobState.Buried) (e_jobs e)). lia. }
  assert (i ∈ S) as (tid & t & s & Ht & Hi)%HS.
  { rewrite Heq. apply elem_of_ids_with. exists j. split; [done|]. by apply bool_decide_eq_true. }
  destruct (sound_tube _ _ Ht) as (_ & _ & Hb & _). destruct (Hb _ _ Hi) as ((j' & Hj' & _ & <- & <-) & Hlt).
  assert (j' = j) as -> by congruence. by exists t.
Qed.

Lemma sound_ready_of tid t : slot (e_tubes e) tid = Some t → ready_of (e_jobs e) tid t.
Proof using Hjobs Htubes.
  intros Ht p i. split; [by intros Hp; apply ready_entry_true, (sound_tube _ _ Ht)|].
  intros (j & Hj & Hs & <- & <-). destruct (sound_job _ _ Hj) as (_ & _ & Hq). specialize (Hq _ Ht).
  unfold in_queue in Hq. by rewrite Hs in Hq.
Qed.
Lemma sound_delayed_of tid t : slot (e_tubes e) tid = Some t → delayed_of (e_jobs e) tid t.
Proof using Hjobs Htubes.
  intros Ht p i. split; [by intros Hp; apply delayed_entry_true, (sound_tube _ _ Ht)|].
  intros (j & Hj & Hs & <- & <-). destruct (sound_job _ _ Hj) as (_ & _ & Hq). specialize (Hq _ Ht).
  unfold in_queue in Hq. by rewrite Hs in Hq.
Qed.
Lemma sound_buried_of tid t : slot (e_tubes e) tid = Some t → buried_of (e_jobs e) tid t.
Proof using HS HSn Htubes.
  intros Ht s i. split.
  - intros Hi. destruct (sound_tube _ _ Ht) as (_ & _ & Hb & _). by destruct (Hb _ _ Hi).
  - intros (j & Hj & Hs & <- & <-). destruct (sound_buried _ _ Hj Hs) as (t' & Ht' & Hi & _). congruence.
Qed.
Lemma sound_reserved_of cid c : e_conns e !! cid = Some c → reserved_of (e_jobs e) cid c.
Proof using HR Hconns Hjobs.
  intros Hc. pose proof (sound_conn _ _ Hc) as Hg.
  assert (∀ s i, c_reserved c !! s = Some i ↔
    queued (e_jobs e) JobState.Reserved i (λ j, j_reserver j = Some cid ∧ j_list_seq j = s)) as Hheld.
  { intros s i. split.
    - intros (j & Hj & Hs & Hr & Hq & _)%(kg_held _ _ _ Hg). by exists j.
    - intros (j & Hj & Hs & Hr & <-). destruct (sound_reserved _ _ Hj Hs) as (cid' & c' & Hc' & Hi & Hr' & _). congruence. }
  split; [done|]. intros d i. rewrite (kg_deadlines _ _ _ Hg d i). setoid_rewrite Hheld. unfold queued. split.
  - intros [(s & j & Hj & Hs & Hr & _) Hd]. rewrite Hj in Hd. injection Hd as Hd. by exists j.
  - intros (j & Hj & Hs & Hr & <-). rewrite Hj. split; [by exists (j_list_seq j), j|done].
Qed.
Lemma sound_queued_ok i j : e_jobs e !! i = Some j → queued_ok (e_conns e) (e_next_list_seq e) i j.
Proof using HR HS HSn Hconns Hjobs Htubes.
  intros Hj. split; [apply (sound_job _ _ Hj)|]. intros [Hs|Hs].
  - by destruct (sound_reserved _ _ Hj Hs) as (? & ? & ? & ? & ? & ?).
  - by destruct (sound_buried _ _ Hj Hs) as (? & ? & ? & ?).
Qed.
Lemma sound_waiting_ok tid t : slot (e_tubes e) tid = Some t → waiting_ok (rel waits (e_conns e)) tid t.
Proof using Htubes.
  intros Ht. destruct (sound_tube _ _ Ht) as (_ & _ & _ & (Hnd & Hsub) & Hlen & _). split; [done|]. intros cid.
  split; [apply Hsub|]. intros Hin.
  destruct (image_onto (λ c, (c, tid)) (list_to_set (ms_items (t_waiting_conns t)) : gset ConnId)
    (filter (λ p : ConnId * TubeId, p.2 = tid) (rel waits (e_conns e)))) with (y := (cid, tid)) as (cid' & Hc & [= ->]).
  - intros c Hc%elem_of_list_to_set. apply elem_of_filter. split; [done|]. by apply Hsub.
  - by intros c c' _ _ [= ->].
  - clear HSn. unfold deg, ms_len in Hlen. rewrite size_list_to_set by done. lia.
  - by apply elem_of_filter.
  - by apply elem_of_list_to_set in Hc.
Qed.
Lemma sound_live i j : e_jobs e !! i = Some j → live (e_tubes e) (j_tube j).
Proof using Hjobs. intros Hj. apply (sound_job _ _ Hj). Qed.
Lemma sound_counts : counts_ok (e_jobs e) (e_ct e).
Proof using Hjobs Htubes.
  destruct Htubes as (_ & _ & _ & _ & Hr & Hu & Hd & Hb & _), Hjobs as (_ & _ & Hres & _). unfold counts_ok.
  rewrite Hu. split_and!; try done. apply slot_sum_count; [|apply sound_live]. intros tid t Ht.
  rewrite (urgent_size _ _ _ (sound_ready_of _ _ Ht)). apply count_ext. intros i j _. unfold urgent_in, urgent.
  by destruct (in_state _ j), (in_tube tid j), (is_urgent _).
Qed.
Lemma sound_bounds :
  (cur_conns (e_cc e) < 2 ^ 32)%N →
  bounds_ok (valid_budget e) (e_next_job_id e) (e_next_list_seq e) (e_conns e) (e_tubes e).
Proof using Hconns Hlim.
  intros Hlt. destruct Hlim as (_ & Hseq & Hid1 & Hid2), Hconns as (_ & _ & (Hcur & _) & _).
  pose proof (count_le_size c_waiting (e_conns e)).
  unfold bounds_ok, budget_ok, counter_limit, seq_used, MAX_LIST_SEQ, MAX_NEXT_JOB_ID in *. clear HSn.
  cbn [valid_budget b_ids b_seq b_conns b_tubes]. unfold MAX_NEXT_JOB_ID, MAX_LIST_SEQ. lia.
Qed.
End sound.
Lemma deg_small (f : ConnState → list TubeId) e tid :
  conns_good e → (cur_conns (e_cc e) < 2 ^ 32)%N → (deg (rel f (e_conns e)) tid < 2 ^ 32)%N.
Proof. intros (_ & _ & (Hcur & _) & _) Hlt. pose proof (deg_rel_le f (e_conns e) tid). lia. Qed.
Lemma jobs_small e : slab_limits e → map_Forall (job_good e) (e_jobs e) →
  (N.of_nat (size (e_jobs e)) ≤ 2 ^ 62)%N.
Proof.
  intros (_ & _ & _ & Hn) HJ. etrans; [apply (size_below _ (e_next_job_id e))|exact Hn].
  intros i j ((_ & ? & _) & _)%HJ. done.
Qed.
Lemma good_referenced e tid t :
  slab_limits e → conns_good e → map_Forall (job_good e) (e_jobs e) → (cur_conns (e_cc e) < 2 ^ 32)%N →
  tube_good e tid t → tid = DEFAULT_TUBE ∨ (0 < refs t)%N.
Proof.
  intros Hl Hc HJ Hlt (_ & _ & _ & _ & _ & _ & _ & _ & _ & Hu & Hw & Hj & Href & _).
  destruct Href as [|Href]; [by left|right]. unfold refs, wrap64. rewrite Hu, Hw, Hj.
  pose proof (deg_small uses e tid Hc Hlt). pose proof (deg_small watches e tid Hc Hlt).
  pose proof (jobs_small e Hl HJ). pose proof (count_le_size (in_tube tid) (e_jobs e)).
  rewrite N.mod_small; lia.
Qed.
Lemma all_good_Inv e : (cur_conns (e_cc e) < 2 ^ 32)%N → all_good e → Inv (valid_budget e) e.
Proof.
  intros Hlt ((Hlim & Hreg) & Hconns & (R & HR & Hjobs) & Htubes).
  pose proof Htubes as (_ & _ & _ & (S & HS & HSn) & _ & _ & _ & _ & Hheads & Hpauses & Hdisp & _).
  pose proof Hconns as ((Hcs & Hpu) & Hticks & Hcc & _). pose proof (sound_tube _ Htubes) as Ht.
  constructor; cbn [g_jobs g_uses g_watches g_waits g_waitn g_sdisp g_sdelay g_stick g_orphans g_hot g_closing g_budget ghost_of].
  - exact Hreg.
  - intros i j Hj. apply Hjobs in Hj. apply Hj.
  - intros tid t Hs. apply Ht in Hs. by apply Hs.
  - done.
  - intros tid t. by apply (sound_ready_of e R).
  - intros tid t. by apply (sound_delayed_of e R).
  - intros tid t. by apply (sound_buried_of e S).
  - intros tid t Hs. pose proof (Ht _ _ Hs) as (_ & _ & _ & _ & _ & Hu & Hb & Hr & _). split_and!; [| |done].
    + rewrite Hu. by apply urgent_size, (sound_ready_of e R).
    + rewrite Hb. by apply buried_size, (sound_buried_of e S).
  - intros cid c. by apply (sound_reserved_of e Hconns R).
  - intros i j. by apply (sound_queued_ok e Hconns R S).
  - by apply (sound_counts e R).
  - intros cid c Hc%Hcs. split; [apply (kg_watch _ _ _ Hc)|apply (kg_wait _ _ _ Hc)].
  - split; [|exact Hpu]. intros cid pid. destruct (e_conns e !! cid) as [c|] eqn:Hc; [|done].
    apply (kg_pending _ _ _ (Hcs _ _ Hc)).
  - intros tid t Hs%Ht. split; [apply Hs|by apply deg_small].
  - intros tid t Hs%Ht. split; [apply Hs|by apply deg_small].
  - intros tid t. by apply sound_waiting_ok.
  - intros tid t Hs%Ht. split; [apply Hs|by apply deg_small].
  - intros cid tid (c & Hc & ->%list_elem_of_singleton)%elem_of_rel. apply (kg_use _ _ _ (Hcs _ _ Hc)).
  - intros cid tid (c & Hc & Hin)%elem_of_rel. by apply (kg_watch _ _ _ (Hcs _ _ Hc)).
  - assert (rel waits (e_conns e) ⊆ rel watches (e_conns e)); [|done]. intros [cid tid] (c & Hc & Hin)%elem_of_rel.
    apply elem_of_rel. exists c. split; [done|]. unfold waits in Hin. destruct (c_waiting c); [done|]. by apply elem_of_nil in Hin.
  - exact Hticks.
  - intros k tid. rewrite (Hheads k tid). destruct (slot _ tid) as [t|] eqn:Hs; [|done]. cbn.
    pose proof (Ht _ _ Hs) as (_ & _ & _ & _ & _ & _ & _ & _ & _ & _ & _ & _ & _ & Hd & _). by rewrite Hd.
  - exact Hpauses.
  - intros tid. rewrite (Hdisp tid). destruct (slot _ tid) as [t|] eqn:Hs; [|done]. cbn.
    pose proof (Ht _ _ Hs) as (_ & _ & _ & _ & _ & _ & _ & _ & _ & _ & _ & _ & _ & _ & Hd & _). by rewrite Hd.
  - intros cid c Hc%Hcs _. apply (kg_tick _ _ _ Hc).
  - intros tid t Hs%Ht _. apply Hs.
  - intros tid t Hs%Ht _. apply Hs.
  - intros tid t Hs%Ht _. apply Hs.
  - intros tid t Hs%Ht _. eapply good_referenced; [done|done|apply Hjobs|done|done].
  - intros cid c Hc%Hcs _. apply (kg_some _ _ _ Hc).
  - exact Hcc.
  - by eapply sound_bounds.
Qed.

(** ** States that satisfy the invariant are accepted *)
Section complete.
Context (b : Budget) (e : Engine).
Hypothesis HI : Inv b e.

Lemma complete_conn cid c : e_conns e !! cid = Some c → conn_good e cid c.
Proof using HI.
  intros Hc. destruct (co_reserved _ _ HI _ _ Hc) as [Hres Hdl]. cbn [g_jobs ghost_of] in Hres, Hdl. constructor.
  - apply (co_uses_live _ _ HI cid). apply elem_of_rel. exists c. split; [done|]. by left.
  - by apply (co_watching_some _ _ HI _ _ Hc).
  - split; [apply (co_conns _ _ HI _ _ Hc)|]. intros t Ht. apply (co_watches_live _ _ HI cid).
    apply elem_of_rel. by exists c.
  - apply (co_conns _ _ HI _ _ Hc).
  - intros pid Hp. apply (proj1 (co_pending _ _ HI) cid). by rewrite Hc.
  - intros s i (j & Hj & Hs & Hr & <-)%Hres. exists j. split_and!; try done.
    apply (co_queued _ _ HI _ _ Hj). by left.
  - intros d i. rewrite (Hdl d i). setoid_rewrite Hres. unfold queued. split.
    + intros (j & Hj & Hs & Hr & <-). rewrite Hj. split; [by exists (j_list_seq j), j|done].
    + intros [(s & j & Hj & Hs & Hr & _) Hd]. rewrite Hj in Hd. injection Hd as Hd. by exists j.
  - apply (co_tick_key _ _ HI _ _ Hc). apply not_elem_of_empty.
Qed.
Lemma complete_job i j : e_jobs e !! i = Some j → job_good e i j.
Proof using HI.
  intros Hj. split; [apply (co_jobs _ _ HI _ _ Hj)|]. split; [apply (co_queued _ _ HI _ _ Hj)|].
  intros t Ht. unfold in_queue. destruct (j_state j) eqn:Hs; try done.
  - apply (co_ready _ _ HI _ _ Ht). by exists j.
  - apply (co_delayed _ _ HI _ _ Ht). by exists j.
Qed.
Lemma complete_held : held_ids (e_conns e) (ids_with (in_state JobState.Reserved) (e_jobs e)).
Proof using HI.
  intros i. rewrite elem_of_ids_with. split.
  - intros (j & Hj & Hs). pose proof (co_queued _ _ HI _ _ Hj) as [Hr _]. rewrite Hs in Hr.
    apply bool_decide_eq_true in Hs. destruct Hr as (cid & Hr & [c Hc]). exists cid, c, (j_list_seq j). split; [done|].
    apply (proj1 (co_reserved _ _ HI _ _ Hc)). by exists j.
  - intros (cid & c & s & Hc & (j & Hj & Hs & _)%(proj1 (co_reserved _ _ HI _ _ Hc))). exists j. split; [done|].
    by apply bool_decide_eq_true.
Qed.
Lemma complete_buried : buried_ids (e_tubes e) (ids_with (in_state JobState.Buried) (e_jobs e)).
Proof using HI.
  intros i. rewrite elem_of_ids_with. split.
  - intros (j & Hj & Hs%bool_decide_eq_true). pose proof (co_jobs _ _ HI _ _ Hj) as (_ & _ & _ & [t Ht]).
    exists (j_tube j), t, (j_list_seq j). split; [done|]. apply (co_buried _ _ HI _ _ Ht). by exists j.
  - intros (tid & t & s & Ht & (j & Hj & Hs & _)%(co_buried _ _ HI _ _ Ht)). exists j. split; [done|].
    by apply bool_decide_eq_true.
Qed.
Lemma complete_waiters tid t : slot (e_tubes e) tid = Some t →
  N.of_nat (ms_len (t_waiting_conns t)) = deg (rel waits (e_conns e)) tid.
Proof using HI.
  intros Ht. destruct (co_waiting _ _ HI _ _ Ht) as [Hnd Hin]. unfold deg, ms_len. f_equal.
  rewrite <-(size_list_to_set (C := gset ConnId) (ms_items (t_waiting_conns t))) by done.
  apply (image_size (λ c, (c, tid))).
  - intros c Hc%elem_of_list_to_set. apply elem_of_filter. split; [done|]. by apply Hin.
  - by intros c c' _ _ [= ->].
  - intros [c tid'] [Heq Hc]%elem_of_filter. cbn in Heq. subst tid'. exists c. split; [|done].
    by apply elem_of_list_to_set, Hin.
Qed.
Lemma complete_tube tid t : slot (e_tubes e) tid = Some t → tube_good e tid t.
Proof using HI.
  intros Ht. pose proof (co_ready _ _ HI _ _ Ht) as Hr. pose proof (co_buried _ _ HI _ _ Ht) as Hb.
  pose proof (co_stats _ _ HI _ _ Ht) as (Hsu & Hsb & Hsr). pose proof (co_waiting _ _ HI _ _ Ht) as [Hnd Hw].
  cbn [g_jobs g_waits ghost_of] in *. unfold tube_good. split_and!; try done.
  - intros [p i] Hp. by apply ready_entry_true, Hr.
  - intros [d i] Hp. by apply delayed_entry_true, (co_delayed _ _ HI _ _ Ht).
  - intros s i (j & Hj & Hs & Hq)%Hb. split; [by exists j|]. destruct Hq as [_ <-].
    apply (co_queued _ _ HI _ _ Hj). by right.
  - split; [done|]. intros cid. apply Hw.
  - by apply complete_waiters.
  - rewrite Hsu. symmetry. by apply urgent_size.
  - rewrite Hsb. symmetry. by apply buried_size.
  - apply (co_waiting_ct _ _ HI _ _ Ht).
  - apply (co_using _ _ HI _ _ Ht).
  - apply (co_watching _ _ HI _ _ Ht).
  - apply (co_refs _ _ HI _ _ Ht).
  - destruct (co_referenced _ _ HI _ _ Ht) as [|Href]; [apply not_elem_of_empty|by left|right].
    pose proof (co_using _ _ HI _ _ Ht) as [Hu _]. pose proof (co_watching _ _ HI _ _ Ht) as [Hwt _].
    pose proof (co_refs _ _ HI _ _ Ht) as Hj. cbn [g_uses g_watches ghost_of] in *. unfold refs, job_refs_ok in *.
    rewrite <-Hu, <-Hwt, <-Hj. apply N.neq_0_lt_0. intros H0. by rewrite H0 in Href.
  - apply (co_delay_key _ _ HI _ _ Ht). apply not_elem_of_empty.
  - apply (co_disp_key _ _ HI _ _ Ht). apply not_elem_of_empty.
  - by apply (co_drained _ _ HI _ _ Ht).
Qed.
Lemma complete_tubes : tubes_good e.
Proof using HI.
  destruct (co_counts _ _ HI) as (H1 & H2 & H3 & H4 & _). cbn [g_jobs ghost_of] in *.
  assert (∀ i j, e_jobs e !! i = Some j → live (e_tubes e) (j_tube j)) as Hlive.
  { intros i j Hj. apply (co_jobs _ _ HI _ _ Hj). }
  split; [exact complete_tube|]. split_and!; try done.
  - apply slot_sum_count; [|done]. intros tid t Ht. by apply ready_size, (co_ready _ _ HI).
  - apply slot_sum_count; [|done]. intros tid t Ht. by apply delayed_size, (co_delayed _ _ HI).
  - eexists. split; [apply complete_buried|]. apply size_ids_with.
  - rewrite H2. symmetry. apply slot_sum_count; [|done]. intros tid t Ht.
    rewrite (urgent_size (e_jobs e) tid) by (by apply (co_ready _ _ HI)). apply count_ext. intros i j _. unfold urgent_in, urgent.
    by destruct (in_state _ j), (in_tube tid j), (is_urgent _).
  - intros k tid. rewrite (co_delays _ _ HI k tid). destruct (slot _ tid) as [t|] eqn:Hs; [|done]. cbn.
    by rewrite (co_delay_key _ _ HI _ _ Hs) by apply not_elem_of_empty.
  - apply (co_pauses _ _ HI).
  - intros tid. rewrite (co_disp _ _ HI tid). destruct (slot _ tid) as [t|] eqn:Hs; [|done]. cbn.
    by rewrite (co_disp_key _ _ HI _ _ Hs) by apply not_elem_of_empty.
Qed.
Lemma Inv_all_good :
  slab_limits e → (cur_conns (e_cc e) ≤ tot_conns (e_cc e))%N → all_good e.
Proof using HI.
  intros Hlim Htot. split; [split; [done|apply (co_reg _ _ HI)]|]. split; [|split; [|apply complete_tubes]].
  - split; [split; [exact complete_conn|exact (proj2 (co_pending _ _ HI))]|]. split; [apply (co_ticks _ _ HI)|].
    split; [apply (co_cc _ _ HI)|done].
  - exists (ids_with (in_state JobState.Reserved) (e_jobs e)). split; [apply complete_held|].
    split; [exact complete_job|]. split; [apply size_ids_with|]. split; [apply (co_counts _ _ HI)|done].
Qed.
End complete.

(** ** The equivalence *)
Lemma validate_sound e : (cur_conns (e_cc e) < 2 ^ 32)%N → validate e = Some () → Inv (valid_budget e) e.
Proof. intros Hlt Hv. apply all_good_Inv; [done|]. by apply validate_good. Qed.
Lemma validate_complete b e :
  Inv b e → slab_limits e → (cur_conns (e_cc e) ≤ tot_conns (e_cc e))%N → validate e = Some ().
Proof. intros HI Hlim Htot. apply validate_good. by eapply Inv_all_good. Qed.
Lemma validate_limits e : validate e = Some () → slab_limits e ∧ (cur_conns (e_cc e) ≤ tot_conns (e_cc e))%N.
Proof. intros ((? & _) & (_ & _ & _ & ?) & _)%validate_good. done. Qed.
