(* ===== verification/Reach.v ===== *)
(** * Runs

    The engine under any sequence of inputs the server may send: the
    invariant holds of [Engine_new] and every input preserves it. *)

From S2P Require Import Prelude Ms Proto Stats Model Engine Inv InvFrame InvRefresh Queues Moves Tubes Waiting.
From S2P Require Import Rest Dispatch ConnOps Commands Sessions Connect Tick.
From stdpp Require Import options.

(** ** The initial state *)
Definition initial_budget : Budget := mkBudget 1 0 0 1.
Lemma slot_singleton (x : TubeState) tid t : slot [Some x] tid = Some t ↔ tid = 0 ∧ t = x.
Proof. unfold slot. destruct tid as [|[|]]; simpl; naive_solver. Qed.
Lemma Engine_new_eq now cfg sys :
  Engine_new now cfg sys =
    (Engine_empty now cfg sys) <| e_tubes := [Some (TubeState_new default_tube 0)] |>
      <| e_tube_ids := {[ default_tube := DEFAULT_TUBE ]} |>
      <| e_tube_order := ms_append DEFAULT_TUBE ms_new |>.
Proof. reflexivity. Qed.

Lemma Inv_Engine_new now cfg sys : Inv initial_budget (Engine_new now cfg sys).
Proof.
  rewrite Engine_new_eq. set (t0 := TubeState_new default_tube 0).
  assert (∀ P, P DEFAULT_TUBE t0 → each_tube P [Some t0]) as Hone.
  { intros P HP tid t [-> ->]%slot_singleton. done. }
  constructor; eng; try (apply Hone); try (by apply map_Forall_empty); try done.
  - split_and!; [done|done| | | |apply NoDup_nil_2].
    + intros n i. rewrite lookup_singleton_Some. unfold slot. destruct i as [|[|i']]; simpl; naive_solver.
    + intros p i. unfold slot. destruct p as [|p'], i as [|[|i']]; simpl; naive_solver.
    + intros i. rewrite elem_of_nil. destruct i as [|[|i']]; simpl; naive_solver.
  - intros p i. split; [set_solver|]. by intros (j & Hj & _).
  - intros p i. split; [set_solver|]. by intros (j & Hj & _).
  - intros p i. split; [done|]. by intros (j & Hj & _).
  - split; [apply NoDup_nil_2|]. intros cid. split; [by intros []%elem_of_nil|].
    intros (c & Hc & _)%elem_of_rel. done.
  - intros k tid. unfold slot. destruct tid as [|[|]]; set_solver.
  - intros k tid. unfold slot. destruct tid as [|[|]]; set_solver.
  - intros tid. unfold slot. destruct tid as [|[|]]; set_solver.
  - by left.
Qed.

(** ** Inputs the server sends *)
(** The contract of the callers: times fit u64, connection ids are fresh,
    fewer than 2^32 connections are open, and a connection that waits for a
    job sends no command until it is answered. *)
Definition legal (now : Nanos) (i : EngineInput) (e : Engine) : bool :=
  (now <=? u64_max)%N &&
  match i with
  | EngineInput.Connect c =>
      bool_decide (e_conns e !! c = None) && (N.of_nat (size (e_conns e)) + 1 <? 2 ^ 32)%N
  | EngineInput.Command c cmd => negb (conn_waiting e c) && typed cmd
  | _ => true
  end.
Fixpoint legal_run (inputs : list (Nanos * EngineInput)) (s : St) : bool :=
  match inputs with
  | [] => true
  | (now, i) :: inputs => legal now i s.1 && legal_run inputs (apply_input now i s)
  end.

(** ** One input *)
Lemma Rest_reply b h cid r e out : Rest b h e → Rest b h (reply cid r (e, out)).1.
Proof. by rewrite reply_fst. Qed.
Lemma Rest_reply_with b h cid f e out : Rest b h e → Rest b h (reply_with cid f (e, out)).1.
Proof. by rewrite reply_with_fst. Qed.
#[export] Hint Resolve Rest_reply Rest_reply_with : core.

Lemma grow_ids b : budget_le (more_ids b) (grow b).
Proof. unfold budget_le. simpl. lia. Qed.
Lemma grow_tubes b : budget_le (more_tubes b) (grow b).
Proof. unfold budget_le. simpl. lia. Qed.
Lemma budget_ok_ids b : budget_ok (grow b) → budget_ok (more_ids b).
Proof. unfold budget_ok. simpl. lia. Qed.
Lemma Inv_budget b b' e : Inv b e → budget_le b b' → budget_ok b' → Inv b' e.
Proof. intros HI. by apply Rest_budget. Qed.

Ltac weaken H Hb := apply Inv_Rest; first [exact (Rest_budget _ _ _ _ H (grow_ids _) Hb)
  |exact (Rest_budget _ _ _ _ H (grow_tubes _) Hb)|exact (Rest_budget _ _ _ _ H (budget_le_grow _) Hb)|exact H].
(** A command that only reads bumps its counter at most. *)
Ltac reading Hb :=
  apply Inv_Rest; refine (Rest_budget _ _ _ _ _ (budget_le_grow _) Hb);
  cbv [cmd_peek cmd_peek_ready cmd_peek_delayed cmd_peek_buried cmd_stats_job cmd_stats_tube cmd_stats
    cmd_list_tubes cmd_list_tube_used cmd_list_tubes_watched]; repeat case_match; auto with core.
Lemma Inv_handle b now cid cmd e out :
  Inv b e → budget_ok (grow b) → conn_waiting e cid = false → typed cmd = true →
  Inv (grow b) (handle now cid cmd (e, out)).1.
Proof.
  intros HI Hb Hw Ht. unfold handle. cbn [fst snd].
  destruct (e_conns e !! cid) as [c|] eqn:Hc; [|weaken HI Hb].
  assert (is_Some (e_conns e !! cid)) as His by eauto. pose proof (budget_ok_ids _ Hb) as Hbi.
  destruct cmd; cbn [typed] in Ht.
  - weaken (Inv_cmd_put _ now cid pri delay ttr body _ out HI Hbi) Hb.
  - weaken (Inv_cmd_use _ cid tube _ out HI His) Hb.
  - weaken (Inv_cmd_reserve _ now cid None _ out HI Hb His Hw) Hb.
  - weaken (Inv_cmd_reserve _ now cid (Some timeout) _ out HI Hb His Hw) Hb.
  - weaken (Inv_cmd_reserve_job _ now cid id _ out HI Hb His) Hb.
  - weaken (Inv_cmd_delete _ cid id _ out HI) Hb.
  - weaken (Inv_cmd_release _ now cid id pri delay _ out HI) Hb.
  - weaken (Inv_cmd_bury _ cid id pri _ out HI Hb) Hb.
  - weaken (Inv_cmd_touch _ now cid id _ out HI) Hb.
  - weaken (Inv_cmd_watch _ cid tube _ out HI His Hw) Hb.
  - weaken (Inv_cmd_ignore _ cid tube _ out HI Hw) Hb.
  - reading Hb.
  - reading Hb.
  - reading Hb.
  - reading Hb.
  - weaken (Inv_cmd_kick _ now cid n _ out HI) Hb.
  - weaken (Inv_cmd_kick_job _ now cid id _ out HI) Hb.
  - reading Hb.
  - reading Hb.
  - reading Hb.
  - reading Hb.
  - reading Hb.
  - reading Hb.
  - weaken HI Hb.
  - apply N.leb_le in Ht. weaken (Inv_cmd_pause_tube _ now cid tube delay _ out Ht HI) Hb.
  - reading Hb.
Qed.

(** The connection budget is what is open now. *)
Definition with_conns (n : N) (b : Budget) : Budget := mkBudget (b_ids b) (b_seq b) n (b_tubes b).
Lemma Inv_conns b n e :
  Inv b e → (N.of_nat (size (e_conns e)) ≤ n)%N → (n < 2 ^ 32)%N → Inv (with_conns n b) e.
Proof.
  intros HC Hle Hn. assert (Core ((ghost_of b e) <| g_budget := with_conns n b |>) e) as H; [|exact H].
  core HC. destruct co_bounds as ((? & ? & ?) & [? ?] & ? & ? & ?). simpl in *.
  unfold bounds_ok, budget_ok. simpl. split_and!; lia.
Qed.

Lemma Inv_run_input b now i e out :
  Inv b e → budget_ok (grow b) → legal now i e = true →
  ∃ n, Inv (with_conns n (grow b)) (run_input now i (e, out)).1.
Proof.
  intros HI Hb [Hnow Hl]%andb_true_iff.
  assert (∀ e', Inv (grow b) e' → ∃ n, Inv (with_conns n (grow b)) e') as Hdone.
  { intros e' HI'. exists (b_conns (grow b)). exact HI'. }
  destruct i as [c|c|c|c too_big|c why|c cmd| |on]; cbn [run_input fst snd].
  - apply andb_true_iff in Hl as [Hno%bool_decide_eq_true Hlt%N.ltb_lt].
    exists (N.of_nat (size (e_conns e)) + 1)%N.
    set (n := N.of_nat (size (e_conns e))) in *.
    pose proof (Inv_conns _ n _ HI ltac:(lia) ltac:(lia)) as HI1.
    apply (Inv_budget (more_conns (with_conns n b))).
    + apply Inv_connect; [done|done|]. unfold budget_ok in *. simpl in *. lia.
    + unfold budget_le. simpl. lia.
    + unfold budget_ok in *. simpl in *. lia.
  - apply Hdone. weaken (Inv_disconnect _ _ out now c HI) Hb.
  - apply Hdone. weaken (Inv_half_close _ _ out c HI) Hb.
  - apply Hdone. weaken (Inv_put_started _ now _ c too_big HI (budget_ok_ids _ Hb)) Hb.
  - apply Hdone. weaken (Inv_put_rejected _ _ out c why HI (budget_ok_ids _ Hb)) Hb.
  - apply andb_true_iff in Hl as [Hw%negb_true_iff Ht]. apply Hdone. by apply Inv_handle.
  - apply Hdone. weaken HI Hb.
  - apply Hdone. assert (Inv b (set_draining on e)) as HI1.
    { apply Inv_Rest, (Rest_frame _ _ e); [exact HI| |done|done]. intros g HC. by apply Core_draining. }
    weaken HI1 Hb.
Qed.

(** ** Runs *)
(** The invariant [n] inputs after a start: the counters of the start are
    those [validate] lets in, a key being spoken for by each waiting
    connection. *)
Definition wf_after (n : N) (e : Engine) : Prop :=
  ∃ b, Inv b e ∧ (b_ids b ≤ 2 ^ 62 + 1 + n)%N ∧ (b_seq b ≤ 2 ^ 62 + 2 ^ 32 + n)%N.
Definition wf (e : Engine) : Prop := ∃ b, Inv b e.
(** How many inputs a run may have. *)
Definition run_limit : N := 2 ^ 61.

Lemma wf_after_grow n b e :
  Inv b e → (b_ids b ≤ 2 ^ 62 + 1 + n)%N → (b_seq b ≤ 2 ^ 62 + 2 ^ 32 + n)%N → (n ≤ run_limit)%N →
  budget_ok (grow b).
Proof.
  intros HI Hids Hseq Hn. pose proof (co_bounds _ _ HI) as [Hb _].
  unfold budget_ok, counter_limit, run_limit in *. simpl in *. lia.
Qed.
Lemma wf_after_le n n' e : (n ≤ n')%N → wf_after n e → wf_after n' e.
Proof. intros Hn (b & HI & Hi & Hs). exists b. split_and!; [done|lia|lia]. Qed.
Lemma wf_after_step n now i e out :
  wf_after n e → (n ≤ run_limit)%N → legal now i e = true → wf_after (n + 1) (apply_input now i (e, out)).1.
Proof.
  intros (b & HI & Hids & Hseq) Hn Hl. unfold apply_input.
  pose proof (wf_after_grow _ _ _ HI Hids Hseq Hn) as Hb.
  destruct (Inv_run_input _ _ _ _ out HI Hb Hl) as [k HI1]. apply andb_true_iff in Hl as [Hnow%N.leb_le _].
  destruct (run_input now i (e, out)) as [e1 out1]. cbn [fst] in HI1.
  destruct (Rest_tick _ now e1 out1 Hnow HI1) as (HI2 & _).
  exists (with_conns k (grow b)). split; [exact HI2|]. simpl. lia.
Qed.

Lemma wf_after_run inputs n e out :
  wf_after n e → (n + N.of_nat (length inputs) ≤ run_limit)%N → legal_run inputs (e, out) = true →
  wf_after (n + N.of_nat (length inputs)) (run inputs (e, out)).1.
Proof.
  revert n e out. induction inputs as [|[now i] inputs IH]; intros n e out Hwf Hlen Hl.
  - by rewrite N.add_0_r.
  - cbn [legal_run fst length] in *. apply andb_true_iff in Hl as [Hl1 Hl2].
    pose proof (wf_after_step _ _ _ _ out Hwf ltac:(lia) Hl1) as Hwf1. unfold run. cbn [foldl fst snd].
    destruct (apply_input now i (e, out)) as [e1 out1]. cbn [fst] in Hwf1.
    replace (n + N.of_nat (S (length inputs)))%N with (n + 1 + N.of_nat (length inputs))%N by lia.
    apply IH; [done|lia|done].
Qed.
Lemma wf_initial now cfg sys : wf_after 0 (Engine_new now cfg sys).
Proof. exists initial_budget. split; [apply Inv_Engine_new|]. done. Qed.
