(* ===== verification/Recover.v ===== *)
(** * Recovery: [Engine::recover] of [crates/engine/src/engine.rs]

    The engine a restart builds from what the store replays: the tubes in
    their old order, then every job in the order of its first record, put on
    the queue its record names.  The next id is set last, so the loop is
    shown to commute with it and runs on an engine that has it from the
    start; there is no connection, so nothing is dispatched. *)

From S2P Require Import Prelude Ms Proto Stats Model Engine Frames Inv InvFrame InvRefresh Queues Moves Tubes.
From S2P Require Import Waiting.
From S2P Require Import Rest ConnOps Reach.
From stdpp Require Import options.

Definition recover_tubes (live_tubes : list TubeName) (order : list TubeName) (e : Engine) : Engine :=
  foldl (λ e name, if bool_decide (name ∈ live_tubes) then (find_or_make_tube name e).2 else e) e order.
Definition recovered_job (tube : TubeId) (rj : RecoveredJob) : JobRec :=
  let r := rj_record rj in
  mkJobRec (r_id r) tube (r_pri r) (r_delay r) (N.max (r_ttr r) 1) (rj_body rj) (r_created_at r) 0
    JobState.Ready None 0 (r_reserve_ct r) (r_timeout_ct r) (r_release_ct r) (r_bury_ct r) (r_kick_ct r) 0.
(** The queue of a replayed job. *)
Definition enter_queue (now : Nanos) (tube : TubeId) (r : JobRecord) (e : Engine) : Engine :=
  match r_state r with
  | RecordState.Buried => insert_buried tube (r_id r) e
  | RecordState.Delayed =>
      if (now <? r_deadline_at r)%N then insert_delayed tube (r_id r) (r_deadline_at r) e
      else insert_ready tube (r_id r) e
  | RecordState.Ready => insert_ready tube (r_id r) e
  end.
Definition recover_job (now : Nanos) (s : JobId * Engine) (rj : RecoveredJob) : JobId * Engine :=
  let '(max_id, e) := s in
  let r := rj_record rj in
  if bool_decide (is_Some (e_jobs e !! r_id r)) then (max_id, e)
  else
    let max_id := N.max max_id (r_id r) in
    let '(tube, e) := find_or_make_tube (rj_tube rj) e in
    let e := e <| e_jobs ::= <[r_id r := recovered_job tube rj]> |> in
    let e := upd_tube tube (λ t, t <| t_job_ref_ct ::= incr64 |>) e in
    (max_id, enter_queue now tube r e).
Definition recover (now : Nanos) (cfg : EngineConfig) (sys : SysSnapshot) (recovery : Recovery) : Engine :=
  let e := Engine_new now cfg sys in
  let e := recover_tubes (rj_tube <$> rec_jobs recovery) (rec_tube_order recovery) e in
  let '(max_id, e) := foldl (recover_job now) (0%N, e) (rec_jobs recovery) in
  e <| e_next_job_id := N.max (N.max (rec_next_id recovery) (incr64 max_id)) 1 |>.

(** ** The next id is not looked at *)
Definition with_next (n : N) (e : Engine) : Engine := e <| e_next_job_id := n |>.
Section commute.
Context (n : N).
Lemma next_find_or_make name e :
  find_or_make_tube name (with_next n e) = ((find_or_make_tube name e).1, with_next n (find_or_make_tube name e).2).
Proof.
  unfold find_or_make_tube, with_next. eng. destruct (e_tube_ids e !! name); [done|].
  by destruct (pop (e_free_tube_ids e)) as [[]|].
Qed.
Lemma next_refresh_disp tid e : refresh_dispatchable tid (with_next n e) = with_next n (refresh_dispatchable tid e).
Proof. unfold refresh_dispatchable, with_next, tube. eng. by repeat case_match. Qed.
Lemma next_refresh_delay tid e : refresh_delay_head tid (with_next n e) = with_next n (refresh_delay_head tid e).
Proof. unfold refresh_delay_head, with_next, tube. eng. by repeat case_match. Qed.
Lemma next_insert_ready tid id e : insert_ready tid id (with_next n e) = with_next n (insert_ready tid id e).
Proof.
  unfold insert_ready. change (e_jobs (with_next n e)) with (e_jobs e). destruct (e_jobs e !! id) as [j|]; [|done].
  rewrite <-next_refresh_disp. f_equal. by destruct (is_urgent (j_pri j)).
Qed.
Lemma next_insert_delayed tid id d e : insert_delayed tid id d (with_next n e) = with_next n (insert_delayed tid id d e).
Proof.
  unfold insert_delayed. rewrite <-next_refresh_delay. f_equal. unfold tube, with_next. eng.
  destruct (slot (e_tubes e) tid) as [t|]; [|done]. by case_match.
Qed.
Lemma next_enter_queue now tid r e : enter_queue now tid r (with_next n e) = with_next n (enter_queue now tid r e).
Proof.
  unfold enter_queue. destruct (r_state r); [apply next_insert_ready| |done].
  destruct (now <? r_deadline_at r)%N; [apply next_insert_delayed|apply next_insert_ready].
Qed.
Lemma next_recover_job now m e rj :
  recover_job now (m, with_next n e) rj = ((recover_job now (m, e) rj).1, with_next n (recover_job now (m, e) rj).2).
Proof.
  unfold recover_job. change (e_jobs (with_next n e)) with (e_jobs e). case_bool_decide; [done|].
  rewrite next_find_or_make. destruct (find_or_make_tube (rj_tube rj) e) as [tid e1]. cbn [fst snd].
  by rewrite <-next_enter_queue.
Qed.
Lemma next_recover_jobs now m e l :
  foldl (recover_job now) (m, with_next n e) l =
    ((foldl (recover_job now) (m, e) l).1, with_next n (foldl (recover_job now) (m, e) l).2).
Proof.
  revert m e. induction l as [|rj l IH]; intros m e; [done|]. cbn [foldl]. rewrite next_recover_job.
  destruct (recover_job now (m, e) rj) as [m' e']. apply IH.
Qed.
Lemma next_recover_tubes live order e : recover_tubes live order (with_next n e) = with_next n (recover_tubes live order e).
Proof.
  unfold recover_tubes. revert e. induction order as [|name order IH]; intros e; [done|]. cbn [foldl].
  case_bool_decide; [rewrite next_find_or_make|]; apply IH.
Qed.
End commute.

(** ** The loop keeps the invariant *)
Definition rec_ghost (J : Jobs) (O : gset TubeId) (b : Budget) : Ghost := mkGhost J ∅ ∅ ∅ ∅ ∅ ∅ ∅ O true None b.
Definition recovering (n : N) (e : Engine) : Prop :=
  e_conns e = ∅ ∧ ∃ O bt, Core (rec_ghost (e_jobs e) O (mkBudget n (2 ^ 62) 0 bt)) e.

(** The record of a job after [enter_queue], [seq] being the next list key. *)
Definition entered (now : Nanos) (seq : N) (r : JobRecord) (j : JobRec) : JobRec :=
  match r_state r with
  | RecordState.Buried => buried_as seq j
  | RecordState.Delayed => if (now <? r_deadline_at r)%N then delayed_until (r_deadline_at r) j else readied j
  | RecordState.Ready => readied j
  end.
Lemma Core_enter_queue g e now r j :
  Core g e → g_hot g = true → g_jobs g !! r_id r = None → e_jobs e !! r_id r = Some j →
  (seq_used (e_next_list_seq e) (e_conns e) < b_seq (g_budget g))%N →
  Core (g <| g_jobs ::= <[r_id r := entered now (e_next_list_seq e) r j]> |>) (enter_queue now (j_tube j) r e).
Proof.
  intros HC Hhot Hid Hj Hroom. unfold enter_queue, entered.
  assert (Core (g <| g_jobs ::= <[r_id r := readied j]> |>) (insert_ready (j_tube j) (r_id r) e)) as Hready.
  { eapply Core_eq; [exact (Core_insert_ready _ _ HC _ _ Hid Hj)|]. destruct g. cbn in Hhot. by subst. }
  destruct (r_state r); [done| |exact (Core_insert_buried _ _ HC _ _ Hid Hj Hroom)].
  destruct (now <? r_deadline_at r)%N; [|done]. exact (Core_insert_delayed _ _ HC _ _ Hid Hj _).
Qed.
Lemma jobs_enter_queue e now tid r j :
  e_jobs e !! r_id r = Some j →
  e_jobs (enter_queue now tid r e) = <[r_id r := entered now (e_next_list_seq e) r j]> (e_jobs e).
Proof.
  intros Hj. unfold enter_queue, entered.
  assert (e_jobs (insert_ready tid (r_id r) e) = <[r_id r := readied j]> (e_jobs e)) as Hready.
  { unfold insert_ready. rewrite Hj, jobs_refresh_disp. destruct (is_urgent (j_pri j)); eng; by apply alter_is_insert. }
  destruct (r_state r); [done| |unfold insert_buried; eng; by apply alter_is_insert].
  destruct (now <? r_deadline_at r)%N; [|done]. unfold insert_delayed. rewrite jobs_refresh_delay.
  destruct (tube _ tid); [case_match|]; eng; by apply alter_is_insert.
Qed.
Lemma conns_enter_queue e now tid r : e_conns (enter_queue now tid r e) = e_conns e.
Proof.
  unfold enter_queue. assert (e_conns (insert_ready tid (r_id r) e) = e_conns e) as Hready.
  { unfold insert_ready. destruct (e_jobs e !! r_id r); [|done]. rewrite conns_refresh_disp. by case_match. }
  destruct (r_state r); [done| |done]. destruct (now <? r_deadline_at r)%N; [|done].
  unfold insert_delayed. rewrite conns_refresh_delay. destruct (tube _ tid); [by case_match|done].
Qed.
Lemma find_or_make_names name e :
  e_tube_ids (find_or_make_tube name e).2 = <[name := (find_or_make_tube name e).1]> (e_tube_ids e).
Proof.
  unfold find_or_make_tube. destruct (e_tube_ids e !! name) as [id|] eqn:En; cbn [fst snd].
  - by rewrite insert_id.
  - by destruct (pop (e_free_tube_ids e)) as [[]|].
Qed.
Lemma find_or_make_found name e id : e_tube_ids e !! name = Some id → (find_or_make_tube name e).1 = id.
Proof. intros Hid. unfold find_or_make_tube. by rewrite Hid. Qed.
Lemma find_or_make_jobs name e : e_jobs (find_or_make_tube name e).2 = e_jobs e.
Proof. unfold find_or_make_tube. destruct (e_tube_ids e !! name); [done|]. by destruct (pop _) as [[]|]. Qed.
Lemma find_or_make_conns name e : e_conns (find_or_make_tube name e).2 = e_conns e.
Proof. unfold find_or_make_tube. destruct (e_tube_ids e !! name); [done|]. by destruct (pop _) as [[]|]. Qed.
Lemma find_or_make_seq name e : e_next_list_seq (find_or_make_tube name e).2 = e_next_list_seq e.
Proof. unfold find_or_make_tube. destruct (e_tube_ids e !! name); [done|]. by destruct (pop _) as [[]|]. Qed.
Lemma recovering_tube n name e : recovering n e → recovering n (find_or_make_tube name e).2.
Proof.
  intros (Hc & O & bt & HC). split; [by rewrite find_or_make_conns|].
  destruct (find_or_make_tube name e) as [tid e'] eqn:Ef. destruct (Core_find_or_make _ _ _ _ _ HC Ef) as (HC' & _ & Hj & _).
  exists ({[ tid ]} ∪ O), (bt + 1)%N. cbn [snd]. rewrite Hj. exact HC'.
Qed.

Section entering.
Context {A} (π : Engine → A) `{!Untouched π}.
Lemma un_enter_queue now tid r e : π (enter_queue now tid r e) = π e.
Proof using All.
  unfold enter_queue. destruct (r_state r); [by apply un_insert_ready| |by apply un_insert_buried].
  destruct (now <? r_deadline_at r)%N; [by apply un_insert_delayed|by apply un_insert_ready].
Qed.
End entering.
Lemma seq_enter_queue now tid r e : (e_next_list_seq (enter_queue now tid r e) ≤ e_next_list_seq e + 1)%N.
Proof.
  assert (e_next_list_seq (insert_ready tid (r_id r) e) = e_next_list_seq e) as Hready.
  { unfold insert_ready, refresh_dispatchable. by repeat case_match. }
  unfold enter_queue. destruct (r_state r).
  - rewrite Hready. lia.
  - destruct (now <? r_deadline_at r)%N; [|rewrite Hready; lia].
    assert (e_next_list_seq (insert_delayed tid (r_id r) (r_deadline_at r) e) = e_next_list_seq e) as ->; [|lia].
    unfold insert_delayed, refresh_delay_head. by repeat case_match.
  - unfold insert_buried. eng. unfold incr64, wrap64. apply N.Div0.mod_le.
Qed.

(** After the jobs [done]; [rem] names the tubes of the jobs to come. *)
Record rec_state (now : Nanos) (n : N) (done : list RecoveredJob) (rem : list TubeName) (e : Engine) : Prop := {
  rs_core : recovering n e;
  rs_next : e_next_job_id e = n;
  rs_seq : (e_next_list_seq e ≤ N.of_nat (length done))%N;
  rs_jobs : ∀ i, is_Some (e_jobs e !! i) ↔ i ∈ (r_id ∘ rj_record) <$> done;
  rs_rec : ∀ rj, rj ∈ done → ∃ tid seq, e_tube_ids e !! rj_tube rj = Some tid ∧
    e_jobs e !! r_id (rj_record rj) = Some (entered now seq (rj_record rj) (recovered_job tid rj));
  rs_named : ∀ name tid, e_tube_ids e !! name = Some tid →
    tid = DEFAULT_TUBE ∨ (∃ i j, e_jobs e !! i = Some j ∧ j_tube j = tid) ∨ name ∈ rem;
}.
Lemma entered_tube now seq r j : j_tube (entered now seq r j) = j_tube j.
Proof. unfold entered. by repeat case_match. Qed.

Lemma recovering_job n now tid rj e :
  let r := rj_record rj in
  recovering n e → e_jobs e !! r_id r = None → (r_id r < e_next_job_id e)%N → live (e_tubes e) tid →
  (e_next_list_seq e < 2 ^ 62)%N →
  recovering n (enter_queue now tid r (upd_tube tid (λ t, t <| t_job_ref_ct ::= incr64 |>)
    (e <| e_jobs ::= <[r_id r := recovered_job tid rj]> |>))).
Proof.
  intros r (Hc & O & bt & HC) Hno Hlt Hlive Hseq. set (j := recovered_job tid rj).
  assert (Core (rec_ghost (e_jobs e) O (mkBudget n (2 ^ 62) 0 bt))
    (upd_tube tid (λ t, t <| t_job_ref_ct ::= incr64 |>) (e <| e_jobs ::= <[r_id r := j]> |>))) as HC1.
  { apply (Core_add_job _ _ (r_id r) j); try done; [by rewrite Hc|]. cbn. lia. }
  set (e1 := upd_tube tid _ _) in *. assert (e_jobs e1 = <[r_id r := j]> (e_jobs e)) as Hj1 by done.
  assert (e_jobs e1 !! r_id r = Some j) as Hj by (rewrite Hj1; apply lookup_insert_eq).
  split; [rewrite conns_enter_queue; exact Hc|]. exists O, bt. rewrite (jobs_enter_queue _ _ _ _ _ Hj), Hj1, insert_insert_eq.
  refine (Core_enter_queue _ _ now r j HC1 eq_refl Hno Hj _). unfold seq_used. change (e_conns e1) with (e_conns e).
  rewrite Hc, count_empty. change (e_next_list_seq e1) with (e_next_list_seq e). cbn. lia.
Qed.
Lemma rec_state_job now n m done rem rj e :
  let r := rj_record rj in
  rec_state now n done (rj_tube rj :: rem) e → r_id r ∉ (r_id ∘ rj_record) <$> done → (r_id r < n)%N →
  (N.of_nat (length done) < 2 ^ 62)%N → rec_state now n (done ++ [rj]) rem (recover_job now (m, e) rj).2.
Proof.
  intros r Hs Hnew Hlt Hlen. destruct Hs as [Hcore Hnext Hseq Hjobs Hrec Hnamed]. unfold recover_job.
  assert (e_jobs e !! r_id r = None) as Hno by (apply eq_None_not_Some; by rewrite Hjobs).
  fold r. rewrite bool_decide_eq_false_2 by (rewrite Hno; by intros []).
  pose proof (recovering_tube n (rj_tube rj) e Hcore) as Hcore1.
  pose proof (find_or_make_names (rj_tube rj) e) as Hids1. pose proof (find_or_make_jobs (rj_tube rj) e) as Hj1.
  pose proof (find_or_make_seq (rj_tube rj) e) as Hs1. pose proof (find_or_make_found (rj_tube rj) e) as Hfound.
  assert (e_next_job_id (find_or_make_tube (rj_tube rj) e).2 = n) as Hn1.
  { rewrite <-Hnext. unfold find_or_make_tube. destruct (e_tube_ids e !! _); [done|]. by destruct (pop _) as [[]|]. }
  destruct (find_or_make_tube (rj_tube rj) e) as [tid e1]. cbn [fst snd] in *.
  assert (live (e_tubes e1) tid) as Hlive.
  { destruct Hcore1 as (_ & O & bt & HC). pose proof (co_reg _ _ HC) as (_ & Hn & _).
    assert (t_name <$> slot (e_tubes e1) tid = Some (rj_tube rj)) as (t & Ht & _)%fmap_Some; [|by exists t].
    apply Hn. rewrite Hids1. apply lookup_insert_eq. }
  set (e2 := upd_tube tid _ _). set (j := recovered_job tid rj). set (e3 := enter_queue now tid r e2).
  assert (e_tube_ids e3 = <[rj_tube rj := tid]> (e_tube_ids e)) as Hids3.
  { unfold e3. rewrite (un_enter_queue e_tube_ids). exact Hids1. }
  assert (e_jobs e3 = <[r_id r := entered now (e_next_list_seq e) r j]> (e_jobs e)) as Hj3.
  { unfold e3. rewrite (jobs_enter_queue _ _ _ _ j) by apply lookup_insert_eq.
    change (e_next_list_seq e2) with (e_next_list_seq e1). rewrite Hs1. change (e_jobs e2) with (<[r_id r := j]> (e_jobs e1)).
    by rewrite insert_insert_eq, Hj1. }
  constructor.
  - apply recovering_job; [done|by rewrite Hj1|fold r; lia|done|lia].
  - unfold e3. rewrite (un_enter_queue e_next_job_id). exact Hn1.
  - rewrite length_app. cbn. pose proof (seq_enter_queue now tid r e2) as Hle. fold e3 in Hle.
    change (e_next_list_seq e2) with (e_next_list_seq e1) in Hle. lia.
  - intros i. rewrite Hj3, lookup_insert_is_Some, Hjobs, fmap_app, elem_of_app. cbn.
    rewrite list_elem_of_singleton. destruct (decide (i = r_id r)); naive_solver.
  - intros rj' [Hin|Heq%list_elem_of_singleton]%elem_of_app; rewrite Hids3, Hj3.
    + destruct (Hrec _ Hin) as (tid' & seq & Hid & Hj'). exists tid', seq.
      assert (r_id (rj_record rj') ≠ r_id r) as Hne.
      { intros Heq. apply Hnew. apply list_elem_of_fmap. by exists rj'. }
      rewrite (lookup_insert_ne (e_jobs e)) by done. split; [|done].
      destruct (decide (rj_tube rj' = rj_tube rj)) as [Heq|]; [|by rewrite lookup_insert_ne].
      rewrite Heq, lookup_insert_eq. rewrite Heq in Hid. by rewrite (Hfound _ Hid).
    + subst rj'. exists tid, (e_next_list_seq e). by rewrite !lookup_insert_eq.
  - intros name tid'. rewrite Hids3, Hj3. intros [[<- <-]|[Hne Hid]]%lookup_insert_Some.
    + right. left. exists (r_id r), (entered now (e_next_list_seq e) r j). by rewrite lookup_insert_eq, entered_tube.
    + destruct (Hnamed _ _ Hid) as [|[(i & j' & Hj' & Ht)|[->|]%elem_of_cons]]; [by left| |done|by right; right].
      right. left. exists i, j'. rewrite lookup_insert_ne by congruence. done.
Qed.

Lemma rec_state_jobs now n m done l e :
  rec_state now n done (rj_tube <$> l) e → NoDup ((r_id ∘ rj_record) <$> done ++ l) →
  (∀ rj, rj ∈ l → (r_id (rj_record rj) < n)%N) → (N.of_nat (length (done ++ l)) ≤ 2 ^ 62)%N →
  rec_state now n (done ++ l) [] (foldl (recover_job now) (m, e) l).2.
Proof.
  revert m done e. induction l as [|rj l IH]; intros m done e Hs Hnd Hlt Hlen.
  { rewrite app_nil_r. exact Hs. }
  rewrite cons_middle, (assoc_L (++)) in Hnd, Hlen |- *. cbn [foldl].
  destruct (recover_job now (m, e) rj) as [m' e'] eqn:Er. apply IH; [|done|set_solver|done].
  replace e' with (recover_job now (m, e) rj).2 by (by rewrite Er). apply rec_state_job; [done| |apply Hlt; by left|].
  - rewrite <-(assoc_L (++)), fmap_app, NoDup_app in Hnd. destruct Hnd as (_ & Hni & _).
    intros Hin. apply (Hni _ Hin). by left.
  - rewrite !length_app in Hlen. cbn in Hlen. lia.
Qed.
Lemma rec_state_tubes now n rem order e :
  rec_state now n [] rem e → rec_state now n [] rem (recover_tubes rem order e).
Proof.
  unfold recover_tubes. revert e. induction order as [|name order IH]; intros e Hs; [done|]. cbn [foldl].
  apply IH. case_bool_decide as Hin; [|done]. destruct Hs as [Hcore Hnext Hseq Hjobs Hrec Hnamed]. constructor.
  - by apply recovering_tube.
  - rewrite <-Hnext. unfold find_or_make_tube. destruct (e_tube_ids e !! _); [done|]. by destruct (pop _) as [[]|].
  - by rewrite find_or_make_seq.
  - by rewrite find_or_make_jobs.
  - by intros rj ?%elem_of_nil.
  - intros name' tid. rewrite find_or_make_names, find_or_make_jobs.
    intros [[<- <-]|[_ Hid]]%lookup_insert_Some; [by right; right|by apply Hnamed].
Qed.
Lemma rec_state_new now cfg sys n rem :
  (1 ≤ n ≤ 2 ^ 62)%N → rec_state now n [] rem (with_next n (Engine_new now cfg sys)).
Proof.
  intros Hn. pose proof (Inv_Engine_new now cfg sys) as HI. constructor.
  - split; [done|]. exists ∅, 1%N. unfold Inv, ghost_of in HI.
    assert (e_conns (Engine_new now cfg sys) = ∅) as Hc by done. rewrite Hc, !rel_empty in HI.
    assert (e_jobs (Engine_new now cfg sys) = ∅) as Hj by done.
    unfold with_next, rec_ghost. core HI; rewrite ?Hj, ?Hc in *.
    + by intros i j ?.
    + split; intros *; by rewrite lookup_empty.
    + done.
    + unfold bounds_ok, budget_ok, counter_limit, seq_used in *. rewrite ?count_empty in *. cbn in *. lia.
  - done.
  - done.
  - intros i. split; [by intros [j Hj]|by intros ?%elem_of_nil].
  - by intros rj ?%elem_of_nil.
  - intros name tid Hid. left. change (e_tube_ids (with_next n (Engine_new now cfg sys))) with ({[ default_tube := DEFAULT_TUBE ]} : gmap TubeName TubeId) in Hid.
    by apply lookup_singleton_Some in Hid as [_ <-].
Qed.

(** The greatest id, when none repeats. *)
Lemma recover_job_ids now m e rj i :
  is_Some (e_jobs (recover_job now (m, e) rj).2 !! i) ↔ i = r_id (rj_record rj) ∨ is_Some (e_jobs e !! i).
Proof.
  unfold recover_job. case_bool_decide as Hin; [cbn; split; [by right|by intros [->|]]|].
  pose proof (find_or_make_jobs (rj_tube rj) e) as Hj. destruct (find_or_make_tube (rj_tube rj) e) as [tid e1].
  cbn [snd] in *. rewrite (jobs_enter_queue _ _ _ _ (recovered_job tid rj)) by apply lookup_insert_eq. eng.
  rewrite insert_insert_eq, Hj, lookup_insert_is_Some. destruct (decide (i = r_id (rj_record rj))); naive_solver.
Qed.
Lemma recover_jobs_max now m e l :
  NoDup ((r_id ∘ rj_record) <$> l) → (∀ rj, rj ∈ l → e_jobs e !! r_id (rj_record rj) = None) →
  (foldl (recover_job now) (m, e) l).1 = foldl N.max m ((r_id ∘ rj_record) <$> l).
Proof.
  revert m e. induction l as [|rj l IH]; intros m e Hnd Hno; [done|]. cbn [foldl fmap list_fmap].
  apply NoDup_cons in Hnd as [Hni Hnd].
  assert ((recover_job now (m, e) rj).1 = N.max m (r_id (rj_record rj))) as Hm.
  { unfold recover_job. rewrite bool_decide_eq_false_2 by (rewrite Hno; [by intros []|by left]).
    by destruct (find_or_make_tube (rj_tube rj) e). }
  destruct (recover_job now (m, e) rj) as [m' e'] eqn:Er. cbn [fst] in Hm. subst m'. apply IH; [done|].
  intros rj' Hin. apply eq_None_not_Some. replace e' with (recover_job now (m, e) rj).2 by (by rewrite Er).
  rewrite recover_job_ids. intros [Heq|Hs].
  - apply Hni, list_elem_of_fmap. exists rj'. by split.
  - rewrite Hno in Hs; [by destruct Hs|by right].
Qed.
Lemma foldl_max_spec m l k :
  ((∀ x, x ∈ l → x < k) → m < k → foldl N.max m l < k)%N ∧ (m ≤ foldl N.max m l)%N ∧
  ∀ x, x ∈ l → (x ≤ foldl N.max m l)%N.
Proof.
  revert m. induction l as [|y l IH]; intros m; cbn [foldl].
  { split_and!; [done|lia|by intros x ?%elem_of_nil]. }
  destruct (IH (N.max m y)) as (H1 & H2 & H3). split_and!.
  - intros Hall Hm. apply H1; [set_solver|]. assert (y < k)%N by (apply Hall; by left). lia.
  - lia.
  - intros x [->|Hx]%elem_of_cons; [lia|auto].
Qed.

(** ** What a well-formed log recovers *)
Definition rj_id (rj : RecoveredJob) : JobId := r_id (rj_record rj).
(** The ids are distinct and, like the next one, below the bound the store
    keeps ([MAX_RECORD_ID]). *)
Record recovery_ok (rec : Recovery) : Prop := {
  rk_distinct : NoDup (rj_id <$> rec_jobs rec);
  rk_ids : ∀ rj, rj ∈ rec_jobs rec → (rj_id rj < 2 ^ 62)%N;
  rk_next : (rec_next_id rec ≤ 2 ^ 62)%N;
}.
Lemma NoDup_below (l : list N) (k : N) : NoDup l → (∀ x, x ∈ l → (x < k)%N) → (N.of_nat (length l) ≤ k)%N.
Proof.
  intros Hnd Hlt. rewrite <-(size_list_to_set (C := gset N) l) by done.
  rewrite <-(dom_gset_to_gmap (list_to_set l : gset N) ()), size_dom. apply size_below.
  intros i v [Hi _]%lookup_gset_to_gmap_Some. apply Hlt. by rewrite elem_of_list_to_set in Hi.
Qed.
Lemma rec_state_recover now cfg sys rec :
  recovery_ok rec →
  let e := recover now cfg sys rec in
  rec_state now (e_next_job_id e) (rec_jobs rec) [] e ∧ (1 ≤ e_next_job_id e ≤ 2 ^ 62)%N ∧
  (rec_next_id rec ≤ e_next_job_id e)%N ∧ ∀ rj, rj ∈ rec_jobs rec → (rj_id rj < e_next_job_id e)%N.
Proof.
  intros [Hnd Hids Hnext]. unfold recover. set (l := rec_jobs rec) in *.
  set (e0 := recover_tubes (rj_tube <$> l) (rec_tube_order rec) (Engine_new now cfg sys)).
  assert (∀ rj, rj ∈ l → e_jobs e0 !! r_id (rj_record rj) = None) as Hno.
  { intros rj _. destruct (rec_state_tubes now 1 (rj_tube <$> l) (rec_tube_order rec) _
      (rec_state_new now cfg sys 1 _ ltac:(done))) as [_ _ _ Hj _ _]. rewrite next_recover_tubes in Hj.
    apply eq_None_not_Some. intros Hs. by apply (elem_of_nil (A := JobId) (r_id (rj_record rj))), Hj. }
  pose proof (recover_jobs_max now 0 e0 l Hnd Hno) as Hm.
  destruct (foldl_max_spec 0 ((r_id ∘ rj_record) <$> l) (2 ^ 62)) as (Hlt & _ & Hge). rewrite <-Hm in Hlt, Hge.
  specialize (Hlt ltac:(intros x (rj & -> & Hin)%list_elem_of_fmap; by apply Hids) ltac:(done)).
  pose proof (next_recover_jobs (N.max (N.max (rec_next_id rec) (incr64 (foldl (recover_job now) (0%N, e0) l).1)) 1)
    now 0 e0 l) as Hc.
  destruct (foldl (recover_job now) (0%N, e0) l) as [mx e1]. cbn [fst snd] in *.
  rewrite incr64_small in * by lia. set (n := N.max (N.max (rec_next_id rec) (mx + 1)) 1) in *.
  change (e1 <| e_next_job_id := n |>) with (with_next n e1). change (e_next_job_id (with_next n e1)) with n.
  assert (∀ rj, rj ∈ l → (rj_id rj < n)%N) as Hbelow.
  { intros rj Hin. pose proof (Hge _ (list_elem_of_fmap_2 (r_id ∘ rj_record) _ _ Hin)) as Hle. cbn in Hle. unfold rj_id. lia. }
  split; [|split; [lia|split; [lia|done]]].
  replace (with_next n e1) with (foldl (recover_job now) (0%N, with_next n e0) l).2 by (by rewrite Hc).
  apply (rec_state_jobs now n 0 [] l); [|done|done|].
  - unfold e0. rewrite <-next_recover_tubes. apply rec_state_tubes, rec_state_new. lia.
  - cbn [app]. rewrite <-(length_fmap rj_id). apply NoDup_below; [done|].
    intros x (rj & -> & Hin)%list_elem_of_fmap. by apply Hids.
Qed.

(** At the end no tube is an orphan and no connection waits. *)
Lemma rec_state_Inv now n done e :
  rec_state now n done [] e → ∃ bt, Inv (mkBudget n (2 ^ 62) 0 bt) e.
Proof.
  intros [(Hc & O & bt & HC) _ _ _ _ Hnamed]. exists bt. unfold Inv, ghost_of. rewrite Hc, !rel_empty. unfold rec_ghost in HC.
  pose proof (co_reg _ _ HC) as (_ & Hn & _). pose proof (co_waiting _ _ HC) as Hwait. pose proof (Core_size _ _ HC) as Hsize.
  pose proof (co_refs _ _ HC) as Hrefs. core HC.
  - intros tid t Ht _ Hd. destruct (Hwait _ _ Ht) as [_ Hw]. unfold wants_dispatch in Hd.
    rewrite (proj2 (ms_is_empty_true (t_waiting_conns t))) in Hd; [done|]. destruct (ms_items (t_waiting_conns t)) as [|c l]; [done|].
    exfalso. apply (not_elem_of_empty (C := CTRel) (c, tid)), Hw. left.
  - intros tid t Ht _. destruct (Hnamed (t_name t) tid) as [|[(i & j & Hj & Hjt)|[]%elem_of_nil]];
      [apply Hn; by rewrite Ht|by left|right].
    destruct (co_using _ _ Ht) as [Hu _], (co_watching _ _ Ht) as [Hw _]. pose proof (Hrefs _ _ Ht) as Hr. unfold job_refs_ok in Hr.
    cbn [g_uses g_watches] in Hu, Hw. unfold refs, wrap64. rewrite Hu, Hw, Hr.
    assert (deg (∅ : CTRel) tid = 0%N) as -> by (apply deg_zero; set_solver).
    pose proof (count_le_size (in_tube tid) (e_jobs e)).
    assert (0 < count (in_tube tid) (e_jobs e))%N by (eapply count_pos; [exact Hj|by apply bool_decide_eq_true]).
    rewrite N.mod_small; lia.
Qed.
Lemma recover_wf now cfg sys rec : recovery_ok rec → wf_after 0 (recover now cfg sys rec).
Proof.
  intros Hok. destruct (rec_state_recover now cfg sys rec Hok) as (Hs & Hn & _).
  destruct (rec_state_Inv _ _ _ _ Hs) as [bt HI]. eexists. split; [exact HI|]. cbn. lia.
Qed.
