(* ===== verification/WalOpen.v ===== *)
(** * Opening a log

    A directory the scan accepts is cleaned up: files without records go,
    torn tails are cut off.  Every directory on the way replays to the same
    live jobs, so a crash while the log is being opened loses nothing; the
    opened log satisfies the invariant and the recovery lists the live
    jobs. *)

From S2P Require Import Prelude Ms Proto Stats Parse Reply Model Format Snapshot Replay Scan Wal WalDisk WalFiles.
From S2P Require Import WalIndex WalInv WalCompact.
From stdpp Require Import options.

Section open.
Context (record_crc : Bytes → Bytes → N) (Hcrc : ∀ l p, (record_crc l p < 2 ^ 32)%N).
#[local] Abbreviation image := (image record_crc).
#[local] Abbreviation holds := (holds record_crc).
#[local] Abbreviation v_file := (v_file record_crc).
#[local] Abbreviation v_ok := (v_ok record_crc).
#[local] Abbreviation v_end := (v_end record_crc).
#[local] Abbreviation accepts := (accepts record_crc).
Implicit Types (d : Disk) (v : view) (vs : list view) (L : Live).

(** A directory whose replay has the live jobs [L]. *)
Definition replays d L : Prop := ∃ sc, scan_files record_crc (disk_files d) = inl sc ∧ job_of <$> sc_jobs sc = L.
Lemma replays_unique d L L' : replays d L → replays d L' → L = L'.
Proof. intros (sc & H & <-) (sc' & H' & <-). congruence. Qed.
Lemma replays_views d vs :
  v_file <$> vs = disk_files d → Forall v_ok vs → is_Some (accepts None vs) → replays d (live_run ∅ (all_recs vs)).
Proof using Hcrc.
  intros Hf Hok [t Ht]. exists (scan_of record_crc t vs). split; [|apply scan_live].
  by rewrite <-Hf, (scan_views record_crc Hcrc), Ht.
Qed.
Lemma holds_replays d C : holds d C → replays d (live_run ∅ (all_of C)).
Proof using Hcrc.
  intros H. destruct (holds_views record_crc Hcrc _ _ H) as (vs & Hf & Hok & Ha & Hl & _).
  rewrite <-(located_recs C), <-Hl, all_located. by apply replays_views; [..|eexists].
Qed.
Lemma safe_replays (ok : Live → Prop) d : safe record_crc ok d → ∃ L, replays d L ∧ ok L.
Proof using Hcrc. intros (C & HC & Hok). eexists. split; [by apply holds_replays|done]. Qed.

(** ** Cleaning up *)
Definition cleaned v : option view :=
  match v with Segment i h (r :: recs) _ => Some (Segment i h (r :: recs) []) | _ => None end.
Definition index_of v : N := (v_file v).1.
Lemma cleaned_None v : cleaned v = None → v_recs v = [].
Proof. by destruct v as [| |i h [|r recs] tail]. Qed.
Lemma cleaned_Some v v' :
  cleaned v = Some v' → v_recs v' = v_recs v ∧ v_recs v ≠ [] ∧ index_of v' = index_of v ∧ v_end v' = inl None ∧ (v_ok v → v_ok v').
Proof.
  destruct v as [| |i h [|r recs] tail]; try done. intros [= <-]. split_and!; try done. by intros (? & ? & _).
Qed.
Lemma accepts_app t vs vs' : accepts t (vs ++ vs') = accepts t vs ≫= λ t, accepts t vs'.
Proof.
  revert t. induction vs as [|v vs IH]; intros t; [done|]. cbn [app Scan.accepts]. case_bool_decide; [done|]. by destruct (v_end v).
Qed.
(** Fewer torn tails are no harm. *)
Lemma accepts_fewer t t' vs : (t = None → t' = None) → is_Some (accepts t vs) → is_Some (accepts t' vs).
Proof.
  revert t t'. induction vs as [|v vs IH]; intros t t' Ht; [by intros|]. cbn [Scan.accepts]. case_bool_decide as Hb; [by intros []|].
  rewrite (bool_decide_eq_false_2 (t' ≠ _ ∧ _)) by (destruct t, t'; naive_solver). destruct (v_end v) as [e|]; [|by intros []].
  apply IH. destruct t, t'; naive_solver.
Qed.

Record good (R : list Rec) vs : Prop := {
  gd_sorted : StronglySorted N.lt (index_of <$> vs);
  gd_ok : Forall v_ok vs;
  gd_accepts : is_Some (accepts None vs);
  gd_recs : all_recs vs = R;
}.
Definition files_of vs : Disk := list_to_map (v_file <$> vs).
Lemma index_of_fmap vs : (v_file <$> vs).*1 = index_of <$> vs.
Proof. by rewrite <-list_fmap_compose. Qed.
Lemma disk_files_of vs : StronglySorted N.lt (index_of <$> vs) → disk_files (files_of vs) = v_file <$> vs.
Proof.
  intros Hs. assert (ascending fst (v_file <$> vs)) as Ha.
  { unfold ascending. rewrite <-index_of_fmap in Hs. induction (v_file <$> vs) as [|x l IH]; [constructor|]. cbn in Hs.
    inversion Hs as [|? ? Hl Hx]; subst. constructor; [by apply IH|]. rewrite Forall_fmap in Hx. eapply Forall_impl; [exact Hx|]. intros y. apply N_olt. }
  unfold disk_files, files_of. apply sort_unique; [done|]. apply map_to_list_to_map. rewrite index_of_fmap. by apply sorted_NoDup.
Qed.
Lemma good_replays R vs : good R vs → replays (files_of vs) (live_run ∅ R).
Proof using Hcrc. intros [Hs Hok Ha <-]. apply replays_views; [|done..]. symmetry. by apply disk_files_of. Qed.
Lemma sorted_drop (l r : list N) x : StronglySorted N.lt (l ++ x :: r) → StronglySorted N.lt (l ++ r).
Proof.
  induction l as [|y l IH]; cbn; intros H; inversion H as [|? ? Hs Hy]; subst; [done|]. constructor; [by apply IH|].
  rewrite Forall_app, Forall_cons in Hy. apply Forall_app. naive_solver.
Qed.
Lemma good_remove R vs v vs' : good R (vs ++ v :: vs') → v_recs v = [] → good R (vs ++ vs').
Proof.
  intros [Hs Hok Ha HR] Hv. constructor.
  - rewrite fmap_app in *. by eapply sorted_drop.
  - rewrite Forall_app, Forall_cons in Hok. apply Forall_app. naive_solver.
  - rewrite accepts_app in *. destruct (accepts None vs) as [t|]; cbn [mbind option_bind] in *; [|done]. cbn [Scan.accepts] in Ha. revert Ha.
    case_bool_decide; [by intros []|]. destruct (v_end v) as [e|]; [|by intros []]. apply accepts_fewer. by destruct t, e.
  - rewrite <-HR. unfold all_recs. rewrite !bind_app. cbn. by rewrite Hv.
Qed.
Lemma good_clean R vs v v' vs' : good R (vs ++ v :: vs') → cleaned v = Some v' → good R (vs ++ v' :: vs').
Proof.
  intros [Hs Hok Ha HR] Hv. destruct (cleaned_Some _ _ Hv) as (Hr & Hne & Hi & He & Hk). constructor.
  - rewrite fmap_app, fmap_cons in *. by rewrite Hi.
  - rewrite Forall_app, Forall_cons in *. naive_solver.
  - rewrite accepts_app in *. destruct (accepts None vs) as [t|]; cbn [mbind option_bind] in *; [|done]. cbn [Scan.accepts] in Ha |- *.
    rewrite Hr, He. revert Ha. case_bool_decide; [by intros []|]. destruct (v_end v) as [e|]; [|by intros []]. apply accepts_fewer. by destruct t.
  - rewrite <-HR. unfold all_recs. rewrite !bind_app. cbn. by rewrite Hr.
Qed.
Lemma files_of_middle vs v vs' : files_of (vs ++ v :: vs') = files_of vs ∪ <[index_of v := (v_file v).2]> (files_of vs').
Proof. unfold files_of. rewrite fmap_app, list_to_map_app. cbn. done. Qed.
Lemma not_in_files vs i : i ∉ index_of <$> vs → files_of vs !! i = None.
Proof. intros Hi. apply not_elem_of_list_to_map_1. by rewrite index_of_fmap. Qed.
Lemma files_of_remove vs v vs' :
  StronglySorted N.lt (index_of <$> vs ++ v :: vs') → delete (index_of v) (files_of (vs ++ v :: vs')) = files_of (vs ++ vs').
Proof.
  rewrite fmap_app. cbn. intros [H1 H2]%sorted_mid. rewrite files_of_middle. unfold files_of at 3. rewrite fmap_app, list_to_map_app.
  rewrite delete_union, delete_insert_id by by apply not_in_files. f_equal. by apply delete_id, not_in_files.
Qed.
Lemma files_of_set vs v v' vs' f :
  StronglySorted N.lt (index_of <$> vs ++ v :: vs') → v_file v' = (index_of v, f (v_file v).2) →
  alter f (index_of v) (files_of (vs ++ v :: vs')) = files_of (vs ++ v' :: vs').
Proof.
  rewrite fmap_app. cbn. intros [H1 H2]%sorted_mid Hv. rewrite !files_of_middle. unfold index_of at 3. rewrite Hv. cbn.
  apply not_in_files in H1. apply map_eq. intros i. destruct (decide (i = index_of v)) as [->|Hne].
  - by rewrite lookup_alter_eq, !lookup_union_r, !lookup_insert_eq by done.
  - rewrite lookup_alter_ne by done. rewrite !lookup_union, !lookup_insert_ne; done.
Qed.

Definition found_seg v : Seg :=
  let n := SEG_HEADER_LEN + length (image (v_recs v)) in mkSeg (index_of v) n n 0 [] false.
Lemma cut_file h recs tail :
  length h = SEG_HEADER_LEN →
  let f := h ++ image recs ++ tail in let n := SEG_HEADER_LEN + length (image recs) in
  take n f ++ zeros (n - length f) = h ++ image recs.
Proof.
  intros Hh f n. unfold f, n. rewrite !length_app, Hh, (assoc_L (++)), take_app_length' by (rewrite length_app; lia).
  replace (_ - _) with 0 by lia. apply app_nil_r.
Qed.
(** A segment with records ends where they end. *)
Lemma cut_spec R vs v v' vs' w wd E :
  good R (vs ++ v :: vs') → cleaned v = Some v' → d_files wd = files_of (vs ++ v :: vs') →
  let s := v_scanned record_crc v in
  wp (when_ (sg_valid_end s <? sg_file_len s)%nat (io (SetLen (sg_index s) (sg_valid_end s));; io (Sync (sg_index s))))
    (λ d, replays d (live_run ∅ R)) (λ _ st, st.1 = w ∧ d_files st.2 = files_of (vs ++ v' :: vs')) E (w, wd).
Proof using Hcrc.
  intros Hg Hv Hd s. pose proof (good_clean _ _ _ _ _ Hg Hv) as Hg'. pose proof (gd_sorted _ _ Hg) as Hs. pose proof (gd_ok _ _ Hg) as Hok.
  rewrite Forall_app, Forall_cons in Hok. destruct Hok as (_ & Hok & _).
  destruct v as [| |i h [|r recs] tail]; try done. injection Hv as <-. destruct Hok as ([Hh _] & _). set (rs := r :: recs) in *.
  change (sg_index s) with i. change (sg_valid_end s) with (SEG_HEADER_LEN + length (image rs)).
  change (sg_file_len s) with (length (h ++ image rs ++ tail)). apply wp_when; intros Hlt.
  - assert (do_op (SetLen i (SEG_HEADER_LEN + length (image rs))) (files_of (vs ++ Segment i h rs tail :: vs')) =
      files_of (vs ++ Segment i h rs [] :: vs')) as Hcut.
    { apply (files_of_set vs (Segment i h rs tail)); [done|]. cbn [Scan.v_file index_of snd fst]. by rewrite (cut_file h rs tail Hh), app_nil_r. }
    apply wp_bind, wp_io; cbn [fst snd d_files]; rewrite Hd, Hcut; [by apply good_replays|]. apply wp_io; cbn [fst snd d_files]; [by apply good_replays|done].
  - split; [done|]. apply Nat.ltb_ge in Hlt. rewrite !length_app, Hh in Hlt. assert (tail = []) as -> by (apply length_zero_iff_nil; lia). done.
Qed.
Lemma fix_files_spec R vs vs' changed w wd E :
  good R (vs ++ vs') → d_files wd = files_of (vs ++ vs') →
  wp (fix_files (v_scanned record_crc <$> vs') changed) (λ d, replays d (live_run ∅ R))
    (λ r st, r.1 = found_seg <$> omap cleaned vs' ∧ st.1 = w ∧ d_files st.2 = files_of (vs ++ omap cleaned vs') ∧ good R (vs ++ omap cleaned vs')) E (w, wd).
Proof using Hcrc.
  revert vs changed wd. induction vs' as [|v vs' IH]; intros vs changed wd Hg Hd; [by apply wp_ret|].
  cbn [fmap list_fmap fix_files omap list_omap]. destruct (cleaned v) as [v'|] eqn:Hv.
  - assert (sg_has_records (v_scanned record_crc v) = true) as -> by by destruct v as [| |i h [|] tail].
    cbn [negb]. apply wp_bind. eapply wp_mono; [by apply (cut_spec R vs v v' vs')|]. intros _ [w1 wd1] [Hw1 Hd1]. cbn [fst snd] in Hw1, Hd1. subst w1.
    apply wp_bind. apply (good_clean _ _ _ _ _) with (2 := Hv) in Hg. rewrite !(cons_middle v'), !(assoc_L (++)) in *.
    eapply wp_mono; [by apply IH|]. intros [rest c] [w2 wd2] (Hr & Hw2 & Hd2 & Hg2). cbn [fst snd] in Hr. subst rest. apply wp_ret.
    split_and!; [|done..]. cbn. f_equal. destruct v as [| |i h [|r recs] tail]; try done. by injection Hv as <-.
  - assert (sg_has_records (v_scanned record_crc v) = false) as -> by (apply cleaned_None in Hv; destruct v as [| |i h [|] tail]; done).
    cbn [negb]. pose proof (gd_sorted _ _ Hg) as Hs. apply (good_remove _ _ _ _) in Hg; [|by apply cleaned_None].
    assert (sg_index (v_scanned record_crc v) = index_of v) as -> by by destruct v.
    apply wp_bind, wp_io; cbn [do_op snd]; rewrite Hd, files_of_remove by done; [by apply good_replays|]. by apply IH.
Qed.

(** ** The job index *)
Implicit Types (jobs : gmap JobId ReplayJob) (s : Seg) (l : list (N * nat * JobId)).
Definition of_seg (i : N) l : list (N * nat * JobId) := filter (λ a, a.1.1 = i) l.
Definition anchor_all l s : Seg :=
  s <| s_anchors ::= Nat.add (length (of_seg (s_index s) l)) |> <| s_puts ::= (.++ ((λ a, (a.2, a.1.2)) <$> of_seg (s_index s) l)) |>.
Lemma add_anchor_one segs a :
  NoDup (s_index <$> segs) → add_anchor segs a = anchor_all [a] <$> segs.
Proof.
  destruct a as [[seg off] id]. intros Hn. unfold add_anchor.
  assert (∀ s, s_index s ≠ seg → anchor_all [(seg, off, id)] s = s) as Hother.
  { intros s Hs. unfold anchor_all, of_seg. rewrite filter_cons_False by (cbn; congruence). rewrite filter_nil. destruct s. inner_all. cbn. by rewrite app_nil_r. }
  assert (∀ s, s_index s = seg → anchor_all [(seg, off, id)] s = s <| s_anchors ::= S |> <| s_puts ::= (.++ [(id, off)]) |>) as Hthis.
  { intros s Hs. unfold anchor_all, of_seg. by rewrite filter_cons_True by (cbn; congruence). }
  induction segs as [|s segs IH]; [done|]. cbn [fmap list_fmap] in Hn |- *. apply NoDup_cons in Hn as [Hs Hn]. cbn [list_find]. destruct (decide (s_index s = seg)) as [He|He].
  - cbn. rewrite Hthis by done. f_equal. assert (∀ s', s' ∈ segs → s_index s' ≠ seg) as Hne by (intros s' Hin Hs'; apply Hs; rewrite He, <-Hs'; by apply list_elem_of_fmap_2).
    clear -Hother Hne. induction segs as [|s' segs IH]; [done|]. cbn. rewrite Hother by (apply Hne; by left). f_equal. apply IH. intros x Hx. apply Hne. by right.
  - specialize (IH Hn). rewrite (Hother s) by done. destruct (list_find _ segs) as [[p x]|]; cbn; (f_equal; exact IH).
Qed.
Lemma anchor_all_index l (segs : list Seg) : s_index <$> (anchor_all l <$> segs) = s_index <$> segs.
Proof. rewrite <-list_fmap_compose. apply list_fmap_ext. intros i s _. by destruct s. Qed.
Lemma add_anchors l (segs : list Seg) :
  NoDup (s_index <$> segs) → foldl add_anchor segs l = anchor_all l <$> segs.
Proof.
  revert segs. induction l as [|a l IH]; intros segs Hn; cbn [foldl].
  - symmetry. rewrite <-(list_fmap_id segs) at 2. apply list_fmap_ext. intros _ s _. destruct s. unfold anchor_all. inner_all. cbn. by rewrite app_nil_r.
  - rewrite add_anchor_one by done. rewrite IH by by rewrite anchor_all_index. rewrite <-list_fmap_compose. apply list_fmap_ext. intros _ s _. cbn.
    unfold anchor_all, of_seg. destruct s. inn. rewrite !filter_cons, filter_nil. case_decide; inner_all; cbn; rewrite ?app_nil_r, <-?(assoc_L (++)); f_equal; cbn; lia.
Qed.
Lemma elem_of_anchored jobs seg off id :
  (seg, off, id) ∈ anchored jobs ↔ ∃ j, jobs !! id = Some j ∧ p_seg j = seg ∧ p_off j = off.
Proof.
  unfold anchored. rewrite sort_by_key_perm, list_elem_of_fmap. split.
  - intros ([k j] & [= -> -> ->] & Hin%elem_of_map_to_list). by exists j.
  - intros (j & Hj & <- & <-). exists (id, j). split; [done|]. by apply elem_of_map_to_list.
Qed.
Lemma count_anchored jobs i : N.of_nat (length (of_seg i (anchored jobs))) = count (in_seg i) (entry_of <$> jobs).
Proof.
  unfold of_seg, anchored. rewrite (filter_Permutation _ _ _ (sort_by_key_perm _ _)). induction jobs as [|k j m Hk IH] using map_ind.
  - by rewrite map_to_list_empty, fmap_empty.
  - rewrite fmap_insert, count_insert_new by by rewrite lookup_fmap, Hk. rewrite (map_to_list_insert m k j Hk). cbn [fmap list_fmap].
    rewrite filter_cons, <-IH. unfold in_seg. cbn [fst snd ind entry_of je_seg]. case_decide; [rewrite bool_decide_eq_true_2 by done|rewrite bool_decide_eq_false_2 by done]; cbn [length]; lia.
Qed.
Lemma anchored_good jobs s :
  s_anchors s = 0 → s_puts s = [] → seg_good (entry_of <$> jobs) (anchor_all (anchored jobs) s).
Proof.
  intros Ha Hp. destruct s as [i sz wr an pu fi]. cbn in Ha, Hp. subst. unfold anchor_all. split; inner_all; cbn.
  - by rewrite Nat.add_0_r, count_anchored.
  - intros id e. rewrite lookup_fmap. intros (j & Hj & ->)%fmap_Some <-. apply list_elem_of_fmap. exists (p_seg j, p_off j, id). split; [done|].
    apply list_elem_of_filter. split; [done|]. apply elem_of_anchored. by exists j.
Qed.

(** ** The opened state *)
Definition kept vs : Content := (λ v, (index_of v, v_recs v)) <$> omap cleaned vs.
Lemma kept_cons v vs : kept (v :: vs) = match cleaned v with Some v' => (index_of v, v_recs v) :: kept vs | None => kept vs end.
Proof.
  unfold kept. cbn. destruct (cleaned v) as [v'|] eqn:Hv; [|done]. destruct (cleaned_Some _ _ Hv) as (Hr & _ & Hi & _). cbn. by rewrite Hi, Hr.
Qed.
Lemma kept_located vs : located (kept vs) = vs ≫= v_located record_crc.
Proof.
  unfold located. induction vs as [|v vs IH]; [done|]. rewrite kept_cons. cbn [mbind list_bind]. rewrite <-IH.
  destruct (cleaned v) as [v'|] eqn:Hv; [done|]. unfold v_located. by rewrite (cleaned_None _ Hv).
Qed.
Lemma kept_recs vs : all_of (kept vs) = all_recs vs.
Proof. by rewrite <-located_recs, kept_located, all_located. Qed.
Lemma kept_index vs i : i ∈ (kept vs).*1 → i ∈ index_of <$> vs.
Proof.
  induction vs as [|v vs IH]; [done|]. rewrite kept_cons. cbn. rewrite elem_of_cons. destruct (cleaned v); [|by auto].
  cbn. rewrite elem_of_cons. naive_solver.
Qed.
Lemma kept_closed R vs :
  good R (omap cleaned vs) → Forall2 (closed_seg record_crc (files_of (omap cleaned vs))) (found_seg <$> omap cleaned vs) (kept vs).
Proof.
  intros Hg. unfold kept. apply Forall2_fmap_2, Forall2_same_length_lookup_2; [done|]. intros p v v' Hp Hp'. replace v' with v in * by congruence. clear v' Hp'.
  assert (v ∈ omap cleaned vs) as Hin by by eapply list_elem_of_lookup_2. split_and!; [done..|].
  pose proof Hin as (v0 & _ & Hv0)%list_elem_of_omap. destruct v0 as [| |i h [|r recs] tail]; try done. injection Hv0 as <-. exists h.
  pose proof (gd_ok _ _ Hg) as Hok. rewrite Forall_forall in Hok. destruct (Hok _ Hin) as [Hh _]. split; [done|].
  apply elem_of_list_to_map; [rewrite index_of_fmap; apply sorted_NoDup, (gd_sorted _ _ Hg)|]. apply list_elem_of_fmap. eexists. split; [|exact Hin].
  cbn. by rewrite app_nil_r.
Qed.
Lemma good_fits R vs : good R vs → Forall fits R.
Proof.
  intros [_ Hok _ <-]. unfold all_recs. induction Hok as [|v vs Hv _ IH]; [constructor|]. cbn. apply Forall_app. split; [|done].
  destruct v; [constructor..|]. by destruct Hv as (_ & ? & _).
Qed.
Lemma kept_holds R vs : good R (omap cleaned vs) → all_recs vs = R → holds (files_of (omap cleaned vs)) (kept vs).
Proof.
  intros Hg HR. pose proof (kept_closed _ _ Hg) as Hcl. constructor.
  - unfold kept. rewrite <-list_fmap_compose. apply (gd_sorted _ _ Hg).
  - intros i recs (p & Hp)%list_elem_of_lookup. destruct (Forall2_lookup_r _ _ _ _ _ Hcl Hp) as (s & _ & _ & _ & _ & h & Hh & Hd).
    eexists. split; [exact Hd|]. exists h, 0. split; [done|]. by rewrite app_nil_r.
  - intros i f Hd Hi. unfold kept in Hi. rewrite <-list_fmap_compose in Hi. change (i ∉ index_of <$> omap cleaned vs) in Hi. by rewrite not_in_files in Hd.
  - rewrite kept_recs, HR. by eapply good_fits.
Qed.
Lemma sorted_last (l : list N) i : StronglySorted N.lt l → i ∈ l → (i ≤ default 0 (last l))%N.
Proof.
  intros Hs Hi. induction l as [|x l IH] using rev_ind; [by apply not_elem_of_nil in Hi|]. rewrite last_snoc. cbn.
  apply elem_of_app in Hi as [Hi|Hi%list_elem_of_singleton]; [|lia]. apply list_elem_of_split in Hi as (l1 & l2 & ->).
  rewrite <-(assoc_L (++)) in Hs. cbn in Hs. apply StronglySorted_app in Hs as (_ & _ & Hs). inversion Hs as [|? ? ? Hx]; subst.
  rewrite Forall_app, Forall_singleton in Hx. lia.
Qed.

Section opened.
Context (R : list Rec) (vs : list view) (Hg : good R (omap cleaned vs)) (HR : all_recs vs = R) (Hs : StronglySorted N.lt (index_of <$> vs)).
Context (policy : SyncPolicy) (size : nat) (limit : option nat).
Let jobs := rs_jobs (replayed ReplayState_default (vs ≫= v_located record_crc)).
Let segs := anchor_all (anchored jobs) <$> (found_seg <$> omap cleaned vs).
Let next := (default 0 (last (index_of <$> vs)) + 1)%N.
(** The state before the current segment is created, and after. *)
Definition opening : Inner :=
  mkInner policy size limit segs 0 next (entry_of <$> jobs) (sum_of p_used jobs) (sum_list (s_size <$> segs)) 0 0 [] SEG_HEADER_LEN false None None 0 0.
Definition opened : Inner := (allocated opening) <| w_cur := length (w_segs (allocated opening)) - 1 |>.
Definition first_ghost : Ghost := mkGhost (kept vs) next [] [].
Lemma opened_keys i : i ∈ (kept vs).*1 → (i < next)%N.
Proof using Hs. intros Hi%kept_index. pose proof (sorted_last _ _ Hs Hi). unfold next. lia. Qed.
Lemma opened_Files wd :
  4096 ≤ size → d_files wd = <[next := segment_header ++ zeros (size - SEG_HEADER_LEN)]> (files_of (omap cleaned vs)) →
  Files record_crc first_ghost [] (opened, wd).
Proof using Hg HR Hs.
  intros Hsize Hd. pose proof (kept_closed _ _ Hg) as Hcl. pose proof (kept_holds _ _ Hg HR) as [Hsort _ Hidle Hfits].
  assert (next ∉ (kept vs).*1) as Hnew by (intros Hi%opened_keys; lia). constructor; cbn [fst snd].
  - exists segs, (new_seg next size), []. rewrite Hd. split_and!.
    + done.
    + unfold opened, allocated, numbered, opening. inn. rewrite length_app. cbn. lia.
    + unfold segs. apply Forall2_fmap_l. eapply Forall2_impl; [eapply closed_frame; [|exact Hcl]|].
      * intros i Hi. rewrite lookup_insert_ne; [done|]. by intros <-.
      * intros s ir H. by destruct s.
    + split_and!; try done. exists (size - SEG_HEADER_LEN). rewrite lookup_insert_eq. unfold opened, allocated, numbered, opening, new_seg. inn.
      split; [done|]. change SEG_HEADER_LEN with 16. lia.
    + constructor.
  - rewrite keys_eq. cbn [first_ghost g_closed g_index g_spares]. apply sorted_snoc; [done|]. apply opened_keys.
  - rewrite Hd. unfold opened, allocated, numbered, opening. inn. intros i Hi. destruct (decide (i = next)) as [->|Hne]; [lia|]. rewrite lookup_insert_ne in Hi by done.
    destruct (decide (i ∈ (kept vs).*1)) as [Hin|Hno]; [pose proof (opened_keys _ Hin); lia|].
    unfold kept in Hno. rewrite <-list_fmap_compose in Hno. change (i ∉ index_of <$> omap cleaned vs) in Hno. rewrite not_in_files in Hi by done. by destruct Hi.
  - rewrite Hd. intros i f Hi Hno. rewrite keys_eq in Hno. cbn [first_ghost g_closed g_index g_spares] in Hno. apply not_elem_of_app in Hno as [Hno Hne].
    rewrite lookup_insert_ne in Hi; [by eapply Hidle|]. intros ->. apply Hne. by left.
  - rewrite app_nil_r, all_of_content. cbn [first_ghost g_closed g_recs]. by rewrite app_nil_r.
  - unfold opened, allocated, numbered, opening. inn. rewrite fmap_app, sum_list_with_app. cbn. lia.
  - done.
Qed.
Lemma jobs_place id j : jobs !! id = Some j → ∃ s, s ∈ segs ∧ s_index s = p_seg j.
Proof.
  unfold jobs. rewrite <-kept_located. intros (_ & record & _ & Hin & _)%replayed_put. apply list_elem_of_bind in Hin as ([i recs] & Hin & Hk).
  assert (p_seg j = i) as -> by (clear -Hin; generalize dependent SEG_HEADER_LEN; induction recs as [|r recs IH]; intros n Hin; [by apply not_elem_of_nil in Hin|];
    cbn in Hin; apply elem_of_cons in Hin as [[= ]|Hin]; [done|by eapply IH]).
  unfold kept in Hk. apply list_elem_of_fmap in Hk as (v & [= -> ->] & Hv). exists (anchor_all (anchored jobs) (found_seg v)).
  split; [|done]. unfold segs. by do 2 apply list_elem_of_fmap_2.
Qed.
Lemma sum_of_fmap {A B} (f : B → nat) (g : A → B) (m : gmap JobId A) : sum_of f (g <$> m) = sum_of (f ∘ g) m.
Proof. unfold sum_of. rewrite map_to_list_fmap, <-list_fmap_compose. done. Qed.
Lemma opened_Index : Index opened.
Proof using Hg Hs.
  assert (w_segs opened = segs ++ [new_seg next size]) as Hsegs by done. assert (w_jobs opened = entry_of <$> jobs) as Hjobs by done.
  assert (s_index <$> segs = index_of <$> omap cleaned vs) as Hidx by (unfold segs; rewrite anchor_all_index, <-list_fmap_compose; done).
  assert (∀ i, i ∈ index_of <$> omap cleaned vs → (i < next)%N) as Hlt.
  { intros i Hi. apply opened_keys. unfold kept. by rewrite <-list_fmap_compose. }
  constructor; rewrite ?Hsegs, ?Hjobs.
  - symmetry. apply sum_of_fmap.
  - intros p s. rewrite lookup_app_Some. intros [Hp|[_ Hp]].
    + unfold segs in Hp. rewrite list_lookup_fmap in Hp. apply fmap_Some in Hp as (s0 & Hp & ->). rewrite list_lookup_fmap in Hp.
      apply fmap_Some in Hp as (v & _ & ->). by apply anchored_good.
    + apply list_lookup_singleton_Some in Hp as [_ <-].
      assert (∀ id e, (entry_of <$> jobs) !! id = Some e → je_seg e ≠ next) as Hno.
      { intros id e. rewrite lookup_fmap. intros (j & Hj & ->)%fmap_Some. destruct (jobs_place _ _ Hj) as (s & Hin & Hi). cbn. rewrite <-Hi.
        intros Heq. assert (s_index s ∈ s_index <$> segs) as Hx by by apply list_elem_of_fmap_2. rewrite Hidx in Hx. specialize (Hlt _ Hx). lia. }
      split; [|intros id e He Hi; by destruct (Hno _ _ He)]. cbn. symmetry. apply count_zero. intros id e He. unfold in_seg. apply bool_decide_eq_false. by eapply Hno.
  - intros id e. rewrite lookup_fmap. intros (j & Hj & ->)%fmap_Some. destruct (jobs_place _ _ Hj) as (s & (p & Hp)%list_elem_of_lookup & Hi).
    exists p, s. split; [|done]. by apply lookup_app_l_Some.
  - rewrite fmap_app, Hidx. apply sorted_NoDup, sorted_snoc; [apply (gd_sorted _ _ Hg)|done].
Qed.
Lemma opened_lives : lives first_ghost = live_run ∅ R.
Proof using HR. unfold lives. rewrite all_of_content. cbn [first_ghost g_closed g_recs]. by rewrite app_nil_r, kept_recs, HR. Qed.
Lemma opened_Inv wd :
  4096 ≤ size → d_files wd = <[next := segment_header ++ zeros (size - SEG_HEADER_LEN)]> (files_of (omap cleaned vs)) →
  Inv record_crc first_ghost [] (opened, wd).
Proof using Hg HR Hs.
  intros Hsize Hd. constructor; [by apply opened_Files|apply opened_Index|]. rewrite push_nil. unfold state_of. rewrite located_content. cbn [first_ghost g_closed g_recs locate].
  by rewrite app_nil_r, kept_located.
Qed.
Lemma allocate_opening wd :
  4096 ≤ size → d_files wd = files_of (omap cleaned vs) →
  wp allocate (λ d, replays d (live_run ∅ R))
    (λ _ st, st.1 = allocated opening ∧ ∀ wd', d_files wd' = d_files st.2 → Inv record_crc first_ghost [] (opened, wd')) (λ e _, e = WalError.Io) (opening, wd).
Proof using Hcrc Hg HR Hs.
  intros Hsize Hd. pose proof (kept_holds _ _ Hg HR) as Hh. assert (next ∉ (kept vs).*1) as Hnew by (intros Hi%opened_keys; lia).
  rewrite <-HR, <-kept_recs. eapply wp_conseq; [apply (allocate_raw record_crc opening wd (λ d, replays d (live_run ∅ (all_of (kept vs)))))|by auto| |by intros e st' [-> _]].
  - rewrite Hd. by apply holds_replays.
  - intros f _ Hf. rewrite Hd. by apply holds_replays, holds_idle.
  - intros _ st (Hw & _ & Hd'). split; [done|]. intros wd' Hwd. apply opened_Inv; [done|]. by rewrite Hwd, Hd', Hd.
Qed.
End opened.

Lemma files_of_disk d vs : disk_files d = v_file <$> vs → d = files_of vs.
Proof.
  intros H. unfold files_of. rewrite <-H, <-(list_to_map_to_list d) at 1. symmetry. apply list_to_map_proper; [|apply sort_by_key_perm].
  apply sorted_NoDup, disk_files_sorted.
Qed.
Lemma safe_eq L d : safe record_crc (.= L) d → replays d L.
Proof using Hcrc. intros (L' & H & ->)%safe_replays. done. Qed.
Lemma open_body_spec policy size limit torn vs w wd :
  Forall v_ok vs → accepts None vs = Some torn → disk_files (d_files wd) = v_file <$> vs → 4096 ≤ size →
  let L := live_run ∅ (all_recs vs) in
  let sc := scan_of record_crc torn vs in
  wp (open_body policy size limit sc) (λ d, replays d L)
    (λ rec st, rec = mkRecovery (recovered (sc_jobs sc)) (sc_next_id sc) (sc_tube_order sc) ∧
       ∃ G, Inv record_crc G [] st ∧ lives G = L) (λ e _, e = WalError.Io) (w, wd).
Proof using Hcrc.
  intros Hok Ha Hf Hsize L sc. assert (good (all_recs vs) vs) as Hgood.
  { constructor; [|done|by eexists|done]. rewrite <-index_of_fmap, <-Hf. apply disk_files_sorted. }
  assert (d_files wd = files_of vs) as Hd by by apply files_of_disk. pose proof (gd_sorted _ _ Hgood) as Hs.
  unfold open_body. apply wp_bind. eapply wp_conseq; [apply (fix_files_spec _ [] vs false w wd (λ _ _, False) Hgood Hd)|done| |done].
  intros [segs changed] [w1 wd1] (Hsegs & _ & Hd1 & Hg1). cbn [fst snd app] in *. subst segs. apply wp_bind.
  apply (wp_mono _ _ (λ _ st, d_files st.2 = files_of (omap cleaned vs))).
  { apply wp_when; intros _; [|done]. apply wp_io; cbn [do_op snd]; [|done]. rewrite Hd1. by apply good_replays. }
  clear wd1 Hd1. intros _ [w2 wd1] Hd1. cbn [snd] in Hd1. apply wp_bind, wp_modify. cbn [fst snd].
  rewrite add_anchors by (rewrite <-list_fmap_compose; apply sorted_NoDup, (gd_sorted _ _ Hg1)).
  apply wp_bind. eapply wp_mono; [by apply (allocate_opening (all_recs vs) vs Hg1 eq_refl Hs policy size limit)|].
  intros _ [w3 wd3] [Hw3 HI]. cbn [fst snd] in Hw3, HI. subst w3. apply wp_bind, wp_modify. cbn [fst snd].
  specialize (HI wd3 eq_refl). pose proof (opened_lives (all_recs vs) vs eq_refl) as HL. fold L in HL. apply wp_bind.
  eapply wp_conseq; [apply (ensure_room_spec record_crc 0 false (first_ghost vs) [] _ (.= L)); [exact HI|exact HL]|apply safe_eq| |done].
  intros room st (G' & HI' & Hadd & _). destruct room; cbn [negb]; [|by apply wp_throw]. apply spares_lives in Hadd. apply wp_bind.
  eapply wp_conseq; [apply (gc_spec record_crc G' [] _ (.= L)); rewrite ?push_nil; [done|congruence..]|apply safe_eq| |done].
  intros _ st' (G2 & B2 & HI2 & HL2 & _ & HB). rewrite (HB eq_refl), !push_nil in *. apply wp_ret. split; [done|]. exists G2. split; [done|congruence].
Qed.
End open.
