(* ===== verification/Log.v ===== *)
(** * The log as its owner sees it

    [Wal] of the store has four operations that change it.  [log_ok L] is the
    owner's view of an open log: it holds the live jobs [L].  Every operation
    keeps that view, and every directory it passes through replays to a
    prefix of what is being appended; opening gives the view back. *)

From S2P Require Import Prelude Ms Proto Stats Parse Reply Model Format Engine Recover Snapshot Replay Scan.
From S2P Require Import Wal WalDisk WalFiles WalIndex WalInv WalCompact WalSpace WalOpen.
From stdpp Require Import options.

Module WalOp.
Inductive WalOp :=
  | ReservePut (tube_len body_len : nat)
  | Append (entries : list JournalEntry)
  | SyncIfDue (now : Nanos)
  | Maintain.
End WalOp.
Abbreviation WalOp := WalOp.WalOp (only parsing).
Definition op_recs (op : WalOp) : list Rec := match op with WalOp.Append es => entry_rec <$> es | _ => [] end.

Section log.
Context (record_crc : Bytes → Bytes → N) (Hcrc : ∀ l p, (record_crc l p < 2 ^ 32)%N).
#[local] Abbreviation replays := (replays record_crc).
Implicit Types (L : Live) (st : St) (d : Disk) (op : WalOp).

Definition wal_do op : M () :=
  match op with
  | WalOp.ReservePut tube_len body_len => reserve_put tube_len body_len;; ret ()
  | WalOp.Append es => append record_crc es
  | WalOp.SyncIfDue now => sync_if_due now
  | WalOp.Maintain => maintain record_crc
  end.
Fixpoint wal_run (ops : list WalOp) : M () :=
  match ops with [] => ret () | op :: ops => wal_do op;; wal_run ops end.

Definition log_ok L st : Prop := ∃ G, Inv record_crc G [] st ∧ lives G = L.
Lemma log_ok_faults L st faults : log_ok L st → log_ok L (st.1, mkWorld (d_files st.2) (d_log st.2) faults).
Proof. intros (G & [HF HX HJ] & HL). exists G. split; [|done]. constructor; [|done|done]. by destruct HF; constructor. Qed.
Lemma log_ok_replays L st : log_ok L st → replays (d_files st.2) L.
Proof using Hcrc. intros (G & HI & <-). apply (holds_replays record_crc Hcrc), (Files_holds _ _ _ _ (in_files _ _ _ _ HI)). Qed.

(** What a directory may show while [op] runs on a log of [L]. *)
Definition between L op d : Prop := ∃ k, replays d (live_run L (take k (op_recs op))).
Lemma between_safe L op (ok : Live → Prop) d :
  (∀ L', ok L' → ∃ k, L' = live_run L (take k (op_recs op))) → safe record_crc ok d → between L op d.
Proof using Hcrc. intros H (L' & HL & (k & ->)%H)%(safe_replays record_crc Hcrc). by exists k. Qed.
Lemma between_same L op d : safe record_crc (.= L) d → between L op d.
Proof using Hcrc. apply between_safe. intros L' ->. by exists 0. Qed.
Lemma wal_do_spec L op st :
  log_ok L st → Forall fits (op_recs op) →
  wp (wal_do op) (between L op) (λ _ st', log_ok (live_run L (op_recs op)) st') (λ e _, e = WalError.Io) st.
Proof using Hcrc.
  intros (G & HI & <-) Hf. destruct op as [tl bl|es|now|]; cbn [wal_do op_recs] in *.
  - apply wp_bind. eapply wp_conseq; [by apply (reserve_put_spec record_crc G _ tl bl (.= lives G))|by intros; apply between_same| |done].
    intros b st' (G' & HI' & Ha & _). apply wp_ret. exists G'. split; [done|]. by apply spares_lives.
  - eapply wp_conseq; [apply (append_spec record_crc Hcrc G _ es (λ L', ∃ k, L' = live_run (lives G) (take k (entry_rec <$> es)))); [done|done|by eexists]| | |done].
    + intros d. apply between_safe. auto.
    + intros _ st' (G' & HI' & HL). by exists G'.
  - eapply wp_conseq; [by apply (sync_if_due_spec record_crc G _ now (.= lives G) (λ _ _, False))|by intros; apply between_same| |done].
    intros a st' HI'. by exists G.
  - eapply wp_conseq; [by apply (maintain_spec record_crc Hcrc G _ (.= lives G))|by intros; apply between_same| |done].
    intros _ st' (G' & HI' & HL). by exists G'.
Qed.
Lemma wal_run_ok L ops st st' :
  log_ok L st → Forall (Forall fits ∘ op_recs) ops → wal_run ops st = (inl (), st') → log_ok (live_run L (ops ≫= op_recs)) st'.
Proof using Hcrc.
  revert L st. induction ops as [|op ops IH]; intros L st HL Hf; cbn [wal_run]; [by intros [= <-]|].
  apply Forall_cons in Hf as [Hop Hf]. pose proof (wal_do_spec L op st HL Hop) as [_ H]. unfold bind. destruct (wal_do op st) as [[[]|e] st1]; [|done].
  cbn [fst snd] in H. intros Hr. cbn [mbind list_bind]. unfold live_run. rewrite foldl_app. by eapply IH.
Qed.

(** ** Promised space *)
Lemma log_ok_dom L st : log_ok L st → dom (w_jobs st.1) = dom L.
Proof.
  intros (G & HI & <-). rewrite (in_jobs _ _ _ _ HI), push_nil, <-lives_state. unfold live_of. by rewrite !dom_fmap_L.
Qed.
Lemma reserve_put_ok L st tl bl :
  log_ok L st → ∃ b st', reserve_put tl bl st = (inl b, st') ∧ log_ok L st' ∧
    w_pending_puts st'.1 = w_pending_puts st.1 + (if b then 1 else 0) ∧
    w_pending_bytes st'.1 = w_pending_bytes st.1 + (if b then put_rec_len tl bl else 0) ∧ (b = true → roomy st'.1).
Proof.
  intros (G & HI & <-). pose proof (reserve_put_spec record_crc G st tl bl (λ _, True) HI I) as [_ H].
  destruct (reserve_put tl bl st) as [[b|e] st']; cbn [fst snd] in H; [|done]. destruct H as (G' & HI' & Ha & Hroom & _ & Hp & Hb).
  exists b, st'. split_and!; [done| |done|done|].
  - exists G'. split; [done|]. by apply spares_lives.
  - intros [Hn _]%Hroom. unfold need in Hn. unfold roomy. lia.
Qed.
Lemma append_covered L st es :
  log_ok L st → roomy st.1 → Forall fits (entry_rec <$> es) → covered (w_pending_puts st.1) (w_pending_bytes st.1) (dom L) es →
  ∃ st', append record_crc es st = (inl (), st') ∧ log_ok (live_run L (entry_rec <$> es)) st' ∧ roomy st'.1.
Proof using Hcrc.
  intros HL Hr Hf Hc. pose proof HL as (G & HI & _).
  assert (Covered (w_pending_puts st.1) (w_pending_bytes st.1) (dom L) st.1) as HC.
  { constructor; [by eapply Files_Spaced, in_files|done|done|by apply log_ok_dom]. }
  destruct (wal_do_spec L (WalOp.Append es) st HL Hf) as [_ H]. destruct (append_space record_crc _ _ _ _ _ HC Hf Hc) as [_ H'].
  cbn [wal_do op_recs] in H. destruct (append record_crc es st) as [[[]|e] st']; cbn [fst snd] in *; [|done].
  exists st'. split_and!; [done|done|]. destruct H' as (D & ?). by eapply cv_roomy.
Qed.

(** ** Recovery *)
(** The recovery lists the jobs of [L], each once. *)
Definition recovers_all (rec : Recovery) L : Prop := ∀ id rj, L !! id = Some rj ↔ rj ∈ rec_jobs rec ∧ rj_id rj = id.
Definition recovery_of (sc : Scan) : Recovery := mkRecovery (recovered (sc_jobs sc)) (sc_next_id sc) (sc_tube_order sc).
Lemma recovered_perm jobs : recovered jobs ≡ₚ job_of ∘ snd <$> map_to_list jobs.
Proof. unfold recovered. rewrite sort_by_key_perm. by rewrite <-list_fmap_compose. Qed.
Section jobs.
Context (ls : list Located) (Hfits : Forall fits (loc_rec <$> ls)).
Let s := replayed ReplayState_default ls.
Lemma replayed_id id j : rs_jobs s !! id = Some j → rj_id (job_of j) = id.
Proof. by intros [? _]%replayed_put. Qed.
Lemma fits_id r : fits r → (rec_id r < 2 ^ 62)%N.
Proof.
  intros [Hok _]. unfold rec_ok in Hok. assert (id_ok (rec_id r)) as H by (destruct r; [apply Hok..|done]). unfold id_ok, MAX_RECORD_ID in H. lia.
Qed.
Lemma foldl_max_lt l (m n : N) : (m < n)%N → Forall (λ x, x < n)%N l → (foldl N.max m l < n)%N.
Proof. intros Hm Hl. revert m Hm. induction Hl as [|x l Hx _ IH]; intros m Hm; [done|]. cbn. apply IH. lia. Qed.
Lemma replayed_next r : r ∈ loc_rec <$> ls → (rec_id r < N.max (sat_add64 (rs_max_id s) 1) 1)%N.
Proof using Hfits.
  intros Hr. rewrite Forall_forall in Hfits. assert (rs_max_id s < 2 ^ 62 ∧ rec_id r ≤ rs_max_id s)%N as [Hm Hle].
  { unfold s. rewrite replayed_max by apply tl_ok_default. destruct (foldl_max_spec 0 (rec_id ∘ loc_rec <$> ls) (2 ^ 62)) as (Hlt & _ & Hge). split.
    - apply Hlt; [|done]. intros x (l & -> & Hl)%list_elem_of_fmap. apply fits_id, Hfits, list_elem_of_fmap_2, Hl.
    - apply Hge. rewrite list_fmap_compose. by apply list_elem_of_fmap_2. }
  unfold sat_add64, u64_max. lia.
Qed.
Lemma replayed_recovery : recovery_ok (mkRecovery (recovered (rs_jobs s)) (N.max (sat_add64 (rs_max_id s) 1) 1) (tl_order (rs_tubes s))).
Proof using Hfits.
  constructor; cbn [rec_jobs rec_next_id].
  - rewrite recovered_perm, <-list_fmap_compose. replace (rj_id ∘ (job_of ∘ snd) <$> map_to_list (rs_jobs s)) with (map_to_list (rs_jobs s)).*1;
      [apply NoDup_fst_map_to_list|]. apply list_fmap_ext. intros i [id j] Hj%list_elem_of_lookup_2%elem_of_map_to_list. cbn. symmetry. by apply replayed_id.
  - intros rj. rewrite recovered_perm, list_elem_of_fmap. intros ([id j] & -> & Hj%elem_of_map_to_list). cbn. rewrite (replayed_id id j Hj).
    destruct (replayed_put _ _ _ Hj) as (_ & record & Hid & Hin & _). rewrite Forall_fmap, Forall_forall in Hfits.
    specialize (Hfits _ Hin). apply fits_id in Hfits. cbn in Hfits. by rewrite Hid in Hfits.
  - assert (rs_max_id s < 2 ^ 62)%N as Hm; [|unfold sat_add64, u64_max; lia]. unfold s. rewrite replayed_max by apply tl_ok_default.
    apply foldl_max_lt; [done|]. rewrite list_fmap_compose. apply Forall_fmap. eapply Forall_impl; [exact Hfits|]. apply fits_id.
Qed.
Lemma replayed_recovers : ∀ id rj, (job_of <$> rs_jobs s) !! id = Some rj ↔ rj ∈ recovered (rs_jobs s) ∧ rj_id rj = id.
Proof.
  intros id rj. rewrite lookup_fmap, fmap_Some, recovered_perm, list_elem_of_fmap. split.
  - intros (j & Hj & ->). split; [|by apply replayed_id]. exists (id, j). split; [done|]. by apply elem_of_map_to_list.
  - intros (([id' j] & -> & Hj%elem_of_map_to_list) & Hid). exists j. cbn in Hid. by rewrite (replayed_id _ _ Hj) in Hid; subst.
Qed.
End jobs.

Lemma segment_size_ge file_size n : segment_size file_size = Some n → 4096 ≤ n.
Proof.
  unfold segment_size, BLOCK. cbv zeta. destruct (_ <? _)%N; [done|]. destruct (_ <=? _)%N; [|done]. intros [= <-].
  assert (1 ≤ (N.max file_size 1 + (4096 - 1)) / 4096)%N by (apply N.div_le_lower_bound; lia). lia.
Qed.
(** A directory the log can be opened on. *)
Definition openable (file_size : N) d : Prop :=
  is_Some (segment_size file_size) ∧ ∀ i, is_Some (d !! i) → (i ≤ MAX_SEGMENT_INDEX)%N.
Lemma open_spec file_size policy limit wd L :
  replays (d_files wd) L → openable file_size (d_files wd) →
  let '(r, st) := open record_crc false file_size policy limit wd in
  (∃ new, d_log st.2 = new ++ d_log wd ∧ Forall (λ x, replays x.2 L) new) ∧
  match r with
  | inl rec => log_ok L st ∧ recovery_ok rec ∧ recovers_all rec L
  | inr e => e = WalError.Io
  end.
Proof using Hcrc.
  intros (sc & Hsc & HL) [[n Hn] Hmax]. unfold open. rewrite Hn, Hsc.
  destruct (views_exist record_crc Hcrc (disk_files (d_files wd))) as (vs & Hok & Hf). rewrite <-Hf, (scan_views record_crc Hcrc) in Hsc by done.
  destruct (accepts record_crc None vs) as [torn|] eqn:Ha; [|done]. injection Hsc as <-.
  assert ((MAX_SEGMENT_INDEX <? sc_max_index (scan_of record_crc torn vs))%N = false) as ->.
  { apply N.ltb_ge. cbn [scan_of sc_max_index]. rewrite list_fmap_compose, Hf. destruct (last _) as [i|] eqn:Hl; cbn; [|lia].
    apply Hmax. apply last_Some_elem_of, list_elem_of_fmap in Hl as ([i' f] & -> & Hin%elem_of_disk_files). by eexists. }
  pose proof (open_body_spec record_crc Hcrc policy n limit torn vs (Inner_blank policy n limit) wd Hok Ha (eq_sym Hf) (segment_size_ge _ _ Hn)) as [Hlog Hr].
  rewrite scan_live in HL. subst L. destruct (open_body _ _ _ _ _) as [[rec|e] st]; cbn [fst snd] in *; (split; [done|]); [|done].
  destruct Hr as (-> & HG). split; [exact HG|]. assert (Forall fits (loc_rec <$> (vs ≫= v_located record_crc))) as Hfits by (by apply views_fit).
  split; [by apply replayed_recovery|]. rewrite <-(scan_live record_crc torn). exact (replayed_recovers (vs ≫= v_located record_crc)).
Qed.
End log.
