(* ===== verification/Start.v ===== *)
(** * Reachable states

    An engine starts new, from a replayed log ([recover]) or from a snapshot
    ([import_state]) that was accepted; each start satisfies the invariant, so
    every state reached from one does. *)

From S2P Require Import Prelude Ms Proto Model Engine Inv ConnOps Validate Snapshot Valid ValidInv Reach.
From S2P Require Import Recover.
From stdpp Require Import options.

(** The fields of a snapshot have their types: [cur_conns] is a u32. *)
Definition state_typed (s : EngineState) : Prop := (cur_conns (s_cc s) < 2 ^ 32)%N.
Inductive starts : Engine → Prop :=
  | starts_new now cfg sys : starts (Engine_new now cfg sys)
  | starts_recovered now cfg sys rec : recovery_ok rec → starts (recover now cfg sys rec)
  | starts_imported s sys e : state_typed s → import_state s sys = Some e → starts e.

Lemma import_cases s sys e : import_state s sys = Some e →
  validate e = Some () ∧ e_cc e = s_cc s ∧ e_sys e = sys ∧ e_journal e = [] ∧ e_local_conns e = None.
Proof.
  unfold import_state. intros (jobs & _ & (ids & _ & (conns & _ & H)%bind_Some)%bind_Some)%bind_Some.
  cbv zeta in H. apply bind_Some in H as ([] & Hv & [= <-]). done.
Qed.
Lemma wf_valid e : (cur_conns (e_cc e) < 2 ^ 32)%N → validate e = Some () → wf_after 0 e.
Proof.
  intros Hc Hv. exists (valid_budget e). split; [by apply validate_sound|]. cbn.
  unfold MAX_NEXT_JOB_ID, MAX_LIST_SEQ. lia.
Qed.
Lemma wf_start e : starts e → wf_after 0 e.
Proof.
  destruct 1 as [now cfg sys|now cfg sys rec Hok|s sys e Ht Hi]; [apply wf_initial|by apply recover_wf|].
  apply import_cases in Hi as (Hv & Hcc & _). apply wf_valid; [by rewrite Hcc|done].
Qed.

(** States reached from a start by at most 2^61 inputs. *)
Definition reachable (e : Engine) : Prop :=
  ∃ e0 inputs, starts e0 ∧ (N.of_nat (length inputs) ≤ run_limit)%N ∧
    legal_run inputs (e0, []) = true ∧ e = (run inputs (e0, [])).1.
(** Such a state has room for one more input. *)
Lemma reachable_inv e : reachable e → ∃ b, Inv b e ∧ budget_ok (grow b).
Proof.
  intros (e0 & inputs & Hs & Hlen & Hl & ->).
  destruct (wf_after_run inputs 0 _ [] (wf_start _ Hs) ltac:(lia) Hl) as (b & HI & Hids & Hseq).
  exists b. split; [done|]. by eapply wf_after_grow.
Qed.
Lemma reachable_step e now i out :
  reachable e → legal now i e = true → wf (apply_input now i (e, out)).1.
Proof.
  intros (e0 & inputs & Hs & Hlen & Hl & ->) Hi.
  pose proof (wf_after_run inputs 0 _ [] (wf_start _ Hs) ltac:(lia) Hl) as Hwf.
  destruct (wf_after_step _ _ _ _ out Hwf ltac:(lia) Hi) as (b & HI & _). by exists b.
Qed.
