(* ===== verification/Serve.v ===== *)
(** * The dispatcher, abstractly

    [serves] specifies [process_queue] on the job table and the sessions
    alone, with no queues and no indexes: while some ready job of an open
    tube has a connection waiting for it, the job of the smallest priority,
    then id, is reserved by a connection that waits for its tube.
    [process_queue_serves] is the refinement theorem. *)

From S2P Require Import Prelude Ms Proto Stats Model Engine Frames Inv InvFrame InvRefresh Queues Moves Tubes.
From S2P Require Import Waiting Rest Dispatch.
From stdpp Require Import options.

Abbreviation Rels := (gmap ConnId RelInfo).

(** ** Specification *)
Definition waiting_for (R : Rels) (tid : TubeId) (cid : ConnId) : Prop :=
  ∃ r, R !! cid = Some r ∧ r.2 = true ∧ tid ∈ ms_items r.1.1.2.
Definition eligible (open : TubeId → Prop) (A : Jobs) (R : Rels) (id : JobId) (j : JobRec) : Prop :=
  A !! id = Some j ∧ j_state j = JobState.Ready ∧ open (j_tube j) ∧ ∃ cid, waiting_for R (j_tube j) cid.
(** A connection that was answered no longer waits. *)
Definition answered (cid : ConnId) (R : Rels) : Rels := alter (λ r, (r.1.1, None, false)) cid R.

Inductive serves (now : Nanos) (open : TubeId → Prop) : Jobs → Rels → Outbox → Jobs → Rels → Prop :=
  | serves_done A R : (∀ id j, ¬ eligible open A R id j) → serves now open A R [] A R
  | serves_next A R id j cid seq l A' R' :
      eligible open A R id j →
      (∀ id' j', eligible open A R id' j' → (j_pri j, id) ≼ (j_pri j', id')) →
      waiting_for R (j_tube j) cid →
      serves now open (<[id := reserved_as cid (sat_add64 now (secs (j_ttr j))) seq j]> A) (answered cid R) l A' R' →
      serves now open A R ((cid, Response.Reserved id (j_body j)) :: l) A' R'.

(** The tubes whose pause, if any, has passed. *)
Definition unpaused (now : Nanos) (e : Engine) (tid : TubeId) : Prop :=
  ∀ at_, (at_, tid) ∈ e_pauses e → (at_ ≤ now)%N.
Definition delivered (l : option LocalConns) (out : Outbox) : Outbox :=
  filter (λ m, match l with None => true | Some l => owns l m.1 end = true) out.

(** ** Facts about the specification *)
Lemma serves_mono now open A R l A' R' :
  serves now open A R l A' R' → dispatched now R A A' ∧ calmer R R'.
Proof.
  induction 1 as [A R Hno|A R id j cid seq l A' R' Hel Hmin Hw _ [IHd IHc]];
    [by split; [apply dispatched_refl|apply calmer_refl]|].
  assert (calmer R (answered cid R)) as Hc.
  { intros i. unfold answered. rewrite lookup_alter. case_decide; [subst i|]; destruct (R !! _); simpl; naive_solver. }
  destruct Hel as (Hj & Hs & _). destruct Hw as (r & Hr & Hw & _).
  split; [|by eapply calmer_trans]. eapply dispatched_trans; [|exact Hc|exact IHd].
  apply dispatched_step; [done|done|]. by exists r.
Qed.

Lemma serves_open now open open' A R l A' R' :
  (∀ tid, open tid ↔ open' tid) → serves now open A R l A' R' → serves now open' A R l A' R'.
Proof.
  intros Ho. assert (∀ A R i j, eligible open A R i j ↔ eligible open' A R i j) as He.
  { intros. unfold eligible. by rewrite Ho. }
  induction 1 as [A R Hno|A R id j cid seq l A' R' Hel Hmin Hw _ IH].
  - constructor. intros i j Hi%He. by eapply Hno.
  - eapply serves_next; [by apply He| |done|done]. intros i' j' Hi%He. eauto.
Qed.

(** ** Refinement *)
Lemma clear_loop_pauses fuel now e :
  size (e_pauses e) ≤ fuel →
  e_pauses (clear_pauses_loop fuel now e) = filter (λ p, (now < p.1)%N) (e_pauses e).
Proof.
  intros Hf. apply set_eq. intros [at_ tid]. rewrite elem_of_filter. cbn [fst]. split.
  - intros Hin. split; [by eapply clear_loop_done|]. revert Hin. clear Hf. revert e.
    induction fuel as [|fuel IH]; intros e; simpl; [done|]. repeat case_match; try done.
    intros Hin%IH. eng. set_solver.
  - intros [Hlt Hin]. clear Hf. revert e Hin. induction fuel as [|fuel IH]; intros e Hin; simpl; [done|].
    destruct (bt_first (e_pauses e)) as [[a i]|]; [|done]. destruct (N.ltb_spec now a); [done|].
    apply IH. eng. apply elem_of_difference. split; [done|]. intros [= -> ->]%elem_of_singleton. lia.
Qed.

Lemma waiting_for_rels e tid cid : waiting_for (rels e) tid cid ↔ (cid, tid) ∈ rel waits (e_conns e).
Proof.
  unfold waiting_for, rels. rewrite elem_of_rel. setoid_rewrite lookup_fmap_Some. unfold waits. split.
  - intros (r & (c & <- & Hc) & Hw & Hin). simpl in *. exists c. by rewrite Hw.
  - intros (c & Hc & Hin). destruct (c_waiting c) eqn:E; [|set_solver]. eexists; split; [by exists c|]. done.
Qed.

Section refines.
Context (b : Budget) (h : bool) (e : Engine) (HR : Rest b h e).

Lemma pause_iff tid t :
  slot (e_tubes e) tid = Some t → t_pause t = 0%N ↔ ∀ at_, (at_, tid) ∉ e_pauses e.
Proof using HR.
  intros Ht. pose proof (λ k, co_pauses _ _ HR k tid) as Hp. rewrite Ht in Hp. simpl in Hp. unfold pause_key in Hp.
  destruct (N.ltb_spec 0 (t_pause t)) as [Hlt|Hle]; split; intros Hx; try lia.
  - exfalso. eapply Hx. by apply Hp.
  - intros k Hk%Hp. done.
Qed.
Lemma candidate_eligible p i tid :
  candidate e (bt_iter (e_dispatchable e)) (p, i) tid ↔
  ∃ j, eligible (λ tid, ∀ at_, (at_, tid) ∉ e_pauses e) (e_jobs e) (rels e) i j ∧ j_pri j = p ∧ j_tube j = tid.
Proof using HR.
  rewrite (candidate_iff _ _ _ HR). unfold eligible. setoid_rewrite waiting_for_rels. split.
  - intros (t & Ht & Hw & Hp & Hx). pose proof (co_waiting _ _ HR _ _ Ht) as [_ Hwait].
    apply (co_ready _ _ HR _ _ Ht) in Hx as (j & Hj & Hs & <- & <-). exists j. split_and!; try done.
    + by apply (pause_iff (j_tube j) t).
    + destruct (ms_items (t_waiting_conns t)) as [|cid l] eqn:E; [done|]. exists cid. apply Hwait. left.
  - intros (j & (Hj & Hs & Hp & cid & Hw) & <- & <-). pose proof (co_jobs _ _ HR _ _ Hj) as (_ & _ & _ & [t Ht]).
    exists t. split_and!; [done| |by apply (pause_iff (j_tube j) t)|].
    + apply (co_waiting _ _ HR _ _ Ht) in Hw. by destruct (ms_items _); [apply elem_of_nil in Hw|].
    + apply (co_ready _ _ HR _ _ Ht). by exists j.
Qed.
End refines.

Lemma delivered_app l o1 o2 : delivered l (o1 ++ o2) = delivered l o1 ++ delivered l o2.
Proof. apply filter_app. Qed.
Lemma reply_with_snd cid f e out :
  (reply_with cid f (e, out)).2 = out ++ delivered (e_local_conns e) [(cid, f e)].
Proof.
  unfold reply_with, wants_reply, delivered. rewrite filter_cons, filter_nil. cbn [fst].
  repeat case_match; cbn [snd]; rewrite ?app_nil_r; congruence.
Qed.
Lemma reply_snd cid r e out : (reply cid r (e, out)).2 = out ++ delivered (e_local_conns e) [(cid, r)].
Proof. exact (reply_with_snd cid (λ _, r) e out). Qed.

Definition open_tubes (e : Engine) (tid : TubeId) : Prop := ∀ at_, (at_, tid) ∉ e_pauses e.

Lemma dispatch_serves b h now e out p id tid :
  Rest b h e → best_ready e = Some (p, id, tid) →
  let s := dispatch now id tid (e, out) in
  ∃ j cid seq, eligible (open_tubes e) (e_jobs e) (rels e) id j ∧
    (∀ id' j', eligible (open_tubes e) (e_jobs e) (rels e) id' j' → (j_pri j, id) ≼ (j_pri j', id')) ∧
    waiting_for (rels e) (j_tube j) cid ∧
    e_jobs s.1 = <[id := reserved_as cid (sat_add64 now (secs (j_ttr j))) seq j]> (e_jobs e) ∧
    rels s.1 = answered cid (rels e) ∧
    s.2 = out ++ delivered (e_local_conns e) [(cid, Response.Reserved id (j_body j))].
Proof.
  intros HR Eb. pose proof (un_dispatch e_local_conns now id tid (e, out)) as Hl.
  pose proof (best_ready_spec e) as Hb. rewrite Eb in Hb. destruct Hb as [Hc Hmin].
  apply (candidate_eligible _ _ _ HR) in Hc as (j & Hel & <- & <-).
  destruct (best_ready_chosen _ _ _ HR _ _ _ Eb) as (j' & t & cid & c & Hch).
  destruct (dispatch_chosen _ _ _ HR now out _ _ _ _ _ _ _ Hch) as (Hd & _ & _ & Hjobs & Hrels).
  destruct Hch as [Hj' _ _ _ _ _ _ Hcc Hcw Hcwatch]. pose proof (proj1 Hel) as Hj.
  rewrite Hj in Hj'. injection Hj' as <-. rewrite Hd in Hl |- *. clear Hd. cbv zeta.
  set (e3 := do_remove_waiting_conn _ _) in *. clearbody e3. rewrite reply_with_fst in Hl |- *.
  cbn [fst] in Hl |- *. rewrite reply_with_snd, Hl.
  assert (e_jobs (do_reserve cid id now e3) =
          <[id := reserved_as cid (sat_add64 now (secs (j_ttr j))) (e_next_list_seq e3) j]> (e_jobs e)) as Hj4.
  { assert (e_jobs e3 !! id = Some j) as Hj3 by (by rewrite Hjobs).
    rewrite (do_reserve_eq _ _ _ Hj3), jobs_refresh_tick. eng. unfold enqueue. eng. by rewrite Hjobs. }
  exists j, cid, (e_next_list_seq e3). split_and!; [done| | |done| |].
  - intros i' j2 Hel'. apply (Hmin _ (j_tube j2)). apply (candidate_eligible _ _ _ HR). eauto.
  - apply waiting_for_rels, elem_of_rel. exists c. unfold waits. by rewrite Hcw.
  - rewrite rels_do_reserve, Hrels. unfold rels, answered. eng. apply map_eq. intros i.
    rewrite lookup_fmap, !lookup_alter, !lookup_fmap. case_decide; [subst i|done]. by destruct (e_conns e !! cid).
  - unfold reserved_reply. by rewrite Hj4, lookup_insert_eq.
Qed.

Lemma process_loop_serves fuel b h now e out :
  Rest b h e → (count (in_state JobState.Ready) (e_jobs e) < N.of_nat fuel)%N →
  let s := process_queue_loop fuel now (e, out) in
  ∃ l, serves now (open_tubes e) (e_jobs e) (rels e) l (e_jobs s.1) (rels s.1) ∧
       s.2 = out ++ delivered (e_local_conns e) l.
Proof.
  revert e out. induction fuel as [|fuel IH]; intros e out HR Hf; [lia|]. cbn [process_queue_loop fst].
  destruct (best_ready e) as [[[p id] tid]|] eqn:Eb.
  - destruct (Rest_dispatch b h now e out p id tid HR Eb) as (HR' & _ & _ & Hn).
    destruct (dispatch_serves b h now e out p id tid HR Eb) as (j & cid & seq & Hel & Hmin & Hw & Hj & Hr & Ho).
    pose proof (un_dispatch e_pauses now id tid (e, out)) as Hp.
    pose proof (un_dispatch e_local_conns now id tid (e, out)) as Hl.
    destruct (dispatch now id tid (e, out)) as [e1 out1]. cbn [fst snd] in *.
    destruct (IH e1 out1 HR') as (l & Hs & Hout); [lia|]. unfold open_tubes in *. rewrite Hj, Hr, Hp in Hs.
    exists ((cid, Response.Reserved id (j_body j)) :: l). split; [by eapply serves_next|].
    rewrite Hout, Ho, Hl, <-app_assoc. f_equal. change (?x :: l) with ([x] ++ l). by rewrite delivered_app.
  - exists []. split; [|by rewrite app_nil_r]. constructor. intros i j Hel.
    pose proof (best_ready_spec e) as Hb. rewrite Eb in Hb.
    apply (Hb (j_pri j, i) (j_tube j)). apply (candidate_eligible _ _ _ HR). eauto.
Qed.

(** [process_queue] refines the abstract dispatcher. *)
Lemma process_queue_serves b h now e out :
  Rest b h e →
  let s := process_queue now (e, out) in
  ∃ l, serves now (unpaused now e) (e_jobs e) (rels e) l (e_jobs s.1) (rels s.1) ∧
       s.2 = out ++ delivered (e_local_conns e) l.
Proof.
  intros HR. unfold process_queue, clear_expired_pauses.
  destruct (Rest_clear_loop (size (e_pauses e)) now b h e HR) as [h' HR'].
  destruct (clear_loop_same (size (e_pauses e)) now e) as (Hj & Hc & _).
  pose proof (clear_loop_pauses (size (e_pauses e)) now e (le_n _)) as Hp.
  assert (e_local_conns (clear_pauses_loop (size (e_pauses e)) now e) = e_local_conns e) as Hl
    by (by apply (un_clear_loop e_local_conns)).
  set (e1 := clear_pauses_loop _ _ _) in *.
  destruct (process_loop_serves (S (total_ready (e_tubes e1))) b h' now e1 out HR') as (l & Hs & Ho).
  { pose proof (total_ready_count _ _ HR') as Ht. cbn in Ht. lia. }
  exists l. rewrite Hl in Ho. split; [|done]. unfold rels in *. rewrite Hc, Hj in Hs.
  eapply serves_open; [|exact Hs]. intros tid. unfold open_tubes. rewrite Hp. unfold unpaused. setoid_rewrite elem_of_filter. cbn [fst].
  split; intros Hx at_ Hin; [|destruct Hin as [Hlt Hin]; specialize (Hx _ Hin); lia].
  destruct (N.le_gt_cases at_ now) as [|Hlt]; [done|]. by destruct (Hx at_).
Qed.
