(* ===== verification/Effects.v ===== *)
(** * What each command does

    The effect of every command on the job table, the sessions and the
    replies, with dispatch given by its specification [serves].  No queue,
    index or counter appears in these statements. *)

From S2P Require Import Prelude Ms Proto Stats Model Engine Frames Inv InvFrame InvRefresh Queues Moves Tubes.
From S2P Require Import Waiting Rest Dispatch ConnOps Commands Sessions Connect Serve.
From stdpp Require Import options.

(** What of the engine the effects speak about. *)
Record View := mkView { v_jobs : Jobs; v_rels : Rels; v_pauses : gset (Nanos * TubeId); v_local : option LocalConns }.
Definition view (e : Engine) : View := mkView (e_jobs e) (rels e) (e_pauses e) (e_local_conns e).
Lemma view_eq e e' :
  e_jobs e' = e_jobs e → rels e' = rels e → e_pauses e' = e_pauses e → e_local_conns e' = e_local_conns e →
  view e' = view e.
Proof. unfold view. by intros -> -> -> ->. Qed.

(** A command that answers [r] and leaves the jobs and sessions alone. *)
Definition answers (e : Engine) (out : Outbox) (cid : ConnId) (r : Response) (s : St) : Prop :=
  view s.1 = view e ∧ s.2 = out ++ delivered (e_local_conns e) [(cid, r)].
(** A command that turns the jobs into [A] and the sessions into [R],
    dispatches and answers [r]. *)
Definition then_serves (now : Nanos) (e : Engine) (A : Jobs) (R : Rels) (out : Outbox)
    (replies : Outbox) (s : St) : Prop :=
  ∃ l, serves now (unpaused now e) A R l (e_jobs s.1) (rels s.1) ∧
       s.2 = out ++ delivered (e_local_conns e) (l ++ replies).

Lemma view_bump p `{!Setter p} e : view (bump_cmd p e) = view e.
Proof. done. Qed.
Lemma view_worker cid e : view (connsetworker cid e) = view e.
Proof. apply view_eq; [apply jobs_connsetworker|apply rels_connsetworker| |]; unfold connsetworker; by repeat case_match. Qed.
Lemma view_producer cid e : view (connsetproducer cid e) = view e.
Proof. apply view_eq; [apply jobs_connsetproducer|apply rels_connsetproducer| |]; unfold connsetproducer; by repeat case_match. Qed.
Lemma view_journal_put id e : view (journal_put id e) = view e.
Proof. unfold journal_put. by repeat case_match. Qed.
Lemma view_journal_update id e : view (journal_update id e) = view e.
Proof. unfold journal_update. by repeat case_match. Qed.
Lemma view_journal_delete id e : view (journal_delete id e) = view e.
Proof. unfold journal_delete. by repeat case_match. Qed.
Lemma view_refresh_tick cid e : view (refresh_conn_tick cid e) = view e.
Proof.
  apply view_eq; [apply jobs_refresh_tick|apply rels_refresh_tick|apply (un_refresh_tick e_pauses)
    |apply (un_refresh_tick e_local_conns)].
Qed.
Lemma view_jobs e e' : view e' = view e → e_jobs e' = e_jobs e.
Proof. by intros [= -> _ _ _]. Qed.
Lemma view_rels e e' : view e' = view e → rels e' = rels e.
Proof. by intros [= _ -> _ _]. Qed.

(** The routines change the job table only. *)
Definition with_jobs (A : Jobs) (v : View) : View := mkView A (v_rels v) (v_pauses v) (v_local v).
Lemma view_insert_ready tid id e j :
  e_jobs e !! id = Some j → view (insert_ready tid id e) = with_jobs (<[id := readied j]> (e_jobs e)) (view e).
Proof.
  intros Hj. unfold view, with_jobs. rewrite rels_insert_ready, (un_insert_ready e_pauses), (un_insert_ready e_local_conns).
  f_equal. unfold insert_ready. rewrite Hj, jobs_refresh_disp. eng. case_match; eng; by apply alter_is_insert.
Qed.
Lemma view_insert_delayed tid id d e j :
  e_jobs e !! id = Some j →
  view (insert_delayed tid id d e) = with_jobs (<[id := delayed_until d j]> (e_jobs e)) (view e).
Proof.
  intros Hj. unfold view, with_jobs.
  rewrite rels_insert_delayed, (un_insert_delayed e_pauses), (un_insert_delayed e_local_conns).
  f_equal. unfold insert_delayed. rewrite jobs_refresh_delay. repeat case_match; eng; by apply alter_is_insert.
Qed.
Lemma view_insert_buried tid id e j :
  e_jobs e !! id = Some j →
  view (insert_buried tid id e) = with_jobs (<[id := buried_as (e_next_list_seq e) j]> (e_jobs e)) (view e).
Proof.
  intros Hj. unfold view, with_jobs.
  rewrite rels_insert_buried, (un_insert_buried e_pauses), (un_insert_buried e_local_conns).
  f_equal. unfold insert_buried. eng. by apply alter_is_insert.
Qed.
Lemma view_do_reserve cid id now e j :
  e_jobs e !! id = Some j →
  view (do_reserve cid id now e) =
    with_jobs (<[id := reserved_as cid (sat_add64 now (secs (j_ttr j))) (e_next_list_seq e) j]> (e_jobs e)) (view e).
Proof.
  intros Hj. unfold view, with_jobs.
  rewrite rels_do_reserve, (un_do_reserve e_pauses), (un_do_reserve e_local_conns).
  f_equal. unfold do_reserve. rewrite Hj, jobs_refresh_tick. eng. by apply alter_is_insert.
Qed.
Lemma view_do_unreserve cid id e j :
  e_jobs e !! id = Some j →
  view (do_unreserve cid id e) = with_jobs (<[id := j <| j_reserver := None |>]> (e_jobs e)) (view e).
Proof.
  intros Hj. unfold view, with_jobs.
  rewrite rels_do_unreserve, (un_do_unreserve e_pauses), (un_do_unreserve e_local_conns), jobs_do_unreserve.
  f_equal. by apply alter_is_insert.
Qed.
Lemma view_upd_job id f e j :
  e_jobs e !! id = Some j → view (upd_job id f e) = with_jobs (<[id := f j]> (e_jobs e)) (view e).
Proof. intros Hj. unfold view, with_jobs. f_equal. eng. by apply alter_is_insert. Qed.
Lemma view_remove_ready tid id e : view (remove_ready tid id e) = view e.
Proof. apply view_eq; [apply jobs_remove_ready|apply rels_remove_ready|apply (un_remove_ready e_pauses)|apply (un_remove_ready e_local_conns)]. Qed.
Lemma view_remove_delayed tid id e : view (remove_delayed tid id e) = view e.
Proof. apply view_eq; [apply jobs_remove_delayed|apply rels_remove_delayed|apply (un_remove_delayed e_pauses)|apply (un_remove_delayed e_local_conns)]. Qed.
Lemma view_remove_buried tid id e : view (remove_buried tid id e).2 = view e.
Proof. unfold remove_buried. by repeat case_match. Qed.
Lemma view_pop_buried tid e : view (pop_buried_front tid e).2 = view e.
Proof. unfold pop_buried_front. by repeat case_match. Qed.

Lemma with_jobs_twice A B v : with_jobs A (with_jobs B v) = with_jobs A v.
Proof. done. Qed.
Lemma jobs_of e A v : view e = with_jobs A v → e_jobs e = A.
Proof. by intros [= -> _ _ _]. Qed.

(** ** Dispatch at the end of a command *)
Lemma process_then b h now e e0 A out cid r :
  Rest b h e → view e = with_jobs A (view e0) →
  then_serves now e0 A (rels e0) out [(cid, r)] (reply cid r (process_queue now (e, out))).
Proof.
  intros HR [= Hj Hr Hp Hl]. destruct (process_queue_serves b h now e out HR) as (l & Hs & Ho).
  pose proof (un_process_queue e_local_conns (λ f e, eq_refl) now (e, out)) as Hl2.
  destruct (process_queue now (e, out)) as [e1 out1]. cbn [fst snd] in *. exists l.
  rewrite reply_fst, reply_snd. unfold unpaused in *. rewrite Hj, Hr, Hp in Hs. split; [done|].
  by rewrite Ho, Hl2, Hl, delivered_app, app_assoc.
Qed.
Lemma answers_reply e e' out cid r : view e' = view e → answers e out cid r (reply cid r (e', out)).
Proof.
  intros Hv. unfold answers. rewrite reply_fst, reply_snd. split; [done|]. injection Hv as _ _ _ ->. done.
Qed.
Lemma answers_reply_with e e' out cid r f :
  view e' = view e → f e' = r → answers e out cid r (reply_with cid f (e', out)).
Proof.
  intros Hv <-. unfold answers. rewrite reply_with_fst, reply_with_snd. split; [done|].
  injection Hv as _ _ _ ->. done.
Qed.

Lemma reserved_by_held e cid id j :
  e_jobs e !! id = Some j → j_state j = JobState.Reserved → j_reserver j = Some cid →
  reserved_by e cid id = Some (j_tube j).
Proof. intros Hj Hs Hr. unfold reserved_by. rewrite Hj, !bool_decide_eq_true_2 by done. done. Qed.
Lemma reserved_by_not e cid id : ¬ held_by (e_jobs e) cid id → reserved_by e cid id = None.
Proof.
  intros Hn. unfold reserved_by. destruct (e_jobs e !! id) as [j|] eqn:Hj; [|done].
  repeat case_bool_decide; try done. exfalso. apply Hn. by exists j.
Qed.

(** ** release *)
Definition released (now : Nanos) (pri delay : N) (j : JobRec) : JobRec :=
  let j := j <| j_reserver := None |> <| j_pri := pri |> <| j_delay := delay |> <| j_release_ct ::= incr32 |> in
  if (0 <? delay)%N then delayed_until (sat_add64 now (secs delay)) j else readied j.
Section release.
Context (b : Budget) (now : Nanos) (cid : ConnId) (id : JobId) (pri delay : N) (e : Engine) (out : Outbox).
Context (HI : Inv b e).

Lemma cmd_release_held j :
  e_jobs e !! id = Some j → j_state j = JobState.Reserved → j_reserver j = Some cid →
  then_serves now e (<[id := released now pri delay j]> (e_jobs e)) (rels e) out [(cid, Response.Released)]
    (cmd_release now cid id pri delay (e, out)).
Proof using HI.
  intros Hj Hs Hr. unfold cmd_release. set (e1 := bump_cmd n_cmd_release e).
  assert (Rest b false e1) as HR1 by (by apply Rest_bump). change (e_jobs e) with (e_jobs e1) in Hj.
  rewrite (reserved_by_held _ _ _ _ Hj Hs Hr).
  pose proof (Float_unreserve _ _ _ HR1 _ _ Hj _ Hs Hr) as HF.
  pose proof (view_do_unreserve cid _ _ _ Hj) as Hv2. pose proof (do_unreserve_lookup cid _ _ _ Hj) as Hj2.
  set (e2 := do_unreserve cid id e1) in *.
  set (f := λ j, j <| j_pri := pri |> <| j_delay := delay |> <| j_release_ct ::= incr32 |>).
  assert (Float b false id (upd_job id f e2)) as HF' by (by apply Float_upd_job).
  pose proof (view_upd_job _ f _ _ Hj2) as Hv3. pose proof (upd_job_lookup _ f _ _ Hj2) as Hj3.
  set (e3 := upd_job id f e2) in *. rewrite (jobs_of _ _ _ Hv2), insert_insert_eq, Hv2 in Hv3.
  unfold released. destruct (0 <? delay)%N; eapply process_then.
  - apply Rest_journal_update, Rest_hot with false. exact (Rest_insert_delayed _ _ _ _ HF' _ Hj3 _).
  - rewrite view_journal_update, (view_insert_delayed _ _ _ _ _ Hj3), (jobs_of _ _ _ Hv3), insert_insert_eq, Hv3. done.
  - exact (Rest_insert_ready _ _ _ _ HF' _ Hj3).
  - rewrite (view_insert_ready _ _ _ _ Hj3), (jobs_of _ _ _ Hv3), insert_insert_eq, Hv3. done.
Qed.
Lemma cmd_release_not_found :
  ¬ held_by (e_jobs e) cid id → answers e out cid Response.NotFound (cmd_release now cid id pri delay (e, out)).
Proof using.
  intros Hn. unfold cmd_release. rewrite reserved_by_not by done. by apply answers_reply.
Qed.
End release.

(** ** bury, touch *)
Lemma seq_do_unreserve cid id e : e_next_list_seq (do_unreserve cid id e) = e_next_list_seq e.
Proof. unfold do_unreserve. repeat case_match; by rewrite seq_refresh_tick. Qed.
(** A command that changes the job table and answers [r], with no dispatch. *)
Definition changes (e : Engine) (A : Jobs) (out : Outbox) (cid : ConnId) (r : Response) (s : St) : Prop :=
  e_jobs s.1 = A ∧ rels s.1 = rels e ∧ s.2 = out ++ delivered (e_local_conns e) [(cid, r)].
Lemma changes_reply e e' A out cid r :
  view e' = with_jobs A (view e) → changes e A out cid r (reply cid r (e', out)).
Proof.
  intros Hv. unfold changes. rewrite reply_fst, reply_snd. injection Hv as Hj Hr _ ->. done.
Qed.

Section bury_touch.
Context (now : Nanos) (cid : ConnId) (id : JobId) (pri : N) (e : Engine) (out : Outbox) (j : JobRec).

Lemma cmd_bury_held :
  e_jobs e !! id = Some j → j_state j = JobState.Reserved → j_reserver j = Some cid →
  changes e (<[id := buried_as (e_next_list_seq e) (j <| j_reserver := None |> <| j_pri := pri |>)]> (e_jobs e))
    out cid Response.Buried (cmd_bury cid id pri (e, out)).
Proof using.
  intros Hj Hs Hr. unfold cmd_bury. set (e1 := bump_cmd n_cmd_bury e). change (e_jobs e) with (e_jobs e1) in Hj.
  rewrite (reserved_by_held _ _ _ _ Hj Hs Hr).
  pose proof (view_do_unreserve cid _ _ _ Hj) as Hv2. pose proof (do_unreserve_lookup cid _ _ _ Hj) as Hj2.
  pose proof (seq_do_unreserve cid id e1) as Hq.
  set (e2 := do_unreserve cid id e1) in *. set (f := λ j, j <| j_pri := pri |>).
  pose proof (view_upd_job _ f _ _ Hj2) as Hv3. pose proof (upd_job_lookup _ f _ _ Hj2) as Hj3.
  rewrite (jobs_of _ _ _ Hv2), insert_insert_eq, Hv2 in Hv3.
  pose proof (view_insert_buried (j_tube j) _ _ _ Hj3) as Hv4.
  rewrite (jobs_of _ _ _ Hv3), insert_insert_eq, Hv3 in Hv4.
  apply changes_reply. rewrite view_journal_update, Hv4. unfold upd_job. eng. by rewrite Hq.
Qed.
Lemma cmd_touch_held :
  e_jobs e !! id = Some j → j_state j = JobState.Reserved → j_reserver j = Some cid →
  changes e (<[id := j <| j_deadline_at := sat_add64 now (secs (j_ttr j)) |>]> (e_jobs e))
    out cid Response.Touched (cmd_touch now cid id (e, out)).
Proof using.
  intros Hj Hs Hr. unfold cmd_touch. set (e1 := bump_cmd n_cmd_touch e). change (e_jobs e) with (e_jobs e1) in Hj.
  rewrite (reserved_by_held _ _ _ _ Hj Hs Hr), Hj. apply changes_reply. rewrite view_refresh_tick.
  set (e2 := upd_job id _ e1). pose proof (view_upd_job id (touched (sat_add64 now (secs (j_ttr j)))) e1 j Hj) as Hv.
  change (upd_job id (touched _) e1) with e2 in Hv. etrans; [|exact Hv].
  apply view_eq; [done| |done|done]. by apply rels_upd_conn.
Qed.
End bury_touch.
Section bury_touch_error.
Context (now : Nanos) (cid : ConnId) (id : JobId) (pri : N) (e : Engine) (out : Outbox).
Context (Hn : ¬ held_by (e_jobs e) cid id).
Lemma cmd_bury_not_found : answers e out cid Response.NotFound (cmd_bury cid id pri (e, out)).
Proof using Hn. unfold cmd_bury. rewrite reserved_by_not by done. by apply answers_reply. Qed.
Lemma cmd_touch_not_found : answers e out cid Response.NotFound (cmd_touch now cid id (e, out)).
Proof using Hn. unfold cmd_touch. rewrite reserved_by_not by done. by apply answers_reply. Qed.
End bury_touch_error.

(** ** delete *)
Lemma rels_gc tid e : rels (gc_tube_if_orphan tid e) = rels e.
Proof. unfold rels. by rewrite conns_gc. Qed.
Lemma local_gc tid e : e_local_conns (gc_tube_if_orphan tid e) = e_local_conns e.
Proof. unfold gc_tube_if_orphan. by repeat case_match. Qed.
Lemma delete_alter {V} (f : V → V) (k : N) (m : gmap N V) : delete k (alter f k m) = delete k m.
Proof.
  apply map_eq. intros i. destruct (decide (i = k)) as [->|]; [by rewrite !lookup_delete_eq|].
  by rewrite !lookup_delete_ne, lookup_alter_ne.
Qed.
(** Anyone may delete a job that is not reserved; a reserved one only its holder. *)
Definition deletable (cid : ConnId) (j : JobRec) : bool :=
  negb (bool_decide (j_state j = JobState.Reserved)) || bool_decide (j_reserver j = Some cid).
Section delete.
Context (cid : ConnId) (id : JobId) (e : Engine) (out : Outbox).
Lemma drop_changes tid f e1 :
  e_jobs e1 = alter f id (e_jobs e) → rels e1 = rels e → e_local_conns e1 = e_local_conns e →
  changes e (delete id (e_jobs e)) out cid Response.Deleted
    (reply cid Response.Deleted (gc_tube_if_orphan tid (journal_delete id
       ((upd_tube tid drop_ref e1) <| e_jobs ::= delete id |>)), out)).
Proof using.
  intros Hj Hr Hl. unfold changes. rewrite reply_fst, reply_snd. cbn [fst].
  rewrite jobs_gc, rels_gc, local_gc. set (e2 := _ <| e_jobs ::= _ |>).
  pose proof (view_journal_delete id e2) as [= -> -> _ ->]. unfold e2. eng. rewrite Hl. split; [|done].
  by rewrite Hj, delete_alter.
Qed.
Lemma cmd_delete_done j :
  e_jobs e !! id = Some j → deletable cid j = true →
  changes e (delete id (e_jobs e)) out cid Response.Deleted (cmd_delete cid id (e, out)).
Proof using.
  intros Hj Hd. unfold cmd_delete. set (e1 := bump_cmd n_cmd_delete e). change (e_jobs e) with (e_jobs e1) in Hj.
  rewrite Hj. assert (∀ e2, view e2 = view e → changes e (delete id (e_jobs e)) out cid Response.Deleted
    (reply cid Response.Deleted (gc_tube_if_orphan (j_tube j) (journal_delete id
            ((upd_tube (j_tube j) drop_ref e2) <| e_jobs ::= delete id |>)), out))) as Hq.
  { intros e2 [= Hj2 Hr2 Hp2 Hl2]. apply (drop_changes _ (λ j, j)); try done. by rewrite alter_id. }
  unfold deletable in Hd. destruct (j_state j) eqn:Hs.
  - apply Hq, (view_remove_ready _ _ e1).
  - change (bool_decide (j_reserver j = Some cid) = true) in Hd. rewrite Hd. apply (drop_changes _ (λ j, j <| j_reserver := None |>)).
    + by rewrite jobs_do_unreserve.
    + by rewrite rels_do_unreserve.
    + exact (un_do_unreserve e_local_conns cid id e1).
  - apply Hq, (view_remove_delayed _ _ e1).
  - pose proof (view_remove_buried (j_tube j) id e1) as Hv. destruct (remove_buried _ _ _). by apply Hq.
Qed.
Lemma cmd_delete_not_found :
  (∀ j, e_jobs e !! id = Some j → deletable cid j = false) →
  answers e out cid Response.NotFound (cmd_delete cid id (e, out)).
Proof using.
  intros Hn. unfold cmd_delete. set (e1 := bump_cmd n_cmd_delete e). change (e_jobs e) with (e_jobs e1) in Hn.
  destruct (e_jobs e1 !! id) as [j|] eqn:Hj; [|by apply answers_reply]. specialize (Hn _ eq_refl).
  unfold deletable in Hn. destruct (j_state j); try done.
  change (bool_decide (j_reserver j = Some cid) = false) in Hn. rewrite Hn. by apply answers_reply.
Qed.
End delete.

(** ** reserve-job, kick-job *)
Section by_id.
Context (b : Budget) (now : Nanos) (cid : ConnId) (id : JobId) (e : Engine) (out : Outbox) (j : JobRec).
Context (Hj : e_jobs e !! id = Some j).

Lemma cmd_reserve_job_done :
  j_state j ≠ JobState.Reserved →
  changes e (<[id := reserved_as cid (sat_add64 now (secs (j_ttr j))) (e_next_list_seq e) j]> (e_jobs e))
    out cid (Response.Reserved id (j_body j)) (cmd_reserve_job now cid id (e, out)).
Proof using Hj.
  intros Hs. unfold cmd_reserve_job. rewrite Hj.
  assert (∀ e1, view e1 = view e → e_next_list_seq e1 = e_next_list_seq e →
    changes e (<[id := reserved_as cid (sat_add64 now (secs (j_ttr j))) (e_next_list_seq e) j]> (e_jobs e))
      out cid (Response.Reserved id (j_body j))
      (reply_with cid (reserved_reply id) (do_reserve cid id now (connsetworker cid e1), out))) as Hq.
  { intros e1 Hv Hseq. set (e2 := connsetworker cid e1).
    assert (view e2 = view e) as Hv2 by (unfold e2; by rewrite view_worker).
    assert (e_next_list_seq e2 = e_next_list_seq e) as Hs2
      by (unfold e2, connsetworker; by repeat case_match).
    assert (e_jobs e2 !! id = Some j) as Hj2 by (by rewrite (view_jobs _ _ Hv2)).
    pose proof (view_do_reserve cid _ now _ _ Hj2) as Hv3. rewrite (view_jobs _ _ Hv2), Hv2, Hs2 in Hv3.
    unfold changes. rewrite reply_with_fst, reply_with_snd. injection Hv3 as H1 H2 _ H4. cbn [fst].
    split_and!; [done|done|]. rewrite H4. unfold reserved_reply. by rewrite H1, lookup_insert_eq. }
  destruct (j_state j) eqn:Es; [| done | |].
  - apply Hq; [apply view_remove_ready|]. unfold remove_ready. rewrite seq_refresh_disp. by case_match.
  - apply Hq; [apply view_remove_delayed|]. unfold remove_delayed, refresh_delay_head. by repeat case_match.
  - apply Hq; [apply view_remove_buried|]. unfold remove_buried. by repeat case_match.
Qed.
Lemma cmd_reserve_job_reserved :
  j_state j = JobState.Reserved → answers e out cid Response.NotFound (cmd_reserve_job now cid id (e, out)).
Proof using Hj. intros Hs. unfold cmd_reserve_job. rewrite Hj, Hs. by apply answers_reply. Qed.

Definition kicked (j : JobRec) : JobRec := readied (j <| j_kick_ct ::= incr32 |>).
Lemma kick_to_ready_serves h e1 r :
  Float b h id e1 → view e1 = view e →
  then_serves now e (<[id := kicked j]> (e_jobs e)) (rels e) out [(cid, r)]
    (reply cid r (kick_to_ready (j_tube j) id now (e1, out))).
Proof using Hj.
  intros HF Hv. unfold kick_to_ready. set (f := λ j, j <| j_kick_ct ::= incr32 |>).
  assert (Float b h id (upd_job id f e1)) as HF' by (by apply Float_upd_job).
  assert (e_jobs e1 !! id = Some j) as Hj1 by (by rewrite (view_jobs _ _ Hv)).
  pose proof (upd_job_lookup _ f _ _ Hj1) as Hj2. eapply process_then.
  - apply Rest_journal_update. exact (Rest_insert_ready _ _ _ _ HF' _ Hj2).
  - rewrite view_journal_update, (view_insert_ready _ _ _ _ Hj2), (view_upd_job _ f _ _ Hj1). unfold upd_job. eng.
    by rewrite (alter_is_insert _ _ _ _ Hj1), insert_insert_eq, with_jobs_twice, Hv, (view_jobs _ _ Hv).
Qed.
Lemma cmd_kick_job_done :
  Inv b e → j_state j = JobState.Buried ∨ j_state j = JobState.Delayed →
  then_serves now e (<[id := kicked j]> (e_jobs e)) (rels e) out [(cid, Response.KickedJob)]
    (cmd_kick_job now cid id (e, out)).
Proof using Hj.
  intros HR Hs. unfold cmd_kick_job. rewrite Hj. destruct Hs as [Hs|Hs]; rewrite Hs.
  - pose proof (view_remove_buried (j_tube j) id e) as Hv.
    rewrite (Rest_remove_buried_eq _ _ _ HR _ _ Hj Hs) in *.
    exact (kick_to_ready_serves _ _ _ (Float_dequeue_buried _ _ _ HR _ _ Hj Hs) Hv).
  - exact (kick_to_ready_serves _ _ _ (Float_remove_delayed _ _ _ HR _ _ Hj Hs) (view_remove_delayed _ _ _)).
Qed.
Lemma cmd_kick_job_other :
  j_state j = JobState.Ready ∨ j_state j = JobState.Reserved →
  answers e out cid Response.NotFound (cmd_kick_job now cid id (e, out)).
Proof using Hj. intros [Hs|Hs]; unfold cmd_kick_job; rewrite Hj, Hs; by apply answers_reply. Qed.
End by_id.

(** An id that is not in the job table. *)
Lemma cmd_reserve_job_unknown now cid id e out :
  e_jobs e !! id = None → answers e out cid Response.NotFound (cmd_reserve_job now cid id (e, out)).
Proof.
  intros Hj. unfold cmd_reserve_job. rewrite Hj. by apply answers_reply.
Qed.
Lemma cmd_kick_job_unknown now cid id e out :
  e_jobs e !! id = None → answers e out cid Response.NotFound (cmd_kick_job now cid id (e, out)).
Proof.
  intros Hj. unfold cmd_kick_job. rewrite Hj. by apply answers_reply.
Qed.

(** ** put *)
Lemma process_then_view b h now e e0 A out cid r (g : Engine → Engine) :
  Rest b h e → view e = with_jobs A (view e0) → (∀ e, view (g e) = view e) →
  let s := process_queue now (e, out) in
  then_serves now e0 A (rels e0) out [(cid, r)] (reply cid r (g s.1, s.2)).
Proof.
  intros HR Hv Hg. destruct (process_then _ _ now _ _ _ out cid r HR Hv) as (l & Hs & Ho). exists l.
  destruct (process_queue now (e, out)) as [e1 out1]. rewrite reply_fst, reply_snd in *. cbn [fst snd] in *.
  pose proof (Hg e1) as [= -> -> _ ->]. done.
Qed.

Lemma use_tube_rels e cid :
  use_tube_of e cid = match rels e !! cid with Some r => r.1.1.1 | None => DEFAULT_TUBE end.
Proof. unfold use_tube_of, rels. rewrite lookup_fmap. by destruct (e_conns e !! cid). Qed.

(** The puts the connections have begun: the dispatcher leaves them alone. *)
Definition pendings (e : Engine) : gmap ConnId (option PendingPut) := c_pending_put <$> e_conns e.
Lemma pendings_upd_conn cid f e : (∀ c, c_pending_put (f c) = c_pending_put c) → pendings (upd_conn cid f e) = pendings e.
Proof. intros Hf. apply fmap_alter_id. exact Hf. Qed.
Lemma pendings_conns e e' : e_conns e' = e_conns e → pendings e' = pendings e.
Proof. unfold pendings. by intros ->. Qed.
Lemma pendings_refresh_tick cid e : pendings (refresh_conn_tick cid e) = pendings e.
Proof. unfold refresh_conn_tick. repeat case_match; try done; (etrans; [by apply pendings_upd_conn|done]). Qed.
Lemma pendings_remove_waiting cid e : pendings (do_remove_waiting_conn cid e) = pendings e.
Proof.
  unfold do_remove_waiting_conn. repeat case_match; try done. rewrite pendings_refresh_tick.
  assert (∀ l e1, pendings (foldl (unwait_step cid) e1 l) = pendings e1) as Hl.
  { intros l. induction l as [|t l IH]; intros e1; [done|]. cbn [foldl]. rewrite IH. apply pendings_conns. unfold unwait_step. by rewrite conns_refresh_disp. }
  rewrite Hl. etrans; [apply pendings_conns; reflexivity|]. by apply pendings_upd_conn.
Qed.
Lemma pendings_do_reserve cid id now e : pendings (do_reserve cid id now e) = pendings e.
Proof. unfold do_reserve. case_match; [|done]. rewrite pendings_refresh_tick. unfold pendings. eng. by apply fmap_alter_id. Qed.
Lemma pendings_producer cid e : pendings (connsetproducer cid e) = pendings e.
Proof.
  unfold connsetproducer. destruct (e_conns e !! cid) as [x|]; [destruct (c_is_producer x)|]; try reflexivity.
  unfold pendings. eng. by apply fmap_alter_id.
Qed.
Lemma pendings_dispatch now id tid s : pendings (dispatch now id tid s).1 = pendings s.1.
Proof.
  destruct s as [e out]. unfold dispatch.
  assert (pendings (remove_ready tid id e) = pendings e) as Hr by (apply pendings_conns; unfold remove_ready; rewrite conns_refresh_disp; by repeat case_match).
  destruct (tube _ tid) as [t|]; [destruct (ms_take _).1|]; rewrite ?reply_with_fst; cbn [fst];
    rewrite ?pendings_do_reserve, ?pendings_remove_waiting, <-Hr; apply pendings_conns; by rewrite conns_refresh_disp.
Qed.
Lemma pendings_process_queue now s : pendings (process_queue now s).1 = pendings s.1.
Proof.
  destruct s as [e out]. unfold process_queue, clear_expired_pauses. cbn [fst].
  assert (∀ fuel e, pendings (clear_pauses_loop fuel now e) = pendings e) as Hc.
  { intros fuel. induction fuel as [|fuel IH]; intros e'; simpl; [done|]. repeat case_match; try done. by rewrite IH. }
  assert (∀ fuel s, pendings (process_queue_loop fuel now s).1 = pendings s.1) as Hl; [|by rewrite Hl, <-(Hc (size (e_pauses e)) e)].
  intros fuel. induction fuel as [|fuel IH]; intros s; [done|]. cbn [process_queue_loop].
  destruct (best_ready s.1) as [[[p id] tid]|]; [|done]. by rewrite IH, pendings_dispatch.
Qed.

(** The job a put makes. *)
Definition new_job (now : Nanos) (id : JobId) (created : Nanos) (tid : TubeId) (pri delay ttr : N) (body : Bytes) (file : N) : JobRec :=
  let j := mkJobRec id tid pri delay (N.max ttr 1) body created 0 JobState.Ready None 0 0 0 0 0 0 file in
  if (0 <? delay)%N then delayed_until (sat_add64 now (secs delay)) j else readied j.
Definition job_file (e : Engine) : N := if cfg_journal (e_cfg e) then bl_current_index (e_binlog e) else 0%N.
(** The id and the creation time of a put, and the next id after it: the id
    and the time its header reserved, or the next id and the present time. *)
Definition put_origin (now : Nanos) (e : Engine) (c : ConnState) : JobId * Nanos * JobId :=
  match c_pending_put c with
  | Some (mkPendingPut (Some id) created) => (id, created, e_next_job_id e)
  | _ => (e_next_job_id e, now, (e_next_job_id e + 1)%N)
  end.

Section put.
Context (b : Budget) (now : Nanos) (cid : ConnId) (pri delay ttr : N) (body : Bytes) (e : Engine) (out : Outbox).
Context (HI : Inv b e) (Hb : budget_ok (more_ids b)) (c : ConnState) (Hc : e_conns e !! cid = Some c).
Context (id : JobId) (created : Nanos) (next : JobId) (Ho : put_origin now e c = (id, created, next)).

Lemma put_id_origin :
  ∃ e1, put_id now cid e = (id, created, e1) ∧ view e1 = view e ∧ e_draining e1 = e_draining e ∧
    use_tube_of e1 cid = c_use_tube c ∧ e_cfg e1 = e_cfg e ∧ e_binlog e1 = e_binlog e ∧
    e_next_job_id e1 = next ∧ pendings e1 !! cid = Some None.
Proof using HI Hc Ho.
  unfold put_id, put_origin in *. rewrite Hc. cbn [mbind option_bind].
  set (e0 := upd_conn cid _ e). set (e1 := connsetproducer cid (bump_cmd n_cmd_put e0)).
  assert (view e0 = view e) as Hv0 by (apply view_eq; [done|by apply rels_upd_conn|done|done]).
  assert (view e1 = view e) as Hv1 by (by etrans; [exact (view_producer cid (bump_cmd n_cmd_put e0))|]).
  assert (∀ e', view e' = view e → use_tube_of e' cid = c_use_tube c) as Hu.
  { intros e' Hv. rewrite use_tube_rels, (view_rels _ _ Hv), <-use_tube_rels. unfold use_tube_of. by rewrite Hc. }
  assert (pendings e0 !! cid = Some None) as Hp0 by (unfold pendings, e0; eng; by rewrite lookup_fmap, lookup_alter_eq, Hc).
  assert (pendings e1 = pendings e0) as Hp1 by exact (pendings_producer cid (bump_cmd n_cmd_put e0)).
  assert (e_next_job_id e1 = e_next_job_id e ∧ e_draining e1 = e_draining e ∧ e_cfg e1 = e_cfg e ∧ e_binlog e1 = e_binlog e)
    as (H1 & H2 & H3 & H4) by (unfold e1, connsetproducer; by repeat case_match).
  assert (incr64 (e_next_job_id e) = e_next_job_id e + 1)%N as Hn by exact (next_id_incr _ _ HI).
  destruct (c_pending_put c) as [[[pid|] cr]|]; injection Ho as <- <- <-; [exists e0|exists (e1 <| e_next_job_id ::= incr64 |>)..];
    rewrite ?H1; split_and!; try done; try (by apply Hu); try (by eng; rewrite H1); by rewrite <-Hp0, <-Hp1.
Qed.

Lemma cmd_put_takes :
  let s := cmd_put now cid pri delay ttr body (e, out) in
  e_next_job_id s.1 = next ∧ c_pending_put <$> e_conns s.1 !! cid = Some None.
Proof using HI Hc Ho.
  destruct put_id_origin as (e1 & Hput & _ & _ & _ & _ & _ & Hn & Hp). unfold cmd_put. rewrite Hput. cbv zeta.
  rewrite <-lookup_fmap. change (c_pending_put <$> e_conns ?e) with (pendings e). destruct (e_draining e1); [by rewrite !reply_fst|].
  match goal with |- context [process_queue now ?s] =>
    pose proof (un_process_queue e_next_job_id (λ _ _, eq_refl) now s) as Hq; pose proof (pendings_process_queue now s) as Hqp;
    destruct (process_queue now s) as [e2 out2] end.
  rewrite !reply_fst. cbn [fst] in *. change (e_next_job_id e2 = next ∧ pendings e2 !! cid = Some None). rewrite Hq, Hqp.
  set (e3 := upd_tube _ _ _).
  assert (∀ i e', e_next_job_id (journal_put i e') = e_next_job_id e' ∧ pendings (journal_put i e') = pendings e') as Hj.
  { intros i e'. unfold journal_put. by repeat case_match. }
  destruct (Hj id (if (0 <? delay)%N then insert_delayed (use_tube_of e1 cid) id (sat_add64 now (secs delay)) e3 else insert_ready (use_tube_of e1 cid) id e3)) as [-> ->].
  split; [clear Hq Hqp Hj|rewrite <-Hp; f_equal; apply pendings_conns]; destruct (0 <? delay)%N.
  - rewrite (un_insert_delayed e_next_job_id). exact Hn.
  - rewrite (un_insert_ready e_next_job_id). exact Hn.
  - unfold insert_delayed. rewrite conns_refresh_delay. repeat case_match; reflexivity.
  - unfold insert_ready. destruct (e_jobs e3 !! id); [|reflexivity]. rewrite conns_refresh_disp. by destruct (is_urgent _).
Qed.
Lemma cmd_put_done :
  e_draining e = false →
  let s := cmd_put now cid pri delay ttr body (e, out) in
  then_serves now e (<[id := new_job now id created (c_use_tube c) pri delay ttr body (job_file e)]> (e_jobs e))
    (rels e) out [(cid, Response.Inserted id)] s.
Proof using All.
  intros Hd. destruct put_id_origin as (e1 & Hput & Hv1 & Hd1 & Hu1 & Hcfg & Hbl & _). unfold cmd_put. rewrite Hput.
  destruct (Rest_put_id _ _ _ _ _ _ _ _ HI Hb Hput) as (HR1 & Hj1 & Hno & Hlt & Hpend).
  rewrite Hd1, Hd, Hcfg, Hbl.
  set (j := mkJobRec id _ _ _ _ _ _ _ _ _ _ _ _ _ _ _ _). rewrite <-Hj1 in Hno.
  pose proof (Float_new_job _ _ _ j HR1 Hno Hpend Hlt (N.le_max_r _ _) (use_tube_live _ _ _ _ HR1)) as HF.
  change (use_tube_of e1 cid) with (j_tube j). change (j_id j) with id in HF.
  set (e2 := upd_tube (j_tube j) _ _) in *.
  assert (e_jobs e2 !! id = Some j) as Hj2 by apply lookup_insert_eq.
  assert (view e2 = with_jobs (<[id := j]> (e_jobs e)) (view e)) as Hv2.
  { rewrite <-Hv1, <-Hj1. done. }
  set (e3 := journal_put id _).
  assert (Rest (more_ids b) true e3) as HR3.
  { apply Rest_journal_put. case_match; [by eapply Rest_hot, Rest_insert_delayed|by eapply Rest_insert_ready]. }
  assert (view e3 = with_jobs (<[id := new_job now id created (c_use_tube c) pri delay ttr body (job_file e)]> (e_jobs e))
                      (view e)) as Hv3.
  { unfold e3, new_job. rewrite view_journal_put, <-Hu1. destruct (0 <? delay)%N.
    - rewrite (view_insert_delayed _ _ _ _ _ Hj2), (jobs_of _ _ _ Hv2), insert_insert_eq, Hv2. done.
    - rewrite (view_insert_ready _ _ _ _ Hj2), (jobs_of _ _ _ Hv2), insert_insert_eq, Hv2. done. }
  set (g := λ e, upd_tube (j_tube j) (λ t, t <| t_stat ::= set_field ts_total_jobs_ct incr64 |>)
                   (upd_ct total_jobs_ct incr64 e)).
  pose proof (process_then_view _ _ now _ _ _ out cid (Response.Inserted id) g HR3 Hv3 (λ _, eq_refl)) as Hdone.
  cbv zeta. destruct (process_queue now (e3, out)) as [e4 out4]. exact Hdone.
Qed.
Lemma cmd_put_draining :
  e_draining e = true → answers e out cid Response.Draining (cmd_put now cid pri delay ttr body (e, out)).
Proof using HI Hc Ho.
  intros Hd. destruct put_id_origin as (e1 & Hput & Hv1 & Hd1 & _). unfold cmd_put. rewrite Hput, Hd1, Hd.
  by apply answers_reply.
Qed.
End put.

(** ** reserve *)
(** The connection holds a job within the safety margin of its deadline. *)
Definition deadline_soon (A : Jobs) (cid : ConnId) (now : Nanos) : Prop :=
  ∃ i j, A !! i = Some j ∧ j_state j = JobState.Reserved ∧ j_reserver j = Some cid ∧
    (j_deadline_at j ≤ now + SAFETY_MARGIN)%N.
(** A tube the connection watches has a ready job. *)
Definition ready_for (A : Jobs) (R : Rels) (cid : ConnId) : Prop :=
  ∃ i j r, A !! i = Some j ∧ j_state j = JobState.Ready ∧ R !! cid = Some r ∧ j_tube j ∈ ms_items r.1.1.2.
Definition starts_waiting (cid : ConnId) (wd : option Nanos) (R : Rels) : Rels :=
  alter (λ r, (r.1.1, wd, true)) cid R.

Lemma deadline_soon_iff b h e cid now :
  Rest b h e → conn_deadline_soon e cid now = true ↔ deadline_soon (e_jobs e) cid now.
Proof.
  intros HR. unfold conn_deadline_soon, deadline_soon.
  assert (∀ i j, e_jobs e !! i = Some j → j_state j = JobState.Reserved → j_reserver j = Some cid →
    is_Some (e_conns e !! cid)) as Hlive.
  { intros i j Hj Hs Hr. pose proof (co_queued _ _ HR _ _ Hj) as [Hq _]. unfold in_state in Hq.
    rewrite bool_decide_eq_true_2 in Hq by done. destruct Hq as (k & Hk & ?). by simplify_eq. }
  destruct (e_conns e !! cid) as [c|] eqn:Hc.
  2: { split; [done|]. intros (i & j & Hj & Hs & Hr & _). by destruct (Hlive _ _ Hj Hs Hr). }
  destruct (co_reserved _ _ HR _ _ Hc) as [_ H2].
  destruct (soonest_reserved c) as [[d id]|] eqn:Hsr.
  - apply bt_first_Some in Hsr as [Hin Hmin]. rewrite N.leb_le. unfold sat_sub. split.
    + intros Hle. apply H2 in Hin as (j & Hj & Hs & Hr & Hd). exists id, j. split_and!; try done. lia.
    + intros (i & j & Hj & Hs & Hr & Hle).
      assert ((j_deadline_at j, i) ∈ c_reserved_by_deadline c) as Hi by (apply H2; by exists j).
      apply Hmin, NN_ole_fst in Hi. lia.
  - apply bt_first_None in Hsr. split; [done|]. intros (i & j & Hj & Hs & Hr & _).
    assert ((j_deadline_at j, i) ∈ c_reserved_by_deadline c) as Hi by (apply H2; by exists j). set_solver.
Qed.
Lemma conn_ready_iff b h e cid :
  Rest b h e → conn_ready e cid = true ↔ ready_for (e_jobs e) (rels e) cid.
Proof.
  intros HR. unfold conn_ready, ready_for, rels. setoid_rewrite lookup_fmap.
  destruct (e_conns e !! cid) as [c|]; simpl.
  2: { split; [done|]. by intros (i & j & r & _ & _ & ? & _). }
  rewrite existsb_exists. split.
  - intros (tid & Hin%list_elem_of_In & Ht). unfold tube in Ht. destruct (slot (e_tubes e) tid) as [t|] eqn:Hs; [|done].
    apply negb_true_iff, bool_decide_eq_false, set_choose_L in Ht as [[p i] Hx].
    apply (co_ready _ _ HR _ _ Hs) in Hx as (j & Hj & Hjs & <- & _). exists i, j. eauto.
  - intros (i & j & r & Hj & Hs & [= <-] & Hin). exists (j_tube j). split; [by apply list_elem_of_In|].
    pose proof (co_jobs _ _ HR _ _ Hj) as (_ & _ & _ & [t Ht]). unfold tube. rewrite Ht.
    assert ((j_pri j, i) ∈ t_ready t) as Hx by (apply (co_ready _ _ HR _ _ Ht); by exists j).
    apply negb_true_iff, bool_decide_eq_false. set_solver.
Qed.

(** A connection that still waits was handed nothing. *)
Lemma serves_waiting now open A R l A' R' cid :
  serves now open A R l A' R' → waits_in R' cid →
  ∀ i j, A' !! i = Some j → j_reserver j = Some cid → A !! i = Some j.
Proof.
  induction 1 as [A R Hno|A R id j cid' seq l A' R' Hel Hmin Hw Hs IH]; [done|]. intros Hw' i j0 Hj Hr.
  specialize (IH Hw' i j0 Hj Hr). destruct (decide (i = id)) as [->|]; [|by rewrite lookup_insert_ne in IH].
  rewrite lookup_insert_eq in IH. injection IH as <-. injection Hr as ->.
  apply serves_mono in Hs as [_ Hc]. apply (calmer_waits _ _ cid Hc) in Hw' as (r & Hr & Ht).
  unfold answered in Hr. rewrite lookup_alter_eq in Hr. destruct (R !! cid); [|done]. injection Hr as <-. done.
Qed.
Lemma deadline_soon_waiting now open A R l A' R' cid t :
  serves now open A R l A' R' → waits_in R' cid → deadline_soon A' cid t ↔ deadline_soon A cid t.
Proof.
  intros Hs Hw. pose proof (serves_waiting _ _ _ _ _ _ _ _ Hs Hw) as Hback. apply serves_mono in Hs as [Hd _].
  unfold deadline_soon. split; intros (i & j & Hj & Hst & Hr & Hle); exists i, j; split_and!; try done; [by eauto|].
  specialize (Hd i). rewrite Hj in Hd. destruct (A' !! i) as [j'|]; simpl in Hd; [|done].
  destruct Hd as [->|(Hs' & _)]; [done|congruence].
Qed.

Definition reserve_start (cid : ConnId) (timeout : option N) (e : Engine) : Engine :=
  connsetworker cid (match timeout with
    None => bump_cmd n_cmd_reserve e | Some _ => bump_cmd n_cmd_reserve_with_timeout e end).
Lemma reserve_view cid timeout e : view (reserve_start cid timeout e) = view e.
Proof. unfold reserve_start. rewrite view_worker. by destruct timeout. Qed.
Lemma reserve_rest b cid timeout e : Rest b false e → Rest b false (reserve_start cid timeout e).
Proof. intros HR. unfold reserve_start. apply Rest_worker. destruct timeout; by apply Rest_bump. Qed.

Lemma reserve_conn cid e e1 c :
  rels e1 = rels e → e_conns e !! cid = Some c → ∃ c1, e_conns e1 !! cid = Some c1 ∧ c_waiting c1 = c_waiting c.
Proof.
  intros Hr Hc. assert (rels e1 !! cid = rels e !! cid) as E by (by rewrite Hr).
  unfold rels in E. rewrite !lookup_fmap, Hc in E. destruct (e_conns e1 !! cid) as [c1|]; [|done].
  injection E as _ _ _ E. eauto.
Qed.
Lemma enqueue_waiting_view cid wd e c :
  e_conns e !! cid = Some c →
  view (enqueue_waiting_conn cid wd e) = mkView (e_jobs e) (starts_waiting cid wd (rels e)) (e_pauses e) (e_local_conns e).
Proof.
  intros Hc. unfold view.
  rewrite jobs_enqueue_waiting, (un_enqueue_waiting e_pauses), (un_enqueue_waiting e_local_conns),
    (rels_enqueue_waiting _ _ _ Hc). f_equal. unfold rels, starts_waiting. eng. apply map_eq. intros i.
  rewrite lookup_fmap, !lookup_alter, !lookup_fmap. case_decide; [subst i|done]. by destruct (e_conns e !! cid).
Qed.
Lemma remove_waiting_answered cid e :
  waits_in (rels e) cid → rels (do_remove_waiting_conn cid e) = answered cid (rels e).
Proof.
  intros (r & Hr & Ht). unfold rels in Hr. apply lookup_fmap_Some in Hr as (c & <- & Hc).
  rewrite (rels_remove_waiting _ _ _ Hc Ht). unfold rels, answered. eng. apply map_eq. intros i.
  rewrite lookup_fmap, !lookup_alter, !lookup_fmap. case_decide; [subst i|done]. by destruct (e_conns e !! cid).
Qed.

Section reserve.
Context (b : Budget) (now : Nanos) (cid : ConnId) (timeout : option N) (e : Engine) (out : Outbox).
Context (HI : Inv b e) (Hb : budget_ok (grow b)) (c : ConnState) (Hc : e_conns e !! cid = Some c).
Context (Hw : c_waiting c = false).

Lemma cmd_reserve_deadline_soon :
  deadline_soon (e_jobs e) cid now → ¬ ready_for (e_jobs e) (rels e) cid →
  answers e out cid Response.DeadlineSoon (cmd_reserve now cid timeout (e, out)).
Proof using HI.
  intros Hd Hr. unfold cmd_reserve. fold (reserve_start cid timeout e).
  pose proof (reserve_view cid timeout e) as Hv. pose proof (reserve_rest _ cid timeout _ HI) as HR1.
  set (e1 := reserve_start cid timeout e) in *. pose proof Hv as [= Hj1 Hr1 _ _].
  rewrite <-Hj1 in Hd, Hr. rewrite <-Hr1 in Hr. apply (deadline_soon_iff _ _ _ _ _ HR1) in Hd.
  rewrite <-(conn_ready_iff _ _ _ _ HR1) in Hr. apply not_true_iff_false in Hr.
  rewrite Hd, Hr. by apply answers_reply.
Qed.

(** Otherwise the connection waits, dispatch runs, and a zero timeout is
    answered at once if the connection was not served. *)
Lemma cmd_reserve_waits :
  ¬ deadline_soon (e_jobs e) cid now ∨ ready_for (e_jobs e) (rels e) cid →
  let s := cmd_reserve now cid timeout (e, out) in
  ∃ l R1, serves now (unpaused now e) (e_jobs e)
            (starts_waiting cid ((λ t, sat_add64 now (secs t)) <$> timeout) (rels e)) l (e_jobs s.1) R1 ∧
    ((timeout ≠ Some 0%N ∨ ¬ waits_in R1 cid) ∧ rels s.1 = R1 ∧ s.2 = out ++ delivered (e_local_conns e) l ∨
     timeout = Some 0%N ∧ waits_in R1 cid ∧ rels s.1 = answered cid R1 ∧
     ∃ r, (r = Response.DeadlineSoon ∧ deadline_soon (e_jobs e) cid now ∨
           r = Response.TimedOut ∧ ¬ deadline_soon (e_jobs e) cid now) ∧
          s.2 = out ++ delivered (e_local_conns e) (l ++ [(cid, r)])).
Proof using HI Hb Hc Hw.
  intros Hd. unfold cmd_reserve. fold (reserve_start cid timeout e).
  pose proof (reserve_view cid timeout e) as [= Hj1 Hr1 Hp1 Hl1]. pose proof (reserve_rest _ cid timeout _ HI) as HR1.
  set (e1 := reserve_start cid timeout e) in *.
  assert (conn_deadline_soon e1 cid now && negb (conn_ready e1 cid) = false) as ->.
  { rewrite <-Hj1, <-Hr1 in Hd. rewrite <-(deadline_soon_iff _ _ _ _ _ HR1), <-(conn_ready_iff _ _ _ _ HR1) in Hd.
    destruct (conn_deadline_soon e1 cid now), (conn_ready e1 cid); naive_solver. }
  destruct (reserve_conn cid e e1 c Hr1 Hc) as (c1 & Hc1 & Hw1). rewrite Hw in Hw1.
  set (wd := (λ t, sat_add64 now (secs t)) <$> timeout).
  pose proof (Rest_enqueue_waiting _ _ _ _ _ wd
    (Rest_budget _ _ _ _ HR1 (budget_le_grow b) Hb) Hc1 Hw1 (Rest_room _ _ _ HR1)) as HR2.
  pose proof (enqueue_waiting_view cid wd e1 c1 Hc1) as Hv2. set (e2 := enqueue_waiting_conn cid wd e1) in *.
  injection Hv2 as Hj2 Hr2 Hp2 Hl2. rewrite Hj1 in Hj2. rewrite Hr1 in Hr2. rewrite Hp1 in Hp2. rewrite Hl1 in Hl2.
  destruct (process_queue_serves _ _ now e2 out HR2) as (l & Hs & Ho).
  destruct (Rest_process_queue _ _ now e2 out HR2) as (HR3 & _).
  pose proof (un_process_queue e_local_conns (λ f e, eq_refl) now (e2, out)) as Hl3.
  destruct (process_queue now (e2, out)) as [e3 out3]. cbn [fst snd] in *.
  unfold unpaused in Hs. rewrite Hj2, Hr2, Hp2 in Hs. rewrite Hl2 in Ho, Hl3. exists l, (rels e3).
  assert (conn_waiting e3 cid = true ↔ waits_in (rels e3) cid) as Hwt.
  { rewrite conn_waiting_rels. unfold waits_in. destruct (rels e3 !! cid); naive_solver. }
  destruct (conn_waiting e3 cid) eqn:Ecw.
  2: { rewrite andb_false_r. split; [done|]. left. split_and!; try done. right. by rewrite <-Hwt. }
  destruct (bool_decide (timeout = Some 0%N)) eqn:Et; cbn [andb].
  2: { split; [done|]. left. split_and!; try done. left. by apply bool_decide_eq_false in Et. }
  apply bool_decide_eq_true in Et. assert (waits_in (rels e3) cid) as Hwi by (by apply Hwt).
  rewrite reply_fst, reply_snd. cbn [fst]. rewrite jobs_remove_waiting, (un_remove_waiting e_local_conns), Hl3.
  split; [done|]. right. split_and!; [done|done|by apply remove_waiting_answered|].
  pose proof (deadline_soon_waiting _ _ _ _ _ _ _ _ now Hs Hwi) as Hds.
  rewrite <-(deadline_soon_iff _ _ _ _ _ HR3) in Hds.
  exists (if conn_deadline_soon e3 cid now then Response.DeadlineSoon else Response.TimedOut). split.
  - destruct (conn_deadline_soon e3 cid now); [left|right]; split; try done; by rewrite <-Hds.
  - by rewrite Ho, delivered_app, app_assoc.
Qed.
End reserve.

(** ** kick *)
(** [k] jobs of the tube in state [st] are kicked, the smallest keys first. *)
Inductive kicks (now : Nanos) (open : TubeId → Prop) (st : JobState) (key : JobRec → N) (tid : TubeId) :
    N → Jobs → Rels → Outbox → Jobs → Rels → Prop :=
  | kicks_none A R : kicks now open st key tid 0 A R [] A R
  | kicks_next k A R id j l A1 R1 l' A' R' :
      A !! id = Some j → j_state j = st → j_tube j = tid →
      (∀ i' j', A !! i' = Some j' → j_state j' = st → j_tube j' = tid → (key j, id) ≼ (key j', i')) →
      serves now open (<[id := kicked j]> A) R l A1 R1 →
      kicks now open st key tid k A1 R1 l' A' R' →
      kicks now open st key tid (k + 1) A R (l ++ l') A' R'.
Definition none_left (st : JobState) (tid : TubeId) (A : Jobs) : Prop :=
  ∀ i j, A !! i = Some j → j_state j = st → j_tube j ≠ tid.

Lemma unpaused_process now s tid : unpaused now (process_queue now s).1 tid ↔ unpaused now s.1 tid.
Proof.
  destruct s as [e out]. unfold process_queue, clear_expired_pauses, unpaused. cbn [fst].
  rewrite (un_process_loop e_pauses). cbn [fst]. rewrite clear_loop_pauses by done.
  setoid_rewrite elem_of_filter. cbn [fst]. split; [|naive_solver].
  intros Hx at_ Hin. destruct (N.le_gt_cases at_ now) as [|Hlt]; [done|]. auto.
Qed.
Lemma serves_unpaused now e e' A R l A' R' :
  (∀ tid, unpaused now e tid ↔ unpaused now e' tid) →
  serves now (unpaused now e) A R l A' R' → serves now (unpaused now e') A R l A' R'.
Proof. intros. by eapply serves_open. Qed.
Lemma kicks_unpaused now e e' st key tid k A R l A' R' :
  (∀ tid, unpaused now e tid ↔ unpaused now e' tid) →
  kicks now (unpaused now e) st key tid k A R l A' R' → kicks now (unpaused now e') st key tid k A R l A' R'.
Proof.
  intros Hu. induction 1 as [|k A R id j l A1 R1 l' A' R' Hj Hs Ht Hmin Hserv _ IH]; [constructor|].
  eapply kicks_next; try done. by eapply serves_unpaused.
Qed.

(** One kick: the job is off its queue and becomes ready. *)
Lemma kick_to_ready_step b h now e e1 out id j :
  e_jobs e !! id = Some j → Float b h id e1 → view e1 = view e →
  let s := kick_to_ready (j_tube j) id now (e1, out) in
  Rest b false s.1 ∧ (∀ tid, unpaused now s.1 tid ↔ unpaused now e tid) ∧ e_local_conns s.1 = e_local_conns e ∧
  ∃ l, serves now (unpaused now e) (<[id := kicked j]> (e_jobs e)) (rels e) l (e_jobs s.1) (rels s.1) ∧
       s.2 = out ++ delivered (e_local_conns e) l.
Proof.
  intros Hj HF Hv. assert (e_jobs e1 !! id = Some j) as Hj1 by (by rewrite (view_jobs _ _ Hv)).
  pose proof (Rest_kick_to_ready _ _ now _ out _ _ HF Hj1) as HR. unfold kick_to_ready in *.
  set (f := λ j, j <| j_kick_ct ::= incr32 |>) in *.
  assert (Float b h id (upd_job id f e1)) as HF' by (by apply Float_upd_job).
  pose proof (upd_job_lookup _ f _ _ Hj1) as Hj2.
  set (e2 := journal_update id (insert_ready (j_tube j) id (upd_job id f e1))) in *.
  assert (Rest b true e2) as HR2 by (apply Rest_journal_update; exact (Rest_insert_ready _ _ _ _ HF' _ Hj2)).
  assert (view e2 = with_jobs (<[id := kicked j]> (e_jobs e)) (view e)) as [= E1 E2 E3 E4].
  { unfold e2. rewrite view_journal_update, (view_insert_ready _ _ _ _ Hj2), (view_upd_job _ f _ _ Hj1). unfold upd_job. eng.
    by rewrite (alter_is_insert _ _ _ _ Hj1), insert_insert_eq, with_jobs_twice, Hv, (view_jobs _ _ Hv). }
  split; [done|]. split.
  { intros tid. rewrite unpaused_process. unfold unpaused. cbn [fst]. by rewrite E3. }
  rewrite (un_process_queue e_local_conns (λ f e, eq_refl)). split; [done|].
  destruct (process_queue_serves _ _ now e2 out HR2) as (l & Hs & Ho). exists l.
  unfold unpaused in Hs. rewrite E1, E2, E3 in Hs. by rewrite E4 in Ho.
Qed.

Definition kick_result (now : Nanos) (st : JobState) (key : JobRec → N) (tid : TubeId) (n : nat) (k0 : N)
    (e : Engine) (out : Outbox) (r : N * St) : Prop :=
  ∃ k l, r.1 = (k0 + k)%N ∧ (k ≤ N.of_nat n)%N ∧ (k = N.of_nat n ∨ none_left st tid (e_jobs r.2.1)) ∧
    kicks now (unpaused now e) st key tid k (e_jobs e) (rels e) l (e_jobs r.2.1) (rels r.2.1) ∧
    r.2.2 = out ++ delivered (e_local_conns e) l ∧ e_local_conns r.2.1 = e_local_conns e.
Lemma kick_result_none now st key tid n k0 e e1 out :
  view e1 = view e → n = 0 ∨ none_left st tid (e_jobs e) → kick_result now st key tid n k0 e out (k0, (e1, out)).
Proof.
  intros [= Hj Hr _ Hl] Hn. exists 0%N, []. cbn [fst snd]. rewrite Hj, Hr, N.add_0_r, app_nil_r.
  split_and!; [done|lia|naive_solver|constructor|done|done].
Qed.
Lemma kick_result_step now st key n k0 e s id j r :
  e_jobs e !! id = Some j → j_state j = st →
  (∀ i' j', e_jobs e !! i' = Some j' → j_state j' = st → j_tube j' = j_tube j → (key j, id) ≼ (key j', i')) →
  (∀ tid, unpaused now s.1 tid ↔ unpaused now e tid) → e_local_conns s.1 = e_local_conns e →
  (∃ l, serves now (unpaused now e) (<[id := kicked j]> (e_jobs e)) (rels e) l (e_jobs s.1) (rels s.1) ∧
        s.2 = r ++ delivered (e_local_conns e) l) →
  ∀ res, kick_result now st key (j_tube j) n (k0 + 1) s.1 s.2 res →
  kick_result now st key (j_tube j) (S n) k0 e r res.
Proof.
  intros Hj Hs Hmin Hu Hl (l & Hserv & Ho) [k' [e' out']] (k & l' & E1 & E2 & E3 & E4 & E5 & E6). cbn [fst snd] in *.
  exists (k + 1)%N, (l ++ l'). cbn [fst snd]. split_and!.
  - lia.
  - lia.
  - destruct E3 as [->|E3]; [left; lia|by right].
  - eapply kicks_next; try done. by eapply kicks_unpaused.
  - by rewrite E5, Ho, Hl, delivered_app, app_assoc.
  - congruence.
Qed.

Lemma kick_buried_result n b tid now k e out :
  Rest b false e → kick_result now JobState.Buried j_list_seq tid n k e out (kick_buried_loop n tid now k (e, out)).
Proof.
  revert k e out. induction n as [|n IH]; intros k e out HR; [apply kick_result_none; auto|].
  cbn [kick_buried_loop]. pose proof (view_pop_buried tid e) as Hv.
  destruct (pop_buried_spec _ _ tid _ HR) as [[-> Hno]|(id & j & Hj & Hs & <- & E & Hmin)];
    [by apply kick_result_none; auto|]. rewrite E in *. cbn [snd] in Hv.
  pose proof (Float_dequeue_buried _ _ _ HR _ _ Hj Hs) as HF.
  destruct (kick_to_ready_step _ _ now e _ out _ _ Hj HF Hv) as (HR' & Hu & Hl & Hserv).
  eapply (kick_result_step _ _ _ _ _ _ _ _ j); try done.
  destruct (kick_to_ready _ _ _ _). by apply IH.
Qed.

Lemma kick_delayed_result n b tid now k e out :
  Rest b false e →
  kick_result now JobState.Delayed j_deadline_at tid n k e out (kick_delayed_loop n tid now k (e, out)).
Proof.
  revert k e out. induction n as [|n IH]; intros k e out HR; [apply kick_result_none; auto|].
  cbn [kick_delayed_loop]. unfold tube.
  destruct (slot (e_tubes e) tid) as [t|] eqn:Ht; cbn [mbind option_bind].
  2: { apply kick_result_none; [done|]. right. intros i j Hj _ <-.
       pose proof (co_jobs _ _ HR _ _ Hj) as (_ & _ & _ & [t' Ht']). congruence. }
  destruct (bt_first (t_delayed t)) as [[d id]|] eqn:Hf.
  2: { apply kick_result_none; [done|]. right. intros i j Hj Hs <-. apply bt_first_None in Hf.
       assert ((j_deadline_at j, i) ∈ t_delayed t) as Hi by (apply (co_delayed _ _ HR _ _ Ht); by exists j). set_solver. }
  apply bt_first_Some in Hf as [Hin Hmin]. apply (co_delayed _ _ HR _ _ Ht) in Hin as (j & Hj & Hs & <- & <-).
  change (e_jobs e !! id = Some j) in Hj.
  pose proof (Float_remove_delayed _ _ _ HR _ _ Hj Hs) as HF.
  destruct (kick_to_ready_step _ _ now e _ out _ _ Hj HF (view_remove_delayed _ _ _)) as (HR' & Hu & Hl & Hserv).
  eapply (kick_result_step _ _ _ _ _ _ _ _ j); try done.
  - intros i' j' Hj' Hs' Ht'. apply Hmin, (co_delayed _ _ HR _ _ Ht). by exists j'.
  - destruct (kick_to_ready _ _ _ _). by apply IH.
Qed.

(** [kick n] kicks buried jobs, oldest burial first; delayed jobs, soonest
    first, when the tube has no buried job. *)
Lemma cmd_kick_done b now cid n e out :
  Inv b e →
  let s := cmd_kick now cid n (e, out) in let tid := use_tube_of e cid in
  let none_buried := none_left JobState.Buried tid (e_jobs e) in
  ∃ st key k l,
    (st = JobState.Buried ∧ key = j_list_seq ∧ ¬ none_buried ∨ st = JobState.Delayed ∧ key = j_deadline_at ∧ none_buried) ∧
    (k ≤ n)%N ∧ (k = n ∨ none_left st tid (e_jobs s.1)) ∧
    kicks now (unpaused now e) st key tid k (e_jobs e) (rels e) l (e_jobs s.1) (rels s.1) ∧
    s.2 = out ++ delivered (e_local_conns e) (l ++ [(cid, Response.Kicked k)]).
Proof.
  intros HR. unfold cmd_kick. assert (Rest b false (bump_cmd n_cmd_kick e)) as HR1 by auto with core.
  cbv zeta. change (use_tube_of e cid) with (use_tube_of (bump_cmd n_cmd_kick e) cid).
  change (e_jobs e) with (e_jobs (bump_cmd n_cmd_kick e)). change (rels e) with (rels (bump_cmd n_cmd_kick e)).
  change (unpaused now e) with (unpaused now (bump_cmd n_cmd_kick e)).
  change (e_local_conns e) with (e_local_conns (bump_cmd n_cmd_kick e)).
  set (e1 := bump_cmd n_cmd_kick e) in *. clearbody e1. set (tid := use_tube_of e1 cid).
  destruct (use_tube_live _ _ _ cid HR1) as [t Ht]. fold tid in Ht. unfold tube. rewrite Ht.
  assert (none_left JobState.Buried tid (e_jobs e1) ↔ t_buried t = ∅) as Hnone.
  { pose proof (co_buried _ _ HR1 _ _ Ht) as Hbu. split.
    - intros Hn. apply map_empty. intros s. apply eq_None_not_Some. intros [i Hi]. apply Hbu in Hi as (j & Hj & Hs & Hjt & _).
      by apply (Hn i j).
    - intros He i j Hj Hs Hjt. assert (t_buried t !! j_list_seq j = Some i) as Hi by (apply Hbu; by exists j).
      by rewrite He in Hi. }
  assert (∀ st key res, kick_result now st key tid (N.to_nat n) 0 e1 out res →
    let s := (let '(count, s) := res in reply cid (Response.Kicked count) s) in
    ∃ k l, (k ≤ n)%N ∧ (k = n ∨ none_left st tid (e_jobs s.1)) ∧
    kicks now (unpaused now e1) st key tid k (e_jobs e1) (rels e1) l (e_jobs s.1) (rels s.1) ∧
    s.2 = out ++ delivered (e_local_conns e1) (l ++ [(cid, Response.Kicked k)])) as Hdone.
  { intros st key [k' [e' out']] (k & l & E1 & E2 & E3 & E4 & E5 & E6). cbn [fst snd] in *. exists k, l.
    rewrite reply_fst, reply_snd, E6, E5, N2Nat.id, <-app_assoc, <-delivered_app in *. subst k'. done. }
  case_bool_decide as Hbd; cbn [negb].
  - destruct (Hdone _ _ _ (kick_delayed_result (N.to_nat n) b tid now 0 e1 out HR1)) as (k & l & Hk).
    exists JobState.Delayed, j_deadline_at, k, l. split; [right; by rewrite Hnone|exact Hk].
  - destruct (Hdone _ _ _ (kick_buried_result (N.to_nat n) b tid now 0 e1 out HR1)) as (k & l & Hk).
    exists JobState.Buried, j_list_seq, k, l. split; [left; by rewrite Hnone|exact Hk].
Qed.

(** ** peek *)
Section peek.
Context (b : Budget) (cid : ConnId) (e : Engine) (out : Outbox) (HI : Inv b e).
(** The first job of the used tube in state [st], by [key] then id. *)
Definition peeked (st : JobState) (key : JobRec → N) (r : Response) : Prop :=
  (r = Response.NotFound ∧ none_left st (use_tube_of e cid) (e_jobs e)) ∨
  ∃ id j, r = Response.Found id (j_body j) ∧ e_jobs e !! id = Some j ∧ j_state j = st ∧ j_tube j = use_tube_of e cid ∧
    ∀ i' j', e_jobs e !! i' = Some j' → j_state j' = st → j_tube j' = use_tube_of e cid → (key j, id) ≼ (key j', i').

Lemma peek_used_first st key pick t :
  slot (e_tubes e) (use_tube_of e cid) = Some t →
  (match pick t with
   | Some id => ∃ j, e_jobs e !! id = Some j ∧ j_state j = st ∧ j_tube j = use_tube_of e cid ∧
       ∀ i' j', e_jobs e !! i' = Some j' → j_state j' = st → j_tube j' = use_tube_of e cid → (key j, id) ≼ (key j', i')
   | None => none_left st (use_tube_of e cid) (e_jobs e)
   end) → peeked st key (peek_used_tube cid pick e).
Proof using.
  intros Ht Hp. unfold peek_used_tube, tube. rewrite Ht. cbn [mbind option_bind].
  destruct (pick t) as [id|]; [|by left]. right. destruct Hp as (j & Hj & Hrest). exists id, j.
  unfold body_of. rewrite Hj. eauto.
Qed.
Lemma set_first (S : gset (N * JobId)) st key :
  (∀ k i, (k, i) ∈ S ↔ queued (e_jobs e) st i (λ j, j_tube j = use_tube_of e cid ∧ key j = k)) →
  match snd <$> bt_first S with
   | Some id => ∃ j, e_jobs e !! id = Some j ∧ j_state j = st ∧ j_tube j = use_tube_of e cid ∧
       ∀ i' j', e_jobs e !! i' = Some j' → j_state j' = st → j_tube j' = use_tube_of e cid → (key j, id) ≼ (key j', i')
   | None => none_left st (use_tube_of e cid) (e_jobs e)
   end.
Proof using.
  intros HS. destruct (bt_first S) as [[k id]|] eqn:Hf; cbn.
  - apply bt_first_Some in Hf as [Hin Hmin]. apply HS in Hin as (j & Hj & Hs & Ht & <-). exists j. split_and!; try done.
    intros i' j' Hj' Hs' Ht'. apply Hmin, HS. by exists j'.
  - apply bt_first_None in Hf. intros i j Hj Hs Ht.
    assert ((key j, i) ∈ S) as Hi by (apply HS; by exists j). rewrite Hf in Hi. by apply not_elem_of_empty in Hi.
Qed.

Lemma cmd_peek_ready_done :
  ∃ r, answers e out cid r (cmd_peek_ready cid (e, out)) ∧ peeked JobState.Ready j_pri r.
Proof using HI.
  destruct (use_tube_live _ _ _ cid HI) as [t Ht]. eexists. split; [by apply answers_reply_with|].
  eapply peek_used_first; [exact Ht|]. apply (set_first (t_ready t)). exact (co_ready _ _ HI _ _ Ht).
Qed.
Lemma cmd_peek_delayed_done :
  ∃ r, answers e out cid r (cmd_peek_delayed cid (e, out)) ∧ peeked JobState.Delayed j_deadline_at r.
Proof using HI.
  destruct (use_tube_live _ _ _ cid HI) as [t Ht]. eexists. split; [by apply answers_reply_with|].
  eapply peek_used_first; [exact Ht|]. apply (set_first (t_delayed t)). exact (co_delayed _ _ HI _ _ Ht).
Qed.
Lemma cmd_peek_buried_done :
  ∃ r, answers e out cid r (cmd_peek_buried cid (e, out)) ∧ peeked JobState.Buried j_list_seq r.
Proof using HI.
  destruct (use_tube_live _ _ _ cid HI) as [t Ht]. eexists. split; [by apply answers_reply_with|].
  eapply peek_used_first; [exact Ht|].
  pose proof (pop_buried_spec _ _ (use_tube_of e cid) _ HI) as Hp. unfold pop_buried_front, tube in Hp. rewrite Ht in Hp.
  destruct (bm_first (t_buried t)) as [[seq id]|]; cbn.
  - destruct Hp as [[E _]|(id' & j & Hj & Hs & Hjt & E & Hmin)]; [done|].
    apply (f_equal fst) in E. injection E as ->. exists j. eauto.
  - destruct Hp as [[_ Hno]|(id' & j & _ & _ & _ & E & _)]; [exact Hno|]. by apply (f_equal fst) in E.
Qed.
End peek.

(** ** use, watch, ignore *)
Lemma find_or_make_ids g e name tid e' :
  Core g e → find_or_make_tube name e = (tid, e') → e_tube_ids e' !! name = Some tid ∧ e_local_conns e' = e_local_conns e.
Proof.
  intros HC Hf. destruct (Core_find_or_make _ _ _ _ _ HC Hf) as (HC' & Hn & _). split.
  - pose proof (co_reg _ _ HC') as (_ & Hids & _). by apply Hids.
  - unfold find_or_make_tube in Hf. repeat case_match; by simplify_eq.
Qed.
Lemma ids_gc_other tid other name e :
  e_tube_ids e !! name = Some other → other ≠ tid →
  (∀ n i, e_tube_ids e !! n = Some i ↔ t_name <$> slot (e_tubes e) i = Some n) →
  e_tube_ids (gc_tube_if_orphan tid e) !! name = Some other.
Proof.
  intros Hn Hne Hids. unfold gc_tube_if_orphan, tube. case_match; [done|].
  destruct (slot (e_tubes e) tid) as [t|] eqn:Ht; [|done]. case_match; [|done].
  assert (t_name t ≠ name) as Hnn.
  { intros E. assert (e_tube_ids e !! name = Some tid) as E2 by (apply Hids; by rewrite Ht; simpl; rewrite E). congruence. }
  repeat case_match; eng; by rewrite lookup_delete_ne.
Qed.

Section sessions.
Context (b : Budget) (cid : ConnId) (name : TubeName) (e : Engine) (out : Outbox) (HI : Inv b e).
Context (c : ConnState) (Hc : e_conns e !! cid = Some c).

Lemma cmd_use_done :
  let s := cmd_use cid name (e, out) in
  ∃ tid, e_tube_ids s.1 !! name = Some tid ∧ e_jobs s.1 = e_jobs e ∧
    e_conns s.1 = <[cid := c <| c_use_tube := tid |>]> (e_conns e) ∧
    s.2 = out ++ delivered (e_local_conns e) [(cid, Response.Using name)].
Proof using HI Hc.
  unfold cmd_use. assert (Rest b false (bump_cmd n_cmd_use e)) as HR1 by auto with core.
  change (e_jobs e) with (e_jobs (bump_cmd n_cmd_use e)). change (e_conns e) with (e_conns (bump_cmd n_cmd_use e)).
  change (e_local_conns e) with (e_local_conns (bump_cmd n_cmd_use e)).
  set (e1 := bump_cmd n_cmd_use e) in *. assert (e_conns e1 !! cid = Some c) as Hc1 by done. clearbody e1.
  destruct (find_or_make_tube name e1) as [new e2] eqn:Hf. cbv zeta.
  destruct (Core_find_or_make _ _ _ _ _ HR1 Hf) as (HC2 & Hname & Hj2 & Hc2 & _).
  destruct (find_or_make_ids _ _ _ _ _ HR1 Hf) as [Hids Hl2]. rewrite reply_fst, reply_snd. exists new. cbn [fst].
  unfold use_tube_of. rewrite Hc2, Hc1. destruct (Nat.eqb_spec (c_use_tube c) new) as [<-|Hne].
  { rewrite Hl2, Hj2, Hc2. split_and!; try done. rewrite insert_id; [done|]. rewrite Hc1. f_equal. by destruct c. }
  split_and!; eng.
  - apply ids_gc_other; [done|congruence|]. eng. pose proof (co_reg _ _ HC2) as (_ & Hreg & _).
    intros n i. rewrite Hreg. rewrite slot_alter_fmap; done.
  - rewrite jobs_gc. eng. done.
  - rewrite conns_gc. eng. rewrite Hc2. by apply alter_is_insert.
  - rewrite local_gc. eng. by rewrite Hl2.
Qed.

(** A watched tube stays watched; a new one goes last. *)
Lemma cmd_watch_done :
  let s := cmd_watch cid name (e, out) in
  ∃ tid, e_tube_ids s.1 !! name = Some tid ∧ e_jobs s.1 = e_jobs e ∧
    let c' := if ms_contains tid (c_watch c) then c else c <| c_watch ::= ms_append tid |> in
    e_conns s.1 = <[cid := c']> (e_conns e) ∧
    s.2 = out ++ delivered (e_local_conns e) [(cid, Response.Watching (N.of_nat (ms_len (c_watch c'))))].
Proof using HI Hc.
  unfold cmd_watch. assert (Rest b false (bump_cmd n_cmd_watch e)) as HR1 by auto with core.
  change (e_jobs e) with (e_jobs (bump_cmd n_cmd_watch e)). change (e_conns e) with (e_conns (bump_cmd n_cmd_watch e)).
  change (e_local_conns e) with (e_local_conns (bump_cmd n_cmd_watch e)).
  set (e1 := bump_cmd n_cmd_watch e) in *. assert (e_conns e1 !! cid = Some c) as Hc1 by done. clearbody e1.
  destruct (find_or_make_tube name e1) as [tid e2] eqn:Hf. cbv zeta.
  destruct (Core_find_or_make _ _ _ _ _ HR1 Hf) as (HC2 & Hname & Hj2 & Hc2 & _).
  destruct (find_or_make_ids _ _ _ _ _ HR1 Hf) as [Hids Hl2]. rewrite reply_fst, reply_snd. exists tid. cbn [fst].
  unfold watch_count. rewrite Hc2, Hc1. destruct (ms_contains tid (c_watch c)).
  - rewrite Hc2, Hc1, Hl2. split_and!; try done. by rewrite insert_id.
  - eng. rewrite lookup_alter_eq, Hc2, Hc1, Hl2. split_and!; try done. by apply alter_is_insert.
Qed.

(** The last watched tube is never ignored. *)
Lemma cmd_ignore_done :
  let s := cmd_ignore cid name (e, out) in
  let watched := match e_tube_ids e !! name with Some tid => ms_contains tid (c_watch c) | None => false end in
  e_jobs s.1 = e_jobs e ∧
  if watched && (N.of_nat (ms_len (c_watch c)) <? 2)%N then
    e_conns s.1 = e_conns e ∧ s.2 = out ++ delivered (e_local_conns e) [(cid, Response.NotIgnored)]
  else
    let c' := match e_tube_ids e !! name with
              | Some tid => if watched then c <| c_watch ::= (λ m, (ms_remove tid m).2) |> else c
              | None => c
              end in
    e_conns s.1 = <[cid := c']> (e_conns e) ∧
    s.2 = out ++ delivered (e_local_conns e) [(cid, Response.Watching (N.of_nat (ms_len (c_watch c'))))].
Proof using Hc.
  unfold cmd_ignore, watch_count. cbv zeta. set (e1 := bump_cmd n_cmd_ignore e).
  change (e_tube_ids e) with (e_tube_ids e1). change (e_conns e) with (e_conns e1) in *.
  change (e_jobs e) with (e_jobs e1). change (e_local_conns e) with (e_local_conns e1). clearbody e1. rewrite Hc.
  destruct (e_tube_ids e1 !! name) as [tid|]; [destruct (ms_contains tid (c_watch c)) eqn:Hin|]; cbn [andb].
  - case_match; rewrite reply_fst, reply_snd; [done|]. cbn [fst]. rewrite jobs_gc, conns_gc, local_gc. eng.
    rewrite lookup_alter_eq, Hc. split_and!; try done. by apply alter_is_insert.
  - rewrite Hc, reply_fst, reply_snd. by rewrite insert_id.
  - rewrite Hc, reply_fst, reply_snd. by rewrite insert_id.
Qed.
End sessions.

(** ** The job a reserve gets *)
(** At rest nothing is left to dispatch. *)
Lemma rest_drained b e :
  Inv b e → ∀ id j, ¬ eligible (open_tubes e) (e_jobs e) (rels e) id j.
Proof.
  intros HI id j Hel. pose proof (best_ready_spec e) as Hb.
  assert (candidate e (bt_iter (e_dispatchable e)) (j_pri j, id) (j_tube j)) as Hc
    by (apply (candidate_eligible _ _ _ HI); eauto).
  apply (candidate_iff _ _ _ HI) in Hc as (t & Ht & Hw & Hp & Hx).
  pose proof (co_drained _ _ HI _ _ Ht eq_refl) as Hd. unfold wants_dispatch in Hd.
  rewrite (proj2 (ms_is_empty_false _) Hw), bool_decide_eq_false_2 in Hd by set_solver. specialize (Hd eq_refl). lia.
Qed.

(** One connection starts to wait where nothing else could be dispatched. *)
Section one_waiter.
Context (now : Nanos) (open : TubeId → Prop) (A : Jobs) (R : Rels) (cid : ConnId) (wd : option Nanos) (r : RelInfo).
Context (Hr : R !! cid = Some r) (Hdrained : ∀ id j, ¬ eligible open A R id j).
Definition available (id : JobId) (j : JobRec) : Prop :=
  A !! id = Some j ∧ j_state j = JobState.Ready ∧ open (j_tube j) ∧ j_tube j ∈ ms_items r.1.1.2.

Lemma waiter_only tid cid' : waiting_for (starts_waiting cid wd R) tid cid' → cid' = cid ∨ waiting_for R tid cid'.
Proof using.
  intros (r' & Hr' & Hw & Hin). unfold starts_waiting in Hr'. destruct (decide (cid' = cid)) as [|Hne]; [by left|].
  rewrite lookup_alter_ne in Hr' by congruence. right. by exists r'.
Qed.
Lemma waiter_eligible id j : eligible open A (starts_waiting cid wd R) id j ↔ available id j.
Proof using Hr Hdrained.
  unfold available. split.
  - intros (Hj & Hs & Ho & cid' & Hw). split_and!; try done. pose proof Hw as [->|Hw']%waiter_only.
    + destruct Hw as (r' & Hr' & _ & Hin). unfold starts_waiting in Hr'. rewrite lookup_alter_eq, Hr in Hr'.
      by injection Hr' as <-.
    + exfalso. apply (Hdrained id j). split_and!; eauto.
  - intros (Hj & Hs & Ho & Hin). split_and!; try done. exists cid, (r.1.1, wd, true). split_and!; try done.
    unfold starts_waiting. by rewrite lookup_alter_eq, Hr.
Qed.
Lemma serves_one id j l A' R' :
  available id j → (∀ id' j', available id' j' → (j_pri j, id) ≼ (j_pri j', id')) →
  serves now open A (starts_waiting cid wd R) l A' R' →
  l = [(cid, Response.Reserved id (j_body j))] ∧ R' = answered cid R ∧
  ∃ seq, A' = <[id := reserved_as cid (sat_add64 now (secs (j_ttr j))) seq j]> A.
Proof using Hr Hdrained.
  intros Hav Hmin Hs. inversion Hs as [? ? Hno|? ? id' j' cid' seq l' ? ? Hel Hmin' Hw Hs']; subst.
  { exfalso. apply (Hno id j). by apply waiter_eligible. }
  pose proof Hel as Hel'%waiter_eligible. pose proof (Hmin _ _ Hel') as H1.
  pose proof (Hmin' id j ltac:(by apply waiter_eligible)) as H2.
  pose proof (ole_antisym _ _ H1 H2) as [= Hp <-]. destruct Hav as (Hj & _). destruct Hel' as (Hj' & Hst & Ho & _).
  rewrite Hj in Hj'. injection Hj' as <-.
  apply waiter_only in Hw as [->|Hw]; [|exfalso; apply (Hdrained id j); split_and!; eauto].
  assert (answered cid (starts_waiting cid wd R) = answered cid R) as HR1.
  { unfold answered, starts_waiting. apply map_eq. intros i. rewrite !lookup_alter. case_decide; [subst i|done].
    rewrite decide_True by done. by destruct (R !! cid). }
  rewrite HR1 in Hs'. inversion Hs' as [|? ? id2 j2 cid2 ? ? ? ? Hel2 _ Hw2]; subst; [by eauto|].
  exfalso. destruct Hel2 as (Hj2 & Hs2 & Ho2 & cid3 & r3 & Hr3 & Hw3 & Hin3). apply (Hdrained id2 j2).
  split_and!; try done.
  - destruct (decide (id2 = id)) as [->|]; [|by rewrite lookup_insert_ne in Hj2].
    rewrite lookup_insert_eq in Hj2. injection Hj2 as <-. done.
  - exists cid3. unfold answered in Hr3. destruct (decide (cid3 = cid)) as [->|].
    + rewrite lookup_alter_eq, Hr in Hr3. injection Hr3 as <-. done.
    + rewrite lookup_alter_ne in Hr3 by congruence. by exists r3.
Qed.
End one_waiter.

(** A pause that has passed opens its tube; where nobody waits for such a
    tube nothing can be dispatched yet. *)
Definition lapsed_unwatched (now : Nanos) (e : Engine) : Prop :=
  ∀ at_ tid cid, (at_, tid) ∈ e_pauses e → (at_ ≤ now)%N → ¬ waiting_for (rels e) tid cid.
Lemma unpaused_drained b now e :
  Inv b e → lapsed_unwatched now e → ∀ id j, ¬ eligible (unpaused now e) (e_jobs e) (rels e) id j.
Proof.
  intros HI Hp id j (Hj & Hs & Ho & cid & Hw). destruct (decide (set_Exists (λ p, p.2 = j_tube j) (e_pauses e))) as [([at_ tid] & Hin & Ht)|Hn].
  - cbn in Ht. subst tid. by apply (Hp _ _ cid Hin (Ho _ Hin)).
  - apply (rest_drained _ _ HI id j). split_and!; [done|done| |by exists cid]. intros at_ Hin. apply Hn. by exists (at_, j_tube j).
Qed.

(** A reserve with a job available is answered at once, with the best one. *)
Lemma cmd_reserve_best b now cid timeout e out c id j :
  Inv b e → budget_ok (grow b) → e_conns e !! cid = Some c → c_waiting c = false →
  lapsed_unwatched now e →
  let best id j := e_jobs e !! id = Some j ∧ j_state j = JobState.Ready ∧ unpaused now e (j_tube j) ∧
                   j_tube j ∈ ms_items (c_watch c) in
  best id j → (∀ id' j', best id' j' → (j_pri j, id) ≼ (j_pri j', id')) →
  let s := cmd_reserve now cid timeout (e, out) in
  s.2 = out ++ delivered (e_local_conns e) [(cid, Response.Reserved id (j_body j))] ∧
  ∃ seq, e_jobs s.1 = <[id := reserved_as cid (sat_add64 now (secs (j_ttr j))) seq j]> (e_jobs e) ∧ rels s.1 = rels e.
Proof.
  intros HI Hb Hc Hw Hp best Hj Hmin. unfold best in *. clear best.
  assert (rels e !! cid = Some (c_use_tube c, c_watch c, None, false)) as Hr.
  { unfold rels. rewrite lookup_fmap, Hc. simpl. pose proof (co_conns _ _ HI _ _ Hc) as [_ Hd]. by rewrite (Hd Hw), Hw. }
  assert (answered cid (rels e) = rels e) as Ha.
  { unfold answered. rewrite (alter_is_insert _ _ _ _ Hr). by apply insert_id. }
  destruct (cmd_reserve_waits b now cid timeout e out HI Hb c Hc Hw) as (l & R1 & Hs & Hcase).
  { right. destruct Hj as (Hj & Hst & _ & Hin). exists id, j. eauto. }
  destruct (serves_one _ _ _ _ _ _ _ Hr (unpaused_drained _ _ _ HI Hp) _ _ _ _ _ Hj Hmin Hs) as (-> & -> & seq & HA).
  rewrite Ha in Hcase. destruct Hcase as [(_ & Hrel & Ho)|(_ & Hwi & _)]; [by eauto|].
  exfalso. by eapply not_waits_in.
Qed.
