(* ===== verification/Keep.v ===== *)
(** * What a job keeps

    From its put to its delete a job stays in the job table with its id,
    tube, ttr, body and creation time: no input but the delete of a job
    removes it or changes these.  [kept_input] says what an input does to
    [stamps].

    [Durable π]: the view [π] sees neither the sessions nor the state of the
    tubes nor the counters; routines that do not write the journal then leave
    [π] alone. *)

From S2P Require Import Prelude Ms Proto Stats Model Engine Frames Inv InvFrame InvRefresh Queues Moves Tubes.
From S2P Require Import Waiting Rest Dispatch ConnOps Commands Sessions Connect Serve Effects.
From stdpp Require Import options.

Class Durable {A} (π : Engine → A) : Prop := {
  du_untouched :: Untouched π;
  du_cc f e : π (e <| e_cc ::= f |>) = π e;
  du_cmd f e : π (e <| e_cmd ::= f |>) = π e;
  du_pauses f e : π (e <| e_pauses ::= f |>) = π e;
  du_next f e : π (e <| e_next_job_id ::= f |>) = π e;
}.
#[export] Hint Mode Durable - ! : typeclass_instances.
(** A view that does not see the tube registry either. *)
Class Tubeless {A} (π : Engine → A) : Prop := {
  tl_durable :: Durable π;
  du_gc tid e : π (gc_tube_if_orphan tid e) = π e;
  du_find name e : π (find_or_make_tube name e).2 = π e;
}.
#[export] Hint Mode Tubeless - ! : typeclass_instances.
Lemma stamps_jobs e e' : e_jobs e' = e_jobs e → stamps e' = stamps e.
Proof. unfold stamps. by intros ->. Qed.
Lemma stamps_view e e' : view e' = view e → stamps e' = stamps e.
Proof. intros H%view_jobs. by apply stamps_jobs. Qed.
#[export] Instance tubeless_stamps : Tubeless stamps.
Proof.
  split; [by split; [apply _|..]|..].
  - intros tid e. apply stamps_jobs, jobs_gc.
  - intros name e. apply stamps_jobs. unfold find_or_make_tube. case_match; [done|]. by destruct (pop _) as [[]|].
Qed.

(** A view that does not see which connections there are. *)
Class Sessionless {A} (π : Engine → A) : Prop := un_conns f e : π (e <| e_conns ::= f |>) = π e.
#[export] Hint Mode Sessionless - ! : typeclass_instances.
#[export] Instance sessionless_stamps : Sessionless stamps.
Proof. done. Qed.

(** ** Routines *)
Section routines.
Context {A} (π : Engine → A) `{!Durable π}.
Implicit Types (e : Engine) (s : St).

Lemma du_bump p `{!Setter p} e : π (bump_cmd p e) = π e.
Proof using All. apply du_cmd. Qed.
Lemma du_upd_cc p `{!Setter p} f e : π (upd_cc p f e) = π e.
Proof using All. apply du_cc. Qed.
Lemma du_worker cid e : π (connsetworker cid e) = π e.
Proof using All. unfold connsetworker. repeat case_match; [done|by rewrite du_upd_cc, un_upd_conn by apply _|done]. Qed.
Lemma du_producer cid e : π (connsetproducer cid e) = π e.
Proof using All. unfold connsetproducer. repeat case_match; [done|by rewrite du_upd_cc, un_upd_conn by apply _|done]. Qed.
Lemma du_process_queue now s : π (process_queue now s).1 = π s.1.
Proof using All. apply (un_process_queue π). apply du_pauses. Qed.
End routines.

(** Push the view [π] through the routines of a command. *)
Ltac keep_at π := repeat first
  [ progress cbn [fst snd]
  | rewrite (un_reply π) | rewrite (un_reply_with π) | rewrite (du_process_queue π)
  | rewrite (un_insert_ready π) | rewrite (un_remove_ready π) | rewrite (un_insert_delayed π)
  | rewrite (un_remove_delayed π) | rewrite (un_insert_buried π) | rewrite (un_remove_buried π)
  | rewrite (un_pop_buried π) | rewrite (un_do_reserve π) | rewrite (un_do_unreserve π)
  | rewrite (un_remove_waiting π) | rewrite (un_enqueue_waiting π) | rewrite (un_refresh_tick π)
  | rewrite (du_worker π) | rewrite (du_producer π) | rewrite (du_gc (π := π)) | rewrite (du_bump π)
  | rewrite (un_upd_tube π) | rewrite (un_upd_conn π) | rewrite (un_upd_ct π) | rewrite (du_upd_cc π)
  | rewrite (du_next (π := π)) | rewrite (du_pauses (π := π)) | rewrite (un_upd_job π) by done
  | rewrite (un_conns (π := π)) | rewrite (un_ticks (π := π)) ].

Section generic.
Context {A} (π : Engine → A) `{!Durable π}.
Implicit Types (e : Engine) (s : St).
#[local] Ltac keep := keep_at π.

(** ** Time *)
Lemma du_expire_loop fuel cid now s : π (expire_loop fuel cid now s).1 = π s.1.
Proof using All.
  revert s. induction fuel as [|fuel IH]; intros [e out]; [done|]. cbn [expire_loop].
  repeat case_match; try done; rewrite IH; by keep.
Qed.
Lemma du_conn_timeout cid now s : π (conn_timeout cid now s).1 = π s.1.
Proof using All.
  unfold conn_timeout. pose proof (du_expire_loop (S (reserved_size s.1 cid)) cid now s) as H.
  destruct (expire_loop _ cid now s) as [e out]. cbn [fst] in H. cbv zeta. repeat case_match; by keep.
Qed.
Lemma du_delayed_loop fuel now s : π (delayed_loop fuel now s).1 = π s.1.
Proof using All.
  revert s. induction fuel as [|fuel IH]; intros [e out]; [done|]. cbn [delayed_loop].
  repeat case_match; try done. rewrite IH. by keep.
Qed.
Lemma du_timeout_loop fuel now P s : π (timeout_loop fuel now P s).1 = π s.1.
Proof using All.
  revert P s. induction fuel as [|fuel IH]; intros P s; [done|]. cbn [timeout_loop].
  case_match; [|done]. by rewrite IH, du_conn_timeout.
Qed.
Lemma du_tick now s : π (tick now s).1 = π s.1.
Proof using All.
  unfold tick, tick_body. repeat case_match; try done; rewrite du_timeout_loop, ?(du_process_queue π); apply du_delayed_loop.
Qed.

(** ** Commands *)
Lemma du_reserve now cid timeout s : π (cmd_reserve now cid timeout s).1 = π s.1.
Proof using All.
  destruct s as [e out]. unfold cmd_reserve. cbv zeta. set (e1 := connsetworker cid _).
  assert (π e1 = π e) as He by (unfold e1; destruct timeout; by keep).
  clearbody e1. destruct (conn_deadline_soon e1 cid now && _); [by keep|].
  match goal with |- context [process_queue now ?s] => pose proof (du_process_queue π now s) as Hpq;
    destruct (process_queue now s) as [e2 out2] end. cbn [fst] in Hpq. rewrite (un_enqueue_waiting π) in Hpq.
  destruct (_ && conn_waiting e2 cid); keep; congruence.
Qed.
Lemma du_reserve_job now cid id s : π (cmd_reserve_job now cid id s).1 = π s.1.
Proof using All. destruct s as [e out]. unfold cmd_reserve_job. cbv zeta. repeat case_match; by keep. Qed.
Lemma du_touch now cid id s : π (cmd_touch now cid id s).1 = π s.1.
Proof using All. destruct s as [e out]. unfold cmd_touch. cbv zeta. repeat case_match; by keep. Qed.
Lemma du_pause_tube now cid name delay s : π (cmd_pause_tube now cid name delay s).1 = π s.1.
Proof using All. destruct s as [e out]. unfold cmd_pause_tube. cbv zeta. repeat case_match; by keep. Qed.

Lemma du_connect `{!Sessionless π} c e : π (connect c e) = π e.
Proof using All. unfold connect. case_match; by keep. Qed.
Lemma du_half_close c s : π (half_close c s).1 = π s.1.
Proof using All. destruct s as [e out]. unfold half_close. case_match; by keep. Qed.
Lemma du_put_started now c b e : π (put_started now c b e) = π e.
Proof using All. unfold put_started. case_match; [|done]. destruct b; by keep. Qed.
Lemma du_put_rejected c why s : π (put_rejected c why s).1 = π s.1.
Proof using All. destruct s as [e out]. unfold put_rejected. case_match; [|done]. cbv zeta. keep. repeat case_match; by keep. Qed.
Lemma du_put_id now cid e : π (put_id now cid e).2 = π e.
Proof using All. unfold put_id. repeat case_match; by keep. Qed.
End generic.

Section tubeless.
Context {A} (π : Engine → A) `{!Tubeless π}.
Implicit Types (e : Engine) (s : St).
#[local] Ltac keep := keep_at π.

Lemma du_use cid name s : π (cmd_use cid name s).1 = π s.1.
Proof using All.
  destruct s as [e out]. unfold cmd_use. cbv zeta.
  pose proof (du_find (π := π) name (bump_cmd n_cmd_use e)) as H. rewrite (du_bump π) in H. destruct (find_or_make_tube _ _) as [tid e1].
  cbn [snd] in H. keep. case_match; by keep.
Qed.
Lemma du_watch cid name s : π (cmd_watch cid name s).1 = π s.1.
Proof using All.
  destruct s as [e out]. unfold cmd_watch. cbv zeta.
  pose proof (du_find (π := π) name (bump_cmd n_cmd_watch e)) as H. rewrite (du_bump π) in H. destruct (find_or_make_tube _ _) as [tid e1].
  cbn [snd] in H. keep. case_match; by keep.
Qed.
Lemma du_ignore cid name s : π (cmd_ignore cid name s).1 = π s.1.
Proof using All. destruct s as [e out]. unfold cmd_ignore. cbv zeta. repeat (case_match; try done); by keep. Qed.
(** A disconnect up to the removal of the connection. *)
Lemma du_disconnect_until now cid s : is_Some (e_conns s.1 !! cid) →
  ∃ e', π e' = π s.1 ∧ e_conns (disconnect now cid s).1 = delete cid (e_conns e') ∧ (Sessionless π → π (disconnect now cid s).1 = π s.1).
Proof using All.
  destruct s as [e out]. unfold disconnect. cbn [fst]. intros [c0 Hc0]. rewrite Hc0.
  set (e1 := do_remove_waiting_conn cid e). assert (π e1 = π e) as H1 by apply (un_remove_waiting π).
  clearbody e1. cbv zeta. set (l := match e_conns e1 !! cid with Some _ => _ | None => _ end). clearbody l.
  assert (∀ s, π (foldl (release_step cid now) s l).1 = π s.1) as Hl.
  { induction l as [|id l IH]; intros s; [done|]. cbn [foldl]. rewrite IH. destruct s as [e2 out2]. unfold release_step.
    keep. case_match; by keep. }
  specialize (Hl (e1, out)). destruct (foldl (release_step cid now) (e1, out) l) as [e2 out2]. cbn [fst] in Hl.
  assert (∀ l e, π (foldl unwatch_step e l) = π e) as Hw.
  { clear -Tubeless0. induction l as [|t l IH]; intros e; [done|]. cbn [foldl]. rewrite IH. unfold unwatch_step. by keep. }
  set (e3 := foldl unwatch_step _ _). assert (π e3 = π e) as H3.
  { unfold e3. rewrite Hw. keep. congruence. }
  clearbody e3. cbn [fst]. set (e4 := match e_conns e3 !! cid with Some _ => _ | None => e3 end).
  assert (π e4 = π e) as H4 by (unfold e4; case_match; by keep).
  clearbody e4. exists e4. split; [done|]. split; [|intros ?; rewrite (du_upd_cc π); repeat case_match; by keep].
  destruct (e_conns e4 !! cid) as [c4|] eqn:H; [by destruct (c_tick_key c4), (c_is_producer c4), (c_is_worker c4)|].
  cbn. by rewrite delete_id.
Qed.
Lemma du_disconnect `{!Sessionless π} now cid s : π (disconnect now cid s).1 = π s.1.
Proof using All.
  destruct (e_conns s.1 !! cid) as [c|] eqn:Hc; [|destruct s as [e out]; unfold disconnect; cbn [fst] in Hc; by rewrite Hc].
  destruct (du_disconnect_until now cid s ltac:(by rewrite Hc)) as (e' & _ & _ & H). auto.
Qed.
End tubeless.

(** ** Views that do not see the updates of the journal *)
Class Unlogged {A} (π : Engine → A) : Prop := {
  ul_durable :: Durable π;
  du_update id e : π (journal_update id e) = π e;
}.
#[export] Hint Mode Unlogged - ! : typeclass_instances.
#[export] Instance unlogged_stamps : Unlogged stamps.
Proof. split; [apply _|]. intros id e. apply stamps_view, view_journal_update. Qed.
Section unlogged.
Context {A} (π : Engine → A) `{!Unlogged π}.
Implicit Types (e : Engine) (s : St).
#[local] Ltac keep := repeat first [progress keep_at π | rewrite (du_update (π := π))].
Lemma du_kick_to_ready tid id now s : π (kick_to_ready tid id now s).1 = π s.1.
Proof using All. destruct s as [e out]. unfold kick_to_ready. by keep. Qed.
Lemma du_kick_buried n tid now k s : π (kick_buried_loop n tid now k s).2.1 = π s.1.
Proof using All.
  revert k s. induction n as [|n IH]; intros k [e out]; [done|]. cbn [kick_buried_loop].
  pose proof (un_pop_buried π tid e) as H. destruct (pop_buried_front tid e) as [[id|] e1]; cbn [fst snd] in *; [|done].
  by rewrite IH, du_kick_to_ready.
Qed.
Lemma du_kick_delayed n tid now k s : π (kick_delayed_loop n tid now k s).2.1 = π s.1.
Proof using All.
  revert k s. induction n as [|n IH]; intros k [e out]; [done|]. cbn [kick_delayed_loop].
  case_match; [|done]. case_match. rewrite IH, du_kick_to_ready. by keep.
Qed.
Lemma du_kick now cid n s : π (cmd_kick now cid n s).1 = π s.1.
Proof using All.
  destruct s as [e out]. unfold cmd_kick. cbv zeta. set (e1 := bump_cmd n_cmd_kick e).
  assert (π e1 = π e) as He by (unfold e1; by keep). clearbody e1. destruct (match tube e1 _ with Some _ => _ | None => _ end).
  - pose proof (du_kick_buried (N.to_nat n) (use_tube_of e1 cid) now 0 (e1, out)) as H.
    destruct (kick_buried_loop _ _ _ _ _) as [k s]. cbn [fst snd] in *. keep. congruence.
  - pose proof (du_kick_delayed (N.to_nat n) (use_tube_of e1 cid) now 0 (e1, out)) as H.
    destruct (kick_delayed_loop _ _ _ _ _) as [k s]. cbn [fst snd] in *. keep. congruence.
Qed.
Lemma du_release now cid id pri delay s : π (cmd_release now cid id pri delay s).1 = π s.1.
Proof using All. destruct s as [e out]. unfold cmd_release. cbv zeta. repeat case_match; by keep. Qed.
Lemma du_bury cid id pri s : π (cmd_bury cid id pri s).1 = π s.1.
Proof using All. destruct s as [e out]. unfold cmd_bury. cbv zeta. repeat case_match; by keep. Qed.
Lemma du_kick_job now cid id s : π (cmd_kick_job now cid id s).1 = π s.1.
Proof using All. destruct s as [e out]. unfold cmd_kick_job. cbv zeta. repeat case_match; keep; rewrite ?du_kick_to_ready; by keep. Qed.
End unlogged.
(** The commands but put and delete. *)
Lemma du_handle {A} (π : Engine → A) `{!Tubeless π} `{!Unlogged π} now cid cmd s :
  (∀ pri delay ttr body, cmd ≠ Command.Put pri delay ttr body) → (∀ id, cmd ≠ Command.Delete id) → π (handle now cid cmd s).1 = π s.1.
Proof.
  intros Hp Hd. unfold handle. destruct (e_conns s.1 !! cid); [|done].
  destruct cmd; try (by destruct (Hp _ _ _ _ eq_refl)); try (by destruct (Hd _ eq_refl));
    rewrite ?(du_use π), ?(du_reserve π), ?(du_reserve_job π), ?(du_release π), ?(du_bury π), ?(du_touch π),
    ?(du_watch π), ?(du_ignore π), ?(du_kick π), ?(du_kick_job π), ?(du_pause_tube π); try done;
    destruct s as [e out]; cbv [cmd_peek cmd_peek_ready cmd_peek_delayed cmd_peek_buried cmd_stats_job cmd_stats_tube
    cmd_stats cmd_list_tubes cmd_list_tube_used cmd_list_tubes_watched]; repeat case_match; by keep_at π.
Qed.

(** ** What put and delete do to the stamps *)
Lemma kept_journal_put id e : stamps (journal_put id e) = stamps e.
Proof. apply stamps_view, view_journal_put. Qed.
Ltac keep := repeat first
  [ progress keep_at stamps | rewrite kept_journal_put | rewrite (du_update (π := stamps)) ].

(** The job a put adds, and the id it gets: reserved by [put_started], or
    the next one. *)
Definition put_stamp (now : Nanos) (cid : ConnId) (ttr : N) (body : Bytes) (e : Engine) : Stamp :=
  let '(id, created_at) :=
    match e_conns e !! cid ≫= c_pending_put with
    | Some (mkPendingPut (Some id) created_at) => (id, created_at)
    | _ => (e_next_job_id e, now)
    end in
  (id, use_tube_of e cid, N.max ttr 1, body, created_at).
Lemma kept_put_id now cid e :
  let '(id, created_at, e1) := put_id now cid e in
  stamps e1 = stamps e ∧ e_draining e1 = e_draining e ∧ use_tube_of e1 cid = use_tube_of e cid ∧
  ∀ ttr body, put_stamp now cid ttr body e = (id, use_tube_of e cid, N.max ttr 1, body, created_at).
Proof.
  unfold put_id, put_stamp. set (e0 := upd_conn cid _ e).
  assert (∀ e1, view e1 = view e → stamps e1 = stamps e ∧ use_tube_of e1 cid = use_tube_of e cid) as Hv.
  { intros e1 H. split; [by apply stamps_view|]. by rewrite !use_tube_rels, (view_rels _ _ H). }
  assert (view e0 = view e) as H0 by (apply view_eq; [done|by apply rels_upd_conn|done|done]).
  assert (view (connsetproducer cid (bump_cmd n_cmd_put e0)) = view e) as H1 by (by rewrite view_producer).
  assert (e_draining (connsetproducer cid (bump_cmd n_cmd_put e0)) = e_draining e ∧
    e_next_job_id (connsetproducer cid (bump_cmd n_cmd_put e0)) = e_next_job_id e) as [Hd Hn].
  { unfold connsetproducer. by repeat case_match. }
  destruct (e_conns e !! cid ≫= c_pending_put) as [[[id|] created_at]|].
  - destruct (Hv _ H0). done.
  - destruct (Hv _ H1). rewrite Hn. done.
  - destruct (Hv _ H1). rewrite Hn. done.
Qed.
Lemma kept_put now cid pri delay ttr body s :
  let st := put_stamp now cid ttr body s.1 in
  stamps (cmd_put now cid pri delay ttr body s).1 =
    if e_draining s.1 then stamps s.1 else <[st.1.1.1.1 := st]> (stamps s.1).
Proof.
  destruct s as [e out]. unfold cmd_put. cbv zeta. cbn [fst].
  pose proof (kept_put_id now cid e) as H. destruct (put_id now cid e) as [[id created_at] e1].
  destruct H as (H1 & Hd & Hu & Hs). rewrite Hd, Hs, <-Hu. cbn [fst]. case_match; [by keep|].
  match goal with |- context [process_queue now ?s] => pose proof (du_process_queue stamps now s) as Hpq;
    destruct (process_queue now s) as [e2 out2] end. cbn [fst] in Hpq. keep. rewrite Hpq. keep.
  case_match; keep; rewrite <-H1; unfold stamps, upd_tube; cbn; by rewrite fmap_insert.
Qed.
Lemma kept_delete cid id s :
  stamps (cmd_delete cid id s).1 =
    match e_jobs s.1 !! id with
    | Some j => if deletable cid j then delete id (stamps s.1) else stamps s.1
    | None => stamps s.1
    end.
Proof.
  destruct s as [e out]. cbn [fst]. destruct (e_jobs e !! id) as [j|] eqn:Hj; [destruct (deletable cid j) eqn:Hd|].
  - destruct (cmd_delete_done cid id e out j Hj Hd) as (H & _). unfold stamps. by rewrite H, fmap_delete.
  - destruct (cmd_delete_not_found cid id e out) as [H _]; [|by apply stamps_view]. intros j' Hj'. congruence.
  - destruct (cmd_delete_not_found cid id e out) as [H _]; [|by apply stamps_view]. intros j' Hj'. congruence.
Qed.

(** ** Inputs *)
Definition kept_by (now : Nanos) (i : EngineInput) (e : Engine) : gmap JobId Stamp :=
  match i with
  | EngineInput.Command cid cmd =>
      match e_conns e !! cid, cmd with
      | Some _, Command.Put pri delay ttr body =>
          let st := put_stamp now cid ttr body e in
          if e_draining e then stamps e else <[st.1.1.1.1 := st]> (stamps e)
      | Some _, Command.Delete id =>
          match e_jobs e !! id with
          | Some j => if deletable cid j then delete id (stamps e) else stamps e
          | None => stamps e
          end
      | _, _ => stamps e
      end
  | _ => stamps e
  end.

Lemma kept_handle now cid cmd s :
  stamps (handle now cid cmd s).1 = kept_by now (EngineInput.Command cid cmd) s.1.
Proof.
  unfold kept_by. destruct (e_conns s.1 !! cid) as [c|] eqn:Hc; [|unfold handle; by rewrite Hc].
  destruct cmd; try (by apply (du_handle stamps)); unfold handle; rewrite Hc; [apply kept_put|apply kept_delete].
Qed.
Lemma kept_input now i s : stamps (apply_input now i s).1 = kept_by now i s.1.
Proof.
  unfold apply_input. rewrite (du_tick stamps). destruct i as [c|c|c|c too_big|c why|c cmd| |on]; cbn [run_input fst]; [..|apply kept_handle|done|done].
  - apply (du_connect stamps).
  - apply (du_disconnect stamps).
  - apply (du_half_close stamps).
  - apply (du_put_started stamps).
  - apply (du_put_rejected stamps).
Qed.

(** A closed connection is gone. *)
Lemma disconnect_gone now cid s : e_conns (disconnect now cid s).1 !! cid = None.
Proof.
  destruct s as [e out]. unfold disconnect. destruct (e_conns e !! cid) as [c0|] eqn:Hc; [|done].
  destruct (foldl (release_step cid now) _ _) as [e1 out1]. cbv zeta. cbn [fst].
  match goal with |- context [match e_conns ?x !! cid with Some c => gc_tube_if_orphan _ _ | None => _ end] => generalize x end.
  intros e2. match goal with |- context [upd_cc cur_conns decr (match e_conns ?x !! cid with Some _ => _ | None => _ end)] => generalize x end.
  intros e3. unfold upd_cc. cbn. destruct (e_conns e3 !! cid) as [c|] eqn:E; [|done].
  repeat case_match; cbn; apply lookup_delete_eq.
Qed.
