(* ===== verification/Sized.v ===== *)
(** * Journal entries fit the record format

    Jobs keep their numbers within the types of the source and their ids
    within what a record may carry, so every entry the engine journals is one
    the log can write and read back. *)

From S2P Require Import Prelude Ms Proto Stats Parse Model Format Engine Frames.
From stdpp Require Import options.

Record job_sized (j : JobRec) : Prop := {
  js_id : id_ok (j_id j);
  js_params : (j_pri j < 2 ^ 32 ∧ j_delay j < 2 ^ 32 ∧ j_ttr j < 2 ^ 32)%N;
  js_times : (j_created_at j < 2 ^ 64 ∧ j_deadline_at j < 2 ^ 64)%N;
  js_counts : (j_reserve_ct j < 2 ^ 32 ∧ j_timeout_ct j < 2 ^ 32 ∧ j_release_ct j < 2 ^ 32)%N;
  js_counts' : (j_bury_ct j < 2 ^ 32 ∧ j_kick_ct j < 2 ^ 32)%N;
}.
Definition pending_sized (p : PendingPut) : Prop :=
  (∀ id, pp_id p = Some id → id_ok id) ∧ (pp_created_at p < 2 ^ 64)%N.
Definition conn_sized (c : ConnState) : Prop := ∀ p, c_pending_put c = Some p → pending_sized p.
Definition entry_sized (x : JournalEntry) : Prop :=
  match x with
  | JournalEntry.Put record _ body => jobrec_ok record ∧ (N.of_nat (length body) ≤ MAX_JOB_SIZE_LIMIT)%N
  | JournalEntry.Update record => jobrec_ok record
  | JournalEntry.Delete id => id_ok id
  end.
Record sized (e : Engine) : Prop := {
  sz_jobs : map_Forall (λ id j, id_ok id ∧ job_sized j) (e_jobs e);
  sz_conns : map_Forall (λ _, conn_sized) (e_conns e);
  sz_journal : Forall entry_sized (e_journal e);
}.
Lemma job_record_ok j : job_sized j → jobrec_ok (job_record j).
Proof. intros [? (? & ? & ?) (? & ?) (? & ? & ?) (? & ?)]. unfold job_record. by destruct (j_state j); constructor. Qed.

(** ** Primitive steps *)
Create HintDb sized.
#[export] Hint Constants Opaque : sized.
Ltac same_size := intros [? ? ?]; by constructor.
Section steps.
Implicit Types (e : Engine).
Lemma sized_tubes f e : sized e → sized (e <| e_tubes ::= f |>).
Proof. same_size. Qed.
Lemma sized_ct f e : sized e → sized (e <| e_ct ::= f |>).
Proof. same_size. Qed.
Lemma sized_cc f e : sized e → sized (e <| e_cc ::= f |>).
Proof. same_size. Qed.
Lemma sized_cmd f e : sized e → sized (e <| e_cmd ::= f |>).
Proof. same_size. Qed.
Lemma sized_disp f e : sized e → sized (e <| e_dispatchable ::= f |>).
Proof. same_size. Qed.
Lemma sized_delay f e : sized e → sized (e <| e_delay_heads ::= f |>).
Proof. same_size. Qed.
Lemma sized_ticks f e : sized e → sized (e <| e_conn_ticks ::= f |>).
Proof. same_size. Qed.
Lemma sized_pauses f e : sized e → sized (e <| e_pauses ::= f |>).
Proof. same_size. Qed.
Lemma sized_seq f e : sized e → sized (e <| e_next_list_seq ::= f |>).
Proof. same_size. Qed.
Lemma sized_next f e : sized e → sized (e <| e_next_job_id ::= f |>).
Proof. same_size. Qed.
Lemma sized_ids f e : sized e → sized (e <| e_tube_ids ::= f |>).
Proof. same_size. Qed.
Lemma sized_order f e : sized e → sized (e <| e_tube_order ::= f |>).
Proof. same_size. Qed.
Lemma sized_free f e : sized e → sized (e <| e_free_tube_ids ::= f |>).
Proof. same_size. Qed.
Lemma sized_draining f e : sized e → sized (e <| e_draining ::= f |>).
Proof. same_size. Qed.
Lemma sized_upd_tube tid f e : sized e → sized (upd_tube tid f e).
Proof. apply sized_tubes. Qed.
Lemma sized_upd_ct p `{!Setter p} f e : sized e → sized (upd_ct p f e).
Proof. apply sized_ct. Qed.
Lemma sized_upd_cc p `{!Setter p} f e : sized e → sized (upd_cc p f e).
Proof. apply sized_cc. Qed.
Lemma sized_bump p `{!Setter p} e : sized e → sized (bump_cmd p e).
Proof. apply sized_cmd. Qed.
Lemma sized_upd_job id f e : (∀ j, job_sized j → job_sized (f j)) → sized e → sized (upd_job id f e).
Proof.
  intros Hf [Hj Hc He]. constructor; [|done|done]. intros i j. cbn. rewrite lookup_alter_Some.
  intros [(<- & j' & [Hid Hs]%Hj & ->)|[_ Hi]]; [split; auto|by eapply Hj].
Qed.
Lemma sized_upd_conn cid f e : (∀ c, conn_sized c → conn_sized (f c)) → sized e → sized (upd_conn cid f e).
Proof.
  intros Hf [Hj Hc He]. constructor; [done| |done]. intros i j. cbn. rewrite lookup_alter_Some.
  intros [(<- & j' & Hj' & ->)|[_ Hi]]; [by eapply Hf, Hc|by eapply Hc].
Qed.
Lemma sized_journal x e : entry_sized x → sized e → sized (e <| e_journal ::= (.++ [x]) |>).
Proof. intros Hx [Hj Hc He]. constructor; [done|done|]. cbn. apply Forall_app. split; [done|]. by constructor. Qed.
Lemma sized_update id e : sized e → sized (journal_update id e).
Proof.
  intros HS. unfold journal_update. repeat case_match; try done. apply sized_journal; [|done]. by eapply job_record_ok, (sz_jobs _ HS).
Qed.
Lemma sized_put id e :
  (∀ j, e_jobs e !! id = Some j → N.of_nat (length (j_body j)) ≤ MAX_JOB_SIZE_LIMIT)%N → sized e → sized (journal_put id e).
Proof.
  intros Hb HS. unfold journal_put. repeat case_match; try done. apply sized_journal; [|done]. split; [by eapply job_record_ok, (sz_jobs _ HS)|by apply Hb].
Qed.
Lemma sized_delete id e : id_ok id → sized e → sized (journal_delete id e).
Proof. intros Hid HS. unfold journal_delete. case_match; [|done]. by apply sized_journal. Qed.
Lemma incr32_lt n : (incr32 n < 2 ^ 32)%N.
Proof. unfold incr32, wrap32. by apply N.mod_lt. Qed.
Lemma u32_lt n : u32 n = true → (n < 2 ^ 32)%N.
Proof. unfold u32, u32_max. rewrite N.leb_le. lia. Qed.
Lemma sat_add64_lt a b : (sat_add64 a b < 2 ^ 64)%N.
Proof. unfold sat_add64, u64_max. lia. Qed.
End steps.
#[export] Hint Resolve sized_tubes sized_ct sized_cc sized_cmd sized_disp sized_delay sized_ticks sized_pauses sized_seq sized_next
  sized_ids sized_order sized_free sized_draining sized_upd_tube sized_upd_ct sized_upd_cc sized_bump sized_upd_job sized_upd_conn
  sized_update : sized.
#[export] Hint Resolve incr32_lt sat_add64_lt : sized.
#[export] Hint Extern 2 (∀ j, job_sized j → job_sized _) =>
  (intros ? [? (? & ? & ?) (? & ?) (? & ? & ?) (? & ?)]; constructor; cbn; auto with sized) : sized.
#[export] Hint Extern 2 (∀ c, conn_sized c → conn_sized _) =>
  (let H := fresh in intros ? H; repeat case_match; exact H) : sized.
Ltac size := repeat case_match; simplify_eq; auto 20 with sized.

(** ** Routines *)
Section routines.
Implicit Types (e : Engine) (s : Engine * Outbox).
Lemma sized_refresh_disp tid e : sized e → sized (refresh_dispatchable tid e).
Proof. intros. unfold refresh_dispatchable. size. Qed.
Lemma sized_refresh_delay tid e : sized e → sized (refresh_delay_head tid e).
Proof. intros. unfold refresh_delay_head. size. Qed.
Lemma sized_refresh_tick cid e : sized e → sized (refresh_conn_tick cid e).
Proof. intros. unfold refresh_conn_tick. size. Qed.
#[local] Hint Resolve sized_refresh_disp sized_refresh_delay sized_refresh_tick : sized.
Lemma sized_insert_ready tid id e : sized e → sized (insert_ready tid id e).
Proof. intros. unfold insert_ready. size. Qed.
Lemma sized_remove_ready tid id e : sized e → sized (remove_ready tid id e).
Proof. intros. unfold remove_ready. size. Qed.
Lemma sized_insert_delayed tid id now d e : sized e → sized (insert_delayed tid id (sat_add64 now d) e).
Proof. intros. unfold insert_delayed. size. Qed.
Lemma sized_remove_delayed tid id e : sized e → sized (remove_delayed tid id e).
Proof. intros. unfold remove_delayed. size. Qed.
Lemma sized_insert_buried tid id e : sized e → sized (insert_buried tid id e).
Proof. intros. unfold insert_buried. size. Qed.
Lemma sized_remove_buried tid id e : sized e → sized (remove_buried tid id e).2.
Proof. intros. unfold remove_buried. repeat case_match; cbn [snd]; auto with sized. Qed.
Lemma sized_pop_buried tid e : sized e → sized (pop_buried_front tid e).2.
Proof. intros. unfold pop_buried_front. repeat case_match; cbn [snd]; auto with sized. Qed.
Lemma sized_do_reserve cid id now e : sized e → sized (do_reserve cid id now e).
Proof. intros. unfold do_reserve. size. Qed.
Lemma sized_do_unreserve cid id e : sized e → sized (do_unreserve cid id e).
Proof. intros. unfold do_unreserve. size.
Qed.
Lemma sized_fold {B} (step : Engine → B → Engine) l e : (∀ e x, sized e → sized (step e x)) → sized e → sized (foldl step e l).
Proof. intros Hs. revert e. induction l as [|x l IH]; intros e He; [done|]. cbn [foldl]. auto. Qed.
Lemma sized_remove_waiting cid e : sized e → sized (do_remove_waiting_conn cid e).
Proof.
  intros. unfold do_remove_waiting_conn. repeat case_match; try done. apply sized_refresh_tick, sized_fold; [|auto with sized].
  intros. unfold unwait_step. auto with sized.
Qed.
Lemma sized_enqueue_waiting cid wd e : sized e → sized (enqueue_waiting_conn cid wd e).
Proof.
  intros. unfold enqueue_waiting_conn. repeat case_match; try done. apply sized_refresh_tick, sized_fold; [|auto with sized].
  intros. unfold wait_step. auto with sized.
Qed.
Lemma sized_reply cid r s : sized s.1 → sized (reply cid r s).1.
Proof. destruct s. unfold reply. by case_match. Qed.
Lemma sized_reply_with cid f s : sized s.1 → sized (reply_with cid f s).1.
Proof. destruct s. unfold reply_with. by case_match. Qed.
#[local] Hint Resolve sized_insert_ready sized_remove_ready sized_do_reserve sized_remove_waiting : sized.
Lemma sized_dispatch now id tid s : sized s.1 → sized (dispatch now id tid s).1.
Proof.
  destruct s as [e out]. intros. unfold dispatch. repeat case_match; simplify_eq; try apply sized_reply_with; cbn [fst] in *; auto 20 with sized.
Qed.
Lemma sized_process_loop fuel now s : sized s.1 → sized (process_queue_loop fuel now s).1.
Proof.
  revert s. induction fuel as [|fuel IH]; intros s Hs; [done|]. cbn [process_queue_loop]. repeat case_match; try done. by apply IH, sized_dispatch.
Qed.
Lemma sized_clear_loop fuel now e : sized e → sized (clear_pauses_loop fuel now e).
Proof. revert e. induction fuel as [|fuel IH]; intros e He; [done|]. cbn [clear_pauses_loop]. repeat case_match; auto 20 with sized. Qed.
Lemma sized_process_queue now s : sized s.1 → sized (process_queue now s).1.
Proof. destruct s as [e out]. intros. unfold process_queue, clear_expired_pauses. by apply sized_process_loop, sized_clear_loop. Qed.
Lemma sized_worker cid e : sized e → sized (connsetworker cid e).
Proof. intros. unfold connsetworker. size. Qed.
Lemma sized_producer cid e : sized e → sized (connsetproducer cid e).
Proof. intros. unfold connsetproducer. size. Qed.
Lemma sized_gc tid e : sized e → sized (gc_tube_if_orphan tid e).
Proof. intros. unfold gc_tube_if_orphan. size. Qed.
Lemma sized_find name e : sized e → sized (find_or_make_tube name e).2.
Proof. intros. unfold find_or_make_tube. repeat case_match; simplify_eq; cbn [snd]; auto 20 with sized. Qed.
End routines.
#[export] Hint Resolve sized_refresh_disp sized_refresh_delay sized_refresh_tick sized_insert_ready sized_remove_ready sized_insert_delayed
  sized_remove_delayed sized_insert_buried sized_remove_buried sized_pop_buried sized_do_reserve sized_do_unreserve sized_remove_waiting
  sized_enqueue_waiting sized_reply sized_reply_with sized_process_queue sized_worker sized_producer sized_gc sized_find : sized.

(** ** Time *)
Section inputs.
Implicit Types (e : Engine) (s : Engine * Outbox).
Lemma sized_expire_loop fuel cid now s : sized s.1 → sized (expire_loop fuel cid now s).1.
Proof.
  revert s. induction fuel as [|fuel IH]; intros [e out] Hs; [done|]. cbn [expire_loop fst] in *.
  repeat case_match; try done; apply IH, sized_process_queue; cbn [fst]; auto 20 with sized.
Qed.
Lemma sized_conn_timeout cid now s : sized s.1 → sized (conn_timeout cid now s).1.
Proof.
  intros Hs. unfold conn_timeout. pose proof (sized_expire_loop (S (reserved_size s.1 cid)) cid now s Hs) as H.
  destruct (expire_loop _ cid now s) as [e out]. cbn [fst] in H. cbv zeta. repeat case_match; try apply sized_reply; cbn [fst]; auto with sized.
Qed.
Lemma sized_delayed_loop fuel now s : sized s.1 → sized (delayed_loop fuel now s).1.
Proof.
  revert s. induction fuel as [|fuel IH]; intros [e out] Hs; [done|]. cbn [delayed_loop fst] in *.
  repeat case_match; try done. apply IH, sized_process_queue. cbn [fst]. auto with sized.
Qed.
Lemma sized_timeout_loop fuel now P s : sized s.1 → sized (timeout_loop fuel now P s).1.
Proof.
  revert P s. induction fuel as [|fuel IH]; intros P s Hs; [done|]. cbn [timeout_loop].
  case_match; [|done]. by apply IH, sized_conn_timeout.
Qed.
Lemma sized_tick now s : sized s.1 → sized (tick now s).1.
Proof.
  intros Hs. unfold tick, tick_body. repeat case_match; try done; apply sized_timeout_loop; repeat apply sized_process_queue; by apply sized_delayed_loop.
Qed.

(** ** Commands *)
Lemma sized_reserve now cid timeout s : sized s.1 → sized (cmd_reserve now cid timeout s).1.
Proof.
  destruct s as [e out]. cbn [fst]. intros Hs. unfold cmd_reserve. cbv zeta. set (e1 := connsetworker cid _).
  assert (sized e1) as He by (unfold e1; destruct timeout; auto with sized).
  clearbody e1. destruct (conn_deadline_soon e1 cid now && _); [by apply sized_reply|].
  match goal with |- context [process_queue now ?s] => pose proof (sized_process_queue now s) as Hpq;
    destruct (process_queue now s) as [e2 out2] end. cbn [fst] in Hpq. destruct (_ && conn_waiting e2 cid); [apply sized_reply|]; cbn [fst]; auto with sized.
Qed.
Lemma sized_use cid name s : sized s.1 → sized (cmd_use cid name s).1.
Proof.
  destruct s as [e out]. cbn [fst]. intros Hs. unfold cmd_use. cbv zeta.
  pose proof (sized_find name (bump_cmd n_cmd_use e) (sized_bump _ _ Hs)) as H. destruct (find_or_make_tube _ _) as [tid e1]. cbn [snd] in H.
  apply sized_reply. cbn [fst]. case_match; auto 20 with sized.
Qed.
Lemma sized_watch cid name s : sized s.1 → sized (cmd_watch cid name s).1.
Proof.
  destruct s as [e out]. cbn [fst]. intros Hs. unfold cmd_watch. cbv zeta.
  pose proof (sized_find name (bump_cmd n_cmd_watch e) (sized_bump _ _ Hs)) as H. destruct (find_or_make_tube _ _) as [tid e1]. cbn [snd] in H.
  apply sized_reply. cbn [fst]. set (b := match e_conns e1 !! cid with Some _ => _ | None => _ end). destruct b; auto with sized.
Qed.
Lemma sized_ignore cid name s : sized s.1 → sized (cmd_ignore cid name s).1.
Proof. destruct s as [e out]. cbn [fst]. intros Hs. unfold cmd_ignore. cbv zeta. repeat (case_match; try done); apply sized_reply; cbn [fst]; auto with sized. Qed.
Lemma sized_reserve_job now cid id s : sized s.1 → sized (cmd_reserve_job now cid id s).1.
Proof.
  destruct s as [e out]. cbn [fst]. intros Hs. unfold cmd_reserve_job. cbv zeta.
  repeat case_match; first [apply sized_reply_with|apply sized_reply]; cbn [fst]; auto 20 with sized.
Qed.
Lemma sized_release now cid id pri delay s :
  (pri < 2 ^ 32)%N → (delay < 2 ^ 32)%N → sized s.1 → sized (cmd_release now cid id pri delay s).1.
Proof.
  destruct s as [e out]. cbn [fst]. intros Hp Hd Hs. unfold cmd_release. cbv zeta.
  repeat case_match; apply sized_reply; try apply sized_process_queue; cbn [fst]; auto 20 with sized.
Qed.
Lemma sized_bury cid id pri s : (pri < 2 ^ 32)%N → sized s.1 → sized (cmd_bury cid id pri s).1.
Proof. destruct s as [e out]. cbn [fst]. intros Hp Hs. unfold cmd_bury. cbv zeta. repeat case_match; apply sized_reply; cbn [fst]; auto 20 with sized. Qed.
Lemma sized_touch now cid id s : sized s.1 → sized (cmd_touch now cid id s).1.
Proof.
  destruct s as [e out]. cbn [fst]. intros Hs. unfold cmd_touch. cbv zeta. destruct (reserved_by _ _ _); apply sized_reply; cbn [fst]; auto 20 with sized.
Qed.
Lemma sized_kick_to_ready tid id now s : sized s.1 → sized (kick_to_ready tid id now s).1.
Proof. destruct s as [e out]. cbn [fst]. intros Hs. unfold kick_to_ready. apply sized_process_queue. cbn [fst]. auto 20 with sized. Qed.
Lemma sized_kick_buried n tid now k s : sized s.1 → sized (kick_buried_loop n tid now k s).2.1.
Proof.
  revert k s. induction n as [|n IH]; intros k [e out] Hs; [done|]. cbn [kick_buried_loop fst] in *.
  pose proof (sized_pop_buried tid e Hs) as H. destruct (pop_buried_front tid e) as [[id|] e1]; cbn [fst snd] in *; [|done].
  by apply IH, sized_kick_to_ready.
Qed.
Lemma sized_kick_delayed n tid now k s : sized s.1 → sized (kick_delayed_loop n tid now k s).2.1.
Proof.
  revert k s. induction n as [|n IH]; intros k [e out] Hs; [done|]. cbn [kick_delayed_loop fst] in *.
  case_match; [|done]. case_match. apply IH, sized_kick_to_ready. cbn [fst]. auto with sized.
Qed.
Lemma sized_kick now cid n s : sized s.1 → sized (cmd_kick now cid n s).1.
Proof.
  destruct s as [e out]. cbn [fst]. intros Hs. unfold cmd_kick. cbv zeta. set (e1 := bump_cmd n_cmd_kick e).
  assert (sized e1) as He by (unfold e1; auto with sized). clearbody e1. destruct (match tube e1 _ with Some _ => _ | None => _ end).
  - pose proof (sized_kick_buried (N.to_nat n) (use_tube_of e1 cid) now 0 (e1, out) He) as H.
    destruct (kick_buried_loop _ _ _ _ _) as [k s]. by apply sized_reply.
  - pose proof (sized_kick_delayed (N.to_nat n) (use_tube_of e1 cid) now 0 (e1, out) He) as H.
    destruct (kick_delayed_loop _ _ _ _ _) as [k s]. by apply sized_reply.
Qed.
Lemma sized_kick_job now cid id s : sized s.1 → sized (cmd_kick_job now cid id s).1.
Proof.
  destruct s as [e out]. cbn [fst]. intros Hs. unfold cmd_kick_job. cbv zeta.
  repeat case_match; apply sized_reply; try apply sized_kick_to_ready; cbn [fst]; auto with sized.
Qed.
Lemma sized_pause_tube now cid name delay s : sized s.1 → sized (cmd_pause_tube now cid name delay s).1.
Proof. destruct s as [e out]. cbn [fst]. intros Hs. unfold cmd_pause_tube. cbv zeta. repeat case_match; try apply sized_reply; cbn [fst]; auto 20 with sized. Qed.
Lemma sized_cmd_delete cid id s : sized s.1 → sized (cmd_delete cid id s).1.
Proof.
  destruct s as [e out]. cbn [fst]. intros Hs. unfold cmd_delete. cbv zeta. set (e0 := bump_cmd n_cmd_delete e).
  assert (sized e0) as H0 by (unfold e0; auto with sized). clearbody e0.
  destruct (e_jobs e0 !! id) as [j|] eqn:Hj; [|by apply sized_reply]. match goal with |- context [let '(ok, e1) := ?x in _] => set (r := x) end.
  assert (sized r.2) as Hr by (unfold r; repeat case_match; cbn [snd]; auto with sized). destruct r as [ok e1]. cbn [snd] in Hr.
  destruct ok; apply sized_reply; cbn [fst]; [|done]. apply sized_gc, sized_delete; [by apply (sz_jobs _ H0 id j)|].
  apply (sized_upd_tube (j_tube j) (λ t, t <| t_stat ::= set_field ts_total_delete_ct incr64 |> <| t_job_ref_ct ::= decr |>)) in Hr.
  destruct Hr as [Hrj Hrc Hre]. constructor; [|done|done]. cbn. by apply map_Forall_delete.
Qed.

Lemma sized_disconnect now cid s : sized s.1 → sized (disconnect now cid s).1.
Proof.
  destruct s as [e out]. cbn [fst]. intros Hs. unfold disconnect. destruct (e_conns e !! cid) as [c0|]; [|done].
  set (e1 := do_remove_waiting_conn cid e). assert (sized e1) as H1 by (unfold e1; auto with sized).
  clearbody e1. cbv zeta. set (l := match e_conns e1 !! cid with Some _ => _ | None => _ end). clearbody l.
  assert (∀ s, sized s.1 → sized (foldl (release_step cid now) s l).1) as Hl.
  { induction l as [|id l IH]; intros s2 Hs2; [done|]. cbn [foldl]. apply IH. destruct s2 as [e2 out2]. cbn [fst] in *. unfold release_step.
    apply sized_process_queue. cbn [fst]. case_match; auto with sized. }
  specialize (Hl (e1, out) H1). destruct (foldl (release_step cid now) (e1, out) l) as [e2 out2]. cbn [fst] in Hl.
  set (e3 := foldl unwatch_step _ _). assert (sized e3) as H3.
  { unfold e3. apply sized_fold; [|auto with sized]. intros. unfold unwatch_step. auto with sized. }
  clearbody e3. cbn [fst]. set (e4 := match e_conns e3 !! cid with Some _ => _ | None => e3 end).
  assert (sized e4) as H4 by (unfold e4; case_match; auto with sized). clearbody e4.
  assert (∀ e, sized e → sized (e <| e_conns ::= delete cid |>)) as Hdel.
  { intros e5 [? Hc ?]. constructor; [done| |done]. cbn. by apply map_Forall_delete. }
  repeat case_match; auto 20 with sized.
Qed.

(** ** New jobs *)
Definition body_ok (cmd : Command) : bool :=
  match cmd with Command.Put _ _ _ body => (N.of_nat (length body) <=? MAX_JOB_SIZE_LIMIT)%N | _ => true end.
(** Commands as the decoder lets them through. *)
Definition input_ok (i : EngineInput) : bool :=
  match i with EngineInput.Command _ cmd => command_ok cmd && body_ok cmd | _ => true end.
Section clock.
Context (now : Nanos) (Hnow : (now ≤ u64_max)%N).
Lemma sized_put_id cid e :
  sized e → id_ok (e_next_job_id e) →
  let '(id, created, e1) := put_id now cid e in id_ok id ∧ (created < 2 ^ 64)%N ∧ sized e1.
Proof using Hnow.
  intros Hs Hn. unfold put_id. assert (sized (upd_conn cid (λ c, c <| c_pending_put := None |>) e)) as H0 by (apply sized_upd_conn; [by intros c _ p|done]).
  assert (e_next_job_id (connsetproducer cid (bump_cmd n_cmd_put (upd_conn cid (λ c, c <| c_pending_put := None |>) e))) = e_next_job_id e) as Hid
    by (unfold connsetproducer; by repeat case_match).
  assert (now < 2 ^ 64)%N by (unfold u64_max in Hnow; lia).
  destruct (e_conns e !! cid ≫= c_pending_put) as [[[id|] created]|] eqn:Hp; rewrite ?Hid; split_and!; auto with sized.
  all: apply bind_Some in Hp as (c & Hc & Hp); destruct (sz_conns _ Hs _ _ Hc _ Hp) as [Hi Ht]; first [by apply Hi|exact Ht].
Qed.
Lemma sized_cmd_put cid pri delay ttr body s :
  (pri < 2 ^ 32)%N → (delay < 2 ^ 32)%N → (ttr < 2 ^ 32)%N → (N.of_nat (length body) ≤ MAX_JOB_SIZE_LIMIT)%N →
  id_ok (e_next_job_id s.1) → sized s.1 → sized (cmd_put now cid pri delay ttr body s).1.
Proof using Hnow.
  destruct s as [e out]. cbn [fst]. intros Hp Hd Ht Hb Hn Hs. unfold cmd_put. cbv zeta. pose proof (sized_put_id cid e Hs Hn) as H.
  destruct (put_id now cid e) as [[id created] e1]. destruct H as (Hid & Hc & H1). destruct (e_draining e1); [by apply sized_reply|].
  set (j := mkJobRec id _ _ _ _ _ _ _ _ _ _ _ _ _ _ _ _). assert (job_sized j) as Hj.
  { constructor; unfold j; cbn; try done; lia. }
  assert (sized (e1 <| e_jobs ::= <[id := j]> |>)) as H2.
  { destruct H1 as [H1j H1c H1e]. constructor; [|done|done]. cbn. by apply map_Forall_insert_2. }
  match goal with |- context [process_queue now ?s] => pose proof (sized_process_queue now s) as Hpq;
    destruct (process_queue now s) as [e4 out4] end. apply sized_reply. cbn [fst] in *.
  apply sized_upd_tube, sized_upd_ct, Hpq, sized_put; [|case_match; auto 20 with sized].
  set (e2 := upd_tube _ _ _). intros j' Hj'. assert (stamp j' = stamp j) as Hst; [|by injection Hst as _ _ _ ->].
  apply (f_equal (fmap stamp)) in Hj'. change (stamp <$> e_jobs ?e3 !! id) with (stamp <$> (e_jobs e3 !! id)) in Hj'. rewrite <-lookup_fmap in Hj'.
  assert (stamps (if (0 <? delay)%N then insert_delayed (use_tube_of e1 cid) id (sat_add64 now (secs delay)) e2 else insert_ready (use_tube_of e1 cid) id e2) !! id = Some (stamp j)) as Hs2.
  { trans (stamps e2 !! id); [case_match; by rewrite ?(un_insert_delayed stamps), ?(un_insert_ready stamps)|]. unfold stamps, e2. cbn. by rewrite fmap_insert, lookup_insert_eq. }
  unfold stamps in Hs2. rewrite Hs2 in Hj'. symmetry. exact (inj Some _ _ Hj').
Qed.
Lemma sized_handle cid cmd s :
  command_ok cmd = true → body_ok cmd = true → id_ok (e_next_job_id s.1) → sized s.1 → sized (handle now cid cmd s).1.
Proof using Hnow.
  intros Hc Hb Hn Hs. unfold handle. destruct (e_conns s.1 !! cid); [|done].
  destruct s as [e out]. cbn [fst snd] in *.
  destruct cmd; cbn [command_ok body_ok] in Hc, Hb; lazymatch goal with
    | |- sized (cmd_put _ _ _ _ _ _ _).1 => rewrite !andb_true_iff in Hc; apply sized_cmd_put; [apply u32_lt; tauto..|by apply N.leb_le|done|done]
    | |- sized (cmd_use _ _ _).1 => by apply sized_use
    | |- sized (cmd_reserve _ _ _ _).1 => by apply sized_reserve
    | |- sized (cmd_reserve_job _ _ _ _).1 => by apply sized_reserve_job
    | |- sized (cmd_delete _ _ _).1 => by apply sized_cmd_delete
    | |- sized (cmd_release _ _ _ _ _ _).1 => rewrite !andb_true_iff in Hc; apply sized_release; [apply u32_lt; tauto..|done]
    | |- sized (cmd_bury _ _ _ _).1 => rewrite !andb_true_iff in Hc; apply sized_bury; [apply u32_lt; tauto|done]
    | |- sized (cmd_touch _ _ _ _).1 => by apply sized_touch
    | |- sized (cmd_watch _ _ _).1 => by apply sized_watch
    | |- sized (cmd_ignore _ _ _).1 => by apply sized_ignore
    | |- sized (cmd_kick _ _ _ _).1 => by apply sized_kick
    | |- sized (cmd_kick_job _ _ _ _).1 => by apply sized_kick_job
    | |- sized (cmd_pause_tube _ _ _ _ _).1 => by apply sized_pause_tube
    | _ => cbv [cmd_peek cmd_peek_ready cmd_peek_delayed cmd_peek_buried cmd_stats_job cmd_stats_tube
        cmd_stats cmd_list_tubes cmd_list_tube_used cmd_list_tubes_watched]; repeat case_match;
        lazymatch goal with
        | |- sized (reply _ _ _).1 => apply sized_reply
        | |- sized (reply_with _ _ _).1 => apply sized_reply_with
        | _ => idtac
        end; cbn [fst]; auto with sized
    end.
Qed.
Lemma sized_input i s :
  input_ok i = true → id_ok (e_next_job_id s.1) → sized s.1 → sized (apply_input now i s).1.
Proof using Hnow.
  intros Hi Hn Hs. unfold apply_input. apply sized_tick. destruct s as [e out]. cbn [fst] in *.
  destruct i as [c|c|c|c too_big|c why|c cmd| |on]; cbn [run_input fst] in *.
  - unfold connect. assert (∀ e, sized e → sized (e <| e_conns ::= <[c := ConnState_new DEFAULT_TUBE]> |>)) as Hnew.
    { intros e1 [? Hcs ?]. constructor; [done| |done]. cbn. apply map_Forall_insert_2; [by intros p|done]. }
    repeat case_match; auto 20 with sized.
  - by apply sized_disconnect.
  - unfold half_close. case_match; [apply sized_reply|]; cbn [fst]; auto with sized.
  - unfold put_started. case_match; [|done]. assert (now < 2 ^ 64)%N as Hlt by (unfold u64_max in Hnow; lia).
    destruct too_big; (apply sized_upd_conn; [intros cs _ p [= <-]; split; [|exact Hlt]; cbn|auto with sized]); [done|]. intros id [= <-].
    unfold connsetproducer. by repeat case_match.
  - unfold put_rejected. case_match; [|done]. apply sized_reply. cbn [fst].
    assert (sized (upd_conn c (λ c, c <| c_pending_put := None |>) e)) as H0 by (apply sized_upd_conn; [by intros ? _ p|done]).
    repeat case_match; auto 20 with sized.
  - apply andb_true_iff in Hi as [? ?]. by apply sized_handle.
  - done.
  - unfold set_draining. auto with sized.
Qed.
End clock.
End inputs.
