(* ===== verification/Journal.v ===== *)
(** * The journal follows the job table

    Applied to the jobs a log holds, the journal entries of an input give the
    jobs of the engine: the same ids, each with the tube name, body, ttr and
    creation time of its job ([tracked], [named]).  Priorities, states and
    counters are those of the job's last entry. *)

From S2P Require Import Prelude Ms Proto Stats Parse Model Format Engine Frames Inv InvFrame InvRefresh Queues Moves.
From S2P Require Import Tubes Waiting Rest Dispatch ConnOps Commands Sessions Connect Tick Reach Serve Effects Keep.
From S2P Require Import Replay Scan Sized.
From stdpp Require Import options.

(** The jobs of a log that held [L], after the journal. *)
Definition logged (L : Live) (e : Engine) : Live := live_run L (entry_rec <$> e_journal e).
Definition same_job (rj : RecoveredJob) (st : Stamp) : Prop :=
  let '(id, _, ttr, body, created) := st in
  r_id (rj_record rj) = id ∧ N.max (r_ttr (rj_record rj)) 1 = ttr ∧ r_created_at (rj_record rj) = created ∧ rj_body rj = body.
Definition stamp_tube (st : Stamp) : TubeId := st.1.1.1.2.
Definition stamp_id (st : Stamp) : JobId := st.1.1.1.1.
Record tracked (L : Live) (e : Engine) : Prop := {
  tr_on : cfg_journal (e_cfg e) = true;
  tr_ids : ∀ id st, stamps e !! id = Some st → stamp_id st = id;
  tr_jobs : ∀ id, option_Forall2 same_job (logged L e !! id) (stamps e !! id);
}.

(** The journal with what a job keeps. *)
Definition journaled (e : Engine) := (stamps e, e_journal e, e_cfg e).
#[export] Instance sessionless_journaled : Sessionless journaled.
Proof. done. Qed.
#[export] Instance tubeless_journaled : Tubeless journaled.
Proof.
  assert (∀ e e', stamps e' = stamps e → e_journal e' = e_journal e → e_cfg e' = e_cfg e → journaled e' = journaled e) as H
    by (unfold journaled; by intros ? ? -> -> ->).
  split; [split; [split|..]|..]; intros; apply H; try done; try (by apply un_job); try (by apply (du_gc (π := stamps))); try (by apply (du_find (π := stamps))).
  all: unfold gc_tube_if_orphan, find_or_make_tube; repeat case_match; simplify_eq; done.
Qed.

Section tracked.
Context (L : Live).
Implicit Types (e : Engine) (s : St).
#[local] Abbreviation tracked := (tracked L).
#[local] Ltac keep := keep_at journaled.

Lemma tracked_view e e' : journaled e' = journaled e → tracked e → tracked e'.
Proof.
  intros [= Hs Hj Hc] [Hon Hids Hjobs]. split; unfold logged in *; rewrite ?Hs, ?Hj, ?Hc; done.
Qed.
Lemma stamp_record j : let r := job_record j in r_id r = j_id j ∧ r_ttr r = j_ttr j ∧ r_created_at r = j_created_at j.
Proof. unfold job_record. by destruct (j_state j). Qed.
Lemma tracked_update id e : tracked e → tracked (journal_update id e).
Proof.
  intros HT. pose proof HT as [Hon Hids Hjobs]. unfold journal_update. rewrite Hon. destruct (e_jobs e !! id) as [j|] eqn:Hj; [|done].
  assert (stamps e !! id = Some (stamp j)) as Hst by (unfold stamps; by rewrite lookup_fmap, Hj).
  pose proof (Hids _ _ Hst) as Hid. destruct (stamp_record j) as (Hri & Hrt & Hrc). split; [done|done|]. intros k.
  change (stamps (e <| e_journal ::= _ |>)) with (stamps e). unfold logged, live_run in *. cbn [e_journal set_field e_journal_set]. rewrite fmap_app, foldl_app. cbn [fmap list_fmap entry_rec foldl live_step].
  specialize (Hjobs k). assert (r_id (job_record j) = id) as Hk by (rewrite Hri; exact Hid). rewrite Hk. destruct (decide (k = id)) as [->|Hne]; [|by rewrite lookup_alter_ne].
  rewrite lookup_alter_eq. rewrite Hst in *. inversion Hjobs as [rj st' HR Hl Hs|]. cbn. constructor. destruct HR as (_ & Httr & _ & Hb). split_and!; [done|cbn [rj_record]; lia|done|done].
Qed.
(** A put's job enters the table and the journal. *)
Lemma tracked_new id e e1 j :
  tracked e → e_journal e1 = e_journal e → e_cfg e1 = e_cfg e → stamps e1 = <[id := stamp j]> (stamps e) → j_id j = id → (1 ≤ j_ttr j)%N →
  tracked (journal_put id e1).
Proof.
  intros [Hon Hids Hjobs] Hj Hc Hs Hid Httr. unfold journal_put. rewrite Hc, Hon.
  assert (∃ j1, e_jobs e1 !! id = Some j1 ∧ stamp j1 = stamp j) as (j1 & Hj1 & Hst).
  { apply (f_equal (.!! id)) in Hs. unfold stamps in Hs. rewrite lookup_fmap, lookup_insert_eq in Hs. by apply fmap_Some in Hs as (j1 & ? & ?); exists j1. }
  rewrite Hj1. assert (j_id j1 = id) as Hid1 by (change (stamp_id (stamp j1) = id); by rewrite Hst). destruct (stamp_record j1) as (Hri & Hrt & Hrc).
  split; [by cbn; rewrite Hc| |].
  - intros k st. change (stamps (e1 <| e_journal ::= _ |>)) with (stamps e1). rewrite Hs. intros [(<- & <-)|(_ & Hk)]%lookup_insert_Some; [done|by apply Hids].
  - intros k. change (stamps (e1 <| e_journal ::= _ |>)) with (stamps e1). unfold logged, live_run in *. cbn [e_journal set_field e_journal_set]. rewrite Hj, fmap_app, foldl_app.
    cbn [fmap list_fmap entry_rec foldl live_step]. rewrite Hs, Hri, Hid1. destruct (decide (k = id)) as [->|Hne]; [|by rewrite !lookup_insert_ne].
    rewrite !lookup_insert_eq. constructor. rewrite <-Hst. assert (j_ttr j1 = j_ttr j) as Ht1 by (by injection Hst). split_and!; [done|cbn [rj_record]; lia|done|done].
Qed.
Lemma tracked_delete id e e1 :
  tracked e → e_journal e1 = e_journal e → e_cfg e1 = e_cfg e → stamps e1 = delete id (stamps e) → tracked (journal_delete id e1).
Proof.
  intros [Hon Hids Hjobs] Hj Hc Hs. unfold journal_delete. rewrite Hc, Hon. split; [by cbn; rewrite Hc| |].
  - intros k st. change (stamps (e1 <| e_journal ::= _ |>)) with (stamps e1). rewrite Hs. intros [_ Hk]%lookup_delete_Some. by apply Hids.
  - intros k. change (stamps (e1 <| e_journal ::= _ |>)) with (stamps e1). unfold logged, live_run in *. cbn [e_journal set_field e_journal_set]. rewrite Hj, fmap_app, foldl_app.
    cbn [fmap list_fmap entry_rec foldl live_step]. rewrite Hs. destruct (decide (k = id)) as [->|Hne]; [|by rewrite !lookup_delete_ne].
    rewrite !lookup_delete_eq. constructor.
Qed.

(** ** Commands that write the journal *)
Lemma tracked_reply cid r s : tracked s.1 → tracked (reply cid r s).1.
Proof. apply tracked_view, (un_reply journaled). Qed.
Lemma tracked_process_queue now s : tracked s.1 → tracked (process_queue now s).1.
Proof. apply tracked_view, (du_process_queue journaled). Qed.
Lemma tracked_kick_to_ready tid id now s : tracked s.1 → tracked (kick_to_ready tid id now s).1.
Proof.
  destruct s as [e out]. intros HT. unfold kick_to_ready. cbv zeta.
  apply tracked_process_queue, tracked_update. eapply tracked_view; [|exact HT]. by keep.
Qed.
Lemma tracked_kick_buried n tid now k s : tracked s.1 → tracked (kick_buried_loop n tid now k s).2.1.
Proof.
  revert k s. induction n as [|n IH]; intros k [e out] HT; [done|]. cbn [kick_buried_loop].
  pose proof (un_pop_buried journaled tid e) as H. destruct (pop_buried_front tid e) as [[id|] e1]; cbn [fst snd] in *.
  - by eapply IH, tracked_kick_to_ready, tracked_view.
  - by eapply tracked_view.
Qed.
Lemma tracked_kick_delayed n tid now k s : tracked s.1 → tracked (kick_delayed_loop n tid now k s).2.1.
Proof.
  revert k s. induction n as [|n IH]; intros k [e out] HT; [done|]. cbn [kick_delayed_loop].
  case_match; [|done]. case_match. eapply IH, tracked_kick_to_ready, tracked_view; [|exact HT]. by keep.
Qed.
Lemma tracked_kick now cid n s : tracked s.1 → tracked (cmd_kick now cid n s).1.
Proof.
  destruct s as [e out]. intros HT. unfold cmd_kick. cbv zeta. set (e1 := bump_cmd n_cmd_kick e).
  assert (tracked e1) as H1 by (eapply tracked_view; [|exact HT]; unfold e1; by keep). clearbody e1. destruct (match tube e1 _ with Some _ => _ | None => _ end).
  - pose proof (tracked_kick_buried (N.to_nat n) (use_tube_of e1 cid) now 0 (e1, out) H1) as H.
    destruct (kick_buried_loop _ _ _ _ _) as [k s]. cbn [fst snd] in *. eapply tracked_view; [|exact H]. by keep.
  - pose proof (tracked_kick_delayed (N.to_nat n) (use_tube_of e1 cid) now 0 (e1, out) H1) as H.
    destruct (kick_delayed_loop _ _ _ _ _) as [k s]. cbn [fst snd] in *. eapply tracked_view; [|exact H]. by keep.
Qed.
Lemma tracked_kick_job now cid id s : tracked s.1 → tracked (cmd_kick_job now cid id s).1.
Proof.
  destruct s as [e out]. intros HT. unfold cmd_kick_job. cbv zeta.
  assert (∀ s', journaled s'.1 = journaled e → tracked s'.1) as Hv by (intros s' H; by eapply tracked_view).
  assert (∀ tid s', journaled s'.1 = journaled e → tracked (kick_to_ready tid id now s').1) as Hk by (intros; by apply tracked_kick_to_ready, Hv).
  repeat case_match; apply tracked_reply; first [apply Hk|apply Hv]; by keep.
Qed.
Lemma tracked_release now cid id pri delay s : tracked s.1 → tracked (cmd_release now cid id pri delay s).1.
Proof.
  destruct s as [e out]. intros HT. unfold cmd_release. cbv zeta. destruct (reserved_by _ _ _) as [tid|]; [|eapply tracked_view; [|exact HT]; by keep].
  apply tracked_reply, tracked_process_queue. cbn [fst]. case_match; [apply tracked_update|]; (eapply tracked_view; [|exact HT]); by keep.
Qed.
Lemma tracked_bury cid id pri s : tracked s.1 → tracked (cmd_bury cid id pri s).1.
Proof.
  destruct s as [e out]. intros HT. unfold cmd_bury. cbv zeta. destruct (reserved_by _ _ _) as [tid|]; [|eapply tracked_view; [|exact HT]; by keep].
  apply tracked_reply, tracked_update. eapply tracked_view; [|exact HT]. by keep.
Qed.
Lemma tracked_cmd_put now cid pri delay ttr body s : tracked s.1 → tracked (cmd_put now cid pri delay ttr body s).1.
Proof.
  destruct s as [e out]. intros HT. unfold cmd_put. cbv zeta. pose proof (du_put_id journaled now cid e) as Hp.
  destruct (put_id now cid e) as [[id created] e1]. cbn [snd] in Hp. pose proof (tracked_view _ _ Hp HT) as H1. destruct (e_draining e1); [by apply tracked_reply|].
  set (tid := use_tube_of e1 cid). set (j := mkJobRec id _ _ _ _ _ _ _ _ _ _ _ _ _ _ _ _). set (e2 := upd_tube tid _ _). set (e3 := if (0 <? delay)%N then _ else _).
  assert (journaled e3 = (<[id := stamp j]> (stamps e1), e_journal e1, e_cfg e1)) as H3.
  { trans (journaled e2); [unfold e3; case_match; by keep|]. unfold journaled, e2, stamps. cbn. by rewrite fmap_insert. }
  injection H3 as Hs3 Hj3 Hc3. pose proof (tracked_process_queue now (journal_put id e3, out) (tracked_new id e1 e3 j H1 Hj3 Hc3 Hs3 eq_refl (N.le_max_r _ _))) as H4.
  destruct (process_queue now (journal_put id e3, out)) as [e4 out4]. apply tracked_reply. cbn [fst] in *. eapply tracked_view; [|exact H4]. by keep.
Qed.
Lemma tracked_cmd_delete cid id s : tracked s.1 → tracked (cmd_delete cid id s).1.
Proof.
  destruct s as [e out]. intros HT. unfold cmd_delete. cbv zeta. set (e0 := bump_cmd n_cmd_delete e).
  assert (tracked e0) as H0 by (eapply tracked_view; [|exact HT]; unfold e0; by keep). clearbody e0.
  case_match; [|by apply tracked_reply]. match goal with |- context [let '(ok, e1) := ?x in _] => set (r := x) end.
  assert (journaled r.2 = journaled e0) as Hr by (unfold r; repeat case_match; by keep). destruct r as [ok e1]. cbn [snd] in Hr.
  pose proof (tracked_view _ _ Hr H0) as H1. destruct ok; [|by apply tracked_reply]. apply tracked_reply. cbn [fst].
  eapply tracked_view; [apply (du_gc (π := journaled))|]. eapply (tracked_delete id e1); [done|done|done|]. unfold stamps. cbn. by rewrite fmap_delete.
Qed.
Lemma tracked_handle now cid cmd s : tracked s.1 → tracked (handle now cid cmd s).1.
Proof.
  intros HT. unfold handle. destruct (e_conns s.1 !! cid); [|done].
  destruct cmd; first [by apply tracked_cmd_put|by apply tracked_cmd_delete|by apply tracked_release|by apply tracked_bury|by apply tracked_kick
    |by apply tracked_kick_job|apply (tracked_view s.1); [|exact HT]]; first [apply (du_use journaled)|apply (du_reserve journaled)|apply (du_reserve_job journaled)
    |apply (du_touch journaled)|apply (du_watch journaled)|apply (du_ignore journaled)|apply (du_pause_tube journaled)|idtac];
    destruct s as [e out]; cbv [cmd_peek cmd_peek_ready cmd_peek_delayed cmd_peek_buried cmd_stats_job cmd_stats_tube
    cmd_stats cmd_list_tubes cmd_list_tube_used cmd_list_tubes_watched]; repeat case_match; by keep.
Qed.
Lemma tracked_input now i s : tracked s.1 → tracked (apply_input now i s).1.
Proof.
  intros HT. unfold apply_input. eapply tracked_view; [apply (du_tick journaled)|].
  destruct i as [c|c|c|c too_big|c why|c cmd| |on]; cbn [run_input fst]; [..|by apply tracked_handle|done|by apply (tracked_view s.1)];
    apply (tracked_view s.1); try done.
  - apply (du_connect journaled).
  - apply (du_disconnect journaled).
  - apply (du_half_close journaled).
  - apply (du_put_started journaled).
  - apply (du_put_rejected journaled).
Qed.
End tracked.

(** ** Tube names *)
Definition puts (es : list JournalEntry) : list (JobId * TubeName) :=
  omap (λ e, match e with JournalEntry.Put r tube _ => Some (r_id r, tube) | _ => None end) es.
Lemma puts_app es es' : puts (es ++ es') = puts es ++ puts es'.
Proof. apply omap_app. Qed.
Lemma live_run_tube L es id rj' :
  live_run L (entry_rec <$> es) !! id = Some rj' →
  (id, rj_tube rj') ∈ puts es ∨ ∃ rj, L !! id = Some rj ∧ rj_tube rj = rj_tube rj'.
Proof.
  revert rj'. induction es as [|x es IH] using rev_ind; intros rj'; [right; by exists rj'|].
  rewrite fmap_app, puts_app. unfold live_run. rewrite foldl_app. fold (live_run L (entry_rec <$> es)). cbn [fmap list_fmap foldl].
  rewrite elem_of_app. destruct x as [r t b|r|k]; cbn [entry_rec live_step puts omap list_omap].
  - intros [(<- & <-)|(_ & [Hl|Hl]%IH)]%lookup_insert_Some; [left; right; by left|by left; left|by right].
  - intros [(<- & j & [Hl|Hl]%IH & ->)|(_ & [Hl|Hl]%IH)]%lookup_alter_Some; [by left; left|by right|by left; left|by right].
  - intros [_ [Hl|Hl]%IH]%lookup_delete_Some; [by left; left|by right].
Qed.
Definition put_tubes (e : Engine) : list (JobId * TubeName) := puts (e_journal e).
#[export] Instance sessionless_put_tubes : Sessionless put_tubes.
Proof. done. Qed.
#[export] Instance tubeless_put_tubes : Tubeless put_tubes.
Proof.
  split; [by split; [by split|..]|..]; intros; unfold put_tubes.
  - unfold gc_tube_if_orphan. repeat case_match; done.
  - unfold find_or_make_tube. repeat case_match; simplify_eq; done.
Qed.
#[export] Instance unlogged_put_tubes : Unlogged put_tubes.
Proof.
  split; [apply _|]. intros. unfold put_tubes.
  - unfold journal_update. repeat case_match; try done. cbn. by rewrite puts_app, app_nil_r.
Qed.
#[export] Instance sessionless_tube_ids : Sessionless e_tube_ids.
Proof. done. Qed.
#[export] Instance durable_tube_ids : Durable e_tube_ids.
Proof. by split; [apply _|..]. Qed.
#[export] Instance unlogged_tube_ids : Unlogged e_tube_ids.
Proof. split; [apply _|]. intros id e. unfold journal_update. by repeat case_match. Qed.

(** Every job the log holds names the tube of its job. *)
Definition named (L : Live) (e : Engine) : Prop :=
  ∀ id rj st, logged L e !! id = Some rj → stamps e !! id = Some st → e_tube_ids e !! rj_tube rj = Some (stamp_tube st).
(** The tubes of [e'] are tubes of [e] or took a free slot of [e]. *)
Definition ids_from (e e' : Engine) : Prop :=
  ∀ n tid, e_tube_ids e' !! n = Some tid → e_tube_ids e !! n = Some tid ∨ ¬ live (e_tubes e) tid.
Lemma ids_from_sub e e' : e_tube_ids e' ⊆ e_tube_ids e → ids_from e e'.
Proof. intros H n tid Hn. left. by eapply lookup_weaken. Qed.
Lemma reg_name g e n n' tid : Core g e → e_tube_ids e !! n = Some tid → e_tube_ids e !! n' = Some tid → n = n'.
Proof. intros HC H H'. destruct (co_reg _ _ HC) as (_ & Hids & _). rewrite Hids in H, H'. congruence. Qed.
Lemma reg_live g e tid : Core g e → live (e_tubes e) tid → ∃ n, e_tube_ids e !! n = Some tid.
Proof. intros HC [t Ht]. destruct (co_reg _ _ HC) as (_ & Hids & _). exists (t_name t). apply Hids. unfold slot in *. by rewrite Ht. Qed.
Lemma job_live g e id st : Core g e → stamps e !! id = Some st → live (e_tubes e) (stamp_tube st).
Proof. intros HC. unfold stamps. rewrite lookup_fmap. intros (j & Hj & ->)%fmap_Some. apply (co_jobs _ _ HC _ _ Hj). Qed.
Lemma name_stable g g' e e' n id st :
  Core g e → Core g' e' → ids_from e e' → stamps e !! id = Some st → stamps e' !! id = Some st →
  e_tube_ids e !! n = Some (stamp_tube st) → e_tube_ids e' !! n = Some (stamp_tube st).
Proof.
  intros HC HC' Hf Hs Hs' Hn. destruct (reg_live _ _ _ HC' (job_live _ _ _ _ HC' Hs')) as [n' Hn'].
  destruct (Hf _ _ Hn') as [H|H]; [|by destruct (H (job_live _ _ _ _ HC Hs))]. by rewrite (reg_name _ _ _ _ _ HC Hn H).
Qed.

(** ** Where tubes come from *)
Section sub.
Context (M : gmap TubeName TubeId).
Definition within (e : Engine) : Prop := e_tube_ids e ⊆ M.
Lemma within_view e e' : e_tube_ids e' = e_tube_ids e → within e → within e'.
Proof. unfold within. by intros ->. Qed.
Lemma within_gc tid e : within e → within (gc_tube_if_orphan tid e).
Proof.
  intros H. unfold gc_tube_if_orphan. repeat case_match; try done; unfold within, upd_tube in *; cbn; etrans; try exact H; apply delete_subseteq.
Qed.
#[local] Ltac keep := keep_at e_tube_ids.
Lemma within_disconnect now cid s : within s.1 → within (disconnect now cid s).1.
Proof.
  destruct s as [e out]. intros HW. unfold disconnect. cbn [fst]. destruct (e_conns e !! cid) as [c0|]; [|done].
  set (e1 := do_remove_waiting_conn cid e). assert (within e1) as H1 by (eapply within_view; [|exact HW]; apply (un_remove_waiting e_tube_ids)).
  clearbody e1. cbv zeta. set (l := match e_conns e1 !! cid with Some _ => _ | None => _ end). clearbody l.
  assert (∀ s, e_tube_ids (foldl (release_step cid now) s l).1 = e_tube_ids s.1) as Hl.
  { induction l as [|id l IH]; intros s; [done|]. cbn [foldl]. rewrite IH. destruct s as [e2 out2]. unfold release_step.
    keep. case_match; by keep. }
  specialize (Hl (e1, out)). destruct (foldl (release_step cid now) (e1, out) l) as [e2 out2]. cbn [fst] in Hl.
  assert (∀ l e, within e → within (foldl unwatch_step e l)) as Hw.
  { clear. induction l as [|t l IH]; intros e He; [done|]. cbn [foldl]. apply IH. unfold unwatch_step. apply within_gc. done. }
  set (e3 := foldl unwatch_step _ _). assert (within e3) as H3.
  { unfold e3. apply Hw. eapply within_view; [|exact H1]. exact Hl. }
  clearbody e3. cbn [fst]. set (e4 := match e_conns e3 !! cid with Some _ => _ | None => e3 end).
  assert (within e4) as H4 by (unfold e4; case_match; [by apply within_gc|done]).
  clearbody e4. eapply within_view; [|exact H4]. rewrite (du_upd_cc e_tube_ids). repeat case_match; by keep.
Qed.
Lemma within_ignore cid name s : within s.1 → within (cmd_ignore cid name s).1.
Proof.
  destruct s as [e out]. intros HW. unfold cmd_ignore. cbv zeta.
  repeat (case_match; try (eapply within_view; [|exact HW]; by keep)); (eapply within_view; [apply (un_reply e_tube_ids)|]); by apply within_gc.
Qed.
Lemma within_delete cid id s : within s.1 → within (cmd_delete cid id s).1.
Proof.
  destruct s as [e out]. intros HW. unfold cmd_delete. cbv zeta. case_match; [|eapply within_view; [|exact HW]; by keep].
  match goal with |- context [let '(ok, e1) := ?x in _] => set (r := x) end.
  assert (e_tube_ids r.2 = e_tube_ids e) as Hr by (unfold r; repeat case_match; by keep). destruct r as [ok e1]. cbn [snd] in Hr.
  destruct ok; (eapply within_view; [apply (un_reply e_tube_ids)|]); [apply within_gc|]; (eapply within_view; [|exact HW]); [|done].
  unfold journal_delete. by case_match.
Qed.
Lemma within_use cid name s : within (find_or_make_tube name (bump_cmd n_cmd_use s.1)).2 → within (cmd_use cid name s).1.
Proof.
  destruct s as [e out]. unfold cmd_use. cbv zeta. cbn [fst]. destruct (find_or_make_tube _ _) as [tid e1]. cbn [snd]. intros HW.
  eapply within_view; [apply (un_reply e_tube_ids)|]. cbn [fst]. case_match; [done|]. eapply (within_view (gc_tube_if_orphan _ _)); [by keep|]. by apply within_gc.
Qed.
Lemma within_watch cid name s : within (find_or_make_tube name (bump_cmd n_cmd_watch s.1)).2 → within (cmd_watch cid name s).1.
Proof.
  destruct s as [e out]. unfold cmd_watch. cbv zeta. cbn [fst]. destruct (find_or_make_tube _ _) as [tid e1]. cbn [snd]. intros HW.
  eapply within_view; [apply (un_reply e_tube_ids)|]. cbn [fst]. by case_match.
Qed.
End sub.

Lemma ids_from_find g e name : Core g e → ids_from e (find_or_make_tube name e).2.
Proof.
  intros HC n tid. destruct (co_reg _ _ HC) as (_ & _ & _ & Hfree & _). unfold find_or_make_tube. case_match; [by left|].
  destruct (pop (e_free_tube_ids e)) as [[id free]|] eqn:Hp; cbn; (intros [(<- & <-)|(_ & Hn)]%lookup_insert_Some; [right|by left]); unfold live, slot.
  - assert (e_tubes e !! id = Some None) as -> by (apply Hfree; rewrite (proj1 (pop_Some _ _ _) Hp); apply elem_of_app; right; by left). by intros [].
  - rewrite lookup_ge_None_2; [by intros []|]. rewrite length_app. cbn. lia.
Qed.
Lemma ids_put now cid pri delay ttr body s : e_tube_ids (cmd_put now cid pri delay ttr body s).1 = e_tube_ids s.1.
Proof.
  destruct s as [e out]. unfold cmd_put. cbv zeta. pose proof (du_put_id e_tube_ids now cid e) as Hp. destruct (put_id now cid e) as [[id created] e1].
  cbn [fst snd] in *. destruct (e_draining e1); [by rewrite (un_reply e_tube_ids)|].
  match goal with |- context [process_queue now ?s] => pose proof (du_process_queue e_tube_ids now s) as Hpq;
    destruct (process_queue now s) as [e4 out4] end. cbn [fst] in Hpq. keep_at e_tube_ids. rewrite Hpq.
  assert (∀ i e, e_tube_ids (journal_put i e) = e_tube_ids e) as Hj by (intros; unfold journal_put; by repeat case_match).
  rewrite Hj. case_match; keep_at e_tube_ids; exact Hp.
Qed.
(** The engine after the tube an input may make. *)
Definition made (i : EngineInput) (e : Engine) : Engine :=
  match i with
  | EngineInput.Command _ (Command.Use name) | EngineInput.Command _ (Command.Watch name) => (find_or_make_tube name e).2
  | _ => e
  end.
Lemma ids_find_bump p `{!Setter p} name e : e_tube_ids (find_or_make_tube name (bump_cmd p e)).2 = e_tube_ids (find_or_make_tube name e).2.
Proof.
  unfold find_or_make_tube. change (e_tube_ids (bump_cmd p e)) with (e_tube_ids e). destruct (e_tube_ids e !! name); [done|].
  change (e_free_tube_ids (bump_cmd p e)) with (e_free_tube_ids e). by destruct (pop (e_free_tube_ids e)) as [[]|].
Qed.
Lemma sub_find name e : e_tube_ids e ⊆ e_tube_ids (find_or_make_tube name e).2.
Proof.
  unfold find_or_make_tube. destruct (e_tube_ids e !! name) eqn:Hn; [reflexivity|].
  destruct (pop (e_free_tube_ids e)) as [[]|]; cbn; by apply insert_subseteq.
Qed.
Lemma within_handle now cid cmd s : within (e_tube_ids (made (EngineInput.Command cid cmd) s.1)) (handle now cid cmd s).1.
Proof.
  destruct s as [e out]. cbn [fst]. unfold handle. cbn [fst]. destruct (e_conns e !! cid).
  2: { destruct cmd; try (unfold within; reflexivity); apply sub_find. }
  assert (∀ e', e_tube_ids e' = e_tube_ids e → within (e_tube_ids e) e') as Hsame by (intros e' He; unfold within; by rewrite He).
  assert (within (e_tube_ids e) e) as He by (unfold within; reflexivity).
  destruct cmd; cbn [made]; try (by apply within_delete); try (by apply within_ignore); try (by apply Hsame);
    try (apply Hsame; first [apply (du_reserve e_tube_ids)|apply (du_reserve_job e_tube_ids)
    |apply (du_touch e_tube_ids)|apply (du_pause_tube e_tube_ids)|apply (du_release e_tube_ids)|apply (du_bury e_tube_ids)
    |apply (du_kick e_tube_ids)|apply (du_kick_job e_tube_ids)|apply ids_put]).
  1: { apply within_use. unfold within. cbn [fst]. by rewrite ids_find_bump. }
  1: { apply within_watch. unfold within. cbn [fst]. by rewrite ids_find_bump. }
  all: apply Hsame; cbv [cmd_peek cmd_peek_ready cmd_peek_delayed cmd_peek_buried cmd_stats_job cmd_stats_tube
    cmd_stats cmd_list_tubes cmd_list_tube_used cmd_list_tubes_watched]; repeat case_match; by keep_at e_tube_ids.
Qed.
Lemma within_input now i s : within (e_tube_ids (made i s.1)) (apply_input now i s).1.
Proof.
  assert (∀ e', e_tube_ids e' = e_tube_ids s.1 → within (e_tube_ids s.1) e') as Hsame by (intros e' He; unfold within; by rewrite He).
  unfold apply_input. eapply within_view; [apply (du_tick e_tube_ids)|].
  destruct i as [c|c|c|c too_big|c why|c cmd| |on]; cbn [run_input fst]; [..|apply within_handle|by apply Hsame|by apply Hsame]; cbn [made].
  - apply Hsame, (du_connect e_tube_ids).
  - apply within_disconnect. unfold within. reflexivity.
  - apply Hsame, (du_half_close e_tube_ids).
  - apply Hsame, (du_put_started e_tube_ids).
  - apply Hsame, (du_put_rejected e_tube_ids).
Qed.
Lemma ids_from_input b e out now i : Inv b e → ids_from e (apply_input now i (e, out)).1.
Proof.
  intros HI n tid Hn. assert (ids_from e (made i e)) as Hf.
  { destruct i as [| | | | |c []| |]; try (by left); by eapply ids_from_find. }
  apply Hf. eapply lookup_weaken; [exact Hn|]. apply (within_input now i (e, out)).
Qed.
(** The names of tubes are valid. *)
Definition names_ok (e : Engine) : Prop := ∀ n tid, e_tube_ids e !! n = Some tid → validate_tube_name n = true.
Lemma names_ok_find name e : validate_tube_name name = true → names_ok e → names_ok (find_or_make_tube name e).2.
Proof.
  intros Hv Hn n tid. unfold find_or_make_tube. destruct (e_tube_ids e !! name); [apply Hn|].
  destruct (pop (e_free_tube_ids e)) as [[]|]; cbn; (intros [(<- & _)|(_ & Hi)]%lookup_insert_Some; [done|by eapply Hn]).
Qed.
Lemma names_ok_input now i s : input_ok i = true → names_ok s.1 → names_ok (apply_input now i s).1.
Proof.
  intros Hi Hn. assert (names_ok (made i s.1)) as Hm.
  { destruct i as [| | | | |c cmd| |]; try done. apply andb_true_iff in Hi as [Hc _]. destruct cmd; try done; by apply names_ok_find. }
  intros n tid Hin. eapply Hm, lookup_weaken; [exact Hin|]. apply within_input.
Qed.

(** ** Names across an input *)
(** The Put of an input: the new job, under the name of its tube. *)
Lemma journaled_queued now delay j e :
  journaled (put_queued now delay j e) = (<[j_id j := stamp j]> (stamps e), e_journal e, e_cfg e).
Proof.
  unfold put_queued. set (e2 := upd_tube _ _ _). trans (journaled e2); [case_match; by keep_at journaled|].
  unfold journaled, e2, stamps. cbn. by rewrite fmap_insert.
Qed.
Lemma put_tubes_journal id e j :
  stamps e !! id = Some (stamp j) → j_id j = id →
  put_tubes (journal_put id e) = put_tubes e ++ (if cfg_journal (e_cfg e) then [(id, tube_name e (j_tube j))] else []).
Proof.
  unfold stamps. rewrite lookup_fmap. intros (j' & Hj' & Hst)%fmap_Some Hid. unfold journal_put. case_match; [|by rewrite app_nil_r].
  rewrite Hj'. unfold put_tubes. cbn [e_journal set_field e_journal_set]. rewrite puts_app. unfold puts at 2. cbn [omap list_omap].
  destruct (stamp_record j') as (-> & _). injection Hst as Hi Ht _ _ _. by rewrite <-Ht, <-Hi, Hid.
Qed.
Lemma put_tubes_put b now cid pri delay ttr body e out :
  Inv b e → budget_ok (more_ids b) →
  let e' := (cmd_put now cid pri delay ttr body (e, out)).1 in
  put_tubes e' = put_tubes e ∧ stamps e' = stamps e ∨
  ∃ id st name, stamps e !! id = None ∧ stamps e' = <[id := st]> (stamps e) ∧ e_tube_ids e' !! name = Some (stamp_tube st) ∧
    put_tubes e' = put_tubes e ++ (if cfg_journal (e_cfg e) then [(id, name)] else []).
Proof.
  intros HI Hb. cbv zeta. pose proof (ids_put now cid pri delay ttr body (e, out)) as Hids. pose proof (kept_put now cid pri delay ttr body (e, out)) as Hk.
  cbn [fst] in Hids, Hk. revert Hids Hk. unfold cmd_put. cbv zeta.
  pose proof (du_put_id put_tubes now cid e) as Hp. pose proof (du_put_id journaled now cid e) as Hpj. pose proof (du_put_id e_tube_ids now cid e) as Hpi.
  pose proof (kept_put_id now cid e) as Hkp. destruct (put_id now cid e) as [[id created] e1] eqn:Hput. cbn [snd] in Hp, Hpj, Hpi. destruct Hkp as (Hs1 & Hd1 & Hu1 & Hst).
  injection Hpj as _ Hj1 Hc1. rewrite Hd1, Hst. cbn [fst snd]. destruct (e_draining e); [intros _ Hk; left; split; [by keep_at put_tubes|done]|]. intros Hids Hk. right.
  destruct (Rest_put_id _ _ _ _ _ _ _ _ HI Hb Hput) as (HR1 & Hje1 & Hno & _). set (j := mkJobRec id _ _ _ _ _ _ _ _ _ _ _ _ _ _ _ _) in *.
  pose proof (Rest_put_queued b now cid delay e created e1 j HI Hb Hput (N.le_max_r _ _) eq_refl) as HR3.
  change (if (0 <? delay)%N then _ else _) with (put_queued now delay j e1) in *. set (e3 := put_queued now delay j e1) in *.
  pose proof (journaled_queued now delay j e1) as H3. fold e3 in H3. injection H3 as Hs3 _ Hc3. change (j_id j) with id in Hs3.
  assert (stamps e3 !! id = Some (stamp j)) as Hst3 by (rewrite Hs3; apply lookup_insert_eq).
  assert (e_tube_ids e3 = e_tube_ids e) as Hi3 by (unfold e3, put_queued; cbv zeta; destruct (0 <? delay)%N; keep_at e_tube_ids; exact Hpi).
  exists id, (stamp j), (tube_name e3 (j_tube j)). split_and!.
  - unfold stamps. by rewrite lookup_fmap, Hno.
  - rewrite Hk. unfold j. cbn. by rewrite Hu1.
  - rewrite Hids, <-Hi3. destruct (co_reg _ _ HR3) as (_ & Hreg & _). destruct (job_live _ _ _ _ HR3 Hst3) as [t Ht].
    apply Hreg. change (stamp_tube (stamp j)) with (j_tube j) in *. unfold tube_name, tube. unfold slot in Ht |- *. by rewrite Ht.
  - pose proof (put_tubes_journal id e3 j Hst3 eq_refl) as Hpt. rewrite Hc3, Hc1 in Hpt.
    assert (put_tubes e3 = put_tubes e) as He3 by (unfold e3, put_queued; cbv zeta; destruct (0 <? delay)%N; keep_at put_tubes; exact Hp). rewrite He3 in Hpt. rewrite <-Hpt.
    match goal with |- context [process_queue now ?s] => pose proof (du_process_queue put_tubes now s) as Hpq;
      destruct (process_queue now s) as [e4 out4] end. keep_at put_tubes. exact Hpq.
Qed.
Lemma put_tubes_delete cid id s : put_tubes (cmd_delete cid id s).1 = put_tubes s.1.
Proof.
  destruct s as [e out]. unfold cmd_delete. cbv zeta. case_match; [|by keep_at put_tubes].
  match goal with |- context [let '(ok, e1) := ?x in _] => set (r := x) end.
  assert (put_tubes r.2 = put_tubes e) as Hr by (unfold r; repeat case_match; by keep_at put_tubes). destruct r as [ok e1]. cbn [snd] in Hr.
  destruct ok; keep_at put_tubes; [|done]. unfold journal_delete. case_match; [|done]. unfold put_tubes. cbn. by rewrite puts_app, app_nil_r.
Qed.
(** The jobs and the Puts of an input. *)
Lemma put_tubes_input b now i e out :
  Inv b e → budget_ok (more_ids b) → put_tubes e = [] →
  let e' := (apply_input now i (e, out)).1 in
  put_tubes e' = [] ∧ (∀ id st, stamps e' !! id = Some st → stamps e !! id = Some st) ∨
  ∃ id st name, stamps e !! id = None ∧ stamps e' = <[id := st]> (stamps e) ∧ e_tube_ids e' !! name = Some (stamp_tube st) ∧
    put_tubes e' = (if cfg_journal (e_cfg e) then [(id, name)] else []).
Proof.
  intros HI Hb Hp0 e'. assert (stamps e' = kept_by now i e) as Hk by apply (kept_input now i (e, out)).
  assert (put_tubes e' = put_tubes (run_input now i (e, out)).1) as Hpt by apply (du_tick put_tubes).
  assert (∀ e1, stamps e' = stamps e → put_tubes e1 = put_tubes e → put_tubes e' = put_tubes e1 →
    put_tubes e' = [] ∧ (∀ id st, stamps e' !! id = Some st → stamps e !! id = Some st)) as Hquiet.
  { intros e1 Hs He1 He'. split; [congruence|]. intros id st. by rewrite Hs. }
  destruct i as [c|c|c|c too_big|c why|c cmd| |on]; cbn [run_input fst] in *; try (left; eapply Hquiet; [done| |done]; first
    [apply (du_connect put_tubes)|apply (du_disconnect put_tubes)|apply (du_half_close put_tubes)|apply (du_put_started put_tubes)
    |apply (du_put_rejected put_tubes)|done]).
  unfold handle in Hpt. cbn [fst kept_by] in *. destruct (e_conns e !! c) as [cs|] eqn:Hc; [|left; by eapply Hquiet].
  assert (put_tubes (handle now c cmd (e, out)).1 = put_tubes e → stamps e' = stamps e →
    put_tubes e' = [] ∧ (∀ id st, stamps e' !! id = Some st → stamps e !! id = Some st)) as Hother.
  { intros H Hs. unfold handle in H. cbn [fst] in H. rewrite Hc in H. by eapply Hquiet. }
  destruct cmd; try (left; apply Hother; [by apply (du_handle put_tubes)|done]).
  - pose proof (eq_trans Hk (eq_sym (kept_put now c pri delay ttr body (e, out)))) as Hk'.
    destruct (put_tubes_put b now c pri delay ttr body e out HI Hb) as [[Hp Hs]|(id & st & name & Hno & Hs & Hname & Hp)].
    + left. eapply Hquiet; [|done|done]. by rewrite Hk', Hs.
    + right. exists id, st, name. rewrite Hp0 in Hp. split_and!; [done|by rewrite Hk', Hs| |by rewrite Hpt, Hp].
      unfold e', apply_input. rewrite (du_tick e_tube_ids). cbn [run_input]. unfold handle. cbn [fst]. by rewrite Hc.
  - left. rewrite (put_tubes_delete c id (e, out)) in Hpt. cbn [fst] in Hpt. split; [congruence|].
    intros k st. rewrite Hk. repeat case_match; try done. by intros [_ ?]%lookup_delete_Some.
Qed.


Section names.
Context (L : Live) (b b' : Budget) (e e' : Engine).
Context (HI : Inv b e) (HI' : Inv b' e') (Hfrom : ids_from e e') (Hj : e_journal e = []) (Hn : named L e).
Lemma named_old id rj st :
  L !! id = Some rj → stamps e !! id = Some st → stamps e' !! id = Some st → e_tube_ids e' !! rj_tube rj = Some (stamp_tube st).
Proof using HI HI' Hfrom Hj Hn.
  intros HL Hs Hs'. apply (name_stable _ _ e e' _ id st HI HI' Hfrom Hs Hs'), (Hn id); [|done]. unfold logged. by rewrite Hj.
Qed.
Lemma named_quiet :
  put_tubes e' = [] → (∀ id st, stamps e' !! id = Some st → stamps e !! id = Some st) → named L e'.
Proof using HI HI' Hfrom Hj Hn.
  intros Hp Hs id rj st [H|(rj0 & HL & <-)]%live_run_tube Hst; [fold (put_tubes e') in H; rewrite Hp in H; by apply not_elem_of_nil in H|].
  apply (named_old id); auto.
Qed.
Lemma named_new id0 st0 name :
  put_tubes e' = [(id0, name)] → stamps e !! id0 = None → stamps e' = <[id0 := st0]> (stamps e) → e_tube_ids e' !! name = Some (stamp_tube st0) →
  tracked L e → named L e'.
Proof using HI HI' Hfrom Hj Hn.
  intros Hp Hno Hs Hname HT id rj st [H|(rj0 & HL & <-)]%live_run_tube Hst; rewrite Hs in Hst.
  - fold (put_tubes e') in H. rewrite Hp in H. apply list_elem_of_singleton in H as [= -> ->]. rewrite lookup_insert_eq in Hst. by injection Hst as <-.
  - destruct (decide (id = id0)) as [->|Hne].
    + pose proof (tr_jobs _ _ HT id0) as H. unfold logged in H. rewrite Hj in H. cbn in H. rewrite HL, Hno in H. inversion H.
    + rewrite lookup_insert_ne in Hst by done. apply (named_old id); [done|done|]. by rewrite Hs, lookup_insert_ne.
Qed.
End names.
Lemma named_input L b b' now i e out :
  Inv b e → budget_ok (more_ids b) → e_journal e = [] → tracked L e → named L e →
  let e' := (apply_input now i (e, out)).1 in Inv b' e' → named L e'.
Proof.
  intros HI Hb Hj HT Hn e' HI'. pose proof (ids_from_input b e out now i HI) as Hfrom. fold e' in Hfrom.
  destruct (put_tubes_input b now i e out HI Hb) as [[Hp Hs]|(id & st & name & Hno & Hs & Hname & Hp)]; [unfold put_tubes; by rewrite Hj|..]; fold e' in Hp, Hs.
  - by apply (named_quiet L b b' e e').
  - rewrite (tr_on _ _ HT) in Hp. by apply (named_new L b b' e e' HI HI' Hfrom Hj Hn id st name).
Qed.

(** ** Entries fit the record format *)
Lemma length_put_payload record tube body : length (put_payload record tube body) = 1 + JOBREC_LEN + 1 + length (bs tube) + length body.
Proof. unfold put_payload. cbn [length]. rewrite !length_app, length_encode_jobrec. cbn. lia. Qed.
Lemma entry_fits x : entry_sized x → (∀ r tube body, x = JournalEntry.Put r tube body → validate_tube_name tube = true) → fits (entry_rec x).
Proof.
  intros Hs Hv. destruct x as [r tube body|r|id]; cbn [entry_rec entry_sized] in *.
  - destruct Hs as [Hr Hb]. specialize (Hv _ _ _ eq_refl). split; [done|]. cbn [payload_of]. rewrite length_put_payload.
    pose proof (tube_len_small _ Hv). unfold MAX_JOB_SIZE_LIMIT in Hb. change JOBREC_LEN with 57. lia.
  - split; [done|]. cbn [payload_of length]. by rewrite length_encode_jobrec.
  - split; [done|]. cbn [payload_of length]. by rewrite length_le_bytes.
Qed.
Lemma journal_fits e : sized e → (∀ id name, (id, name) ∈ put_tubes e → validate_tube_name name = true) → Forall fits (entry_rec <$> e_journal e).
Proof.
  intros Hs Hv. apply Forall_fmap, Forall_forall. intros x Hx. apply entry_fits; [by eapply Forall_forall; [apply sz_journal|]|].
  intros r tube body ->. apply (Hv (r_id r)). unfold put_tubes, puts. apply list_elem_of_omap. by eexists.
Qed.
Lemma input_fits b now i e out :
  Inv b e → budget_ok (more_ids b) → e_journal e = [] → sized e → names_ok e → (now ≤ u64_max)%N → input_ok i = true → id_ok (e_next_job_id e) →
  Forall fits (entry_rec <$> e_journal (apply_input now i (e, out)).1).
Proof.
  intros HI Hb Hj Hs Hn Hnow Hi Hid. apply journal_fits; [by apply sized_input|]. intros id name Hin.
  destruct (put_tubes_input b now i e out HI Hb) as [[Hp _]|(id' & st & name' & _ & _ & Hname & Hp)]; [unfold put_tubes; by rewrite Hj|..]; rewrite Hp in Hin.
  - by apply not_elem_of_nil in Hin.
  - case_match; [|by apply not_elem_of_nil in Hin]. apply list_elem_of_singleton in Hin as [= -> ->]. by apply (names_ok_input now i (e, out) Hi Hn) in Hname.
Qed.
