(* ===== verification/Actor.v ===== *)
(** * The engine actor

    The owner of the engine and of the write-ahead log ([server/engine_actor.rs]):
    one message at a time is applied to the engine, the engine ticks, the
    journal entries are appended to the log and only then the replies go out.
    [Log] is the trait the actor needs of the log.  Times are arguments: [now]
    is the clock's reading, [t] an [Instant], both in nanoseconds. *)

From S2P Require Import Prelude Ms Proto Stats Parse Model Format Engine Snapshot Replay Scan Wal.
From stdpp Require Import options.

Definition MAX_WAIT : N := 3600 * NANOS_PER_SEC.
Definition ACTOR_BATCH_LIMIT : nat := 64.
(** The range of an [Instant]: a signed 64-bit count of seconds. *)
Definition INSTANT_MAX : N := 2 ^ 63 * NANOS_PER_SEC - 1.
Definition instant_checked_add (t d : N) : option N := if (t + d <=? INSTANT_MAX)%N then Some (t + d)%N else None.

(** ** The clock *)
Record Clock := mkClock { clk_anchor : Nanos; clk_start : N }.
(** [wall] is the wall clock, [None] before 1970; [t] the monotonic one. *)
Definition Clock_start (wall : option N) (t : N) : Clock := mkClock (from_option (N.min u64_max) 0%N wall) t.
Definition Clock_now (c : Clock) (t : N) : Nanos := sat_add64 (clk_anchor c) (N.min (t - clk_start c) u64_max).
Definition instant_at (c : Clock) (t : N) (at_ : Nanos) : N :=
  let cap := (t + MAX_WAIT)%N in
  match instant_checked_add (clk_start c) (sat_sub at_ (clk_anchor c)) with Some i => N.min i cap | None => cap end.

(** ** The log as the actor needs it *)
Class Log (S : Type) := {
  log_reserve_put : nat → nat → S → (bool + WalError) * S;
  log_append : list JournalEntry → S → (() + WalError) * S;
  log_sync_if_due : N → S → (() + WalError) * S;
  log_maintain : S → (() + WalError) * S;
  log_stats : S → option BinlogStats;
}.
(** [impl Log for Wal]. *)
Definition Wal_log (record_crc : Bytes → Bytes → N) : Log (Inner * World) := {|
  log_reserve_put := reserve_put;
  log_append := append record_crc;
  log_sync_if_due := sync_if_due;
  log_maintain := maintain record_crc;
  log_stats := λ st, stats st.1;
|}.

(** ** Messages *)
Module EngineMsg.
Inductive EngineMsg :=
  | Connect (conn : ConnId)
  | Command (conn : ConnId) (cmd : Command)
  | PutStarted (conn : ConnId) (too_big : bool)
  | PutRejected (conn : ConnId) (why : PutRejection)
  | HalfClose (conn : ConnId)
  | Disconnect (conn : ConnId)
  | SetDraining (on : bool)
  | Snapshot (max_tubes : nat)
  | Shutdown.
End EngineMsg.
Abbreviation EngineMsg := EngineMsg.EngineMsg (only parsing).
#[export] Instance EngineMsg_eq_dec : EqDecision EngineMsg.
Proof. solve_decision. Defined.
(** What leaves the actor: a reply on a connection's channel, a monitoring
    view, the acknowledgement of a shutdown. *)
Module Sent.
Inductive Sent :=
  | Reply (conn : ConnId) (resp : Response)
  | View (snap : Engine.Snapshot)
  | Done.
End Sent.
Abbreviation Sent := Sent.Sent (only parsing).

(** ** The actor *)
Record Binlog (S : Type) := mkBinlog {
  b_log : S; b_policy : SyncPolicy; b_reserved : bool; b_records_written : N; b_sync_at : option N;
}.
Arguments mkBinlog {_} _ _ _ _ _.
Arguments b_log {_} _.
Arguments b_policy {_} _.
Arguments b_reserved {_} _.
Arguments b_records_written {_} _.
Arguments b_sync_at {_} _.
(** [a_conns] are the connections with a reply channel. *)
Record Actor (S : Type) := mkActor {
  a_engine : Engine; a_binlog : option (Binlog S); a_conns : gset ConnId; a_outbox : Outbox; a_journal : list JournalEntry; a_draining : bool;
}.
Arguments mkActor {_} _ _ _ _ _ _.
Arguments a_engine {_} _.
Arguments a_binlog {_} _.
Arguments a_conns {_} _.
Arguments a_outbox {_} _.
Arguments a_journal {_} _.
Arguments a_draining {_} _.

Section actor.
Context {S : Type} `{Log S}.
Implicit Types (a : Actor S) (b : Binlog S).
(** A step: what it ends in, the actor after it, and what it sent. *)
Abbreviation Step := ((() + WalError) * Actor S * list Sent)%type.

Definition Actor_new (engine : Engine) (log : option (S * SyncPolicy)) : option (Actor S) :=
  match log with
  | Some (log, policy) =>
      stats ← log_stats log;
      Some (mkActor (set_binlog_stats stats engine) (Some (mkBinlog log policy false (bl_records_written stats) None)) ∅ [] [] false)
  | None => Some (mkActor engine None ∅ [] [] false)
  end.
Definition with_engine (s : Engine * Outbox) a : Actor S := mkActor s.1 (a_binlog a) (a_conns a) s.2 (a_journal a) (a_draining a).
Definition with_binlog b a : Actor S := mkActor (a_engine a) (Some b) (a_conns a) (a_outbox a) (a_journal a) (a_draining a).
Definition with_log (s : S) b : Binlog S := mkBinlog s (b_policy b) (b_reserved b) (b_records_written b) (b_sync_at b).
Definition clear_outbox a : Actor S := with_engine (a_engine a, []) a.

Definition command (now : Nanos) (conn : ConnId) (cmd : Command) a : (() + WalError) * Actor S :=
  let handle a := (inl (), with_engine (handle now conn cmd (a_engine a, a_outbox a)) a) in
  match cmd, a_draining a, a_binlog a with
  | Command.Put _ _ _ body, false, Some b =>
      match log_reserve_put (N.to_nat MAX_TUBE_NAME_LEN) (length body) (b_log b) with
      | (inl false, s) =>
          let a := with_binlog (with_log s b) a in
          (inl (), with_engine (put_rejected conn PutRejection.OutOfMemory (a_engine a, a_outbox a)) a)
      | (inl true, s) => handle (with_binlog (mkBinlog s (b_policy b) true (b_records_written b) (b_sync_at b)) a)
      | (inr e, s) => (inr e, with_binlog (with_log s b) a)
      end
  | _, _, _ => handle a
  end.
Definition apply_engine_msg (now : Nanos) (msg : EngineMsg) a : Step :=
  let s := (a_engine a, a_outbox a) in
  let set_conns f a := mkActor (a_engine a) (a_binlog a) (f (a_conns a)) (a_outbox a) (a_journal a) (a_draining a) in
  match msg with
  | EngineMsg.Connect conn => (inl (), with_engine (connect conn s.1, s.2) (set_conns (λ c, {[conn]} ∪ c) a), [])
  | EngineMsg.Command conn cmd => (command now conn cmd a, [])
  | EngineMsg.PutStarted conn too_big => (inl (), with_engine (put_started now conn too_big s.1, s.2) a, [])
  | EngineMsg.PutRejected conn why => (inl (), with_engine (put_rejected conn why s) a, [])
  | EngineMsg.HalfClose conn => (inl (), with_engine (half_close conn s) a, [])
  | EngineMsg.Disconnect conn => (inl (), set_conns (.∖ {[conn]}) (with_engine (disconnect now conn s) a), [])
  | EngineMsg.SetDraining on =>
      (inl (), mkActor (set_draining on (a_engine a)) (a_binlog a) (a_conns a) (a_outbox a) (a_journal a) on, [])
  | EngineMsg.Snapshot max_tubes => (inl (), a, [Sent.View (snapshot_limited (a_engine a) now max_tubes)])
  | EngineMsg.Shutdown => (inl (), a, [Sent.Done])
  end.

Definition deliver a : Actor S * list Sent :=
  (clear_outbox a, (λ r, Sent.Reply r.1 r.2) <$> filter (λ r, r.1 ∈ a_conns a) (a_outbox a)).
Definition tick_actor (now : Nanos) a : Actor S := with_engine (tick now (a_engine a, a_outbox a)) a.

(** The end of [persist], after [append] and [maintain]. *)
Definition note_written (t : N) b a : (() + WalError) * Actor S :=
  match log_stats (b_log b) with
  | None => (inr WalError.Panic, with_binlog b a)
  | Some stats =>
      let a := with_engine (set_binlog_stats stats (a_engine a), a_outbox a) a in
      if (bl_records_written stats =? b_records_written b)%N then (inl (), with_binlog b a)
      else
        let b := mkBinlog (b_log b) (b_policy b) (b_reserved b) (bl_records_written stats) (b_sync_at b) in
        match b_policy b with
        | SyncPolicy.Interval every =>
            match log_sync_if_due t (b_log b) with
            | (inl (), s) =>
                (inl (), with_binlog (mkBinlog s (b_policy b) (b_reserved b) (b_records_written b) (instant_checked_add t every)) a)
            | (inr e, s) => (inr e, with_binlog (with_log s b) a)
            end
        | _ => (inl (), with_binlog b a)
        end
  end.
Definition persist (t : N) a : (() + WalError) * Actor S :=
  match a_binlog a with
  | None => (inl (), a)
  | Some b =>
      let '(journal, engine) := take_journal (a_journal a) (a_engine a) in
      let a := mkActor engine (Some b) (a_conns a) (a_outbox a) journal (a_draining a) in
      if bool_decide (journal = []) && negb (b_reserved b) then (inl (), a)
      else
        let b := mkBinlog (b_log b) (b_policy b) false (b_records_written b) (b_sync_at b) in
        match log_append journal (b_log b) with
        | (inr e, s) => (inr e, with_binlog (with_log s b) a)
        | (inl (), s) =>
            let a := mkActor engine (Some b) (a_conns a) (a_outbox a) [] (a_draining a) in
            match log_maintain s with
            | (inr e, s) => (inr e, with_binlog (with_log s b) a)
            | (inl (), s) => note_written t (with_log s b) a
            end
        end
  end.
Definition finish (now : Nanos) (t : N) a : Step :=
  let a := tick_actor now a in
  match persist t a with
  | (inr e, a) => (inr e, a, [])
  | (inl (), a) => let '(a, sent) := deliver a in (inl (), a, sent)
  end.
Definition on_message (now : Nanos) (t : N) (msg : EngineMsg) a : Step :=
  match apply_engine_msg now msg (clear_outbox a) with
  | (inr e, a, sent) => (inr e, a, sent)
  | (inl (), a, sent) => let '(r, a, sent') := finish now t a in (r, a, sent ++ sent')
  end.
(** [t0] and [t] are the two readings of [Instant::now]. *)
Definition on_timer (now : Nanos) (t0 t : N) a : Step :=
  let a := clear_outbox a in
  match a_binlog a with
  | Some b =>
      match b_sync_at b with
      | Some at_ =>
          if (at_ <=? t0)%N then
            let b := mkBinlog (b_log b) (b_policy b) (b_reserved b) (b_records_written b) None in
            match log_sync_if_due t0 (b_log b) with
            | (inr e, s) => (inr e, with_binlog (with_log s b) a, [])
            | (inl (), s) => finish now t (with_binlog (with_log s b) a)
            end
          else finish now t a
      | None => finish now t a
      end
  | None => finish now t a
  end.
Definition shutdown (t : N) a : (() + WalError) * Actor S :=
  match a_binlog a with
  | None => (inl (), a)
  | Some b =>
      match b_policy b with
      | SyncPolicy.Always | SyncPolicy.Never => (inl (), a)
      | SyncPolicy.Interval every =>
          let '(r, s) := log_sync_if_due (default t (instant_checked_add t every)) (b_log b) in
          (r, with_binlog (with_log s b) a)
      end
  end.
Definition next_wait (now : Nanos) (t : N) a : option N :=
  let engine := (λ at_, N.min (sat_sub at_ now) MAX_WAIT) <$> next_deadline (a_engine a) in
  let sync := (λ at_, N.min (sat_sub at_ t) MAX_WAIT) <$> (a_binlog a ≫= b_sync_at) in
  match engine, sync with
  | Some a, Some b => Some (N.min a b)
  | Some a, None => Some a
  | None, b => b
  end.

(** ** The loops *)
(** What [recv] returns. *)
Inductive Received := Got (msg : EngineMsg) | TimedOut | Gone.
(** How the loop ends: it waits for more, it returned, the process exits. *)
Inductive Ended := Waiting | Returned | Failed (e : WalError).
(** [run]: the thread of a server with a log.  Each turn has the readings of
    the clocks and what it receives. *)
Definition run_turn (now : Nanos) (t0 t : N) (got : Received) a : Ended * Actor S * list Sent :=
  match got with
  | Got EngineMsg.Shutdown =>
      match shutdown t a with
      | (inr e, a) => (Failed e, a, [])
      | (inl (), a) => (Returned, a, [Sent.Done])
      end
  | Got msg => let '(r, a, sent) := on_message now t msg a in (match r with inl _ => Waiting | inr e => Failed e end, a, sent)
  | TimedOut => let '(r, a, sent) := on_timer now t0 t a in (match r with inl _ => Waiting | inr e => Failed e end, a, sent)
  | Gone => (Returned, a, [])
  end.
Fixpoint run (turns : list (Nanos * N * N * Received)) a : Ended * Actor S * list Sent :=
  match turns with
  | [] => (Waiting, a, [])
  | (now, t0, t, got) :: turns =>
      match run_turn now t0 t got a with
      | (Waiting, a, sent) => let '(r, a, sent') := run turns a in (r, a, sent ++ sent')
      | r => r
      end
  end.

(** [run_task]: the task of a server without a log; a timer turn is
    [on_timer].  A turn on messages takes what is
    queued, up to the limit, and delivers once. *)
Fixpoint batch (n : nat) (t : N) (queue : list (Nanos * EngineMsg)) a : Ended * Actor S * list Sent * list (Nanos * EngineMsg) :=
  match n, queue with
  | Datatypes.S n, (now, msg) :: queue =>
      match msg with
      | EngineMsg.Shutdown =>
          let '(a, sent) := deliver a in
          match shutdown t a with
          | (inr e, a) => (Failed e, a, sent, queue)
          | (inl (), a) => (Returned, a, sent ++ [Sent.Done], queue)
          end
      | _ =>
          match apply_engine_msg now msg a with
          | (inr e, a, sent) => (Failed e, a, sent, queue)
          | (inl (), a, sent) =>
              let '(r, a, sent', queue) := batch n t queue (tick_actor now a) in (r, a, sent ++ sent', queue)
          end
      end
  | _, _ => let '(a, sent) := deliver a in (Waiting, a, sent, queue)
  end.
Definition run_task_turn (t : N) (queue : list (Nanos * EngineMsg)) a : Ended * Actor S * list Sent * list (Nanos * EngineMsg) :=
  match queue with
  | [] => (Waiting, a, [], [])
  | (_, EngineMsg.Shutdown) :: queue =>
      match shutdown t a with
      | (inr e, a) => (Failed e, a, [], queue)
      | (inl (), a) => (Returned, a, [Sent.Done], queue)
      end
  | _ => batch ACTOR_BATCH_LIMIT t queue (clear_outbox a)
  end.
End actor.
