(* ===== verification/Durable.v ===== *)
(** * The actor keeps the log up to date

    [LogLaws] is what the actor relies on: operations keep the jobs a log
    holds, [append] adds its entries, and what is on disk at any moment of an
    operation holds a prefix of them.  Against these laws, after every turn of
    the actor that did not fail the log holds exactly the engine's jobs. *)

From S2P Require Import Prelude Ms Proto Stats Parse Model Format Engine Inv InvFrame Rest Commands Reach Recover Snapshot.
From S2P Require Import Frames Keep Sized Replay Scan Journal Wal Actor.
From stdpp Require Import options.

(** ** What a log promises *)
Section laws.
Context {S X : Type} (past : S → list X) (image : X → Live → Prop).
(** [s'] has written [new] since [s]; each image holds a prefix of [recs] on
    top of [L]. *)
Definition wrote (L : Live) (recs : list Rec) (s s' : S) : Prop :=
  ∃ new, past s' = new ++ past s ∧ Forall (λ x, ∃ k, image x (live_run L (take k recs))) new.
Definition log_step {A} (holds : Live → S → Prop) (L : Live) (recs : list Rec) (s : S) (r : (A + WalError) * S) : Prop :=
  wrote L recs s r.2 ∧ match r.1 with inl _ => holds (live_run L recs) r.2 | inr e => e = WalError.Io end.
Class LogLaws `{Log S} (holds : Live → S → Prop) : Prop := {
  law_reserve L s m n : holds L s → log_step holds L [] s (log_reserve_put m n s);
  law_append L s es : holds L s → Forall fits (entry_rec <$> es) → log_step holds L (entry_rec <$> es) s (log_append es s);
  law_sync L s t : holds L s → log_step holds L [] s (log_sync_if_due t s);
  law_maintain L s : holds L s → log_step holds L [] s (log_maintain s);
  law_stats L s : holds L s → is_Some (log_stats s);
}.
Lemma wrote_refl L recs s : wrote L recs s s.
Proof. by exists []. Qed.
Lemma wrote_app L r1 r2 s1 s2 s3 : wrote L r1 s1 s2 → wrote (live_run L r1) r2 s2 s3 → wrote L (r1 ++ r2) s1 s3.
Proof.
  intros (n1 & H1 & F1) (n2 & H2 & F2). exists (n2 ++ n1). rewrite H2, H1, (assoc_L (++)). split; [done|]. apply Forall_app. split.
  - eapply Forall_impl; [exact F2|]. intros x (k & Hx). exists (length r1 + k). unfold live_run in *. by rewrite take_app_add, foldl_app.
  - eapply Forall_impl; [exact F1|]. intros x (k & Hx). exists (min k (length r1)). by rewrite take_app_le, <-take_take, firstn_all by lia.
Qed.
Lemma wrote_nil_l L r s1 s2 s3 : wrote L [] s1 s2 → wrote L r s2 s3 → wrote L r s1 s3.
Proof. intros H1 H2. exact (wrote_app L [] r s1 s2 s3 H1 H2). Qed.
Lemma wrote_nil L recs s s' : wrote L [] s s' → wrote L recs s s'.
Proof.
  intros (new & ? & HF). exists new. split; [done|]. eapply Forall_impl; [exact HF|]. intros x (k & Hx). exists 0. by rewrite take_nil in Hx.
Qed.
Lemma wrote_nil_r L r s1 s2 s3 : wrote L r s1 s2 → wrote (live_run L r) [] s2 s3 → wrote L r s1 s3.
Proof. intros H1 H2. rewrite <-(app_nil_r r). by eapply wrote_app. Qed.
End laws.

(** ** The engine's side *)
Record synced (n : N) (L : Live) (e : Engine) : Prop := {
  sy_wf : wf_after n e;
  sy_journal : e_journal e = [];
  sy_tracked : tracked L e;
  sy_named : named L e;
  sy_sized : sized e;
  sy_names : names_ok e;
}.
(** Fields the invariants do not see. *)
Lemma wf_after_forget n b e : wf_after n e → wf_after n (set_binlog_stats b (e <| e_journal := [] |>)).
Proof.
  intros (bu & HI & Hb). exists bu. split; [|done]. assert (Core (ghost_of bu e) (set_binlog_stats b (e <| e_journal := [] |>))) as H; [|exact H].
  by core HI.
Qed.
Lemma synced_binlog n L b e : synced n L e → synced n L (set_binlog_stats b e).
Proof.
  intros [Hwf Hj [? ? ?] Hn [? ? ?] Hv]. constructor; try done.
  destruct Hwf as (bu & HI & Hb). exists bu. split; [|done]. assert (Core (ghost_of bu e) (set_binlog_stats b e)) as H; [|exact H]. by core HI.
Qed.
Definition accepted (now : Nanos) (i : EngineInput) (e : Engine) : bool :=
  legal now i e && input_ok i && (e_next_job_id e <=? MAX_RECORD_ID)%N.
Lemma synced_input n L now i e out :
  synced n L e → (n ≤ run_limit)%N → accepted now i e = true →
  let e' := (apply_input now i (e, out)).1 in
  Forall fits (entry_rec <$> e_journal e') ∧ synced (n + 1) (live_run L (entry_rec <$> e_journal e')) (e' <| e_journal := [] |>).
Proof.
  intros [Hwf Hj HT Hn Hs Hv] Hlim [[Hl Hi]%andb_true_iff Hid%N.leb_le]%andb_true_iff e'. pose proof Hwf as (b & HI & Hids & Hseq).
  pose proof (wf_after_grow _ _ _ HI Hids Hseq Hlim) as Hb. pose proof (budget_ok_ids _ Hb) as Hb1.
  assert (id_ok (e_next_job_id e)) as Hidok by (pose proof (co_bounds _ _ HI) as (_ & Hn1 & _); unfold id_ok; lia).
  pose proof (wf_after_step n now i e out Hwf Hlim Hl) as Hwf'. fold e' in Hwf'. pose proof Hwf' as (b' & HI' & _).
  assert (now ≤ u64_max)%N as Hnow by (apply andb_true_iff in Hl as [? _]; by apply N.leb_le).
  pose proof (tracked_input L now i (e, out) HT) as HT'. pose proof (named_input L b b' now i e out HI Hb1 Hj HT Hn HI') as Hn'.
  pose proof (sized_input now Hnow i (e, out) Hi Hidok Hs) as Hs'. pose proof (names_ok_input now i (e, out) Hi Hv) as Hv'. fold e' in HT', Hn', Hs', Hv'.
  split; [by eapply input_fits|]. constructor; try done.
  - destruct Hwf' as (bu & HI2 & Hb2). exists bu. split; [|done]. assert (Core (ghost_of bu e') (e' <| e_journal := [] |>)) as H; [|exact H]. by core HI2.
  - destruct HT' as [? ? ?]. by constructor.
  - destruct Hs' as [? ? ?]. by constructor.
Qed.

(** ** One turn *)
(** The engine's input for a message. *)
Definition input_of (msg : EngineMsg) : EngineInput :=
  match msg with
  | EngineMsg.Connect c => EngineInput.Connect c
  | EngineMsg.Command c cmd => EngineInput.Command c cmd
  | EngineMsg.PutStarted c too_big => EngineInput.PutStarted c too_big
  | EngineMsg.PutRejected c why => EngineInput.PutRejected c why
  | EngineMsg.HalfClose c => EngineInput.HalfClose c
  | EngineMsg.Disconnect c => EngineInput.Disconnect c
  | EngineMsg.SetDraining on => EngineInput.SetDraining on
  | EngineMsg.Snapshot _ | EngineMsg.Shutdown => EngineInput.Tick
  end.
(** What the engine is given: the message, or the rejection of a put the log
    has no room for. *)
Definition given (msg : EngineMsg) (i : EngineInput) : Prop :=
  i = input_of msg ∨ ∃ c pri delay ttr body, msg = EngineMsg.Command c (Command.Put pri delay ttr body) ∧ i = EngineInput.PutRejected c PutRejection.OutOfMemory.
Lemma given_accepted now msg i e : given msg i → accepted now (input_of msg) e = true → accepted now i e = true.
Proof.
  intros [->|(c & pri & delay & ttr & body & -> & ->)]; [done|]. unfold accepted, legal. rewrite !andb_true_iff. cbn. naive_solver.
Qed.

(** The replies among what was sent. *)
Definition replies (sent : list Sent) : Outbox := omap (λ x, match x with Sent.Reply c r => Some (c, r) | _ => None end) sent.
Lemma replies_fmap (out : Outbox) : replies ((λ r, Sent.Reply r.1 r.2) <$> out) = out.
Proof. induction out as [|[c r] out IH]; [done|]. unfold replies in *. cbn. by rewrite IH. Qed.

Section turn.
Context {S X : Type} (past : S → list X) (image : X → Live → Prop) (holds : Live → S → Prop) `{HL : LogLaws S X past image holds}.
Implicit Types (a : Actor S) (b : Binlog S).
(** The log holds [L], and [L] is what the engine has. *)
Definition actor_ok (n : N) (L : Live) a : Prop :=
  ∃ b, a_binlog a = Some b ∧ holds L (b_log b) ∧ synced n L (a_engine a) ∧ a_journal a = [].
(** The log of [a'] after writing [recs]. *)
Definition gained (L : Live) (recs : list Rec) a a' : Prop :=
  ∃ b b', a_binlog a = Some b ∧ a_binlog a' = Some b' ∧ wrote past image L recs (b_log b) (b_log b').
Lemma gained_app L r1 r2 a1 a2 a3 : gained L r1 a1 a2 → gained (live_run L r1) r2 a2 a3 → gained L (r1 ++ r2) a1 a3.
Proof. intros (b & b' & ? & Hb & ?) (c & c' & Hc & ? & ?). simplify_eq. exists b, c'. split_and!; [done..|]. by eapply wrote_app. Qed.

Lemma note_written_ok L t b a :
  holds L (b_log b) → let '(r, a') := note_written t b a in
  ∃ b', a_binlog a' = Some b' ∧ wrote past image L [] (b_log b) (b_log b') ∧
  match r with
  | inl _ => holds L (b_log b') ∧ a_journal a' = a_journal a ∧ ∃ st, a_engine a' = set_binlog_stats st (a_engine a)
  | inr e => e = WalError.Io
  end.
Proof using HL.
  intros HH. unfold note_written. destruct (law_stats _ _ L _ HH) as [st ->]. case (_ =? _)%N; [eexists; split_and!; eauto using wrote_refl|].
  cbn [b_policy b_log]. destruct (b_policy b) as [|every|]; [eexists; split_and!; eauto using wrote_refl| |eexists; split_and!; eauto using wrote_refl].
  pose proof (law_sync _ _ L _ t HH) as [Hw Hr]. destruct (log_sync_if_due t (b_log b)) as [[[]|e] s]; eexists; cbn in *; split_and!; eauto.
Qed.
Lemma persist_ok L t a b :
  a_binlog a = Some b → holds L (b_log b) → a_journal a = [] → Forall fits (entry_rec <$> e_journal (a_engine a)) →
  let recs := entry_rec <$> e_journal (a_engine a) in let '(r, a') := persist t a in
  gained L recs a a' ∧
  match r with
  | inl _ => ∃ b', a_binlog a' = Some b' ∧ holds (live_run L recs) (b_log b') ∧ a_journal a' = [] ∧
      ∃ st, a_engine a' = set_binlog_stats st ((a_engine a) <| e_journal := [] |>)
  | inr e => e = WalError.Io
  end.
Proof using HL.
  intros Hb HH Hj Hf recs. unfold persist. rewrite Hb, Hj. cbn [take_journal app]. destruct (bool_decide _ && _) eqn:Hskip.
  { apply andb_true_iff in Hskip as [Hnil%bool_decide_eq_true _]. unfold recs in *. rewrite Hnil. split; [exists b, b; split_and!; eauto using wrote_refl|].
    exists b. split_and!; [done..|]. exists (e_binlog (a_engine a)). by destruct (a_engine a). }
  cbn [b_log]. pose proof (law_append _ _ L _ (e_journal (a_engine a)) HH Hf) as [Hw Hr]. fold recs in Hw, Hr.
  destruct (log_append _ (b_log b)) as [[[]|e] s]; cbn [fst snd] in *; [|split; [eexists _, _; split_and!; [done|done|exact Hw]|done]].
  pose proof (law_maintain _ _ _ _ Hr) as [Hw2 Hr2]. pose proof (wrote_nil_r _ _ _ _ _ _ _ Hw Hw2) as Hw3.
  destruct (log_maintain s) as [[[]|e] s2]; cbn [fst snd] in *; [|split; [eexists _, _; split_and!; [done|done|exact Hw3]|done]].
  set (b2 := with_log s2 _). set (a2 := mkActor _ _ _ _ [] _). pose proof (note_written_ok (live_run L recs) t b2 a2 Hr2) as HN.
  destruct (note_written t b2 a2) as [r a']. destruct HN as (b' & Hb' & Hw4 & HN). split.
  { eexists _, b'. split_and!; [done|done|]. by eapply wrote_nil_r. }
  destruct r as [[]|e]; [|done]. destruct HN as (? & ? & ?). eauto 10.
Qed.

(** A message applied by [a] with the log [b]. *)
Definition applied (L : Live) (now : Nanos) (msg : EngineMsg) a b (r : () + WalError) a' : Prop :=
  ∃ b', a_binlog a' = Some b' ∧ wrote past image L [] (b_log b) (b_log b') ∧
  match r with
  | inl _ => holds L (b_log b') ∧ a_journal a' = [] ∧ ∃ i, given msg i ∧ (a_engine a', a_outbox a') = run_input now i (a_engine a, a_outbox a)
  | inr e => e = WalError.Io
  end.
Lemma applied_engine L now msg a b b' a' i :
  wrote past image L [] (b_log b) (b_log b') → holds L (b_log b') → a_binlog a' = Some b' → a_journal a' = [] → given msg i →
  (a_engine a', a_outbox a') = run_input now i (a_engine a, a_outbox a) → applied L now msg a b (inl ()) a'.
Proof. intros. exists b'. split_and!; eauto. Qed.
Lemma command_applied L now c cmd a b :
  a_binlog a = Some b → holds L (b_log b) → a_journal a = [] →
  let '(r, a') := command now c cmd a in applied L now (EngineMsg.Command c cmd) a b r a'.
Proof using HL.
  intros Hb HH Hj. assert (applied L now (EngineMsg.Command c cmd) a b (inl ()) (with_engine (handle now c cmd (a_engine a, a_outbox a)) a)) as Hplain.
  { eapply applied_engine; [apply wrote_refl|done|done|done|by left|]. cbn. by destruct handle. }
  unfold command. destruct cmd; try exact Hplain. destruct (a_draining a); [exact Hplain|]. rewrite Hb.
  pose proof (law_reserve _ _ L _ (N.to_nat MAX_TUBE_NAME_LEN) (length body) HH) as [Hw Hr].
  destruct (log_reserve_put _ _ (b_log b)) as [[[]|e] s]; cbn [fst snd] in *.
  - eapply (applied_engine _ _ _ _ _ (mkBinlog s _ true _ _)); [done|done|done|done|by left|]. cbn [with_engine with_binlog a_engine a_outbox input_of run_input]. by destruct (handle _ _ _ _).
  - eapply (applied_engine _ _ _ _ _ (with_log s b)); [done|done|done|done|right; naive_solver|]. cbn [with_engine with_binlog a_engine a_outbox run_input]. by destruct (put_rejected _ _ _).
  - eexists. split_and!; [done|exact Hw|done].
Qed.
Lemma apply_msg_ok L now msg a b :
  a_binlog a = Some b → holds L (b_log b) → a_journal a = [] →
  let '(r, a', sent) := apply_engine_msg now msg a in replies sent = [] ∧ applied L now msg a b r a'.
Proof using HL.
  intros Hb HH Hj. destruct msg as [c|c cmd|c tb|c why|c|c|on|mt|]; cbn [apply_engine_msg].
  2: { pose proof (command_applied L now c cmd a b Hb HH Hj). by destruct (command now c cmd a). }
  all: split; [done|]; eapply applied_engine; [apply wrote_refl|done|done|done|by left|].
  all: cbn [input_of run_input]; first [done|symmetry; apply surjective_pairing].
Qed.

(** ** One turn *)
(** The outcome of a turn that gives the engine [i]: the log gains the
    engine's entries, and replies are sent only when all of them are in it. *)
Definition turn_ok (n : N) (L : Live) (now : Nanos) (i : EngineInput) a (r : () + WalError) a' (sent : list Sent) : Prop :=
  let s := apply_input now i (a_engine a, []) in let recs := entry_rec <$> e_journal s.1 in
  gained L recs a a' ∧
  match r with
  | inl _ => actor_ok (n + 1) (live_run L recs) a' ∧ replies sent = filter (λ r, r.1 ∈ a_conns a') s.2 ∧
      ∃ st, a_engine a' = set_binlog_stats st (s.1 <| e_journal := [] |>)
  | inr e => e = WalError.Io ∧ replies sent = []
  end.
Lemma persist_conns t a : a_conns (persist t a).2 = a_conns a ∧ a_outbox (persist t a).2 = a_outbox a.
Proof. unfold persist, note_written. repeat (case_match; simplify_eq/=; try done). Qed.
(** [a] has the log [b] of the actor [a0]'s turn, and its engine was given [i]. *)
Lemma finish_ok n L now t i a0 b0 a b :
  synced n L (a_engine a0) → (n ≤ run_limit)%N → accepted now i (a_engine a0) = true → a_binlog a0 = Some b0 →
  a_binlog a = Some b → wrote past image L [] (b_log b0) (b_log b) → holds L (b_log b) → a_journal a = [] →
  (a_engine a, a_outbox a) = run_input now i (a_engine a0, []) →
  let '(r, a', sent) := finish now t a in turn_ok n L now i a0 r a' sent.
Proof using HL.
  intros Hs Hn Hacc Hb0 Hb Hw HH Hj He. unfold finish. set (a1 := tick_actor now a).
  assert ((a_engine a1, a_outbox a1) = apply_input now i (a_engine a0, [])) as He1.
  { unfold apply_input. rewrite <-He. cbn. by destruct (tick now _). }
  destruct (synced_input n L now i (a_engine a0) [] Hs Hn Hacc) as [Hf Hs'].
  pose proof (persist_ok L t a1 b Hb HH Hj) as HP. pose proof (persist_conns t a1) as [Hc Ho].
  unfold turn_ok. rewrite <-He1 in *. cbn [fst snd] in *. specialize (HP Hf). cbv zeta in HP. destruct (persist t a1) as [[[]|e] a2]; cbn [fst snd deliver] in *.
  - destruct HP as [(b1 & b2 & Hb1 & Hb2 & Hw2) (b3 & Hb3 & HH3 & Hj3 & st & He3)]. assert (b1 = b) as -> by (cbn in Hb1; congruence).
    split; [exists b0, b2; split_and!; [done|done|by eapply wrote_nil_l]|]. split_and!.
    + exists b3. split_and!; [done|done| |done]. cbn. rewrite He3. by apply synced_binlog.
    + rewrite replies_fmap. cbn. by rewrite Ho.
    + by exists st.
  - destruct HP as [(b1 & b2 & Hb1 & Hb2 & Hw2) ->]. assert (b1 = b) as -> by (cbn in Hb1; congruence).
    split; [|done]. exists b0, b2. split_and!; [done|done|by eapply wrote_nil_l].
Qed.
Lemma failed_turn n L now i a b a' b' sent :
  a_binlog a = Some b → a_binlog a' = Some b' → wrote past image L [] (b_log b) (b_log b') → replies sent = [] →
  turn_ok n L now i a (inr WalError.Io) a' sent.
Proof. intros. split; [|done]. exists b, b'. split_and!; [done|done|by apply wrote_nil]. Qed.
Lemma on_message_ok n L now t msg a :
  actor_ok n L a → (n ≤ run_limit)%N → accepted now (input_of msg) (a_engine a) = true →
  let '(r, a', sent) := on_message now t msg a in ∃ i, given msg i ∧ turn_ok n L now i a r a' sent.
Proof using HL.
  intros (b & Hb & HH & Hs & Hj) Hn Hacc. unfold on_message. pose proof (apply_msg_ok L now msg (clear_outbox a) b Hb HH Hj) as HA.
  destruct (apply_engine_msg now msg (clear_outbox a)) as [[[[]|e] a1] sent]; destruct HA as (Hsent & b1 & Hb1 & Hw & HA).
  - destruct HA as (HH1 & Hj1 & i & Hi & He). pose proof (given_accepted _ _ _ _ Hi Hacc) as Hacc'.
    pose proof (finish_ok n L now t i a b a1 b1 Hs Hn Hacc' Hb Hb1 Hw HH1 Hj1 He) as HF. destruct (finish now t a1) as [[r a2] sent'].
    exists i. split; [done|]. unfold turn_ok, replies in *. by rewrite omap_app, Hsent.
  - subst e. exists (input_of msg). split; [by left|]. by eapply failed_turn.
Qed.
Lemma on_timer_ok n L now t0 t a :
  actor_ok n L a → (n ≤ run_limit)%N → accepted now EngineInput.Tick (a_engine a) = true →
  let '(r, a', sent) := on_timer now t0 t a in turn_ok n L now EngineInput.Tick a r a' sent.
Proof using HL.
  intros (b & Hb & HH & Hs & Hj) Hn Hacc. unfold on_timer. cbn [clear_outbox with_engine a_binlog]. rewrite Hb.
  assert (∀ b', wrote past image L [] (b_log b) (b_log b') → holds L (b_log b') →
    let '(r, a', sent) := finish now t (with_binlog b' (clear_outbox a)) in turn_ok n L now EngineInput.Tick a r a' sent) as HF.
  { intros b' Hw HH'. by eapply (finish_ok n L now t EngineInput.Tick a b (with_binlog b' (clear_outbox a)) b'). }
  assert (with_binlog b (clear_outbox a) = clear_outbox a) as Hid by (destruct a; cbn in *; by subst).
  pose proof (HF b (wrote_refl _ _ _ _ _) HH) as H0. rewrite Hid in H0. destruct (b_sync_at b) as [at_|]; [|exact H0]. case (at_ <=? t0)%N; [|exact H0].
  cbn [b_log]. pose proof (law_sync _ _ L _ t0 HH) as [Hw Hr]. destruct (log_sync_if_due t0 (b_log b)) as [[[]|e] s]; cbn [fst snd] in *.
  - by apply HF.
  - subst e. by eapply failed_turn.
Qed.

(** ** The thread *)
Lemma Actor_new_ok n L e s policy : holds L s → synced n L e → ∃ a, Actor_new e (Some (s, policy)) = Some a ∧ actor_ok n L a.
Proof using HL.
  intros HH Hs. destruct (law_stats _ _ L _ HH) as [st Hst]. unfold Actor_new. rewrite Hst. cbn. eexists. split; [done|].
  eexists. split_and!; [done|done|by apply synced_binlog|done].
Qed.
(** What a turn may receive: an input the engine accepts. *)
Definition receivable (now : Nanos) (got : Received) a : bool :=
  match got with
  | Got EngineMsg.Shutdown | Gone => true
  | Got msg => accepted now (input_of msg) (a_engine a)
  | TimedOut => accepted now EngineInput.Tick (a_engine a)
  end.
Fixpoint receivable_run (turns : list (Nanos * N * N * Received)) a : bool :=
  match turns with
  | [] => true
  | (now, t0, t, got) :: turns =>
      receivable now got a &&
      match run_turn now t0 t got a with (Waiting, a, _) => receivable_run turns a | _ => true end
  end.
(** The outcome of a turn or a run: the log of [a'] has gained [recs]; unless
    the process exits, it holds what the engine has. *)
Definition run_ok (n : N) (L : Live) (recs : list Rec) a (r : Ended) a' : Prop :=
  gained L recs a a' ∧ match r with Waiting | Returned => actor_ok n (live_run L recs) a' | Failed e => e = WalError.Io end.
Lemma shutdown_ok n L t a : actor_ok n L a → let '(r, a') := shutdown t a in
  gained L [] a a' ∧ match r with inl _ => actor_ok n L a' | inr e => e = WalError.Io end.
Proof using HL.
  intros (b & Hb & HH & Hs & Hj). unfold shutdown. rewrite Hb.
  assert (gained L [] a a) as Hg by (exists b, b; split_and!; eauto using wrote_refl).
  assert (actor_ok n L a) as Ha by (by exists b). destruct (b_policy b) as [|every|]; [done| |done].
  pose proof (law_sync _ _ L _ (default t (instant_checked_add t every)) HH) as [Hw Hr].
  destruct (log_sync_if_due _ (b_log b)) as [[[]|e] s]; cbn [fst snd] in *; (split; [exists b, (with_log s b); by split_and!|]); [|done].
  exists (with_log s b). by split_and!.
Qed.
Lemma turn_run n L now i a r a' sent :
  turn_ok n L now i a r a' sent → ∃ recs, run_ok (n + 1) L recs a (match r with inl _ => Waiting | inr e => Failed e end) a'.
Proof. intros [Hg Hr]. eexists. split; [exact Hg|]. destruct r; by destruct Hr as (? & _). Qed.
Lemma run_turn_ok n L now t0 t got a :
  actor_ok n L a → (n ≤ run_limit)%N → receivable now got a = true →
  let '(r, a', sent) := run_turn now t0 t got a in ∃ m recs, (n ≤ m ≤ n + 1)%N ∧ run_ok m L recs a r a'.
Proof using HL.
  intros Ha Hn Hgot. assert (gained L [] a a) as Hg by (destruct Ha as (b & Hb & _); exists b, b; split_and!; eauto using wrote_refl).
  destruct got as [msg| |].
  - assert (msg ≠ EngineMsg.Shutdown → accepted now (input_of msg) (a_engine a) = true →
      let '(r, a', sent) := on_message now t msg a in ∃ m recs, (n ≤ m ≤ n + 1)%N ∧ run_ok m L recs a (match r with inl _ => Waiting | inr e => Failed e end) a') as HM.
    { intros _ Hacc. pose proof (on_message_ok n L now t msg a Ha Hn Hacc) as HO. destruct (on_message now t msg a) as [[r a'] sent].
      destruct HO as (i & _ & [recs HO]%turn_run). exists (n + 1)%N, recs. split; [lia|done]. }
    destruct msg; try (cbn [run_turn]; specialize (HM ltac:(done) Hgot); by destruct (on_message _ _ _ _) as [[? ?] ?]).
    cbn [run_turn]. pose proof (shutdown_ok n L t a Ha) as HS. destruct (shutdown t a) as [[[]|e] a']; exists n, []; (split; [lia|]); exact HS.
  - cbn [run_turn]. pose proof (on_timer_ok n L now t0 t a Ha Hn Hgot) as HO. destruct (on_timer now t0 t a) as [[r a'] sent].
    apply turn_run in HO as [recs HO]. exists (n + 1)%N, recs. split; [lia|done].
  - exists n, []. split; [lia|]. by split.
Qed.
Lemma run_actor_ok turns n L a :
  actor_ok n L a → (n + N.of_nat (length turns) ≤ run_limit)%N → receivable_run turns a = true →
  let '(r, a', sent) := run turns a in ∃ m recs, run_ok m L recs a r a'.
Proof using HL.
  revert n L a. induction turns as [|[[[now t0] t] got] turns IH]; intros n L a Ha Hn Hgot; cbn [run].
  { exists n, []. destruct Ha as (b & Hb & Ha). split; [exists b, b; split_and!; eauto using wrote_refl|by exists b]. }
  cbn [receivable_run length] in *. apply andb_true_iff in Hgot as [Hgot Hrest]. pose proof (run_turn_ok n L now t0 t got a Ha ltac:(lia) Hgot) as HT.
  destruct (run_turn now t0 t got a) as [[[| |e] a1] sent]; destruct HT as (m & recs & Hm & HT); [|by eauto..].
  destruct HT as [Hg Ha1]. specialize (IH m _ a1 Ha1 ltac:(lia) Hrest). destruct (run turns a1) as [[r a2] sent2].
  destruct IH as (m2 & recs2 & Hg2 & HR). exists m2, (recs ++ recs2). unfold run_ok, live_run in *. rewrite foldl_app. split; [|done]. by eapply gained_app.
Qed.
End turn.
