(* ===== verification/Restart.v ===== *)
(** * Restarting from the log

    The engine recovered from an opened log holds the log's jobs and nothing
    else, so the actor starts with the two in agreement; and the write-ahead
    log keeps the promises the actor relies on ([LogLaws]). *)

From S2P Require Import Prelude Ms Proto Stats Parse Reply Model Format Engine Frames Inv Rest Commands Reach Recover.
From S2P Require Import Keep Sized Snapshot Replay Scan Wal WalDisk WalFiles WalIndex WalInv WalOpen Log Journal Actor Durable.
From stdpp Require Import options.

(** ** The live jobs of a log *)
Definition job_fits (id : JobId) (rj : RecoveredJob) : Prop :=
  rj_id rj = id ∧ jobrec_ok (rj_record rj) ∧ validate_tube_name (rj_tube rj) = true.
Definition live_ok (L : Live) : Prop := map_Forall job_fits L.
Lemma live_step_ok L r : live_ok L → fits r → live_ok (live_step L r).
Proof.
  intros HL [Hr _]. destruct r as [record tube body|record|id]; cbn in *.
  - destruct Hr as [Hr Hv]. by apply map_Forall_insert_2.
  - intros id rj. rewrite lookup_alter_Some. intros [(<- & j & Hj & ->)|(_ & Hj)]; [|by apply HL].
    destruct (HL _ _ Hj) as (_ & _ & Hv). done.
  - by apply map_Forall_delete.
Qed.
Lemma live_run_ok L recs : live_ok L → Forall fits recs → live_ok (live_run L recs).
Proof.
  unfold live_run. intros HL Hf. revert L HL. induction Hf as [|r recs Hr _ IH]; intros L HL; [done|]. cbn. by apply IH, live_step_ok.
Qed.

(** ** The engine's side *)
Definition quiet (e : Engine) := (e_journal e, e_cfg e).
#[export] Instance tubeless_quiet : Tubeless quiet.
Proof.
  split; [split; [split|..]|..]; intros; try done. all: unfold gc_tube_if_orphan, find_or_make_tube; repeat case_match; simplify_eq; done.
Qed.
(** A view that sees neither jobs nor tubes is that of a new engine. *)
Section view.
Context {A} (π : Engine → A) `{!Tubeless π} (Hjobs : ∀ f e, π (e <| e_jobs ::= f |>) = π e).
Lemma view_recover_job now s rj : π (recover_job now s rj).2 = π s.2.
Proof using All.
  destruct s as [m e]. unfold recover_job. case_bool_decide; [done|]. pose proof (du_find (π := π) (rj_tube rj) e) as Hf.
  destruct (find_or_make_tube (rj_tube rj) e) as [tid e1]. cbn [fst snd] in *. rewrite <-Hf. unfold enter_queue.
  repeat case_match; rewrite ?un_insert_ready, ?un_insert_delayed, ?un_insert_buried by apply _; by rewrite un_upd_tube by apply _.
Qed.
Lemma view_recover now cfg sys rec : π (recover now cfg sys rec) = π (Engine_new now cfg sys).
Proof using All.
  unfold recover. set (e0 := recover_tubes _ _ _). assert (π e0 = π (Engine_new now cfg sys)) as H0.
  { unfold e0, recover_tubes. generalize (Engine_new now cfg sys).
    induction (rec_tube_order rec) as [|name l IH]; intros e; [done|]. cbn. rewrite IH. case_bool_decide; [apply du_find; apply _|done]. }
  assert (∀ s l, π (foldl (recover_job now) s l).2 = π s.2) as Hf.
  { intros s l. revert s. induction l as [|rj l IH]; intros s; [done|]. cbn. by rewrite IH, view_recover_job. }
  specialize (Hf (0%N, e0) (rec_jobs rec)). rewrite <-H0. destruct (foldl _ _ _) as [m e]. cbn [snd] in Hf. by rewrite (du_next (π := π)).
Qed.
End view.
Lemma quiet_recover now cfg sys rec : quiet (recover now cfg sys rec) = ([], cfg).
Proof. by apply (view_recover quiet). Qed.
Lemma entered_stamp now seq tid rj :
  stamp (entered now seq (rj_record rj) (recovered_job tid rj)) =
  (rj_id rj, tid, N.max (r_ttr (rj_record rj)) 1, rj_body rj, r_created_at (rj_record rj))%N.
Proof. unfold entered. by repeat case_match. Qed.
Lemma entered_sized now seq tid rj : jobrec_ok (rj_record rj) → job_sized (entered now seq (rj_record rj) (recovered_job tid rj)).
Proof.
  intros [? (? & ? & ?) (? & ?) (? & ? & ?) (? & ?)]. unfold entered. repeat case_match; constructor; cbn; try done; try lia.
  split; [apply incr32_lt|done].
Qed.
Section restart.
Context (now : Nanos) (cfg : EngineConfig) (sys : SysSnapshot) (rec : Recovery) (L : Live).
Context (Hcfg : cfg_journal cfg = true) (Hrec : recovery_ok rec) (Hall : recovers_all rec L) (HL : live_ok L).
Let e := recover now cfg sys rec.
Lemma recovered_in id rj :
  L !! id = Some rj → ∃ tid seq, e_tube_ids e !! rj_tube rj = Some tid ∧ e_jobs e !! id = Some (entered now seq (rj_record rj) (recovered_job tid rj)).
Proof using Hrec Hall.
  intros [Hin <-]%Hall. destruct (rec_state_recover now cfg sys rec Hrec) as (Hs & _). exact (rs_rec _ _ _ _ _ Hs rj Hin).
Qed.
Lemma recovered_from id j : e_jobs e !! id = Some j → ∃ rj, L !! id = Some rj.
Proof using Hrec Hall.
  intros Hj. destruct (rec_state_recover now cfg sys rec Hrec) as (Hs & _).
  assert (id ∈ (r_id ∘ rj_record) <$> rec_jobs rec) as (rj & -> & Hin)%list_elem_of_fmap by (apply (Recover.rs_jobs _ _ _ _ _ Hs); by exists j).
  exists rj. by apply Hall.
Qed.
Lemma restart_stamps id : option_Forall2 same_job (L !! id) (stamps e !! id).
Proof using Hrec Hall.
  unfold stamps. rewrite lookup_fmap. destruct (L !! id) as [rj|] eqn:Hl.
  - destruct (recovered_in _ _ Hl) as (tid & seq & _ & ->). cbn. constructor. rewrite entered_stamp. by split_and!.
  - destruct (e_jobs e !! id) as [j|] eqn:Hj; [|constructor]. apply recovered_from in Hj as [rj Hj]. congruence.
Qed.
Lemma restart_names : names_ok e.
Proof using Hrec Hall HL.
  intros name tid Hn. destruct (rec_state_recover now cfg sys rec Hrec) as (Hs & _).
  destruct (rec_state_Inv _ _ _ _ Hs) as [bt HI]. pose proof (co_reg _ _ HI) as Hreg.
  destruct (rs_named _ _ _ _ _ Hs name tid Hn) as [->|[(id & j & Hj & <-)|[]%elem_of_nil]].
  - destruct Hreg as ([Hdef _] & Hids & _). apply Hids in Hn. rewrite Hdef in Hn. by injection Hn as <-.
  - destruct (recovered_from _ _ Hj) as [rj Hl]. destruct (recovered_in _ _ Hl) as (tid & seq & Ht & Hj'). fold e in Hj. rewrite Hj in Hj'. injection Hj' as ->.
    rewrite entered_tube in Hn. rewrite (reg_name _ _ _ _ _ HI Hn Ht). apply (HL _ _ Hl).
Qed.
Lemma restart_synced : synced 0 L e.
Proof using All.
  pose proof (quiet_recover now cfg sys rec) as [= Hj Hc]. fold e in Hj, Hc.
  destruct (rec_state_recover now cfg sys rec Hrec) as (Hs & _). fold e in Hs. constructor.
  - by apply recover_wf.
  - done.
  - constructor; [by rewrite Hc| |].
    + intros id st Hst. pose proof (restart_stamps id) as H2. rewrite Hst in H2. destruct (L !! id) as [rj|] eqn:Hl; [|by inversion H2].
      inversion_clear H2 as [? ? Hsame|]. destruct (HL id rj Hl) as (Hid & _). destruct st as [[[[id' ?] ?] ?] ?]. destruct Hsame as (<- & _). exact Hid.
    + intros id. unfold logged. rewrite Hj. apply restart_stamps.
  - intros id rj st. unfold logged. rewrite Hj. cbn. intros Hl. destruct (recovered_in _ _ Hl) as (tid & seq & Ht & Hjob).
    unfold stamps. rewrite lookup_fmap, Hjob. intros [= <-]. rewrite entered_stamp. done.
  - constructor; [|by rewrite (proj1 (rs_core _ _ _ _ _ Hs))|by rewrite Hj].
    intros id j Hjob. destruct (recovered_from _ _ Hjob) as [rj Hl]. destruct (recovered_in _ _ Hl) as (tid & seq & _ & Hj'). rewrite Hjob in Hj'. injection Hj' as ->.
    destruct (HL _ _ Hl) as (<- & Hok & _). split; [apply Hok|by apply entered_sized].
  - apply restart_names.
Qed.
End restart.

(** ** The write-ahead log keeps the laws *)
Section wal.
Context (record_crc : Bytes → Bytes → N) (Hcrc : ∀ l p, (record_crc l p < 2 ^ 32)%N).
#[local] Instance wal_log_here : Log (Inner * World) := Wal_log record_crc.
(** The directories the log has gone through, latest first. *)
Definition wal_past (st : Inner * World) : list (FileOp * Disk) := d_log st.2.
Definition wal_image (x : FileOp * Disk) (L : Live) : Prop := replays record_crc x.2 L.
Lemma wal_log_step {A} (op : WalOp) (m : M A) L st :
  wal_do record_crc op st = (m;; ret ()) st → log_ok record_crc L st → Forall fits (op_recs op) →
  log_step wal_past wal_image (log_ok record_crc) L (op_recs op) st (m st).
Proof using Hcrc.
  intros Hm HL Hf. pose proof (wal_do_spec record_crc Hcrc L op st HL Hf) as HW. unfold wp in HW. rewrite Hm in HW. unfold bind in HW.
  destruct (m st) as [[x|e] st']; exact HW.
Qed.
Lemma bind_ret_unit (m : M ()) st : m st = (m;; ret ()) st.
Proof. unfold bind, ret. by destruct (m st) as [[[]|] ?]. Qed.
#[export] Instance Wal_laws : LogLaws wal_past wal_image (log_ok record_crc).
Proof using Hcrc.
  split.
  - intros L s m n HL. by apply (wal_log_step (WalOp.ReservePut m n)).
  - intros L s es HL Hf. apply (wal_log_step (WalOp.Append es)); [apply bind_ret_unit|done|done].
  - intros L s t HL. apply (wal_log_step (WalOp.SyncIfDue t)); [apply bind_ret_unit|done|done].
  - intros L s HL. apply (wal_log_step WalOp.Maintain); [apply bind_ret_unit|done|done].
  - intros L s (G & HI & _). destruct (Files_cur _ _ _ _ (in_files _ _ _ _ HI)) as (c & Hc & _). cbn. unfold stats. rewrite Hc. by eexists.
Qed.
Lemma replays_live_ok d L : replays record_crc d L → live_ok L.
Proof using Hcrc.
  intros (sc & Hsc & <-). destruct (views_exist record_crc Hcrc (disk_files d)) as (vs & Hok & Hf).
  rewrite <-Hf, (scan_views record_crc Hcrc) in Hsc by done. destruct (accepts record_crc None vs) as [torn|]; [|done]. injection Hsc as <-.
  rewrite scan_live. apply live_run_ok; [by intros ? ? ?%lookup_empty_Some|].
  rewrite <-(all_located record_crc). by apply views_fit.
Qed.

(** ** The server from its start *)
Lemma restart_ok file_size policy limit wd L rec st now cfg sys :
  replays record_crc (d_files wd) L → openable file_size (d_files wd) → open record_crc false file_size policy limit wd = (inl rec, st) →
  cfg_journal cfg = true →
  ∃ a, Actor_new (recover now cfg sys rec) (Some (st, policy)) = Some a ∧ actor_ok (log_ok record_crc) 0 L a.
Proof using Hcrc.
  intros HL Hd Ho Hcfg. pose proof (open_spec record_crc Hcrc file_size policy limit wd L HL Hd) as HO. rewrite Ho in HO.
  destruct HO as (_ & Hlog & Hrec & Hall). eapply (Actor_new_ok wal_past wal_image (log_ok record_crc)); [done|].
  apply restart_synced; [done..|]. by eapply replays_live_ok.
Qed.
(** The directory holds the engine's jobs: the same ids, each with the body,
    the time to run, the creation time and the tube of the engine's job. *)
Definition durable (L : Live) (a : Actor (Inner * World)) : Prop :=
  ∃ b, a_binlog a = Some b ∧ replays record_crc (d_files (b_log b).2) L ∧ tracked L (a_engine a) ∧ named L (a_engine a).
Lemma actor_durable n L a : actor_ok (log_ok record_crc) n L a → durable L a.
Proof using Hcrc. intros (b & Hb & HH & Hs & _). exists b. split_and!; [done|by apply log_ok_replays|apply Hs..]. Qed.
End wal.
