(* ===== verification/StoreSpec.v ===== *)
(** * The properties of the binary log and of the actor that writes it

    Theorems about the record format, the replay of a directory, the open
    log, and the engine actor on top of it.  The checksum is an argument of
    every definition; the theorems need of it only that it is a 32-bit
    number. *)

From S2P Require Import Prelude Ms Proto Stats Parse Reply Model Format Engine Frames Inv Rest Commands Reach Recover Snapshot.
From S2P Require Import Keep Sized Replay Scan Wal WalDisk WalFiles WalIndex WalInv WalSpace WalOpen Log Journal Actor Durable Restart.
From stdpp Require Import options.

(** A checksum to run the definitions with. *)
Definition sum32 (l p : Bytes) : N := foldl (λ a b, (a * 31 + byte_N b) `mod` 2 ^ 32)%N 7%N (l ++ p).
Lemma sum32_lt l p : (sum32 l p < 2 ^ 32)%N.
Proof.
  unfold sum32. generalize (l ++ p). intros bytes. assert (∀ a, (a < 2 ^ 32)%N → (foldl (λ a b, (a * 31 + byte_N b) `mod` 2 ^ 32)%N a bytes < 2 ^ 32)%N) as H; [|by apply H].
  induction bytes as [|b bytes IH]; intros a Ha; [done|]. cbn [foldl]. apply IH. by apply N.mod_lt.
Qed.
Definition put_of (id : JobId) (body : string) : JournalEntry :=
  JournalEntry.Put (mkJobRecord id 10 0 60 5 0 RecordState.Ready 0 0 0 0 0) "mail" (bs body).

(** C35. [parse_at] accepts exactly what the encoders write: it returns a
    record if and only if the bytes at the position start with the encoding of
    that record, whose numbers, id and tube name are within their types and
    limits, and the length it returns is the length of the encoding. *)
Theorem record_exact record_crc buf pos rec n :
  (∀ l p, record_crc l p < 2 ^ 32)%N →
  parse_at record_crc buf pos = Parsed.Record rec n ↔
    ∃ bytes suf, rec_ok rec ∧ encode_rec record_crc rec = Some bytes ∧ n = length bytes ∧ drop pos buf = bytes ++ suf.
Proof. intros Hcrc. by apply parse_Record. Qed.
Definition delete_bytes : Bytes := default [] (encode_delete sum32 9).
Lemma record_exact_witness : parse_at sum32 (zeros 3 ++ delete_bytes ++ zeros 5) 3 = Parsed.Record (Rec.Delete 9) 17.
Proof.
  apply (record_exact sum32 _ 3 (Rec.Delete 9) 17 sum32_lt). exists delete_bytes, (zeros 5). split; [by split|]. by vm_compute.
Defined.

(** C34. The replay of a directory: whatever the files hold, each is a blank
    file, a foreign one, or a header, a run of records and a tail at which no
    record starts.  The scan fails exactly on a foreign file, a malformed
    record or a record after a torn tail, and otherwise its jobs are those of
    the records of all segments applied in order, Puts inserting, Updates
    changing the record and Deletes removing; the next id is above every id
    in the log.  Only files named as the log names them are read. *)
Theorem scan_exact record_crc dir :
  (∀ l p, record_crc l p < 2 ^ 32)%N →
  (∀ name i, segment_index name = Some i ↔ (1 ≤ i ≤ u64_max)%N ∧ name = segment_path i) ∧
  ∃ vs, Forall (v_ok record_crc) vs ∧ v_file record_crc <$> vs = found dir ∧
    match accepts record_crc None vs with
    | None => scan record_crc dir = inr Corrupt
    | Some torn => ∃ sc, scan record_crc dir = inl sc ∧ sc_torn sc = torn ∧ job_of <$> sc_jobs sc = live_run ∅ (all_recs vs) ∧
        ∀ r, r ∈ all_recs vs → (rec_id r < sc_next_id sc)%N
    end.
Proof.
  intros Hcrc. split; [apply segment_index_Some|]. destruct (views_exist record_crc Hcrc (found dir)) as (vs & Hok & Hf). exists vs. split_and!; [done|done|].
  unfold scan. rewrite <-Hf, (scan_views record_crc Hcrc) by done. destruct (accepts record_crc None vs) as [torn|]; [|done].
  eexists. split_and!; [done|done|by apply scan_live|]. intros r. rewrite <-(all_located record_crc).
  apply replayed_next. by apply views_fit.
Qed.
Definition two_files : list (string * Bytes) :=
  [("binlog.2", segment_header ++ delete_bytes ++ zeros 9); ("lock", []);
   ("binlog.1", segment_header ++ default [] (encode_rec sum32 (entry_rec (put_of 9 "x"))) ++ default [] (encode_rec sum32 (entry_rec (put_of 4 "y"))))].
Lemma scan_exact_witness :
  ∃ vs sc, v_file sum32 <$> vs = found two_files ∧ scan sum32 two_files = inl sc ∧ live_run ∅ (all_recs vs) = job_of <$> sc_jobs sc ∧ dom (sc_jobs sc) = {[4%N]}.
Proof.
  destruct (scan_exact sum32 two_files sum32_lt) as (_ & vs & _ & Hf & H). exists vs. destruct (accepts sum32 None vs) as [torn|].
  - destruct H as (sc & Hsc & _ & HL & _). exists sc. split_and!; [done|done|done|]. clear -Hsc. vm_compute in Hsc. injection Hsc as <-. by vm_compute.
  - exfalso. clear -H. by vm_compute in H.
Defined.

(** C22. An operation of the open log ([reserve_put], [append],
    [sync_if_due], [maintain] with its compaction and garbage collection) on a
    log that holds the live jobs [L]: every directory it passes through, after
    any of its file operations, replays to [L] with a prefix of the appended
    entries applied, so a crash there loses no job and invents none.  When it
    returns, the log holds [L] with all entries applied; the only error it can
    return is an I/O error of an allocation, and it never panics. *)
Theorem log_operation record_crc L op st :
  (∀ l p, record_crc l p < 2 ^ 32)%N → log_ok record_crc L st → Forall fits (op_recs op) →
  let '(r, st') := wal_do record_crc op st in
  (∃ new, d_log st'.2 = new ++ d_log st.2 ∧
     ∀ op' d, (op', d) ∈ new → ∃ k, replays record_crc d (live_run L (take k (op_recs op)))) ∧
  match r with
  | inl _ => log_ok record_crc (live_run L (op_recs op)) st' ∧ replays record_crc (d_files st'.2) (live_run L (op_recs op))
  | inr e => e = WalError.Io
  end.
Proof.
  intros Hcrc HL Hf. pose proof (wal_do_spec record_crc Hcrc L op st HL Hf) as [(new & Hlog & HF) HR].
  destruct (wal_do record_crc op st) as [[[]|e] st']; cbn [fst snd] in *; (split; [|try done]).
  1, 3: exists new; split; [done|]; intros op' d Hin; by apply (proj1 (Forall_forall _ _) HF (op', d)).
  split; [done|by apply log_ok_replays].
Qed.
(** A fresh log of one block per segment, and it after a put. *)
Definition fresh_log : Inner * World := (open sum32 false 1 SyncPolicy.Always None (mkWorld ∅ [] [])).2.
Lemma empty_openable : openable 1 ∅.
Proof. split; [by eexists|]. by intros i [? ?%lookup_empty_Some]. Qed.
Lemma empty_replays : replays sum32 ∅ ∅.
Proof. eexists. split; [by vm_compute|by vm_compute]. Qed.
Lemma fresh_log_ok : log_ok sum32 ∅ fresh_log.
Proof.
  pose proof (open_spec sum32 sum32_lt 1 SyncPolicy.Always None (mkWorld ∅ [] []) ∅ empty_replays empty_openable) as H. unfold fresh_log.
  destruct (open sum32 _ _ _ _ _) as [[rec|e] st] eqn:Ho; [by destruct H as (_ & ? & _)|]. by vm_compute in Ho.
Qed.
Lemma put_of_fits : Forall fits (entry_rec <$> [put_of 1 "hello"]).
Proof. repeat constructor; by vm_compute. Qed.
Lemma log_operation_witness :
  ∃ st, wal_do sum32 (WalOp.Append [put_of 1 "hello"]) fresh_log = (inl (), st) ∧ replays sum32 (d_files st.2) (live_run ∅ [entry_rec (put_of 1 "hello")]).
Proof.
  pose proof (log_operation sum32 ∅ (WalOp.Append [put_of 1 "hello"]) fresh_log sum32_lt fresh_log_ok put_of_fits) as H.
  destruct (wal_do _ _ _) as [[[]|e] st] eqn:Ho; [|exfalso; by vm_compute in Ho]. exists st. split; [done|apply H].
Defined.

(** C23. Opening a log on a directory that replays to [L]: every directory on
    the way replays to [L], so a crash while the log is being opened loses
    nothing.  Opening either succeeds, and then the opened log holds [L] and
    the recovery lists each job of [L] once with ids the engine accepts, or it
    fails with an I/O error, and failing to preallocate is the only one.  A directory that does not replay is refused and left as it is. *)
Theorem open_correct record_crc file_size policy limit wd :
  (∀ l p, record_crc l p < 2 ^ 32)%N → openable file_size (d_files wd) →
  let '(r, st) := open record_crc false file_size policy limit wd in
  match scan_files record_crc (disk_files (d_files wd)) with
  | inr _ => r = inr WalError.Corrupt ∧ st.2 = wd
  | inl sc =>
      let L := job_of <$> sc_jobs sc in
      (∃ new, d_log st.2 = new ++ d_log wd ∧ ∀ op d, (op, d) ∈ new → replays record_crc d L) ∧
      match r with
      | inl rec => log_ok record_crc L st ∧ recovery_ok rec ∧ recovers_all rec L
      | inr e => e = WalError.Io
      end
  end.
Proof.
  intros Hcrc Hd. destruct (scan_files record_crc (disk_files (d_files wd))) as [sc|e] eqn:Hsc.
  - pose proof (open_spec record_crc Hcrc file_size policy limit wd (job_of <$> sc_jobs sc) ltac:(by eexists) Hd) as H.
    destruct (open record_crc false file_size policy limit wd) as [r st]. destruct H as [(new & Hnew & HF) HR]. split; [|done].
    exists new. split; [done|]. intros op d Hin. by apply (proj1 (Forall_forall _ _) HF (op, d)).
  - assert (e = Corrupt) as ->.
    { destruct (views_exist record_crc Hcrc (disk_files (d_files wd))) as (vs & Hok & Hf). rewrite <-Hf, (scan_views record_crc Hcrc) in Hsc by done.
      destruct (accepts record_crc None vs); by simplify_eq. }
    destruct Hd as [[n Hn] _]. unfold open. rewrite Hn, Hsc. done.
Qed.
(** A directory whose last append was cut short. *)
Definition torn_dir : Disk := {[1%N := segment_header ++ default [] (encode_rec sum32 (entry_rec (put_of 9 "x"))) ++ take 12 delete_bytes]}.
Lemma torn_openable : openable 1 torn_dir.
Proof. split; [by eexists|]. unfold torn_dir. intros i [? [<- _]%lookup_singleton_Some]. by vm_compute. Qed.
Definition torn_open : (Recovery + WalError) * (Inner * World) := open sum32 false 1 SyncPolicy.Always None (mkWorld torn_dir [] []).
Lemma open_correct_witness :
  ∃ rec, torn_open.1 = inl rec ∧ rj_id <$> rec_jobs rec = [9%N] ∧ recovery_ok rec.
Proof.
  pose proof (open_correct sum32 1 SyncPolicy.Always None (mkWorld torn_dir [] []) sum32_lt torn_openable) as H.
  assert (∃ rec, torn_open.1 = inl rec ∧ rj_id <$> rec_jobs rec = [9%N]) as (rec & Hrec & Hids) by (eexists; split; [by vm_compute|by vm_compute]).
  fold torn_open in H. exists rec. split_and!; [done|done|]. destruct torn_open as [r st]. cbn in Hrec. subst r.
  destruct (scan_files _ _) as [sc|]; [apply H|by destruct H].
Defined.

(** C33. Reserved space.  [reserve_put] never fails: it answers whether the
    put may go on, and when it answers yes the put and its bytes are promised
    and the preallocated space covers the promises and a Delete for every
    live job.  While it does, a batch of promised Puts and of Deletes of live
    jobs is appended without an error whatever allocation would meet, so it
    succeeds on a full disk, and the space stays covered. *)
Theorem reserved_space record_crc L st :
  (∀ l p, record_crc l p < 2 ^ 32)%N → log_ok record_crc L st →
  (∀ tube_len body_len, ∃ b st', reserve_put tube_len body_len st = (inl b, st') ∧ log_ok record_crc L st' ∧
     w_pending_puts st'.1 = w_pending_puts st.1 + (if b then 1 else 0) ∧
     w_pending_bytes st'.1 = w_pending_bytes st.1 + (if b then put_rec_len tube_len body_len else 0) ∧ (b = true → roomy st'.1)) ∧
  ∀ es faults, roomy st.1 → Forall fits (entry_rec <$> es) → covered (w_pending_puts st.1) (w_pending_bytes st.1) (dom L) es →
    ∃ st', append record_crc es (st.1, mkWorld (d_files st.2) (d_log st.2) faults) = (inl (), st') ∧
      log_ok record_crc (live_run L (entry_rec <$> es)) st' ∧ roomy st'.1.
Proof.
  intros Hcrc HL. split; [intros tl bl; by apply reserve_put_ok|]. intros es faults Hr Hf Hc.
  by apply (append_covered record_crc Hcrc L); [apply log_ok_faults| | |].
Qed.
Definition promised : Inner * World := (reserve_put 4 5 fresh_log).2.
Lemma promised_ok : log_ok sum32 ∅ promised ∧ roomy promised.1.
Proof.
  destruct (reserve_put_ok sum32 ∅ fresh_log 4 5 fresh_log_ok) as (b & st & Hst & HL & _ & _ & Hr). unfold promised. rewrite Hst. split; [done|].
  apply Hr. assert ((reserve_put 4 5 fresh_log).1 = inl true) as He by (by vm_compute). rewrite Hst in He. by injection He.
Qed.
Lemma reserved_space_witness :
  ∃ st, append sum32 [put_of 1 "hello"] (promised.1, mkWorld (d_files promised.2) (d_log promised.2) [OpenFails; OpenFails]) = (inl (), st) ∧
    log_ok sum32 (live_run ∅ (entry_rec <$> [put_of 1 "hello"])) st ∧ roomy st.1.
Proof.
  apply (reserved_space sum32 ∅ promised sum32_lt (proj1 promised_ok)); [apply promised_ok|apply put_of_fits|]. cbn [covered put_of]. split_and!; [..|done].
  - vm_compute. lia.
  - apply Nat.leb_le. by vm_compute.
Defined.

(** C24. The log comes before the reply.  A turn of the actor, on a message or
    on its timer, against any log that keeps the laws of [LogLaws]: the engine
    is given one input, the message or, when the log has no room for a put,
    its rejection.  What is on disk at any moment of the turn holds the jobs
    before it and a prefix of the entries the engine journaled.  The replies
    sent are exactly the engine's to connections that are there, and they are
    sent only when all entries are in the log and the log agrees with the
    engine again; a turn that fails sends none. *)
Theorem log_before_reply {S X} past image holds `{LogLaws S X past image holds} n L now t0 t (a : Actor S) :
  actor_ok holds n L a → (n ≤ run_limit)%N →
  (∀ msg, accepted now (input_of msg) (a_engine a) = true →
     let '(r, a', sent) := on_message now t msg a in ∃ i, given msg i ∧ turn_ok past image holds n L now i a r a' sent) ∧
  (accepted now EngineInput.Tick (a_engine a) = true →
     let '(r, a', sent) := on_timer now t0 t a in turn_ok past image holds n L now EngineInput.Tick a r a' sent).
Proof. intros Ha Hn. split; [intros msg Hacc; by apply on_message_ok|intros Hacc; by apply on_timer_ok]. Qed.
(** A server on an empty directory. *)
#[local] Instance sum_log : Log (Inner * World) := Wal_log sum32.
Definition first_open : (Recovery + WalError) * (Inner * World) := open sum32 false 1 SyncPolicy.Always None (mkWorld ∅ [] []).
Definition first_rec : Recovery := match first_open.1 with inl rec => rec | inr _ => mkRecovery [] 1 [] end.
Definition first_cfg : EngineConfig := mkEngineConfig 65535 1024 true.
Definition first_engine : Engine := recover 0 first_cfg ex_sys first_rec.
Definition first_actor : Actor (Inner * World) :=
  default (mkActor first_engine None ∅ [] [] false) (Actor_new first_engine (Some (first_open.2, SyncPolicy.Always))).
Lemma first_opens : open sum32 false 1 SyncPolicy.Always None (mkWorld ∅ [] []) = (inl first_rec, first_open.2).
Proof. fold first_open. unfold first_rec. assert (match first_open.1 with inl _ => true | inr _ => false end = true) as H by (by vm_compute). by destruct first_open as [[?|?] ?]. Qed.
Lemma first_actor_ok : actor_ok (log_ok sum32) 0 ∅ first_actor.
Proof.
  destruct (restart_ok sum32 sum32_lt 1 SyncPolicy.Always None (mkWorld ∅ [] []) ∅ first_rec first_open.2 0 first_cfg ex_sys
    empty_replays empty_openable first_opens eq_refl) as (a & Ha & Hok).
  unfold first_actor. change (Actor_new (recover 0 first_cfg ex_sys first_rec) (Some (first_open.2, SyncPolicy.Always)) = Some a) in Ha.
  unfold first_engine. by rewrite Ha.
Qed.
#[local] Opaque first_actor.
(** A client connects and puts a job: the put is journaled, in the log, and
    answered. *)
Definition first_put : EngineMsg := EngineMsg.Command 1 (Command.Put 3 0 60 (bs "x")).
Definition second_actor : Actor (Inner * World) := (on_message 7 8 (EngineMsg.Connect 1) first_actor).1.2.
(** A turn that succeeds and journals nothing leaves the log as it is. *)
Lemma silent_turn {S X} past image holds `{HLL : LogLaws S X past image holds} n L now msg (a : Actor S) x :
  (let '(r, a', sent) := x in ∃ i, given msg i ∧ turn_ok past image holds n L now i a r a' sent) → x.1.1 = inl () →
  (∀ c cmd, msg ≠ EngineMsg.Command c cmd) → e_journal (apply_input now (input_of msg) (a_engine a, [])).1 = [] →
  actor_ok holds (n + 1) L x.1.2.
Proof.
  destruct x as [[r a'] sent]. intros (i & Hi & _ & Ht) Hr Hm Hj. cbn in Hr. subst r. destruct Ht as (Ha & _).
  destruct Hi as [->|(c & pri & delay & ttr & body & -> & _)]; [|by destruct (Hm c (Command.Put pri delay ttr body))]. by rewrite Hj in Ha.
Qed.
Lemma second_actor_ok : actor_ok (log_ok sum32) 1 ∅ second_actor.
Proof.
  assert (LogLaws wal_past (wal_image sum32) (log_ok sum32)) as HW by exact (Wal_laws sum32 sum32_lt).
  assert ((on_message 7 8 (EngineMsg.Connect 1) first_actor).1.1 = inl ()) as Hr by (by vm_compute).
  assert (e_journal (apply_input 7 (input_of (EngineMsg.Connect 1)) (a_engine first_actor, [])).1 = []) as Hj by (by vm_compute).
  assert (∀ c cmd, EngineMsg.Connect 1 ≠ EngineMsg.Command c cmd) as Hm by (intros c cmd [=]).
  pose proof (on_message_ok wal_past (wal_image sum32) (log_ok sum32) 0 ∅ 7 8 (EngineMsg.Connect 1) first_actor first_actor_ok ltac:(done) ltac:(by vm_compute)) as Ht.
  pose proof (silent_turn wal_past (wal_image sum32) (log_ok sum32) 0 ∅ 7 (EngineMsg.Connect 1) first_actor (on_message 7 8 (EngineMsg.Connect 1) first_actor) Ht Hr Hm Hj) as Ha.
  unfold second_actor. exact Ha.
Qed.
#[local] Opaque second_actor.
Lemma log_before_reply_witness :
  let x := on_message 9 10 first_put second_actor in
  x.1.1 = inl () ∧ replies x.2 = [(1%N, Response.Inserted 1)] ∧
  length (e_journal (apply_input 9 (input_of first_put) (a_engine second_actor, [])).1) = 1 ∧
  let '(r, a', sent) := x in
  ∃ i, given first_put i ∧ turn_ok wal_past (wal_image sum32) (log_ok sum32) 1 ∅ 9 i second_actor r a' sent.
Proof.
  assert (LogLaws wal_past (wal_image sum32) (log_ok sum32)) as HW by exact (Wal_laws sum32 sum32_lt).
  destruct (log_before_reply wal_past (wal_image sum32) (log_ok sum32) 1 ∅ 9 10 10 second_actor second_actor_ok ltac:(done)) as [H _].
  split; [by vm_compute|]. split; [by vm_compute|]. split; [by vm_compute|]. exact (H first_put ltac:(by vm_compute)).
Defined.
