(* ===== verification/Replica.v ===== *)
(** * Replicas

    Every node applies the same inputs, but delivers only the replies of its
    own connections ([set_local_conns]).  [apply_input_local]: what a node
    delivers is the projection of the replies of an engine that delivers
    all of them, and the state does not depend on which replies are
    delivered.  This is what keeps replicas equal. *)

From S2P Require Import Prelude Ms Proto Stats Model Engine Frames Inv InvFrame Serve.
From stdpp Require Import options.

(** ** Routines that do not read [local_conns] *)
Definition Local (op : Engine → Engine) : Prop :=
  ∀ v e, op (e <| e_local_conns := v |>) = (op e) <| e_local_conns := v |>.
Ltac local := intros v e; eng; repeat (case_match; eng); reflexivity.

Lemma Local_keeps op e : Local op → e_local_conns (op e) = e_local_conns e.
Proof.
  intros Hop. pose proof (Hop (e_local_conns e) e) as E.
  replace (e <| e_local_conns := e_local_conns e |>) with e in E by (by destruct e). by rewrite E.
Qed.
Lemma Local_comp f g : Local f → Local g → Local (λ e, f (g e)).
Proof. intros Hf Hg v e. by rewrite Hg, Hf. Qed.
Lemma Local_fold {A} (f : Engine → A → Engine) l : (∀ a, Local (λ e, f e a)) → Local (λ e, foldl f e l).
Proof.
  intros Hf v. induction l as [|a l IH]; intros e; [done|]. cbn [foldl]. rewrite <-IH. f_equal. apply (Hf a).
Qed.
Lemma local_upd_tube tid f : Local (upd_tube tid f).
Proof. done. Qed.
Lemma local_upd_conn cid f : Local (upd_conn cid f).
Proof. done. Qed.
Lemma local_upd_job id f : Local (upd_job id f).
Proof. done. Qed.
Lemma local_refresh_disp tid : Local (refresh_dispatchable tid).
Proof. unfold refresh_dispatchable, tube. local. Qed.
Lemma local_refresh_delay tid : Local (refresh_delay_head tid).
Proof. unfold refresh_delay_head, tube. local. Qed.
Lemma local_refresh_tick tid : Local (refresh_conn_tick tid).
Proof. unfold refresh_conn_tick. local. Qed.
Lemma gc_Local tid : Local (gc_tube_if_orphan tid).
Proof.
  intros v e. unfold gc_tube_if_orphan, tube. eng. destruct (tid =? DEFAULT_TUBE); [done|].
  destruct (slot (e_tubes e) tid) as [t|]; [|done]. destruct (refs t =? 0)%N; [|done].
  destruct (0 <? t_pause t)%N, (t_delay_head t), (t_dispatchable t);
    eng; destruct (ms_remove_at (t_pos t) (e_tube_order e)) as [[x m]|]; eng; by destruct (ms_items _ !! _).
Qed.
Lemma local_insert_ready tid id : Local (insert_ready tid id).
Proof.
  intros v e. unfold insert_ready. eng. destruct (e_jobs e !! id) as [j|]; [|done].
  destruct (is_urgent (j_pri j)); by rewrite <-local_refresh_disp.
Qed.
Lemma local_remove_ready tid id : Local (remove_ready tid id).
Proof. intros v e. unfold remove_ready. rewrite <-local_refresh_disp. eng. by case_match. Qed.
Lemma local_insert_delayed tid id d : Local (insert_delayed tid id d).
Proof.
  intros v e. unfold insert_delayed, tube. rewrite <-local_refresh_delay. eng.
  destruct (slot (e_tubes e) tid); [|done]. by case_match.
Qed.
Lemma local_remove_delayed tid id : Local (remove_delayed tid id).
Proof.
  intros v e. unfold remove_delayed, tube. rewrite <-local_refresh_delay. eng.
  destruct (slot (e_tubes e) tid); [|done]. by case_match.
Qed.
Lemma local_insert_buried tid id : Local (insert_buried tid id).
Proof. done. Qed.
Lemma local_remove_buried tid id : Local (λ e, (remove_buried tid id e).2).
Proof. unfold remove_buried, tube. local. Qed.
Lemma local_do_reserve cid id now : Local (do_reserve cid id now).
Proof.
  intros v e. unfold do_reserve. eng. destruct (e_jobs e !! id) as [j|]; [|done]. by rewrite <-local_refresh_tick.
Qed.
Lemma local_do_unreserve cid id : Local (do_unreserve cid id).
Proof.
  intros v e. unfold do_unreserve. eng. destruct (e_jobs e !! id) as [j|]; by rewrite <-local_refresh_tick.
Qed.
Lemma local_enqueue_waiting cid wd : Local (enqueue_waiting_conn cid wd).
Proof.
  intros v e. unfold enqueue_waiting_conn. eng. destruct (e_conns e !! cid) as [c|]; [|done].
  rewrite <-local_refresh_tick. f_equal. refine (Local_fold (wait_step cid) _ _ v (upd_ct waiting_ct incr64 (upd_conn cid _ e))). intros t.
  apply (Local_comp (refresh_dispatchable t)); [apply local_refresh_disp|apply local_upd_tube].
Qed.
Lemma local_remove_waiting cid : Local (do_remove_waiting_conn cid).
Proof.
  intros v e. unfold do_remove_waiting_conn. eng. destruct (e_conns e !! cid) as [c|]; [|done].
  destruct (c_waiting c); [|done]. rewrite <-local_refresh_tick. f_equal. refine (Local_fold (unwait_step cid) _ _ v (upd_ct waiting_ct decr (upd_conn cid _ e))).
  intros t. apply (Local_comp (refresh_dispatchable t)); [apply local_refresh_disp|apply local_upd_tube].
Qed.
Lemma local_clear_pauses fuel now : Local (clear_pauses_loop fuel now).
Proof.
  intros v. induction fuel as [|fuel IH]; intros e; [done|]. cbn [clear_pauses_loop]. eng.
  destruct (bt_first (e_pauses e)) as [[a i]|]; [|done]. destruct (now <? a)%N; [done|]. by rewrite <-IH.
Qed.
Lemma local_worker cid : Local (connsetworker cid).
Proof. unfold connsetworker. local. Qed.
Lemma local_producer cid : Local (connsetproducer cid).
Proof. unfold connsetproducer. local. Qed.
Lemma local_journal_put id : Local (journal_put id).
Proof. unfold journal_put. local. Qed.
Lemma local_journal_update id : Local (journal_update id).
Proof. unfold journal_update. local. Qed.
Lemma local_journal_delete id : Local (journal_delete id).
Proof. unfold journal_delete. local. Qed.

Lemma local_upd_ct p `{!Setter p} f : Local (upd_ct p f).
Proof. done. Qed.
Lemma local_upd_cc p `{!Setter p} f : Local (upd_cc p f).
Proof. done. Qed.
Lemma local_bump p `{!Setter p} : Local (bump_cmd p).
Proof. done. Qed.
Lemma local_jobs f : Local (set_field e_jobs f).
Proof. done. Qed.
Lemma local_conns f : Local (set_field e_conns f).
Proof. done. Qed.
Lemma local_ticks f : Local (set_field e_conn_ticks f).
Proof. done. Qed.
Lemma local_pauses f : Local (set_field e_pauses f).
Proof. done. Qed.
Lemma local_next f : Local (set_field e_next_job_id f).
Proof. done. Qed.
(** ** What the routines read *)
Section reads.
Context (v : option LocalConns) (e : Engine).
Lemma loc_jobs : e_jobs (e <| e_local_conns := v |>) = e_jobs e.
Proof. done. Qed.
Lemma loc_tubes : e_tubes (e <| e_local_conns := v |>) = e_tubes e.
Proof. done. Qed.
Lemma loc_conns : e_conns (e <| e_local_conns := v |>) = e_conns e.
Proof. done. Qed.
Lemma loc_pauses : e_pauses (e <| e_local_conns := v |>) = e_pauses e.
Proof. done. Qed.
Lemma loc_tube_ids : e_tube_ids (e <| e_local_conns := v |>) = e_tube_ids e.
Proof. done. Qed.
Lemma loc_draining : e_draining (e <| e_local_conns := v |>) = e_draining e.
Proof. done. Qed.
Lemma loc_next_job_id : e_next_job_id (e <| e_local_conns := v |>) = e_next_job_id e.
Proof. done. Qed.
Lemma loc_cfg : e_cfg (e <| e_local_conns := v |>) = e_cfg e.
Proof. done. Qed.
Lemma loc_binlog : e_binlog (e <| e_local_conns := v |>) = e_binlog e.
Proof. done. Qed.
Lemma loc_delay_heads : e_delay_heads (e <| e_local_conns := v |>) = e_delay_heads e.
Proof. done. Qed.
Lemma loc_conn_ticks : e_conn_ticks (e <| e_local_conns := v |>) = e_conn_ticks e.
Proof. done. Qed.
Lemma loc_tube_order : e_tube_order (e <| e_local_conns := v |>) = e_tube_order e.
Proof. done. Qed.
End reads.
Create Rewrite HintDb reads.
#[export] Hint Rewrite loc_jobs loc_tubes loc_conns loc_pauses loc_tube_ids loc_draining loc_next_job_id loc_cfg loc_binlog loc_delay_heads loc_conn_ticks loc_tube_order : reads.
Ltac reads := unfold tube; autorewrite with reads.

(** ** Steps with replies *)
Definition at_node (l : LocalConns) (s : St) : St :=
  (s.1 <| e_local_conns := Some l |>, delivered (Some l) s.2).
Definition Node (op : St → St) : Prop :=
  ∀ l s, e_local_conns s.1 = None → op (at_node l s) = at_node l (op s) ∧ e_local_conns (op s).1 = None.

Lemma node_id : Node (λ s, s).
Proof. done. Qed.
Lemma node_comp f g : Node f → Node g → Node (λ s, f (g s)).
Proof. intros Hf Hg l s Hn. destruct (Hg l s Hn) as [E Hn']. rewrite E. by apply Hf. Qed.
Lemma node_pure f : Local f → Node (λ s, (f s.1, s.2)).
Proof.
  intros Hf l s Hn. unfold at_node. cbn [fst snd]. split; [by rewrite Hf|]. by rewrite (Local_keeps f).
Qed.
Lemma node_reply_with cid f : (∀ v e, f (e <| e_local_conns := v |>) = f e) → Node (reply_with cid f).
Proof.
  intros Hf l [e out] Hn. cbn [fst] in Hn. unfold reply_with, at_node, wants_reply. cbn [fst snd]. eng.
  rewrite Hn, Hf. cbn [fst snd]. rewrite delivered_app. unfold delivered. rewrite (filter_cons _ (cid, f e) []), filter_nil.
  cbn [fst]. destruct (owns l cid); (split; [|done]); cbn; by rewrite ?app_nil_r.
Qed.
Lemma node_reply cid r : Node (reply cid r).
Proof. exact (node_reply_with cid (λ _, r) (λ _ _, eq_refl)). Qed.
(** [op] after a routine [f]. *)
Lemma node_after op f : Node op → Local f → Node (λ s, op (f s.1, s.2)).
Proof. intros Ho Hf. apply (node_comp op _ Ho), node_pure, Hf. Qed.
Lemma node_loop {A} (f : St → A → St) l : (∀ a, Node (λ s, f s a)) → Node (λ s, foldl f s l).
Proof.
  intros Hf. induction l as [|a l IH]; [apply node_id|]. cbn [foldl]. exact (node_comp _ _ IH (Hf a)).
Qed.

Lemma node_at op l e out :
  Node op → e_local_conns e = None →
  op (e <| e_local_conns := Some l |>, delivered (Some l) out) = at_node l (op (e, out)) ∧
  e_local_conns (op (e, out)).1 = None.
Proof. intros Hop Hn. by apply (Hop l (e, out)). Qed.
Create Rewrite HintDb keeps.
#[export] Hint Rewrite (un_upd_tube e_local_conns) (un_upd_conn e_local_conns) (un_upd_job e_local_conns)
  (un_insert_ready e_local_conns) (un_remove_ready e_local_conns) (un_insert_delayed e_local_conns)
  (un_remove_delayed e_local_conns) (un_insert_buried e_local_conns) (un_remove_buried e_local_conns)
  (un_do_reserve e_local_conns) (un_do_unreserve e_local_conns) (un_refresh_disp e_local_conns)
  (un_remove_waiting e_local_conns) (un_enqueue_waiting e_local_conns) (un_refresh_tick e_local_conns) : keeps.
#[export] Hint Rewrite (λ p S f e, Local_keeps _ e (@local_upd_ct p S f)) (λ p S f e, Local_keeps _ e (@local_upd_cc p S f))
  (λ p S e, Local_keeps _ e (@local_bump p S)) (λ t e, Local_keeps _ e (gc_Local t))
  (λ t e, Local_keeps _ e (local_worker t)) (λ t e, Local_keeps _ e (local_producer t))
  (λ t e, Local_keeps _ e (local_journal_put t)) (λ t e, Local_keeps _ e (local_journal_update t))
  (λ t e, Local_keeps _ e (local_journal_delete t)) (λ t e, Local_keeps _ e (local_jobs t))
  (λ t e, Local_keeps _ e (local_conns t)) (λ t e, Local_keeps _ e (local_ticks t))
  (λ t e, Local_keeps _ e (local_pauses t)) (λ t e, Local_keeps _ e (local_next t)) : keeps.
Ltac keeps := cbn [fst]; autorewrite with keeps; done.
Lemma same_view {A} (g : Engine → A) l s : (∀ v e, g (e <| e_local_conns := v |>) = g e) → g (at_node l s).1 = g s.1.
Proof. intros Hg. apply Hg. Qed.

Lemma node_dispatch now id tid : Node (dispatch now id tid).
Proof.
  intros l [e out] Hn. unfold dispatch. cbn [at_node fst snd] in *.
  assert (e_local_conns (remove_ready tid id e) = None) as Hn1 by (by rewrite (un_remove_ready e_local_conns)).
  rewrite local_remove_ready. reads. destruct (slot (e_tubes (remove_ready tid id e)) tid) as [t|].
  - destruct (ms_take (t_waiting_conns t)).1 as [cid|];
      rewrite ?local_remove_ready, local_upd_tube, local_refresh_disp, ?local_remove_waiting, ?local_do_reserve.
    + apply (node_at (reply_with cid (reserved_reply id))); [by apply node_reply_with|].
      by rewrite (un_do_reserve e_local_conns), (un_remove_waiting e_local_conns), (un_refresh_disp e_local_conns).
    + split; [done|]. cbn [fst]. by rewrite (un_refresh_disp e_local_conns).
  - rewrite ?local_remove_ready, local_refresh_disp. split; [done|]. cbn [fst].
    by rewrite (un_refresh_disp e_local_conns).
Qed.
Lemma node_process_loop fuel now : Node (process_queue_loop fuel now).
Proof.
  induction fuel as [|fuel IH]; [apply node_id|]. intros l s Hn. cbn [process_queue_loop].
  change (best_ready (at_node l s).1) with (best_ready s.1).
  destruct (best_ready s.1) as [[[p id] tid]|]; [|by split].
  by apply (node_comp _ _ IH (node_dispatch now id tid)).
Qed.
Lemma node_process_queue now : Node (process_queue now).
Proof.
  intros l [e out] Hn. unfold process_queue, clear_expired_pauses. cbn [at_node fst snd]. reads.
  rewrite local_clear_pauses. reads. apply (node_at (process_queue_loop _ now)); [apply node_process_loop|].
  by rewrite (Local_keeps _ e (local_clear_pauses _ _)).
Qed.
Lemma node_expire_loop fuel cid now : Node (expire_loop fuel cid now).
Proof.
  induction fuel as [|fuel IH]; [apply node_id|]. intros l [e out] Hn. cbn [expire_loop at_node fst snd]. reads.
  destruct (e_conns e !! cid ≫= soonest_reserved) as [[d id]|]; [|by split]. destruct (now <=? d)%N; [by split|].
  destruct (j_tube <$> e_jobs e !! id) as [tid|].
  - rewrite local_do_unreserve, local_upd_ct, local_upd_job, local_insert_ready.
    apply (node_at (λ s, expire_loop fuel cid now (process_queue now s))); [exact (node_comp _ _ IH (node_process_queue now))|].
    keeps.
  - rewrite local_do_unreserve, local_upd_ct, local_upd_job.
    apply (node_at (λ s, expire_loop fuel cid now (process_queue now s))); [exact (node_comp _ _ IH (node_process_queue now))|].
    keeps.
Qed.

Lemma node_conn_timeout cid now : Node (conn_timeout cid now).
Proof.
  intros l s Hn. unfold conn_timeout. change (reserved_size (at_node l s).1 cid) with (reserved_size s.1 cid).
  destruct (node_expire_loop (S (reserved_size s.1 cid)) cid now l s Hn) as [-> Hn1].
  destruct (expire_loop _ cid now s) as [e out]. unfold at_node at 1. cbn [fst snd] in *.
  unfold conn_waiting, conn_deadline_soon. reads.
  repeat case_match; try (split; [done|exact Hn1]); rewrite local_remove_waiting;
    (apply (node_at (reply cid _)); [apply node_reply|keeps]).
Qed.
Lemma node_delayed_loop fuel now : Node (delayed_loop fuel now).
Proof.
  induction fuel as [|fuel IH]; [apply node_id|]. intros l [e out] Hn. cbn [delayed_loop at_node fst snd].
  change (soonest_delayed_job (e <| e_local_conns := Some l |>)) with (soonest_delayed_job e).
  destruct (soonest_delayed_job e) as [[[d tid] id]|]; [|by split]. destruct (now <? d)%N; [by split|].
  rewrite local_remove_delayed, local_insert_ready.
  apply (node_at (λ s, delayed_loop fuel now (process_queue now s))); [exact (node_comp _ _ IH (node_process_queue now))|].
  keeps.
Qed.
Lemma node_timeout_loop fuel now P : Node (timeout_loop fuel now P).
Proof.
  revert P. induction fuel as [|fuel IH]; intros P; [apply node_id|]. intros l s Hn. cbn [timeout_loop].
  change (next_due_conn now P (at_node l s).1) with (next_due_conn now P s.1).
  destruct (next_due_conn now P s.1) as [cid|]; [|by split].
  by apply (node_comp _ _ (IH _) (node_conn_timeout cid now)).
Qed.
Lemma node_tick now : Node (tick now).
Proof.
  intros l s Hn. unfold tick. change (next_deadline (at_node l s).1) with (next_deadline s.1).
  destruct (next_deadline s.1) as [d|]; [|by split]. destruct (d <=? now)%N; [|by split]. unfold tick_body.
  change (total_delayed (e_tubes (at_node l s).1)) with (total_delayed (e_tubes s.1)).
  destruct (node_delayed_loop (S (total_delayed (e_tubes s.1))) now l s Hn) as [-> Hn1].
  set (s1 := delayed_loop _ now s) in *. change (e_pauses (at_node l s1).1) with (e_pauses s1.1).
  assert (∀ s2, e_local_conns s2.1 = None →
    timeout_loop (S (size (e_conns (at_node l s2).1))) now ∅ (at_node l s2) =
      at_node l (timeout_loop (S (size (e_conns s2.1))) now ∅ s2) ∧
    e_local_conns (timeout_loop (S (size (e_conns s2.1))) now ∅ s2).1 = None) as Hlast.
  { intros s2. apply node_timeout_loop. }
  destruct (bt_first (e_pauses s1.1)) as [[at_ tid]|]; [destruct (at_ <=? now)%N|]; [|by apply Hlast..].
  destruct (node_process_queue now l s1 Hn1) as [-> Hn2]. by apply Hlast.
Qed.

(** ** Commands *)
Ltac finish :=
  lazymatch goal with
  | |- reply ?cid ?r _ = _ ∧ _ => apply (node_at (reply cid r)); [apply node_reply|keeps]
  | |- reply_with ?cid ?f _ = _ ∧ _ => apply (node_at (reply_with cid f)); [by apply node_reply_with|keeps]
  | |- _ => split; [done|keeps]
  end.
Ltac node_cmd := intros l [e out] Hn; cbn [at_node fst snd] in *; reads.

(** Move the setter outward. *)
Ltac hoist := repeat match goal with
  | |- context [upd_conn ?i ?f (?e <| e_local_conns := ?v |>)] =>
      change (upd_conn i f (e <| e_local_conns := v |>)) with ((upd_conn i f e) <| e_local_conns := v |>)
  | |- context [upd_tube ?i ?f (?e <| e_local_conns := ?v |>)] =>
      change (upd_tube i f (e <| e_local_conns := v |>)) with ((upd_tube i f e) <| e_local_conns := v |>)
  | |- context [upd_job ?i ?f (?e <| e_local_conns := ?v |>)] =>
      change (upd_job i f (e <| e_local_conns := v |>)) with ((upd_job i f e) <| e_local_conns := v |>)
  | |- context [@upd_ct ?p ?S ?f (?e <| e_local_conns := ?v |>)] =>
      change (@upd_ct p S f (e <| e_local_conns := v |>)) with ((@upd_ct p S f e) <| e_local_conns := v |>)
  | |- context [@upd_cc ?p ?S ?f (?e <| e_local_conns := ?v |>)] =>
      change (@upd_cc p S f (e <| e_local_conns := v |>)) with ((@upd_cc p S f e) <| e_local_conns := v |>)
  | |- context [@bump_cmd ?p ?S (?e <| e_local_conns := ?v |>)] =>
      change (@bump_cmd p S (e <| e_local_conns := v |>)) with ((@bump_cmd p S e) <| e_local_conns := v |>)
  | |- context [(?e <| e_local_conns := ?v |>) <| e_jobs ::= ?f |>] =>
      change ((e <| e_local_conns := v |>) <| e_jobs ::= f |>) with ((e <| e_jobs ::= f |>) <| e_local_conns := v |>)
  | |- context [(?e <| e_local_conns := ?v |>) <| e_conns ::= ?f |>] =>
      change ((e <| e_local_conns := v |>) <| e_conns ::= f |>) with ((e <| e_conns ::= f |>) <| e_local_conns := v |>)
  | |- context [(?e <| e_local_conns := ?v |>) <| e_conn_ticks ::= ?f |>] =>
      change ((e <| e_local_conns := v |>) <| e_conn_ticks ::= f |>)
        with ((e <| e_conn_ticks ::= f |>) <| e_local_conns := v |>)
  | |- context [(?e <| e_local_conns := ?v |>) <| e_pauses ::= ?f |>] =>
      change ((e <| e_local_conns := v |>) <| e_pauses ::= f |>) with ((e <| e_pauses ::= f |>) <| e_local_conns := v |>)
  | |- context [(?e <| e_local_conns := ?v |>) <| e_next_job_id ::= ?f |>] =>
      change ((e <| e_local_conns := v |>) <| e_next_job_id ::= f |>)
        with ((e <| e_next_job_id ::= f |>) <| e_local_conns := v |>)
  end.

Lemma put_id_local now cid v e :
  put_id now cid (e <| e_local_conns := v |>) =
    let '(id, created, e') := put_id now cid e in (id, created, e' <| e_local_conns := v |>).
Proof.
  unfold put_id. reads. hoist. destruct (e_conns e !! cid ≫= c_pending_put) as [[[id|] created]|]; [done|..];
    rewrite local_producer; by hoist.
Qed.
Lemma put_id_keeps now cid e : e_local_conns (put_id now cid e).2 = e_local_conns e.
Proof.
  unfold put_id. destruct (e_conns e !! cid ≫= c_pending_put) as [[[id|] created]|]; cbn [snd]; [done|..];
    exact (Local_keeps _ _ (local_producer cid)).
Qed.
Lemma node_cmd_put now cid pri delay ttr body : Node (cmd_put now cid pri delay ttr body).
Proof.
  unfold cmd_put. node_cmd. rewrite put_id_local. pose proof (put_id_keeps now cid e) as Hk.
  destruct (put_id now cid e) as [[id created] e1]. cbn [snd] in Hk. rewrite Hn in Hk. reads.
  destruct (e_draining e1); [finish|]. change (use_tube_of (e1 <| e_local_conns := Some l |>) cid) with (use_tube_of e1 cid).
  hoist. set (e2 := upd_tube _ _ _). assert (e_local_conns e2 = None) as Hn2 by exact Hk. clearbody e2.
  destruct (0 <? delay)%N; rewrite ?local_insert_delayed, ?local_insert_ready, local_journal_put;
    set (e3 := journal_put id _); (assert (e_local_conns e3 = None) as Hn3 by (unfold e3; keeps)); clearbody e3;
    destruct (node_at (process_queue now) l e3 out (node_process_queue now) Hn3) as [-> Hn4];
    destruct (process_queue now (e3, out)) as [e4 out4]; cbn [at_node fst snd] in *; hoist; finish.
Qed.
Lemma node_cmd_reserve now cid timeout : Node (cmd_reserve now cid timeout).
Proof.
  unfold cmd_reserve. intros l [e out] Hn. cbn [at_node fst snd] in *.
  set (e0 := match timeout with None => bump_cmd n_cmd_reserve e | Some _ => _ end).
  replace (match timeout with None => bump_cmd n_cmd_reserve (e <| e_local_conns := Some l |>) | Some _ => _ end)
    with (e0 <| e_local_conns := Some l |>) by (unfold e0; by destruct timeout).
  assert (e_local_conns e0 = None) as Hn0 by (unfold e0; by destruct timeout). rewrite local_worker.
  set (e1 := connsetworker cid e0). assert (e_local_conns e1 = None) as Hn1 by (unfold e1; keeps).
  change (conn_deadline_soon (e1 <| e_local_conns := Some l |>) cid now) with (conn_deadline_soon e1 cid now).
  change (conn_ready (e1 <| e_local_conns := Some l |>) cid) with (conn_ready e1 cid).
  destruct (conn_deadline_soon e1 cid now && negb (conn_ready e1 cid)); [finish|]. rewrite local_enqueue_waiting.
  set (e2 := enqueue_waiting_conn _ _ e1). assert (e_local_conns e2 = None) as Hn2 by (unfold e2; keeps).
  destruct (node_at (process_queue now) l e2 out (node_process_queue now) Hn2) as [-> Hn3].
  destruct (process_queue now (e2, out)) as [e3 out3]. cbn [at_node fst snd] in *.
  change (conn_waiting (e3 <| e_local_conns := Some l |>) cid) with (conn_waiting e3 cid).
  change (conn_deadline_soon (e3 <| e_local_conns := Some l |>) cid now) with (conn_deadline_soon e3 cid now).
  destruct (bool_decide (timeout = Some 0%N) && conn_waiting e3 cid); [|by split]. rewrite local_remove_waiting. finish.
Qed.
Lemma find_or_make_local name v e :
  find_or_make_tube name (e <| e_local_conns := v |>) =
    let '(tid, e') := find_or_make_tube name e in (tid, e' <| e_local_conns := v |>).
Proof.
  unfold find_or_make_tube. eng. destruct (e_tube_ids e !! name); [done|].
  by destruct (pop (e_free_tube_ids e)) as [[id free]|].
Qed.
Lemma find_or_make_keeps name e : e_local_conns (find_or_make_tube name e).2 = e_local_conns e.
Proof.
  unfold find_or_make_tube. destruct (e_tube_ids e !! name); [done|].
  by destruct (pop (e_free_tube_ids e)) as [[id free]|].
Qed.
Lemma node_cmd_use cid name : Node (cmd_use cid name).
Proof.
  unfold cmd_use. node_cmd. hoist. rewrite find_or_make_local.
  pose proof (find_or_make_keeps name (bump_cmd n_cmd_use e)) as Hk.
  destruct (find_or_make_tube name (bump_cmd n_cmd_use e)) as [new e1]. cbn [snd] in Hk.
  assert (e_local_conns e1 = None) as Hn1 by (by rewrite Hk).
  change (use_tube_of (e1 <| e_local_conns := Some l |>) cid) with (use_tube_of e1 cid).
  destruct (use_tube_of e1 cid =? new); [finish|]. hoist. rewrite gc_Local. hoist. finish.
Qed.
Lemma node_cmd_watch cid name : Node (cmd_watch cid name).
Proof.
  unfold cmd_watch. node_cmd. hoist. rewrite find_or_make_local.
  pose proof (find_or_make_keeps name (bump_cmd n_cmd_watch e)) as Hk.
  destruct (find_or_make_tube name (bump_cmd n_cmd_watch e)) as [tid e1]. cbn [snd] in Hk.
  assert (e_local_conns e1 = None) as Hn1 by (by rewrite Hk). reads. hoist.
  destruct (match e_conns e1 !! cid with Some c => ms_contains tid (c_watch c) | None => true end); finish.
Qed.
Lemma node_cmd_ignore cid name : Node (cmd_ignore cid name).
Proof.
  unfold cmd_ignore. node_cmd. hoist. set (e1 := bump_cmd n_cmd_ignore e).
  assert (e_local_conns e1 = None) as Hn1 by exact Hn. clearbody e1. reads.
  change (watch_count (e1 <| e_local_conns := Some l |>) cid) with (watch_count e1 cid).
  destruct (e_tube_ids e1 !! name) as [tid|]; [destruct (e_conns e1 !! cid) as [c|]|]; cbn [andb]; try finish.
  destruct (ms_contains tid (c_watch c)); cbn [andb]; [|finish]. destruct (watch_count e1 cid <? 2)%N; [finish|].
  hoist. rewrite gc_Local. finish.
Qed.
Lemma node_cmd_reserve_job now cid id : Node (cmd_reserve_job now cid id).
Proof.
  unfold cmd_reserve_job. node_cmd. destruct (e_jobs e !! id) as [j|]; [|finish].
  destruct (j_state j); [|finish|..];
    rewrite ?local_remove_ready, ?local_remove_delayed, ?(local_remove_buried (j_tube j) id (Some l) e),
      local_worker, local_do_reserve; finish.
Qed.
Lemma node_cmd_delete cid id : Node (cmd_delete cid id).
Proof.
  unfold cmd_delete. node_cmd. hoist. set (e1 := bump_cmd n_cmd_delete e).
  assert (e_local_conns e1 = None) as Hn1 by exact Hn. clearbody e1. reads.
  destruct (e_jobs e1 !! id) as [j|]; [|finish].
  destruct (j_state j); [|destruct (bool_decide _); [|finish]|..];
    rewrite ?local_remove_ready, ?local_remove_delayed, ?local_do_unreserve,
      ?(local_remove_buried (j_tube j) id (Some l) e1); hoist; rewrite local_journal_delete, gc_Local; finish.
Qed.
Lemma node_cmd_release now cid id pri delay : Node (cmd_release now cid id pri delay).
Proof.
  unfold cmd_release. node_cmd. hoist. set (e1 := bump_cmd n_cmd_release e).
  assert (e_local_conns e1 = None) as Hn1 by exact Hn. clearbody e1.
  change (reserved_by (e1 <| e_local_conns := Some l |>) cid id) with (reserved_by e1 cid id).
  destruct (reserved_by e1 cid id) as [tid|]; [|finish]. rewrite local_do_unreserve. hoist.
  assert (Node (λ s, reply cid Response.Released (process_queue now s))) as Hnode
    by exact (node_comp _ _ (node_reply _ _) (node_process_queue now)).
  destruct (0 <? delay)%N; rewrite ?local_insert_delayed, ?local_journal_update, ?local_insert_ready;
    apply (node_at _ _ _ _ Hnode); keeps.
Qed.
Lemma node_cmd_bury cid id pri : Node (cmd_bury cid id pri).
Proof.
  unfold cmd_bury. node_cmd. hoist. set (e1 := bump_cmd n_cmd_bury e).
  assert (e_local_conns e1 = None) as Hn1 by exact Hn. clearbody e1.
  change (reserved_by (e1 <| e_local_conns := Some l |>) cid id) with (reserved_by e1 cid id).
  destruct (reserved_by e1 cid id) as [tid|]; [|finish]. rewrite local_do_unreserve. hoist.
  rewrite local_insert_buried, local_journal_update. finish.
Qed.
Lemma node_cmd_touch now cid id : Node (cmd_touch now cid id).
Proof.
  unfold cmd_touch. node_cmd. hoist. set (e1 := bump_cmd n_cmd_touch e).
  assert (e_local_conns e1 = None) as Hn1 by exact Hn. clearbody e1.
  change (reserved_by (e1 <| e_local_conns := Some l |>) cid id) with (reserved_by e1 cid id).
  destruct (reserved_by e1 cid id) as [tid|]; [|finish]. reads. hoist. rewrite local_refresh_tick. finish.
Qed.
Lemma node_kick_to_ready tid id now : Node (kick_to_ready tid id now).
Proof.
  unfold kick_to_ready. node_cmd. hoist. rewrite local_insert_ready, local_journal_update.
  apply (node_at _ _ _ _ (node_process_queue now)). keeps.
Qed.
Lemma pop_buried_local tid v e :
  pop_buried_front tid (e <| e_local_conns := v |>) =
    let '(o, e') := pop_buried_front tid e in (o, e' <| e_local_conns := v |>).
Proof.
  unfold pop_buried_front. reads. destruct (slot (e_tubes e) tid) as [t|]; [|done].
  by destruct (bm_first (t_buried t)) as [[seq id]|].
Qed.
(** The loops of [kick] return a count too. *)
Definition NodeCount (op : St → N * St) : Prop :=
  ∀ l s, e_local_conns s.1 = None →
    (op (at_node l s)).1 = (op s).1 ∧ (op (at_node l s)).2 = at_node l (op s).2 ∧ e_local_conns (op s).2.1 = None.
Lemma node_kick_buried n tid now k : NodeCount (kick_buried_loop n tid now k).
Proof.
  revert k. induction n as [|n IH]; intros k l [e out] Hn; [by split_and!|]. cbn [kick_buried_loop at_node fst snd] in *.
  rewrite pop_buried_local. pose proof (un_pop_buried e_local_conns tid e) as Hk.
  destruct (pop_buried_front tid e) as [[id|] e1]; cbn [snd] in Hk; rewrite Hn in Hk; [|by split_and!].
  destruct (node_at _ l e1 out (node_kick_to_ready tid id now) Hk) as [-> Hn2]. by apply IH.
Qed.
Lemma node_kick_delayed n tid now k : NodeCount (kick_delayed_loop n tid now k).
Proof.
  revert k. induction n as [|n IH]; intros k l [e out] Hn; [by split_and!|]. cbn [kick_delayed_loop at_node fst snd] in *.
  reads. destruct (slot (e_tubes e) tid ≫= _) as [[d id]|]; [|by split_and!]. rewrite local_remove_delayed.
  destruct (node_at _ l (remove_delayed tid id e) out (node_kick_to_ready tid id now)) as [-> Hn2]; [keeps|]. by apply IH.
Qed.
Lemma node_cmd_kick now cid n : Node (cmd_kick now cid n).
Proof.
  unfold cmd_kick. node_cmd. hoist. set (e1 := bump_cmd n_cmd_kick e).
  assert (e_local_conns e1 = None) as Hn1 by exact Hn. clearbody e1.
  change (use_tube_of (e1 <| e_local_conns := Some l |>) cid) with (use_tube_of e1 cid). reads.
  set (has := match slot (e_tubes e1) (use_tube_of e1 cid) with Some t => _ | None => _ end).
  assert (∀ op, NodeCount op →
    (let '(count, s) := op (e1 <| e_local_conns := Some l |>, delivered (Some l) out) in reply cid (Response.Kicked count) s) =
      at_node l (let '(count, s) := op (e1, out) in reply cid (Response.Kicked count) s) ∧
    e_local_conns (let '(count, s) := op (e1, out) in reply cid (Response.Kicked count) s).1 = None) as Hop.
  { intros op Hop. destruct (Hop l (e1, out) Hn1) as (E1 & E2 & E3). 
    change (at_node l (e1, out)) with (e1 <| e_local_conns := Some l |>, delivered (Some l) out) in E1, E2.
    destruct (op (_, _)) as [k1 s1], (op (e1, out)) as [k2 s2]. cbn [fst snd] in *. subst k1 s1. by apply node_reply. }
  destruct has; [apply Hop, node_kick_buried|apply Hop, node_kick_delayed].
Qed.
Lemma node_cmd_kick_job now cid id : Node (cmd_kick_job now cid id).
Proof.
  unfold cmd_kick_job. node_cmd. destruct (e_jobs e !! id) as [j|]; [|finish].
  assert (Node (λ s, reply cid Response.KickedJob (kick_to_ready (j_tube j) id now s))) as Hnode
    by exact (node_comp _ _ (node_reply _ _) (node_kick_to_ready _ _ now)).
  destruct (j_state j); [finish|finish|..];
    rewrite ?local_remove_delayed, ?(local_remove_buried (j_tube j) id (Some l) e);
    apply (node_at _ _ _ _ Hnode); keeps.
Qed.
Lemma node_cmd_pause_tube now cid name delay : Node (cmd_pause_tube now cid name delay).
Proof.
  unfold cmd_pause_tube. node_cmd. hoist. set (e1 := bump_cmd n_cmd_pause_tube e).
  assert (e_local_conns e1 = None) as Hn1 by exact Hn. clearbody e1. reads.
  destruct (e_tube_ids e1 !! name) as [tid|]; [|finish]. reads. destruct (slot (e_tubes e1) tid) as [t|]; [|finish].
  destruct (0 <? t_pause t)%N; hoist; finish.
Qed.
Lemma node_handle now cid cmd : Node (handle now cid cmd).
Proof.
  intros l s Hn. unfold handle. change (e_conns (at_node l s).1) with (e_conns s.1).
  destruct (e_conns s.1 !! cid) as [c|]; [|by split].
  destruct cmd; try (by apply node_cmd_put || by apply node_cmd_use || by apply node_cmd_reserve ||
    by apply node_cmd_reserve_job || by apply node_cmd_delete || by apply node_cmd_release || by apply node_cmd_bury ||
    by apply node_cmd_touch || by apply node_cmd_watch || by apply node_cmd_ignore || by apply node_cmd_kick ||
    by apply node_cmd_kick_job || by apply node_cmd_pause_tube || by split).
  all: revert l s Hn; unfold cmd_peek, cmd_peek_ready, cmd_peek_delayed, cmd_peek_buried, cmd_stats_job, cmd_stats_tube,
    cmd_stats, cmd_list_tubes, cmd_list_tube_used, cmd_list_tubes_watched; node_cmd; hoist; finish.
Qed.

(** ** Inputs *)
Lemma node_release_step cid now id : Node (λ s, release_step cid now s id).
Proof.
  unfold release_step. node_cmd. rewrite local_do_unreserve. reads.
  destruct (e_jobs (do_unreserve cid id e) !! id) as [j|]; rewrite ?local_insert_ready;
    apply (node_at _ _ _ _ (node_process_queue now)); keeps.
Qed.
Lemma local_unwatch_step t : Local (λ e, unwatch_step e t).
Proof. intros v e. unfold unwatch_step. hoist. apply gc_Local. Qed.
Lemma node_disconnect now cid : Node (disconnect now cid).
Proof.
  unfold disconnect. node_cmd. destruct (e_conns e !! cid) as [c0|]; [|by split]. rewrite local_remove_waiting. reads.
  set (e1 := do_remove_waiting_conn cid e). assert (e_local_conns e1 = None) as Hn1 by (unfold e1; keeps). clearbody e1.
  set (L := match e_conns e1 !! cid with Some c => bm_values (c_reserved c) | None => [] end).
  destruct (node_at (λ s, foldl (release_step cid now) s L) l e1 out (node_loop _ L (node_release_step cid now)) Hn1) as [-> Hn2].
  destruct (foldl (release_step cid now) (e1, out) L) as [e2 out2]. cbn [at_node fst snd] in *. reads. hoist.
  set (W := match e_conns e2 !! cid with Some c => _ | None => _ end). set (e3 := upd_conn cid _ e2).
  assert (e_local_conns e3 = None) as Hn3 by exact Hn2. clearbody e3.
  rewrite (Local_fold unwatch_step W local_unwatch_step (Some l) e3).
  pose proof (Local_keeps _ e3 (Local_fold unwatch_step W local_unwatch_step)) as Hn4. rewrite Hn3 in Hn4.
  set (e4 := foldl unwatch_step e3 W) in *. clearbody e4. reads. hoist.
  set (e5 := match e_conns e4 !! cid with Some c => gc_tube_if_orphan _ (upd_tube _ _ e4) | None => e4 end).
  assert (match e_conns e4 !! cid with
          | Some c => gc_tube_if_orphan (c_use_tube c)
              (upd_tube (c_use_tube c) (λ t, t <| t_using_ct ::= decr |>) (e4 <| e_local_conns := Some l |>))
          | None => e4 <| e_local_conns := Some l |> end = e5 <| e_local_conns := Some l |>) as ->.
  { unfold e5. destruct (e_conns e4 !! cid); [hoist; apply gc_Local|done]. }
  assert (e_local_conns e5 = None) as Hn5 by (unfold e5; destruct (e_conns e4 !! cid); [keeps|done]). clearbody e5.
  reads. destruct (e_conns e5 !! cid) as [c|]; [|by split].
  destruct (c_tick_key c), (c_is_producer c), (c_is_worker c); by split.
Qed.
Lemma node_half_close cid : Node (half_close cid).
Proof.
  unfold half_close. node_cmd. change (conn_waiting (e <| e_local_conns := Some l |>) cid) with (conn_waiting e cid).
  destruct (conn_waiting e cid); [rewrite local_remove_waiting|]; finish.
Qed.
Lemma local_put_started now cid too_big : Local (put_started now cid too_big).
Proof.
  intros v e. unfold put_started. reads. destruct (e_conns e !! cid); [|done]. hoist.
  destruct too_big; [done|]. by rewrite local_producer.
Qed.
Lemma node_put_rejected cid why : Node (put_rejected cid why).
Proof.
  unfold put_rejected. node_cmd. destruct (e_conns e !! cid) as [c|]; [|by split]. hoist.
  destruct (c_pending_put c); [finish|]. destruct why; rewrite ?local_producer; hoist; finish.
Qed.
Lemma local_connect cid : Local (connect cid).
Proof. intros v e. unfold connect. eng. by destruct (e_conns e !! cid ≫= c_tick_key). Qed.

Lemma node_run_input now i : Node (run_input now i).
Proof.
  destruct i as [c|c|c|c too_big|c why|c cmd| |on]; cbn [run_input].
  - exact (node_pure _ (local_connect c)).
  - apply node_disconnect.
  - apply node_half_close.
  - exact (node_pure _ (local_put_started now c too_big)).
  - apply node_put_rejected.
  - apply node_handle.
  - apply node_id.
  - by apply node_pure.
Qed.
Lemma node_apply_input now i : Node (apply_input now i).
Proof. exact (node_comp _ _ (node_tick now) (node_run_input now i)). Qed.
Lemma node_run inputs : Node (run inputs).
Proof. apply (node_loop (λ s i, apply_input i.1 i.2 s)). intros [now i]. apply node_apply_input. Qed.
