(* ===== verification/Once.v ===== *)
(** * Every command is answered once

    A connection is owed a reply while it waits in a reserve.  [due] counts
    the replies sent to a connection and the one it is owed: no input changes
    it, but for a command or a rejected put, which adds one to its sender's,
    and a disconnect, which forgives the debt.  So a command is answered at
    once or leaves its connection waiting, and a connection is answered once
    for every wait. *)

From S2P Require Import Prelude Ms Proto Stats Model Engine Frames Inv InvFrame InvRefresh Queues Moves Tubes.
From S2P Require Import Waiting Rest Dispatch ConnOps Commands Sessions Connect Tick Reach Serve Effects Keep Replica.
From stdpp Require Import options.

Definition owed (R : Rels) (c : ConnId) : nat := match R !! c with Some (_, true) => 1 | _ => 0 end.
Definition sent_to (c : ConnId) (out : Outbox) : nat := length (filter (λ m, m.1 = c) out).
Definition due (c : ConnId) (s : St) : nat := sent_to c s.2 + owed (rels s.1) c.
Lemma owed_waiting e c : owed (rels e) c = if conn_waiting e c then 1 else 0.
Proof. unfold owed, rels, conn_waiting. rewrite lookup_fmap. destruct (e_conns e !! c) as [k|]; [|done]. cbn. by destruct (c_waiting k). Qed.
Lemma sent_to_app c o1 o2 : sent_to c (o1 ++ o2) = sent_to c o1 + sent_to c o2.
Proof. unfold sent_to. by rewrite filter_app, length_app. Qed.
Lemma sent_to_one c k r : sent_to c [(k, r)] = if decide (k = c) then 1 else 0.
Proof. unfold sent_to. rewrite filter_cons. cbn [fst]. by case_decide. Qed.
Lemma delivered_all out : delivered None out = out.
Proof. unfold delivered. induction out as [|m out IH]; [done|]. by rewrite filter_cons_True, IH. Qed.

(** ** Dispatch pays *)
Lemma owed_answered R c k : owed (answered k R) c + (if decide (k = c) then owed R c else 0) = owed R c.
Proof. unfold owed, answered. rewrite lookup_alter. case_decide; [subst|lia]. destruct (R !! c) as [[? []]|]; done. Qed.
Lemma owed_waits R c : waits_in R c → owed R c = 1.
Proof. intros ([r w] & Hr & Hw). unfold owed. cbn in Hw. by rewrite Hr, Hw. Qed.
Lemma serves_due now open A R l A' R' c : serves now open A R l A' R' → sent_to c l + owed R' c = owed R c.
Proof.
  induction 1 as [A R _|A R id j k seq l A' R' _ _ (r & Hr & Hw & _) _ IH]; [done|].
  change ((k, Response.Reserved id (j_body j)) :: l) with ([(k, Response.Reserved id (j_body j))] ++ l). rewrite sent_to_app, sent_to_one.
  pose proof (owed_answered R c k) as Ha. case_decide; [subst k|lia]. assert (owed R c = 1) as H1 by (apply owed_waits; by exists r). lia.
Qed.
Lemma kicks_due now open st key tid k A R l A' R' c : kicks now open st key tid k A R l A' R' → sent_to c l + owed R' c = owed R c.
Proof.
  induction 1 as [A R|k A R id j l A1 R1 l' A' R' _ _ _ _ Hs _ IH]; [done|].
  rewrite sent_to_app. pose proof (serves_due _ _ _ _ _ _ _ c Hs). lia.
Qed.

(** ** Steps that keep the account *)
(** Answers reach every connection: the engine of a single server. *)
Definition answers_all (e : Engine) : Prop := e_local_conns e = None.
Definition level (s s' : St) : Prop := ∀ c, due c s' = due c s ∧ sent_to c s.2 ≤ sent_to c s'.2.
#[export] Instance level_trans : Transitive level.
Proof. intros s1 s2 s3 H1 H2 c. destruct (H1 c), (H2 c). split; [congruence|lia]. Qed.
Lemma level_rels e e' out : rels e' = rels e → level (e, out) (e', out).
Proof. intros Hr c. unfold due. cbn. by rewrite Hr. Qed.
Lemma level_process b h now e out : answers_all e → Rest b h e → level (e, out) (process_queue now (e, out)).
Proof.
  intros Hl HR c. destruct (process_queue_serves b h now e out HR) as (l & Hs & Ho). unfold due. rewrite Ho, Hl, delivered_all, sent_to_app. cbn [fst snd].
  pose proof (serves_due _ _ _ _ _ _ _ c Hs). lia.
Qed.
(** A waiting connection is answered and stops waiting. *)
Lemma level_unwait e out k r : answers_all e → conn_waiting e k = true → level (e, out) (reply k r (do_remove_waiting_conn k e, out)).
Proof.
  intros Hl Hw c. unfold due. rewrite reply_fst, reply_snd, sent_to_app. cbn [fst snd].
  assert (e_local_conns (do_remove_waiting_conn k e) = None) as -> by (by rewrite (un_remove_waiting e_local_conns)). rewrite delivered_all, sent_to_one.
  assert (rels (do_remove_waiting_conn k e) = answered k (rels e)) as ->.
  { apply remove_waiting_answered. unfold conn_waiting in Hw. destruct (e_conns e !! k) as [x|] eqn:Hx; [|done]. unfold rels. eexists. rewrite lookup_fmap, Hx. by split. }
  pose proof (owed_answered (rels e) c k) as Ha. case_decide; [subst|lia]. rewrite owed_waiting, Hw in Ha |- *. lia.
Qed.

(** ** Time *)
Definition fine (b : Budget) (s s' : St) : Prop := Rest b false s'.1 ∧ answers_all s'.1 ∧ level s s'.
Lemma fine_refl b s : Rest b false s.1 → answers_all s.1 → fine b s s.
Proof. intros HR Hl. by split_and!. Qed.
Lemma fine_trans b s1 s2 s3 : fine b s1 s2 → fine b s2 s3 → fine b s1 s3.
Proof. intros (_ & _ & H1) (HR & Hl & H2). split_and!; [done|done|by etrans]. Qed.
Lemma fine_process b h now e e1 out :
  Rest b h e1 → rels e1 = rels e → answers_all e1 → fine b (e, out) (process_queue now (e1, out)).
Proof.
  intros HR Hr Hl. destruct (Rest_process_queue b h now e1 out HR) as (HR' & _). split_and!; [done| |].
  - unfold answers_all. by rewrite (un_process_queue e_local_conns (λ f e, eq_refl) now (e1, out)).
  - etrans; [by apply level_rels|by eapply level_process].
Qed.
Lemma fine_expire fuel b e out cid now : Rest b false e → answers_all e → fine b (e, out) (expire_loop fuel cid now (e, out)).
Proof.
  revert e out. induction fuel as [|fuel IH]; intros e out HR Hl; cbn [expire_loop]; [by apply fine_refl|].
  destruct (e_conns e !! cid) as [c|] eqn:Hc; cbn [mbind option_bind]; [|by apply fine_refl].
  destruct (soonest_reserved c) as [[d id]|] eqn:Hsr; [|by apply fine_refl]. destruct (now <=? d)%N; [by apply fine_refl|].
  destruct (soonest_reserved_spec _ _ _ _ _ _ _ HR Hc Hsr) as [(j & Hj & Hs & Hr & Hd) _]. rewrite Hj. cbn [fmap option_fmap option_map].
  destruct (Rest_expire_one _ _ _ _ _ HR Hj Hs Hr) as (HR1 & Hj1 & Hr1). fold (expire_one cid id (j_tube j) e). set (e1 := expire_one _ _ _ _) in *.
  assert (answers_all e1) as Hl1 by (unfold answers_all, e1, expire_one; rewrite (un_insert_ready e_local_conns), <-Hl; apply (un_do_unreserve e_local_conns)).
  pose proof (fine_process b true now e e1 out HR1 Hr1 Hl1) as HF. eapply fine_trans; [exact HF|]. destruct (process_queue now (e1, out)) as [e2 out2].
  apply IH; apply HF.
Qed.
Lemma fine_unwait b e out k r : Rest b false e → answers_all e → conn_waiting e k = true → fine b (e, out) (reply k r (do_remove_waiting_conn k e, out)).
Proof.
  intros HR Hl Hw. split_and!; [rewrite reply_fst; by apply Rest_remove_waiting| |by apply level_unwait].
  rewrite reply_fst. unfold answers_all. cbn [fst]. by rewrite (un_remove_waiting e_local_conns).
Qed.
Lemma fine_conn_timeout b e out cid now : Rest b false e → answers_all e → fine b (e, out) (conn_timeout cid now (e, out)).
Proof.
  intros HR Hl. unfold conn_timeout. cbn [fst]. pose proof (fine_expire (S (reserved_size e cid)) b e out cid now HR Hl) as HF.
  destruct (expire_loop _ cid now (e, out)) as [e1 out1]. pose proof HF as (HR1 & Hl1 & _). cbn [fst] in *. eapply fine_trans; [exact HF|].
  destruct (conn_waiting e1 cid) eqn:Hw; cbn [andb]; [|by apply fine_refl].
  destruct (conn_deadline_soon e1 cid now); [by apply fine_unwait|]. case_match; [by apply fine_unwait|by apply fine_refl].
Qed.
Lemma fine_delayed fuel b e out now : Rest b false e → answers_all e → fine b (e, out) (delayed_loop fuel now (e, out)).
Proof.
  revert e out. induction fuel as [|fuel IH]; intros e out HR Hl; cbn [delayed_loop]; [by apply fine_refl|].
  destruct (soonest_delayed_job e) as [[[d tid] id]|] eqn:Hsd; [|by apply fine_refl]. destruct (now <? d)%N; [by apply fine_refl|].
  destruct (soonest_delayed_job_spec _ _ _ HR _ _ _ Hsd) as (j & Hj & Hs & <- & _).
  destruct (Rest_undelay _ _ _ _ HR Hj Hs) as (HR1 & Hj1 & Hr1). set (e1 := insert_ready _ _ _) in *.
  assert (answers_all e1) as Hl1 by (unfold answers_all, e1; by rewrite (un_insert_ready e_local_conns), (un_remove_delayed e_local_conns)).
  pose proof (fine_process b true now e e1 out HR1 Hr1 Hl1) as HF. eapply fine_trans; [exact HF|]. destruct (process_queue now (e1, out)) as [e2 out2].
  apply IH; apply HF.
Qed.
Lemma fine_timeouts fuel b now P s : Rest b false s.1 → answers_all s.1 → fine b s (timeout_loop fuel now P s).
Proof.
  revert P s. induction fuel as [|fuel IH]; intros P [e out] HR Hl; cbn [timeout_loop]; [by apply fine_refl|]. destruct (next_due_conn now P _) as [cid|]; [|by apply fine_refl].
  pose proof (fine_conn_timeout b e out cid now HR Hl) as HF. eapply fine_trans; [exact HF|]. apply IH; apply HF.
Qed.
Lemma fine_tick b now s : Rest b false s.1 → answers_all s.1 → fine b s (tick now s).
Proof.
  destruct s as [e out]. intros HR Hl. unfold tick. destruct (next_deadline _) as [d|]; [|by apply fine_refl]. destruct (d <=? now)%N; [|by apply fine_refl].
  unfold tick_body. pose proof (fine_delayed (S (total_delayed (e_tubes e))) b e out now HR Hl) as HF. cbn [fst]. eapply fine_trans; [exact HF|].
  destruct (delayed_loop _ now (e, out)) as [e1 out1]. destruct HF as (HR1 & Hl1 & _). cbn [fst] in *.
  set (s2 := match bt_first (e_pauses e1) with Some (at_, _) => _ | None => _ end). assert (fine b (e1, out1) s2) as HF2.
  { unfold s2. destruct (bt_first _) as [[at_ ?]|]; [|by apply fine_refl]. destruct (at_ <=? now)%N; [by eapply fine_process|by apply fine_refl]. }
  eapply fine_trans; [exact HF2|]. apply fine_timeouts; apply HF2.
Qed.

(** ** Commands *)
(** [s'] has one reply or wait more for [k], and the same for the others. *)
Definition asked (k : ConnId) (s s' : St) : Prop :=
  ∀ c, due c s' = due c s + (if decide (k = c) then 1 else 0) ∧ sent_to c s.2 ≤ sent_to c s'.2.
Lemma asked_out k e out s l :
  answers_all e → s.2 = out ++ delivered (e_local_conns e) l →
  (∀ c, sent_to c l + owed (rels s.1) c = owed (rels e) c + (if decide (k = c) then 1 else 0)) → asked k (e, out) s.
Proof. intros Hl Ho Hc c. specialize (Hc c). unfold due. rewrite Ho, Hl, delivered_all, sent_to_app. cbn [fst snd]. lia. Qed.
Lemma asked_reply k e out s r :
  answers_all e → rels s.1 = rels e → s.2 = out ++ delivered (e_local_conns e) [(k, r)] → asked k (e, out) s.
Proof. intros Hl Hr Ho. eapply asked_out; [done|done|]. intros c. rewrite sent_to_one, Hr. lia. Qed.
Lemma asked_answers k e out s r : answers_all e → answers e out k r s → asked k (e, out) s.
Proof. intros Hl [Hv Ho]. by eapply asked_reply; [|apply view_rels|]. Qed.
Lemma asked_changes k e A out s r : answers_all e → changes e A out k r s → asked k (e, out) s.
Proof. intros Hl (_ & Hr & Ho). by eapply asked_reply. Qed.
Lemma asked_then k now e A R out s r :
  answers_all e → (∀ c, owed R c = owed (rels e) c) → then_serves now e A R out [(k, r)] s → asked k (e, out) s.
Proof.
  intros Hl HR (l & Hs & Ho). eapply asked_out; [done|done|]. intros c. rewrite sent_to_app, sent_to_one. pose proof (serves_due _ _ _ _ _ _ _ c Hs) as H.
  rewrite HR in H. lia.
Qed.
Lemma owed_conn e e' cid c c' :
  e_conns e !! cid = Some c → e_conns e' = <[cid := c']> (e_conns e) → c_waiting c' = c_waiting c → ∀ k, owed (rels e') k = owed (rels e) k.
Proof.
  intros Hc Hc' Hw k. rewrite !owed_waiting. unfold conn_waiting. rewrite Hc'. destruct (decide (cid = k)) as [->|]; [|by rewrite lookup_insert_ne].
  by rewrite lookup_insert_eq, Hc, Hw.
Qed.

Lemma put_id_view now cid e id created e' : put_id now cid e = (id, created, e') → view e' = view e.
Proof.
  unfold put_id. set (e0 := upd_conn _ _ e). assert (view e0 = view e) as Hv by (apply view_eq; [done|by apply rels_upd_conn|done|done]).
  assert (view (connsetproducer cid (bump_cmd n_cmd_put e0)) = view e) as Hv' by (by rewrite view_producer).
  repeat case_match; intros [= <- <- <-]; [exact Hv|exact Hv'..].
Qed.
Section commands.
Context (b : Budget) (now : Nanos) (cid : ConnId) (e : Engine) (out : Outbox).
Context (HI : Inv b e) (Hb : budget_ok (grow b)) (Hl : answers_all e) (c : ConnState) (Hc : e_conns e !! cid = Some c) (Hw : c_waiting c = false).
#[local] Abbreviation asked_here := (asked cid (e, out)).
Lemma asked_put pri delay ttr body : asked_here (cmd_put now cid pri delay ttr body (e, out)).
Proof using HI Hb Hl.
  unfold cmd_put. destruct (put_id now cid e) as [[id created] e1] eqn:Hp. pose proof (budget_ok_ids _ Hb) as Hbi.
  assert (view e1 = view e) as Hv by (by eapply put_id_view). destruct (e_draining e1); [eapply asked_answers; [done|by apply answers_reply]|].
  set (j := mkJobRec id _ _ _ _ _ _ _ _ _ _ _ _ _ _ _ _).
  pose proof (Rest_journal_put _ _ _ id (Rest_put_queued b now cid delay e created e1 j HI Hbi Hp (N.le_max_r _ _) eq_refl)) as HR3.
  change (journal_put id (if (0 <? delay)%N then _ else _)) with (journal_put id (put_queued now delay j e1)). set (e3 := journal_put id _) in *.
  assert (∃ A, view e3 = with_jobs A (view e)) as [A HA].
  { unfold e3. rewrite view_journal_put, <-Hv. unfold put_queued. set (e2 := upd_tube (j_tube j) _ _).
    assert (e_jobs e2 !! j_id j = Some j) as Hj2 by apply lookup_insert_eq.
    destruct (0 <? delay)%N; eexists; [by rewrite (view_insert_delayed _ _ _ _ _ Hj2)|by rewrite (view_insert_ready _ _ _ _ Hj2)]. }
  set (g := λ e, upd_tube (use_tube_of e1 cid) (λ t, t <| t_stat ::= set_field ts_total_jobs_ct incr64 |>) (upd_ct total_jobs_ct incr64 e)).
  pose proof (process_then_view _ _ now _ _ _ out cid (Response.Inserted id) g HR3 HA (λ _, eq_refl)) as Hdone.
  eapply asked_then; [done|reflexivity|]. destruct (process_queue now (e3, out)) as [e4 out4]. exact Hdone.
Qed.
Lemma asked_reserve timeout : asked_here (cmd_reserve now cid timeout (e, out)).
Proof using All.
  pose proof (deadline_soon_iff _ _ _ cid now HI) as Hd. pose proof (conn_ready_iff _ _ _ cid HI) as Hr.
  destruct (decide (conn_deadline_soon e cid now = true ∧ conn_ready e cid = false)) as [[Hds Hcr]|Hn].
  { eapply asked_answers; [done|]. apply (cmd_reserve_deadline_soon b); [done|by apply Hd|]. rewrite <-Hr. by apply not_true_iff_false. }
  destruct (cmd_reserve_waits b now cid timeout e out HI Hb c Hc Hw) as (l & R1 & Hs & Hcases).
  { rewrite <-Hd, <-Hr. destruct (conn_deadline_soon e cid now), (conn_ready e cid); naive_solver. }
  assert (∀ k, owed (starts_waiting cid ((λ t, sat_add64 now (secs t)) <$> timeout) (rels e)) k = owed (rels e) k + (if decide (cid = k) then 1 else 0)) as Hstart.
  { intros k. unfold starts_waiting. destruct (decide (cid = k)) as [<-|Hne].
    - rewrite owed_waiting. unfold conn_waiting. rewrite Hc, Hw. unfold owed, rels. by rewrite lookup_alter_eq, lookup_fmap, Hc.
    - unfold owed. rewrite lookup_alter_ne by done. lia. }
  destruct Hcases as [(_ & HR & Ho)|(_ & Hwi & HR & r & _ & Ho)].
  - eapply asked_out; [done|exact Ho|]. intros k. rewrite HR, <-Hstart. by apply (serves_due _ _ _ _ _ _ _ k) in Hs.
  - eapply asked_out; [done|exact Ho|]. intros k. rewrite HR, <-Hstart, sent_to_app, sent_to_one. apply (serves_due _ _ _ _ _ _ _ k) in Hs.
    pose proof (owed_answered R1 k cid) as Ha. case_decide; [subst k|lia]. apply owed_waits in Hwi. lia.
Qed.
Lemma held_dec id : (∃ j, e_jobs e !! id = Some j ∧ j_state j = JobState.Reserved ∧ j_reserver j = Some cid) ∨ ¬ held_by (e_jobs e) cid id.
Proof.
  unfold held_by. destruct (e_jobs e !! id) as [j|]; [|right; naive_solver].
  destruct (decide (j_state j = JobState.Reserved ∧ j_reserver j = Some cid)); [left|right]; naive_solver.
Qed.
Lemma asked_release id pri delay : asked_here (cmd_release now cid id pri delay (e, out)).
Proof using HI Hl.
  destruct (held_dec id) as [(j & Hj & Hs & Hr)|Hn].
  - eapply asked_then; [done|reflexivity|]. by apply (cmd_release_held b).
  - eapply asked_answers; [done|]. by apply cmd_release_not_found.
Qed.
Lemma asked_bury id pri : asked_here (cmd_bury cid id pri (e, out)).
Proof using Hl.
  destruct (held_dec id) as [(j & Hj & Hs & Hr)|Hn].
  - eapply asked_changes; [done|]. by apply (cmd_bury_held cid id pri e out j).
  - eapply asked_answers; [done|]. by apply cmd_bury_not_found.
Qed.
Lemma asked_touch id : asked_here (cmd_touch now cid id (e, out)).
Proof using Hl.
  destruct (held_dec id) as [(j & Hj & Hs & Hr)|Hn].
  - eapply asked_changes; [done|]. by apply (cmd_touch_held now cid id e out j).
  - eapply asked_answers; [done|]. by apply cmd_touch_not_found.
Qed.
Lemma asked_delete id : asked_here (cmd_delete cid id (e, out)).
Proof using Hl.
  destruct (e_jobs e !! id) as [j|] eqn:Hj; [destruct (deletable cid j) eqn:Hd|].
  - eapply asked_changes; [done|]. by eapply cmd_delete_done.
  - eapply asked_answers; [done|]. apply cmd_delete_not_found. naive_solver.
  - eapply asked_answers; [done|]. apply cmd_delete_not_found. naive_solver.
Qed.
Lemma asked_reserve_job id : asked_here (cmd_reserve_job now cid id (e, out)).
Proof using Hl.
  destruct (e_jobs e !! id) as [j|] eqn:Hj; [destruct (decide (j_state j = JobState.Reserved)) as [Hs|Hs]|].
  - eapply asked_answers; [done|]. by eapply cmd_reserve_job_reserved.
  - eapply asked_changes; [done|]. by apply (cmd_reserve_job_done now cid id e out j).
  - eapply asked_answers; [done|]. by apply cmd_reserve_job_unknown.
Qed.
Lemma asked_kick_job id : asked_here (cmd_kick_job now cid id (e, out)).
Proof using HI Hl.
  destruct (e_jobs e !! id) as [j|] eqn:Hj; [|eapply asked_answers; [done|by apply cmd_kick_job_unknown]].
  destruct (decide (j_state j = JobState.Buried ∨ j_state j = JobState.Delayed)) as [Hs|Hs].
  - eapply asked_then; [done|reflexivity|]. by apply (cmd_kick_job_done b).
  - eapply asked_answers; [done|]. eapply cmd_kick_job_other; [done|]. destruct (j_state j); naive_solver.
Qed.
Lemma asked_kick n : asked_here (cmd_kick now cid n (e, out)).
Proof using HI Hl.
  destruct (cmd_kick_done b now cid n e out HI) as (st & key & k & l & _ & _ & _ & Hk & Ho). eapply asked_out; [done|exact Ho|].
  intros x. rewrite sent_to_app, sent_to_one. apply (kicks_due _ _ _ _ _ _ _ _ _ _ _ x) in Hk. lia.
Qed.
Lemma asked_use name : asked_here (cmd_use cid name (e, out)).
Proof using HI Hl Hc.
  destruct (cmd_use_done b cid name e out HI c Hc) as (tid & _ & _ & Hcs & Ho). eapply asked_out; [done|exact Ho|].
  intros k. rewrite sent_to_one, (owed_conn _ _ _ _ _ Hc Hcs eq_refl). lia.
Qed.
Lemma asked_watch name : asked_here (cmd_watch cid name (e, out)).
Proof using HI Hl Hc.
  destruct (cmd_watch_done b cid name e out HI c Hc) as (tid & _ & _ & Hcs & Ho). eapply asked_out; [done|exact Ho|].
  intros k. rewrite sent_to_one, (owed_conn _ _ _ _ _ Hc Hcs); [lia|]. by destruct (ms_contains tid (c_watch c)).
Qed.
Lemma asked_ignore name : asked_here (cmd_ignore cid name (e, out)).
Proof using Hl Hc.
  destruct (cmd_ignore_done cid name e out c Hc) as (_ & H). destruct (_ && _).
  - destruct H as [Hcs Ho]. eapply asked_reply; [done| |exact Ho]. unfold rels. by rewrite Hcs.
  - destruct H as [Hcs Ho]. eapply asked_out; [done|exact Ho|]. intros k. rewrite sent_to_one, (owed_conn _ _ _ _ _ Hc Hcs); [lia|]. by repeat case_match.
Qed.
Lemma asked_pause name delay : asked_here (cmd_pause_tube now cid name delay (e, out)).
Proof using HI Hl.
  unfold cmd_pause_tube. change (e_tube_ids (bump_cmd n_cmd_pause_tube e)) with (e_tube_ids e). destruct (e_tube_ids e !! name) as [tid|] eqn:Hid.
  2: { eapply asked_answers; [done|by apply answers_reply]. }
  assert (∃ t, slot (e_tubes e) tid = Some t) as [t Ht].
  { destruct (co_reg _ _ HI) as (_ & Hids & _). apply Hids, fmap_Some in Hid as (t & Ht & _). by exists t. }
  change (tube (bump_cmd n_cmd_pause_tube e) tid) with (slot (e_tubes e) tid). rewrite Ht. eapply asked_reply; [done| |by rewrite reply_snd; repeat case_match].
  rewrite reply_fst. by repeat case_match.
Qed.
Lemma asked_handle cmd : cmd ≠ Command.Quit → asked_here (handle now cid cmd (e, out)).
Proof using All.
  intros Hq. unfold handle. cbn [fst]. rewrite Hc.
  assert (∀ f (g : Engine → Engine), view (g e) = view e → asked_here (reply_with cid f (g e, out))) as Hread.
  { intros f g Hg. eapply asked_answers; [done|]. by eapply answers_reply_with. }
  destruct cmd; try done; try (by apply (Hread _ (bump_cmd _))).
  - apply asked_put.
  - apply asked_use.
  - apply asked_reserve.
  - apply asked_reserve.
  - apply asked_reserve_job.
  - apply asked_delete.
  - apply asked_release.
  - apply asked_bury.
  - apply asked_touch.
  - apply asked_watch.
  - apply asked_ignore.
  - apply asked_kick.
  - apply asked_kick_job.
  - apply asked_pause.
  - eapply asked_answers; [done|by apply answers_reply].
Qed.
End commands.

(** ** Inputs *)
(** Who asks for a reply. *)
Definition asks (i : EngineInput) (c : ConnId) : bool :=
  match i with
  | EngineInput.Command k cmd => bool_decide (k = c ∧ cmd ≠ Command.Quit)
  | EngineInput.PutRejected k _ => bool_decide (k = c)
  | _ => false
  end.
Lemma level_connect e out k : e_conns e !! k = None → level (e, out) (connect k e, out).
Proof.
  intros Hk c. unfold due. cbn [fst snd]. f_equal. rewrite !owed_waiting. unfold conn_waiting.
  assert (e_conns (connect k e) = <[k := ConnState_new DEFAULT_TUBE]> (e_conns e)) as -> by (unfold connect; by repeat case_match).
  destruct (decide (k = c)) as [->|]; [by rewrite lookup_insert_eq, Hk|by rewrite lookup_insert_ne].
Qed.
Lemma fine_release b e out now cid id :
  Rest b false e → answers_all e → held_by (e_jobs e) cid id → fine b (e, out) (release_step cid now (e, out) id).
Proof.
  intros HR Hl (j & Hj & Hs & Hr). unfold release_step. pose proof (Float_unreserve _ _ _ HR _ _ Hj _ Hs Hr) as HF.
  pose proof (do_unreserve_lookup cid _ _ _ Hj) as Hj1. rewrite Hj1. pose proof (Rest_insert_ready _ _ _ _ HF _ Hj1) as HR1.
  eapply fine_process; [exact HR1|by rewrite rels_insert_ready, rels_do_unreserve|].
  unfold answers_all. by rewrite (un_insert_ready e_local_conns), (un_do_unreserve e_local_conns).
Qed.
Lemma fine_release_all l b e out now cid :
  Rest b false e → answers_all e → NoDup l → (∀ i, i ∈ l ↔ held_by (e_jobs e) cid i) → ¬ waits_in (rels e) cid →
  fine b (e, out) (foldl (release_step cid now) (e, out) l).
Proof.
  revert e out. induction l as [|id l IH]; intros e out HR Hl Hnd Hh Hw; [by apply fine_refl|]. apply NoDup_cons in Hnd as [Hni Hnd]. cbn [foldl].
  assert (held_by (e_jobs e) cid id) as Hid by (apply Hh; left). pose proof (fine_release b e out now cid id HR Hl Hid) as HF.
  destruct (Rest_release b e out now cid id HR Hid Hw) as (HR1 & Hc & Hh1). eapply fine_trans; [exact HF|].
  destruct (release_step cid now (e, out) id) as [e1 out1]. cbn [fst] in *. apply IH; [apply HF|apply HF|done| |].
  - intros i. rewrite Hh1, <-Hh. set_solver.
  - intros Hw1. by eapply Hw, calmer_waits.
Qed.
(** The replies of a disconnect go to others. *)
Lemma due_disconnect b e out now k :
  Inv b e → answers_all e →
  let s := disconnect now k (e, out) in e_conns s.1 !! k = None ∧ sent_to k s.2 = sent_to k out ∧
  ∀ c, c ≠ k → due c s = due c (e, out) ∧ sent_to c out ≤ sent_to c s.2.
Proof.
  intros HI Hl s. split; [apply disconnect_gone|]. unfold s, disconnect. destruct (e_conns e !! k) as [c0|] eqn:Hc0; [|done].
  destruct (conn_remove_waiting _ _ _ Hc0) as (c1 & Hc1 & Hw1). pose proof (Rest_remove_waiting _ _ _ k HI) as HR1.
  assert (answers_all (do_remove_waiting_conn k e)) as Hl1 by (unfold answers_all; by rewrite (un_remove_waiting e_local_conns)).
  assert (∀ c, c ≠ k → owed (rels (do_remove_waiting_conn k e)) c = owed (rels e) c) as Ho1.
  { intros c Hne. destruct (c_waiting c0) eqn:Hw; [|unfold do_remove_waiting_conn; by rewrite Hc0, Hw].
    rewrite remove_waiting_answered by (unfold rels; eexists; rewrite lookup_fmap, Hc0; by split). pose proof (owed_answered (rels e) c k). case_decide; [done|lia]. }
  set (e1 := do_remove_waiting_conn k e) in *. rewrite Hc1.
  pose proof (not_waits_in _ _ _ Hc1 Hw1) as Hnw.
  assert (NoDup (bm_values (c_reserved c1))) as Hnd by (by eapply reserved_NoDup).
  assert (∀ i, i ∈ bm_values (c_reserved c1) ↔ held_by (e_jobs e1) k i) as Hheld by (by eapply held_conn).
  destruct (fine_release_all _ b e1 out now k HR1 Hl1 Hnd Hheld Hnw) as (_ & _ & Hlev).
  destruct (Rest_release_all _ b e1 out now k HR1 Hnd Hheld Hnw) as (_ & Hcalm & _).
  destruct (foldl (release_step k now) (e1, out) _) as [e2 out2]. cbn [fst] in *.
  assert (owed (rels e2) k = 0) as Ho2.
  { destruct (calmer_conn _ _ _ _ Hcalm Hc1) as (c2 & Hc2 & Hw2). rewrite owed_waiting. unfold conn_waiting. rewrite Hc2. destruct (c_waiting c2); [|done]. destruct Hw2; congruence. }
  assert (owed (rels e1) k = 0) as Ho0 by (rewrite owed_waiting; unfold conn_waiting; by rewrite Hc1, Hw1).
  split; [destruct (Hlev k) as [Hk _]; unfold due in Hk; cbn [fst snd] in *; lia|]. intros c Hne. destruct (Hlev c) as [Hc2 Hm2]. split; [|exact Hm2].
  transitivity (due c (e2, out2)); [|rewrite Hc2; unfold due; cbn [fst snd]; by rewrite Ho1].
  unfold due. cbn [fst snd]. f_equal. rewrite !owed_waiting. unfold conn_waiting. set (e3 := foldl unwatch_step _ _).
  assert (e_conns e3 !! c = e_conns e2 !! c) as <- by (unfold e3; rewrite (proj2 (unwatch_same _ _)); by apply lookup_alter_ne).
  clearbody e3. set (e4 := match e_conns e3 !! k with Some c => _ | None => e3 end).
  assert (e_conns e4 = e_conns e3) as <- by (unfold e4; destruct (e_conns e3 !! k); [by rewrite conns_gc|done]). clearbody e4.
  destruct (e_conns e4 !! k) as [c4|]; [|done]. destruct (c_is_worker c4), (c_is_producer c4), (c_tick_key c4); unfold upd_cc; eng; by rewrite lookup_delete_ne.
Qed.

(** The reply a connection is owed is lost only when it leaves. *)
Definition leaves (i : EngineInput) (c : ConnId) : bool := match i with EngineInput.Disconnect k => bool_decide (k = c) | _ => false end.
Definition expected (i : EngineInput) (c : ConnId) (s : St) : nat :=
  (if leaves i c then sent_to c s.2 else due c s) + (if asks i c && bool_decide (is_Some (e_conns s.1 !! c)) then 1 else 0).
Lemma asked_expected i k c s s' :
  (∀ c, leaves i c = false) → (∀ c, asks i c = bool_decide (k = c)) → is_Some (e_conns s.1 !! k) → asked k s s' →
  due c s' = expected i c s ∧ sent_to c s.2 ≤ sent_to c s'.2.
Proof.
  intros Hlv Ha Hk H. destruct (H c) as [Hd Hm]. split; [|done]. unfold expected. rewrite Hd, Hlv, Ha. f_equal. destruct (decide (k = c)) as [->|Hne]; [|by rewrite bool_decide_eq_false_2].
  by rewrite !bool_decide_eq_true_2.
Qed.
Lemma expected_absent i c s : leaves i c = false → (asks i c = true → e_conns s.1 !! c = None) → expected i c s = due c s.
Proof.
  intros Hlv Ha. unfold expected. rewrite Hlv. destruct (asks i c); [|by rewrite Nat.add_0_r]. rewrite Ha by done. by rewrite bool_decide_eq_false_2 by (by intros []).
Qed.
Lemma due_input b now i e out c :
  Inv b e → budget_ok (grow b) → legal now i e = true → answers_all e →
  due c (run_input now i (e, out)) = expected i c (e, out) ∧ sent_to c out ≤ sent_to c (run_input now i (e, out)).2.
Proof.
  intros HI Hb Hleg Hl. apply andb_true_iff in Hleg as [_ Hleg].
  destruct i as [k|k|k|k too_big|k why|k cmd| |on]; cbn [run_input fst snd];
    try (unfold expected; cbn [leaves asks andb]; rewrite Nat.add_0_r).
  - apply andb_true_iff in Hleg as [Hno%bool_decide_eq_true _]. by apply level_connect.
  - destruct (due_disconnect b e out now k HI Hl) as (Hgone & Hsent & Hrest). destruct (decide (k = c)) as [->|Hne].
    + rewrite bool_decide_eq_true_2 by done. unfold due. rewrite Hsent, owed_waiting. unfold conn_waiting. rewrite Hgone. cbn [snd]. lia.
    + rewrite bool_decide_eq_false_2 by done. by apply Hrest.
  - unfold half_close. destruct (conn_waiting e k) eqn:Hw; [by apply level_unwait|done].
  - unfold put_started. destruct (e_conns e !! k) as [x|]; [|done]. apply level_rels.
    destruct too_big; (etrans; [by apply rels_upd_conn|]); [done|]. exact (view_rels _ _ (view_producer k (bump_cmd n_cmd_put e))).
  - destruct (e_conns e !! k) as [x|] eqn:Hk.
    + apply (asked_expected _ k); [done|done|by eexists|]. unfold put_rejected. rewrite Hk.
      eapply asked_answers; [done|]. apply answers_reply. set (e0 := upd_conn k _ e).
      assert (view e0 = view e) as Hv by (apply view_eq; [done|by apply rels_upd_conn|done|done]).
      destruct (c_pending_put x); [done|]. pose proof (view_producer k (bump_cmd n_cmd_put e0)) as Hv'.
      destruct why; (etrans; [|exact Hv]); first [reflexivity|etrans; [|exact Hv']; reflexivity].
    + rewrite expected_absent; [unfold put_rejected; by rewrite Hk|done|]. cbn. by intros ->%bool_decide_eq_true.
  - apply andb_true_iff in Hleg as [Hw%negb_true_iff _]. destruct (e_conns e !! k) as [x|] eqn:Hk.
    + unfold conn_waiting in Hw. rewrite Hk in Hw. destruct (decide (cmd = Command.Quit)) as [->|Hq].
      * rewrite expected_absent; [unfold handle; cbn [fst]; by rewrite Hk|done|]. cbn. by intros [_ []]%bool_decide_eq_true.
      * apply (asked_expected _ k); [done| |by eexists|by eapply asked_handle]. intros c'. cbn. apply bool_decide_ext. naive_solver.
    + rewrite expected_absent; [unfold handle; cbn [fst]; by rewrite Hk|done|]. cbn. by intros [-> _]%bool_decide_eq_true.
  - done.
  - done.
Qed.
Lemma due_apply b now i e out c :
  Inv b e → budget_ok (grow b) → legal now i e = true → answers_all e →
  due c (apply_input now i (e, out)) = expected i c (e, out) ∧ sent_to c out ≤ sent_to c (apply_input now i (e, out)).2 ∧
  answers_all (apply_input now i (e, out)).1.
Proof.
  intros HI Hb Hleg Hl. destruct (Inv_run_input b now i e out HI Hb Hleg) as [n HI1].
  destruct (node_run_input now i (mkLocalConns 0 0) (e, out) Hl) as [_ Hl1]. destruct (due_input b now i e out c HI Hb Hleg Hl) as [Hd Hm].
  unfold apply_input. destruct (fine_tick _ now (run_input now i (e, out)) HI1 Hl1) as (_ & Hl2 & Hlev). destruct (Hlev c) as [Hd2 Hm2]. split_and!; [congruence|lia|done].
Qed.
