(* ===== verification/Seats.v ===== *)
(** * Which connections there are

    [seats] is the set of connections the engine knows.  Only a connect adds
    one and only a disconnect removes one.  [Still] is the class of the views
    that no command changes. *)

From S2P Require Import Prelude Ms Proto Stats Model Engine Frames Inv InvFrame InvRefresh Queues Moves Tubes.
From S2P Require Import Waiting Rest Dispatch ConnOps Commands Sessions Connect Tick Serve Effects Keep.
From stdpp Require Import options.

Definition seats (e : Engine) : gset ConnId := dom (e_conns e).
Lemma seats_conns e e' : e_conns e' = e_conns e → seats e' = seats e.
Proof. unfold seats. by intros ->. Qed.
#[export] Instance tubeless_seats : Tubeless seats.
Proof.
  split; [split; [split|..]|..]; try done.
  - intros. unfold seats. cbn. apply dom_alter_L.
  - intros. apply seats_conns. apply conns_gc.
  - intros. apply seats_conns. unfold find_or_make_tube. repeat case_match; simplify_eq; done.
Qed.
#[export] Instance unlogged_seats : Unlogged seats.
Proof. split; [apply _|]. intros. unfold journal_update. by repeat case_match. Qed.
(** A view that does not see jobs and their log entries either. *)
Class Still {A} (π : Engine → A) : Prop := {
  st_tubeless :: Tubeless π;
  st_unlogged :: Unlogged π;
  st_jobs f e : π (e <| e_jobs ::= f |>) = π e;
  st_put id e : π (journal_put id e) = π e;
  st_delete id e : π (journal_delete id e) = π e;
}.
#[export] Hint Mode Still - ! : typeclass_instances.
Section still.
Context {A} (π : Engine → A) `{!Still π}.
#[local] Ltac keep := repeat first [progress keep_at π | rewrite (st_jobs (π := π)) | rewrite (st_put (π := π)) | rewrite (st_delete (π := π))].
Lemma still_put now cid pri delay ttr body s : π (cmd_put now cid pri delay ttr body s).1 = π s.1.
Proof using All.
  destruct s as [e out]. unfold cmd_put. cbv zeta. pose proof (du_put_id π now cid e) as H. destruct (put_id now cid e) as [[id created_at] e1].
  cbn [snd fst] in H |- *. case_match; [by keep|].
  match goal with |- context [process_queue now ?s] => pose proof (du_process_queue π now s) as Hpq;
    destruct (process_queue now s) as [e2 out2] end. cbn [fst] in Hpq |- *. keep. rewrite Hpq, <-H. case_match; by keep.
Qed.
Lemma still_delete cid id s : π (cmd_delete cid id s).1 = π s.1.
Proof using All.
  destruct s as [e out]. unfold cmd_delete. cbv zeta. case_match; [|by keep].
  match goal with |- context [let '(ok, e1) := ?x in _] => set (r := x) end.
  assert (π r.2 = π e) as Hr by (unfold r; repeat case_match; by keep). destruct r as [ok e1]. cbn [snd] in Hr. destruct ok; by keep.
Qed.
Lemma still_handle now cid cmd s : π (handle now cid cmd s).1 = π s.1.
Proof using All.
  destruct cmd; try (by apply (du_handle π)); unfold handle; case_match; try done; [apply still_put|apply still_delete].
Qed.
(** Nor connections: nothing changes it. *)
Lemma still_input `{!Sessionless π} now i s : (∀ f e, π (e <| e_draining ::= f |>) = π e) → π (apply_input now i s).1 = π s.1.
Proof using All.
  intros Hd. unfold apply_input. rewrite (du_tick π). destruct s as [e out], i as [c|c|c|c too_big|c why|c cmd| |on]; cbn [run_input fst]; try done.
  - apply (du_connect π).
  - apply (du_disconnect π).
  - apply (du_half_close π).
  - apply (du_put_started π).
  - apply (du_put_rejected π).
  - apply still_handle.
  - apply Hd.
Qed.
End still.
#[export] Instance still_seats : Still seats.
Proof.
  split; try apply _; try done; intros id e; [unfold journal_put|unfold journal_delete]; by repeat case_match.
Qed.
Lemma seats_disconnect now cid s : seats (disconnect now cid s).1 = seats s.1 ∖ {[cid]}.
Proof.
  destruct (e_conns s.1 !! cid) as [c|] eqn:Hc.
  - destruct (du_disconnect_until seats now cid s ltac:(by rewrite Hc)) as (e' & <- & H & _). unfold seats. by rewrite H, dom_delete_L.
  - destruct s as [e out]. unfold disconnect. cbn [fst] in *. rewrite Hc. apply not_elem_of_dom in Hc. unfold seats. set_solver.
Qed.
Definition seats_after (i : EngineInput) (e : Engine) : gset ConnId :=
  match i with
  | EngineInput.Connect c => {[c]} ∪ seats e
  | EngineInput.Disconnect c => seats e ∖ {[c]}
  | _ => seats e
  end.
Lemma seats_run_input now i s : seats (run_input now i s).1 = seats_after i s.1.
Proof.
  destruct i as [c|c|c|c too_big|c why|c cmd| |on]; cbn [run_input fst seats_after]; try done.
  - unfold connect. case_match; unfold seats, upd_cc; cbn; by rewrite dom_insert_L.
  - apply seats_disconnect.
  - apply (du_half_close seats).
  - apply (du_put_started seats).
  - apply (du_put_rejected seats).
  - apply (still_handle seats).
Qed.
Lemma seats_input now i s : seats (apply_input now i s).1 = seats_after i s.1.
Proof. unfold apply_input. rewrite (du_tick seats). apply seats_run_input. Qed.
