(* ===== verification/Auth.v ===== *)
(** * Tokens and pending connections

    [server/auth.rs]: the configured tokens and their comparison, and
    [server/pending.rs]: the cap on TLS connections that are not yet admitted.
    [Subtle] is the crate of the constant-time comparison; [SubtleLaws] says
    what its documentation does: the comparisons decide equality, a [Choice]
    is a bit. *)

From S2P Require Import Prelude Ms Proto Stats Model.
From stdpp Require Import options.

(** ** Constant-time comparison *)
Class Subtle := {
  Choice : Type;
  choice_from : bool → Choice;
  choice_bool : Choice → bool;
  choice_and : Choice → Choice → Choice;
  choice_or : Choice → Choice → Choice;
  ct_eq_bytes : Bytes → Bytes → Choice;
  ct_eq_u64 : N → N → Choice;
}.
Class SubtleLaws `{Subtle} : Prop := {
  choice_bool_from b : choice_bool (choice_from b) = b;
  choice_bool_and x y : choice_bool (choice_and x y) = choice_bool x && choice_bool y;
  choice_bool_or x y : choice_bool (choice_or x y) = choice_bool x || choice_bool y;
  ct_eq_bytes_spec a b : length a = length b → choice_bool (ct_eq_bytes a b) = bool_decide (a = b);
  ct_eq_u64_spec a b : choice_bool (ct_eq_u64 a b) = bool_decide (a = b);
}.
(** The crate as plain booleans. *)
Definition plain_subtle : Subtle :=
  {| Choice := bool; choice_from b := b; choice_bool b := b; choice_and := andb; choice_or := orb;
     ct_eq_bytes a b := bool_decide (a = b); ct_eq_u64 a b := bool_decide (a = b) |}.
Lemma plain_subtle_laws : @SubtleLaws plain_subtle.
Proof. by constructor. Qed.

(** ** Tokens *)
(** [auth <token>] and its CRLF fill a line. *)
Definition MAX_TOKEN_LEN : nat := N.to_nat LINE_BUF_SIZE - 5 - 2.
Definition zero_byte : ascii := ascii_of_N 0.
Record Padded := mkPadded { pd_bytes : Bytes; pd_len : N }.
#[export] Instance Padded_eq_dec : EqDecision Padded.
Proof. solve_decision. Defined.
Definition Padded_new (token : Bytes) : Padded :=
  let n := length token `min` MAX_TOKEN_LEN in
  mkPadded (take n token ++ replicate (MAX_TOKEN_LEN - n) zero_byte)
    (if (MAX_TOKEN_LEN <? length token)%nat then u64_max else N.of_nat n).
Definition TokenSet := list Padded.
Definition TokenSet_new (tokens : list Bytes) : TokenSet := Padded_new <$> tokens.

Section subtle.
Context `{Subtle}.
Definition ct_eq (a b : Padded) : Choice := choice_and (ct_eq_bytes (pd_bytes a) (pd_bytes b)) (ct_eq_u64 (pd_len a) (pd_len b)).
Definition verify (tokens : TokenSet) (candidate : Bytes) : bool :=
  let candidate := Padded_new candidate in
  choice_bool (foldl (λ ok token, choice_or ok (ct_eq token candidate)) (choice_from false) tokens).
End subtle.

Lemma Padded_length token : length (pd_bytes (Padded_new token)) = MAX_TOKEN_LEN.
Proof. cbn. rewrite length_app, length_take, length_replicate. lia. Qed.
Lemma Padded_inj a b : length a ≤ MAX_TOKEN_LEN → Padded_new a = Padded_new b → a = b.
Proof.
  intros Ha Hab. pose proof (f_equal pd_len Hab) as Hl. pose proof (f_equal pd_bytes Hab) as Hb. cbn [pd_len pd_bytes Padded_new] in Hl, Hb.
  assert (MAX_TOKEN_LEN = 217) as HM by reflexivity. assert (u64_max = 18446744073709551615%N) as HU by reflexivity.
  rewrite (proj2 (Nat.ltb_ge _ _) Ha) in Hl. destruct (Nat.ltb_spec MAX_TOKEN_LEN (length b)) as [Hlt|Hge]; [lia|].
  assert (length a = length b) as Hlen by lia. rewrite !Nat.min_l, !take_ge in Hb by lia. rewrite Hlen in Hb. by apply app_inj_1 in Hb as [? _].
Qed.
Section laws.
Context `{HS : SubtleLaws}.
Lemma ct_eq_spec a b : choice_bool (ct_eq (Padded_new a) (Padded_new b)) = bool_decide (Padded_new a = Padded_new b).
Proof using HS.
  unfold ct_eq. rewrite choice_bool_and, ct_eq_bytes_spec, ct_eq_u64_spec by (by rewrite !Padded_length). rewrite <-bool_decide_and.
  apply bool_decide_ext. destruct (Padded_new a), (Padded_new b); cbn. naive_solver.
Qed.
(** [verify] accepts the configured tokens and nothing else. *)
Lemma verify_spec tokens candidate :
  Forall (λ t, length t ≤ MAX_TOKEN_LEN) tokens → verify (TokenSet_new tokens) candidate = bool_decide (candidate ∈ tokens).
Proof using HS.
  intros Ht. unfold verify.
  assert (∀ acc, choice_bool (foldl (λ ok token, choice_or ok (ct_eq token (Padded_new candidate))) acc (TokenSet_new tokens)) =
    choice_bool acc || bool_decide (candidate ∈ tokens)) as ->; [|by rewrite choice_bool_from].
  induction Ht as [|t tokens Hlen _ IH]; intros acc; cbn [TokenSet_new fmap list_fmap foldl].
  - by rewrite bool_decide_eq_false_2, orb_false_r by (apply not_elem_of_nil).
  - unfold TokenSet_new in IH. rewrite IH, choice_bool_or, ct_eq_spec, <-orb_assoc. f_equal. rewrite <-bool_decide_or. apply bool_decide_ext.
    rewrite elem_of_cons. split; (intros [Heq|?]; [left|by right]); [symmetry; by apply Padded_inj|by subst].
Qed.
End laws.

(** ** Pending connections *)
Definition REJECT_LOG_INTERVAL : N := NANOS_PER_SEC.
Record RejectLog := mkRejectLog { rl_last : option N; rl_unreported : N }.
Definition note (now : N) (r : RejectLog) : option N * RejectLog :=
  let unreported := sat_add64 (rl_unreported r) 1 in
  let due := match rl_last r with None => true | Some t => (REJECT_LOG_INTERVAL <=? sat_sub now t)%N end in
  if due then (Some unreported, mkRejectLog (Some now) 0) else (None, mkRejectLog (rl_last r) unreported).
Record ServerCounters := mkServerCounters {
  pc_max_pending : N; pc_pending : N; pc_pending_rejected : N; pc_auth_timeouts : N; pc_auth_failures : N; pc_reject_log : RejectLog;
}.
Definition ServerCounters_new (max_pending : N) : ServerCounters := mkServerCounters max_pending 0 0 0 0 (mkRejectLog None 0).
(** Whether the connection got a place, and how many rejections to log. *)
Definition try_acquire (now : N) (c : ServerCounters) : bool * option N * ServerCounters :=
  if (pc_pending c <? pc_max_pending c)%N then
    (true, None, mkServerCounters (pc_max_pending c) (pc_pending c + 1) (pc_pending_rejected c) (pc_auth_timeouts c) (pc_auth_failures c) (pc_reject_log c))
  else
    let '(report, log) := note now (pc_reject_log c) in
    (false, report, mkServerCounters (pc_max_pending c) (pc_pending c) (incr64 (pc_pending_rejected c)) (pc_auth_timeouts c) (pc_auth_failures c) log).
(** The guard of a pending connection is dropped. *)
Definition drop_pending (c : ServerCounters) : ServerCounters :=
  mkServerCounters (pc_max_pending c) (wrap64 (pc_pending c + (2 ^ 64 - 1))) (pc_pending_rejected c) (pc_auth_timeouts c) (pc_auth_failures c) (pc_reject_log c).
Definition auth_timed_out (c : ServerCounters) : ServerCounters :=
  mkServerCounters (pc_max_pending c) (pc_pending c) (pc_pending_rejected c) (incr64 (pc_auth_timeouts c)) (pc_auth_failures c) (pc_reject_log c).
Definition auth_failed (c : ServerCounters) : ServerCounters :=
  mkServerCounters (pc_max_pending c) (pc_pending c) (pc_pending_rejected c) (pc_auth_timeouts c) (incr64 (pc_auth_failures c)) (pc_reject_log c).
