(* ===== verification/Conn.v ===== *)
(** * Connections

    The task of a connection ([server/conn.rs]) as a machine that runs from one
    [await] to the next.  [l_phase] is where it waits: at a write of [flush]
    and what follows it, at a read of the loop, at a reply ([await_reply]).
    An event is what ends the wait; a turn gives the task's next state and
    what it did: messages to the engine, bytes to the client.  [alive] says
    whether the engine's channel is open.  A [flush] of an empty buffer does
    not wait. *)

From S2P Require Import Prelude Ms Proto Stats Parse Codec Reply Model Format Engine Snapshot Replay Scan Wal Actor Auth.
From stdpp Require Import options.

Definition MAX_BUFFERED_WHILE_WAITING : nat := N.to_nat (64 * 1024).

(** What [read_buf] returns; [Read []] is the end of the stream. *)
Module ReadResult.
Inductive ReadResult := Read (bytes : Bytes) | UnexpectedEof | Failed.
End ReadResult.
Abbreviation ReadResult := ReadResult.ReadResult (only parsing).
(** What a task does. *)
Module Output.
Inductive Output :=
  | Send (msg : EngineMsg)
  | Write (bytes : Bytes)
  | AuthFailed
  | AuthTimedOut
  | DropPending.
End Output.
Abbreviation Output := Output.Output (only parsing).
Definition sends (out : list Output) : list EngineMsg := omap (λ o, match o with Output.Send m => Some m | _ => None end) out.

(** ** The protocol loop *)
(** What follows a [flush]. *)
Module Next.
Inductive Next :=
  | Close
  | Dispatch (msg : EngineMsg)
  | Resume
  | More.
End Next.
Abbreviation Next := Next.Next (only parsing).
Module Phase.
Inductive Phase :=
  | Looping
  | Flushing (next : Next)
  | Reading
  | Awaiting
  | Closed.
End Phase.
Abbreviation Phase := Phase.Phase (only parsing).
(** The variables of [command_loop]. *)
Record Conn := mkConn {
  l_conn : ConnId; l_codec : ServerCodec; l_rbuf : Bytes; l_wbuf : Bytes; l_eof : bool; l_auth : option TokenSet; l_phase : Phase;
}.
#[export] Instance eta_Conn : Eta Conn := λ r, mkConn (l_conn r) (l_codec r) (l_rbuf r) (l_wbuf r) (l_eof r) (l_auth r) (l_phase r).
#[export] Instance l_conn_set : Setter l_conn := ltac:(derive_setter).
#[export] Instance l_codec_set : Setter l_codec := ltac:(derive_setter).
#[export] Instance l_rbuf_set : Setter l_rbuf := ltac:(derive_setter).
#[export] Instance l_wbuf_set : Setter l_wbuf := ltac:(derive_setter).
#[export] Instance l_eof_set : Setter l_eof := ltac:(derive_setter).
#[export] Instance l_auth_set : Setter l_auth := ltac:(derive_setter).
#[export] Instance l_phase_set : Setter l_phase := ltac:(derive_setter).

Module Wake.
Inductive Wake :=
  | Run
  | Wrote (ok : bool)
  | Read (r : ReadResult)
  | Recv (reply : option Response).
End Wake.
Abbreviation Wake := Wake.Wake (only parsing).

Section subtle.
Context `{Subtle}.
Implicit Types (l : Conn).
Abbreviation Turn := (Conn * list Output)%type.

(** The task returns; its guard tells the engine. *)
Definition close l : Turn := (l <| l_phase := Phase.Closed |>, [Output.Send (EngineMsg.Disconnect (l_conn l))]).
Definition reassert_half_close l : list Output := [Output.Send (EngineMsg.HalfClose (l_conn l))].
Definition proceed (alive : bool) (next : Next) l : Turn :=
  match next with
  | Next.Close => close l
  | Next.Dispatch msg =>
      if alive then (l <| l_phase := Phase.Awaiting |>, Output.Send msg :: (if l_eof l then reassert_half_close l else []))
      else close l
  | Next.Resume => (l <| l_phase := Phase.Looping |>, [])
  | Next.More => if l_eof l then close l else (l <| l_phase := Phase.Reading |>, [])
  end.
Definition flush (alive : bool) (next : Next) l : Turn :=
  if bool_decide (l_wbuf l = []) then proceed alive next l
  else (l <| l_wbuf := [] |> <| l_phase := Phase.Flushing next |>, [Output.Write (l_wbuf l)]).
Definition push (resp : Response) l : Conn := l <| l_wbuf ::= (.++ encode resp) |>.

(** The [match] of the loop. *)
Definition loop_turn (alive : bool) l : Turn :=
  let '(frame, codec, rbuf) := decode (l_codec l) (l_rbuf l) in
  let l := l <| l_codec := codec |> <| l_rbuf := rbuf |> in
  match frame with
  | Some (Frame.Command Command.Quit) => flush alive Next.Close l
  | Some (Frame.Command cmd) => flush alive (Next.Dispatch (EngineMsg.Command (l_conn l) cmd)) l
  | Some (Frame.PutRejected why) => flush alive (Next.Dispatch (EngineMsg.PutRejected (l_conn l) why)) l
  | Some (Frame.PutStarted too_big) =>
      if alive then (l, [Output.Send (EngineMsg.PutStarted (l_conn l) too_big)]) else close l
  | Some (Frame.Auth token) =>
      match l_auth l with
      | None => close l
      | Some tokens =>
          if verify tokens token then (push Response.Authenticated l, [])
          else let '(l, out) := flush alive Next.Close (push Response.Unauthorized l) in (l, Output.AuthFailed :: out)
      end
  | Some (Frame.Error resp) => (push resp l, [])
  | None => flush alive Next.More l
  end.
Definition read_turn (r : ReadResult) l : Turn :=
  match r with
  | ReadResult.Read [] | ReadResult.UnexpectedEof => (l <| l_eof := true |> <| l_phase := Phase.Looping |>, [])
  | ReadResult.Read bytes => (l <| l_rbuf ::= (.++ bytes) |> <| l_phase := Phase.Looping |>, [])
  | ReadResult.Failed => close l
  end.
(** [await_reply] reads on, up to a limit, to notice the end of the stream. *)
Definition reads_on l : bool := negb (l_eof l || (MAX_BUFFERED_WHILE_WAITING <=? length (l_rbuf l))%nat).
Definition await_read (r : ReadResult) l : Turn :=
  match r with
  | ReadResult.Read ((_ :: _) as bytes) => (l <| l_rbuf ::= (.++ bytes) |>, [])
  | _ => (l <| l_eof := true |>, reassert_half_close l)
  end.
Definition await_recv (alive : bool) (reply : option Response) l : Turn :=
  match reply with
  | Some resp => flush alive Next.Resume (push resp l)
  | None => close l
  end.
(** One turn; [None]: the event is not what the task waits for. *)
Definition command_turn (alive : bool) (w : Wake) l : option Turn :=
  match l_phase l, w with
  | Phase.Looping, Wake.Run => Some (loop_turn alive l)
  | Phase.Flushing next, Wake.Wrote ok => Some (if ok then proceed alive next l else close l)
  | Phase.Reading, Wake.Read r => Some (read_turn r l)
  | Phase.Awaiting, Wake.Read r => if reads_on l then Some (await_read r l) else None
  | Phase.Awaiting, Wake.Recv reply => Some (await_recv alive reply l)
  | _, _ => None
  end.
End subtle.

(** ** The task *)
Module TlsAuth.
Inductive TlsAuth := Handshake | Token (tokens : TokenSet).
End TlsAuth.
Abbreviation TlsAuth := TlsAuth.TlsAuth (only parsing).
Module AuthPhase.
Inductive AuthPhase := Looping | Reading | Refusing | Leaving.
End AuthPhase.
Abbreviation AuthPhase := AuthPhase.AuthPhase (only parsing).
(** The variables of [authenticate]. *)
Record Login := mkLogin { g_tokens : TokenSet; g_codec : ServerCodec; g_rbuf : Bytes; g_phase : AuthPhase }.
#[export] Instance eta_Login : Eta Login := λ r, mkLogin (g_tokens r) (g_codec r) (g_rbuf r) (g_phase r).
#[export] Instance g_tokens_set : Setter g_tokens := ltac:(derive_setter).
#[export] Instance g_codec_set : Setter g_codec := ltac:(derive_setter).
#[export] Instance g_rbuf_set : Setter g_rbuf := ltac:(derive_setter).
#[export] Instance g_phase_set : Setter g_phase := ltac:(derive_setter).
(** A task: in the TLS handshake, in [authenticate], about to be given an id
    (with the variables of the loop), in the loop, or returned without ever
    having been given one. *)
Module Task.
Inductive Task :=
  | Handshaking (auth : TlsAuth)
  | Authenticating (g : Login)
  | Admitting (codec : ServerCodec) (rbuf wbuf : Bytes) (auth : option TokenSet)
  | Serving (l : Conn)
  | Gone.
End Task.
Abbreviation Task := Task.Task (only parsing).

Module TaskEvent.
Inductive TaskEvent :=
  | Shaken (ok : bool)
  | TimedOut
  | Admit (conn : ConnId)
  | Woken (w : Wake).
End TaskEvent.
Abbreviation TaskEvent := TaskEvent.TaskEvent (only parsing).

Section subtle.
Context `{Subtle} (max_job_size : N).
Abbreviation Turn := (Task * list Output)%type.
Definition server_codec : ServerCodec := emit_put_started (ServerCodec_new max_job_size).
(** [registered]: the socket could be registered. *)
Definition handle_plain (registered : bool) (conn : ConnId) : Turn :=
  let l := mkConn conn server_codec [] [] false None Phase.Looping in
  if registered then (Task.Serving l, []) else let '(l, out) := close l in (Task.Serving l, out).

Definition unauthorized (g : Login) : Turn :=
  (Task.Authenticating (g <| g_phase := AuthPhase.Refusing |>), [Output.AuthFailed; Output.Write (encode Response.Unauthorized)]).
(** [authenticate] returns [false]; the TLS session is ended first. *)
Definition leave (g : Login) (out : list Output) : Turn := (Task.Authenticating (g <| g_phase := AuthPhase.Leaving |>), out).
Definition hang_up : Turn := (Task.Gone, [Output.DropPending]).
(** The [match] of the loop of [authenticate]. *)
Definition login_turn (g : Login) : Turn :=
  let '(frame, codec, rbuf) := decode (g_codec g) (g_rbuf g) in
  let g := g <| g_codec := codec |> <| g_rbuf := rbuf |> in
  match frame with
  | Some (Frame.Auth token) =>
      if verify (g_tokens g) token then
        (Task.Admitting codec rbuf (encode Response.Authenticated) (Some (g_tokens g)), [Output.DropPending])
      else unauthorized g
  | Some (Frame.Command Command.Quit) => leave g []
  | Some _ => unauthorized g
  | None => (Task.Authenticating (g <| g_phase := AuthPhase.Reading |>), [])
  end.
(** [authenticate], under the timeout of [handle_tls]. *)
Definition authenticate (w : Wake) (g : Login) : option Turn :=
  match g_phase g, w with
  | AuthPhase.Looping, Wake.Run => Some (login_turn g)
  | AuthPhase.Reading, Wake.Read (ReadResult.Read ((_ :: _) as bytes)) =>
      Some (Task.Authenticating (g <| g_rbuf ::= (.++ bytes) |> <| g_phase := AuthPhase.Looping |>), [])
  | AuthPhase.Reading, Wake.Read _ => Some (leave g [])
  | AuthPhase.Refusing, Wake.Wrote _ => Some (leave g [])
  | AuthPhase.Leaving, Wake.Wrote _ => Some hang_up
  | _, _ => None
  end.
(** A turn of [handle_tls] and, once there is an id, of either kind of
    connection. *)
Definition task_turn (alive : bool) (ev : TaskEvent) (t : Task) : option Turn :=
  match t, ev with
  | Task.Handshaking _, TaskEvent.Shaken false => Some hang_up
  | Task.Handshaking TlsAuth.Handshake, TaskEvent.Shaken true => Some (Task.Admitting server_codec [] [] None, [Output.DropPending])
  | Task.Handshaking (TlsAuth.Token tokens), TaskEvent.Shaken true =>
      Some (Task.Authenticating (mkLogin tokens (recognize_auth server_codec) [] AuthPhase.Looping), [])
  | Task.Authenticating g, TaskEvent.TimedOut =>
      match g_phase g with
      | AuthPhase.Looping | AuthPhase.Leaving => None
      | _ => Some (leave g [Output.AuthTimedOut])
      end
  | Task.Authenticating g, TaskEvent.Woken w => authenticate w g
  | Task.Admitting codec rbuf wbuf auth, TaskEvent.Admit conn =>
      Some (if alive then (Task.Serving (mkConn conn codec rbuf wbuf false auth Phase.Looping), [Output.Send (EngineMsg.Connect conn)])
            else (Task.Gone, []))
  | Task.Serving l, TaskEvent.Woken w => '(l, out) ← command_turn alive w l; Some (Task.Serving l, out)
  | _, _ => None
  end.
End subtle.
