(* ===== verification/ConnRun.v ===== *)
(** * A connection's conversation

    What a connection task does with a stream of bytes, over any run: it works
    through the frames of the stream in order, sends the engine a message for
    each request, one at a time, and writes the answers in the order of the
    frames. *)

From S2P Require Import Prelude Ms Proto Stats Parse Codec Reply Model Format Engine Snapshot Replay Scan Wal Actor Auth Conn.
From stdpp Require Import options.

(** ** The conversation a stream asks for *)
(** What is sent to the engine for a frame. *)
Definition frame_msg (c : ConnId) (f : Frame) : option EngineMsg :=
  match f with
  | Frame.Command Command.Quit => None
  | Frame.Command cmd => Some (EngineMsg.Command c cmd)
  | Frame.PutRejected why => Some (EngineMsg.PutRejected c why)
  | Frame.PutStarted too_big => Some (EngineMsg.PutStarted c too_big)
  | Frame.Auth _ | Frame.Error _ => None
  end.
(** Whether the engine answers the frame. *)
Definition is_request (f : Frame) : bool :=
  match f with Frame.Command Command.Quit => false | Frame.Command _ | Frame.PutRejected _ => true | _ => false end.
Section conversation.
Context `{Subtle} (auth : option TokenSet).
(** The answer of the task itself. *)
Definition own_answer (f : Frame) : option Response :=
  match f, auth with
  | Frame.Error r, _ => Some r
  | Frame.Auth token, Some tokens => Some (if verify tokens token then Response.Authenticated else Response.Unauthorized)
  | _, _ => None
  end.
(** The answers to the frames, [rs] being those of the engine. *)
Fixpoint replies_of (fs : list Frame) (rs : list Response) : list Response :=
  match fs with
  | [] => []
  | f :: fs =>
      if is_request f then match rs with r :: rs => r :: replies_of fs rs | [] => [] end
      else option_list (own_answer f) ++ replies_of fs rs
  end.
Definition requests (fs : list Frame) : nat := length (filter (λ f, is_request f = true) fs).
Lemma requests_app fs fs' : requests (fs ++ fs') = requests fs + requests fs'.
Proof. unfold requests. by rewrite filter_app, length_app. Qed.
Lemma requests_cons f fs : requests (f :: fs) = (if is_request f then 1 else 0) + requests fs.
Proof. unfold requests. rewrite filter_cons. by destruct (is_request f). Qed.
Lemma requests_last fs f : requests (fs ++ [f]) = requests fs + (if is_request f then 1 else 0).
Proof. rewrite requests_app, requests_cons. unfold requests. cbn. lia. Qed.
Lemma replies_of_own fs f rs : requests fs = length rs → replies_of (fs ++ [f]) rs = replies_of fs rs ++ (if is_request f then [] else option_list (own_answer f)).
Proof.
  revert rs. induction fs as [|g fs IH]; intros rs; cbn [app replies_of].
  - intros Hn. destruct rs; [|done]. destruct (is_request f); [done|]. by rewrite app_nil_r.
  - rewrite requests_cons. destruct (is_request g).
    + destruct rs as [|r rs]; cbn; intros Hn; [lia|]. by rewrite IH by lia.
    + intros Hn. by rewrite IH, <-(assoc_L (++)) by done.
Qed.
Lemma replies_of_reply fs f rs r :
  requests fs = length rs → is_request f = true → replies_of (fs ++ [f]) (rs ++ [r]) = replies_of fs rs ++ [r].
Proof.
  intros Hn Hf. revert rs Hn. induction fs as [|g fs IH]; intros rs; cbn [app replies_of].
  - intros Hn. destruct rs; [|done]. cbn. by rewrite Hf.
  - rewrite requests_cons. destruct (is_request g).
    + destruct rs as [|r' rs]; cbn; intros Hn; [lia|]. by rewrite IH by lia.
    + intros Hn. by rewrite IH, <-(assoc_L (++)) by done.
Qed.
Definition encoded (rs : list Response) : Bytes := concat (encode <$> rs).
Lemma encoded_app rs rs' : encoded (rs ++ rs') = encoded rs ++ encoded rs'.
Proof. unfold encoded. by rewrite fmap_app, concat_app. Qed.
End conversation.

(** ** Runs *)
Section runs.
Context `{Subtle}.
(** Each turn with whether the engine's channel is open. *)
Fixpoint conn_run (ws : list (bool * Wake)) (l : Conn) : option (Conn * list Output) :=
  match ws with
  | [] => Some (l, [])
  | (alive, w) :: ws =>
      '(l, out) ← command_turn alive w l;
      '(l, out') ← conn_run ws l;
      Some (l, out ++ out')
  end.
Definition reads (ws : list (bool * Wake)) : Bytes :=
  concat ((λ w, match w.2 with Wake.Read (ReadResult.Read bytes) => bytes | _ => [] end) <$> ws).
Definition received (ws : list (bool * Wake)) : list Response :=
  omap (λ w, match w.2 with Wake.Recv r => r | _ => None end) ws.
Definition written (out : list Output) : Bytes :=
  concat ((λ o, match o with Output.Write bytes => bytes | _ => [] end) <$> out).
(** The messages for frames: all but those about the socket. *)
Definition frame_sends (out : list Output) : list EngineMsg :=
  omap (λ o, match o with
             | Output.Send (EngineMsg.HalfClose _ | EngineMsg.Disconnect _) => None
             | Output.Send m => Some m
             | _ => None
             end) out.

Section conversation.
Context (l0 : Conn).
#[local] Abbreviation msgs := (omap (frame_msg (l_conn l0))).
(** The frames [fs] of the bytes read so far are worked through, their answers
    written or in the buffer. *)
Record talk (bytes : Bytes) (rs : list Response) (l : Conn) (out : list Output) (fs : list Frame) : Prop := {
  tk_conn : l_conn l = l_conn l0;
  tk_auth : l_auth l = l_auth l0;
  tk_frames : frames (l_codec l0) (l_rbuf l0 ++ bytes) =
    let '(rest, st) := frames (l_codec l) (l_rbuf l) in (fs ++ rest, st);
  tk_written : written out ++ l_wbuf l = l_wbuf l0 ++ encoded (replies_of (l_auth l0) fs rs);
}.
(** What is sent and what is outstanding. *)
Definition stage_next (rs : list Response) (out : list Output) (fs : list Frame) (next : Next) : Prop :=
  match next with
  | Next.Close => frame_sends out `prefix_of` msgs fs ∧ length rs ≤ requests fs ≤ length rs + 1
  | Next.Dispatch m => ∃ fs' f, fs = fs' ++ [f] ∧ is_request f = true ∧ frame_msg (l_conn l0) f = Some m ∧ requests fs' = length rs ∧ frame_sends out = msgs fs'
  | Next.Resume | Next.More => frame_sends out = msgs fs ∧ requests fs = length rs
  end.
Definition stage (rs : list Response) (out : list Output) (fs : list Frame) (p : Phase) : Prop :=
  match p with
  | Phase.Looping | Phase.Reading => stage_next rs out fs Next.Resume
  | Phase.Flushing next => stage_next rs out fs next
  | Phase.Awaiting => ∃ fs' f, fs = fs' ++ [f] ∧ is_request f = true ∧ requests fs' = length rs ∧ frame_sends out = msgs fs
  | Phase.Closed => stage_next rs out fs Next.Close
  end.
Definition conv (bytes : Bytes) (rs : list Response) (l : Conn) (out : list Output) (fs : list Frame) : Prop :=
  talk bytes rs l out fs ∧ stage rs out fs (l_phase l).

Lemma written_app out out' : written (out ++ out') = written out ++ written out'.
Proof. unfold written. by rewrite fmap_app, concat_app. Qed.
Lemma frame_sends_app out out' : frame_sends (out ++ out') = frame_sends out ++ frame_sends out'.
Proof. unfold frame_sends. by rewrite omap_app. Qed.
Lemma stage_close rs out out' fs next : stage_next rs out fs next → frame_sends out' = [] → stage_next rs (out ++ out') fs Next.Close.
Proof.
  intros Hs Ho. cbn. rewrite frame_sends_app, Ho, app_nil_r. destruct next as [|m| |]; cbn in Hs; [done| |by destruct Hs as [-> ->]; split; [done|lia]..].
  destruct Hs as (fs' & f & -> & Hf & _ & Hn & ->). rewrite omap_app, requests_last, Hf. split; [by eexists|]. lia.
Qed.
Lemma stage_next_ext rs out out' fs next : frame_sends out' = frame_sends out → stage_next rs out fs next → stage_next rs out' fs next.
Proof. intros Ho. destruct next; cbn [stage_next]; by rewrite Ho. Qed.
Lemma stage_weak rs out fs p : stage rs out fs p → stage_next rs out fs Next.Close.
Proof.
  assert (∀ next, stage_next rs out fs next → stage_next rs out fs Next.Close) as Hc.
  { intros next Hs. apply (stage_next_ext rs (out ++ [])); [by rewrite app_nil_r|]. by eapply stage_close. }
  destruct p as [|next| | |]; cbn [stage]; try apply (Hc Next.Resume); [apply Hc| |done].
  intros (fs' & f & -> & Hf & Hn & Ho). cbn. rewrite Ho, requests_last, Hf. split; [done|]. lia.
Qed.
(** A phase changes, and something other than bytes is put out. *)
Lemma talk_phase bytes rs l out out' fs l' :
  talk bytes rs l out fs → l_conn l' = l_conn l → l_auth l' = l_auth l → l_codec l' = l_codec l → l_rbuf l' = l_rbuf l → l_wbuf l' = l_wbuf l → written out' = [] →
  talk bytes rs l' (out ++ out') fs.
Proof. intros [Hc Ha Hf Hw] E1 E2 E3 E4 E5 E6. split; rewrite ?written_app, ?E1, ?E2, ?E3, ?E4, ?E5, ?E6, ?app_nil_r; done. Qed.
Lemma close_conv bytes rs l out fs next :
  talk bytes rs l out fs → stage_next rs out fs next → let '(l', o) := close l in conv bytes rs l' (out ++ o) fs.
Proof. intros Ht Hs. split; [by eapply talk_phase|]. by eapply stage_close. Qed.
Lemma msgs_last fs f m : frame_msg (l_conn l0) f = Some m → msgs (fs ++ [f]) = msgs fs ++ [m].
Proof. intros Hm. rewrite omap_app. cbn. by rewrite Hm. Qed.
Lemma frame_sends_msg c f m out : frame_msg c f = Some m → frame_sends (Output.Send m :: out) = m :: frame_sends out.
Proof. destruct f as [[]| | | |]; cbn; intros; by simplify_eq. Qed.
Lemma proceed_conv alive next bytes rs l out fs :
  talk bytes rs l out fs → stage_next rs out fs next → let '(l', o) := proceed alive next l in conv bytes rs l' (out ++ o) fs.
Proof.
  intros Ht Hs. pose proof (close_conv bytes rs l out fs next Ht Hs) as Hclose. destruct next as [|m| |]; cbn [proceed].
  - exact Hclose.
  - destruct alive; [|exact Hclose]. split; [eapply talk_phase; [done..|by destruct (l_eof l)]|].
    cbn [stage l_phase set_field]. destruct Hs as (fs' & f & -> & Hf & Hm & Hn & Ho). exists fs', f. split_and!; try done.
    rewrite frame_sends_app, Ho, (msgs_last _ _ _ Hm), (frame_sends_msg _ _ _ _ Hm). by destruct (l_eof l).
  - split; [by eapply talk_phase|]. by rewrite app_nil_r.
  - destruct (l_eof l); [exact Hclose|]. split; [by eapply talk_phase|]. by rewrite app_nil_r.
Qed.
Lemma flush_conv alive next bytes rs l out fs :
  talk bytes rs l out fs → stage_next rs out fs next → let '(l', o) := flush alive next l in conv bytes rs l' (out ++ o) fs.
Proof.
  intros Ht Hs. unfold flush. case_bool_decide; [by apply proceed_conv|]. destruct Ht as [Hc Ha Hf Hw]. split.
  - split; try done. rewrite written_app. cbn. by rewrite !app_nil_r.
  - apply (stage_next_ext rs out); [rewrite frame_sends_app; by rewrite app_nil_r|exact Hs].
Qed.
(** The next frame. *)
Lemma talk_frame bytes rs l out fs f codec rbuf :
  talk bytes rs l out fs → requests fs = length rs → decode (l_codec l) (l_rbuf l) = (Some f, codec, rbuf) →
  let l' := l <| l_codec := codec |> <| l_rbuf := rbuf |> in
  talk bytes rs (if is_request f then l' else match own_answer (l_auth l0) f with Some r => push r l' | None => l' end) out (fs ++ [f]).
Proof.
  intros [Hc Ha Hf Hw] Hn Hd l'. assert (frames (l_codec l0) (l_rbuf l0 ++ bytes) = let '(rest, st) := frames codec rbuf in ((fs ++ [f]) ++ rest, st)) as Hf'.
  { rewrite Hf, (frames_decode (l_codec l)), Hd. destruct (frames codec rbuf) as [rest st]. by rewrite <-(assoc_L (++)). }
  assert (∀ r, written out ++ l_wbuf (push r l') = l_wbuf l0 ++ encoded (replies_of (l_auth l0) fs rs ++ [r])) as Hpush.
  { intros r. cbn. rewrite (assoc_L (++)), Hw, encoded_app, <-(assoc_L (++)). do 2 f_equal. unfold encoded. cbn. by rewrite app_nil_r. }
  destruct (is_request f) eqn:Hr; [|destruct (own_answer (l_auth l0) f) as [r|] eqn:Ho]; split; try done.
  - rewrite replies_of_own, Hr, app_nil_r by done. exact Hw.
  - rewrite replies_of_own, Hr, Ho by done. apply Hpush.
  - rewrite replies_of_own, Hr, Ho, app_nil_r by done. exact Hw.
Qed.
Lemma frames_none c src c' src' : decode c src = (None, c', src') → frames c' src' = ([], (c', src')).
Proof.
  intros Hd. pose proof (frames_decode c src) as H1. rewrite Hd in H1. pose proof (frames_app c src []) as H2.
  rewrite app_nil_r, H1, app_nil_r in H2. destruct (frames c' src') as [l2 st]. injection H2 as <- <-. done.
Qed.
Lemma talk_none bytes rs l out fs codec rbuf :
  talk bytes rs l out fs → decode (l_codec l) (l_rbuf l) = (None, codec, rbuf) → talk bytes rs (l <| l_codec := codec |> <| l_rbuf := rbuf |>) out fs.
Proof.
  intros [Hc Ha Hf Hw] Hd. split; try done. rewrite Hf, frames_decode, Hd.
  change (l_codec (l <| l_codec := codec |> <| l_rbuf := rbuf |>)) with codec. change (l_rbuf (l <| l_codec := codec |> <| l_rbuf := rbuf |>)) with rbuf.
  by rewrite (frames_none _ _ _ _ Hd).
Qed.
Lemma talk_read bytes more rs l out fs : talk bytes rs l out fs → talk (bytes ++ more) rs (l <| l_rbuf ::= (.++ more) |>) out fs.
Proof.
  intros [Hc Ha Hf Hw]. split; try done. rewrite (assoc_L (++)), frames_app, Hf.
  change (l_codec (l <| l_rbuf ::= (.++ more) |>)) with (l_codec l). change (l_rbuf (l <| l_rbuf ::= (.++ more) |>)) with (l_rbuf l ++ more).
  rewrite frames_app. destruct (frames (l_codec l) (l_rbuf l)) as [rest [c src]]. destruct (frames c (src ++ more)) as [l2 st].
  by rewrite (assoc_L (++)).
Qed.
Lemma loop_conv alive bytes rs l out fs :
  talk bytes rs l out fs → stage rs out fs Phase.Looping → l_phase l = Phase.Looping →
  let '(l', o) := loop_turn alive l in ∃ fs', conv bytes rs l' (out ++ o) fs'.
Proof.
  intros Ht Hs Hp. pose proof Hs as [Hsend Hn]. unfold loop_turn. destruct (decode (l_codec l) (l_rbuf l)) as [[[f|] codec] rbuf] eqn:Hd.
  2: { pose proof (flush_conv alive Next.More _ _ _ _ _ (talk_none _ _ _ _ _ _ _ Ht Hd) Hs) as H1. destruct (flush _ _ _). by exists fs. }
  pose proof (talk_frame _ _ _ _ _ _ _ _ Ht Hn Hd) as Htf. cbv zeta in Htf. set (l1 := l <| l_codec := codec |> <| l_rbuf := rbuf |>) in *.
  assert (frame_msg (l_conn l0) f = None → is_request f = false → stage_next rs out (fs ++ [f]) Next.Resume) as Hidle.
  { intros Hm Hr. cbn. rewrite omap_app, requests_last, Hr. cbn. rewrite Hm, app_nil_r. split; [done|]. lia. }
  assert (is_request f = false → stage_next rs out (fs ++ [f]) Next.Close) as Hstop.
  { intros Hr. cbn. rewrite omap_app, requests_last, Hr, Hsend. split; [by eexists|]. lia. }
  assert (is_request f = true → ∀ m, frame_msg (l_conn l0) f = Some m → let '(l', o) := flush alive (Next.Dispatch m) l1 in ∃ fs', conv bytes rs l' (out ++ o) fs') as Hreq.
  { intros Hr m Hm. rewrite Hr in Htf. pose proof (flush_conv alive (Next.Dispatch m) _ _ _ _ _ Htf) as H1. destruct (flush _ _ _). eexists. apply H1.
    exists fs, f. by split_and!. }
  assert (l_conn l1 = l_conn l0) as Hc1 by apply Ht. assert (l_auth l1 = l_auth l0) as Ha1 by apply Ht.
  destruct f as [cmd|why|too_big|token|r].
  - rewrite Hc1. destruct cmd; try (by apply Hreq).
    pose proof (flush_conv alive Next.Close _ _ _ _ _ Htf (Hstop eq_refl)) as H1. destruct (flush _ _ _). by eexists.
  - rewrite Hc1. by apply Hreq.
  - destruct alive; [|eexists; by eapply (close_conv _ _ _ _ _ Next.Close); [exact Htf|apply Hstop]]. eexists. split; [by eapply talk_phase|].
    change (l_phase l1) with (l_phase l). rewrite Hp, Hc1. cbn. rewrite frame_sends_app, omap_app, Hsend. split; [done|]. rewrite requests_last, Hn. cbn. lia.
  - cbn [is_request own_answer] in Htf. rewrite Ha1. destruct (l_auth l0) as [tokens|].
    2: { eexists. by eapply (close_conv _ _ _ _ _ Next.Close); [exact Htf|apply Hstop]. }
    destruct (verify tokens token).
    + eexists. split; [rewrite app_nil_r; exact Htf|]. change (l_phase _) with (l_phase l). rewrite Hp, app_nil_r. by apply Hidle.
    + pose proof (flush_conv alive Next.Close bytes rs _ (out ++ [Output.AuthFailed]) _ (talk_phase _ _ _ _ [Output.AuthFailed] _ _ Htf eq_refl eq_refl eq_refl eq_refl eq_refl eq_refl)
        (stage_next_ext rs out (out ++ [Output.AuthFailed]) _ Next.Close ltac:(rewrite frame_sends_app; apply app_nil_r) (Hstop eq_refl))) as H1.
      destruct (flush _ _ _) as [l' o]. eexists. rewrite <-(assoc_L (++)) in H1. exact H1.
  - eexists. split; [rewrite app_nil_r; exact Htf|]. change (l_phase _) with (l_phase l). rewrite Hp, app_nil_r. by apply Hidle.
Qed.
Lemma stage_looping rs out out' fs : stage rs out fs Phase.Reading → frame_sends out' = [] → stage rs (out ++ out') fs Phase.Looping.
Proof. intros Hs Ho. by apply (stage_next_ext rs out); [rewrite frame_sends_app, Ho, app_nil_r|]. Qed.
Lemma read_conv r bytes rs l out fs :
  talk bytes rs l out fs → stage rs out fs Phase.Reading →
  let '(l', o) := read_turn r l in conv (bytes ++ match r with ReadResult.Read b => b | _ => [] end) rs l' (out ++ o) fs.
Proof.
  intros Ht Hs. pose proof (stage_looping rs out [] fs Hs eq_refl) as Hl. pose proof (close_conv _ _ _ _ _ Next.Resume Ht Hs) as Hclose.
  destruct r as [[|b more]| |]; cbn [read_turn].
  1, 3: rewrite app_nil_r; split; [by eapply talk_phase|exact Hl].
  - split; [|exact Hl]. rewrite app_nil_r. rewrite <-(app_nil_r out). by eapply talk_phase; [apply talk_read|..].
  - rewrite app_nil_r. exact Hclose.
Qed.
Lemma await_read_conv r bytes rs l out fs :
  talk bytes rs l out fs → stage rs out fs Phase.Awaiting → l_phase l = Phase.Awaiting →
  let '(l', o) := await_read r l in conv (bytes ++ match r with ReadResult.Read b => b | _ => [] end) rs l' (out ++ o) fs.
Proof.
  intros Ht Hs Hp. assert (∀ out', frame_sends out' = [] → stage rs (out ++ out') fs Phase.Awaiting) as Hw.
  { intros out' Ho. destruct Hs as (fs' & f & Hfs & Hf & Hn & Hsend). exists fs', f. by rewrite frame_sends_app, Ho, app_nil_r. }
  destruct r as [[|b more]| |]; cbn [await_read].
  1, 3, 4: rewrite app_nil_r; split; [by eapply talk_phase|]; change (l_phase _) with (l_phase l); rewrite Hp; by apply Hw.
  split; [rewrite app_nil_r; by apply talk_read|]. change (l_phase _) with (l_phase l). rewrite Hp. by apply Hw.
Qed.
Lemma recv_conv alive reply bytes rs l out fs :
  talk bytes rs l out fs → stage rs out fs Phase.Awaiting →
  let '(l', o) := await_recv alive reply l in conv bytes (rs ++ option_list reply) l' (out ++ o) fs.
Proof.
  intros Ht (fs' & f & -> & Hf & Hn & Hsend). destruct reply as [r|]; cbn [await_recv option_list].
  - apply flush_conv.
    + destruct Ht as [Hc Ha Hfr Hw]. split; try done. change (l_wbuf (push r l)) with (l_wbuf l ++ encode r). rewrite (assoc_L (++)), Hw.
      change (option_list (Some r)) with [r]. rewrite (replies_of_own _ fs' f rs), Hf, app_nil_r, replies_of_reply, encoded_app, <-(assoc_L (++)) by done. do 2 f_equal. unfold encoded. cbn. by rewrite app_nil_r.
    + cbn. rewrite Hsend, length_app, requests_last, Hf. split; [done|]. cbn. lia.
  - rewrite app_nil_r. apply (close_conv _ _ _ _ _ Next.Close Ht). cbn. rewrite Hsend, requests_last, Hf. split; [done|]. lia.
Qed.
Lemma command_turn_conv alive w bytes rs l out fs l' o :
  conv bytes rs l out fs → command_turn alive w l = Some (l', o) →
  ∃ fs', conv (bytes ++ reads [(alive, w)]) (rs ++ received [(alive, w)]) l' (out ++ o) fs'.
Proof.
  intros [Ht Hs] Hw. unfold command_turn in Hw. destruct (l_phase l) as [|next| | |] eqn:Hp, w as [|ok|r|reply]; try done.
  - injection Hw as Hw. pose proof (loop_conv alive _ _ _ _ _ Ht Hs Hp) as H1. rewrite Hw in H1. destruct H1 as [fs' H1]. exists fs'. cbn. by rewrite !app_nil_r.
  - injection Hw as Hw. exists fs. cbn. rewrite !app_nil_r. destruct ok.
    + pose proof (proceed_conv alive next _ _ _ _ _ Ht Hs) as H1. by rewrite Hw in H1.
    + pose proof (close_conv _ _ _ _ _ next Ht Hs) as H1. by rewrite Hw in H1.
  - injection Hw as Hw. exists fs. cbn. rewrite !app_nil_r. pose proof (read_conv r _ _ _ _ _ Ht Hs) as H1. rewrite Hw in H1. by destruct r.
  - destruct (reads_on l); [|done]. injection Hw as Hw. exists fs. cbn. rewrite !app_nil_r.
    pose proof (await_read_conv r _ _ _ _ _ Ht Hs Hp) as H1. rewrite Hw in H1. by destruct r.
  - injection Hw as Hw. exists fs. unfold reads, received. cbn. rewrite !app_nil_r. pose proof (recv_conv alive reply _ _ _ _ _ Ht Hs) as H1. rewrite Hw in H1.
    destruct reply; exact H1.
Qed.
Lemma conn_run_conv ws bytes rs l out fs l' o :
  conv bytes rs l out fs → conn_run ws l = Some (l', o) → ∃ fs', conv (bytes ++ reads ws) (rs ++ received ws) l' (out ++ o) fs'.
Proof.
  revert bytes rs l out fs o. induction ws as [|[alive w] ws IH]; intros bytes rs l out fs o Hc Hr; cbn [conn_run] in Hr.
  - simplify_eq. exists fs. cbn. by rewrite !app_nil_r.
  - destruct (command_turn alive w l) as [[l1 o1]|] eqn:H1; [|done]. cbn in Hr. destruct (conn_run ws l1) as [[l2 o2]|] eqn:H2; [|done]. cbn in Hr. simplify_eq.
    destruct (command_turn_conv _ _ _ _ _ _ _ _ _ Hc H1) as [fs1 Hc1]. destruct (IH _ _ _ _ _ _ Hc1 H2) as [fs2 Hc2]. exists fs2.
    rewrite <-!(assoc_L (++)) in Hc2. unfold reads, received in *. cbn in *. rewrite app_nil_r in Hc2. destruct w as [| | |[]]; exact Hc2.
Qed.
End conversation.

(** When the task waits for bytes there is no whole frame in its buffer. *)
Definition drained (l : Conn) : Prop :=
  match l_phase l with Phase.Reading | Phase.Flushing Next.More => (frames (l_codec l) (l_rbuf l)).1 = [] | _ => True end.
Lemma proceed_drained alive next l : (next = Next.More → (frames (l_codec l) (l_rbuf l)).1 = []) → drained (proceed alive next l).1.
Proof. intros Hd. destruct next as [|m| |]; cbn; [done|by destruct alive|done|]. destruct (l_eof l); [done|]. by apply Hd. Qed.
Lemma flush_drained alive next l : (next = Next.More → (frames (l_codec l) (l_rbuf l)).1 = []) → drained (flush alive next l).1.
Proof. intros Hd. unfold flush. case_bool_decide; [by apply proceed_drained|]. destruct next; try done. by apply Hd. Qed.
Lemma command_turn_drained alive w l l' o : drained l → command_turn alive w l = Some (l', o) → drained l'.
Proof.
  unfold command_turn. intros Hd Hw. destruct (l_phase l) as [|next| | |] eqn:Hp, w as [|ok|r|reply]; try done.
  - injection Hw as Hw. change l' with (l', o).1. rewrite <-Hw. unfold loop_turn. destruct (decode _ _) as [[[f|] codec] rbuf] eqn:Hf.
    + assert (drained (l <| l_codec := codec |> <| l_rbuf := rbuf |>)) as Hl by (unfold drained; change (l_phase _) with (l_phase l); by rewrite Hp).
      assert (∀ r, drained (push r (l <| l_codec := codec |> <| l_rbuf := rbuf |>))) as Hpush by (intros r; unfold drained; change (l_phase _) with (l_phase l); by rewrite Hp).
      destruct f as [[]| | |token|]; try (by apply flush_drained); try done; [by destruct alive|..].
      change (l_auth _) with (l_auth l). destruct (l_auth l) as [tokens|]; [|done]. destruct (verify tokens token); [done|].
      match goal with |- context [flush ?a ?n ?x] => pose proof (flush_drained a n x) as H1; destruct (flush a n x) end. by apply H1.
    + apply flush_drained. intros _. apply frames_none in Hf. change (frames _ _) with (frames codec rbuf). by rewrite Hf.
  - injection Hw as Hw. change l' with (l', o).1. rewrite <-Hw. destruct ok; [|done]. apply proceed_drained. intros ->. unfold drained in Hd. by rewrite Hp in Hd.
  - injection Hw as Hw. change l' with (l', o).1. rewrite <-Hw. by destruct r as [[]| |].
  - destruct (reads_on l); [|done]. injection Hw as Hw. change l' with (l', o).1. rewrite <-Hw.
    destruct r as [[]| |]; cbn [await_read fst]; unfold drained; change (l_phase _) with (l_phase l); by rewrite Hp.
  - injection Hw as Hw. change l' with (l', o).1. rewrite <-Hw. destruct reply; [by apply flush_drained|done].
Qed.
Lemma conn_run_drained ws l l' o : drained l → conn_run ws l = Some (l', o) → drained l'.
Proof.
  revert l o. induction ws as [|[alive w] ws IH]; intros l o Hd Hr; cbn [conn_run] in Hr; [by simplify_eq|].
  destruct (command_turn alive w l) as [[l1 o1]|] eqn:H1; [|done]. cbn in Hr. destruct (conn_run ws l1) as [[l2 o2]|] eqn:H2; [|done]. cbn in Hr. simplify_eq.
  by eapply IH; [eapply command_turn_drained|].
Qed.
End runs.

(** ** The login *)
Section login.
Context `{Subtle} (max_job_size : N).
Fixpoint task_run (evs : list (bool * TaskEvent)) (t : Task) : option (Task * list Output) :=
  match evs with
  | [] => Some (t, [])
  | (alive, ev) :: evs =>
      '(t, out) ← task_turn max_job_size alive ev t;
      '(t, out') ← task_run evs t;
      Some (t, out ++ out')
  end.
Definition task_reads (evs : list (bool * TaskEvent)) : Bytes :=
  concat ((λ ev, match ev.2 with TaskEvent.Woken (Wake.Read (ReadResult.Read bytes)) => bytes | _ => [] end) <$> evs).
#[local] Abbreviation login_codec := (recognize_auth (server_codec max_job_size)).
Context (tokens : TokenSet).
(** The first frame of the stream is a token of the set. *)
Definition token_first (bytes : Bytes) : Prop :=
  ∃ token, head (frames login_codec bytes).1 = Some (Frame.Auth token) ∧ verify tokens token = true.
Definition logging_in (bytes : Bytes) (t : Task) (out : list Output) : Prop :=
  match t with
  | Task.Handshaking auth => auth = TlsAuth.Token tokens ∧ bytes = [] ∧ sends out = []
  | Task.Authenticating g =>
      g_tokens g = tokens ∧ sends out = [] ∧ (g_phase g = AuthPhase.Looping ∨ g_phase g = AuthPhase.Reading → frames login_codec bytes = frames (g_codec g) (g_rbuf g))
  | Task.Gone => sends out = [] ∨ token_first bytes
  | _ => token_first bytes
  end.
Lemma token_first_app bytes more : token_first bytes → token_first (bytes ++ more).
Proof.
  intros (token & Hh & Hv). exists token. split; [|done]. rewrite frames_app. destruct (frames login_codec bytes) as [[|f fs] [c src]]; [done|].
  destruct (frames c (src ++ more)). exact Hh.
Qed.
Lemma sends_app out out' : sends (out ++ out') = sends out ++ sends out'.
Proof. unfold sends. by rewrite omap_app. Qed.
Lemma leave_logging bytes g o out :
  g_tokens g = tokens → sends out = [] → sends o = [] → logging_in bytes (leave g o).1 (out ++ o).
Proof. intros Hg Ho H1. split_and!; [done|by rewrite sends_app, Ho|by intros []]. Qed.
Lemma login_logging bytes g out t o :
  logging_in bytes (Task.Authenticating g) out → g_phase g = AuthPhase.Looping → login_turn g = (t, o) → logging_in bytes t (out ++ o).
Proof.
  intros (Ht & Ho & Hf) Hp Hl. specialize (Hf (or_introl Hp)). unfold login_turn in Hl.
  destruct (decode (g_codec g) (g_rbuf g)) as [[[f|] codec] rbuf] eqn:Hd.
  - assert (∀ g', g_tokens g' = tokens → unauthorized g' = (t, o) → logging_in bytes t (out ++ o)) as Hun.
    { intros g' Hg [= <- <-]. split_and!; [done|by rewrite sends_app, Ho|by intros []]. }
    destruct f as [[]| | |token|]; try (by eapply Hun; [|exact Hl]); try (injection Hl as <- <-; by apply leave_logging).
    change (g_tokens (g <| g_codec := codec |> <| g_rbuf := rbuf |>)) with (g_tokens g) in Hl. rewrite Ht in Hl.
    destruct (verify tokens token) eqn:Hv; [|by eapply Hun; [|exact Hl]]. injection Hl as <- <-.
    exists token. split; [|done]. rewrite Hf, frames_decode, Hd. by destruct (frames codec rbuf).
  - simplify_eq. split_and!; [done|by rewrite app_nil_r|]. intros _. rewrite Hf, frames_decode, Hd. symmetry. exact (frames_none _ _ _ _ Hd).
Qed.
Lemma task_turn_logging bytes t out alive ev t' o :
  logging_in bytes t out → task_turn max_job_size alive ev t = Some (t', o) → logging_in (bytes ++ task_reads [(alive, ev)]) t' (out ++ o).
Proof.
  intros Hi Hw. destruct t as [auth|g|codec rbuf wbuf auth|l|].
  - destruct Hi as (-> & -> & Ho). destruct ev as [[]| | |]; try done; injection Hw as <- <-.
    + split_and!; [done|by rewrite sends_app, Ho|done].
    + left. by rewrite sends_app, Ho.
  - destruct ev as [| | |w]; try done; cbn [task_turn] in Hw.
    + destruct Hi as (Ht & Ho & _). destruct (g_phase g); try done; injection Hw as <- <-; by apply leave_logging.
    + unfold authenticate in Hw. destruct (g_phase g) eqn:Hp, w as [| |r|]; try done.
      * injection Hw as Hw. rewrite app_nil_r. exact (login_logging _ _ _ _ _ Hi Hp Hw).
      * destruct Hi as (Ht & Ho & Hf). destruct r as [[|b more]| |]; injection Hw as <- <-; try (by apply leave_logging).
        split_and!; [done|by rewrite app_nil_r|]. intros _. change (task_reads _) with ((b :: more) ++ []).
        rewrite app_nil_r, frames_app, Hf by (by right). symmetry. exact (frames_app (g_codec g) (g_rbuf g) (b :: more)).
      * destruct Hi as (Ht & Ho & _). injection Hw as <- <-. by apply leave_logging.
      * destruct Hi as (_ & Ho & _). injection Hw as <- <-. left. by rewrite sends_app, Ho.
  - destruct ev; try done. cbn in Hw. assert (token_first (bytes ++ [])) by (by apply token_first_app). destruct alive; simplify_eq; [done|by right].
  - destruct ev as [| | |w]; try done. cbn in Hw. destruct (command_turn alive w l) as [[l1 o1]|]; [|done]. cbn in Hw. simplify_eq. by apply token_first_app.
  - by destruct ev.
Qed.
Lemma task_run_logging evs bytes t out t' o :
  logging_in bytes t out → task_run evs t = Some (t', o) → logging_in (bytes ++ task_reads evs) t' (out ++ o).
Proof.
  revert bytes t out o. induction evs as [|[alive ev] evs IH]; intros bytes t out o Hi Hr; cbn [task_run] in Hr.
  - simplify_eq. unfold task_reads. cbn. by rewrite !app_nil_r.
  - destruct (task_turn max_job_size alive ev t) as [[t1 o1]|] eqn:H1; [|done]. cbn in Hr. destruct (task_run evs t1) as [[t2 o2]|] eqn:H2; [|done]. cbn in Hr. simplify_eq.
    specialize (IH _ _ _ _ (task_turn_logging _ _ _ _ _ _ _ Hi H1) H2). rewrite <-!(assoc_L (++)) in IH. unfold task_reads in *. cbn in *. by rewrite app_nil_r in IH.
Qed.
End login.
