(* ===== verification/Server.v ===== *)
(** * The server

    The parts of one process that talk to each other ([server/main.rs]): the
    accept loops, the connection tasks, the engine's channel, the engine actor
    and the reply channels.  A step of the server is one of them running from
    one [await] to the next; [server_step] says what it does to the whole.
    [sv_ended] is [Waiting] while the actor runs.  With a log the actor is a
    thread that takes one message at a time; without, a task that takes what is
    queued, up to a limit. *)

From S2P Require Import Prelude Ms Proto Stats Parse Codec Reply Model Format Engine Snapshot Replay Scan Wal Recover Actor Auth Conn.
From stdpp Require Import options.

Record Server (S : Type) := mkServer {
  sv_clock : Clock; sv_actor : Actor S; sv_ended : Ended; sv_queue : list EngineMsg;
  sv_tasks : list Task; sv_replies : gmap ConnId (list Response); sv_next_id : ConnId;
  sv_counters : ServerCounters; sv_serving : bool;
}.
Arguments mkServer {_} _ _ _ _ _ _ _ _ _.
Arguments sv_clock {_} _.
Arguments sv_actor {_} _.
Arguments sv_ended {_} _.
Arguments sv_queue {_} _.
Arguments sv_tasks {_} _.
Arguments sv_replies {_} _.
Arguments sv_next_id {_} _.
Arguments sv_counters {_} _.
Arguments sv_serving {_} _.

(** What the server does next.  [Recv] of a task gets what its reply channel
    has and [Admit] the next id; the times are readings of the clock. *)
Module Event.
Inductive Event :=
  | AcceptPlain (registered : bool)
  | AcceptTls (auth : TlsAuth) (now : N)
  | Task (i : nat) (ev : TaskEvent)
  | Turn (t0 t : N)
  | Timer (t0 t : N)
  | Batch (t : N) (ts : list N)
  | Snapshot (max_tubes : nat)
  | SigUsr1
  | Stop.
End Event.
Abbreviation Event := Event.Event (only parsing).

(** [ConnIds::Local]. *)
Definition ConnIds_first : ConnId := 1.
Definition ConnIds_next (n : ConnId) : ConnId * ConnId := (n, incr64 n).

Section server.
Context `{Subtle} {S : Type} `{Log S} (max_job_size : N).
Implicit Types (s : Server S) (a : Actor S).

(** ** Channels *)
Definition alive s : bool := match sv_ended s with Waiting => true | _ => false end.
Definition with_queue (q : list EngineMsg) s : Server S :=
  mkServer (sv_clock s) (sv_actor s) (sv_ended s) q (sv_tasks s) (sv_replies s) (sv_next_id s) (sv_counters s) (sv_serving s).
Definition with_tasks (ts : list Task) s : Server S :=
  mkServer (sv_clock s) (sv_actor s) (sv_ended s) (sv_queue s) ts (sv_replies s) (sv_next_id s) (sv_counters s) (sv_serving s).
Definition with_replies (r : gmap ConnId (list Response)) s : Server S :=
  mkServer (sv_clock s) (sv_actor s) (sv_ended s) (sv_queue s) (sv_tasks s) r (sv_next_id s) (sv_counters s) (sv_serving s).
Definition with_counters (c : ServerCounters) s : Server S :=
  mkServer (sv_clock s) (sv_actor s) (sv_ended s) (sv_queue s) (sv_tasks s) (sv_replies s) (sv_next_id s) c (sv_serving s).
(** [EngineHandle::send]; a message sent to no one is lost. *)
Definition send (msg : EngineMsg) s : Server S := if alive s then with_queue (sv_queue s ++ [msg]) s else s.
Definition channel s (c : ConnId) : list Response := default [] (sv_replies s !! c).
(** The sender of a reply channel is in the actor, or in the message that
    takes it there. *)
Definition sender s (c : ConnId) : bool :=
  alive s && (bool_decide (c ∈ a_conns (sv_actor s)) || existsb (λ m, bool_decide (m = EngineMsg.Connect c)) (sv_queue s)).
(** What [recv] returns, if it returns. *)
Definition recv s (c : ConnId) : option (option Response) :=
  match channel s c with
  | r :: _ => Some (Some r)
  | [] => if sender s c then None else Some None
  end.
Definition reply_to (s : Server S) (x : Sent) : Server S :=
  match x with
  | Sent.Reply c r => with_replies (<[c := channel s c ++ [r]]> (sv_replies s)) s
  | _ => s
  end.

(** ** Connection tasks *)
Definition output (s : Server S) (o : Output) : Server S :=
  match o with
  | Output.Send msg => send msg s
  | Output.Write _ => s
  | Output.AuthFailed => with_counters (auth_failed (sv_counters s)) s
  | Output.AuthTimedOut => with_counters (auth_timed_out (sv_counters s)) s
  | Output.DropPending => with_counters (drop_pending (sv_counters s)) s
  end.
(** The id taken for a new connection. *)
Definition take_id s : ConnId * Server S :=
  let '(conn, n) := ConnIds_next (sv_next_id s) in
  (conn, mkServer (sv_clock s) (sv_actor s) (sv_ended s) (sv_queue s) (sv_tasks s) (sv_replies s) n (sv_counters s) (sv_serving s)).
Definition accept_plain (registered : bool) s : Server S :=
  let '(conn, s) := take_id s in
  if alive s then
    let s := send (EngineMsg.Connect conn) s in
    let '(task, out) := handle_plain max_job_size registered conn in
    foldl output (with_tasks (sv_tasks s ++ [task]) s) out
  else s.
Definition accept_tls (auth : TlsAuth) (now : N) s : Server S :=
  let '(ok, _, counters) := try_acquire now (sv_counters s) in
  let s := with_counters counters s in
  if ok then with_tasks (sv_tasks s ++ [Task.Handshaking auth]) s else s.
(** What the rest of the server does for a task that runs. *)
Definition serve_task (ev : TaskEvent) (t : Task) s : option (Server S) :=
  match ev, t with
  | TaskEvent.Admit conn, _ => let '(c, s) := take_id s in if (conn =? c)%N then Some s else None
  | TaskEvent.Woken (Wake.Recv reply), Task.Serving l =>
      if bool_decide (recv s (l_conn l) = Some reply) then Some (with_replies (<[l_conn l := tail (channel s (l_conn l))]> (sv_replies s)) s)
      else None
  | _, _ => Some s
  end.
Definition run_conn (i : nat) (ev : TaskEvent) s : option (Server S) :=
  t ← sv_tasks s !! i;
  s ← serve_task ev t s;
  '(t, out) ← task_turn max_job_size (alive s) ev t;
  Some (foldl output (with_tasks (<[i := t]> (sv_tasks s)) s) out).

(** ** The actor *)
(** The actor has run; a returned one has dropped its end of the channel. *)
Definition settle (r : Ended) a (sent : list Sent) (queue : list EngineMsg) s : Server S :=
  let queue := match r with Waiting => queue | _ => [] end in
  foldl reply_to
    (mkServer (sv_clock s) a r queue (sv_tasks s) (sv_replies s) (sv_next_id s) (sv_counters s) (sv_serving s)) sent.
(** [run]: the next message. *)
Definition run_thread (t0 t : N) s : option (Server S) :=
  match sv_queue s with
  | [] => None
  | msg :: queue =>
      let '(r, a, sent) := run_turn (Clock_now (sv_clock s) t) t0 t (Got msg) (sv_actor s) in Some (settle r a sent queue s)
  end.
(** The wait ends without a message. *)
Definition run_timer (t0 t : N) s : option (Server S) :=
  let now := Clock_now (sv_clock s) t in
  let due := match a_binlog (sv_actor s) with
             | Some _ => bool_decide (sv_queue s = []) && bool_decide (is_Some (next_wait now t (sv_actor s)))
             | None => bool_decide (is_Some (next_deadline (a_engine (sv_actor s))))
             end in
  if due then let '(r, a, sent) := run_turn now t0 t TimedOut (sv_actor s) in Some (settle r a sent (sv_queue s) s) else None.
(** [run_task]: the messages at hand, each at its time. *)
Definition run_batch (t : N) (ts : list N) s : option (Server S) :=
  let n := length ts in
  if (1 <=? n)%nat && (n <=? length (sv_queue s))%nat then
    let '(r, a, sent, rest) := run_task_turn t (zip (Clock_now (sv_clock s) <$> ts) (take n (sv_queue s))) (sv_actor s) in
    Some (settle r a sent (rest.*2 ++ drop n (sv_queue s)) s)
  else None.

(** ** Steps *)
Definition stop s : Server S :=
  let s := send EngineMsg.Shutdown s in
  mkServer (sv_clock s) (sv_actor s) (sv_ended s) (sv_queue s) (sv_tasks s) (sv_replies s) (sv_next_id s) (sv_counters s) false.
(** [None]: the server cannot do this now.  An actor that failed has ended the
    process. *)
Definition server_step (ev : Event) s : option (Server S) :=
  match sv_ended s, ev with
  | Failed _, _ => None
  | _, Event.AcceptPlain registered => if sv_serving s then Some (accept_plain registered s) else None
  | _, Event.AcceptTls auth now => if sv_serving s then Some (accept_tls auth now s) else None
  | _, Event.Task i ev => run_conn i ev s
  | Waiting, Event.Turn t0 t => if bool_decide (is_Some (a_binlog (sv_actor s))) then run_thread t0 t s else None
  | Waiting, Event.Timer t0 t => run_timer t0 t s
  | Waiting, Event.Batch t ts => if bool_decide (a_binlog (sv_actor s) = None) then run_batch t ts s else None
  | _, Event.Snapshot max_tubes => Some (send (EngineMsg.Snapshot max_tubes) s)
  | _, Event.SigUsr1 => if sv_serving s then Some (send (EngineMsg.SetDraining true) s) else None
  | _, Event.Stop => if sv_serving s then Some (stop s) else None
  | _, _ => None
  end.
Fixpoint server_run (evs : list Event) s : option (Server S) :=
  match evs with
  | [] => Some s
  | ev :: evs => s ← server_step ev s; server_run evs s
  end.
(** [serve], with the actor that [start_engine] started. *)
Definition serve (clock : Clock) (max_pending : N) a : Server S :=
  mkServer clock a Waiting [] [] ∅ ConnIds_first (ServerCounters_new max_pending) true.
End server.

(** ** The start *)
Definition EXIT_STARTUP : N := 1.
Definition EXIT_LOCKED : N := 10.
Definition engine_config (max_job_size file_size : N) : EngineConfig := mkEngineConfig max_job_size file_size false.
Module Startup.
Inductive Startup := Started (a : Actor (Inner * World)) | Exit (code : N) | Panicked.
End Startup.
Abbreviation Startup := Startup.Startup (only parsing).
(** [binlog]: the options of the log, whether another process has it, and the
    world its directory is in. *)
Definition start_engine (record_crc : Bytes → Bytes → N) (now : Nanos) (sys : SysSnapshot) (cfg : EngineConfig) (limit : option nat)
    (binlog : option (N * SyncPolicy * bool * World)) : Startup :=
  let started a := match a with Some a => Startup.Started a | None => Startup.Panicked end in
  match binlog with
  | None => started (@Actor_new _ (Wal_log record_crc) (Engine_new now cfg sys) None)
  | Some (file_size, sync, locked, wd) =>
      match open record_crc locked file_size sync limit wd with
      | (inr WalError.Locked, _) => Startup.Exit EXIT_LOCKED
      | (inr WalError.Panic, _) => Startup.Panicked
      | (inr _, _) => Startup.Exit EXIT_STARTUP
      | (inl recovery, wal) =>
          let cfg := mkEngineConfig (cfg_max_job_size cfg) (cfg_binlog_max_size cfg) true in
          started (@Actor_new _ (Wal_log record_crc) (recover now cfg sys recovery) (Some (wal, sync)))
      end
  end.
