(* ===== verification/ServerInv.v ===== *)
(** * What holds while the server runs

    For every connection, the messages in the engine's channel, the engine and
    the reply channel agree with the connection's task: [acct].  A task that
    awaits a reply has exactly one command that is queued, owed a reply by the
    engine or answered on the channel, and any other task has none; the
    engine knows a connection from its [Connect] to its [Disconnect]; and a
    client that has stopped sending is not left waiting for a job. *)

From S2P Require Import Prelude Ms Proto Stats Parse Codec Reply Model Format Engine Frames Inv InvFrame InvRefresh Queues Moves Tubes.
From S2P Require Import Waiting Rest Dispatch ConnOps Commands Sessions Connect Tick Reach Serve Effects.
From S2P Require Import Keep Sized Replica Once Seats Snapshot Replay Scan Wal Recover Actor Durable Auth Conn Server.
From stdpp Require Import options.

(** ** One connection's messages *)
Definition msg_conn (m : EngineMsg) : option ConnId :=
  match m with
  | EngineMsg.Connect c | EngineMsg.Command c _ | EngineMsg.PutStarted c _ | EngineMsg.PutRejected c _
  | EngineMsg.HalfClose c | EngineMsg.Disconnect c => Some c
  | EngineMsg.SetDraining _ | EngineMsg.Snapshot _ | EngineMsg.Shutdown => None
  end.
(** Whether the engine knows [c] after a message; [None]: [c] sent it before
    its [Connect] or after its [Disconnect]. *)
Definition follow1 (c : ConnId) (known : option bool) (m : EngineMsg) : option bool :=
  known ← known;
  if bool_decide (msg_conn m = Some c) then
    match m with
    | EngineMsg.Connect _ => if (known : bool) then None else Some true
    | EngineMsg.Disconnect _ => if known then Some false else None
    | _ => if known then Some true else None
    end
  else Some known.
Definition follow (c : ConnId) (known : bool) (q : list EngineMsg) : option bool := foldl (follow1 c) (Some known) q.
Definition asks_msg (c : ConnId) (m : EngineMsg) : bool := asks (input_of m) c.
Definition asked_in (c : ConnId) (q : list EngineMsg) : nat := length (filter (λ m, asks_msg c m = true) q).
(** Whether [c] may wait for a job after the messages. *)
Definition may_wait1 (c : ConnId) (w : bool) (m : EngineMsg) : bool :=
  match m with
  | EngineMsg.HalfClose k => if bool_decide (k = c) then false else w
  | _ => asks_msg c m || w
  end.
Definition may_wait (c : ConnId) (w : bool) (q : list EngineMsg) : bool := foldl (may_wait1 c) w q.
Definition msg_ok (m : EngineMsg) : bool :=
  input_ok (input_of m) && match m with EngineMsg.Command _ Command.Quit => false | _ => true end.

Lemma follow_None c q : foldl (follow1 c) None q = None.
Proof. induction q as [|m q IH]; [done|]. exact IH. Qed.
Lemma follow_cons c known m q : follow c known (m :: q) = (follow1 c (Some known) m ≫= λ k, follow c k q).
Proof. unfold follow. cbn [foldl]. destruct (follow1 c (Some known) m); [done|]. apply follow_None. Qed.
Lemma follow_app c known q m : follow c known (q ++ [m]) = follow1 c (follow c known q) m.
Proof. unfold follow. by rewrite foldl_app. Qed.
Lemma follow1_other c known m : msg_conn m ≠ Some c → follow1 c known m = known.
Proof. intros Hm. unfold follow1. rewrite bool_decide_eq_false_2 by done. by destruct known. Qed.
Lemma asked_in_cons c m q : asked_in c (m :: q) = (if asks_msg c m then 1 else 0) + asked_in c q.
Proof. unfold asked_in. rewrite filter_cons. by destruct (asks_msg c m). Qed.
Lemma asked_in_app c q1 q2 : asked_in c (q1 ++ q2) = asked_in c q1 + asked_in c q2.
Proof. unfold asked_in. by rewrite filter_app, length_app. Qed.
Lemma asks_conn c m : asks_msg c m = true → msg_conn m = Some c.
Proof. destruct m; unfold asks_msg; cbn; try done; rewrite bool_decide_eq_true; naive_solver. Qed.
Lemma may_wait_app c w q m : may_wait c w (q ++ [m]) = may_wait1 c (may_wait c w q) m.
Proof. unfold may_wait. by rewrite foldl_app. Qed.
Lemma may_wait_mono c q w w' : (w' = true → w = true) → may_wait c w q = false → may_wait c w' q = false.
Proof.
  revert w w'. induction q as [|m q IH]; intros w w' Hw; cbn [may_wait foldl].
  - intros ->. destruct w'; [|done]. by specialize (Hw eq_refl).
  - apply IH. unfold may_wait1. destruct m; rewrite ?orb_true_iff; try tauto. by case_bool_decide.
Qed.
Lemma may_wait1_other c w m : msg_conn m ≠ Some c → may_wait1 c w m = w.
Proof.
  intros Hm. unfold may_wait1. assert (asks_msg c m = false) as Ha by (apply not_true_iff_false; by intros ?%asks_conn).
  destruct m; rewrite ?Ha; try done. rewrite bool_decide_eq_false_2; [done|]. intros ->. by apply Hm.
Qed.

(** A queue that does not mention [c], or announces nothing of it. *)
Lemma unmentioned c w q : Forall (λ m, msg_conn m ≠ Some c) q → may_wait c w q = w ∧ asked_in c q = 0.
Proof.
  induction 1 as [|m q Hm _ IH]; [done|]. cbn [may_wait foldl]. rewrite may_wait1_other, asked_in_cons by done.
  destruct (asks_msg c m) eqn:Ha; [by apply asks_conn in Ha|]. exact IH.
Qed.
Lemma follow_quiet c known q k : follow c known q = Some k → EngineMsg.Connect c ∉ q → EngineMsg.Disconnect c ∉ q → known = k.
Proof.
  induction q as [|m q IH]; [by intros [= ->]|]. rewrite follow_cons, !not_elem_of_cons. intros Hf [Hc Hcq] [Hd Hdq].
  assert (∀ k', follow1 c (Some known) m = Some k' → k' = known) as H1.
  { unfold follow1. cbn [mbind option_bind]. intros k'. case_bool_decide as Hm; [|by intros [= ->]]. destruct m; cbn in Hm; simplify_eq; by destruct known; intros [= <-]. }
  destruct (follow1 c (Some known) m) as [k'|]; [|done]. rewrite (H1 k' eq_refl) in Hf. by apply IH.
Qed.

(** ** One connection's account *)
Definition opened (v : option Conn) : bool :=
  match v with Some l => match l_phase l with Phase.Closed => false | _ => true end | None => false end.
Definition awaiting (v : option Conn) : bool :=
  match v with Some l => match l_phase l with Phase.Awaiting => true | _ => false end | None => false end.
Definition half_closed (v : option Conn) : bool := match v with Some l => l_eof l | None => false end.
(** [q] is the engine's channel, [s] the engine and the replies it has not
    delivered, [chan] the reply channel, [v] the task. *)
Record acct (c : ConnId) (q : list EngineMsg) (s : Engine * Outbox) (chan : list Response) (v : option Conn) : Prop := {
  ac_known : follow c (bool_decide (c ∈ seats s.1)) q = Some (opened v);
  ac_ledger : asked_in c q + due c s + length chan = if awaiting v then 1 else 0;
  ac_left : EngineMsg.Disconnect c ∈ q → ∃ l, v = Some l ∧ l_phase l = Phase.Closed;
  ac_absent : c ∉ seats s.1 → due c s = 0;
  ac_half : awaiting v = true → half_closed v = true → may_wait c (conn_waiting s.1 c) q = false;
}.
Lemma awaiting_opened v : awaiting v = true → opened v = true.
Proof. destruct v as [l|]; [|done]. cbn. by destruct (l_phase l). Qed.
Lemma owed_le e e' c : owed (rels e') c ≤ owed (rels e) c → conn_waiting e' c = true → conn_waiting e c = true.
Proof. rewrite !owed_waiting. destruct (conn_waiting e' c), (conn_waiting e c); (done || lia). Qed.
Lemma half_close_idle b now c e out :
  Inv b e → budget_ok (grow b) → legal now (EngineInput.HalfClose c) e = true → answers_all e →
  conn_waiting (apply_input now (EngineInput.HalfClose c) (e, out)).1 c = false.
Proof.
  intros HI Hb Hl Ha. destruct (Inv_run_input b now _ e out HI Hb Hl) as [n HI1].
  destruct (node_run_input now (EngineInput.HalfClose c) (mkLocalConns 0 0) (e, out) Ha) as [_ Ha1].
  unfold apply_input. destruct (fine_tick _ now _ HI1 Ha1) as (_ & _ & Hlev). destruct (Hlev c) as [Hd Hm]. unfold due in Hd.
  apply not_true_iff_false. intros Hw. assert (owed (rels (run_input now (EngineInput.HalfClose c) (e, out)).1) c = 0) as H0.
  { rewrite owed_waiting. cbn [run_input]. unfold half_close. destruct (conn_waiting e c) eqn:Hc; [|cbn [fst]; by rewrite Hc].
    rewrite reply_fst. cbn [fst]. unfold conn_waiting, do_remove_waiting_conn in *. destruct (e_conns e !! c) as [k|] eqn:Hk; [|done].
    destruct (conn_remove_waiting _ _ _ Hk) as (k' & Hk' & Hw'). unfold do_remove_waiting_conn in Hk'. rewrite Hk in Hk'. by rewrite Hk', Hw'. }
  rewrite H0 in Hd. rewrite owed_waiting, Hw in Hd. lia.
Qed.
Lemma given_asks m i c : given m i → msg_ok m = true → asks i c = asks_msg c m ∧ leaves i c = leaves (input_of m) c.
Proof.
  intros [->|(k & pri & delay & ttr & body & -> & ->)] Hok; [done|]. split; [|done]. unfold asks_msg. cbn. apply bool_decide_ext. naive_solver.
Qed.
Lemma given_seats m i e : given m i → seats_after i e = seats_after (input_of m) e.
Proof. by intros [->|(k & pri & delay & ttr & body & -> & ->)]. Qed.
Lemma follow1_seats c m e k :
  follow1 c (Some (bool_decide (c ∈ seats e))) m = Some k → k = bool_decide (c ∈ seats_after (input_of m) e).
Proof.
  unfold follow1. cbn [mbind option_bind]. destruct (decide (msg_conn m = Some c)) as [Hm|Hm].
  - rewrite (bool_decide_eq_true_2 _ Hm). destruct (decide (c ∈ seats e)) as [Hc|Hc]; [rewrite (bool_decide_eq_true_2 _ Hc)|rewrite (bool_decide_eq_false_2 _ Hc)];
      destruct m; try done; injection Hm as ->; intros [= <-]; symmetry; cbn [seats_after input_of];
      (apply bool_decide_eq_true_2 || apply bool_decide_eq_false_2); set_solver.
  - rewrite (bool_decide_eq_false_2 _ Hm). intros [= <-]. apply bool_decide_ext. destruct m; cbn [seats_after input_of msg_conn] in *; try done; set_solver.
Qed.
Lemma asks_known c m e k : follow1 c (Some (bool_decide (c ∈ seats e))) m = Some k → asks_msg c m = true → c ∈ seats e.
Proof.
  intros Hk Ha. pose proof (asks_conn _ _ Ha) as Hm. unfold follow1 in Hk. cbn [mbind option_bind] in Hk. rewrite (bool_decide_eq_true_2 _ Hm) in Hk.
  case_bool_decide; [done|]. destruct m; try done; by unfold asks_msg in Ha.
Qed.
Lemma may_wait1_step b now m i e out c :
  Inv b e → budget_ok (grow b) → legal now i e = true → answers_all e → given m i →
  let e' := (apply_input now i (e, out)).1 in
  (asks_msg c m = false → owed (rels e') c ≤ owed (rels e) c) → (conn_waiting e' c = true → may_wait1 c (conn_waiting e c) m = true).
Proof.
  intros HI Hb Hl Ha Hg e' Ho. destruct (asks_msg c m) eqn:Hasks.
  - intros _. unfold may_wait1. destruct m; rewrite ?Hasks; done.
  - specialize (Ho eq_refl). unfold may_wait1. destruct m; rewrite ?Hasks; cbn [orb]; try (by apply owed_le).
    case_bool_decide; [|by apply owed_le]. subst. destruct Hg as [->|(? & ? & ? & ? & ? & ? & _)]; [|done].
    intros Hw. pose proof (half_close_idle b now c e out HI Hb Hl Ha) as Hi. unfold e' in Hw. cbn [input_of] in Hw. congruence.
Qed.
(** The engine takes the next message. *)
Lemma acct_pop b now m i q e out chan v c :
  Inv b e → budget_ok (grow b) → legal now i e = true → answers_all e → given m i → msg_ok m = true →
  acct c (m :: q) (e, out) chan v → acct c q (apply_input now i (e, out)) chan v.
Proof.
  intros HI Hb Hl Ha Hg Hok [Hk Hled Hleft Habs Hhalf]. destruct (due_apply b now i e out c HI Hb Hl Ha) as (Hd & Hm & _).
  destruct (given_asks m i c Hg Hok) as [Hasks Hleaves]. pose proof (seats_input now i (e, out)) as Hs. rewrite (given_seats m i _ Hg) in Hs.
  rewrite follow_cons in Hk. rewrite asked_in_cons in Hled. unfold expected in Hd. rewrite Hasks, Hleaves in Hd. cbn [fst snd] in *.
  destruct (follow1 c (Some (bool_decide (c ∈ seats e))) m) as [k|] eqn:Hk1; [|done]. cbn [mbind option_bind] in Hk.
  pose proof (follow1_seats _ _ _ _ Hk1) as Hk2. rewrite <-Hs in Hk2. pose proof (asks_known _ _ _ _ Hk1) as Hknown.
  assert (due c (apply_input now i (e, out)) = due c (e, out) + (if asks_msg c m then 1 else 0)) as Hd'.
  { rewrite Hd. f_equal.
    - destruct (leaves (input_of m) c) eqn:Hlv; [|done]. assert (awaiting v = false) as Hv.
      { destruct m; try done. cbn in Hlv. apply bool_decide_eq_true in Hlv as ->. destruct Hleft as (l & -> & Hc); [left|]. cbn. by rewrite Hc. }
      rewrite Hv in Hled. unfold due in *. cbn [fst snd] in *. lia.
    - destruct (asks_msg c m); [|done]. cbn [andb]. rewrite bool_decide_eq_true_2; [done|]. apply elem_of_dom. by apply Hknown. }
  split.
  - by rewrite <-Hk2.
  - rewrite <-Hled, Hd'. lia.
  - intros Hin. apply Hleft. by right.
  - intros Hns. rewrite Hd'. rewrite bool_decide_eq_false_2 in Hk2 by done. subst k. destruct (decide (c ∈ seats e)) as [Hc|Hc].
    + assert (m = EngineMsg.Disconnect c) as ->.
      { rewrite bool_decide_eq_true_2 in Hk1 by done. destruct (decide (msg_conn m = Some c)) as [Hmc|Hmc]; [|by rewrite follow1_other in Hk1]. unfold follow1 in Hk1. cbn [mbind option_bind] in Hk1.
        rewrite bool_decide_eq_true_2 in Hk1 by done. destruct m; cbn in *; by simplify_eq. }
      destruct Hleft as (l & -> & Hcl); [left|]. cbn in Hled. rewrite Hcl in Hled. cbn. lia.
    + rewrite (Habs Hc). destruct (asks_msg c m); [by destruct (Hc (Hknown eq_refl))|done].
  - intros Hv Hh. specialize (Hhalf Hv Hh). cbn [may_wait foldl] in Hhalf. eapply may_wait_mono; [|exact Hhalf].
    eapply may_wait1_step; try done. intros Hna. rewrite Hna in Hd'. unfold due in Hd'. cbn [fst snd] in *. lia.
Qed.
(** A message of no connection. *)
Lemma acct_skip c m q s chan v : msg_conn m = None → acct c q s chan v → acct c (m :: q) s chan v.
Proof.
  intros Hm [Hk Hled Hleft Habs Hhalf]. assert (msg_conn m ≠ Some c) as Hmc by congruence.
  split; [..|done|].
  - by rewrite follow_cons, follow1_other.
  - rewrite asked_in_cons. destruct (asks_msg c m) eqn:Ha; [|done]. by apply asks_conn in Ha.
  - intros [<-|Hin]%elem_of_cons; [done|auto].
  - intros Hv Hh. cbn [may_wait foldl]. rewrite may_wait1_other by done. auto.
Qed.
Lemma acct_conns c q e e' out chan v : e_conns e' = e_conns e → acct c q (e, out) chan v → acct c q (e', out) chan v.
Proof.
  intros He [Hk Hled Hleft Habs Hhalf]. assert (rels e' = rels e) as Hr by (unfold rels; by rewrite He).
  assert (seats e' = seats e) as Hs by (by apply seats_conns). assert (conn_waiting e' c = conn_waiting e c) as Hw by (unfold conn_waiting; by rewrite He).
  unfold due in *. cbn [fst snd] in *. split; unfold due; cbn [fst snd]; by rewrite ?Hs, ?Hr, ?Hw.
Qed.
(** The replies go to the channels of the connections the engine knows. *)
Lemma acct_deliver c q e out chan v new :
  length new = (if bool_decide (c ∈ seats e) then sent_to c out else 0) → acct c q (e, out) chan v → acct c q (e, []) (chan ++ new) v.
Proof.
  intros Hn [Hk Hled Hleft Habs Hhalf]. cbn [fst snd] in *. split; try done.
  - rewrite <-Hled, length_app, Hn. unfold due. cbn [fst snd]. change (sent_to c []) with 0. case_bool_decide as Hc; [lia|].
    specialize (Habs Hc). unfold due in Habs. cbn [fst snd] in Habs. lia.
  - intros Hc. specialize (Habs Hc). unfold due in *. cbn [fst snd] in *. change (sent_to c []) with 0. lia.
Qed.
(** What the next message is to the engine. *)
Lemma acct_legal now m q e out :
  (∀ c, ∃ chan v, acct c (m :: q) (e, out) chan v) → msg_ok m = true → (now ≤ u64_max)%N → (N.of_nat (size (seats e)) + 1 < 2 ^ 32)%N →
  legal now (input_of m) e = true.
Proof.
  intros Hacct [Hin Hq]%andb_true_iff Hnow%N.leb_le Hsize. unfold legal. rewrite Hnow. cbn [andb].
  destruct m as [c|c cmd| | | | | | |]; try done; cbn [input_of].
  - destruct (Hacct c) as (chan & v & [Hk _ _ _ _]). rewrite follow_cons in Hk. unfold follow1 in Hk. cbn [mbind option_bind msg_conn fst] in Hk.
    rewrite (bool_decide_eq_true_2 (Some c = Some c)) in Hk by done. rewrite andb_true_iff, bool_decide_eq_true, N.ltb_lt. split.
    + apply not_elem_of_dom. intros Hc. fold (seats e) in Hc. by rewrite bool_decide_eq_true_2 in Hk.
    + unfold seats in Hsize. by rewrite size_dom in Hsize.
  - destruct (Hacct c) as (chan & v & [_ Hled _ _ _]). cbn [input_of input_ok] in Hin. apply andb_true_iff in Hin as [Hin _].
    rewrite (command_ok_typed _ Hin), andb_true_r. rewrite asked_in_cons in Hled. unfold asks_msg, due in Hled. cbn in Hled.
    rewrite bool_decide_eq_true_2, owed_waiting in Hled by (split; [done|by intros ->]). destruct (conn_waiting e c); [|done]. destruct (awaiting v); lia.
Qed.

(** ** What a task does *)
Definition receives (w : Wake) : bool := match w with Wake.Recv _ => true | _ => false end.
(** The moves of a task whose engine runs, by the messages it sends. *)
Inductive moves (l l' : Conn) : Wake → list EngineMsg → Prop :=
  | mv_quiet w : receives w = false → awaiting (Some l) = false → awaiting (Some l') = false → opened (Some l') = true → moves l l' w []
  | mv_dispatch w m :
      receives w = false → awaiting (Some l) = false → awaiting (Some l') = true → l_eof l' = l_eof l → asks_msg (l_conn l) m = true → msg_ok m = true →
      moves l l' w (m :: if l_eof l then [EngineMsg.HalfClose (l_conn l)] else [])
  | mv_started w too_big :
      receives w = false → awaiting (Some l) = false → awaiting (Some l') = false → opened (Some l') = true →
      moves l l' w [EngineMsg.PutStarted (l_conn l) too_big]
  | mv_close w : receives w = false → awaiting (Some l) = false → l_phase l' = Phase.Closed → moves l l' w [EngineMsg.Disconnect (l_conn l)]
  | mv_read r : awaiting (Some l) = true → awaiting (Some l') = true → l_eof l' = l_eof l → moves l l' (Wake.Read r) []
  | mv_eof r : awaiting (Some l) = true → awaiting (Some l') = true → moves l l' (Wake.Read r) [EngineMsg.HalfClose (l_conn l)]
  | mv_recv r : awaiting (Some l) = true → awaiting (Some l') = false → opened (Some l') = true → moves l l' (Wake.Recv (Some r)) []
  | mv_lost ms : moves l l' (Wake.Recv None) ms.
(** The codec of a task accepts jobs of this size, and the message it is about
    to send is a request of its connection. *)
Definition codec_fit (max_job_size : N) (c : ServerCodec) : Prop := codec_ok c = true ∧ sc_max_job_size c = max_job_size.
Record conn_ok (max_job_size : N) (l : Conn) : Prop := {
  co_codec : codec_fit max_job_size (l_codec l);
  co_next msg : l_phase l = Phase.Flushing (Next.Dispatch msg) → asks_msg (l_conn l) msg = true ∧ msg_ok msg = true;
}.
Lemma decode_fit max c src f c' src' :
  codec_fit max c → decode c src = (f, c', src') → codec_fit max c' ∧ ∀ g, f = Some g → frame_ok max g = true.
Proof.
  unfold codec_fit. remember (length src) as n eqn:En. revert c src En. induction (lt_wf n) as [n _ IH]; intros c src -> [Hok Hmax].
  rewrite decode_eq. pose proof (step_less c src) as Hl. pose proof (step_frame_ok c src Hok) as Hs. destruct (step c src) as [c1 src1|[g|] c1 src1].
  - destruct Hs as [Hok1 Hm1]. eapply IH; [|done|]; [lia|]. split; [done|congruence].
  - destruct Hs as [[Hok1 Hm1] Hf]. intros [= <- <- <-]. split; [split; [done|congruence]|]. intros ? [= <-]. by rewrite <-Hmax.
  - destruct Hs as [Hok1 Hm1]. intros [= <- <- <-]. split; [split; [done|congruence]|done].
Qed.
Section moves.
Context `{Subtle} (max_job_size : N) (Hmax : (max_job_size ≤ MAX_JOB_SIZE_LIMIT)%N).
Lemma frame_request c f m :
  frame_ok max_job_size f = true →
  (f = Frame.Command Command.Quit → False) →
  match f with Frame.Command cmd => m = EngineMsg.Command c cmd | Frame.PutRejected why => m = EngineMsg.PutRejected c why | _ => False end →
  asks_msg c m = true ∧ msg_ok m = true.
Proof using Hmax.
  intros Hf Hq. destruct f as [cmd|why| | |]; try done; intros ->; [|split; [by apply bool_decide_eq_true|done]].
  cbn [frame_ok] in Hf. apply andb_true_iff in Hf as [Hc Hb]. assert (cmd ≠ Command.Quit) as Hq' by (intros ->; by apply Hq). split.
  - by apply bool_decide_eq_true.
  - unfold msg_ok. cbn [input_of input_ok]. rewrite Hc. cbn [andb].
    assert (body_ok cmd = true) as -> by (destruct cmd; try done; cbn [body_ok]; apply N.leb_le in Hb; apply N.leb_le; lia). by destruct cmd.
Qed.
Lemma proceed_moves next l0 l w :
  receives w = false → awaiting (Some l0) = false → l_conn l = l_conn l0 → l_eof l = l_eof l0 →
  (∀ m, next = Next.Dispatch m → asks_msg (l_conn l) m = true ∧ msg_ok m = true) → codec_fit max_job_size (l_codec l) →
  let '(l', out) := proceed true next l in l_conn l' = l_conn l0 ∧ conn_ok max_job_size l' ∧ moves l0 l' w (sends out).
Proof using Hmax.
  intros Hw Ha0 Hc He Hn Hfit. destruct next as [|m| |]; cbn [proceed].
  - split_and!; [done|by split|]. cbn. rewrite Hc. by apply mv_close.
  - destruct (Hn m eq_refl) as [Hm Hok]. split_and!; [done|by split|]. rewrite He. cbn [sends omap list_omap].
    replace (omap _ (if l_eof l0 then reassert_half_close l else [])) with (if l_eof l0 then [EngineMsg.HalfClose (l_conn l0)] else []).
    2: { destruct (l_eof l0); [|done]. cbn. by rewrite Hc. }
    apply mv_dispatch; try done. by rewrite <-Hc.
  - split_and!; [done|by split|]. by apply mv_quiet.
  - destruct (l_eof l); (split_and!; [done|by split|]); cbn; rewrite ?Hc; [by apply mv_close|by apply mv_quiet].
Qed.
Lemma flush_moves next l0 l w :
  receives w = false → awaiting (Some l0) = false → l_conn l = l_conn l0 → l_eof l = l_eof l0 →
  (∀ m, next = Next.Dispatch m → asks_msg (l_conn l) m = true ∧ msg_ok m = true) → codec_fit max_job_size (l_codec l) →
  let '(l', out) := flush true next l in l_conn l' = l_conn l0 ∧ conn_ok max_job_size l' ∧ moves l0 l' w (sends out).
Proof using Hmax.
  intros Hw Ha0 Hc He Hn Hfit. unfold flush. case_bool_decide; [by apply proceed_moves|].
  split_and!; [done| |by apply mv_quiet]. split; [done|]. intros m [= ->]. by apply Hn.
Qed.
Lemma quiet_moves l0 l w :
  receives w = false → awaiting (Some l0) = false → awaiting (Some l) = false → opened (Some l) = true → l_conn l = l_conn l0 → codec_fit max_job_size (l_codec l) →
  (∀ next, l_phase l ≠ Phase.Flushing next) → l_conn l = l_conn l0 ∧ conn_ok max_job_size l ∧ moves l0 l w [].
Proof. intros. split_and!; [done| |by apply mv_quiet]. split; [done|]. naive_solver. Qed.
Lemma close_moves l0 l w :
  receives w = false → awaiting (Some l0) = false → l_conn l = l_conn l0 → codec_fit max_job_size (l_codec l) →
  let '(l', out) := close l in l_conn l' = l_conn l0 ∧ conn_ok max_job_size l' ∧ moves l0 l' w (sends out).
Proof. intros Hw Ha Hc Hf. cbn. split_and!; [done|by split|]. rewrite Hc. by apply mv_close. Qed.
Lemma loop_turn_moves l :
  l_phase l = Phase.Looping → conn_ok max_job_size l →
  let '(l', out) := loop_turn true l in l_conn l' = l_conn l ∧ conn_ok max_job_size l' ∧ moves l l' Wake.Run (sends out).
Proof using Hmax.
  intros Hp [Hfit _]. unfold loop_turn. destruct (decode (l_codec l) (l_rbuf l)) as [[f codec] rbuf] eqn:Hd.
  destruct (decode_fit _ _ _ _ _ _ Hfit Hd) as [Hfit' Hf]. set (l1 := (l <| l_codec := codec |>) <| l_rbuf := rbuf |>).
  assert (awaiting (Some l) = false) as Ha by (cbn; by rewrite Hp). assert (awaiting (Some l1) = false ∧ opened (Some l1) = true) as [Ha1 Ho1] by (cbn; by rewrite Hp).
  assert (∀ next, (∀ m, next = Next.Dispatch m → asks_msg (l_conn l1) m = true ∧ msg_ok m = true) →
    let '(l', out) := flush true next l1 in l_conn l' = l_conn l ∧ conn_ok max_job_size l' ∧ moves l l' Wake.Run (sends out)) as Hflush.
  { intros next Hn. by apply flush_moves. }
  assert (∀ r, l_conn (push r l1) = l_conn l ∧ conn_ok max_job_size (push r l1) ∧ moves l (push r l1) Wake.Run []) as Hpush.
  { intros r. apply quiet_moves; try done. cbn. by rewrite Hp. }
  destruct f as [[cmd|why|too_big|token|r]|]; cbn [sends omap list_omap].
  - assert (∀ c, cmd ≠ Command.Quit → asks_msg c (EngineMsg.Command c cmd) = true ∧ msg_ok (EngineMsg.Command c cmd) = true) as Hreq.
    { intros c Hq. by apply (frame_request c (Frame.Command cmd)); [apply Hf|by intros [= ?]|]. }
    destruct (decide (cmd = Command.Quit)) as [->|Hq]; [by apply Hflush|].
    specialize (Hflush (Next.Dispatch (EngineMsg.Command (l_conn l1) cmd)) ltac:(intros ? [= <-]; by apply Hreq)). by destruct cmd.
  - apply Hflush. intros ? [= <-]. by apply (frame_request _ (Frame.PutRejected why)); [apply Hf| |].
  - split_and!; [done|by split; [|cbn; rewrite Hp]|]. by apply (mv_started l).
  - destruct (l_auth l1) as [tokens|]; [|by apply (close_moves l l1)]. destruct (verify tokens token); [apply Hpush|].
    pose proof (flush_moves Next.Close l (push Response.Unauthorized l1) Wake.Run eq_refl Ha eq_refl eq_refl ltac:(done) Hfit') as HF.
    by destruct (flush true Next.Close _).
  - apply Hpush.
  - by apply Hflush.
Qed.
Lemma command_turn_moves w l l' out :
  conn_ok max_job_size l → command_turn true w l = Some (l', out) →
  opened (Some l) = true ∧ l_conn l' = l_conn l ∧ conn_ok max_job_size l' ∧ moves l l' w (sends out).
Proof using Hmax.
  intros Hok Ht. pose proof Hok as [Hfit Hnext]. unfold command_turn in Ht. destruct (l_phase l) eqn:Hp; [..|by destruct w].
  all: split; [cbn; by rewrite Hp|]; destruct w as [|ok|r|r]; try done.
  - pose proof (loop_turn_moves l Hp Hok) as H1. injection Ht as Ht. by rewrite Ht in H1.
  - assert (awaiting (Some l) = false) as Ha by (cbn; by rewrite Hp). destruct ok; [|injection Ht as <- <-; by apply (close_moves l)].
    pose proof (proceed_moves next l l (Wake.Wrote true) eq_refl Ha eq_refl eq_refl ltac:(intros m ->; by apply Hnext) Hfit) as HF.
    injection Ht as Ht. by rewrite Ht in HF.
  - assert (awaiting (Some l) = false) as Ha by (cbn; by rewrite Hp). injection Ht as Ht.
    destruct r as [[|x bytes]| |]; injection Ht as <- <-; first [by apply (close_moves l)|by apply quiet_moves].
  - assert (awaiting (Some l) = true) as Ha by (cbn; by rewrite Hp). destruct (reads_on l); [|done]. injection Ht as Ht.
    destruct r as [[|x bytes]| |]; injection Ht as <- <-; (split_and!; [done|by split; [|cbn; rewrite Hp]|]); first [by apply mv_eof|by apply mv_read].
  - assert (awaiting (Some l) = true) as Ha by (cbn; by rewrite Hp). injection Ht as Ht.
    destruct r as [r|]; cbn [await_recv] in Ht; [|injection Ht as <- <-; split_and!; [done|by split|apply mv_lost]].
    unfold flush in Ht. case_bool_decide; injection Ht as <- <-; (split_and!; [done|by split|by apply mv_recv]).
Qed.
End moves.

Lemma acct_other c q s chan v ms :
  Forall (λ m, msg_conn m ≠ Some c) ms → acct c q s chan v → acct c (q ++ ms) s chan v.
Proof.
  intros Hms. revert q. induction Hms as [|m ms Hm _ IH]; intros q; [by rewrite app_nil_r|].
  intros [Hk Hled Hleft Habs Hhalf]. change (q ++ m :: ms) with (q ++ ([m] ++ ms)). rewrite (app_assoc q). apply IH. split; [..|done|].
  - by rewrite follow_app, follow1_other.
  - rewrite asked_in_app. destruct (asks_msg c m) eqn:Ha; [by apply asks_conn in Ha|]. unfold asked_in at 2. rewrite filter_cons, Ha. by rewrite Nat.add_0_r.
  - rewrite elem_of_app, list_elem_of_singleton. intros [?|<-]; [auto|done].
  - intros Hv Hh. rewrite may_wait_app, may_wait1_other by done. auto.
Qed.
Lemma moves_conn l l' w ms : moves l l' w ms → w ≠ Wake.Recv None → Forall (λ m, msg_conn m = Some (l_conn l)) ms.
Proof.
  destruct 1 as [| w m _ _ _ _ Ha _| | | | | |]; intros Hw; rewrite ?Forall_cons, ?Forall_nil; try done.
  split; [by apply asks_conn|]. destruct (l_eof l); by rewrite ?Forall_cons, Forall_nil.
Qed.
Lemma follow1_self c m : msg_conn m = Some c → follow1 c (Some true) m =
  match m with EngineMsg.Connect _ => None | EngineMsg.Disconnect _ => Some false | _ => Some true end.
Proof. intros Hm. unfold follow1. cbn [mbind option_bind]. rewrite bool_decide_eq_true_2 by done. by destruct m. Qed.
Definition one (b : bool) : nat := if b then 1 else 0.
(** A task sends one message. *)
Lemma acct_send c q s chan v v' m :
  acct c q s chan v → opened v = true → msg_conn m = Some c → m ≠ EngineMsg.Connect c →
  (if bool_decide (m = EngineMsg.Disconnect c) then ∃ l, v' = Some l ∧ l_phase l = Phase.Closed else opened v' = true) →
  one (awaiting v') = one (awaiting v) + one (asks_msg c m) →
  (awaiting v' = true → half_closed v' = true → may_wait1 c (may_wait c (conn_waiting s.1 c) q) m = false) →
  acct c (q ++ [m]) s chan v'.
Proof.
  intros [Hk Hled Hleft Habs Hhalf] Hop Hm Hnc Hv' Haw Hh. rewrite Hop in Hk. split; [..|done|].
  - rewrite follow_app, Hk, follow1_self by done. case_bool_decide as Hd.
    + destruct Hv' as (l & -> & Hcl). subst m. cbn. by rewrite Hcl.
    + rewrite Hv'. destruct m; cbn in Hm; simplify_eq; done.
  - rewrite asked_in_app, asked_in_cons. change (asked_in c []) with 0. unfold one in Haw. destruct (awaiting v'), (awaiting v), (asks_msg c m); lia.
  - rewrite elem_of_app, list_elem_of_singleton. case_bool_decide as Hd; [intros _; exact Hv'|]. intros [Hin|Heq]; [|congruence].
    destruct (Hleft Hin) as (l & -> & Hcl). cbn in Hop. by rewrite Hcl in Hop.
  - intros Ha' Hh'. rewrite may_wait_app. auto.
Qed.
(** A task runs; what it receives was the head of its channel. *)
Lemma acct_moves q s chan l l' w ms :
  acct (l_conn l) q s chan (Some l) → opened (Some l) = true → moves l l' w ms → w ≠ Wake.Recv None →
  (receives w = true → chan ≠ []) → acct (l_conn l) (q ++ ms) s (if receives w then tail chan else chan) (Some l').
Proof.
  intros Hacct Hop Hmv Hw Hrecv. pose proof Hacct as [Hk Hled Hleft Habs Hhalf]. rewrite Hop in Hk. set (c := l_conn l) in *.
  assert (EngineMsg.Disconnect c ∉ q) as Hno.
  { intros Hin. destruct (Hleft Hin) as (? & [= <-] & Hcl). cbn in Hop. by rewrite Hcl in Hop. }
  destruct Hmv as [w Hr Ha Ha' Ho'|w m Hr Ha Ha' He Hasks Hok|w tb Hr Ha Ha' Ho'|w Hr Ha Hcl|r Ha Ha' He|r Ha Ha'|r Ha Ha' Ho'|]; [..|done];
    rewrite ?Hr; rewrite ?app_nil_r; cbn [receives]; fold c.
  - rewrite Ha in Hled. split; [by rewrite Ho'|by rewrite Ha'|done|done|by rewrite Ha'].
  - fold c in Hasks. pose proof (asks_conn _ _ Hasks) as Hmc. assert (opened (Some l') = true) as Ho' by (by apply awaiting_opened).
    assert (∀ v', opened v' = true → awaiting v' = true → half_closed v' = false → acct c (q ++ [m]) s chan v') as Hsend.
    { intros v' Hv1 Hv2 Hv3. apply (acct_send c q s chan (Some l) v' m Hacct Hop Hmc); [by intros -> | |by rewrite Hv2, Ha, Hasks|by rewrite Hv3].
      rewrite bool_decide_eq_false_2; [done|by intros ->]. }
    destruct (l_eof l) eqn:Hel; [|apply Hsend; [done|done|cbn; congruence]].
    change [m; EngineMsg.HalfClose c] with ([m] ++ [EngineMsg.HalfClose c]). rewrite app_assoc.
    set (l'' := l' <| l_eof := false |>). assert (awaiting (Some l'') = true) as Ha'' by exact Ha'.
    apply (acct_send c (q ++ [m]) s chan (Some l'')); try done; [by apply Hsend|].
    intros _ _. cbn. by rewrite bool_decide_eq_true_2.
  - apply (acct_send c q s chan (Some l)); try done; [by rewrite Ha', Ha|by rewrite Ha'].
  - assert (awaiting (Some l') = false) as Ha' by (cbn; by rewrite Hcl).
    apply (acct_send c q s chan (Some l)); try done; [by rewrite bool_decide_eq_true_2; eauto|by rewrite Ha', Ha|by rewrite Ha'].
  - split; [by rewrite awaiting_opened|rewrite Ha in Hled; by rewrite Ha'|done|done|]. intros _. cbn. rewrite He. auto.
  - apply (acct_send c q s chan (Some l)); try done; [by apply awaiting_opened|by rewrite Ha', Ha|]. intros _ _. cbn. by rewrite bool_decide_eq_true_2.
  - rewrite Ha in Hled. specialize (Hrecv eq_refl). destruct chan as [|r0 chan]; [done|]. cbn [length tail] in *.
    split; [by rewrite Ho'|rewrite Ha'; lia|done|done|by rewrite Ha'].
Qed.
