(* ===== verification/ServerRun.v ===== *)
(** * The server keeps its accounts

    Every step of the server preserves [server_inv]: the accounts of all
    connections balance, ids are given out once, and the codecs, the tasks and
    the channel hold what they should.  So each message the actor takes is one
    the engine accepts. *)

From S2P Require Import Prelude Ms Proto Stats Parse Codec Reply Model Format Engine Frames Inv InvFrame InvRefresh Queues Moves Tubes.
From S2P Require Import Waiting Rest Dispatch ConnOps Commands Sessions Connect Tick Reach Serve Effects.
From S2P Require Import Keep Sized Replica Once Seats Snapshot Replay Scan Wal Recover Actor Durable Auth Conn Server ServerInv.
From stdpp Require Import options.

(** ** The task of a connection *)
Definition task_conn (t : Task) : option Conn := match t with Task.Serving l => Some l | _ => None end.
Definition served (ts : list Task) : list ConnId := l_conn <$> omap task_conn ts.
Definition client_of (c : ConnId) (ls : list Conn) : option Conn := snd <$> list_find (λ l, l_conn l = c) ls.
Definition client (c : ConnId) (ts : list Task) : option Conn := client_of c (omap task_conn ts).
Lemma client_of_cons c l ls : client_of c (l :: ls) = if decide (l_conn l = c) then Some l else client_of c ls.
Proof. unfold client_of. cbn. case_decide; [done|]. by destruct (list_find _ ls) as [[]|]. Qed.
Lemma client_of_app c l1 l2 : client_of c (l1 ++ l2) = match client_of c l1 with Some l => Some l | None => client_of c l2 end.
Proof. induction l1 as [|l l1 IH]; [done|]. cbn [app]. rewrite !client_of_cons. by case_decide. Qed.
Lemma client_of_fresh c ls : c ∉ l_conn <$> ls → client_of c ls = None.
Proof.
  induction ls as [|l ls IH]; [done|]. rewrite fmap_cons, not_elem_of_cons. intros [Hne Hni]. rewrite client_of_cons. case_decide; [congruence|auto].
Qed.
Lemma client_of_Some c ls l : client_of c ls = Some l → l_conn l = c.
Proof. unfold client_of. intros ([i l'] & (Hl & Hc & _)%list_find_Some & ->)%fmap_Some. done. Qed.
Lemma client_fresh c ts : c ∉ served ts → client c ts = None.
Proof. apply client_of_fresh. Qed.
Lemma served_app ts ts' : served (ts ++ ts') = served ts ++ served ts'.
Proof. unfold served. by rewrite omap_app, fmap_app. Qed.
Lemma client_app c ts t : task_conn t = None ∨ (∃ l, task_conn t = Some l ∧ l_conn l ∉ served ts) →
  client c (ts ++ [t]) = match task_conn t with Some l => if decide (l_conn l = c) then Some l else client c ts | None => client c ts end.
Proof.
  intros Ht. unfold client. rewrite omap_app, client_of_app. cbn [omap list_omap]. destruct Ht as [->|(l & -> & Hni)]; [by destruct (client_of c _)|].
  rewrite client_of_cons. case_decide as Hc; [|by destruct (client_of c (omap task_conn ts))]. subst c. by rewrite client_of_fresh.
Qed.
(** A task moves on; it may be given a fresh id. *)
Lemma split_at (ts : list Task) i t : ts !! i = Some t → ∃ l1 l2, ts = l1 ++ t :: l2 ∧ ∀ t', <[i := t']> ts = l1 ++ t' :: l2.
Proof.
  intros Hi. exists (take i ts), (drop (S i) ts). split; [by rewrite take_drop_middle|]. intros t'.
  apply insert_take_drop. by eapply lookup_lt_Some.
Qed.
Lemma client_insert c ts i t t' :
  ts !! i = Some t → NoDup (served ts) →
  match task_conn t, task_conn t' with
  | Some l, Some l' => l_conn l' = l_conn l
  | None, Some l' => l_conn l' ∉ served ts
  | Some _, None => False
  | None, None => True
  end →
  client c (<[i := t']> ts) = match task_conn t' with Some l' => if decide (l_conn l' = c) then Some l' else client c ts | None => client c ts end ∧
  (∀ k, k ∈ served (<[i := t']> ts) ↔ k ∈ served ts ∨ task_conn t' ≫= Some ∘ l_conn = Some k) ∧ NoDup (served (<[i := t']> ts)).
Proof.
  intros Hi Hnd Ht. destruct (split_at ts i t Hi) as (l1 & l2 & -> & Hins). rewrite Hins. clear Hins Hi.
  unfold client, served in *. rewrite !omap_app in *. cbn [omap list_omap] in *. rewrite !fmap_app in *.
  destruct (task_conn t) as [l|], (task_conn t') as [l'|]; try done.
  - rewrite fmap_cons in *. rewrite !client_of_app, !client_of_cons, Ht. apply NoDup_app in Hnd as (Hn1 & Hn2 & Hn3). split_and!.
    + case_decide as Hc; [|done]. subst c. rewrite client_of_fresh; [done|]. intros Hin. apply (Hn2 _ Hin). left.
    + intros k. cbn. rewrite Ht. set_solver.
    + by apply NoDup_app.
  - rewrite fmap_cons, !client_of_app, client_of_cons. split_and!.
    + case_decide as Hc; [|done]. subst c. rewrite client_of_fresh; [done|]. set_solver.
    + intros k. cbn. set_solver.
    + apply (NoDup_Permutation_proper _ (l_conn l' :: (l_conn <$> omap task_conn l1) ++ (l_conn <$> omap task_conn l2))); [|by constructor].
      symmetry. apply Permutation_middle.
  - split_and!; [done|set_solver|done].
Qed.
Lemma client_lookup ts i l : ts !! i = Some (Task.Serving l) → NoDup (served ts) → client (l_conn l) ts = Some l.
Proof.
  intros Hi Hnd. pose proof (client_insert (l_conn l) ts i _ (Task.Serving l) Hi Hnd eq_refl) as (H1 & _). rewrite list_insert_id in H1 by done.
  cbn in H1. by rewrite decide_True in H1.
Qed.
Lemma client_open c ts : NoDup (served ts) → opened (client c ts) = true ↔ ∃ i l, ts !! i = Some (Task.Serving l) ∧ l_conn l = c ∧ l_phase l ≠ Phase.Closed.
Proof.
  intros Hnd. split.
  - destruct (client c ts) as [l|] eqn:Hc; [|done]. intros Ho. pose proof Hc as ([i l'] & (Hi & _)%list_find_Some & ->)%fmap_Some.
    apply list_elem_of_lookup_2, list_elem_of_omap in Hi as (t & Ht & Hl). destruct t; try done. injection Hl as ->. apply list_elem_of_lookup in Ht as [j Hj].
    exists j, l'. split_and!; [done|by apply client_of_Some in Hc|]. intros Hp. cbn in Ho. by rewrite Hp in Ho.
  - intros (i & l & Hi & <- & Hp). rewrite (client_lookup _ _ _ Hi Hnd). cbn. by destruct (l_phase l).
Qed.
Lemma acct_connect c q s chan v :
  acct c q s chan None → opened v = true → awaiting v = false → acct c (q ++ [EngineMsg.Connect c]) s chan v.
Proof.
  intros [Hk Hled Hleft Habs _] Hop Ha. split; [..|done|by rewrite Ha].
  - rewrite follow_app, Hk, Hop. cbn. by rewrite bool_decide_eq_true_2.
  - rewrite asked_in_app, Ha. change (asked_in c [EngineMsg.Connect c]) with 0. cbn in Hled. lia.
  - rewrite elem_of_app, list_elem_of_singleton. intros [Hin|]; [|done]. by destruct (Hleft Hin) as (? & ? & _).
Qed.

(** ** The books *)
(** The actor's side: the connections it delivers to, the engine and the
    replies that are not delivered yet. *)
Abbreviation Desk := (gset ConnId * (Engine * Outbox))%type.
Section books.
Context `{Subtle} {S : Type} `{Log S} (max_job_size : N) (Hmax : (max_job_size ≤ MAX_JOB_SIZE_LIMIT)%N).
Implicit Types (s : Server S).
Definition task_ok (t : Task) : Prop :=
  match t with
  | Task.Serving l => conn_ok max_job_size l
  | Task.Authenticating g => codec_fit max_job_size (g_codec g)
  | Task.Admitting codec _ _ _ => codec_fit max_job_size codec
  | _ => True
  end.
Definition desk (a : Actor S) : Desk := (a_conns a, (a_engine a, [])).
(** [n] bounds the ids that were given out. *)
Record book (n : N) (a : Desk) (q : list EngineMsg) (ts : list Task) (chan : ConnId → list Response) (next : ConnId) : Prop := {
  bk_nodup : NoDup (served ts);
  bk_below : ∀ c, c ∈ served ts → (c < next)%N;
  bk_next : (next ≤ n)%N;
  bk_tasks : Forall task_ok ts;
  bk_queue : Forall (λ m, msg_ok m = true) q;
  bk_acct : ∀ c, acct c q a.2 (chan c) (client c ts);
  bk_conns : a.1 = seats a.2.1;
  bk_all : answers_all a.2.1;
}.
Definition server_inv (n : N) s : Prop := book n (desk (sv_actor s)) (sv_queue s) (sv_tasks s) (channel s) (sv_next_id s).

Lemma book_send n a q ts chan next m :
  msg_conn m = None → msg_ok m = true → book n a q ts chan next → book n a (q ++ [m]) ts chan next.
Proof.
  intros Hm Hok [Hnd Hb Hn Ht Hq Hacct Hc Hall]. split; try done.
  - apply Forall_app. split; [done|by constructor].
  - intros c. apply acct_other; [|done]. constructor; [congruence|done].
Qed.
(** A task that is not a connection's yet. *)
Lemma book_pending n a q ts chan next i t t' :
  ts !! i = Some t → task_conn t = None → task_conn t' = None → task_ok t' → book n a q ts chan next → book n a q (<[i := t']> ts) chan next.
Proof.
  intros Hi Ht Ht' Hok [Hnd Hb Hn Hts Hq Hacct Hc Hall].
  assert (∀ c, client c (<[i := t']> ts) = client c ts ∧ (∀ k, k ∈ served (<[i := t']> ts) ↔ k ∈ served ts) ∧ NoDup (served (<[i := t']> ts))) as Hins.
  { intros c. pose proof (client_insert c ts i t t' Hi Hnd) as H1. rewrite Ht, Ht' in H1. destruct (H1 I) as (? & Hs & ?). split_and!; try done.
    intros k. rewrite Hs. cbn. naive_solver. }
  split; try done.
  - by apply (Hins 0%N).
  - intros c. destruct (Hins 0%N) as (_ & -> & _). apply Hb.
  - by apply Forall_insert.
  - intros c. destruct (Hins c) as (-> & _). apply Hacct.
Qed.
(** A task is given an id. *)
Lemma book_admit n a q ts chan next i t l :
  ts !! i = Some t → task_conn t = None → conn_ok max_job_size l → l_conn l = next → opened (Some l) = true → awaiting (Some l) = false →
  book n a q ts chan next → book (n + 1) a (q ++ [EngineMsg.Connect next]) (<[i := Task.Serving l]> ts) chan (next + 1).
Proof using Hmax.
  intros Hi Ht Hl Hc Hop Ha [Hnd Hb Hn Hts Hq Hacct Hcs Hall]. assert (next ∉ served ts) as Hni by (intros Hin%Hb; lia).
  assert (∀ c, client c (<[i := Task.Serving l]> ts) = (if decide (next = c) then Some l else client c ts) ∧
    (∀ k, k ∈ served (<[i := Task.Serving l]> ts) ↔ k ∈ served ts ∨ k = next) ∧ NoDup (served (<[i := Task.Serving l]> ts))) as Hins.
  { intros c. pose proof (client_insert c ts i t (Task.Serving l) Hi Hnd) as H1. rewrite Ht in H1. cbn [task_conn] in H1. rewrite Hc in H1.
    destruct (H1 Hni) as (? & Hs & ?). split_and!; try done. intros k. rewrite Hs. cbn. rewrite Hc. naive_solver. }
  split; try done.
  - by apply (Hins 0%N).
  - intros c. destruct (Hins 0%N) as (_ & -> & _). intros [Hin%Hb| ->]; lia.
  - lia.
  - by apply Forall_insert.
  - apply Forall_app. split; [done|by constructor].
  - intros c. destruct (Hins c) as (-> & _). case_decide as Hd.
    + subst c. apply acct_connect; [|done|done]. rewrite <-(client_fresh next ts Hni). apply Hacct.
    + apply acct_other; [|done]. constructor; [|done]. cbn. congruence.
Qed.
(** A connection's task moves. *)
Lemma book_moves n a q ts chan next i l l' w ms :
  ts !! i = Some (Task.Serving l) → opened (Some l) = true → l_conn l' = l_conn l → conn_ok max_job_size l' → moves l l' w ms →
  w ≠ Wake.Recv None → (receives w = true → chan (l_conn l) ≠ []) → Forall (λ m, msg_ok m = true) ms → book n a q ts chan next →
  book n a (q ++ ms) (<[i := Task.Serving l']> ts)
    (λ c, if decide (c = l_conn l) then (if receives w then tail (chan c) else chan c) else chan c) next.
Proof.
  intros Hi Hop Hc Hl Hmv Hw Hr Hms [Hnd Hb Hn Hts Hq Hacct Hcs Hall].
  pose proof (client_lookup ts i l Hi Hnd) as Hcl.
  assert (∀ c, client c (<[i := Task.Serving l']> ts) = (if decide (l_conn l = c) then Some l' else client c ts) ∧
    (∀ k, k ∈ served (<[i := Task.Serving l']> ts) ↔ k ∈ served ts) ∧ NoDup (served (<[i := Task.Serving l']> ts))) as Hins.
  { intros c. pose proof (client_insert c ts i _ (Task.Serving l') Hi Hnd Hc) as (H1 & Hs & H2). cbn [task_conn] in H1. rewrite Hc in H1. split_and!; try done.
    intros k. rewrite Hs. cbn. split; [|by left]. intros [?|[= <-]]; [done|]. rewrite Hc. unfold served. apply list_elem_of_fmap. exists l. split; [done|].
    apply list_elem_of_omap. exists (Task.Serving l). split; [by eapply list_elem_of_lookup_2|done]. }
  split; try done.
  - by apply (Hins 0%N).
  - intros c. destruct (Hins 0%N) as (_ & -> & _). apply Hb.
  - by apply Forall_insert.
  - by apply Forall_app.
  - intros c. destruct (Hins c) as (-> & _). destruct (decide (l_conn l = c)) as [<-|Hne].
    + rewrite decide_True by done. apply (acct_moves _ _ _ l); try done. rewrite <-Hcl. apply Hacct.
    + rewrite decide_False by done. apply acct_other; [|done]. eapply Forall_impl; [by eapply moves_conn|]. cbn. congruence.
Qed.

(** ** Tasks run *)
Lemma book_le n n' a q ts chan next : (n ≤ n')%N → book n a q ts chan next → book n' a q ts chan next.
Proof. intros Hn [? ? ? ? ? ? ? ?]. split; try done. by etrans. Qed.
Lemma book_chan n a q ts chan chan' next : (∀ c, chan' c = chan c) → book n a q ts chan next → book n a q ts chan' next.
Proof. intros Hch [? ? ? ? ? ? ? ?]. split; try done. intros c. by rewrite Hch. Qed.
Lemma moves_ok l l' w ms : moves l l' w ms → w ≠ Wake.Recv None → Forall (λ m, msg_ok m = true) ms.
Proof.
  destruct 1; intros Hw; rewrite ?Forall_cons, ?Forall_nil; try done. split; [done|]. destruct (l_eof l); by rewrite ?Forall_cons, Forall_nil.
Qed.
Lemma foldl_output out s :
  alive s = true →
  let s' := foldl output s out in
  sv_clock s' = sv_clock s ∧ sv_actor s' = sv_actor s ∧ sv_ended s' = sv_ended s ∧ sv_queue s' = sv_queue s ++ sends out ∧ sv_tasks s' = sv_tasks s ∧
  sv_replies s' = sv_replies s ∧ sv_next_id s' = sv_next_id s ∧ sv_serving s' = sv_serving s.
Proof.
  revert s. induction out as [|o out IH]; intros s Ha; cbn [foldl]; [by rewrite app_nil_r|].
  assert (alive (output s o) = true) as Ha1 by (destruct o; try done; unfold output, send; by rewrite Ha).
  destruct (IH (output s o) Ha1) as (-> & -> & -> & -> & -> & -> & -> & ->). destruct o as [m| | | |]; try done.
  cbn [output]. unfold send. rewrite Ha. cbn. by rewrite <-(assoc_L (++)).
Qed.
Lemma output_inv n s out :
  alive s = true → book n (desk (sv_actor s)) (sv_queue s ++ sends out) (sv_tasks s) (channel s) (sv_next_id s) →
  alive (foldl output s out) = true ∧ server_inv n (foldl output s out).
Proof.
  intros Ha Hb. destruct (foldl_output out s Ha) as (_ & Hac & He & Hq & Ht & Hr & Hn & _). split; [unfold alive; by rewrite He|].
  unfold server_inv. rewrite Hac, Hq, Ht, Hn. eapply book_chan; [|exact Hb]. intros c. unfold channel. by rewrite Hr.
Qed.
Lemma follow_connect c q : follow c false q = Some true → EngineMsg.Connect c ∈ q.
Proof.
  induction q as [|m q IH]; [done|]. rewrite follow_cons. destruct (decide (msg_conn m = Some c)) as [Hm|Hm].
  - unfold follow1. cbn [mbind option_bind]. rewrite bool_decide_eq_true_2 by done. destruct m; cbn in Hm; simplify_eq; try done. intros _. left.
  - rewrite follow1_other by done. cbn [mbind option_bind]. intros ?. right. auto.
Qed.
(** A task that waits for a reply has a sender to wait for. *)
Lemma recv_sender n s i l reply :
  alive s = true → server_inv n s → sv_tasks s !! i = Some (Task.Serving l) → awaiting (Some l) = true → recv s (l_conn l) = Some reply →
  ∃ r rest, reply = Some r ∧ channel s (l_conn l) = r :: rest.
Proof.
  intros Ha [Hnd _ _ _ _ Hacct Hcs _] Hi Haw. unfold recv. destruct (channel s (l_conn l)) as [|r rest]; [|intros [= <-]; by exists r, rest].
  assert (sender s (l_conn l) = true) as ->; [|done]. pose proof (client_lookup _ _ _ Hi Hnd) as Hcl.
  pose proof (ac_known _ _ _ _ _ (Hacct (l_conn l))) as Hk. rewrite Hcl, awaiting_opened in Hk by done. cbn [desk fst snd] in Hk.
  unfold sender. cbn [desk fst snd] in Hcs. rewrite Ha, Hcs. case_bool_decide; [done|]. apply follow_connect in Hk. cbn [andb orb]. apply existsb_exists. eexists. split; [by apply list_elem_of_In|].
  by apply bool_decide_eq_true.
Qed.
Lemma login_turn_ok g t' out :
  codec_fit max_job_size (g_codec g) → login_turn g = (t', out) → task_conn t' = None ∧ task_ok t' ∧ sends out = [].
Proof.
  intros Hfit. unfold login_turn. destruct (decode (g_codec g) (g_rbuf g)) as [[f codec] rbuf] eqn:Hd. destruct (decode_fit _ _ _ _ _ _ Hfit Hd) as [Hfit' _].
  destruct f as [[cmd| | |token|]|]; try (by intros [= <- <-]).
  - by destruct cmd; intros [= <- <-].
  - by destruct (verify _ _); intros [= <- <-].
Qed.
Lemma pending_turn ev t t' out :
  task_conn t = None → (∀ c, ev ≠ TaskEvent.Admit c) → task_ok t → task_turn max_job_size true ev t = Some (t', out) →
  task_conn t' = None ∧ task_ok t' ∧ sends out = [].
Proof.
  intros Ht Hev Hok. destruct t as [auth|g|codec rbuf wbuf auth|l|]; try done; destruct ev as [ok| |c|w]; try (by destruct (Hev c)); cbn [task_turn]; try done.
  - destruct auth as [|tokens], ok; intros [= <- <-]; done.
  - by destruct auth.
  - by destruct auth.
  - by destruct (g_phase g); intros [= <- <-].
  - unfold authenticate. destruct (g_phase g), w as [|ok|r|r]; try done.
    + intros [= Hl]. by apply login_turn_ok in Hl.
    + by destruct r as [[|x bytes]| |]; intros [= <- <-].
    + by intros [= <- <-].
    + by intros [= <- <-].
Qed.
Lemma take_id_inv n s :
  (n + 1 < 2 ^ 64)%N → server_inv n s → take_id s = (sv_next_id s, mkServer (sv_clock s) (sv_actor s) (sv_ended s) (sv_queue s) (sv_tasks s) (sv_replies s)
    (sv_next_id s + 1) (sv_counters s) (sv_serving s)).
Proof.
  intros Hn [_ _ Hnext _ _ _ _ _]. clear Hmax. unfold take_id, ConnIds_next. do 2 f_equal. unfold incr64, wrap64. apply N.mod_small. lia.
Qed.
(** What the channels give a connection's task. *)
Lemma serve_conn_inv n i w s s1 l l' out :
  alive s = true → server_inv n s → sv_tasks s !! i = Some (Task.Serving l) → serve_task (TaskEvent.Woken w) (Task.Serving l) s = Some s1 →
  command_turn true w l = Some (l', out) →
  ∃ r, s1 = with_replies r s ∧ w ≠ Wake.Recv None ∧ (receives w = true → channel s (l_conn l) ≠ []) ∧
  ∀ c, channel s1 c = if decide (c = l_conn l) then (if receives w then tail (channel s c) else channel s c) else channel s c.
Proof.
  intros Ha HI Hi Hs Hturn. destruct w as [|ok|r|reply]; cbn [serve_task] in Hs;
    try (injection Hs as <-; exists (sv_replies s); split_and!; [by destruct s|done|done|intros c; by case_decide]).
  case_bool_decide as Hr; [|done]. injection Hs as <-. eexists. split; [done|].
  assert (awaiting (Some l) = true) as Haw by (unfold command_turn in Hturn; cbn; by destruct (l_phase l)).
  destruct (recv_sender n s i l reply Ha HI Hi Haw Hr) as (r & rest & -> & Hch). split_and!; [done|by rewrite Hch|].
  intros c. unfold channel. cbn. case_decide; [subst; by rewrite lookup_insert_eq|by rewrite lookup_insert_ne].
Qed.
Lemma run_conn_inv n i ev s s' :
  alive s = true → (n + 1 < 2 ^ 64)%N → server_inv n s → run_conn max_job_size i ev s = Some s' → alive s' = true ∧ server_inv (n + 1) s'.
Proof using Hmax.
  intros Ha Hn HI. unfold run_conn. destruct (sv_tasks s !! i) as [t|] eqn:Hi; [|done]. cbn [mbind option_bind].
  assert (task_ok t) as Hok by (eapply Forall_lookup_1; [apply HI|done]). destruct (task_conn t) as [l|] eqn:Ht.
  - destruct t; try done. injection Ht as ->. destruct (serve_task ev (Task.Serving l) s) as [s1|] eqn:Hs; [|done]. cbn [mbind option_bind].
    destruct ev as [ok| |c|w]; try done. cbn [task_turn].
    destruct (command_turn (alive s1) w l) as [[l' out]|] eqn:Hturn; [|done]. cbn [mbind option_bind]. intros [= <-].
    assert (alive s1 = true) as Ha1 by (destruct w; cbn [serve_task] in Hs; repeat case_match; by simplify_eq). rewrite Ha1 in Hturn.
    destruct (serve_conn_inv n i w s s1 l l' out Ha HI Hi Hs Hturn) as (r & -> & Hw & Hne & Hchan).
    destruct (command_turn_moves max_job_size Hmax _ _ _ _ Hok Hturn) as (Hop & Hc & Hl' & Hmv).
    apply output_inv; [exact Ha|]. eapply book_chan; [exact Hchan|]. eapply book_le; [|by eapply book_moves; eauto using moves_ok]. lia.
  - destruct (serve_task ev t s) as [s1|] eqn:Hs; [|done]. cbn [mbind option_bind].
    destruct (task_turn max_job_size (alive s1) ev t) as [[t' out]|] eqn:Hturn; [|done]. cbn [mbind option_bind]. intros [= <-].
    destruct ev as [ok| |c|w]; try (assert (s1 = s) as -> by (destruct t; cbn in Hs; repeat case_match; by simplify_eq/=); rewrite Ha in Hturn;
      apply pending_turn in Hturn as (Ht' & Hok' & Hsend); try done; apply output_inv; [exact Ha|]; rewrite Hsend, app_nil_r;
      eapply book_le; [|by eapply book_pending]; lia).
    cbn [serve_task] in Hs. rewrite (take_id_inv n s Hn HI) in Hs. destruct (N.eqb_spec c (sv_next_id s)) as [->|]; [|done]. injection Hs as <-.
    change (alive (mkServer _ _ _ _ _ _ _ _ _)) with (alive s) in Hturn. rewrite Ha in Hturn. destruct t as [[]| |codec rbuf wbuf auth| |]; try done. injection Hturn as <- <-.
    apply output_inv; [exact Ha|]. eapply (book_admit _ _ _ _ (channel s)); try done.
Qed.

(** ** Connections are accepted *)
Lemma book_spawn n a q ts chan next t :
  task_conn t = None → task_ok t → book n a q ts chan next → book n a q (ts ++ [t]) chan next.
Proof.
  intros Ht Hok [Hnd Hb Hn Hts Hq Hacct Hc Hall]. assert (served (ts ++ [t]) = served ts) as Hs.
  { rewrite served_app. unfold served at 2. cbn. rewrite Ht. apply app_nil_r. }
  split; try done; rewrite ?Hs; try done.
  - apply Forall_app. split; [done|by constructor].
  - intros c. rewrite client_app by (by left). rewrite Ht. apply Hacct.
Qed.
Lemma book_accept n a q ts chan next l :
  conn_ok max_job_size l → l_conn l = next → opened (Some l) = true → awaiting (Some l) = false → book n a q ts chan next →
  book (n + 1) a (q ++ [EngineMsg.Connect next]) (ts ++ [Task.Serving l]) chan (next + 1).
Proof using Hmax.
  intros Hl Hc Hop Ha Hbook. apply (book_spawn _ _ _ _ _ _ Task.Gone) in Hbook; [|done|done].
  replace (ts ++ [Task.Serving l]) with (<[length ts := Task.Serving l]> (ts ++ [Task.Gone])) by (by rewrite insert_app_r_alt, Nat.sub_diag).
  apply (book_admit _ _ _ _ _ _ (length ts) Task.Gone); try done. by rewrite lookup_app_r, Nat.sub_diag.
Qed.
Lemma accept_plain_inv n registered s :
  alive s = true → (n + 1 < 2 ^ 64)%N → server_inv n s →
  alive (accept_plain max_job_size registered s) = true ∧ server_inv (n + 1) (accept_plain max_job_size registered s).
Proof using Hmax.
  intros Ha Hn HI. unfold accept_plain. rewrite (take_id_inv n s Hn HI). set (s1 := mkServer _ _ _ _ _ _ _ _ _).
  assert (alive s1 = true) as Ha1 by exact Ha. unfold send. rewrite Ha1. set (s2 := with_queue _ s1). set (l := mkConn (sv_next_id s) (server_codec max_job_size) [] [] false None Phase.Looping).
  assert (book (n + 1) (desk (sv_actor s2)) (sv_queue s2) (sv_tasks s2 ++ [Task.Serving l]) (channel s2) (sv_next_id s2)) as Hb by (by apply (book_accept n)).
  unfold handle_plain. fold l. destruct registered; (apply output_inv; [exact Ha1|]).
  - by rewrite app_nil_r.
  - set (l' := l <| l_phase := Phase.Closed |>).
    replace (sv_tasks (with_tasks (sv_tasks s2 ++ [Task.Serving l']) s2)) with (<[length (sv_tasks s2) := Task.Serving l']> (sv_tasks s2 ++ [Task.Serving l]))
      by (cbn; by rewrite insert_app_r_alt, Nat.sub_diag).
    eapply book_chan; [|eapply (book_moves _ _ _ _ _ _ _ l l' Wake.Run [EngineMsg.Disconnect (l_conn l)])]; try done.
    + intros c. cbn [receives]. destruct (decide (c = l_conn l)); reflexivity.
    + by rewrite lookup_app_r, Nat.sub_diag.
    + by apply mv_close.
    + by constructor.
Qed.
Lemma accept_tls_inv n auth now s :
  alive s = true → server_inv n s → alive (accept_tls auth now s) = true ∧ server_inv n (accept_tls auth now s).
Proof.
  intros Ha HI. unfold accept_tls. destruct (try_acquire now (sv_counters s)) as [[[] ?] ?]; (split; [exact Ha|]); [|exact HI]. by apply book_spawn.
Qed.
Lemma send_inv n m s : alive s = true → msg_conn m = None → msg_ok m = true → server_inv n s → alive (send m s) = true ∧ server_inv n (send m s).
Proof. intros Ha Hm Hok HI. unfold send. rewrite Ha. split; [exact Ha|]. by apply book_send. Qed.
End books.
