(* ===== verification/ServerTurn.v ===== *)
(** * The actor keeps the books

    A turn of the actor takes messages from the channel, gives them to the
    engine and puts the replies on the channels; the accounts of [book] still
    balance, whether the actor is a thread with a log or a task without. *)

From S2P Require Import Prelude Ms Proto Stats Parse Codec Reply Model Format Engine Frames Inv InvFrame InvRefresh Queues Moves Tubes.
From S2P Require Import Waiting Rest Dispatch ConnOps Commands Sessions Connect Tick Reach Serve Effects.
From S2P Require Import Keep Sized Replica Once Seats Snapshot Replay Scan Wal Recover Actor Durable Auth Conn Server ServerInv ServerRun.
From stdpp Require Import options.

(** ** One message *)
Definition conns_after (m : EngineMsg) (k : gset ConnId) : gset ConnId :=
  match m with
  | EngineMsg.Connect c => {[c]} ∪ k
  | EngineMsg.Disconnect c => k ∖ {[c]}
  | _ => k
  end.
Lemma conns_after_seats m e : conns_after m (seats e) = seats_after (input_of m) e.
Proof. by destruct m. Qed.
(** The replies for [c] among what was sent. *)
Definition replies_to (c : ConnId) (sent : list Sent) : list Response := (filter (λ r, r.1 = c) (replies sent)).*2.

Section turns.
Context `{Subtle} {S : Type} `{Log S} (max_job_size : N).
Implicit Types (s : Server S) (a : Actor S).
#[local] Abbreviation book := (book max_job_size).
#[local] Abbreviation server_inv := (server_inv max_job_size).

Lemma book_pop n b now m i k e out q ts chan next :
  Inv b e → budget_ok (grow b) → legal now i e = true → given m i → book n (k, (e, out)) (m :: q) ts chan next →
  book n (conns_after m k, apply_input now i (e, out)) q ts chan next.
Proof.
  intros HI Hb Hl Hg [Hnd Hbl Hn Hts Hq Hacct Hc Hall]. cbn [fst snd] in *. apply Forall_cons in Hq as [Hm Hq]. split; try done.
  - intros c. by eapply acct_pop.
  - cbn [fst snd]. by rewrite Hc, conns_after_seats, seats_input, (given_seats m i).
  - by apply (due_apply b now i e out 0%N).
Qed.
Lemma book_skip n m (d : Desk) q ts chan next :
  msg_conn m = None → msg_ok m = true → book n d q ts chan next → book n d (m :: q) ts chan next.
Proof.
  intros Hm Hok [Hnd Hbl Hn Hts Hq Hacct Hc Hall]. split; try done; [by constructor|]. intros c. by apply acct_skip.
Qed.
Lemma book_tick n b now k e out q ts chan next :
  Inv b e → budget_ok (grow b) → legal now EngineInput.Tick e = true → book n (k, (e, out)) q ts chan next →
  book n (k, apply_input now EngineInput.Tick (e, out)) q ts chan next.
Proof.
  intros HI Hb Hl Hbook. apply (book_pop n b now (EngineMsg.Snapshot 0) EngineInput.Tick); [done|done|done|by left|]. by apply book_skip.
Qed.
Lemma book_engine n k e e' out q ts chan next :
  e_conns e' = e_conns e → e_local_conns e' = e_local_conns e → book n (k, (e, out)) q ts chan next → book n (k, (e', out)) q ts chan next.
Proof.
  intros He Hl [Hnd Hbl Hn Hts Hq Hacct Hc Hall]. split; try done; cbn [fst snd] in *.
  - intros c. by eapply acct_conns.
  - by rewrite (seats_conns e e').
  - unfold answers_all in *. congruence.
Qed.
Lemma book_deliver n k e out q ts chan next sent :
  replies sent = filter (λ r, r.1 ∈ k) out → book n (k, (e, out)) q ts chan next →
  book n (k, (e, [])) q ts (λ c, chan c ++ replies_to c sent) next.
Proof.
  intros Hs [Hnd Hbl Hn Hts Hq Hacct Hc Hall]. split; try done. cbn [fst snd] in *. intros c. eapply acct_deliver; [|apply Hacct].
  unfold replies_to, sent_to. rewrite length_fmap, Hs, <-Hc. clear -Hc. induction out as [|r out IH]; [by case_bool_decide|].
  rewrite !filter_cons. destruct (decide (r.1 ∈ k)), (decide (r.1 = c)); rewrite ?filter_cons; repeat case_decide; simplify_eq; try done; cbn [length];
    rewrite IH; case_bool_decide; try done.
Qed.

(** ** What the actor sends *)
Lemma foldl_reply sent s :
  let s' := foldl reply_to s sent in
  sv_clock s' = sv_clock s ∧ sv_actor s' = sv_actor s ∧ sv_ended s' = sv_ended s ∧ sv_queue s' = sv_queue s ∧ sv_tasks s' = sv_tasks s ∧
  sv_next_id s' = sv_next_id s ∧ sv_serving s' = sv_serving s ∧ ∀ c, channel s' c = channel s c ++ replies_to c sent.
Proof.
  revert s. induction sent as [|x sent IH]; intros s; cbn [foldl]; [split_and!; try done; intros c; by rewrite app_nil_r|].
  destruct (IH (reply_to s x)) as (-> & -> & -> & -> & -> & -> & -> & Hch). destruct x as [k r|snap|]; [|by split_and!..].
  split_and!; try done. intros c. rewrite Hch. unfold replies_to, replies. cbn [omap list_omap]. rewrite filter_cons. cbn [fst].
  unfold channel, reply_to. cbn. case_decide as Hc; [subst; rewrite lookup_insert_eq; cbn; by rewrite <-(assoc_L (++))|by rewrite lookup_insert_ne].
Qed.
Lemma settle_inv n a sent q s :
  book n (desk a) q (sv_tasks s) (λ c, channel s c ++ replies_to c sent) (sv_next_id s) → server_inv n (settle Waiting a sent q s).
Proof.
  intros Hb. unfold settle. set (s1 := mkServer _ _ _ _ _ _ _ _ _). destruct (foldl_reply sent s1) as (_ & Hac & _ & Hq & Ht & Hn & _ & Hch).
  unfold ServerRun.server_inv. rewrite Hac, Hq, Ht, Hn. eapply book_chan; [|exact Hb]. exact Hch.
Qed.
Lemma settle_ended r a sent q s : sv_ended (settle r a sent q s) = r ∧ sv_actor (settle r a sent q s) = a.
Proof. unfold settle. set (s1 := mkServer _ _ _ _ _ _ _ _ _). by destruct (foldl_reply sent s1) as (_ & -> & -> & _). Qed.
Lemma alive_ended s : alive s = true ↔ sv_ended s = Waiting.
Proof. unfold alive. by destruct (sv_ended s). Qed.

(** ** The thread *)
Lemma finish_conns now t a : a_conns (finish now t a).1.2 = a_conns a.
Proof.
  unfold finish. destruct (persist_conns t (tick_actor now a)) as [Hc _]. by destruct (persist t _) as [[[]|e] a'].
Qed.
Lemma command_conns now c cmd a : a_conns (command now c cmd a).2 = a_conns a.
Proof. unfold command. repeat (case_match; simplify_eq/=; try done). Qed.
Lemma apply_conns now m a r a' sent : apply_engine_msg now m a = (r, a', sent) → a_conns a' = conns_after m (a_conns a).
Proof.
  destruct m; cbn [apply_engine_msg]; try (by intros [= <- <- <-]). pose proof (command_conns now conn cmd a) as Hc.
  destruct (command now conn cmd a) as [r1 a1]. by intros [= <- <- <-].
Qed.
Lemma on_message_conns now t m a a' sent : on_message now t m a = (inl (), a', sent) → a_conns a' = conns_after m (a_conns a).
Proof.
  unfold on_message. destruct (apply_engine_msg now m (clear_outbox a)) as [[[[]|e] a1] sent1] eqn:Ha; [|done]. apply apply_conns in Ha.
  pose proof (finish_conns now t a1) as Hf. destruct (finish now t a1) as [[r a2] sent2]. intros [= -> <- <-]. cbn in *. congruence.
Qed.
Lemma on_timer_conns now t0 t a a' sent : on_timer now t0 t a = (inl (), a', sent) → a_conns a' = a_conns a.
Proof.
  unfold on_timer. assert (∀ a1, a_conns a1 = a_conns a → finish now t a1 = (inl (), a', sent) → a_conns a' = a_conns a) as Hf.
  { intros a1 Hc E. pose proof (finish_conns now t a1) as Hf. rewrite E in Hf. cbn in Hf. congruence. }
  repeat case_match; try done; by apply Hf.
Qed.

(** The bounds of a run: ids the log can hold, and fewer than 2^32 connections
    that are open or about to be. *)
Definition connects (q : list EngineMsg) : nat := length (filter (λ m, match m with EngineMsg.Connect _ => true | _ => false end = true) q).
Definition crowd (q : list EngineMsg) (e : Engine) : N := N.of_nat (size (seats e) + connects q).
Definition room s : bool :=
  (e_next_job_id (a_engine (sv_actor s)) <=? MAX_RECORD_ID)%N && (crowd (sv_queue s) (a_engine (sv_actor s)) + 1 <? 2 ^ 32)%N.
Lemma crowd_seats q e : (N.of_nat (size (seats e)) ≤ crowd q e)%N.
Proof. unfold crowd. lia. Qed.
Lemma Clock_now_u64 c t : (Clock_now c t ≤ u64_max)%N.
Proof. unfold Clock_now, sat_add64. lia. Qed.
Lemma book_legal n now m k e out q ts chan next :
  book n (k, (e, out)) (m :: q) ts chan next → (now ≤ u64_max)%N → (N.of_nat (size (seats e)) + 1 < 2 ^ 32)%N → legal now (input_of m) e = true.
Proof.
  intros [_ _ _ _ Hq Hacct _ _] Hnow Hs. apply Forall_cons in Hq as [Hm _]. eapply acct_legal; [|done|done|done]. eauto.
Qed.
Lemma book_accepted n now m k e out q ts chan next :
  book n (k, (e, out)) (m :: q) ts chan next → (now ≤ u64_max)%N → (e_next_job_id e ≤ MAX_RECORD_ID)%N → (N.of_nat (size (seats e)) + 1 < 2 ^ 32)%N →
  accepted now (input_of m) e = true.
Proof.
  intros Hb Hnow Hid Hs. unfold accepted. rewrite (book_legal _ _ _ _ _ _ _ _ _ _ Hb Hnow Hs). pose proof (bk_queue _ _ _ _ _ _ _ Hb) as [Hm _]%Forall_cons.
  apply andb_true_iff in Hm as [-> _]. by apply N.leb_le.
Qed.

Section thread.
Context {X : Type} (past : S → list X) (image : X → Live → Prop) (holds : Live → S → Prop) `{HL : !LogLaws past image holds}.
#[local] Abbreviation actor_ok := (actor_ok holds).
Lemma turn_book n ne L now i a a' sent m q ts chan next :
  actor_ok ne L a → (ne ≤ run_limit)%N → legal now i (a_engine a) = true → given m i → a_conns a' = conns_after m (a_conns a) →
  turn_ok past image holds ne L now i a (inl ()) a' sent → book n (desk a) (m :: q) ts chan next →
  book n (desk a') q ts (λ c, chan c ++ replies_to c sent) next.
Proof.
  intros (bl & _ & _ & Hs & _) Hne Hl Hg Hc (_ & _ & Hsent & st & He) Hb. destruct (sy_wf _ _ _ Hs) as (b & HI & Hids & Hseq).
  pose proof (wf_after_grow _ _ _ HI Hids Hseq Hne) as Hbud. pose proof (book_pop n b now m i (a_conns a) (a_engine a) [] q ts chan next HI Hbud Hl Hg Hb) as Hb1.
  rewrite <-Hc in Hb1. destruct (apply_input now i (a_engine a, [])) as [e1 out1]. cbn [fst snd] in *.
  unfold desk. eapply book_engine; [| |by eapply book_deliver]; by rewrite He.
Qed.
Lemma run_thread_inv n ne L t0 t s s' :
  alive s = true → server_inv n s → actor_ok ne L (sv_actor s) → (ne ≤ run_limit)%N → room s = true → run_thread t0 t s = Some s' →
  alive s' = true → server_inv n s'.
Proof using HL.
  intros Ha HI Hok Hne [Hid%N.leb_le Hroom%N.ltb_lt]%andb_true_iff. unfold run_thread. destruct (sv_queue s) as [|m q] eqn:Hq; [done|].
  set (now := Clock_now (sv_clock s) t). pose proof (crowd_seats (m :: q) (a_engine (sv_actor s))) as Hcr. pose proof HI as HI0.
  unfold ServerRun.server_inv in HI. rewrite Hq in HI.
  pose proof (book_accepted n now m _ _ _ q _ _ _ HI (Clock_now_u64 _ _) Hid ltac:(lia)) as Hacc.
  destruct (run_turn now t0 t (Got m) (sv_actor s)) as [[r a'] sent] eqn:Hturn. intros [= <-]. rewrite alive_ended, (proj1 (settle_ended _ _ _ _ _)). intros ->.
  assert (on_message now t m (sv_actor s) = (inl (), a', sent)) as Hm.
  { destruct m; cbn [run_turn] in Hturn; [..|by repeat case_match]; destruct (on_message _ _ _ _) as [[[[]|e] a1] sent1]; by simplify_eq. }
  pose proof (on_message_ok past image holds ne L now t m (sv_actor s) Hok Hne Hacc) as HO. rewrite Hm in HO. destruct HO as (i & Hg & HT).
  apply settle_inv. eapply turn_book; try done; [|by eapply on_message_conns].
  pose proof (given_accepted _ _ _ _ Hg Hacc) as Hi. unfold accepted in Hi. apply andb_true_iff in Hi as [Hi _]. by apply andb_true_iff in Hi as [Hi _].
Qed.
Lemma run_timer_inv n ne L t0 t s s' :
  alive s = true → server_inv n s → actor_ok ne L (sv_actor s) → (ne ≤ run_limit)%N → room s = true → run_timer t0 t s = Some s' →
  alive s' = true → server_inv n s'.
Proof using HL.
  intros Ha HI Hok Hne [Hid%N.leb_le Hroom%N.ltb_lt]%andb_true_iff. unfold run_timer. set (now := Clock_now (sv_clock s) t).
  destruct (match a_binlog (sv_actor s) with Some _ => _ | None => _ end); [|done].
  destruct (run_turn now t0 t TimedOut (sv_actor s)) as [[r a'] sent] eqn:Hturn. intros [= <-]. rewrite alive_ended, (proj1 (settle_ended _ _ _ _ _)). intros ->.
  assert (accepted now EngineInput.Tick (a_engine (sv_actor s)) = true) as Hacc.
  { unfold accepted, legal. cbn. rewrite !andb_true_iff, !N.leb_le. split_and!; [|done..]. apply Clock_now_u64. }
  assert (on_timer now t0 t (sv_actor s) = (inl (), a', sent)) as Hm.
  { cbn [run_turn] in Hturn. destruct (on_timer _ _ _ _) as [[[[]|e] a1] sent1]; by simplify_eq. }
  pose proof (on_timer_ok past image holds ne L now t0 t (sv_actor s) Hok Hne Hacc) as HT. rewrite Hm in HT.
  apply settle_inv. eapply (turn_book n ne L now EngineInput.Tick _ _ _ (EngineMsg.Snapshot 0)); try done.
  - unfold accepted in Hacc. apply andb_true_iff in Hacc as [Hacc _]. by apply andb_true_iff in Hacc as [Hacc _].
  - by left.
  - by eapply on_timer_conns.
  - by apply book_skip.
Qed.
End thread.

(** ** The task *)
Lemma apply_unlogged now m a :
  a_binlog a = None → ∃ a' sent, apply_engine_msg now m a = (inl (), a', sent) ∧ replies sent = [] ∧ a_binlog a' = None ∧
  (a_engine a', a_outbox a') = run_input now (input_of m) (a_engine a, a_outbox a) ∧ a_conns a' = conns_after m (a_conns a).
Proof.
  intros Hb. assert (∀ x : Engine * Outbox, (x.1, x.2) = x) as Hpair by (by intros []).
  destruct m as [c|c cmd|c tb|c why|c|c|on|mt|]; cbn [apply_engine_msg];
    try (eexists _, _; split; [reflexivity|]; split_and!; [done|exact Hb|cbn; first [done|apply Hpair]|done]).
  unfold command. rewrite Hb. destruct cmd; repeat case_match; eexists _, _; (split; [reflexivity|]); split_and!; try done; apply Hpair.
Qed.
Lemma crowd_pop m q e i : given m i → (∀ now out, crowd q (apply_input now i (e, out)).1 ≤ crowd (m :: q) e)%N.
Proof.
  intros Hg now out. unfold crowd. rewrite seats_input, (given_seats m i) by done. unfold connects. rewrite filter_cons. cbn [fst].
  destruct m; cbn [input_of seats_after]; try (rewrite decide_False by done; lia).
  - rewrite decide_True by done. cbn [length]. rewrite size_union_alt, size_singleton.
    pose proof (subseteq_size (seats e ∖ {[conn]}) (seats e) ltac:(set_solver)). lia.
  - rewrite decide_False by done. pose proof (subseteq_size (seats e ∖ {[conn]}) (seats e) ltac:(set_solver)). lia.
Qed.
(** One message of a batch. *)
Lemma batch_step n ne now m a a' sent q ts chan next :
  a_binlog a = None → wf_after ne (a_engine a) → (ne ≤ run_limit)%N → (now ≤ u64_max)%N → (crowd (m :: q) (a_engine a) + 1 < 2 ^ 32)%N →
  book n (a_conns a, (a_engine a, a_outbox a)) (m :: q) ts chan next → apply_engine_msg now m a = (inl (), a', sent) →
  let a1 := tick_actor now a' in
  replies sent = [] ∧ a_binlog a1 = None ∧ wf_after (ne + 1) (a_engine a1) ∧ (crowd q (a_engine a1) + 1 < 2 ^ 32)%N ∧
  book n (a_conns a1, (a_engine a1, a_outbox a1)) q ts chan next.
Proof.
  intros Hb Hwf Hne Hnow Hcr Hbook Happ a1. destruct (apply_unlogged now m a Hb) as (a2 & sent2 & Happ2 & Hs & Hb2 & He & Hc).
  assert (a2 = a' ∧ sent2 = sent) as [-> ->] by (rewrite Happ in Happ2; by injection Happ2). clear Happ2.
  assert ((a_engine a1, a_outbox a1) = apply_input now (input_of m) (a_engine a, a_outbox a)) as He1.
  { unfold a1, apply_input. rewrite <-He. cbn. by destruct (tick now _). }
  pose proof (crowd_seats (m :: q) (a_engine a)) as Hcs. pose proof (book_legal n now m _ _ _ q _ _ _ Hbook Hnow ltac:(lia)) as Hl.
  destruct Hwf as (b & HI & Hids & Hseq). pose proof (wf_after_grow _ _ _ HI Hids Hseq Hne) as Hbud. split_and!; [done|done| | |].
  - replace (a_engine a1) with (apply_input now (input_of m) (a_engine a, a_outbox a)).1 by (by rewrite <-He1). apply wf_after_step; [by exists b|done|done].
  - replace (a_engine a1) with (apply_input now (input_of m) (a_engine a, a_outbox a)).1 by (by rewrite <-He1).
    pose proof (crowd_pop m q (a_engine a) (input_of m) ltac:(by left) now (a_outbox a)). lia.
  - rewrite He1. change (a_conns a1) with (a_conns a'). rewrite Hc. eapply book_pop; try done. by left.
Qed.
Lemma batch_inv fuel t queue n ne rest ts chan next a a' sent left :
  a_binlog a = None → wf_after ne (a_engine a) → (ne + N.of_nat fuel ≤ run_limit)%N → Forall (λ x, (x.1 ≤ u64_max)%N) queue →
  (crowd (queue.*2 ++ rest) (a_engine a) + 1 < 2 ^ 32)%N → book n (a_conns a, (a_engine a, a_outbox a)) (queue.*2 ++ rest) ts chan next →
  batch fuel t queue a = (Waiting, a', sent, left) →
  a_binlog a' = None ∧ wf_after (ne + N.of_nat fuel) (a_engine a') ∧ book n (desk a') (left.*2 ++ rest) ts (λ c, chan c ++ replies_to c sent) next.
Proof.
  revert queue ne a a' sent left.
  assert (∀ k (queue : list (Nanos * EngineMsg)) ne a a' sent left, a_binlog a = None → wf_after ne (a_engine a) →
    book n (a_conns a, (a_engine a, a_outbox a)) (queue.*2 ++ rest) ts chan next → (let '(a, sent) := deliver a in (Waiting, a, sent, queue)) = (Waiting, a', sent, left) →
    a_binlog a' = None ∧ wf_after (ne + k) (a_engine a') ∧ book n (desk a') (left.*2 ++ rest) ts (λ c, chan c ++ replies_to c sent) next) as Hdone.
  { intros k queue ne a a' sent left Hb Hwf Hbook [= <- <- <-]. split_and!; [done| |].
    - eapply wf_after_le; [|exact Hwf]. lia.
    - eapply book_deliver; [|exact Hbook]. apply replies_fmap. }
  induction fuel as [|fuel IH]; intros queue ne a a' sent left Hb Hwf Hne Hq Hcr Hbook; [by apply Hdone|].
  destruct queue as [|[now m] queue]; [by apply Hdone|]. apply Forall_cons in Hq as [Hnow Hq]. cbn [batch fmap list_fmap fst snd app] in *.
  destruct (apply_unlogged now m a Hb) as (a1 & sent1 & Happ & _).
  destruct (batch_step n ne now m a a1 sent1 (queue.*2 ++ rest) ts chan next Hb Hwf ltac:(lia) Hnow Hcr Hbook Happ) as (Hs1 & Hb1 & Hwf1 & Hcr1 & Hbook1).
  assert (m ≠ EngineMsg.Shutdown → (let '(r, a, sent', queue) := batch fuel t queue (tick_actor now a1) in (r, a, sent1 ++ sent', queue)) = (Waiting, a', sent, left) →
    a_binlog a' = None ∧ wf_after (ne + N.of_nat (Datatypes.S fuel)) (a_engine a') ∧ book n (desk a') (left.*2 ++ rest) ts (λ c, chan c ++ replies_to c sent) next) as Hrec.
  { intros _. destruct (batch fuel t queue (tick_actor now a1)) as [[[r a2] sent2] left2] eqn:Hbt. intros [= -> -> <- ->].
    destruct (IH _ _ _ _ _ _ Hb1 Hwf1 ltac:(lia) Hq Hcr1 Hbook1 Hbt) as (? & Hwf2 & Hbook2). split_and!; [done| |].
    - eapply wf_after_le; [|exact Hwf2]. lia.
    - eapply book_chan; [|exact Hbook2]. intros c. unfold replies_to, replies in *. by rewrite omap_app, Hs1. }
  destruct m; try (rewrite Happ; by apply Hrec). destruct (deliver a) as [a2 sent2]. by destruct (shutdown t a2) as [[[]|] ?].
Qed.
Lemma run_batch_inv n ne t tms s s' :
  alive s = true → server_inv n s → a_binlog (sv_actor s) = None → wf_after ne (a_engine (sv_actor s)) → (ne + 64 ≤ run_limit)%N → room s = true →
  run_batch t tms s = Some s' → alive s' = true →
  server_inv n s' ∧ a_binlog (sv_actor s') = None ∧ wf_after (ne + 64) (a_engine (sv_actor s')).
Proof.
  intros Ha HI Hb Hwf Hne [_ Hroom%N.ltb_lt]%andb_true_iff. unfold run_batch. destruct (_ && _) eqn:Hn; [|done]. apply andb_true_iff in Hn as [Hn1%Nat.leb_le Hn2%Nat.leb_le].
  set (msgs := zip _ _). destruct (run_task_turn t msgs (sv_actor s)) as [[[r a'] sent] left] eqn:Hturn. intros [= <-].
  destruct (settle_ended r a' sent (left.*2 ++ drop (length tms) (sv_queue s)) s) as [He Hact]. rewrite alive_ended, He, Hact. intros ->.
  assert (msgs.*2 = take (length tms) (sv_queue s)) as Hm by (unfold msgs; apply snd_zip; rewrite length_take, length_fmap; lia).
  assert (batch ACTOR_BATCH_LIMIT t msgs (clear_outbox (sv_actor s)) = (Waiting, a', sent, left)) as Hbt.
  { unfold run_task_turn in Hturn. destruct msgs as [|[now m] msgs']; [|destruct m; try done; by repeat case_match].
    symmetry in Hm. apply (f_equal length) in Hm. rewrite length_take in Hm. cbn in Hm. lia. }
  destruct (batch_inv ACTOR_BATCH_LIMIT t msgs n ne (drop (length tms) (sv_queue s)) (sv_tasks s) (channel s) (sv_next_id s)
    (clear_outbox (sv_actor s)) a' sent left Hb Hwf Hne) as (Hb' & Hwf' & Hbook); [|by rewrite Hm, take_drop|by rewrite Hm, take_drop|exact Hbt|].
  - apply Forall_forall. intros [now m] Hin. apply elem_of_zip_l, list_elem_of_fmap in Hin as (t' & -> & _). apply Clock_now_u64.
  - split_and!; [by apply settle_inv|done|exact Hwf'].
Qed.
Lemma run_timer_unlogged n ne t0 t s s' :
  alive s = true → server_inv n s → a_binlog (sv_actor s) = None → wf_after ne (a_engine (sv_actor s)) → (ne ≤ run_limit)%N → run_timer t0 t s = Some s' →
  alive s' = true ∧ server_inv n s' ∧ a_binlog (sv_actor s') = None ∧ wf_after (ne + 1) (a_engine (sv_actor s')).
Proof.
  intros Ha HI Hb Hwf Hne. unfold run_timer. set (now := Clock_now (sv_clock s) t). rewrite Hb. destruct (bool_decide _); [|done].
  cbn [run_turn]. unfold on_timer, finish. cbn [clear_outbox with_engine a_binlog]. rewrite Hb. set (a1 := tick_actor now _).
  assert (persist t a1 = (inl (), a1)) as -> by (unfold persist; change (a_binlog a1) with (a_binlog (sv_actor s)); by rewrite Hb).
  assert ((a_engine a1, a_outbox a1) = apply_input now EngineInput.Tick (a_engine (sv_actor s), [])) as He1 by (unfold apply_input, a1; cbn; by destruct (tick now _)).
  cbn [deliver]. intros [= <-]. set (sent := fmap _ _). destruct (settle_ended Waiting (clear_outbox a1) sent (sv_queue s) s) as [He Hact].
  assert (legal now EngineInput.Tick (a_engine (sv_actor s)) = true) as Hl by (unfold legal; cbn; rewrite andb_true_r; apply N.leb_le, Clock_now_u64).
  pose proof Hwf as (b & HIb & Hids & Hseq). pose proof (wf_after_grow _ _ _ HIb Hids Hseq Hne) as Hbud. split_and!.
  - by apply alive_ended.
  - apply settle_inv. change (desk (clear_outbox a1)) with (a_conns a1, (a_engine a1, [] : Outbox)). eapply (book_deliver _ _ _ (a_outbox a1)); [apply replies_fmap|].
    rewrite He1. by eapply book_tick.
  - by rewrite Hact.
  - rewrite Hact. cbn [clear_outbox with_engine a_engine fst]. replace (a_engine a1) with (apply_input now EngineInput.Tick (a_engine (sv_actor s), [])).1 by (by rewrite <-He1).
    by apply wf_after_step.
Qed.
End turns.
