(* ===== verification/ServerReach.v ===== *)
(** * The states of the server

    [reachable] are the states of a server that started on an actor: any
    interleaving of the accept loops, the tasks, the actor, the timers and the
    signals.  While the actor runs the accounts balance ([server_inv]); with a
    log, what is on disk is what the engine has. *)

From S2P Require Import Prelude Ms Proto Stats Parse Codec Reply Model Format Engine Frames Inv InvFrame InvRefresh Queues Moves Tubes.
From S2P Require Import Waiting Rest Dispatch ConnOps Commands Sessions Connect Tick Reach Serve Effects.
From S2P Require Import Keep Sized Replica Once Seats Snapshot Replay Scan Wal Recover Actor Durable Auth Conn Server ServerInv ServerRun ServerTurn.
From stdpp Require Import options.

(** How many steps a run may have: a step gives the engine at most 64 inputs. *)
Definition server_limit : N := 2 ^ 54.

Section reach.
Context `{Subtle} {S : Type} `{Log S} (max_job_size : N) (Hmax : (max_job_size ≤ MAX_JOB_SIZE_LIMIT)%N).
Implicit Types (s : Server S) (a : Actor S).
#[local] Abbreviation server_inv := (server_inv max_job_size).
#[local] Abbreviation server_step := (server_step max_job_size).
Inductive reachable s0 : N → Server S → Prop :=
  | reach_start : reachable s0 0 s0
  | reach_step k ev s s' : reachable s0 k s → room s = true → server_step ev s = Some s' → reachable s0 (k + 1) s'.
(** An actor that has just started. *)
Definition fresh_actor a : Prop := a_conns a = ∅ ∧ e_conns (a_engine a) = ∅ ∧ e_local_conns (a_engine a) = None.
Lemma serve_inv clock max_pending a : fresh_actor a → server_inv 1 (serve clock max_pending a).
Proof.
  clear Hmax. intros (Hc & He & Hl). assert (seats (a_engine a) = ∅) as Hs by (unfold seats; by rewrite He, dom_empty_L).
  split; cbn; try done; [by apply NoDup_nil|by intros c ?%elem_of_nil| |by rewrite Hc, Hs].
  intros c. split; cbn [fst snd].
  - by rewrite bool_decide_eq_false_2 by (rewrite Hs; set_solver).
  - unfold due, owed, rels. cbn. by rewrite He, fmap_empty, lookup_empty.
  - by intros ?%elem_of_nil.
  - intros _. unfold due, owed, rels. cbn. by rewrite He, fmap_empty, lookup_empty.
  - done.
Qed.
(** The steps that are not the actor's. *)
Definition actors (ev : Event) : bool := match ev with Event.Turn _ _ | Event.Timer _ _ | Event.Batch _ _ => true | _ => false end.
Lemma server_step_inv n ev s s' :
  actors ev = false → alive s = true → (n + 1 < 2 ^ 64)%N → server_inv n s → server_step ev s = Some s' → alive s' = true ∧ server_inv (n + 1) s'.
Proof using Hmax.
  intros Hev Ha Hn HI. pose proof Ha as He. apply alive_ended in He. unfold Server.server_step. rewrite He.
  assert (∀ s', alive s' = true ∧ server_inv n s' → alive s' = true ∧ server_inv (n + 1) s') as Hle.
  { intros s1 [? HI1]. split; [done|]. eapply book_le; [|exact HI1]. lia. }
  destruct ev as [registered|auth now|i ev|t0 t|t0 t|t tms|max_tubes| |]; try done.
  - destruct (sv_serving s); [|done]. intros [= <-]. by apply accept_plain_inv.
  - destruct (sv_serving s); [|done]. intros [= <-]. by apply Hle, accept_tls_inv.
  - by apply run_conn_inv.
  - intros [= <-]. by apply Hle, send_inv.
  - destruct (sv_serving s); [|done]. intros [= <-]. by apply Hle, send_inv.
  - destruct (sv_serving s); [|done]. intros [= <-]. apply Hle. unfold stop.
    by apply (send_inv max_job_size n EngineMsg.Shutdown s).
Qed.
(** They leave the actor alone. *)
Definition same_actor s s' : Prop := sv_actor s' = sv_actor s ∧ sv_ended s' = sv_ended s.
Lemma same_send m s s1 : same_actor s s1 → same_actor s (send m s1).
Proof. intros [? ?]. unfold send. by case_match. Qed.
Lemma same_output out s s1 : same_actor s s1 → same_actor s (foldl output s1 out).
Proof.
  revert s1. induction out as [|o out IH]; intros s1 Hs; [done|]. cbn [foldl]. apply IH. destruct o; try done. by apply same_send.
Qed.
Lemma same_conn i ev s s' : run_conn max_job_size i ev s = Some s' → same_actor s s'.
Proof.
  intros (t & _ & (s1 & Hs & ([t' out] & _ & [= <-])%bind_Some)%bind_Some)%bind_Some. apply same_output. unfold serve_task, take_id, ConnIds_next in Hs.
  destruct ev as [| | |[]], t; repeat case_match; by simplify_eq/=.
Qed.
Lemma same_accept registered s : same_actor s (accept_plain max_job_size registered s).
Proof.
  unfold accept_plain. cbn [take_id ConnIds_next]. case_match; [|done]. destruct (handle_plain _ _ _) as [task out]. apply same_output. by apply same_send.
Qed.
Lemma same_accept_tls auth now s : same_actor s (accept_tls auth now s).
Proof. unfold accept_tls. destruct (try_acquire _ _) as [[[] ?] ?]; done. Qed.
Lemma same_stop s : same_actor s (stop s).
Proof. unfold stop. by apply (same_send EngineMsg.Shutdown s s). Qed.
Lemma same_step ev s s' : actors ev = false → server_step ev s = Some s' → same_actor s s'.
Proof.
  intros Hev. unfold Server.server_step. destruct (sv_ended s) as [| |e] eqn:He; [| |done]; destruct ev; try done; try apply same_conn;
    try (case_match; [|done]); intros [= <-]; first [by apply same_send|apply same_accept|apply same_accept_tls|apply same_stop].
Qed.

(** ** With a log *)
Section logged.
Context {X : Type} (past : S → list X) (image : X → Live → Prop) (holds : Live → S → Prop) `{HL : !LogLaws past image holds}.
Context (a0 : Actor S) (L0 : Live) (clock : Clock) (max_pending : N).
(** From [a0] the log has gained what the engine did, and while the actor
    runs the accounts balance. *)
Definition logged_ok (k : N) s : Prop :=
  ∃ ne recs, (ne ≤ k)%N ∧ run_ok past image holds ne L0 recs a0 (sv_ended s) (sv_actor s) ∧ (alive s = true → server_inv (k + 1) s).
Lemma run_ok_step ne ne' recs recs' a a' r :
  run_ok past image holds ne L0 recs a0 Waiting a → run_ok past image holds ne' (live_run L0 recs) recs' a r a' →
  run_ok past image holds ne' L0 (recs ++ recs') a0 r a'.
Proof. intros [Hg _] [Hg' Hr]. split; [by eapply gained_app|]. unfold live_run in *. by rewrite foldl_app. Qed.
Lemma logged_turn k s s' got t0 t r a' sent q :
  logged_ok k s → alive s = true → (k ≤ server_limit)%N → receivable (Clock_now (sv_clock s) t) got (sv_actor s) = true →
  run_turn (Clock_now (sv_clock s) t) t0 t got (sv_actor s) = (r, a', sent) → s' = settle r a' sent q s →
  (alive s' = true → server_inv (k + 1) s') → logged_ok (k + 1) s'.
Proof using HL Hmax.
  intros (ne & recs & Hne & Hrun & _) Ha Hk Hgot Hturn -> Hinv. pose proof Ha as He. apply alive_ended in He. rewrite He in Hrun. pose proof Hrun as [_ Hok].
  assert (ne ≤ run_limit)%N as Hl by (unfold run_limit, server_limit in *; lia).
  pose proof (run_turn_ok past image holds ne _ _ t0 t got _ Hok Hl Hgot) as HT. rewrite Hturn in HT. destruct HT as (m & recs' & Hm & HT).
  exists m, (recs ++ recs'). destruct (settle_ended r a' sent q s) as [-> ->]. split_and!; [lia|by eapply run_ok_step|].
  intros Hs. eapply book_le; [|by apply Hinv]. lia.
Qed.
Lemma logged_step k ev s s' :
  logged_ok k s → (k ≤ server_limit)%N → room s = true → server_step ev s = Some s' → logged_ok (k + 1) s'.
Proof using HL Hmax.
  intros Hok Hk Hroom Hstep. pose proof Hok as (ne & recs & Hne & Hrun & Hinv). destruct (actors ev) eqn:Hev.
  2: { destruct (same_step ev s s' Hev Hstep) as [Hac He]. exists ne, recs. rewrite Hac, He. split_and!; [lia|done|].
    intros Ha'. assert (alive s = true) as Ha by (apply alive_ended; apply alive_ended in Ha'; congruence).
    unfold server_limit in Hk. by apply (server_step_inv (k + 1) ev s s' Hev Ha ltac:(lia) (Hinv Ha) Hstep). }
  destruct (sv_ended s) as [| |e] eqn:He; [|by unfold Server.server_step in Hstep; rewrite He in Hstep; destruct ev..].
  assert (alive s = true) as Ha by (by apply alive_ended). specialize (Hinv Ha). pose proof Hrun as [_ Hact]. pose proof Hact as (bl & Hbl & _).
  assert (ne ≤ run_limit)%N as Hl by (unfold run_limit, server_limit in *; lia).
  unfold Server.server_step in Hstep. rewrite He in Hstep. destruct ev as [| | |t0 t|t0 t|t tms| | |]; try done.
  - rewrite bool_decide_eq_true_2 in Hstep by (rewrite Hbl; by eexists). pose proof (run_thread_inv max_job_size past image holds (k + 1) ne _ t0 t s s' Ha Hinv Hact Hl Hroom Hstep) as HI.
    unfold run_thread in Hstep. destruct (sv_queue s) as [|m q] eqn:Hq; [done|].
    destruct (run_turn _ t0 t (Got m) (sv_actor s)) as [[r a'] sent] eqn:Hturn. injection Hstep as <-. eapply logged_turn; [done|done|done| |exact Hturn|done|done].
    apply andb_true_iff in Hroom as [Hid%N.leb_le Hcr%N.ltb_lt]. pose proof (crowd_seats (sv_queue s) (a_engine (sv_actor s))) as Hcs.
    assert (accepted (Clock_now (sv_clock s) t) (input_of m) (a_engine (sv_actor s)) = true) as Hacc.
    { unfold ServerRun.server_inv in Hinv. rewrite Hq in Hinv. eapply book_accepted; [exact Hinv|apply Clock_now_u64|done|lia]. }
    by destruct m.
  - pose proof (run_timer_inv max_job_size past image holds (k + 1) ne _ t0 t s s' Ha Hinv Hact Hl Hroom Hstep) as HI.
    unfold run_timer in Hstep. destruct (match a_binlog (sv_actor s) with Some _ => _ | None => _ end); [|done].
    destruct (run_turn _ t0 t TimedOut (sv_actor s)) as [[r a'] sent] eqn:Hturn. injection Hstep as <-. eapply logged_turn; [done|done|done| |exact Hturn|done|done].
    apply andb_true_iff in Hroom as [Hid _]. unfold receivable, accepted, legal. cbn. rewrite Hid, !andb_true_r. apply N.leb_le, Clock_now_u64.
  - rewrite bool_decide_eq_false_2 in Hstep; [done|]. by rewrite Hbl.
Qed.
Lemma logged_reachable k s :
  actor_ok holds 0 L0 a0 → fresh_actor a0 → reachable (serve clock max_pending a0) k s → (k ≤ server_limit)%N → logged_ok k s.
Proof using HL Hmax.
  intros Ha0 Hf. induction 1 as [|k ev s s' _ IH Hroom Hstep]; intros Hk.
  - exists 0%N, []. split_and!; [done| |by intros _; apply serve_inv]. split; [|exact Ha0]. destruct Ha0 as (b & Hb & _). exists b, b. split_and!; eauto using wrote_refl.
  - eapply logged_step; [apply IH; lia|lia|done|done].
Qed.
End logged.

(** ** Without a log *)
Definition unlogged_ok (k : N) s : Prop :=
  alive s = true → server_inv (k + 1) s ∧ a_binlog (sv_actor s) = None ∧ wf_after (64 * k) (a_engine (sv_actor s)).
Lemma unlogged_step k ev s s' :
  unlogged_ok k s → (k ≤ server_limit)%N → room s = true → server_step ev s = Some s' → unlogged_ok (k + 1) s'.
Proof using Hmax.
  intros Hok Hk Hroom Hstep Ha'. destruct (actors ev) eqn:Hev.
  { destruct (sv_ended s) as [| |e] eqn:He; [|by unfold Server.server_step in Hstep; rewrite He in Hstep; destruct ev..].
    assert (alive s = true) as Ha by (by apply alive_ended). destruct (Hok Ha) as (Hinv & Hb & Hwf). unfold server_limit in Hk.
    assert (64 * k + 64 ≤ run_limit)%N as Hl by (unfold run_limit; lia). assert (64 * (k + 1) = 64 * k + 64)%N as Hk1 by lia.
    assert (∀ s', server_inv (k + 1) s' → server_inv (k + 1 + 1) s') as Hle by (intros s1; apply book_le; lia).
    unfold Server.server_step in Hstep. rewrite He in Hstep. destruct ev as [| | |t0 t|t0 t|t tms| | |]; try done.
    - rewrite bool_decide_eq_false_2 in Hstep; [done|]. rewrite Hb. by intros [].
    - destruct (run_timer_unlogged max_job_size (k + 1) (64 * k) t0 t s s' Ha Hinv Hb Hwf ltac:(lia) Hstep) as (_ & ? & ? & ?).
      rewrite Hk1. split_and!; [auto|done|]. eapply wf_after_le; [|done]. lia.
    - rewrite bool_decide_eq_true_2 in Hstep by done.
      destruct (run_batch_inv max_job_size (k + 1) (64 * k) t tms s s' Ha Hinv Hb Hwf Hl Hroom Hstep Ha') as (? & ? & ?). rewrite Hk1. auto. }
  destruct (same_step ev s s' Hev Hstep) as [Hac He]. assert (alive s = true) as Ha by (apply alive_ended; apply alive_ended in Ha'; congruence).
  destruct (Hok Ha) as (Hinv & Hb & Hwf). rewrite Hac. unfold server_limit in Hk. split_and!; [|done|eapply wf_after_le; [|done]; lia].
  by apply (server_step_inv (k + 1) ev s s' Hev Ha ltac:(lia) Hinv Hstep).
Qed.
Lemma unlogged_reachable a0 clock max_pending k s :
  a_binlog a0 = None → wf_after 0 (a_engine a0) → fresh_actor a0 → reachable (serve clock max_pending a0) k s → (k ≤ server_limit)%N → unlogged_ok k s.
Proof using Hmax.
  intros Hb Hwf Hf. induction 1 as [|k ev s s' _ IH Hroom Hstep]; intros Hk.
  - intros _. split_and!; [by apply serve_inv|done|done].
  - eapply unlogged_step; [apply IH; lia|lia|done|done].
Qed.
End reach.
