(* ===== verification/ServerPend.v ===== *)
(** * Connections that have not logged in

    The count of pending connections ([server/pending.rs]) over the runs of
    the server: a task holds a place from the accept to the end of the login,
    and gives it back once. *)

From S2P Require Import Prelude Ms Proto Stats Parse Codec Reply Model Format Engine Snapshot Replay Scan Wal Actor Auth Conn Server.
From stdpp Require Import options.

Definition pending_task (t : Task) : N := match t with Task.Handshaking _ | Task.Authenticating _ => 1 | _ => 0 end.
Fixpoint pending_tasks (ts : list Task) : N := match ts with [] => 0 | t :: ts => (pending_task t + pending_tasks ts)%N end.
Fixpoint drops (out : list Output) : N :=
  match out with
  | [] => 0
  | Output.DropPending :: out => 1 + drops out
  | _ :: out => drops out
  end%N.

Lemma pending_tasks_app ts ts' : pending_tasks (ts ++ ts') = (pending_tasks ts + pending_tasks ts')%N.
Proof. induction ts as [|t ts IH]; cbn; [done|]. rewrite IH. lia. Qed.
Lemma pending_tasks_insert ts i t t' :
  ts !! i = Some t → (pending_tasks (<[i := t']> ts) + pending_task t = pending_tasks ts + pending_task t')%N.
Proof.
  intros Hi. rewrite insert_take_drop by (by eapply lookup_lt_Some). rewrite <-(take_drop_middle ts i t Hi) at 3. rewrite !pending_tasks_app. cbn. lia.
Qed.
Section pend.
Context `{Subtle}.
Lemma proceed_drops alive next l : drops (proceed alive next l).2 = 0%N.
Proof. destruct next; cbn; [done|by destruct alive, (l_eof l)|done|by destruct (l_eof l)]. Qed.
Lemma flush_drops alive next l : drops (flush alive next l).2 = 0%N.
Proof. unfold flush. case_bool_decide; [apply proceed_drops|done]. Qed.
Lemma loop_drops alive l : drops (loop_turn alive l).2 = 0%N.
Proof.
  unfold loop_turn. destruct (decode _ _) as [[[f|] codec] rbuf]; [|apply flush_drops].
  destruct f as [[]| |too_big|token|]; try apply flush_drops; [by destruct alive| |done].
  destruct (l_auth _) as [tokens|]; [|done]. destruct (verify tokens token); [done|].
  match goal with |- context [flush ?a ?n ?x] => pose proof (flush_drops a n x) as H1; destruct (flush a n x) end. exact H1.
Qed.
Lemma command_turn_drops alive w l l' out : command_turn alive w l = Some (l', out) → drops out = 0%N.
Proof.
  intros Hw. change out with (l', out).2. unfold command_turn in Hw. destruct (l_phase l), w as [|ok|r|reply]; try done.
  - injection Hw as <-. apply loop_drops.
  - injection Hw as <-. destruct ok; [apply proceed_drops|done].
  - injection Hw as <-. by destruct r as [[]| |].
  - destruct (reads_on l); [|done]. injection Hw as <-. by destruct r as [[]| |].
  - injection Hw as <-. destruct reply; [apply flush_drops|done].
Qed.
Lemma login_drops g : (drops (login_turn g).2 + pending_task (login_turn g).1 = 1)%N.
Proof. unfold login_turn. destruct (decode _ _) as [[[[[]| | | |]|] codec] rbuf]; try done. by destruct (verify _ _). Qed.
Lemma authenticate_drops w g t' out : authenticate w g = Some (t', out) → (drops out + pending_task t' = 1)%N.
Proof.
  unfold authenticate. destruct (g_phase g), w as [| |r|]; try done.
  - intros [= Hl]. pose proof (login_drops g) as H1. by rewrite Hl in H1.
  - by destruct r as [[]| |]; intros [= <- <-].
  - by intros [= <- <-].
  - by intros [= <- <-].
Qed.
(** A task gives its place back when it stops being pending. *)
Lemma task_turn_drops max_job_size alive ev t t' out :
  task_turn max_job_size alive ev t = Some (t', out) → (drops out + pending_task t' = pending_task t)%N.
Proof.
  destruct t as [auth|g|codec rbuf wbuf auth|l|]; cbn [task_turn].
  - by destruct auth, ev as [[]| | |]; intros [= <- <-].
  - destruct ev as [| | |w]; try done; [|apply authenticate_drops]. by destruct (g_phase g); intros [= <- <-].
  - by destruct ev; try done; destruct alive; intros [= <- <-].
  - destruct ev as [| | |w]; try done. destruct (command_turn alive w l) as [[l' o]|] eqn:Hw; [|done]. cbn. intros [= <- <-]. by rewrite (command_turn_drops _ _ _ _ _ Hw).
  - by destruct ev.
Qed.

Context {S : Type} `{Log S} (max_job_size : N).
Implicit Types (s : Server S).
Definition pending_ok (m : N) s : Prop :=
  pc_max_pending (sv_counters s) = m ∧ pc_pending (sv_counters s) = pending_tasks (sv_tasks s) ∧ (pc_pending (sv_counters s) ≤ m < 2 ^ 64)%N.
(** The counters and the tasks are all it sees. *)
Definition pends s : ServerCounters * list Task := (sv_counters s, sv_tasks s).
Lemma pends_ok m s s' : pends s' = pends s → pending_ok m s → pending_ok m s'.
Proof. unfold pends, pending_ok. by intros [= -> ->]. Qed.
Lemma pends_send m s : pends (send m s) = pends s.
Proof. unfold send. by case_match. Qed.
Lemma pends_settle r a sent q s : pends (settle r a sent q s) = pends s.
Proof.
  unfold settle. match goal with |- context [foldl _ ?x _] => assert (pends x = pends s) as Hx by done; revert Hx; generalize x end.
  induction sent as [|[] sent IH]; intros x Hx; cbn; [done|apply IH; by rewrite <-Hx..].
Qed.
Lemma output_pending s out :
  sv_tasks (foldl output s out) = sv_tasks s ∧ pc_max_pending (sv_counters (foldl output s out)) = pc_max_pending (sv_counters s) ∧
  ((drops out ≤ pc_pending (sv_counters s) < 2 ^ 64)%N → (pc_pending (sv_counters (foldl output s out)) + drops out = pc_pending (sv_counters s))%N).
Proof.
  revert s. induction out as [|o out IH]; intros s; cbn [foldl]; [change (drops []) with 0%N; split_and!; [done|done|lia]|].
  destruct (IH (output s o)) as (-> & -> & Hp). destruct o as [m| | | |]; cbn [output] in *.
  1: pose proof (pends_send m s) as E; injection E as E1 E2; rewrite E1, E2; rewrite E1 in Hp.
  1-4: split_and!; [done|done|exact Hp].
  split_and!; [done|done|]. cbn [drops].
  cbn [sv_counters with_counters drop_pending pc_pending] in *. intros Hd.
  assert (wrap64 (pc_pending (sv_counters s) + (2 ^ 64 - 1)) = pc_pending (sv_counters s) - 1)%N as Hw.
  { unfold wrap64. replace (pc_pending (sv_counters s) + (2 ^ 64 - 1))%N with ((pc_pending (sv_counters s) - 1) + 1 * 2 ^ 64)%N by lia.
    rewrite N.Div0.mod_add. apply N.mod_small. lia. }
  rewrite Hw in Hp. lia.
Qed.
Lemma run_conn_pending m i ev s s' : pending_ok m s → run_conn max_job_size i ev s = Some s' → pending_ok m s'.
Proof.
  intros (Hc & Hp & Hm) (t & Hi & (s1 & Hs & ([t' out] & Ht & [= <-])%bind_Some)%bind_Some)%bind_Some.
  assert (pends s1 = pends s) as E. { unfold serve_task, take_id, ConnIds_next in Hs. destruct ev as [| | |[]], t; repeat case_match; by simplify_eq/=. }
  injection E as Ec Et. apply task_turn_drops in Ht. pose proof (pending_tasks_insert _ _ _ t' Hi) as Hins.
  destruct (output_pending (with_tasks (<[i:=t']> (sv_tasks s1)) s1) out) as (H1 & H2 & H3). unfold pending_ok. rewrite H1, H2.
  cbn [sv_tasks sv_counters with_tasks] in *. rewrite Ec, Et in *. specialize (H3 ltac:(lia)). split; [done|]. lia.
Qed.
Lemma accept_plain_pending m registered s : pending_ok m s → pending_ok m (accept_plain max_job_size registered s).
Proof.
  intros (Hc & Hp & Hm). unfold accept_plain. cbn [take_id ConnIds_next]. match goal with |- context [alive ?x] => set (s1 := x) end. destruct (alive s1); [|done].
  assert (pending_task (handle_plain max_job_size registered (sv_next_id s)).1 = 0 ∧ drops (handle_plain max_job_size registered (sv_next_id s)).2 = 0)%N as [Ht Hd] by (by destruct registered).
  destruct (handle_plain _ _ _) as [t out]. pose proof (pends_send (EngineMsg.Connect (sv_next_id s)) s1) as E. injection E as Ec Et.
  destruct (output_pending (with_tasks (sv_tasks (send (EngineMsg.Connect (sv_next_id s)) s1) ++ [t]) (send (EngineMsg.Connect (sv_next_id s)) s1)) out) as (H1 & H2 & H3).
  unfold pending_ok. rewrite H1, H2. cbn [sv_tasks sv_counters with_tasks fst snd] in *. rewrite Ec, Et in *. rewrite pending_tasks_app. cbn in *. specialize (H3 ltac:(lia)). split; [done|]. lia.
Qed.
Lemma accept_tls_pending m auth now s : pending_ok m s → pending_ok m (accept_tls auth now s).
Proof.
  intros (Hc & Hp & Hm). unfold accept_tls, try_acquire. destruct (pc_pending (sv_counters s) <? pc_max_pending (sv_counters s))%N eqn:Hlt.
  - apply N.ltb_lt in Hlt. unfold pending_ok. cbn. rewrite pending_tasks_app. cbn. split; [done|]. lia.
  - by destruct (note _ _).
Qed.
Lemma actor_pends ev s s' :
  match ev with Event.AcceptPlain _ | Event.AcceptTls _ _ | Event.Task _ _ => false | _ => true end = true →
  server_step max_job_size ev s = Some s' → pends s' = pends s.
Proof.
  intros Hev Hstep. unfold server_step, run_thread, run_timer, run_batch in Hstep. destruct (sv_ended s); [| |done]; destruct ev; try done; repeat case_match; try done;
    injection Hstep as <-; first [apply pends_settle|apply pends_send|by rewrite <-(pends_send EngineMsg.Shutdown s)].
Qed.
Lemma server_step_pending m ev s s' : pending_ok m s → server_step max_job_size ev s = Some s' → pending_ok m s'.
Proof.
  intros Hok Hstep. destruct ev; try (by eapply pends_ok; [eapply actor_pends; [|exact Hstep]|]); unfold server_step in Hstep; destruct (sv_ended s); try done;
    try (by eapply run_conn_pending); destruct (sv_serving s); try done; injection Hstep as <-; auto using accept_plain_pending, accept_tls_pending.
Qed.
Lemma serve_pending clock max_pending a : (max_pending < 2 ^ 64)%N → pending_ok max_pending (serve clock max_pending a).
Proof. intros Hm. split_and!; try done. cbn. lia. Qed.
End pend.
