(* ===== verification/ServerStart.v ===== *)
(** * The server from its start

    What [start_engine] starts is an actor with no connections whose engine
    agrees with its log, so the runs of the server that [serve] begins keep the
    invariants of the two modes. *)

From S2P Require Import Prelude Ms Proto Stats Parse Codec Reply Model Format Engine Frames Inv InvFrame InvRefresh Queues Moves Tubes.
From S2P Require Import Waiting Rest Dispatch ConnOps Commands Sessions Connect Tick Reach Serve Effects.
From S2P Require Import Keep Sized Replica Once Seats Snapshot Replay Scan Wal WalDisk WalFiles WalIndex WalInv WalOpen Log Journal Recover Actor Durable Restart.
From S2P Require Import Auth Conn Server ServerInv ServerRun ServerTurn ServerReach.
From stdpp Require Import options.

#[export] Instance tubeless_local_conns : Tubeless e_local_conns.
Proof.
  split; [split; [split|..]|..]; intros; try done. all: unfold gc_tube_if_orphan, find_or_make_tube; repeat case_match; simplify_eq; done.
Qed.
Lemma fresh_recover now cfg sys rec : e_conns (recover now cfg sys rec) = ∅ ∧ e_local_conns (recover now cfg sys rec) = None.
Proof.
  split; [|exact (view_recover e_local_conns (λ _ _, eq_refl) now cfg sys rec)].
  pose proof (view_recover seats (λ _ _, eq_refl) now cfg sys rec) as H. by apply dom_empty_inv_L.
Qed.
Section start.
Context `{Subtle} (record_crc : Bytes → Bytes → N) (Hcrc : ∀ l p, (record_crc l p < 2 ^ 32)%N).
Context (max_job_size : N) (Hmax : (max_job_size ≤ MAX_JOB_SIZE_LIMIT)%N).
Implicit Types (a : Actor (Inner * World)).
Lemma fresh_started now cfg sys rec st policy a :
  Actor_new (H := Wal_log record_crc) (recover now cfg sys rec) (Some (st, policy)) = Some a → fresh_actor a ∧ ∃ b, a_binlog a = Some b ∧ b_log b = st.
Proof.
  unfold Actor_new. destruct (log_stats st) as [stats|]; [|done]. cbn. intros [= <-]. destruct (fresh_recover now cfg sys rec) as [Hc Hl].
  split; [by split_and!|]. by eexists.
Qed.
(** [start_engine] with a log. *)
Lemma start_logged now sys cfg limit file_size policy wd L :
  replays record_crc (d_files wd) L → openable file_size (d_files wd) →
  match start_engine record_crc now sys cfg limit (Some (file_size, policy, false, wd)) with
  | Startup.Started a =>
      fresh_actor a ∧ actor_ok (log_ok record_crc) 0 L a ∧
      ∃ b new, a_binlog a = Some b ∧ d_log (b_log b).2 = new ++ d_log wd ∧ Forall (λ p, replays record_crc p.2 L) new
  | Startup.Exit code => code = EXIT_STARTUP
  | Startup.Panicked => False
  end.
Proof using Hcrc.
  intros HL Hd. unfold start_engine. pose proof (open_spec record_crc Hcrc file_size policy limit wd L HL Hd) as HO.
  destruct (open record_crc false file_size policy limit wd) as [[rec|e] st] eqn:Ho.
  - destruct (restart_ok record_crc Hcrc _ _ _ _ _ _ _ now (mkEngineConfig (cfg_max_job_size cfg) (cfg_binlog_max_size cfg) true) sys HL Hd Ho eq_refl) as (a & Ha & Hok).
    unfold wal_log_here in Ha. rewrite Ha. destruct (fresh_started _ _ _ _ _ _ _ Ha) as (Hf & b & Hb & <-). split_and!; [done|done|].
    destruct HO as ((new & Hnew & HF) & _). by exists b, new.
  - destruct HO as [_ ->]. done.
Qed.
#[local] Abbreviation Server := (Server (Inner * World)).
#[local] Abbreviation reachable := (reachable (H0 := Wal_log record_crc) max_job_size).
(** The states of a server that was started on a directory or without a log. *)
Inductive serving (k : N) (s : Server) : Prop :=
  | serving_logged now sys limit file_size policy wd L clock max_pending a :
      replays record_crc (d_files wd) L → openable file_size (d_files wd) →
      start_engine record_crc now sys (engine_config max_job_size file_size) limit (Some (file_size, policy, false, wd)) = Startup.Started a →
      reachable (serve clock max_pending a) k s → serving k s
  | serving_unlogged now sys file_size limit clock max_pending a :
      start_engine record_crc now sys (engine_config max_job_size file_size) limit None = Startup.Started a →
      reachable (serve clock max_pending a) k s → serving k s.
Lemma serving_inv k s :
  serving k s → (k ≤ server_limit)%N → alive s = true →
  server_inv max_job_size (k + 1) s ∧ ∃ n, wf_after n (a_engine (sv_actor s)) ∧ (n ≤ run_limit)%N.
Proof using Hcrc Hmax.
  intros Hs Hk Ha. destruct Hs as [now sys limit file_size policy wd L clock max_pending a HL Hd Hst Hr|now sys file_size limit clock max_pending a Hst Hr].
  - pose proof (start_logged now sys (engine_config max_job_size file_size) limit file_size policy wd L HL Hd) as H1. rewrite Hst in H1. destruct H1 as (Hf & Hok & _).
    destruct (logged_reachable max_job_size Hmax wal_past (wal_image record_crc) (log_ok record_crc) (HL := Wal_laws record_crc Hcrc) a L clock max_pending k s Hok Hf Hr Hk)
      as (ne & recs & Hne & [_ Hrun] & Hinv). split; [by apply Hinv|]. apply alive_ended in Ha. rewrite Ha in Hrun. destruct Hrun as (b & _ & _ & Hsy & _).
    exists ne. split; [apply Hsy|]. unfold server_limit, run_limit in *. lia.
  - cbn in Hst. injection Hst as Hst. assert (a_binlog a = None ∧ wf_after 0 (a_engine a) ∧ fresh_actor a) as (Hb & Hwf0 & Hf) by (subst a; split_and!; try done; apply wf_initial).
    destruct (unlogged_reachable max_job_size Hmax a clock max_pending k s Hb Hwf0 Hf Hr Hk Ha) as (Hinv & _ & Hwf).
    split; [done|]. eexists. split; [done|]. unfold server_limit, run_limit in *. lia.
Qed.
End start.

(** Runs whose every step has room, to run the definitions with. *)
Section run.
Context `{Subtle} {S : Type} `{Log S} (max_job_size : N).
Fixpoint room_run (evs : list Event) (s : Server S) : option (Server S) :=
  match evs with
  | [] => Some s
  | ev :: evs => if room s then server_step max_job_size ev s ≫= room_run evs else None
  end.
Lemma room_run_reachable evs s0 k s s' :
  reachable max_job_size s0 k s → room_run evs s = Some s' → reachable max_job_size s0 (k + N.of_nat (length evs)) s'.
Proof.
  revert k s. induction evs as [|ev evs IH]; intros k s Hr; cbn [room_run length].
  - intros [= <-]. by replace (k + N.of_nat 0)%N with k by lia.
  - destruct (room s) eqn:Hroom; [|done]. destruct (server_step max_job_size ev s) as [s1|] eqn:Hs; [|done]. cbn [mbind option_bind]. intros Hrun.
    replace (k + N.of_nat (Datatypes.S (length evs)))%N with (k + 1 + N.of_nat (length evs))%N by lia. eapply IH; [|exact Hrun]. by econstructor.
Qed.
End run.
