(* ===== verification/ServerSpec.v ===== *)
(** * The properties of the server

    Theorems about the whole process: the accept loops, the connection tasks,
    the engine's channel and the engine actor, run in any order from the start
    of the server. *)

From S2P Require Import Prelude Ms Proto Stats Parse Codec Reply Model Format Engine Frames Inv InvFrame InvRefresh Queues Moves Tubes.
From S2P Require Import Waiting Rest Dispatch ConnOps Commands Sessions Connect Tick Reach Serve Effects.
From S2P Require Import Keep Sized Replica Once Seats Snapshot Replay Scan Wal WalDisk WalFiles WalIndex WalInv WalOpen Log Journal Recover Actor Durable Restart.
From S2P Require Import StoreSpec Auth Conn ConnRun Server ServerInv ServerRun ServerTurn ServerReach ServerPend ServerStart.
From stdpp Require Import options.

(** ** A server to run *)
#[local] Existing Instance plain_subtle.
#[local] Existing Instance plain_subtle_laws.
#[local] Instance demo_log : Log (Inner * World) := Wal_log sum32.
Definition demo_start : Startup :=
  start_engine sum32 0 ex_sys (engine_config 65535 1) None (Some (1%N, SyncPolicy.Always, false, mkWorld ∅ [] [])).
Definition demo_actor : Actor (Inner * World) :=
  match demo_start with Startup.Started a => a | _ => mkActor (Engine_new 0 (engine_config 65535 1) ex_sys) None ∅ [] [] false end.
Lemma demo_starts : demo_start = Startup.Started demo_actor.
Proof. assert (match demo_start with Startup.Started _ => true | _ => false end = true) as H by (by vm_compute). unfold demo_actor. by destruct demo_start. Qed.
Definition demo_server : Server (Inner * World) := serve (mkClock 0 0) 1 demo_actor.
(** A client puts a job and reserves it; the replies are on their way. *)
Definition demo_events : list Event :=
  let task w := Event.Task 0 (TaskEvent.Woken w) in
  [Event.AcceptPlain true; Event.Turn 1 1; task Wake.Run;
   task (Wake.Read (ReadResult.Read (bs "put 10 0 60 5" ++ crlf ++ bs "hello" ++ crlf ++ bs "reserve" ++ crlf)));
   task Wake.Run; task Wake.Run; Event.Turn 2 2; Event.Turn 3 3; task (Wake.Recv (Some (Response.Inserted 1)));
   task (Wake.Wrote true); task Wake.Run; Event.Turn 4 4; Event.AcceptTls TlsAuth.Handshake 5; Event.AcceptTls TlsAuth.Handshake 6].
Definition demo_end : Server (Inner * World) := default demo_server (room_run 65535 demo_events demo_server).
Lemma demo_reachable : reachable 65535 demo_server 14 demo_end.
Proof.
  change 14%N with (0 + N.of_nat (length demo_events))%N. apply (room_run_reachable 65535 demo_events demo_server 0 demo_server); [constructor|].
  unfold demo_end. assert (is_Some (room_run 65535 demo_events demo_server)) as [s ->]; [|done]. apply (bool_decide_eq_true_1 _). by vm_compute.
Qed.
Lemma demo_serving : serving sum32 65535 14 demo_end.
Proof.
  exact (serving_logged sum32 65535 14 demo_end 0 ex_sys None 1 SyncPolicy.Always (mkWorld ∅ [] []) ∅ (mkClock 0 0) 1 demo_actor
    empty_replays empty_openable demo_starts demo_reachable).
Qed.

(** ** Nothing is lost *)
(** C3. The server from its start on a log directory that replays to the
    jobs [L].  It starts, or exits because the directory could not be
    written; it does not panic.  After any steps of its accept loops, tasks,
    timers and actor, in any order, the directory replays to exactly the
    engine's jobs, each with its body, time to run, creation time and tube;
    every directory on the way, from the start, replays to [L] with a prefix
    of the journal applied, and the only failure is an I/O error.  Nothing is
    assumed of the clients: what reaches the engine is what the tasks make of
    any bytes. *)
Theorem server_durable `{Subtle} record_crc max_job_size now sys limit file_size policy wd L clock max_pending :
  (∀ l p, record_crc l p < 2 ^ 32)%N → (max_job_size ≤ MAX_JOB_SIZE_LIMIT)%N → replays record_crc (d_files wd) L → openable file_size (d_files wd) →
  match start_engine record_crc now sys (engine_config max_job_size file_size) limit (Some (file_size, policy, false, wd)) with
  | Startup.Panicked => False
  | Startup.Exit code => code = EXIT_STARTUP
  | Startup.Started a =>
      durable record_crc L a ∧
      ∀ k s, reachable (H0 := Wal_log record_crc) max_job_size (serve clock max_pending a) k s → (k ≤ server_limit)%N →
        ∃ recs b, a_binlog (sv_actor s) = Some b ∧
          (∃ new, d_log (b_log b).2 = new ++ d_log wd ∧ ∀ op d, (op, d) ∈ new → ∃ j, replays record_crc d (live_run L (take j recs))) ∧
          match sv_ended s with Waiting | Returned => durable record_crc (live_run L recs) (sv_actor s) | Failed e => e = WalError.Io end
  end.
Proof.
  intros Hcrc Hmax HL Hd. pose proof (start_logged record_crc Hcrc now sys (engine_config max_job_size file_size) limit file_size policy wd L HL Hd) as Hst.
  destruct (start_engine _ _ _ _ _ _) as [a|code|]; [|done..]. destruct Hst as (Hf & Hok & b0 & new0 & Hb0 & Hlog0 & HF0).
  split; [by eapply actor_durable|]. intros k s Hr Hk.
  destruct (logged_reachable max_job_size Hmax wal_past (wal_image record_crc) (log_ok record_crc) (HL := Wal_laws record_crc Hcrc) a L clock max_pending k s Hok Hf Hr Hk)
    as (ne & recs & _ & [(b & b' & Hb & Hb' & new & Hnew & HF) Hrun] & _). exists recs, b'. split_and!; [done| |].
  - rewrite Hb0 in Hb. injection Hb as <-. exists (new ++ new0). unfold wal_past in Hnew. split; [by rewrite Hnew, Hlog0, (assoc_L (++))|].
    intros op d [Hin|Hin]%elem_of_app.
    + by apply (proj1 (Forall_forall _ _) HF (op, d)).
    + exists 0. by apply (proj1 (Forall_forall _ _) HF0 (op, d)).
  - destruct (sv_ended s); [by eapply actor_durable..|done].
Qed.
Lemma server_durable_witness :
  ∃ recs b, a_binlog (sv_actor demo_end) = Some b ∧ replays sum32 (d_files (b_log b).2) (live_run ∅ recs) ∧ dom (e_jobs (a_engine (sv_actor demo_end))) = {[1%N]}.
Proof.
  pose proof (server_durable sum32 65535 0 ex_sys None 1 SyncPolicy.Always (mkWorld ∅ [] []) ∅ (mkClock 0 0) 1 sum32_lt ltac:(done) empty_replays empty_openable) as H.
  fold demo_start in H. rewrite demo_starts in H. destruct H as [_ H]. destruct (H 14%N demo_end demo_reachable ltac:(done)) as (recs & b & Hb & _ & HR).
  exists recs, b. assert (sv_ended demo_end = Waiting) as He by (by vm_compute). rewrite He in HR. destruct HR as (b' & Hb' & Hrep & _).
  rewrite Hb in Hb'. injection Hb' as <-. split_and!; [done|done|]. by vm_compute.
Defined.

(** ** The engine and its clients *)
Section serving.
Context `{Subtle} (record_crc : Bytes → Bytes → N) (max_job_size : N).
#[local] Abbreviation engine s := (a_engine (sv_actor s)).
#[local] Abbreviation crc_ok := (∀ l p, record_crc l p < 2 ^ 32)%N.
#[local] Abbreviation running := (serving record_crc max_job_size).

(** C4. While the server runs, with or without a log, its engine is well
    formed, and whatever the clients have sent, the next message in the
    engine's channel is one the engine accepts: a connection is announced
    once, commands are typed and within their limits, and none comes from a
    connection that waits for a reply.  [room] asks for fewer than [2 ^ 32]
    connections and [2 ^ 62] job ids. *)
Theorem next_message_legal k s t :
  crc_ok → (max_job_size ≤ MAX_JOB_SIZE_LIMIT)%N → running k s → (k ≤ server_limit)%N → alive s = true →
  wf (engine s) ∧
  (room s = true → ∀ m q, sv_queue s = m :: q → accepted (Clock_now (sv_clock s) t) (input_of m) (engine s) = true).
Proof.
  intros Hcrc Hmax Hs Hk Ha. destruct (serving_inv record_crc Hcrc max_job_size Hmax k s Hs Hk Ha) as (HI & n & (b & HIb & _) & _). split; [by exists b|].
  intros [Hid%N.leb_le Hcr%N.ltb_lt]%andb_true_iff m q Hq. pose proof (crowd_seats (sv_queue s) (engine s)) as Hcs.
  unfold server_inv in HI. rewrite Hq in HI. eapply book_accepted; [exact HI|apply Clock_now_u64|done|lia].
Qed.

(** C5. No reply is lost or sent twice on the way.  For the connection of a
    task, while the server runs: the requests in the engine's channel, the
    reservation the engine holds open and the replies in the connection's
    channel are together one if the task waits for a reply and none
    otherwise.  A task that waits has a sender to wait for, and when its
    client has sent the end of its stream and nothing of the connection is
    queued, the reply is there. *)
Theorem replies_accounted k s i l :
  crc_ok → (max_job_size ≤ MAX_JOB_SIZE_LIMIT)%N → running k s → (k ≤ server_limit)%N → alive s = true → sv_tasks s !! i = Some (Task.Serving l) →
  let c := l_conn l in
  asked_in c (sv_queue s) + (if conn_waiting (engine s) c then 1 else 0) + length (channel s c) = (if awaiting (Some l) then 1 else 0) ∧
  (awaiting (Some l) = true →
    recv s c ≠ Some None ∧
    (l_eof l = true → Forall (λ m, msg_conn m ≠ Some c) (sv_queue s) → ∃ r, channel s c = [r])).
Proof.
  intros Hcrc Hmax Hs Hk Ha Hi c. destruct (serving_inv record_crc Hcrc max_job_size Hmax k s Hs Hk Ha) as (HI & _).
  pose proof HI as [Hnd _ _ _ _ Hacct _ _]. destruct (Hacct c) as [_ Hled _ _ Hhalf]. unfold c in *. rewrite (client_lookup _ _ _ Hi Hnd) in *. fold c in Hled, Hhalf |- *.
  unfold due in Hled. cbn [desk fst snd] in *. change (sent_to c []) with 0 in Hled. rewrite owed_waiting in Hled. cbn [plus] in Hled. split; [done|]. intros Haw. split.
  - intros Hr. destruct (recv_sender max_job_size _ _ _ _ _ Ha HI Hi Haw Hr) as (r & rest & ? & _). done.
  - intros He Hq. specialize (Hhalf Haw He). rewrite Haw in Hled.
    assert (may_wait c (conn_waiting (engine s) c) (sv_queue s) = conn_waiting (engine s) c ∧ asked_in c (sv_queue s) = 0) as [Hmw Hask] by (by apply unmentioned).
    rewrite Hmw in Hhalf. rewrite Hhalf, Hask in Hled. destruct (channel s c) as [|r [|]]; [done|by exists r|done].
Qed.

(** C7. The engine's sessions are the server's connections.  While the
    server runs, no two tasks have the same connection, the actor delivers to
    exactly the sessions of the engine, and a connection of which no [Connect]
    or [Disconnect] is queued has a session if and only if there is a task for
    it that has not returned: a session is neither missing nor left behind. *)
Theorem sessions_agree k s :
  crc_ok → (max_job_size ≤ MAX_JOB_SIZE_LIMIT)%N → running k s → (k ≤ server_limit)%N → alive s = true →
  NoDup (served (sv_tasks s)) ∧ a_conns (sv_actor s) = dom (e_conns (engine s)) ∧
  ∀ c, EngineMsg.Connect c ∉ sv_queue s → EngineMsg.Disconnect c ∉ sv_queue s →
    (c ∈ dom (e_conns (engine s)) ↔ ∃ i l, sv_tasks s !! i = Some (Task.Serving l) ∧ l_conn l = c ∧ l_phase l ≠ Phase.Closed).
Proof.
  intros Hcrc Hmax Hs Hk Ha. destruct (serving_inv record_crc Hcrc max_job_size Hmax k s Hs Hk Ha) as (HI & _).
  destruct HI as [Hnd _ _ _ _ Hacct Hcs _]. split_and!; [done|exact Hcs|]. intros c Hc Hd. pose proof (ac_known _ _ _ _ _ (Hacct c)) as Hk1.
  apply follow_quiet in Hk1; [|done..]. cbn [desk fst snd] in Hk1. fold (seats (engine s)). rewrite <-client_open by done.
  rewrite <-Hk1. by rewrite bool_decide_eq_true.
Qed.
End serving.
Lemma next_message_legal_witness : wf (a_engine (sv_actor demo_end)).
Proof. apply (next_message_legal sum32 65535 14 demo_end 5 sum32_lt ltac:(done) demo_serving ltac:(done)). by vm_compute. Defined.
Definition demo_client : option Conn := sv_tasks demo_end !! 0 ≫= task_conn.
Lemma replies_accounted_witness :
  ∃ l, sv_tasks demo_end !! 0 = Some (Task.Serving l) ∧ awaiting (Some l) = true ∧ recv demo_end (l_conn l) ≠ Some None.
Proof.
  assert (∃ l, sv_tasks demo_end !! 0 = Some (Task.Serving l) ∧ awaiting (Some l) = true) as (l & Hl & Ha) by (eexists; split; [by vm_compute|by vm_compute]).
  exists l. split_and!; [done|done|].
  destruct (replies_accounted sum32 65535 14 demo_end 0 l sum32_lt ltac:(done) demo_serving ltac:(done) ltac:(by vm_compute) Hl) as [_ H]. by apply H.
Defined.
Lemma sessions_agree_witness : NoDup (served (sv_tasks demo_end)) ∧ served (sv_tasks demo_end) = [1%N].
Proof. split; [|by vm_compute]. apply (sessions_agree sum32 65535 14 demo_end sum32_lt ltac:(done) demo_serving ltac:(done)). by vm_compute. Defined.

(** ** A connection *)
(** C6. A connection's replies come in the order of its requests.  In any
    run of the protocol loop, from whatever it has buffered, the frames of the
    stream split into those worked through and the rest.  What is written or
    in the buffer is exactly the answers to the former in their order, each
    request answered by the reply received for it and each error by the task
    itself; the engine was sent their messages in order, at most one request
    being without its reply.  When the task waits for bytes nothing is left
    undone: every frame is worked through and answered. *)
Theorem replies_in_order `{Subtle} ws l0 l out :
  l_phase l0 = Phase.Looping → conn_run ws l0 = Some (l, out) →
  let rs := received ws in
  let msgs := omap (frame_msg (l_conn l0)) in
  ∃ fs rest, (frames (l_codec l0) (l_rbuf l0 ++ reads ws)).1 = fs ++ rest ∧
    written out ++ l_wbuf l = l_wbuf l0 ++ encoded (replies_of (l_auth l0) fs rs) ∧
    frame_sends out `prefix_of` msgs fs ∧ length rs ≤ requests fs ≤ length rs + 1 ∧
    (l_phase l = Phase.Reading → rest = [] ∧ frame_sends out = msgs fs ∧ requests fs = length rs).
Proof.
  intros Hp Hr rs msgs. assert (conv l0 [] [] l0 [] []) as H0.
  { split; [split; try done|by rewrite Hp]; [|by rewrite app_nil_r]. rewrite app_nil_r. by destruct (frames (l_codec l0) (l_rbuf l0)). }
  destruct (conn_run_conv l0 ws [] [] l0 [] [] l out H0 Hr) as (fs & [_ _ Hf Hw] & Hs). cbn [app] in *.
  assert (drained l) as Hd by (eapply conn_run_drained; [|exact Hr]; unfold drained; by rewrite Hp).
  exists fs, (frames (l_codec l) (l_rbuf l)).1. pose proof (stage_weak _ _ _ _ _ Hs) as [Hpre Hn]. split_and!; [|done|done|apply Hn|apply Hn|].
  - rewrite Hf. by destruct (frames (l_codec l) (l_rbuf l)).
  - intros Hp'. unfold drained in Hd. rewrite Hp' in Hd, Hs. done.
Qed.
Definition demo_stream : list (bool * Wake) :=
  [(true, Wake.Run); (true, Wake.Read (ReadResult.Read (bs "stats" ++ crlf ++ bs "bogus" ++ crlf))); (true, Wake.Run);
   (true, Wake.Recv (Some (Response.Inserted 7))); (true, Wake.Wrote true); (true, Wake.Run); (true, Wake.Run); (true, Wake.Wrote true)].
Definition demo_conn : Conn := mkConn 4 (server_codec 100) [] [] false None Phase.Looping.
Lemma replies_in_order_witness :
  ∃ l out fs, conn_run demo_stream demo_conn = Some (l, out) ∧ l_phase l = Phase.Reading ∧
    written out ++ l_wbuf l = encoded (replies_of None fs [Response.Inserted 7]) ∧ written out = bs "INSERTED 7" ++ crlf ++ bs "UNKNOWN_COMMAND" ++ crlf.
Proof.
  assert (∃ l out, conn_run demo_stream demo_conn = Some (l, out) ∧ l_phase l = Phase.Reading ∧ written out = bs "INSERTED 7" ++ crlf ++ bs "UNKNOWN_COMMAND" ++ crlf)
    as (l & out & Hr & Hp & Hw) by (do 2 eexists; split_and!; by vm_compute).
  destruct (replies_in_order demo_stream demo_conn l out eq_refl Hr) as (fs & rest & _ & Hwr & _). exists l, out, fs. done.
Defined.

(** C9. Nothing reaches the engine before the login.  On a listener that
    asks for a token, in any run of a connection's task from its accept: if
    any message at all is sent to the engine, the first frame of the client's
    stream is an [auth] command with one of the configured tokens, byte for
    byte. *)
Theorem auth_required `{SubtleLaws} max_job_size tokens evs t out :
  Forall (λ tok, length tok ≤ MAX_TOKEN_LEN) tokens →
  task_run max_job_size evs (Task.Handshaking (TlsAuth.Token (TokenSet_new tokens))) = Some (t, out) → sends out ≠ [] →
  ∃ token, head (frames (recognize_auth (server_codec max_job_size)) (task_reads evs)).1 = Some (Frame.Auth token) ∧ token ∈ tokens.
Proof.
  intros Ht Hr Hs. pose proof (task_run_logging max_job_size (TokenSet_new tokens) evs [] (Task.Handshaking (TlsAuth.Token (TokenSet_new tokens))) [] t out ltac:(by split_and!) Hr) as Hl. cbn [app] in Hl.
  assert (token_first max_job_size (TokenSet_new tokens) (task_reads evs)) as (token & Hh & Hv).
  { destruct t as [auth|g| | |]; try exact Hl; [by destruct Hl as (_ & _ & ?)|by destruct Hl as (_ & ? & _)|destruct Hl as [?|Hl]; [done|exact Hl]]. }
  exists token. split; [done|]. rewrite verify_spec in Hv by done. by apply bool_decide_eq_true in Hv.
Qed.
Definition demo_login : list (bool * TaskEvent) :=
  [(true, TaskEvent.Shaken true); (true, TaskEvent.Woken Wake.Run); (true, TaskEvent.Woken (Wake.Read (ReadResult.Read (bs "auth s3cret" ++ crlf))));
   (true, TaskEvent.Woken Wake.Run); (true, TaskEvent.Admit 9)].
Lemma auth_required_witness :
  ∃ t out, task_run 100 demo_login (Task.Handshaking (TlsAuth.Token (TokenSet_new [bs "other"; bs "s3cret"]))) = Some (t, out) ∧
    sends out = [EngineMsg.Connect 9] ∧
    ∃ token, head (frames (recognize_auth (server_codec 100)) (task_reads demo_login)).1 = Some (Frame.Auth token) ∧ token ∈ [bs "other"; bs "s3cret"].
Proof.
  assert (∃ t out, task_run 100 demo_login (Task.Handshaking (TlsAuth.Token (TokenSet_new [bs "other"; bs "s3cret"]))) = Some (t, out) ∧ sends out = [EngineMsg.Connect 9])
    as (t & out & Hr & Ho) by (do 2 eexists; split; by vm_compute).
  exists t, out. split_and!; [done|done|]. apply (auth_required 100 [bs "other"; bs "s3cret"] demo_login t out); [|exact Hr|by rewrite Ho].
  repeat constructor; apply Nat.leb_le; by vm_compute.
Defined.

(** C10. The cap on connections that have not logged in.  In every state of
    a server, with any log: the counter of pending connections is the number
    of tasks in the handshake or in the login, and it is at most
    [max_pending_connections].  No place is lost and none is used twice. *)
Theorem pending_capped `{Subtle} {S} `{Log S} max_job_size clock max_pending (a : Actor S) k s :
  (max_pending < 2 ^ 64)%N → reachable max_job_size (serve clock max_pending a) k s →
  pc_pending (sv_counters s) = pending_tasks (sv_tasks s) ∧ (pc_pending (sv_counters s) ≤ max_pending)%N.
Proof.
  intros Hm Hr. assert (pending_ok max_pending s) as (_ & ? & ? & _); [|done]. induction Hr; [by apply serve_pending|by eapply server_step_pending].
Qed.
Lemma pending_capped_witness : (pc_pending (sv_counters demo_end) ≤ 1)%N ∧ pc_pending_rejected (sv_counters demo_end) = 1%N.
Proof. split; [|by vm_compute]. apply (pending_capped 65535 (mkClock 0 0) 1 demo_actor 14 demo_end ltac:(done) demo_reachable). Defined.

(** ** Requests and replies *)
(** C8. Every request is answered exactly once.  An input the engine
    accepts leaves each connection with the replies and the open reservation
    it was due, but for a connection that disconnects, whose reservation is
    dropped; and one more, if the input is a request of that connection.  So
    the engine neither forgets a request nor answers it twice, whichever
    input makes it answer. *)
Theorem answered_once n now i e out c :
  wf_after n e → (n ≤ run_limit)%N → legal now i e = true → e_local_conns e = None →
  due c (apply_input now i (e, out)) =
    (if leaves i c then sent_to c out else due c (e, out)) + (if asks i c && bool_decide (is_Some (e_conns e !! c)) then 1 else 0).
Proof.
  intros (b & HI & Hids & Hseq) Hn Hl Ha. pose proof (wf_after_grow _ _ _ HI Hids Hseq Hn) as Hb. by destruct (due_apply b now i e out c HI Hb Hl Ha).
Qed.
Definition demo_engine : Engine := (apply_input 1 (EngineInput.Connect 3) (Engine_new 0 (engine_config 100 1) ex_sys, [])).1.
Lemma answered_once_witness : due 3 (apply_input 5 (EngineInput.Command 3 Command.Reserve) (demo_engine, [])) = 1.
Proof.
  assert (wf_after (0 + 1) demo_engine) as Hwf by (apply wf_after_step; [apply wf_initial|done|by vm_compute]).
  rewrite (answered_once (0 + 1) 5 (EngineInput.Command 3 Command.Reserve) demo_engine [] 3 Hwf ltac:(done)); by vm_compute.
Defined.
