(* ===== verification/Scenario.v ===== *)
(** * A session of three clients

    A concrete run: client 1 puts four jobs, client 2 reserves two of them
    and buries one, client 3 waits on a tube of its own.  The end state has a
    job in every state and a waiting connection; the theorems about reachable
    states are applied to it. *)

From S2P Require Import Prelude Ms Proto Stats Model Engine Inv Reach Start.
From stdpp Require Import options.

Definition plain_config : EngineConfig := mkEngineConfig DEFAULT_MAX_JOB_SIZE DEFAULT_BINLOG_MAX_SIZE false.
Definition plain_sys : SysSnapshot := mkSysSnapshot 1 "1.0" (0, 0)%N (0, 0)%N "id" "host" "linux" "x86_64".

Definition session : list (Nanos * EngineInput) :=
  [(1, EngineInput.Connect 1); (1, EngineInput.Connect 2); (1, EngineInput.Connect 3);
   (2, EngineInput.Command 1 (Command.Put 10 0 60 (bs "a")));
   (2, EngineInput.Command 1 (Command.Put 5 0 60 (bs "b")));
   (2, EngineInput.Command 1 (Command.Put 1 100 60 (bs "c")));
   (2, EngineInput.Command 1 (Command.Put 7 0 60 (bs "d")));
   (3, EngineInput.Command 2 Command.Reserve);
   (3, EngineInput.Command 2 Command.Reserve);
   (3, EngineInput.Command 2 (Command.Bury 4 7));
   (4, EngineInput.Command 3 (Command.Watch "other"));
   (4, EngineInput.Command 3 (Command.Ignore "default"));
   (4, EngineInput.Command 3 (Command.ReserveWithTimeout 30))]%N.
Definition start : St := (Engine_new 0 plain_config plain_sys, []).
Definition busy : Engine := (run session start).1.

Lemma session_legal : legal_run session start = true.
Proof. vm_compute. reflexivity. Qed.
Lemma busy_reachable : reachable busy.
Proof. exists start.1, session. split; [apply starts_new|]. split; [done|]. split; [exact session_legal|done]. Qed.
Lemma session_replies :
  (run session start).2 =
    [(1, Response.Inserted 1); (1, Response.Inserted 2); (1, Response.Inserted 3); (1, Response.Inserted 4);
     (2, Response.Reserved 2 (bs "b")); (2, Response.Reserved 4 (bs "d")); (2, Response.Buried);
     (3, Response.Watching 2); (3, Response.Watching 1)]%N.
Proof. vm_compute. reflexivity. Qed.
(** Its connections and jobs. *)
Definition client (cid : ConnId) : ConnState := default (ConnState_new DEFAULT_TUBE) (e_conns busy !! cid).
Definition job (id : JobId) : JobRec :=
  default (mkJobRec 0 0 0 0 1 [] 0 0 JobState.Ready None 0 0 0 0 0 0 0) (e_jobs busy !! id).
Ltac by_session := vm_compute; reflexivity.
Lemma busy_next : e_next_job_id busy = 5%N.
Proof. by_session. Qed.
Lemma busy_draining : e_draining busy = false.
Proof. by_session. Qed.
Lemma busy_local : e_local_conns busy = None.
Proof. by_session. Qed.
Lemma busy_pauses : e_pauses busy = ∅.
Proof. by_session. Qed.
Lemma busy_no_pause at_ tid : (at_, tid) ∉ e_pauses busy.
Proof. rewrite busy_pauses. apply not_elem_of_empty. Qed.
#[global] Opaque busy client job.
