(* ===== verification/EngineSpec.v ===== *)
(** * Theorems about the engine

    The properties of [crates/engine/src/engine.rs], stated of the states the
    server can reach and of [handle], [tick] and [apply_input]: consistency
    of the queues, dispatch, time, and the effect of each command. *)

From S2P Require Import Prelude Ms Proto Stats Model Engine Frames Inv InvFrame InvRefresh Queues Moves Tubes.
From S2P Require Import Waiting Rest Dispatch ConnOps Commands Sessions Connect Tick Reach Start Serve Effects.
From S2P Require Import Keep.
From S2P Require Import Replica Scenario.
From stdpp Require Import options.

(** ** Consistency *)
(** Where the engine keeps a job: a queue of a tube or the reservations of a
    connection. *)
Inductive Place := InReady (tid : TubeId) | InDelayed (tid : TubeId) | InBuried (tid : TubeId) | HeldBy (cid : ConnId).
Definition in_place (e : Engine) (id : JobId) (p : Place) : Prop :=
  match p with
  | InReady tid => ∃ t pri, slot (e_tubes e) tid = Some t ∧ (pri, id) ∈ t_ready t
  | InDelayed tid => ∃ t d, slot (e_tubes e) tid = Some t ∧ (d, id) ∈ t_delayed t
  | InBuried tid => ∃ t s, slot (e_tubes e) tid = Some t ∧ t_buried t !! s = Some id
  | HeldBy cid => ∃ c s, e_conns e !! cid = Some c ∧ c_reserved c !! s = Some id
  end.
(** The place the job's record names. *)
Definition home (j : JobRec) : option Place :=
  match j_state j with
  | JobState.Ready => Some (InReady (j_tube j))
  | JobState.Delayed => Some (InDelayed (j_tube j))
  | JobState.Buried => Some (InBuried (j_tube j))
  | JobState.Reserved => HeldBy <$> j_reserver j
  end.
Section places.
Context (b : Budget) (e : Engine) (HI : Inv b e).

Lemma in_place_home id p : in_place e id p → ∃ j, e_jobs e !! id = Some j ∧ home j = Some p.
Proof using HI.
  destruct p as [tid|tid|tid|cid]; cbn [in_place].
  - intros (t & pri & Ht & (j & Hj & Hs & <- & _)%(co_ready _ _ HI _ _ Ht)). exists j. unfold home. by rewrite Hs.
  - intros (t & d & Ht & (j & Hj & Hs & <- & _)%(co_delayed _ _ HI _ _ Ht)). exists j. unfold home. by rewrite Hs.
  - intros (t & s & Ht & (j & Hj & Hs & <- & _)%(co_buried _ _ HI _ _ Ht)). exists j. unfold home. by rewrite Hs.
  - intros (c & s & Hc & (j & Hj & Hs & Hr & _)%(proj1 (co_reserved _ _ HI _ _ Hc))). exists j. unfold home.
    by rewrite Hs, Hr.
Qed.
Lemma home_in_place id j : e_jobs e !! id = Some j → ∃ p, home j = Some p ∧ in_place e id p.
Proof using HI.
  intros Hj. pose proof (co_jobs _ _ HI _ _ Hj) as (_ & _ & _ & [t Ht]).
  pose proof (co_queued _ _ HI _ _ Hj) as [Hq _]. unfold in_state in Hq. unfold home.
  destruct (j_state j) eqn:Hs; cbn [in_place].
  - eexists; split; [done|]. exists t, (j_pri j). split; [done|]. apply (co_ready _ _ HI _ _ Ht). by exists j.
  - destruct Hq as (cid & Hr & [c Hc]). rewrite Hr. eexists; split; [done|]. exists c, (j_list_seq j).
    split; [done|]. apply (proj1 (co_reserved _ _ HI _ _ Hc)). by exists j.
  - eexists; split; [done|]. exists t, (j_deadline_at j). split; [done|]. apply (co_delayed _ _ HI _ _ Ht). by exists j.
  - eexists; split; [done|]. exists t, (j_list_seq j). split; [done|]. apply (co_buried _ _ HI _ _ Ht). by exists j.
Qed.
End places.

(** C1. In every state the engine can reach, from a new engine, a replayed
    log or an accepted snapshot, all its structures agree: tube registry,
    queues, reservations, reference counts, time indexes and counters ([Inv]
    lists the 32 parts). *)
Theorem engine_invariant e0 inputs :
  starts e0 → (N.of_nat (length inputs) ≤ run_limit)%N → legal_run inputs (e0, []) = true →
  wf (run inputs (e0, [])).1.
Proof.
  intros Hs Hlen Hl. destruct (reachable_inv (run inputs (e0, [])).1) as (b & HI & _); [|by exists b].
  by exists e0, inputs.
Qed.
Lemma engine_invariant_witness : wf (run session start).1.
Proof. apply (engine_invariant (Engine_new 0 plain_config plain_sys) session); [apply starts_new|done|by_session]. Defined.

(** C28. In a reachable state every job of the job table is in exactly one
    place, a queue of its tube or the reservations of an open connection, as
    its state says, and the queues hold no other jobs. *)
Theorem job_in_one_place e id :
  reachable e →
  match e_jobs e !! id with
  | Some j => ∃ p, home j = Some p ∧ ∀ p', in_place e id p' ↔ p' = p
  | None => ∀ p, ¬ in_place e id p
  end.
Proof.
  intros (b & HI & _)%reachable_inv. destruct (e_jobs e !! id) as [j|] eqn:Hj.
  - destruct (home_in_place _ _ HI _ _ Hj) as (p & Hp & Hin). exists p. split; [done|]. intros p'. split; [|by intros ->].
    intros (j' & Hj' & Hp')%(in_place_home _ _ HI). congruence.
  - intros p (j & Hj' & _)%(in_place_home _ _ HI). congruence.
Qed.
Lemma job_in_one_place_witness : ∃ p, home (job 2) = Some p ∧ ∀ p', in_place busy 2 p' ↔ p' = p.
Proof.
  pose proof (job_in_one_place busy 2 busy_reachable) as H.
  assert (e_jobs busy !! 2%N = Some (job 2)) as Hj by by_session. rewrite Hj in H. exact H.
Defined.

(** ** Dispatch and time *)
(** C25. In a reachable state no ready job of an unpaused tube is left while
    a connection waits for that tube. *)
Theorem no_missed_dispatch e id j :
  reachable e → ¬ eligible (open_tubes e) (e_jobs e) (rels e) id j.
Proof. intros (b & HI & _)%reachable_inv. by apply (rest_drained b). Qed.
Lemma no_missed_dispatch_witness : ¬ eligible (open_tubes busy) (e_jobs busy) (rels busy) 1 (job 1).
Proof. exact (no_missed_dispatch busy 1 (job 1) busy_reachable). Defined.

(** C2. The dispatcher implements its specification: it repeats serving the
    best eligible job, by priority then id, to a connection that waits for
    its tube, until no eligible job is left, and answers nobody else.  The
    tubes it may serve are those whose pause, if any, has passed.  (Between
    inputs only a pause that has just passed leaves it something to do; the
    states inside a command are covered by the theorems on the commands.) *)
Theorem process_queue_refines now e out :
  reachable e →
  let s := process_queue now (e, out) in
  ∃ l, serves now (unpaused now e) (e_jobs e) (rels e) l (e_jobs s.1) (rels s.1) ∧
       s.2 = out ++ delivered (e_local_conns e) l.
Proof. intros (b & HI & _)%reachable_inv. by apply (process_queue_serves b false). Qed.
(** The session goes on: the default tube is paused for a second and a
    connection waits for it; when the second has passed it is served. *)
Definition stalled_inputs : list (Nanos * EngineInput) :=
  session ++ [(5, EngineInput.Command 1 (Command.PauseTube "default" 1)); (6, EngineInput.Command 2 Command.Reserve)]%N.
Definition stalled : Engine := (run stalled_inputs start).1.
Lemma stalled_reachable : reachable stalled.
Proof. exists start.1, stalled_inputs. split; [apply starts_new|]. split; [done|]. split; [by_session|done]. Qed.
#[local] Opaque stalled.
Lemma process_queue_refines_witness :
  let s := process_queue (5 + secs 1) (stalled, []) in
  s.2 = [(2%N, Response.Reserved 1 (bs "a"))] ∧
  ∃ l, serves (5 + secs 1) (unpaused (5 + secs 1) stalled) (e_jobs stalled) (rels stalled) l (e_jobs s.1) (rels s.1) ∧
       s.2 = [] ++ delivered (e_local_conns stalled) l.
Proof. split; [by_session|]. exact (process_queue_refines (5 + secs 1) stalled [] stalled_reachable). Defined.

(** C26. After an input is applied at time [now], nothing due at [now] is
    left: no delayed job, no pause, no reservation past its deadline and no
    reserve past its timeout.  The loops of [tick] end with work to spare. *)
Theorem input_settles now i e out :
  reachable e → legal now i e = true → quiet now (apply_input now i (e, out)).1.
Proof.
  intros (b & HI & Hb)%reachable_inv Hl. unfold apply_input.
  destruct (Inv_run_input _ _ _ _ out HI Hb Hl) as [k HI1]. apply andb_true_iff in Hl as [Hnow%N.leb_le _].
  destruct (run_input now i (e, out)) as [e1 out1]. by apply (Rest_tick _ now e1 out1 Hnow HI1).
Qed.
Lemma input_settles_witness : quiet (secs 200) (apply_input (secs 200) EngineInput.Tick (busy, [])).1.
Proof. apply (input_settles _ _ busy [] busy_reachable). by_session. Defined.

(** The early return of [tick] is an optimisation only: on a reachable
    state [tick] does what its body does. *)
Theorem tick_fast_path now e out : reachable e → tick now (e, out) = tick_body now (e, out).
Proof. intros (b & HI & _)%reachable_inv. by apply (tick_is_body b false). Qed.
Lemma tick_fast_path_witness : tick 5 (busy, []) = tick_body 5 (busy, []).
Proof. exact (tick_fast_path 5 busy [] busy_reachable). Defined.

(** The times at which the engine has something to do. *)
Inductive wakes (e : Engine) : Nanos → Prop :=
  | wakes_delayed id j : e_jobs e !! id = Some j → j_state j = JobState.Delayed → wakes e (j_deadline_at j)
  | wakes_pause at_ tid : (at_, tid) ∈ e_pauses e → wakes e at_
  | wakes_conn cid c t : e_conns e !! cid = Some c → conn_tickat c = Some t → wakes e t.
Section wakes.
Context (b : Budget) (e : Engine) (HI : Inv b e).

Lemma due_wakes t : t ∈ due_times e → wakes e t.
Proof using HI.
  unfold due_times. rewrite !elem_of_union, !elem_of_map. intros [[([d tid] & -> & Hin)|([d tid] & -> & Hin)]|([d cid] & -> & Hin)].
  - apply (delay_heads_iff _ _ _ HI) in Hin as (id & t & Ht & Hin%bt_first_elem).
    apply (co_delayed _ _ HI _ _ Ht) in Hin as (j & Hj & Hs & _ & <-). by eapply wakes_delayed.
  - by eapply wakes_pause.
  - apply (co_ticks _ _ HI) in Hin. destruct (e_conns e !! cid) as [c|] eqn:Hc; [|done].
    eapply wakes_conn; [done|]. rewrite <-(co_tick_key _ _ HI _ _ Hc); [done|]. set_solver.
Qed.
Lemma wakes_due t : wakes e t → ∃ t', t' ∈ due_times e ∧ (t' ≤ t)%N.
Proof using HI.
  unfold due_times. setoid_rewrite elem_of_union. setoid_rewrite elem_of_union. setoid_rewrite elem_of_map.
  intros [id j Hj Hs|at_ tid Hp|cid c t' Hc Ht].
  - clear t. pose proof (co_jobs _ _ HI _ _ Hj) as (_ & _ & _ & [t Ht]).
    assert ((j_deadline_at j, id) ∈ t_delayed t) as Hin by (apply (co_delayed _ _ HI _ _ Ht); by exists j).
    destruct (bt_first_is_Some _ _ Hin) as [[d i] Hf]. exists d. split.
    + left. left. exists (d, j_tube j). split; [done|]. apply (delay_heads_iff _ _ _ HI). by exists i, t.
    + by apply (bt_first_min _ _ _ Hf), NN_ole_fst in Hin.
  - exists at_. split; [|done]. left. right. by exists (at_, tid).
  - exists t'. split; [|done]. right. exists (t', cid). split; [done|]. apply (co_ticks _ _ HI). rewrite Hc. simpl.
    by rewrite (co_tick_key _ _ HI _ _ Hc).
Qed.
End wakes.

(** [next_deadline] is the least time at which a delayed job, a pause or
    a connection needs attention, and [None] exactly when there is none: a
    server that sleeps until then misses nothing. *)
Theorem next_deadline_least e :
  reachable e →
  match next_deadline e with
  | Some d => wakes e d ∧ ∀ t, wakes e t → (d ≤ t)%N
  | None => ∀ t, ¬ wakes e t
  end.
Proof.
  intros (b & HI & _)%reachable_inv. pose proof (next_deadline_spec e) as Hd. destruct (next_deadline e) as [d|].
  - destruct Hd as [Hin Hmin]. split; [by apply (due_wakes _ _ HI)|].
    intros t (t' & Ht' & Hle)%(wakes_due _ _ HI). specialize (Hmin _ Ht'). lia.
  - intros t (t' & Ht' & _)%(wakes_due _ _ HI). set_solver.
Qed.
Lemma next_deadline_least_witness :
  next_deadline busy = Some (4 + secs 30)%N ∧ wakes busy (4 + secs 30).
Proof.
  assert (next_deadline busy = Some (4 + secs 30)%N) as E by (by_session).
  split; [exact E|]. pose proof (next_deadline_least busy busy_reachable) as H. rewrite E in H. exact (proj1 H).
Defined.

(** ** Commands *)
(** A command of an open connection. *)
Ltac known Hc := unfold handle; cbn [fst]; rewrite Hc.
Implicit Types (e : Engine) (out : Outbox) (c : ConnState) (j : JobRec).

(** C30. A put stores the job in the tube the connection uses, ready or
    delayed, with a ttr of at least one second, and answers INSERTED with its
    id after the dispatcher has run.  When the header of the put reserved an
    id, the job has that id and the time of the header and the id counter
    stays; otherwise it has the next id and the present time and the counter
    goes up.  Either way the id is new and the connection has no put pending
    any more.  While draining it stores nothing and answers DRAINING. *)
Theorem put_effect now cid e out c pri delay ttr body :
  reachable e → e_conns e !! cid = Some c →
  let s := handle now cid (Command.Put pri delay ttr body) (e, out) in
  let '(id, created, next) := put_origin now e c in
  e_jobs e !! id = None ∧ e_next_job_id s.1 = next ∧ c_pending_put <$> e_conns s.1 !! cid = Some None ∧
  if e_draining e then answers e out cid Response.Draining s
  else then_serves now e (<[id := new_job now id created (c_use_tube c) pri delay ttr body (job_file e)]> (e_jobs e))
         (rels e) out [(cid, Response.Inserted id)] s.
Proof.
  intros (b & HI & Hb%budget_ok_ids)%reachable_inv Hc. cbv zeta. known Hc. destruct (put_origin now e c) as [[id created] next] eqn:Ho.
  destruct (cmd_put_takes b now cid pri delay ttr body e out HI c Hc _ _ _ Ho) as [Hn Hp]. split_and!; [|exact Hn|exact Hp|].
  - destruct (put_id_origin b now cid e HI c Hc _ _ _ Ho) as (e1 & Hput & _). apply (Rest_put_id _ _ _ _ _ _ _ _ HI Hb Hput).
  - destruct (e_draining e) eqn:Hd.
    + by apply (cmd_put_draining b now cid pri delay ttr body e out HI c Hc _ _ _ Ho).
    + by apply (cmd_put_done b now cid pri delay ttr body e out HI Hb c Hc _ _ _ Ho).
Qed.
(** The session goes on: the header of a put arrives at time 6, and its body
    at time 9 while the id 6 is already taken by another connection. *)
Definition putting_inputs : list (Nanos * EngineInput) :=
  session ++ [(6, EngineInput.PutStarted 1 false); (7, EngineInput.Command 2 (Command.Put 2 0 9 (bs "y")))]%N.
Definition putting : Engine := (run putting_inputs start).1.
Lemma putting_reachable : reachable putting.
Proof. exists start.1, putting_inputs. split; [apply starts_new|]. split; [done|]. split; [by_session|done]. Qed.
#[local] Opaque putting.
Lemma put_effect_witness :
  ∃ c, e_conns putting !! 1%N = Some c ∧ e_next_job_id putting = 7%N ∧
  then_serves 9 putting
    (<[5%N := new_job 9 5 6 (c_use_tube c) 3 0 0 (bs "x") (job_file putting)]> (e_jobs putting)) (rels putting)
    [] [(1%N, Response.Inserted 5)] (handle 9 1 (Command.Put 3 0 0 (bs "x")) (putting, [])).
Proof.
  destruct (e_conns putting !! 1%N) as [c|] eqn:Hc; [|by vm_compute in Hc]. exists c. split; [done|]. split; [by_session|].
  pose proof (put_effect 9 1 putting [] c 3 0 0 (bs "x") putting_reachable Hc) as H.
  assert (c_pending_put <$> e_conns putting !! 1%N = Some (Some (mkPendingPut (Some 5%N) 6%N))) as Hp by by_session.
  rewrite Hc in Hp. injection Hp as Hp. cbv zeta in H. unfold put_origin in H. rewrite Hp in H.
  assert (e_draining putting = false) as Hd by by_session. rewrite Hd in H. apply H.
Defined.

(** C29. A reserve by a connection that is not waiting gets, of the ready jobs
    of the tubes it watches whose pause, if any, has passed, the one of the
    smallest priority, then id: it is answered with that job's body, and that
    job alone changes, to reserved by the connection until now plus its ttr.
    This assumes that no connection waits for a tube whose pause has passed
    since the last input: the same dispatch would serve it as well. *)
Theorem reserve_best now cid e out c timeout id j :
  reachable e → e_conns e !! cid = Some c → c_waiting c = false →
  lapsed_unwatched now e →
  let best id j := e_jobs e !! id = Some j ∧ j_state j = JobState.Ready ∧ unpaused now e (j_tube j) ∧
                   j_tube j ∈ ms_items (c_watch c) in
  best id j → (∀ id' j', best id' j' → (j_pri j, id) ≼ (j_pri j', id')) →
  let s := handle now cid (match timeout with Some t => Command.ReserveWithTimeout t | None => Command.Reserve end) (e, out) in
  s.2 = out ++ delivered (e_local_conns e) [(cid, Response.Reserved id (j_body j))] ∧
  ∃ seq, e_jobs s.1 = <[id := reserved_as cid (sat_add64 now (secs (j_ttr j))) seq j]> (e_jobs e) ∧ rels s.1 = rels e.
Proof.
  intros (b & HI & Hb)%reachable_inv Hc Hw Hp best Hbest Hmin. cbv zeta.
  pose proof (cmd_reserve_best b now cid timeout e out c id j HI Hb Hc Hw Hp Hbest Hmin) as H.
  destruct timeout; known Hc; exact H.
Qed.
(** The session goes on: the default tube was paused for a second, which has
    passed when the reserve arrives. *)
Definition paused_inputs : list (Nanos * EngineInput) := session ++ [(5, EngineInput.Command 1 (Command.PauseTube "default" 1))]%N.
Definition paused : Engine := (run paused_inputs start).1.
Lemma paused_reachable : reachable paused.
Proof. exists start.1, paused_inputs. split; [apply starts_new|]. split; [done|]. split; [by_session|done]. Qed.
Lemma paused_pauses : e_pauses paused = {[ ((5 + secs 1)%N, DEFAULT_TUBE) ]}.
Proof. by_session. Qed.
#[local] Opaque paused.
Lemma paused_unwatched now : lapsed_unwatched now paused.
Proof.
  assert (map_Forall (λ _ r, ¬ (r.2 = true ∧ DEFAULT_TUBE ∈ ms_items r.1.1.2)) (rels paused)) as Hw
    by (apply (bool_decide_eq_true _); by_session).
  intros at_ tid cid Hin _ (r & Hr & Hwait & Hm). rewrite paused_pauses in Hin. apply elem_of_singleton in Hin as [= -> ->].
  exact (Hw _ _ Hr (conj Hwait Hm)).
Qed.
Lemma reserve_best_witness :
  ∃ j, e_jobs paused !! 1%N = Some j ∧ j_body j = bs "a" ∧
  (handle (5 + secs 1) 2 Command.Reserve (paused, [])).2 =
    [] ++ delivered (e_local_conns paused) [(2%N, Response.Reserved 1 (j_body j))].
Proof.
  assert (map_Forall (λ i j, i = 1%N ∨ j_state j ≠ JobState.Ready) (e_jobs paused)) as Hone
    by (apply (bool_decide_eq_true _); by_session).
  destruct (e_jobs paused !! 1%N) as [j|] eqn:Hj; [|by vm_compute in Hj].
  destruct (e_conns paused !! 2%N) as [c|] eqn:Hc; [|by vm_compute in Hc]. exists j.
  assert ((λ j, (j_body j, j_state j, j_tube j)) <$> e_jobs paused !! 1%N = Some (bs "a", JobState.Ready, DEFAULT_TUBE)) as Hjs by by_session.
  assert ((λ c, (c_waiting c, ms_items (c_watch c))) <$> e_conns paused !! 2%N = Some (false, [DEFAULT_TUBE])) as Hcs by by_session.
  rewrite Hj in Hjs. injection Hjs as Hbody Hst Ht. rewrite Hc in Hcs. injection Hcs as Hw Hi.
  split; [done|]. split; [done|].
  apply (reserve_best (5 + secs 1) 2 paused [] c None 1 j paused_reachable Hc Hw (paused_unwatched _)).
  - split_and!; [done|done| |rewrite Hi, Ht; by apply list_elem_of_here].
    intros at_ Hin. rewrite paused_pauses in Hin. by apply elem_of_singleton in Hin as [= -> _].
  - intros id' j' (Hj' & Hs & _). destruct (Hone _ _ Hj') as [->|Hn]; [|destruct (Hn Hs)].
    rewrite Hj in Hj'. apply (inj Some) in Hj' as ->. reflexivity.
Defined.

(** A reserve answers DEADLINE_SOON when a job of the connection is
    within the safety margin of its deadline and no watched tube has a ready
    job.  Otherwise the connection joins the waiting ones and the dispatcher
    runs; with a timeout of zero a connection that still waits is answered
    at once, TIMED_OUT or DEADLINE_SOON, and waits no more. *)
Theorem reserve_effect now cid e out c timeout :
  reachable e → e_conns e !! cid = Some c → c_waiting c = false →
  let s := handle now cid (match timeout with Some t => Command.ReserveWithTimeout t | None => Command.Reserve end) (e, out) in
  (deadline_soon (e_jobs e) cid now ∧ ¬ ready_for (e_jobs e) (rels e) cid → answers e out cid Response.DeadlineSoon s) ∧
  (¬ deadline_soon (e_jobs e) cid now ∨ ready_for (e_jobs e) (rels e) cid →
   ∃ l R1, serves now (unpaused now e) (e_jobs e)
             (starts_waiting cid ((λ t, sat_add64 now (secs t)) <$> timeout) (rels e)) l (e_jobs s.1) R1 ∧
     ((timeout ≠ Some 0%N ∨ ¬ waits_in R1 cid) ∧ rels s.1 = R1 ∧ s.2 = out ++ delivered (e_local_conns e) l ∨
      timeout = Some 0%N ∧ waits_in R1 cid ∧ rels s.1 = answered cid R1 ∧
      ∃ r, (r = Response.DeadlineSoon ∧ deadline_soon (e_jobs e) cid now ∨
            r = Response.TimedOut ∧ ¬ deadline_soon (e_jobs e) cid now) ∧
           s.2 = out ++ delivered (e_local_conns e) (l ++ [(cid, r)]))).
Proof.
  intros (b & HI & Hb)%reachable_inv Hc Hw. cbv zeta.
  replace (handle now cid _ (e, out)) with (cmd_reserve now cid timeout (e, out)) by (destruct timeout; by known Hc).
  split.
  - intros [Hd Hr]. by apply (cmd_reserve_deadline_soon b now cid timeout e out HI).
  - by apply (cmd_reserve_waits b now cid timeout e out HI Hb c Hc Hw).
Qed.
Lemma reserve_effect_witness :
  ∃ l R1, serves (3 + secs 59) (unpaused (3 + secs 59) busy) (e_jobs busy) (starts_waiting 2 None (rels busy)) l
    (e_jobs (handle (3 + secs 59) 2 Command.Reserve (busy, [])).1) R1.
Proof.
  pose proof (reserve_effect (3 + secs 59) 2 busy [] (client 2) None busy_reachable
    ltac:(by_session) ltac:(by_session)) as [_ H].
  destruct H as (l & R1 & H & _); [|exists l, R1; exact H]. right.
  exists 1%N, (job 1), (default (0, ms_new, None, false) (rels busy !! 2%N)).
  split_and!; [by_session|by_session|by_session|]. apply (bool_decide_eq_true _). by_session.
Defined.

(** A release by the connection that holds the job gives it the new
    priority and delay, makes it ready or delayed, runs the dispatcher and
    answers RELEASED; anyone else gets NOT_FOUND and nothing changes. *)
Theorem release_effect now cid e out c id pri delay :
  reachable e → e_conns e !! cid = Some c →
  let s := handle now cid (Command.Release id pri delay) (e, out) in
  (∀ j, e_jobs e !! id = Some j → j_state j = JobState.Reserved → j_reserver j = Some cid →
     then_serves now e (<[id := released now pri delay j]> (e_jobs e)) (rels e) out [(cid, Response.Released)] s) ∧
  (¬ held_by (e_jobs e) cid id → answers e out cid Response.NotFound s).
Proof.
  intros (b & HI & _)%reachable_inv Hc. cbv zeta. known Hc. split.
  - intros j. by apply (cmd_release_held b).
  - by apply cmd_release_not_found.
Qed.
Lemma release_effect_witness :
  then_serves 9 busy (<[2%N := released 9 100 0 (job 2)]> (e_jobs busy)) (rels busy) [] [(2%N, Response.Released)]
    (handle 9 2 (Command.Release 2 100 0) (busy, [])).
Proof.
  apply (release_effect 9 2 busy [] (client 2) 2 100 0 busy_reachable); by_session.
Defined.

(** A bury by the connection that holds the job puts it at the end of
    its tube's buried list with the new priority and answers BURIED; anyone
    else gets NOT_FOUND and nothing changes. *)
Theorem bury_effect now cid e out c id pri :
  e_conns e !! cid = Some c →
  let s := handle now cid (Command.Bury id pri) (e, out) in
  (∀ j, e_jobs e !! id = Some j → j_state j = JobState.Reserved → j_reserver j = Some cid →
     changes e (<[id := buried_as (e_next_list_seq e) (j <| j_reserver := None |> <| j_pri := pri |>)]> (e_jobs e))
       out cid Response.Buried s) ∧
  (¬ held_by (e_jobs e) cid id → answers e out cid Response.NotFound s).
Proof.
  intros Hc. cbv zeta. known Hc. split.
  - intros j. by apply cmd_bury_held.
  - by apply cmd_bury_not_found.
Qed.
Lemma bury_effect_witness :
  changes busy (<[2%N := buried_as (e_next_list_seq busy) ((job 2) <| j_reserver := None |> <| j_pri := 8%N |>)]> (e_jobs busy))
    [] 2 Response.Buried (handle 9 2 (Command.Bury 2 8) (busy, [])).
Proof. apply (bury_effect 9 2 busy [] (client 2) 2 8); by_session. Defined.

(** A touch by the connection that holds the job moves its deadline to
    now plus its ttr and answers TOUCHED; anyone else gets NOT_FOUND and
    nothing changes. *)
Theorem touch_effect now cid e out c id :
  e_conns e !! cid = Some c →
  let s := handle now cid (Command.Touch id) (e, out) in
  (∀ j, e_jobs e !! id = Some j → j_state j = JobState.Reserved → j_reserver j = Some cid →
     changes e (<[id := j <| j_deadline_at := sat_add64 now (secs (j_ttr j)) |>]> (e_jobs e))
       out cid Response.Touched s) ∧
  (¬ held_by (e_jobs e) cid id → answers e out cid Response.NotFound s).
Proof.
  intros Hc. cbv zeta. known Hc. split.
  - intros j. by apply cmd_touch_held.
  - by apply cmd_touch_not_found.
Qed.
Lemma touch_effect_witness :
  changes busy (<[2%N := (job 2) <| j_deadline_at := sat_add64 50 (secs (j_ttr (job 2))) |>]> (e_jobs busy))
    [] 2 Response.Touched (handle 50 2 (Command.Touch 2) (busy, [])).
Proof. apply (touch_effect 50 2 busy [] (client 2) 2); by_session. Defined.

(** C31. A delete removes exactly the named job when no other connection
    holds it, whatever its state, and answers DELETED; otherwise it answers
    NOT_FOUND and nothing changes. *)
Theorem delete_effect now cid e out c id :
  e_conns e !! cid = Some c →
  let s := handle now cid (Command.Delete id) (e, out) in
  match e_jobs e !! id with
  | Some j => if deletable cid j then changes e (delete id (e_jobs e)) out cid Response.Deleted s
              else answers e out cid Response.NotFound s
  | None => answers e out cid Response.NotFound s
  end.
Proof.
  intros Hc. cbv zeta. known Hc. destruct (e_jobs e !! id) as [j|] eqn:Hj; [destruct (deletable cid j) eqn:Hd|].
  - by apply (cmd_delete_done cid id e out j).
  - apply cmd_delete_not_found. intros j' Hj'. congruence.
  - apply cmd_delete_not_found. intros j' Hj'. congruence.
Qed.
Lemma delete_effect_witness :
  changes busy (delete 4%N (e_jobs busy)) [] 1 Response.Deleted (handle 9 1 (Command.Delete 4) (busy, [])).
Proof.
  pose proof (delete_effect 9 1 busy [] (client 1) 4 ltac:(by_session)) as H.
  assert (e_jobs busy !! 4%N = Some (job 4)) as Hj by by_session. rewrite Hj in H.
  assert (deletable 1 (job 4) = true) as Hd by by_session. rewrite Hd in H. exact H.
Defined.

(** A reserve-job takes the named job when nobody holds it, whatever its
    state, even from a paused tube; a job that is reserved or unknown is
    NOT_FOUND and nothing changes. *)
Theorem reserve_job_effect now cid e out c id :
  e_conns e !! cid = Some c →
  let s := handle now cid (Command.ReserveJob id) (e, out) in
  match e_jobs e !! id with
  | Some j =>
      if bool_decide (j_state j = JobState.Reserved) then answers e out cid Response.NotFound s
      else changes e (<[id := reserved_as cid (sat_add64 now (secs (j_ttr j))) (e_next_list_seq e) j]> (e_jobs e))
             out cid (Response.Reserved id (j_body j)) s
  | None => answers e out cid Response.NotFound s
  end.
Proof.
  intros Hc. cbv zeta. known Hc. destruct (e_jobs e !! id) as [j|] eqn:Hj; [case_bool_decide|].
  - by apply (cmd_reserve_job_reserved now cid id e out j).
  - by apply (cmd_reserve_job_done now cid id e out j).
  - by apply cmd_reserve_job_unknown.
Qed.
Lemma reserve_job_effect_witness :
  answers busy [] 1 Response.NotFound (handle 9 1 (Command.ReserveJob 2) (busy, [])).
Proof.
  pose proof (reserve_job_effect 9 1 busy [] (client 1) 2 ltac:(by_session)) as H.
  assert (e_jobs busy !! 2%N = Some (job 2)) as Hj by by_session. rewrite Hj in H.
  assert (bool_decide (j_state (job 2) = JobState.Reserved) = true) as Hd by by_session. rewrite Hd in H. exact H.
Defined.

(** A kick-job makes the named job ready when it is buried or delayed,
    runs the dispatcher and answers KICKED; otherwise NOT_FOUND, and nothing
    changes. *)
Theorem kick_job_effect now cid e out c id :
  reachable e → e_conns e !! cid = Some c →
  let s := handle now cid (Command.KickJob id) (e, out) in
  match e_jobs e !! id with
  | Some j =>
      match j_state j with
      | JobState.Buried | JobState.Delayed =>
          then_serves now e (<[id := kicked j]> (e_jobs e)) (rels e) out [(cid, Response.KickedJob)] s
      | JobState.Ready | JobState.Reserved => answers e out cid Response.NotFound s
      end
  | None => answers e out cid Response.NotFound s
  end.
Proof.
  intros (b & HI & _)%reachable_inv Hc. cbv zeta. known Hc. destruct (e_jobs e !! id) as [j|] eqn:Hj; [destruct (j_state j) eqn:Hs|].
  - apply (cmd_kick_job_other now cid id e out j); auto.
  - apply (cmd_kick_job_other now cid id e out j); auto.
  - apply (cmd_kick_job_done b now cid id e out j); auto.
  - apply (cmd_kick_job_done b now cid id e out j); auto.
  - by apply cmd_kick_job_unknown.
Qed.
Lemma kick_job_effect_witness :
  then_serves 9 busy (<[4%N := kicked (job 4)]> (e_jobs busy)) (rels busy) [] [(1%N, Response.KickedJob)]
    (handle 9 1 (Command.KickJob 4) (busy, [])).
Proof.
  pose proof (kick_job_effect 9 1 busy [] (client 1) 4 busy_reachable ltac:(by_session)) as H.
  assert (e_jobs busy !! 4%N = Some (job 4)) as Hj by by_session. rewrite Hj in H.
  assert (j_state (job 4) = JobState.Buried) as Hd by by_session. rewrite Hd in H. exact H.
Defined.

(** A kick of bound [n] takes the jobs of the used tube one at a time,
    first to last, the buried ones if there is any and the delayed ones
    otherwise, running the dispatcher after each, until [n] are kicked or
    none is left; it answers with how many it kicked. *)
Theorem kick_effect now cid e out c n :
  reachable e → e_conns e !! cid = Some c →
  let s := handle now cid (Command.Kick n) (e, out) in let tid := c_use_tube c in
  let none_buried := none_left JobState.Buried tid (e_jobs e) in
  ∃ st key k l,
    (st = JobState.Buried ∧ key = j_list_seq ∧ ¬ none_buried ∨ st = JobState.Delayed ∧ key = j_deadline_at ∧ none_buried) ∧
    (k ≤ n)%N ∧ (k = n ∨ none_left st tid (e_jobs s.1)) ∧
    kicks now (unpaused now e) st key tid k (e_jobs e) (rels e) l (e_jobs s.1) (rels s.1) ∧
    s.2 = out ++ delivered (e_local_conns e) (l ++ [(cid, Response.Kicked k)]).
Proof.
  intros (b & HI & _)%reachable_inv Hc. cbv zeta. known Hc. pose proof (cmd_kick_done b now cid n e out HI) as H.
  cbv zeta in H. unfold use_tube_of in H. rewrite Hc in H. exact H.
Qed.
Lemma kick_effect_witness :
  ∃ st key k l, (k ≤ 5)%N ∧
    kicks 9 (unpaused 9 busy) st key (c_use_tube (client 1)) k (e_jobs busy) (rels busy) l
      (e_jobs (handle 9 1 (Command.Kick 5) (busy, [])).1) (rels (handle 9 1 (Command.Kick 5) (busy, [])).1).
Proof.
  destruct (kick_effect 9 1 busy [] (client 1) 5 busy_reachable ltac:(by_session)) as (st & key & k & l & _ & Hk & _ & H & _).
  exists st, key, k, l. split; [exact Hk|exact H].
Defined.

(** The peeks answer the first job of the used tube in their state: by
    priority for ready, by deadline for delayed, by burial order for buried,
    NOT_FOUND when there is none; nothing changes. *)
Theorem peek_effect now cid e out c :
  reachable e → e_conns e !! cid = Some c →
  let answer cmd st key := ∃ r, answers e out cid r (handle now cid cmd (e, out)) ∧ peeked cid e st key r in
  answer Command.PeekReady JobState.Ready j_pri ∧ answer Command.PeekDelayed JobState.Delayed j_deadline_at ∧
  answer Command.PeekBuried JobState.Buried j_list_seq.
Proof.
  intros (b & HI & _)%reachable_inv Hc. cbv zeta. known Hc.
  split_and!; [by apply (cmd_peek_ready_done b)|by apply (cmd_peek_delayed_done b)|by apply (cmd_peek_buried_done b)].
Qed.
Lemma peek_effect_witness :
  ∃ r, answers busy [] 1 r (handle 9 1 Command.PeekDelayed (busy, [])) ∧
    peeked 1 busy JobState.Delayed j_deadline_at r.
Proof. apply (peek_effect 9 1 busy [] (client 1) busy_reachable). by_session. Defined.

(** Use, watch and ignore: use makes the named tube the connection's
    used one; watch adds it to the watch list unless it is there; ignore
    removes it unless it is the last one, which is NOT_IGNORED.  They answer
    with the tube's name or the number of watched tubes, no job changes, and
    no other connection does. *)
Theorem session_effect now cid e out c name :
  reachable e → e_conns e !! cid = Some c →
  let use := handle now cid (Command.Use name) (e, out) in
  let watch := handle now cid (Command.Watch name) (e, out) in
  let ignore := handle now cid (Command.Ignore name) (e, out) in
  let watching c' := [(cid, Response.Watching (N.of_nat (ms_len (c_watch c'))))] in
  (∃ tid, e_tube_ids use.1 !! name = Some tid ∧ e_jobs use.1 = e_jobs e ∧
     e_conns use.1 = <[cid := c <| c_use_tube := tid |>]> (e_conns e) ∧
     use.2 = out ++ delivered (e_local_conns e) [(cid, Response.Using name)]) ∧
  (∃ tid, e_tube_ids watch.1 !! name = Some tid ∧ e_jobs watch.1 = e_jobs e ∧
     let c' := if ms_contains tid (c_watch c) then c else c <| c_watch ::= ms_append tid |> in
     e_conns watch.1 = <[cid := c']> (e_conns e) ∧ watch.2 = out ++ delivered (e_local_conns e) (watching c')) ∧
  e_jobs ignore.1 = e_jobs e ∧
  let watched := match e_tube_ids e !! name with Some tid => ms_contains tid (c_watch c) | None => false end in
  if watched && (N.of_nat (ms_len (c_watch c)) <? 2)%N then
    e_conns ignore.1 = e_conns e ∧ ignore.2 = out ++ delivered (e_local_conns e) [(cid, Response.NotIgnored)]
  else
    let c' := match e_tube_ids e !! name with
              | Some tid => if watched then c <| c_watch ::= (λ m, (ms_remove tid m).2) |> else c
              | None => c
              end in
    e_conns ignore.1 = <[cid := c']> (e_conns e) ∧ ignore.2 = out ++ delivered (e_local_conns e) (watching c').
Proof.
  intros (b & HI & _)%reachable_inv Hc. cbv zeta. known Hc. split_and!.
  - by apply (cmd_use_done b cid name e out HI).
  - by apply (cmd_watch_done b cid name e out HI).
  - by apply (cmd_ignore_done cid name e out c).
  - by apply (cmd_ignore_done cid name e out c).
Qed.
Lemma session_effect_witness : e_jobs (handle 9 1 (Command.Ignore "other") (busy, [])).1 = e_jobs busy.
Proof.
  destruct (session_effect 9 1 busy [] (client 1) "other" busy_reachable ltac:(by_session)) as (_ & _ & H & _). exact H.
Defined.

(** C27. No input loses or alters a job: a put that is not refused adds one
    job with the id reserved for it, the tube, ttr, body and creation time
    it was given; the delete of a job nobody else holds removes that job;
    any other input, the passing of time included, leaves the set of jobs
    and these fields of each job as they were. *)
Theorem jobs_kept now i e out : stamps (apply_input now i (e, out)).1 = kept_by now i e.
Proof. apply kept_input. Qed.

(** C32. A connection that is closed leaves nothing behind: it is gone, and
    no job is reserved by it; what it held is in a queue or with another
    connection. *)
Theorem disconnect_releases now cid e out :
  reachable e → (now ≤ u64_max)%N →
  let e' := (apply_input now (EngineInput.Disconnect cid) (e, out)).1 in
  e_conns e' !! cid = None ∧ ∀ id j, e_jobs e' !! id = Some j → j_reserver j ≠ Some cid.
Proof.
  intros Hr Hnow. cbv zeta.
  assert (legal now (EngineInput.Disconnect cid) e = true) as Hl
    by (apply andb_true_iff; split; [by apply N.leb_le|done]).
  destruct (reachable_step e now (EngineInput.Disconnect cid) out Hr Hl) as [b' HI'].
  destruct (reachable_inv _ Hr) as (b & HI & Hb).
  assert (e_conns (apply_input now (EngineInput.Disconnect cid) (e, out)).1 !! cid = None) as Hno.
  { unfold apply_input. cbn [run_input]. pose proof (Inv_disconnect _ _ out now cid HI) as HI1.
    pose proof (disconnect_gone now cid (e, out)) as Hg. destruct (disconnect now cid (e, out)) as [e1 out1].
    cbn [fst] in *. destruct (Rest_tick _ now e1 out1 Hnow HI1) as (_ & Ha & _).
    pose proof (ag_calmer _ _ _ Ha cid) as Hcalm. unfold rels in Hcalm. rewrite !lookup_fmap, Hg in Hcalm.
    by destruct (e_conns (tick now (e1, out1)).1 !! cid). }
  split; [done|]. intros id j Hj Hc. pose proof (co_queued _ _ HI' _ _ Hj) as [Hq _].
  destruct (in_state JobState.Reserved j); [|congruence]. destruct Hq as (cid' & Hc' & [c Hcc]). congruence.
Qed.
Lemma disconnect_releases_witness :
  let e' := (apply_input 9 (EngineInput.Disconnect 2) (busy, [])).1 in
  e_conns e' !! 2%N = None ∧ ∀ id j, e_jobs e' !! id = Some j → j_reserver j ≠ Some 2%N.
Proof. exact (disconnect_releases 9 2 busy [] busy_reachable ltac:(done)). Defined.

(** Replicas agree.  A node that answers only the connections it owns
    is, after any inputs, in the same state as the engine that answers all
    of them, and sends exactly those replies that go to its connections. *)
Theorem replica_projection inputs l e out :
  e_local_conns e = None →
  let s := run inputs (e, out) in
  run inputs (e <| e_local_conns := Some l |>, delivered (Some l) out) =
    (s.1 <| e_local_conns := Some l |>, delivered (Some l) s.2).
Proof. intros H. exact (proj1 (node_run inputs l (e, out) H)). Qed.
Lemma replica_projection_witness :
  let l := mkLocalConns 0 0 in
  run session ((Engine_new 0 plain_config plain_sys) <| e_local_conns := Some l |>, delivered (Some l) []) =
    ((run session (Engine_new 0 plain_config plain_sys, [])).1 <| e_local_conns := Some l |>,
     delivered (Some l) (run session (Engine_new 0 plain_config plain_sys, [])).2).
Proof. exact (replica_projection session (mkLocalConns 0 0) (Engine_new 0 plain_config plain_sys) [] eq_refl). Defined.
