(* ===== verification/StateSpec.v ===== *)
(** * Snapshots, validation and recovery: the main theorems

    [validate] decides the invariant, snapshots round trip in both
    directions, and recovery rebuilds every job of a well-formed log. *)

From S2P Require Import Prelude Ms Proto Model Engine Inv Validate Snapshot Valid ValidInv ConnOps Reach.
From S2P Require Import Recover Start.
From S2P Require Import Moves Scenario.
From stdpp Require Import options.

(** ** Round trips of the hash maps *)
Lemma entries_pairs {K} `{Ord K, Countable K} {V} (l : list (K * V)) : entries fst snd l = list_to_map l.
Proof. unfold entries. f_equal. by induction l as [|[k v] l IH]; cbn; [|rewrite IH]. Qed.
Lemma collect_sorted_map {K} `{Ord K, Countable K} {V} (m : gmap K V) :
  collect fst snd None ∅ (sort_by_key fst (map_to_list m)) = Some m.
Proof.
  apply collect_None. split; [apply sort_ascending, NoDup_fst_map_to_list|]. rewrite entries_pairs.
  rewrite <-(list_to_map_to_list m) at 1. apply list_to_map_proper; [apply NoDup_fst_map_to_list|].
  by rewrite sort_by_key_perm.
Qed.
Lemma sorted_collect_map {K} `{Ord K, Countable K} {V} (l : list (K * V)) m :
  collect fst snd None ∅ l = Some m → sort_by_key fst (map_to_list m) = l.
Proof.
  intros [Hl ->]%collect_None. apply sort_unique; [done|]. rewrite entries_pairs. apply map_to_list_to_map.
  by apply ascending_keys.
Qed.
(** The job table: every job is stored under its own id. *)
Lemma keyed_by_id (J : gmap JobId JobRec) :
  map_Forall (λ i j, j_id j = i) J → (λ j, (j_id j, j)) <$> (map_to_list J).*2 = map_to_list J.
Proof.
  intros HJ. rewrite <-list_fmap_compose. rewrite <-(list_fmap_id (map_to_list J)) at 2. apply list_fmap_ext.
  intros k [i j] Hk%list_elem_of_lookup_2%elem_of_map_to_list. cbn. by rewrite (HJ _ _ Hk).
Qed.
Lemma ids_keyed (J : gmap JobId JobRec) :
  map_Forall (λ i j, j_id j = i) J → j_id <$> (map_to_list J).*2 = (map_to_list J).*1.
Proof. intros HJ. rewrite <-(keyed_by_id J HJ) at 2. by rewrite <-!list_fmap_compose. Qed.
Lemma collect_sorted_jobs (J : gmap JobId JobRec) :
  map_Forall (λ i j, j_id j = i) J → collect j_id id None ∅ (sort_by_key j_id (map_to_list J).*2) = Some J.
Proof.
  intros HJ. apply collect_None. split.
  - apply sort_ascending. rewrite ids_keyed by done. apply NoDup_fst_map_to_list.
  - unfold entries. cbn. rewrite <-(list_to_map_to_list J) at 1. apply list_to_map_proper; [apply NoDup_fst_map_to_list|].
    rewrite sort_by_key_perm. by rewrite keyed_by_id.
Qed.
Lemma entries_id (l : list JobRec) : map_Forall (λ i j, j_id j = i) (entries j_id id l).
Proof.
  intros i j Hj. apply elem_of_list_to_map_2, list_elem_of_fmap in Hj as (j' & [= -> ->] & _). done.
Qed.
Lemma sorted_collect_jobs (l : list JobRec) J :
  collect j_id id None ∅ l = Some J → sort_by_key j_id (map_to_list J).*2 = l.
Proof.
  intros [Hl ->]%collect_None. apply sort_unique; [done|]. unfold entries. cbn.
  rewrite map_to_list_to_map; [|rewrite <-list_fmap_compose; by apply (ascending_keys j_id)].
  rewrite <-list_fmap_compose. cbn. by rewrite list_fmap_id.
Qed.

(** C39. [validate] decides the invariant: a state is accepted exactly when
    all its structures agree ([Inv]) and its slab, counters and connection
    total are within the limits of the check.  [cur_conns] is a u32. *)
Theorem validate_exact e :
  (cur_conns (e_cc e) < 2 ^ 32)%N →
  validate e = Some () ↔ wf e ∧ slab_limits e ∧ (cur_conns (e_cc e) ≤ tot_conns (e_cc e))%N.
Proof.
  intros Hlt. split.
  - intros Hv. split; [exists (valid_budget e); by apply validate_sound|by apply validate_limits].
  - intros ([b HI] & Hlim & Htot). by eapply validate_complete.
Qed.
Lemma busy_cc : e_cc busy = mkConnCounts 3 3 1 2.
Proof. by_session. Qed.
Lemma busy_limits : slab_limits busy.
Proof.
  assert (length (e_tubes busy) = 2) as H1 by by_session. assert (e_next_list_seq busy = 3%N) as H2 by by_session.
  unfold slab_limits. rewrite H1, H2, busy_next. split_and!; vm_compute; discriminate.
Qed.
Lemma validate_exact_witness : validate busy = Some ().
Proof.
  destruct (reachable_inv busy busy_reachable) as (b & HI & _).
  apply (validate_exact busy); [by rewrite busy_cc|]. split; [by exists b|]. split; [exact busy_limits|by rewrite busy_cc].
Defined.

(** ** Snapshots *)
(** What a snapshot does not carry. *)
Definition reimported (sys : SysSnapshot) (e : Engine) : Engine :=
  e <| e_sys := sys |> <| e_journal := [] |> <| e_local_conns := None |>.
Lemma validate_reimported sys e : validate (reimported sys e) = validate e.
Proof. done. Qed.
Lemma import_export b e sys : Inv b e → import_state (export_state e) sys = (_ ← validate e; Some (reimported sys e)).
Proof.
  intros HI. unfold import_state, export_state. cbn [s_jobs s_tube_ids s_conns].
  rewrite collect_sorted_jobs by (intros i j Hj; apply (co_jobs _ _ HI _ _ Hj)). cbn [mbind option_bind].
  rewrite !collect_sorted_map. cbn [mbind option_bind].
  match goal with |- validate ?e' ≫= _ = _ => assert (e' = reimported sys e) as -> by by destruct e end.
  by rewrite validate_reimported.
Qed.
Lemma Inv_round_trip b e sys :
  Inv b e → slab_limits e → (cur_conns (e_cc e) ≤ tot_conns (e_cc e))%N →
  import_state (export_state e) sys = Some (reimported sys e).
Proof. intros HI Hlim Htot. by rewrite (import_export _ _ _ HI), (validate_complete _ _ HI Hlim Htot). Qed.
(** C40. Exporting a reachable state and importing it gives the engine back,
    but for the process facts, the pending journal and the reply filter,
    which a snapshot does not carry, exactly when the state is within the
    limits the import checks: the number of tube slots, the list keys and the
    next job id are at most their maxima, and the u32 total of connections has
    not wrapped below the number of open ones.  Otherwise it is refused. *)
Theorem snapshot_round_trip e sys :
  reachable e →
  let within := slab_limits e ∧ (cur_conns (e_cc e) ≤ tot_conns (e_cc e))%N in
  (within → import_state (export_state e) sys = Some (reimported sys e)) ∧
  (¬ within → import_state (export_state e) sys = None).
Proof.
  intros (b & HI & _)%reachable_inv within. split; [intros [Hlim Htot]; by apply (Inv_round_trip b)|].
  intros Hn. rewrite (import_export _ _ _ HI). destruct (validate e) as [[]|] eqn:Hv; [|done]. destruct (Hn (validate_limits _ Hv)).
Qed.
Lemma snapshot_round_trip_witness : import_state (export_state busy) plain_sys = Some (reimported plain_sys busy).
Proof. apply (snapshot_round_trip busy plain_sys busy_reachable). split; [exact busy_limits|]. by rewrite busy_cc. Defined.

(** A snapshot is canonical: one that is imported is what the imported
    engine exports, so equal engines have equal snapshots. *)
Theorem import_canonical s sys e : import_state s sys = Some e → export_state e = s.
Proof.
  unfold import_state. intros (J & HJ & (I & HI & (C & HC & H)%bind_Some)%bind_Some)%bind_Some.
  cbv zeta in H. apply bind_Some in H as ([] & _ & [= <-]). unfold export_state. cbn.
  rewrite (sorted_collect_jobs _ _ HJ), (sorted_collect_map _ _ HI), (sorted_collect_map _ _ HC). by destruct s.
Qed.
Lemma import_canonical_witness : export_state (reimported plain_sys busy) = export_state busy.
Proof. 
  apply (import_canonical (export_state busy) plain_sys).
  destruct (reachable_inv busy busy_reachable) as (b & HI & _).
  apply (Inv_round_trip b busy plain_sys HI busy_limits). by rewrite busy_cc.
Defined.

(** ** Recovery *)
Definition recovered_state (now : Nanos) (r : JobRecord) : JobState :=
  match r_state r with
  | RecordState.Buried => JobState.Buried
  | RecordState.Delayed => if (now <? r_deadline_at r)%N then JobState.Delayed else JobState.Ready
  | RecordState.Ready => JobState.Ready
  end.
(** [j] is the job [rj] records: its parameters, body and history, reserved
    by no one, a buried job counting one more bury. *)
Definition recovers (now : Nanos) (rj : RecoveredJob) (j : JobRec) : Prop :=
  let r := rj_record rj in
  j_id j = r_id r ∧ j_body j = rj_body rj ∧ j_pri j = r_pri r ∧ j_delay j = r_delay r ∧
  j_ttr j = N.max (r_ttr r) 1 ∧ j_created_at j = r_created_at r ∧
  j_state j = recovered_state now r ∧ j_reserver j = None ∧
  (j_state j = JobState.Delayed → j_deadline_at j = r_deadline_at r) ∧
  (j_reserve_ct j, j_timeout_ct j, j_release_ct j, j_kick_ct j) =
    (r_reserve_ct r, r_timeout_ct r, r_release_ct r, r_kick_ct r) ∧
  j_bury_ct j = if bool_decide (j_state j = JobState.Buried) then incr32 (r_bury_ct r) else r_bury_ct r.
Lemma entered_recovers now seq tid rj : recovers now rj (entered now seq (rj_record rj) (recovered_job tid rj)).
Proof.
  unfold recovers, entered, recovered_state. destruct (r_state (rj_record rj)); [done| |done].
  by destruct (now <? r_deadline_at (rj_record rj))%N.
Qed.
(** Recovery from a well-formed log gives an engine that satisfies the
    invariant and holds exactly the jobs of the log, each in the tube and the
    state its record says (a delayed job past its deadline is ready), with no
    connection and a next id above every id of the log. *)
Theorem recover_correct now cfg sys rec :
  recovery_ok rec →
  let e := recover now cfg sys rec in
  wf e ∧ e_conns e = ∅ ∧
  (∀ rj, rj ∈ rec_jobs rec → ∃ j, e_jobs e !! rj_id rj = Some j ∧ recovers now rj j ∧
     tube_name e (j_tube j) = rj_tube rj) ∧
  (∀ i j, e_jobs e !! i = Some j → ∃ rj, rj ∈ rec_jobs rec ∧ rj_id rj = i) ∧
  (rec_next_id rec ≤ e_next_job_id e)%N ∧ ∀ rj, rj ∈ rec_jobs rec → (rj_id rj < e_next_job_id e)%N.
Proof.
  intros Hok e. destruct (rec_state_recover now cfg sys rec Hok) as (Hs & _ & Hnext & Hlt). fold e in Hs, Hnext, Hlt.
  destruct (rec_state_Inv _ _ _ _ Hs) as [bt HI]. pose proof (co_reg _ _ HI) as (_ & Hn & _).
  split; [by eexists|]. split; [apply (rs_core _ _ _ _ _ Hs)|]. split_and!; try done.
  - intros rj Hin. destruct (rs_rec _ _ _ _ _ Hs _ Hin) as (tid & seq & Hid & Hj). eexists. split; [exact Hj|].
    split; [apply entered_recovers|]. rewrite entered_tube. apply Hn in Hid. unfold tube_name, tube. cbn.
    destruct (slot (e_tubes e) tid) as [t|]; [|done]. by injection Hid.
  - intros i j Hj. assert (i ∈ (r_id ∘ rj_record) <$> rec_jobs rec) as (rj & -> & Hin)%list_elem_of_fmap.
    { apply (rs_jobs _ _ _ _ _ Hs). by exists j. }
    by exists rj.
Qed.
Definition small_log : Recovery :=
  mkRecovery
    [mkRecoveredJob (mkJobRecord 3 10 0 60 1 0 RecordState.Ready 2 1 0 0 0) "mail" (bs "x");
     mkRecoveredJob (mkJobRecord 1 20 5 60 1 100 RecordState.Delayed 0 0 0 0 0) "default" (bs "y");
     mkRecoveredJob (mkJobRecord 2 30 0 0 1 0 RecordState.Buried 1 0 0 1 0) "mail" (bs "z")] 7 ["default"; "mail"].
Lemma small_log_ok : recovery_ok small_log.
Proof.
  constructor.
  - apply (bool_decide_unpack (NoDup (rj_id <$> rec_jobs small_log))). by vm_compute.
  - intros rj Hin. cbn in Hin. rewrite !elem_of_cons, elem_of_nil in Hin. by destruct Hin as [->|[->|[->|[]]]].
  - done.
Qed.
Lemma recover_correct_witness :
  ∃ j, e_jobs (recover 50 plain_config plain_sys small_log) !! 2%N = Some j ∧
    j_state j = JobState.Buried ∧ j_bury_ct j = 2%N ∧ j_ttr j = 1%N.
Proof.
  destruct (recover_correct 50 plain_config plain_sys small_log small_log_ok) as (_ & _ & Hj & _).
  destruct (Hj (mkRecoveredJob (mkJobRecord 2 30 0 0 1 0 RecordState.Buried 1 0 0 1 0) "mail" (bs "z"))) as (j & Hj' & Hr & _).
  { cbn. right. right. left. }
  exists j. split; [exact Hj'|]. destruct Hr as (_ & _ & _ & _ & Httr & _ & Hs & _ & _ & _ & Hb).
  rewrite Hs in Hb. split; [exact Hs|]. split; [exact Hb|exact Httr].
Defined.

(** ** The connection total wraps *)
(** An idle engine that has served [k] connections. *)
Definition idle (k : N) : Engine := (Engine_new 0 plain_config plain_sys) <| e_cc := mkConnCounts 0 k 0 0 |>.
Definition visit : list (Nanos * EngineInput) := [(0, EngineInput.Connect 1); (0, EngineInput.Disconnect 1)]%N.
Lemma visit_counts k out : legal_run visit (idle k, out) = true ∧ run visit (idle k, out) = (idle (incr32 k), out).
Proof. split; reflexivity. Qed.
Definition visits (n : nat) : list (Nanos * EngineInput) := mjoin (replicate n visit).
Lemma run_app l l' s : run (l ++ l') s = run l' (run l s).
Proof. apply foldl_app. Qed.
Lemma legal_run_app l l' s : legal_run (l ++ l') s = legal_run l s && legal_run l' (run l s).
Proof.
  revert s. induction l as [|[now i] l IH]; intros s; [done|]. cbn [app legal_run]. by rewrite IH, andb_assoc.
Qed.
Lemma visits_count n k :
  (k + N.of_nat n < 2 ^ 32)%N →
  legal_run (visits n) (idle k, []) = true ∧ run (visits n) (idle k, []) = (idle (k + N.of_nat n), []).
Proof.
  revert k. induction n as [|n IH]; intros k Hk; [by rewrite N.add_0_r|].
  change (visits (S n)) with (visit ++ visits n). destruct (visit_counts k []) as [Hl Hr].
  rewrite legal_run_app, run_app, Hl, Hr. assert (incr32 k = (k + 1)%N) as ->.
  { unfold incr32, wrap32. apply N.mod_small. lia. }
  destruct (IH (k + 1)%N) as [-> ->]; [lia|]. split; [done|]. do 2 f_equal. lia.
Qed.
Lemma length_visits n : length (visits n) = 2 * n.
Proof. induction n as [|n IH]; [done|]. change (visits (S n)) with (visit ++ visits n). rewrite length_app, IH. cbn. lia. Qed.

(** One more connection after 2^32 - 1 visits. *)
Definition wrapped : Engine := (apply_input 0 (EngineInput.Connect 1) (idle (2 ^ 32 - 1), [])).1.
Lemma wrapped_state : e_cc wrapped = mkConnCounts 1 0 0 0 ∧ slab_limits wrapped.
Proof. split; [by vm_compute|]. split_and!; vm_compute; discriminate. Qed.
Lemma visits_reach n : N.of_nat n = (2 ^ 32 - 1)%N → reachable wrapped.
Proof.
  intros Hn. destruct (visits_count n 0) as [Hl Hr]; [lia|]. rewrite N.add_0_l, Hn in Hr.
  exists (idle 0), (visits n ++ [(0%N, EngineInput.Connect 1)]). split; [apply (starts_new 0 plain_config plain_sys)|].
  split; [|split].
  - unfold run_limit. rewrite length_app, length_visits. cbn. lia.
  - rewrite legal_run_app, Hl, Hr. by vm_compute.
  - rewrite run_app, Hr. unfold run, wrapped. cbn [foldl fst snd]. reflexivity.
Qed.
#[local] Opaque wrapped.
Lemma wrapped_rejected e sys : e_cc e = mkConnCounts 1 0 0 0 → import_state (export_state e) sys = None.
Proof.
  intros Hcc. destruct (import_state (export_state e) sys) as [e'|] eqn:Hi; [|done].
  apply import_cases in Hi as (Hv & Hcc' & _). apply validate_limits in Hv as [_ Hle].
  rewrite Hcc' in Hle. cbn [export_state s_cc] in Hle. rewrite Hcc in Hle. by destruct Hle.
Qed.

(** The engine counts connections in a u32 that wraps: after 2^32
    connections, one of them still open, a healthy engine has [tot_conns]
    below [cur_conns], and its snapshot cannot be imported. *)
Theorem tot_conns_wrap :
  ∃ e, reachable e ∧ slab_limits e ∧ e_cc e = mkConnCounts 1 0 0 0 ∧
    import_state (export_state e) plain_sys = None.
Proof.
  exists wrapped. destruct wrapped_state as [Hcc Hlim].
  split; [exact (visits_reach _ (N2Nat.id (2 ^ 32 - 1)))|]. split; [exact Hlim|]. split; [exact Hcc|].
  exact (wrapped_rejected wrapped plain_sys Hcc).
Qed.
