(* ===== verification/WireSpec.v ===== *)
(** * Theorems about the wire protocol

    The properties of [crates/proto/src]: numbers and lines, framing, and
    the text of replies. *)

From S2P Require Import Prelude Proto Stats Parse Codec Reply.
From stdpp Require Import options.

(** ** Numbers and lines *)
Lemma skip_spec buf : ∃ spaces, buf = spaces ++ skip_leading_spaces buf ∧ Forall (λ b, b = " "%char) spaces.
Proof.
  exists (span_while (λ b, bool_decide (b = " "%char)) buf). split; [apply span_drop|].
  eapply Forall_impl; [apply span_all|]. by intros b ?%bool_decide_eq_true.
Qed.
Lemma drop_while_stops f l : stops f (drop_while f l).
Proof. induction l as [|b l IH]; simpl; [done|]. destruct (f b) eqn:E; [done|]. by intros b' [= <-]. Qed.

(** The number readers are exact at every length of input: what
    [read_u64_partial] returns is the decimal value of the whole digit run
    after the spaces, and it fails when there is no digit or the value does
    not fit 64 bits, although it computes in saturating 128-bit arithmetic. *)
Theorem read_u64_exact spaces ds rest :
  Forall (λ b, b = " "%char) spaces → digits ds → stops is_digit rest → (ds = [] → stops (λ b, bool_decide (b = " "%char)) rest) →
  read_u64_partial (spaces ++ ds ++ rest) =
    if bool_decide (ds = []) || (u64_max <? dec_value ds)%N then None else Some (dec_value ds, rest).
Proof.
  intros Hs Hd Hr Hnil. unfold read_u64_partial, skip_leading_spaces.
  destruct (span_app (λ b, bool_decide (b = " "%char)) spaces (ds ++ rest)) as [_ ->].
  { eapply Forall_impl; [exact Hs|]. intros b ->. done. }
  { destruct ds as [|d ds]; [by apply Hnil|]. intros b [= <-]. apply Forall_cons in Hd as [Hd _].
    apply bool_decide_eq_false. by apply digit_not_space. }
  unfold parse_digits. destruct (span_app is_digit ds rest Hd Hr) as [-> ->]. destruct ds as [|d ds].
  - cbn [app]. destruct (head rest) as [b|] eqn:E; [|done]. by rewrite (Hr b E).
  - apply Forall_cons in Hd as [Hd1 _]. cbn [head app]. rewrite Hd1. cbn [mbind option_bind].
    rewrite bool_decide_eq_false_2 by done. cbn [orb]. rewrite digits_value_spec.
    assert (u64_max < u128_max)%N by done.
    destruct (N.ltb_spec u64_max (dec_value (d :: ds))); destruct (N.ltb_spec u64_max (N.min (dec_value (d :: ds)) u128_max));
      try lia; [done|]. do 2 f_equal. lia.
Qed.
Lemma read_u64_exact_witness :
  read_u64_partial (bs "  " ++ bs "340282366920938463463374607431768211457" ++ bs " 1") = None.
Proof.
  rewrite (read_u64_exact (bs "  ") (bs "340282366920938463463374607431768211457") (bs " 1")).
  - vm_compute. reflexivity.
  - repeat constructor.
  - unfold digits. repeat constructor.
  - intros b [= <-]. reflexivity.
  - discriminate.
Defined.

(** Every command has a line that the parser reads as that command, a put
    as its header. *)
Theorem parse_print cmd :
  command_ok cmd = true → body_ok cmd = true → parse_line_raw (command_line cmd) = inl (parsed_command cmd).
Proof. apply parse_command_line. Qed.
Lemma parse_print_witness :
  parse_line_raw (bs "release 18446744073709551615 7 4294967295") =
    inl (ParsedLine.Command (Command.Release 18446744073709551615 7 4294967295)).
Proof. exact (parse_print (Command.Release 18446744073709551615 7 4294967295) eq_refl eq_refl). Defined.

(** Whatever the line, the parser answers with a command whose numbers
    and tube name fit their types, a put header likewise, or one of the two
    protocol errors. *)
Theorem parse_total line :
  match parse_line_raw line with
  | inl (ParsedLine.Command cmd) => command_ok cmd = true ∧ typed cmd = true
  | inl (ParsedLine.Put h) => header_ok h = true
  | inr r => r = Response.BadFormat ∨ r = Response.UnknownCommand
  end.
Proof.
  pose proof (parse_line_raw_ok line) as Hok. pose proof (parse_error line) as He.
  destruct (parse_line_raw line) as [[cmd|h]|r]; [|exact (Hok _ eq_refl)|by apply He].
  specialize (Hok _ eq_refl). split; [done|]. by apply command_ok_typed.
Qed.

(** ** Framing *)
(** Bytes arrive in pieces; what is left of a piece is kept for the next. *)
Fixpoint feed (c : ServerCodec) (rest : Bytes) (chunks : list Bytes) : list Frame * (ServerCodec * Bytes) :=
  match chunks with
  | [] => ([], (c, rest))
  | chunk :: chunks =>
      let '(l1, (c1, rest1)) := frames c (rest ++ chunk) in
      let '(l2, r) := feed c1 rest1 chunks in (l1 ++ l2, r)
  end.
Lemma feed_frames c rest chunk chunks :
  feed c rest (chunk :: chunks) = frames c (rest ++ chunk ++ concat chunks).
Proof.
  revert c rest chunk. induction chunks as [|d chunks IH]; intros c rest chunk.
  - cbn [feed concat]. rewrite app_nil_r. destruct (frames c (rest ++ chunk)) as [l1 [c1 rest1]]. by rewrite app_nil_r.
  - rewrite (app_assoc rest), frames_app. remember (d :: chunks) as l eqn:El. cbn [feed].
    destruct (frames c (rest ++ chunk)) as [l1 [c1 rest1]]. subst l. by rewrite IH.
Qed.

(** C36. The frames do not depend on how the bytes are split into reads: fed
    one read at a time, the decoder yields the frames, the state and the
    unused bytes of the whole stream. *)
Theorem chunk_independence c chunks chunks' :
  chunks ≠ [] → chunks' ≠ [] → concat chunks = concat chunks' → feed c [] chunks = feed c [] chunks'.
Proof.
  intros H1 H2 He. destruct chunks as [|a l]; [done|]. destruct chunks' as [|b l']; [done|].
  rewrite !feed_frames. cbn [concat app] in *. by rewrite He.
Qed.
Lemma chunk_independence_witness :
  feed (ServerCodec_new 10) [] [bs "put 0 0 1 12" ++ [cr]; lf :: bs "abc"; bs "def"] =
  feed (ServerCodec_new 10) [] [bs "put 0 0 1 12" ++ crlf ++ bs "abcdef"].
Proof. apply chunk_independence; [discriminate|discriminate|reflexivity]. Defined.

(** C37. Pipelined commands come out of the decoder as they were sent: every
    command within its types whose body fits the job size, whatever it is
    split into on the way. *)
Theorem wire_round_trip c cmds chunks :
  sc_state c = State.Line false → (sc_max_job_size c ≤ u32_max)%N → Forall (λ cmd, fits c cmd = true) cmds →
  chunks ≠ [] → concat chunks = concat (wire <$> cmds) →
  feed c [] chunks = (concat (frames_of c <$> cmds), (c, [])).
Proof.
  intros Hst Hmax Hcmds Hne He. destruct chunks as [|a l]; [done|]. rewrite feed_frames. cbn [concat app] in *.
  pose proof (frames_wires c cmds [] Hst Hcmds Hmax) as Hw. assert (frames c [] = ([], (c, []))) as Hnil.
  { rewrite frames_eq. unfold step. by rewrite Hst. }
  rewrite Hnil, !app_nil_r in Hw. by rewrite He.
Qed.
Lemma wire_round_trip_witness :
  feed (emit_put_started (ServerCodec_new 10)) []
    [bs "put 1 2 3 4"; crlf ++ bs "ab"; crlf; crlf ++ bs "use x"; crlf] =
  ([Frame.PutStarted false; Frame.Command (Command.Put 1 2 3 (bs "ab" ++ crlf)); Frame.Command (Command.Use "x")],
   (emit_put_started (ServerCodec_new 10), [])).
Proof.
  apply (wire_round_trip (emit_put_started (ServerCodec_new 10)) [Command.Put 1 2 3 (bs "ab" ++ crlf); Command.Use "x"]).
  - reflexivity.
  - by vm_compute.
  - repeat constructor.
  - discriminate.
  - vm_compute. reflexivity.
Defined.

(** Whatever bytes arrive, every command the decoder hands on has numbers
    and names that fit their types, and a put body within the job size. *)
Theorem decoder_typed max src :
  Forall (λ f, frame_ok max f = true) (frames (ServerCodec_new max) src).1 ∧
  Forall (λ f, match f with Frame.Command cmd => typed cmd = true | _ => True end) (frames (ServerCodec_new max) src).1.
Proof.
  pose proof (frames_typed (ServerCodec_new max) src eq_refl) as H. split; [exact H|].
  eapply Forall_impl; [exact H|]. intros [cmd| | | |] Hf; try done. apply command_ok_typed.
  cbn [frame_ok] in Hf. by apply andb_true_iff in Hf as [? _].
Qed.

(** With [emit_put_started], every put line that is accepted is announced
    once and then completed by exactly one frame of the announced kind before
    any other frame; no put completes unannounced. *)
Theorem put_started_paired max src :
  paired None (frames (emit_put_started (ServerCodec_new max)) src).1 = true.
Proof. by apply (frames_paired (emit_put_started (ServerCodec_new max))). Qed.

(** Turns of the decoder's loop. *)
Inductive turns : nat → ServerCodec → Bytes → option Frame → ServerCodec → Bytes → Prop :=
  | turns_last c src o c' src' : step c src = Return o c' src' → turns 1 c src o c' src'
  | turns_more n c src c1 src1 o c' src' :
      step c src = Continue c1 src1 → turns n c1 src1 o c' src' → turns (S n) c src o c' src'.

(** The decoder's loop ends on every input, after at most one turn per
    byte and one more, with the frame and the state [decode] returns. *)
Theorem decode_terminates c src :
  ∃ n, n ≤ S (length src) ∧ let '(o, c', src') := decode c src in turns n c src o c' src'.
Proof.
  remember (length src) as k eqn:Ek. revert c src Ek. induction (lt_wf k) as [k _ IH]; intros c src ->.
  rewrite decode_eq. pose proof (step_less c src) as Hl. destruct (step c src) as [c1 src1|o c1 src1] eqn:E.
  - destruct (IH (length src1) ltac:(lia) c1 src1 eq_refl) as (n & Hn & Ht). exists (S n). split; [lia|].
    destruct (decode c1 src1) as [[o c'] src']. by eapply turns_more.
  - exists 1. split; [lia|]. by apply turns_last.
Qed.

(** ** Replies *)
(** C38. A stream of replies has one meaning: two streams of replies with the
    same bytes are the same replies, whatever bytes the bodies hold. *)
Theorem replies_unambiguous rs rs' :
  Forall (λ r, reply_ok r = true) rs → Forall (λ r, reply_ok r = true) rs' →
  concat (encode <$> rs) = concat (encode <$> rs') → rs = rs'.
Proof.
  intros H H' He. pose proof (read_stream rs (length rs + length rs') H ltac:(lia)) as E.
  rewrite He, (read_stream rs') in E by (done || lia). congruence.
Qed.
Lemma replies_unambiguous_witness :
  [Response.Reserved 1 (bs "x"); Response.Buried] = [Response.Reserved 1 (bs "x"); Response.Buried].
Proof. apply replies_unambiguous; [repeat constructor|repeat constructor|reflexivity]. Defined.

(** A vertical tab is whitespace to C's [isspace], not to
    [u8::is_ascii_whitespace]: a kick count behind one is refused. *)
Lemma kick_vertical_tab : parse_kick_count ["011"%char; "5"%char] = None ∧ parse_kick_count ["009"%char; "5"%char] = Some 5%N.
Proof. split; reflexivity. Qed.
