(* ===== verification/Facts.v ===== *)
(** * Process facts

    The facts of the process ([SysInfo]: its id, its host, its start) are read
    by [stats] alone, for its reply.  [apply_input_factless]: the state of an
    engine does not depend on them, nor on the replies that wait to be
    delivered.  Nodes of a cluster have different ones. *)

From S2P Require Import Prelude Ms Proto Stats Model Engine Frames Inv InvFrame InvRefresh Queues Moves Tubes Waiting Rest Dispatch Serve.
From stdpp Require Import options.

(** ** Routines that do not read the process facts *)
Definition Factless (op : Engine → Engine) : Prop :=
  ∀ v e, op (e <| e_sys := v |>) = (op e) <| e_sys := v |>.
#[local] Ltac factless := intros v e; eng; repeat (case_match; eng); reflexivity.

Lemma Factless_keeps op e : Factless op → e_sys (op e) = e_sys e.
Proof.
  intros Hop. pose proof (Hop (e_sys e) e) as E.
  replace (e <| e_sys := e_sys e |>) with e in E by (by destruct e). by rewrite E.
Qed.
Lemma Factless_comp f g : Factless f → Factless g → Factless (λ e, f (g e)).
Proof. intros Hf Hg v e. by rewrite Hg, Hf. Qed.
Lemma Factless_fold {A} (f : Engine → A → Engine) l : (∀ a, Factless (λ e, f e a)) → Factless (λ e, foldl f e l).
Proof.
  intros Hf v. induction l as [|a l IH]; intros e; [done|]. cbn [foldl]. rewrite <-IH. f_equal. apply (Hf a).
Qed.
Lemma facts_upd_tube tid f : Factless (upd_tube tid f).
Proof. done. Qed.
Lemma facts_upd_conn cid f : Factless (upd_conn cid f).
Proof. done. Qed.
Lemma facts_upd_job id f : Factless (upd_job id f).
Proof. done. Qed.
Lemma facts_refresh_disp tid : Factless (refresh_dispatchable tid).
Proof. unfold refresh_dispatchable, tube. factless. Qed.
Lemma facts_refresh_delay tid : Factless (refresh_delay_head tid).
Proof. unfold refresh_delay_head, tube. factless. Qed.
Lemma facts_refresh_tick tid : Factless (refresh_conn_tick tid).
Proof. unfold refresh_conn_tick. factless. Qed.
Lemma facts_gc tid : Factless (gc_tube_if_orphan tid).
Proof.
  intros v e. unfold gc_tube_if_orphan, tube. eng. destruct (tid =? DEFAULT_TUBE); [done|].
  destruct (slot (e_tubes e) tid) as [t|]; [|done]. destruct (refs t =? 0)%N; [|done].
  destruct (0 <? t_pause t)%N, (t_delay_head t), (t_dispatchable t);
    eng; destruct (ms_remove_at (t_pos t) (e_tube_order e)) as [[x m]|]; eng; by destruct (ms_items _ !! _).
Qed.
Lemma facts_insert_ready tid id : Factless (insert_ready tid id).
Proof.
  intros v e. unfold insert_ready. eng. destruct (e_jobs e !! id) as [j|]; [|done].
  destruct (is_urgent (j_pri j)); by rewrite <-facts_refresh_disp.
Qed.
Lemma facts_remove_ready tid id : Factless (remove_ready tid id).
Proof. intros v e. unfold remove_ready. rewrite <-facts_refresh_disp. eng. by case_match. Qed.
Lemma facts_insert_delayed tid id d : Factless (insert_delayed tid id d).
Proof.
  intros v e. unfold insert_delayed, tube. rewrite <-facts_refresh_delay. eng.
  destruct (slot (e_tubes e) tid); [|done]. by case_match.
Qed.
Lemma facts_remove_delayed tid id : Factless (remove_delayed tid id).
Proof.
  intros v e. unfold remove_delayed, tube. rewrite <-facts_refresh_delay. eng.
  destruct (slot (e_tubes e) tid); [|done]. by case_match.
Qed.
Lemma facts_insert_buried tid id : Factless (insert_buried tid id).
Proof. done. Qed.
Lemma facts_remove_buried tid id : Factless (λ e, (remove_buried tid id e).2).
Proof. unfold remove_buried, tube. factless. Qed.
Lemma facts_do_reserve cid id now : Factless (do_reserve cid id now).
Proof.
  intros v e. unfold do_reserve. eng. destruct (e_jobs e !! id) as [j|]; [|done]. by rewrite <-facts_refresh_tick.
Qed.
Lemma facts_do_unreserve cid id : Factless (do_unreserve cid id).
Proof.
  intros v e. unfold do_unreserve. eng. destruct (e_jobs e !! id) as [j|]; by rewrite <-facts_refresh_tick.
Qed.
Lemma facts_enqueue_waiting cid wd : Factless (enqueue_waiting_conn cid wd).
Proof.
  intros v e. unfold enqueue_waiting_conn. eng. destruct (e_conns e !! cid) as [c|]; [|done].
  rewrite <-facts_refresh_tick. f_equal. refine (Factless_fold (wait_step cid) _ _ v (upd_ct waiting_ct incr64 (upd_conn cid _ e))). intros t.
  apply (Factless_comp (refresh_dispatchable t)); [apply facts_refresh_disp|apply facts_upd_tube].
Qed.
Lemma facts_remove_waiting cid : Factless (do_remove_waiting_conn cid).
Proof.
  intros v e. unfold do_remove_waiting_conn. eng. destruct (e_conns e !! cid) as [c|]; [|done].
  destruct (c_waiting c); [|done]. rewrite <-facts_refresh_tick. f_equal. refine (Factless_fold (unwait_step cid) _ _ v (upd_ct waiting_ct decr (upd_conn cid _ e))).
  intros t. apply (Factless_comp (refresh_dispatchable t)); [apply facts_refresh_disp|apply facts_upd_tube].
Qed.
Lemma facts_clear_pauses fuel now : Factless (clear_pauses_loop fuel now).
Proof.
  intros v. induction fuel as [|fuel IH]; intros e; [done|]. cbn [clear_pauses_loop]. eng.
  destruct (bt_first (e_pauses e)) as [[a i]|]; [|done]. destruct (now <? a)%N; [done|]. by rewrite <-IH.
Qed.
Lemma facts_worker cid : Factless (connsetworker cid).
Proof. unfold connsetworker. factless. Qed.
Lemma facts_producer cid : Factless (connsetproducer cid).
Proof. unfold connsetproducer. factless. Qed.
Lemma facts_journal_put id : Factless (journal_put id).
Proof. unfold journal_put. factless. Qed.
Lemma facts_journal_update id : Factless (journal_update id).
Proof. unfold journal_update. factless. Qed.
Lemma facts_journal_delete id : Factless (journal_delete id).
Proof. unfold journal_delete. factless. Qed.

Lemma facts_upd_ct p `{!Setter p} f : Factless (upd_ct p f).
Proof. done. Qed.
Lemma facts_upd_cc p `{!Setter p} f : Factless (upd_cc p f).
Proof. done. Qed.
Lemma facts_bump p `{!Setter p} : Factless (bump_cmd p).
Proof. done. Qed.
Lemma facts_jobs f : Factless (set_field e_jobs f).
Proof. done. Qed.
Lemma facts_conns f : Factless (set_field e_conns f).
Proof. done. Qed.
Lemma facts_ticks f : Factless (set_field e_conn_ticks f).
Proof. done. Qed.
Lemma facts_pauses f : Factless (set_field e_pauses f).
Proof. done. Qed.
Lemma facts_next f : Factless (set_field e_next_job_id f).
Proof. done. Qed.
(** ** What the routines read *)
Section reads.
Context (v : SysSnapshot) (e : Engine).
Lemma fct_jobs : e_jobs (e <| e_sys := v |>) = e_jobs e.
Proof. done. Qed.
Lemma fct_tubes : e_tubes (e <| e_sys := v |>) = e_tubes e.
Proof. done. Qed.
Lemma fct_conns : e_conns (e <| e_sys := v |>) = e_conns e.
Proof. done. Qed.
Lemma fct_pauses : e_pauses (e <| e_sys := v |>) = e_pauses e.
Proof. done. Qed.
Lemma fct_tube_ids : e_tube_ids (e <| e_sys := v |>) = e_tube_ids e.
Proof. done. Qed.
Lemma fct_draining : e_draining (e <| e_sys := v |>) = e_draining e.
Proof. done. Qed.
Lemma fct_next_job_id : e_next_job_id (e <| e_sys := v |>) = e_next_job_id e.
Proof. done. Qed.
Lemma fct_cfg : e_cfg (e <| e_sys := v |>) = e_cfg e.
Proof. done. Qed.
Lemma fct_binlog : e_binlog (e <| e_sys := v |>) = e_binlog e.
Proof. done. Qed.
Lemma fct_delay_heads : e_delay_heads (e <| e_sys := v |>) = e_delay_heads e.
Proof. done. Qed.
Lemma fct_conn_ticks : e_conn_ticks (e <| e_sys := v |>) = e_conn_ticks e.
Proof. done. Qed.
Lemma fct_tube_order : e_tube_order (e <| e_sys := v |>) = e_tube_order e.
Proof. done. Qed.
End reads.
Create Rewrite HintDb facts.
#[export] Hint Rewrite fct_jobs fct_tubes fct_conns fct_pauses fct_tube_ids fct_draining fct_next_job_id fct_cfg fct_binlog fct_delay_heads fct_conn_ticks fct_tube_order : facts.
#[local] Ltac reads := unfold tube; autorewrite with facts.


(** ** Steps with replies *)
Definition Blind (op : St → St) : Prop :=
  ∀ v s s', s'.1 = s.1 <| e_sys := v |> → (op s').1 = (op s).1 <| e_sys := v |>.
Lemma blind_id : Blind (λ s, s).
Proof. by intros v s s'. Qed.
Lemma blind_comp f g : Blind f → Blind g → Blind (λ s, f (g s)).
Proof. intros Hf Hg v s s' E. by apply Hf, Hg. Qed.
Lemma blind_pure f : Factless f → Blind (λ s, (f s.1, s.2)).
Proof. intros Hf v s s' E. cbn [fst]. by rewrite E, Hf. Qed.
Lemma blind_loop {A} (f : St → A → St) l : (∀ a, Blind (λ s, f s a)) → Blind (λ s, foldl f s l).
Proof. intros Hf. induction l as [|a l IH]; [apply blind_id|]. cbn [foldl]. exact (blind_comp _ _ IH (Hf a)). Qed.
Lemma blind_at op v e out out' : Blind op → (op (e <| e_sys := v |>, out')).1 = (op (e, out)).1 <| e_sys := v |>.
Proof. intros Hop. by apply Hop. Qed.
#[local] Ltac blind := intros v [e out] [e' out'] E; cbn [fst snd] in E; subst e'; reads.

Lemma blind_dispatch now id tid : Blind (dispatch now id tid).
Proof.
  unfold dispatch. blind. rewrite facts_remove_ready. reads. destruct (slot (e_tubes (remove_ready tid id e)) tid) as [t|].
  - destruct (ms_take (t_waiting_conns t)).1 as [cid|]; rewrite ?facts_remove_ready, facts_upd_tube, facts_refresh_disp, ?facts_remove_waiting, ?facts_do_reserve; by rewrite ?reply_with_fst.
  - by rewrite ?facts_remove_ready, facts_refresh_disp.
Qed.
Lemma blind_process_loop fuel now : Blind (process_queue_loop fuel now).
Proof.
  induction fuel as [|fuel IH]; [apply blind_id|]. intros v s s' E. cbn [process_queue_loop].
  assert (best_ready s'.1 = best_ready s.1) as -> by (by rewrite E).
  destruct (best_ready s.1) as [[[p id] tid]|]; [|done]. by apply (blind_comp _ _ IH (blind_dispatch now id tid)).
Qed.
Lemma blind_process_queue now : Blind (process_queue now).
Proof.
  unfold process_queue, clear_expired_pauses. blind. rewrite facts_clear_pauses. reads. by apply blind_process_loop.
Qed.
Lemma blind_expire_loop fuel cid now : Blind (expire_loop fuel cid now).
Proof.
  induction fuel as [|fuel IH]; [apply blind_id|]. intros v [e out] [e' out'] E. cbn [fst] in E. subst e'. cbn [expire_loop]. reads.
  destruct (e_conns e !! cid ≫= soonest_reserved) as [[d id]|]; [|done]. destruct (now <=? d)%N; [done|].
  destruct (j_tube <$> e_jobs e !! id) as [tid|]; rewrite facts_do_unreserve, facts_upd_ct, facts_upd_job, ?facts_insert_ready;
    by apply (blind_comp _ _ IH (blind_process_queue now)).
Qed.
Lemma blind_conn_timeout cid now : Blind (conn_timeout cid now).
Proof.
  intros v s s' E. unfold conn_timeout. assert (reserved_size s'.1 cid = reserved_size s.1 cid) as -> by (by rewrite E).
  pose proof (blind_expire_loop (S (reserved_size s.1 cid)) cid now v s s' E) as E1.
  destruct (expire_loop _ cid now s) as [e out], (expire_loop _ cid now s') as [e' out']. cbn [fst] in E1. subst e'.
  unfold conn_waiting, conn_deadline_soon. reads. repeat case_match; try done; by rewrite facts_remove_waiting, !reply_fst.
Qed.
Lemma blind_delayed_loop fuel now : Blind (delayed_loop fuel now).
Proof.
  induction fuel as [|fuel IH]; [apply blind_id|]. intros v [e out] [e' out'] E. cbn [fst] in E. subst e'. cbn [delayed_loop].
  change (soonest_delayed_job (e <| e_sys := v |>)) with (soonest_delayed_job e).
  destruct (soonest_delayed_job e) as [[[d tid] id]|]; [|done]. destruct (now <? d)%N; [done|].
  rewrite facts_remove_delayed, facts_insert_ready. by apply (blind_comp _ _ IH (blind_process_queue now)).
Qed.
Lemma blind_timeout_loop fuel now P : Blind (timeout_loop fuel now P).
Proof.
  revert P. induction fuel as [|fuel IH]; intros P; [apply blind_id|]. intros v s s' E. cbn [timeout_loop].
  assert (next_due_conn now P s'.1 = next_due_conn now P s.1) as -> by (by rewrite E).
  destruct (next_due_conn now P s.1) as [cid|]; [|done]. by apply (blind_comp _ _ (IH _) (blind_conn_timeout cid now)).
Qed.
Lemma blind_tick now : Blind (tick now).
Proof.
  intros v s s' E. unfold tick. assert (next_deadline s'.1 = next_deadline s.1) as -> by (by rewrite E).
  destruct (next_deadline s.1) as [d|]; [|done]. destruct (d <=? now)%N; [|done]. unfold tick_body.
  assert (total_delayed (e_tubes s'.1) = total_delayed (e_tubes s.1)) as -> by (by rewrite E).
  pose proof (blind_delayed_loop (S (total_delayed (e_tubes s.1))) now v s s' E) as E1.
  set (s1 := delayed_loop _ now s) in *. set (s1' := delayed_loop _ now s') in *.
  assert (e_pauses s1'.1 = e_pauses s1.1) as -> by (by rewrite E1).
  assert (∀ s2 s2', s2'.1 = s2.1 <| e_sys := v |> →
    (timeout_loop (S (size (e_conns s2'.1))) now ∅ s2').1 = (timeout_loop (S (size (e_conns s2.1))) now ∅ s2).1 <| e_sys := v |>) as Hlast.
  { intros s2 s2' E2. assert (e_conns s2'.1 = e_conns s2.1) as -> by (by rewrite E2). by apply blind_timeout_loop. }
  destruct (bt_first (e_pauses s1.1)) as [[at_ tid]|]; [destruct (at_ <=? now)%N|]; apply Hlast; try done. by apply blind_process_queue.
Qed.

(** ** Commands *)
(** Move the setter outward. *)
#[local] Ltac hoist := repeat match goal with
  | |- context [upd_conn ?i ?f (?e <| e_sys := ?v |>)] =>
      change (upd_conn i f (e <| e_sys := v |>)) with ((upd_conn i f e) <| e_sys := v |>)
  | |- context [upd_tube ?i ?f (?e <| e_sys := ?v |>)] =>
      change (upd_tube i f (e <| e_sys := v |>)) with ((upd_tube i f e) <| e_sys := v |>)
  | |- context [upd_job ?i ?f (?e <| e_sys := ?v |>)] =>
      change (upd_job i f (e <| e_sys := v |>)) with ((upd_job i f e) <| e_sys := v |>)
  | |- context [@upd_ct ?p ?S ?f (?e <| e_sys := ?v |>)] =>
      change (@upd_ct p S f (e <| e_sys := v |>)) with ((@upd_ct p S f e) <| e_sys := v |>)
  | |- context [@upd_cc ?p ?S ?f (?e <| e_sys := ?v |>)] =>
      change (@upd_cc p S f (e <| e_sys := v |>)) with ((@upd_cc p S f e) <| e_sys := v |>)
  | |- context [@bump_cmd ?p ?S (?e <| e_sys := ?v |>)] =>
      change (@bump_cmd p S (e <| e_sys := v |>)) with ((@bump_cmd p S e) <| e_sys := v |>)
  | |- context [(?e <| e_sys := ?v |>) <| e_jobs ::= ?f |>] =>
      change ((e <| e_sys := v |>) <| e_jobs ::= f |>) with ((e <| e_jobs ::= f |>) <| e_sys := v |>)
  | |- context [(?e <| e_sys := ?v |>) <| e_conns ::= ?f |>] =>
      change ((e <| e_sys := v |>) <| e_conns ::= f |>) with ((e <| e_conns ::= f |>) <| e_sys := v |>)
  | |- context [(?e <| e_sys := ?v |>) <| e_conn_ticks ::= ?f |>] =>
      change ((e <| e_sys := v |>) <| e_conn_ticks ::= f |>)
        with ((e <| e_conn_ticks ::= f |>) <| e_sys := v |>)
  | |- context [(?e <| e_sys := ?v |>) <| e_pauses ::= ?f |>] =>
      change ((e <| e_sys := v |>) <| e_pauses ::= f |>) with ((e <| e_pauses ::= f |>) <| e_sys := v |>)
  | |- context [(?e <| e_sys := ?v |>) <| e_next_job_id ::= ?f |>] =>
      change ((e <| e_sys := v |>) <| e_next_job_id ::= f |>)
        with ((e <| e_next_job_id ::= f |>) <| e_sys := v |>)
  end.

Lemma blind_reply cid r s s' v : s'.1 = s.1 <| e_sys := v |> → (reply cid r s').1 = (reply cid r s).1 <| e_sys := v |>.
Proof. by rewrite !reply_fst. Qed.
Lemma blind_reply_with cid f s s' v : s'.1 = s.1 <| e_sys := v |> → (reply_with cid f s').1 = (reply_with cid f s).1 <| e_sys := v |>.
Proof. by rewrite !reply_with_fst. Qed.
#[local] Ltac done_reply :=
  lazymatch goal with
  | |- (reply_with _ _ _).1 = _ => apply blind_reply_with
  | |- (reply _ _ _).1 = _ => apply blind_reply
  | |- _ => idtac
  end; cbn [fst]; reflexivity.

Lemma put_id_facts now cid v e :
  put_id now cid (e <| e_sys := v |>) = let '(id, created, e') := put_id now cid e in (id, created, e' <| e_sys := v |>).
Proof.
  unfold put_id. reads. hoist. destruct (e_conns e !! cid ≫= c_pending_put) as [[[id|] created]|]; [done|..]; rewrite facts_producer; by hoist.
Qed.
Lemma blind_cmd_put now cid pri delay ttr body : Blind (cmd_put now cid pri delay ttr body).
Proof.
  unfold cmd_put. blind. rewrite put_id_facts. destruct (put_id now cid e) as [[id created] e1]. reads.
  destruct (e_draining e1); [done_reply|]. change (use_tube_of (e1 <| e_sys := v |>) cid) with (use_tube_of e1 cid).
  hoist. set (e2 := upd_tube _ _ _). clearbody e2.
  destruct (0 <? delay)%N; rewrite ?facts_insert_delayed, ?facts_insert_ready, facts_journal_put; set (e3 := journal_put id _); clearbody e3;
    pose proof (blind_at (process_queue now) v e3 out out' (blind_process_queue now)) as E;
    destruct (process_queue now (e3, out)) as [e4 out4], (process_queue now (_, out')) as [e4' out4']; cbn [fst] in E; subst e4'; hoist; done_reply.
Qed.
Lemma blind_cmd_reserve now cid timeout : Blind (cmd_reserve now cid timeout).
Proof.
  unfold cmd_reserve. blind. set (e0 := match timeout with None => bump_cmd n_cmd_reserve e | Some _ => _ end).
  replace (match timeout with None => bump_cmd n_cmd_reserve (e <| e_sys := v |>) | Some _ => _ end)
    with (e0 <| e_sys := v |>) by (unfold e0; by destruct timeout).
  rewrite facts_worker. set (e1 := connsetworker cid e0).
  change (conn_deadline_soon (e1 <| e_sys := v |>) cid now) with (conn_deadline_soon e1 cid now).
  change (conn_ready (e1 <| e_sys := v |>) cid) with (conn_ready e1 cid).
  destruct (conn_deadline_soon e1 cid now && negb (conn_ready e1 cid)); [done_reply|]. rewrite facts_enqueue_waiting.
  set (e2 := enqueue_waiting_conn _ _ e1). pose proof (blind_at (process_queue now) v e2 out out' (blind_process_queue now)) as E.
  destruct (process_queue now (e2, out)) as [e3 out3], (process_queue now (_, out')) as [e3' out3']. cbn [fst] in E. subst e3'.
  change (conn_waiting (e3 <| e_sys := v |>) cid) with (conn_waiting e3 cid).
  destruct (bool_decide (timeout = Some 0%N) && conn_waiting e3 cid); [|done]. rewrite facts_remove_waiting. done_reply.
Qed.
Lemma find_or_make_facts name v e :
  find_or_make_tube name (e <| e_sys := v |>) = let '(tid, e') := find_or_make_tube name e in (tid, e' <| e_sys := v |>).
Proof.
  unfold find_or_make_tube. eng. destruct (e_tube_ids e !! name); [done|]. by destruct (pop (e_free_tube_ids e)) as [[id free]|].
Qed.
Lemma blind_cmd_use cid name : Blind (cmd_use cid name).
Proof.
  unfold cmd_use. blind. hoist. rewrite find_or_make_facts. destruct (find_or_make_tube name (bump_cmd n_cmd_use e)) as [new e1].
  change (use_tube_of (e1 <| e_sys := v |>) cid) with (use_tube_of e1 cid).
  destruct (use_tube_of e1 cid =? new); [done_reply|]. hoist. rewrite facts_gc. hoist. done_reply.
Qed.
Lemma blind_cmd_watch cid name : Blind (cmd_watch cid name).
Proof.
  unfold cmd_watch. blind. hoist. rewrite find_or_make_facts. destruct (find_or_make_tube name (bump_cmd n_cmd_watch e)) as [tid e1]. reads. hoist.
  destruct (match e_conns e1 !! cid with Some c => ms_contains tid (c_watch c) | None => true end); done_reply.
Qed.
Lemma blind_cmd_ignore cid name : Blind (cmd_ignore cid name).
Proof.
  unfold cmd_ignore. blind. hoist. set (e1 := bump_cmd n_cmd_ignore e). clearbody e1. reads.
  change (watch_count (e1 <| e_sys := v |>) cid) with (watch_count e1 cid).
  destruct (e_tube_ids e1 !! name) as [tid|]; [destruct (e_conns e1 !! cid) as [c|]|]; cbn [andb]; try done_reply.
  destruct (ms_contains tid (c_watch c)); cbn [andb]; [|done_reply]. destruct (watch_count e1 cid <? 2)%N; [done_reply|].
  hoist. rewrite facts_gc. done_reply.
Qed.
Lemma blind_cmd_reserve_job now cid id : Blind (cmd_reserve_job now cid id).
Proof.
  unfold cmd_reserve_job. blind. destruct (e_jobs e !! id) as [j|]; [|done_reply].
  destruct (j_state j); [|done_reply|..];
    rewrite ?facts_remove_ready, ?facts_remove_delayed, ?(facts_remove_buried (j_tube j) id v e), facts_worker, facts_do_reserve; done_reply.
Qed.
Lemma blind_cmd_delete cid id : Blind (cmd_delete cid id).
Proof.
  unfold cmd_delete. blind. hoist. set (e1 := bump_cmd n_cmd_delete e). clearbody e1. reads.
  destruct (e_jobs e1 !! id) as [j|]; [|done_reply].
  destruct (j_state j); [|destruct (bool_decide _); [|done_reply]|..];
    rewrite ?facts_remove_ready, ?facts_remove_delayed, ?facts_do_unreserve,
      ?(facts_remove_buried (j_tube j) id v e1); hoist; rewrite facts_journal_delete, facts_gc; done_reply.
Qed.
Lemma blind_cmd_release now cid id pri delay : Blind (cmd_release now cid id pri delay).
Proof.
  unfold cmd_release. blind. hoist. set (e1 := bump_cmd n_cmd_release e). clearbody e1.
  change (reserved_by (e1 <| e_sys := v |>) cid id) with (reserved_by e1 cid id).
  destruct (reserved_by e1 cid id) as [tid|]; [|done_reply]. rewrite facts_do_unreserve. hoist.
  destruct (0 <? delay)%N; rewrite ?facts_insert_delayed, ?facts_journal_update, ?facts_insert_ready; apply blind_reply; by apply blind_process_queue.
Qed.
Lemma blind_cmd_bury cid id pri : Blind (cmd_bury cid id pri).
Proof.
  unfold cmd_bury. blind. hoist. set (e1 := bump_cmd n_cmd_bury e). clearbody e1.
  change (reserved_by (e1 <| e_sys := v |>) cid id) with (reserved_by e1 cid id).
  destruct (reserved_by e1 cid id) as [tid|]; [|done_reply]. rewrite facts_do_unreserve. hoist.
  rewrite facts_insert_buried, facts_journal_update. done_reply.
Qed.
Lemma blind_cmd_touch now cid id : Blind (cmd_touch now cid id).
Proof.
  unfold cmd_touch. blind. hoist. set (e1 := bump_cmd n_cmd_touch e). clearbody e1.
  change (reserved_by (e1 <| e_sys := v |>) cid id) with (reserved_by e1 cid id).
  destruct (reserved_by e1 cid id) as [tid|]; [|done_reply]. reads. hoist. rewrite facts_refresh_tick. done_reply.
Qed.
Lemma blind_kick_to_ready tid id now : Blind (kick_to_ready tid id now).
Proof. unfold kick_to_ready. blind. hoist. rewrite facts_insert_ready, facts_journal_update. by apply blind_process_queue. Qed.
Lemma pop_buried_facts tid v e :
  pop_buried_front tid (e <| e_sys := v |>) = let '(o, e') := pop_buried_front tid e in (o, e' <| e_sys := v |>).
Proof.
  unfold pop_buried_front. reads. destruct (slot (e_tubes e) tid) as [t|]; [|done]. by destruct (bm_first (t_buried t)) as [[seq id]|].
Qed.
(** The loops of [kick] return a count too. *)
Definition BlindCount (op : St → N * St) : Prop :=
  ∀ v s s', s'.1 = s.1 <| e_sys := v |> → (op s').1 = (op s).1 ∧ (op s').2.1 = (op s).2.1 <| e_sys := v |>.
Lemma blind_kick_buried n tid now k : BlindCount (kick_buried_loop n tid now k).
Proof.
  revert k. induction n as [|n IH]; intros k v [e out] [e' out'] E; cbn [fst] in E; subst e'; [done|]. cbn [kick_buried_loop].
  rewrite pop_buried_facts. destruct (pop_buried_front tid e) as [[id|] e1]; [|done]. apply IH. by apply blind_kick_to_ready.
Qed.
Lemma blind_kick_delayed n tid now k : BlindCount (kick_delayed_loop n tid now k).
Proof.
  revert k. induction n as [|n IH]; intros k v [e out] [e' out'] E; cbn [fst] in E; subst e'; [done|]. cbn [kick_delayed_loop].
  reads. destruct (slot (e_tubes e) tid ≫= _) as [[d id]|]; [|done]. rewrite facts_remove_delayed. apply IH. by apply blind_kick_to_ready.
Qed.
Lemma blind_cmd_kick now cid n : Blind (cmd_kick now cid n).
Proof.
  unfold cmd_kick. blind. hoist. set (e1 := bump_cmd n_cmd_kick e). clearbody e1.
  change (use_tube_of (e1 <| e_sys := v |>) cid) with (use_tube_of e1 cid). reads.
  set (has := match slot (e_tubes e1) (use_tube_of e1 cid) with Some t => _ | None => _ end).
  assert (∀ op, BlindCount op →
    (let '(count, s) := op (e1 <| e_sys := v |>, out') in reply cid (Response.Kicked count) s).1 =
    (let '(count, s) := op (e1, out) in reply cid (Response.Kicked count) s).1 <| e_sys := v |>) as Hop.
  { intros op Hop. destruct (Hop v (e1, out) (e1 <| e_sys := v |>, out') eq_refl) as [_ E].
    destruct (op (e1 <| e_sys := v |>, out')) as [k1 s1], (op (e1, out)) as [k2 s2]. by rewrite !reply_fst. }
  destruct has; [apply Hop, blind_kick_buried|apply Hop, blind_kick_delayed].
Qed.
Lemma blind_cmd_kick_job now cid id : Blind (cmd_kick_job now cid id).
Proof.
  unfold cmd_kick_job. blind. destruct (e_jobs e !! id) as [j|]; [|done_reply].
  destruct (j_state j); [done_reply|done_reply|..];
    rewrite ?facts_remove_delayed, ?(facts_remove_buried (j_tube j) id v e); apply blind_reply; by apply blind_kick_to_ready.
Qed.
Lemma blind_cmd_pause_tube now cid name delay : Blind (cmd_pause_tube now cid name delay).
Proof.
  unfold cmd_pause_tube. blind. hoist. set (e1 := bump_cmd n_cmd_pause_tube e). clearbody e1. reads.
  destruct (e_tube_ids e1 !! name) as [tid|]; [|done_reply]. reads. destruct (slot (e_tubes e1) tid) as [t|]; [|done_reply].
  destruct (0 <? t_pause t)%N; hoist; done_reply.
Qed.
Lemma blind_handle now cid cmd : Blind (handle now cid cmd).
Proof.
  intros v s s' E. unfold handle. assert (e_conns s'.1 = e_conns s.1) as -> by (by rewrite E).
  destruct (e_conns s.1 !! cid) as [c|]; [|done].
  destruct cmd; try (by apply blind_cmd_put || by apply blind_cmd_use || by apply blind_cmd_reserve ||
    by apply blind_cmd_reserve_job || by apply blind_cmd_delete || by apply blind_cmd_release || by apply blind_cmd_bury ||
    by apply blind_cmd_touch || by apply blind_cmd_watch || by apply blind_cmd_ignore || by apply blind_cmd_kick ||
    by apply blind_cmd_kick_job || by apply blind_cmd_pause_tube || done).
  all: revert v s s' E; unfold cmd_peek, cmd_peek_ready, cmd_peek_delayed, cmd_peek_buried, cmd_stats_job, cmd_stats_tube,
    cmd_stats, cmd_list_tubes, cmd_list_tube_used, cmd_list_tubes_watched; blind; hoist; done_reply.
Qed.

(** ** Inputs *)
Lemma blind_release_step cid now id : Blind (λ s, release_step cid now s id).
Proof.
  unfold release_step. blind. rewrite facts_do_unreserve. reads.
  destruct (e_jobs (do_unreserve cid id e) !! id) as [j|]; rewrite ?facts_insert_ready; by apply blind_process_queue.
Qed.
Lemma facts_unwatch_step t : Factless (λ e, unwatch_step e t).
Proof. intros v e. unfold unwatch_step. hoist. apply facts_gc. Qed.
Lemma blind_disconnect now cid : Blind (disconnect now cid).
Proof.
  unfold disconnect. blind. destruct (e_conns e !! cid) as [c0|]; [|done]. rewrite facts_remove_waiting. reads.
  set (e1 := do_remove_waiting_conn cid e). clearbody e1.
  set (L := match e_conns e1 !! cid with Some c => bm_values (c_reserved c) | None => [] end).
  pose proof (blind_at (λ s, foldl (release_step cid now) s L) v e1 out out' (blind_loop _ L (blind_release_step cid now))) as E.
  destruct (foldl (release_step cid now) (e1, out) L) as [e2 out2], (foldl (release_step cid now) (_, out') L) as [e2' out2'].
  cbn [fst] in E. subst e2'. reads. hoist.
  set (W := match e_conns e2 !! cid with Some c => _ | None => _ end). set (e3 := upd_conn cid _ e2). clearbody e3.
  rewrite (Factless_fold unwatch_step W facts_unwatch_step v e3). set (e4 := foldl unwatch_step e3 W) in *. clearbody e4. reads. hoist.
  set (e5 := match e_conns e4 !! cid with Some c => gc_tube_if_orphan _ (upd_tube _ _ e4) | None => e4 end).
  assert (match e_conns e4 !! cid with
          | Some c => gc_tube_if_orphan (c_use_tube c)
              (upd_tube (c_use_tube c) (λ t, t <| t_using_ct ::= decr |>) (e4 <| e_sys := v |>))
          | None => e4 <| e_sys := v |> end = e5 <| e_sys := v |>) as ->.
  { unfold e5. destruct (e_conns e4 !! cid); [hoist; apply facts_gc|done]. }
  clearbody e5. reads. destruct (e_conns e5 !! cid) as [c|]; [|done]. by destruct (c_tick_key c), (c_is_producer c), (c_is_worker c).
Qed.
Lemma blind_half_close cid : Blind (half_close cid).
Proof.
  unfold half_close. blind. change (conn_waiting (e <| e_sys := v |>) cid) with (conn_waiting e cid).
  destruct (conn_waiting e cid); [rewrite facts_remove_waiting|]; done_reply.
Qed.
Lemma facts_put_started now cid too_big : Factless (put_started now cid too_big).
Proof.
  intros v e. unfold put_started. reads. destruct (e_conns e !! cid); [|done]. hoist. destruct too_big; [done|]. by rewrite facts_producer.
Qed.
Lemma blind_put_rejected cid why : Blind (put_rejected cid why).
Proof.
  unfold put_rejected. blind. destruct (e_conns e !! cid) as [c|]; [|done]. hoist.
  destruct (c_pending_put c); [done_reply|]. destruct why; rewrite ?facts_producer; hoist; done_reply.
Qed.
Lemma facts_connect cid : Factless (connect cid).
Proof. intros v e. unfold connect. eng. by destruct (e_conns e !! cid ≫= c_tick_key). Qed.
Lemma blind_run_input now i : Blind (run_input now i).
Proof.
  destruct i as [c|c|c|c too_big|c why|c cmd| |on]; cbn [run_input].
  - exact (blind_pure _ (facts_connect c)).
  - apply blind_disconnect.
  - apply blind_half_close.
  - exact (blind_pure _ (facts_put_started now c too_big)).
  - apply blind_put_rejected.
  - apply blind_handle.
  - apply blind_id.
  - by apply blind_pure.
Qed.
Lemma apply_input_factless now i : Blind (apply_input now i).
Proof. exact (blind_comp _ _ (blind_tick now) (blind_run_input now i)). Qed.
