(* ===== verification/Cluster.v ===== *)
(** * The replicated state machine

    Every engine input of a cluster is an entry of the Raft log, which the
    nodes apply in order to their own engines ([raft/lib.rs],
    [raft/storage/state_machine.rs]).  [Core] is what a node keeps: the engine,
    the numbers that tell a new input from one that was sent again ([SmMeta]),
    the last applied entry and the membership.  [apply] is the handler of
    committed entries, [build_snapshot] and [install_snapshot] move a state from
    one node to another, [check_forward] and [check_control] are what the
    listener accepts ([raft/forward.rs]), and [split_batches] and [next_batch]
    group inputs into entries ([server/cluster/proposer.rs]).

    The log itself is the openraft library: an entry has an id with an index,
    and a membership has node ids. *)

From S2P Require Import Prelude Ms Proto Stats Parse Model Engine Validate Snapshot.
From stdpp Require Import options.

(** ** Ids *)
Abbreviation NodeId := N (only parsing).
Definition MAX_NODE_ID : NodeId := 2 ^ 16 - 1.
Definition CONN_SEQ_BITS : N := 48.
Definition conn_id (node : NodeId) (local : N) : ConnId := N.lor (wrap64 (N.shiftl node CONN_SEQ_BITS)) local.
Definition owner_of (conn : ConnId) : NodeId := N.shiftr conn CONN_SEQ_BITS.
Definition local_of (conn : ConnId) : N := N.land conn (N.shiftl 1 CONN_SEQ_BITS - 1).

(** ** Requests *)
Module RaftOp.
Inductive RaftOp :=
  | Conn (seq : N) (input : EngineInput)
  | Tick
  | SetDraining (on : bool)
  | DropNode (node : NodeId) (up_to_local : N)
  | Batch (items : list (N * EngineInput)).
End RaftOp.
Abbreviation RaftOp := RaftOp.RaftOp (only parsing).
Record Request := mkRequest { rq_now : Nanos; rq_op : RaftOp }.

Definition MAX_PROPOSAL_ITEMS : nat := 1024.
Definition MAX_PROPOSAL_BYTES : N := N.shiftl 1 20.
Definition proposal_item_size (input : EngineInput) : N :=
  64 + match input with EngineInput.Command _ (Command.Put _ _ _ body) => N.of_nat (length body) | _ => 0 end.
(** The loop, with the batches that are complete, the current one and its
    size. *)
Fixpoint split_loop (items : list (N * EngineInput)) (out : list (list (N * EngineInput))) (cur : list (N * EngineInput)) (bytes : N) :
    list (list (N * EngineInput)) :=
  match items with
  | [] => if bool_decide (cur = []) then out else out ++ [cur]
  | (seq, input) :: items =>
      let size := proposal_item_size input in
      if negb (bool_decide (cur = [])) && ((MAX_PROPOSAL_ITEMS <=? length cur)%nat || (MAX_PROPOSAL_BYTES <? bytes + size)%N) then
        split_loop items (out ++ [cur]) [(seq, input)] size
      else split_loop items out (cur ++ [(seq, input)]) (bytes + size)
  end.
Definition split_batches (items : list (N * EngineInput)) : list (list (N * EngineInput)) := split_loop items [] [] 0.
(** [Queue::next_batch] of the proposer: the batch and what stays queued. *)
Fixpoint take_batch (items out : list (N * EngineInput)) (bytes : N) : list (N * EngineInput) * list (N * EngineInput) :=
  match items with
  | [] => (out, [])
  | (seq, input) :: rest =>
      let size := proposal_item_size input in
      if negb (bool_decide (out = [])) && ((MAX_PROPOSAL_ITEMS <=? length out)%nat || (MAX_PROPOSAL_BYTES <? bytes + size)%N) then (out, items)
      else take_batch rest (out ++ [(seq, input)]) (bytes + size)
  end.
Definition next_batch (items : list (N * EngineInput)) : list (N * EngineInput) * list (N * EngineInput) := take_batch items [] 0.

(** ** What the listener accepts *)
Record ForwardRequest := mkForwardRequest { fw_from : NodeId; fw_items : list (ConnId * N * EngineInput) }.
Record ControlRequest := mkControlRequest { ctl_from : NodeId; ctl_op : RaftOp }.
Definition check_forward (peer : NodeId) (req : ForwardRequest) : bool :=
  (fw_from req =? peer)%N &&
  forallb (λ '(conn, _, _), owner_of conn =? peer)%N (fw_items req) &&
  forallb (λ '(conn, _, input), match input_conn input with Some c => (c =? conn)%N | None => true end) (fw_items req).
Definition check_control (peer : NodeId) (req : ControlRequest) : bool :=
  (ctl_from req =? peer)%N &&
  match ctl_op req with
  | RaftOp.SetDraining _ => true
  | RaftOp.DropNode node _ => (node =? peer)%N
  | RaftOp.Conn _ _ | RaftOp.Tick | RaftOp.Batch _ => false
  end.

(** ** The state machine *)
Record SmMeta := mkSmMeta {
  sm_started : bool;
  sm_last_now : Nanos;
  sm_next_seq : gmap ConnId N;
  sm_highest_local : gmap NodeId N;
  sm_highest_member : NodeId;
}.
#[export] Instance eta_SmMeta : Eta SmMeta :=
  λ r, mkSmMeta (sm_started r) (sm_last_now r) (sm_next_seq r) (sm_highest_local r) (sm_highest_member r).
#[export] Instance sm_started_set : Setter sm_started := ltac:(derive_setter).
#[export] Instance sm_last_now_set : Setter sm_last_now := ltac:(derive_setter).
#[export] Instance sm_next_seq_set : Setter sm_next_seq := ltac:(derive_setter).
#[export] Instance sm_highest_local_set : Setter sm_highest_local := ltac:(derive_setter).
#[export] Instance sm_highest_member_set : Setter sm_highest_member := ltac:(derive_setter).
Definition SmMeta_default : SmMeta := mkSmMeta false 0 ∅ ∅ 0.
Record SmMetaV2 := mkSmMetaV2 {
  v2_started : bool;
  v2_last_now : Nanos;
  v2_next_seq : gmap ConnId N;
  v2_highest_local : gmap NodeId N;
}.
Definition upgrade (m : SmMetaV2) : SmMeta :=
  mkSmMeta (v2_started m) (v2_last_now m) (v2_next_seq m) (v2_highest_local m) 0.

(** What a node does for its own connections. *)
Module SmEvent.
Inductive SmEvent :=
  | Applied (conn : ConnId) (seq : N)
  | Deliver (conn : ConnId) (resp : Response)
  | Closed (conn : ConnId).
End SmEvent.
Abbreviation SmEvent := SmEvent.SmEvent (only parsing).

(** The options of a node that its state machine uses. *)
Record Shared := mkShared { sh_node : NodeId; sh_cfg : EngineConfig; sh_sys : SysSnapshot }.
Definition local_conns (node : NodeId) : LocalConns := mkLocalConns CONN_SEQ_BITS node.
Definition new_engine (now : Nanos) (sh : Shared) : Engine :=
  set_local_conns (Some (local_conns (sh_node sh))) (Engine_new now (sh_cfg sh) (sh_sys sh)).

(** The engine and the metadata, with the events so far. *)
Abbreviation Sm := (Engine * SmMeta * list SmEvent)%type (only parsing).
Definition route (node : NodeId) (out : Outbox) : list SmEvent :=
  omap (λ '(c, r), if (owner_of c =? node)%N then Some (SmEvent.Deliver c r) else None) out.
(** Whether an input is the next one of its connection. *)
Definition is_next (seq : N) (input : EngineInput) (conn : ConnId) (m : SmMeta) : bool :=
  match input with
  | EngineInput.Connect _ =>
      (seq =? 1)%N && bool_decide (sm_next_seq m !! conn = None) &&
      match sm_highest_local m !! owner_of conn with Some h => (h <? local_of conn)%N | None => true end
  | _ => bool_decide (sm_next_seq m !! conn = Some seq)
  end.
Definition note_input (seq : N) (input : EngineInput) (conn : ConnId) (m : SmMeta) : SmMeta :=
  match input with
  | EngineInput.Connect _ =>
      m <| sm_highest_local ::= <[owner_of conn := local_of conn]> |> <| sm_next_seq ::= <[conn := 2%N]> |>
  | EngineInput.Disconnect _ => m <| sm_next_seq ::= delete conn |>
  | _ => m <| sm_next_seq ::= <[conn := incr64 seq]> |>
  end.
Definition apply_conn (node : NodeId) (now : Nanos) (seq : N) (input : EngineInput) (s : Sm) : bool * Sm :=
  let '(e, m, events) := s in
  match input_conn input with
  | None => (false, s)
  | Some conn =>
      if is_next seq input conn m then
        let mine := (owner_of conn =? node)%N in
        let '(e, out) := apply_input now input (e, []) in
        let closed := match input with EngineInput.Disconnect _ => true | _ => false end in
        (true, (e, note_input seq input conn m,
                events ++ (if mine then [SmEvent.Applied conn seq] else []) ++ route node out ++
                (if closed && mine then [SmEvent.Closed conn] else [])))
      else (false, s)
  end.
Definition apply_items (node : NodeId) (now : Nanos) (items : list (N * EngineInput)) (s : Sm) : bool * Sm :=
  foldl (λ '(any, s) '(seq, input), let '(ok, s) := apply_conn node now seq input s in (any || ok, s)) (false, s) items.
(** [Op::Tick] and [Op::SetDraining]. *)
Definition apply_plain (node : NodeId) (now : Nanos) (input : EngineInput) (s : Sm) : Sm :=
  let '(e, m, events) := s in
  let '(e, out) := apply_input now input (e, []) in (e, m, events ++ route node out).
Definition drop_conn (node n : NodeId) (now : Nanos) (s : Sm) (c : ConnId) : Sm :=
  let '(e, m, events) := s in
  let '(e, out) := apply_input now (EngineInput.Disconnect c) (e, []) in
  (e, m <| sm_next_seq ::= delete c |>, events ++ route node out ++ (if (n =? node)%N then [SmEvent.Closed c] else [])).
Definition dropped (n : NodeId) (up_to_local : N) (c : ConnId) : bool := (owner_of c =? n)%N && (local_of c <=? up_to_local)%N.
Definition drop_node (node n : NodeId) (up_to_local : N) (now : Nanos) (s : Sm) : Sm :=
  foldl (drop_conn node n now) s (filter (λ c, dropped n up_to_local c = true) (conn_ids s.1.1)).
(** The result: whether the request was a duplicate. *)
Definition apply_request (sh : Shared) (req : Request) (s : Sm) : bool * Sm :=
  let '(e, m, events) := s in
  let now := N.max (rq_now req) (sm_last_now m) in
  let m := m <| sm_last_now := now |> in
  let '(e, m) := if sm_started m then (e, m) else (new_engine now sh, m <| sm_started := true |>) in
  let s := (e, m, events) in
  let node := sh_node sh in
  match rq_op req with
  | RaftOp.Conn seq input => let '(ok, s) := apply_conn node now seq input s in (negb ok, s)
  | RaftOp.Batch items => let '(any, s) := apply_items node now items s in (negb any, s)
  | RaftOp.Tick => (false, apply_plain node now EngineInput.Tick s)
  | RaftOp.SetDraining on => (false, apply_plain node now (EngineInput.SetDraining on) s)
  | RaftOp.DropNode n up_to_local => (false, drop_node node n up_to_local now s)
  end.

Module EntryPayload.
Inductive EntryPayload {Membership : Type} := Blank | Members (m : Membership) | Normal (req : Request).
Arguments EntryPayload : clear implicits.
End EntryPayload.
Abbreviation EntryPayload := EntryPayload.EntryPayload (only parsing).

(** The payload of a snapshot, by its version. *)
Module Payload.
Inductive Payload := V2 (meta : SmMetaV2) (state : EngineState) | V3 (meta : SmMeta) (state : EngineState).
End Payload.
Abbreviation Payload := Payload.Payload (only parsing).

Section log.
Context {Sid Membership : Type} (index : Sid → N) (nodes : Membership → list NodeId).
Abbreviation StoredMembership := (option Sid * Membership)%type.
Record Core := mkCore {
  cr_engine : Engine;
  cr_meta : SmMeta;
  cr_last_applied : option Sid;
  cr_membership : StoredMembership;
}.
Definition highest_node (m : Membership) : NodeId := foldr N.max 0%N (nodes m).
(** One committed entry. *)
Definition apply_entry (sh : Shared) (ent : Sid * EntryPayload Membership) (s : Core * list SmEvent) : bool * (Core * list SmEvent) :=
  let '(c, events) := s in
  let '(log_id, payload) := ent in
  if match cr_last_applied c with Some l => (index log_id <=? index l)%N | None => false end then (false, s)
  else
    let '(duplicate, (c, events)) :=
      match payload with
      | EntryPayload.Blank => (false, (c, events))
      | EntryPayload.Members m =>
          (false, (mkCore (cr_engine c) ((cr_meta c) <| sm_highest_member ::= (λ h, N.max h (highest_node m)) |>)
                     (cr_last_applied c) (Some log_id, m), events))
      | EntryPayload.Normal req =>
          let '(duplicate, (e, m, events)) := apply_request sh req (cr_engine c, cr_meta c, events) in
          (duplicate, (mkCore e m (cr_last_applied c) (cr_membership c), events))
      end in
    (duplicate, (mkCore (cr_engine c) (cr_meta c) (Some log_id) (cr_membership c), events)).
(** The results of the entries, the state and the events to dispatch. *)
Definition apply_next (sh : Shared) (s : list bool * (Core * list SmEvent)) (ent : Sid * EntryPayload Membership) : list bool * (Core * list SmEvent) :=
  let '(duplicate, s') := apply_entry sh ent s.2 in (s.1 ++ [duplicate], s').
Definition apply (sh : Shared) (entries : list (Sid * EntryPayload Membership)) (c : Core) : list bool * (Core * list SmEvent) :=
  foldl (apply_next sh) ([], (c, [])) entries.

(** ** Snapshots *)
Record SmSnapshot := mkSmSnapshot { sn_last_log_id : option Sid; sn_last_membership : StoredMembership; sn_payload : Payload }.
Definition build_snapshot (c : Core) : SmSnapshot :=
  mkSmSnapshot (cr_last_applied c) (cr_membership c) (Payload.V3 (cr_meta c) (export_state (cr_engine c))).
(** The engine of a payload, if its metadata agrees with it and its
    configuration with that of the node. *)
Definition conn_meta_ok (m : SmMeta) (c : ConnId) (seq : N) : bool :=
  (2 <=? seq)%N && match sm_highest_local m !! owner_of c with Some h => (local_of c <=? h)%N | None => false end.
Definition check_restored (state : EngineState) (m : SmMeta) (sh : Shared) : option (Engine * SmMeta) :=
  e ← import_state state (sh_sys sh);
  let e := set_local_conns (Some (local_conns (sh_node sh))) e in
  if (cfg_max_job_size (e_cfg e) =? cfg_max_job_size (sh_cfg sh))%N && negb (cfg_journal (e_cfg e)) &&
     bool_decide (conn_ids e = bt_iter (dom (sm_next_seq m))) &&
     bool_decide (map_Forall (λ c seq, conn_meta_ok m c seq = true) (sm_next_seq m)) &&
     (sm_started m || bool_decide (conn_ids e = []))
  then Some (e, m) else None.
Definition restore_from (payload : Payload) (sh : Shared) (membership : StoredMembership) : option (Engine * SmMeta) :=
  let '(m, state) := match payload with Payload.V3 m state => (m, state) | Payload.V2 m state => (upgrade m, state) end in
  '(e, m) ← check_restored state m sh;
  Some (e, m <| sm_highest_member ::= (λ h, N.max h (highest_node membership.2)) |>).
Definition install_snapshot (snap : SmSnapshot) (sh : Shared) (c : Core) : option (Core * list SmEvent) :=
  '(e, m) ← restore_from (sn_payload snap) sh (sn_last_membership snap);
  let local := filter (λ x, owner_of x = sh_node sh) (dom (e_conns (cr_engine c)) ∪ dom (e_conns e)) in
  Some (mkCore e m (sn_last_log_id snap) (sn_last_membership snap), SmEvent.Closed <$> bt_iter local).
(** A node that starts, with its current snapshot if it has one. *)
Definition open_core (sh : Shared) (none : Membership) (current : option SmSnapshot) : option Core :=
  let sh := mkShared (sh_node sh) (mkEngineConfig (cfg_max_job_size (sh_cfg sh)) (cfg_binlog_max_size (sh_cfg sh)) false) (sh_sys sh) in
  match current with
  | None => Some (mkCore (new_engine 0 sh) SmMeta_default None (None, none))
  | Some snap =>
      '(e, m) ← restore_from (sn_payload snap) sh (sn_last_membership snap);
      Some (mkCore e m (sn_last_log_id snap) (sn_last_membership snap))
  end.

(** ** Queries *)
Definition applied_seq (c : Core) (conn : ConnId) : option N := (λ s, wrap64 (s + (2 ^ 64 - 1))) <$> sm_next_seq (cr_meta c) !! conn.
Definition highest_local (c : Core) (node : NodeId) : N := default 0%N (sm_highest_local (cr_meta c) !! node).
Definition connection_owners (c : Core) : gmap NodeId N :=
  filter (λ '(n, _),
    let first := wrap64 (N.shiftl n CONN_SEQ_BITS) in let last := N.lor first (N.shiftl 1 CONN_SEQ_BITS - 1) in
    filter (λ k, first ≤ k ≤ last)%N (dom (sm_next_seq (cr_meta c))) ≠ ∅) (sm_highest_local (cr_meta c)).
End log.
Arguments Core : clear implicits.
Arguments SmSnapshot : clear implicits.
Arguments mkCore {_ _} _ _ _ _.
Arguments mkSmSnapshot {_ _} _ _ _.

(** ** Connection numbers
    ([server/cluster/durable.rs]) *)
Definition CONN_ID_BLOCK : N := N.shiftl 1 16.
Definition TIME_FLOOR_SHIFT : N := 16.
Definition first_local (persisted : option N) (highest unix_secs : N) : option N :=
  let f := wrap64 (N.shiftl unix_secs TIME_FLOOR_SHIFT) in
  if (N.shiftr f TIME_FLOOR_SHIFT =? unix_secs)%N && (f <? N.shiftl 1 CONN_SEQ_BITS)%N then
    let first := N.max (N.max (default 0%N persisted) (sat_add64 highest 1)) f in
    if (N.shiftl 1 CONN_SEQ_BITS <=? first)%N then None else Some first
  else None.
(** The numbers at hand; [id_file] is what the file says. *)
Record ConnIdBlocks := mkConnIdBlocks { id_node : NodeId; id_block : N; id_next : N; id_limit : N; id_file : option N }.
(** How [write_atomic] ends: an error may come before or after the file is
    replaced. *)
Module WriteResult.
Inductive WriteResult := Written | Failed (replaced : bool).
End WriteResult.
Abbreviation WriteResult := WriteResult.WriteResult (only parsing).
Definition with_file (file : option N) (b : ConnIdBlocks) : ConnIdBlocks := mkConnIdBlocks (id_node b) (id_block b) (id_next b) (id_limit b) file.
Definition reserve_block (w : WriteResult) (b : ConnIdBlocks) : bool * ConnIdBlocks :=
  let limit := sat_add64 (id_next b) (id_block b) in
  if (N.shiftl 1 CONN_SEQ_BITS <=? id_next b)%N then (false, b)
  else
    match w with
    | WriteResult.Written => (true, mkConnIdBlocks (id_node b) (id_block b) (id_next b) limit (Some limit))
    | WriteResult.Failed replaced => (false, if replaced then with_file (Some limit) b else b)
    end.
Definition ConnIdBlocks_open (node : NodeId) (first block : N) (file : option N) (w : WriteResult) : bool * ConnIdBlocks :=
  reserve_block w (mkConnIdBlocks node (N.max block 1) first first file).
Definition ConnIdBlocks_next (w : WriteResult) (b : ConnIdBlocks) : option ConnId * ConnIdBlocks :=
  let '(ok, b) := if (id_limit b <=? id_next b)%N then reserve_block w b else (true, b) in
  if ok then (Some (conn_id (id_node b) (id_next b)), mkConnIdBlocks (id_node b) (id_block b) (id_next b + 1) (id_limit b) (id_file b))
  else (None, b).
