(* ===== verification/ClusterRun.v ===== *)
(** * What the state machine does with a log

    [alike]: the engines of two nodes differ in the process facts and in the
    replies they build, and stay so.  [plan]: what a log amounts to, by the
    metadata alone: the inputs the engine gets, each with the number it was
    accepted under; the engine is what these inputs make of a new one. *)

From S2P Require Import Prelude Ms Proto Stats Parse Model Engine Frames Inv InvFrame InvRefresh Queues Moves Tubes.
From S2P Require Import Waiting Rest Dispatch ConnOps Commands Sessions Connect Tick Validate Snapshot Valid ValidInv Reach Start Serve.
From S2P Require Import Keep Seats Replica Facts Cluster.
From stdpp Require Import options.

(** ** Engines of two nodes *)
Definition common (e : Engine) : Engine := e <| e_sys := ex_sys |> <| e_local_conns := None |>.
Definition alike (e1 e2 : Engine) : Prop := common e1 = common e2.
#[export] Instance alike_equiv : Equivalence alike.
Proof. split; unfold alike; [by intros e|by intros e1 e2|by intros e1 e2 e3 -> ]. Qed.
Definition special (v : SysSnapshot) (l : option LocalConns) (e : Engine) : Engine := e <| e_sys := v |> <| e_local_conns := l |>.
Lemma special_common e : e = special (e_sys e) (e_local_conns e) (common e).
Proof. by destruct e. Qed.
Lemma common_special v l e : common (special v l e) = common e.
Proof. by destruct e. Qed.
(** The state does not depend on what is special of a node. *)
Lemma apply_input_special now i v l e out :
  e_local_conns e = None → (apply_input now i (special v l e, out)).1 = special v l (apply_input now i (e, [])).1.
Proof.
  intros Hn. unfold special.
  assert (∀ out out', (apply_input now i (e <| e_sys := v |>, out')).1 = (apply_input now i (e, out)).1 <| e_sys := v |>) as Hs.
  { intros o o'. by apply (apply_input_factless now i v (e, o) (e <| e_sys := v |>, o')). }
  destruct l as [l|].
  - destruct (node_apply_input now i l (e <| e_sys := v |>, []) Hn) as [Hnode _]. unfold at_node in Hnode. cbn [fst snd] in Hnode.
    pose proof (apply_input_factless now i v (e <| e_local_conns := Some l |>, []) (e <| e_sys := v |> <| e_local_conns := Some l |>, out) eq_refl) as H1.
    destruct (node_apply_input now i l (e, []) Hn) as [Hnode2 _]. unfold at_node in Hnode2. cbn [fst snd] in Hnode2.
    change (delivered (Some l) []) with ([] : Outbox) in Hnode2. rewrite H1, Hnode2. by destruct (apply_input now i (e, [])).1.
  - replace (e <| e_sys := v |> <| e_local_conns := None |>) with (e <| e_sys := v |>) by (destruct e; cbn in Hn; by subst).
    rewrite (Hs [] out). destruct (node_apply_input now i (mkLocalConns 0 0) (e, []) Hn) as [_ Hn2]. cbn [fst] in Hn2.
    destruct (apply_input now i (e, [])).1. cbn in Hn2. by subst.
Qed.
Lemma apply_input_common now i e out : common (apply_input now i (e, out)).1 = common (apply_input now i (common e, [])).1.
Proof. rewrite (special_common e) at 1. rewrite apply_input_special by done. apply common_special. Qed.
Lemma apply_input_alike now i e1 e2 out1 out2 : alike e1 e2 → alike (apply_input now i (e1, out1)).1 (apply_input now i (e2, out2)).1.
Proof. unfold alike. intros H. by rewrite (apply_input_common now i e1), (apply_input_common now i e2), H. Qed.
Lemma alike_conns e1 e2 : alike e1 e2 → e_conns e1 = e_conns e2.
Proof. intros H. exact (f_equal e_conns H). Qed.
Lemma alike_new now sh1 sh2 : sh_cfg sh1 = sh_cfg sh2 → alike (new_engine now sh1) (new_engine now sh2).
Proof. unfold new_engine. by intros ->. Qed.

(** ** Two nodes apply the same log *)
Definition same (s1 s2 : Sm) : Prop := alike s1.1.1 s2.1.1 ∧ s1.1.2 = s2.1.2.
Lemma apply_conn_same n1 n2 now seq i s1 s2 :
  same s1 s2 → (apply_conn n1 now seq i s1).1 = (apply_conn n2 now seq i s2).1 ∧ same (apply_conn n1 now seq i s1).2 (apply_conn n2 now seq i s2).2.
Proof.
  destruct s1 as [[e1 m1] ev1], s2 as [[e2 m2] ev2]. intros [He Hm]. cbn [fst snd] in *. subst m2. unfold apply_conn.
  destruct (input_conn i) as [conn|]; [|done]. destruct (is_next seq i conn m1); [|done].
  pose proof (apply_input_alike now i e1 e2 [] [] He) as H. destruct (apply_input now i (e1, [])), (apply_input now i (e2, [])). done.
Qed.
Lemma apply_items_same n1 n2 now items s1 s2 :
  same s1 s2 → (apply_items n1 now items s1).1 = (apply_items n2 now items s2).1 ∧ same (apply_items n1 now items s1).2 (apply_items n2 now items s2).2.
Proof.
  unfold apply_items. generalize false. revert s1 s2. induction items as [|[seq i] items IH]; intros s1 s2 any Hs; [done|]. cbn [foldl].
  destruct (apply_conn_same n1 n2 now seq i s1 s2 Hs) as [Hok Hs']. destruct (apply_conn n1 now seq i s1), (apply_conn n2 now seq i s2).
  cbn [fst snd] in *. subst. by apply IH.
Qed.
Lemma apply_plain_same n1 n2 now i s1 s2 : same s1 s2 → same (apply_plain n1 now i s1) (apply_plain n2 now i s2).
Proof.
  destruct s1 as [[e1 m1] ev1], s2 as [[e2 m2] ev2]. intros [He Hm]. unfold apply_plain.
  pose proof (apply_input_alike now i e1 e2 [] [] He) as H. destruct (apply_input now i (e1, [])), (apply_input now i (e2, [])). done.
Qed.
Lemma drop_conn_same n1 n2 n now c s1 s2 : same s1 s2 → same (drop_conn n1 n now s1 c) (drop_conn n2 n now s2 c).
Proof.
  destruct s1 as [[e1 m1] ev1], s2 as [[e2 m2] ev2]. intros [He Hm]. cbn [fst snd] in *. subst m2. unfold drop_conn.
  pose proof (apply_input_alike now (EngineInput.Disconnect c) e1 e2 [] [] He) as H.
  destruct (apply_input now _ (e1, [])), (apply_input now _ (e2, [])). done.
Qed.
Lemma drop_node_same n1 n2 n up now s1 s2 : same s1 s2 → same (drop_node n1 n up now s1) (drop_node n2 n up now s2).
Proof.
  intros Hs. unfold drop_node, conn_ids. assert (e_conns s2.1.1 = e_conns s1.1.1) as -> by (symmetry; apply alike_conns, Hs).
  generalize (filter (λ c, dropped n up c = true) (bt_iter (dom (e_conns s1.1.1)))) as l. intros l. revert s1 s2 Hs.
  induction l as [|c l IH]; intros s1 s2 Hs; [done|]. cbn [foldl]. by apply IH, drop_conn_same.
Qed.
Lemma apply_request_same sh1 sh2 req s1 s2 :
  sh_cfg sh1 = sh_cfg sh2 → same s1 s2 →
  (apply_request sh1 req s1).1 = (apply_request sh2 req s2).1 ∧ same (apply_request sh1 req s1).2 (apply_request sh2 req s2).2.
Proof.
  intros Hcfg Hs. destruct s1 as [[e1 m1] ev1], s2 as [[e2 m2] ev2]. destruct Hs as [He Hm]. cbn [fst snd] in He, Hm. subst m2. unfold apply_request.
  set (now := N.max (rq_now req) (sm_last_now m1)). set (m := m1 <| sm_last_now := now |>).
  assert (same (let '(e, m) := if sm_started m then (e1, m) else (new_engine now sh1, m <| sm_started := true |>) in (e, m, ev1))
               (let '(e, m) := if sm_started m then (e2, m) else (new_engine now sh2, m <| sm_started := true |>) in (e, m, ev2))) as Hs.
  { destruct (sm_started m); split; try done. cbn [fst]. by apply alike_new. }
  destruct (if sm_started m then (e1, m) else _) as [e1' m1'], (if sm_started m then (e2, m) else _) as [e2' m2'].
  destruct (rq_op req) as [seq i| |on|n up|items].
  - destruct (apply_conn_same (sh_node sh1) (sh_node sh2) now seq i _ _ Hs) as [Hok Hs']. destruct (apply_conn _ now seq i _), (apply_conn _ now seq i _).
    cbn [fst snd] in *. by subst.
  - split; [done|]. by apply apply_plain_same.
  - split; [done|]. by apply apply_plain_same.
  - split; [done|]. by apply drop_node_same.
  - destruct (apply_items_same (sh_node sh1) (sh_node sh2) now items _ _ Hs) as [Hok Hs']. destruct (apply_items _ now items _), (apply_items _ now items _).
    cbn [fst snd] in *. by subst.
Qed.
Section log.
Context {Sid Membership : Type} (index : Sid → N) (nodes : Membership → list NodeId).
#[local] Abbreviation Core := (Core Sid Membership).
#[local] Abbreviation apply_entry := (apply_entry index nodes).
#[local] Abbreviation apply := (apply index nodes).
Implicit Types (c : Core).
(** The states of two nodes are the same but for what is special of a node. *)
Definition agree c1 c2 : Prop :=
  alike (cr_engine c1) (cr_engine c2) ∧ cr_meta c1 = cr_meta c2 ∧ cr_last_applied c1 = cr_last_applied c2 ∧ cr_membership c1 = cr_membership c2.
#[export] Instance agree_equiv : Equivalence agree.
Proof.
  split; unfold agree; [done|intros c1 c2 (? & ? & ? & ?); done|].
  intros c1 c2 c3 (H1 & -> & -> & ->) (H2 & -> & -> & ->). by rewrite H1.
Qed.
Lemma apply_entry_agree sh1 sh2 ent c1 c2 ev1 ev2 :
  sh_cfg sh1 = sh_cfg sh2 → agree c1 c2 →
  (apply_entry sh1 ent (c1, ev1)).1 = (apply_entry sh2 ent (c2, ev2)).1 ∧ agree (apply_entry sh1 ent (c1, ev1)).2.1 (apply_entry sh2 ent (c2, ev2)).2.1.
Proof.
  intros Hcfg (He & Hm & Hl & Hb). unfold Cluster.apply_entry. destruct ent as [id payload]. rewrite <-Hl.
  destruct (match cr_last_applied c1 with Some l => _ | None => _ end); [done|]. destruct payload as [|m|req].
  - done.
  - split; [done|]. split_and!; cbn; try done. by rewrite Hm.
  - destruct (apply_request_same sh1 sh2 req (cr_engine c1, cr_meta c1, ev1) (cr_engine c2, cr_meta c2, ev2) Hcfg (conj He Hm)) as [Hd [He' Hm']].
    destruct (apply_request sh1 req _) as [d1 [[e1 m1] ev1']], (apply_request sh2 req _) as [d2 [[e2 m2] ev2']]. done.
Qed.
Lemma apply_agree sh1 sh2 entries c1 c2 :
  sh_cfg sh1 = sh_cfg sh2 → agree c1 c2 →
  (apply sh1 entries c1).1 = (apply sh2 entries c2).1 ∧ agree (apply sh1 entries c1).2.1 (apply sh2 entries c2).2.1.
Proof.
  intros Hcfg. unfold Cluster.apply. generalize (@nil bool) as res. intros res. assert (∀ (ev1 ev2 : list SmEvent), agree c1 c2 →
    (foldl (apply_next index nodes sh1) (res, (c1, ev1)) entries).1 = (foldl (apply_next index nodes sh2) (res, (c2, ev2)) entries).1 ∧
    agree (foldl (apply_next index nodes sh1) (res, (c1, ev1)) entries).2.1 (foldl (apply_next index nodes sh2) (res, (c2, ev2)) entries).2.1) as H; [|apply H].
  revert c1 c2 res. induction entries as [|ent entries IH]; intros c1 c2 res ev1 ev2 Hc; [done|]. cbn [foldl]. unfold apply_next at 2 4 6 8. cbn [fst snd].
  destruct (apply_entry_agree sh1 sh2 ent c1 c2 ev1 ev2 Hcfg Hc) as [Hb Hd].
  destruct (apply_entry sh1 ent (c1, ev1)) as [b1 [d1 ev1']], (apply_entry sh2 ent (c2, ev2)) as [b2 [d2 ev2']]. cbn [fst snd] in *. subst b2. by apply IH.
Qed.
End log.

(** ** What a log amounts to *)
(** The engine is made anew, or gets an input; [tag] is the connection and the
    number an input of a connection was accepted under. *)
Module Step.
Inductive Step := Start (now : Nanos) | Input (now : Nanos) (tag : option (ConnId * N)) (input : EngineInput).
End Step.
Abbreviation Step := Step.Step (only parsing).
Definition plan_conn (now : Nanos) (item : N * EngineInput) (s : SmMeta * list Step) : SmMeta * list Step :=
  let '(m, steps) := s in
  let '(seq, input) := item in
  match input_conn input with
  | Some conn => if is_next seq input conn m then (note_input seq input conn m, steps ++ [Step.Input now (Some (conn, seq)) input]) else s
  | None => s
  end.
Definition plan_drop (now : Nanos) (s : SmMeta * list Step) (c : ConnId) : SmMeta * list Step :=
  (s.1 <| sm_next_seq ::= delete c |>, s.2 ++ [Step.Input now None (EngineInput.Disconnect c)]).
Definition plan_request (req : Request) (s : SmMeta * list Step) : SmMeta * list Step :=
  let '(m, steps) := s in
  let now := N.max (rq_now req) (sm_last_now m) in
  let m := m <| sm_last_now := now |> in
  let s := if sm_started m then (m, steps) else (m <| sm_started := true |>, steps ++ [Step.Start now]) in
  match rq_op req with
  | RaftOp.Conn seq input => plan_conn now (seq, input) s
  | RaftOp.Batch items => foldl (λ s item, plan_conn now item s) s items
  | RaftOp.Tick => (s.1, s.2 ++ [Step.Input now None EngineInput.Tick])
  | RaftOp.SetDraining on => (s.1, s.2 ++ [Step.Input now None (EngineInput.SetDraining on)])
  | RaftOp.DropNode n up_to_local => foldl (plan_drop now) s (filter (λ c, dropped n up_to_local c = true) (bt_iter (dom (sm_next_seq s.1))))
  end.
Definition exec_step (sh : Shared) (e : Engine) (st : Step) : Engine :=
  match st with
  | Step.Start now => new_engine now sh
  | Step.Input now _ input => (apply_input now input (e, [])).1
  end.
Definition exec (sh : Shared) (steps : list Step) (e : Engine) : Engine := foldl (exec_step sh) e steps.
Lemma exec_app sh l1 l2 e : exec sh (l1 ++ l2) e = exec sh l2 (exec sh l1 e).
Proof. apply foldl_app. Qed.
(** The metadata knows the engine's connections. *)
Definition tied (e : Engine) (m : SmMeta) : Prop := dom (sm_next_seq m) = seats e ∧ (sm_started m = false → sm_next_seq m = ∅).

Section refine.
Context (sh : Shared) (e0 : Engine).
(** The state of the node is what the plan makes of [e0]. *)
Definition follows (s : Sm) (p : SmMeta * list Step) : Prop := s.1.2 = p.1 ∧ s.1.1 = exec sh p.2 e0 ∧ tied s.1.1 s.1.2.
Lemma follows_input now tag i e m ev steps m' ev' :
  follows (e, m, ev) (m, steps) → dom (sm_next_seq m') = seats_after i e → sm_started m' = true →
  follows ((apply_input now i (e, [])).1, m', ev') (m', steps ++ [Step.Input now tag i]).
Proof.
  intros (_ & He & _) Hd Hst. cbn [fst snd] in *. split_and!; [done| |split; [|by cbn; rewrite Hst]].
  - cbn [fst snd]. rewrite exec_app, <-He. done.
  - cbn [fst snd]. by rewrite Hd, seats_input.
Qed.
Lemma note_input_seats seq i conn m e :
  dom (sm_next_seq m) = seats e → input_conn i = Some conn → is_next seq i conn m = true → dom (sm_next_seq (note_input seq i conn m)) = seats_after i e.
Proof.
  intros Hd Hc Hn. destruct i as [k|k|k|k ?|k ?|k ?| |]; cbn in Hc; simplify_eq; cbn [note_input seats_after is_next] in *; try apply bool_decide_eq_true in Hn; cbn.
  1: rewrite dom_insert_L, Hd; done. 1: by rewrite dom_delete_L, Hd.
  all: apply elem_of_dom_2 in Hn; rewrite dom_insert_L, Hd in *; set_solver.
Qed.
Lemma note_input_started seq i conn m : sm_started (note_input seq i conn m) = sm_started m.
Proof. by destruct i. Qed.
Lemma follows_conn node now seq i s p :
  follows s p → sm_started p.1 = true →
  let s' := (apply_conn node now seq i s).2 in let p' := plan_conn now (seq, i) p in follows s' p' ∧ sm_started p'.1 = true.
Proof.
  destruct s as [[e m] ev], p as [m0 steps]. intros Hf Hst. pose proof Hf as (Hm & He & Hd & _). cbn [fst snd] in *. subst m0. unfold apply_conn, plan_conn.
  destruct (input_conn i) as [conn|] eqn:Hc; [|done]. destruct (is_next seq i conn m) eqn:Hn; [|done].
  pose proof (follows_input now (Some (conn, seq)) i e m ev steps (note_input seq i conn m)) as H. destruct (apply_input now i (e, [])) as [e' out].
  cbn [fst snd]. rewrite note_input_started. split; [|done]. apply H; [done|by apply note_input_seats|by rewrite note_input_started].
Qed.
Lemma follows_items node now items s p :
  follows s p → sm_started p.1 = true →
  let s' := (apply_items node now items s).2 in let p' := foldl (λ p item, plan_conn now item p) p items in follows s' p' ∧ sm_started p'.1 = true.
Proof.
  unfold apply_items. generalize false. revert s p. induction items as [|[seq i] items IH]; intros s p any Hf Hst; [done|]. cbn [foldl].
  destruct (follows_conn node now seq i s p Hf Hst) as [Hf' Hst']. destruct (apply_conn node now seq i s) as [ok s']. by apply IH.
Qed.
Lemma follows_plain node now i s p :
  follows s p → sm_started p.1 = true → seats_after i s.1.1 = seats s.1.1 → follows (apply_plain node now i s) (p.1, p.2 ++ [Step.Input now None i]).
Proof.
  destruct s as [[e m] ev], p as [m0 steps]. intros Hf Hst Hs. pose proof Hf as (Hm & He & Hd & _). cbn [fst snd] in *. subst m0. unfold apply_plain.
  pose proof (follows_input now None i e m ev steps m) as H. destruct (apply_input now i (e, [])) as [e' out]. apply H; [done|congruence|done].
Qed.
Lemma follows_drop node n now s p c :
  follows s p → sm_started p.1 = true → follows (drop_conn node n now s c) (plan_drop now p c) ∧ sm_started (plan_drop now p c).1 = true.
Proof.
  destruct s as [[e m] ev], p as [m0 steps]. intros Hf Hst. pose proof Hf as (Hm & He & Hd & _). cbn [fst snd] in *. subst m0. unfold drop_conn, plan_drop.
  pose proof (follows_input now None (EngineInput.Disconnect c) e m ev steps (m <| sm_next_seq ::= delete c |>)) as H.
  destruct (apply_input now _ (e, [])) as [e' out]. cbn [fst snd]. split; [|done]. apply H; [done| |done]. cbn. by rewrite dom_delete_L, Hd.
Qed.
Lemma follows_request req s p : follows s p → follows (apply_request sh req s).2 (plan_request req p).
Proof.
  destruct s as [[e m] ev], p as [m0 steps]. intros (Hm & He & Hd & Hst). cbn [fst snd] in Hm, He, Hd, Hst. subst m0. unfold apply_request, plan_request.
  set (now := N.max (rq_now req) (sm_last_now m)). set (m1 := m <| sm_last_now := now |>).
  assert (let s1 := (let '(e, m) := if sm_started m1 then (e, m1) else (new_engine now sh, m1 <| sm_started := true |>) in (e, m, ev)) in
          let p1 := if sm_started m1 then (m1, steps) else (m1 <| sm_started := true |>, steps ++ [Step.Start now]) in
          follows s1 p1 ∧ sm_started p1.1 = true) as Hs.
  { change (sm_started m1) with (sm_started m). destruct (sm_started m) eqn:Hm; cbn zeta iota.
    { split; [|exact Hm]. split_and!; [done|done|split; [done|]]. cbn. by rewrite Hm. }
    split; [|done]. split_and!; [done| |split; [|done]].
    - cbn [fst snd]. by rewrite exec_app.
    - cbn [fst snd]. change (sm_next_seq (m1 <| sm_started := true |>)) with (sm_next_seq m). by rewrite Hst, dom_empty_L. }
  cbv zeta in Hs. destruct (if sm_started m1 then (e, m1) else _) as [e1 m1']. destruct (if sm_started m1 then (m1, steps) else _) as [m2 steps2].
  destruct Hs as [Hf Hs]. destruct (rq_op req) as [seq i| |on|n up|items].
  - pose proof (follows_conn (sh_node sh) now seq i _ _ Hf Hs) as [H _]. destruct (apply_conn _ now seq i _). exact H.
  - by apply follows_plain.
  - by apply follows_plain.
  - cbn [snd]. unfold drop_node, conn_ids. destruct Hf as (Hm & He' & Hd' & Hst') eqn:Hf'. cbn [fst snd] in Hm, Hd'. subst m2. cbn [fst snd]. rewrite Hd'. fold (seats e1).
    clear Hf'. generalize (filter (λ c, dropped n up c = true) (bt_iter (seats e1))) as l. intros l. revert Hs Hf. generalize (e1, m1', ev) as s. generalize (m1', steps2) as p.
    clear. induction l as [|c l IH]; intros p s Hs Hf; [done|]. cbn [foldl]. destruct (follows_drop (sh_node sh) n now s p c Hf Hs) as [Hf' Hs']. by apply IH.
  - pose proof (follows_items (sh_node sh) now items _ _ Hf Hs) as [H _]. destruct (apply_items _ now items _). exact H.
Qed.
End refine.
Section log_plan.
Context {Sid Membership : Type} (index : Sid → N) (nodes : Membership → list NodeId).
#[local] Abbreviation Core := (Core Sid Membership).
Implicit Types (c : Core).
Definition plan_entry (p : option Sid * (SmMeta * list Step)) (ent : Sid * EntryPayload Membership) : option Sid * (SmMeta * list Step) :=
  let '(last, p) := p in
  let '(log_id, payload) := ent in
  if match last with Some l => (index log_id <=? index l)%N | None => false end then (last, p)
  else (Some log_id,
    match payload with
    | EntryPayload.Blank => p
    | EntryPayload.Members m => (p.1 <| sm_highest_member ::= (λ h, N.max h (highest_node nodes m)) |>, p.2)
    | EntryPayload.Normal req => plan_request req p
    end).
Definition plan (entries : list (Sid * EntryPayload Membership)) (p : option Sid * (SmMeta * list Step)) : option Sid * (SmMeta * list Step) :=
  foldl plan_entry p entries.
Lemma apply_follows sh e0 entries c p ev :
  follows sh e0 (cr_engine c, cr_meta c, ev) p →
  let c' := (apply index nodes sh entries c).2.1 in let r := plan entries (cr_last_applied c, p) in
  cr_last_applied c' = r.1 ∧ follows sh e0 (cr_engine c', cr_meta c', ev) r.2.
Proof.
  unfold apply, plan. generalize (@nil bool). generalize (@nil SmEvent). revert c p. induction entries as [|ent entries IH]; intros c p ev' res Hf; [done|].
  cbn [foldl]. unfold apply_next at 2 4 6. cbn [fst snd]. assert (let s' := (apply_entry index nodes sh ent (c, ev')).2 in let r := plan_entry (cr_last_applied c, p) ent in
    cr_last_applied s'.1 = r.1 ∧ follows sh e0 (cr_engine s'.1, cr_meta s'.1, ev) r.2) as [Hl Hf'].
  { unfold apply_entry, plan_entry. destruct ent as [id payload]. destruct (match cr_last_applied c with Some l => _ | None => _ end); [done|].
    destruct payload as [|m|req]; [done| |].
    - split; [done|]. destruct Hf as (Hm & He & Hd & Hst). cbn in *. split_and!; [by rewrite <-Hm|done|by split].
    - pose proof (follows_request sh e0 req (cr_engine c, cr_meta c, ev') p Hf) as H. destruct (apply_request sh req _) as [d [[e m] ev'']]. done. }
  destruct (apply_entry index nodes sh ent (c, ev')) as [d [c' ev'']]. destruct (plan_entry (cr_last_applied c, p) ent) as [last p']. cbn [fst snd] in *. subst last.
  by apply IH.
Qed.
End log_plan.

(** ** Every input once, in order *)
Definition numbers (n : nat) : list N := N.of_nat <$> seq 1 n.
(** What was accepted of connection [c]. *)
Definition numbered (c : ConnId) (steps : list Step) : list (N * EngineInput) :=
  omap (λ st, match st with Step.Input _ (Some (k, n)) i => if decide (k = c) then Some (n, i) else None | _ => None end) steps.
Lemma numbers_S n : numbers (S n) = numbers n ++ [(N.of_nat n + 1)%N].
Proof. unfold numbers. rewrite seq_S, fmap_app. cbn. do 2 f_equal. lia. Qed.
Record history (c : ConnId) (m : SmMeta) (h : list (N * EngineInput)) : Prop := {
  hi_numbers : h.*1 = numbers (length h);
  hi_conn : Forall (λ x, input_conn x.2 = Some c) h;
  hi_next : ∀ n, sm_next_seq m !! c = Some n → h ≠ [] ∧ n = (N.of_nat (length h) + 1)%N;
  hi_first x : head h = Some x → x.2 = EngineInput.Connect c;
  hi_end n x : h !! n = Some x → x.2 = EngineInput.Disconnect c → S n = length h ∧ sm_next_seq m !! c = None;
  hi_local : h ≠ [] → ∃ hl, sm_highest_local m !! owner_of c = Some hl ∧ (local_of c ≤ hl)%N;
}.
Lemma numbered_app c l1 l2 : numbered c (l1 ++ l2) = numbered c l1 ++ numbered c l2.
Proof. unfold numbered. by rewrite omap_app. Qed.
Lemma history_note c seq i conn m h :
  history c m h → (N.of_nat (length h) + 2 < 2 ^ 64)%N → input_conn i = Some conn → is_next seq i conn m = true →
  history c (note_input seq i conn m) (h ++ if decide (conn = c) then [(seq, i)] else []).
Proof.
  intros [Hnum Hcn Hnext Hfirst Hend Hloc] Hlen Hc Hn.
  assert (∀ hl, sm_highest_local m !! owner_of c = Some hl → (local_of c ≤ hl)%N →
    ∃ hl', sm_highest_local (note_input seq i conn m) !! owner_of c = Some hl' ∧ (local_of c ≤ hl')%N) as Hmono.
  { intros hl Hhl Hle. destruct i as [k|k|k|k ?|k ?|k ?| |]; try (by exists hl). cbn in Hc, Hn |- *. simplify_eq.
    apply andb_true_iff in Hn as [_ Hn]. destruct (decide (owner_of conn = owner_of c)) as [Ho|Ho]; [|rewrite lookup_insert_ne by done; by exists hl].
    rewrite Ho, lookup_insert. eexists. split; [by rewrite decide_True|]. rewrite Ho, Hhl in Hn. apply N.ltb_lt in Hn. lia. }
  destruct (decide (conn = c)) as [->|Hne].
  - assert (seq = N.of_nat (length h) + 1)%N as Hseq.
    { destruct i as [k|k|k|k ?|k ?|k ?| |]; try (by apply bool_decide_eq_true, Hnext in Hn as [_ ?]).
      cbn in Hn. apply andb_true_iff in Hn as [[->%N.eqb_eq _]%andb_true_iff Hn]. destruct h as [|x h]; [done|]. exfalso.
      destruct Hloc as (hl & Hhl & Hle); [done|]. rewrite Hhl in Hn. apply N.ltb_lt in Hn. lia. }
    split.
    + rewrite fmap_app, Hnum, length_app, Nat.add_1_r, numbers_S. cbn. by rewrite Hseq.
    + apply Forall_app. split; [done|]. by constructor.
    + intros n Hl. split; [by destruct h|]. rewrite length_app. cbn [length].
      destruct i as [k|k|k|k ?|k ?|k ?| |]; cbn in Hl; rewrite ?lookup_insert_eq, ?lookup_delete_eq in Hl; simplify_eq; try done; cbn in Hc; simplify_eq;
        try (unfold incr64, wrap64; rewrite N.mod_small by lia; lia).
      cbn in Hn. apply andb_true_iff in Hn as [[Hs%N.eqb_eq _]%andb_true_iff _]. lia.
    + destruct h as [|y h]; [|exact Hfirst]. intros x [= <-]. cbn. destruct i as [k|k|k|k ?|k ?|k ?| |]; cbn in Hc; simplify_eq; cbn in Hn; try done;
        by apply bool_decide_eq_true, Hnext in Hn as [? _].
    + intros n x Hl Hx. apply lookup_app_Some in Hl as [Hl|[Hl1 Hl2]].
      * destruct (Hend n x Hl Hx) as [Hl1 Hl2]. exfalso. destruct i as [k|k|k|k ?|k ?|k ?| |]; cbn in Hc; simplify_eq; cbn in Hn; try (apply bool_decide_eq_true in Hn; congruence).
        apply andb_true_iff in Hn as [[Hs%N.eqb_eq _]%andb_true_iff _]. apply lookup_lt_Some in Hl. lia.
      * apply list_lookup_singleton_Some in Hl2 as [Hl2 <-]. cbn in Hx. subst i. rewrite length_app. cbn. split; [lia|]. by rewrite lookup_delete_eq.
    + intros _. destruct (decide (h = [])) as [->|Hh]; [|destruct (Hloc Hh) as (hl & Hhl & Hle); by apply (Hmono hl)].
      destruct i as [k|k|k|k ?|k ?|k ?| |]; cbn in Hc; simplify_eq; cbn in Hn |- *; try (by apply bool_decide_eq_true, Hnext in Hn as [? _]).
      rewrite lookup_insert_eq. by eexists.
  - rewrite app_nil_r. split; [done|done| |done| |].
    + intros n Hl. apply Hnext. destruct i as [k|k|k|k ?|k ?|k ?| |]; cbn in Hl; rewrite ?lookup_insert_ne, ?lookup_delete_ne in Hl by done; done.
    + intros n x Hl Hx. destruct (Hend n x Hl Hx) as [? Hnone]. split; [done|].
      destruct i as [k|k|k|k ?|k ?|k ?| |]; cbn; rewrite ?lookup_insert_ne, ?lookup_delete_ne by done; done.
    + intros Hh. destruct (Hloc Hh) as (hl & Hhl & Hle). by apply (Hmono hl).
Qed.
Lemma history_meta c m m' h :
  (∀ n, sm_next_seq m' !! c = Some n → sm_next_seq m !! c = Some n) → sm_highest_local m' = sm_highest_local m → history c m h → history c m' h.
Proof.
  intros Hn Hl [H1 H2 H3 H4 H5 H6]. split; [done|done|by intros n ?%Hn%H3|done| |by rewrite Hl]. intros n x Hx Hd. destruct (H5 n x Hx Hd) as [? Hnone].
  split; [done|]. destruct (sm_next_seq m' !! c) as [k|]; [|done]. rewrite (Hn k eq_refl) in Hnone. done.
Qed.
Lemma length_numbered c steps : length (numbered c steps) ≤ length steps.
Proof. unfold numbered. induction steps as [|st steps IH]; [done|]. cbn. case_match; cbn; lia. Qed.
(** [p] is kept while the plan is short. *)
Definition kept (c : ConnId) (p p' : SmMeta * list Step) : Prop :=
  p.2 `prefix_of` p'.2 ∧ (history c p.1 (numbered c p.2) → (N.of_nat (length p'.2) + 2 < 2 ^ 64)%N → history c p'.1 (numbered c p'.2)).
#[export] Instance kept_preorder c : PreOrder (kept c).
Proof.
  split; [by intros p|]. intros p1 p2 p3 [Hp1 Hh1] [Hp2 Hh2]. split; [by etrans|]. intros Hh Hl. apply Hh2; [|done]. apply Hh1; [done|].
  apply prefix_length in Hp2. lia.
Qed.
Lemma kept_step c m steps m' st :
  numbered c [st] = [] → (∀ n, sm_next_seq m' !! c = Some n → sm_next_seq m !! c = Some n) → sm_highest_local m' = sm_highest_local m →
  kept c (m, steps) (m', steps ++ [st]).
Proof.
  intros Hst Hn Hl. split; [by eexists|]. cbn [fst snd]. intros Hh _. rewrite numbered_app, Hst, app_nil_r. by eapply history_meta.
Qed.
Lemma kept_conn c now item p : kept c p (plan_conn now item p).
Proof.
  destruct p as [m steps], item as [seq i]. unfold plan_conn. destruct (input_conn i) as [conn|] eqn:Hc; [|done]. destruct (is_next seq i conn m) eqn:Hn; [|done].
  split; [by eexists|]. cbn [fst snd]. intros Hh Hl. rewrite length_app in Hl. cbn [length] in Hl. pose proof (length_numbered c steps).
  rewrite numbered_app. unfold numbered at 2. cbn [omap list_omap]. pose proof (history_note c seq i conn m _ Hh ltac:(lia) Hc Hn) as H1. by destruct (decide (conn = c)).
Qed.
Lemma kept_items c now items p : kept c p (foldl (λ p item, plan_conn now item p) p items).
Proof. revert p. induction items as [|item items IH]; intros p; [done|]. cbn [foldl]. etrans; [apply kept_conn|apply IH]. Qed.
Lemma kept_drop c now p k : kept c p (plan_drop now p k).
Proof. destruct p as [m steps]. apply kept_step; [done| |done]. cbn. intros n. by intros [_ ?]%lookup_delete_Some. Qed.
Lemma kept_request c req p : kept c p (plan_request req p).
Proof.
  destruct p as [m steps]. unfold plan_request. set (now := N.max (rq_now req) (sm_last_now m)). set (m1 := m <| sm_last_now := now |>).
  set (p1 := if sm_started m1 then (m1, steps) else (m1 <| sm_started := true |>, steps ++ [Step.Start now])).
  assert (kept c (m, steps) p1) as Hp1. { unfold p1. destruct (sm_started m1); [|by apply kept_step]. split; [done|]. cbn [fst snd]. intros Hh _. by eapply history_meta; [| |exact Hh]. }
  etrans; [exact Hp1|]. destruct (rq_op req) as [seq i| |on|n up|items].
  - apply kept_conn.
  - destruct p1. by apply kept_step.
  - destruct p1. by apply kept_step.
  - generalize (filter (λ c, dropped n up c = true) (bt_iter (dom (sm_next_seq p1.1)))) as l. clearbody p1. clear Hp1. intros l. revert p1.
    induction l as [|k l IH]; intros p1; [done|]. cbn [foldl]. etrans; [apply kept_drop|apply IH].
  - apply kept_items.
Qed.
Lemma kept_plan {Sid Membership : Type} (index : Sid → N) (nodes : Membership → list NodeId) c entries p :
  kept c p.2 (plan index nodes entries p).2.
Proof.
  unfold plan. revert p. induction entries as [|ent entries IH]; intros p; [done|]. cbn [foldl]. etrans; [|apply IH].
  destruct p as [last p], ent as [id payload]. unfold plan_entry. destruct (match last with Some l => _ | None => _ end); [done|]. destruct payload as [|m|req]; [done| |apply kept_request].
  split; [done|]. cbn [fst snd]. intros Hh _. by eapply history_meta; [| |exact Hh].
Qed.
(** Resends name the same inputs: what is accepted of a connection is the
    start of what it sent. *)
Lemma accepted_prefix (H : list EngineInput) h :
  h.*1 = numbers (length h) → (∀ n i, (n, i) ∈ h → H !! N.to_nat (n - 1) = Some i) → h.*2 `prefix_of` H.
Proof.
  intros Hn Hh. exists (drop (length h) H). apply list_eq. intros k. destruct (decide (k < length h)) as [Hk|Hk].
  - rewrite lookup_app_l by (by rewrite length_fmap). apply lookup_lt_is_Some in Hk as [[n i] Hk]. rewrite list_lookup_fmap, Hk. cbn.
    assert (n = N.of_nat k + 1)%N as ->.
    { assert (h.*1 !! k = Some n) as H1 by (by rewrite list_lookup_fmap, Hk). rewrite Hn in H1. unfold numbers in H1. rewrite list_lookup_fmap in H1.
      apply fmap_Some in H1 as (x & Hx & ->). apply lookup_seq in Hx as [-> _]. lia. }
    rewrite <-(Hh (N.of_nat k + 1)%N i); [|by eapply list_elem_of_lookup_2]. f_equal. lia.
  - rewrite lookup_app_r, length_fmap, lookup_drop by (rewrite length_fmap; lia). f_equal. lia.
Qed.
(** ** Accepted inputs are inputs of the log *)
Definition op_items (op : RaftOp) : list (N * EngineInput) :=
  match op with RaftOp.Conn seq i => [(seq, i)] | RaftOp.Batch items => items | _ => [] end.
Definition log_items {Sid Membership : Type} (entries : list (Sid * EntryPayload Membership)) : list (N * EngineInput) :=
  entries ≫= λ ent, match ent.2 with EntryPayload.Normal req => op_items (rq_op req) | _ => [] end.
Definition takes (c : ConnId) (L : list (N * EngineInput)) (p p' : SmMeta * list Step) : Prop :=
  ∀ x, x ∈ numbered c p'.2 → x ∈ numbered c p.2 ∨ x ∈ L.
Lemma takes_trans c L p1 p2 p3 : takes c L p1 p2 → takes c L p2 p3 → takes c L p1 p3.
Proof. intros H1 H2 x [?|?]%H2; [by apply H1|by right]. Qed.
Lemma takes_step c L m steps m' st : numbered c [st] = [] → takes c L (m, steps) (m', steps ++ [st]).
Proof. intros Hst x. cbn [snd]. rewrite numbered_app, Hst, app_nil_r. by left. Qed.
Lemma takes_conn c L now item p : item ∈ L → takes c L p (plan_conn now item p).
Proof.
  destruct p as [m steps], item as [seq i]. intros Hi x. unfold plan_conn. destruct (input_conn i) as [conn|]; [|by left]. destruct (is_next seq i conn m); [|by left].
  cbn [snd]. rewrite numbered_app, elem_of_app. intros [?|Hx]; [by left|right]. unfold numbered in Hx. cbn in Hx. destruct (decide (conn = c)); [|by apply not_elem_of_nil in Hx].
  by apply list_elem_of_singleton in Hx as ->.
Qed.
Lemma takes_items c L now items p : items ⊆ L → takes c L p (foldl (λ p item, plan_conn now item p) p items).
Proof.
  revert p. induction items as [|item items IH]; intros p Hi; [by left|]. cbn [foldl]. eapply takes_trans; [apply takes_conn|apply IH]; set_solver.
Qed.
Lemma takes_request c req p : takes c (op_items (rq_op req)) p (plan_request req p).
Proof.
  destruct p as [m steps]. unfold plan_request. set (p1 := if sm_started _ then _ else _). set (L := op_items (rq_op req)).
  assert (takes c L (m, steps) p1) as Hp1 by (unfold p1; case_match; [by left|by apply takes_step]). eapply takes_trans; [exact Hp1|]. clearbody p1. unfold L. clear Hp1 L.
  destruct (rq_op req) as [seq i| |on|n up|items].
  - apply takes_conn. by left.
  - destruct p1. by apply takes_step.
  - destruct p1. by apply takes_step.
  - generalize (filter (λ c, dropped n up c = true) (bt_iter (dom (sm_next_seq p1.1)))) as l. intros l. revert p1.
    induction l as [|k l IH]; intros p1; [by left|]. cbn [foldl]. eapply takes_trans; [|apply IH]. destruct p1. by apply takes_step.
  - by apply takes_items.
Qed.
Lemma takes_plan {Sid Membership : Type} (index : Sid → N) (nodes : Membership → list NodeId) c entries p :
  takes c (log_items entries) p.2 (plan index nodes entries p).2.
Proof.
  unfold plan. revert p. induction entries as [|ent entries IH]; intros p; [by left|]. cbn [foldl].
  assert (∀ L L' p p', L ⊆ L' → takes c L p p' → takes c L' p p') as Hmono by (intros L L' q q' HL HT x [?|?]%HT; set_solver).
  unfold log_items. cbn [mbind list_bind]. fold (log_items entries). eapply takes_trans; [|eapply Hmono; [|apply IH]; set_solver].
  destruct p as [last p], ent as [id payload]. unfold plan_entry. destruct (match last with Some l => _ | None => _ end); [by left|].
  destruct payload as [|m|req]; [by left|by left|]. eapply Hmono; [|apply takes_request]. set_solver.
Qed.
