(* ===== verification/ClusterBatch.v ===== *)
(** * Batches of inputs

    The proposer groups the inputs that wait into entries of a bounded size
    ([split_batches], [next_batch]).  The grouping takes as many inputs as fit,
    and is not seen in the state: a batch does what its inputs do one by one. *)

From S2P Require Import Prelude Ms Proto Stats Parse Model Engine Seats Cluster.
From stdpp Require Import options.

Abbreviation Numbered := (N * EngineInput)%type (only parsing).
Definition batch_bytes (b : list Numbered) : N := foldr (λ item n, proposal_item_size item.2 + n)%N 0%N b.
(** An entry may have these inputs. *)
Definition fits (b : list Numbered) : Prop :=
  length b ≤ MAX_PROPOSAL_ITEMS ∧ ((batch_bytes b ≤ MAX_PROPOSAL_BYTES)%N ∨ length b ≤ 1).
Lemma batch_bytes_app b1 b2 : batch_bytes (b1 ++ b2) = (batch_bytes b1 + batch_bytes b2)%N.
Proof. induction b1 as [|item b1 IH]; [done|]. cbn [app batch_bytes foldr]. fold (batch_bytes (b1 ++ b2)) (batch_bytes b1). rewrite IH. lia. Qed.
Lemma fits_prefix b b' : b `prefix_of` b' → fits b' → fits b.
Proof. intros [k ->] [Hl Hb]. rewrite length_app in *. rewrite batch_bytes_app in Hb. split; lia. Qed.
(** The test of both loops: the next input does not fit. *)
Definition overflows (b : list Numbered) (item : Numbered) : bool :=
  negb (bool_decide (b = [])) && ((MAX_PROPOSAL_ITEMS <=? length b)%nat || (MAX_PROPOSAL_BYTES <? batch_bytes b + proposal_item_size item.2)%N).
Lemma overflows_fits b item : fits b → overflows b item = true ↔ ¬ fits (b ++ [item]).
Proof.
  intros [Hl Hb]. unfold overflows, fits. rewrite andb_true_iff, negb_true_iff, bool_decide_eq_false, orb_true_iff, Nat.leb_le, N.ltb_lt, length_app, batch_bytes_app.
  cbn [length batch_bytes foldr]. destruct b as [|x b]; [|cbn [length] in *; split; [intros [_ ?]|split; [done|]]; lia].
  split; [by intros [? _]|]. intros H. exfalso. apply H. split; [unfold MAX_PROPOSAL_ITEMS; cbn; lia|right; cbn; lia].
Qed.
Lemma take_batch_overflow b item items :
  overflows b item = true → take_batch (item :: items) b (batch_bytes b) = (b, item :: items).
Proof. destruct item as [seq i]. unfold overflows. intros H. cbn [take_batch snd] in *. by rewrite H. Qed.
Lemma take_batch_more b item items :
  overflows b item = false → take_batch (item :: items) b (batch_bytes b) = take_batch items (b ++ [item]) (batch_bytes (b ++ [item])).
Proof.
  destruct item as [seq i]. unfold overflows. intros H. cbn [take_batch snd] in *. rewrite H, batch_bytes_app. cbn [batch_bytes foldr snd]. by rewrite N.add_0_r.
Qed.
(** The batch is the longest prefix that fits. *)
Lemma take_batch_longest items b :
  fits b → let r := take_batch items b (batch_bytes b) in
  r.1 ++ r.2 = b ++ items ∧ b `prefix_of` r.1 ∧ fits r.1 ∧ ∀ b', b' `prefix_of` b ++ items → fits b' → length b' ≤ length r.1.
Proof.
  revert b. induction items as [|item items IH]; intros b Hb; cbv zeta.
  { split_and!; [done|done|done|]. cbn. rewrite app_nil_r. intros b' ?%prefix_length _. done. }
  destruct (overflows b item) eqn:Ho.
  - rewrite take_batch_overflow by done. split_and!; [done|done|done|]. cbn [fst]. intros b' [k Hk] Hf. apply (overflows_fits b item Hb) in Ho.
    destruct (decide (length b' ≤ length b)) as [|Hlt]; [done|]. exfalso. apply Ho. eapply fits_prefix; [|exact Hf].
    assert (b ++ [item] `prefix_of` b ++ item :: items) as H1 by (exists items; by rewrite <-app_assoc).
    destruct (prefix_weak_total _ _ _ H1 ltac:(by exists k)) as [H|H]; [done|]. apply prefix_length in H as H'. rewrite length_app in H'. cbn in H'.
    apply prefix_length_eq in H; [by rewrite H|]. rewrite length_app. cbn. lia.
  - rewrite take_batch_more by done. destruct (IH (b ++ [item])) as (H1 & H2 & H3 & H4).
    { destruct (decide (fits (b ++ [item]))); [done|]. by apply (overflows_fits b item Hb) in n; congruence. }
    rewrite <-app_assoc in H1, H4. split_and!; [done| |done|done]. etrans; [|done]. by exists [item].
Qed.
Lemma fits_nil : fits [].
Proof. split; cbn; lia. Qed.
(** Splitting is taking the next batch until nothing is left. *)
Lemma split_loop_take items b out :
  split_loop items out b (batch_bytes b) =
  let r := take_batch items b (batch_bytes b) in
  if bool_decide (r.1 = []) then out else if bool_decide (r.2 = []) then out ++ [r.1] else split_loop r.2 (out ++ [r.1]) [] 0.
Proof.
  revert b out. induction items as [|item items IH]; intros b out; cbv zeta.
  { cbn. by case_bool_decide. }
  destruct (overflows b item) eqn:Ho.
  - rewrite take_batch_overflow by done. cbn [fst snd]. pose proof Ho as Ho'. unfold overflows in Ho'. destruct item as [seq i].
    apply andb_true_iff in Ho' as Hne. destruct Hne as [Hne _]. apply negb_true_iff in Hne. rewrite Hne. cbn [split_loop snd] in *. rewrite Ho'.
    case_bool_decide; [done|]. cbn. by rewrite ?N.add_0_l.
  - rewrite take_batch_more by done. rewrite <-IH. unfold overflows in Ho. destruct item as [seq i]. cbn [split_loop snd] in *. rewrite Ho, batch_bytes_app.
    cbn [batch_bytes foldr snd]. by rewrite N.add_0_r.
Qed.
Lemma split_loop_out items out b n : split_loop items out b n = out ++ split_loop items [] b n.
Proof.
  revert out b n. induction items as [|[seq i] items IH]; intros out b n; cbn [split_loop]; [case_match; by rewrite ?app_nil_r|].
  case_match; [|apply IH]. rewrite IH, (IH [b]). by rewrite <-app_assoc.
Qed.
Lemma next_batch_nil items : (next_batch items).1 = [] ↔ items = [].
Proof.
  unfold next_batch. destruct items as [|item items]; [done|]. split; [|done]. intros H. exfalso. change 0%N with (batch_bytes []) in H.
  rewrite (take_batch_more [] item items) in H by done. destruct (take_batch_longest items ([] ++ [item])) as (_ & [k Hk] & _); [|by rewrite Hk in H].
  split; unfold MAX_PROPOSAL_ITEMS; cbn; lia.
Qed.
Lemma split_batches_next items :
  split_batches items = let r := next_batch items in if bool_decide (r.1 = []) then [] else r.1 :: split_batches r.2.
Proof.
  unfold split_batches. change 0%N with (batch_bytes []). rewrite split_loop_take. unfold next_batch. change (batch_bytes []) with 0%N. cbv zeta.
  case_bool_decide; [done|]. case_bool_decide as Hr; [by rewrite Hr|]. by rewrite split_loop_out.
Qed.
Lemma next_batch_longest items :
  let r := next_batch items in
  r.1 ++ r.2 = items ∧ fits r.1 ∧ ∀ b', b' `prefix_of` items → fits b' → length b' ≤ length r.1.
Proof. destruct (take_batch_longest items [] fits_nil) as (H1 & _ & H2 & H3). done. Qed.
Lemma split_batches_ind (P : list Numbered → list (list Numbered) → Prop) :
  P [] [] → (∀ items, items ≠ [] → P (next_batch items).2 (split_batches (next_batch items).2) → P items ((next_batch items).1 :: split_batches (next_batch items).2)) →
  ∀ items, P items (split_batches items).
Proof.
  intros H0 HS items. induction items as [items IH] using (induction_ltof1 _ length). destruct (decide (items = [])) as [->|Hne]; [done|].
  rewrite split_batches_next. cbv zeta. rewrite bool_decide_eq_false_2 by (by rewrite next_batch_nil). apply HS; [done|]. apply IH. unfold ltof.
  destruct (next_batch_longest items) as (H1 & _). rewrite <-H1 at 2. rewrite length_app. destruct (next_batch items).1 eqn:Hn; [|cbn; lia].
  destruct Hne. by apply next_batch_nil.
Qed.
Lemma concat_split_batches items : concat (split_batches items) = items.
Proof.
  apply (split_batches_ind (λ items bs, concat bs = items)); [done|]. intros l Hne IH. cbn [concat]. rewrite IH. apply (next_batch_longest l).
Qed.

(** ** What a batch does *)
Lemma apply_items_app node now l1 l2 s : (apply_items node now (l1 ++ l2) s).2 = (apply_items node now l2 (apply_items node now l1 s).2).2.
Proof.
  unfold apply_items. rewrite foldl_app. destruct (foldl _ (false, s) l1) as [any s']. cbn [snd]. generalize any, false. clear.
  revert s'. induction l2 as [|[seq i] l2 IH]; intros s' a1 a2; [done|]. cbn [foldl]. destruct (apply_conn node now seq i s'). apply IH.
Qed.
Lemma apply_conn_started node now seq i s : sm_started s.1.2 = true → let s' := (apply_conn node now seq i s).2 in sm_started s'.1.2 = true ∧ sm_last_now s'.1.2 = sm_last_now s.1.2.
Proof.
  destruct s as [[e m] ev]. unfold apply_conn. repeat case_match; by destruct i.
Qed.
Lemma apply_items_one node now seq i s : (apply_items node now [(seq, i)] s).2 = (apply_conn node now seq i s).2.
Proof. unfold apply_items. cbn [foldl]. by destruct (apply_conn node now seq i s). Qed.
Lemma apply_items_started node now items s :
  sm_started s.1.2 = true → let s' := (apply_items node now items s).2 in sm_started s'.1.2 = true ∧ sm_last_now s'.1.2 = sm_last_now s.1.2.
Proof.
  revert s. induction items as [|[seq i] items IH] using rev_ind; intros s Hs; [done|]. rewrite apply_items_app, apply_items_one.
  destruct (IH s Hs) as [H1 H2]. destruct (apply_conn_started node now seq i _ H1) as [H3 H4]. by rewrite H2 in H4.
Qed.
(** The clock moves and the engine starts, before the inputs of a request. *)
Definition begin (sh : Shared) (now : Nanos) (s : Sm) : Nanos * Sm :=
  let '(e, m, events) := s in
  let now := N.max now (sm_last_now m) in
  let m := m <| sm_last_now := now |> in
  (now, if sm_started m then (e, m, events) else (new_engine now sh, m <| sm_started := true |>, events)).
Lemma batch_begin sh now items s :
  (apply_request sh (mkRequest now (RaftOp.Batch items)) s).2 = (apply_items (sh_node sh) (begin sh now s).1 items (begin sh now s).2).2.
Proof.
  destruct s as [[e m] ev]. unfold apply_request, begin. cbn [rq_now rq_op fst snd]. destruct (sm_started _); by destruct (apply_items _ _ _ _).
Qed.
Lemma conn_begin sh now seq i s :
  (apply_request sh (mkRequest now (RaftOp.Conn seq i)) s).2 = (apply_items (sh_node sh) (begin sh now s).1 [(seq, i)] (begin sh now s).2).2.
Proof.
  destruct s as [[e m] ev]. unfold apply_request, begin, apply_items. cbn [rq_now rq_op fst snd foldl]. destruct (sm_started _); by destruct (apply_conn _ _ _ _ _).
Qed.
Lemma begin_started sh now s : sm_started (begin sh now s).2.1.2 = true ∧ sm_last_now (begin sh now s).2.1.2 = (begin sh now s).1.
Proof. destruct s as [[e m] ev]. unfold begin. cbn [fst snd]. destruct m as [[] ? ? ? ?]; done. Qed.
Lemma begin_again sh now n s : sm_started s.1.2 = true → sm_last_now s.1.2 = n → (now ≤ n)%N → begin sh now s = (n, s).
Proof. destruct s as [[e m] ev]. intros Hs <- Hn. unfold begin. cbn [fst snd] in *. rewrite N.max_r by done. destruct m. cbn in *. by rewrite Hs. Qed.
Lemma batch_app sh now b1 b2 s :
  (apply_request sh (mkRequest now (RaftOp.Batch b2)) (apply_request sh (mkRequest now (RaftOp.Batch b1)) s).2).2 =
  (apply_request sh (mkRequest now (RaftOp.Batch (b1 ++ b2))) s).2.
Proof.
  rewrite !batch_begin, apply_items_app. destruct (begin_started sh now s) as [H1 H2]. destruct (apply_items_started (sh_node sh) (begin sh now s).1 b1 _ H1) as [H3 H4].
  rewrite H2 in H4. rewrite (begin_again sh now _ _ H3 H4); [done|]. destruct s as [[e m] ev]. unfold begin. cbn [fst]. lia.
Qed.
Lemma batches_concat sh now b bs s :
  foldl (λ s b, (apply_request sh (mkRequest now (RaftOp.Batch b)) s).2) s (b :: bs) = (apply_request sh (mkRequest now (RaftOp.Batch (concat (b :: bs)))) s).2.
Proof.
  cbn [foldl concat]. revert b s. induction bs as [|b' bs IH]; intros b s; [cbn; by rewrite app_nil_r|]. cbn [foldl concat].
  rewrite IH, batch_app. done.
Qed.
Lemma singles_batch sh now item items s :
  foldl (λ s '(seq, i), (apply_request sh (mkRequest now (RaftOp.Conn seq i)) s).2) s (item :: items) = (apply_request sh (mkRequest now (RaftOp.Batch (item :: items))) s).2.
Proof.
  assert (item :: items = concat ([item] :: ((λ x, [x]) <$> items))) as Hc by (cbn; f_equal; induction items; cbn; by f_equal).
  rewrite Hc at 2. rewrite <-batches_concat. clear Hc. change ([item] :: ((λ x, [x]) <$> items)) with ((λ x, [x]) <$> item :: items).
  rewrite (foldl_fmap (λ s b, (apply_request sh (mkRequest now (RaftOp.Batch b)) s).2)). revert s. generalize (item :: items) as l.
  intros l. induction l as [|[seq i] l IH]; intros s; [done|]. cbn [foldl]. by rewrite IH, conn_begin, batch_begin.
Qed.

(** ** Batches of one owner *)
Definition owned (peer : NodeId) (item : Numbered) : Prop := ∀ c, input_conn item.2 = Some c → owner_of c = peer.
Lemma check_forward_owned peer req : check_forward peer req = true → Forall (owned peer) ((λ '(_, seq, input), (seq, input)) <$> fw_items req).
Proof.
  unfold check_forward. intros [[_ H1]%andb_true_iff H2]%andb_true_iff. rewrite forallb_forall in H1, H2. apply Forall_fmap, Forall_forall.
  intros [[k seq] i] Hin%list_elem_of_In c Hc. specialize (H1 _ Hin). specialize (H2 _ Hin). cbn in *. rewrite Hc in H2. apply N.eqb_eq in H1, H2. congruence.
Qed.
(** What of the state is not the peer's. *)
Definition others (peer : NodeId) (s s' : Sm) : Prop :=
  (∀ c, owner_of c ≠ peer → sm_next_seq s'.1.2 !! c = sm_next_seq s.1.2 !! c ∧ (c ∈ seats s'.1.1 ↔ c ∈ seats s.1.1)) ∧
  (∀ n, n ≠ peer → sm_highest_local s'.1.2 !! n = sm_highest_local s.1.2 !! n).
Lemma others_conn peer node now item s : owned peer item → others peer s (apply_conn node now item.1 item.2 s).2.
Proof.
  destruct item as [seq i], s as [[e m] ev]. intros Ho. unfold apply_conn. cbn [fst snd]. destruct (input_conn i) as [k|] eqn:Hk; [|by split].
  destruct (is_next seq i k m); [|by split]. pose proof (seats_input now i (e, [])) as Hs. destruct (apply_input now i (e, [])) as [e' out]. cbn [fst snd] in *.
  specialize (Ho k Hk). split.
  - intros c Hc. assert (c ≠ k) as Hne by congruence. cbn [fst snd]. rewrite Hs. destruct i as [x|x|x|x ?|x ?|x ?| |]; cbn in Hk; simplify_eq; cbn;
      rewrite ?lookup_insert_ne, ?lookup_delete_ne by done; (split; [done|]); set_solver.
  - intros n Hn. assert (n ≠ owner_of k) by congruence. destruct i; cbn; rewrite ?lookup_insert_ne by done; done.
Qed.
Lemma others_items peer node now items s : Forall (owned peer) items → others peer s (apply_items node now items s).2.
Proof.
  revert s. induction items as [|[seq i] items IH]; intros s Ho; [by split|]. inversion Ho as [|? ? Ho1 Ho2]; subst.
  change ((seq, i) :: items) with ([(seq, i)] ++ items). rewrite apply_items_app, apply_items_one.
  destruct (others_conn peer node now (seq, i) s Ho1) as [H1 H2], (IH (apply_conn node now seq i s).2 Ho2) as [H3 H4]. cbn [fst snd] in *. split.
  - intros c Hc. destruct (H1 c Hc) as [<- H5], (H3 c Hc) as [<- H6]. by rewrite H6.
  - intros n Hn. by rewrite H4, H2.
Qed.
Lemma apply_forwarded sh peer items now e m ev c n :
  Forall (owned peer) items → sm_started m = true → owner_of c ≠ peer → n ≠ peer →
  let s' := (apply_request sh (mkRequest now (RaftOp.Batch items)) (e, m, ev)).2 in
  sm_next_seq s'.1.2 !! c = sm_next_seq m !! c ∧ (c ∈ seats s'.1.1 ↔ c ∈ seats e) ∧ sm_highest_local s'.1.2 !! n = sm_highest_local m !! n.
Proof.
  intros Ho Hst Hc Hn. cbv zeta. rewrite batch_begin. destruct (others_items peer (sh_node sh) (begin sh now (e, m, ev)).1 items (begin sh now (e, m, ev)).2 Ho) as [H1 H2].
  destruct (H1 c Hc) as [-> H3]. rewrite H2, H3 by done. unfold begin. cbn [fst snd]. change (sm_started (m <| sm_last_now := N.max now (sm_last_now m) |>)) with (sm_started m).
  by rewrite Hst.
Qed.
