(* ===== verification/ClusterSnap.v ===== *)
(** * Snapshots of the replicated state

    What a node's state has after any log ([log_ok]), and that a snapshot of it
    is accepted by every node of the same configuration, which then agrees with
    the first. *)

From S2P Require Import Prelude Ms Proto Stats Parse Model Engine Frames Inv InvFrame InvRefresh Queues Moves Tubes.
From S2P Require Import Waiting Rest Dispatch ConnOps Commands Sessions Connect Tick Validate Snapshot Valid ValidInv Reach Start Serve.
From S2P Require Import Effects Keep Journal Seats StateSpec Cluster ClusterRun.
From stdpp Require Import options.

(** ** The log of an engine that keeps none *)
Definition quiet (e : Engine) : EngineConfig * option (list JournalEntry) :=
  (e_cfg e, if cfg_journal (e_cfg e) then None else Some (e_journal e)).
#[export] Instance still_quiet : Still quiet.
Proof.
  split; [split; [split; [split|..]|..]|split; [split; [split|..]|]|..]; intros; try done.
  all: unfold gc_tube_if_orphan, find_or_make_tube, journal_update, journal_put, journal_delete, quiet; repeat case_match; simplify_eq; try done.
  all: cbn in *; congruence.
Qed.
#[export] Instance sessionless_quiet : Sessionless quiet.
Proof. done. Qed.
Lemma quiet_new now sh : cfg_journal (sh_cfg sh) = false → quiet (new_engine now sh) = (sh_cfg sh, Some []).
Proof. intros Hj. unfold quiet. change (e_cfg (new_engine now sh)) with (sh_cfg sh). by rewrite Hj. Qed.
Lemma exec_quiet sh steps e :
  cfg_journal (sh_cfg sh) = false → quiet e = (sh_cfg sh, Some []) → quiet (exec sh steps e) = (sh_cfg sh, Some []).
Proof.
  intros Hj. revert e. induction steps as [|st steps IH]; intros e He; [done|]. apply IH. destruct st as [now|now tag i]; cbn [exec_step].
  - by apply quiet_new.
  - by rewrite (still_input quiet) by done.
Qed.

(** ** Logs with legal inputs *)
Fixpoint legal_steps (sh : Shared) (steps : list Step) (e : Engine) : bool :=
  match steps with
  | [] => true
  | st :: steps => match st with Step.Start _ => true | Step.Input now _ i => legal now i e end && legal_steps sh steps (exec_step sh e st)
  end.
Lemma wf_new now sh : wf_after 0 (new_engine now sh).
Proof.
  destruct (wf_initial now (sh_cfg sh) (sh_sys sh)) as (b & HI & Hb). exists b. split; [|done].
  apply Inv_Rest, (Rest_frame _ _ (Engine_new now (sh_cfg sh) (sh_sys sh))); [exact HI| |done|done]. intros g HC. by apply Core_local_conns.
Qed.
Lemma exec_wf sh steps n e :
  legal_steps sh steps e = true → (n + N.of_nat (length steps) ≤ run_limit)%N → wf_after n e → wf_after (n + N.of_nat (length steps)) (exec sh steps e).
Proof.
  revert n e. induction steps as [|st steps IH]; intros n e Hl Hn He; [by rewrite N.add_0_r|]. cbn [legal_steps length] in Hl, Hn |- *. apply andb_true_iff in Hl as [Hl Hls].
  replace (n + N.of_nat (S (length steps)))%N with (n + 1 + N.of_nat (length steps))%N by lia. apply IH; [done|lia|].
  destruct st as [now|now tag i]; cbn [exec_step].
  - eapply wf_after_le; [|apply wf_new]. lia.
  - apply wf_after_step; [done|lia|done].
Qed.

(** ** The membership a log has named *)
Lemma note_member seq i conn m : sm_highest_member (note_input seq i conn m) = sm_highest_member m.
Proof. by destruct i. Qed.
Lemma plan_conn_member now item p : sm_highest_member (plan_conn now item p).1 = sm_highest_member p.1.
Proof. destruct p as [m steps], item as [seq i]. unfold plan_conn. repeat case_match; try done. apply note_member. Qed.
Lemma plan_request_member req p : sm_highest_member (plan_request req p).1 = sm_highest_member p.1.
Proof.
  destruct p as [m steps]. unfold plan_request. set (p1 := if sm_started _ then _ else _).
  assert (sm_highest_member p1.1 = sm_highest_member m) as Hp by (unfold p1; by case_match). clearbody p1. cbn [fst]. rewrite <-Hp.
  destruct (rq_op req) as [seq i| |on|n up|items]; try done.
  - apply plan_conn_member.
  - generalize (filter (λ c, dropped n up c = true) (bt_iter (dom (sm_next_seq p1.1)))) as l. intros l. clear Hp. revert p1.
    induction l as [|k l IH]; intros p1; [done|]. cbn [foldl]. by rewrite IH.
  - clear Hp. revert p1. induction items as [|item items IH]; intros p1; [done|]. cbn [foldl]. by rewrite IH, plan_conn_member.
Qed.
Lemma max_member m n : (n ≤ sm_highest_member m)%N → m <| sm_highest_member ::= (λ h, N.max h n) |> = m.
Proof. intros H. destruct m as [a l ns hl h]. change (mkSmMeta a l ns hl (N.max h n) = mkSmMeta a l ns hl h). cbn in H. f_equal. lia. Qed.
Section snap.
Context {Sid Membership : Type} (index : Sid → N) (nodes : Membership → list NodeId).
#[local] Abbreviation Core := (Core Sid Membership).
Implicit Types (c : Core).
Definition member_ok c : Prop := (highest_node nodes (cr_membership c).2 ≤ sm_highest_member (cr_meta c))%N.
Lemma apply_entry_member sh e0 ent c ev p :
  follows sh e0 (cr_engine c, cr_meta c, ev) p → member_ok c → member_ok (apply_entry index nodes sh ent (c, ev)).2.1.
Proof.
  intros Hf Hm. unfold apply_entry. destruct ent as [id payload]. destruct (match cr_last_applied c with Some l => _ | None => _ end); [done|].
  destruct payload as [|m|req]; [done|unfold member_ok; cbn; lia|].
  pose proof (follows_request sh e0 req (cr_engine c, cr_meta c, ev) p Hf) as (H & _). pose proof (plan_request_member req p) as H2. destruct Hf as (Hp & _).
  destruct (apply_request sh req _) as [d [[e m] ev']]. unfold member_ok in *. cbn [fst snd cr_meta cr_membership] in *. by rewrite H, H2, <-Hp.
Qed.

(** ** A node from the start of its log *)
Definition opened sh (none : Membership) : Core := mkCore (new_engine 0 sh) SmMeta_default None (None, none).
Definition replayed sh none entries : Core := (apply index nodes sh entries (opened sh none)).2.1.
Definition planned entries : SmMeta * list Step := (plan index nodes entries (None, (SmMeta_default, []))).2.
Lemma replayed_follows sh none entries ev :
  follows sh (new_engine 0 sh) (cr_engine (replayed sh none entries), cr_meta (replayed sh none entries), ev) (planned entries).
Proof. apply (apply_follows index nodes sh (new_engine 0 sh) entries (opened sh none)). split_and!; [done|done|]. split; [|done]. done. Qed.
Lemma replayed_member sh none entries : nodes none = [] → member_ok (replayed sh none entries).
Proof.
  intros Hn. induction entries as [|ent entries IH] using rev_ind; [unfold member_ok, highest_node; cbn; by rewrite Hn|].
  pose proof (replayed_follows sh none entries) as Hf. unfold replayed, apply in *. rewrite foldl_app. cbn [foldl].
  destruct (foldl (apply_next index nodes sh) _ entries) as [res [c ev]]. cbn [fst snd] in *. unfold apply_next. cbn [fst snd].
  pose proof (apply_entry_member sh _ ent c ev _ (Hf ev) IH) as H. by destruct (apply_entry _ _ _ _ _).
Qed.
Lemma planned_history entries k :
  (N.of_nat (length (planned entries).2) + 2 < 2 ^ 64)%N → history k (planned entries).1 (numbered k (planned entries).2).
Proof. apply (kept_plan index nodes k entries (None, (SmMeta_default, []))). by split. Qed.
Lemma history_meta_ok m : (∀ k, ∃ h, history k m h) → map_Forall (λ k seq, conn_meta_ok m k seq = true) (sm_next_seq m).
Proof.
  intros Hh k n Hn. destruct (Hh k) as [h [_ _ Hnext _ _ Hloc]]. destruct (Hnext n Hn) as [Hne ->]. destruct (Hloc Hne) as (hl & Hhl & Hle). unfold conn_meta_ok.
  rewrite Hhl. apply andb_true_iff. split; apply N.leb_le; [|done]. destruct h; [done|cbn; lia].
Qed.

(** ** A snapshot is accepted *)
Definition moved sh c : Core :=
  mkCore (special (sh_sys sh) (Some (local_conns (sh_node sh))) (cr_engine c)) (cr_meta c) (cr_last_applied c) (cr_membership c).
Lemma moved_agree sh c : agree (moved sh c) c.
Proof. split_and!; [|done..]. apply common_special. Qed.
Lemma restore_moved sh c b :
  Inv b (cr_engine c) → slab_limits (cr_engine c) → (cur_conns (e_cc (cr_engine c)) ≤ tot_conns (e_cc (cr_engine c)))%N →
  quiet (cr_engine c) = (sh_cfg sh, Some []) → cfg_journal (sh_cfg sh) = false → tied (cr_engine c) (cr_meta c) →
  map_Forall (λ k seq, conn_meta_ok (cr_meta c) k seq = true) (sm_next_seq (cr_meta c)) → member_ok c →
  restore_from nodes (sn_payload (build_snapshot c)) sh (cr_membership c) = Some (cr_engine (moved sh c), cr_meta c).
Proof.
  intros HI Hl Hcc Hq Hj [Hd Hs] Hok Hm. unfold quiet in Hq. injection Hq as Hcfg Hjo. unfold restore_from, build_snapshot. cbn [sn_payload]. unfold check_restored.
  rewrite (Inv_round_trip b (cr_engine c) (sh_sys sh) HI Hl Hcc). cbn [mbind option_bind].
  set (e := set_local_conns _ _). assert (e = cr_engine (moved sh c)) as ->.
  { unfold e, moved, special, set_local_conns, reimported. rewrite Hcfg, Hj in Hjo. destruct (cr_engine c). cbn in Hjo. by simplify_eq/=. }
  change (e_cfg (cr_engine (moved sh c))) with (e_cfg (cr_engine c)). change (conn_ids (cr_engine (moved sh c))) with (conn_ids (cr_engine c)).
  rewrite Hcfg, N.eqb_refl, Hj. unfold conn_ids. fold (seats (cr_engine c)). rewrite <-Hd, (bool_decide_eq_true_2 (bt_iter _ = bt_iter _)), (bool_decide_eq_true_2 (map_Forall _ _)) by done.
  assert (sm_started (cr_meta c) || bool_decide (bt_iter (dom (sm_next_seq (cr_meta c))) = []) = true) as ->.
  { destruct (sm_started (cr_meta c)); [done|]. rewrite Hs by done. done. }
  cbn [negb andb mbind option_bind]. do 2 f_equal. unfold member_ok in Hm. by apply max_member.
Qed.
Lemma install_moved sh c d :
  restore_from nodes (sn_payload (build_snapshot c)) sh (cr_membership c) = Some (cr_engine (moved sh c), cr_meta c) →
  ∃ evs, install_snapshot nodes (build_snapshot c) sh d = Some (moved sh c, evs).
Proof. intros H. unfold install_snapshot. cbn [build_snapshot sn_last_membership] in *. rewrite H. cbn. by eexists. Qed.
Lemma replayed_restored sh sh' none entries :
  let c := replayed sh none entries in
  sh_cfg sh' = sh_cfg sh → cfg_journal (sh_cfg sh) = false → nodes none = [] →
  legal_steps sh (planned entries).2 (new_engine 0 sh) = true → (N.of_nat (length (planned entries).2) ≤ run_limit)%N →
  slab_limits (cr_engine c) → (cur_conns (e_cc (cr_engine c)) ≤ tot_conns (e_cc (cr_engine c)))%N →
  restore_from nodes (sn_payload (build_snapshot c)) sh' (cr_membership c) = Some (cr_engine (moved sh' c), cr_meta c).
Proof.
  intros c Hcfg Hj Hn Hl Hlen Hsl Hcc. destruct (replayed_follows sh none entries []) as (Hm & He & Ht). cbn [fst snd] in *.
  destruct (exec_wf sh _ 0 _ Hl ltac:(lia) (wf_new 0 sh)) as (b & HI & _). rewrite <-He in HI. apply (restore_moved sh' c b); try done.
  - unfold c. rewrite He, Hcfg. by apply exec_quiet, quiet_new.
  - by rewrite Hcfg.
  - unfold c. rewrite Hm. apply history_meta_ok. intros k. eexists. apply planned_history. unfold run_limit in Hlen. lia.
  - by apply replayed_member.
Qed.
End snap.
