(* ===== verification/ConnIds.v ===== *)
(** * Connection numbers

    A node numbers its connections in blocks that it reserves in a file before
    it uses them ([server/cluster/durable.rs]).  [IdEvent] is what happens to a
    node over time: a process starts, or takes a number; the process may end at
    any time, and every write of the file may fail. *)

From S2P Require Import Prelude Ms Proto Stats Parse Model Engine Cluster.
From stdpp Require Import options.

(** A process starts: the rest of the start of [cluster/mod.rs], after the
    file was read. *)
Definition start_ids (node : NodeId) (highest unix_secs : N) (w : WriteResult) (file : option N) : option N * option ConnIdBlocks :=
  match first_local file highest unix_secs with
  | None => (file, None)
  | Some first =>
      let '(ok, b) := ConnIdBlocks_open node first CONN_ID_BLOCK file w in
      (id_file b, if ok then Some b else None)
  end.
Module IdEvent.
Inductive IdEvent := Start (highest unix_secs : N) (w : WriteResult) | Next (w : WriteResult).
End IdEvent.
Abbreviation IdEvent := IdEvent.IdEvent (only parsing).
(** The file, the process if there is one, and the numbers that were given
    with their ids, the last one last. *)
Abbreviation Ids := (option N * option ConnIdBlocks * list (N * ConnId))%type (only parsing).
Definition ids_step (node : NodeId) (s : Ids) (ev : IdEvent) : Ids :=
  let '(file, p, given) := s in
  match ev, p with
  | IdEvent.Start highest secs w, _ => (start_ids node highest secs w file, given)
  | IdEvent.Next _, None => s
  | IdEvent.Next w, Some b =>
      let '(c, b') := ConnIdBlocks_next w b in
      (id_file b', Some b', match c with Some c => given ++ [(id_next b, c)] | None => given end)
  end.
Definition ids_run (node : NodeId) (evs : list IdEvent) : Ids := foldl (ids_step node) (None, None, []) evs.

(** The numbers given are below the file's and in order. *)
Record ids_ok (node : NodeId) (s : Ids) : Prop := {
  io_sorted : StronglySorted N.lt s.2.*1;
  io_ids : Forall (λ x, x.2 = conn_id node x.1) s.2;
  io_file : Forall (λ n, n < default 0 s.1.1)%N s.2.*1;
  io_live b : s.1.2 = Some b →
    id_node b = node ∧ id_block b = CONN_ID_BLOCK ∧ id_file b = s.1.1 ∧ (id_next b ≤ id_limit b ≤ default 0 s.1.1)%N ∧ Forall (λ n, n < id_next b)%N s.2.*1;
}.
Lemma reserve_cases w b ok b' :
  reserve_block w b = (ok, b') → id_block b = CONN_ID_BLOCK →
  id_node b' = id_node b ∧ id_next b' = id_next b ∧ id_block b' = CONN_ID_BLOCK ∧
  (id_limit b' = id_limit b ∧ id_file b' = id_file b ∧ ok = false ∨
   ∃ limit, id_file b' = Some limit ∧ (id_next b < limit)%N ∧ id_limit b' = (if ok then limit else id_limit b)).
Proof.
  unfold reserve_block. intros H Hb. destruct (N.leb_spec (N.shiftl 1 CONN_SEQ_BITS) (id_next b)) as [|Hlt]; [simplify_eq; naive_solver|].
  change (N.shiftl 1 CONN_SEQ_BITS) with (2 ^ 48)%N in Hlt. assert (id_next b < sat_add64 (id_next b) (id_block b))%N as Hl.
  { rewrite Hb. unfold sat_add64. change CONN_ID_BLOCK with 65536%N. unfold u64_max. lia. }
  destruct w as [|[]]; simplify_eq; cbn; split_and!; try done; [right|right|left]; by eauto.
Qed.
Lemma ids_ok_start node highest secs w s : ids_ok node s → ids_ok node (ids_step node s (IdEvent.Start highest secs w)).
Proof.
  destruct s as [[file p] given]. intros [Hs Hi Hf _]. unfold ids_step, start_ids. destruct (first_local file highest secs) as [first|] eqn:Hfi; [|by split].
  assert (default 0 file ≤ first)%N as Hle by (unfold first_local in Hfi; repeat case_match; simplify_eq; lia).
  unfold ConnIdBlocks_open. destruct (reserve_block w _) as [ok b'] eqn:Hr. apply reserve_cases in Hr as (Hn & Hx & Hb & Hc); [|done].
  cbn [id_node id_next id_limit id_file fst snd] in *. assert (Forall (λ n, n < first)%N given.*1) as Hg by (eapply Forall_impl; [done|cbn; lia]).
  destruct Hc as [(Hl & Hfile & ->)|(limit & Hfile & Hlt & Hl)]; rewrite Hfile; [by split|]. split; cbn [fst snd default].
  - done.
  - done.
  - eapply Forall_impl; [exact Hg|]. cbn. lia.
  - destruct ok; [|done]. intros b [= <-]. rewrite Hn, Hx, Hl, Hb, Hfile. split_and!; try done; lia.
Qed.
Lemma ids_ok_next node w s : ids_ok node s → ids_ok node (ids_step node s (IdEvent.Next w)).
Proof.
  destruct s as [[file [b|]] given]; [|done]. intros [Hs Hi Hf Hlive]. cbn [ids_step]. unfold ConnIdBlocks_next.
  destruct (Hlive b eq_refl) as (Hn & Hb & Hfile & [Hx Hl] & Hg). cbn [fst snd] in *.
  assert (∃ ok b', (if (id_limit b <=? id_next b)%N then reserve_block w b else (true, b)) = (ok, b') ∧
    id_node b' = node ∧ id_block b' = CONN_ID_BLOCK ∧ id_next b' = id_next b ∧ (id_limit b' ≤ default 0 (id_file b'))%N ∧ (id_next b ≤ default 0 (id_file b'))%N ∧
    if ok then (id_next b < id_limit b')%N else (id_next b ≤ id_limit b')%N) as (ok & b' & -> & Hn' & Hb' & Hx' & Hl' & Hxf & Hok).
  { destruct (N.leb_spec (id_limit b) (id_next b)) as [Hle|Hgt].
    - destruct (reserve_block w b) as [ok b'] eqn:Hr. apply reserve_cases in Hr as (Hn' & Hx' & Hb' & Hc); [|done]. exists ok, b'.
      rewrite Hn', Hx'. destruct Hc as [(-> & -> & ->)|(limit & -> & Hlt & ->)]; [rewrite Hfile; split_and!; try done; lia|]. cbn. split_and!; try done; destruct ok; lia.
    - exists true, b. rewrite Hfile. split_and!; try done; lia. }
  assert (Forall (λ n, n < default 0 (id_file b'))%N given.*1) as Hgf by (eapply Forall_impl; [exact Hg|cbn; lia]).
  destruct ok; split; cbn [fst snd id_file]; rewrite ?fmap_app; try done.
  - rewrite StronglySorted_app. split_and!; [|done|by repeat constructor]. intros x1 x2 Hx1 ->%list_elem_of_singleton. by eapply Forall_forall in Hg.
  - apply Forall_app. split; [done|]. constructor; [|done]. cbn. by rewrite Hn', Hx'.
  - apply Forall_app. split; [done|]. constructor; [cbn; lia|done].
  - intros ? [= <-]. cbn [id_node id_block id_file id_next id_limit]. rewrite Hx'. split_and!; try done; [lia|]. apply Forall_app. split; [eapply Forall_impl; [exact Hg|cbn; lia]|]. constructor; [cbn; lia|done].
  - intros ? [= <-]. rewrite Hx'. split_and!; try done; lia.
Qed.
Lemma ids_run_ok node evs : ids_ok node (ids_run node evs).
Proof.
  unfold ids_run. induction evs as [|ev evs IH] using rev_ind; [split; [constructor..|done]|]. rewrite foldl_app. cbn [foldl].
  destruct ev; [by apply ids_ok_start|by apply ids_ok_next].
Qed.

(** ** The ids of the numbers *)
Lemma conn_id_parts node local :
  (node ≤ MAX_NODE_ID)%N → (local < 2 ^ 48)%N → owner_of (conn_id node local) = node ∧ local_of (conn_id node local) = local.
Proof.
  intros Hn Hl. unfold conn_id, owner_of, local_of, CONN_SEQ_BITS, MAX_NODE_ID in *. change (N.shiftl 1 48 - 1)%N with (N.ones 48).
  assert (wrap64 (N.shiftl node 48) = N.shiftl node 48) as ->.
  { unfold wrap64. apply N.mod_small. rewrite N.shiftl_mul_pow2. change (2 ^ 64)%N with (2 ^ 16 * 2 ^ 48)%N. apply N.mul_lt_mono_pos_r; lia. }
  assert (∀ b, (48 ≤ b)%N → N.testbit local b = false) as Hb.
  { intros b Hb. rewrite <-(N.mod_small local (2 ^ 48)) by done. by apply N.mod_pow2_bits_high. }
  split; apply N.bits_inj; intros b.
  - rewrite N.shiftr_spec, N.lor_spec, N.shiftl_spec_high by lia. rewrite Hb by lia. rewrite orb_false_r. f_equal. lia.
  - rewrite N.land_spec, N.lor_spec. destruct (N.lt_ge_cases b 48) as [Hlt|Hge].
    + rewrite N.shiftl_spec_low, N.ones_spec_low by done. by rewrite andb_true_r.
    + by rewrite N.ones_spec_high, andb_false_r, Hb.
Qed.
Lemma conn_id_inj node1 node2 l1 l2 :
  (node1 ≤ MAX_NODE_ID)%N → (node2 ≤ MAX_NODE_ID)%N → (l1 < 2 ^ 48)%N → (l2 < 2 ^ 48)%N →
  conn_id node1 l1 = conn_id node2 l2 → node1 = node2 ∧ l1 = l2.
Proof.
  intros H1 H2 H3 H4 H. destruct (conn_id_parts node1 l1 H1 H3) as [Ho1 Hl1], (conn_id_parts node2 l2 H2 H4) as [Ho2 Hl2].
  rewrite H in Ho1, Hl1. split; congruence.
Qed.
Lemma ids_nodup node (given : list (N * ConnId)) :
  (node ≤ MAX_NODE_ID)%N → StronglySorted N.lt given.*1 → Forall (λ x, x.2 = conn_id node x.1) given → Forall (λ l, l < 2 ^ 48)%N given.*1 → NoDup given.*2.
Proof.
  intros Hn. induction given as [|[l c] given IH]; intros Hs Hi Hl; [constructor|]. inversion Hs as [|? ? Hs1 Hs2]; inversion Hi as [|? ? Hi1 Hi2]; inversion Hl as [|? ? Hl1 Hl2]; subst.
  constructor; [|by apply IH]. intros ([l' c'] & Hc & Hin)%list_elem_of_fmap. cbn in *. assert (l' ∈ given.*1) as Hl' by (apply list_elem_of_fmap; by exists (l', c')).
  eapply Forall_forall in Hi2; [|exact Hin]. eapply Forall_forall in Hs2; [|exact Hl']. eapply Forall_forall in Hl2; [|exact Hl']. cbn in *.
  assert (conn_id node l = conn_id node l') as Heq by congruence. apply conn_id_inj in Heq as [_ ?]; [|done..]. lia.
Qed.
