(* ===== verification/Forward.v ===== *)
(** * The owner of a cluster node's connections

    In a cluster the engine actor of a node owns no engine: it numbers the
    inputs of its connections, queues them, and sends the queue to the leader
    until each input is applied ([server/cluster/actor.rs]); [Clients] is the
    node's register of connections ([server/cluster/mod.rs]).  One turn of the
    task is [turn].  Times are arguments: [en_now] is the [Instant] of the turn,
    in nanoseconds; [Env] also has what the turn reads of the rest of the node:
    the consensus library's metrics and the applied state. *)

From S2P Require Import Prelude Ms Proto Stats Parse Model Engine Actor Cluster.
From stdpp Require Import options.

Definition millis (n : N) : N := n * 1000000.
Definition STALL_RESEND : N := 2 * NANOS_PER_SEC.
Definition STALL_RESEND_MAX : N := 30 * NANOS_PER_SEC.
Definition RETRY_PAUSE : N := millis 50.
Definition MAX_BATCH_ITEMS : nat := 1024.
Definition MAX_BATCH_BYTES : N := N.shiftl 4 20.
Definition MAX_QUEUE_ITEMS : N := 100000.
Definition MAX_QUEUE_BYTES : N := N.shiftl 128 20.
Definition MAX_DRAIN : nat := 1024.
Definition ping_interval (node_timeout : N) : N := N.min (N.max (node_timeout / 4) (millis 50)) NANOS_PER_SEC.

(** ** The queue *)
Record Item := mkItem { it_conn : ConnId; it_seq : N; it_input : EngineInput; it_size : N; it_sends : N; it_pass : N }.
Record AppliedOutcome := mkAppliedOutcome { ao_found : bool; ao_front : bool; ao_dropped_before : bool }.
Definition AppliedOutcome_default : AppliedOutcome := mkAppliedOutcome false false false.
Record ForwardQueue := mkForwardQueue { fq_items : list Item; fq_cursor : nat; fq_pass : N; fq_bytes : N; fq_resent : N }.
Definition ForwardQueue_default : ForwardQueue := mkForwardQueue [] 0 0 0 0.
Definition queue_len (q : ForwardQueue) : nat := length (fq_items q).
Definition queue_is_empty (q : ForwardQueue) : bool := bool_decide (fq_items q = []).
Definition queue_full (q : ForwardQueue) : bool :=
  (MAX_QUEUE_ITEMS <=? N.of_nat (length (fq_items q)))%N || (MAX_QUEUE_BYTES <=? fq_bytes q)%N.
Definition has_unsent (q : ForwardQueue) : bool := (fq_cursor q <? length (fq_items q))%nat.
Definition item_size (input : EngineInput) : N :=
  64 + match input with EngineInput.Command _ (Command.Put _ _ _ body) => N.of_nat (length body) | _ => 0 end.
Definition queue_push (conn : ConnId) (seq : N) (input : EngineInput) (q : ForwardQueue) : ForwardQueue :=
  let size := item_size input in
  mkForwardQueue (fq_items q ++ [mkItem conn seq input size 0 0]) (fq_cursor q) (fq_pass q) (fq_bytes q + size) (fq_resent q).
Definition queue_rewind (q : ForwardQueue) : ForwardQueue :=
  mkForwardQueue (fq_items q) 0 (incr64 (fq_pass q)) (fq_bytes q) (fq_resent q).
Definition sent_item (pass : N) (it : Item) : Item :=
  mkItem (it_conn it) (it_seq it) (it_input it) (it_size it) (N.min (it_sends it + 1) (2 ^ 32 - 1)) pass.
Definition send_next (q : ForwardQueue) : option (Item * ForwardQueue) :=
  it ← fq_items q !! fq_cursor q;
  let it' := sent_item (fq_pass q) it in
  Some (it', mkForwardQueue (<[fq_cursor q := it']> (fq_items q)) (S (fq_cursor q)) (fq_pass q) (fq_bytes q)
               (if (0 <? it_sends it)%N then incr64 (fq_resent q) else fq_resent q)).
Definition peek_unsent (q : ForwardQueue) : option Item := fq_items q !! fq_cursor q.
(** [Iterator::position] *)
Fixpoint position (f : Item → bool) (l : list Item) : option nat :=
  match l with
  | [] => None
  | x :: l => if f x then Some 0 else S <$> position f l
  end.
Definition is_item (conn : ConnId) (seq : N) (it : Item) : bool := (it_conn it =? conn)%N && (it_seq it =? seq)%N.
Definition queue_applied (conn : ConnId) (seq : N) (q : ForwardQueue) : AppliedOutcome * ForwardQueue :=
  let pos :=
    match head (fq_items q) with
    | Some f => if is_item conn seq f then Some 0 else position (is_item conn seq) (fq_items q)
    | None => position (is_item conn seq) (fq_items q)
    end in
  match pos with
  | None => (AppliedOutcome_default, q)
  | Some pos =>
      match fq_items q !! pos with
      | None => (AppliedOutcome_default, q)
      | Some it =>
          let dropped_before := (0 <? pos)%nat && (it_sends it =? 1)%N &&
            existsb (λ j, (0 <? it_sends j)%N && (it_pass j =? it_pass it)%N) (take pos (fq_items q)) in
          (mkAppliedOutcome true (pos =? 0)%nat dropped_before,
           mkForwardQueue (delete pos (fq_items q)) (if (pos <? fq_cursor q)%nat then pred (fq_cursor q) else fq_cursor q)
             (fq_pass q) (fq_bytes q - it_size it) (fq_resent q))
      end
  end.
Definition queue_retain (keep : Item → bool) (q : ForwardQueue) : ForwardQueue :=
  mkForwardQueue (filter (λ it, keep it = true) (fq_items q)) 0 (fq_pass q)
    (foldl (λ b it, if keep it then b else b - it_size it)%N (fq_bytes q) (fq_items q)) (fq_resent q).

(** ** The connections of the node *)
Record Clients := mkClients { cl_replies : gset ConnId; cl_closers : gset ConnId; cl_admitting : bool; cl_refused : N }.
Definition Clients_new : Clients := mkClients ∅ ∅ true 0.
Definition clients_admit (c : Clients) : bool * Clients :=
  if cl_admitting c then (true, c) else (false, mkClients (cl_replies c) (cl_closers c) (cl_admitting c) (incr64 (cl_refused c))).
Definition set_admitting (on : bool) (c : Clients) : Clients := mkClients (cl_replies c) (cl_closers c) on (cl_refused c).
Definition register_closer (conn : ConnId) (c : Clients) : Clients :=
  mkClients (cl_replies c) ({[conn]} ∪ cl_closers c) (cl_admitting c) (cl_refused c).
(** Closing tells these connections' tasks to close their sockets. *)
Definition clients_close (conn : ConnId) (c : Clients) : list ConnId * Clients :=
  (if decide (conn ∈ cl_closers c) then [conn] else [], mkClients (cl_replies c) (cl_closers c ∖ {[conn]}) (cl_admitting c) (cl_refused c)).
Definition close_all (c : Clients) : list ConnId * Clients :=
  (elements (cl_closers c), mkClients (cl_replies c) ∅ (cl_admitting c) (cl_refused c)).
Definition clients_insert (conn : ConnId) (c : Clients) : Clients :=
  mkClients ({[conn]} ∪ cl_replies c) (cl_closers c) (cl_admitting c) (cl_refused c).
Definition clients_remove (conn : ConnId) (c : Clients) : Clients :=
  mkClients (cl_replies c ∖ {[conn]}) (cl_closers c ∖ {[conn]}) (cl_admitting c) (cl_refused c).
Definition clients_holds (conn : ConnId) (c : Clients) : bool := bool_decide (conn ∈ cl_replies c).
Definition clients_count (c : Clients) : nat := size (cl_replies c).

(** ** The actor *)
(** What its [Status] counters say. *)
Record FwStatus := mkFwStatus {
  fs_isolated : bool; fs_queue_len : N; fs_queue_bytes : N; fs_queue_full : bool; fs_rejected_puts : N; fs_resent_items : N;
  fs_rewinds_view : N; fs_rewinds_error : N; fs_rewinds_stall : N; fs_rewinds_dropped : N;
}.
#[export] Instance eta_FwStatus : Eta FwStatus := λ r,
  mkFwStatus (fs_isolated r) (fs_queue_len r) (fs_queue_bytes r) (fs_queue_full r) (fs_rejected_puts r) (fs_resent_items r)
    (fs_rewinds_view r) (fs_rewinds_error r) (fs_rewinds_stall r) (fs_rewinds_dropped r).
#[export] Instance fs_isolated_set : Setter fs_isolated := ltac:(derive_setter).
#[export] Instance fs_queue_len_set : Setter fs_queue_len := ltac:(derive_setter).
#[export] Instance fs_queue_bytes_set : Setter fs_queue_bytes := ltac:(derive_setter).
#[export] Instance fs_queue_full_set : Setter fs_queue_full := ltac:(derive_setter).
#[export] Instance fs_rejected_puts_set : Setter fs_rejected_puts := ltac:(derive_setter).
#[export] Instance fs_resent_items_set : Setter fs_resent_items := ltac:(derive_setter).
#[export] Instance fs_rewinds_view_set : Setter fs_rewinds_view := ltac:(derive_setter).
#[export] Instance fs_rewinds_error_set : Setter fs_rewinds_error := ltac:(derive_setter).
#[export] Instance fs_rewinds_stall_set : Setter fs_rewinds_stall := ltac:(derive_setter).
#[export] Instance fs_rewinds_dropped_set : Setter fs_rewinds_dropped := ltac:(derive_setter).
(** The task: its [Actor], its register of clients, its counters, and whether
    a forward is in flight. *)
Record Owner := mkOwner {
  ow_seqs : gmap ConnId N;
  ow_queue : ForwardQueue;
  ow_front_since : N;
  ow_stall_after : N;
  ow_retry_at : option N;
  ow_hint : option NodeId;
  ow_view : option NodeId * N;
  ow_last_leader_ok : N;
  ow_last_ping : option N;
  ow_ping_every : N;
  ow_unreachable_since : option N;
  ow_isolated : bool;
  ow_was_started : bool;
  ow_last_drop_resend : option N;
  ow_shutdown : option N;
  ow_inflight : option NodeId;
  ow_clients : Clients;
  ow_status : FwStatus;
}.
#[export] Instance eta_Owner : Eta Owner := λ r,
  mkOwner (ow_seqs r) (ow_queue r) (ow_front_since r) (ow_stall_after r) (ow_retry_at r) (ow_hint r) (ow_view r) (ow_last_leader_ok r)
    (ow_last_ping r) (ow_ping_every r) (ow_unreachable_since r) (ow_isolated r) (ow_was_started r) (ow_last_drop_resend r) (ow_shutdown r)
    (ow_inflight r) (ow_clients r) (ow_status r).
#[export] Instance ow_seqs_set : Setter ow_seqs := ltac:(derive_setter).
#[export] Instance ow_queue_set : Setter ow_queue := ltac:(derive_setter).
#[export] Instance ow_front_since_set : Setter ow_front_since := ltac:(derive_setter).
#[export] Instance ow_stall_after_set : Setter ow_stall_after := ltac:(derive_setter).
#[export] Instance ow_retry_at_set : Setter ow_retry_at := ltac:(derive_setter).
#[export] Instance ow_hint_set : Setter ow_hint := ltac:(derive_setter).
#[export] Instance ow_view_set : Setter ow_view := ltac:(derive_setter).
#[export] Instance ow_last_leader_ok_set : Setter ow_last_leader_ok := ltac:(derive_setter).
#[export] Instance ow_last_ping_set : Setter ow_last_ping := ltac:(derive_setter).
#[export] Instance ow_unreachable_since_set : Setter ow_unreachable_since := ltac:(derive_setter).
#[export] Instance ow_isolated_set : Setter ow_isolated := ltac:(derive_setter).
#[export] Instance ow_was_started_set : Setter ow_was_started := ltac:(derive_setter).
#[export] Instance ow_last_drop_resend_set : Setter ow_last_drop_resend := ltac:(derive_setter).
#[export] Instance ow_shutdown_set : Setter ow_shutdown := ltac:(derive_setter).
#[export] Instance ow_inflight_set : Setter ow_inflight := ltac:(derive_setter).
#[export] Instance ow_clients_set : Setter ow_clients := ltac:(derive_setter).
#[export] Instance ow_status_set : Setter ow_status := ltac:(derive_setter).

(** What a turn does to the rest: sockets to close, items for the proposer of
    this node, a forward to another, a drain request, a monitoring view, the
    end of a shutdown. *)
Module Out.
Inductive Out :=
  | Closed (conn : ConnId)
  | Submit (items : list (N * EngineInput))
  | Forward (target : NodeId) (items : list (ConnId * N * EngineInput))
  | Drain (on : bool)
  | View (max_tubes : nat)
  | Done.
End Out.
Abbreviation Out := Out.Out (only parsing).
(** What the task is woken by. *)
Module ForwardResponse.
Inductive ForwardResponse := Accepted | NotLeader (leader : option NodeId).
End ForwardResponse.
Abbreviation ForwardResponse := ForwardResponse.ForwardResponse (only parsing).
Module OwnerWake.
Inductive OwnerWake :=
  | Message (msg : EngineMsg) (more : list EngineMsg)
  | Forwarded (target : NodeId) (res : option ForwardResponse)
  | View
  | Tick.
End OwnerWake.
Abbreviation OwnerWake := OwnerWake.OwnerWake (only parsing).

Definition SHUTDOWN_BOUND : N := NANOS_PER_SEC.
(** The free function of [cluster/mod.rs]; the timeout in nanoseconds. *)
Definition leader_reachable (id : NodeId) (leader : option NodeId) (voters : nat) (millis_since_quorum_ack : option N) (node_timeout : N) : bool :=
  match leader with
  | None => false
  | Some l =>
      if (l =? id)%N then
        (voters =? 1)%nat || match millis_since_quorum_ack with Some ms => (ms <=? node_timeout / 1000000)%N | None => false end
      else true
  end.
Section owner.
Context {Sid Membership : Type}.
Record Env := mkEnv {
  en_now : N;
  en_id : NodeId;
  en_node_timeout : N;
  en_started : bool;
  en_current_leader : option NodeId;
  en_leading : bool;
  en_term : N;
  en_voters : nat;
  en_quorum_ack : option N;
  en_state : Core Sid Membership;
}.
Implicit Types (env : Env) (o : Owner).
Definition is_leader env : bool := bool_decide (en_current_leader env = Some (en_id env)) && en_leading env.
Definition core_view env : option NodeId * N := (en_current_leader env, en_term env).
Definition reachable_now env : bool :=
  leader_reachable (en_id env) (en_current_leader env) (en_voters env) (en_quorum_ack env) (en_node_timeout env).
Definition Owner_new env : Owner :=
  mkOwner ∅ ForwardQueue_default (en_now env) STALL_RESEND None None (core_view env) (en_now env) None (ping_interval (en_node_timeout env))
    None false false None None None Clients_new (mkFwStatus false 0 0 false 0 0 0 0 0 0).

Definition publish o : Owner :=
  let full := queue_full (ow_queue o) in
  o <| ow_status ::= (λ s, s <| fs_queue_len := N.of_nat (queue_len (ow_queue o)) |> <| fs_queue_bytes := fq_bytes (ow_queue o) |>
                              <| fs_queue_full := full |> <| fs_resent_items := fq_resent (ow_queue o) |>) |>
    <| ow_clients ::= set_admitting (negb (ow_isolated o || bool_decide (is_Some (ow_shutdown o)) || full)) |>.
Definition owner_push env (conn : ConnId) (seq : N) (input : EngineInput) o : Owner :=
  let o := if queue_is_empty (ow_queue o) then o <| ow_front_since := en_now env |> else o in
  o <| ow_queue ::= queue_push conn seq input |>.
Definition push_next env (conn : ConnId) (input : EngineInput) o : Owner :=
  match ow_seqs o !! conn with
  | None => o
  | Some seq => owner_push env conn seq input (o <| ow_seqs ::= <[conn := incr64 seq]> |>)
  end.
Definition gone env (conn : ConnId) : bool :=
  (local_of conn <=? highest_local (en_state env) (en_id env))%N && bool_decide (applied_seq (en_state env) conn = None).
Definition owner_close (conn : ConnId) o : Owner * list Out :=
  let '(closed, cl) := clients_close conn (ow_clients o) in (o <| ow_clients := cl |>, Out.Closed <$> closed).
Definition close_every o : Owner * list Out :=
  let '(closed, cl) := close_all (ow_clients o) in (o <| ow_clients := cl |>, Out.Closed <$> closed).
Definition owner_message env (msg : EngineMsg) o : Owner * list Out :=
  match msg with
  | EngineMsg.Connect conn =>
      if ow_isolated o || bool_decide (is_Some (ow_shutdown o)) then owner_close conn o
      else
        (owner_push env conn 1 (EngineInput.Connect conn) (o <| ow_clients ::= clients_insert conn |> <| ow_seqs ::= <[conn := 2%N]> |>), [])
  | EngineMsg.Command conn cmd =>
      let is_put := match cmd with Command.Put _ _ _ _ => true | _ => false end in
      if is_put && queue_full (ow_queue o) then
        (push_next env conn (EngineInput.PutRejected conn PutRejection.OutOfMemory)
           (o <| ow_status ::= (λ s, s <| fs_rejected_puts ::= incr64 |>) |>), [])
      else (push_next env conn (EngineInput.Command conn cmd) o, [])
  | EngineMsg.PutStarted conn too_big => (push_next env conn (EngineInput.PutStarted conn too_big) o, [])
  | EngineMsg.PutRejected conn why => (push_next env conn (EngineInput.PutRejected conn why) o, [])
  | EngineMsg.HalfClose conn => (push_next env conn (EngineInput.HalfClose conn) o, [])
  | EngineMsg.Disconnect conn =>
      let o := o <| ow_clients ::= clients_remove conn |> in
      match ow_seqs o !! conn with
      | None => (o, [])
      | Some seq =>
          let o := o <| ow_seqs ::= delete conn |> in
          if gone env conn then (o, []) else (owner_push env conn seq (EngineInput.Disconnect conn) o, [])
      end
  | EngineMsg.SetDraining on => (o, [Out.Drain on])
  | EngineMsg.Snapshot max_tubes => (o, [Out.View max_tubes])
  | EngineMsg.Shutdown =>
      let '(o, out) := close_every o in (o <| ow_shutdown := Some (en_now env + SHUTDOWN_BOUND)%N |>, out)
  end.
(** [on] is the counter of the cause. *)
Definition rewind env (on : FwStatus → FwStatus) o : Owner :=
  let o := if (0 <? fq_cursor (ow_queue o))%nat then o <| ow_status ::= on |> else o in
  o <| ow_queue ::= queue_rewind |> <| ow_front_since := en_now env |>.
Definition keep_item env (it : Item) : bool :=
  if (highest_local (en_state env) (en_id env) <? local_of (it_conn it))%N then true
  else match applied_seq (en_state env) (it_conn it) with Some a => (a <? it_seq it)%N | None => false end.
Definition is_orphan env (it : Item) : bool :=
  negb (highest_local (en_state env) (en_id env) <? local_of (it_conn it))%N && bool_decide (applied_seq (en_state env) (it_conn it) = None).
Definition close_orphans (orphans : list ConnId) o : Owner * list Out :=
  foldl (λ '(o, out) conn, if clients_holds conn (ow_clients o) then let '(o, out') := owner_close conn o in (o, out ++ out') else (o, out)) (o, []) orphans.
Definition prune env o : Owner * list Out :=
  let orphans := it_conn <$> filter (λ it, is_orphan env it = true) (fq_items (ow_queue o)) in
  close_orphans orphans (o <| ow_queue ::= queue_retain (keep_item env) |>).
Definition on_event env (conn : ConnId) (seq : N) o : Owner * list Out :=
  let '(outcome, q) := queue_applied conn seq (ow_queue o) in
  let o := o <| ow_queue := q |> in
  let o := if ao_front outcome then o <| ow_front_since := en_now env |> <| ow_stall_after := STALL_RESEND |> else o in
  if ao_dropped_before outcome && match ow_last_drop_resend o with Some t => (RETRY_PAUSE <=? en_now env - t)%N | None => true end then
    let '(o, out) := prune env (o <| ow_last_drop_resend := Some (en_now env) |>) in
    (rewind env (λ s, s <| fs_rewinds_dropped ::= incr64 |>) o, out)
  else (o, []).
Definition on_view_change env o : bool * Owner :=
  if bool_decide (core_view env = ow_view o) then (false, o)
  else
    (true, rewind env (λ s, s <| fs_rewinds_view ::= incr64 |>)
             (o <| ow_view := core_view env |> <| ow_hint := None |> <| ow_retry_at := None |> <| ow_stall_after := STALL_RESEND |>)).
(** [None]: the forward failed. *)
Definition on_forward_result env (target : NodeId) (res : option ForwardResponse) o : Owner :=
  let count := λ s, s <| fs_rewinds_error ::= incr64 |> in
  match res with
  | Some ForwardResponse.Accepted => o <| ow_last_leader_ok := en_now env |>
  | Some (ForwardResponse.NotLeader leader) =>
      let hint := match leader with Some l => if (l =? en_id env)%N || (l =? target)%N then None else Some l | None => None end in
      let o := (rewind env count o) <| ow_hint := hint |> in
      match hint with Some _ => o | None => o <| ow_retry_at := Some (en_now env + RETRY_PAUSE)%N |> end
  | None => (rewind env count o) <| ow_hint := None |> <| ow_retry_at := Some (en_now env + RETRY_PAUSE)%N |>
  end.
(** The loops of [pump]; the fuel is the number of items. *)
Fixpoint send_all (fuel : nat) (q : ForwardQueue) : list Item * ForwardQueue :=
  match fuel with
  | 0 => ([], q)
  | S fuel => match send_next q with Some (it, q) => let '(l, q) := send_all fuel q in (it :: l, q) | None => ([], q) end
  end.
Fixpoint send_batch (fuel : nat) (items : list Item) (bytes : N) (q : ForwardQueue) : list Item * ForwardQueue :=
  match fuel with
  | 0 => (items, q)
  | S fuel =>
      match peek_unsent q with
      | None => (items, q)
      | Some it =>
          if negb (bool_decide (items = [])) && ((MAX_BATCH_ITEMS <=? length items)%nat || (MAX_BATCH_BYTES <? bytes + it_size it)%N) then (items, q)
          else match send_next q with Some (it, q) => send_batch fuel (items ++ [it]) (bytes + it_size it) q | None => (items, q) end
      end
  end.
Definition forward_target env o : option NodeId :=
  match (match ow_hint o with Some h => Some h | None => en_current_leader env end) with
  | Some l => if (l =? en_id env)%N then None else Some l
  | None => None
  end.
Definition ping env o : Owner * list Out :=
  match forward_target env o with
  | None => (o, [])
  | Some target =>
      if match ow_last_ping o with Some t => (en_now env - t <? ow_ping_every o)%N | None => false end then (o, [])
      else (o <| ow_last_ping := Some (en_now env) |> <| ow_inflight := Some target |>, [Out.Forward target []])
  end.
Definition pump_now env o : Owner * list Out :=
  if negb (has_unsent (ow_queue o)) then ping env o
  else
    let o := if (fq_cursor (ow_queue o) =? 0)%nat then o <| ow_front_since := en_now env |> else o in
    if is_leader env then
      let '(items, q) := send_all (queue_len (ow_queue o)) (ow_queue o) in
      (o <| ow_queue := q |>, [Out.Submit ((λ it, (it_seq it, it_input it)) <$> items)])
    else
      match forward_target env o with
      | None => (o, [])
      | Some target =>
          let '(items, q) := send_batch (queue_len (ow_queue o)) [] 0 (ow_queue o) in
          (o <| ow_queue := q |> <| ow_last_ping := Some (en_now env) |> <| ow_inflight := Some target |>,
           [Out.Forward target ((λ it, (it_conn it, it_seq it, it_input it)) <$> items)])
      end.
Definition pump env o : Owner * list Out :=
  match ow_retry_at o with
  | Some at_ => if (en_now env <? at_)%N then (o, []) else pump_now env (o <| ow_retry_at := None |>)
  | None => pump_now env o
  end.
Definition check_isolation env o : Owner * list Out :=
  if negb (en_started env) then (o, [])
  else
    let now := en_now env in
    let o := if ow_was_started o then o else o <| ow_was_started := true |> <| ow_last_leader_ok := now |> in
    let '(cut_off_for, o) :=
      if match en_current_leader env with Some l => negb (l =? en_id env)%N | None => false end then
        ((now - ow_last_leader_ok o)%N, o <| ow_unreachable_since := None |>)
      else if reachable_now env then (0%N, o <| ow_unreachable_since := None |> <| ow_last_leader_ok := now |>)
      else let since := default now (ow_unreachable_since o) in ((now - since)%N, o <| ow_unreachable_since := Some since |>) in
    if (cut_off_for <? en_node_timeout env)%N then
      (if ow_isolated o then o <| ow_isolated := false |> <| ow_status ::= (λ s, s <| fs_isolated := false |>) |> else o, [])
    else if ow_isolated o then (o, [])
    else close_every (o <| ow_isolated := true |> <| ow_status ::= (λ s, s <| fs_isolated := true |>) |> <| ow_clients ::= set_admitting false |>).
(** The first result: the task ends. *)
Definition on_tick env o : bool * (Owner * list Out) :=
  let now := en_now env in
  let '(o, out) :=
    if (0 <? fq_cursor (ow_queue o))%nat && (ow_stall_after o <=? now - ow_front_since o)%N then
      let '(o, out) := prune env o in
      let o := if queue_is_empty (ow_queue o) then o else o <| ow_stall_after ::= (λ d, N.min (d * 2) STALL_RESEND_MAX) |> in
      (rewind env (λ s, s <| fs_rewinds_stall ::= incr64 |>) o, out)
    else (o, []) in
  let '(o, out') := check_isolation env o in
  match ow_shutdown o with
  | Some deadline =>
      let drained := (clients_count (ow_clients o) =? 0)%nat && queue_is_empty (ow_queue o) in
      if drained || (deadline <=? now)%N || negb (reachable_now env) then (true, (o <| ow_shutdown := None |>, out ++ out' ++ [Out.Done]))
      else (false, (o, out ++ out'))
  | None => (false, (o, out ++ out'))
  end.
(** A handler after others, with what went out. *)
Definition then_do (f : Owner → Owner * list Out) (s : Owner * list Out) : Owner * list Out :=
  let '(o, out) := f s.1 in (o, s.2 ++ out).
Definition on_wake env (w : OwnerWake) (s : Owner * list Out) : bool * (Owner * list Out) :=
  match w with
  | OwnerWake.Message msg more => (false, foldl (λ s m, then_do (owner_message env m) s) s (msg :: take MAX_DRAIN more))
  | OwnerWake.Forwarded target res => (false, then_do (λ o, (on_forward_result env target res (o <| ow_inflight := None |>), [])) s)
  | OwnerWake.View => (false, then_do (λ o, let '(changed, o) := on_view_change env o in (if changed then o <| ow_inflight := None |> else o, [])) s)
  | OwnerWake.Tick => let '(stop, (o, out)) := on_tick env s.1 in (stop, (o, s.2 ++ out))
  end.
(** One turn of [run]: the events that came, what woke the task, and what is
    sent. *)
Definition turn env (events : list (ConnId * N)) (w : OwnerWake) o : bool * (Owner * list Out) :=
  let s := foldl (λ s '(conn, seq), then_do (on_event env conn seq) s) (o, []) events in
  let '(stop, s) := on_wake env w s in
  if stop then (true, s)
  else
    let s := match ow_inflight s.1 with Some _ => s | None => then_do (pump env) s end in
    (false, (publish s.1, s.2)).

(** ** The leader's side
    ([server/cluster/handler.rs], [server/cluster/proposer.rs]) *)
(** When each peer was heard from, the proposer's queue and whether the
    proposer runs. *)
Record LeaderSide := mkLeaderSide { ls_heard : gmap NodeId N; ls_queue : list (N * EngineInput); ls_running : bool }.
Definition heard_from env (peer : NodeId) (l : LeaderSide) : LeaderSide := mkLeaderSide (<[peer := en_now env]> (ls_heard l)) (ls_queue l) (ls_running l).
(** Whether the items were taken. *)
Definition submit (items : list (N * EngineInput)) (l : LeaderSide) : bool * LeaderSide :=
  if bool_decide (items = []) then (true, l)
  else if ls_running l then (true, mkLeaderSide (ls_heard l) (ls_queue l ++ items) (ls_running l)) else (false, l).
Definition not_leader env : option NodeId :=
  match en_current_leader env with Some l => if (l =? en_id env)%N then None else Some l | None => None end.
Definition handle_forward env (member : NodeId → bool) (req : ForwardRequest) (l : LeaderSide) : ForwardResponse * LeaderSide :=
  if negb (member (fw_from req)) then (ForwardResponse.NotLeader None, l)
  else
    let l := heard_from env (fw_from req) l in
    if negb (is_leader env) then (ForwardResponse.NotLeader (not_leader env), l)
    else
      let items := (λ '(_, seq, input), (seq, input)) <$> fw_items req in
      let '(ok, l) := submit items l in
      (if ok then ForwardResponse.Accepted else ForwardResponse.NotLeader None, l).
(** One proposal of the proposer, if a batch may be outstanding. *)
Definition propose_next (l : LeaderSide) : option (RaftOp * LeaderSide) :=
  if bool_decide (ls_queue l = []) then None
  else let '(batch, rest) := next_batch (ls_queue l) in Some (RaftOp.Batch batch, mkLeaderSide (ls_heard l) rest (ls_running l)).
End owner.
Arguments Env : clear implicits.
