(* ===== verification/ForwardRun.v ===== *)
(** * What the owner of connections sends

    [given] is the input a message stands for; a run of the task ([owner_run])
    keeps what each connection gave.  Shown of every run: the queue holds what
    was given and not yet applied, in order and with the number of its place
    ([Sender]); what is sent is in the queue. *)

From S2P Require Import Prelude Ms Proto Stats Parse Model Engine Actor Cluster Forward.
From stdpp Require Import options.

(** ** The queue *)
Abbreviation Tag := (ConnId * N * EngineInput)%type (only parsing).
Definition tag (it : Item) : Tag := (it_conn it, it_seq it, it_input it).
Definition tags (q : ForwardQueue) : list Tag := tag <$> fq_items q.
Definition sizes (l : list Item) : N := foldr (λ it n, it_size it + n)%N 0%N l.
(** The queue's sums are right, and the cursor is in it. *)
Record queue_ok (q : ForwardQueue) : Prop := {
  qo_size : Forall (λ it, it_size it = item_size (it_input it)) (fq_items q);
  qo_bytes : fq_bytes q = sizes (fq_items q);
  qo_cursor : fq_cursor q ≤ length (fq_items q);
}.
Lemma sizes_app l1 l2 : sizes (l1 ++ l2) = (sizes l1 + sizes l2)%N.
Proof. unfold sizes. induction l1 as [|it l1 IH]; [done|]. cbn. rewrite IH. lia. Qed.
Lemma sizes_cons it l : sizes (it :: l) = (it_size it + sizes l)%N.
Proof. done. Qed.
Lemma sizes_insert l n x y : l !! n = Some x → it_size y = it_size x → sizes (<[n:=y]> l) = sizes l.
Proof.
  intros Hx Hy. revert n Hx. induction l as [|z l IH]; intros [|n] Hx; [done|done|cbn in Hx; simplify_eq; cbn; by rewrite Hy|].
  change (it_size z + sizes (<[n:=y]> l) = it_size z + sizes l)%N. by rewrite (IH n Hx).
Qed.
Lemma queue_ok_push conn seq i q : queue_ok q → queue_ok (queue_push conn seq i q).
Proof.
  intros [Hs Hb Hc]. split; cbn; rewrite ?length_app, ?sizes_app; [|cbn; lia|cbn; lia]. apply Forall_app. split; [done|]. by repeat constructor.
Qed.
Lemma tags_push conn seq i q : tags (queue_push conn seq i q) = tags q ++ [(conn, seq, i)].
Proof. unfold tags. cbn. by rewrite fmap_app. Qed.
Lemma queue_ok_rewind q : queue_ok q → queue_ok (queue_rewind q).
Proof. intros [Hs Hb Hc]. split; cbn; [done|done|lia]. Qed.
Lemma send_next_spec q it q' :
  send_next q = Some (it, q') →
  tags q' = tags q ∧ tags q !! fq_cursor q = Some (tag it) ∧ fq_cursor q' = S (fq_cursor q) ∧ fq_pass q' = fq_pass q ∧ (queue_ok q → queue_ok q').
Proof.
  unfold send_next. intros (x & Hx & [= <- <-])%bind_Some. unfold tags. cbn. split_and!.
  - rewrite list_fmap_insert. apply list_insert_id. by rewrite list_lookup_fmap, Hx.
  - by rewrite list_lookup_fmap, Hx.
  - done.
  - done.
  - intros [Hs Hb Hc]. split; cbn.
    + apply Forall_insert; [done|]. cbn. by eapply Forall_lookup in Hs.
    + by erewrite sizes_insert.
    + rewrite length_insert. apply lookup_lt_Some in Hx. lia.
Qed.
Lemma position_spec f l n : position f l = Some n → ∃ it, l !! n = Some it ∧ f it = true.
Proof.
  revert n. induction l as [|x l IH]; intros n; [done|]. cbn. destruct (f x) eqn:Hf; [intros [= <-]; by exists x|].
  intros (m & Hm & ->)%fmap_Some. by apply IH.
Qed.
Lemma position_none f l : position f l = None → Forall (λ it, f it = false) l.
Proof. induction l as [|x l IH]; [done|]. cbn. destruct (f x) eqn:Hf; [done|]. intros H%fmap_None. constructor; auto. Qed.
Lemma is_item_tag conn seq it : is_item conn seq it = true ↔ (it_conn it = conn ∧ it_seq it = seq).
Proof. unfold is_item. by rewrite andb_true_iff, !N.eqb_eq. Qed.
(** An applied item is taken out, others stay. *)
Lemma queue_applied_spec conn seq q :
  let q' := (queue_applied conn seq q).2 in
  tags q' `sublist_of` tags q ∧ (∀ t, t ∈ tags q → t ∈ tags q' ∨ t.1 = (conn, seq)) ∧ (queue_ok q → queue_ok q').
Proof.
  unfold queue_applied. set (pos := match head (fq_items q) with Some f => _ | None => _ end).
  assert (∀ n, pos = Some n → ∃ it, fq_items q !! n = Some it ∧ is_item conn seq it = true) as Hpos.
  { intros n. unfold pos. destruct (fq_items q) as [|f l]; [done|]. cbn [head]. destruct (is_item conn seq f) eqn:Hf; [|apply position_spec].
    intros [= <-]. by exists f. }
  destruct pos as [n|]; [|by split_and!; auto]. destruct (Hpos n eq_refl) as (it & Hit & Hi). rewrite Hit. cbn [snd]. apply is_item_tag in Hi as [Hc Hs].
  assert (fq_items q = take n (fq_items q) ++ it :: drop (S n) (fq_items q)) as Hsplit by (by rewrite take_drop_middle).
  assert (delete n (fq_items q) = take n (fq_items q) ++ drop (S n) (fq_items q)) as Hdel by apply delete_take_drop.
  unfold tags. cbn [fq_items]. rewrite Hdel. split_and!.
  - rewrite Hsplit at 3. rewrite !fmap_app. cbn. apply sublist_app; [done|]. by apply sublist_cons.
  - intros t Ht. rewrite Hsplit in Ht. rewrite fmap_app in *. cbn in Ht. rewrite elem_of_app, elem_of_cons in Ht. rewrite elem_of_app.
    destruct Ht as [?|[->|?]]; [by left; left| |by left; right]. right. cbn. by rewrite Hc, Hs.
  - intros [Hsz Hb Hcur]. rewrite Hsplit in Hsz, Hb. apply Forall_app in Hsz as [H1 H2]. inversion H2; subst. split; cbn [fq_items fq_bytes fq_cursor]; rewrite ?Hdel.
    + by apply Forall_app.
    + rewrite Hb, !sizes_app, sizes_cons. lia.
    + rewrite length_app, length_drop, length_take. apply lookup_lt_Some in Hit. destruct (Nat.ltb_spec n (fq_cursor q)); lia.
Qed.
Lemma retain_bytes (keep : Item → bool) l n :
  foldl (λ (b : N) (it : Item), if keep it then b else b - it_size it)%N (sizes l + n)%N l = (sizes (filter (λ it, keep it = true) l) + n)%N.
Proof.
  revert n. induction l as [|it l IH]; intros n; [done|]. cbn [foldl]. destruct (keep it) eqn:Hk.
  - rewrite filter_cons_True by done. rewrite !sizes_cons.
    replace (it_size it + sizes l + n)%N with (sizes l + (it_size it + n))%N by lia. rewrite IH. lia.
  - rewrite filter_cons_False by congruence. rewrite sizes_cons. replace (it_size it + sizes l + n - it_size it)%N with (sizes l + n)%N by lia. apply IH.
Qed.
Lemma queue_retain_spec keep q :
  let q' := queue_retain keep q in
  tags q' `sublist_of` tags q ∧ (∀ it, it ∈ fq_items q → tag it ∈ tags q' ∨ keep it = false) ∧ (queue_ok q → queue_ok q').
Proof.
  cbv zeta. split_and!.
  - unfold tags. cbn. apply fmap_sublist, sublist_filter.
  - intros it Hit. destruct (keep it) eqn:Hk; [left|by right]. unfold tags. cbn. apply list_elem_of_fmap. exists it. split; [done|]. by apply list_elem_of_filter.
  - intros [Hs Hb Hc]. split; cbn; [|by rewrite Hb, <-(N.add_0_r (sizes _)), retain_bytes, N.add_0_r|lia].
    apply Forall_forall. intros it [_ Hit]%list_elem_of_filter. by eapply Forall_forall in Hs.
Qed.

(** ** Handlers that give nothing *)
Section runs.
Context {Sid Membership : Type}.
#[local] Abbreviation Env := (Env Sid Membership).
Implicit Types (env : Env) (o : Owner) (s : Owner * list Out).
(** The applied state shows that this input is applied, or its connection
    gone. *)
Definition settled env (x : ConnId * N) : Prop :=
  (local_of x.1 ≤ highest_local (en_state env) (en_id env))%N ∧ ∀ a, applied_seq (en_state env) x.1 = Some a → (x.2 ≤ a)%N.
(** The items that leave the queue have a reason [P]; no item comes. *)
Record thins (P : ConnId * N → Prop) o o' : Prop := {
  th_seqs : ow_seqs o' = ow_seqs o;
  th_sub : tags (ow_queue o') `sublist_of` tags (ow_queue o);
  th_kept t : t ∈ tags (ow_queue o) → t ∈ tags (ow_queue o') ∨ P t.1;
  th_ok : queue_ok (ow_queue o) → queue_ok (ow_queue o');
}.
#[export] Instance thins_preorder P : PreOrder (thins P).
Proof.
  split; [intros o; split; auto|]. intros o1 o2 o3 [H1 H2 H3 H4] [K1 K2 K3 K4]. split; [congruence|by etrans| |auto].
  intros t [Ht|Ht]%H3; [by apply K3|by right].
Qed.
Lemma thins_weaken (P Q : ConnId * N → Prop) o o' : (∀ x, P x → Q x) → thins P o o' → thins Q o o'.
Proof. intros HPQ [H1 H2 H3 H4]. split; try done. intros t [?|?]%H3; auto. Qed.
(** The queue is not touched. *)
Lemma thins_same P o o' : ow_seqs o' = ow_seqs o → ow_queue o' = ow_queue o → thins P o o'.
Proof. intros H1 H2. split; rewrite ?H2; auto. Qed.
Lemma thins_queue P o o' :
  ow_seqs o' = ow_seqs o → tags (ow_queue o') = tags (ow_queue o) → (queue_ok (ow_queue o) → queue_ok (ow_queue o')) → thins P o o'.
Proof. intros H1 H2 H3. split; rewrite ?H2; auto. Qed.
Lemma thins_rewind P env on o : thins P o (rewind env on o).
Proof.
  unfold rewind. set (o1 := if (0 <? _)%nat then _ else _). assert (ow_queue o1 = ow_queue o ∧ ow_seqs o1 = ow_seqs o) as [Hq Hs] by (unfold o1; by case_match).
  clearbody o1. apply thins_queue; cbn; rewrite ?Hq; [done|done|apply queue_ok_rewind].
Qed.
Lemma close_conn_same conn o : ow_queue (owner_close conn o).1 = ow_queue o ∧ ow_seqs (owner_close conn o).1 = ow_seqs o.
Proof. done. Qed.
Lemma thins_orphans P l o out :
  let s := foldl (λ '(o, out) conn, if clients_holds conn (ow_clients o) then let '(o, out') := owner_close conn o in (o, out ++ out') else (o, out)) (o, out) l in
  thins P o s.1.
Proof.
  cbv zeta. revert o out. induction l as [|c l IH]; intros o out; [done|]. cbn [foldl]. case_match; [|apply IH].
  etrans; [|apply IH]. by apply thins_same.
Qed.
Lemma thins_prune env o : thins (settled env) o (prune env o).1.
Proof.
  unfold prune, close_orphans. etrans; [|apply thins_orphans]. destruct (queue_retain_spec (keep_item env) (ow_queue o)) as (H1 & H2 & H3).
  split; [done|done| |done]. intros t (it & -> & Hit)%list_elem_of_fmap. destruct (H2 it Hit) as [?|Hk]; [by left|right]. unfold keep_item in Hk.
  destruct (N.ltb_spec (highest_local (en_state env) (en_id env)) (local_of (it_conn it))); [done|]. split; [done|]. cbn. intros a Ha. rewrite Ha in Hk.
  by apply N.ltb_ge in Hk.
Qed.
Lemma thins_event env conn seq o : thins (λ x, x = (conn, seq) ∨ settled env x) o (on_event env conn seq o).1.
Proof.
  unfold on_event. pose proof (queue_applied_spec conn seq (ow_queue o)) as (H1 & H2 & H3). destruct (queue_applied conn seq (ow_queue o)) as [out q]. cbn [snd] in *.
  set (o1 := if ao_front out then _ else _). assert (thins (λ x, x = (conn, seq) ∨ settled env x) o o1) as Ho1.
  { assert (ow_queue o1 = q ∧ ow_seqs o1 = ow_seqs o) as [Hq Hs] by (unfold o1; by case_match). split; rewrite ?Hq; try done. intros t [?|?]%H2; auto. }
  clearbody o1. case_match; [|done]. pose proof (thins_prune env (o1 <| ow_last_drop_resend := Some (en_now env) |>)) as Hp.
  destruct (prune env _) as [o2 out2]. cbn [fst] in *. etrans; [exact Ho1|]. transitivity (o1 <| ow_last_drop_resend := Some (en_now env) |>); [by apply thins_same|].
  etrans; [|apply thins_rewind]. eapply thins_weaken; [|exact Hp]. auto.
Qed.
Lemma thins_isolation P env o : thins P o (check_isolation env o).1.
Proof. apply thins_same; unfold check_isolation, close_every; repeat case_match; simplify_eq; done. Qed.
Lemma thins_tick env o : thins (settled env) o (on_tick env o).2.1.
Proof.
  unfold on_tick. set (s1 := if (0 <? _)%nat && _ then _ else _). assert (thins (settled env) o s1.1) as Hs1.
  { unfold s1. case_match; [|done]. pose proof (thins_prune env o) as Hp. destruct (prune env o) as [o1 out1]. cbn [fst] in *. etrans; [exact Hp|].
    etrans; [|apply thins_rewind]. apply thins_same; by case_match. }
  destruct s1 as [o1 out1]. cbn [fst] in Hs1. pose proof (thins_isolation (settled env) env o1) as Hi. destruct (check_isolation env o1) as [o2 out2]. cbn [fst] in Hi.
  etrans; [exact Hs1|]. etrans; [exact Hi|]. repeat case_match; try done. by apply thins_same.
Qed.
Lemma thins_result P env target res o : thins P o (on_forward_result env target res o).
Proof.
  unfold on_forward_result. destruct res as [[|leader]|]; [by apply thins_same| |].
  - etrans; [apply thins_rewind|]. apply thins_same; by repeat case_match.
  - etrans; [apply thins_rewind|]. by apply thins_same.
Qed.
Lemma thins_view P env o : thins P o (on_view_change env o).2.
Proof. unfold on_view_change. case_match; [done|]. cbn [snd]. etrans; [|apply thins_rewind]. by apply thins_same. Qed.

(** ** Sending *)
Lemma send_next_none q : send_next q = None → drop (fq_cursor q) (tags q) = [].
Proof.
  unfold send_next. destruct (fq_items q !! fq_cursor q) eqn:Hl; [done|]. intros _. apply drop_ge. unfold tags. rewrite length_fmap. by apply lookup_ge_None.
Qed.
Lemma send_all_spec fuel q :
  let r := send_all fuel q in tags r.2 = tags q ∧ tag <$> r.1 = take fuel (drop (fq_cursor q) (tags q)) ∧ (queue_ok q → queue_ok r.2).
Proof.
  cbv zeta. revert q. induction fuel as [|fuel IH]; intros q; [done|]. cbn [send_all]. destruct (send_next q) as [[it q1]|] eqn:Hn.
  - apply send_next_spec in Hn as (Ht & Hl & Hc & _ & Hok). destruct (IH q1) as (H1 & H2 & H3). destruct (send_all fuel q1) as [l q2]. cbn [fst snd] in *.
    rewrite Hc, Ht in H2. split_and!; [congruence| |auto]. cbn. rewrite H2. by rewrite (drop_S _ _ _ Hl).
  - apply send_next_none in Hn. cbn. by rewrite Hn.
Qed.
Lemma send_batch_spec fuel items bytes q :
  let r := send_batch fuel items bytes q in
  tags r.2 = tags q ∧ (∃ k, tag <$> r.1 = (tag <$> items) ++ take k (drop (fq_cursor q) (tags q))) ∧ (queue_ok q → queue_ok r.2).
Proof.
  cbv zeta. revert items bytes q. induction fuel as [|fuel IH]; intros items bytes q; cbn [send_batch].
  { split_and!; [done| |done]. exists 0. by rewrite app_nil_r. }
  assert (tags q = tags q ∧ (∃ k, tag <$> items = (tag <$> items) ++ take k (drop (fq_cursor q) (tags q))) ∧ (queue_ok q → queue_ok q)) as Hstay.
  { split_and!; [done| |done]. exists 0. by rewrite app_nil_r. }
  destruct (peek_unsent q) as [it0|]; [|done]. case_match; [done|]. destruct (send_next q) as [[it q1]|] eqn:Hn; [|done].
  apply send_next_spec in Hn as (Ht & Hl & Hc & _ & Hok). destruct (IH (items ++ [it]) (bytes + it_size it)%N q1) as (H1 & [k H2] & H3).
  split_and!; [congruence| |auto]. exists (S k). rewrite H2, Hc, Ht, fmap_app, <-app_assoc. by rewrite (drop_S _ _ _ Hl).
Qed.
(** The inputs that go out. *)
Definition out_items (x : Out) : list (N * EngineInput) :=
  match x with
  | Out.Submit items => items
  | Out.Forward _ items => (λ '(_, seq, i), (seq, i)) <$> items
  | _ => []
  end.
Definition outgoing (l : list Out) : list (N * EngineInput) := l ≫= out_items.
Definition untag (t : Tag) : N * EngineInput := (t.1.2, t.2).
Lemma outgoing_app l1 l2 : outgoing (l1 ++ l2) = outgoing l1 ++ outgoing l2.
Proof. apply bind_app. Qed.
(** What is sent is a stretch of the queue that begins at the cursor. *)
Lemma pump_now_spec P env o :
  let r := pump_now env o in thins P o r.1 ∧ ∃ k, outgoing r.2 = untag <$> take k (drop (fq_cursor (ow_queue o)) (tags (ow_queue o))).
Proof.
  cbv zeta. unfold pump_now. case_match.
  { unfold ping. repeat case_match; (split; [by apply thins_same|by exists 0]). }
  set (o1 := if (fq_cursor _ =? 0)%nat then _ else _). assert (ow_queue o1 = ow_queue o ∧ ow_seqs o1 = ow_seqs o) as [Hq Hs] by (unfold o1; by case_match).
  clearbody o1. rewrite <-Hq. assert (thins P o o1) as Ho1 by (by apply thins_same). case_match.
  - destruct (send_all_spec (queue_len (ow_queue o1)) (ow_queue o1)) as (H1 & H2 & H3). destruct (send_all _ _) as [items q]. cbn [fst snd] in *.
    split; [etrans; [exact Ho1|]; by apply thins_queue|]. eexists. rewrite <-H2. unfold outgoing. cbn. rewrite app_nil_r, <-list_fmap_compose. done.
  - destruct (forward_target env o1) as [target|]; [|split; [done|by exists 0]].
    destruct (send_batch_spec (queue_len (ow_queue o1)) [] 0 (ow_queue o1)) as (H1 & [k H2] & H3). destruct (send_batch _ _ _ _) as [items q]. cbn [fst snd] in *.
    split; [etrans; [exact Ho1|]; by apply thins_queue|]. exists k. cbn in H2. rewrite <-H2. unfold outgoing. cbn. rewrite app_nil_r, <-!list_fmap_compose. done.
Qed.
Lemma pump_spec P env o :
  let r := pump env o in thins P o r.1 ∧ ∃ k, outgoing r.2 = untag <$> take k (drop (fq_cursor (ow_queue o)) (tags (ow_queue o))).
Proof.
  cbv zeta. unfold pump. destruct (ow_retry_at o) as [t|]; [|apply pump_now_spec]. case_match; [split; [done|by exists 0]|].
  destruct (pump_now_spec P env (o <| ow_retry_at := None |>)) as [H1 H2]. split; [|exact H2]. etrans; [|exact H1]. by apply thins_same.
Qed.
(** Only the pump sends. *)
Lemma closed_outgoing l : outgoing (Out.Closed <$> l) = [].
Proof. unfold outgoing. by induction l. Qed.
Lemma orphans_outgoing l o out :
  outgoing out = [] →
  let s := foldl (λ '(o, out) conn, if clients_holds conn (ow_clients o) then let '(o, out') := owner_close conn o in (o, out ++ out') else (o, out)) (o, out) l in
  outgoing s.2 = [].
Proof.
  cbv zeta. revert o out. induction l as [|c l IH]; intros o out Hout; [done|]. cbn [foldl]. case_match; [|by apply IH].
  unfold owner_close, clients_close. apply IH. by rewrite outgoing_app, Hout, closed_outgoing.
Qed.
Lemma prune_outgoing env o : outgoing (prune env o).2 = [].
Proof. by apply orphans_outgoing. Qed.
Lemma event_outgoing env conn seq o : outgoing (on_event env conn seq o).2 = [].
Proof.
  unfold on_event. destruct (queue_applied conn seq (ow_queue o)) as [out q]. set (o1 := if ao_front out then _ else _). clearbody o1. case_match; [|done].
  pose proof (prune_outgoing env (o1 <| ow_last_drop_resend := Some (en_now env) |>)) as Hp. by destruct (prune env _).
Qed.
Lemma every_outgoing o : outgoing (close_every o).2 = [].
Proof. apply closed_outgoing. Qed.
Lemma isolation_outgoing env o : outgoing (check_isolation env o).2 = [].
Proof. unfold check_isolation. repeat case_match; simplify_eq; try done; apply every_outgoing. Qed.
Lemma tick_outgoing env o : outgoing (on_tick env o).2.2 = [].
Proof.
  unfold on_tick. set (s1 := if (0 <? _)%nat && _ then _ else _). assert (outgoing s1.2 = []) as Hs1.
  { unfold s1. case_match; [|done]. pose proof (prune_outgoing env o) as Hp. by destruct (prune env o). }
  destruct s1 as [o1 out1]. cbn [snd] in Hs1. pose proof (isolation_outgoing env o1) as Hi. destruct (check_isolation env o1) as [o2 out2]. cbn [snd] in Hi.
  repeat case_match; cbn [snd]; by rewrite !outgoing_app, Hs1, Hi.
Qed.
Lemma message_outgoing env msg o : outgoing (owner_message env msg o).2 = [].
Proof.
  destruct msg as [c|c cmd|c b|c why|c|c|on|n|]; cbn [owner_message]; repeat case_match; simplify_eq; try done; [apply closed_outgoing|].
  pose proof (every_outgoing o) as H1. by match goal with H : close_every o = _ |- _ => rewrite H in H1 end.
Qed.

(** ** What the connections give *)
Abbreviation Given := (gmap ConnId (list EngineInput)) (only parsing).
Definition inputs_of (H : Given) (c : ConnId) : list EngineInput := default [] (H !! c).
Definition note_given (x : option (ConnId * EngineInput)) (H : Given) : Given :=
  match x with Some (c, i) => <[c := inputs_of H c ++ [i]]> H | None => H end.
(** The input a message stands for: none from a connection the node does not
    serve. *)
Definition served (c : ConnId) (i : EngineInput) o : option (ConnId * EngineInput) :=
  match ow_seqs o !! c with Some _ => Some (c, i) | None => None end.
Definition given env (msg : EngineMsg) o : option (ConnId * EngineInput) :=
  match msg with
  | EngineMsg.Connect c => if ow_isolated o || bool_decide (is_Some (ow_shutdown o)) then None else Some (c, EngineInput.Connect c)
  | EngineMsg.Command c cmd =>
      let is_put := match cmd with Command.Put _ _ _ _ => true | _ => false end in
      served c (if is_put && queue_full (ow_queue o) then EngineInput.PutRejected c PutRejection.OutOfMemory else EngineInput.Command c cmd) o
  | EngineMsg.PutStarted c too_big => served c (EngineInput.PutStarted c too_big) o
  | EngineMsg.PutRejected c why => served c (EngineInput.PutRejected c why) o
  | EngineMsg.HalfClose c => served c (EngineInput.HalfClose c) o
  | EngineMsg.Disconnect c => if gone env c then None else served c (EngineInput.Disconnect c) o
  | _ => None
  end.
(** New connections have new ids of the node, and no connection gives 2^64
    inputs. *)
Definition legal_message env (msg : EngineMsg) o (H : Given) : bool :=
  match given env msg o with
  | Some (c, EngineInput.Connect _) => bool_decide (inputs_of H c = []) && (owner_of c =? en_id env)%N
  | Some (c, _) => (N.of_nat (length (inputs_of H c)) + 2 <? 2 ^ 64)%N
  | None => true
  end.
Fixpoint note_messages env (msgs : list EngineMsg) o (H : Given) : Given :=
  match msgs with
  | [] => H
  | msg :: msgs => note_messages env msgs (owner_message env msg o).1 (note_given (given env msg o) H)
  end.
Fixpoint legal_messages env (msgs : list EngineMsg) o (H : Given) : bool :=
  match msgs with
  | [] => true
  | msg :: msgs => legal_message env msg o H && legal_messages env msgs (owner_message env msg o).1 (note_given (given env msg o) H)
  end.
Lemma inputs_note c i k H : inputs_of (note_given (Some (c, i)) H) k = inputs_of H k ++ (if decide (k = c) then [i] else []).
Proof.
  unfold inputs_of. cbn. destruct (decide (k = c)) as [->|Hne]; [by rewrite lookup_insert_eq|]. by rewrite lookup_insert_ne, app_nil_r.
Qed.
(** A message pushes the input it stands for, with the next number of its
    connection. *)
Lemma push_tags env c n i o : tags (ow_queue (owner_push env c n i o)) = tags (ow_queue o) ++ [(c, n, i)] ∧ ow_seqs (owner_push env c n i o) = ow_seqs o ∧
  (queue_ok (ow_queue o) → queue_ok (ow_queue (owner_push env c n i o))).
Proof.
  unfold owner_push. set (o1 := if queue_is_empty _ then _ else _). assert (ow_queue o1 = ow_queue o ∧ ow_seqs o1 = ow_seqs o) as [Hq Hs] by (unfold o1; by case_match).
  clearbody o1. change (ow_queue (o1 <| ow_queue ::= queue_push c n i |>)) with (queue_push c n i (ow_queue o1)). rewrite Hq, tags_push. split_and!; [done|done|apply queue_ok_push].
Qed.
Definition pushed env (c : ConnId) (i : EngineInput) o o' : Prop :=
  ∃ n, tags (ow_queue o') = tags (ow_queue o) ++ [(c, n, i)] ∧ (queue_ok (ow_queue o) → queue_ok (ow_queue o')) ∧
    match i with
    | EngineInput.Connect _ => n = 1%N ∧ ow_seqs o' = <[c := 2%N]> (ow_seqs o)
    | EngineInput.Disconnect _ => ow_seqs o !! c = Some n ∧ ow_seqs o' = delete c (ow_seqs o)
    | _ => ow_seqs o !! c = Some n ∧ ow_seqs o' = <[c := incr64 n]> (ow_seqs o)
    end.
Lemma push_next_spec env c i o o0 :
  ow_seqs o = ow_seqs o0 → ow_queue o = ow_queue o0 → match i with EngineInput.Connect _ | EngineInput.Disconnect _ => False | _ => True end →
  match served c i o0 with
  | Some _ => pushed env c i o0 (push_next env c i o)
  | None => tags (ow_queue (push_next env c i o)) = tags (ow_queue o0) ∧ (queue_ok (ow_queue o0) → queue_ok (ow_queue (push_next env c i o))) ∧
      ow_seqs (push_next env c i o) ⊆ ow_seqs o0
  end.
Proof.
  intros Hs Hq Hi. unfold served, push_next. rewrite Hs. destruct (ow_seqs o0 !! c) as [n|] eqn:Hn; [|by rewrite Hs, Hq].
  exists n. destruct (push_tags env c n i (o <| ow_seqs ::= <[c := incr64 n]> |>)) as (H1 & H2 & H3).
  change (ow_queue (o <| ow_seqs ::= <[c := incr64 n]> |>)) with (ow_queue o) in H1, H3.
  change (ow_seqs (o <| ow_seqs ::= <[c := incr64 n]> |>)) with (<[c := incr64 n]> (ow_seqs o)) in H2. rewrite H1, Hq, H2, Hs. rewrite Hq in H3.
  split_and!; [done|done|]. by destruct i.
Qed.
Lemma message_spec env msg o :
  match given env msg o with
  | Some (c, i) => pushed env c i o (owner_message env msg o).1 ∧ input_conn i = Some c
  | None => tags (ow_queue (owner_message env msg o).1) = tags (ow_queue o) ∧ (queue_ok (ow_queue o) → queue_ok (ow_queue (owner_message env msg o).1)) ∧
      ow_seqs (owner_message env msg o).1 ⊆ ow_seqs o
  end.
Proof.
  assert (∀ c i o1, ow_seqs o1 = ow_seqs o → ow_queue o1 = ow_queue o → match i with EngineInput.Connect _ | EngineInput.Disconnect _ => False | _ => True end →
    input_conn i = Some c → match served c i o with
    | Some (c', i') => pushed env c' i' o (push_next env c i o1) ∧ input_conn i' = Some c'
    | None => tags (ow_queue (push_next env c i o1)) = tags (ow_queue o) ∧ (queue_ok (ow_queue o) → queue_ok (ow_queue (push_next env c i o1))) ∧
        ow_seqs (push_next env c i o1) ⊆ ow_seqs o end) as Hnext.
  { intros c i o1 H1 H2 H3 Hc. pose proof (push_next_spec env c i o1 o H1 H2 H3) as H. unfold served in *. by destruct (ow_seqs o !! c). }
  destruct msg as [c|c cmd|c b|c why|c|c|on|n|]; cbn [owner_message given]; try (by apply Hnext); try done.
  - destruct (ow_isolated o || _); [done|]. cbn [fst]. split; [|done]. exists 1%N.
    destruct (push_tags env c 1 (EngineInput.Connect c) (o <| ow_clients ::= clients_insert c |> <| ow_seqs ::= <[c:=2%N]> |>)) as (H1 & H2 & H3). done.
  - cbv zeta. destruct (match cmd with Command.Put _ _ _ _ => true | _ => false end && queue_full (ow_queue o)); by apply Hnext.
  - unfold served. change (ow_seqs (o <| ow_clients ::= clients_remove c |>)) with (ow_seqs o). destruct (ow_seqs o !! c) as [n|] eqn:Hn; [|destruct (gone env c); split_and!; [done|done|reflexivity|done|done|reflexivity]].
    destruct (gone env c); [split_and!; [done|done|apply delete_subseteq]|]. split; [|done]. exists n. cbn [fst].
    destruct (push_tags env c n (EngineInput.Disconnect c) (o <| ow_clients ::= clients_remove c |> <| ow_seqs ::= delete c |>)) as (H1 & H2 & H3). done.
Qed.

(** ** The invariant *)
Definition before (t t' : Tag) : Prop := t.1.1 = t'.1.1 → (t.1.2 < t'.1.2)%N.
Record Sender (id : NodeId) (H : Given) (D : ConnId * N → Prop) o : Prop := {
  se_conn c i : i ∈ inputs_of H c → input_conn i = Some c;
  se_owner c : inputs_of H c ≠ [] → owner_of c = id;
  se_tags c n i : (c, n, i) ∈ tags (ow_queue o) → (1 ≤ n)%N ∧ inputs_of H c !! N.to_nat (n - 1) = Some i;
  se_seqs c n : ow_seqs o !! c = Some n → inputs_of H c ≠ [] ∧ n = (N.of_nat (length (inputs_of H c)) + 1)%N;
  se_kept c k i : inputs_of H c !! k = Some i → (c, N.of_nat k + 1, i)%N ∈ tags (ow_queue o) ∨ D (c, N.of_nat k + 1)%N;
  se_sorted : StronglySorted before (tags (ow_queue o));
  se_queue : queue_ok (ow_queue o);
}.
Lemma sorted_sublist {A} (R : A → A → Prop) l l' : l' `sublist_of` l → StronglySorted R l → StronglySorted R l'.
Proof.
  intros Hs Hl. induction Hs as [|x l1 l2 Hs IH|x l1 l2 Hs IH]; [done| |by inversion Hl; auto]. inversion Hl; subst. constructor; [auto|].
  apply Forall_forall. intros y Hy. eapply Forall_forall; [done|]. by eapply elem_of_sublist.
Qed.
Lemma Sender_thins id H (D D' : ConnId * N → Prop) P o o' :
  thins P o o' → (∀ x, D x → D' x) → (∀ x, P x → D' x) → Sender id H D o → Sender id H D' o'.
Proof.
  intros [Hs Hsub Hk Hok] HD HP [H1 H2 H3 H4 H5 H6 H7]. split; auto.
  - intros c n i Hin. apply H3. by eapply elem_of_sublist.
  - intros c n. rewrite Hs. apply H4.
  - intros c k i [Hin|?]%H5; [|by right; auto]. apply Hk in Hin as [?|?]; [by left|by right; auto].
  - by eapply sorted_sublist.
Qed.
Lemma Sender_still id H D o o' : thins (λ _, False) o o' → Sender id H D o → Sender id H D o'.
Proof. intros Ht. by apply (Sender_thins id H D D (λ _, False) o o'). Qed.
Lemma Sender_mono id H (D D' : ConnId * N → Prop) o : (∀ x, D x → D' x) → Sender id H D o → Sender id H D' o.
Proof. intros HD. by apply (Sender_thins id H D D' (λ _, False) o o). Qed.
Lemma Sender_push id H D env c i o o' :
  pushed env c i o o' → input_conn i = Some c →
  match i with EngineInput.Connect _ => inputs_of H c = [] ∧ owner_of c = id | _ => (N.of_nat (length (inputs_of H c)) + 2 < 2 ^ 64)%N end →
  Sender id H D o → Sender id (note_given (Some (c, i)) H) D o'.
Proof.
  intros (n & Ht & Hok & Hi) Hc Hl [H1 H2 H3 H4 H5 H6 H7].
  assert (n = N.of_nat (length (inputs_of H c)) + 1)%N as Hn.
  { destruct i; try (by apply H4, Hi). destruct Hi as [-> _], Hl as [-> _]. done. }
  assert (owner_of c = id) as Ho by (destruct i; try (by eapply H2, H4, Hi); apply Hl).
  split; rewrite ?Ht.
  - intros k j. rewrite inputs_note. intros [?|Hj]%elem_of_app; [auto|]. destruct (decide (k = c)) as [->|]; [|by apply not_elem_of_nil in Hj].
    by apply list_elem_of_singleton in Hj as ->.
  - intros k. rewrite inputs_note. destruct (decide (k = c)) as [->|]; [done|]. rewrite app_nil_r. apply H2.
  - intros k m j [Hin|Hin]%elem_of_app.
    + destruct (H3 k m j Hin) as [? Hl']. split; [done|]. rewrite inputs_note. by apply lookup_app_l_Some.
    + apply list_elem_of_singleton in Hin. simplify_eq. split; [lia|]. rewrite inputs_note, decide_True by done.
      rewrite lookup_app_r by lia. replace (N.to_nat _ - _) with 0 by lia. done.
  - intros k m Hm. rewrite inputs_note. destruct (decide (k = c)) as [->|Hne].
    + split; [by destruct (inputs_of H c)|]. rewrite length_app. cbn [length].
      destruct i; destruct Hi as [Hi1 Hs]; rewrite Hs in Hm; rewrite ?lookup_insert_eq, ?lookup_delete_eq in Hm; simplify_eq;
        try (unfold incr64, wrap64; rewrite N.mod_small by lia; lia). destruct Hl as [-> _]. done.
    + rewrite app_nil_r. apply H4. destruct i; destruct Hi as [Hi1 Hs]; rewrite Hs in Hm; by rewrite ?lookup_insert_ne, ?lookup_delete_ne in Hm by done.
  - intros k m j. rewrite inputs_note. intros [Hm|[Hlen Hm]]%lookup_app_Some.
    + destruct (H5 k m j Hm) as [?|?]; [left; rewrite elem_of_app; by left|by right].
    + destruct (decide (k = c)) as [->|]; [|done]. apply list_lookup_singleton_Some in Hm as [Hm ->]. left. rewrite elem_of_app, list_elem_of_singleton. right. f_equal. f_equal. lia.
  - apply StronglySorted_app. split_and!; [|done|by repeat constructor]. intros [[k m] j] t Hin ->%list_elem_of_singleton Hk. cbn in Hk |- *. subst k.
    destruct (H3 c m j Hin) as [? ?%lookup_lt_Some]. lia.
  - by apply Hok.
Qed.
Lemma Sender_message id H D env msg o :
  en_id env = id → legal_message env msg o H = true → Sender id H D o → Sender id (note_given (given env msg o) H) D (owner_message env msg o).1.
Proof.
  intros Hid Hl Hs. pose proof (message_spec env msg o) as Hm. unfold legal_message in Hl. destruct (given env msg o) as [[c i]|].
  - destruct Hm as [Hp Hc]. eapply Sender_push; [exact Hp|done| |done].
    destruct i; try (by apply N.ltb_lt). apply andb_true_iff in Hl as [Hl1%bool_decide_eq_true Hl2%N.eqb_eq]. by subst.
  - destruct Hm as (Ht & Hok & Hsub). destruct Hs as [H1 H2 H3 H4 H5 H6 H7]. split; rewrite ?Ht; auto. intros c n Hn. apply H4. by eapply lookup_weaken.
Qed.
Lemma Sender_messages id H D env msgs s :
  en_id env = id → legal_messages env msgs s.1 H = true → Sender id H D s.1 →
  let s' := foldl (λ s m, then_do (owner_message env m) s) s msgs in
  Sender id (note_messages env msgs s.1 H) D s'.1 ∧ outgoing s'.2 = outgoing s.2.
Proof.
  cbv zeta. intros Hid. revert H s. induction msgs as [|msg msgs IH]; intros H s Hl Hs; [done|]. cbn [legal_messages note_messages foldl] in *.
  apply andb_true_iff in Hl as [Hl1 Hl2]. pose proof (Sender_message id H D env msg s.1 Hid Hl1 Hs) as H1. pose proof (message_outgoing env msg s.1) as Ho.
  unfold then_do at 2 4. destruct (owner_message env msg s.1) as [o1 out1] eqn:He. cbn [fst snd] in *.
  destruct (IH _ (o1, s.2 ++ out1) Hl2 H1) as [H2 H3]. split; [exact H2|]. rewrite H3. cbn [snd]. by rewrite outgoing_app, Ho, app_nil_r.
Qed.

(** ** Turns *)
Definition after_events env (events : list (ConnId * N)) o : Owner * list Out :=
  foldl (λ s '(conn, seq), then_do (on_event env conn seq) s) (o, []) events.
Definition turn_given env (events : list (ConnId * N)) (w : OwnerWake) o (H : Given) : Given :=
  match w with OwnerWake.Message msg more => note_messages env (msg :: take MAX_DRAIN more) (after_events env events o).1 H | _ => H end.
Definition legal_turn env (events : list (ConnId * N)) (w : OwnerWake) o (H : Given) : bool :=
  match w with OwnerWake.Message msg more => legal_messages env (msg :: take MAX_DRAIN more) (after_events env events o).1 H | _ => true end.
Lemma events_spec env events s :
  let s' := foldl (λ s '(conn, seq), then_do (on_event env conn seq) s) s events in
  thins (λ x, x ∈ events ∨ settled env x) s.1 s'.1 ∧ outgoing s'.2 = outgoing s.2.
Proof.
  cbv zeta. revert s. induction events as [|[c n] events IH]; intros s; [done|]. cbn [foldl]. pose proof (thins_event env c n s.1) as H1.
  pose proof (event_outgoing env c n s.1) as H2. unfold then_do at 2 4. destruct (on_event env c n s.1) as [o1 out1]. cbn [fst snd] in *.
  destruct (IH (o1, s.2 ++ out1)) as [H3 H4]. split.
  - etrans; [eapply thins_weaken; [|exact H1]|eapply thins_weaken; [|exact H3]]; cbn; set_solver.
  - rewrite H4. cbn [snd]. by rewrite outgoing_app, H2, app_nil_r.
Qed.
(** An input that was given with its number. *)
Definition in_place (H : Given) (x : N * EngineInput) : Prop :=
  ∃ c, input_conn x.2 = Some c ∧ (1 ≤ x.1)%N ∧ inputs_of H c !! N.to_nat (x.1 - 1) = Some x.2.
Lemma Sender_wake id H (D : ConnId * N → Prop) env w s :
  en_id env = id → match w with OwnerWake.Message msg more => legal_messages env (msg :: take MAX_DRAIN more) s.1 H = true | _ => True end →
  (∀ x, settled env x → D x) → Sender id H D s.1 →
  let s' := (on_wake env w s).2 in
  Sender id (match w with OwnerWake.Message msg more => note_messages env (msg :: take MAX_DRAIN more) s.1 H | _ => H end) D s'.1 ∧ outgoing s'.2 = outgoing s.2.
Proof.
  intros Hid Hl HD Hs. destruct w as [msg more|target res| |]; unfold on_wake.
  - apply Sender_messages; done.
  - unfold then_do. cbn [fst snd]. split; [|by rewrite app_nil_r]. eapply Sender_still; [|exact Hs].
    etrans; [|apply thins_result]. by apply thins_same.
  - unfold then_do. pose proof (thins_view (λ _, False) env s.1) as Hv. destruct (on_view_change env s.1) as [ch o1]. cbn [fst snd] in *.
    split; [|by rewrite app_nil_r]. eapply Sender_still; [|exact Hs]. etrans; [exact Hv|]. apply thins_same; by case_match.
  - pose proof (thins_tick env s.1) as Ht. pose proof (tick_outgoing env s.1) as Ho. destruct (on_tick env s.1) as [stop [o1 out1]]. cbn [fst snd] in *.
    split; [by apply (Sender_thins id H D D (settled env) s.1)|]. by rewrite outgoing_app, Ho, app_nil_r.
Qed.
Lemma Sender_turn id H (D D' : ConnId * N → Prop) env events w o :
  en_id env = id → legal_turn env events w o H = true → (∀ x, D x → D' x) → (∀ x, x ∈ events ∨ settled env x → D' x) → Sender id H D o →
  let r := turn env events w o in let H' := turn_given env events w o H in
  Sender id H' D' r.2.1 ∧ Forall (in_place H') (outgoing r.2.2).
Proof.
  intros Hid Hl HD HD' Hs. unfold turn. destruct (events_spec env events (o, [])) as [He Ho]. fold (after_events env events o) in He, Ho |- *.
  assert (Sender id H D' (after_events env events o).1) as Hs1 by (by eapply (Sender_thins id H D D'); [exact He|..]). clear Hs He.
  assert (let s' := (on_wake env w (after_events env events o)).2 in Sender id (turn_given env events w o H) D' s'.1 ∧ outgoing s'.2 = outgoing (after_events env events o).2) as [Hs2 Ho2].
  { unfold turn_given, legal_turn in *. pose proof (Sender_wake id H D' env w (after_events env events o) Hid) as Hw. destruct w; apply Hw; auto. }
  rewrite Ho in Ho2. destruct (on_wake env w (after_events env events o)) as [stop s2]. cbn [fst snd] in *. destruct stop; cbn [fst snd]; [by rewrite Ho2|].
  assert (let s3 := match ow_inflight s2.1 with Some _ => s2 | None => then_do (pump env) s2 end in
    Sender id (turn_given env events w o H) D' s3.1 ∧ Forall (in_place (turn_given env events w o H)) (outgoing s3.2)) as [Hs3 Ho3].
  { cbv zeta. destruct (ow_inflight s2.1); [by rewrite Ho2|]. unfold then_do. destruct (pump_spec (λ _, False) env s2.1) as [Hp [k Hk]].
    destruct (pump env s2.1) as [o3 out3]. cbn [fst snd] in *. split; [by eapply Sender_still|].
    rewrite outgoing_app, Ho2, Hk. apply Forall_fmap, Forall_forall. intros [[c n] i] Hin. apply elem_of_take in Hin as (m & Hm & _).
    rewrite lookup_drop in Hm. apply list_elem_of_lookup_2 in Hm. destruct (se_tags _ _ _ _ Hs2 c n i Hm) as [H1 H2].
    exists c. split_and!; [|done|done]. eapply (se_conn _ _ _ _ Hs2). by eapply list_elem_of_lookup_2. }
  split; [|exact Ho3]. eapply Sender_still; [|exact Hs3]. by apply thins_same.
Qed.

(** ** Runs *)
Record Turn := mkTurn { tn_env : Env; tn_events : list (ConnId * N); tn_wake : OwnerWake }.
(** Whether the task has ended, the task, what was given, what went out. *)
Abbreviation OwnerRun := (bool * Owner * Given * list Out)%type (only parsing).
Definition owner_turn (r : OwnerRun) (t : Turn) : OwnerRun :=
  let '(stopped, o, H, out) := r in
  if stopped then r
  else
    let '(stop, (o', out')) := turn (tn_env t) (tn_events t) (tn_wake t) o in
    (stop, o', turn_given (tn_env t) (tn_events t) (tn_wake t) o H, out ++ out').
Definition owner_run env (l : list Turn) : OwnerRun := foldl owner_turn (false, Owner_new env, ∅, []) l.
Fixpoint legal_turns (id : NodeId) (l : list Turn) (r : OwnerRun) : bool :=
  match l with
  | [] => true
  | t :: l => (en_id (tn_env t) =? id)%N && legal_turn (tn_env t) (tn_events t) (tn_wake t) r.1.1.2 r.1.2 && legal_turns id l (owner_turn r t)
  end.
(** What the events and the applied states of the turns say is done. *)
Definition told (l : list Turn) (x : ConnId * N) : Prop := ∃ t, t ∈ l ∧ (x ∈ tn_events t ∨ settled (tn_env t) x).
Lemma in_place_grow env events w o H x : in_place H x → in_place (turn_given env events w o H) x.
Proof.
  intros (c & Hc & Hx & Hl). exists c. split_and!; [done|done|]. unfold turn_given. destruct w as [msg more| | |]; try done.
  generalize (msg :: take MAX_DRAIN more) as msgs, (after_events env events o).1 as o1. intros msgs. revert H Hl.
  induction msgs as [|m msgs IH]; intros H Hl o1; [done|]. cbn [note_messages]. apply IH. destruct (given env m o1) as [[k i]|]; [|done].
  rewrite inputs_note. by apply lookup_app_l_Some.
Qed.
Lemma Sender_new id env : Sender id ∅ (λ _, False) (Owner_new env).
Proof. split; try done; [by intros ? ? ?%not_elem_of_nil|by intros ? ? ? ?%not_elem_of_nil|constructor]. Qed.
Lemma Sender_turns id l r D :
  legal_turns id l r = true → Sender id r.1.2 D r.1.1.2 → Forall (in_place r.1.2) (outgoing r.2) →
  let r' := foldl owner_turn r l in
  Sender id r'.1.2 (λ x, D x ∨ told l x) r'.1.1.2 ∧ Forall (in_place r'.1.2) (outgoing r'.2).
Proof.
  cbv zeta. revert r D. induction l as [|t l IH]; intros r D Hl Hs Ho.
  { split; [|done]. eapply Sender_mono; [|exact Hs]. by left. }
  cbn [legal_turns foldl] in *. apply andb_true_iff in Hl as [[Hid%N.eqb_eq Hl1]%andb_true_iff Hl2].
  assert (Sender id (owner_turn r t).1.2 (λ x, D x ∨ told [t] x) (owner_turn r t).1.1.2 ∧ Forall (in_place (owner_turn r t).1.2) (outgoing (owner_turn r t).2)) as [Hs' Ho'].
  { destruct r as [[[stopped o] H] out]. unfold owner_turn in *. cbn [fst snd] in *. destruct stopped.
    { split; [|done]. eapply Sender_mono; [|exact Hs]. by left. }
    pose proof (Sender_turn id H D (λ x, D x ∨ told [t] x) (tn_env t) (tn_events t) (tn_wake t) o Hid Hl1) as Ht.
    destruct (turn (tn_env t) (tn_events t) (tn_wake t) o) as [stop [o' out']]. cbn [fst snd] in *. destruct Ht as [Ht1 Ht2]; [by left| |done|].
    { intros x Hx. right. exists t. split; [by left|done]. }
    split; [done|]. rewrite outgoing_app. apply Forall_app. split; [|done]. eapply Forall_impl; [done|]. intros x. apply in_place_grow. }
  destruct (IH _ _ Hl2 Hs' Ho') as [H1 H2]. split; [|done]. eapply Sender_mono; [|exact H1].
  intros x [[?|(t' & Ht' & ?)]|(t' & Ht' & ?)]; [by left|right; exists t'; set_solver..].
Qed.
Lemma owner_run_sender env id l :
  legal_turns id l (false, Owner_new env, ∅, []) = true →
  let r := owner_run env l in Sender id r.1.2 (told l) r.1.1.2 ∧ Forall (in_place r.1.2) (outgoing r.2).
Proof.
  intros Hl. destruct (Sender_turns id l _ _ Hl (Sender_new id env)) as [H1 H2]; [constructor|]. split; [|done].
  eapply Sender_mono; [|exact H1]. naive_solver.
Qed.
End runs.
