(* ===== verification/ClusterSpec.v ===== *)
(** * The cluster's properties

    Of the replicated state machine, over any log: replicas agree, every input
    of a connection is taken once and in order, batches and snapshots are not
    seen in the state.  Of a node: its connection numbers are new, it forwards
    every input until it is applied, and no node acts for another's
    connections. *)

From S2P Require Import Prelude Ms Proto Stats Parse Model Engine Inv Validate Snapshot Valid Reach Start Seats Actor.
From S2P Require Import Scenario StateSpec Cluster ClusterRun ClusterBatch ClusterSnap ConnIds Forward ForwardRun.
From stdpp Require Import options.

#[local] Instance EngineInput_eq_dec : EqDecision EngineInput.
Proof. solve_decision. Defined.

(** ** A log of two nodes *)
Definition node1 : Shared := mkShared 1 plain_config plain_sys.
Definition node2 : Shared := mkShared 2 plain_config (mkSysSnapshot 77 "1.0" (0, 0)%N (0, 0)%N "id2" "host2" "linux" "x86_64").
Definition conn1 : ConnId := conn_id 1 5.
Definition conn2 : ConnId := conn_id 2 7.
Definition put_x (c : ConnId) : EngineInput := EngineInput.Command c (Command.Put 10 0 60 (bs "x")).
Definition demo_log : list (N * EntryPayload (list N)) :=
  [(1, EntryPayload.Members [1; 2]);
   (2, EntryPayload.Normal (mkRequest 10 (RaftOp.Batch [(1, EngineInput.Connect conn1); (2, put_x conn1)])));
   (3, EntryPayload.Normal (mkRequest 9 (RaftOp.Conn 1 (EngineInput.Connect conn2))));
   (4, EntryPayload.Normal (mkRequest 11 (RaftOp.Batch [(2, put_x conn1); (2, EngineInput.Command conn2 Command.Reserve)])));
   (5, EntryPayload.Normal (mkRequest 12 (RaftOp.DropNode 2 7)))]%N.

(** C11. Nodes with the same configuration that apply the same entries from
    states that agree give the same results and agree again, whatever their
    node ids, process facts and the connections they answer. *)
Theorem replicas_agree {Sid Membership : Type} (index : Sid → N) (nodes : Membership → list NodeId) sh1 sh2 entries (c1 c2 : Core Sid Membership) :
  sh_cfg sh1 = sh_cfg sh2 → agree c1 c2 →
  (apply index nodes sh1 entries c1).1 = (apply index nodes sh2 entries c2).1 ∧
  agree (apply index nodes sh1 entries c1).2.1 (apply index nodes sh2 entries c2).2.1.
Proof. apply apply_agree. Qed.
Lemma opened_agree sh1 sh2 : sh_cfg sh1 = sh_cfg sh2 → agree (opened sh1 ([] : list N) : Core N (list N)) (opened sh2 []).
Proof. intros H. split_and!; [by apply alike_new|done..]. Qed.
Lemma replicas_agree_witness : agree (replayed id id node1 [] demo_log) (replayed id id node2 [] demo_log).
Proof. exact (proj2 (replicas_agree id id node1 node2 demo_log (opened node1 []) (opened node2 []) eq_refl (opened_agree node1 node2 eq_refl))). Defined.

(** C13. Over any log, the engine of a node is what the accepted inputs make of
    a new engine, and the inputs accepted of a connection are numbered 1, 2,
    ... without gap or repetition, begin with its connect and end with its
    disconnect, however often and in which order inputs were sent again. *)
Theorem inputs_once {Sid Membership : Type} (index : Sid → N) (nodes : Membership → list NodeId) sh none entries :
  (N.of_nat (length (planned index nodes entries).2) + 2 < 2 ^ 64)%N →
  let c := replayed index nodes sh none entries in let steps := (planned index nodes entries).2 in
  cr_engine c = exec sh steps (new_engine 0 sh) ∧
  ∀ k, let h := numbered k steps in
    h.*1 = numbers (length h) ∧ (∀ i, i ∈ h.*2 → input_conn i = Some k) ∧ h ⊆ log_items entries ∧
    (∀ x, head h = Some x → x.2 = EngineInput.Connect k) ∧ (∀ n x, h !! n = Some x → x.2 = EngineInput.Disconnect k → S n = length h).
Proof.
  intros Hl c steps. split; [by destruct (replayed_follows index nodes sh none entries []) as (_ & H & _)|]. intros k h.
  destruct (planned_history index nodes entries k Hl) as [H1 H2 _ H3 H4 _]. split_and!; [done| | |done|by intros n x Hn Hx; destruct (H4 n x Hn Hx)].
  - intros i ([m j] & -> & Hin)%list_elem_of_fmap. by eapply Forall_forall in H2.
  - intros x Hx. destruct (takes_plan index nodes k entries (None, (SmMeta_default, [])) x Hx) as [H|H]; [by apply not_elem_of_nil in H|done].
Qed.
Lemma inputs_once_witness : numbered conn1 (planned id id demo_log).2 = [(1, EngineInput.Connect conn1); (2, put_x conn1)]%N ∧
  cr_engine (replayed id id node1 [] demo_log) = exec node1 (planned id id demo_log).2 (new_engine 0 node1).
Proof.
  assert (length (planned id id demo_log).2 = 6) as Hlen by (vm_compute; reflexivity).
  split; [vm_compute; reflexivity|]. apply (inputs_once id id node1 [] demo_log). rewrite Hlen. done.
Defined.

(** ** Between a node and the log *)
Abbreviation DemoEnv := (Env N (list N)) (only parsing).
Definition demo_env (now : N) (leader : option NodeId) : DemoEnv :=
  mkEnv now 1 NANOS_PER_SEC true leader (bool_decide (leader = Some 1%N)) 3 2 (Some 0%N) (opened node1 []).
(** The leader is another node; it does not take the first forward, and the
    node's own election follows. *)
Definition demo_turns : list (Turn (Sid := N) (Membership := list N)) :=
  [mkTurn (demo_env 1 (Some 2%N)) [] (OwnerWake.Message (EngineMsg.Connect conn1) [EngineMsg.Command conn1 (Command.Put 10 0 60 (bs "x"))]);
   mkTurn (demo_env 2 (Some 2%N)) [] (OwnerWake.Forwarded 2 (Some (ForwardResponse.NotLeader None)));
   mkTurn (demo_env 100000000 (Some 1%N)) [] OwnerWake.View;
   mkTurn (demo_env 100000001 (Some 1%N)) [(conn1, 1%N)] OwnerWake.Tick].
Lemma demo_turns_legal : legal_turns 1 demo_turns (false, Owner_new (demo_env 0 None), ∅, []) = true.
Proof. vm_compute. reflexivity. Qed.
Lemma demo_turns_given : inputs_of (owner_run (demo_env 0 None) demo_turns).1.2 conn1 = [EngineInput.Connect conn1; put_x conn1].
Proof. vm_compute. reflexivity. Qed.
Lemma demo_turns_sent :
  outgoing (owner_run (demo_env 0 None) demo_turns).2 =
    [(1, EngineInput.Connect conn1); (2, put_x conn1); (1, EngineInput.Connect conn1); (2, put_x conn1)]%N.
Proof. vm_compute. reflexivity. Qed.

(** C12. End to end: if what the log has of a node's connection was sent by the
    node, in whatever batches, however often and in whatever order, then the
    inputs accepted of the connection are the first ones that the connection
    gave the node, each once and in order. *)
Theorem forwarded_once {Sid Membership Sid' Membership' : Type} (index : Sid → N) (nodes : Membership → list NodeId)
    (env : Env Sid' Membership') id turns entries k :
  let r := owner_run env turns in
  legal_turns id turns (false, Owner_new env, ∅, []) = true → (N.of_nat (length (planned index nodes entries).2) + 2 < 2 ^ 64)%N →
  (∀ x, x ∈ log_items entries → input_conn x.2 = Some k → x ∈ outgoing r.2) →
  (numbered k (planned index nodes entries).2).*2 `prefix_of` inputs_of r.1.2 k.
Proof.
  intros r Hl Hlen Hlog. destruct (owner_run_sender env id turns Hl) as [_ Hsent]. fold r in Hsent. destruct (planned_history index nodes entries k Hlen) as [H1 H2 _ _ _ _].
  apply accepted_prefix; [done|]. intros n i Hin. eapply Forall_forall in H2 as Hi; [|exact Hin]. cbn in Hi.
  assert ((n, i) ∈ log_items entries) as HL.
  { destruct (takes_plan index nodes k entries (None, (SmMeta_default, [])) (n, i) Hin) as [H|H]; [by apply not_elem_of_nil in H|done]. }
  apply Hlog in HL; [|done]. eapply Forall_forall in Hsent; [|exact HL]. destruct Hsent as (c & Hc & _ & Hp). cbn in *. congruence.
Qed.
Lemma forwarded_once_witness :
  (numbered conn1 (planned id id demo_log).2).*2 `prefix_of` inputs_of (owner_run (demo_env 0 None) demo_turns).1.2 conn1.
Proof.
  assert (length (planned id id demo_log).2 = 6) as Hlen by (vm_compute; reflexivity).
  apply (forwarded_once id id (demo_env 0 None) 1 demo_turns demo_log conn1 demo_turns_legal); [by rewrite Hlen|]. rewrite demo_turns_sent.
  assert (forallb (λ x, negb (bool_decide (input_conn x.2 = Some conn1)) ||
    bool_decide (x ∈ [(1, EngineInput.Connect conn1); (2, put_x conn1); (1, EngineInput.Connect conn1); (2, put_x conn1)]%N)) (log_items demo_log) = true) as Hf
    by (vm_compute; reflexivity).
  rewrite forallb_forall in Hf. intros x Hx%list_elem_of_In Hc. specialize (Hf x Hx). rewrite bool_decide_eq_true_2 in Hf by done. by apply bool_decide_eq_true in Hf.
Defined.

(** C14. No input is lost on the way: at any time, everything the connections
    of a node gave is in its queue, in order and with the number of its place,
    until its application was reported or the applied state showed it to be
    applied or its connection gone.  The queue's count of bytes is exact, so
    it is never below the size of an item that leaves, and the cursor is in
    the queue. *)
Theorem no_input_lost {Sid Membership : Type} (env : Env Sid Membership) id turns :
  legal_turns id turns (false, Owner_new env, ∅, []) = true →
  let '(_, o, H, _) := owner_run env turns in
  (∀ c k i, inputs_of H c !! k = Some i → (c, N.of_nat k + 1, i)%N ∈ tags (ow_queue o) ∨ told turns (c, N.of_nat k + 1)%N) ∧
  (∀ c n i, (c, n, i) ∈ tags (ow_queue o) → (1 ≤ n)%N ∧ inputs_of H c !! N.to_nat (n - 1) = Some i ∧ input_conn i = Some c ∧ owner_of c = id) ∧
  StronglySorted before (tags (ow_queue o)) ∧ fq_bytes (ow_queue o) = sizes (fq_items (ow_queue o)) ∧ fq_cursor (ow_queue o) ≤ length (fq_items (ow_queue o)).
Proof.
  intros Hl. destruct (owner_run_sender env id turns Hl) as [[H1 H2 H3 H4 H5 H6 [_ H7 H8]] _]. destruct (owner_run env turns) as [[[stop o] H] out].
  cbn [fst snd] in *. split_and!; try done. intros c n i Hin. destruct (H3 c n i Hin) as [Hn Hi]. split_and!; try done.
  - eapply H1. by eapply list_elem_of_lookup_2.
  - apply H2. intros Hnil. by rewrite Hnil in Hi.
Qed.
Lemma no_input_lost_witness :
  let o := (owner_run (demo_env 0 None) demo_turns).1.1.2 in tags (ow_queue o) = [(conn1, 2%N, put_x conn1)] ∧ fq_bytes (ow_queue o) = sizes (fq_items (ow_queue o)).
Proof.
  cbv zeta. split; [vm_compute; reflexivity|]. pose proof (no_input_lost (demo_env 0 None) 1 demo_turns demo_turns_legal) as H.
  destruct (owner_run (demo_env 0 None) demo_turns) as [[[stop o] G] out]. apply H.
Defined.

(** C19. What the listener lets a peer forward only concerns the peer's own
    connections: another node's connection keeps its next number, and is
    neither opened nor closed; another node's highest number stays. *)
Theorem forward_owned sh peer req now (e : Engine) m ev c n :
  check_forward peer req = true → sm_started m = true → owner_of c ≠ peer → n ≠ peer →
  let items := (λ '(_, seq, input), (seq, input)) <$> fw_items req in
  let s' := (apply_request sh (mkRequest now (RaftOp.Batch items)) (e, m, ev)).2 in
  sm_next_seq s'.1.2 !! c = sm_next_seq m !! c ∧ (c ∈ seats s'.1.1 ↔ c ∈ seats e) ∧ sm_highest_local s'.1.2 !! n = sm_highest_local m !! n.
Proof.
  intros Hf Hst Hc Hn items. apply (apply_forwarded sh peer items now e m ev c n); try done. by apply check_forward_owned.
Qed.
Definition demo_core : Core N (list N) := replayed id id node1 [] demo_log.
Definition demo_forward : ForwardRequest := mkForwardRequest 2 [(conn_id 2 8, 1%N, EngineInput.Connect (conn_id 2 8))].
Lemma forward_owned_witness :
  sm_next_seq (apply_request node1 (mkRequest 20 (RaftOp.Batch [(1%N, EngineInput.Connect (conn_id 2 8))])) (cr_engine demo_core, cr_meta demo_core, [])).2.1.2 !! conn1 = Some 3%N.
Proof.
  assert (sm_next_seq (cr_meta demo_core) !! conn1 = Some 3%N) as <- by (vm_compute; reflexivity).
  apply (forward_owned node1 2 demo_forward 20 (cr_engine demo_core) (cr_meta demo_core) [] conn1 1); vm_compute; done.
Defined.

(** ** Entries *)
(** C21. The proposer's batch is the longest one the limits of an entry allow,
    one larger input being alone in its entry; what it leaves stays queued in
    order; and splitting a list of inputs into entries is taking such batches
    until nothing is left. *)
Theorem batches_maximal items :
  let '(b, rest) := next_batch items in
  b ++ rest = items ∧ fits b ∧ (b = [] ↔ items = []) ∧ (∀ b', b' `prefix_of` items → fits b' → length b' ≤ length b) ∧
  split_batches items = (if bool_decide (b = []) then [] else b :: split_batches rest) ∧ concat (split_batches items) = items.
Proof.
  pose proof (next_batch_longest items) as (H1 & H2 & H3). pose proof (next_batch_nil items) as H4. pose proof (split_batches_next items) as H5.
  pose proof (concat_split_batches items) as H6. destruct (next_batch items) as [b rest]. by split_and!.
Qed.

(** C20. How inputs are grouped into entries is not seen: a batch, the batches
    it is split into and its inputs one by one, proposed at the same time,
    leave the same engine, metadata and events. *)
Theorem batch_transparent sh now items s :
  items ≠ [] →
  let whole := (apply_request sh (mkRequest now (RaftOp.Batch items)) s).2 in
  foldl (λ s b, (apply_request sh (mkRequest now (RaftOp.Batch b)) s).2) s (split_batches items) = whole ∧
  foldl (λ s '(seq, i), (apply_request sh (mkRequest now (RaftOp.Conn seq i)) s).2) s items = whole.
Proof.
  intros Hne whole. split.
  - pose proof (concat_split_batches items) as Hc. destruct (split_batches items) as [|b bs]; [by rewrite <-Hc in Hne|]. rewrite batches_concat. unfold whole. by rewrite Hc.
  - destruct items as [|item items]; [done|]. apply singles_batch.
Qed.
Lemma batch_transparent_witness :
  foldl (λ s '(seq, i), (apply_request node1 (mkRequest 5 (RaftOp.Conn seq i)) s).2) (new_engine 0 node1, SmMeta_default, [])
    [(1, EngineInput.Connect conn1); (2, put_x conn1)]%N =
  (apply_request node1 (mkRequest 5 (RaftOp.Batch [(1, EngineInput.Connect conn1); (2, put_x conn1)]%N)) (new_engine 0 node1, SmMeta_default, [])).2.
Proof. apply (batch_transparent node1 5 [(1, EngineInput.Connect conn1); (2, put_x conn1)]%N (new_engine 0 node1, SmMeta_default, [])). done. Defined.

(** ** Snapshots *)
(** C15. A snapshot of the state after a log of legal inputs is accepted by
    every node of the same configuration, when it is sent and when a node
    starts from it; the node then agrees with the first, and still does after
    the rest of the log.  The engine must be within the limits the import
    checks: the tube slots, the list keys and the next job id are at most
    their maxima ([slab_limits]) and the u32 total of connections has not
    wrapped below the number of open ones; the log has at most [run_limit]
    inputs, and the engines keep no journal of their own. *)
Theorem snapshot_moves {Sid Membership : Type} (index : Sid → N) (nodes : Membership → list NodeId) sh sh' none entries (d : Core Sid Membership) :
  let c := replayed index nodes sh none entries in
  sh_cfg sh' = sh_cfg sh → cfg_journal (sh_cfg sh) = false → nodes none = [] →
  legal_steps sh (planned index nodes entries).2 (new_engine 0 sh) = true → (N.of_nat (length (planned index nodes entries).2) ≤ run_limit)%N →
  slab_limits (cr_engine c) → (cur_conns (e_cc (cr_engine c)) ≤ tot_conns (e_cc (cr_engine c)))%N →
  ∃ c' evs, install_snapshot nodes (build_snapshot c) sh' d = Some (c', evs) ∧ open_core nodes sh' none (Some (build_snapshot c)) = Some c' ∧ agree c' c ∧
    ∀ more, (apply index nodes sh' more c').1 = (apply index nodes sh more c).1 ∧ agree (apply index nodes sh' more c').2.1 (apply index nodes sh more c).2.1.
Proof.
  intros c Hcfg Hj Hn Hl Hlen Hsl Hcc. pose proof (replayed_restored index nodes sh sh' none entries Hcfg Hj Hn Hl Hlen Hsl Hcc) as Hr. fold c in Hr.
  destruct (install_moved nodes sh' c d Hr) as [evs Hi]. exists (moved sh' c), evs. split_and!; [done| |apply moved_agree|].
  - assert (mkShared (sh_node sh') (mkEngineConfig (cfg_max_job_size (sh_cfg sh')) (cfg_binlog_max_size (sh_cfg sh')) false) (sh_sys sh') = sh') as Hsh.
    { rewrite <-Hcfg in Hj. destruct sh' as [n [a b j] y]. cbn in *. by rewrite Hj. }
    unfold open_core. rewrite Hsh. change (sn_last_membership (build_snapshot c)) with (cr_membership c). by rewrite Hr.
  - intros more. apply apply_agree; [done|apply moved_agree].
Qed.
Lemma demo_core_limits : slab_limits (cr_engine demo_core).
Proof.
  assert (length (e_tubes (cr_engine demo_core)) = 1) as H1 by (vm_compute; reflexivity).
  assert (e_next_list_seq (cr_engine demo_core) = 1%N) as H2 by (vm_compute; reflexivity).
  assert (e_next_job_id (cr_engine demo_core) = 2%N) as H3 by (vm_compute; reflexivity).
  unfold slab_limits. rewrite H1, H2, H3. split_and!; vm_compute; discriminate.
Qed.
Lemma snapshot_moves_witness : ∃ c' evs, install_snapshot id (build_snapshot demo_core) node2 (opened node2 []) = Some (c', evs) ∧ agree c' demo_core.
Proof.
  assert (e_cc (cr_engine demo_core) = mkConnCounts 1 2 1 0) as Hcc by (vm_compute; reflexivity).
  assert (length (planned id id demo_log).2 = 6) as Hlen by (vm_compute; reflexivity).
  assert (legal_steps node1 (planned id id demo_log).2 (new_engine 0 node1) = true) as Hl by (vm_compute; reflexivity).
  destruct (snapshot_moves id id node1 node2 [] demo_log (opened node2 []) eq_refl eq_refl eq_refl Hl ltac:(rewrite Hlen; done) demo_core_limits) as (c' & evs & H1 & _ & H2 & _).
  - fold demo_core. rewrite Hcc. done.
  - exists c', evs. split; [exact H1|exact H2].
Defined.

(** ** Connection numbers *)
(** C18. A node never gives two connections the same number: over any starts
    and ends of its processes and any failures of the writes of its file, the
    numbers increase; a number below 2^48 is in an id that names the node, and
    the ids are then distinct. *)
Theorem conn_ids_unique node evs :
  (node ≤ MAX_NODE_ID)%N →
  let given := (ids_run node evs).2 in
  StronglySorted N.lt given.*1 ∧
  (∀ l c, (l, c) ∈ given → c = conn_id node l ∧ ((l < 2 ^ 48)%N → owner_of c = node ∧ local_of c = l)) ∧
  (Forall (λ l, l < 2 ^ 48)%N given.*1 → NoDup given.*2).
Proof.
  intros Hn given. destruct (ids_run_ok node evs) as [H1 H2 _ _]. fold given in H1, H2. split_and!; [done| |].
  - intros l c Hin. eapply Forall_forall in H2; [|exact Hin]. cbn in H2. subst c. split; [done|]. by apply conn_id_parts.
  - intros Hlt. by apply (ids_nodup node).
Qed.
Lemma conn_ids_unique_witness :
  let evs := [IdEvent.Start 0 100 WriteResult.Written; IdEvent.Next WriteResult.Written; IdEvent.Next WriteResult.Written;
              IdEvent.Start 0 3 (WriteResult.Failed true); IdEvent.Start 0 3 WriteResult.Written; IdEvent.Next WriteResult.Written]%N in
  (ids_run 9 evs).2.*1 = [6553600; 6553601; 6684672]%N ∧ StronglySorted N.lt (ids_run 9 evs).2.*1.
Proof. cbv zeta. split; [vm_compute; reflexivity|]. apply (conn_ids_unique 9). vm_compute. discriminate. Defined.
