(* ===== verification/Status.v ===== *)
(** * StartDecision decisions

    What a node without Raft state does, from the status of the others
    ([raft/status.rs]): join, rejoin with a vote that is not below any vote it
    may have given before it lost its data, or not start; and whether an
    initial node may create the cluster.  Votes and log ids are the openraft
    library's: [vote_cmp] is the order of votes, [index] the index of a log id.
    The texts of the reasons are left out.

    The decisions are safe against any order of votes ([VoteOrder]); the
    witnesses use the order of the library: the term, then the node, then
    whether the vote is committed. *)

From S2P Require Import Prelude Cluster.
From stdpp Require Import options.

Definition quorum (n : nat) : nat := n / 2 + 1.
Definition rejoin_answers (n : nat) : nat := (n - quorum n) + 1.
(** The entries of a [BTreeMap] in the order of its iterator. *)
Definition bt_entries {A : Type} (m : gmap NodeId A) : list (NodeId * A) := omap (λ n, pair n <$> m !! n) (bt_iter (dom m)).

Section status.
Context {Vote LogId : Type} `{!EqDecision LogId} (index : LogId → N).
Context (vote_cmp : Vote → Vote → option comparison) (is_committed : Vote → bool) (voted_for : Vote → option NodeId) (term : Vote → N).

Record NodeStatus := mkNodeStatus { ns_vote : option Vote; ns_last_log_id : option LogId; ns_committed : option LogId; ns_has_state : bool }.
Definition established (s : NodeStatus) : bool :=
  match ns_vote s with Some v => is_committed v | None => false end ||
  match ns_last_log_id s with Some l => (1 <=? index l)%N | None => false end ||
  bool_decide (is_Some (ns_committed s)).
Record MembershipView := mkMembershipView {
  mv_log_id : option LogId;
  mv_committed : bool;
  mv_configs : list (gset NodeId);
  mv_nodes : gmap NodeId string;
}.
Definition is_joint (m : MembershipView) : bool := (1 <? length (mv_configs m))%nat.
Definition voters (m : MembershipView) : gset NodeId := ⋃ mv_configs m.
Definition learners (m : MembershipView) : gset NodeId := filter (λ n, n ∉ voters m) (dom (mv_nodes m)).
Definition is_member (m : MembershipView) (id : NodeId) : bool := bool_decide (id ∈ dom (mv_nodes m)).
Record NodeStatusEx := mkNodeStatusEx {
  sx_status : NodeStatus;
  sx_raft_running : bool;
  sx_rejoining : bool;
  sx_term : N;
  sx_leader : option NodeId;
  sx_last_applied : option LogId;
  sx_highest_member : NodeId;
  sx_membership : MembershipView;
}.
Definition from_status (s : NodeStatus) : NodeStatusEx :=
  mkNodeStatusEx s false false (match ns_vote s with Some v => term v | None => 0 end) None None 0 (mkMembershipView None false [] ∅).

(** ** Votes *)
Inductive Adopt := TooFew | AdoptVote (v : option Vote) | Incomparable.
(** The loop: [None] when two votes cannot be compared. *)
Fixpoint best_vote (votes : list Vote) (best : option Vote) : option (option Vote) :=
  match votes with
  | [] => Some best
  | v :: votes =>
      match best with
      | None => best_vote votes (Some v)
      | Some b =>
          match vote_cmp v b with
          | Some Gt => best_vote votes (Some v)
          | Some _ => best_vote votes (Some b)
          | None => None
          end
      end
  end.
Definition adopt_vote (n : nat) (answers : gmap NodeId NodeStatus) (local : option Vote) : Adopt :=
  if (size answers <? rejoin_answers n)%nat then TooFew
  else
    let votes := omap (λ x, ns_vote x.2) (bt_entries answers) in
    match best_vote votes local with
    | None => Incomparable
    | Some best =>
        match best with
        | Some b =>
            if existsb (λ v, bool_decide (vote_cmp v b = None)) (votes ++ match local with Some l => [l] | None => [] end) then Incomparable
            else AdoptVote best
        | None => AdoptVote best
        end
    end.

(** ** The decision *)
Inductive StartDecision :=
  | Wait (fresh : bool)
  | Join (vs : gset NodeId) (highest_member : NodeId)
  | Rejoin (vote : option Vote) (membership : MembershipView)
  | Refuse.
Definition mv_index (m : MembershipView) : option N := index <$> mv_log_id m.
(** [Iterator::max_by_key]: the last of the largest. *)
Definition newer (best m : MembershipView) : MembershipView :=
  match mv_index best, mv_index m with
  | Some i, Some j => if (i <=? j)%N then m else best
  | None, _ => m
  | Some _, None => best
  end.
Definition knows (m : MembershipView) : bool :=
  mv_committed m && bool_decide (is_Some (mv_log_id m)) && negb (bool_decide (mv_nodes m = ∅)).
Definition learned_membership (answers : gmap NodeId NodeStatusEx) : option MembershipView :=
  match filter (λ m, knows m = true) ((λ x, sx_membership x.2) <$> bt_entries answers) with
  | [] => None
  | m :: ms => Some (foldl newer m ms)
  end.
Definition is_newer (m_index : N) (a : NodeStatusEx) : bool :=
  match mv_index (sx_membership a) with Some i => (m_index <? i)%N | None => false end.
Definition holds_membership (m : MembershipView) (a : NodeStatusEx) : bool := bool_decide (mv_log_id (sx_membership a) = mv_log_id m).
Definition startup_decision (id : NodeId) (answers : gmap NodeId NodeStatusEx) (local : option Vote) : StartDecision :=
  match learned_membership answers with
  | None => Wait false
  | Some m =>
      match mv_index m with
      | None => Wait false
      | Some m_index =>
          if is_joint m then Wait false
          else
            let vs := voters m in
            if bool_decide (vs = ∅) then Wait false
            else
              let others := vs ∖ {[id]} in
              let need := rejoin_answers (size vs) in
              if bool_decide (id ∈ vs) && (size others <? need)%nat then Wait false
              else
                let from_voters := filter (λ x, x.1 ∈ others) answers in
                if bool_decide (filter (λ x, is_newer m_index x.2 = true) from_voters ≠ ∅) then Wait false
                else
                  let p := filter (λ x, negb (sx_rejoining x.2) && holds_membership m x.2 = true) from_voters in
                  if (size p <? need)%nat then Wait false
                  else if is_member m id then
                    match adopt_vote (size vs) (sx_status <$> p) local with
                    | AdoptVote vote =>
                        if match vote with Some v => is_committed v && bool_decide (voted_for v = Some id) | None => false end then Wait true
                        else Rejoin vote m
                    | TooFew => Wait false
                    | Incomparable => Wait true
                    end
                  else if bool_decide (filter (λ x, is_member (sx_membership x.2) id && is_newer m_index x.2 = true) answers ≠ ∅) then Wait false
                  else
                    let holders := filter (λ a, holds_membership m a = true) (bt_entries answers).*2 in
                    let highest := foldr N.max 0%N (sx_highest_member <$> holders) in
                    if (id <=? highest)%N then Refuse
                    else if existsb (λ a, match sx_last_applied a with Some l => (m_index <=? index l)%N | None => false end) holders then Join vs highest
                    else Wait false
      end
  end.
(** [removal_confirmed] gives the reason of the refusal; here whether. *)
Definition removal_confirmed (id : NodeId) (answers : gmap NodeId NodeStatusEx) : bool :=
  match startup_decision id answers None with
  | Refuse =>
      match learned_membership answers with
      | None => false
      | Some m =>
          let holding := size (filter (λ x, bool_decide (x.1 ∈ voters m) && negb (sx_rejoining x.2) && holds_membership m x.2 = true) answers) in
          (quorum (size (voters m)) <=? holding)%nat
      end
  | _ => false
  end.

(** ** Creating a cluster *)
Inductive Bootstrap := Initialize | BootstrapRejoin (peer : NodeId) | BootstrapWait.
Definition bootstrap_decision (n : nat) (answers : gmap NodeId NodeStatus) : Bootstrap :=
  match head (filter (λ x, established x.2 = true) (bt_entries answers)) with
  | Some (p, _) => BootstrapRejoin p
  | None =>
      if (n <=? 1)%nat then Initialize
      else
        let all_empty := forallb (λ x, negb (ns_has_state x.2)) (bt_entries answers) in
        if (all_empty && (quorum n <=? size answers)%nat) || (n <=? size answers + 1)%nat then Initialize else BootstrapWait
  end.
End status.
Arguments StartDecision : clear implicits.
Arguments Adopt : clear implicits.

(** ** Quorums meet *)
Lemma sets_meet (V A B : gset NodeId) : A ⊆ V → B ⊆ V → size V < size A + size B → ∃ x, x ∈ A ∧ x ∈ B.
Proof.
  intros HA HB Hs. destruct (decide (A ∩ B ≡ ∅)) as [He|Hne].
  - assert (size (A ∪ B) = size A + size B) as Hu by (apply size_union; set_solver). assert (size (A ∪ B) ≤ size V) by (apply subseteq_size; set_solver). lia.
  - apply set_choose in Hne as [x Hx]. exists x. set_solver.
Qed.
Lemma rejoin_quorum n : n < rejoin_answers n + quorum n.
Proof. unfold rejoin_answers. lia. Qed.
Lemma quorum_quorum n : n < quorum n + quorum n.
Proof. unfold quorum. pose proof (Nat.div_mod_eq n 2). pose proof (Nat.mod_upper_bound n 2). lia. Qed.
Lemma elem_of_bt_entries {A : Type} (m : gmap NodeId A) n a : (n, a) ∈ bt_entries m ↔ m !! n = Some a.
Proof.
  unfold bt_entries. rewrite list_elem_of_omap. split.
  - intros (k & _ & (b & Hb & [= -> ->])%fmap_Some). done.
  - intros Hn. exists n. rewrite elem_of_bt_iter, elem_of_dom, Hn. split; [by eexists|done].
Qed.
(** The entries of a map that pass a test, as a set of nodes. *)
Lemma filter_meet {A : Type} (P : NodeId * A → Prop) `{!∀ x, Decision (P x)} (m : gmap NodeId A) (V Q : gset NodeId) :
  (∀ n a, m !! n = Some a → P (n, a) → n ∈ V) → Q ⊆ V → size V < size (filter P m) + size Q → ∃ n a, n ∈ Q ∧ m !! n = Some a ∧ P (n, a).
Proof.
  intros HV HQ Hs. destruct (sets_meet V (dom (filter P m)) Q) as (n & Hn & Hq); [|done|by rewrite size_dom|].
  - intros n (a & [Hm HP]%map_lookup_filter_Some)%elem_of_dom. by eapply HV.
  - apply elem_of_dom in Hn as (a & [Hm HP]%map_lookup_filter_Some). by exists n, a.
Qed.

(** What the code needs of openraft's order of votes. *)
Section order.
Context {Vote LogId : Type} `{!EqDecision LogId} (index : LogId → N).
Context (vote_cmp : Vote → Vote → option comparison) (is_committed : Vote → bool) (voted_for : Vote → option NodeId).
Definition vote_le (a b : Vote) : Prop := vote_cmp a b = Some Lt ∨ vote_cmp a b = Some Eq.
Class VoteOrder : Prop := {
  vo_refl v : vote_le v v;
  vo_trans a b c : vote_le a b → vote_le b c → vote_le a c;
  vo_flip a b : vote_cmp a b = Some Gt → vote_le b a;
}.
Context {HVO : VoteOrder}.
#[local] Abbreviation NodeStatus := (@NodeStatus Vote LogId).
#[local] Abbreviation NodeStatusEx := (@NodeStatusEx Vote LogId).
Implicit Types (answers : gmap NodeId NodeStatusEx).
(** [w] is not below [v]. *)
Definition covers (w v : option Vote) : Prop := ∀ x, v = Some x → ∃ y, w = Some y ∧ vote_le x y.
Lemma covers_refl v : covers v v.
Proof using HVO. intros x ->. exists x. split; [done|apply vo_refl]. Qed.
Lemma covers_trans u v w : covers u v → covers v w → covers u w.
Proof using HVO. intros H1 H2 x Hx. destruct (H2 x Hx) as (y & Hy & Hxy). destruct (H1 y Hy) as (z & Hz & Hyz). exists z. split; [done|by eapply vo_trans]. Qed.
Lemma best_vote_covers votes best w : best_vote vote_cmp votes best = Some w → covers w best ∧ ∀ v, v ∈ votes → covers w (Some v).
Proof using HVO.
  revert best. induction votes as [|v votes IH]; intros best; cbn [best_vote].
  { intros [= ->]. split; [apply covers_refl|]. intros v ?%not_elem_of_nil. done. }
  assert (∀ b, covers b best → covers b (Some v) → best_vote vote_cmp votes b = Some w → covers w best ∧ ∀ v', v' ∈ v :: votes → covers w (Some v')) as Hstep.
  { intros b H1 H2 Hb. destruct (IH _ Hb) as [H3 H4]. split; [by eapply covers_trans|]. intros v' [->|?]%elem_of_cons; [by eapply covers_trans|auto]. }
  destruct best as [b|]; [|by apply Hstep; [intros ? ?|apply covers_refl]]. destruct (vote_cmp v b) as [[]|] eqn:Hc; [..|done]; apply Hstep; try apply covers_refl.
  - intros ? [= <-]. exists b. split; [done|by right].
  - intros ? [= <-]. exists b. split; [done|by left].
  - intros ? [= <-]. exists v. split; [done|by apply vo_flip].
Qed.
Lemma adopt_vote_covers n (ans : gmap NodeId NodeStatus) local w :
  adopt_vote vote_cmp n ans local = AdoptVote w → covers w local ∧ ∀ k s, ans !! k = Some s → covers w (ns_vote s).
Proof using HVO.
  unfold adopt_vote. case_match; [done|]. cbv zeta. destruct (best_vote _ _ local) as [best|] eqn:Hb; [|done]. apply best_vote_covers in Hb as [H1 H2]. intros Hw.
  assert (best = w) as -> by (repeat case_match; by simplify_eq). split; [done|]. intros k s Hk v Hv. eapply H2; [|done].
  apply list_elem_of_omap. exists (k, s). by rewrite elem_of_bt_entries.
Qed.
Lemma learned_committed answers m : learned_membership index answers = Some m → knows m = true ∧ ∃ n a, answers !! n = Some a ∧ sx_membership a = m.
Proof using.
  clear HVO vote_cmp is_committed voted_for. unfold learned_membership. intros Hm. assert (m ∈ filter (λ m, knows m = true) ((λ x, sx_membership x.2) <$> bt_entries answers)) as Hin.
  { destruct (filter _ _) as [|m0 ms]; [done|]. injection Hm as <-. revert m0. induction ms as [|m1 ms IH]; intros m0; [by left|]. cbn [foldl].
    assert (newer index m0 m1 = m0 ∨ newer index m0 m1 = m1) as Hn by (unfold newer; repeat case_match; auto).
    specialize (IH (newer index m0 m1)). rewrite elem_of_cons in IH. destruct IH as [->|?]; [destruct Hn as [->| ->]; set_solver|set_solver]. }
  apply list_elem_of_filter in Hin as [Hk ([n a] & -> & Ha%elem_of_bt_entries)%list_elem_of_fmap]. split; [done|]. by exists n, a.
Qed.

(** ** The decisions are safe *)
(** What a decision that is not to wait rests on. *)
Record vouched (id : NodeId) answers (m : MembershipView) : Prop := {
  vc_learned : learned_membership index answers = Some m;
  vc_committed : mv_committed m = true;
  vc_uniform : length (mv_configs m) ≤ 1;
  vc_latest n a i j : answers !! n = Some a → n ∈ voters m → n ≠ id → mv_index index (sx_membership a) = Some i → mv_index index m = Some j → (i ≤ j)%N;
  vc_quorum Q : Q ⊆ voters m → quorum (size (voters m)) ≤ size Q →
    ∃ n a, n ∈ Q ∧ n ≠ id ∧ answers !! n = Some a ∧ sx_rejoining a = false ∧ mv_log_id (sx_membership a) = mv_log_id m;
}.
(** The answers that count in a decision. *)
Definition counted (id : NodeId) (m : MembershipView) (x : NodeId * NodeStatusEx) : Prop :=
  x.1 ∈ voters m ∖ {[id]} ∧ sx_rejoining x.2 = false ∧ mv_log_id (sx_membership x.2) = mv_log_id m.
Lemma counted_elem id answers m n a :
  filter (λ x, negb (sx_rejoining x.2) && holds_membership m x.2 = true) (filter (λ x, x.1 ∈ voters m ∖ {[id]}) answers) !! n = Some a ↔
  answers !! n = Some a ∧ counted id m (n, a).
Proof using.
  rewrite !map_lookup_filter_Some. unfold counted, holds_membership. cbn [fst snd]. rewrite andb_true_iff, negb_true_iff, bool_decide_eq_true. tauto.
Qed.
Lemma highest_holder id answers m :
  (id ≤ foldr N.max 0 (sx_highest_member <$> filter (λ a, holds_membership m a = true) (bt_entries answers).*2))%N →
  id = 0%N ∨ ∃ n a, answers !! n = Some a ∧ mv_log_id (sx_membership a) = mv_log_id m ∧ (id ≤ sx_highest_member a)%N.
Proof using.
  assert (∀ a, a ∈ filter (λ a, holds_membership m a = true) (bt_entries answers).*2 → ∃ n, answers !! n = Some a ∧ mv_log_id (sx_membership a) = mv_log_id m) as Hin.
  { intros a [Ha ([n b] & -> & Hb%elem_of_bt_entries)%list_elem_of_fmap]%list_elem_of_filter. exists n. split; [done|]. by apply bool_decide_eq_true in Ha. }
  revert Hin. induction (filter (λ a, holds_membership m a = true) (bt_entries answers).*2) as [|a l IH]; intros Hin Hle; cbn in Hle; [left; lia|].
  destruct (N.le_gt_cases id (sx_highest_member a)) as [Ha|Ha]; [|apply IH; [intros b Hb; apply Hin; by right|lia]].
  destruct (Hin a ltac:(by left)) as (n & H1 & H2). right. by exists n, a.
Qed.
Lemma decided_vouched id answers local d :
  startup_decision index vote_cmp is_committed voted_for id answers local = d → (∀ fresh, d ≠ Wait fresh) →
  ∃ m, vouched id answers m ∧
    match d with
    | Rejoin vote m' => m' = m ∧ is_member m id = true ∧
        (∃ p, adopt_vote vote_cmp (size (voters m)) (sx_status <$> p) local = AdoptVote vote ∧ ∀ n a, p !! n = Some a ↔ answers !! n = Some a ∧ counted id m (n, a)) ∧
        ∀ v, vote = Some v → is_committed v = true → voted_for v ≠ Some id
    | Join vs _ => vs = voters m ∧ is_member m id = false
    | Refuse => is_member m id = false ∧ (id = 0%N ∨ ∃ n a, answers !! n = Some a ∧ mv_log_id (sx_membership a) = mv_log_id m ∧ (id ≤ sx_highest_member a)%N)
    | Wait _ => True
    end.
Proof using.
  clear HVO. intros Hd Hw. unfold startup_decision in Hd. destruct (learned_membership index answers) as [m|] eqn:Hm; [|by destruct (Hw false)].
  destruct (mv_index index m) as [m_index|] eqn:Hmi; [|by destruct (Hw false)]. destruct (is_joint m) eqn:Hj; [by destruct (Hw false)|]. cbv zeta in Hd.
  case_bool_decide; [by destruct (Hw false)|]. destruct (bool_decide (id ∈ voters m) && _) eqn:Hsingle; [by destruct (Hw false)|].
  case_bool_decide as Hnew; [by destruct (Hw false)|]. set (p := filter (λ x, negb (sx_rejoining x.2) && holds_membership m x.2 = true) _) in Hd.
  destruct (Nat.ltb_spec (size p) (rejoin_answers (size (voters m)))) as [|Hsize]; [by destruct (Hw false)|].
  destruct (learned_committed answers m Hm) as [Hk _]. exists m. split.
  - split; [done| | | |].
    + unfold knows in Hk. by apply andb_true_iff in Hk as [[? _]%andb_true_iff _].
    + unfold is_joint in Hj. by apply Nat.ltb_ge in Hj.
    + intros n a i j Ha Hn Hne Hi Hj'. simplify_eq. apply N.nlt_ge. intros Hlt. assert (filter (λ x, is_newer index m_index x.2 = true) (filter (λ x, x.1 ∈ voters m ∖ {[id]}) answers) !! n = Some a) as Hin; [|by rewrite Hnew, lookup_empty in Hin].
      apply map_lookup_filter_Some. split; [|unfold is_newer; cbn; rewrite Hi; by apply N.ltb_lt].
      apply map_lookup_filter_Some. cbn. set_solver.
    + intros Q HQ Hq. destruct (sets_meet (voters m) (dom p) Q) as (n & Hn & Hq'); [|done|rewrite size_dom; pose proof (rejoin_quorum (size (voters m))); lia|].
      * intros n (a & [_ [? _]]%counted_elem)%elem_of_dom. cbn in *. set_solver.
      * apply elem_of_dom in Hn as (a & [Ha (Hn & Hr & Hl)]%counted_elem). exists n, a. split_and!; try done. cbn in Hn. set_solver.
  - destruct (is_member m id) eqn:Hmem.
    + destruct (adopt_vote _ _ _ _) as [|vote|] eqn:Hv; [by destruct (Hw false)| |by destruct (Hw true)].
      destruct (match vote with Some v => _ | None => _ end) eqn:Hown; [by destruct (Hw true)|]. subst d. split_and!; [done|done| |].
      * exists p. split; [done|]. intros n a. apply counted_elem.
      * intros v -> Hc Hf. rewrite Hc in Hown. cbn in Hown. by apply bool_decide_eq_false in Hown.
    + case_bool_decide; [by destruct (Hw false)|]. destruct (N.leb_spec id (foldr N.max 0%N (sx_highest_member <$> filter (λ a, holds_membership m a = true) (bt_entries answers).*2))) as [Hle|].
      * subst d. split; [done|]. by apply highest_holder.
      * case_match; [by subst d|by destruct (Hw false)].
Qed.
End order.

(** ** The library's votes *)
Record Vote := mkVote { vt_term : N; vt_node : NodeId; vt_committed : bool }.
Definition vote_key (v : Vote) : N * N * N := (vt_term v, vt_node v, if vt_committed v then 1%N else 0%N).
Definition lex (x : comparison) (y : comparison) : comparison := match x with Eq => y | _ => x end.
Definition key_cmp (a b : N * N * N) : comparison := lex (lex (a.1.1 ?= b.1.1)%N (a.1.2 ?= b.1.2)%N) (a.2 ?= b.2)%N.
Definition adv_cmp (a b : Vote) : option comparison := Some (key_cmp (vote_key a) (vote_key b)).
Definition key_le (a b : N * N * N) : Prop :=
  (a.1.1 < b.1.1 ∨ a.1.1 = b.1.1 ∧ (a.1.2 < b.1.2 ∨ a.1.2 = b.1.2 ∧ a.2 ≤ b.2))%N.
Lemma key_cmp_le a b : key_cmp a b ≠ Gt ↔ key_le a b.
Proof.
  destruct a as [[a1 a2] a3], b as [[b1 b2] b3]. unfold key_cmp, key_le, lex. cbn [fst snd].
  destruct (N.compare_spec a1 b1), (N.compare_spec a2 b2), (N.compare_spec a3 b3); subst;
    (split; [intros Hne; first [by destruct Hne|lia]|intros Hle Hgt; first [done|lia]]).
Qed.
Lemma adv_le a b : vote_le adv_cmp a b ↔ key_le (vote_key a) (vote_key b).
Proof. rewrite <-key_cmp_le. unfold vote_le, adv_cmp. destruct (key_cmp _ _); naive_solver. Qed.
Lemma key_le_gt a b : key_cmp a b = Gt → key_le b a.
Proof.
  destruct a as [[a1 a2] a3], b as [[b1 b2] b3]. unfold key_cmp, key_le, lex. cbn [fst snd].
  destruct (N.compare_spec a1 b1), (N.compare_spec a2 b2), (N.compare_spec a3 b3); subst; intros; try done; lia.
Qed.
#[export] Instance adv_order : VoteOrder adv_cmp.
Proof.
  split.
  - intros v. rewrite adv_le. unfold key_le. lia.
  - intros a b c. rewrite !adv_le. unfold key_le. lia.
  - intros a b [= H]. rewrite adv_le. by apply key_le_gt.
Qed.

(** ** Rejoining is safe *)
(** C16. A node that lost its data rejoins only with a vote that it cannot have
    gone beyond: every quorum of the current voters, one with the node's lost
    votes in it too, has another voter that holds the membership, is not
    rejoining itself and whose vote is not above the adopted one; the node's
    own remaining vote is not above it, and it is not the node's own
    leadership.  The membership is committed and uniform, the node is in it,
    and no other voter knows a newer one. *)
Theorem rejoin_safe {V LogId : Type} `{!EqDecision LogId} (index : LogId → N) (vote_cmp : V → V → option comparison) is_committed voted_for
    `{!VoteOrder vote_cmp} id answers local vote m :
  startup_decision index vote_cmp is_committed voted_for id answers local = Rejoin vote m →
  (∀ Q, Q ⊆ voters m → quorum (size (voters m)) ≤ size Q →
     ∃ n a, n ∈ Q ∧ n ≠ id ∧ answers !! n = Some a ∧ sx_rejoining a = false ∧ mv_log_id (sx_membership a) = mv_log_id m ∧
       covers vote_cmp vote (ns_vote (sx_status a))) ∧
  covers vote_cmp vote local ∧ (∀ v, vote = Some v → is_committed v = true → voted_for v ≠ Some id) ∧
  is_member m id = true ∧ mv_committed m = true ∧ length (mv_configs m) ≤ 1 ∧
  (∀ n a i j, answers !! n = Some a → n ∈ voters m → n ≠ id → mv_index index (sx_membership a) = Some i → mv_index index m = Some j → (i ≤ j)%N).
Proof.
  intros Hd. destruct (decided_vouched index vote_cmp is_committed voted_for id answers local _ Hd ltac:(done)) as (m' & [H1 H2 H3 H4 H5] & -> & Hmem & (p & Hp & Hin) & Hown).
  destruct (adopt_vote_covers vote_cmp _ _ _ _ Hp) as [Hl Hc]. split_and!; try done. intros Q HQ Hq.
  destruct (H5 Q HQ Hq) as (n & a & Hn & Hne & Ha & Hr & Hm). exists n, a. split_and!; try done. apply (Hc n). rewrite lookup_fmap.
  assert (p !! n = Some a) as ->; [|done]. apply Hin. split; [done|]. split_and!; [|done|done]. cbn. set_solver.
Qed.
(** Three voters; node 3 lost its data. *)
Definition demo_members : MembershipView := mkMembershipView (Some 7%N) true [{[1; 2; 3]}]%N {[1%N := "a"; 2%N := "b"; 3%N := "c"]}%string.
Definition demo_answer (v : Vote) : NodeStatusEx (Vote := Vote) (LogId := N) :=
  mkNodeStatusEx (mkNodeStatus (Some v) (Some 9%N) (Some 8%N) true) true false (vt_term v) None (Some 9%N) 3 demo_members.
Definition demo_answers : gmap NodeId (NodeStatusEx (Vote := Vote) (LogId := N)) :=
  {[1%N := demo_answer (mkVote 4 1 true); 2%N := demo_answer (mkVote 5 2 false)]}.
Definition committed_for (v : Vote) : option NodeId := Some (vt_node v).
Lemma rejoin_safe_witness : covers adv_cmp (Some (mkVote 5 2 false)) (Some (mkVote 4 3 false)).
Proof.
  apply (rejoin_safe (id : N → N) adv_cmp vt_committed committed_for 3 demo_answers (Some (mkVote 4 3 false)) (Some (mkVote 5 2 false)) demo_members).
  vm_compute. reflexivity.
Defined.

(** A node is told that it was removed only on a committed, uniform membership
    it is not in and that every quorum of the voters has a holder of. *)
Lemma removal_safe {V LogId : Type} `{!EqDecision LogId} (index : LogId → N) (vote_cmp : V → V → option comparison) is_committed voted_for id answers :
  removal_confirmed index vote_cmp is_committed voted_for id answers = true →
  ∃ m, learned_membership index answers = Some m ∧ mv_committed m = true ∧ length (mv_configs m) ≤ 1 ∧ is_member m id = false ∧
    ∀ Q, Q ⊆ voters m → quorum (size (voters m)) ≤ size Q →
      ∃ n a, n ∈ Q ∧ answers !! n = Some a ∧ sx_rejoining a = false ∧ mv_log_id (sx_membership a) = mv_log_id m.
Proof.
  unfold removal_confirmed. destruct (startup_decision _ _ _ _ id answers None) eqn:Hd; try done.
  destruct (decided_vouched index vote_cmp is_committed voted_for id answers None _ Hd ltac:(done)) as (m & [H1 H2 H3 H4 H5] & Hmem & _).
  rewrite H1. intros Hq%Nat.leb_le. exists m. split_and!; try done. intros Q HQ HQs. destruct (H5 Q HQ HQs) as (n & a & ? & _ & ? & ? & ?). by exists n, a.
Qed.

(** ** Creating a cluster is safe *)
Section initialize.
Context {V LogId : Type} (index : LogId → N) (is_committed : V → bool).
Implicit Types (answers : gmap NodeId (NodeStatus (Vote := V) (LogId := LogId))) (vs Q : gset NodeId).
Lemma initialize_fresh n0 answers n s :
  bootstrap_decision index is_committed n0 answers = Initialize → answers !! n = Some s → established index is_committed s = false.
Proof.
  unfold bootstrap_decision. intros Hd Hn. destruct (head (filter _ (bt_entries answers))) as [[p s']|] eqn:Hh; [done|].
  destruct (established index is_committed s) eqn:He; [|done]. exfalso. apply head_None in Hh.
  assert ((n, s) ∈ filter (λ x, established index is_committed x.2 = true) (bt_entries answers)) as Hin.
  { apply list_elem_of_filter. split; [done|]. by apply elem_of_bt_entries. }
  rewrite Hh in Hin. by apply not_elem_of_nil in Hin.
Qed.
(** The two rules: a quorum of nodes without a state, or every other node. *)
Lemma initialize_rules n answers :
  bootstrap_decision index is_committed n answers = Initialize → 2 ≤ n →
  (∀ k s, answers !! k = Some s → ns_has_state s = false) ∧ quorum n ≤ size answers ∨ n ≤ size answers + 1.
Proof.
  unfold bootstrap_decision. intros Hd Hn. destruct (head _) as [[p s]|]; [done|]. destruct (Nat.leb_spec n 1); [lia|]. cbv zeta in Hd.
  destruct (_ && _ || _) eqn:Hb in Hd; [|done]. apply orb_true_iff in Hb as [[He Hb%Nat.leb_le]%andb_true_iff|Hb%Nat.leb_le]; [left|by right].
  split; [|done]. intros k s Hk%elem_of_bt_entries. rewrite forallb_forall in He. apply list_elem_of_In in Hk. apply He in Hk.
  by apply negb_true_iff in Hk.
Qed.
Lemma initialize_quorum id vs answers :
  bootstrap_decision index is_committed (size vs) answers = Initialize → id ∈ vs → dom answers ⊆ vs ∖ {[id]} → 2 ≤ size vs →
  ∀ Q, Q ⊆ vs → quorum (size vs) ≤ size Q →
  ∃ n s, n ∈ Q ∧ n ≠ id ∧ answers !! n = Some s ∧ (ns_has_state s = false ∨ dom answers = vs ∖ {[id]}).
Proof.
  intros Hd Hid Hsub H2 Q HQ Hq. pose proof (initialize_rules _ _ Hd H2) as Hr.
  assert (2 ≤ quorum (size vs)) as Hq2.
  { unfold quorum. pose proof (Nat.Div0.div_le_mono 2 (size vs) 2 H2) as Hd2. change (2 `div` 2) with 1 in Hd2. lia. }
  destruct (sets_meet vs (dom answers) Q) as (n & Ha & Hin); [set_solver|done| |].
  - rewrite size_dom. pose proof (quorum_quorum (size vs)). destruct Hr as [[_ ?]|?]; lia.
  - apply elem_of_dom in Ha as [s Hs]. exists n, s. split_and!; [done| |done|].
    + apply elem_of_dom_2 in Hs. set_solver.
    + destruct Hr as [[He _]|Hr]; [left; eauto|right]. apply set_subseteq_size_eq; [done|].
      rewrite size_difference, size_singleton, size_dom by set_solver. lia.
Qed.
End initialize.

(** C17. An initial node creates the cluster only if no other node can have led
    one.  No node that answered is established.  With two or more voters every
    quorum of them has a node other than this one that answered, and it has
    no state unless all the other voters answered.  So a leader elected by a
    quorum of the voters, each of which kept a state, and itself established,
    can only have been this node, and then all the others answered. *)
Theorem bootstrap_safe {V LogId : Type} (index : LogId → N) (is_committed : V → bool) id (vs : gset NodeId) (answers : gmap NodeId NodeStatus) :
  bootstrap_decision index is_committed (size vs) answers = Initialize → id ∈ vs → dom answers ⊆ vs ∖ {[id]} →
  (∀ n s, answers !! n = Some s → established index is_committed s = false) ∧
  (2 ≤ size vs → ∀ Q, Q ⊆ vs → quorum (size vs) ≤ size Q →
     (∃ n s, n ∈ Q ∧ n ≠ id ∧ answers !! n = Some s ∧ (ns_has_state s = false ∨ dom answers = vs ∖ {[id]})) ∧
     ∀ L, L ∈ Q → (∀ n s, n ∈ Q → answers !! n = Some s → ns_has_state s = true) →
       (∀ s, answers !! L = Some s → established index is_committed s = true) → L = id ∧ dom answers = vs ∖ {[id]}).
Proof.
  intros Hd Hid Hsub. pose proof (λ n s, initialize_fresh _ _ _ _ n s Hd) as Hf. split; [done|]. intros H2 Q HQ Hq.
  destruct (initialize_quorum _ _ _ _ _ Hd Hid Hsub H2 Q HQ Hq) as (n & s & Hn & Hne & Ha & Hs). split; [by exists n, s|].
  intros L HL Hst He. assert (dom answers = vs ∖ {[id]}) as Hall by (destruct Hs as [Hs|]; [by rewrite (Hst _ _ Hn Ha) in Hs|done]).
  split; [|done]. destruct (decide (L = id)) as [|Hl]; [done|].
  assert (L ∈ dom answers) as [x Hx]%elem_of_dom by set_solver. specialize (He _ Hx). by rewrite (Hf _ _ Hx) in He.
Qed.
Lemma bootstrap_safe_witness :
  let answers : gmap N (NodeStatus (Vote := Vote) (LogId := N)) :=
    {[2%N := mkNodeStatus None None None false; 3%N := mkNodeStatus None None None false; 4%N := mkNodeStatus None None None false]} in
  ∃ n s, n ∈ ({[1; 4; 5]}%N : gset N) ∧ n ≠ 1%N ∧ answers !! n = Some s ∧ (ns_has_state s = false ∨ dom answers = {[1; 2; 3; 4; 5]}%N ∖ {[1%N]}).
Proof.
  intros answers.
  apply (bootstrap_safe (id : N → N) vt_committed 1 {[1; 2; 3; 4; 5]}%N answers);
    [vm_compute; reflexivity|set_solver|unfold answers; set_solver|vm_compute; lia|set_solver|vm_compute; lia].
Defined.
